(* ===== verification/_CoqProject ===== *)
-Q . S2P
Prelude.v
GoLib.v
S3.v
Concrete.v
Codec.v
PackedRefs.v
Cue.v
PackTable.v
PackIndex.v
Storer.v
StorerSpec.v
RepoConfig.v
Refs.v
RefsSpec.v
Objects.v
ObjectsSpec.v
Writer.v
Delta.v
Segment.v
SegmentSpec.v
PackScan.v
ConcretePack.v
PackScanSpec.v
Resolver.v
ResolverSpec.v
ResolverContent.v
ResolverComplete.v
PushSpec.v
ReceivePack.v
ReceivePackSpec.v
GoText.v
Lfs.v
LfsSpec.v
LfsLocks.v
LfsLocksSpec.v
RepoFs.v
Daemon.v
DaemonSpec.v
Bundler.v
BundlerSpec.v
PackCache.v
PackCacheSpec.v
PackFetch.v
PackFetchSpec.v
GitObjects.v
Snapshot.v
ConcreteGit.v
SnapshotSpec.v
PushEvents.v
PushEventsSpec.v
PushLimit.v
Sandbox.v
Webhook.v
WebhookSpec.v
Hooks.v
HooksSpec.v
LfsHttp.v
LfsHttpSpec.v
S3Client.v
ListingCache.v
ListingCacheSpec.v
UnixMeta.v
S3Read.v
S3ReadSpec.v
S3Fs.v
S3FsSpec.v
S3PackCache.v
S3PackCacheSpec.v
