(* ===== verification/Prelude.v ===== *)
(** * objgit: a verification library for the git-over-object-storage daemon

    objgit serves git repositories (HTTP, SSH and git protocol, Git LFS,
    push hooks and webhooks) out of one bucket of an S3-compatible object store.
    This library models the program's own logic and proves what makes it
    correct.  Every definition is a translation of Go code under [src/]; third
    parties are type classes of operations with a separate class of laws.

    ** The program and the files that model it

    A request names a repository by a path.  [repofs] turns the path into a
    prefix of the bucket, [auth] decides, and the daemon opens a _storer_ on the
    prefix.  The storer keeps references in one conditionally written object
    and objects in _containers_: a [.bin] of payloads and a [.cue] that indexes
    it.  A push is scanned, its deltas resolved, its objects written into
    containers which are queued for upload; then its reference commands are
    committed by compare-and-swap.  After that the checkout image of each tip
    is built, hooks run on a sandboxed filesystem and webhooks are sent.  Reads
    go through the overlay of what is not uploaded yet, the containers and
    their local copies, and loose objects.

    Foundations:
    - [Prelude]: bytes, 64-bit wrap-around, big-endian integers, list lemmas and
      the tactics and hints of the library.
    - [GoLib], [GoText]: Go's errors, strings, sorting, hex, base64, UTF-8 case
      folding; go-git's hashes ([GoGit]) and zstd ([Zstd]) as classes.
    - [S3]: the bucket.  Requests act on an abstract world; each law places a
      request at one instant between arbitrary actions of other clients ([env]).
    - [Concrete], [ConcretePack], [ConcreteGit]: concrete instances of the
      third-party classes, which the witnesses compute with.

    internal/storage/tigris, the storer:
    - [Codec] (compress.go), [PackedRefs] (packedrefs.go), [Cue] (the .cue
      formats of packindex.go), [PackTable] (packtable.go), [PackIndex] (the
      index of packindex.go): data formats and tables.
    - [Storer], [StorerSpec] (tigris.go, iter.go, index.go, upload.go): keys,
      listings, the upload queue and [flush].
    - [RepoConfig] (config.go); [Refs], [RefsSpec] (refcache.go, refs.go).
    - [Objects], [ObjectsSpec] (objects.go, packindex.go, deltaobject.go,
      iter.go): reads; [PackFetch], [PackFetchSpec] (packindex.go): the
      background downloads that give reads their local copies; [PackCache], [PackCacheSpec]
      (packcache.go): the cache those downloads share.
    - [Writer] (writer.go); [Delta], [PackScan], [PackScanSpec] (indexpack.go);
      [Segment], [SegmentSpec] (packwriter.go); [Resolver], [ResolverSpec],
      [ResolverContent], [ResolverComplete] (indexpack.go, packwriter.go) and
      [PushSpec]: from the bytes of a push to sealed containers and back.

    The other packages under internal/ and cmd/objgitd:
    - [RepoFs] (repofs, auth), [Daemon], [DaemonSpec]: opening a repository.
    - [PushLimit] (pushlimit.go), [ReceivePack], [ReceivePackSpec]
      (receivepack.go): receiving a push.
    - [Bundler], [BundlerSpec] (bundler): the batching behind the uploads.
    - [GitObjects], [Snapshot], [SnapshotSpec] (snapshot, snapshots.go):
      checkout images.
    - [PushEvents], [PushEventsSpec] (pushevents), [Webhook], [WebhookSpec]
      (webhook, webhooks.go, webhook_settings.go).
    - [Sandbox] (mountfs, treefs, hooks.go): what a hook can touch.
    - [Lfs], [LfsSpec], [LfsLocks], [LfsLocksSpec] (lfs), [LfsHttp],
      [LfsHttpSpec] (lfs.go of the daemon).
    - The bucket as a filesystem (s3fs): [S3Client] (its requests and listings,
      dir.go), [ListingCache], [ListingCacheSpec] (listingcache.go), [UnixMeta]
      (unixmeta), [S3Read], [S3ReadSpec] (the read handle of file.go,
      fileinfo.go), [S3Fs], [S3FsSpec] (filesystem.go, basic.go, dir.go, the other
      handles of file.go, tempfs.go, chroot.go): names, lookups and changes;
      [S3PackCache], [S3PackCacheSpec] (packcache.go): packs streamed to files.

    Each file opens with the Go files it follows; definitions keep the names of
    the code (a method's state is an argument, [option] and [Result] are errors,
    [io] threads the world).  Code that runs in several goroutines is a relation
    [step] whose steps are the critical sections of the code.

    ** What the theorems show

    - Pushing: an accepted pack is read to its trailer and indexed truly; deltas
      copy only from inside their base; the resolver's walk ends, holds no more
      memory than its budget, places every entry once, and what its containers
      hold reads back as what git's format defines; commands reported as
      accepted landed together, each from the value the client had seen; the
      callback hears of those and no others.
    - References: a commit is one conditional write computed from the version it
      replaces, so no concurrent update is lost; flush means uploaded.
    - Reading: reads end on every bucket content, chains are rebuilt exactly up
      to the depth bound, a registered pack's objects are visible, formats round
      trip.
    - Concurrency: the pack cache hands out only genuine bytes within its budget,
      background downloads give readers only prefixes of the object or verified
      copies, a pack read while it is streamed is the pack, bundler flushes return,
      admissions are bounded.
    - LFS: the store follows a protocol that keeps every blob under its digest
      and every marker true, batches disclose only members, locks stay exclusive
      and bounded, every endpoint asks the authorizer.
    - Access: no storer without the authorizer's word, repositories cannot reach
      each other's keys, a hook cannot leave its mounts, a webhook cannot reach
      addresses its destination does not allow.
    - Filesystem: used by one caller at a time the listing cache is transparent; a
      name is found as what the bucket holds; what was written is read, changes
      are seen; names that do not climb stay below the root; a lazily read file is
      its bytes; attributes survive as metadata.
    - Derived data: an image is exactly the checkout of its tree; an event lists
      exactly the new commits and the differing files, as valid UTF-8.

    A theorem with hypotheses has a witness that meets them on concrete data.

    ** Bounds and fuel

    Recursion that Go bounds by data is fuelled, with a theorem that the fuel is
    enough: [objectFuel] 60 for reads, above the [maxDeltaDepth] of 50 links the
    code follows ([object_read_terminates]); [walkFuel] 4096 for a delta tree,
    above the [maxIncomingDeltaDepth] the scanner lets through
    ([walk_terminates]); the nesting of a tree for [addTree] ([addTree_fuel]) and
    [diffTrees]; the number of commits for a history walk ([history_walks_end]);
    the number of entries for the eviction loop.  Retry loops run exactly as
    often as the code says ([lockCASRetries], [maxRefCASRetries], [maxAttempts],
    [maxTries], [maxTagDepth]).  A listing reads at most [c_pages] pages: a
    listing the context ends before it is complete fails, as in the code; the
    listings of the filesystem read [pages] pages, more than there are objects.

    ** Not modelled

    Local file systems fail only where the code reacts in a way a reader could
    see (a short write, a vanished or unreadable cached file); clocks, metrics,
    logs and texts of messages are left out, as are the wire formats of git,
    HTTP, SSH, JSON and protobuf, which are third parties' (where the code
    depends on them they are classes).  Shells (hooks, the SSH shell), WASI
    programs, the Kubernetes client, generated protobuf code, start-up in
    main.go and the benchmark programs call third parties and keep no state of
    their own; PROJECT.json lists each with its reason. *)

From Stdlib Require Export ZArith Lia.
From Stdlib Require Import Strings.Byte Strings.String.
From stdpp Require Export base tactics countable list gmap sorting.
From stdpp Require Import strings.
Export Stdlib.Strings.String.StringSyntax.

#[global] Open Scope Z_scope.

(** ** Bytes and Go strings

    A Go [string] and a Go [[]byte] are both a list of bytes. *)

Abbreviation byte := Init.Byte.byte.
Abbreviation bytes := (list Init.Byte.byte).

#[export] Instance byte_eq_dec : EqDecision byte := Byte.byte_eq_dec.
#[export] Instance byte_inhabited : Inhabited byte := populate Byte.x00.

(** The value of a byte as an unsigned integer. *)
Definition bu (b : byte) : Z := Z.of_N (Byte.to_N b).

(** Go's [byte(z)] conversion: truncation to the low eight bits. *)
Definition bz (z : Z) : byte :=
  match Byte.of_N (Z.to_N (z mod 256)) with Some b => b | None => Byte.x00 end.

(** Source literals. *)
Definition bs (s : string) : bytes := list_byte_of_string s.

Lemma bu_range b : 0 <= bu b < 256.
Proof. unfold bu. pose proof (Byte.to_N_bounded b). lia. Qed.

Lemma bu_bz z : bu (bz z) = z mod 256.
Proof.
  unfold bz, bu. pose proof (Z.mod_pos_bound z 256 ltac:(lia)) as Hr.
  destruct (Byte.of_N (Z.to_N (z mod 256))) as [b|] eqn:E.
  - apply Byte.to_of_N in E. rewrite E. lia.
  - apply Byte.of_N_None_iff in E. lia.
Qed.

Lemma bz_bu b : bz (bu b) = b.
Proof.
  unfold bz, bu. pose proof (bu_range b) as Hr. unfold bu in Hr.
  rewrite Z.mod_small by lia. rewrite N2Z.id, Byte.of_to_N. done.
Qed.

#[export] Instance bu_inj : Inj (=) (=) bu.
Proof. intros x y H. by rewrite <-(bz_bu x), H, bz_bu. Qed.

#[export] Program Instance byte_countable : Countable byte :=
  inj_countable' bu bz bz_bu.

Lemma bz_eq_mod x y : x mod 256 = y mod 256 -> bz x = bz y.
Proof. intros H. apply (inj bu). by rewrite !bu_bz. Qed.

(** ** Machine integers: conversions wrap around *)

Definition u8 (z : Z) : Z := z mod 2 ^ 8.
Definition u32 (z : Z) : Z := z mod 2 ^ 32.
Definition u64 (z : Z) : Z := z mod 2 ^ 64.
Definition i8 (z : Z) : Z := (z + 2 ^ 7) mod 2 ^ 8 - 2 ^ 7.
Definition i32 (z : Z) : Z := (z + 2 ^ 31) mod 2 ^ 32 - 2 ^ 31.
Definition i64 (z : Z) : Z := (z + 2 ^ 63) mod 2 ^ 64 - 2 ^ 63.

Definition in_i8 (z : Z) : Prop := - 2 ^ 7 <= z < 2 ^ 7.
Definition in_i64 (z : Z) : Prop := - 2 ^ 63 <= z < 2 ^ 63.

Lemma i64_id z : in_i64 z -> i64 z = z.
Proof. unfold in_i64, i64. intros H. rewrite Z.mod_small; lia. Qed.

Lemma i8_id z : in_i8 z -> i8 z = z.
Proof. unfold in_i8, i8. intros H. rewrite Z.mod_small; lia. Qed.

Lemma i64_range z : in_i64 (i64 z).
Proof. unfold in_i64, i64. pose proof (Z.mod_pos_bound (z + 2 ^ 63) (2 ^ 64)). lia. Qed.

Lemma i64_u64 z : i64 (u64 z) = i64 z.
Proof. unfold i64, u64. rewrite Zplus_mod_idemp_l. done. Qed.

Lemma i8_u8 z : i8 (z mod 256) = i8 z.
Proof. unfold i8. change (2 ^ 8) with 256. rewrite Zplus_mod_idemp_l. done. Qed.

(** ** Big-endian integers ([encoding/binary]'s [BigEndian]) *)

Fixpoint be_put (n : nat) (z : Z) : bytes :=
  match n with
  | O => []
  | S n' => bz (z / 2 ^ (8 * Z.of_nat n')) :: be_put n' z
  end.

Fixpoint be_get (l : bytes) : Z :=
  match l with
  | [] => 0
  | b :: l' => bu b * 2 ^ (8 * Z.of_nat (length l')) + be_get l'
  end.

Lemma length_be_put n z : length (be_put n z) = n.
Proof. induction n; simpl; auto. Qed.

Lemma be_get_range l : 0 <= be_get l < 2 ^ (8 * Z.of_nat (length l)).
Proof.
  induction l as [|b l IH]; simpl; [lia|].
  pose proof (bu_range b).
  replace (8 * Z.of_nat (S (length l))) with (8 + 8 * Z.of_nat (length l)) by lia.
  rewrite Z.pow_add_r by lia. change (2 ^ 8) with 256. nia.
Qed.

Lemma be_get_put n z : be_get (be_put n z) = z mod 2 ^ (8 * Z.of_nat n).
Proof.
  induction n as [|n IH]; [by rewrite Z.mod_1_r|].
  cbn [be_put be_get]. rewrite IH, bu_bz, length_be_put.
  replace (8 * Z.of_nat (S n)) with (8 * Z.of_nat n + 8) by lia.
  rewrite Z.pow_add_r by lia. change (2 ^ 8) with 256.
  rewrite Z.rem_mul_r by lia. lia.
Qed.

Create HintDb bytes.
#[export] Hint Rewrite length_be_put @length_app @length_take @length_drop : bytes.

(** ** Lexicographic comparison ([bytes.Compare], [strings.Compare], [sort.Strings]) *)

Fixpoint bytes_cmp (a b : bytes) : comparison :=
  match a, b with
  | [], [] => Eq
  | [], _ :: _ => Lt
  | _ :: _, [] => Gt
  | x :: a', y :: b' =>
      match bu x ?= bu y with Eq => bytes_cmp a' b' | c => c end
  end.

Definition bytes_lt (a b : bytes) : Prop := bytes_cmp a b = Lt.
Definition bytes_le (a b : bytes) : Prop := bytes_cmp a b <> Gt.
Definition bytes_ltb (a b : bytes) : bool := match bytes_cmp a b with Lt => true | _ => false end.
Definition bytes_leb (a b : bytes) : bool := match bytes_cmp a b with Gt => false | _ => true end.
Definition bytes_eqb (a b : bytes) : bool := bool_decide (a = b).

Lemma bytes_cmp_eq a b : bytes_cmp a b = Eq <-> a = b.
Proof.
  revert b; induction a as [|x a IH]; intros [|y b]; simpl; try naive_solver.
  destruct (Z.compare_spec (bu x) (bu y)) as [H|H|H].
  - apply (inj bu) in H as ->. rewrite IH. naive_solver.
  - split; [done|]. intros [= -> ->]. lia.
  - split; [done|]. intros [= -> ->]. lia.
Qed.

Lemma bytes_cmp_antisym a b : bytes_cmp b a = CompOpp (bytes_cmp a b).
Proof.
  revert b; induction a as [|x a IH]; intros [|y b]; simpl; try done.
  rewrite Z.compare_antisym. destruct (bu x ?= bu y) eqn:E; simpl; auto.
Qed.

Lemma bytes_cmp_refl a : bytes_cmp a a = Eq.
Proof. by apply bytes_cmp_eq. Qed.

Lemma bytes_lt_trans a b c : bytes_lt a b -> bytes_lt b c -> bytes_lt a c.
Proof.
  unfold bytes_lt. revert b c.
  induction a as [|x a IH]; intros [|y b] [|z c]; simpl; try done.
  destruct (Z.compare_spec (bu x) (bu y)), (Z.compare_spec (bu y) (bu z)); try done.
  - rewrite H, H0, Z.compare_refl. apply IH.
  - intros _ _. destruct (Z.compare_spec (bu x) (bu z)); (done || lia).
  - intros _ _. destruct (Z.compare_spec (bu x) (bu z)); (done || lia).
  - intros _ _. destruct (Z.compare_spec (bu x) (bu z)); (done || lia).
Qed.

Lemma bytes_lt_irrefl a : ~ bytes_lt a a.
Proof. unfold bytes_lt. by rewrite bytes_cmp_refl. Qed.

Lemma bytes_le_lt_eq a b : bytes_le a b <-> bytes_lt a b \/ a = b.
Proof. unfold bytes_le, bytes_lt. rewrite <-bytes_cmp_eq. destruct (bytes_cmp a b); naive_solver. Qed.

Lemma bytes_total a b : bytes_lt a b \/ a = b \/ bytes_lt b a.
Proof.
  unfold bytes_lt. rewrite (bytes_cmp_antisym a b), <-bytes_cmp_eq.
  destruct (bytes_cmp a b); naive_solver.
Qed.

Lemma bytes_not_lt a b : ~ bytes_lt a b <-> bytes_le b a.
Proof.
  unfold bytes_lt, bytes_le. rewrite (bytes_cmp_antisym a b).
  destruct (bytes_cmp a b); simpl; naive_solver.
Qed.

#[export] Instance bytes_lt_dec : RelDecision bytes_lt.
Proof. intros a b. unfold bytes_lt. apply _. Defined.
#[export] Instance bytes_le_dec : RelDecision bytes_le.
Proof. intros a b. unfold bytes_le. apply _. Defined.

#[export] Instance bytes_lt_strict : StrictOrder bytes_lt.
Proof. split; [exact bytes_lt_irrefl|exact bytes_lt_trans]. Qed.

#[export] Instance bytes_le_preorder : PreOrder bytes_le.
Proof.
  split; [intros a; apply bytes_le_lt_eq; auto|].
  intros a b c. rewrite !bytes_le_lt_eq.
  intros [H1| ->] [H2| ->]; auto. left. by transitivity b.
Qed.

Lemma bytes_leb_true a b : bytes_leb a b = true <-> bytes_le a b.
Proof. unfold bytes_leb, bytes_le. destruct (bytes_cmp a b); naive_solver. Qed.
Lemma bytes_leb_trans a b c : bytes_leb a b = true -> bytes_leb b c = true -> bytes_leb a c = true.
Proof. rewrite !bytes_leb_true. apply transitivity. Qed.
Lemma bytes_leb_total a b : bytes_leb a b = true \/ bytes_leb b a = true.
Proof. rewrite !bytes_leb_true, !bytes_le_lt_eq. destruct (bytes_total a b) as [|[->|]]; auto. Qed.
Lemma bytes_leb_antisym a b : bytes_leb a b = true -> bytes_leb b a = true -> a = b.
Proof.
  rewrite !bytes_leb_true. unfold bytes_le. rewrite (bytes_cmp_antisym a b), <-bytes_cmp_eq.
  destruct (bytes_cmp a b); naive_solver.
Qed.
#[export] Instance bytes_le_total : Total bytes_le.
Proof. intros a b. rewrite !bytes_le_lt_eq. destruct (bytes_total a b) as [|[->|]]; auto. Qed.
#[export] Instance bytes_le_antisymm : AntiSymm (=) bytes_le.
Proof.
  intros a b. rewrite !bytes_le_lt_eq. intros [H1|?] [H2|?]; auto.
  by destruct (bytes_lt_irrefl a); transitivity b.
Qed.

(** ** String operations of Go's [strings] and [bytes] packages *)

Definition has_prefix (s p : bytes) : bool := bool_decide (take (length p) s = p).
Definition has_suffix (s p : bytes) : bool :=
  bool_decide (length p <= length s)%nat &&
  bool_decide (drop (length s - length p) s = p).
Definition trim_prefix (s p : bytes) : bytes := if has_prefix s p then drop (length p) s else s.
Definition trim_suffix (s p : bytes) : bytes :=
  if has_suffix s p then take (length s - length p) s else s.
Definition cut_prefix (s p : bytes) : option bytes :=
  if has_prefix s p then Some (drop (length p) s) else None.

(** [bytes.Cut] and [strings.IndexByte] on a single-byte separator. *)
Fixpoint cut_byte (c : byte) (s : bytes) : option (bytes * bytes) :=
  match s with
  | [] => None
  | x :: s' =>
      if bool_decide (x = c) then Some ([], s')
      else match cut_byte c s' with
           | Some (a, b) => Some (x :: a, b)
           | None => None
           end
  end.

(** [strings.Split] on a single-byte separator. *)
Fixpoint split_byte (c : byte) (s : bytes) : list bytes :=
  match s with
  | [] => [[]]
  | x :: s' =>
      if bool_decide (x = c) then [] :: split_byte c s'
      else match split_byte c s' with
           | [] => [[x]]
           | l :: ls => (x :: l) :: ls
           end
  end.

Lemma has_prefix_app p s : has_prefix (p ++ s) p = true.
Proof. unfold has_prefix. rewrite take_app_length. by apply bool_decide_eq_true. Qed.

Lemma has_prefix_spec s p : has_prefix s p = true <-> exists r, s = p ++ r.
Proof.
  unfold has_prefix. rewrite bool_decide_eq_true. split.
  - intros H. exists (drop (length p) s). by rewrite <-H at 1; rewrite take_drop.
  - intros [r ->]. apply take_app_length.
Qed.

Lemma cut_prefix_app p s : cut_prefix (p ++ s) p = Some s.
Proof. unfold cut_prefix. by rewrite has_prefix_app, drop_app_length. Qed.

Lemma trim_prefix_app p s : trim_prefix (p ++ s) p = s.
Proof. unfold trim_prefix. by rewrite has_prefix_app, drop_app_length. Qed.

Lemma has_suffix_spec s p : has_suffix s p = true <-> exists r, s = r ++ p.
Proof.
  unfold has_suffix. rewrite andb_true_iff, !bool_decide_eq_true. split.
  - intros [Hl H]. exists (take (length s - length p) s). by rewrite <-H at 2; rewrite take_drop.
  - intros [r ->]. rewrite length_app. split; [lia|].
    replace (length r + length p - length p)%nat with (length r) by lia. apply drop_app_length.
Qed.

Lemma trim_suffix_app r p : trim_suffix (r ++ p) p = r.
Proof.
  unfold trim_suffix. rewrite (proj2 (has_suffix_spec _ _)) by eauto.
  rewrite length_app. replace (length r + length p - length p)%nat with (length r) by lia.
  apply take_app_length.
Qed.

Lemma cut_byte_app c a b : c ∉ a -> cut_byte c (a ++ c :: b) = Some (a, b).
Proof.
  induction a as [|x a IH]; simpl; intros Hn; [by rewrite bool_decide_true|].
  rewrite bool_decide_false by set_solver. rewrite IH by set_solver. done.
Qed.

Lemma cut_byte_some c s a b : cut_byte c s = Some (a, b) -> s = a ++ c :: b /\ c ∉ a.
Proof.
  revert a b; induction s as [|x s IH]; simpl; [done|]. intros a b.
  case_bool_decide; [intros [= <- <-]; set_solver|].
  destruct (cut_byte c s) as [[a' b']|] eqn:E; [|done].
  intros [= <- <-]. destruct (IH _ _ eq_refl) as [-> ?]. split; [done|]. set_solver.
Qed.

Lemma fmap_seq_lookup {A} `{Inhabited A} (l : list A) : (fun i => l !!! i) <$> seq 0 (length l) = l.
Proof.
  apply list_eq. intros i. rewrite list_lookup_fmap. destruct (l !! i) as [x|] eqn:E.
  - rewrite lookup_seq_lt by by eapply lookup_lt_Some. cbn. by rewrite (list_lookup_total_correct _ _ _ E).
  - rewrite lookup_seq_ge; [done|]. by apply lookup_ge_None.
Qed.

Lemma filter_fmap_eq {A B} (f : A -> B) (P : B -> Prop) `{!forall x, Decision (P x)} (l : list A) :
  filter P (f <$> l) = f <$> filter (fun x => P (f x)) l.
Proof.
  induction l as [|x l IH]; [done|]. rewrite fmap_cons, !filter_cons, IH.
  by destruct (decide (P (f x))).
Qed.


Lemma filter_none {A} (P : A -> Prop) `{!forall x, Decision (P x)} (l : list A) :
  Forall (fun x => ~ P x) l -> filter P l = [].
Proof. induction 1 as [|x l Hx _ IH]; [done|]. by rewrite filter_cons, decide_False. Qed.

Lemma StronglySorted_lookup_lt {A} (R : A -> A -> Prop) l i j a b :
  StronglySorted R l -> l !! i = Some a -> l !! j = Some b -> (i < j)%nat -> R a b.
Proof.
  intros Hs. revert i j. induction Hs as [|x l Hs IH Hx]; intros i j Hi Hj Hij; [done|].
  destruct i as [|i], j as [|j]; cbn in Hi, Hj; [lia| |lia|].
  - injection Hi as <-. rewrite Forall_forall in Hx. apply Hx. by eapply list_elem_of_lookup_2.
  - by apply (IH i j); [| |lia].
Qed.

Lemma StronglySorted_impl {A} (R R' : A -> A -> Prop) l :
  (forall x y, R x y -> R' x y) -> StronglySorted R l -> StronglySorted R' l.
Proof.
  intros HR. induction 1 as [|x l _ IH Hx]; constructor; [done|].
  eapply Forall_impl; [exact Hx|]. auto.
Qed.

(** ** The result of a fallible Go call *)

Inductive result (E A : Type) : Type :=
  | Ok (a : A)
  | Err (e : E).
Arguments Ok {E A} a.
Arguments Err {E A} e.

Definition res_bind {E A B} (m : result E A) (f : A -> result E B) : result E B :=
  match m with Ok a => f a | Err e => Err e end.
Definition res_map {E A B} (f : A -> B) (m : result E A) : result E B :=
  match m with Ok a => Ok (f a) | Err e => Err e end.
Definition is_ok {E A} (m : result E A) : bool := match m with Ok _ => true | Err _ => false end.

Declare Scope objgit_scope.
Delimit Scope objgit_scope with objgit.
Notation "'let?' x := m 'in' k" := (res_bind m (fun x => k))
  (at level 10, x pattern, m at level 100, k at level 200) : objgit_scope.
Notation "'guard?' c 'else' e 'in' k" := (if c then k else Err e)
  (at level 10, c at level 100, e at level 100, k at level 200) : objgit_scope.
#[global] Open Scope objgit_scope.

Lemma res_bind_ok {E A B} (m : result E A) (f : A -> result E B) b :
  res_bind m f = Ok b <-> exists a, m = Ok a /\ f a = Ok b.
Proof. destruct m; simpl; naive_solver. Qed.

(** [mapM] over a fallible function, left to right, stopping at the first error. *)
Fixpoint res_mapM {E A B} (f : A -> result E B) (l : list A) : result E (list B) :=
  match l with
  | [] => Ok []
  | x :: l' => let? y := f x in let? ys := res_mapM f l' in Ok (y :: ys)
  end.

Lemma res_mapM_ok {E A B} (f : A -> result E B) l k :
  res_mapM f l = Ok k <-> Forall2 (fun x y => f x = Ok y) l k.
Proof.
  revert k; induction l as [|x l IH]; intros k; simpl.
  - split; [intros [= <-]; constructor|]. by inversion 1.
  - split.
    + intros H. apply res_bind_ok in H as (y & Hy & H).
      apply res_bind_ok in H as (ys & Hys & [= <-]). constructor; [done|]. by apply IH.
    + inversion 1 as [|? y ? ys Hy Hys]; subst. apply IH in Hys. by rewrite Hy, Hys.
Qed.

(** ** Proof automation *)

(** Case analysis on the scrutinee of the outermost [match] or [if] of a hypothesis or the goal. *)
Ltac split_match :=
  match goal with
  | H : context [match ?x with _ => _ end] |- _ => destruct x eqn:?; simplify_eq/=
  | |- context [match ?x with _ => _ end] => destruct x eqn:?; simplify_eq/=
  end.

(** Turn boolean comparisons in the context into propositions. *)
Ltac b2p :=
  repeat match goal with
  | H : andb _ _ = true |- _ => apply andb_true_iff in H as [? ?]
  | H : orb _ _ = false |- _ => apply orb_false_iff in H as [? ?]
  | H : negb _ = true |- _ => apply negb_true_iff in H
  | H : negb _ = false |- _ => apply negb_false_iff in H
  | H : (_ <? _)%Z = true |- _ => apply Z.ltb_lt in H
  | H : (_ <? _)%Z = false |- _ => apply Z.ltb_ge in H
  | H : (_ <=? _)%Z = true |- _ => apply Z.leb_le in H
  | H : (_ <=? _)%Z = false |- _ => apply Z.leb_gt in H
  | H : (_ >? _)%Z = _ |- _ => rewrite Z.gtb_ltb in H
  | H : (_ =? _)%Z = true |- _ => apply Z.eqb_eq in H
  | H : (_ =? _)%Z = false |- _ => apply Z.eqb_neq in H
  | H : (_ =? _)%nat = true |- _ => apply Nat.eqb_eq in H
  | H : (_ =? _)%nat = false |- _ => apply Nat.eqb_neq in H
  | H : (_ <? _)%nat = true |- _ => apply Nat.ltb_lt in H
  | H : (_ <? _)%nat = false |- _ => apply Nat.ltb_ge in H
  | H : (_ <=? _)%nat = true |- _ => apply Nat.leb_le in H
  | H : (_ <=? _)%nat = false |- _ => apply Nat.leb_gt in H
  | H : bool_decide _ = true |- _ => apply bool_decide_eq_true in H
  | H : bool_decide _ = false |- _ => apply bool_decide_eq_false in H
  end.

(** Decompose a successful chain of [let?]s. *)
Ltac inv_res :=
  repeat match goal with
  | H : res_bind _ _ = Ok _ |- _ =>
      let a := fresh "a" in let E := fresh "E" in
      apply res_bind_ok in H as (a & E & H)
  | H : Ok _ = Ok _ |- _ => injection H as H; try subst
  | H : Err _ = Ok _ |- _ => discriminate H
  end.
