(* ===== verification/GoLib.v ===== *)
(** * What the program uses of Go, go-git, zstd and the object store

    The error values of the program; the parts of the Go standard library it
    relies on that are not in the prelude ([strings.TrimSpace], decimal
    conversions, stable sorting); and, as type classes, the third-party code:
    [GoGit] (hashes and their text forms), [Zstd] and [S3].  Each class of
    operations has a separate class of laws holding only documented behaviour. *)

From S2P Require Import Prelude.

(** ** Errors

    A sentinel is a package-level [errors.New] value that callers compare
    with [errors.Is].  Message text is not modelled; [%w] wrapping is. *)

Inductive sentinel : Set :=
  (* go-git *)
  | ErrObjectNotFound | ErrReferenceNotFound | ErrReferenceHasChanged
  | ErrInvalidType | ErrInvalidDelta | ErrDeltaCmd | ErrMalformedPackfile
  | ErrUpdateReference | ErrUnsupportedVersion | ErrRepositoryNotFound
  (* Go *)
  | EOF | ErrUnexpectedEOF | ErrNotExist | ErrExist | ErrClosed | CtxDone
  (* internal/storage/tigris *)
  | errBadCue | errBadPackedRefs | errMalformedRef | errBadMetadata
  | ErrRefContention | ErrHashMismatch | ErrAlternatesNotSupported | ErrModulesNotSupported
  (* internal/lfs *)
  | ErrInvalidOID | ErrInvalidRequest | ErrTooManyObjects | ErrObjectTooLarge
  | ErrNoSupportedTransfer | ErrLockNotFound | ErrLockHeldByAnother
  | ErrLockContention | errNoChange
  (* internal/repofs *)
  | ErrInvalidPath | ErrReservedPath | ErrUnauthenticated
  (* internal/bundler *)
  | ErrOverflow | ErrOversizedItem | errMixedMethods
  (* cmd/objgitd *)
  | errPushQueueTimeout
  (* go-billy *)
  | ErrReadOnly | ErrNotSupported
  (* internal/s3fs *)
  | ErrNotImplemented | ErrLockNotSupported | ErrTruncateNotSupported | ErrFileClosed
  | ErrCantWriteToReadOnly | ErrCantReadFromWriteOnly | ErrSymLinkNotSupported | EISDIR.

#[export] Instance sentinel_eq_dec : EqDecision sentinel.
Proof. solve_decision. Defined.

Inductive goerr : Set :=
  | Sent (s : sentinel)
  | APIError (code : bytes)          (** a [smithy.APIError] *)
  | Errorf                           (** [errors.New]/[fmt.Errorf] that wraps nothing *)
  | Wrapf (e : goerr)                (** [fmt.Errorf("... %w", e)] *)
  | Wrapf2 (e1 e2 : goerr)           (** two [%w] verbs *)
  | CleanupError (e : goerr)         (** [*refCommitCleanupError] *)
  | Panic                            (** a run-time panic: an index or slice out of range *)
  | OutOfFuel.                       (** a bound of the model, not an error of the code *)

#[export] Instance goerr_eq_dec : EqDecision goerr.
Proof. solve_decision. Defined.

(** [errors.Is(e, s)] *)
Fixpoint errors_is (e : goerr) (s : sentinel) : bool :=
  match e with
  | Sent t => bool_decide (t = s)
  | APIError _ | Errorf | Panic | OutOfFuel => false
  | Wrapf e' | CleanupError e' => errors_is e' s
  | Wrapf2 e1 e2 => errors_is e1 s || errors_is e2 s
  end.

(** [errors.As(e, &apiErr)], then [apiErr.ErrorCode()] *)
Fixpoint api_code (e : goerr) : option bytes :=
  match e with
  | APIError c => Some c
  | Sent _ | Errorf | Panic | OutOfFuel => None
  | Wrapf e' | CleanupError e' => api_code e'
  | Wrapf2 e1 e2 => match api_code e1 with Some c => Some c | None => api_code e2 end
  end.

(** [errors.As(e, &postCommit) && postCommit.RefUpdateCommitted()] *)
Fixpoint ref_update_committed (e : goerr) : bool :=
  match e with
  | CleanupError _ => true
  | Sent _ | APIError _ | Errorf | Panic | OutOfFuel => false
  | Wrapf e' => ref_update_committed e'
  | Wrapf2 e1 e2 => ref_update_committed e1 || ref_update_committed e2
  end.

Abbreviation gores := (result goerr).

(** ** Effects

    A Go call that reads and writes a state [S] and can fail.  Unlike an
    exception, an error does not undo the state changes made before it. *)

Definition io (S A : Type) : Type := S -> gores A * S.

Section io.
Context {S : Type}.

Definition ret {A} (a : A) : io S A := fun s => (Ok a, s).
Definition fail {A} (e : goerr) : io S A := fun s => (Err e, s).
Definition io_bind {A B} (m : io S A) (f : A -> io S B) : io S B :=
  fun s => let '(r, s') := m s in match r with Ok a => f a s' | Err e => (Err e, s') end.
(** A call whose error the caller inspects. *)
Definition attempt {A} (m : io S A) : io S (gores A) := fun s => let '(r, s') := m s in (Ok r, s').
Definition gets {A} (f : S -> A) : io S A := fun s => (Ok (f s), s).
Definition modify (f : S -> S) : io S unit := fun s => (Ok tt, f s).
(** [return ..., fmt.Errorf("...: %w", err)] on any failure of [m] *)
Definition wrapping {A} (m : io S A) : io S A :=
  fun s => let '(r, s') := m s in match r with Ok a => (Ok a, s') | Err e => (Err (Wrapf e), s') end.
Definition lift {A} (r : gores A) : io S A := fun s => (r, s).

Lemma io_bind_inv {A B} (m : io S A) (f : A -> io S B) s r s' :
  io_bind m f s = (r, s') ->
  (exists a s1, m s = (Ok a, s1) /\ f a s1 = (r, s')) \/ (exists e, m s = (Err e, s') /\ r = Err e).
Proof. unfold io_bind. destruct (m s) as [[a|e] s1]; naive_solver. Qed.

Lemma io_bind_ok {A B} (m : io S A) (f : A -> io S B) s b s' :
  io_bind m f s = (Ok b, s') -> exists a s1, m s = (Ok a, s1) /\ f a s1 = (Ok b, s').
Proof. intros Hm. apply io_bind_inv in Hm as [|(? & ? & ?)]; [done|done]. Qed.

Lemma attempt_inv {A} (m : io S A) s r s' : attempt m s = (r, s') -> exists r0, r = Ok r0 /\ m s = (r0, s').
Proof. unfold attempt. destruct (m s) as [r0 s0]. intros [= <- <-]. eauto. Qed.

Lemma wrapping_inv {A} (m : io S A) s r s' :
  wrapping m s = (r, s') ->
  (exists a, r = Ok a /\ m s = (Ok a, s')) \/ (exists e, r = Err (Wrapf e) /\ m s = (Err e, s')).
Proof. unfold wrapping. destruct (m s) as [[a|e] s0]; intros [= <- <-]; eauto. Qed.
End io.

Notation "'let!' x := m 'in' k" := (io_bind m (fun x => k))
  (at level 10, x pattern, m at level 100, k at level 200) : objgit_scope.
Notation "'try!' x := m 'in' k" := (io_bind (attempt m) (fun x => k))
  (at level 10, x pattern, m at level 100, k at level 200) : objgit_scope.
Notation "'do!' m 'in' k" := (io_bind m (fun _ => k))
  (at level 10, m at level 100, k at level 200) : objgit_scope.

(** ** Slices

    [l[a:b]], [l[a:]], [l[i]] and [binary.BigEndian.Uint64(l)], which panic
    when out of range. *)

Definition slice {A} (l : list A) (a b : nat) : gores (list A) :=
  if (a <=? b)%nat && (b <=? length l)%nat then Ok (take (b - a) (drop a l)) else Err Panic.
Definition slice_from {A} (l : list A) (a : nat) : gores (list A) :=
  if (a <=? length l)%nat then Ok (drop a l) else Err Panic.
Definition index {A} (l : list A) (i : nat) : gores A :=
  match l !! i with Some x => Ok x | None => Err Panic end.
Definition Uint64 (l : bytes) : gores Z := let? b := slice l 0 8 in Ok (be_get b).

Lemma slice_ok {A} (l : list A) a b :
  (a <= b)%nat -> (b <= length l)%nat -> slice l a b = Ok (take (b - a) (drop a l)).
Proof.
  intros H1 H2. unfold slice.
  by rewrite (proj2 (Nat.leb_le _ _) H1), (proj2 (Nat.leb_le _ _) H2).
Qed.

Lemma slice_from_ok {A} (l : list A) a : (a <= length l)%nat -> slice_from l a = Ok (drop a l).
Proof. intros H1. unfold slice_from. by rewrite (proj2 (Nat.leb_le _ _) H1). Qed.

Lemma index_ok {A} (l : list A) i x : l !! i = Some x -> index l i = Ok x.
Proof. unfold index. by intros ->. Qed.

Lemma index_app_l {A} (a b : list A) i : (i < length a)%nat -> index (a ++ b) i = index a i.
Proof. intros Hi. unfold index. by rewrite lookup_app_l. Qed.

Lemma slice_app_l {A} (a b : list A) i j : (i <= j <= length a)%nat -> slice (a ++ b) i j = slice a i j.
Proof.
  intros Hij. rewrite !slice_ok by (rewrite ?length_app; lia).
  by rewrite drop_app_le, take_app_le by (rewrite ?length_drop; lia).
Qed.

Lemma slice_width {A} (l : list A) a b s : slice l a b = Ok s -> length s = (b - a)%nat.
Proof.
  unfold slice. destruct (_ && _) eqn:E; [|done]. intros [= <-].
  apply andb_true_iff in E as [?%Nat.leb_le ?%Nat.leb_le].
  rewrite length_take, length_drop. lia.
Qed.

Lemma slice_from_width {A} (l : list A) a s : slice_from l a = Ok s -> length s = (length l - a)%nat.
Proof. unfold slice_from. destruct (_ <=? _)%nat; [|done]. intros [= <-]. apply length_drop. Qed.

Lemma index_total {A} (l : list A) i : (i < length l)%nat -> exists x, index l i = Ok x.
Proof. intros Hi. apply lookup_lt_is_Some in Hi as [x Hx]. exists x. by apply index_ok. Qed.

Lemma Uint64_ok l : (8 <= length l)%nat -> Uint64 l = Ok (be_get (take 8 l)).
Proof. intros Hl. unfold Uint64. rewrite slice_ok by lia. by rewrite drop_0. Qed.

(** *** Fixed-width columns

    [concat cols] where every column entry has width [w]. *)

Section columns.
Context {A : Type} (w : nat).
Implicit Types cols : list (list A).

Lemma length_concat_width cols :
  Forall (fun c => length c = w) cols -> length (concat cols) = (length cols * w)%nat.
Proof. induction 1 as [|c cols Hc _ IH]; simpl; [done|]. rewrite length_app. lia. Qed.

Lemma drop_concat_width cols i rest :
  Forall (fun c => length c = w) cols -> (i <= length cols)%nat ->
  drop (i * w) (concat cols ++ rest) = concat (drop i cols) ++ rest.
Proof.
  intros Hw Hi. rewrite <-(take_drop i cols) at 1. rewrite concat_app, <-app_assoc.
  apply drop_app_length'. rewrite length_concat_width by by apply Forall_take.
  rewrite length_take, Nat.min_l by done. done.
Qed.

Lemma slice_from_concat cols i rest :
  Forall (fun c => length c = w) cols -> (i <= length cols)%nat ->
  slice_from (concat cols ++ rest) (i * w) = Ok (concat (drop i cols) ++ rest).
Proof.
  intros Hw Hi. rewrite slice_from_ok; [by rewrite drop_concat_width|].
  rewrite length_app, length_concat_width by done. nia.
Qed.

Lemma slice_from_column cols rest n :
  Forall (fun c => length c = w) cols -> length cols = n ->
  slice_from (concat cols ++ rest) (n * w) = Ok rest.
Proof. intros Hw <-. rewrite slice_from_concat, drop_all by done. done. Qed.

Lemma slice_from_entry cols rest i c :
  Forall (fun c => length c = w) cols -> cols !! i = Some c ->
  exists rest', slice_from (concat cols ++ rest) (i * w) = Ok (c ++ rest').
Proof.
  intros Hw Hc. pose proof (lookup_lt_Some _ _ _ Hc).
  rewrite slice_from_concat by (done || lia). rewrite (drop_S _ _ _ Hc). simpl.
  rewrite <-app_assoc. eauto.
Qed.

Lemma slice_entry cols rest i c :
  Forall (fun c => length c = w) cols -> cols !! i = Some c ->
  slice (concat cols ++ rest) (i * w) ((i + 1) * w) = Ok c.
Proof.
  intros Hw Hc. pose proof (lookup_lt_Some _ _ _ Hc).
  pose proof (proj1 (Forall_lookup _ _) Hw i c Hc) as Hl.
  rewrite slice_ok; [|nia|rewrite length_app, length_concat_width by done; nia].
  rewrite drop_concat_width by (done || lia). rewrite (drop_S _ _ _ Hc). simpl. rewrite <-app_assoc.
  replace ((i + 1) * w - i * w)%nat with (length c) by (rewrite Hl; nia). by rewrite take_app_length.
Qed.
End columns.

Lemma Uint64_put z rest : Uint64 (be_put 8 z ++ rest) = Ok (u64 z).
Proof.
  rewrite Uint64_ok by (rewrite length_app, length_be_put; simpl; lia).
  rewrite take_app_length' by by rewrite length_be_put. by rewrite be_get_put.
Qed.

Lemma res_mapM_seq {B} (f : nat -> gores B) l :
  (forall i x, l !! i = Some x -> f i = Ok x) -> res_mapM f (seq 0 (length l)) = Ok l.
Proof.
  intros Hf. apply res_mapM_ok, Forall2_same_length_lookup. rewrite length_seq. split; [done|].
  intros i x y Hx Hy. apply lookup_seq in Hx as [-> _]. by apply Hf.
Qed.

(** A call whose every failure satisfies [P]. *)
Definition err_sat {A} (P : goerr -> Prop) (m : gores A) : Prop :=
  match m with Ok _ => True | Err e => P e end.

Lemma err_sat_bind {A B} P (m : gores A) (f : A -> gores B) :
  err_sat P m -> (forall a, m = Ok a -> err_sat P (f a)) -> err_sat P (res_bind m f).
Proof. destruct m; simpl; auto. Qed.

Lemma err_sat_mapM {A B} P (f : A -> gores B) l :
  (forall x, x ∈ l -> err_sat P (f x)) -> err_sat P (res_mapM f l).
Proof.
  induction l as [|x l IH]; simpl; [done|]. intros Hf.
  apply err_sat_bind; [apply Hf; set_solver|]. intros y _.
  apply err_sat_bind; [apply IH; set_solver|done].
Qed.

(** ** [strings.TrimSpace]

    The UTF-8 encodings of the code points with the [White_Space] property. *)

Definition space_encodings : list bytes :=
  map (map bz)
    [[9]; [10]; [11]; [12]; [13]; [32]; [194; 133]; [194; 160]; [225; 154; 128];
     [226; 128; 128]; [226; 128; 129]; [226; 128; 130]; [226; 128; 131]; [226; 128; 132];
     [226; 128; 133]; [226; 128; 134]; [226; 128; 135]; [226; 128; 136]; [226; 128; 137];
     [226; 128; 138]; [226; 128; 168]; [226; 128; 169]; [226; 128; 175]; [226; 129; 159];
     [227; 128; 128]].

Definition leading_space (s : bytes) : option bytes := find (fun e => has_prefix s e) space_encodings.
Definition trailing_space (s : bytes) : option bytes := find (fun e => has_suffix s e) space_encodings.

Fixpoint trim_left_fuel (n : nat) (s : bytes) : bytes :=
  match n with
  | O => s
  | S n' => match leading_space s with
            | Some e => trim_left_fuel n' (drop (length e) s)
            | None => s
            end
  end.
Fixpoint trim_right_fuel (n : nat) (s : bytes) : bytes :=
  match n with
  | O => s
  | S n' => match trailing_space s with
            | Some e => trim_right_fuel n' (take (length s - length e) s)
            | None => s
            end
  end.

(** Every encoding is at least one byte, so [length s] rounds always reach the fixed point. *)
Definition TrimSpace (s : bytes) : bytes :=
  let l := trim_left_fuel (length s) s in trim_right_fuel (length l) l.

(** A string that [TrimSpace] leaves alone. *)
Definition trimmed (s : bytes) : Prop := leading_space s = None /\ trailing_space s = None.

Lemma trim_left_trimmed n s : leading_space s = None -> trim_left_fuel n s = s.
Proof. intros H. destruct n; simpl; [done|]. by rewrite H. Qed.

Lemma trim_right_trimmed n s : trailing_space s = None -> trim_right_fuel n s = s.
Proof. intros H. destruct n; simpl; [done|]. by rewrite H. Qed.

Lemma TrimSpace_trimmed s : trimmed s -> TrimSpace s = s.
Proof. intros [H1 H2]. unfold TrimSpace. by rewrite trim_left_trimmed, trim_right_trimmed. Qed.

(** ** Decimal text ([strconv.FormatInt], [strconv.Itoa], [strconv.ParseInt] in base 10) *)

Definition digit (z : Z) : byte := bz (48 + z).

Fixpoint dec_digits (fuel : nat) (z : Z) (acc : bytes) : bytes :=
  match fuel with
  | O => acc
  | S f => if z <? 10 then digit z :: acc
           else dec_digits f (z / 10) (digit (z mod 10) :: acc)
  end.

Definition FormatInt (z : Z) : bytes :=
  if z <? 0 then bs "-" ++ dec_digits 20 (- z) [] else dec_digits 20 z [].

Definition is_digit (b : byte) : bool := (48 <=? bu b) && (bu b <=? 57).

(** [ParseUint]: a non-empty run of digits, below [2^bits]. *)
Definition parse_digits (s : bytes) : option Z :=
  match s with
  | [] => None
  | _ => fold_left (fun acc b => match acc with
                                 | Some z => if is_digit b then Some (10 * z + (bu b - 48)) else None
                                 | None => None
                                 end) s (Some 0)
  end.

Definition ParseInt (s : bytes) : option Z :=
  let '(neg, body) :=
    match s with
    | x :: s' => if bool_decide (x = bz 45) then (true, s')
                 else if bool_decide (x = bz 43) then (false, s') else (false, s)
    | [] => (false, [])
    end in
  match parse_digits body with
  | None => None
  | Some z =>
      if neg then (if z <=? 2 ^ 63 then Some (- z) else None)
      else if z <? 2 ^ 63 then Some z else None
  end.

Definition digit_step (acc : option Z) (b : byte) : option Z :=
  match acc with Some z => if is_digit b then Some (10 * z + (bu b - 48)) else None | None => None end.

Lemma digit_ok z : 0 <= z < 10 -> is_digit (digit z) = true /\ bu (digit z) - 48 = z.
Proof.
  intros Hz. unfold digit, is_digit. rewrite bu_bz, Z.mod_small by lia. split; [|lia].
  apply andb_true_iff; split; apply Z.leb_le; lia.
Qed.

(** Reading the digits in front of [acc] back. *)
Lemma dec_digits_spec fuel z acc : 0 <= z < 10 ^ Z.of_nat fuel -> (fuel <> 0)%nat ->
  fold_left digit_step (dec_digits fuel z acc) (Some 0) = fold_left digit_step acc (Some z) /\
  exists d l, dec_digits fuel z acc = d :: l /\ is_digit d = true.
Proof.
  revert z acc. induction fuel as [|f IH]; intros z acc Hz Hf; [done|]. cbn [dec_digits].
  destruct (z <? 10) eqn:E; b2p.
  - destruct (digit_ok z ltac:(lia)) as [H1 H2]. cbn [fold_left digit_step]. rewrite H1, H2.
    split; [f_equal; f_equal; lia|eauto].
  - assert (f <> 0%nat) by (intros ->; change (10 ^ Z.of_nat 1) with 10 in Hz; lia).
    replace (Z.of_nat (S f)) with (1 + Z.of_nat f) in Hz by lia. rewrite Z.pow_add_r, Z.pow_1_r in Hz by lia.
    destruct (IH (z / 10) (digit (z mod 10) :: acc)) as [H1 H2]; [|done|].
    { split; [apply Z.div_pos; lia|apply Z.div_lt_upper_bound; lia]. }
    split; [|done]. rewrite H1. destruct (digit_ok (z mod 10) ltac:(apply Z.mod_pos_bound; lia)) as [H3 H4].
    cbn [fold_left digit_step]. rewrite H3, H4. do 2 f_equal. pose proof (Z.div_mod z 10). lia.
Qed.

Lemma ParseInt_FormatInt z : 0 <= z < 2 ^ 63 -> ParseInt (FormatInt z) = Some z.
Proof.
  intros Hz. unfold FormatInt. destruct (z <? 0) eqn:E; b2p; [lia|].
  destruct (dec_digits_spec 20 z []) as [H1 (d & l & H2 & H3)]; [change (10 ^ Z.of_nat 20) with 100000000000000000000; lia|done|].
  cbn [fold_left] in H1. unfold ParseInt. rewrite H2 in H1 |- *. unfold is_digit in H3. apply andb_true_iff in H3 as [H3 H4]. b2p.
  rewrite !bool_decide_false by (intros ->; vm_compute in H3; first [by apply H3 | vm_compute in H4; by apply H4]). cbv iota beta.
  change (parse_digits (d :: l)) with (fold_left digit_step (d :: l) (Some 0)). rewrite H1.
  destruct (z <? 2 ^ 63) eqn:E2; b2p; [done|lia].
Qed.

(** ** Stable sorting ([slices.SortStableFunc], [sort.Slice] on distinct keys)

    Insertion of each element behind its equals: the stable sort of a list by
    a total preorder is unique, so this is the list the library call returns. *)

Section stable_sort.
Context {A : Type} (leb : A -> A -> bool).

Fixpoint insert_stable (x : A) (l : list A) : list A :=
  match l with
  | [] => [x]
  | y :: l' => if leb x y then x :: y :: l' else y :: insert_stable x l'
  end.

Fixpoint stable_sort (l : list A) : list A :=
  match l with
  | [] => []
  | x :: l' => insert_stable x (stable_sort l')
  end.

Lemma insert_stable_perm x l : insert_stable x l ≡ₚ x :: l.
Proof.
  induction l as [|y l IH]; simpl; [done|]. destruct (leb x y); [done|].
  rewrite IH. by constructor.
Qed.

Lemma stable_sort_perm l : stable_sort l ≡ₚ l.
Proof. induction l as [|x l IH]; simpl; [done|]. by rewrite insert_stable_perm, IH. Qed.

Context (Htotal : forall x y, leb x y = true \/ leb y x = true).
Context (Htrans : forall x y z, leb x y = true -> leb y z = true -> leb x z = true).

Lemma insert_stable_sorted x l :
  StronglySorted (fun a b => leb a b = true) l ->
  StronglySorted (fun a b => leb a b = true) (insert_stable x l).
Proof.
  induction 1 as [|y l Hs IH Hy]; simpl; [repeat constructor|].
  destruct (leb x y) eqn:E.
  - repeat constructor; auto. eapply Forall_impl; [exact Hy|]. intros z. by apply Htrans.
  - constructor; [done|]. rewrite insert_stable_perm. constructor; [|done].
    by destruct (Htotal x y); congruence.
Qed.

Lemma stable_sort_sorted l : StronglySorted (fun a b => leb a b = true) (stable_sort l).
Proof. induction l; simpl; [constructor|]. by apply insert_stable_sorted. Qed.

(** Elements for which [P] picks one class of equals keep their input order. *)
Lemma stable_sort_filter (P : A -> Prop) `{!forall x, Decision (P x)} l :
  (forall x y, P x -> P y -> leb x y = true) ->
  filter P (stable_sort l) = filter P l.
Proof.
  intros HP. induction l as [|x l IH]; [done|]. cbn [stable_sort].
  rewrite filter_cons. rewrite <-IH. clear IH.
  generalize (stable_sort l) as k. induction k as [|y k IHk]; simpl.
  - rewrite filter_cons. done.
  - destruct (leb x y) eqn:E; [rewrite filter_cons; done|].
    rewrite !filter_cons. destruct (decide (P y)).
    + destruct (decide (P x)); [exfalso; rewrite HP in E; done|]. rewrite IHk. done.
    + apply IHk.
Qed.
End stable_sort.

(** ** Binary search ([sort.Search])

    Each round at least halves the interval, so its length is enough fuel. *)

Fixpoint search_loop (fuel : nat) (f : nat -> bool) (i j : nat) : nat :=
  match fuel with
  | O => i
  | S fuel' =>
      if (i <? j)%nat then
        let h := ((i + j) / 2)%nat in
        if negb (f h) then search_loop fuel' f (h + 1) j else search_loop fuel' f i h
      else i
  end.

Definition Search (n : nat) (f : nat -> bool) : nat := search_loop n f 0 n.

Lemma search_loop_spec fuel f i j n :
  (i <= j <= n)%nat -> (j - i <= fuel)%nat ->
  (forall a b, (a <= b < n)%nat -> f a = true -> f b = true) ->
  (forall k, (k < i)%nat -> f k = false) -> (forall k, (j <= k < n)%nat -> f k = true) ->
  let r := search_loop fuel f i j in
  (r <= n)%nat /\ (forall k, (k < r)%nat -> f k = false) /\ (forall k, (r <= k < n)%nat -> f k = true).
Proof.
  revert i j. induction fuel as [|fuel IH]; intros i j Hij Hf Hm Hlo Hhi; cbn -[Nat.div Nat.ltb].
  { assert (j = i) by lia; subst j; split; [lia|done]. }
  destruct (Nat.ltb_spec i j) as [Hlt|Hge]; [|assert (j = i) by lia; subst j; split; [lia|done]].
  pose proof (Nat.div_mod (i + j) 2 ltac:(lia)) as Hd.
  pose proof (Nat.mod_upper_bound (i + j) 2 ltac:(lia)) as Hu.
  set (h := ((i + j) / 2)%nat) in *. clearbody h.
  destruct (f h) eqn:E; cbn [negb]; apply IH; try lia; auto.
  - intros k Hk. apply (Hm h); [lia|done].
  - intros k Hk. apply not_true_iff_false. intros Hk'. rewrite (Hm k h) in E; [done|lia|done].
Qed.

Lemma Search_spec n f :
  (forall a b, (a <= b < n)%nat -> f a = true -> f b = true) ->
  (Search n f <= n)%nat /\ (forall k, (k < Search n f)%nat -> f k = false) /\
  (forall k, (Search n f <= k < n)%nat -> f k = true).
Proof. intros Hm. apply search_loop_spec; auto; lia. Qed.

(** Whatever the predicate. *)
Lemma Search_le n f : (Search n f <= n)%nat.
Proof.
  enough (Hg : forall fuel i j, (i <= j <= n)%nat -> (search_loop fuel f i j <= n)%nat) by (apply Hg; lia).
  induction fuel as [|fuel IH]; intros i j Hij; cbn -[Nat.div Nat.ltb]; [lia|].
  destruct (Nat.ltb_spec i j) as [Hlt|Hge]; [|lia].
  pose proof (Nat.div_mod (i + j) 2 ltac:(lia)) as Hd. pose proof (Nat.mod_upper_bound (i + j) 2 ltac:(lia)) as Hu.
  set (h := ((i + j) / 2)%nat) in *. clearbody h. destruct (negb (f h)); apply IH; lia.
Qed.

(** ** go-git's [plumbing] package: hashes *)

Class GoGit := {
  Hash : Type;
  Hash_eq_dec :: EqDecision Hash;
  Hash_countable :: Countable Hash;
  ZeroHash : Hash;
  HashBytes : Hash -> bytes;                    (** [ObjectID.Bytes] *)
  FromBytes : bytes -> option Hash;             (** [plumbing.FromBytes] *)
  HashString : Hash -> bytes;                   (** [ObjectID.String] *)
  FromHex : bytes -> option Hash;               (** [plumbing.FromHex] *)
  HasherSum : Z -> Z -> bytes -> Hash;          (** [plumbing.NewHasher(of, typ, size)], written to, then [Sum] *)
  ParseObjectType : bytes -> option Z;          (** [plumbing.ParseObjectType] *)
  ObjectTypeString : Z -> bytes;                (** [ObjectType.String] *)
}.

(** A hash of an object format whose digests are [n] bytes wide: reading its
    bytes or its hexadecimal text back gives the hash. *)
Definition wf_hash `{GoGit} (n : nat) (h : Hash) : Prop :=
  length (HashBytes h) = n /\ FromBytes (HashBytes h) = Some h /\
  FromHex (HashString h) = Some h.

Definition hex_digit (b : byte) : bool :=
  is_digit b || ((97 <=? bu b) && (bu b <=? 102)).

Class GoGitLaws `{GoGit} := {
  ZeroHash_bytes : HashBytes ZeroHash = repeat (bz 0) 20;
  FromBytes_bytes b h : FromBytes b = Some h -> HashBytes h = b;
  FromBytes_width b : is_Some (FromBytes b) <-> length b = 20%nat \/ length b = 32%nat;
  HashString_hex h : Forall (fun b => hex_digit b = true) (HashString h) /\ HashString h <> [];
  ParseObjectType_String t : t ∈ [1; 2; 3; 4] -> ParseObjectType (ObjectTypeString t) = Some t;
  HasherSum_width typ size body : exists n, (n = 20%nat \/ n = 32%nat) /\ wf_hash n (HasherSum typ size body);
}.

(** [plumbing.ObjectType] is an [int8]; git's pack format fixes the values. *)
Definition CommitObject := 1.
Definition TreeObject := 2.
Definition BlobObject := 3.
Definition TagObject := 4.
Definition OFSDeltaObject := 6.
Definition REFDeltaObject := 7.
Definition AnyObject := -127.
Definition IsDelta (t : Z) : bool := (t =? OFSDeltaObject) || (t =? REFDeltaObject).

(** [plumbing.Reference], made by [NewHashReference] and [NewSymbolicReference]. *)
Inductive reference `{GoGit} : Type :=
  | HashReference (name : bytes) (h : Hash)
  | SymbolicReference (name target : bytes).

Definition ref_name `{GoGit} (r : reference) : bytes :=
  match r with HashReference n _ | SymbolicReference n _ => n end.
(** [Reference.Hash]: the zero hash for a symbolic reference. *)
Definition ref_hash `{GoGit} (r : reference) : Hash :=
  match r with HashReference _ h => h | SymbolicReference _ _ => ZeroHash end.
Definition is_hash_ref `{GoGit} (r : reference) : bool :=
  match r with HashReference _ _ => true | SymbolicReference _ _ => false end.

#[export] Instance reference_eq_dec `{GoGit} : EqDecision reference.
Proof. solve_decision. Defined.

(** ** go-git's objects

    [MemWrite size body]: the size of a [plumbing.MemoryObject] given [SetSize(size)] and
    then one [Write(body)], or the write's error; [PatchDelta]: [packfile.PatchDelta]. *)

Class GoGitObjects := {
  MemWrite : Z -> bytes -> option Z;
  PatchDelta : bytes -> bytes -> option bytes;
}.

(** A memory object takes a body of the size it was given. *)
Class GoGitObjectsLaws `{GoGitObjects} := {
  MemWrite_exact b : MemWrite (Z.of_nat (length b)) b = Some (Z.of_nat (length b));
}.

(** ** crypto/sha256, hex encoded *)

Class Sha256 := { Sha256Hex : bytes -> bytes }.

(** ** klauspost/compress/zstd *)

Class Zstd := {
  EncodeAll : bytes -> bytes;
  EncodeStream : bytes -> bytes;            (** an [Encoder] written to and closed *)
  DecodeAll : Z -> bytes -> option bytes;   (** a decoder with a memory bound; [None] is its error *)
}.

Class ZstdLaws `{Zstd} := {
  DecodeAll_EncodeAll max b :
    Z.of_nat (length b) <= max -> DecodeAll max (EncodeAll b) = Some b;
  DecodeAll_EncodeStream max b :
    Z.of_nat (length b) <= max -> DecodeAll max (EncodeStream b) = Some b;
  (* a frame is never empty, and the memory bound of a decoder holds *)
  EncodeAll_nonempty b : b <> [] -> EncodeAll b <> [];
  EncodeStream_nonempty b : b <> [] -> EncodeStream b <> [];
  DecodeAll_bound max s b : DecodeAll max s = Some b -> Z.of_nat (length b) <= max;
  DecodeAll_more max max' s b : DecodeAll max s = Some b -> max <= max' -> DecodeAll max' s = Some b;
}.
