(* ===== verification/S3.v ===== *)
(** * The object store

    The requests the program sends to its bucket ([s3API] in
    internal/storage/tigris/tigris.go and internal/lfs/store.go), as a class of
    operations on an abstract world, and the documented behaviour it relies on
    as a class of laws.  Other clients may change the bucket between requests:
    [env] relates a bucket to the buckets their actions can lead to, and every
    law places a request at one instant between two runs of [env]. *)

From S2P Require Import Prelude GoLib.

Record s3obj := { o_body : bytes; o_meta : gmap bytes bytes }.
Abbreviation bucket := (gmap bytes s3obj).

(** [IfMatch] and [IfNoneMatch: "*"] of a [PutObjectInput]. *)
Inductive put_cond := Always | IfNoneMatch | IfMatch (etag : bytes).

(** A [GetObjectOutput]: reading the body to the end can itself fail. *)
Record get_output := { g_body : gores bytes; g_etag : bytes; g_meta : gmap bytes bytes; g_length : option Z }.

Class S3 := {
  World : Type;
  ETagOf : bytes -> bytes;
  GetObject : bytes -> World -> gores get_output * World;
  (** [Range: bytes=first-last] *)
  GetRange : bytes -> Z -> Z -> World -> gores get_output * World;
  HeadObject : bytes -> World -> gores (gmap bytes bytes * option Z) * World;
  PutObject : bytes -> bytes -> gmap bytes bytes -> put_cond -> World -> gores bytes * World;
  DeleteObject : bytes -> World -> gores unit * World;
  (** a delivered response still names, in [Errors], the keys it could not delete *)
  DeleteObjects : list bytes -> World -> gores (list bytes) * World;
  (** one page of a listing: its keys, and the token of the next page *)
  ListObjectsV2 : bytes -> option bytes -> World -> gores (list bytes * option bytes) * World;
  (** what a token leaves to be listed; only the laws speak of it *)
  TokenCovers : bytes -> bytes -> Prop;
}.

(** [isNotFound] (internal/storage/tigris/tigris.go, and the same in internal/lfs). *)
Definition isNotFound (e : goerr) : bool :=
  match api_code e with
  | Some c => bool_decide (c = bs "NotFound") || bool_decide (c = bs "NoSuchKey")
  | None => false
  end.

(** [isPreconditionFailed] (likewise). *)
Definition isPreconditionFailed (e : goerr) : bool :=
  match api_code e with
  | Some c => bool_decide (c = bs "PreconditionFailed")
  | None => false
  end.

(** Whether a conditional write to [k] is admitted in bucket [b]. *)
Definition cond_holds `{S3} (c : put_cond) (k : bytes) (b : bucket) : Prop :=
  match c with
  | Always => True
  | IfNoneMatch => b !! k = None
  | IfMatch t => exists o, b !! k = Some o /\ ETagOf (o_body o) = t
  end.

(** An error of the client carries none of the sentinels or wrappers this program defines. *)
Definition program_sentinel (s : sentinel) : bool :=
  match s with
  | EOF | ErrUnexpectedEOF | ErrNotExist | ErrExist | ErrClosed | CtxDone => false
  | _ => true
  end.
Definition foreign (e : goerr) : Prop :=
  (forall s, program_sentinel s = true -> errors_is e s = false) /\ ref_update_committed e = false.

Class S3Laws `{S3} (view : World -> bucket) (env : bucket -> bucket -> Prop) := {
  env_preorder :: PreOrder env;
  ETagOf_inj :: Inj (=) (=) ETagOf;         (* a strong validator changes with the content *)
  ETagOf_nonempty body : ETagOf body <> [];
  GetObject_ok k w out w' :
    GetObject k w = (Ok out, w') ->
    exists b o, env (view w) b /\ b !! k = Some o /\ env b (view w') /\
      g_etag out = ETagOf (o_body o) /\ g_meta out = o_meta o /\
      (forall body, g_body out = Ok body -> body = o_body o) /\
      (forall e, g_body out = Err e -> foreign e);
  GetObject_err k w e w' :
    GetObject k w = (Err e, w') -> foreign e /\
    exists b, env (view w) b /\ env b (view w') /\ (isNotFound e = true -> b !! k = None);
  GetRange_ok k first last w out w' :
    0 <= first <= last -> GetRange k first last w = (Ok out, w') ->
    exists b o, env (view w) b /\ b !! k = Some o /\ env b (view w') /\
      (forall body, g_body out = Ok body ->
         body = take (Z.to_nat (last - first + 1)) (drop (Z.to_nat first) (o_body o))) /\
      (forall e, g_body out = Err e -> foreign e);
  GetRange_err k first last w e w' :
    GetRange k first last w = (Err e, w') -> foreign e /\
    exists b, env (view w) b /\ env b (view w') /\ (isNotFound e = true -> b !! k = None);
  HeadObject_ok k w meta len w' :
    HeadObject k w = (Ok (meta, len), w') ->
    exists b o, env (view w) b /\ b !! k = Some o /\ env b (view w') /\ meta = o_meta o /\
      (forall n, len = Some n -> n = Z.of_nat (length (o_body o)));
  HeadObject_err k w e w' :
    HeadObject k w = (Err e, w') -> foreign e /\
    exists b, env (view w) b /\ env b (view w') /\ (isNotFound e = true -> b !! k = None);
  PutObject_ok k body meta c w t w' :
    PutObject k body meta c w = (Ok t, w') ->
    exists b, env (view w) b /\ cond_holds c k b /\ t = ETagOf body /\
      env (<[k := {| o_body := body; o_meta := meta |}]> b) (view w');
  (* a refused precondition writes nothing; any other failure may have landed *)
  PutObject_refused k body meta c w e w' :
    PutObject k body meta c w = (Err e, w') -> isPreconditionFailed e = true ->
    env (view w) (view w');
  PutObject_err k body meta c w e w' :
    PutObject k body meta c w = (Err e, w') -> foreign e /\
    (env (view w) (view w') \/
     exists b, env (view w) b /\ cond_holds c k b /\
       env (<[k := {| o_body := body; o_meta := meta |}]> b) (view w'));
  DeleteObject_ok k w u w' :
    DeleteObject k w = (Ok u, w') -> exists b, env (view w) b /\ env (delete k b) (view w');
  DeleteObject_err k w e w' :
    DeleteObject k w = (Err e, w') -> foreign e /\
    exists b b', env (view w) b /\ (b' = b \/ b' = delete k b) /\ env b' (view w');
  DeleteObjects_ok ks w failed w' :
    DeleteObjects ks w = (Ok failed, w') ->
    exists b, env (view w) b /\ env (foldr delete b (filter (fun k => k ∉ failed) ks)) (view w');
  (* a request that failed as a whole may have deleted any of the keys *)
  DeleteObjects_err ks w e w' :
    DeleteObjects ks w = (Err e, w') -> foreign e /\
    exists b ks', env (view w) b /\ ks' ⊆ ks /\ env (foldr delete b ks') (view w');
  ListObjectsV2_env p t w r w' :
    ListObjectsV2 p t w = (r, w') -> env (view w) (view w') /\ (forall e, r = Err e -> foreign e);
  (* a page has the keys of one instant: none is passed over *)
  ListObjectsV2_ok p t w keys next w' :
    ListObjectsV2 p t w = (Ok (keys, next), w') ->
    exists b, env (view w) b /\ env b (view w') /\
      (forall k, k ∈ keys -> is_Some (b !! k) /\ has_prefix k p = true) /\
      (forall k, is_Some (b !! k) -> has_prefix k p = true -> (forall x, t = Some x -> TokenCovers x k) ->
         k ∈ keys \/ exists x, next = Some x /\ x <> [] /\ TokenCovers x k);
}.

(** ** A bucket in memory

    The concrete store of the witnesses: each request first lets the next
    scripted batch of foreign writes land, and fails without effect when the
    script says so. *)

Module Mem.

Record interference := { changes : list (bytes * option s3obj); fails : bool; undeletable : list bytes }.
Record mem_world := { mem : bucket; script : list interference }.

Definition apply_change (b : bucket) (c : bytes * option s3obj) : bucket :=
  match c with (k, Some o) => <[k := o]> b | (k, None) => delete k b end.

(** The bucket a request meets, whether it fails, and what the script keeps. *)
Definition arrive (w : mem_world) : bucket * bool * list interference :=
  match script w with
  | [] => (mem w, false, [])
  | i :: s => (fold_left apply_change (changes i) (mem w), fails i, s)
  end.

Definition request {A} (f : bucket -> gores A * bucket) (w : mem_world) : gores A * mem_world :=
  match arrive w with
  | (b, true, s) => (Err Errorf, {| mem := b; script := s |})
  | (b, false, s) => let '(r, b') := f b in (r, {| mem := b'; script := s |})
  end.

Definition etag (body : bytes) : bytes := bs "etag:" ++ body.

Definition get (k : bytes) : mem_world -> gores get_output * mem_world :=
  request (fun b => match b !! k with
    | Some o => (Ok {| g_body := Ok (o_body o); g_etag := etag (o_body o); g_meta := o_meta o;
                       g_length := Some (Z.of_nat (length (o_body o))) |}, b)
    | None => (Err (APIError (bs "NoSuchKey")), b)
    end).

Definition range (k : bytes) (first last : Z) : mem_world -> gores get_output * mem_world :=
  request (fun b => match b !! k with
    | Some o =>
        if first <? Z.of_nat (length (o_body o)) then
          (Ok {| g_body := Ok (take (Z.to_nat (last - first + 1)) (drop (Z.to_nat first) (o_body o)));
                 g_etag := etag (o_body o); g_meta := o_meta o; g_length := Some (last - first + 1) |}, b)
        else (Err (APIError (bs "InvalidRange")), b)
    | None => (Err (APIError (bs "NoSuchKey")), b)
    end).

Definition head (k : bytes) : mem_world -> gores (gmap bytes bytes * option Z) * mem_world :=
  request (fun b => match b !! k with
    | Some o => (Ok (o_meta o, Some (Z.of_nat (length (o_body o)))), b)
    | None => (Err (APIError (bs "NotFound")), b)
    end).

Definition admits (c : put_cond) (k : bytes) (b : bucket) : bool :=
  match c with
  | Always => true
  | IfNoneMatch => bool_decide (b !! k = None)
  | IfMatch t => match b !! k with
                 | Some o => bool_decide (etag (o_body o) = t)
                 | None => false
                 end
  end.

Definition put (k body : bytes) (meta : gmap bytes bytes) (c : put_cond)
    : mem_world -> gores bytes * mem_world :=
  request (fun b =>
    if admits c k b then (Ok (etag body), <[k := {| o_body := body; o_meta := meta |}]> b)
    else (Err (APIError (bs "PreconditionFailed")), b)).

Definition del (k : bytes) : mem_world -> gores unit * mem_world :=
  request (fun b => (Ok tt, delete k b)).

(** The keys the script keeps from being deleted are reported and kept. *)
Definition dels (ks : list bytes) (w : mem_world) : gores (list bytes) * mem_world :=
  let kept := match script w with i :: _ => filter (fun k => k ∈ undeletable i) ks | [] => [] end in
  request (fun b => (Ok kept, foldr delete b (filter (fun k => k ∉ kept) ks))) w.

Definition list_page (p : bytes) (_ : option bytes) : mem_world -> gores (list bytes * option bytes) * mem_world :=
  request (fun b => (Ok (merge_sort bytes_le (filter (fun k => has_prefix k p = true) (map fst (map_to_list b))), None), b)).

#[export] Instance mem_s3 : S3 := {|
  World := mem_world; ETagOf := etag;
  GetObject := get; GetRange := range; HeadObject := head; PutObject := put;
  DeleteObject := del; DeleteObjects := dels; ListObjectsV2 := list_page; TokenCovers _ _ := False |}.

Definition any_env (_ _ : bucket) : Prop := True.

#[export] Instance any_env_preorder : PreOrder any_env.
Proof. by split. Qed.

Lemma mem_request_inv {A} (f : bucket -> gores A * bucket) w r w' :
  request f w = (r, w') ->
  (r = Err Errorf) \/ exists b, f b = (r, mem w').
Proof.
  unfold request. destruct (arrive w) as [[b []] s]; [intros [= <- <-]; by left|].
  destruct (f b) as [r' b'] eqn:E. intros [= <- <-]. right. exists b. done.
Qed.

Lemma any_env_all b b' : any_env b b'.
Proof. exact I. Qed.
#[local] Hint Resolve any_env_all : core.

Lemma foreign_errorf : foreign Errorf.
Proof. by split. Qed.
Lemma foreign_api c : foreign (APIError c).
Proof. by split. Qed.
#[local] Hint Resolve foreign_errorf foreign_api : core.

(** One page that lists the whole bucket. *)
Lemma full_page (b : bucket) (p : bytes) :
  let keys := merge_sort bytes_le (filter (fun k => has_prefix k p = true) (map fst (map_to_list b))) in
  (forall k, k ∈ keys -> is_Some (b !! k) /\ has_prefix k p = true) /\
  (forall k, is_Some (b !! k) -> has_prefix k p = true -> k ∈ keys).
Proof.
  cbv zeta. assert (Hin : forall k, k ∈ map fst (map_to_list b) <-> is_Some (b !! k)).
  { intros k. change (map fst (map_to_list b)) with (fst <$> map_to_list b). rewrite list_elem_of_fmap. split.
    - intros ([k' o] & -> & Hk%elem_of_map_to_list). by exists o.
    - intros [o Ho]. exists (k, o). split; [done|]. by apply elem_of_map_to_list. }
  split; intros k; rewrite merge_sort_Permutation, list_elem_of_filter, Hin; tauto.
Qed.

#[export] Instance mem_s3_laws : S3Laws mem any_env.
Proof.
  split; try apply _.
  - intros body. done.
  - intros k w out w' Hr. apply mem_request_inv in Hr as [|[b Hb]]; [done|].
    destruct (b !! k) as [o|] eqn:E; [|done]. injection Hb as <- Hb.
    exists b, o. repeat split; auto; simpl; [congruence|done..].
  - intros k w e w' Hr. apply mem_request_inv in Hr as [[= ->]|[b Hb]].
    + split; [done|]. exists ∅. repeat split; auto; done.
    + destruct (b !! k) eqn:E; [done|]. injection Hb as <- Hb. split; [done|]. exists b. auto.
  - intros k first last w out w' _ Hr. apply mem_request_inv in Hr as [|[b Hb]]; [done|].
    destruct (b !! k) as [o|] eqn:E; [|done]. destruct (first <? _); [|done]. injection Hb as <- Hb.
    exists b, o. split; [done|]. split; [done|]. split; [done|]. split; intros ? [= <-]; done.
  - intros k first last w e w' Hr. apply mem_request_inv in Hr as [[= ->]|[b Hb]].
    + split; [done|]. exists ∅. repeat split; auto; done.
    + destruct (b !! k) eqn:E; [destruct (first <? _); [done|]|];
        injection Hb as <- Hb; (split; [apply foreign_api|]); exists b; repeat split; auto; done.
  - intros k w meta len w' Hr. apply mem_request_inv in Hr as [|[b Hb]]; [done|].
    destruct (b !! k) as [o|] eqn:E; [|done]. injection Hb as <- <- Hb.
    exists b, o. repeat split; auto. naive_solver.
  - intros k w e w' Hr. apply mem_request_inv in Hr as [[= ->]|[b Hb]].
    + split; [done|]. exists ∅. repeat split; auto; done.
    + destruct (b !! k) eqn:E; [done|]. injection Hb as <- Hb. split; [done|]. exists b. auto.
  - intros k body meta c w t w' Hr. apply mem_request_inv in Hr as [|[b Hb]]; [done|].
    destruct (admits c k b) eqn:E; [|done]. injection Hb as <- Hb.
    exists b. repeat split; auto. unfold cond_holds, admits in *.
    destruct c; [done|by b2p|]. destruct (b !! k) as [o|]; [|done]. b2p. eauto.
  - auto.
  - intros k body meta c w e w' Hr. split; [|by left].
    apply mem_request_inv in Hr as [[= ->]|[b Hb]]; [done|].
    destruct (admits c k b); [done|]. by injection Hb as <- Hb.
  - intros. exists ∅. auto.
  - intros k w e w' Hr. split; [|exists ∅, ∅; auto].
    apply mem_request_inv in Hr as [[= ->]|[b Hb]]; done.
  - intros. exists ∅. auto.
  - intros ks w e w' Hr. split; [|exists ∅, []; repeat split; auto; set_solver].
    unfold dels in Hr. apply mem_request_inv in Hr as [[= ->]|[b Hb]]; done.
  - intros p t w r w' Hr. split; [done|]. intros e ->. apply mem_request_inv in Hr as [[= ->]|[b Hb]]; done.
  - intros p t w keys next w' Hr. apply mem_request_inv in Hr as [|[b Hb]]; [done|]. injection Hb as <- <- _.
    exists b. destruct (full_page b p) as [Hs Hc]. do 2 (split; [done|]). split; [exact Hs|]. intros k Hk Hp _. left. by apply Hc.
Qed.

End Mem.

(** ** A bucket with a single client

    The same store without interference or failures: its [env] is equality. *)

Module Plain.
Import Mem.

Definition answer {A} (f : bucket -> gores A * bucket) (b : bucket) : gores A * bucket := f b.

#[export] Instance plain_s3 : S3 := {|
  World := bucket; ETagOf := etag;
  GetObject k b := (match b !! k with
    | Some o => Ok {| g_body := Ok (o_body o); g_etag := etag (o_body o); g_meta := o_meta o;
                      g_length := Some (Z.of_nat (length (o_body o))) |}
    | None => Err (APIError (bs "NoSuchKey"))
    end, b);
  GetRange k first last b := (match b !! k with
    | Some o =>
        if first <? Z.of_nat (length (o_body o)) then
          Ok {| g_body := Ok (take (Z.to_nat (last - first + 1)) (drop (Z.to_nat first) (o_body o)));
                g_etag := etag (o_body o); g_meta := o_meta o; g_length := Some (last - first + 1) |}
        else Err (APIError (bs "InvalidRange"))
    | None => Err (APIError (bs "NoSuchKey"))
    end, b);
  HeadObject k b := (match b !! k with
    | Some o => Ok (o_meta o, Some (Z.of_nat (length (o_body o))))
    | None => Err (APIError (bs "NotFound"))
    end, b);
  PutObject k body meta c b :=
    if admits c k b then (Ok (etag body), <[k := {| o_body := body; o_meta := meta |}]> b)
    else (Err (APIError (bs "PreconditionFailed")), b);
  DeleteObject k b := (Ok tt, delete k b);
  DeleteObjects ks b := (Ok [], foldr delete b (filter (fun k => k ∉ []) ks));
  ListObjectsV2 p _ b :=
    (Ok (merge_sort bytes_le (filter (fun k => has_prefix k p = true) (map fst (map_to_list b))), None), b);
  TokenCovers _ _ := False;
|}.

#[export] Instance plain_s3_laws : S3Laws (H := plain_s3) (fun b => b) eq.
Proof.
  split; try apply _; cbn.
  - done.
  - intros k w out w' [= Hr <-]. destruct (w !! k) as [o|] eqn:E; [|done]. injection Hr as <-.
    exists w, o. repeat split; auto; simpl; [congruence|done..].
  - intros k w e w' [= Hr <-]. destruct (w !! k) as [o|] eqn:E; [done|]. injection Hr as <-.
    split; [apply foreign_api|]. eauto.
  - intros k first last w out w' _ [= Hr <-]. destruct (w !! k) as [o|] eqn:E; [|done].
    destruct (first <? _); [|done]. injection Hr as <-.
    exists w, o. split; [done|]. split; [done|]. split; [done|]. split; intros ? [= <-]; done.
  - intros k first last w e w' [= Hr <-].
    destruct (w !! k) as [o|] eqn:E; [destruct (first <? _); [done|]|]; injection Hr as <-;
      (split; [apply foreign_api|]); exists w; repeat split; auto; done.
  - intros k w meta len w' [= Hr <-]. destruct (w !! k) as [o|] eqn:E; [|done]. injection Hr as <- <-.
    exists w, o. repeat split; auto. intros n [= <-]. done.
  - intros k w e w' [= Hr <-]. destruct (w !! k) as [o|] eqn:E; [done|]. injection Hr as <-.
    split; [apply foreign_api|]. eauto.
  - intros k body meta c w t w'. destruct (admits c k w) eqn:E; [|done]. intros [= <- <-].
    exists w. repeat split; auto. unfold cond_holds, admits in *.
    destruct c; [done|by b2p|]. destruct (w !! k) as [o|]; [|done]. b2p. eauto.
  - intros k body meta c w e w'. destruct (admits c k w) eqn:E; [done|]. by intros [= <- <-].
  - intros k body meta c w e w'. destruct (admits c k w) eqn:E; [done|]. intros [= <- <-].
    split; [apply foreign_api|]. by left.
  - intros k w u w' [= _ <-]. eauto.
  - done.
  - intros ks w failed w' [= <- <-]. eauto.
  - done.
  - intros p t w r w' [= <- <-]. split; [done|]. done.
  - intros p t w keys next w' [= <- <- <-]. exists w. destruct (full_page w p) as [Hs Hc].
    do 2 (split; [done|]). split; [exact Hs|]. intros k Hk Hp _. left. by apply Hc.
Qed.
End Plain.
