(* ===== verification/Concrete.v ===== *)
(** * Concrete third-party code for the witnesses

    An instance of [GoGit] whose hashes are byte strings, and of [Zstd] by
    run-length coding.  Nothing here models objgit: the instances show that
    the laws the theorems rely on can hold, and let witnesses compute. *)

From S2P Require Import Prelude GoLib.

Definition hexc (z : Z) : byte := if z <? 10 then bz (48 + z) else bz (87 + z).
Definition unhexc (b : byte) : option Z :=
  if is_digit b then Some (bu b - 48)
  else if (97 <=? bu b) && (bu b <=? 102) then Some (bu b - 87) else None.

Fixpoint hex (l : bytes) : bytes :=
  match l with
  | [] => []
  | b :: l' => hexc (bu b / 16) :: hexc (bu b mod 16) :: hex l'
  end.

Fixpoint unhex (l : bytes) : option bytes :=
  match l with
  | [] => Some []
  | x :: y :: l' =>
      match unhexc x, unhexc y, unhex l' with
      | Some a, Some b, Some r => Some (bz (16 * a + b) :: r)
      | _, _, _ => None
      end
  | _ => None
  end.

Lemma hexc_ok z : 0 <= z < 16 -> unhexc (hexc z) = Some z /\ hex_digit (hexc z) = true.
Proof.
  intros Hz.
  assert (z = 0 \/ z = 1 \/ z = 2 \/ z = 3 \/ z = 4 \/ z = 5 \/ z = 6 \/ z = 7 \/ z = 8 \/ z = 9 \/
    z = 10 \/ z = 11 \/ z = 12 \/ z = 13 \/ z = 14 \/ z = 15) as Hc by lia.
  repeat destruct Hc as [->|Hc]; subst; by vm_compute.
Qed.

Lemma nibbles b : 0 <= bu b / 16 < 16 /\ 0 <= bu b mod 16 < 16.
Proof. pose proof (bu_range b). split; [|apply Z.mod_pos_bound; lia].
  split; [apply Z.div_pos; lia|apply Z.div_lt_upper_bound; lia]. Qed.

Lemma unhex_hex l : unhex (hex l) = Some l.
Proof.
  induction l as [|b l IH]; simpl; [done|].
  destruct (nibbles b) as [H1 H2].
  rewrite (proj1 (hexc_ok _ H1)), (proj1 (hexc_ok _ H2)), IH.
  rewrite <-Z.div_mod by lia. by rewrite bz_bu.
Qed.

Lemma hex_hex l : Forall (fun b => hex_digit b = true) (hex l).
Proof.
  induction l as [|b l IH]; simpl; [constructor|]. destruct (nibbles b).
  repeat constructor; [by apply hexc_ok..|done].
Qed.

Definition hash_width_ok (b : bytes) : bool :=
  (length b =? 20)%nat || (length b =? 32)%nat.

Definition toy_bytes (h : option bytes) : bytes :=
  match h with Some b => b | None => repeat (bz 0) 20 end.
Definition toy_from_bytes (b : bytes) : option (option bytes) :=
  if hash_width_ok b then Some (Some b) else None.
Definition toy_from_hex (s : bytes) : option (option bytes) :=
  match unhex s with Some b => toy_from_bytes b | None => None end.

(** A polynomial digest, 20 bytes wide. *)
Definition toy_digest (typ size : Z) (body : bytes) : option bytes :=
  Some (be_put 20 (fold_left (fun acc b => acc * 1000003 + bu b + 1) body (typ * 1009 + size + 7))).

Definition toy_types : list (bytes * Z) :=
  [(bs "commit", 1); (bs "tree", 2); (bs "blob", 3); (bs "tag", 4); (bs "ofs-delta", 6); (bs "ref-delta", 7)].

#[export] Instance toy_git : GoGit := {|
  Hash := option bytes;
  ZeroHash := None;
  HashBytes := toy_bytes;
  FromBytes := toy_from_bytes;
  HashString h := match hex (toy_bytes h) with [] => bs "0" | s => s end;
  FromHex := toy_from_hex;
  HasherSum := toy_digest;
  ParseObjectType s := snd <$> find (fun p => bytes_eqb (fst p) s) toy_types;
  ObjectTypeString t := match find (fun p => snd p =? t) toy_types with Some p => fst p | None => bs "unknown" end;
|}.

Lemma toy_wf b n : length b = n -> (n = 20 \/ n = 32)%nat -> wf_hash n (Some b : @Hash toy_git).
Proof.
  intros Hb Hn. unfold wf_hash. simpl. unfold toy_from_bytes, toy_from_hex.
  assert (Hw : hash_width_ok b = true) by (unfold hash_width_ok; destruct Hn; subst; rewrite H; done).
  rewrite Hw. split; [done|]. split; [done|].
  destruct b as [|x b]; [by destruct Hn; subst|].
  change (hex (x :: b)) with (hexc (bu x / 16) :: hexc (bu x mod 16) :: hex b).
  cbv iota. change (hexc (bu x / 16) :: hexc (bu x mod 16) :: hex b) with (hex (x :: b)).
  rewrite unhex_hex. unfold toy_from_bytes. by rewrite Hw.
Qed.

#[export] Instance toy_git_laws : @GoGitLaws toy_git.
Proof.
  split.
  - done.
  - intros b h. simpl. unfold toy_from_bytes. destruct (hash_width_ok b); [|done]. by intros [= <-].
  - intros b. simpl. unfold toy_from_bytes, hash_width_ok.
    destruct (Nat.eqb_spec (length b) 20), (Nat.eqb_spec (length b) 32); simpl;
      (split; [intros [? ?]|]; intuition eauto; done).
  - intros h. simpl. pose proof (hex_hex (toy_bytes h)) as Hh.
    destruct (hex (toy_bytes h)); [|done]. split; [repeat constructor|done].
  - intros t Ht. rewrite !elem_of_cons, elem_of_nil in Ht. destruct Ht as [->|[->|[->|[->|[]]]]]; reflexivity.
  - intros typ size body. exists 20%nat. split; [by left|].
    apply toy_wf; [apply length_be_put|by left].
Qed.

(** Run-length coding: pairs of a count and a byte. *)
Fixpoint rle (l : bytes) : bytes :=
  match l with
  | [] => []
  | x :: l' =>
      match rle l' with
      | c :: y :: r => if bool_decide (x = y) && (bu c <? 255) then bz (bu c + 1) :: y :: r
                       else bz 1 :: x :: c :: y :: r
      | _ => [bz 1; x]
      end
  end.

Fixpoint unrle (l : bytes) : option bytes :=
  match l with
  | [] => Some []
  | c :: y :: r => (fun t => repeat y (Z.to_nat (bu c)) ++ t) <$> unrle r
  | _ => None
  end.

#[export] Instance toy_zstd : Zstd := {|
  EncodeAll := rle;
  EncodeStream := rle;
  DecodeAll max s := match unrle s with
                     | Some b => if Z.of_nat (length b) <=? max then Some b else None
                     | None => None
                     end;
|}.

Lemma unrle_rle l : unrle (rle l) = Some l.
Proof.
  induction l as [|x l IH]; [done|]. cbn [rle].
  destruct (rle l) as [|c [|y r]] eqn:E; [by injection IH as <-|done|].
  cbn [unrle] in IH. destruct (unrle r) as [t|] eqn:Et; [|done]. injection IH as <-.
  destruct (bool_decide (x = y) && (bu c <? 255)) eqn:Hc.
  - b2p. subst. cbn [unrle]. rewrite Et. cbn. rewrite bu_bz. pose proof (bu_range c).
    rewrite Z.mod_small by lia. by rewrite Z2Nat.inj_add, Nat.add_comm by lia.
  - cbn [unrle]. rewrite Et. done.
Qed.

Lemma rle_nonempty l : l <> [] -> rle l <> [].
Proof.
  destruct l as [|x l]; [done|]. intros _. cbn [rle]. destruct (rle l) as [|c [|y r]]; [done..|].
  by destruct (_ && _).
Qed.

#[export] Instance toy_zstd_laws : ZstdLaws.
Proof.
  assert (Hd : forall max b, Z.of_nat (length b) <= max -> DecodeAll max (rle b) = Some b).
  { intros max b Hb. simpl. rewrite unrle_rle. by destruct (Z.leb_spec (Z.of_nat (length b)) max); [|lia]. }
  split; [exact Hd|exact Hd|exact rle_nonempty|exact rle_nonempty|..].
  - intros max s b. simpl. destruct (unrle s) as [x|]; [|done].
    destruct (Z.leb_spec (Z.of_nat (length x)) max); [|done]. by intros [= <-].
  - intros max max' s b. simpl. destruct (unrle s) as [x|]; [|done].
    destruct (Z.leb_spec (Z.of_nat (length x)) max); [|done]. intros [= <-] Hm.
    by destruct (Z.leb_spec (Z.of_nat (length x)) max'); [|lia].
Qed.

(** A digest name: the bytes themselves, in hexadecimal. *)
#[export] Instance toy_sha : Sha256 := {| Sha256Hex := hex |}.


(** A memory object takes exactly the bytes it declared; a delta appends its instructions. *)
#[export] Instance toy_objects : GoGitObjects := {|
  MemWrite n b := if n =? Z.of_nat (length b) then Some n else None;
  PatchDelta base d := match d with [] => None | _ => Some (base ++ d) end;
|}.

#[export] Instance toy_objects_laws : GoGitObjectsLaws.
Proof. split. intros b. simpl. by rewrite Z.eqb_refl. Qed.
