(* ===== verification/Codec.v ===== *)
(** * Compression policy (internal/storage/tigris/compress.go)

    When a block or an object is stored compressed, and the decoders' bounds. *)

From S2P Require Import Prelude GoLib.

Definition codecRaw : Z := 0.
Definition codecZstd : Z := 1.

Definition compressionFloor : Z := Z.shiftl 2 10.
Definition inMemoryCap : Z := Z.shiftl 1 20.
Definition probeWindow : Z := Z.shiftl 64 10.
Definition minGainBytes : Z := 64.
Definition probeMinGainRatio : Z := 32.
Definition cueMaxDecoded : Z := Z.shiftl 256 20.
Definition payloadMaxDecoded : Z := Z.shiftl 1 30.

Definition SetEncoderConcurrency (n : Z) : Z := if n <? 1 then 1 else n.

Definition codecName (codec : Z) : bytes := if codec =? codecZstd then bs "zstd" else bs "raw".

Definition worthStoring (compressed raw : Z) : bool := compressed + minGainBytes <=? raw.

Definition probeWins (compressed head : Z) : bool :=
  if head =? 0 then false else compressed <=? head - Z.quot head probeMinGainRatio.

Definition blen (b : bytes) : Z := Z.of_nat (length b).

Section policy.
Context `{Zstd}.

Definition compressBlock (b : bytes) : bytes * bool :=
  if blen b =? 0 then (b, false)
  else let out := EncodeAll b in
       if negb (worthStoring (blen out) (blen b)) then (b, false) else (out, true).

(** The block a reader gets back, given the codec flag the writer recorded. *)
Definition decodeBlock (stored : bytes) (compressed : bool) : option bytes :=
  if compressed then DecodeAll cueMaxDecoded stored else Some stored.

Lemma compressBlock_size b out c :
  compressBlock b = (out, c) ->
  if c then blen out + minGainBytes <= blen b else out = b.
Proof.
  unfold compressBlock, worthStoring. destruct (blen b =? 0); [by intros [= <- <-]|].
  destruct (blen (EncodeAll b) + minGainBytes <=? blen b) eqn:E; simpl; intros [= <- <-]; [|done].
  by b2p.
Qed.

Lemma compressBlock_le b out c : compressBlock b = (out, c) -> blen out <= blen b.
Proof. intros Hc. apply compressBlock_size in Hc. destruct c; [unfold minGainBytes in *; lia|by subst]. Qed.

Lemma compressBlock_decode `{!ZstdLaws} b out c :
  compressBlock b = (out, c) -> blen b <= cueMaxDecoded -> decodeBlock out c = Some b.
Proof.
  unfold compressBlock, decodeBlock. intros Hc Hb.
  destruct (blen b =? 0); [by injection Hc as <- <-|].
  destruct (negb _) eqn:E; injection Hc as <- <-; [done|]. by apply DecodeAll_EncodeAll.
Qed.
End policy.

#[export] Hint Resolve compressBlock_le : bytes.
