(* ===== verification/PackedRefs.v ===== *)
(** * The packed-refs object (internal/storage/tigris/packedrefs.go, refs.go)

    The text form of one reference, and the versioned object that holds every
    reference of a repository. *)

From S2P Require Import Prelude GoLib Codec Concrete.
From Stdlib Require Import Strings.Byte.

Definition symRefPrefix : bytes := bs "ref: ".
Definition tab : byte := bz 9.
Definition newline : byte := bz 10.
Definition refsHeaderLen : nat := 16.
Definition refsVersion1 : Z := 1.
Definition refsCodecOff : nat := 4.
Definition refsCountOff : nat := 5.
Definition refsMagic : bytes := bs "OGR".

Section packed_refs.
Context `{GoGit, Zstd}.

Abbreviation refmap := (gmap bytes reference).

(** ** One reference's value *)

Definition encodeRefValue (r : reference) : bytes :=
  match r with
  | SymbolicReference _ target => symRefPrefix ++ target ++ [newline]
  | HashReference _ h => HashString h ++ [newline]
  end.

Definition decodeRefValue (name v : bytes) : gores reference :=
  let value := TrimSpace v in
  match cut_prefix value symRefPrefix with
  | Some target => Ok (SymbolicReference name (TrimSpace target))
  | None =>
      match FromHex value with
      | None => Err (Wrapf (Sent errMalformedRef))
      | Some h => Ok (HashReference name h)
      end
  end.

(** ** The object *)

Definition encode_line (refs : refmap) (n : bytes) : bytes :=
  n ++ [tab] ++ match refs !! n with Some r => encodeRefValue r | None => [] end.

Definition sorted_names (refs : refmap) : list bytes :=
  merge_sort bytes_le (fst <$> map_to_list refs).

Definition packed_header (compressed : bool) (count : Z) : bytes :=
  refsMagic ++ [bz refsVersion1] ++ [bz (if compressed then codecZstd else 0)] ++
  be_put 4 (u32 count) ++ repeat (bz 0) 7.

Definition encodePackedRefs (refs : refmap) : bytes :=
  let names := sorted_names refs in
  let body := concat (encode_line refs <$> names) in
  let '(stored, compressed) := compressBlock body in
  packed_header compressed (Z.of_nat (length names)) ++ stored.

Definition errBad : goerr := Wrapf (Sent errBadPackedRefs).

(** The loop over the body's lines.  Each round consumes a newline, so the
    length of the body is enough fuel (see [parse_lines_fuel]). *)
Fixpoint parse_lines (fuel : nat) (body : bytes) (out : refmap) : gores refmap :=
  match body with
  | [] => Ok out
  | _ :: _ =>
      match fuel with
      | O => Err Errorf
      | S fuel' =>
          match cut_byte newline body with
          | None => Err errBad
          | Some (line, rest) =>
              match cut_byte tab line with
              | None => Err errBad
              | Some (name, rawValue) =>
                  let? ref := decodeRefValue name rawValue in
                  parse_lines fuel' rest (<[name := ref]> out)
              end
          end
      end
  end.

Definition decodePackedRefs (b : bytes) : gores refmap :=
  if (length b <? refsHeaderLen)%nat then Err errBad else
  if negb (bytes_eqb (take 3 b) refsMagic) then Err errBad else
  if negb (bu (nth 3 b inhabitant) =? refsVersion1) then Err errBad else
  let body := drop refsHeaderLen b in
  let codec := bu (nth refsCodecOff b inhabitant) in
  let? body :=
    if codec =? codecRaw then Ok body
    else if codec =? codecZstd then
      match DecodeAll cueMaxDecoded body with
      | Some dec => Ok dec
      | None => Err (Wrapf2 (Sent errBadPackedRefs) Errorf)
      end
    else Err errBad in
  let want := be_get (take 4 (drop refsCountOff b)) in
  let? out := parse_lines (length body) body ∅ in
  if negb (u32 (Z.of_nat (size out)) =? want) then Err errBad else Ok out.

(** ** Well-formed reference sets *)

(** What [git-check-ref-format] and the object format guarantee of a stored
    reference: no tab or line break in a name, a readable hash, a target
    that survives trimming. *)
Definition wf_target (t : bytes) : Prop := t <> [] /\ trimmed t /\ newline ∉ t.
Definition wf_ref (key : bytes) (r : reference) : Prop :=
  ref_name r = key /\ tab ∉ key /\ newline ∉ key /\
  match r with
  | HashReference _ h => FromHex (HashString h) = Some h
  | SymbolicReference _ t => wf_target t
  end.
Definition wf_refs (refs : refmap) : Prop := map_Forall wf_ref refs.

(** ** Values survive *)

Lemma encodings_not_hex :
  forallb (fun e => existsb (fun x => negb (hex_digit x)) e) space_encodings = true.
Proof. by vm_compute. Qed.

Lemma encodings_not_ref :
  forallb (fun e => match e with
                    | x :: _ => negb (bool_decide (x = bz 114)) &&
                        ((length e <=? 1)%nat || negb (existsb (fun y => bool_decide (y = bz 32)) e))
                    | [] => false
                    end) space_encodings = true.
Proof. by vm_compute. Qed.

Lemma find_space_none (f : bytes -> bool) :
  (forall e, e ∈ space_encodings -> f e = false) -> find f space_encodings = None.
Proof.
  intros Hf. destruct (find f space_encodings) as [e|] eqn:E; [|done].
  apply find_some in E as [Hin Hfe]. rewrite Hf in Hfe; [done|]. by apply list_elem_of_In.
Qed.

Lemma encoding_elem e : e ∈ space_encodings -> exists x, x ∈ e /\ hex_digit x = false.
Proof.
  intros He. pose proof encodings_not_hex as Hall. rewrite forallb_forall in Hall.
  specialize (Hall e (proj1 (list_elem_of_In _ _) He)).
  apply existsb_exists in Hall as (x & Hx & Hn). exists x. b2p. split; [by apply list_elem_of_In|done].
Qed.

Lemma hex_trimmed s : Forall (fun b => hex_digit b = true) s -> trimmed s.
Proof.
  intros Hs. rewrite Forall_forall in Hs. split; apply find_space_none; intros e He;
    destruct (encoding_elem e He) as (x & Hx & Hn); apply not_true_iff_false.
  - intros Hp. apply has_prefix_spec in Hp as [r ->]. rewrite Hs in Hn; [done|set_solver].
  - intros Hp. apply has_suffix_spec in Hp as [r ->]. rewrite Hs in Hn; [done|set_solver].
Qed.

Lemma app_eq_suffix (a b c d : bytes) :
  a ++ b = c ++ d -> (length d <= length b)%nat -> exists k, b = k ++ d /\ c = a ++ k.
Proof.
  revert c. induction a as [|x a IH]; intros [|y c] Heq Hl; simpl in *.
  - exists []. done.
  - by exists (y :: c).
  - subst. simpl in Hl. rewrite length_app in Hl. lia.
  - injection Heq as -> Heq. destruct (IH _ Heq Hl) as (k & -> & ->). by exists k.
Qed.

Lemma encoding_shape e :
  e ∈ space_encodings ->
  exists x e', e = x :: e' /\ x <> bz 114 /\ ((length e <= 1)%nat \/ bz 32 ∉ e).
Proof.
  intros He. pose proof encodings_not_ref as Hall. rewrite forallb_forall in Hall.
  specialize (Hall e (proj1 (list_elem_of_In _ _) He)).
  destruct e as [|x e]; [done|]. exists x, e. apply andb_true_iff in Hall as [Hx Hor]. b2p.
  split; [done|]. split; [done|]. apply orb_true_iff in Hor as [Hl|Hn]; [left; by b2p|right].
  intros Hin. apply negb_true_iff, not_true_iff_false in Hn. apply Hn, existsb_exists.
  exists (bz 32). split; [by apply list_elem_of_In|by apply bool_decide_true].
Qed.

Lemma symref_trimmed t : t <> [] -> trimmed t -> trimmed (symRefPrefix ++ t).
Proof.
  intros Hne [_ Ht].
  split; apply find_space_none; intros e He;
    destruct (encoding_shape e He) as (x & e' & -> & Hx & Hsp); apply not_true_iff_false; intros Hp.
  - apply has_prefix_spec in Hp as [r Hr]. injection Hr as <- _. done.
  - assert (Hno : has_suffix t (x :: e') = false).
    { apply not_true_iff_false. intros Hs. unfold trailing_space in Ht.
      pose proof (find_none _ _ Ht (x :: e') (proj1 (list_elem_of_In _ _) He)) as Hc. simpl in Hc. congruence. }
    apply has_suffix_spec in Hp as [r Hr].
    destruct (decide (length (x :: e') <= length t)%nat) as [Hle|Hgt].
    { destruct (app_eq_suffix _ _ _ _ Hr Hle) as (k & Hk & _).
      rewrite (proj2 (has_suffix_spec t (x :: e'))) in Hno; [done|eauto]. }
    symmetry in Hr. destruct (app_eq_suffix _ _ _ _ Hr ltac:(lia)) as (k & Hek & Hk).
    rewrite Hek, length_app in *. destruct t as [|y t]; [done|]. simpl in *.
    assert (Hin : bz 32 ∈ k).
    { change (bz 32) with Byte.x20.
      change symRefPrefix with [Byte.x72; Byte.x65; Byte.x66; Byte.x3a; Byte.x20] in Hk.
      destruct r as [|? [|? [|? [|? [|? r]]]]]; simplify_list_eq; try set_solver.
      destruct r; simplify_list_eq. }
    destruct Hsp as [Hl|Hn]; [|set_solver]. destruct k; simpl in *; [set_solver|lia].
Qed.

Lemma hex_no_symref s :
  Forall (fun b => hex_digit b = true) s -> cut_prefix s symRefPrefix = None.
Proof.
  intros Hs. unfold cut_prefix. destruct (has_prefix s symRefPrefix) eqn:E; [|done].
  apply has_prefix_spec in E as [r ->]. inversion Hs as [|? ? Hh ?]. by vm_compute in Hh.
Qed.

Lemma hex_byte_not s x : Forall (fun b => hex_digit b = true) s -> hex_digit x = false -> x ∉ s.
Proof. intros Hs Hx Hin. rewrite Forall_forall in Hs. rewrite Hs in Hx; done. Qed.

Context `{!GoGitLaws}.

(** The value of a well-formed reference holds one newline, at its end, and reads back. *)
Lemma ref_value_inv key r :
  wf_ref key r -> exists v, encodeRefValue r = v ++ [newline] /\ newline ∉ v /\ decodeRefValue key v = Ok r.
Proof.
  intros (<- & _ & _ & Hr). destruct r as [n h|n t]; simpl in *.
  - destruct (HashString_hex h) as [Hhex Hne]. exists (HashString h). split; [done|].
    split; [by apply hex_byte_not|]. unfold decodeRefValue.
    by rewrite TrimSpace_trimmed, hex_no_symref, Hr by eauto using hex_trimmed.
  - destruct Hr as (Hne & Ht & Hnl). exists (symRefPrefix ++ t). split; [done|].
    split; [rewrite not_elem_of_app; split; [by vm_compute; set_solver|done]|].
    unfold decodeRefValue.
    rewrite TrimSpace_trimmed, cut_prefix_app, TrimSpace_trimmed by eauto using symref_trimmed. done.
Qed.

Lemma encode_line_inv refs n r :
  wf_refs refs -> refs !! n = Some r ->
  exists v, encode_line refs n = (n ++ tab :: v) ++ [newline] /\ newline ∉ n ++ tab :: v /\
            tab ∉ n /\ decodeRefValue n v = Ok r.
Proof.
  intros Hwf Hn. pose proof (Hwf n r Hn) as Hr. pose proof Hr as (_ & Htab & Hnl & _).
  destruct (ref_value_inv n r Hr) as (v & Hv & Hvn & Hd). exists v.
  unfold encode_line. rewrite Hn, Hv. repeat split; auto.
  - by rewrite <-app_assoc.
  - rewrite not_elem_of_app, not_elem_of_cons. repeat split; auto.
Qed.

(** ** The line loop *)

Lemma parse_lines_fuel n m body out :
  (length body <= n)%nat -> (length body <= m)%nat -> parse_lines n body out = parse_lines m body out.
Proof.
  revert m body out. induction n as [|n IH]; intros m [|x body] out Hn Hm;
    destruct m as [|m]; cbn [parse_lines length] in *; try (done || lia).
  destruct (cut_byte newline (x :: body)) as [[line rest]|] eqn:E; [|done].
  destruct (cut_byte tab line) as [[name v]|]; [|done].
  destruct (decodeRefValue name v); simpl; [|done].
  apply cut_byte_some in E as [Heq _]. apply (f_equal length) in Heq.
  rewrite length_app in Heq. simpl in Heq. apply IH; lia.
Qed.

Lemma parse_lines_step n name v rest out r :
  (length ((name ++ tab :: v) ++ [newline] ++ rest) <= n)%nat ->
  newline ∉ name ++ tab :: v -> tab ∉ name -> decodeRefValue name v = Ok r ->
  parse_lines n ((name ++ tab :: v) ++ [newline] ++ rest) out =
  parse_lines (length rest) rest (<[name := r]> out).
Proof.
  intros Hn Hnl Htab Hd. destruct n as [|n].
  { rewrite !length_app in Hn. simpl in Hn. lia. }
  pose proof (cut_byte_app newline (name ++ tab :: v) rest Hnl) as Hc.
  change ([newline] ++ rest) with (newline :: rest) in *.
  destruct ((name ++ tab :: v) ++ newline :: rest) as [|x l] eqn:El; [by destruct name|].
  cbn [parse_lines]. rewrite Hc. cbv iota beta. rewrite cut_byte_app, Hd by done. simpl.
  apply parse_lines_fuel; [|done]. rewrite <-El, !length_app in Hn. simpl in Hn. lia.
Qed.

Lemma parse_lines_names refs names out :
  wf_refs refs -> NoDup names -> (forall n, n ∈ names -> is_Some (refs !! n)) ->
  let body := concat (encode_line refs <$> names) in
  exists out', parse_lines (length body) body out = Ok out' /\ (forall n, out' !! n = if decide (n ∈ names) then refs !! n else out !! n).
Proof.
  intros Hwf. revert out. induction names as [|n names IH]; intros out Hnd Hin.
  - exists out. split; [done|]. intros n. by destruct (decide (n ∈ [])) as [?%not_elem_of_nil|].
  - apply NoDup_cons in Hnd as [Hnn Hnd].
    destruct (Hin n) as [r Hr]; [set_solver|].
    destruct (encode_line_inv refs n r Hwf Hr) as (v & Hl & Hnl & Htab & Hd).
    cbn [fmap list_fmap concat]. cbv zeta. rewrite Hl, <-app_assoc.
    destruct (IH (<[n := r]> out) Hnd) as (out' & Hp & Ho); [set_solver|].
    exists out'. rewrite (parse_lines_step _ _ _ _ _ r) by done. split; [done|].
    intros m. rewrite Ho. destruct (decide (m = n)) as [->|Hne].
    + rewrite decide_False, decide_True, lookup_insert_eq by set_solver. done.
    + destruct (decide (m ∈ names)); [by rewrite decide_True by set_solver|].
      by rewrite decide_False, lookup_insert_ne by set_solver.
Qed.

(** A proper prefix of the lines never yields as many references as there were lines. *)
Lemma parse_lines_prefix refs names p q n out out' :
  wf_refs refs -> (forall n, n ∈ names -> is_Some (refs !! n)) ->
  concat (encode_line refs <$> names) = p ++ q -> q <> [] ->
  (length p <= n)%nat -> parse_lines n p out = Ok out' ->
  (size out' < size out + length names)%nat.
Proof.
  intros Hwf. revert p n out. induction names as [|m names IH]; intros p n out Hin Hb Hq Hn Hp.
  - simpl in Hb. symmetry in Hb. apply app_eq_nil in Hb as [_ ->]. done.
  - destruct (Hin m) as [r Hr]; [set_solver|].
    destruct (encode_line_inv refs m r Hwf Hr) as (v & Hl & Hnl & Htab & Hd).
    cbn [fmap list_fmap concat] in Hb. rewrite Hl, <-app_assoc in Hb.
    apply app_eq_app in Hb as (k & [[Hpk Hk]|[-> Hk]]).
    + (* the cut is inside the line, or just before its newline *)
      assert (Hnp : newline ∉ p) by (rewrite Hpk in Hnl; set_solver).
      destruct p as [|x p]; [destruct n; injection Hp as <-; simpl; lia|].
      destruct n as [|n]; [simpl in Hn; lia|]. cbn [parse_lines] in Hp.
      destruct (cut_byte newline (x :: p)) as [[a b]|] eqn:E; [|done].
      apply cut_byte_some in E as [E _]. rewrite E in Hnp. set_solver.
    + destruct k as [|y k].
      * (* exactly at the newline: no newline in what was kept *)
        rewrite app_nil_r in Hp, Hn.
        destruct (m ++ tab :: v) as [|x l] eqn:El; [by destruct m|].
        destruct n as [|n]; [simpl in Hn; lia|]. cbn [parse_lines] in Hp.
        destruct (cut_byte newline (x :: l)) as [[a b]|] eqn:E; [|done].
        apply cut_byte_some in E as [E _]. rewrite E in Hnl. set_solver.
      * injection Hk as <- Hk. change (newline :: k) with ([newline] ++ k) in *.
        rewrite (parse_lines_step n m v k out r) in Hp by done.
        apply (IH k (length k)) in Hp; [|set_solver|done..].
        rewrite map_size_insert in Hp. simpl.
        destruct (out !! m); simpl in *; lia.
Qed.

(** ** The object *)

Lemma sorted_names_spec refs :
  NoDup (sorted_names refs) /\ length (sorted_names refs) = size refs /\
  StronglySorted bytes_le (sorted_names refs) /\
  forall n, n ∈ sorted_names refs <-> is_Some (refs !! n).
Proof.
  pose proof (merge_sort_Permutation bytes_le (fst <$> map_to_list refs)) as Hp.
  unfold sorted_names. repeat split.
  - rewrite Hp. apply NoDup_fst_map_to_list.
  - rewrite Hp. by rewrite length_fmap, length_map_to_list.
  - apply StronglySorted_merge_sort; apply _.
  - rewrite Hp, list_elem_of_fmap. intros ([k r] & -> & Hk). apply elem_of_map_to_list in Hk. eauto.
  - rewrite Hp, list_elem_of_fmap. intros [r Hr]. exists (n, r). by rewrite elem_of_map_to_list.
Qed.

(** The reads [decodePackedRefs] makes of a header built by [encodePackedRefs]. *)
Lemma header_reads c n rest :
  let b := packed_header c n ++ rest in
  length (packed_header c n) = 16%nat /\ take 3 b = refsMagic /\
  bu (nth 3 b inhabitant) = refsVersion1 /\
  bu (nth refsCodecOff b inhabitant) = (if c then codecZstd else codecRaw) /\
  be_get (take 4 (drop refsCountOff b)) = u32 n /\ drop refsHeaderLen b = rest.
Proof.
  unfold packed_header. pose proof (length_be_put 4 (u32 n)) as Hl.
  pose proof (be_get_put 4 (u32 n)) as Hg. destruct (be_put 4 (u32 n)) as [|a [|b [|d [|e [|]]]]]; try done.
  repeat split; try done.
  - destruct c; done.
  - transitivity (be_get [a; b; d; e]); [done|]. rewrite Hg. unfold u32. apply Zmod_mod.
Qed.

Definition bodyOf (refs : refmap) : bytes := concat (encode_line refs <$> sorted_names refs).

(** Decoding a header of [encodePackedRefs] followed by any stored body. *)
Lemma decode_with_header c n rest :
  decodePackedRefs (packed_header c n ++ rest) =
  let? body := if c then match DecodeAll cueMaxDecoded rest with
                         | Some d => Ok d
                         | None => Err (Wrapf2 (Sent errBadPackedRefs) Errorf)
                         end
               else Ok rest in
  let? out := parse_lines (length body) body ∅ in
  if negb (u32 (Z.of_nat (size out)) =? u32 n) then Err errBad else Ok out.
Proof.
  destruct (header_reads c n rest) as (Hl & Hm & Hv & Hc & Hw & Hd).
  unfold decodePackedRefs. rewrite length_app, Hl, Hm, Hv, Hc, Hw, Hd.
  replace (16 + length rest <? refsHeaderLen)%nat with false
    by (symmetry; apply Nat.ltb_ge; unfold refsHeaderLen; lia).
  unfold bytes_eqb. rewrite bool_decide_true by done. by destruct c.
Qed.

(** What [decodePackedRefs] accepts has the header it checks and the count it claims. *)
Lemma decodePackedRefs_inv b refs :
  decodePackedRefs b = Ok refs ->
  (refsHeaderLen <= length b)%nat /\ take 3 b = refsMagic /\
  bu (nth 3 b inhabitant) = refsVersion1 /\
  u32 (Z.of_nat (size refs)) = be_get (take 4 (drop refsCountOff b)) /\
  exists body, parse_lines (length body) body ∅ = Ok refs.
Proof.
  unfold decodePackedRefs.
  destruct (length b <? refsHeaderLen)%nat eqn:E1; [done|].
  destruct (negb (bytes_eqb (take 3 b) refsMagic)) eqn:E2; [done|].
  destruct (negb (bu (nth 3 b inhabitant) =? refsVersion1)) eqn:E3; [done|].
  intros Hd. apply res_bind_ok in Hd as (body & Hb & Hd). apply res_bind_ok in Hd as (out & Ho & Hd).
  destruct (negb (u32 (Z.of_nat (size out)) =? _)) eqn:E4; [done|]. injection Hd as ->.
  unfold bytes_eqb in E2. b2p. repeat split; eauto.
Qed.

(** Every reference a successful parse adds is filed under its own name. *)
Lemma parse_lines_keys n body out out' :
  parse_lines n body out = Ok out' ->
  map_Forall (fun k r => ref_name r = k) out -> map_Forall (fun k r => ref_name r = k) out'.
Proof.
  revert body out. induction n as [|n IH]; intros [|x body] out Hp Hout; cbn [parse_lines] in Hp;
    try (done || (by injection Hp as <-)).
  destruct (cut_byte newline (x :: body)) as [[line rest]|]; [|done].
  destruct (cut_byte tab line) as [[name v]|]; [|done].
  apply res_bind_ok in Hp as (r & Hr & Hp). eapply IH; [exact Hp|].
  apply map_Forall_insert_2; [|done].
  unfold decodeRefValue in Hr. destruct (cut_prefix _ _); [by injection Hr as <-|].
  destruct (FromHex _); [by injection Hr as <-|done].
Qed.
End packed_refs.

(** ** Properties *)

Section properties.
Context `{GoGit, Zstd, !GoGitLaws, !ZstdLaws}.

(** A well-formed reference set survives [encodePackedRefs] followed by
    [decodePackedRefs], whichever way the compression policy went, as long as
    the body is within the decoder's bound and the count fits the header. *)
Theorem packed_refs_roundtrip (refs : gmap bytes reference) :
  wf_refs refs -> blen (bodyOf refs) <= cueMaxDecoded -> Z.of_nat (size refs) < 2 ^ 32 ->
  decodePackedRefs (encodePackedRefs refs) = Ok refs.
Proof.
  intros Hwf Hlen Hcount. unfold encodePackedRefs.
  change (concat (encode_line refs <$> sorted_names refs)) with (bodyOf refs).
  destruct (compressBlock (bodyOf refs)) as [stored c] eqn:Ec.
  pose proof (compressBlock_decode _ _ _ Ec Hlen) as Hdec.
  destruct (sorted_names_spec refs) as (Hnd & Hsz & _ & Hin).
  destruct (parse_lines_names refs (sorted_names refs) ∅ Hwf Hnd (fun n => proj1 (Hin n)))
    as (out & Hp & Ho).
  assert (out = refs) as ->.
  { apply map_eq. intros n. rewrite Ho. destruct (decide _) as [|Hn]; [done|].
    rewrite lookup_empty. symmetry. apply eq_None_not_Some. by rewrite <-Hin. }
  rewrite decode_with_header. unfold decodeBlock in Hdec.
  assert (Hb : (if c then match DecodeAll cueMaxDecoded stored with
                | Some d => Ok d | None => Err (Wrapf2 (Sent errBadPackedRefs) Errorf) end
                else Ok stored) = @Ok goerr _ (bodyOf refs)).
  { destruct c; [by rewrite Hdec|congruence]. }
  rewrite Hb. simpl. unfold bodyOf at 1 2. rewrite Hp. simpl. rewrite Hsz, Z.eqb_refl. done.
Qed.

(** A raw packed-refs object cut short at any byte, line boundaries
    included, is never decoded: truncation is reported and not read as a
    smaller reference set. *)
Theorem packed_refs_truncation (refs : gmap bytes reference) (k : nat) :
  wf_refs refs -> Z.of_nat (size refs) < 2 ^ 32 ->
  snd (compressBlock (bodyOf refs)) = false ->
  (k < length (encodePackedRefs refs))%nat ->
  is_ok (decodePackedRefs (take k (encodePackedRefs refs))) = false.
Proof.
  intros Hwf Hcount Hraw Hk. unfold encodePackedRefs in *.
  change (concat (encode_line refs <$> sorted_names refs)) with (bodyOf refs) in *.
  destruct (compressBlock (bodyOf refs)) as [stored c] eqn:Ec. simpl in Hraw. subst c.
  apply compressBlock_size in Ec as ->.
  destruct (sorted_names_spec refs) as (Hnd & Hsz & _ & Hin).
  destruct (header_reads false (Z.of_nat (length (sorted_names refs))) (bodyOf refs)) as (Hl & _).
  rewrite length_app, Hl in Hk.
  destruct (decide (k < 16)%nat) as [Hshort|Hlong].
  { unfold decodePackedRefs. rewrite length_take. rewrite length_app, Hl.
    replace (_ <? refsHeaderLen)%nat with true; [done|].
    symmetry. apply Nat.ltb_lt. unfold refsHeaderLen. lia. }
  rewrite take_app_ge by lia. rewrite Hl, decode_with_header. simpl.
  set (p := take (k - 16) (bodyOf refs)).
  destruct (parse_lines (length p) p ∅) as [out|] eqn:Ep; [|done]. simpl.
  assert (Hlt : (size out < size (∅ : gmap bytes reference) + length (sorted_names refs))%nat).
  { eapply (parse_lines_prefix refs (sorted_names refs) p (drop (k - 16) (bodyOf refs)) (length p)); eauto.
    - intros n. apply Hin.
    - unfold p. by rewrite take_drop.
    - intros Hnil. apply (f_equal length) in Hnil. rewrite length_drop in Hnil. simpl in Hnil. lia. }
  rewrite map_size_empty in Hlt. unfold u32.
  rewrite !Z.mod_small by lia. destruct (Z.eqb_spec (Z.of_nat (size out)) (Z.of_nat (length (sorted_names refs)))); [lia|done].
Qed.

End properties.

(** ** Witnesses *)

Definition sample_hash : @Hash toy_git := Some (repeat (bz 17) 20).

Definition sample_refs : gmap bytes (@reference toy_git) :=
  <[bs "HEAD" := SymbolicReference (bs "HEAD") (bs "refs/heads/main")]>
  (<[bs "refs/heads/main" := HashReference (bs "refs/heads/main") sample_hash]>
  (<[repeat (bz 97) 300 := HashReference (repeat (bz 97) 300) sample_hash]> ∅)).

Definition short_refs : gmap bytes (@reference toy_git) :=
  <[bs "refs/heads/main" := HashReference (bs "refs/heads/main") sample_hash]> ∅.

Lemma not_elem_decide (x : byte) (l : bytes) : bool_decide (x ∈ l) = false -> x ∉ l.
Proof. apply bool_decide_eq_false. Qed.

Lemma sample_hash_wf : FromHex (HashString sample_hash) = Some sample_hash.
Proof. apply (toy_wf _ 20); [done|by left]. Qed.

Ltac wf_ref_tac :=
  split; [reflexivity|split; [by apply not_elem_decide|split; [by apply not_elem_decide|]]];
  first [exact sample_hash_wf
        |split; [discriminate|split; [split; vm_compute; reflexivity|by apply not_elem_decide]]].

Lemma sample_refs_wf : wf_refs sample_refs.
Proof.
  unfold sample_refs. repeat (apply map_Forall_insert_2; [wf_ref_tac|]). apply map_Forall_empty.
Qed.

Lemma short_refs_wf : wf_refs short_refs.
Proof. unfold short_refs. repeat (apply map_Forall_insert_2; [wf_ref_tac|]). apply map_Forall_empty. Qed.

(** The sample's body is stored compressed. *)
Example sample_compressed : snd (compressBlock (bodyOf sample_refs)) = true.
Proof. by vm_compute. Qed.

Lemma packed_refs_roundtrip_witness :
  wf_refs sample_refs /\ decodePackedRefs (encodePackedRefs sample_refs) = Ok sample_refs.
Proof.
  split; [exact sample_refs_wf|].
  apply packed_refs_roundtrip; [exact sample_refs_wf|vm_compute; discriminate|reflexivity].
Defined.

Lemma packed_refs_truncation_witness :
  (30 < length (encodePackedRefs short_refs))%nat /\
  is_ok (decodePackedRefs (take 30 (encodePackedRefs short_refs))) = false.
Proof.
  assert (Hlt : (30 < length (encodePackedRefs short_refs))%nat) by (vm_compute; lia).
  split; [exact Hlt|].
  apply packed_refs_truncation; [exact short_refs_wf|reflexivity|vm_compute; reflexivity|exact Hlt].
Defined.
