(* ===== verification/Cue.v ===== *)
(** * The .cue index of a pack container (internal/storage/tigris/packindex.go)

    Writing the current format and reading every version of it. *)

From S2P Require Import Prelude GoLib Codec Concrete.

Definition cueMagicPrefix : bytes := bs "OGC".
Definition cueVersion1 : Z := 1.
Definition cueVersion2 : Z := 2.
Definition cueVersion3 : Z := 3.
Definition cueHeaderLen : nat := 16.
Definition cueRecCodecOff : nat := 5.

Section cue.
Context `{GoGit, Zstd}.

Record cueRecord := {
  c_hash : Hash;
  c_typ : Z;      (* plumbing.ObjectType, an int8 *)
  c_codec : Z;    (* uint8 *)
  c_offset : Z;   (* int64 *)
  c_stored : Z;   (* int64 *)
  c_raw : Z;      (* int64 *)
  c_base : Hash;
}.

Definition cueRecWidth (hashLen : nat) : nat := hashLen * 2 + 26.
Definition cueRecWidthV2 (hashLen : nat) : nat := hashLen + 26.

(** ** Writing *)

(** The column [appendHashCol] appends: [copy] into a zeroed slice. *)
Definition hashCol (h : Hash) (hashLen : nat) : bytes :=
  take hashLen (HashBytes h) ++ repeat (bz 0) (hashLen - length (HashBytes h)).

Definition appendHashCol (dst : bytes) (h : Hash) (hashLen : nat) : bytes := dst ++ hashCol h hashLen.

Definition hashFromCol (b : bytes) : option Hash :=
  if existsb (fun c => negb (bu c =? 0)) b then FromBytes b else Some ZeroHash.

Definition cueBlock (hashLen : nat) (recs : list cueRecord) : bytes :=
  let block := concat (HashBytes ∘ c_hash <$> recs) in
  let block := block ++ concat ((fun r => [bz (c_typ r)]) <$> recs) in
  let block := block ++ concat ((fun r => [bz (c_codec r)]) <$> recs) in
  let block := block ++ concat ((fun r => be_put 8 (u64 (c_offset r))) <$> recs) in
  let block := block ++ concat ((fun r => be_put 8 (u64 (c_stored r))) <$> recs) in
  let block := block ++ concat ((fun r => be_put 8 (u64 (c_raw r))) <$> recs) in
  fold_left (fun acc r => appendHashCol acc (c_base r) hashLen) recs block.

Definition cueHeader (hashLen : nat) (compressed : bool) (n : nat) : bytes :=
  cueMagicPrefix ++ [bz cueVersion3; bz (Z.of_nat hashLen);
                     bz (if compressed then codecZstd else 0); bz 0; bz 0] ++
  be_put 8 (Z.of_nat n).

Definition encodeCue (hashLen : nat) (recs : list cueRecord) : bytes :=
  let '(body, compressed) := compressBlock (cueBlock hashLen recs) in
  cueHeader hashLen compressed (length recs) ++ body.

(** ** Reading *)

Definition badCue : goerr := Wrapf (Sent errBadCue).

Definition parseCueV1 (hashLen : nat) (raw : bytes) (count : nat) : gores (list cueRecord) :=
  let recWidth := (hashLen + 17)%nat in
  if negb (cueHeaderLen + count * recWidth =? length raw)%nat then Err badCue else
  res_mapM (fun i =>
    let off := (cueHeaderLen + i * recWidth)%nat in
    let? hb := slice raw off (off + hashLen) in
    match FromBytes hb with
    | None => Err badCue
    | Some h =>
        let? sb := slice raw (off + hashLen + 9) (off + hashLen + 17) in
        let? size := Uint64 sb in
        let? ty := index raw (off + hashLen) in
        let? ob := slice raw (off + hashLen + 1) (off + hashLen + 9) in
        let? offset := Uint64 ob in
        Ok {| c_hash := h; c_typ := i8 (bu ty); c_codec := codecRaw; c_offset := i64 offset;
              c_stored := i64 size; c_raw := i64 size; c_base := ZeroHash |}
    end) (seq 0 count).

Definition parseCueColumnar (hashLen : nat) (rawCue : bytes) (count : nat) (withBase : bool)
    : gores (list cueRecord) :=
  let? block := slice_from rawCue cueHeaderLen in
  let? codec := index rawCue cueRecCodecOff in
  let? block :=
    if bu codec =? codecRaw then Ok block
    else if bu codec =? codecZstd then
      match DecodeAll cueMaxDecoded block with
      | Some out => Ok out
      | None => Err (Wrapf2 (Sent errBadCue) Errorf)
      end
    else Err badCue in
  let width := if withBase then cueRecWidth hashLen else cueRecWidthV2 hashLen in
  if negb (count * width =? length block)%nat then Err badCue else
  let hashes := block in
  let? types := slice_from hashes (count * hashLen) in
  let? codecs := slice_from types count in
  let? offsets := slice_from codecs count in
  let? storeds := slice_from offsets (count * 8) in
  let? raws := slice_from storeds (count * 8) in
  let? bases := if withBase then slice_from raws (count * 8) else Ok [] in
  res_mapM (fun i =>
    let? hb := slice hashes (i * hashLen) ((i + 1) * hashLen) in
    match FromBytes hb with
    | None => Err badCue
    | Some h =>
        let? codec := index codecs i in
        if negb (bu codec =? codecRaw) && negb (bu codec =? codecZstd) then Err badCue else
        let? base :=
          if withBase then
            let? b := slice bases (i * hashLen) ((i + 1) * hashLen) in
            match hashFromCol b with Some h => Ok h | None => Err badCue end
          else Ok ZeroHash in
        let? ty := index types i in
        let? ob := slice_from offsets (i * 8) in
        let? offset := Uint64 ob in
        let? sb := slice_from storeds (i * 8) in
        let? stored := Uint64 sb in
        let? rb := slice_from raws (i * 8) in
        let? rawSize := Uint64 rb in
        Ok {| c_hash := h; c_typ := i8 (bu ty); c_codec := bu codec; c_offset := i64 offset;
              c_stored := i64 stored; c_raw := i64 rawSize; c_base := base |}
    end) (seq 0 count).

Definition parseCue (hashLen : nat) (raw : bytes) : gores (list cueRecord) :=
  if (length raw <? cueHeaderLen)%nat then Err badCue else
  let? magic := slice raw 0 3 in
  if negb (bytes_eqb magic cueMagicPrefix) then Err badCue else
  let? version := index raw 3 in
  if negb (bu version =? cueVersion1) && negb (bu version =? cueVersion2) &&
     negb (bu version =? cueVersion3) then Err badCue else
  let? got := index raw 4 in
  if negb (bu got =? Z.of_nat hashLen) then Err badCue else
  let? r6 := index raw 6 in
  let? r7 := index raw 7 in
  if negb (bu r6 =? 0) || negb (bu r7 =? 0) then Err badCue else
  let? cb := slice raw 8 cueHeaderLen in
  let? count := Uint64 cb in
  if count >? blen raw then Err badCue else
  if bu version =? cueVersion1 then
    let? rec_codec := index raw cueRecCodecOff in
    if negb (bu rec_codec =? 0) then Err badCue else parseCueV1 hashLen raw (Z.to_nat count)
  else parseCueColumnar hashLen raw (Z.to_nat count) (bu version =? cueVersion3).

(** [packExtent]: the end of the last payload. *)
Definition packExtent (recs : list cueRecord) : Z :=
  fold_left (fun size r => if c_offset r + c_stored r >? size then c_offset r + c_stored r else size) recs 0.

(** ** Well-formed records *)

Definition all_zero (b : bytes) : bool := forallb (fun c => bu c =? 0) b.
Definition wf_col_hash (hashLen : nat) (h : Hash) : Prop :=
  length (HashBytes h) = hashLen /\ FromBytes (HashBytes h) = Some h.
Definition wf_rec (hashLen : nat) (r : cueRecord) : Prop :=
  wf_col_hash hashLen (c_hash r) /\ in_i8 (c_typ r) /\
  (c_codec r = codecRaw \/ c_codec r = codecZstd) /\
  in_i64 (c_offset r) /\ in_i64 (c_stored r) /\ in_i64 (c_raw r) /\
  (c_base r = ZeroHash \/
   (wf_col_hash hashLen (c_base r) /\ all_zero (HashBytes (c_base r)) = false)).

(** ** The columns of a block *)



Lemma length_hashCol h n : length (hashCol h n) = n.
Proof. unfold hashCol. autorewrite with bytes. rewrite repeat_length. lia. Qed.

Lemma fold_appendHashCol n recs acc :
  fold_left (fun acc r => appendHashCol acc (c_base r) n) recs acc =
  acc ++ concat ((fun r => hashCol (c_base r) n) <$> recs).
Proof.
  revert acc. induction recs as [|r recs IH]; intros acc; simpl; [by rewrite app_nil_r|].
  rewrite IH. unfold appendHashCol. by rewrite <-app_assoc.
Qed.

(** A column: one entry of width [w] per record. *)
Definition column (f : cueRecord -> bytes) (recs : list cueRecord) : bytes := concat (f <$> recs).

Lemma cueBlock_columns n recs :
  cueBlock n recs =
  column (HashBytes ∘ c_hash) recs ++ column (fun r => [bz (c_typ r)]) recs ++
  column (fun r => [bz (c_codec r)]) recs ++ column (fun r => be_put 8 (u64 (c_offset r))) recs ++
  column (fun r => be_put 8 (u64 (c_stored r))) recs ++ column (fun r => be_put 8 (u64 (c_raw r))) recs ++
  column (fun r => hashCol (c_base r) n) recs ++ [].
Proof. unfold cueBlock, column. rewrite fold_appendHashCol, app_nil_r, <-!app_assoc. done. Qed.

Lemma column_width (w : nat) (f : cueRecord -> bytes) (recs : list cueRecord) :
  (forall r, r ∈ recs -> length (f r) = w) -> Forall (fun c => length c = w) (f <$> recs).
Proof. intros Hf. apply Forall_fmap, Forall_forall. exact Hf. Qed.

Section read_columns.
Context (w : nat) (f : cueRecord -> bytes) (recs : list cueRecord).
Context (Hw : forall r, r ∈ recs -> length (f r) = w).

Lemma length_column : length (column f recs) = (length recs * w)%nat.
Proof. unfold column. rewrite (length_concat_width w) by by apply column_width. by rewrite length_fmap. Qed.

Lemma skip_column rest : slice_from (column f recs ++ rest) (length recs * w) = Ok rest.
Proof. apply slice_from_column; [by apply column_width|apply length_fmap]. Qed.

Lemma column_slice rest i r :
  recs !! i = Some r -> slice (column f recs ++ rest) (i * w) ((i + 1) * w) = Ok (f r).
Proof. intros Hi. apply slice_entry; [by apply column_width|]. by rewrite list_lookup_fmap, Hi. Qed.

Lemma column_from rest i r :
  recs !! i = Some r -> exists rest', slice_from (column f recs ++ rest) (i * w) = Ok (f r ++ rest').
Proof. intros Hi. apply slice_from_entry; [by apply column_width|]. by rewrite list_lookup_fmap, Hi. Qed.
End read_columns.

Lemma column_uint64 (g : cueRecord -> Z) recs rest i r :
  recs !! i = Some r ->
  exists b, slice_from (column (fun r => be_put 8 (u64 (g r))) recs ++ rest) (i * 8) = Ok b /\
    Uint64 b = Ok (u64 (g r)).
Proof.
  intros Hi. destruct (column_from 8 (fun r => be_put 8 (u64 (g r))) recs) with (rest := rest) (i := i) (r := r)
    as [rest' Hs]; [intros; apply length_be_put|done|].
  eexists. split; [exact Hs|]. rewrite Uint64_put. unfold u64. by rewrite Zmod_mod.
Qed.

Lemma column_byte (g : cueRecord -> Z) recs rest i r :
  recs !! i = Some r -> index (column (fun r => [bz (g r)]) recs ++ rest) i = Ok (bz (g r)).
Proof.
  intros Hi. destruct (column_from 1 (fun r => [bz (g r)]) recs) with (rest := rest) (i := i) (r := r)
    as [rest' Hs]; [done|done|].
  rewrite Nat.mul_1_r in Hs. unfold slice_from in Hs. destruct (i <=? _)%nat; [|done].
  injection Hs as Hs. apply index_ok. rewrite <-(Nat.add_0_r i), <-lookup_drop, Hs. done.
Qed.

Lemma length_cueBlock n recs :
  Forall (wf_rec n) recs -> length (cueBlock n recs) = (length recs * cueRecWidth n)%nat.
Proof.
  intros Hwf. rewrite Forall_forall in Hwf. rewrite cueBlock_columns, !length_app.
  rewrite (length_column n (HashBytes ∘ c_hash)) by (intros r Hr; by apply (Hwf r Hr)).
  rewrite (length_column n (fun r => hashCol (c_base r) n)) by (intros; apply length_hashCol).
  rewrite !(length_column 1 (fun r => [bz _])) by done.
  rewrite !(length_column 8 (fun r => be_put 8 _)) by (intros; apply length_be_put).
  unfold cueRecWidth. simpl. lia.
Qed.

Lemma hashFromCol_base `{!GoGitLaws} n r :
  (n = 20 \/ n = 32)%nat -> wf_rec n r -> hashFromCol (hashCol (c_base r) n) = Some (c_base r).
Proof.
  intros Hn (_ & _ & _ & _ & _ & _ & Hb). unfold hashFromCol, hashCol.
  destruct Hb as [->|[[Hl Hf] Hz]].
  - rewrite ZeroHash_bytes. by destruct Hn as [->| ->].
  - rewrite Hl, Nat.sub_diag, app_nil_r, take_ge by lia.
    replace (existsb _ _) with true; [done|]. symmetry. apply not_false_iff_true. intros He.
    unfold all_zero in Hz. apply not_true_iff_false in Hz. apply Hz. apply forallb_forall.
    intros c Hc. destruct (bu c =? 0) eqn:E; [done|].
    apply not_true_iff_false in He. destruct He. apply existsb_exists. exists c. by rewrite E.
Qed.

Lemma bu_codec r n : wf_rec n r -> bu (bz (c_codec r)) = c_codec r.
Proof. intros (_ & _ & [->| ->] & _); by vm_compute. Qed.

(** Reading back the columns of a block, whatever way it was stored. *)
Lemma parseCueColumnar_block `{!GoGitLaws} n recs c hdr stored :
  (n = 20 \/ n = 32)%nat -> Forall (wf_rec n) recs -> length hdr = cueHeaderLen ->
  index hdr cueRecCodecOff = Ok (bz (if c : bool then codecZstd else 0)) ->
  decodeBlock stored c = Some (cueBlock n recs) ->
  parseCueColumnar n (hdr ++ stored) (length recs) true = Ok recs.
Proof.
  intros Hn Hwf Hl Hc Hd. unfold parseCueColumnar.
  rewrite slice_from_ok by (rewrite length_app; lia). rewrite drop_app_length' by done.
  cbn [res_bind]. rewrite (index_app_l hdr) by (rewrite Hl; unfold cueRecCodecOff, cueHeaderLen; lia).
  rewrite Hc. cbn [res_bind].
  assert (Hb : (if bu (bz (if c then codecZstd else 0)) =? codecRaw then Ok stored
     else if bu (bz (if c then codecZstd else 0)) =? codecZstd
      then match DecodeAll cueMaxDecoded stored with Some out => Ok out | None => Err (Wrapf2 (Sent errBadCue) Errorf) end
      else Err badCue) = @Ok goerr _ (cueBlock n recs)).
  { destruct c; simpl in Hd |- *; [by rewrite Hd|congruence]. }
  rewrite Hb. cbn [res_bind]. rewrite length_cueBlock by done. rewrite Nat.eqb_refl. cbn [negb].
  pose proof Hwf as Hwf'. rewrite Forall_forall in Hwf'.
  rewrite cueBlock_columns.
  rewrite (skip_column n) by (intros r Hr; by apply (Hwf' r Hr)). cbn [res_bind].
  pose proof (skip_column 1 (fun r => [bz (c_typ r)]) recs) as Ht. rewrite Nat.mul_1_r in Ht.
  rewrite Ht by done. clear Ht. cbn [res_bind].
  pose proof (skip_column 1 (fun r => [bz (c_codec r)]) recs) as Ht. rewrite Nat.mul_1_r in Ht.
  rewrite Ht by done. clear Ht. cbn [res_bind].
  do 3 (rewrite (skip_column 8) by (intros; apply length_be_put); cbn [res_bind]).
  apply res_mapM_seq. intros i r Hi.
  assert (Hr : wf_rec n r) by (apply Hwf'; by eapply list_elem_of_lookup_2).
  rewrite (column_slice n _ _) with (r := r) by (done || (intros r' Hr'; by apply (Hwf' r' Hr'))).
  cbn [res_bind compose]. destruct Hr as ((Hlh & Hfh) & Hrest). rewrite Hfh.
  assert (Hr : wf_rec n r) by (by split).
  rewrite (column_byte c_codec _ _ _ r) by done. cbn [res_bind]. rewrite (bu_codec r n) by done.
  replace (negb (c_codec r =? codecRaw) && negb (c_codec r =? codecZstd)) with false
    by (destruct Hrest as (_ & [->| ->] & _); done).
  rewrite (column_slice n _ _) with (r := r) by (done || (intros; apply length_hashCol)).
  cbn [res_bind]. rewrite hashFromCol_base by done. cbn [res_bind].
  rewrite (column_byte c_typ _ _ _ r) by done. cbn [res_bind]. rewrite bu_bz, i8_u8.
  edestruct (column_uint64 c_offset recs) as (ob & -> & Ho); [done|]. cbn [res_bind]. rewrite Ho.
  cbn [res_bind].
  edestruct (column_uint64 c_stored recs) as (sb & -> & Hs); [done|]. cbn [res_bind]. rewrite Hs.
  cbn [res_bind].
  edestruct (column_uint64 c_raw recs) as (rb & -> & Hw); [done|]. cbn [res_bind]. rewrite Hw.
  cbn [res_bind]. rewrite !i64_u64.
  destruct Hr as (_ & Ht & _ & Hro & Hrs & Hrr & _).
  rewrite i8_id, !i64_id by done. by destruct r.
Qed.

Lemma cueHeader_reads n c k :
  0 <= Z.of_nat n < 256 -> 0 <= Z.of_nat k < 2 ^ 64 ->
  let h := cueHeader n c k in
  length h = cueHeaderLen /\ slice h 0 3 = Ok cueMagicPrefix /\ index h 3 = Ok (bz cueVersion3) /\
  (exists b, index h 4 = Ok b /\ bu b = Z.of_nat n) /\
  index h cueRecCodecOff = Ok (bz (if c then codecZstd else 0)) /\
  index h 6 = Ok (bz 0) /\ index h 7 = Ok (bz 0) /\
  exists b, slice h 8 cueHeaderLen = Ok b /\ Uint64 b = Ok (Z.of_nat k).
Proof.
  intros Hn Hk. unfold cueHeader. pose proof (length_be_put 8 (Z.of_nat k)) as Hl.
  pose proof (be_get_put 8 (Z.of_nat k)) as Hg. rewrite Z.mod_small in Hg by lia.
  destruct (be_put 8 (Z.of_nat k)) as [|b1 [|b2 [|b3 [|b4 [|b5 [|b6 [|b7 [|b8 [|]]]]]]]]]; try done.
  repeat split; try done.
  - eexists. split; [done|]. rewrite bu_bz, Z.mod_small; [done|lia].
  - eexists. split; [done|]. rewrite <-Hg. done.
Qed.

(** ** Errors *)

Definition is_bad (e : goerr) : Prop := errors_is e errBadCue = true.

Lemma bad_badCue : is_bad badCue.
Proof. done. Qed.


(** An [index] that is in range. *)
Ltac read_index :=
  match goal with |- context [index ?l ?i] =>
    let x := fresh "x" in destruct (index_total l i) as [x ->];
    [rewrite ?length_drop; unfold cueHeaderLen, cueRecCodecOff in *; nia|]
  end.

Lemma parseCueColumnar_bad n raw count wb :
  (cueHeaderLen <= length raw)%nat -> err_sat is_bad (parseCueColumnar n raw count wb).
Proof.
  intros Hl. unfold parseCueColumnar. rewrite slice_from_ok by done. cbn [res_bind].
  destruct (index_total raw cueRecCodecOff) as [c ->]; [unfold cueHeaderLen, cueRecCodecOff in *; lia|].
  cbn [res_bind]. apply err_sat_bind.
  { destruct (bu c =? codecRaw), (bu c =? codecZstd); try done; by destruct (DecodeAll _ _). }
  intros block _. destruct (negb _) eqn:Hw; [done|]. b2p. cbv zeta.
  assert (Hw' : (count * (n + 26) <= length block /\ (wb = true -> count * (n + n + 26) <= length block))%nat)
    by (destruct wb; unfold cueRecWidth, cueRecWidthV2 in Hw; split; intros; try done; nia).
  destruct Hw' as [Hb Hbb].
  do 5 (rewrite slice_from_ok by (rewrite ?length_drop; nia); cbn [res_bind]).
  apply err_sat_bind; [destruct wb; [rewrite slice_from_ok by (rewrite ?length_drop; nia)|]; done|].
  intros bases Hbs. apply err_sat_mapM. intros i Hi. apply elem_of_seq in Hi.
  rewrite slice_ok by nia. cbn [res_bind]. destruct (FromBytes _); [|done].
  read_index. cbn [res_bind].
  destruct (_ && _); [done|]. apply err_sat_bind.
  { destruct wb; [|done]. apply slice_from_width in Hbs. rewrite !length_drop in Hbs.
    specialize (Hbb eq_refl). rewrite slice_ok by nia. cbn [res_bind]. by destruct (hashFromCol _). }
  intros base _. read_index. cbn [res_bind].
  do 3 (rewrite slice_from_ok by (rewrite !length_drop; nia); cbn [res_bind];
        rewrite Uint64_ok by (rewrite !length_drop; nia); cbn [res_bind]).
  done.
Qed.

Lemma parseCueV1_bad n raw count : err_sat is_bad (parseCueV1 n raw count).
Proof.
  unfold parseCueV1. destruct (negb _) eqn:Hw; [done|]. b2p.
  apply err_sat_mapM. intros i Hi. apply elem_of_seq in Hi. cbv zeta.
  assert (cueHeaderLen + i * (n + 17) + n + 17 <= length raw)%nat as Hb by nia.
  rewrite slice_ok by lia. cbn [res_bind]. destruct (FromBytes _); [|done].
  rewrite slice_ok by lia. cbn [res_bind].
  rewrite Uint64_ok by (rewrite length_take, length_drop; lia). cbn [res_bind].
  destruct (index_total raw (cueHeaderLen + i * (n + 17) + n)) as [x ->]; [lia|]. cbn [res_bind].
  rewrite slice_ok by lia. cbn [res_bind].
  rewrite Uint64_ok by (rewrite length_take, length_drop; lia). done.
Qed.

Definition parsed_rec (version : Z) (r : cueRecord) : Prop :=
  (c_codec r = codecRaw \/ c_codec r = codecZstd) /\
  in_i64 (c_offset r) /\ in_i64 (c_stored r) /\ in_i64 (c_raw r) /\
  (version = cueVersion1 -> c_codec r = codecRaw /\ c_stored r = c_raw r) /\
  (version <> cueVersion3 -> c_base r = ZeroHash).

Lemma parseCueV1_parsed n raw count recs :
  parseCueV1 n raw count = Ok recs -> length recs = count /\ Forall (parsed_rec cueVersion1) recs.
Proof.
  unfold parseCueV1. destruct (negb _); [done|]. intros Hm. apply res_mapM_ok in Hm.
  pose proof (Forall2_length _ _ _ Hm) as Hl. rewrite length_seq in Hl. split; [done|].
  eapply Forall2_Forall_r; [exact Hm|]. apply Forall_forall. intros i _ r Hr. cbv zeta in Hr.
  apply res_bind_ok in Hr as (hb & _ & Hr). destruct (FromBytes hb); [|done]. inv_res.
  repeat split; cbn; auto using i64_range; apply i64_range.
Qed.

Lemma parseCueColumnar_parsed n raw count wb recs :
  parseCueColumnar n raw count wb = Ok recs ->
  length recs = count /\ Forall (parsed_rec (if wb then cueVersion3 else cueVersion2)) recs.
Proof.
  unfold parseCueColumnar. intros Hp. inv_res. destruct (negb _); [done|]. inv_res.
  apply res_mapM_ok in Hp.
  pose proof (Forall2_length _ _ _ Hp) as Hl. rewrite length_seq in Hl. split; [done|].
  eapply Forall2_Forall_r; [exact Hp|]. apply Forall_forall. intros i _ r Hr.
  apply res_bind_ok in Hr as (hb & _ & Hr). destruct (FromBytes hb); [|done].
  apply res_bind_ok in Hr as (cd & _ & Hr).
  destruct (_ && _) eqn:Hc; [done|]. apply andb_false_iff in Hc.
  apply res_bind_ok in Hr as (base & Hb & Hr). inv_res.
  repeat split; cbn; try apply i64_range.
  - destruct Hc as [Hc|Hc]; b2p; auto.
  - by destruct wb.
  - by destruct wb.
  - destruct wb; [done|]. intros _. by injection Hb as <-.
Qed.
End cue.

(** ** Properties *)

Section properties.
Context `{GoGit, Zstd}.

(** [parseCue] reads back what [encodeCue] wrote for records of a SHA-1
    or SHA-256 repository, provided the record count does not exceed the
    length of the whole cue; a cue that compressed below one byte per record
    is refused as malformed. *)
Theorem cue_roundtrip `{!GoGitLaws, !ZstdLaws} (n : nat) (recs : list cueRecord) :
  (n = 20 \/ n = 32)%nat -> Forall (wf_rec n) recs -> blen (cueBlock n recs) <= cueMaxDecoded ->
  parseCue n (encodeCue n recs) =
  if Z.of_nat (length recs) <=? blen (encodeCue n recs) then Ok recs else Err badCue.
Proof.
  intros Hn Hwf Hmax. unfold encodeCue.
  destruct (compressBlock (cueBlock n recs)) as [body c] eqn:Ec.
  pose proof (compressBlock_decode _ _ _ Ec Hmax) as Hdec.
  assert (Hk : 0 <= Z.of_nat (length recs) < 2 ^ 64).
  { unfold blen in Hmax. rewrite length_cueBlock in Hmax by done. unfold cueRecWidth in Hmax.
    unfold cueMaxDecoded in Hmax. change (Z.shiftl 256 20) with 268435456 in Hmax. nia. }
  destruct (cueHeader_reads n c (length recs)) as (Hl & Hm & Hv & (b4 & Hb4 & Hb4') & Hc & H6 & H7 & (cb & Hcb & Hcu));
    [lia|done|].
  assert (Hh : (16 <= length (cueHeader n c (length recs)))%nat) by (rewrite Hl; done).
  generalize dependent (cueHeader n c (length recs)). intros hdr Hl Hm Hv Hb4 Hc H6 H7 Hcb Hh.
  unfold parseCue. rewrite length_app, Hl.
  replace (cueHeaderLen + length body <? cueHeaderLen)%nat with false by (symmetry; apply Nat.ltb_ge; lia).
  rewrite slice_app_l by lia. rewrite Hm. cbn [res_bind].
  rewrite !index_app_l by (unfold cueRecCodecOff; lia).
  rewrite Hv. cbn -[Z.eqb length index slice slice_from parseCueColumnar].
  rewrite Hb4. cbn [res_bind]. rewrite Hb4', Z.eqb_refl. cbn [negb].
  rewrite H6, H7. cbn -[Z.eqb length index slice slice_from parseCueColumnar].
  rewrite slice_app_l by (unfold cueHeaderLen; lia). rewrite Hcb. cbn [res_bind]. rewrite Hcu. cbn [res_bind].
  rewrite Z.gtb_ltb. destruct (Z.leb_spec (Z.of_nat (length recs)) (blen (hdr ++ body))) as [Hle|Hgt].
  - rewrite (proj2 (Z.ltb_ge _ _)) by done. change (bu (bz cueVersion3) =? cueVersion1) with false. cbv iota.
    rewrite Nat2Z.id, Z.eqb_refl. change (negb (bytes_eqb _ _)) with false. cbv iota.
    simpl negb. simpl orb. cbv iota. by eapply parseCueColumnar_block.
  - rewrite (proj2 (Z.ltb_lt _ _)), Z.eqb_refl by done. done.
Qed.

(** On any input whatever [parseCue] neither panics nor reports
    corruption as anything but [errBadCue]; what it accepts has exactly the
    number of records the header claims, known codecs, and the fields an older
    version lacks at their defaults. *)
Theorem parseCue_total (n : nat) (raw : bytes) :
  match parseCue n raw with
  | Ok recs => Z.of_nat (length recs) = be_get (take 8 (drop 8 raw)) /\
               exists v, index raw 3 = Ok v /\ Forall (parsed_rec (bu v)) recs
  | Err e => errors_is e errBadCue = true
  end.
Proof.
  unfold parseCue. destruct (length raw <? cueHeaderLen)%nat eqn:Hl; [done|]. b2p.
  unfold cueHeaderLen in Hl.
  rewrite slice_ok by lia. cbn [res_bind]. destruct (negb _); [done|].
  destruct (index_total raw 3) as [v Hv]; [lia|]. rewrite Hv. cbn [res_bind].
  destruct (negb _ && _ && _) eqn:Hver; [done|].
  destruct (index_total raw 4) as [b4 ->]; [lia|]. cbn [res_bind]. destruct (negb (bu b4 =? _)); [done|].
  destruct (index_total raw 6) as [b6 ->]; [lia|]. cbn [res_bind].
  destruct (index_total raw 7) as [b7 ->]; [lia|]. cbn [res_bind]. destruct (_ || _); [done|].
  rewrite slice_ok by (unfold cueHeaderLen; lia). cbn [res_bind].
  change (cueHeaderLen - 8)%nat with 8%nat.
  rewrite Uint64_ok by (rewrite length_take, length_drop; lia). cbn [res_bind].
  rewrite take_take. change (8 `min` 8)%nat with 8%nat.
  pose proof (be_get_range (take 8 (drop 8 raw))) as Hr. set (count := be_get _) in *.
  destruct (count >? blen raw); [done|].
  destruct (index_total raw cueRecCodecOff) as [b5 ->]; [unfold cueRecCodecOff; lia|]. cbn [res_bind].
  assert (Hz : forall recs : list cueRecord, length recs = Z.to_nat count -> Z.of_nat (length recs) = count)
    by (intros recs ->; lia).
  destruct (bu v =? cueVersion1) eqn:E1.
  - b2p. destruct (negb (bu b5 =? 0)); [done|]. pose proof (parseCueV1_bad n raw (Z.to_nat count)) as Hb.
    destruct (parseCueV1 _ _ _) eqn:Hp; [|done]. apply parseCueV1_parsed in Hp as [? ?].
    split; [auto|]. exists v. by rewrite E1.
  - pose proof (parseCueColumnar_bad n raw (Z.to_nat count) (bu v =? cueVersion3)) as Hb.
    destruct (parseCueColumnar _ _ _ _) eqn:Hp; [|by apply Hb]. apply parseCueColumnar_parsed in Hp as [? Hf].
    split; [auto|]. exists v. split; [done|]. destruct (bu v =? cueVersion3) eqn:E3.
    + b2p. by rewrite E3.
    + cbn [negb andb] in Hver. rewrite andb_true_r in Hver. b2p. by rewrite Hver.
Qed.
End properties.

(** ** Witnesses *)

Definition sample_rec (off : Z) (base : @Hash toy_git) : cueRecord :=
  {| c_hash := Some (repeat (bz (off + 1)) 20); c_typ := BlobObject; c_codec := codecRaw;
     c_offset := off; c_stored := 5; c_raw := 5; c_base := base |}.

Definition sample_recs : list (@cueRecord toy_git) :=
  [sample_rec 0 ZeroHash; sample_rec 5 (Some (repeat (bz 1) 20)); sample_rec 10 ZeroHash].

Lemma cue_roundtrip_witness :
  Forall (wf_rec 20) sample_recs /\ parseCue 20 (encodeCue 20 sample_recs) = Ok sample_recs.
Proof.
  assert (Hwf : Forall (wf_rec 20) sample_recs).
  { repeat (apply Forall_cons; split; [|]); [..|apply Forall_nil; exact I];
      (split; [split; reflexivity|]);
      (split; [split; vm_compute; congruence|]); (split; [left; reflexivity|]);
      (do 3 (split; [split; vm_compute; congruence|]));
      first [left; reflexivity|right; split; [split; reflexivity|reflexivity]]. }
  split; [exact Hwf|].
  assert (Hn : (20 = 20 \/ 20 = 32)%nat) by (left; reflexivity).
  assert (Hm : blen (cueBlock 20 sample_recs) <= cueMaxDecoded) by (vm_compute; discriminate).
  rewrite (cue_roundtrip 20 sample_recs Hn Hwf Hm).
  assert (Hc : Z.of_nat (length sample_recs) <=? blen (encodeCue 20 sample_recs) = true) by (vm_compute; reflexivity).
  rewrite Hc. reflexivity.
Defined.

(** A correctly written cue that [parseCue] refuses: five hundred records of
    one object compress below one byte per record. *)
Definition repeated_recs : list (@cueRecord toy_git) :=
  repeat {| c_hash := Some (repeat (bz 7) 20); c_typ := 7; c_codec := 0; c_offset := 0;
            c_stored := 0; c_raw := 0; c_base := ZeroHash |} 500.

Example cue_refused :
  match parseCue 20 (encodeCue 20 repeated_recs) with
  | Ok _ => False
  | Err e => errors_is e errBadCue = true
  end.
Proof. vm_compute. reflexivity. Qed.
