(* ===== verification/PackTable.v ===== *)
(** * Sorted pack tables (internal/storage/tigris/packtable.go)

    The compact in-memory form of the records of one or more containers:
    sorted by hash, a repeated hash keeping its last record, delta bases
    numbered within the table. *)

From S2P Require Import Prelude GoLib Codec Concrete Cue.

Definition baseNone : Z := -1.
Definition baseFar : Z := -2.

Record tableRec := {
  t_offset : Z;  (* int64 *)
  t_stored : Z;  (* int64 *)
  t_raw : Z;     (* int64 *)
  t_base : Z;    (* int32 *)
  t_pack : Z;    (* uint32 *)
  t_typ : Z;     (* plumbing.ObjectType *)
  t_codec : Z;   (* uint8 *)
}.

#[export] Instance tableRec_eq_dec : EqDecision tableRec.
Proof. solve_decision. Defined.
#[export] Instance tableRec_inhabited : Inhabited tableRec := populate (Build_tableRec 0 0 0 0 0 0 0).

Definition set_base (b : Z) (r : tableRec) : tableRec :=
  {| t_offset := t_offset r; t_stored := t_stored r; t_raw := t_raw r; t_base := b;
     t_pack := t_pack r; t_typ := t_typ r; t_codec := t_codec r |}.

Section packtable.
Context `{GoGit}.

Record packTable := {
  hashSize : nat;
  hashes : bytes;
  recs : list tableRec;
  farBase : gmap Z Hash;
  pack : Z;   (* int64: the one pack of every record, or -1 *)
}.

#[export] Instance packTable_inhabited : Inhabited packTable := populate (Build_packTable 0 [] [] ∅ 0).

Definition len (t : packTable) : nat := length (recs t).

Definition hashAt (t : packTable) (i : nat) : bytes := take (hashSize t) (drop (i * hashSize t) (hashes t)).

Definition hash (t : packTable) (i : nat) : Hash := default ZeroHash (FromBytes (hashAt t i)).

(** [None] is the code's -1. *)
Definition find (t : packTable) (h : bytes) : option nat :=
  let i := Search (length (recs t)) (fun i => negb (bytes_ltb (hashAt t i) h)) in
  if (i <? length (recs t))%nat && bytes_eqb (hashAt t i) h then Some i else None.

Definition baseHash (t : packTable) (i : nat) : Hash :=
  let b := t_base (recs t !!! i) in
  if b =? baseNone then ZeroHash
  else if b =? baseFar then default ZeroHash (farBase t !! i32 (Z.of_nat i))
  else hash t (Z.to_nat b).

Record packEntry := {
  e_id : bytes; e_typ : Z; e_codec : Z; e_offset : Z; e_stored : Z; e_raw : Z; e_base : Hash;
}.

Definition entry (t : packTable) (i : nat) (ids : list bytes) : packEntry :=
  let r := recs t !!! i in
  {| e_id := ids !!! Z.to_nat (t_pack r); e_typ := t_typ r; e_codec := t_codec r;
     e_offset := t_offset r; e_stored := t_stored r; e_raw := t_raw r; e_base := baseHash t i |}.

(** ** Building *)

Record tableSource := { ts_hash : bytes; ts_rec : tableRec; ts_base : Hash }.

(** The dedupe loop: a record whose successor has the same hash is skipped. *)
Fixpoint keep_last (hashOf : nat -> bytes) (order : list nat) : list nat :=
  match order with
  | [] => []
  | i :: rest =>
      match rest with
      | j :: _ => if bytes_eqb (hashOf i) (hashOf j) then keep_last hashOf rest
                  else i :: keep_last hashOf rest
      | [] => [i]
      end
  end.

(** One round of the loop that numbers the delta bases; [b] is the base of record [k]. *)
Definition number_base (t : packTable) (kb : nat * Hash) : packTable :=
  let '(k, b) := kb in
  if bool_decide (b = ZeroHash) then
    {| hashSize := hashSize t; hashes := hashes t; recs := alter (set_base baseNone) k (recs t);
       farBase := farBase t; pack := pack t |}
  else match find t (HashBytes b) with
  | Some j =>
      {| hashSize := hashSize t; hashes := hashes t; recs := alter (set_base (i32 (Z.of_nat j))) k (recs t);
         farBase := farBase t; pack := pack t |}
  | None =>
      {| hashSize := hashSize t; hashes := hashes t; recs := alter (set_base baseFar) k (recs t);
         farBase := <[i32 (Z.of_nat k) := b]> (farBase t); pack := pack t |}
  end.

(** The loop that computes [t.pack]. *)
Fixpoint one_pack (k : nat) (pk : Z) (rs : list tableRec) : Z :=
  match rs with
  | [] => pk
  | r :: rs' =>
      one_pack (S k) (if (k =? 0)%nat then t_pack r else if negb (pk =? t_pack r) then -1 else pk) rs'
  end.

Definition buildTable (hs n : nat) (hashOf : nat -> bytes) (at_ : nat -> tableSource) : packTable :=
  let order := stable_sort (fun a b => bytes_leb (hashOf a) (hashOf b)) (seq 0 n) in
  let src := keep_last hashOf order in
  let t := {| hashSize := hs; hashes := concat (ts_hash ∘ at_ <$> src); recs := ts_rec ∘ at_ <$> src;
              farBase := ∅; pack := -1 |} in
  let t := fold_left number_base (imap (fun k i => (k, ts_base (at_ i))) src) t in
  {| hashSize := hashSize t; hashes := hashes t; recs := recs t; farBase := farBase t;
     pack := one_pack 0 (pack t) (recs t) |}.

#[export] Instance cueRecord_inhabited : Inhabited cueRecord :=
  populate {| c_hash := ZeroHash; c_typ := 0; c_codec := 0; c_offset := 0; c_stored := 0; c_raw := 0; c_base := ZeroHash |}.

Definition cue_row (pack : Z) (r : cueRecord) : tableRec :=
  {| t_offset := c_offset r; t_stored := c_stored r; t_raw := c_raw r; t_base := 0;
     t_pack := pack; t_typ := c_typ r; t_codec := c_codec r |}.

Definition newPackTable (hs : nat) (pack : Z) (rs : list cueRecord) : packTable :=
  let flat := concat (HashBytes ∘ c_hash <$> rs) in
  let hashOf i := take hs (drop (i * hs) flat) in
  buildTable hs (length rs) hashOf (fun i =>
    let r := rs !!! i in {| ts_hash := hashOf i; ts_rec := cue_row pack r; ts_base := c_base r |}).

Definition live_refs (tables : list packTable) (dead : gset Z) : list (nat * nat) :=
  concat (imap (fun ti t =>
    concat (imap (fun i r => if bool_decide (t_pack r ∈ dead) then [] else [(ti, i)]) (recs t))) tables).

Definition mergeTables (hs : nat) (tables : list packTable) (dead : gset Z) : packTable :=
  let refs := live_refs tables dead in
  let hashOf k := hashAt (tables !!! (refs !!! k).1) (refs !!! k).2 in
  buildTable hs (length refs) hashOf (fun k =>
    let t := tables !!! (refs !!! k).1 in
    let i := (refs !!! k).2 in
    {| ts_hash := hashAt t i; ts_rec := recs t !!! i; ts_base := baseHash t i |}).

(** ** Well-formed tables *)

Definition keys (t : packTable) : list bytes := hashAt t <$> seq 0 (length (recs t)).

Definition good_base (b : Hash) : Prop := b = ZeroHash \/ FromBytes (HashBytes b) = Some b.

Record wf_table (hs : nat) (t : packTable) : Prop := {
  wt_size : hashSize t = hs;
  wt_keys_width : Forall (fun k => length k = hs) (keys t);
  wt_sorted : StronglySorted bytes_lt (keys t);
  wt_bases : forall i, (i < length (recs t))%nat -> good_base (baseHash t i);
  wt_pack : pack t <> -1 -> Forall (fun r => t_pack r = pack t) (recs t);
}.

(** What a reader sees under a key: the record, less its base number, and the base itself. *)
Definition row : Type := tableRec * Hash.
Definition table_get (t : packTable) (key : bytes) : option row :=
  i ← find t key; Some (set_base 0 (recs t !!! i), baseHash t i).

(** ** [find] *)

Lemma keys_lookup t j : keys t !! j = if (j <? length (recs t))%nat then Some (hashAt t j) else None.
Proof.
  unfold keys. rewrite list_lookup_fmap. destruct (Nat.ltb_spec j (length (recs t))).
  - by rewrite lookup_seq_lt.
  - by rewrite lookup_seq_ge.
Qed.

Lemma sorted_lookup_lt (l : list bytes) i j a b :
  StronglySorted bytes_lt l -> l !! i = Some a -> l !! j = Some b -> (i < j)%nat -> bytes_lt a b.
Proof. apply StronglySorted_lookup_lt. Qed.

Lemma bytes_ltb_lt a b : bytes_ltb a b = true <-> bytes_lt a b.
Proof. unfold bytes_ltb, bytes_lt. destruct (bytes_cmp a b); naive_solver. Qed.

Lemma find_spec t key j :
  StronglySorted bytes_lt (keys t) -> find t key = Some j <-> keys t !! j = Some key.
Proof.
  intros Hs. unfold find. set (f := fun i => negb (bytes_ltb (hashAt t i) key)).
  assert (Hmono : forall a b, (a <= b < length (recs t))%nat -> f a = true -> f b = true).
  { intros a b Hab. unfold f. rewrite !negb_true_iff, <-!not_true_iff_false, !bytes_ltb_lt.
    intros Ha Hb. apply Ha. destruct (decide (a = b)) as [->|]; [done|].
    etransitivity; [|exact Hb]. apply (sorted_lookup_lt (keys t) a b); auto; try lia;
      rewrite keys_lookup, (proj2 (Nat.ltb_lt _ _)); (done || lia). }
  destruct (Search_spec (length (recs t)) f Hmono) as (Hle & Hlo & Hhi).
  set (r := Search _ f) in *. rewrite keys_lookup. split.
  - destruct ((r <? length (recs t))%nat && _) eqn:E; [|done]. intros [= <-].
    apply andb_true_iff in E as [E1 E2]. rewrite E1. unfold bytes_eqb in E2. b2p. by rewrite E2.
  - destruct (Nat.ltb_spec j (length (recs t))) as [Hj|]; [|done]. intros [= Hk].
    assert (r = j) as ->.
    { destruct (decide (r < j)%nat) as [Hlt|Hge].
      - specialize (Hhi r ltac:(lia)). unfold f in Hhi. rewrite negb_true_iff, <-not_true_iff_false, bytes_ltb_lt in Hhi.
        destruct Hhi. rewrite <-Hk. apply (sorted_lookup_lt (keys t) r j); auto;
          rewrite keys_lookup, (proj2 (Nat.ltb_lt _ _)); (done || lia).
      - destruct (decide (j < r)%nat) as [Hlt|]; [|lia].
        specialize (Hlo j Hlt). unfold f in Hlo. rewrite negb_false_iff, bytes_ltb_lt, Hk in Hlo.
        by apply bytes_lt_irrefl in Hlo. }
    rewrite (proj2 (Nat.ltb_lt _ _)) by done. unfold bytes_eqb. by rewrite bool_decide_true.
Qed.

Lemma find_none t key :
  StronglySorted bytes_lt (keys t) -> find t key = None <-> key ∉ keys t.
Proof.
  intros Hs. split.
  - intros Hf [j Hj]%list_elem_of_lookup. apply find_spec in Hj; [|done]. congruence.
  - intros Hn. destruct (find t key) as [j|] eqn:E; [|done]. apply find_spec in E; [|done].
    destruct Hn. by eapply list_elem_of_lookup_2.
Qed.

(** ** The dedupe loop *)

Section keep_last.
Context (hashOf : nat -> bytes).
Abbreviation sorted_by_hash := (StronglySorted (fun a b => bytes_leb (hashOf a) (hashOf b) = true)).

Lemma bytes_leb_le a b : bytes_leb a b = true <-> bytes_le a b.
Proof. unfold bytes_leb, bytes_le. destruct (bytes_cmp a b); naive_solver. Qed.

Lemma keep_last_cons x y order :
  keep_last hashOf (x :: y :: order) =
  if bytes_eqb (hashOf x) (hashOf y) then keep_last hashOf (y :: order)
  else x :: keep_last hashOf (y :: order).
Proof. done. Qed.

Lemma keep_last_sub order i : i ∈ keep_last hashOf order -> i ∈ order.
Proof.
  induction order as [|x order IH]; [done|]. destruct order as [|y order]; [done|].
  rewrite keep_last_cons. destruct (bytes_eqb _ _); [set_solver|]. rewrite !(elem_of_cons _ i x). set_solver.
Qed.

(** Of the indices with a given hash, the last one in order survives. *)
Lemma keep_last_filter order key :
  sorted_by_hash order ->
  filter (fun i => hashOf i = key) (keep_last hashOf order) =
  option_list (last (filter (fun i => hashOf i = key) order)).
Proof.
  induction 1 as [|x order Hs IH Hx]; [done|].
  destruct order as [|y order].
  { simpl. rewrite filter_cons. by destruct (decide (hashOf x = key)). }
  rewrite keep_last_cons.
  rewrite (filter_cons _ x (y :: order)).
  destruct (bytes_eqb (hashOf x) (hashOf y)) eqn:E; unfold bytes_eqb in E; b2p.
  - rewrite IH. destruct (decide (hashOf x = key)) as [Hk|]; [|done].
    rewrite filter_cons, decide_True by congruence. by rewrite last_cons_cons.
  - rewrite filter_cons, IH. destruct (decide (hashOf x = key)) as [Hk|]; [|done].
    assert (Hnone : filter (fun i => hashOf i = key) (y :: order) = []).
    { apply filter_none. inversion Hx as [|? ? Hxy Hxo]; subst.
      inversion Hs as [|? ? Hs' Hy]; subst. apply Forall_cons. split; [congruence|].
      eapply Forall_impl; [exact Hy|]. simpl. intros z Hz Heq. apply E.
      apply (anti_symm bytes_le); apply bytes_leb_le; [done|]. by rewrite Heq in Hz. }
    by rewrite Hnone.
Qed.

Lemma keep_last_strict order :
  sorted_by_hash order -> StronglySorted bytes_lt (hashOf <$> keep_last hashOf order).
Proof.
  induction 1 as [|x order Hs IH Hx]; [constructor|].
  destruct order as [|y order]; [repeat constructor|].
  rewrite keep_last_cons.
  destruct (bytes_eqb (hashOf x) (hashOf y)) eqn:E; [exact IH|]. unfold bytes_eqb in E. b2p.
  rewrite fmap_cons. constructor; [exact IH|].
  apply Forall_fmap, Forall_forall. intros z Hz%keep_last_sub. simpl.
  assert (Hxy : bytes_lt (hashOf x) (hashOf y)).
  { inversion Hx as [|? ? Hxy _]; subst. apply bytes_leb_le, bytes_le_lt_eq in Hxy. naive_solver. }
  apply elem_of_cons in Hz as [->|Hz]; [done|].
  inversion Hs as [|? ? _ Hy]; subst. rewrite Forall_forall in Hy.
  apply Hy, bytes_leb_le, bytes_le_lt_eq in Hz. destruct Hz as [Hz| <-]; [by etransitivity|done].
Qed.
End keep_last.

(** ** [buildTable] *)

Lemma number_bases_shape l t :
  let t' := fold_left number_base l t in
  hashSize t' = hashSize t /\ hashes t' = hashes t /\ pack t' = pack t /\
  length (recs t') = length (recs t) /\ (forall i, set_base 0 (recs t' !!! i) = set_base 0 (recs t !!! i)).
Proof.
  revert t. induction l as [|[k b] l IH]; intros t; cbn [fold_left]; [done|].
  destruct (IH (number_base t (k, b))) as (H1 & H2 & H3 & H4 & H5).
  assert (Ha : forall c i, set_base 0 (alter (set_base c) k (recs t) !!! i) = set_base 0 (recs t !!! i)).
  { intros c i. rewrite !list_lookup_total_alt. destruct (decide (i = k)) as [->|].
    - rewrite list_lookup_alter_eq. by destruct (recs t !! k).
    - by rewrite list_lookup_alter_ne. }
  rewrite H1, H2, H3, H4. unfold number_base.
  repeat split; try (destruct (bool_decide _); [|destruct (find _ _)]; cbn; auto using length_alter; done).
  intros i. rewrite H5. unfold number_base. destruct (bool_decide _); [|destruct (find _ _)]; cbn; apply Ha.
Qed.

Lemma number_base_find t kb key : find (number_base t kb) key = find t key.
Proof.
  destruct kb as [k b]. unfold number_base.
  destruct (bool_decide _); [|destruct (find t (HashBytes b))]; unfold find; cbn; by rewrite length_alter.
Qed.

Lemma number_base_hash t kb i : hash (number_base t kb) i = hash t i.
Proof. destruct kb as [k b]. unfold number_base. destruct (bool_decide _); [|destruct (find _ _)]; done. Qed.

Lemma number_base_far t k b m : m <> k -> (Z.of_nat m < 2 ^ 31) -> (Z.of_nat k < 2 ^ 31) ->
  baseHash (number_base t (k, b)) m = baseHash t m.
Proof.
  intros Hm Hm1 Hk1. assert (Hi : i32 (Z.of_nat m) <> i32 (Z.of_nat k)).
  { unfold i32. rewrite !Z.mod_small by lia. lia. }
  unfold baseHash. rewrite (number_base_hash t (k, b)). unfold number_base.
  destruct (bool_decide _); [|destruct (find _ _)]; cbn; rewrite list_lookup_total_alter_ne by done; try done.
  by rewrite lookup_insert_ne by done.
Qed.

Lemma number_base_self t k b :
  StronglySorted bytes_lt (keys t) -> good_base b -> (k < length (recs t))%nat -> Z.of_nat (length (recs t)) < 2 ^ 31 ->
  baseHash (number_base t (k, b)) k = b.
Proof.
  intros Hs Hb Hk Hn. unfold baseHash. rewrite (number_base_hash t (k, b)). unfold number_base.
  destruct (lookup_lt_is_Some_2 _ _ Hk) as [r Hr].
  destruct (bool_decide (b = ZeroHash)) eqn:E; b2p.
  - cbn. rewrite list_lookup_total_alter_eq by done. by subst.
  - destruct (find t (HashBytes b)) as [j|] eqn:Ef; cbn; rewrite list_lookup_total_alter_eq by done; cbn.
    + apply find_spec in Ef; [|done]. rewrite keys_lookup in Ef.
      destruct (Nat.ltb_spec j (length (recs t))); [|done]. injection Ef as Ef.
      assert (Hj : i32 (Z.of_nat j) = Z.of_nat j) by (unfold i32; rewrite Z.mod_small; lia).
      rewrite Hj. rewrite (proj2 (Z.eqb_neq (Z.of_nat j) baseNone)), (proj2 (Z.eqb_neq (Z.of_nat j) baseFar))
        by (unfold baseNone, baseFar; lia).
      rewrite Nat2Z.id. unfold hash. rewrite Ef. by destruct Hb as [-> | ->].
    + by rewrite lookup_insert_eq.
Qed.

Lemma number_base_keys t kb : keys (number_base t kb) = keys t /\ len (number_base t kb) = len t.
Proof.
  destruct kb as [k b]. unfold number_base, keys, len.
  destruct (bool_decide _); [|destruct (find _ _)]; cbn; by rewrite length_alter.
Qed.

Lemma number_bases_base l t :
  StronglySorted bytes_lt (keys t) -> Z.of_nat (len t) < 2 ^ 31 -> NoDup l.*1 ->
  Forall (fun kb => (kb.1 < len t)%nat /\ good_base kb.2) l ->
  let t' := fold_left number_base l t in
  Forall (fun kb => baseHash t' kb.1 = kb.2) l /\
  (forall m, m ∉ l.*1 -> (m < len t)%nat -> baseHash t' m = baseHash t m).
Proof.
  intros Hs Hn. revert t Hs Hn.
  induction l as [|[k b] l IH]; intros t Hs Hn Hnd Hl; cbn [fold_left]; [by split|].
  apply NoDup_cons in Hnd as [Hk Hnd]. apply Forall_cons in Hl as [[Hkl Hb] Hl]. simpl in Hk, Hkl, Hb.
  destruct (number_base_keys t (k, b)) as [Hkeys Hlen].
  destruct (IH (number_base t (k, b))) as [Hin Hout]; rewrite ?Hkeys, ?Hlen; auto.
  split.
  - apply Forall_cons. split; [|done]. cbn [fst snd].
    rewrite Hout by (rewrite ?Hlen; done). by apply number_base_self.
  - intros m Hm Hml. rewrite fmap_cons, not_elem_of_cons in Hm. destruct Hm as [Hmk Hm]. simpl in Hmk.
    rewrite Hout by (rewrite ?Hlen; done). apply number_base_far; auto; lia.
Qed.

Lemma one_pack_minus k rs : one_pack (S k) (-1) rs = -1.
Proof.
  revert k. induction rs as [|r rs IH]; intros k; cbn [one_pack]; [done|].
  change (S k =? 0)%nat with false. cbv iota. by destruct (negb _).
Qed.

Lemma one_pack_S k pk rs :
  one_pack (S k) pk rs <> -1 -> one_pack (S k) pk rs = pk /\ Forall (fun r => t_pack r = pk) rs.
Proof.
  revert k pk. induction rs as [|r rs IH]; intros k pk; cbn [one_pack]; [done|].
  change (S k =? 0)%nat with false. cbv iota. intros Hne.
  destruct (Z.eqb_spec pk (t_pack r)) as [Hp|Hp]; cbn [negb] in *.
  - apply IH in Hne as [He Hf]. split; [done|]. by constructor.
  - by rewrite one_pack_minus in Hne.
Qed.

Lemma one_pack_spec pk rs : one_pack 0 pk rs <> -1 -> Forall (fun r => t_pack r = one_pack 0 pk rs) rs.
Proof.
  destruct rs as [|r rs]; [constructor|]. cbn [one_pack]. change (0 =? 0)%nat with true. cbv iota.
  intros Hne. apply one_pack_S in Hne as [-> Hf]. by constructor.
Qed.

Lemma take_drop_entry (cols : list bytes) w i c :
  Forall (fun c => length c = w) cols -> cols !! i = Some c -> take w (drop (i * w) (concat cols)) = c.
Proof.
  intros Hw Hc. pose proof (slice_entry w cols [] i c Hw Hc) as Hs. rewrite app_nil_r in Hs.
  unfold slice in Hs. destruct (_ && _); [|done]. injection Hs as Hs.
  transitivity (take ((i + 1) * w - i * w) (drop (i * w) (concat cols))); [f_equal; lia|exact Hs].
Qed.

Lemma keep_last_length hashOf order : (length (keep_last hashOf order) <= length order)%nat.
Proof.
  induction order as [|x order IH]; [done|]. destruct order as [|y order]; [done|].
  rewrite keep_last_cons. destruct (bytes_eqb _ _); cbn [length] in *; lia.
Qed.

Section build.
Context (hs n : nat) (hashOf : nat -> bytes) (at_ : nat -> tableSource).
Context (Hw : forall i, (i < n)%nat -> length (hashOf i) = hs).
Context (Hat : forall i, (i < n)%nat -> ts_hash (at_ i) = hashOf i).
Context (Hgood : forall i, (i < n)%nat -> good_base (ts_base (at_ i))).
Context (Hn : Z.of_nat n < 2 ^ 31).

Let leb a b := bytes_leb (hashOf a) (hashOf b).
Let order := stable_sort leb (seq 0 n).
Let src := keep_last hashOf order.
Let t := buildTable hs n hashOf at_.

Lemma order_sorted : StronglySorted (fun a b => leb a b = true) order.
Proof.
  apply stable_sort_sorted.
  - intros x y. unfold leb. rewrite !bytes_leb_le. apply total, _.
  - intros x y z. unfold leb. rewrite !bytes_leb_le. intros ??; by etransitivity.
Qed.

Lemma src_lt i : i ∈ src -> (i < n)%nat.
Proof.
  intros Hi%keep_last_sub. unfold order in Hi. rewrite stable_sort_perm in Hi.
  apply elem_of_seq in Hi. lia.
Qed.

Lemma src_length : (length src <= n)%nat.
Proof.
  unfold src. rewrite keep_last_length. unfold order. by rewrite stable_sort_perm, length_seq.
Qed.

Let l := imap (fun k i => (k, ts_base (at_ i))) src.
Let t0 : packTable :=
  {| hashSize := hs; hashes := concat (ts_hash ∘ at_ <$> src); recs := ts_rec ∘ at_ <$> src;
     farBase := ∅; pack := -1 |}.

Lemma src_hashes : ts_hash ∘ at_ <$> src = hashOf <$> src.
Proof. apply list_fmap_ext. intros j y Hy. apply Hat, src_lt. by eapply list_elem_of_lookup_2. Qed.

Lemma t0_keys : keys t0 = hashOf <$> src.
Proof.
  unfold keys, hashAt, t0. cbn. rewrite length_fmap, src_hashes.
  apply list_eq. intros i. rewrite !list_lookup_fmap. destruct (src !! i) as [x|] eqn:Hx.
  - pose proof (lookup_lt_Some _ _ _ Hx). rewrite lookup_seq_lt by done. cbn. f_equal.
    apply take_drop_entry; [|by rewrite list_lookup_fmap, Hx].
    apply Forall_fmap, Forall_forall. intros y Hy. by apply Hw, src_lt.
  - rewrite lookup_seq_ge; [done|]. by apply lookup_ge_None.
Qed.

Lemma build_eq :
  let t' := fold_left number_base l t0 in
  t = {| hashSize := hashSize t'; hashes := hashes t'; recs := recs t'; farBase := farBase t';
         pack := one_pack 0 (pack t') (recs t') |}.
Proof. done. Qed.

Lemma build_keys : keys t = hashOf <$> src /\ len t = length src /\ hashSize t = hs.
Proof.
  rewrite build_eq. destruct (number_bases_shape l t0) as (Hs & Hh & _ & Hl & _).
  cbv zeta in *. rewrite <-t0_keys. unfold keys, len, hashAt. cbn. rewrite Hs, Hh, Hl.
  split; [done|]. split; [apply length_fmap|done].
Qed.

Lemma keys_sorted : StronglySorted bytes_lt (hashOf <$> src).
Proof. apply keep_last_strict, order_sorted. Qed.

Lemma l_fst : l.*1 = seq 0 (length src).
Proof.
  unfold l. rewrite fmap_imap. apply list_eq. intros k. rewrite list_lookup_imap.
  destruct (src !! k) eqn:E; cbn.
  - rewrite lookup_seq_lt; [done|]. by apply lookup_lt_Some in E.
  - rewrite lookup_seq_ge; [done|]. by apply lookup_ge_None.
Qed.

Lemma build_row j i :
  src !! j = Some i ->
  set_base 0 (recs t !!! j) = set_base 0 (ts_rec (at_ i)) /\ baseHash t j = ts_base (at_ i).
Proof.
  intros Hj. rewrite build_eq. destruct (number_bases_shape l t0) as (Hs & Hh & _ & Hl & Hr).
  pose proof src_length as Hsl.
  assert (Hlen0 : len t0 = length src) by (unfold t0, len; cbn; apply length_fmap).
  destruct (number_bases_base l t0) as [Hb _].
  - rewrite t0_keys. apply keys_sorted.
  - lia.
  - rewrite l_fst. apply NoDup_seq.
  - apply Forall_forall. intros [k b] Hkb. unfold l in Hkb. apply elem_of_lookup_imap in Hkb as (k' & i' & [= -> ->] & Hk').
    cbn [fst snd]. rewrite Hlen0. split; [by eapply lookup_lt_Some|].
    apply Hgood, src_lt. by eapply list_elem_of_lookup_2.
  - split.
    + cbn [recs]. rewrite Hr. f_equal. unfold t0. cbn. apply list_lookup_total_correct. by rewrite list_lookup_fmap, Hj.
    + rewrite Forall_forall in Hb. apply (Hb (j, ts_base (at_ i))).
      unfold l. apply elem_of_lookup_imap. eauto.
Qed.

Lemma build_wf : wf_table hs t.
Proof.
  destruct build_keys as (Hk & Hlen & Hsz). split; [done|..].
  - rewrite Hk. apply Forall_fmap, Forall_forall. intros y Hy. by apply Hw, src_lt.
  - rewrite Hk. apply keys_sorted.
  - intros j Hj. unfold len in Hlen. rewrite Hlen in Hj. destruct (lookup_lt_is_Some_2 _ _ Hj) as [i Hi].
    destruct (build_row j i Hi) as [_ ->]. apply Hgood, src_lt. by eapply list_elem_of_lookup_2.
  - rewrite build_eq. cbn [pack recs]. apply one_pack_spec.
Qed.

Lemma build_get key :
  table_get t key =
  (fun i => (set_base 0 (ts_rec (at_ i)), ts_base (at_ i))) <$>
    last (filter (fun i => hashOf i = key) (seq 0 n)).
Proof.
  destruct build_keys as (Hk & Hlen & Hsz).
  assert (Hsk : StronglySorted bytes_lt (keys t)) by (rewrite Hk; apply keys_sorted).
  assert (Hf : filter (fun i => hashOf i = key) src =
               option_list (last (filter (fun i => hashOf i = key) (seq 0 n)))).
  { unfold src. rewrite keep_last_filter by apply order_sorted. f_equal. f_equal. apply stable_sort_filter.
    intros x y Hx Hy. apply bytes_leb_le. by rewrite Hx, Hy. }
  unfold table_get. destruct (find t key) as [j|] eqn:Ej.
  - apply find_spec in Ej; [|done]. rewrite Hk, list_lookup_fmap in Ej.
    destruct (src !! j) as [i|] eqn:Ei; [|done]. injection Ej as Ej.
    assert (Hin : i ∈ filter (fun i => hashOf i = key) src).
    { apply list_elem_of_filter. split; [done|]. by eapply list_elem_of_lookup_2. }
    rewrite Hf in Hin. destruct (last _) as [i'|]; [|by apply elem_of_nil in Hin].
    apply list_elem_of_singleton in Hin as <-. destruct (build_row j i Ei) as [Hr Hb].
    change (Some (set_base 0 (recs t !!! j), baseHash t j) = Some (set_base 0 (ts_rec (at_ i)), ts_base (at_ i))).
    by rewrite Hr, Hb.
  - apply find_none in Ej; [|done]. rewrite Hk in Ej.
    destruct (last _) as [i'|]; [|done]. destruct Ej.
    assert (Hin : i' ∈ filter (fun i => hashOf i = key) src) by (rewrite Hf; set_solver).
    apply list_elem_of_filter in Hin as [<- Hin]. by apply list_elem_of_fmap_2.
Qed.
End build.

(** ** Tables as functions from keys to rows *)

Definition src_row (s : tableSource) : row := (set_base 0 (ts_rec s), ts_base s).

Section sources.
Context (hs n : nat) (at_ : nat -> tableSource) (L : list tableSource).
Context (Hw : Forall (fun s => length (ts_hash s) = hs /\ good_base (ts_base s)) L).
Context (Hn : Z.of_nat n < 2 ^ 31) (HL : at_ <$> seq 0 n = L).

Lemma at_source i : (i < n)%nat -> length (ts_hash (at_ i)) = hs /\ good_base (ts_base (at_ i)).
Proof.
  intros Hi. rewrite Forall_forall in Hw. apply Hw. rewrite <-HL. apply list_elem_of_fmap_2, elem_of_seq. lia.
Qed.

Lemma build_sources hashOf :
  (forall i, hashOf i = ts_hash (at_ i)) ->
  wf_table hs (buildTable hs n hashOf at_) /\
  forall key, table_get (buildTable hs n hashOf at_) key =
              src_row <$> last (filter (fun s => ts_hash s = key) L).
Proof.
  intros Hh.
  assert (Hw' : forall i, (i < n)%nat -> length (hashOf i) = hs) by (intros i Hi; rewrite Hh; by apply at_source).
  assert (Hat : forall i, (i < n)%nat -> ts_hash (at_ i) = hashOf i) by done.
  assert (Hg : forall i, (i < n)%nat -> good_base (ts_base (at_ i))) by (intros i Hi; by apply at_source).
  split; [by apply build_wf|]. intros key.
  rewrite (build_get hs n hashOf at_ Hw' Hat Hg Hn key), <-HL, filter_fmap_eq, fmap_last.
  rewrite <-option_fmap_compose. f_equal. f_equal. apply list_filter_iff. intros i. by rewrite Hh.
Qed.
End sources.

(** *** One container *)

Definition wf_cue (hs : nat) (r : cueRecord) : Prop :=
  length (HashBytes (c_hash r)) = hs /\ good_base (c_base r).

Lemma newPackTable_spec hs pk rs :
  Forall (wf_cue hs) rs -> Z.of_nat (length rs) < 2 ^ 31 ->
  wf_table hs (newPackTable hs pk rs) /\
  forall key, table_get (newPackTable hs pk rs) key =
    (fun r => (cue_row pk r, c_base r)) <$> last (filter (fun r => HashBytes (c_hash r) = key) rs).
Proof.
  intros Hwf Hn. unfold newPackTable.
  set (flat := concat _).
  set (at_ := fun i => {| ts_hash := take hs (drop (i * hs) flat); ts_rec := cue_row pk (rs !!! i);
                        ts_base := c_base (rs !!! i) |}).
  set (f := fun r => {| ts_hash := HashBytes (c_hash r); ts_rec := cue_row pk r; ts_base := c_base r |}).
  assert (Hcol : Forall (fun c => length c = hs) (HashBytes ∘ c_hash <$> rs)).
  { apply Forall_fmap. eapply Forall_impl; [exact Hwf|]. by intros r [Hr _]. }
  assert (HL : at_ <$> seq 0 (length rs) = f <$> rs).
  { rewrite <-(fmap_seq_lookup rs) at 2. rewrite <-list_fmap_compose. apply list_fmap_ext.
    intros i j Hj. apply lookup_seq in Hj as [-> Hj]. unfold at_, f. cbn. f_equal.
    destruct (lookup_lt_is_Some_2 _ _ Hj) as [r Hr]. rewrite (list_lookup_total_correct _ _ _ Hr).
    unfold flat. apply take_drop_entry; [done|]. by rewrite list_lookup_fmap, Hr. }
  destruct (build_sources hs (length rs) at_ (f <$> rs)) with (hashOf := fun i => take hs (drop (i * hs) flat))
    as [Hwt Hget]; try done.
  { apply Forall_fmap. done. }
  split; [exact Hwt|]. intros key. rewrite Hget, filter_fmap_eq, fmap_last, <-option_fmap_compose. done.
Qed.

(** *** Merging *)

Definition sources (t : packTable) (dead : gset Z) : list tableSource :=
  filter (fun s => t_pack (ts_rec s) ∉ dead)
    (imap (fun i r => {| ts_hash := hashAt t i; ts_rec := r; ts_base := baseHash t i |}) (recs t)).

(** What a search from the newest table to the oldest sees, skipping dead packs. *)
Definition newest (tables : list packTable) (dead : gset Z) (key : bytes) : option row :=
  fold_left (fun acc t =>
    match table_get t key with
    | Some r => if bool_decide (t_pack r.1 ∈ dead) then acc else Some r
    | None => acc
    end) tables None.

Lemma filter_unique {A} (f : A -> bytes) l i x :
  StronglySorted bytes_lt (f <$> l) -> l !! i = Some x -> filter (fun y => f y = f x) l = [x].
Proof.
  revert i. induction l as [|y l IH]; intros i Hs Hi; [done|].
  rewrite fmap_cons in Hs. inversion Hs as [|? ? Hs' Hy]; subst. rewrite Forall_fmap in Hy.
  destruct i as [|i]; simpl in Hi.
  - injection Hi as ->. rewrite filter_cons, decide_True by done. f_equal. apply filter_none.
    eapply Forall_impl; [exact Hy|]. simpl. intros z Hz Heq. rewrite Heq in Hz. by apply bytes_lt_irrefl in Hz.
  - rewrite filter_cons. rewrite decide_False; [by apply (IH i)|].
    rewrite Forall_forall in Hy. intros Heq. specialize (Hy x ltac:(by eapply list_elem_of_lookup_2)).
    simpl in Hy. rewrite Heq in Hy. by apply bytes_lt_irrefl in Hy.
Qed.

Lemma filter_swap {A} (P Q : A -> Prop) `{!forall x, Decision (P x)} `{!forall x, Decision (Q x)} (l : list A) :
  filter P (filter Q l) = filter Q (filter P l).
Proof.
  induction l as [|x l IH]; [done|]. rewrite !(filter_cons _ x).
  destruct (decide (P x)) eqn:E1, (decide (Q x)) eqn:E2; rewrite ?filter_cons, ?E1, ?E2, IH; done.
Qed.

Lemma sources_get hs t dead key :
  wf_table hs t ->
  src_row <$> last (filter (fun s => ts_hash s = key) (sources t dead)) =
  match table_get t key with
  | Some r => if bool_decide (t_pack r.1 ∈ dead) then None else Some r
  | None => None
  end.
Proof.
  intros [_ _ Hs _ _]. unfold sources. set (all := imap _ (recs t)).
  assert (Hall : ts_hash <$> all = keys t).
  { unfold all, keys. rewrite fmap_imap. apply list_eq. intros i. rewrite list_lookup_imap, list_lookup_fmap.
    destruct (recs t !! i) eqn:E; cbn.
    - by rewrite lookup_seq_lt by by eapply lookup_lt_Some.
    - rewrite lookup_seq_ge; [done|]. by apply lookup_ge_None. }
  rewrite filter_swap. unfold table_get. destruct (find t key) as [j|] eqn:Ef.
  - apply find_spec in Ef; [|done]. pose proof Ef as Ek. rewrite <-Hall, list_lookup_fmap in Ek.
    destruct (all !! j) as [s|] eqn:Es; [|done]. injection Ek as <-.
    rewrite (filter_unique ts_hash all j s) by (done || by rewrite Hall).
    unfold all in Es. rewrite list_lookup_imap in Es. destruct (recs t !! j) as [r|] eqn:Er; [|done].
    injection Es as <-. rewrite filter_cons, filter_nil. cbn [ts_rec mbind option_bind]. rewrite (list_lookup_total_correct _ _ _ Er). cbn.
    by destruct (decide (t_pack r ∉ dead)), (bool_decide (t_pack r ∈ dead)) eqn:E; b2p.
  - apply find_none in Ef; [|done]. rewrite (filter_none (fun s => ts_hash s = key)); [done|].
    rewrite <-Hall in Ef. apply Forall_forall. intros s Hin Heq. simpl in Heq. subst key. by apply Ef, list_elem_of_fmap_2.
Qed.

Lemma newest_sources hs tables dead key :
  Forall (wf_table hs) tables ->
  newest tables dead key =
  src_row <$> last (filter (fun s => ts_hash s = key) (concat ((fun t => sources t dead) <$> tables))).
Proof.
  intros Hwf. induction tables as [|t tables IH] using rev_ind; [done|].
  apply Forall_app in Hwf as [Hwf [Ht _]%Forall_cons].
  unfold newest in *. rewrite fold_left_app, fmap_app, concat_app, filter_app. cbn [fold_left fmap list_fmap].
  rewrite (IH Hwf). simpl. rewrite app_nil_r, last_app.
  pose proof (sources_get hs t dead key Ht) as Hg.
  destruct (last (filter _ (sources t dead))) as [s|] eqn:El; cbn in Hg.
  - destruct (table_get t key) as [r|]; [|done]. by destruct (bool_decide _).
  - destruct (table_get t key) as [r|]; [|done]. by destruct (bool_decide _).
Qed.

Definition ref_source (tables : list packTable) (r : nat * nat) : tableSource :=
  {| ts_hash := hashAt (tables !!! r.1) r.2; ts_rec := recs (tables !!! r.1) !!! r.2;
     ts_base := baseHash (tables !!! r.1) r.2 |}.

Lemma imap_sources (g : nat * nat -> tableSource) ti t (dead : gset Z) (rs : list tableRec) off :
  (forall i r, rs !! i = Some r ->
     g (ti, (off + i)%nat) = {| ts_hash := hashAt t (off + i); ts_rec := r; ts_base := baseHash t (off + i) |}) ->
  g <$> concat (imap (fun i r => if bool_decide (t_pack r ∈ dead) then [] else [(ti, (off + i)%nat)]) rs) =
  filter (fun s => t_pack (ts_rec s) ∉ dead)
    (imap (fun i r => {| ts_hash := hashAt t (off + i); ts_rec := r; ts_base := baseHash t (off + i) |}) rs).
Proof.
  revert off. induction rs as [|r rs IH]; intros off Hg; [done|].
  rewrite !imap_cons. cbn [concat]. rewrite fmap_app, filter_cons. cbn [ts_rec].
  pose proof (Hg 0%nat r eq_refl) as H0. rewrite Nat.add_0_r in *.
  assert (IH' := IH (S off)). 
  rewrite (imap_ext _ (fun i r => if bool_decide (t_pack r ∈ dead) then [] else [(ti, (S off + i)%nat)]) rs)
    by (intros i x _; simpl; by rewrite Nat.add_succ_r).
  rewrite IH'.
  - rewrite (imap_ext _ (fun i r => {| ts_hash := hashAt t (off + S i); ts_rec := r; ts_base := baseHash t (off + S i) |}) rs)
      by (intros i x _; simpl; by rewrite Nat.add_succ_r).
    destruct (decide (t_pack r ∉ dead)), (bool_decide (t_pack r ∈ dead)) eqn:E; b2p; try done.
    simpl. by rewrite H0.
  - intros i x Hx. rewrite Nat.add_succ_comm. by apply Hg.
Qed.

Lemma live_refs_sources tables dead :
  ref_source tables <$> live_refs tables dead = concat ((fun t => sources t dead) <$> tables).
Proof.
  unfold live_refs.
  assert (Hgen : forall ts off, (forall i t, ts !! i = Some t -> tables !! (off + i)%nat = Some t) ->
    ref_source tables <$> concat (imap (fun ti t =>
      concat (imap (fun i r => if bool_decide (t_pack r ∈ dead) then [] else [((off + ti)%nat, i)]) (recs t))) ts) =
    concat ((fun t => sources t dead) <$> ts)).
  { induction ts as [|t ts IH]; intros off Hts; [done|].
    rewrite imap_cons. cbn [concat fmap list_fmap]. rewrite fmap_app. f_equal.
    - rewrite Nat.add_0_r. apply (imap_sources (ref_source tables) off t dead (recs t) 0).
      intros i r Hi. unfold ref_source. cbn [fst snd Nat.add].
      pose proof (Hts 0%nat t eq_refl) as Ht. rewrite Nat.add_0_r in Ht.
      rewrite (list_lookup_total_correct _ _ _ Ht), (list_lookup_total_correct _ _ _ Hi). done.
    - rewrite <-(IH (S off)).
      + f_equal. f_equal. apply imap_ext. intros i t' _. simpl. by rewrite Nat.add_succ_r.
      + intros i t' Hi. rewrite Nat.add_succ_comm. by apply Hts. }
  apply (Hgen tables 0%nat). done.
Qed.

Definition total_recs (tables : list packTable) : nat := sum_list (len <$> tables).

Lemma mergeTables_spec hs tables dead :
  Forall (wf_table hs) tables -> Z.of_nat (length (live_refs tables dead)) < 2 ^ 31 ->
  wf_table hs (mergeTables hs tables dead) /\
  forall key, table_get (mergeTables hs tables dead) key = newest tables dead key.
Proof.
  intros Hwf Hn. unfold mergeTables.
  set (refs := live_refs tables dead) in *.
  set (at_ := fun k => ref_source tables (refs !!! k)).
  assert (HL : at_ <$> seq 0 (length refs) = concat ((fun t => sources t dead) <$> tables)).
  { rewrite <-live_refs_sources. fold refs. rewrite <-(fmap_seq_lookup refs) at 2.
    by rewrite <-list_fmap_compose. }
  destruct (build_sources hs (length refs) at_ (concat ((fun t => sources t dead) <$> tables)))
    with (hashOf := fun k => hashAt (tables !!! (refs !!! k).1) (refs !!! k).2) as [Hwt Hget]; try done.
  { apply Forall_concat, Forall_fmap. eapply Forall_impl; [exact Hwf|]. intros t [Hs Hk _ Hb _]. simpl.
    apply Forall_forall. intros s Hin. unfold sources in Hin. apply list_elem_of_filter in Hin as [_ Hin].
    apply elem_of_lookup_imap in Hin as (i & r & -> & Hi). cbn. pose proof (lookup_lt_Some _ _ _ Hi).
    split; [|by apply Hb]. rewrite Forall_lookup in Hk. apply (Hk i). rewrite keys_lookup.
    by rewrite (proj2 (Nat.ltb_lt _ _)). }
  split; [exact Hwt|]. intros key. rewrite Hget. symmetry. by apply (newest_sources hs).
Qed.


Lemma len_buildTable hs n hashOf at_ : (len (buildTable hs n hashOf at_) <= n)%nat.
Proof.
  unfold buildTable, len. cbv zeta. cbn [recs].
  match goal with |- context [fold_left number_base ?l ?t] =>
    destruct (number_bases_shape l t) as (_ & _ & _ & -> & _) end.
  cbn [recs]. rewrite length_fmap, keep_last_length, stable_sort_perm, length_seq. done.
Qed.

(** The entry a row stands for. *)
Definition row_entry (ids : list bytes) (r : row) : packEntry :=
  {| e_id := ids !!! Z.to_nat (t_pack r.1); e_typ := t_typ r.1; e_codec := t_codec r.1;
     e_offset := t_offset r.1; e_stored := t_stored r.1; e_raw := t_raw r.1; e_base := r.2 |}.

Lemma table_get_entry t key r ids :
  table_get t key = Some r -> exists i, find t key = Some i /\ entry t i ids = row_entry ids r.
Proof.
  unfold table_get. destruct (find t key) as [i|]; [|done]. cbn. intros [= <-].
  exists i. by split.
Qed.
End packtable.

(** ** Properties *)

(** A table built from the records of a container finds exactly the
    hashes recorded there; for a repeated hash it yields every field of the last
    record, with the delta base recovered whether it was numbered inside the
    table or kept aside. *)
Theorem packtable_lookup `{GoGit} (hs : nat) (pk : Z) (rs : list cueRecord) (ids : list bytes) (key : bytes) :
  Forall (wf_cue hs) rs -> Z.of_nat (length rs) < 2 ^ 31 ->
  let t := newPackTable hs pk rs in
  match last (filter (fun r => HashBytes (c_hash r) = key) rs) with
  | None => find t key = None
  | Some r => exists i, find t key = Some i /\
      entry t i ids = {| e_id := ids !!! Z.to_nat pk; e_typ := c_typ r; e_codec := c_codec r;
                         e_offset := c_offset r; e_stored := c_stored r; e_raw := c_raw r; e_base := c_base r |}
  end.
Proof.
  intros Hwf Hn t. destruct (newPackTable_spec hs pk rs Hwf Hn) as [_ Hget].
  specialize (Hget key). destruct (last _) as [r|].
  - apply (table_get_entry _ _ _ ids) in Hget as (i & Hi & He). exists i. by split.
  - unfold table_get in Hget. unfold t. by destruct (find _ key).
Qed.

Definition dup_recs : list (@cueRecord toy_git) :=
  let h n := Some (repeat (bz n) 20) in
  let r n off base := {| c_hash := h n; c_typ := BlobObject; c_codec := codecRaw; c_offset := off;
                         c_stored := 5; c_raw := 5; c_base := base |} in
  [r 9 0 ZeroHash; r 3 5 (h 9); r 9 10 (h 77); r 1 15 (h 3)].

Lemma packtable_lookup_witness :
  Forall (wf_cue 20) dup_recs /\
  exists i, find (newPackTable 20 0 dup_recs) (repeat (bz 9) 20) = Some i /\
    e_offset (entry (newPackTable 20 0 dup_recs) i [bs "pack"]) = 10.
Proof.
  assert (Hwf : Forall (wf_cue 20) dup_recs).
  { repeat (apply Forall_cons; split; [split; [reflexivity|]|]); [..|apply Forall_nil; exact I];
      first [left; reflexivity|right; reflexivity]. }
  split; [exact Hwf|].
  assert (Hn : Z.of_nat (length dup_recs) < 2 ^ 31) by reflexivity.
  pose proof (packtable_lookup 20 0 dup_recs [bs "pack"] (repeat (bz 9) 20) Hwf Hn) as Ht.
  assert (Hl : c_offset <$> last (filter (fun r => HashBytes (c_hash r) = repeat (bz 9) 20) dup_recs) = Some 10)
    by (vm_compute; reflexivity).
  destruct (last _) as [r|]; [|discriminate Hl]. destruct Ht as (i & Hi & He).
  exists i. split; [exact Hi|]. rewrite He. injection Hl as Hl. exact Hl.
Defined.
