(* ===== verification/PackIndex.v ===== *)
(** * The index of a storer's packs (internal/storage/tigris/packindex.go)

    Which containers are known, which of them failed to upload, and the search
    from the newest table to the oldest.  The in-memory part; the cold build
    that reads the bucket is in Storer.v. *)

From S2P Require Import Prelude GoLib Codec Concrete Cue PackTable.

Definition maxPackTables : nat := 16.
#[local] Arguments newest : simpl never.
#[local] Arguments total_recs : simpl never.
#[local] Arguments mergeTables : simpl never.

Section packindex.
Context `{GoGit}.

(** [idNum], [sizes] and [local] are Go maps; a nil [dead] map is the empty set. *)
Record packIndex := {
  built : bool;
  p_hashSize : nat;
  ids : list bytes;
  idNum : gmap bytes Z;
  tables : list packTable;
  dead : gset Z;
  sizes : gmap bytes Z;
  local : gmap bytes bytes;
}.

Definition newPackIndex (hs : nat) : packIndex :=
  {| built := false; p_hashSize := hs; ids := []; idNum := ∅; tables := []; dead := ∅; sizes := ∅; local := ∅ |}.

Definition set_tables (ts : list packTable) (d : gset Z) (p : packIndex) : packIndex :=
  {| built := built p; p_hashSize := p_hashSize p; ids := ids p; idNum := idNum p; tables := ts; dead := d;
     sizes := sizes p; local := local p |}.
Definition set_maps (sz : gmap bytes Z) (lc : gmap bytes bytes) (p : packIndex) : packIndex :=
  {| built := built p; p_hashSize := p_hashSize p; ids := ids p; idNum := idNum p; tables := tables p;
     dead := dead p; sizes := sz; local := lc |}.
Definition set_built (p : packIndex) : packIndex :=
  {| built := true; p_hashSize := p_hashSize p; ids := ids p; idNum := idNum p; tables := tables p;
     dead := dead p; sizes := sizes p; local := local p |}.

Definition packNum (id : bytes) (p : packIndex) : Z * packIndex :=
  match idNum p !! id with
  | Some n => (n, p)
  | None =>
      let n := u32 (Z.of_nat (length (ids p))) in
      (n, {| built := built p; p_hashSize := p_hashSize p; ids := ids p ++ [id]; idNum := <[id := n]> (idNum p);
             tables := tables p; dead := dead p; sizes := sizes p; local := local p |})
  end.

Definition addTable (t : packTable) (p : packIndex) : packIndex :=
  if (len t =? 0)%nat then p else
  let ts := tables p ++ [t] in
  if (maxPackTables <? length ts)%nat
  then set_tables [mergeTables (p_hashSize p) ts (dead p)] ∅ p
  else set_tables ts (dead p) p.

Definition register (id : bytes) (recs : list cueRecord) (localBin : bytes) (p : packIndex) : packIndex :=
  let '(num, p) := packNum id p in
  let p := set_tables (tables p) (dead p ∖ {[num]}) p in
  let p := addTable (newPackTable (p_hashSize p) num recs) p in
  set_maps (<[id := packExtent recs]> (sizes p)) (<[id := localBin]> (local p)) p.

Definition markUploaded (id : bytes) (p : packIndex) : packIndex :=
  set_maps (sizes p) (delete id (local p)) p.

(** The loop of [deregister]: the tables kept, and whether one of them holds several packs. *)
Definition drop_pack (num : Z) (ts : list packTable) : list packTable * bool :=
  fold_left (fun '(kept, shared) t =>
    if pack t =? num then (kept, shared)
    else (kept ++ [t], shared || (pack t <? 0))) ts ([], false).

Definition deregister (id : bytes) (p : packIndex) : packIndex :=
  let p :=
    match idNum p !! id with
    | Some num =>
        let '(kept, shared) := drop_pack num (tables p) in
        set_tables kept (if shared : bool then {[num]} ∪ dead p else dead p) p
    | None => p
    end in
  set_maps (delete id (sizes p)) (delete id (local p)) p.

Definition localPath (id : bytes) (p : packIndex) : option bytes := local p !! id.
Definition binSize (id : bytes) (p : packIndex) : Z := default 0 (sizes p !! id).

Record packSnapshot := { sn_tables : list packTable; sn_ids : list bytes; sn_dead : gset Z }.

Definition snapshot (p : packIndex) : packSnapshot :=
  {| sn_tables := tables p; sn_ids := ids p; sn_dead := dead p |}.

Fixpoint lookup_loop (ts : list packTable) (d : gset Z) (h : bytes) (ti : nat) : option (nat * nat) :=
  match ti with
  | O => None
  | S ti' =>
      let t := ts !!! ti' in
      match find t h with
      | None => lookup_loop ts d h ti'
      | Some i => if bool_decide (t_pack (recs t !!! i) ∈ d) then lookup_loop ts d h ti' else Some (ti', i)
      end
  end.

Definition sn_lookup (sn : packSnapshot) (h : bytes) : option (nat * nat) :=
  lookup_loop (sn_tables sn) (sn_dead sn) h (length (sn_tables sn)).

(** [packSnapshot.order]: the comparison, and the sorted live records. *)
Definition order_leb (sn : packSnapshot) (a b : nat * nat) : bool :=
  let ra := recs (sn_tables sn !!! a.1) !!! a.2 in
  let rb := recs (sn_tables sn !!! b.1) !!! b.2 in
  let ia := sn_ids sn !!! Z.to_nat (t_pack ra) in
  let ib := sn_ids sn !!! Z.to_nat (t_pack rb) in
  match bytes_cmp ia ib with
  | Lt => true
  | Gt => false
  | Eq => t_offset ra <=? t_offset rb
  end.

Definition sn_order (sn : packSnapshot) : list (nat * nat) :=
  stable_sort (order_leb sn) (live_refs (sn_tables sn) (sn_dead sn)).

(** The part of [packLookup] after the index is built. *)
Definition entry_of (p : packIndex) (h : Hash) : option packEntry :=
  let sn := snapshot p in
  '(ti, i) ← sn_lookup sn (HashBytes h);
  Some (entry (sn_tables sn !!! ti) i (sn_ids sn)).

#[local] Arguments entry_of : simpl never.

(** The end of [ensurePacksBuilt]: the cold tables go below this instance's own. *)
Definition adopt_cold (cold : list packTable) (csizes : gmap bytes Z) (p : packIndex) : packIndex :=
  if built p then p else
  let cold := if (1 <? length cold)%nat then [mergeTables (p_hashSize p) cold ∅] else cold in
  let p := set_tables (cold ++ tables p) (dead p) p in
  let p := set_maps (sizes p ∪ csizes) (local p) p in
  let p := if (maxPackTables <? length (tables p))%nat
           then set_tables [mergeTables (p_hashSize p) (tables p) (dead p)] ∅ p else p in
  set_built p.

(** ** Invariant *)

(** Every row of a table names a pack the index has numbered. *)
Definition packs_below (n : Z) (t : packTable) : Prop :=
  forall key r, table_get t key = Some r -> 0 <= t_pack r.1 < n.

Record wf_index (p : packIndex) : Prop := {
  wi_tables : Forall (wf_table (p_hashSize p)) (tables p);
  wi_packs : Forall (packs_below (Z.of_nat (length (ids p)))) (tables p);
  wi_idNum : forall id n, idNum p !! id = Some n <-> ids p !! Z.to_nat n = Some id /\ 0 <= n;
  wi_dead : forall n, n ∈ dead p -> 0 <= n < Z.of_nat (length (ids p));
  wi_count : (length (tables p) <= maxPackTables)%nat;
}.

(** A table count and record count that keep the 32-bit numbers of the code exact. *)
Definition fits (p : packIndex) (extra : nat) : Prop :=
  Z.of_nat (total_recs (tables p) + extra) < 2 ^ 31 /\ Z.of_nat (length (ids p)) < 2 ^ 32 - 1.

(** ** Lookup *)

Lemma newest_snoc ts t d key :
  newest (ts ++ [t]) d key =
  match table_get t key with
  | Some r => if bool_decide (t_pack r.1 ∈ d) then newest ts d key else Some r
  | None => newest ts d key
  end.
Proof. unfold newest. by rewrite fold_left_app. Qed.

Lemma lookup_loop_app ts t d key n :
  (n <= length ts)%nat -> lookup_loop (ts ++ [t]) d key n = lookup_loop ts d key n.
Proof.
  induction n as [|n IH]; simpl; [done|]. intros Hn.
  assert (Ht : (ts ++ [t]) !!! n = ts !!! n) by (by rewrite lookup_total_app_l).
  rewrite Ht, IH by lia. done.
Qed.

Lemma lookup_newest ts d key ids0 :
  match lookup_loop ts d key (length ts) with
  | Some (ti, i) => exists r, newest ts d key = Some r /\ entry (ts !!! ti) i ids0 = row_entry ids0 r /\
                    (ti < length ts)%nat
  | None => newest ts d key = None
  end.
Proof.
  induction ts as [|t ts IH] using rev_ind; [done|].
  rewrite newest_snoc, length_app, Nat.add_1_r. cbn [lookup_loop].
  assert (Ht : (ts ++ [t]) !!! length ts = t) by (by rewrite lookup_total_app_r, Nat.sub_diag).
  rewrite Ht, lookup_loop_app by done.
  assert (Hrest : match lookup_loop ts d key (length ts) with
    | Some (ti, i) => exists r, newest ts d key = Some r /\ entry ((ts ++ [t]) !!! ti) i ids0 = row_entry ids0 r /\
                      (ti < S (length ts))%nat
    | None => newest ts d key = None end).
  { destruct (lookup_loop ts d key (length ts)) as [[ti i]|]; [|done].
    destruct IH as (r & Hr & He & Hl). exists r. rewrite lookup_total_app_l by done. auto. }
  unfold table_get. destruct (find t key) as [i|]; cbn; [|exact Hrest].
  destruct (bool_decide _) eqn:E; [exact Hrest|].
  eexists. split; [done|]. rewrite Ht. split; [done|lia].
Qed.

(** What every reader of the index sees. *)
Lemma entry_of_newest p h :
  entry_of p h = row_entry (ids p) <$> newest (tables p) (dead p) (HashBytes h).
Proof.
  unfold entry_of, sn_lookup. cbn.
  pose proof (lookup_newest (tables p) (dead p) (HashBytes h) (ids p)) as Hl.
  destruct (lookup_loop _ _ _ _) as [[ti i]|]; cbn.
  - destruct Hl as (r & -> & He & _). by rewrite He.
  - by rewrite Hl.
Qed.

Lemma newest_some ts d key r :
  newest ts d key = Some r -> t_pack r.1 ∉ d /\ exists t, t ∈ ts /\ table_get t key = Some r.
Proof.
  induction ts as [|t ts IH] using rev_ind; [done|]. rewrite newest_snoc.
  destruct (table_get t key) as [r'|] eqn:Et; [destruct (bool_decide _) eqn:E|].
  - intros Hr. destruct (IH Hr) as (? & t' & ? & ?). split; [done|]. exists t'. set_solver.
  - intros [= <-]. b2p. split; [done|]. exists t. set_solver.
  - intros Hr. destruct (IH Hr) as (? & t' & ? & ?). split; [done|]. exists t'. set_solver.
Qed.

Lemma newest_app ts ts' d key :
  newest (ts ++ ts') d key =
  match newest ts' d key with Some r => Some r | None => newest ts d key end.
Proof.
  induction ts' as [|t ts' IH] using rev_ind; [by rewrite app_nil_r|].
  rewrite app_assoc, !newest_snoc, IH.
  destruct (table_get t key) as [r|]; [destruct (bool_decide _)|]; done.
Qed.

Lemma newest_single t d key :
  newest [t] d key =
  match table_get t key with Some r => if bool_decide (t_pack r.1 ∈ d) then None else Some r | None => None end.
Proof. apply (newest_snoc []). Qed.

Lemma length_live_row {A} (d : gset Z) (rs : list tableRec) (g : nat -> A) :
  (length (concat (imap (fun i r => if bool_decide (t_pack r ∈ d) then [] else [g i]) rs)) <= length rs)%nat.
Proof.
  revert g. induction rs as [|r rs IH]; intros g; [done|]. rewrite imap_cons. cbn [concat].
  rewrite length_app. specialize (IH (g ∘ S)).
  etransitivity; [apply Nat.add_le_mono_l, IH|]. destruct (bool_decide _); simpl; lia.
Qed.

Lemma length_live_refs ts d : (length (live_refs ts d) <= total_recs ts)%nat.
Proof.
  unfold live_refs, total_recs.
  assert (Hgen : forall (f : nat -> nat) l,
    (length (concat (imap (fun ti t => concat (imap (fun i r =>
      if bool_decide (t_pack r ∈ d) then [] else [(f ti, i)]) (recs t))) l)) <=
     sum_list (len <$> l))%nat); [|apply (Hgen id)].
  intros f l. revert f. induction l as [|t l IH]; intros f; [done|].
  rewrite imap_cons. cbn [concat fmap list_fmap]. rewrite length_app. simpl.
  apply Nat.add_le_mono; [apply (length_live_row d (recs t) (fun i => (f 0%nat, i)))|apply (IH (f ∘ S))].
Qed.

(** ** Merging keeps what a reader sees *)

Lemma merge_packs n ts d hs :
  Forall (wf_table hs) ts -> Forall (packs_below n) ts -> Z.of_nat (total_recs ts) < 2 ^ 31 ->
  wf_table hs (mergeTables hs ts d) /\ packs_below n (mergeTables hs ts d) /\
  forall key, newest [mergeTables hs ts d] ∅ key = newest ts d key.
Proof.
  intros Hwf Hp Hn. pose proof (length_live_refs ts d).
  destruct (mergeTables_spec hs ts d Hwf) as [Hm Hg]; [lia|].
  split; [done|]. split.
  - intros key r Hr. rewrite Hg in Hr. apply newest_some in Hr as (_ & t & Ht & Hr).
    rewrite Forall_forall in Hp. by apply (Hp t Ht) in Hr.
  - intros key. rewrite newest_single, Hg. destruct (newest ts d key) as [r|]; [|done].
    rewrite bool_decide_false; [done|]. set_solver.
Qed.

(** ** [register] *)

Lemma ids_mono (p : packIndex) id r :
  0 <= t_pack r.1 < Z.of_nat (length (ids p)) -> row_entry (ids p ++ [id]) r = row_entry (ids p) r.
Proof.
  intros Hr. unfold row_entry. f_equal. rewrite lookup_total_app_l by lia. done.
Qed.

Lemma newest_below p key r n :
  Forall (packs_below n) (tables p) -> newest (tables p) (dead p) key = Some r -> 0 <= t_pack r.1 < n.
Proof.
  intros Hp Hr. apply newest_some in Hr as (_ & t & Ht & Hr). rewrite Forall_forall in Hp.
  by apply (Hp t Ht) in Hr.
Qed.

Lemma packNum_spec p id num p' :
  wf_index p -> Z.of_nat (length (ids p)) < 2 ^ 32 - 1 -> packNum id p = (num, p') ->
  wf_index p' /\ 0 <= num < Z.of_nat (length (ids p')) /\ ids p' !!! Z.to_nat num = id /\
  tables p' = tables p /\ dead p' = dead p /\ p_hashSize p' = p_hashSize p /\
  (idNum p !! id = Some num \/ (idNum p !! id = None /\ num = Z.of_nat (length (ids p)))) /\
  (length (ids p') <= S (length (ids p)))%nat /\
  (forall h, entry_of p' h = entry_of p h).
Proof.
  intros Hwf Hn. unfold packNum. destruct (idNum p !! id) as [n|] eqn:E; intros [= <- <-].
  - pose proof (proj1 (wi_idNum p Hwf id n) E) as [Hi Hz]. pose proof (lookup_lt_Some _ _ _ Hi).
    split; [done|]. split; [lia|]. split; [by apply list_lookup_total_correct|].
    repeat split; auto.
  - assert (Hu : u32 (Z.of_nat (length (ids p))) = Z.of_nat (length (ids p)))
      by (unfold u32; apply Z.mod_small; lia).
    rewrite Hu. cbn -[entry_of]. rewrite length_app. cbn -[entry_of].
    split; [destruct Hwf as [Ht Hp Hid Hde Hc]; split; cbn; auto|].
    + eapply Forall_impl; [exact Hp|]. intros t Hb key r Hr. apply Hb in Hr. rewrite length_app. cbn. lia.
    + intros id' n. destruct (decide (id' = id)) as [->|Hne].
      * rewrite lookup_insert_eq. split.
        -- intros [= <-]. rewrite Nat2Z.id, lookup_app_r, Nat.sub_diag by lia. split; [done|lia].
        -- intros [Hl Hz]. destruct (decide (Z.to_nat n < length (ids p))%nat) as [Hlt|Hge].
           ++ rewrite lookup_app_l in Hl by done. assert (idNum p !! id = Some n) by (by apply Hid). congruence.
           ++ pose proof (lookup_lt_Some _ _ _ Hl) as Hlt. rewrite length_app in Hlt. cbn in Hlt. f_equal. lia.
      * rewrite lookup_insert_ne by done. rewrite Hid. split; intros [Hl Hz]; split; auto.
        -- rewrite lookup_app_l; [done|]. by eapply lookup_lt_Some.
        -- destruct (decide (Z.to_nat n < length (ids p))%nat) as [Hlt|Hge]; [by rewrite lookup_app_l in Hl|].
           rewrite lookup_app_r in Hl by lia. destruct (Z.to_nat n - length (ids p))%nat; [|done].
           injection Hl as ->. done.
    + intros m Hm. rewrite length_app. cbn. apply Hde in Hm. lia.
    + split; [lia|]. split; [by rewrite Nat2Z.id, lookup_total_app_r, Nat.sub_diag by lia|].
      do 3 (split; [done|]). split; [by right|]. split; [lia|].
      intros h. rewrite !entry_of_newest. cbn [tables dead ids].
      destruct (newest (tables p) (dead p) (HashBytes h)) as [r|] eqn:Er; [|done]. cbn [fmap option_fmap option_map].
      rewrite ids_mono; [done|].
      eapply newest_below; [apply Hwf|exact Er].
Qed.

(** Appending a table puts its rows above everything, merged or not. *)
Lemma addTable_spec p t :
  wf_index p -> wf_table (p_hashSize p) t -> packs_below (Z.of_nat (length (ids p))) t ->
  Z.of_nat (total_recs (tables p) + len t) < 2 ^ 31 ->
  let p' := addTable t p in
  wf_index p' /\ ids p' = ids p /\ p_hashSize p' = p_hashSize p /\ idNum p' = idNum p /\
  forall key, newest (tables p') (dead p') key =
    match table_get t key with
    | Some r => if bool_decide (t_pack r.1 ∈ dead p) then newest (tables p) (dead p) key else Some r
    | None => newest (tables p) (dead p) key
    end.
Proof.
  intros Hwf Ht Hp Hn. destruct Hwf as [Hts Hps Hid Hde Hc]. unfold addTable.
  destruct (len t =? 0)%nat eqn:E; b2p.
  { cbv zeta. split; [by split|]. repeat split. intros key. unfold table_get.
    destruct (find t key) as [i|] eqn:Ef; [|done]. apply find_spec in Ef; [|apply Ht].
    rewrite keys_lookup in Ef. unfold len in E. rewrite E in Ef. done. }
  assert (Hts' : Forall (wf_table (p_hashSize p)) (tables p ++ [t])) by (apply Forall_app; auto).
  assert (Hps' : Forall (packs_below (Z.of_nat (length (ids p)))) (tables p ++ [t])) by (apply Forall_app; auto).
  assert (Htot : Z.of_nat (total_recs (tables p ++ [t])) < 2 ^ 31).
  { unfold total_recs in *. rewrite fmap_app, sum_list_with_app. simpl. lia. }
  destruct (maxPackTables <? _)%nat eqn:El; b2p; cbv zeta; cbn.
  - destruct (merge_packs (Z.of_nat (length (ids p))) (tables p ++ [t]) (dead p) (p_hashSize p) Hts' Hps' Htot)
      as (Hm & Hmp & Hmn).
    split; [split; cbn; auto; [set_solver|unfold maxPackTables; lia]|]. repeat split.
    intros key. rewrite Hmn. apply newest_snoc.
  - split; [split; cbn; auto|]. repeat split. intros key. apply newest_snoc.
Qed.

(** Lookups of a table whose pack is removed from the dead set and is not in it. *)
Lemma set_dead_same p num : num ∉ dead p -> dead p ∖ {[num]} = dead p.
Proof. intros Hn. apply leibniz_equiv. set_solver. Qed.

Definition cue_entry (id : bytes) (r : cueRecord) : packEntry :=
  {| e_id := id; e_typ := c_typ r; e_codec := c_codec r; e_offset := c_offset r; e_stored := c_stored r;
     e_raw := c_raw r; e_base := c_base r |}.

(** The last record of [rs] for the hash [h]. *)
Definition last_record (rs : list cueRecord) (h : Hash) : option cueRecord :=
  last (filter (fun r => HashBytes (c_hash r) = HashBytes h) rs).

Lemma set_maps_wf p sz lc : wf_index p -> wf_index (set_maps sz lc p).
Proof. intros [H1 H2 H3 H4 H5]. by split. Qed.

Lemma set_maps_entry p sz lc h : entry_of (set_maps sz lc p) h = entry_of p h.
Proof. done. Qed.

Lemma wf_index_dead p d : d ⊆ dead p -> wf_index p -> wf_index (set_tables (tables p) d p).
Proof. intros Hd [? ? ? ? ?]. split; cbn; auto. Qed.

(** [id] is dead, and a table still has a row of it for [h]: writing it again
    uncovers that row, whatever is registered. *)
Definition uncovers (p : packIndex) (id : bytes) (h : Hash) : Prop :=
  exists n t r, idNum p !! id = Some n /\ n ∈ dead p /\ t ∈ tables p /\ table_get t (HashBytes h) = Some r /\ t_pack r.1 = n.

Lemma newest_revive ts d n key :
  (forall t r, t ∈ ts -> table_get t key = Some r -> t_pack r.1 = n -> n ∉ d) -> newest ts (d ∖ {[n]}) key = newest ts d key.
Proof.
  induction ts as [|t ts IH] using rev_ind; intros Hno; [done|]. rewrite !newest_snoc.
  rewrite IH by (intros t' r' Ht'; apply Hno; set_solver). destruct (table_get t key) as [r|] eqn:Er; [|done].
  specialize (Hno t r ltac:(set_solver) Er). rewrite (bool_decide_ext (t_pack r.1 ∈ d ∖ {[n]}) (t_pack r.1 ∈ d)); [done|].
  destruct (decide (t_pack r.1 = n)) as [He|]; [|set_solver]. specialize (Hno He). rewrite He. set_solver.
Qed.

Lemma register_spec p id rs bin :
  wf_index p -> fits p (length rs) -> Forall (wf_cue (p_hashSize p)) rs ->
  let p' := register id rs bin p in
  wf_index p' /\
  forall h, match last_record rs h with
            | Some r => entry_of p' h = Some (cue_entry id r)
            | None => uncovers p id h \/ entry_of p' h = entry_of p h
            end.
Proof.
  intros Hwf [Hn Hni] Hrs. unfold register.
  destruct (packNum id p) as [num p1] eqn:Ep.
  destruct (packNum_spec p id num p1 Hwf Hni Ep) as (Hwf1 & Hnum & Hid & Ht & Hd & Hsz & Hcase & Hlen & He).
  set (p2 := set_tables (tables p1) (dead p1 ∖ {[num]}) p1).
  assert (Hwf2 : wf_index p2) by (apply wf_index_dead; [set_solver|done]).
  cbv zeta. change (p_hashSize p2) with (p_hashSize p1).
  assert (Hrs1 : Forall (wf_cue (p_hashSize p1)) rs) by (by rewrite Hsz).
  assert (Hnr : Z.of_nat (length rs) < 2 ^ 31) by lia.
  destruct (newPackTable_spec (p_hashSize p1) num rs Hrs1 Hnr) as [Hwt Hget].
  pose proof (len_buildTable (p_hashSize p1) (length rs)
    (fun i => take (p_hashSize p1) (drop (i * p_hashSize p1) (concat (HashBytes ∘ c_hash <$> rs))))
    (fun i => {| ts_hash := take (p_hashSize p1) (drop (i * p_hashSize p1) (concat (HashBytes ∘ c_hash <$> rs)));
                 ts_rec := cue_row num (rs !!! i); ts_base := c_base (rs !!! i) |})) as Hlt.
  fold (newPackTable (p_hashSize p1) num rs) in Hlt.
  set (t := newPackTable (p_hashSize p1) num rs) in *. clearbody t.
  destruct (addTable_spec p2 t) as (Hwf3 & Hids & _ & _ & Hnew); auto.
  { intros key r Hr. rewrite Hget in Hr. destruct (last _); [|done]. injection Hr as <-. done. }
  { cbn. rewrite Ht. lia. }
  split; [by apply set_maps_wf|].
  intros h. rewrite set_maps_entry, entry_of_newest, Hnew, Hids, Hget. cbn [dead p2 set_tables].
  unfold last_record. destruct (last (filter _ rs)) as [r|]; cbn.
  { rewrite bool_decide_false by set_solver. cbn. unfold row_entry, cue_entry. cbn. by rewrite Hid. }
  rewrite <-(He h), entry_of_newest, Hd. destruct (decide (num ∈ dead p)) as [Hin|Hin].
  2:{ right. rewrite newest_revive; [done|]. by intros. }
  destruct Hcase as [Hs|[_ ->]]; [|apply Hwf in Hin; lia].
  destruct (decide (Exists (fun t => (t_pack ∘ fst) <$> table_get t (HashBytes h) = Some num) (tables p))) as [Hex|Hex].
  - apply Exists_exists in Hex as (t' & Ht' & (r & Hr & Hp)%fmap_Some). left. by exists num, t', r.
  - right. rewrite Ht. rewrite newest_revive; [done|]. intros t' r Ht' Hr Hp. destruct Hex. apply Exists_exists. exists t'. by rewrite Hr, <-Hp.
Qed.

(** ** [deregister] *)

Lemma drop_pack_spec num ts kept shared :
  drop_pack num ts = (kept, shared) ->
  kept = filter (fun t => pack t <> num) ts /\
  (shared = false -> Forall (fun t => 0 <= pack t) kept).
Proof.
  revert kept shared. induction ts as [|t ts IH] using rev_ind; intros kept shared; unfold drop_pack.
  { intros [= <- <-]. by split. }
  rewrite fold_left_app. cbn. fold (drop_pack num ts).
  destruct (drop_pack num ts) as [k0 s0]. destruct (IH _ _ eq_refl) as [Hk Hs].
  rewrite filter_app, filter_cons, filter_nil.
  destruct (Z.eqb_spec (pack t) num) as [Heq|Hne]; intros [= <- <-].
  - rewrite decide_False by lia. rewrite app_nil_r. by split.
  - rewrite decide_True by lia. split; [by rewrite Hk|].
    intros Ho. b2p. apply Forall_app. split; [by apply Hs|]. constructor; [done|constructor].
Qed.

Lemma row_pack hs t key r :
  wf_table hs t -> table_get t key = Some r -> pack t <> -1 -> t_pack r.1 = pack t.
Proof.
  intros Hwf Hr Hp. unfold table_get in Hr. destruct (find t key) as [i|] eqn:Ef; [|done].
  injection Hr as <-. cbn. apply find_spec in Ef; [|apply Hwf]. rewrite keys_lookup in Ef.
  destruct (Nat.ltb_spec i (length (recs t))) as [Hi|]; [|done].
  pose proof (wt_pack _ _ Hwf Hp) as Hall. rewrite Forall_lookup in Hall.
  destruct (lookup_lt_is_Some_2 _ _ Hi) as [x Hx]. rewrite (list_lookup_total_correct _ _ _ Hx). by eapply Hall.
Qed.

(** Dropping the tables of one pack and marking it dead hides exactly its rows. *)
Lemma newest_drop hs ts d num key kept shared :
  Forall (wf_table hs) ts -> 0 <= num -> drop_pack num ts = (kept, shared) ->
  let r' := newest kept (if shared : bool then {[num]} ∪ d else d) key in
  (forall r, r' = Some r -> t_pack r.1 <> num /\ t_pack r.1 ∉ d) /\
  (forall r, newest ts d key = Some r -> t_pack r.1 <> num -> r' = Some r).
Proof.
  intros Hwf Hnum Hd. apply drop_pack_spec in Hd as [-> Hs].
  set (d' := if shared then _ else _).
  assert (Hagree : forall t r, t ∈ filter (fun t => pack t <> num) ts -> table_get t key = Some r ->
            (t_pack r.1 ∈ d' <-> t_pack r.1 = num \/ t_pack r.1 ∈ d) /\ (shared = false -> t_pack r.1 <> num)).
  { intros t r Ht Hr. pose proof Ht as Ht'. apply list_elem_of_filter in Ht' as [Hp Hin].
    rewrite Forall_forall in Hwf. pose proof (Hwf t Hin) as Hwt.
    assert (Hne : shared = false -> t_pack r.1 <> num).
    { intros Hf. specialize (Hs Hf). rewrite Forall_forall in Hs. specialize (Hs t Ht).
      rewrite (row_pack hs t key r) by (done || lia). done. }
    split; [|done]. unfold d'. destruct shared; [set_solver|]. split; [auto|]. intros [|]; [|done].
    by destruct Hne. }
  cbv zeta. revert Hagree. induction ts as [|t ts IH] using rev_ind; intros Hagree; [done|].
  apply Forall_app in Hwf as [Hwf [Hwt _]%Forall_cons]. rewrite newest_snoc.
  rewrite filter_app, filter_cons, filter_nil in Hagree, Hs |- *.
  assert (Hs' : shared = false -> Forall (fun t => 0 <= pack t) (filter (fun t => pack t <> num) ts)).
  { intros Hf. specialize (Hs Hf). by apply Forall_app in Hs as [? _]. }
  specialize (IH Hwf Hs' (fun t r Ht => Hagree t r ltac:(set_solver))).
  destruct (decide (pack t <> num)) as [Hp|Hp].
  - rewrite newest_snoc. destruct (table_get t key) as [r|] eqn:Er; [|exact IH].
    destruct (Hagree t r) as [Ha _]; [set_solver|done|].
    destruct (bool_decide (t_pack r.1 ∈ d')) eqn:E1; b2p.
    + apply Ha in E1. destruct (bool_decide (t_pack r.1 ∈ d)) eqn:E2; b2p; [exact IH|].
      destruct E1 as [E1|]; [|done]. split; [apply IH|]. by intros r0 [= <-].
    + rewrite bool_decide_false by (intros ?; apply E1, Ha; by right). split.
      * intros r0 [= <-]. split; intros ?; apply E1, Ha; auto.
      * by intros r0 [= <-].
  - rewrite app_nil_r. apply dec_stable in Hp. destruct (table_get t key) as [r|] eqn:Er; [|exact IH].
    assert (Hrp : t_pack r.1 = num) by (rewrite (row_pack hs t key r); (done || lia)).
    destruct (bool_decide _); [exact IH|]. split; [apply IH|]. by intros r0 [= <-].
Qed.

Lemma entry_of_id p h e :
  wf_index p -> entry_of p h = Some e ->
  exists n, ids p !! Z.to_nat n = Some (e_id e) /\ 0 <= n < Z.of_nat (length (ids p)) /\
  exists r, newest (tables p) (dead p) (HashBytes h) = Some r /\ t_pack r.1 = n /\ e = row_entry (ids p) r.
Proof.
  intros Hwf. rewrite entry_of_newest. destruct (newest _ _ _) as [r|] eqn:Er; [|done]. intros [= <-].
  pose proof (newest_below p _ r _ (wi_packs _ Hwf) Er) as Hb. exists (t_pack r.1).
  destruct (lookup_lt_is_Some_2 (ids p) (Z.to_nat (t_pack r.1))) as [x Hx]; [lia|].
  split; [|split; [done|eauto]]. cbn. by rewrite (list_lookup_total_correct _ _ _ Hx).
Qed.

Lemma drop_pack_sub num ts kept shared : drop_pack num ts = (kept, shared) -> kept ⊆ ts.
Proof. intros Hd. apply drop_pack_spec in Hd as [-> _]. intros t Ht. by apply list_elem_of_filter in Ht as [_ ?]. Qed.

Lemma deregister_wf p id : wf_index p -> wf_index (deregister id p).
Proof.
  intros Hwf. unfold deregister. destruct (idNum p !! id) as [num|] eqn:E; [|by destruct Hwf; split].
  destruct (drop_pack num (tables p)) as [kept shared] eqn:Ed.
  pose proof (drop_pack_sub _ _ _ _ Ed) as Hsub. apply drop_pack_spec in Ed as [Hk _].
  destruct Hwf as [Ht Hp Hid Hde Hc]. pose proof (proj1 (Hid id num) E) as [Hl Hz].
  apply lookup_lt_Some in Hl. split; cbn; auto.
  - rewrite Forall_forall in Ht |- *. auto.
  - rewrite Forall_forall in Hp |- *. auto.
  - destruct shared; [|done]. intros n [->%elem_of_singleton|Hn]%elem_of_union; [lia|auto].
  - rewrite Hk. etransitivity; [apply length_filter|done].
Qed.

(** ** The cold build *)

Lemma total_recs_app ts ts' : total_recs (ts ++ ts') = (total_recs ts + total_recs ts')%nat.
Proof. unfold total_recs. by rewrite fmap_app, sum_list_with_app. Qed.

Lemma len_mergeTables hs ts d : (len (mergeTables hs ts d) <= total_recs ts)%nat.
Proof. unfold mergeTables. etransitivity; [apply len_buildTable|apply length_live_refs]. Qed.

(** The one table the cold tables are merged into shows what they show. *)
Lemma cold_merge n hs cold key :
  Forall (wf_table hs) cold -> Forall (packs_below n) cold -> Z.of_nat (total_recs cold) < 2 ^ 31 ->
  let cold' := if (1 <? length cold)%nat then [mergeTables hs cold ∅] else cold in
  Forall (wf_table hs) cold' /\ Forall (packs_below n) cold' /\ (total_recs cold' <= total_recs cold)%nat /\
  (length cold' <= 1)%nat /\ newest cold' ∅ key = newest cold ∅ key.
Proof.
  intros Hwf Hp Hn. destruct (1 <? length cold)%nat eqn:E; b2p; cbv zeta.
  - destruct (merge_packs n cold ∅ hs Hwf Hp Hn) as (Hm & Hmp & Hg).
    split; [by constructor|]. split; [by constructor|]. split; [|by split].
    unfold total_recs at 1. cbn. pose proof (len_mergeTables hs cold ∅). lia.
  - repeat split; auto.
Qed.

Lemma newest_no_dead ts d key :
  (forall t r, t ∈ ts -> table_get t key = Some r -> t_pack r.1 ∉ d) -> newest ts d key = newest ts ∅ key.
Proof.
  induction ts as [|t ts IH] using rev_ind; [done|]. intros Hn. rewrite !newest_snoc.
  rewrite IH by (intros t' r Ht'; apply Hn; set_solver).
  destruct (table_get t key) as [r|] eqn:Er; [|done]. rewrite !bool_decide_false; [done|set_solver|].
  apply (Hn t); [set_solver|done].
Qed.

Lemma adopt_cold_spec p cold csizes :
  wf_index p -> built p = false -> dead p = ∅ ->
  Forall (wf_table (p_hashSize p)) cold -> Forall (packs_below (Z.of_nat (length (ids p)))) cold ->
  Z.of_nat (total_recs cold + total_recs (tables p)) < 2 ^ 31 -> (length (tables p) < maxPackTables)%nat ->
  let p' := adopt_cold cold csizes p in
  wf_index p' /\ built p' = true /\ ids p' = ids p /\
  forall h, entry_of p' h = match entry_of p h with
                            | Some e => Some e
                            | None => row_entry (ids p) <$> newest cold ∅ (HashBytes h)
                            end.
Proof.
  intros Hwf Hb Hd Hcw Hcp Hn Hc. unfold adopt_cold. rewrite Hb.
  assert (Hcn : Z.of_nat (total_recs cold) < 2 ^ 31) by lia.
  pose proof (fun key => cold_merge _ _ cold key Hcw Hcp Hcn) as Hm. cbv zeta in Hm.
  set (cold' := if (1 <? length cold)%nat then _ else _) in *.
  destruct (Hm []) as (Hw' & Hp' & Ht' & Hl' & _). destruct Hwf as [H1 H2 H3 H4 H5].
  cbn -[Nat.ltb maxPackTables]. rewrite (proj2 (Nat.ltb_ge _ _)) by (rewrite length_app; lia). cbv zeta.
  split; [|split; [done|split; [done|]]].
  - split; cbn; auto; [by apply Forall_app|by apply Forall_app|]. rewrite length_app. lia.
  - intros h. rewrite !entry_of_newest. cbn. rewrite Hd, newest_app.
    destruct (newest (tables p) ∅ _) as [r|]; [done|]. cbn. by destruct (Hm (HashBytes h)) as (_ & _ & _ & _ & ->).
Qed.

(** ** The order of an iteration *)

Lemma bytes_cmp_lt_trans a b c : bytes_cmp a b <> Gt -> bytes_cmp b c <> Gt ->
  match bytes_cmp a b, bytes_cmp b c with
  | Eq, x => bytes_cmp a c = x
  | x, Eq => bytes_cmp a c = x
  | _, _ => bytes_cmp a c = Lt
  end.
Proof.
  intros H1 H2. destruct (bytes_cmp a b) eqn:E1; [| |done].
  - apply bytes_cmp_eq in E1 as ->. by destruct (bytes_cmp b c).
  - destruct (bytes_cmp b c) eqn:E2; [| |done].
    + by apply bytes_cmp_eq in E2 as <-.
    + by apply (bytes_lt_trans a b c).
Qed.

Lemma order_leb_total sn a b : order_leb sn a b = true \/ order_leb sn b a = true.
Proof.
  unfold order_leb. set (x := sn_ids sn !!! _). set (y := sn_ids sn !!! _).
  rewrite (bytes_cmp_antisym x y). destruct (bytes_cmp x y); cbn; auto.
  set (i := t_offset _). set (j := t_offset _). destruct (Z.leb_spec i j), (Z.leb_spec j i); auto. lia.
Qed.

Lemma order_leb_trans sn a b c : order_leb sn a b = true -> order_leb sn b c = true -> order_leb sn a c = true.
Proof.
  unfold order_leb. set (x := sn_ids sn !!! _). set (y := sn_ids sn !!! _). set (z := sn_ids sn !!! _).
  intros H1 H2. pose proof (bytes_cmp_lt_trans x y z) as Ht.
  destruct (bytes_cmp x y) eqn:E1, (bytes_cmp y z) eqn:E2; try done; rewrite Ht by done; try done.
  b2p. apply Z.leb_le. lia.
Qed.
End packindex.

(** ** Properties *)

Section properties.
Context `{GoGit}.

(** C13: registering a pack makes every one of its objects visible at once, with
    the last record of a repeated hash, over whatever the index held before, and
    whether or not the tables had to be merged: also when the pack has failed
    before and is being written again. It changes no other lookup, except that of an
    object of which the failed pack still has a row in a merged table and of which
    the pack now registered, under the same name, has no record. *)
Theorem register_lookup (p : packIndex) (id bin : bytes) (rs : list cueRecord) (h : Hash) :
  wf_index p -> fits p (length rs) -> Forall (wf_cue (p_hashSize p)) rs ->
  wf_index (register id rs bin p) /\
  match last_record rs h with
  | Some r => entry_of (register id rs bin p) h = Some (cue_entry id r)
  | None => uncovers p id h \/ entry_of (register id rs bin p) h = entry_of p h
  end.
Proof.
  intros Hwf Hf Hrs. destruct (register_spec p id rs bin Hwf Hf Hrs) as [Hw He]. split; [exact Hw|apply He].
Qed.

(** After [deregister] no lookup answers with the failed pack, and every
    object that was being read from another pack still is. *)
Theorem deregister_lookup (p : packIndex) (id : bytes) (h : Hash) :
  wf_index p ->
  wf_index (deregister id p) /\
  (forall e, entry_of (deregister id p) h = Some e -> e_id e <> id) /\
  (forall e, entry_of p h = Some e -> e_id e <> id -> entry_of (deregister id p) h = Some e).
Proof.
  intros Hwf. split; [by apply deregister_wf|].
  assert (Hno : idNum p !! id = None -> forall e, entry_of p h = Some e -> e_id e <> id).
  { intros Hn e He Heq. apply entry_of_id in He as (n & Hi & Hb & _); [|done].
    rewrite Heq in Hi. pose proof (proj2 (wi_idNum p Hwf id n) (conj Hi (proj1 Hb))). congruence. }
  pose proof (deregister_wf p id Hwf) as Hwf'. unfold deregister in *. destruct (idNum p !! id) as [num|] eqn:E; [|by split; [apply Hno|]].
  pose proof (proj1 (wi_idNum p Hwf id num) E) as [Hnum Hz].
  destruct (drop_pack num (tables p)) as [kept shared] eqn:Ed. rewrite set_maps_entry in *.
  destruct (newest_drop (p_hashSize p) (tables p) (dead p) num (HashBytes h) kept shared (wi_tables p Hwf) Hz Ed) as [Hn1 Hn2].
  rewrite !entry_of_newest. cbn [tables dead ids set_tables]. split.
  - intros e He. destruct (newest kept _ _) as [r|] eqn:Er; [|done]. injection He as <-.
    destruct (Hn1 r eq_refl) as [Hne _]. cbn. intros Heq.
    assert (Hb : 0 <= t_pack r.1 < Z.of_nat (length (ids p))).
    { apply newest_some in Er as (_ & t & Ht & Hr). apply (drop_pack_sub _ _ _ _ Ed) in Ht.
      pose proof (wi_packs p Hwf) as Hp. rewrite Forall_forall in Hp. by apply (Hp t Ht) in Hr. }
    destruct (lookup_lt_is_Some_2 (ids p) (Z.to_nat (t_pack r.1))) as [x Hx]; [lia|].
    rewrite (list_lookup_total_correct _ _ _ Hx) in Heq. subst x.
    pose proof (proj2 (wi_idNum p Hwf id (t_pack r.1)) (conj Hx (proj1 Hb))). congruence.
  - intros e He Hne. destruct (newest (tables p) (dead p) _) as [r|] eqn:Er; [|done]. injection He as <-.
    rewrite (Hn2 r eq_refl); [done|]. intros Heq. apply Hne. cbn. rewrite Heq.
    by apply list_lookup_total_correct.
Qed.

(** An iteration hands out every live record exactly once, one pack at a
    time and in offset order within a pack. *)
Theorem order_by_pack (sn : packSnapshot) :
  sn_order sn ≡ₚ live_refs (sn_tables sn) (sn_dead sn) /\
  StronglySorted (fun a b =>
    let ra := recs (sn_tables sn !!! a.1) !!! a.2 in
    let rb := recs (sn_tables sn !!! b.1) !!! b.2 in
    let ia := sn_ids sn !!! Z.to_nat (t_pack ra) in
    let ib := sn_ids sn !!! Z.to_nat (t_pack rb) in
    bytes_lt ia ib \/ (ia = ib /\ t_offset ra <= t_offset rb)) (sn_order sn).
Proof.
  split; [apply stable_sort_perm|].
  eapply StronglySorted_impl; [|apply (stable_sort_sorted (order_leb sn) (order_leb_total sn) (order_leb_trans sn))].
  intros a b. unfold order_leb, bytes_lt. cbv zeta.
  destruct (bytes_cmp _ _) eqn:E; [|by left|done]. apply bytes_cmp_eq in E. intros Hl. b2p. by right.
Qed.
End properties.

(** ** Witnesses *)

Definition one_rec (n off : Z) : @cueRecord toy_git :=
  {| c_hash := Some (repeat (bz n) 20); c_typ := BlobObject; c_codec := codecRaw; c_offset := off;
     c_stored := 5; c_raw := 5; c_base := ZeroHash |}.

Lemma empty_wf : wf_index (newPackIndex 20 : @packIndex toy_git).
Proof.
  split; cbn; [constructor|constructor| |set_solver|unfold maxPackTables; lia].
  intros id n. rewrite lookup_empty. split; [done|]. by intros [? _].
Qed.

Lemma one_rec_wf n off : Forall (wf_cue 20) [one_rec n off].
Proof. constructor; [|constructor]. split; [by vm_compute|by left]. Qed.

Definition index_one : @packIndex toy_git := register (bs "p1") [one_rec 7 0] (bs "/tmp/p1") (newPackIndex 20).

Lemma index_one_wf : wf_index index_one.
Proof.
  apply register_spec; [exact empty_wf|split; reflexivity|apply one_rec_wf].
Qed.

(** Two packs with an object each, then as many others as a merge takes; then the
    upload of the second one fails, which leaves its rows in the merged table. *)
Definition filler (n : nat) : list (@cueRecord toy_git) := [one_rec (Z.of_nat n + 100) 0].
Definition filled (upto : nat) (p : @packIndex toy_git) : packIndex :=
  fold_left (fun p n => register (bz (Z.of_nat n) :: bs "f") (filler n) [] p) (seq 0 upto) p.
Definition index_merged : @packIndex toy_git :=
  filled 15 (register (bs "p2") [one_rec 7 0] [] index_one).
Definition index_failed : @packIndex toy_git := deregister (bs "p2") index_merged.

(** What a registration needs of an index of the witnesses. *)
Definition roomy_b (n : nat) (p : @packIndex toy_git) : bool :=
  (Z.of_nat (total_recs (tables p) + n) <? 2 ^ 31) && (Z.of_nat (length (ids p)) <? 2 ^ 32 - 1) && (p_hashSize p =? 20)%nat.
Lemma roomy_b_ok n p : roomy_b n p = true -> fits p n /\ p_hashSize p = 20%nat.
Proof. unfold roomy_b, fits. intros [[H1 H2]%andb_true_iff H3]%andb_true_iff. b2p. done. Qed.
Lemma register_one_wf p id m off bin : wf_index p -> roomy_b 1 p = true -> wf_index (register id [one_rec m off] bin p).
Proof. intros Hwf [Hf Hs]%roomy_b_ok. apply register_spec; [exact Hwf|exact Hf|]. rewrite Hs. apply one_rec_wf. Qed.
Lemma filled_wf n p : wf_index p -> (forall k, (k < n)%nat -> roomy_b 1 (filled k p) = true) -> wf_index (filled n p).
Proof.
  intros Hwf. induction n as [|n IH]; intros Hr; [exact Hwf|]. unfold filled. rewrite seq_S, fold_left_app. cbn [fold_left].
  fold (filled n p). apply register_one_wf; [apply IH; intros k Hk; apply Hr; lia|apply Hr; lia].
Qed.
Lemma index_failed_wf : wf_index index_failed.
Proof.
  apply deregister_wf, filled_wf.
  - apply register_one_wf; [exact index_one_wf|vm_compute; reflexivity].
  - assert (Hb : forallb (fun k => roomy_b 1 (filled k (register (bs "p2") [one_rec 7 0] [] index_one))) (seq 0 15) = true) by (vm_compute; reflexivity).
    rewrite forallb_forall in Hb. intros k Hk. apply Hb, in_seq. lia.
Qed.

(** The failed pack written again, over the table that its old row is in. *)
Lemma register_lookup_witness :
  bool_decide (is_Some (entry_of index_failed (Some (repeat (bz 7) 20)))) = false /\ size (dead index_failed) = 1%nat /\
  entry_of (register (bs "p2") [one_rec 7 0] (bs "/tmp/p2") index_failed) (Some (repeat (bz 7) 20)) = Some (cue_entry (bs "p2") (one_rec 7 0)).
Proof.
  assert (Hb : roomy_b 1 index_failed = true) by (vm_compute; reflexivity). apply roomy_b_ok in Hb as [Hf Hs].
  split; [vm_compute; reflexivity|]. split.
  { vm_compute. reflexivity. }
  assert (Hc : Forall (wf_cue (p_hashSize index_failed)) [one_rec 7 0]) by (rewrite Hs; apply one_rec_wf).
  destruct (register_lookup index_failed (bs "p2") (bs "/tmp/p2") [one_rec 7 0] (Some (repeat (bz 7) 20)) index_failed_wf Hf Hc) as [_ He].
  exact He.
Defined.

Lemma deregister_lookup_witness :
  wf_index index_one /\
  forall e, entry_of (deregister (bs "p1") index_one) (Some (repeat (bz 7) 20)) = Some e -> e_id e <> bs "p1".
Proof.
  split; [exact index_one_wf|].
  exact (proj1 (proj2 (deregister_lookup index_one (bs "p1") (Some (repeat (bz 7) 20)) index_one_wf))).
Defined.

(** A merge keeps only the newest record of a hash.  When the pack of that
    record then fails to upload, the older copy, which is in the bucket, is no
    longer found: the object of pack [p1] is lost to this storer although
    [p1] is intact. *)
Example shadowed_by_failed_pack :
  match entry_of index_one (Some (repeat (bz 7) 20)), entry_of index_merged (Some (repeat (bz 7) 20)),
        entry_of (deregister (bs "p2") index_merged) (Some (repeat (bz 7) 20)) with
  | Some e1, Some e2, None => bool_decide (e_id e1 = bs "p1") && bool_decide (e_id e2 = bs "p2")
  | _, _, _ => false
  end = true.
Proof. vm_compute. reflexivity. Qed.
