(* ===== verification/Storer.v ===== *)
(** * The storer's state and its small requests (internal/storage/tigris)

    tigris.go (keys, [Scoped]), iter.go ([listKeys]), refs.go ([fetchSmall],
    [removeSimple]), index.go ([putBytes]), upload.go (the asynchronous
    uploader), packwriter.go ([packJob]) and the cold build of packindex.go. *)

From S2P Require Import Prelude GoLib S3 Codec Cue PackTable PackIndex.

Definition objectPrefix : bytes := bs "objects/".
Definition refPrefix : bytes := bs "refs/".
Definition packPrefix : bytes := bs "packs/".
Definition binSuffix : bytes := bs ".bin".
Definition cueSuffix : bytes := bs ".cue".
Definition shallowKey : bytes := bs "shallow".
Definition packedRefsKey : bytes := bs "packed-refs".
Definition metaType : bytes := bs "git-type".
Definition metaSize : bytes := bs "git-size".

(** What [New], the options and [Scoped] fix for the life of a storer.
    [c_pages] is how many listing requests the context allows before it is done. *)
Record config := { c_prefix : bytes; c_packedRefs : bool; c_hashLen : nat; c_pages : nat }.

(** [strings.Trim(prefix, "/")] *)
Fixpoint trim_left_byte (c : byte) (s : bytes) : bytes :=
  match s with
  | x :: s' => if bool_decide (x = c) then trim_left_byte c s' else s
  | [] => []
  end.
Definition trim_byte (c : byte) (s : bytes) : bytes :=
  rev (trim_left_byte c (rev (trim_left_byte c s))).
Definition slash : byte := bz 47.

Definition Scoped (p : bytes) (c : config) : config :=
  let p := trim_byte slash p in
  let p' := match p, c_prefix c with
            | [], _ => c_prefix c
            | _, [] => p ++ [slash]
            | _, _ => trim_suffix (c_prefix c) [slash] ++ [slash] ++ p ++ [slash]
            end in
  {| c_prefix := p'; c_packedRefs := c_packedRefs c; c_hashLen := c_hashLen c; c_pages := c_pages c |}.

Section storer.
Context `{GoGit, Zstd, S3}.

Definition keyOf (h : Hash) : bytes := objectPrefix ++ HashString h.
Definition refKey (n : bytes) : bytes := refPrefix ++ n.

(** ** State *)

Record refCache := {
  r_built : bool;
  r_etag : bytes;
  r_packed : gmap bytes reference;
  r_loose : gmap bytes reference;
}.
Record shallowCache := { s_built : bool; s_hashes : list Hash }.
Record pendingMeta := { pm_typ : bytes; pm_size : Z; pm_path : bytes }.

Inductive uploadJob :=
  | LooseJob (hash : Hash) (key typ : bytes) (size : Z) (path : bytes)
  | PackJob (id binPath cuePath : bytes) (binSize cueSize : Z).

(** [files]: the staging files; [queue]: the jobs handed to the bundler and not yet
    run; [copies]: the whole-pack downloads, finished or not, and their bytes so far. *)
Record St := {
  world : World;
  files : gmap bytes bytes;
  up_err : option goerr;
  pending : gmap Hash pendingMeta;
  queue : list uploadJob;
  packs : packIndex;
  refs : refCache;
  shallow : shallowCache;
  copies : gmap bytes (bool * bytes);
}.

Definition with_world (w : World) (s : St) : St :=
  {| world := w; files := files s; up_err := up_err s; pending := pending s; queue := queue s;
     packs := packs s; refs := refs s; shallow := shallow s; copies := copies s |}.
Definition with_files (f : gmap bytes bytes) (s : St) : St :=
  {| world := world s; files := f; up_err := up_err s; pending := pending s; queue := queue s;
     packs := packs s; refs := refs s; shallow := shallow s; copies := copies s |}.
Definition with_up (e : option goerr) (p : gmap Hash pendingMeta) (q : list uploadJob) (s : St) : St :=
  {| world := world s; files := files s; up_err := e; pending := p; queue := q;
     packs := packs s; refs := refs s; shallow := shallow s; copies := copies s |}.
Definition with_packs (p : packIndex) (s : St) : St :=
  {| world := world s; files := files s; up_err := up_err s; pending := pending s; queue := queue s;
     packs := p; refs := refs s; shallow := shallow s; copies := copies s |}.
Definition with_refs (r : refCache) (s : St) : St :=
  {| world := world s; files := files s; up_err := up_err s; pending := pending s; queue := queue s;
     packs := packs s; refs := r; shallow := shallow s; copies := copies s |}.
Definition with_shallow (c : shallowCache) (s : St) : St :=
  {| world := world s; files := files s; up_err := up_err s; pending := pending s; queue := queue s;
     packs := packs s; refs := refs s; shallow := c; copies := copies s |}.

Definition with_copies (d : gmap bytes (bool * bytes)) (s : St) : St :=
  {| world := world s; files := files s; up_err := up_err s; pending := pending s; queue := queue s;
     packs := packs s; refs := refs s; shallow := shallow s; copies := d |}.

Definition request {A} (f : World -> gores A * World) : io St A :=
  fun s => let '(r, w) := f (world s) in (r, with_world w s).

(** ** Small requests *)

(** The pages of a listing; the context ends it when its budget is spent. *)
Fixpoint list_pages (budget : nat) (prefix : bytes) (token : option bytes) : io St (list bytes) :=
  match budget with
  | O => fail (Wrapf (Sent CtxDone))
  | S budget' =>
      let! (keys, next) := wrapping (request (ListObjectsV2 prefix token)) in
      let keys := filter (fun k => k <> []) keys in
      match next with
      | None => ret keys
      | Some [] => ret keys
      | Some t => let! more := list_pages budget' prefix (Some t) in ret (keys ++ more)
      end
  end.

Definition listKeys (c : config) (prefix : bytes) : io St (list bytes) :=
  list_pages (c_pages c) prefix None.

Definition fetchSmallETag (key : bytes) : io St (bytes * bytes) :=
  try! r := request (GetObject key) in
  match r with
  | Ok out => match g_body out with Ok body => ret (body, g_etag out) | Err e => fail e end
  | Err e => if isNotFound e then fail (Sent ErrObjectNotFound) else fail e
  end.

Definition fetchSmall (key : bytes) : io St bytes :=
  let! (body, _) := fetchSmallETag key in ret body.

Definition removeSimple (key : bytes) : io St unit :=
  try! r := request (DeleteObject key) in
  match r with
  | Ok _ => ret tt
  | Err e => if isNotFound e then ret tt else fail (Wrapf e)
  end.

Definition putBytes (key body : bytes) : io St unit :=
  do! wrapping (request (PutObject key body ∅ Always)) in ret tt.

(** ** The uploader *)

Definition recordErr (e : goerr) : io St unit :=
  modify (fun s => match up_err s with
                   | None => with_up (Some e) (pending s) (queue s) s
                   | Some _ => s
                   end).

Definition registerPending (h : Hash) (typ : bytes) (size : Z) (path : bytes) : io St unit :=
  modify (fun s => with_up (up_err s)
    (<[h := {| pm_typ := typ; pm_size := size; pm_path := path |}]> (pending s)) (queue s) s).

Definition evict (h : Hash) (path : bytes) : io St unit :=
  modify (fun s => with_files (delete path (files s))
                     (with_up (up_err s) (delete h (pending s)) (queue s) s)).

Definition lookupPending (h : Hash) : io St (option pendingMeta) := gets (fun s => pending s !! h).

Definition openFile (path : bytes) : io St bytes :=
  fun s => match files s !! path with Some b => (Ok b, s) | None => (Err (Wrapf (Sent ErrNotExist)), s) end.
Definition removeFile (path : bytes) : io St unit := modify (fun s => with_files (delete path (files s)) s).

(** [packJob.putFile] *)
Definition putFile (localPath key : bytes) : io St unit :=
  let! body := openFile localPath in
  do! request (PutObject key body ∅ Always) in ret tt.

Definition binKey (c : config) (id : bytes) : bytes := c_prefix c ++ packPrefix ++ id ++ binSuffix.
Definition cueKey (c : config) (id : bytes) : bytes := c_prefix c ++ packPrefix ++ id ++ cueSuffix.

(** [looseJob.run] and [packJob.run] *)
Definition run_job (c : config) (j : uploadJob) : io St unit :=
  match j with
  | LooseJob _ key typ size path =>
      let! body := wrapping (openFile path) in
      do! wrapping (request (PutObject key body (<[metaType := typ]> {[metaSize := FormatInt size]}) Always)) in
      ret tt
  | PackJob id binPath cuePath _ _ =>
      do! wrapping (putFile binPath (binKey c id)) in
      do! wrapping (putFile cuePath (cueKey c id)) in
      ret tt
  end.

(** [looseJob.done] and [packJob.done] *)
Definition job_done (j : uploadJob) (err : option goerr) : io St unit :=
  match j with
  | LooseJob h _ _ _ path => evict h path
  | PackJob id binPath cuePath _ _ =>
      do! modify (fun s => with_packs (match err with
                                        | Some _ => deregister id (packs s)
                                        | None => markUploaded id (packs s)
                                        end) s) in
      do! removeFile binPath in
      removeFile cuePath
  end.

(** One job of [handleBundle]. *)
Definition handle_job (c : config) (j : uploadJob) : io St unit :=
  try! r := run_job c j in
  match r with
  | Ok _ => job_done j None
  | Err e => do! recordErr e in job_done j (Some e)
  end.

(** [AddWait] either admits the job or fails with the context's error. *)
Definition enqueue (admitted : bool) (j : uploadJob) : io St unit :=
  if admitted then modify (fun s => with_up (up_err s) (pending s) (queue s ++ [j]) s)
  else fail (Wrapf (Sent CtxDone)).

(** The bundler runs a queued job at any moment, in any order. *)
Definition up_step (c : config) (i : nat) (s : St) : St :=
  match queue s !! i with
  | Some j => snd (handle_job c j (with_up (up_err s) (pending s) (delete i (queue s)) s))
  | None => s
  end.

(** [b.Flush()]: every job still queued runs. *)
Fixpoint drain (c : config) (n : nat) (s : St) : St :=
  match n with O => s | S n' => drain c n' (up_step c 0 s) end.

Definition flush (c : config) : io St unit := fun s =>
  let s := drain c (length (queue s)) s in
  (match up_err s with Some e => Err e | None => Ok tt end, with_up None (pending s) (queue s) s).

(** [sizeHint]: the weight handed to the semaphore never exceeds its capacity. *)
Definition job_bytes (j : uploadJob) : Z :=
  match j with LooseJob _ _ _ size _ => size | PackJob _ _ _ b q => i64 (b + q) end.
Definition sizeHint (lim : Z) (j : uploadJob) : Z :=
  let size := job_bytes j in if (lim >? 0) && (size >? lim) then lim else size.

(** ** The cold build of the pack index *)

Fixpoint load_cues (c : config) (keys : list bytes) (tables : list packTable) (sizes : gmap bytes Z)
    : io St (list packTable * gmap bytes Z) :=
  match keys with
  | [] => ret (tables, sizes)
  | k :: keys' =>
      if negb (has_suffix k cueSuffix) then load_cues c keys' tables sizes else
      let id := trim_suffix (trim_prefix k (c_prefix c ++ packPrefix)) cueSuffix in
      let! raw := wrapping (fetchSmall k) in
      let! recs := wrapping (lift (parseCue (c_hashLen c) raw)) in
      let! num := (fun s => let '(n, p) := packNum id (packs s) in (Ok n, with_packs p s)) in
      load_cues c keys' (tables ++ [newPackTable (c_hashLen c) num recs]) (<[id := packExtent recs]> sizes)
  end.

Definition ensurePacksBuilt (c : config) : io St unit :=
  let! b := gets (fun s => built (packs s)) in
  if b : bool then ret tt else
  let! keys := wrapping (listKeys c (c_prefix c ++ packPrefix)) in
  let! (tables, sizes) := load_cues c keys [] ∅ in
  modify (fun s => with_packs (adopt_cold tables sizes (packs s)) s).

Definition packLookup (c : config) (h : Hash) : io St (option packEntry) :=
  do! ensurePacksBuilt c in
  gets (fun s => entry_of (packs s) h).
End storer.
