(* ===== verification/StorerSpec.v ===== *)
(** * What the storer's requests do to the bucket

    Frame lemmas for the operations of Storer.v under the laws of S3.v, and the
    promise of [flush]: everything queued before it is in the bucket after it. *)

From S2P Require Import Prelude GoLib S3 Concrete Codec Cue PackTable PackIndex Storer.

Section spec.
Context `{GoGit, Zstd, S3}.
Context (view : World -> bucket) (env : bucket -> bucket -> Prop) `{!S3Laws view env}.

Abbreviation M := (io St).

#[local] Instance env_po : PreOrder env := env_preorder.

Lemma request_inv {A} (f : World -> gores A * World) s r s' :
  request f s = (r, s') -> exists w', f (world s) = (r, w') /\ s' = with_world w' s.
Proof. unfold request. destruct (f (world s)) as [r0 w0]. intros [= <- <-]. eauto. Qed.

(** ** Calls that only read the bucket *)

Definition reads {A} (m : M A) : Prop := forall s r s',
  m s = (r, s') -> env (view (world s)) (view (world s')) /\ s' = with_world (world s') s.

Lemma reads_ret {A} (a : A) : reads (ret a).
Proof. intros s r s' [= <- <-]. split; [reflexivity|by destruct s]. Qed.
Lemma reads_fail {A} e : reads (fail (A := A) e).
Proof. intros s r s' [= <- <-]. split; [reflexivity|by destruct s]. Qed.
Lemma reads_lift {A} (x : gores A) : reads (lift x).
Proof. intros s r s' [= <- <-]. split; [reflexivity|by destruct s]. Qed.
Lemma reads_gets {A} (f : St -> A) : reads (gets f).
Proof. intros s r s' [= <- <-]. split; [reflexivity|by destruct s]. Qed.

Lemma reads_bind {A B} (m : M A) (f : A -> M B) : reads m -> (forall a, reads (f a)) -> reads (io_bind m f).
Proof.
  intros Hm Hf s r s' Hr. apply io_bind_inv in Hr as [(a & s1 & H1' & H2')|(e & H1' & ->)].
  - apply Hm in H1' as [He1 Hs1]. apply Hf in H2' as [He2 Hs2]. split; [by etransitivity|].
    rewrite Hs2, Hs1. done.
  - by apply Hm in H1'.
Qed.

Lemma reads_attempt {A} (m : M A) : reads m -> reads (attempt m).
Proof. intros Hm s r s' Hr. apply attempt_inv in Hr as (r0 & -> & Hr). by apply Hm in Hr. Qed.

Lemma reads_wrapping {A} (m : M A) : reads m -> reads (wrapping m).
Proof. intros Hm s r s' Hr. apply wrapping_inv in Hr as [(a & -> & Hr)|(e & -> & Hr)]; by apply Hm in Hr. Qed.

Lemma reads_get k : reads (request (GetObject k)).
Proof.
  intros s r s' Hr. apply request_inv in Hr as (w' & Hw & ->). split; [|done]. cbn. destruct r as [out|e].
  - apply GetObject_ok in Hw as (b & o & ? & _ & ? & _). by etransitivity.
  - apply GetObject_err in Hw as (_ & b & ? & ? & _). by etransitivity.
Qed.

Lemma reads_head k : reads (request (HeadObject k)).
Proof.
  intros s r s' Hr. apply request_inv in Hr as (w' & Hw & ->). split; [|done]. cbn. destruct r as [[m l]|e].
  - apply HeadObject_ok in Hw as (b & o & ? & _ & ? & _). by etransitivity.
  - apply HeadObject_err in Hw as (_ & b & ? & ? & _). by etransitivity.
Qed.

Lemma reads_list p t : reads (request (ListObjectsV2 p t)).
Proof. intros s r s' Hr. apply request_inv in Hr as (w' & Hw & ->). split; [|done]. by apply ListObjectsV2_env in Hw as [? _]. Qed.

Lemma reads_list_pages n p t : reads (list_pages n p t).
Proof.
  revert t. induction n as [|n IH]; intros t; cbn [list_pages]; [apply reads_fail|].
  apply reads_bind; [apply reads_wrapping, reads_list|]. intros [keys next].
  destruct next as [[|x t']|]; [apply reads_ret| |apply reads_ret].
  apply reads_bind; [apply IH|intros more; apply reads_ret].
Qed.

(** No key is passed over: one that is not in the answer was not there at some instant of the listing. *)
Lemma list_pages_complete n p t s ks s' k :
  list_pages n p t s = (Ok ks, s') -> k <> [] -> has_prefix k p = true -> (forall x, t = Some x -> TokenCovers x k) ->
  k ∈ ks \/ exists b, env (view (world s)) b /\ b !! k = None /\ env b (view (world s')).
Proof.
  intros Hr Hk Hp. revert t s ks Hr. induction n as [|n IH]; intros t s ks Hr Ht; [done|]. cbn [list_pages] in Hr.
  apply io_bind_ok in Hr as ([keys next] & s1 & Hw & Hr). apply wrapping_inv in Hw as [(a & [= <-] & Hw)|(e & [=] & _)].
  apply request_inv in Hw as (w' & Hw & ->). apply ListObjectsV2_ok in Hw as (b & Hb & Hb' & _ & Hall).
  assert (Hin : forall ks', filter (fun k => k <> []) keys ⊆ ks' -> k ∈ keys -> k ∈ ks') by (intros ks' Hs Hi; apply Hs, list_elem_of_filter; done).
  destruct (b !! k) as [o|] eqn:Eb.
  - destruct (Hall k ltac:(by eexists) Hp Ht) as [Hi|(x & -> & Hx & Hc)].
    + left. destruct next as [[|x tk]|]; [injection Hr as <- _; by apply (Hin _)| |injection Hr as <- _; by apply (Hin _)].
      apply io_bind_ok in Hr as (more & s2 & _ & [= <- _]). apply (Hin _); [set_solver|done].
    + destruct x as [|x tk]; [done|]. apply io_bind_ok in Hr as (more & s2 & Hm & [= <- <-]).
      apply IH in Hm as [Hm|(b2 & H1' & H2' & H3')]; [left; set_solver| |intros y [= <-]; exact Hc].
      right. exists b2. split; [etransitivity; [exact Hb|]; etransitivity; [exact Hb'|exact H1']|done].
  - right. exists b. split; [done|]. split; [done|]. etransitivity; [exact Hb'|].
    destruct next as [[|x tk]|]; [injection Hr as _ <-; reflexivity| |injection Hr as _ <-; reflexivity].
    apply io_bind_ok in Hr as (more & s2 & Hm & [= _ <-]). by apply reads_list_pages in Hm as [Hm _].
Qed.

Lemma reads_listKeys c p : reads (listKeys c p).
Proof. apply reads_list_pages. Qed.

Lemma reads_fetchSmallETag k : reads (fetchSmallETag k).
Proof.
  apply reads_bind; [apply reads_attempt, reads_get|]. intros [out|e].
  - destruct (g_body out); [apply reads_ret|apply reads_fail].
  - destruct (isNotFound e); apply reads_fail.
Qed.

Lemma reads_fetchSmall k : reads (fetchSmall k).
Proof. apply reads_bind; [apply reads_fetchSmallETag|]. intros [body etag]. apply reads_ret. Qed.

(** The body and validator come from one instant; "not found" means that instant had no object. *)
Lemma fetchSmallETag_ok k s body etag s' :
  fetchSmallETag k s = (Ok (body, etag), s') ->
  exists b o, env (view (world s)) b /\ b !! k = Some o /\ env b (view (world s')) /\
    body = o_body o /\ etag = ETagOf body.
Proof.
  intros Hr. apply io_bind_ok in Hr as (r & s1 & Ha & Hr). apply attempt_inv in Ha as (r0 & [= ->] & Ha).
  apply request_inv in Ha as (w' & Hw & ->). destruct r0 as [out|e]; [|by destruct (isNotFound e)].
  apply GetObject_ok in Hw as (b & o & ? & ? & ? & Het & _ & Hb & _).
  destruct (g_body out) as [body0|e] eqn:Eb; [|done]. injection Hr as <- <- <-.
  exists b, o. rewrite (Hb body0) by done. by rewrite Het.
Qed.

Lemma fetchSmallETag_missing k s e s' :
  fetchSmallETag k s = (Err e, s') -> errors_is e ErrObjectNotFound = true ->
  exists b, env (view (world s)) b /\ b !! k = None /\ env b (view (world s')).
Proof.
  intros Hr He. apply io_bind_inv in Hr as [(r & s1 & Ha & Hr)|(e' & Ha & [= ->])].
  2:{ by apply attempt_inv in Ha as (? & ? & _). }
  apply attempt_inv in Ha as (r0 & [= ->] & Ha). apply request_inv in Ha as (w' & Hw & ->).
  destruct r0 as [out|e0].
  - apply GetObject_ok in Hw as (b & o & ? & ? & ? & Het & _ & _ & Hf).
    destruct (g_body out) as [|e1] eqn:Eb; [done|]. injection Hr as -> <-.
    destruct (Hf e eq_refl) as [Hf' _]. by rewrite Hf' in He.
  - apply GetObject_err in Hw as ([Hf _] & b & ? & ? & Hn).
    destruct (isNotFound e0) eqn:E; injection Hr as <- <-; [eauto|]. by rewrite Hf in He.
Qed.

(** ** Uploads *)

(** Foreign clients leave the content keys of this storer's prefix in place. *)
Definition content_key (c : config) (k : bytes) : Prop :=
  exists r, k = c_prefix c ++ objectPrefix ++ r \/ k = c_prefix c ++ packPrefix ++ r.
Definition keeps_content (c : config) : Prop := forall b b' k,
  env b b' -> content_key c k -> is_Some (b !! k) -> is_Some (b' !! k).

Definition job_keys (c : config) (j : uploadJob) : list bytes :=
  match j with LooseJob _ key _ _ _ => [key] | PackJob id _ _ _ _ => [binKey c id; cueKey c id] end.

Definition uploaded (c : config) (j : uploadJob) (s : St) : Prop :=
  Forall (fun k => is_Some (view (world s) !! k)) (job_keys c j).

(** A job the storer creates: every key it writes is a content key. *)
Definition wf_job (c : config) (j : uploadJob) : Prop := Forall (content_key c) (job_keys c j).

Section uploads.
Context (c : config) (Hkeep : keeps_content c).

(** [m] keeps every content key and the queue. *)
Definition monotone {A} (m : M A) : Prop := forall s r s',
  m s = (r, s') -> queue s' = queue s /\
  (forall k, content_key c k -> is_Some (view (world s) !! k) -> is_Some (view (world s') !! k)) /\
  (up_err s' = None -> up_err s = None).

Lemma monotone_bind {A B} (m : M A) (f : A -> M B) : monotone m -> (forall a, monotone (f a)) -> monotone (io_bind m f).
Proof.
  intros Hm Hf s r s' Hr. apply io_bind_inv in Hr as [(a & s1 & H1' & H2')|(e & H1' & ->)].
  - apply Hm in H1' as (Hq1 & Hk1 & He1). apply Hf in H2' as (Hq2 & Hk2 & He2).
    split; [congruence|]. split; auto.
  - by apply Hm in H1'.
Qed.

Lemma monotone_attempt {A} (m : M A) : monotone m -> monotone (attempt m).
Proof. intros Hm s r s' Hr. apply attempt_inv in Hr as (r0 & -> & Hr). by apply Hm in Hr. Qed.

Lemma monotone_wrapping {A} (m : M A) : monotone m -> monotone (wrapping m).
Proof. intros Hm s r s' Hr. apply wrapping_inv in Hr as [(a & -> & Hr)|(e & -> & Hr)]; by apply Hm in Hr. Qed.

Lemma monotone_modify (f : St -> St) :
  (forall s, queue (f s) = queue s /\ world (f s) = world s /\ (up_err (f s) = None -> up_err s = None)) ->
  monotone (modify f).
Proof. intros Hf s r s' [= <- <-]. destruct (Hf s) as (-> & -> & He). auto. Qed.

Lemma monotone_ret {A} (a : A) : monotone (ret a).
Proof. by intros s r s' [= <- <-]. Qed.

Lemma monotone_open p : monotone (openFile p).
Proof. intros s r s'. unfold openFile. destruct (files s !! p); by intros [= <- <-]. Qed.

Lemma put_present k body meta s r s' :
  request (PutObject k body meta Always) s = (r, s') -> content_key c k ->
  queue s' = queue s /\ up_err s' = up_err s /\
  (forall k', content_key c k' -> is_Some (view (world s) !! k') -> is_Some (view (world s') !! k')) /\
  (is_ok r = true -> is_Some (view (world s') !! k)).
Proof.
  intros Hr Hk. apply request_inv in Hr as (w' & Hw & ->). cbn. split; [done|]. split; [done|].
  assert (Hins : forall b, env (view (world s)) b ->
    env (<[k := {| o_body := body; o_meta := meta |}]> b) (view w') ->
    (forall k', content_key c k' -> is_Some (view (world s) !! k') -> is_Some (view w' !! k')) /\
    is_Some (view w' !! k)).
  { intros b Hb Hb'. split.
    - intros k' Hk' Hs. apply (Hkeep _ _ _ Hb'); [done|]. destruct (decide (k' = k)) as [->|].
      + rewrite lookup_insert_eq. eauto.
      + rewrite lookup_insert_ne by done. by apply (Hkeep _ _ _ Hb).
    - apply (Hkeep _ _ _ Hb'); [done|]. rewrite lookup_insert_eq. eauto. }
  destruct r as [t|e].
  - apply PutObject_ok in Hw as (b & Hb & _ & _ & Hb'). by destruct (Hins b Hb Hb').
  - apply PutObject_err in Hw as (_ & [Hb|(b & Hb & _ & Hb')]).
    + split; [|done]. intros k' Hk' Hs. by apply (Hkeep _ _ _ Hb).
    + destruct (Hins b Hb Hb'). by split.
Qed.

Lemma monotone_put k body meta : content_key c k -> monotone (request (PutObject k body meta Always)).
Proof. intros Hk s r s' Hr. apply put_present in Hr as (Hq & He & Hp & _); [|done]. split; [done|]. split; [done|congruence]. Qed.

Lemma monotone_putFile p k : content_key c k -> monotone (putFile p k).
Proof.
  intros Hk. apply monotone_bind; [apply monotone_open|]. intros body.
  apply monotone_bind; [by apply monotone_put|]. intros _. apply monotone_ret.
Qed.

Lemma binKey_content id : content_key c (binKey c id).
Proof. exists (id ++ binSuffix). by right. Qed.
Lemma cueKey_content id : content_key c (cueKey c id).
Proof. exists (id ++ cueSuffix). by right. Qed.
#[local] Hint Resolve binKey_content cueKey_content : core.

Lemma putFile_present p k s u s' :
  putFile p k s = (Ok u, s') -> content_key c k -> is_Some (view (world s') !! k).
Proof.
  intros Hr Hk. apply io_bind_ok in Hr as (body & s1 & _ & Hr). apply io_bind_ok in Hr as (t & s2 & Hp & [= _ <-]).
  by apply put_present in Hp as (_ & _ & _ & Hp); [apply Hp|].
Qed.

Lemma monotone_run j : wf_job c j -> monotone (run_job c j).
Proof.
  intros Hj. destruct j as [h key typ size path|id bp cp bsz csz]; cbn [run_job].
  - apply Forall_cons in Hj as [Hk _].
    apply monotone_bind; [apply monotone_wrapping, monotone_open|]. intros body.
    apply monotone_bind; [by apply monotone_wrapping, monotone_put|]. intros _. apply monotone_ret.
  - apply monotone_bind; [by apply monotone_wrapping, monotone_putFile|]. intros _.
    apply monotone_bind; [by apply monotone_wrapping, monotone_putFile|]. intros _. apply monotone_ret.
Qed.

Lemma run_job_present j s u s' : wf_job c j -> run_job c j s = (Ok u, s') -> uploaded c j s'.
Proof.
  intros Hj Hr. destruct j as [h key typ size path|id bp cp bsz csz]; cbn [run_job] in Hr; unfold uploaded; cbn [job_keys].
  - apply Forall_cons in Hj as [Hk _]. apply io_bind_ok in Hr as (body & s1 & _ & Hr).
    apply io_bind_ok in Hr as (t & s2 & Hp & [= _ <-]). apply wrapping_inv in Hp as [(t' & [= ->] & Hp)|(e & [=] & _)].
    apply put_present in Hp as (_ & _ & _ & Hp); [|done]. constructor; [by apply Hp|constructor].
  - apply io_bind_ok in Hr as (t & s1 & H1' & Hr). apply wrapping_inv in H1' as [(t' & [= ->] & H1')|(e & [=] & _)].
    apply io_bind_ok in Hr as (t2 & s2 & H2' & [= _ <-]). apply wrapping_inv in H2' as [(t2' & [= ->] & H2')|(e & [=] & _)].
    pose proof (putFile_present _ _ _ _ _ H1' (binKey_content id)) as Hb.
    apply monotone_putFile in H2' as Hm; [|done]. destruct Hm as (_ & Hm & _).
    constructor; [by apply Hm|]. constructor; [|constructor]. by eapply putFile_present.
Qed.

Lemma monotone_done j e : monotone (job_done j e).
Proof.
  assert (Hm : forall f, (forall s : St, queue (f s) = queue s /\ world (f s) = world s /\ up_err (f s) = up_err s) ->
    monotone (modify f)).
  { intros f Hf. apply monotone_modify. intros s. destruct (Hf s) as (-> & -> & ->). auto. }
  destruct j; cbn [job_done]; [by apply Hm|].
  apply monotone_bind; [by apply Hm|]. intros _. apply monotone_bind; [by apply Hm|]. intros _. by apply Hm.
Qed.

Lemma monotone_recordErr e : monotone (recordErr e).
Proof.
  apply monotone_modify. intros s. destruct (up_err s) eqn:E; [by rewrite E|by split].
Qed.

(** A job leaves the first error behind or its objects in the bucket. *)
Lemma handle_job_spec j s :
  wf_job c j -> let s' := snd (handle_job c j s) in
  queue s' = queue s /\ (up_err s' = None -> up_err s = None /\ uploaded c j s') /\
  (forall k, content_key c k -> is_Some (view (world s) !! k) -> is_Some (view (world s') !! k)).
Proof.
  intros Hj. destruct (handle_job c j s) as [r s'] eqn:Hr. cbn. unfold handle_job in Hr.
  apply io_bind_inv in Hr as [(r0 & s1 & Ha & Hr)|(e & Ha & _)]; [|by apply attempt_inv in Ha as (? & ? & _)].
  apply attempt_inv in Ha as (r1 & [= ->] & Ha). pose proof (monotone_run j Hj _ _ _ Ha) as (Hq1 & Hk1 & He1).
  destruct r1 as [u|e].
  - pose proof (run_job_present _ _ _ _ Hj Ha) as Hu. apply monotone_done in Hr as (Hq2 & Hk2 & He2).
    split; [congruence|]. split; [|auto]. intros Hn. split; [auto|].
    unfold uploaded in *. unfold wf_job in Hj. rewrite Forall_forall in Hj, Hu |- *. auto.
  - apply io_bind_inv in Hr as [(u & s2 & Hre & Hr)|(e' & Hre & _)]; [|done].
    injection Hre as _ Hs2. apply monotone_done in Hr as (Hq2 & Hk2 & He2).
    assert (Hs2' : queue s2 = queue s1 /\ world s2 = world s1 /\ up_err s2 <> None).
    { subst s2. destruct (up_err s1) eqn:E; cbn; [by rewrite E|done]. }
    destruct Hs2' as (Hq & Hw & Hne). split; [congruence|]. split.
    + intros Hn. by apply He2 in Hn.
    + intros k Hk Hs. apply Hk2; [done|]. rewrite Hw. auto.
Qed.

(** ** Traces of the uploader *)

Inductive event := Enqueue (j : uploadJob) | Background (i : nat).

Definition run_event (s : St) (ev : event) : St :=
  match ev with
  | Enqueue j => snd (enqueue true j s)
  | Background i => up_step c i s
  end.

Definition enqueued (evs : list event) : list uploadJob :=
  omap (fun ev => match ev with Enqueue j => Some j | Background _ => None end) evs.

(** Without a recorded error, every job is still queued or safely uploaded. *)
Definition accounted (js : list uploadJob) (s : St) : Prop :=
  Forall (wf_job c) (queue s) /\
  (up_err s = None -> forall j, j ∈ js -> j ∈ queue s \/ uploaded c j s).

Lemma up_step_accounted js i s : Forall (wf_job c) js -> accounted js s -> accounted js (up_step c i s).
Proof.
  intros Hjs [Hq Ha]. unfold up_step. destruct (queue s !! i) as [j|] eqn:Ei; [|done].
  set (s0 := with_up _ _ _ s).
  assert (Hj : wf_job c j) by (rewrite Forall_lookup in Hq; by eapply Hq).
  destruct (handle_job_spec j s0 Hj) as (Hq' & He' & Hk'). set (s' := snd _) in *.
  split.
  - rewrite Hq'. cbn. rewrite Forall_forall in Hq |- *. intros x Hx. apply Hq.
    rewrite delete_take_drop in Hx. apply elem_of_app in Hx as [Hx|Hx].
    + apply (subseteq_take i) in Hx. done.
    + by apply (subseteq_drop (S i)) in Hx.
  - intros Hn j' Hj'. destruct (He' Hn) as [Hn0 Hu]. destruct (Ha Hn0 j' Hj') as [Hin|Hup].
    + rewrite Hq'. cbn. apply list_elem_of_lookup in Hin as [i' Hi'].
      destruct (decide (i' = i)) as [->|Hne].
      * right. rewrite Ei in Hi'. by injection Hi' as <-.
      * left. destruct (decide (i' < i)%nat) as [Hlt|Hge].
        -- apply list_elem_of_lookup_2 with i'. by rewrite list_lookup_delete_lt.
        -- apply list_elem_of_lookup_2 with (pred i'). rewrite list_lookup_delete_ge by lia.
           replace (S (pred i')) with i' by lia. done.
    + right. unfold uploaded in *. rewrite Forall_forall in Hup |- *. rewrite Forall_forall in Hjs.
      specialize (Hjs j' Hj'). unfold wf_job in Hjs. rewrite Forall_forall in Hjs. auto.
Qed.

Lemma run_events_accounted evs js s :
  Forall (wf_job c) (js ++ enqueued evs) -> accounted js s ->
  accounted (js ++ enqueued evs) (fold_left run_event evs s).
Proof.
  revert js s. induction evs as [|ev evs IH]; intros js s Hjs Ha; cbn [fold_left enqueued omap list_omap] in *.
  { by rewrite app_nil_r. }
  destruct ev as [j|i]; cbn [run_event].
  - rewrite cons_middle, app_assoc in Hjs |- *. apply IH; [done|].
    destruct Ha as [Hq Ha]. apply Forall_app in Hjs as [[Hj1 Hj2]%Forall_app _].
    split; cbn; [by apply Forall_app|]. intros Hn j' [Hj'|Hj']%elem_of_app.
    + destruct (Ha Hn j' Hj') as [|Hu]; [left; set_solver|by right].
    + left. set_solver.
  - apply IH; [done|]. apply up_step_accounted; [|done]. by apply Forall_app in Hjs as [? _].
Qed.

Lemma drain_accounted js n s :
  Forall (wf_job c) js -> accounted js s -> accounted js (drain c n s).
Proof. intros Hjs. revert s. induction n as [|n IH]; intros s Ha; cbn [drain]; [done|]. by apply IH, up_step_accounted. Qed.

Lemma drain_queue n s : Forall (wf_job c) (queue s) -> (length (queue s) <= n)%nat -> queue (drain c n s) = [].
Proof.
  revert s. induction n as [|n IH]; intros s Hq Hn; cbn [drain].
  - destruct (queue s); [done|]. simpl in Hn. lia.
  - unfold up_step. destruct (queue s) as [|j q] eqn:Eq; cbn [lookup list_lookup].
    { apply IH; rewrite Eq; [done|]. cbn. lia. }
    set (s0 := with_up _ _ _ s).
    assert (Hj : wf_job c j) by (by apply Forall_cons in Hq as [? _]).
    destruct (handle_job_spec j s0 Hj) as (Hq' & _). cbv zeta in Hq'. apply IH; rewrite Hq'; cbn.
    + by apply Forall_cons in Hq as [_ ?].
    + cbn in Hn. lia.
Qed.

Lemma flush_accounted js s s' :
  Forall (wf_job c) js -> accounted js s -> flush c s = (Ok tt, s') ->
  queue s' = [] /\ forall j, j ∈ js -> uploaded c j s'.
Proof.
  intros Hjs Ha Hf. unfold flush in Hf. set (s1 := drain _ _ _) in *.
  assert (Ha1 : accounted js s1) by (by apply drain_accounted).
  assert (Hq1 : queue s1 = []) by (apply drain_queue; [apply Ha|done]).
  destruct (up_err s1) eqn:E; [done|]. injection Hf as <-. split; [done|].
  intros j Hj. destruct (proj2 Ha1 E j Hj) as [Hin|Hu]; [|exact Hu].
  rewrite Hq1 in Hin. by apply elem_of_nil in Hin.
Qed.
End uploads.
End spec.

(** ** Properties *)

(** C12: when [flush] reports success, every upload queued since the previous
    flush has landed: each loose object, and of each pack both the container and
    its index, is in the bucket, whatever was run in the background in between
    and in whatever order, and however other clients interfere as long as they
    leave this repository's content keys in place. *)
Theorem flush_uploads_all `{GoGit, Zstd, S3} (view : World -> bucket) (env : bucket -> bucket -> Prop)
    (c : config) (evs : list event) (s s' : St) :
  S3Laws view env -> keeps_content env c ->
  queue s = [] -> up_err s = None -> Forall (wf_job c) (enqueued evs) ->
  flush c (fold_left (run_event c) evs s) = (Ok tt, s') ->
  queue s' = [] /\ forall j, j ∈ enqueued evs -> Forall (fun k => is_Some (view (world s') !! k)) (job_keys c j).
Proof.
  intros Hlaws Hkeep Hq He Hjs Hf.
  apply (flush_accounted view env c Hkeep (enqueued evs) (fold_left (run_event c) evs s)); [done| |done].
  apply (run_events_accounted view env c Hkeep evs [] s); [done|]. split; [by rewrite Hq|].
  intros _ j Hj. by apply elem_of_nil in Hj.
Qed.

(** ** Witness *)

Definition unit_config : config := {| c_prefix := bs "acme/app/"; c_packedRefs := true; c_hashLen := 20; c_pages := 4 |}.

Definition start_state (b : bucket) (fs : gmap bytes bytes) : @St toy_git Plain.plain_s3 :=
  @Build_St toy_git Plain.plain_s3 b fs None ∅ [] (newPackIndex 20)
    {| r_built := false; r_etag := []; r_packed := ∅; r_loose := ∅ |} {| s_built := false; s_hashes := [] |} ∅.

Definition sample_files : gmap bytes bytes :=
  <[bs "/tmp/a" := bs "hello"]> (<[bs "/tmp/bin" := bs "payload"]> {[bs "/tmp/cue" := bs "index"]}).

Definition loose_hash : @Hash toy_git := Some (repeat (bz 5) 20).
Definition sample_events : list (@event toy_git) :=
  [Enqueue (LooseJob loose_hash (bs "acme/app/objects/x") (bs "blob") 5 (bs "/tmp/a"));
   Background 0;
   Enqueue (PackJob (bs "p1") (bs "/tmp/bin") (bs "/tmp/cue") 7 5)].

Lemma flush_uploads_all_witness :
  let s1 := fold_left (run_event unit_config) sample_events (start_state ∅ sample_files) in
  fst (flush unit_config s1) = Ok tt /\
  Forall (fun k => is_Some ((world (snd (flush unit_config s1)) : bucket) !! k))
    (job_keys unit_config (PackJob (bs "p1") (bs "/tmp/bin") (bs "/tmp/cue") 7 5)).
Proof.
  intros s1.
  assert (Hok : fst (flush unit_config s1) = Ok tt) by (vm_compute; reflexivity).
  split; [exact Hok|].
  assert (Hkeep : keeps_content (@eq bucket) unit_config) by (intros b b' k <- _ Hs; exact Hs).
  assert (Hjs : Forall (wf_job unit_config) (enqueued sample_events)).
  { constructor; [|constructor; [|constructor]].
    - constructor; [|constructor]. exists (bs "x"). left. reflexivity.
    - constructor; [apply binKey_content|constructor; [apply cueKey_content|constructor]]. }
  refine (proj2 (@flush_uploads_all toy_git toy_zstd Plain.plain_s3 (fun b => b) eq unit_config sample_events (start_state ∅ sample_files)
    (snd (flush unit_config s1)) Plain.plain_s3_laws Hkeep eq_refl eq_refl Hjs _) _ _).
  - rewrite <-Hok. apply surjective_pairing.
  - right. left.
Defined.
