(* ===== verification/RepoConfig.v ===== *)
(** * The repository's configuration (internal/storage/tigris/config.go)

    One object per repository.  What a configuration is, and how git writes it,
    is go-git's: the class [GitConfig]. *)

From S2P Require Import Prelude GoLib S3 Concrete Codec Cue PackTable PackIndex Storer StorerSpec.

(** go-git's [config.Config]. *)
Class GitConfig := {
  gitConfig : Type;
  NewConfig : gitConfig;
  Validate : gitConfig -> gores unit;
  Marshal : gitConfig -> gores bytes;
  Unmarshal : bytes -> gores gitConfig;     (** into a new configuration *)
}.

(** go-git reads back what it writes. *)
Class GitConfigLaws `{GitConfig} := {
  Unmarshal_Marshal cfg raw : Validate cfg = Ok tt -> Marshal cfg = Ok raw -> Unmarshal raw = Ok cfg;
}.

Definition configKey : bytes := bs "config".

Section config.
Context `{GoGit, Zstd, S3, GitConfig}.
Context (c : config).

Definition Config : io St gitConfig :=
  try! r := fetchSmall (c_prefix c ++ configKey) in
  match r with
  | Ok raw => match Unmarshal raw with Ok cfg => ret cfg | Err e => fail (Wrapf e) end
  | Err e => if errors_is e ErrObjectNotFound then ret NewConfig else fail (Wrapf e)
  end.

Definition SetConfig (cfg : gitConfig) : io St unit :=
  do! wrapping (lift (Validate cfg)) in
  let! raw := wrapping (lift (Marshal cfg)) in
  do! wrapping (putBytes (c_prefix c ++ configKey) raw) in
  ret tt.

(** [Module]: no submodule has a storer of its own. *)
Definition Module_ {A} (name : bytes) : gores A := Err (Wrapf (Sent ErrModulesNotSupported)).
End config.

(** ** A stored configuration is the one read *)

Section spec.
Context `{GoGit, Zstd, S3, GitConfig, !GitConfigLaws}.
Context (view : World -> bucket) (env : bucket -> bucket -> Prop) `{!S3Laws view env}.
Context (c : config).

#[local] Instance env_po_config : PreOrder env := env_preorder.

Lemma SetConfig_invalid cfg e s : Validate cfg = Err e -> SetConfig c cfg s = (Err (Wrapf e), s).
Proof. intros Hv. unfold SetConfig, io_bind, wrapping, lift. by rewrite Hv. Qed.

(** Whoever else uses the bucket leaves the configuration alone. *)
Lemma config_reads_back cfg s s1 r s2 :
  (forall b b' o, env b b' -> b !! (c_prefix c ++ configKey) = Some o -> b' !! (c_prefix c ++ configKey) = Some o) ->
  SetConfig c cfg s = (Ok tt, s1) -> Config c s1 = (r, s2) ->
  r = Ok cfg \/ exists x, foreign x /\ r = Err (Wrapf x).
Proof.
  intros Hkeep Hset Hget. unfold SetConfig in Hset.
  apply io_bind_ok in Hset as ([] & s0 & Hv & Hset). apply wrapping_inv in Hv as [([] & _ & Hv)|(? & [=] & _)]. injection Hv as Hv <-.
  apply io_bind_ok in Hset as (raw & s3 & Hm & Hset). apply wrapping_inv in Hm as [(? & [= <-] & Hm)|(? & [=] & _)]. injection Hm as Hm <-.
  apply io_bind_ok in Hset as ([] & s4 & Hp & [= <-]). apply wrapping_inv in Hp as [([] & _ & Hp)|(? & [=] & _)].
  apply io_bind_ok in Hp as (t & s5 & Hp & [= <-]). apply wrapping_inv in Hp as [(? & _ & Hp)|(? & [=] & _)].
  apply request_inv in Hp as (w & Hw & ->). apply PutObject_ok in Hw as (b & _ & _ & _ & Hb).
  assert (Hat : view w !! (c_prefix c ++ configKey) = Some {| o_body := raw; o_meta := ∅ |}).
  { eapply Hkeep; [exact Hb|]. apply lookup_insert_eq. }
  unfold Config in Hget. apply io_bind_inv in Hget as [(got & s6 & Ha & Hget)|(e & Ha & _)]; apply attempt_inv in Ha as (got' & [= <-] & Ha).
  destruct got as [body|e].
  - apply io_bind_ok in Ha as ([body' etag] & s7 & Ha & [= <- <-]).
    apply (fetchSmallETag_ok view env) in Ha as (b1 & o & Henv & Ho & _ & -> & _). cbn in Henv.
    rewrite (Hkeep _ _ _ Henv Hat) in Ho. injection Ho as <-. cbn in Hget. rewrite (Unmarshal_Marshal cfg raw Hv Hm) in Hget.
    injection Hget as <- _. by left.
  - right. apply io_bind_inv in Ha as [([body etag] & s7 & Ha & [=])|(e' & Ha & [= <-])].
    destruct (errors_is e ErrObjectNotFound) eqn:He.
    { apply (fetchSmallETag_missing view env) in Ha as (b1 & Henv & Hn & _); [|done]. cbn in Henv. by rewrite (Hkeep _ _ _ Henv Hat) in Hn. }
    injection Hget as <- _. exists e. split; [|done].
    unfold fetchSmallETag in Ha. apply io_bind_inv in Ha as [(y & s7 & Hb' & Ha)|(e' & Hb' & _)]; apply attempt_inv in Hb' as (y' & [= <-] & Hb').
    apply request_inv in Hb' as (w2 & Hw2 & ->). destruct y as [out|e0].
    + apply GetObject_ok in Hw2 as (? & ? & _ & _ & _ & _ & _ & _ & Hf). destruct (g_body out) as [|e1] eqn:Eb; [done|].
      injection Ha as <- _. by apply Hf.
    + apply GetObject_err in Hw2 as [Hf _]. destruct (isNotFound e0); injection Ha as <- _; [done|exact Hf].
Qed.
End spec.

(** A configuration that is its text. *)
#[export] Instance toy_config : GitConfig := {|
  gitConfig := bytes; NewConfig := []; Validate _ := Ok tt; Marshal b := Ok b; Unmarshal b := Ok b;
|}.
#[export] Instance toy_config_laws : GitConfigLaws.
Proof. split. by intros cfg raw _ [= ->]. Qed.
