(* ===== verification/Refs.v ===== *)
(** * References (internal/storage/tigris/refcache.go, refs.go)

    The memoized view of a repository's references, the compare-and-swap
    commit of a batch, and go-git's reference and shallow interfaces on top. *)

From S2P Require Import Prelude GoLib S3 Codec PackedRefs Cue PackTable PackIndex Storer.

Definition maxRefCASRetries : nat := 8.
Definition maxDeleteBatch : nat := 1000.

Section refs.
Context `{GoGit, Zstd, S3}.
Context (c : config).

Abbreviation refmap := (gmap bytes reference).
Abbreviation M := (io St).

Definition newRefCache : refCache := {| r_built := false; r_etag := []; r_packed := ∅; r_loose := ∅ |}.
Definition invalidateRefs : M unit := modify (with_refs newRefCache).

Definition looseReference (n : bytes) : M reference :=
  try! r := fetchSmall (c_prefix c ++ refKey n) in
  match r with
  | Ok body => lift (decodeRefValue n body)
  | Err e => if errors_is e ErrObjectNotFound then fail (Sent ErrReferenceNotFound) else fail (Wrapf e)
  end.

(** The loop of [listLooseRefs] over the listed keys. *)
Fixpoint load_loose (keys : list bytes) : M (list reference) :=
  match keys with
  | [] => ret []
  | k :: keys' =>
      let name := trim_prefix k (c_prefix c ++ refPrefix) in
      try! r := looseReference name in
      match r with
      | Ok ref => let! more := load_loose keys' in ret (ref :: more)
      | Err e =>
          if errors_is e ErrReferenceNotFound then load_loose keys'
          else if errors_is e errMalformedRef then load_loose keys'
          else fail e
      end
  end.

Definition listLooseRefs : M (list reference) :=
  let! keys := listKeys c (c_prefix c ++ refPrefix) in load_loose keys.

Definition refs_by_name (l : list reference) : refmap :=
  fold_left (fun m r => <[ref_name r := r]> m) l ∅.

Definition packedKey : bytes := c_prefix c ++ packedRefsKey.

Definition ensureRefsBuilt : M unit :=
  let! b := gets (r_built ∘ refs) in
  if b : bool then ret tt else
  try! r := fetchSmallETag packedKey in
  let! (body, etag) :=
    match r with
    | Ok be => ret be
    | Err e => if errors_is e ErrObjectNotFound then ret ([], []) else fail (Wrapf e)
    end in
  let! packed := if (0 <? length body)%nat then lift (decodePackedRefs body) else ret ∅ in
  let! looseRefs := listLooseRefs in
  modify (with_refs {| r_built := true; r_etag := etag; r_packed := packed; r_loose := refs_by_name looseRefs |}).

(** Packed, with the loose layer on top. *)
Definition merged (r : refCache) : refmap := r_loose r ∪ r_packed r.

Definition refView : M refmap := do! ensureRefsBuilt in gets (merged ∘ refs).

(** ** The commit *)

Record refExpectation := { x_name : bytes; x_old : option reference; x_strict : bool }.

Definition expectation_fails (view : refmap) (e : refExpectation) : bool :=
  let cur := view !! x_name e in
  let ok := bool_decide (is_Some cur) in
  let cur_hash := match cur with Some r => ref_hash r | None => ZeroHash end in
  match x_old e with
  | None => x_strict e && ok
  | Some old =>
      if x_strict e && (negb ok || negb (bool_decide (cur_hash = ref_hash old))) then true
      else if negb ok then false
      else negb (bool_decide (cur_hash = ref_hash old))
  end.

Definition checkRefExpectations (view : refmap) (expect : list refExpectation) : gores unit :=
  if existsb (expectation_fails view) expect then Err (Sent ErrReferenceHasChanged) else Ok tt.

(** The mutations of one batch. *)
Definition apply_batch (sets : list reference) (removes : list bytes) (m : refmap) : refmap :=
  fold_left (fun m n => delete n m) removes (fold_left (fun m r => <[ref_name r := r]> m) sets m).

(** The keys a fold or a removal deletes, each once. *)
Definition dedup_keys (names : list bytes) : list bytes :=
  fold_left (fun seen n => if bool_decide (n ∈ seen) then seen else seen ++ [n]) names [].

Fixpoint delete_batches (fuel : nat) (keys : list bytes) : M unit :=
  match fuel, keys with
  | S fuel', _ :: _ =>
      try! r := request (DeleteObjects (take maxDeleteBatch keys)) in
      match r with
      | Ok _ => delete_batches fuel' (drop maxDeleteBatch keys)
      | Err e => do! invalidateRefs in fail (Wrapf e)
      end
  | _, _ => ret tt
  end.

Definition dropFoldedLooseRefs (folded removed : list bytes) : M unit :=
  let keys := (fun n => c_prefix c ++ refKey n) <$> dedup_keys (folded ++ removed) in
  delete_batches (length keys) keys.

Fixpoint commit_attempts (n : nat) (first : bool) (sets : list reference) (removes : list bytes)
    (expect : list refExpectation) : M unit :=
  match n with
  | O => fail (Wrapf (Sent ErrRefContention))
  | S n' =>
      do! (if first then ret tt else invalidateRefs) in
      do! ensureRefsBuilt in
      let! r := gets refs in
      let etag := r_etag r in
      let folded := fst <$> map_to_list (r_loose r) in
      let next := merged r in
      do! lift (checkRefExpectations next expect) in
      let next := apply_batch sets removes next in
      let cond := match etag with [] => IfNoneMatch | _ => IfMatch etag end in
      try! out := request (PutObject packedKey (encodePackedRefs next) ∅ cond) in
      match out with
      | Ok etag' =>
          do! modify (with_refs {| r_built := true; r_etag := etag'; r_packed := next; r_loose := ∅ |}) in
          try! d := dropFoldedLooseRefs folded removes in
          match d with Ok _ => ret tt | Err e => fail (CleanupError e) end
      | Err e =>
          if isPreconditionFailed e then commit_attempts n' false sets removes expect
          else fail (Wrapf e)
      end
  end.

Definition commitRefsNotifying (sets : list reference) (removes : list bytes)
    (expect : list refExpectation) : M unit :=
  if (length sets =? 0)%nat && (length removes =? 0)%nat then ret tt else
  do! wrapping (flush c) in
  commit_attempts maxRefCASRetries true sets removes expect.

Definition commitRefs := commitRefsNotifying.

(** ** go-git's reference interface *)

Definition setLooseReference (r : reference) : M unit :=
  do! wrapping (flush c) in
  do! wrapping (request (PutObject (c_prefix c ++ refKey (ref_name r)) (encodeRefValue r) ∅ Always)) in
  invalidateRefs.

Definition SetReference (r : option reference) : M unit :=
  match r with
  | None => ret tt
  | Some r => if c_packedRefs c then commitRefs [r] [] [] else setLooseReference r
  end.

Definition RemoveReference (n : bytes) : M unit :=
  if c_packedRefs c then commitRefs [] [n] [] else
  do! wrapping (removeSimple (c_prefix c ++ refKey n)) in
  invalidateRefs.

Fixpoint each {A} (f : A -> M unit) (l : list A) : M unit :=
  match l with [] => ret tt | x :: l' => do! f x in each f l' end.

Definition UpdateReferences (sets : list reference) (removes : list bytes) : M unit :=
  if c_packedRefs c then commitRefs sets removes []
  else do! each setLooseReference sets in each RemoveReference removes.

Definition SupportsCheckedRefUpdates : bool := c_packedRefs c.

(** [Hash.IsZero] is equality with the zero hash of the same format. *)
Definition strict_expectation (isZero : Hash -> bool) (nh : bytes * Hash) : refExpectation :=
  {| x_name := nh.1; x_strict := true;
     x_old := if isZero nh.2 then None else Some (HashReference nh.1 nh.2) |}.

Definition UpdateReferencesChecked (isZero : Hash -> bool) (sets : list reference) (removes : list bytes)
    (expected : gmap bytes Hash) : M unit :=
  if negb (c_packedRefs c) then fail Errorf else
  commitRefsNotifying sets removes (strict_expectation isZero <$> map_to_list expected).

Definition Reference (n : bytes) : M reference :=
  let! view := refView in
  match view !! n with Some r => ret r | None => fail (Sent ErrReferenceNotFound) end.

Definition CheckAndSetReference (newRef old : option reference) : M unit :=
  match newRef with
  | None => ret tt
  | Some r =>
      if c_packedRefs c then
        commitRefs [r] [] [{| x_name := ref_name r; x_old := old; x_strict := false |}]
      else
        do! match old with
            | None => ret tt
            | Some o =>
                try! cur := Reference (ref_name r) in
                match cur with
                | Ok cur => if bool_decide (ref_hash cur = ref_hash o) then ret tt
                            else fail (Sent ErrReferenceHasChanged)
                | Err _ => ret tt
                end
            end in
        setLooseReference r
  end.

Definition IterReferences : M (list reference) :=
  let! view := refView in
  ret (omap (fun n => view !! n) (sorted_names view)).

Definition CountLooseRefs : M nat := do! ensureRefsBuilt in gets (size ∘ r_loose ∘ refs).

Definition PackRefs : M unit :=
  if negb (c_packedRefs c) then ret tt else
  do! ensureRefsBuilt in
  let! loose := gets (fun s => snd <$> map_to_list (r_loose (refs s))) in
  match loose with [] => ret tt | _ => commitRefs loose [] [] end.

(** ** Shallow marks *)

Definition setShallowCache (hs : list Hash) : M unit := modify (with_shallow {| s_built := true; s_hashes := hs |}).
Definition invalidateShallow : M unit := modify (with_shallow {| s_built := false; s_hashes := [] |}).

Definition shallow_body (commits : list Hash) : bytes := concat ((fun h => HashString h ++ [newline]) <$> commits).

Definition SetShallow (commits : list Hash) : M unit :=
  match commits with
  | [] =>
      try! r := removeSimple (c_prefix c ++ shallowKey) in
      match r with Ok _ => setShallowCache [] | Err e => do! invalidateShallow in fail e end
  | _ =>
      try! r := request (PutObject (c_prefix c ++ shallowKey) (shallow_body commits) ∅ Always) in
      match r with Ok _ => setShallowCache commits | Err e => do! invalidateShallow in fail (Wrapf e) end
  end.

Fixpoint parse_marks (lines : list bytes) : gores (list Hash) :=
  match lines with
  | [] => Ok []
  | l :: ls =>
      let l := TrimSpace l in
      match l with
      | [] => parse_marks ls
      | _ => match FromHex l with
             | None => Err (Wrapf (Sent errMalformedRef))
             | Some h => let? hs := parse_marks ls in Ok (h :: hs)
             end
      end
  end.

Definition Shallow : M (list Hash) :=
  let! sc := gets shallow in
  if s_built sc then ret (s_hashes sc) else
  try! r := fetchSmall (c_prefix c ++ shallowKey) in
  match r with
  | Ok body =>
      let! out := lift (parse_marks (split_byte newline body)) in
      do! setShallowCache out in ret out
  | Err e =>
      if errors_is e ErrObjectNotFound then do! setShallowCache [] in ret []
      else fail (Wrapf e)
  end.
End refs.
