(* ===== verification/RefsSpec.v ===== *)
(** * The promises of the reference layer

    What a commit of references does to the bucket: one conditional write that
    replaces exactly the reference set it was computed from. *)

From S2P Require Import Prelude GoLib S3 Concrete Codec PackedRefs Cue PackTable PackIndex Storer StorerSpec Refs.

Section spec.
Context `{GoGit, Zstd, S3}.
Context (view : World -> bucket) (env : bucket -> bucket -> Prop) `{!S3Laws view env}.
Context (c : config).

Abbreviation M := (io St).
Abbreviation refmap := (gmap bytes reference).

#[local] Instance env_po' : PreOrder env := env_preorder.

(** ** The cache *)

(** [body] is the packed-refs object for the reference set [packed]. *)
Definition represents (body : bytes) (packed : refmap) : Prop :=
  (body = [] /\ packed = ∅) \/ (body <> [] /\ decodePackedRefs body = Ok packed) \/
  body = encodePackedRefs packed.

(** A filled cache holds what the object with its validator represents. *)
Definition refs_ok (r : refCache) : Prop :=
  r_built r = true ->
  (r_etag r = [] /\ r_packed r = ∅) \/
  (exists body, r_etag r = ETagOf body /\ represents body (r_packed r)).

(** The packed-refs object of a bucket, or its absence, stands for [packed]. *)
Definition holds (b : bucket) (packed : refmap) : Prop :=
  (b !! packedKey c = None /\ packed = ∅) \/
  exists o, b !! packedKey c = Some o /\ represents (o_body o) packed.

(** ** Errors that do not claim a commit *)

Definition plain_err (e : goerr) : Prop := ref_update_committed e = false.
Definition fails_plain {A} (m : M A) : Prop := forall s e s', m s = (Err e, s') -> plain_err e.

Lemma fails_plain_bind {A B} (m : M A) (f : A -> M B) :
  fails_plain m -> (forall a, fails_plain (f a)) -> fails_plain (io_bind m f).
Proof.
  intros Hm Hf s e s' Hr. apply io_bind_inv in Hr as [(a & s1 & _ & Hr)|(e' & Hr & [= ->])].
  - by eapply Hf.
  - by eapply Hm.
Qed.
Lemma fails_plain_attempt {A} (m : M A) : fails_plain (attempt m).
Proof. intros s e s' Hr. by apply attempt_inv in Hr as (? & ? & _). Qed.
Lemma fails_plain_wrapping {A} (m : M A) : fails_plain m -> fails_plain (wrapping m).
Proof. intros Hm s e s' Hr. apply wrapping_inv in Hr as [(? & [=] & _)|(e0 & [= ->] & Hr)]. by eapply Hm in Hr. Qed.
Lemma fails_plain_try {A B} (m : M A) (f : gores A -> M B) :
  fails_plain m -> (forall a, fails_plain (f (Ok a))) -> (forall e, plain_err e -> fails_plain (f (Err e))) ->
  fails_plain (io_bind (attempt m) f).
Proof.
  intros Hm Hok Herr s e s' Hr. apply io_bind_inv in Hr as [(r & s1 & Ha & Hr)|(e' & Ha & _)]; apply attempt_inv in Ha as (r0 & [= <-] & Ha).
  destruct r as [a|e0]; [by eapply Hok|]. eapply Herr; [by eapply Hm|exact Hr].
Qed.
Lemma fails_plain_get k : fails_plain (request (GetObject k)).
Proof. intros s e s' Hr. apply request_inv in Hr as (w' & Hw & _). by apply GetObject_err in Hw as [[_ ?] _]. Qed.
Lemma fails_plain_list_request p t : fails_plain (request (ListObjectsV2 p t)).
Proof. intros s e s' Hr. apply request_inv in Hr as (w' & Hw & _). apply ListObjectsV2_env in Hw as [_ Hw]. by destruct (Hw e eq_refl). Qed.
Lemma fails_plain_ret {A} (a : A) : fails_plain (ret a).
Proof. by intros s e s'. Qed.
Lemma fails_plain_gets {A} (f : St -> A) : fails_plain (gets f).
Proof. by intros s e s'. Qed.
Lemma fails_plain_modify f : fails_plain (modify f).
Proof. by intros s e s'. Qed.
Lemma fails_plain_fail {A} e : plain_err e -> fails_plain (fail (A := A) e).
Proof. by intros He s e' s' [= <- _]. Qed.
Lemma fails_plain_lift {A} (r : gores A) : err_sat plain_err r -> fails_plain (lift r).
Proof. intros He s e s' [= -> _]. done. Qed.

Lemma fails_plain_list n p t : fails_plain (list_pages n p t).
Proof.
  revert t. induction n as [|n IH]; intros t; cbn [list_pages]; [by apply fails_plain_fail|].
  apply fails_plain_bind; [apply fails_plain_wrapping, fails_plain_list_request|]. intros [keys next].
  destruct next as [[|x t']|]; [apply fails_plain_ret| |apply fails_plain_ret].
  apply fails_plain_bind; [apply IH|intros more; apply fails_plain_ret].
Qed.

Lemma decodeRefValue_plain n v : err_sat plain_err (decodeRefValue n v).
Proof. unfold decodeRefValue. destruct (cut_prefix _ _); [done|]. by destruct (FromHex _). Qed.

Lemma decodePackedRefs_plain b : err_sat plain_err (decodePackedRefs b).
Proof.
  unfold decodePackedRefs.
  destruct (_ <? _)%nat; [done|]. destruct (negb (bytes_eqb _ _)); [done|]. destruct (negb (bu _ =? _)); [done|].
  apply err_sat_bind.
  { destruct (_ =? codecRaw); [done|]. destruct (_ =? codecZstd); [|done]. by destruct (DecodeAll _ _). }
  intros body _. apply err_sat_bind; [|intros out _; by destruct (negb _)].
  generalize (length body) at 1 as n. generalize (∅ : refmap) as out. revert body.
  intros body out n. revert body out.
  induction n as [|n IH]; intros [|x body] out; cbn [parse_lines]; try done.
  destruct (cut_byte newline (x :: body)) as [[line rest]|]; [|done].
  destruct (cut_byte tab line) as [[name v]|]; [|done].
  apply err_sat_bind; [apply decodeRefValue_plain|]. intros r _. apply IH.
Qed.

Lemma fails_plain_fetch k : fails_plain (fetchSmallETag k).
Proof.
  intros s e s' Hr. apply io_bind_inv in Hr as [(r & s1 & Ha & Hr)|(e' & Ha & _)]; apply attempt_inv in Ha as (r0 & [= <-] & Ha).
  apply request_inv in Ha as (w' & Hw & ->). destruct r as [out|e0].
  - apply GetObject_ok in Hw as (b & o & _ & _ & _ & _ & _ & _ & Hf). destruct (g_body out) as [|e1] eqn:Eb; [done|].
    injection Hr as -> _. by destruct (Hf e eq_refl).
  - apply GetObject_err in Hw as [[_ Hf] _]. destruct (isNotFound e0); by injection Hr as <- _.
Qed.

Lemma fails_plain_load ks : fails_plain (load_loose c ks).
Proof.
  induction ks as [|k ks IH]; cbn [load_loose]; [apply fails_plain_ret|]. apply fails_plain_try.
  - apply fails_plain_try; [apply fails_plain_bind; [apply fails_plain_fetch|by intros [body t]]|intros body; apply fails_plain_lift, decodeRefValue_plain|].
    intros e He. destruct (errors_is e _); apply fails_plain_fail; [done|exact He].
  - intros ref. apply fails_plain_bind; [exact IH|intros; apply fails_plain_ret].
  - intros e He. destruct (errors_is e ErrReferenceNotFound); [exact IH|].
    destruct (errors_is e errMalformedRef); [exact IH|by apply fails_plain_fail].
Qed.

Lemma fails_plain_ensure : fails_plain (ensureRefsBuilt c).
Proof.
  apply fails_plain_bind; [apply fails_plain_gets|]. intros []; [apply fails_plain_ret|].
  assert (Hrest : forall be, fails_plain (let '(body, etag) := be : bytes * bytes in
      let! packed := if (0 <? length body)%nat then lift (decodePackedRefs body) else ret ∅ in
      let! looseRefs := listLooseRefs c in
      modify (with_refs {| r_built := true; r_etag := etag; r_packed := packed; r_loose := refs_by_name looseRefs |}))).
  { intros [body etag]. apply fails_plain_bind.
    { destruct (_ <? _)%nat; [apply fails_plain_lift, decodePackedRefs_plain|apply fails_plain_ret]. }
    intros packed. apply fails_plain_bind.
    { apply fails_plain_bind; [apply fails_plain_list|]. intros ks. apply fails_plain_load. }
    intros l. apply fails_plain_modify. }
  apply fails_plain_try; [apply fails_plain_fetch| |].
  - intros be. apply fails_plain_bind; [apply fails_plain_ret|exact Hrest].
  - intros e He. apply fails_plain_bind; [|exact Hrest].
    destruct (errors_is e _); [apply fails_plain_ret|by apply fails_plain_fail].
Qed.

(** ** Building the cache *)

Lemma reads_load ks : reads view env (load_loose c ks).
Proof.
  induction ks as [|k ks IH]; cbn [load_loose]; [apply (reads_ret view env)|].
  apply (reads_bind view env).
  { apply (reads_attempt view env), (reads_bind view env); [apply (reads_attempt view env), (reads_fetchSmall view env)|]. intros [body|e]; [apply (reads_lift view env)|].
    destruct (errors_is e _); apply (reads_fail view env). }
  intros [ref|e]; [apply (reads_bind view env); [exact IH|intros; apply (reads_ret view env)]|].
  destruct (errors_is e _); [exact IH|]. destruct (errors_is e _); [exact IH|apply (reads_fail view env)].
Qed.

Lemma ensureRefsBuilt_spec s r s' :
  refs_ok (refs s) -> ensureRefsBuilt c s = (r, s') ->
  env (view (world s)) (view (world s')) /\ refs_ok (refs s') /\
  (r = Ok tt -> r_built (refs s') = true).
Proof.
  intros Hok Hr. unfold ensureRefsBuilt in Hr.
  apply io_bind_inv in Hr as [(b & s0 & [= <- <-] & Hr)|(e & [=] & _)].
  unfold compose in Hr. destruct (r_built (refs s)) eqn:Eb; [by injection Hr as <- <-|].
  set (m := fetchSmallETag (packedKey c)) in Hr.
  apply io_bind_inv in Hr as [(r0 & s1 & Ha & Hr)|(e & Ha & _)]; [|by apply attempt_inv in Ha as (? & ? & _)].
  apply attempt_inv in Ha as (r1 & [= ->] & Ha).
  pose proof (reads_fetchSmallETag view env _ _ _ _ Ha) as [He1 Hs1].
  assert (Hsame : forall s2, s2 = with_world (world s2) s1 -> refs_ok (refs s2)).
  { intros s2 ->. cbn. rewrite Hs1. cbn. exact Hok. }
  assert (Hbe : forall body etag, (match r1 with Ok be => ret be | Err e =>
      if errors_is e ErrObjectNotFound then ret ([], []) else fail (Wrapf e) end) s1 = (Ok (body, etag), s1) ->
      (etag = [] /\ body = []) \/ etag = ETagOf body).
  { intros body etag Hm. destruct r1 as [[body' etag']|e'].
    - injection Hm as <- <-. apply fetchSmallETag_ok with (view := view) (env := env) in Ha as (b & o & _ & _ & _ & _ & ->); auto.
    - destruct (errors_is e' ErrObjectNotFound); [injection Hm as <- <-; auto|done]. }
  apply io_bind_inv in Hr as [([body etag] & s2 & Hm & Hr)|(e & Hm & ->)].
  2:{ destruct r1 as [?|e']; [done|]. destruct (errors_is e' _); [done|]. injection Hm as _ <-.
      split; [done|]. split; [|done]. rewrite Hs1. exact Hok. }
  assert (s2 = s1) as -> by (destruct r1 as [?|e']; [|destruct (errors_is e' _)]; by injection Hm).
  specialize (Hbe body etag Hm).
  apply io_bind_inv in Hr as [(packed & s2 & Hp & Hr)|(e & Hp & ->)].
  2:{ destruct (_ <? _)%nat; [|done]. injection Hp as _ <-. split; [done|]. split; [|done]. rewrite Hs1. exact Hok. }
  assert (s2 = s1) as -> by (destruct (_ <? _)%nat; by injection Hp).
  assert (Hrep : represents body packed).
  { destruct (0 <? length body)%nat eqn:El; b2p.
    - injection Hp as Hp. right. left. split; [by destruct body|done].
    - injection Hp as <-. left. split; [|done]. destruct body; [done|simpl in El; lia]. }
  assert (Hrl : reads view env (listLooseRefs c)).
  { apply (reads_bind view env); [apply (reads_listKeys view env)|]. intros ks. apply reads_load. }
  apply io_bind_inv in Hr as [(l & s3 & Hl & [= <- <-])|(e & Hl & ->)]; apply Hrl in Hl as [He3 Hs3].
  - cbn. split; [by etransitivity|]. split; [|done]. intros _. cbn. destruct Hbe as [[-> ->]| ->].
    + left. split; [done|]. destruct Hrep as [[_ ->]|[[? _]|Henc]]; [done|done|].
      exfalso. revert Henc. unfold encodePackedRefs. destruct (compressBlock _). done.
    + right. eauto.
  - split; [by etransitivity|]. split; [|done]. by apply Hsame.
Qed.

(** ** The loose layer *)

(** What a bucket says of the loose reference [n]: an object that does not decode is passed over. *)
Definition loose_at (b : bucket) (n : bytes) (v : option reference) : Prop :=
  v = match b !! (c_prefix c ++ refKey n) with
      | Some o => match decodeRefValue n (o_body o) with Ok x => Some x | Err _ => None end
      | None => None
      end.

(** Every name has in [loose] the value that the bucket had for it at an instant
    between [b1] and [b2]. *)
Definition loose_read (b1 b2 : bucket) (loose : refmap) : Prop :=
  forall n, exists b, env b1 b /\ env b b2 /\ loose_at b n (loose !! n).

Lemma loose_read_env b0 b1 b2 b3 l : env b0 b1 -> env b2 b3 -> loose_read b1 b2 l -> loose_read b0 b3 l.
Proof. intros H1' H2' Hl n. destruct (Hl n) as (b & ? & ? & ?). exists b. split; [by etransitivity|]. split; [by etransitivity|done]. Qed.

Lemma ref_name_decoded n v x : decodeRefValue n v = Ok x -> ref_name x = n.
Proof. unfold decodeRefValue. destruct (cut_prefix _ _); [by intros [= <-]|]. destruct (FromHex _); [by intros [= <-]|done]. Qed.

(** No other error of a fetch is one of the program's own. *)
Lemma fetch_sentinels k s e s' sn : fetchSmallETag k s = (Err e, s') -> program_sentinel sn = true -> sn <> ErrObjectNotFound -> errors_is e sn = false.
Proof.
  intros Hf Hsn Hne. apply io_bind_inv in Hf as [(y & s2 & Hb & Hf)|(e2 & Hb & _)]; apply attempt_inv in Hb as (y' & [= <-] & Hb).
  apply request_inv in Hb as (w' & Hw & ->). destruct y as [out|e0].
  - apply GetObject_ok in Hw as (b & o & _ & _ & _ & _ & _ & _ & Hfo). destruct (g_body out) as [|e1]; [done|].
    injection Hf as -> _. by apply (Hfo e eq_refl).
  - apply GetObject_err in Hw as [[Hfo _] _]. destruct (isNotFound e0); injection Hf as <- _; [|by apply Hfo].
    cbn. by apply bool_decide_eq_false.
Qed.

Lemma looseReference_spec n s r s' : looseReference c n s = (r, s') ->
  env (view (world s)) (view (world s')) /\
  match r with
  | Ok x => ref_name x = n /\ exists b, env (view (world s)) b /\ env b (view (world s')) /\ loose_at b n (Some x)
  | Err e => errors_is e ErrReferenceNotFound = true \/ errors_is e errMalformedRef = true ->
      exists b, env (view (world s)) b /\ env b (view (world s')) /\ loose_at b n None
  end.
Proof.
  unfold looseReference. intros Hr. apply io_bind_inv in Hr as [(x & s1 & Ha & Hr)|(e & Ha & _)]; apply attempt_inv in Ha as (x' & [= <-] & Ha).
  pose proof (reads_fetchSmall view env _ _ _ _ Ha) as [Henv _]. destruct x as [body|e].
  - injection Hr as <- <-. split; [exact Henv|]. apply io_bind_ok in Ha as ([body' t] & s2 & Hf & [= <- <-]).
    apply (fetchSmallETag_ok view env) in Hf as (b & o & H1' & H2' & H3' & -> & _).
    destruct (decodeRefValue n (o_body o)) as [x|e] eqn:Ed.
    + split; [by eapply ref_name_decoded|]. exists b. split; [done|]. split; [done|]. unfold loose_at. by rewrite H2', Ed.
    + intros _. exists b. split; [done|]. split; [done|]. unfold loose_at. by rewrite H2', Ed.
  - assert (Hs' : s' = s1) by (destruct (errors_is e _); by injection Hr). subst s'. split; [exact Henv|].
    apply io_bind_inv in Ha as [([body' t] & s2 & _ & [=])|(e' & Hf & [= <-])].
    destruct (errors_is e ErrObjectNotFound) eqn:E; injection Hr as <-.
    + intros _. apply (fetchSmallETag_missing view env) in Hf as (b & H1' & H2' & H3'); [|done]. exists b.
      split; [done|]. split; [done|]. unfold loose_at. by rewrite H2'.
    + intros Hx. exfalso. cbn in Hx.
      pose proof (fetch_sentinels _ _ _ _ ErrReferenceNotFound Hf eq_refl ltac:(done)) as E1.
      pose proof (fetch_sentinels _ _ _ _ errMalformedRef Hf eq_refl ltac:(done)) as E2. rewrite E1, E2 in Hx. by destruct Hx.
Qed.

Lemma refs_by_name_cons x l n : refs_by_name (x :: l) !! n =
  match refs_by_name l !! n with Some y => Some y | None => if decide (ref_name x = n) then Some x else None end.
Proof.
  unfold refs_by_name. cbn [fold_left].
  assert (Hg : forall l (m : refmap), fold_left (fun m r => <[ref_name r:=r]> m) l m !! n =
    match fold_left (fun m r => <[ref_name r:=r]> m) l (∅ : refmap) !! n with Some y => Some y | None => m !! n end).
  { clear. induction l as [|y l IH] using rev_ind; intros m; [by cbn; rewrite lookup_empty|]. rewrite !fold_left_app. cbn.
    destruct (decide (ref_name y = n)) as [<-|Hne]; [by rewrite !lookup_insert_eq|]. rewrite !lookup_insert_ne by done. apply IH. }
  rewrite Hg. destruct (fold_left _ l ∅ !! n); [done|].
  destruct (decide (ref_name x = n)) as [<-|Hne]; [by rewrite lookup_insert_eq|by rewrite lookup_insert_ne, lookup_empty].
Qed.

(** The names that are read, and those of the keys [ks] that are passed over. *)
Definition loose_found (b1 b2 : bucket) (ks : list bytes) (l : list reference) : Prop :=
  forall n, match refs_by_name l !! n with
            | Some x => exists b, env b1 b /\ env b b2 /\ loose_at b n (Some x)
            | None => c_prefix c ++ refKey n ∈ ks -> exists b, env b1 b /\ env b b2 /\ loose_at b n None
            end.

Lemma loose_found_env b0 b1 b2 ks l n : env b0 b1 -> loose_found b1 b2 ks l ->
  match refs_by_name l !! n with
  | Some x => exists b, env b0 b /\ env b b2 /\ loose_at b n (Some x)
  | None => c_prefix c ++ refKey n ∈ ks -> exists b, env b0 b /\ env b b2 /\ loose_at b n None
  end.
Proof.
  intros He Hl. specialize (Hl n). destruct (refs_by_name l !! n); [|intros Hk; specialize (Hl Hk)];
    destruct Hl as (b & ? & ? & ?); exists b; (split; [by etransitivity|done]).
Qed.

Lemma load_loose_spec ks s l s' : load_loose c ks s = (Ok l, s') ->
  env (view (world s)) (view (world s')) /\ loose_found (view (world s)) (view (world s')) ks l.
Proof.
  revert s l. induction ks as [|k ks IH]; intros s l Hr; cbn [load_loose] in Hr.
  { injection Hr as <- <-. split; [reflexivity|]. intros n. unfold refs_by_name. cbn. rewrite lookup_empty. by intros ?%elem_of_nil. }
  set (m := trim_prefix k (c_prefix c ++ refPrefix)) in *.
  assert (Hkey : forall n, c_prefix c ++ refKey n = k -> m = n).
  { intros n <-. unfold m, refKey. rewrite (assoc_L (++)). apply trim_prefix_app. }
  apply io_bind_ok in Hr as (x & s1 & Ha & Hr). apply attempt_inv in Ha as (x' & [= <-] & Ha).
  apply looseReference_spec in Ha as [He1 Hx].
  assert (Hskip : (exists b, env (view (world s)) b /\ env b (view (world s1)) /\ loose_at b m None) -> load_loose c ks s1 = (Ok l, s') ->
    env (view (world s)) (view (world s')) /\ loose_found (view (world s)) (view (world s')) (k :: ks) l).
  { intros (b0 & B1 & B2 & B3) Hl. apply IH in Hl as [He2 Hl]. split; [etransitivity; [exact He1|exact He2]|]. intros n.
    apply (loose_found_env _ _ _ _ _ n He1) in Hl. destruct (refs_by_name l !! n) as [y|]; [exact Hl|].
    intros [Hk|Hk]%elem_of_cons; [|by apply Hl]. apply Hkey in Hk as <-. exists b0. split; [done|]. split; [by etransitivity|done]. }
  destruct x as [ref|e].
  - clear Hskip. destruct Hx as (Hn & b0 & B1 & B2 & B3). apply io_bind_ok in Hr as (more & s2 & Hl & [= <- <-]). apply IH in Hl as [He2 Hl].
    split; [etransitivity; [exact He1|exact He2]|]. intros n. apply (loose_found_env _ _ _ _ _ n He1) in Hl. rewrite refs_by_name_cons.
    destruct (refs_by_name more !! n) as [y|]; [exact Hl|].
    destruct (decide (ref_name ref = n)) as [<-|Hne]; [rewrite Hn in *; exists b0; split; [done|]; split; [by etransitivity|done]|].
    intros [Hk|Hk]%elem_of_cons; [apply Hkey in Hk; congruence|]. by apply Hl.
  - destruct (errors_is e ErrReferenceNotFound) eqn:E1; [apply Hskip; [|exact Hr]; apply Hx; by left|].
    destruct (errors_is e errMalformedRef) eqn:E2; [apply Hskip; [|exact Hr]; apply Hx; by right|done].
Qed.

Lemma listLooseRefs_spec s l s' : listLooseRefs c s = (Ok l, s') -> loose_read (view (world s)) (view (world s')) (refs_by_name l).
Proof.
  unfold listLooseRefs. intros (ks & s1 & Hks & Hl)%io_bind_ok. pose proof (reads_listKeys view env _ _ _ _ _ Hks) as [He1 _].
  apply load_loose_spec in Hl as [He2 Hl]. intros n. apply (loose_found_env _ _ _ _ _ n He1) in Hl.
  destruct (refs_by_name l !! n) as [x|] eqn:En; [exact Hl|].
  apply (list_pages_complete view env _ _ _ _ _ _ (c_prefix c ++ refKey n)) in Hks as [Hin|(b & ? & Hb & ?)].
  - by apply Hl.
  - exists b. split; [done|]. split; [by etransitivity|]. unfold loose_at. by rewrite Hb.
  - unfold refKey, refPrefix. by destruct (c_prefix c).
  - unfold refKey. rewrite (assoc_L (++)). apply has_prefix_app.
  - done.
Qed.

(** A cache that is filled in a call is filled from the bucket of the call. *)
Lemma ensureRefsBuilt_loose s s' : ensureRefsBuilt c s = (Ok tt, s') ->
  (r_built (refs s) = true /\ s' = s) \/
  (r_built (refs s) = false /\ loose_read (view (world s)) (view (world s')) (r_loose (refs s'))).
Proof.
  unfold ensureRefsBuilt. intros (b & s0 & [= <- <-] & Hr)%io_bind_ok. unfold compose in Hr.
  destruct (r_built (refs s)) eqn:Eb; [left; by injection Hr as <-|]. right. split; [done|].
  apply io_bind_ok in Hr as (x & s1 & Ha & Hr). apply attempt_inv in Ha as (x' & [= <-] & Ha).
  apply (reads_fetchSmallETag view env) in Ha as [He1 _].
  apply io_bind_ok in Hr as ([body etag] & s2 & Hm & Hr).
  assert (s2 = s1) as -> by (destruct x as [?|e]; [|destruct (errors_is e _)]; by injection Hm).
  apply io_bind_ok in Hr as (packed & s2 & Hp & Hr). assert (s2 = s1) as -> by (destruct (_ <? _)%nat; by injection Hp).
  apply io_bind_ok in Hr as (l & s3 & Hl & [= <-]). cbn. apply listLooseRefs_spec in Hl. eapply loose_read_env; [exact He1|reflexivity|exact Hl].
Qed.

(** Where the loose layer of a commit comes from: the cache the storer had, with
    its packed layer, or the bucket between [b1] and [b2]. *)
Definition layer_from (had : option refCache) (b1 b2 : bucket) (packed loose : refmap) : Prop :=
  (exists rc, had = Some rc /\ r_built rc = true /\ loose = r_loose rc /\ packed = r_packed rc) \/ loose_read b1 b2 loose.

(** ** Cleaning up *)

Definition loose_key (k : bytes) : Prop := exists n, k = c_prefix c ++ refKey n.

(** Foreign writes and deletions of loose keys. *)
Definition cleans : bucket -> bucket -> Prop :=
  rtc (fun b b' => env b b' \/ exists ks, Forall loose_key ks /\ b' = foldr delete b ks).

Lemma cleans_env b b' : env b b' -> cleans b b'.
Proof. intros He. apply rtc_once. by left. Qed.

Lemma delete_batches_spec n ks s r s' :
  Forall loose_key ks -> delete_batches n ks s = (r, s') ->
  cleans (view (world s)) (view (world s')) /\
  (r = Ok tt -> refs s' = refs s) /\ (forall e, r = Err e -> refs s' = newRefCache).
Proof.
  revert ks s. induction n as [|n IH]; intros ks s Hks Hr; cbn [delete_batches] in Hr.
  { injection Hr as <- <-. split; [apply cleans_env; reflexivity|done]. }
  destruct ks as [|k ks]; [injection Hr as <- <-; split; [apply cleans_env; reflexivity|done]|].
  set (l := k :: ks) in *.
  apply io_bind_inv in Hr as [(r0 & s1 & Ha & Hr)|(e & Ha & _)]; [|by apply attempt_inv in Ha as (? & ? & _)].
  apply attempt_inv in Ha as (r1 & [= ->] & Ha). apply request_inv in Ha as (w' & Hw & ->).
  assert (Hdel : forall b ks', ks' ⊆ take maxDeleteBatch l -> env (view (world s)) b -> env (foldr delete b ks') (view w') ->
    cleans (view (world s)) (view w')).
  { intros b ks' Hsub Hb Hb'. eapply rtc_l; [by left|]. eapply rtc_l; [right; exists ks'; split; [|done]|by apply cleans_env].
    rewrite Forall_forall in Hks |- *. intros x Hx. apply Hks. eapply subseteq_take. by apply Hsub. }
  destruct r1 as [failed|e].
  - apply DeleteObjects_ok in Hw as (b & Hb & Hb').
    apply IH in Hr as (Hc & Hok & Herr); [|by apply Forall_drop]. split; [|done].
    etransitivity; [|exact Hc]. cbn. eapply Hdel; [|exact Hb|exact Hb'].
    intros x Hx. by apply list_elem_of_filter in Hx as [_ ?].
  - apply DeleteObjects_err in Hw as (_ & b & ks' & Hb & Hsub & Hb').
    apply io_bind_inv in Hr as [(u & s2 & [= <- <-] & [= <- <-])|(? & [=] & _)].
    split; [cbn; by eapply Hdel|]. split; [done|]. done.
Qed.

(** ** The commit *)

Record landed (had : option refCache) (sets : list reference) (removes : list bytes) (expect : list refExpectation)
    (b0 : bucket) (s' : St) (b : bucket) (packed loose : refmap) : Prop := {
  la_env : env b0 b;
  la_holds : holds b packed;
  la_loose : layer_from had b0 b packed loose;
  la_expect : checkRefExpectations (loose ∪ packed) expect = Ok tt;
  la_after : cleans (<[packedKey c := {| o_body := encodePackedRefs (apply_batch sets removes (loose ∪ packed));
                                         o_meta := ∅ |}]> b) (view (world s'));
}.

Definition outcome (had : option refCache) (sets : list reference) (removes : list bytes) (expect : list refExpectation)
    (b0 : bucket) (r : gores unit) (s' : St) : Prop :=
  ((r = Ok tt \/ exists e, r = Err (CleanupError e)) /\
   exists b packed loose, landed had sets removes expect b0 s' b packed loose /\
     (r = Ok tt -> refs s' = {| r_built := true; r_etag := ETagOf (encodePackedRefs (apply_batch sets removes (loose ∪ packed)));
                                r_packed := apply_batch sets removes (loose ∪ packed); r_loose := ∅ |})) \/
  (exists e, r = Err e /\ plain_err e /\ env b0 (view (world s'))) \/
  (exists e, r = Err (Wrapf e) /\ foreign e).

Lemma outcome_env had sets removes expect b0 b1 r s' : env b0 b1 -> outcome None sets removes expect b1 r s' -> outcome had sets removes expect b0 r s'.
Proof.
  intros He [(Hr & b & p & l & Hl & Hrf)|[(e' & -> & Hp & Hb)|Hc]].
  - left. split; [done|]. exists b, p, l. split; [|done]. destruct Hl as [Le Lh Ll Lx La]. split; auto; [by etransitivity|]. right. destruct Ll as [(rc & [=] & _)|Ll].
    eapply loose_read_env; [exact He|reflexivity|exact Ll].
  - right. left. exists e'. split; [done|]. split; [done|]. by etransitivity.
  - by right; right.
Qed.

(** The version a conditional write names is the one the view was read from. *)
Lemma etag_holds (rc : refCache) b : refs_ok rc -> r_built rc = true ->
  cond_holds (match r_etag rc with [] => IfNoneMatch | _ => IfMatch (r_etag rc) end) (packedKey c) b -> holds b (r_packed rc).
Proof.
  intros Hok Hb Hc. destruct (Hok Hb) as [[Het Hp]|(body & Het & Hrep)].
  - rewrite Het in Hc. left. by split.
  - pose proof (ETagOf_nonempty body) as Hne. rewrite <-Het in Hne. destruct (r_etag rc) as [|x et]; [done|].
    destruct Hc as (o & Ho & Hoe). right. exists o. split; [done|].
    rewrite Het in Hoe. apply (inj ETagOf) in Hoe. by rewrite Hoe.
Qed.

Lemma commit_attempts_spec n first sets removes expect s r s' :
  refs_ok (refs s) -> commit_attempts c n first sets removes expect s = (r, s') ->
  outcome (if first then Some (refs s) else None) sets removes expect (view (world s)) r s' /\ refs_ok (refs s').
Proof.
  revert first s. induction n as [|n IH]; intros first s Hok Hr; cbn [commit_attempts] in Hr.
  { injection Hr as <- <-. split; [|done]. right. left. eexists. split; [done|]. split; [done|reflexivity]. }
  apply io_bind_inv in Hr as [(u0 & s0 & Hi & Hr)|(e & Hi & _)]; [|by destruct first].
  assert (Hs0 : refs_ok (refs s0) /\ world s0 = world s /\ (r_built (refs s0) = true -> first = true /\ s0 = s))
    by (destruct first; injection Hi as _ <-; by split).
  destruct Hs0 as (Hok0 & Hw0 & Hfirst). clear Hi.
  apply io_bind_inv in Hr as [([] & s1 & He & Hr)|(e & He & ->)].
  2:{ pose proof (ensureRefsBuilt_spec _ _ _ Hok0 He) as (Henv & Hok1 & _). split; [|done].
      right. left. exists e. split; [done|]. rewrite <-Hw0. split; [by eapply fails_plain_ensure|done]. }
  pose proof (ensureRefsBuilt_spec _ _ _ Hok0 He) as (Henv & Hok1 & Hbuilt). specialize (Hbuilt eq_refl).
  assert (Hlayer : forall b, env (view (world s1)) b ->
    layer_from (if first then Some (refs s) else None) (view (world s)) b (r_packed (refs s1)) (r_loose (refs s1))).
  { intros b Hb. destruct (ensureRefsBuilt_loose _ _ He) as [[Hb0 ->]|[_ Hl]].
    - destruct (Hfirst Hb0) as [-> ->]. left. by exists (refs s).
    - right. eapply loose_read_env; [|exact Hb|exact Hl]. by rewrite Hw0. }
  rewrite Hw0 in Henv. clear He.
  apply io_bind_inv in Hr as [(rc & s2 & [= <- <-] & Hr)|(? & [=] & _)].
  set (etag := r_etag (refs s1)) in *. set (packed := r_packed (refs s1)). set (loose := r_loose (refs s1)).
  change (merged (refs s1)) with (loose ∪ packed) in Hr.
  apply io_bind_inv in Hr as [([] & s2 & [= Hx <-] & Hr)|(e & [= Hx <-] & ->)].
  2:{ split; [|done]. right. left. exists e. split; [done|]. split; [|done].
      unfold checkRefExpectations in Hx. destruct (existsb _ _); [|done]. by injection Hx as <-. }
  set (next := apply_batch sets removes (loose ∪ packed)) in *.
  apply io_bind_inv in Hr as [(r0 & s2 & Ha & Hr)|(e & Ha & _)]; [|by apply attempt_inv in Ha as (? & ? & _)].
  apply attempt_inv in Ha as (r1 & [= ->] & Ha). apply request_inv in Ha as (w' & Hw & ->).
  destruct r1 as [t|e].
  - apply PutObject_ok in Hw as (b & Hb & Hc & -> & Hb').
    assert (Hh : holds b packed) by (by apply etag_holds).
    apply io_bind_inv in Hr as [(u & s2 & [= <- <-] & Hr)|(? & [=] & _)].
    apply io_bind_inv in Hr as [(r0 & s3 & Ha & Hr)|(e & Ha & _)]; [|by apply attempt_inv in Ha as (? & ? & _)].
    apply attempt_inv in Ha as (r2 & [= ->] & Ha).
    unfold dropFoldedLooseRefs in Ha. apply delete_batches_spec in Ha as (Hcl & Hrok & Hrerr).
    2:{ apply Forall_fmap, Forall_forall. intros x _. by exists x. }
    assert (Hl : forall sx, world sx = world s3 -> landed (if first then Some (refs s) else None) sets removes expect (view (world s)) sx b packed loose).
    { intros sx Hsx. split; [by etransitivity|done|by apply Hlayer|done|]. rewrite Hsx. eapply rtc_l; [left; exact Hb'|exact Hcl]. }
    destruct r2 as [[]|e]; injection Hr as <- <-.
    + split.
      * left. split; [by left|]. exists b, packed, loose. split; [by apply Hl|]. intros _. by rewrite Hrok.
      * rewrite Hrok by done. intros _. right. exists (encodePackedRefs next). split; [done|]. by right; right.
    + split; [left; split; [right; by eexists|]; exists b, packed, loose; split; [by apply Hl|done]|].
      rewrite (Hrerr e) by done. done.
  - pose proof (PutObject_err _ _ _ _ _ _ _ Hw) as [Hf _].
    destruct (isPreconditionFailed e) eqn:Ep.
    + apply PutObject_refused in Hw as Henv2; [|done].
      apply IH in Hr as [Hout Hok2]; [|done]. split; [|done]. eapply outcome_env; [|exact Hout]. by etransitivity.
    + injection Hr as <- <-. split; [|done]. right. right. eauto.
Qed.

Lemma apply_batch_lookup (sets : list reference) (removes : list bytes) (m : refmap) (n : bytes) :
  apply_batch sets removes m !! n =
  if decide (n ∈ removes) then None
  else match last (filter (fun r => ref_name r = n) sets) with Some r => Some r | None => m !! n end.
Proof.
  unfold apply_batch. set (m1 := fold_left _ sets m).
  assert (Hm1 : m1 !! n = match last (filter (fun r => ref_name r = n) sets) with Some r => Some r | None => m !! n end).
  { unfold m1. clear m1. induction sets as [|r sets IH] using rev_ind; [done|].
    rewrite fold_left_app, filter_app, filter_cons, filter_nil. cbn.
    destruct (decide (ref_name r = n)) as [<-|Hne].
    - by rewrite lookup_insert_eq, last_snoc.
    - by rewrite lookup_insert_ne, app_nil_r. }
  rewrite <-Hm1. generalize m1 as mm. clear. induction removes as [|x removes IH] using rev_ind; intros mm; [done|].
  rewrite fold_left_app. cbn. destruct (decide (x = n)) as [->|Hne].
  - rewrite lookup_delete_eq, decide_True; [done|]. set_solver.
  - rewrite lookup_delete_ne by done. rewrite IH.
    destruct (decide (n ∈ removes)), (decide (n ∈ removes ++ [x])); set_solver.
Qed.

(** ** The flush before a commit leaves the cache alone *)

Definition keeps_refs {A} (m : M A) : Prop := forall s r s', m s = (r, s') -> refs s' = refs s.

Lemma keeps_refs_bind {A B} (m : M A) (f : A -> M B) :
  keeps_refs m -> (forall a, keeps_refs (f a)) -> keeps_refs (io_bind m f).
Proof.
  intros Hm Hf s r s' Hr. apply io_bind_inv in Hr as [(a & s1 & H1' & H2')|(e & H1' & ->)].
  - apply Hm in H1'. apply Hf in H2'. congruence.
  - by apply Hm in H1'.
Qed.
Lemma keeps_refs_attempt {A} (m : M A) : keeps_refs m -> keeps_refs (attempt m).
Proof. intros Hm s r s' Hr. apply attempt_inv in Hr as (r0 & -> & Hr). by apply Hm in Hr. Qed.
Lemma keeps_refs_wrapping {A} (m : M A) : keeps_refs m -> keeps_refs (wrapping m).
Proof. intros Hm s r s' Hr. apply wrapping_inv in Hr as [(a & -> & Hr)|(e & -> & Hr)]; by apply Hm in Hr. Qed.
Lemma keeps_refs_modify f : (forall s, refs (f s) = refs s) -> keeps_refs (modify f).
Proof. by intros Hf s r s' [= _ <-]. Qed.
Lemma keeps_refs_request {A} (f : World -> gores A * World) : keeps_refs (request f).
Proof. intros s r s' Hr. by apply request_inv in Hr as (w' & _ & ->). Qed.
Lemma keeps_refs_ret {A} (a : A) : keeps_refs (ret a).
Proof. by intros s r s' [= _ <-]. Qed.

Lemma keeps_refs_putFile p k : keeps_refs (putFile p k).
Proof.
  apply keeps_refs_bind.
  - intros s r s'. unfold openFile. by destruct (files s !! p); intros [= _ <-].
  - intros body. apply keeps_refs_bind; [apply keeps_refs_request|intros; apply keeps_refs_ret].
Qed.

Lemma keeps_refs_handle j : keeps_refs (handle_job c j).
Proof.
  apply keeps_refs_bind.
  { apply keeps_refs_attempt. destruct j; cbn [run_job].
    - apply keeps_refs_bind.
      + apply keeps_refs_wrapping. intros s r s'. unfold openFile. by destruct (files s !! path); intros [= _ <-].
      + intros body. apply keeps_refs_bind; [apply keeps_refs_wrapping, keeps_refs_request|intros; apply keeps_refs_ret].
    - apply keeps_refs_bind; [apply keeps_refs_wrapping, keeps_refs_putFile|]. intros _.
      apply keeps_refs_bind; [apply keeps_refs_wrapping, keeps_refs_putFile|intros; apply keeps_refs_ret]. }
  assert (Hd : forall e, keeps_refs (job_done j e)).
  { intros e. destruct j; cbn [job_done]; [by apply keeps_refs_modify|].
    repeat (apply keeps_refs_bind; [by apply keeps_refs_modify|]; intros _). by apply keeps_refs_modify. }
  intros [u|e]; [apply Hd|]. apply keeps_refs_bind; [|intros; apply Hd].
  apply keeps_refs_modify. intros s. by destruct (up_err s).
Qed.

Lemma flush_refs s r s' : flush c s = (r, s') -> refs s' = refs s.
Proof.
  unfold flush. set (s1 := drain _ _ _). assert (Hs1 : refs s1 = refs s).
  { unfold s1. generalize (length (queue s)) as n. clear. intros n. revert s.
    induction n as [|n IH]; intros s; cbn [drain]; [done|]. rewrite IH. unfold up_step.
    destruct (queue s !! 0%nat) as [j|]; [|done].
    destruct (handle_job c j _) as [r s'] eqn:E. cbn. by apply keeps_refs_handle in E. }
  intros [= _ <-]. cbn. exact Hs1.
Qed.

Lemma commit_outcome sets removes expect s r s' :
  refs_ok (refs s) -> sets <> [] \/ removes <> [] ->
  commitRefsNotifying c sets removes expect s = (r, s') ->
  let s1 := snd (flush c s) in
  (outcome (Some (refs s)) sets removes expect (view (world s1)) r s' /\ refs_ok (refs s')) \/
  (exists e, fst (flush c s) = Err e /\ r = Err (Wrapf e) /\ s' = s1).
Proof.
  intros Hok Hne Hr. unfold commitRefsNotifying in Hr.
  replace ((length sets =? 0)%nat && (length removes =? 0)%nat) with false in Hr
    by (destruct sets, removes; (done || by destruct Hne)).
  destruct (flush c s) as [rf s1] eqn:Ef. cbn.
  apply io_bind_inv in Hr as [(u & s2 & Hw & Hr)|(e & Hw & ->)].
  - left. apply wrapping_inv in Hw as [(u' & [= ->] & Hw)|(e & [=] & _)]. rewrite Ef in Hw. injection Hw as -> ->.
    pose proof (flush_refs _ _ _ Ef) as Hrf. rewrite <-Hrf in Hok |- *. by apply commit_attempts_spec in Hr.
  - right. apply wrapping_inv in Hw as [(u' & [=] & Hw)|(e' & [= ->] & Hw)]. rewrite Ef in Hw. injection Hw as -> ->. eauto.
Qed.

Lemma strict_expectations_hold (isZero : Hash -> bool) (expected : gmap bytes Hash) (m : refmap) :
  checkRefExpectations m (strict_expectation isZero <$> map_to_list expected) = Ok tt ->
  forall n h, expected !! n = Some h ->
    if isZero h then m !! n = None else exists cur, m !! n = Some cur /\ ref_hash cur = h.
Proof.
  unfold checkRefExpectations. destruct (existsb _ _) eqn:E; [done|]. intros _ n h Hn.
  apply elem_of_map_to_list in Hn. apply not_true_iff_false in E.
  assert (Hf : expectation_fails m (strict_expectation isZero (n, h)) = false).
  { apply not_true_iff_false. intros Ht. apply E, existsb_exists. eexists. split; [|exact Ht].
    apply list_elem_of_In. by apply list_elem_of_fmap_2. }
  unfold expectation_fails, strict_expectation in Hf. cbn in Hf. destruct (isZero h); cbn in Hf.
  - b2p. destruct (m !! n); [|done]. exfalso. eauto.
  - destruct (m !! n) as [cur|]; cbn in Hf.
    + exists cur. split; [done|]. destruct (bool_decide (ref_hash cur = h)) eqn:Eh; cbn in Hf; [by b2p|done].
    + done.
Qed.
End spec.

(** ** Properties *)

Section properties.
Context `{GoGit, Zstd, S3}.

(** C11: a batch of references reported as committed was written by one
    conditional request, at an instant when the packed-refs object was exactly
    the one the new set was computed from: every name outside the batch keeps
    the value it had there, or its value in the loose layer, and the batch's own
    values are in place, so no concurrent update of the packed references is
    lost. The loose layer is not made up either: it is the one that the storer had
    with this very packed layer, or each name has in it the value of that name's
    loose object in the bucket at an instant of the commit, and none that had no
    object then. *)
Theorem commit_no_lost_update (view : World -> bucket) (env : bucket -> bucket -> Prop) (c : config)
    (sets : list reference) (removes : list bytes) (expect : list refExpectation) (s s' : St) (r : gores unit) :
  S3Laws view env -> refs_ok (refs s) -> sets <> [] \/ removes <> [] ->
  commitRefsNotifying c sets removes expect s = (r, s') ->
  r = Ok tt \/ (exists e, r = Err (CleanupError e)) ->
  exists b packed loose next,
    env (view (world (snd (flush c s)))) b /\ holds c b packed /\
    layer_from env c (Some (refs s)) (view (world (snd (flush c s)))) b packed loose /\
    checkRefExpectations (loose ∪ packed) expect = Ok tt /\
    (forall n, next !! n =
       if decide (n ∈ removes) then None
       else match last (filter (fun x => ref_name x = n) sets) with
            | Some x => Some x
            | None => match loose !! n with Some x => Some x | None => packed !! n end
            end) /\
    cleans env c (<[packedKey c := {| o_body := encodePackedRefs next; o_meta := ∅ |}]> b) (view (world s')).
Proof.
  intros Hl Hok Hne Hr Hc. apply (commit_outcome view env c) in Hr; [|done..].
  destruct Hr as [[[(_ & b & p & l & [Hb Hh Hfrom Hx Ha] & _)|[(e & -> & Hp & _)|(e & -> & _)]] _]|(e & _ & -> & _)].
  - exists b, p, l, (apply_batch sets removes (l ∪ p)). do 4 (split; [done|]). split; [|done].
    intros n. rewrite apply_batch_lookup, lookup_union. by destruct (l !! n), (p !! n).
  - destruct Hc as [|[e' [= ->]]]; done.
  - by destruct Hc as [|[e' [=]]].
  - by destruct Hc as [|[e' [=]]].
Qed.

(** A checked update that reports a commit found every expected reference
    exactly as advertised at the instant of its write: absent where the client
    advertised nothing, and at the advertised hash otherwise. *)
Theorem checked_update_linearizes (view : World -> bucket) (env : bucket -> bucket -> Prop) (c : config)
    (isZero : Hash -> bool) (sets : list reference) (removes : list bytes) (expected : gmap bytes Hash)
    (s s' : St) (r : gores unit) :
  S3Laws view env -> refs_ok (refs s) -> sets <> [] \/ removes <> [] ->
  UpdateReferencesChecked c isZero sets removes expected s = (r, s') ->
  r = Ok tt \/ (exists e, r = Err (CleanupError e)) ->
  exists b packed loose,
    env (view (world (snd (flush c s)))) b /\ holds c b packed /\
    layer_from env c (Some (refs s)) (view (world (snd (flush c s)))) b packed loose /\
    (forall n h, expected !! n = Some h ->
       if isZero h then (loose ∪ packed) !! n = None
       else exists cur, (loose ∪ packed) !! n = Some cur /\ ref_hash cur = h) /\
    cleans env c (<[packedKey c := {| o_body := encodePackedRefs (apply_batch sets removes (loose ∪ packed));
                                      o_meta := ∅ |}]> b) (view (world s')).
Proof.
  intros Hl Hok Hne Hr Hc. unfold UpdateReferencesChecked in Hr. destruct (negb (c_packedRefs c)).
  { injection Hr as <- <-. by destruct Hc as [|[e [=]]]. }
  apply (commit_outcome view env c) in Hr; [|done..].
  destruct Hr as [[[(_ & b & p & l & [Hb Hh Hfrom Hx Ha] & _)|[(e & -> & Hp & _)|(e & -> & _)]] _]|(e & _ & -> & _)].
  - exists b, p, l. do 3 (split; [done|]). split; [|done]. by apply strict_expectations_hold.
  - destruct Hc as [|[e' [= ->]]]; done.
  - by destruct Hc as [|[e' [=]]].
  - by destruct Hc as [|[e' [=]]].
Qed.

(** A commit refused because a reference had moved, or because eight
    compare-and-swap attempts in a row lost, changed nothing in the bucket
    after the uploads it waited for. *)
Theorem refused_commit_writes_nothing (view : World -> bucket) (env : bucket -> bucket -> Prop) (c : config)
    (sets : list reference) (removes : list bytes) (expect : list refExpectation) (s s' : St) (e : goerr) :
  S3Laws view env -> refs_ok (refs s) -> fst (flush c s) = Ok tt ->
  commitRefsNotifying c sets removes expect s = (Err e, s') ->
  (forall e', e <> CleanupError e') ->
  errors_is e ErrReferenceHasChanged = true \/ errors_is e ErrRefContention = true ->
  env (view (world (snd (flush c s)))) (view (world s')) /\ refs_ok (refs s').
Proof.
  intros Hl Hok Hf Hr Hc He.
  assert (Hne : sets <> [] \/ removes <> []).
  { destruct sets; [|by left]. destruct removes; [|by right]. by injection Hr. }
  apply (commit_outcome view env c) in Hr; [|done..].
  destruct Hr as [[[([|(e' & [= ->])] & _)|[(e' & [= <-] & _ & Hb)|(e' & [= ->] & [Hfo _])]] Hok']|(e' & He' & _)]; try done.
  - by destruct (Hc e').
  - exfalso. cbn in He. by rewrite !Hfo in He; destruct He.
  - congruence.
Qed.

(** After a successful commit the same storer reads its own writes, with no
    further request: a set reference has its new value, a removed one is gone. *)
Theorem commit_read_own_writes (view : World -> bucket) (env : bucket -> bucket -> Prop) (c : config)
    (sets : list reference) (removes : list bytes) (s s' : St) (n : bytes) :
  S3Laws view env -> refs_ok (refs s) -> sets <> [] \/ removes <> [] ->
  commitRefs c sets removes [] s = (Ok tt, s') ->
  (n ∈ removes -> Reference c n s' = (Err (Sent ErrReferenceNotFound), s')) /\
  (forall x, n ∉ removes -> last (filter (fun x => ref_name x = n) sets) = Some x -> Reference c n s' = (Ok x, s')).
Proof.
  intros Hl Hok Hne Hr. apply (commit_outcome view env c) in Hr; [|done..].
  destruct Hr as [[[(_ & b & p & l & _ & Hrefs)|[(e & [=] & _)|(e & [=] & _)]] _]|(e & _ & [=] & _)].
  specialize (Hrefs eq_refl).
  assert (Href : forall r, (∅ ∪ apply_batch sets removes (l ∪ p)) !! n = r ->
    Reference c n s' = (match r with Some x => Ok x | None => Err (Sent ErrReferenceNotFound) end, s')).
  { intros r <-. unfold Reference, refView, ensureRefsBuilt, io_bind, gets. unfold compose. rewrite Hrefs. cbn.
    unfold merged. rewrite Hrefs. cbn. by destruct (_ !! n). }
  rewrite (left_id_L ∅ (∪)), apply_batch_lookup in Href. split.
  - intros Hn. rewrite decide_True in Href by done. by rewrite (Href None).
  - intros x Hn Hx. rewrite decide_False, Hx in Href by done. by rewrite (Href (Some x)).
Qed.
End properties.

(** ** Witnesses *)

#[local] Existing Instance Mem.mem_s3.


Definition mem_start (b : bucket) (sc : list Mem.interference) : @St toy_git Mem.mem_s3 :=
  @Build_St toy_git Mem.mem_s3 {| Mem.mem := b; Mem.script := sc |} ∅ None ∅ [] (newPackIndex 20)
    newRefCache {| s_built := false; s_hashes := [] |} ∅.

Definition main_ref : @reference toy_git := HashReference (bs "refs/heads/main") sample_hash.
Definition other_ref : @reference toy_git := HashReference (bs "refs/heads/other") sample_hash.
Definition other_refs : gmap bytes (@reference toy_git) := {[bs "refs/heads/other" := other_ref]}.

Definition still : Mem.interference := {| Mem.changes := []; Mem.fails := false; Mem.undeletable := [] |}.

(** Another client's commit lands between our read and our write. *)
Definition racing : list Mem.interference :=
  [still; still;
   {| Mem.changes := [(bs "acme/app/packed-refs", Some {| o_body := encodePackedRefs other_refs; o_meta := ∅ |})];
      Mem.fails := false; Mem.undeletable := [] |}].

Definition race_start : @St toy_git Mem.mem_s3 := mem_start ∅ racing.
Definition race_run : gores unit * @St toy_git Mem.mem_s3 :=
  commitRefsNotifying unit_config [main_ref] [] [] race_start.

(** The race is lost once and both references survive. *)
Example race_keeps_both :
  match Mem.mem (world (snd race_run)) !! bs "acme/app/packed-refs" with
  | Some o => match decodePackedRefs (o_body o) with
              | Ok m => bool_decide (m !! bs "refs/heads/main" = Some main_ref) &&
                        bool_decide (m !! bs "refs/heads/other" = Some other_ref)
              | Err _ => false
              end
  | None => false
  end = true.
Proof. vm_compute. reflexivity. Qed.

Lemma pair_fst {A B} (p : A * B) a : fst p = a -> p = (a, snd p).
Proof. by destruct p; intros <-. Qed.

Lemma race_ok : race_run = (Ok tt, snd race_run).
Proof.
  apply pair_fst. vm_compute. reflexivity.
Qed.

Lemma mem_start_ok b sc : refs_ok (H1 := Mem.mem_s3) (refs (mem_start b sc)).
Proof. done. Qed.

Lemma commit_no_lost_update_witness :
  exists (b : bucket) (packed next : gmap bytes (@reference toy_git)),
    holds unit_config b packed /\ next !! bs "refs/heads/main" = Some main_ref /\
    cleans Mem.any_env unit_config
      (<[packedKey unit_config := {| o_body := encodePackedRefs next; o_meta := ∅ |}]> b)
      (Mem.mem (world (snd race_run))).
Proof.
  assert (Hne : [main_ref] <> [] \/ @nil bytes <> []) by (left; discriminate).
  destruct (@commit_no_lost_update toy_git toy_zstd Mem.mem_s3 Mem.mem Mem.any_env unit_config [main_ref] [] [] race_start (snd race_run) (Ok tt)
    Mem.mem_s3_laws (mem_start_ok ∅ racing) Hne race_ok (or_introl eq_refl))
    as (b & p & l & next & _ & Hh & _ & _ & Hn & Hc).
  exists b, p, next. split; [exact Hh|]. split; [|exact Hc].
  rewrite Hn. reflexivity.
Defined.

Definition checked_run : gores unit * @St toy_git Mem.mem_s3 :=
  UpdateReferencesChecked unit_config (fun h => bool_decide (h = ZeroHash)) [main_ref] []
    {[bs "refs/heads/main" := ZeroHash]} race_start.

Lemma checked_ok : checked_run = (Ok tt, snd checked_run).
Proof. apply pair_fst. vm_compute. reflexivity. Qed.

Lemma checked_update_linearizes_witness :
  exists (b : bucket) (packed loose : gmap bytes (@reference toy_git)), holds unit_config b packed /\ (loose ∪ packed) !! bs "refs/heads/main" = None.
Proof.
  assert (Hne : [main_ref] <> [] \/ @nil bytes <> []) by (left; discriminate).
  destruct (@checked_update_linearizes toy_git toy_zstd Mem.mem_s3 Mem.mem Mem.any_env unit_config (fun h => bool_decide (h = ZeroHash))
    [main_ref] [] {[bs "refs/heads/main" := ZeroHash]} race_start (snd checked_run) (Ok tt)
    Mem.mem_s3_laws (mem_start_ok ∅ racing) Hne checked_ok (or_introl eq_refl))
    as (b & p & l & _ & Hh & _ & Hx & _).
  exists b, p, l. split; [exact Hh|].
  exact (Hx (bs "refs/heads/main") ZeroHash (lookup_singleton_eq _ _)).
Defined.

(** The same race, with the other client creating the very reference we expect absent. *)
Definition stolen : list Mem.interference :=
  [still; still;
   {| Mem.changes := [(bs "acme/app/packed-refs",
                       Some {| o_body := encodePackedRefs {[bs "refs/heads/main" := main_ref]}; o_meta := ∅ |})];
      Mem.fails := false; Mem.undeletable := [] |}].
Definition stolen_start : @St toy_git Mem.mem_s3 := mem_start ∅ stolen.
Definition absent_main : @refExpectation toy_git :=
  {| x_name := bs "refs/heads/main"; x_old := None; x_strict := true |}.
Definition stolen_run : gores unit * @St toy_git Mem.mem_s3 :=
  commitRefsNotifying unit_config [main_ref] [] [absent_main] stolen_start.

Lemma stolen_refused : stolen_run = (Err (Sent ErrReferenceHasChanged), snd stolen_run).
Proof. apply pair_fst. vm_compute. reflexivity. Qed.

Lemma refused_commit_writes_nothing_witness :
  fst stolen_run = Err (Sent ErrReferenceHasChanged) /\ refs_ok (refs (snd stolen_run)).
Proof.
  split; [rewrite stolen_refused; reflexivity|].
  assert (Hf : fst (flush unit_config stolen_start) = Ok tt) by (vm_compute; reflexivity).
  assert (Hc : forall e', Sent ErrReferenceHasChanged <> CleanupError e') by (intros e'; discriminate).
  exact (proj2 (@refused_commit_writes_nothing toy_git toy_zstd Mem.mem_s3 Mem.mem Mem.any_env unit_config [main_ref] [] [absent_main]
    stolen_start (snd stolen_run) (Sent ErrReferenceHasChanged)
    Mem.mem_s3_laws (mem_start_ok ∅ stolen) Hf stolen_refused Hc (or_introl eq_refl))).
Defined.

Lemma commit_read_own_writes_witness :
  Reference unit_config (bs "refs/heads/main") (snd race_run) = (Ok main_ref, snd race_run).
Proof.
  assert (Hne : [main_ref] <> [] \/ @nil bytes <> []) by (left; discriminate).
  apply (proj2 (@commit_read_own_writes toy_git toy_zstd Mem.mem_s3 Mem.mem Mem.any_env unit_config [main_ref] [] race_start (snd race_run)
    (bs "refs/heads/main") Mem.mem_s3_laws (mem_start_ok ∅ racing) Hne race_ok)).
  - apply not_elem_of_nil.
  - reflexivity.
Defined.

(** ** Findings *)

Definition loose_main : s3obj := {| o_body := encodeRefValue main_ref; o_meta := ∅ |}.
Definition loose_bucket : bucket := {[bs "acme/app/refs/refs/heads/main" := loose_main]}.
Definition undeletable_script : list Mem.interference :=
  [still; still; still; still;
   {| Mem.changes := []; Mem.fails := false; Mem.undeletable := [bs "acme/app/refs/refs/heads/main"] |}].

(** [RemoveReference] reports success although the store named the loose key
    as not deleted, and a fresh storer reads the removed reference again. *)
Example removed_reference_survives :
  let '(r, s) := RemoveReference unit_config (bs "refs/heads/main") (mem_start loose_bucket undeletable_script) in
  match r, fst (Reference unit_config (bs "refs/heads/main") (mem_start (Mem.mem (world s)) [])) with
  | Ok _, Ok back => bool_decide (back = main_ref)
  | _, _ => false
  end = true.
Proof. vm_compute. reflexivity. Qed.

(** A packed-refs object of zero bytes is read as a repository without references. *)
Example empty_object_is_empty_set :
  match fst (refView unit_config (mem_start {[bs "acme/app/packed-refs" := {| o_body := []; o_meta := ∅ |}]} [])) with
  | Ok m => bool_decide (size m = 0%nat)
  | Err _ => false
  end = true.
Proof. vm_compute. reflexivity. Qed.
