(* ===== verification/Objects.v ===== *)
(** * Reading objects (internal/storage/tigris/objects.go, packindex.go, deltaobject.go, iter.go)

    Existence, size and content of an object, from the staging area, from a
    pack container or from a loose key; delta chains; iteration. *)

From S2P Require Import Prelude GoLib S3 Codec Cue PackTable PackIndex Storer.

Definition maxDeltaDepth : nat := 50.
Definition decodeHintCap : Z := Z.shiftl 8 20.

(** The recursion bound of the model: one level per link, and the two ends. *)
Definition objectFuel : nat := 60.

Record objHead := { oh_typ : Z; oh_size : Z }.

(** A [plumbing.EncodedObject] in memory. *)
Record object := { eo_typ : Z; eo_size : Z; eo_bytes : bytes }.

Section objects.
Context `{GoGit, Zstd, S3, GoGitObjects}.
Context (c : config).

Abbreviation M := (io St).

(** ** Heads *)

Definition parsePendingHead (p : pendingMeta) : gores objHead :=
  match ParseObjectType (pm_typ p) with
  | None => Err (Wrapf2 (Sent errBadMetadata) (Sent ErrInvalidType))
  | Some t => Ok {| oh_typ := t; oh_size := pm_size p |}
  end.

Definition parseObjHead (meta : gmap bytes bytes) (contentLength : option Z) : gores objHead :=
  match ParseObjectType (default [] (meta !! metaType)) with
  | None => Err (Wrapf2 (Sent errBadMetadata) (Sent ErrInvalidType))
  | Some t =>
      match meta !! metaSize ≫= ParseInt with
      | Some n => Ok {| oh_typ := t; oh_size := n |}
      | None =>
          match contentLength with
          | Some n => Ok {| oh_typ := t; oh_size := n |}
          | None => Err (Wrapf (Sent errBadMetadata))
          end
      end
  end.

Definition looseKey (h : Hash) : bytes := c_prefix c ++ keyOf h.

Definition headInfo (h : Hash) : M objHead :=
  let! p := lookupPending h in
  match p with
  | Some p => lift (parsePendingHead p)
  | None =>
      let! e := packLookup c h in
      match e with
      | Some e => ret {| oh_typ := e_typ e; oh_size := e_raw e |}
      | None =>
          try! r := request (HeadObject (looseKey h)) in
          match r with
          | Ok (meta, len) => lift (parseObjHead meta len)
          | Err e => if isNotFound e then fail (Sent ErrObjectNotFound) else fail (Wrapf e)
          end
      end
  end.

Definition HasEncodedObject (h : Hash) : M unit :=
  try! r := headInfo h in
  match r with
  | Ok _ => ret tt
  | Err e => if errors_is e ErrObjectNotFound then fail (Sent ErrObjectNotFound) else fail (Wrapf e)
  end.

Definition EncodedObjectSize (h : Hash) : M Z :=
  try! r := headInfo h in
  match r with
  | Ok hs => ret (oh_size hs)
  | Err e => if errors_is e ErrObjectNotFound then fail (Sent ErrObjectNotFound) else fail (Wrapf e)
  end.

(** ** Bodies *)

(** [SetType], [SetSize], then one [Write]. *)
Definition memory_object (typ size : Z) (bad : goerr) (body : bytes) : gores object :=
  match MemWrite size body with
  | Some n => Ok {| eo_typ := typ; eo_size := n; eo_bytes := body |}
  | None => Err bad
  end.

Definition decodeBody (hs : objHead) (body : gores bytes) : gores object :=
  match body with
  | Err e => Err (Wrapf e)
  | Ok buf => memory_object (oh_typ hs) (oh_size hs) (Wrapf2 (Sent errBadMetadata) Errorf) buf
  end.

Definition decodePending (t : Z) (p : pendingMeta) : M object :=
  let! hs := lift (parsePendingHead p) in
  if IsDelta (oh_typ hs) then fail (Sent ErrInvalidType) else
  if negb (t =? AnyObject) && negb (oh_typ hs =? t) then fail (Sent ErrObjectNotFound) else
  let! body := openFile (pm_path p) in
  lift (decodeBody hs (Ok body)).

(** What the pending overlay answers; [None] sends the reader to the bucket. *)
Definition servePending (t : Z) (p : option pendingMeta) : M (option object) :=
  match p with
  | None => ret None
  | Some p =>
      try! r := decodePending t p in
      match r with
      | Ok o => ret (Some o)
      | Err e => if errors_is e ErrNotExist then ret None else fail e
      end
  end.

(** [make([]byte, 0, n)] panics on a negative capacity. *)
Definition decodePackedPayload (e : packEntry) (body : gores bytes) : gores bytes :=
  match body with
  | Err err => Err (Wrapf err)
  | Ok stored =>
      if e_codec e =? codecRaw then Ok stored
      else if Z.min (e_raw e) decodeHintCap <? 0 then Err Panic
      else match DecodeAll payloadMaxDecoded stored with
           | Some plain => Ok plain
           | None => Err (Wrapf2 (Sent errBadMetadata) Errorf)
           end
  end.

(** Reading an [io.SectionReader] to its end; an empty section is at its end before it looks at the offset. *)
Definition section (body : bytes) (off n : Z) : gores bytes :=
  if (off <? 0) && (0 <? n) then Err Errorf else Ok (take (Z.to_nat n) (drop (Z.to_nat off) body)).

(** [packStream.readerFor] *)
Definition readerFor (landed : bytes) (off n : Z) : option (gores bytes) :=
  if i64 (off + n) >? Z.of_nat (length landed) then None else Some (section landed off n).

Definition packPayload (e : packEntry) : M bytes :=
  if e_stored e =? 0 then ret [] else
  let! local := (fun s => match localPath (e_id e) (packs s) with
                          | Some path => (Ok (files s !! path), s)
                          | None => (Ok None, s)
                          end) in
  match local with
  | Some body => lift (decodePackedPayload e (section body (e_offset e) (e_stored e)))
  | None =>
      let! copy := gets (fun s => copies s !! e_id e) in
      match copy with
      | Some (true, body) => lift (decodePackedPayload e (section body (e_offset e) (e_stored e)))
      | _ =>
          match copy ≫= (fun d => readerFor d.2 (e_offset e) (e_stored e)) with
          | Some r => lift (decodePackedPayload e r)
          | None =>
              try! r := request (GetRange (binKey c (e_id e)) (e_offset e) (i64 (e_offset e + e_stored e - 1))) in
              match r with
              | Ok out => lift (decodePackedPayload e (g_body out))
              | Err err => if isNotFound err then fail (Sent ErrObjectNotFound) else fail (Wrapf err)
              end
          end
      end
  end.

(** ** Delta chains *)

Definition badCueErr : goerr := Wrapf (Sent errBadCue).

Definition framePacked (deltaBase : Hash -> nat -> M object) (h : Hash) (e : packEntry) (payload : bytes)
    (depth : nat) : M object :=
  if bool_decide (e_base e = ZeroHash) then
    lift (memory_object (e_typ e) (e_raw e) (Wrapf2 (Sent errBadMetadata) Errorf) payload)
  else if (maxDeltaDepth <=? depth)%nat then fail badCueErr
  else if bool_decide (e_base e = h) then fail badCueErr
  else
    let! base := deltaBase (e_base e) (S depth) in
    match PatchDelta (eo_bytes base) payload with
    | None => fail (Wrapf2 (Sent errBadCue) Errorf)
    | Some plain => lift (memory_object (e_typ e) (e_raw e) (Wrapf2 (Sent errBadCue) Errorf) plain)
    end.

Definition packObject_with (deltaBase : Hash -> nat -> M object) (t : Z) (h : Hash) (e : packEntry) : M object :=
  if negb (t =? AnyObject) && negb (e_typ e =? t) then fail (Sent ErrObjectNotFound) else
  let! payload := packPayload e in
  framePacked deltaBase h e payload 0.

Fixpoint deltaBase (fuel : nat) (base : Hash) (depth : nat) {struct fuel} : M object :=
  match fuel with
  | O => fail OutOfFuel
  | S f =>
      if (maxDeltaDepth <? depth)%nat then fail badCueErr else
      let! e := packLookup c base in
      match e with
      | Some e =>
          try! r := packPayload e in
          match r with
          | Ok payload => framePacked (deltaBase f) base e payload depth
          | Err perr => if errors_is perr ErrObjectNotFound then fail badCueErr else fail perr
          end
      | None =>
          try! r := EncodedObject_f f AnyObject base in
          match r with
          | Ok obj => ret obj
          | Err err => if errors_is err ErrObjectNotFound then fail badCueErr else fail err
          end
      end
  end
with EncodedObject_f (fuel : nat) (t : Z) (h : Hash) {struct fuel} : M object :=
  match fuel with
  | O => fail OutOfFuel
  | S f =>
      let! p := lookupPending h in
      let! served := servePending t p in
      match served with
      | Some o => ret o
      | None =>
          let! e := packLookup c h in
          match e with
          | Some e => packObject_with (deltaBase f) t h e
          | None =>
              try! r := request (GetObject (looseKey h)) in
              match r with
              | Err e => if isNotFound e then fail (Sent ErrObjectNotFound) else fail (Wrapf e)
              | Ok out =>
                  let! hs := lift (parseObjHead (g_meta out) (g_length out)) in
                  if IsDelta (oh_typ hs) then fail (Sent ErrInvalidType) else
                  if negb (t =? AnyObject) && negb (oh_typ hs =? t) then fail (Sent ErrObjectNotFound) else
                  lift (decodeBody hs (g_body out))
              end
          end
      end
  end.

Definition EncodedObject (t : Z) (h : Hash) : M object := EncodedObject_f objectFuel t h.
Definition packObject (t : Z) (h : Hash) (e : packEntry) : M object := packObject_with (deltaBase objectFuel) t h e.

Definition loadObject (h : Hash) (hs : objHead) : M object :=
  if IsDelta (oh_typ hs) then fail (Sent ErrInvalidType) else
  try! r := request (GetObject (looseKey h)) in
  match r with
  | Err e => if isNotFound e then fail (Sent ErrObjectNotFound) else fail (Wrapf e)
  | Ok out => lift (decodeBody hs (g_body out))
  end.

(** ** Deltas as they are stored *)

Inductive delta_result :=
  | Whole (o : object)
  | Delta (o : object) (hash base : Hash) (size : Z).

Definition DeltaObject (t : Z) (h : Hash) : M delta_result :=
  let! e := packLookup c h in
  match e with
  | Some e =>
      if bool_decide (e_base e = ZeroHash) then let! o := EncodedObject t h in ret (Whole o) else
      if negb (t =? AnyObject) && negb (e_typ e =? t) then fail (Sent ErrObjectNotFound) else
      let! payload := packPayload e in
      let! o := lift (memory_object REFDeltaObject (Z.of_nat (length payload)) (Wrapf2 (Sent errBadCue) Errorf) payload) in
      ret (Delta o h (e_base e) (e_raw e))
  | None => let! o := EncodedObject t h in ret (Whole o)
  end.

(** ** Iteration *)

Record objectIter := { it_want : Z; it_snap : packSnapshot; it_packed : list (nat * nat); it_keys : list bytes }.

Definition IterEncodedObjects (t : Z) : M objectIter :=
  do! ensurePacksBuilt c in
  let! snap := gets (fun s => snapshot (packs s)) in
  let! keys := listKeys c (c_prefix c ++ objectPrefix) in
  ret {| it_want := t; it_snap := snap; it_packed := sn_order snap; it_keys := keys |}.

(** The packed half of [Next]; it also returns what is left to walk. *)
Fixpoint next_packed (want : Z) (snap : packSnapshot) (refs : list (nat * nat))
    : M (option object * list (nat * nat)) :=
  match refs with
  | [] => ret (None, [])
  | (ti, i) :: rest =>
      let t := sn_tables snap !!! ti in
      let hb := hashAt t i in
      let '(ti', i') := default (0%nat, 0%nat) (sn_lookup snap hb) in
      if negb (ti' =? ti)%nat || negb (i' =? i)%nat then next_packed want snap rest else
      if negb (want =? AnyObject) && negb (t_typ (recs t !!! i) =? want) then next_packed want snap rest else
      let h := default ZeroHash (FromBytes hb) in
      try! r := packObject want h (entry t i (sn_ids snap)) in
      match r with
      | Ok o => ret (Some o, rest)
      | Err e => if errors_is e ErrObjectNotFound then next_packed want snap rest else fail e
      end
  end.

Fixpoint next_loose (want : Z) (snap : packSnapshot) (keys : list bytes) : M (option object * list bytes) :=
  match keys with
  | [] => ret (None, [])
  | k :: rest =>
      match FromHex (trim_prefix k (c_prefix c ++ objectPrefix)) with
      | None => next_loose want snap rest
      | Some h =>
          match sn_lookup snap (HashBytes h) with
          | Some _ => next_loose want snap rest
          | None =>
              try! r := headInfo h in
              match r with
              | Err e =>
                  if errors_is e ErrObjectNotFound then next_loose want snap rest
                  else if errors_is e errBadMetadata then next_loose want snap rest
                  else fail e
              | Ok hs =>
                  if negb (want =? AnyObject) && negb (oh_typ hs =? want) then next_loose want snap rest
                  else let! o := loadObject h hs in ret (Some o, rest)
              end
          end
      end
  end.

(** [None] is [io.EOF]. *)
Definition Next (it : objectIter) : M (option object * objectIter) :=
  let! (o, packed) := next_packed (it_want it) (it_snap it) (it_packed it) in
  let it := {| it_want := it_want it; it_snap := it_snap it; it_packed := packed; it_keys := it_keys it |} in
  match o with
  | Some o => ret (Some o, it)
  | None =>
      let! (o, keys) := next_loose (it_want it) (it_snap it) (it_keys it) in
      ret (o, {| it_want := it_want it; it_snap := it_snap it; it_packed := []; it_keys := keys |})
  end.

Definition CloseIter (it : objectIter) : objectIter :=
  {| it_want := it_want it; it_snap := it_snap it; it_packed := []; it_keys := [] |}.
End objects.
