(* ===== verification/ObjectsSpec.v ===== *)
(** * The promises of object reads

    Reads terminate whatever the delta chains in a bucket look like, a broken
    chain is reported as corruption and never as absence, and every tier of
    a packed read yields the same bytes. *)

From S2P Require Import Prelude GoLib S3 Concrete Codec Cue PackTable PackIndex Storer StorerSpec Objects.

Section spec.
Context `{GoGit, Zstd, S3, GoGitObjects}.
Context (c : config).

Abbreviation M := (io St).

(** On a storer whose index is built, [m] leaves the index alone and fails only with [P]. *)
Definition safe {A} (P : goerr -> Prop) (m : M A) : Prop := forall s r s',
  built (packs s) = true -> m s = (r, s') -> packs s' = packs s /\ (forall e, r = Err e -> P e).

Section safe.
Context (P : goerr -> Prop).

Lemma safe_ret {A} (a : A) : safe P (ret a).
Proof. by intros s r s' _ [= <- <-]. Qed.
Lemma safe_fail {A} e : P e -> safe P (fail (A := A) e).
Proof. intros He s r s' _ [= <- <-]. split; [done|]. by intros ? [= <-]. Qed.
Lemma safe_lift {A} (x : gores A) : err_sat P x -> safe P (lift x).
Proof. intros Hx s r s' _ [= <- <-]. split; [done|]. by intros e ->. Qed.
Lemma safe_gets {A} (f : St -> A) : safe P (gets f).
Proof. by intros s r s' _ [= <- <-]. Qed.
Lemma safe_bind {A B} (m : M A) (f : A -> M B) : safe P m -> (forall a, safe P (f a)) -> safe P (io_bind m f).
Proof.
  intros Hm Hf s r s' Hb Hr. apply io_bind_inv in Hr as [(a & s1 & H1' & H2')|(e & H1' & ->)].
  - apply Hm in H1' as [Hp1 _]; [|done]. apply Hf in H2' as [Hp2 He]; [|by rewrite Hp1]. split; [congruence|done].
  - apply Hm in H1' as [Hp1 He]; [|done]. split; [done|]. intros e' [= <-]. by apply He.
Qed.
(** Inspecting a result: whatever [m] fails with. *)
Lemma safe_attempt {A B} (Q : goerr -> Prop) (m : M A) (f : gores A -> M B) :
  safe Q m -> (forall a, safe P (f (Ok a))) -> (forall e, Q e -> safe P (f (Err e))) ->
  safe P (io_bind (attempt m) f).
Proof.
  intros Hm Ho He s r s' Hb Hr. apply io_bind_inv in Hr as [(a & s1 & Ha & Hr)|(e & Ha & _)].
  - apply attempt_inv in Ha as (r0 & [= ->] & Ha). apply Hm in Ha as [Hp1 Hq]; [|done].
    rewrite <-Hp1 in Hb |- *. destruct r0 as [x|e]; [by eapply Ho|]. by eapply (He e (Hq e eq_refl)).
  - by apply attempt_inv in Ha as (? & ? & _).
Qed.
Lemma safe_request {A} (f : World -> gores A * World) : safe (fun _ => True) (request f).
Proof. intros s r s' _ Hr. by apply request_inv in Hr as (w' & _ & ->). Qed.
Lemma safe_lookup h : safe P (packLookup c h).
Proof.
  intros s r s' Hb Hr. unfold packLookup, ensurePacksBuilt, io_bind, gets in Hr. cbn in Hr. rewrite Hb in Hr.
  by injection Hr as <- <-.
Qed.
Lemma safe_open p : P (Wrapf (Sent ErrNotExist)) -> safe P (openFile p).
Proof.
  intros Hp s r s' _. unfold openFile. destruct (files s !! p); intros [= <- <-]; (split; [done|]); [done|].
  by intros e [= <-].
Qed.
End safe.

Lemma EncodedObject_S f t h :
  EncodedObject_f c (S f) t h =
    (let! p := lookupPending h in
     let! served := servePending t p in
     match served with
     | Some o => ret o
     | None =>
         let! e := packLookup c h in
         match e with
         | Some e => packObject_with c (deltaBase c f) t h e
         | None =>
             try! r := request (GetObject (looseKey c h)) in
             match r with
             | Err e => if isNotFound e then fail (Sent ErrObjectNotFound) else fail (Wrapf e)
             | Ok out =>
                 let! hs := lift (parseObjHead (g_meta out) (g_length out)) in
                 if IsDelta (oh_typ hs) then fail (Sent ErrInvalidType) else
                 if negb (t =? AnyObject) && negb (oh_typ hs =? t) then fail (Sent ErrObjectNotFound) else
                 lift (decodeBody hs (g_body out))
             end
         end
     end).
Proof. reflexivity. Qed.

Lemma deltaBase_S f base depth :
  deltaBase c (S f) base depth =
    (if (maxDeltaDepth <? depth)%nat then fail badCueErr else
     let! e := packLookup c base in
     match e with
     | Some e =>
         try! r := packPayload c e in
         match r with
         | Ok payload => framePacked (deltaBase c f) base e payload depth
         | Err perr => if errors_is perr ErrObjectNotFound then fail badCueErr else fail perr
         end
     | None =>
         try! r := EncodedObject_f c f AnyObject base in
         match r with
         | Ok obj => ret obj
         | Err err => if errors_is err ErrObjectNotFound then fail badCueErr else fail err
         end
     end).
Proof. reflexivity. Qed.

Lemma packLookup_built h s : built (packs s) = true -> packLookup c h s = (Ok (entry_of (packs s) h), s).
Proof. intros Hb. unfold packLookup, ensurePacksBuilt, io_bind, gets. cbn. by rewrite Hb. Qed.

(** The errors of reading a body: none is the model's bound. *)
Definition ordinary (e : goerr) : Prop := e <> OutOfFuel.

Lemma decode_ordinary e b : err_sat ordinary (decodePackedPayload e b).
Proof.
  unfold decodePackedPayload. destruct b; [|done]. destruct (_ =? _); [done|]. destruct (_ <? _); [done|].
  by destruct (DecodeAll _ _).
Qed.

Lemma safe_payload (P : goerr -> Prop) e :
  (forall b, err_sat P (decodePackedPayload e b)) -> P (Sent ErrObjectNotFound) -> (forall x, P (Wrapf x)) ->
  safe P (packPayload c e).
Proof.
  intros Hd Hn Hw. unfold packPayload. destruct (e_stored e =? 0); [apply safe_ret|].
  apply safe_bind.
  { intros s r s' _. destruct (localPath _ _); by intros [= <- <-]. }
  intros [body|]; [by apply safe_lift|]. apply safe_bind; [apply safe_gets|]. intros copy.
  assert (Hrest : safe P (match copy ≫= (fun d => readerFor d.2 (e_offset e) (e_stored e)) with
      | Some r => lift (decodePackedPayload e r)
      | None => try! r := request (GetRange (binKey c (e_id e)) (e_offset e) (i64 (e_offset e + e_stored e - 1))) in
                match r with
                | Ok out => lift (decodePackedPayload e (g_body out))
                | Err err => if isNotFound err then fail (Sent ErrObjectNotFound) else fail (Wrapf err)
                end
      end)).
  { destruct (copy ≫= _) as [r|]; [by apply safe_lift|].
    eapply safe_attempt; [apply safe_request|intros out; by apply safe_lift|].
    intros x _. destruct (isNotFound x); by apply safe_fail. }
  destruct copy as [[[] body]|]; [by apply safe_lift|exact Hrest..].
Qed.

Lemma memory_sat P t n e b : P e -> err_sat P (memory_object t n e b).
Proof. intros He. unfold memory_object. by destruct (MemWrite n b). Qed.

Lemma safe_serve (P : goerr -> Prop) t p :
  (forall a b, P (Wrapf2 a b)) -> (forall x, P (Sent x)) -> (forall x, P (Wrapf x)) -> safe P (servePending t p).
Proof.
  intros H2' H1' Hw. unfold servePending. destruct p as [p|]; [|apply safe_ret].
  eapply (safe_attempt P P); [|intros; apply safe_ret|intros e He; destruct (errors_is e _); [apply safe_ret|by apply safe_fail]].
  unfold decodePending. apply safe_bind.
  { apply safe_lift. unfold parsePendingHead. destruct (ParseObjectType _); simpl; auto. }
  intros hs. destruct (IsDelta _); [by apply safe_fail|]. destruct (_ && _); [by apply safe_fail|].
  apply safe_bind; [by apply safe_open|]. intros body. apply safe_lift. by apply memory_sat.
Qed.

Lemma parseObjHead_wrapped meta len P : (forall a b, P (Wrapf2 a b)) -> (forall x, P (Wrapf x)) -> err_sat P (parseObjHead meta len).
Proof.
  intros H2' Hw. unfold parseObjHead. destruct (ParseObjectType _); simpl; auto. destruct (_ ≫= _); simpl; auto.
  destruct len; simpl; auto.
Qed.

(** The part of a read after the overlay, when no pack has the object. *)
Lemma safe_loose t h :
  safe ordinary (try! r := request (GetObject (looseKey c h)) in
     match r with
     | Err e => if isNotFound e then fail (Sent ErrObjectNotFound) else fail (Wrapf e)
     | Ok out =>
         let! hs := lift (parseObjHead (g_meta out) (g_length out)) in
         if IsDelta (oh_typ hs) then fail (Sent ErrInvalidType) else
         if negb (t =? AnyObject) && negb (oh_typ hs =? t) then fail (Sent ErrObjectNotFound) else
         lift (decodeBody hs (g_body out))
     end).
Proof.
  eapply safe_attempt; [apply safe_request| |intros e _; destruct (isNotFound e); by apply safe_fail].
  intros out. apply safe_bind; [by apply safe_lift, parseObjHead_wrapped|]. intros hs.
  destruct (IsDelta _); [by apply safe_fail|]. destruct (_ && _); [by apply safe_fail|].
  apply safe_lift. unfold decodeBody. destruct (g_body out); [|done]. by apply memory_sat.
Qed.

(** A read is a read of the overlay, then of a pack entry, then of the loose object. *)
Lemma read_cases f t h s r s' :
  built (packs s) = true -> EncodedObject_f c (S f) t h s = (r, s') ->
  (forall e, entry_of (packs s) h = Some e -> safe ordinary (packObject_with c (deltaBase c f) t h e)) ->
  packs s' = packs s /\ r <> Err OutOfFuel.
Proof.
  intros Hb Hr Hpack. rewrite EncodedObject_S in Hr.
  apply io_bind_inv in Hr as [(p & s1 & [= <- <-] & Hr)|(e & [=] & _)].
  apply io_bind_inv in Hr as [(served & s1 & Hsv & Hr)|(e & Hsv & ->)];
    apply (safe_serve ordinary) in Hsv as [Hp1 Ho]; try done.
  2:{ split; [done|]. intros [= ->]. by apply (Ho OutOfFuel eq_refl). }
  destruct served as [o|]; [by injection Hr as <- <-|].
  rewrite <-Hp1 in Hb, Hpack |- *.
  apply io_bind_inv in Hr as [(e & s2 & Hl & Hr)|(e & Hl & _)]; rewrite packLookup_built in Hl by done; [|done].
  injection Hl as <- <-.
  destruct (entry_of (packs s1) h) as [e|].
  - destruct (Hpack e eq_refl _ _ _ Hb Hr) as [? Hx]. split; [done|]. intros ->. by apply (Hx OutOfFuel eq_refl).
  - destruct (safe_loose t h _ _ _ Hb Hr) as [? Hx]. split; [done|]. intros ->. by apply (Hx OutOfFuel eq_refl).
Qed.

Lemma safe_frame (P : goerr -> Prop) db h e payload depth :
  (forall a b, P (Wrapf2 a b)) -> (forall x, P (Wrapf x)) ->
  ((depth < maxDeltaDepth)%nat -> forall b, safe P (db b (S depth))) -> safe P (framePacked db h e payload depth).
Proof.
  intros H2' Hw Hdb. unfold framePacked.
  destruct (bool_decide _); [by apply safe_lift, memory_sat|].
  destruct (maxDeltaDepth <=? depth)%nat eqn:E; [apply safe_fail, Hw|]. destruct (bool_decide _); [apply safe_fail, Hw|].
  b2p. apply safe_bind; [by apply Hdb|]. intros base.
  destruct (PatchDelta _ _); [|apply safe_fail, H2']. by apply safe_lift, memory_sat.
Qed.

Lemma deltaBase_fuel f base depth :
  (depth <= S maxDeltaDepth)%nat -> (53 <= f + depth)%nat -> safe ordinary (deltaBase c f base depth).
Proof.
  revert base depth. induction f as [|f IH]; intros base depth Hd Hf; [unfold maxDeltaDepth in Hd; lia|].
  rewrite deltaBase_S. destruct (maxDeltaDepth <? depth)%nat eqn:E; [by apply safe_fail|]. b2p.
  intros s r s' Hb Hr. apply io_bind_inv in Hr as [(e & s1 & Hl & Hr)|(e & Hl & _)]; rewrite packLookup_built in Hl by done; [|done].
  injection Hl as <- <-. destruct (entry_of (packs s) base) as [e|] eqn:Ee.
  - refine (safe_attempt ordinary ordinary (packPayload c e) _ _ _ _ s r s' Hb Hr).
    + by apply safe_payload; [apply decode_ordinary|..].
    + intros payload. apply safe_frame; [done..|]. intros Hlt b. apply IH; unfold maxDeltaDepth in *; lia.
    + intros x Hx. destruct (errors_is x _); by apply safe_fail.
  - apply io_bind_inv in Hr as [(x & s1 & Ha & Hr)|(e & Ha & _)]; [|by apply attempt_inv in Ha as (? & ? & _)].
    apply attempt_inv in Ha as (x0 & [= ->] & Ha).
    destruct f as [|f]; [unfold maxDeltaDepth in *; lia|].
    destruct (read_cases f AnyObject base s x0 s1 Hb Ha) as [Hp Hn]; [by intros e; rewrite Ee|].
    destruct x0 as [o|e]; [by injection Hr as <- <-|].
    destruct (errors_is e _); injection Hr as <- <-; (split; [done|]); intros e' [= <-]; [done|]. intros ->. done.
Qed.

Lemma safe_packed f t h e : (53 <= f)%nat -> safe ordinary (packObject_with c (deltaBase c f) t h e).
Proof.
  intros Hf. unfold packObject_with. destruct (_ && _); [by apply safe_fail|].
  apply safe_bind; [by apply safe_payload; [apply decode_ordinary|..]|]. intros payload.
  apply safe_frame; [done..|]. intros Hd b. apply deltaBase_fuel; unfold maxDeltaDepth in *; lia.
Qed.

Lemma serve_ordinary t p s r s' : servePending t p s = (r, s') -> r <> Err OutOfFuel.
Proof.
  unfold servePending. destruct p as [p|]; [|by intros [= <- _]]. intros Hr.
  apply io_bind_inv in Hr as [(x & s1 & Ha & Hr)|(x & Ha & _)]; apply attempt_inv in Ha as (r0 & [= ->] & Ha).
  destruct r0 as [o|x]; [by injection Hr as <- _|]. destruct (errors_is x _); injection Hr as <- _; [done|]. intros [= ->].
  unfold decodePending in Ha. apply io_bind_inv in Ha as [(hs & s2 & _ & Ha)|(x & Hl & [= <-])].
  - destruct (IsDelta _); [done|]. destruct (_ && _); [done|].
    apply io_bind_inv in Ha as [(body & s3 & _ & Ha)|(x & Hl & [= <-])].
    + unfold lift, decodeBody, memory_object in Ha. by destruct (MemWrite _ _).
    + unfold openFile in Hl. by destruct (files _ !! _).
  - unfold lift, parsePendingHead in Hl. by destruct (ParseObjectType _).
Qed.

Lemma read_fuel : exists f, (53 <= f)%nat /\ forall t h, EncodedObject c t h = EncodedObject_f c (S f) t h.
Proof. exists 59%nat. split; [lia|reflexivity]. Qed.

(** ** The cold build either fails with a wrapped error or leaves the index built *)

Lemma load_cues_wrapped ks ts sz s e s' : load_cues c ks ts sz s = (Err e, s') -> exists e', e = Wrapf e'.
Proof.
  revert ts sz s. induction ks as [|k ks IH]; intros ts sz s; cbn [load_cues]; [done|].
  destruct (negb _); [apply IH|]. intros Hr.
  apply io_bind_inv in Hr as [(raw & s1 & _ & Hr)|(e0 & Hw & [= ->])].
  2:{ apply wrapping_inv in Hw as [(? & [=] & _)|(e1 & [= ->] & _)]. eauto. }
  apply io_bind_inv in Hr as [(recs & s2 & _ & Hr)|(e0 & Hw & [= ->])].
  2:{ apply wrapping_inv in Hw as [(? & [=] & _)|(e1 & [= ->] & _)]. eauto. }
  apply io_bind_inv in Hr as [(num & s3 & _ & Hr)|(e0 & Hw & [= ->])]; [by apply IH in Hr|].
  by destruct (packNum _ _).
Qed.

Lemma packLookup_spec h s r s' :
  packLookup c h s = (r, s') ->
  (exists e, r = Err (Wrapf e)) \/ (r = Ok (entry_of (packs s') h) /\ built (packs s') = true).
Proof.
  intros Hr. unfold packLookup in Hr. apply io_bind_inv in Hr as [([] & s1 & He & [= <- <-])|(e & He & ->)].
  - right. split; [done|]. unfold ensurePacksBuilt in He.
    apply io_bind_inv in He as [(b & s2 & [= <- <-] & He)|(? & [=] & _)].
    destruct (built (packs s)) eqn:Eb; [by injection He as <-|].
    apply io_bind_ok in He as (ks & s2 & _ & He). apply io_bind_ok in He as ([ts sz] & s3 & _ & [= <-]).
    cbn. unfold adopt_cold. destruct (built (packs s3)) eqn:E3; [done|]. by destruct (1 <? _)%nat, (maxPackTables <? _)%nat.
  - left. unfold ensurePacksBuilt in He. apply io_bind_inv in He as [(b & s2 & [= <- <-] & He)|(? & [=] & _)].
    destruct (built (packs s)); [done|].
    apply io_bind_inv in He as [(ks & s2 & _ & He)|(e0 & Hw & [= ->])].
    2:{ apply wrapping_inv in Hw as [(? & [=] & _)|(e1 & [= ->] & _)]. eauto. }
    apply io_bind_inv in He as [([ts sz] & s3 & _ & [=])|(e0 & Hw & [= ->])].
    apply load_cues_wrapped in Hw as [e' ->]. eauto.
Qed.

(** ** Broken chains *)

Definition present (e : goerr) : Prop := errors_is e ErrObjectNotFound = false.

(** [present] for the errors a delta record's own framing adds. *)
Lemma frame_present f h e payload depth s err s' :
  built (packs s) = true -> e_base e <> ZeroHash ->
  framePacked (deltaBase c f) h e payload depth s = (Err err, s') -> present err.
Proof.
  revert h e payload depth s. induction f as [|f IH]; intros h e payload depth s Hb Hz Hr;
    unfold framePacked in Hr; rewrite bool_decide_false in Hr by done;
    (destruct (maxDeltaDepth <=? depth)%nat eqn:E; [by injection Hr as <- _|]);
    (destruct (bool_decide (e_base e = h)); [by injection Hr as <- _|]).
  { by apply io_bind_inv in Hr as [(b & s1 & [=] & _)|(e0 & [= <- _] & [= ->])]. }
  apply io_bind_inv in Hr as [(b & s1 & _ & Hr)|(e0 & Hr & [= ->])].
  { destruct (PatchDelta _ _); [|by injection Hr as <- _]. unfold memory_object in Hr.
    by destruct (MemWrite _ _); [|injection Hr as <- _]. }
  rewrite deltaBase_S in Hr. destruct (maxDeltaDepth <? S depth)%nat; [by injection Hr as <- _|].
  apply io_bind_inv in Hr as [(le & s1 & Hl & Hr)|(? & Hl & _)]; rewrite packLookup_built in Hl by done; [|done].
  injection Hl as <- <-. destruct (entry_of (packs s) (e_base e)) as [e1|].
  - apply io_bind_inv in Hr as [(x & s1 & Ha & Hr)|(? & Ha & _)]; [|by apply attempt_inv in Ha as (? & ? & _)].
    apply attempt_inv in Ha as (x0 & [= ->] & Ha). destruct x0 as [pl|perr].
    + assert (Hb1 : built (packs s1) = true).
      { apply (safe_payload ordinary) in Ha as [-> _]; try done. apply decode_ordinary. }
      destruct (decide (e_base e1 = ZeroHash)) as [Hz1|Hz1].
      * unfold framePacked in Hr. rewrite bool_decide_true in Hr by done. unfold memory_object in Hr.
        by destruct (MemWrite _ _); [|injection Hr as <- _].
      * by eapply (IH (e_base e) e1 pl (S depth)).
    + destruct (errors_is perr ErrObjectNotFound) eqn:Ep; by injection Hr as <- _.
  - apply io_bind_inv in Hr as [(x & s1 & Ha & Hr)|(? & Ha & _)]; [|by apply attempt_inv in Ha as (? & ? & _)].
    apply attempt_inv in Ha as (x0 & [= ->] & Ha). destruct x0 as [o|perr]; [done|].
    destruct (errors_is perr ErrObjectNotFound) eqn:Ep; by injection Hr as <- _.
Qed.

Lemma read_packed f h s e :
  built (packs s) = true -> pending s !! h = None -> entry_of (packs s) h = Some e ->
  EncodedObject_f c (S f) AnyObject h s =
    io_bind (packPayload c e) (fun payload => framePacked (deltaBase c f) h e payload 0) s.
Proof.
  intros Hb Hp He. rewrite EncodedObject_S. unfold io_bind at 1, lookupPending, gets. rewrite Hp.
  unfold io_bind at 1, servePending, ret. unfold io_bind at 1. by rewrite packLookup_built, He by done.
Qed.

Lemma bind_ok {A B} (m : M A) (g : A -> M B) s a s1 : m s = (Ok a, s1) -> io_bind m g s = g a s1.
Proof. intros Hm. unfold io_bind. by rewrite Hm. Qed.

(** ** Chains that do resolve *)

(** Reading a payload or a staged object without a request. *)
Inductive chain (s : St) : Hash -> nat -> object -> Prop :=
  | chain_staged h p o :
      entry_of (packs s) h = None -> pending s !! h = Some p -> decodePending AnyObject p s = (Ok o, s) ->
      chain s h 0 o
  | chain_whole h e payload o :
      entry_of (packs s) h = Some e -> e_base e = ZeroHash -> packPayload c e s = (Ok payload, s) ->
      memory_object (e_typ e) (e_raw e) (Wrapf2 (Sent errBadMetadata) Errorf) payload = Ok o ->
      chain s h 0 o
  | chain_delta h e payload n base plain o :
      entry_of (packs s) h = Some e -> e_base e <> ZeroHash -> e_base e <> h ->
      packPayload c e s = (Ok payload, s) -> chain s (e_base e) n base ->
      PatchDelta (eo_bytes base) payload = Some plain ->
      memory_object (e_typ e) (e_raw e) (Wrapf2 (Sent errBadCue) Errorf) plain = Ok o ->
      chain s h (S n) o.

Definition chain_answer (s : St) (n : nat) (o : object) : gores object * St :=
  if (n <=? maxDeltaDepth)%nat then (Ok o, s) else (Err badCueErr, s).

Lemma chain_base s h n o f depth :
  built (packs s) = true -> chain s h n o -> (depth <= maxDeltaDepth)%nat -> (53 <= f + depth)%nat ->
  deltaBase c f h depth s = chain_answer s (depth + n) o.
Proof.
  intros Hb Hc. revert f depth. unfold chain_answer.
  induction Hc as [h p o He Hp Hd|h e pl o He Hz Hp Hm|h e pl n base plain o He Hz Hnh Hp Hc IH Hpd Hm];
    intros f depth Hdep Hf; unfold maxDeltaDepth in *;
    (destruct f as [|f]; [lia|]); rewrite deltaBase_S; unfold maxDeltaDepth;
    (destruct (50 <? depth)%nat eqn:E; b2p; [lia|]);
    unfold io_bind at 1; rewrite packLookup_built, He by done.
  - rewrite Nat.add_0_r. destruct (depth <=? 50)%nat eqn:E2; b2p; [|lia].
    destruct f as [|f]; [lia|]. unfold io_bind at 1, attempt at 1. rewrite EncodedObject_S.
    unfold io_bind at 1, lookupPending, gets. rewrite Hp. unfold servePending, io_bind, attempt.
    by rewrite Hd.
  - rewrite Nat.add_0_r. destruct (depth <=? 50)%nat eqn:E2; b2p; [|lia].
    unfold io_bind, attempt. rewrite Hp. unfold framePacked. rewrite bool_decide_true by done. unfold lift. by rewrite Hm.
  - unfold io_bind at 1, attempt at 1. rewrite Hp. unfold framePacked. rewrite !bool_decide_false by done.
    unfold maxDeltaDepth. destruct (50 <=? depth)%nat eqn:E2; b2p.
    + destruct (depth + S n <=? 50)%nat eqn:E3; b2p; [lia|done].
    + unfold io_bind. rewrite IH by lia. replace (S depth + n)%nat with (depth + S n)%nat by lia.
      destruct (depth + S n <=? 50)%nat; [|done]. unfold lift. by rewrite Hpd, Hm.
Qed.
Lemma chain_reads s h n o :
  built (packs s) = true -> pending s !! h = None -> chain s h n o -> EncodedObject c AnyObject h s = chain_answer s n o.
Proof.
  intros Hb Hp Hc. destruct read_fuel as (f & Hle & Hf). rewrite Hf. clear Hf.
  destruct Hc as [h p o He Hp' Hd|h e pl o He Hz Hpl Hm|h e pl n base plain o He Hz Hnh Hpl Hc Hpd Hm]; [congruence|..];
    rewrite (read_packed f h s e), (bind_ok _ _ _ _ _ Hpl) by done; unfold framePacked.
  - rewrite bool_decide_true by done. unfold lift. by rewrite Hm.
  - rewrite !bool_decide_false by done. change (maxDeltaDepth <=? 0)%nat with false. cbv iota.
    unfold io_bind. rewrite (chain_base s (e_base e) n base f 1) by (done || unfold maxDeltaDepth; lia).
    unfold chain_answer. cbn [Nat.add]. destruct (S n <=? maxDeltaDepth)%nat; [|done]. unfold lift. by rewrite Hpd, Hm.
Qed.
End spec.

(** ** Tiers of a packed read *)

Section tiers.
Context `{GoGit, Zstd, S3} (view : World -> bucket) (env : bucket -> bucket -> Prop) `{!S3Laws view env}.
Context (c : config).

(** Every place that has container [id], or a part of it, has [body]. *)
Record same_container (id body : bytes) (s : St) : Prop := {
  sc_staged path x : localPath id (packs s) = Some path -> files s !! path = Some x -> x = body;
  sc_copy x : copies s !! id = Some (true, x) -> x = body;
  sc_partial x : copies s !! id = Some (false, x) -> exists rest, body = x ++ rest;
  sc_bucket b o : env (view (world s)) b -> b !! binKey c id = Some o -> o_body o = body;
}.

(** A record inside a container whose offsets fit the machine word. *)
Definition record_inside (e : packEntry) (body : bytes) : Prop :=
  0 <= e_offset e /\ 0 < e_stored e /\ e_offset e + e_stored e <= Z.of_nat (length body) < 2 ^ 63.

Lemma section_prefix (x rest : bytes) off n :
  0 <= off -> 0 <= n -> off + n <= Z.of_nat (length x) -> section (x ++ rest) off n = section x off n.
Proof.
  intros Ho Hn Hx. unfold section. destruct (off <? 0) eqn:E; b2p; [lia|]. cbn [andb]. f_equal.
  rewrite drop_app_le by lia. rewrite take_app_le; [done|]. rewrite length_drop. lia.
Qed.

(** The last tier of [packPayload]. *)
Definition packPayload_range (e : packEntry) : io St bytes :=
  try! r := request (GetRange (binKey c (e_id e)) (e_offset e) (i64 (e_offset e + e_stored e - 1))) in
  match r with
  | Ok out => lift (decodePackedPayload e (g_body out))
  | Err err => if isNotFound err then fail (Sent ErrObjectNotFound) else fail (Wrapf err)
  end.

Lemma payload_from_bucket e body s r s' :
  same_container (e_id e) body s -> record_inside e body -> packPayload_range e s = (r, s') ->
  r = decodePackedPayload e (section body (e_offset e) (e_stored e)) \/
  r = Err (Sent ErrObjectNotFound) \/ (exists x, foreign x /\ r = Err (Wrapf x)).
Proof.
  intros [_ _ _ Hbk] (Ho & Hn & Hlen) Hr. unfold packPayload_range in Hr.
  apply io_bind_inv in Hr as [(x & s1 & Ha & Hr)|(x & Ha & _)]; apply attempt_inv in Ha as (r0 & [= ->] & Ha).
  apply request_inv in Ha as (w & Hw & ->). destruct r0 as [out|x].
  - apply GetRange_ok in Hw as (b & o & Hb & Hk & _ & Hbody & Hfail); [|rewrite i64_id by (unfold in_i64; lia); lia].
    injection Hr as <- _. destruct (g_body out) as [y|x] eqn:Ey.
    + left. f_equal. rewrite (Hbody y), (Hbk b o) by done. unfold section.
      destruct (e_offset e <? 0) eqn:E; b2p; [lia|]. cbn [andb]. rewrite i64_id by (unfold in_i64; lia).
      by replace (e_offset e + e_stored e - 1 - e_offset e + 1) with (e_stored e) by lia.
    + right. right. exists x. split; [by apply Hfail|done].
  - apply GetRange_err in Hw as [Hx _]. right. destruct (isNotFound x); injection Hr as <- _; [by left|].
    right. by exists x.
Qed.
End tiers.

(** ** Properties *)

(** C14: reading an object always comes to an end: however the delta records of
    the bucket refer to each other, in cycles or in chains of any length, the
    read answers with the object or with one of the program's own errors. *)
Theorem object_read_terminates `{GoGit, Zstd, S3, GoGitObjects} (c : config) (t : Z) (h : Hash) (s : St) :
  fst (EncodedObject c t h s) <> Err OutOfFuel.
Proof.
  destruct (read_fuel c) as (f & Hle & Hf). rewrite Hf.
  destruct (EncodedObject_f c (S f) t h s) as [r s'] eqn:Hr. cbn [fst]. rewrite EncodedObject_S in Hr.
  apply io_bind_inv in Hr as [(p & s1 & [= <- <-] & Hr)|(e & [=] & _)].
  apply io_bind_inv in Hr as [(served & s1 & _ & Hr)|(e & Hsv & ->)].
  2:{ intros [= ->]. by apply serve_ordinary in Hsv. }
  destruct served as [o|]; [by injection Hr as <- _|].
  apply io_bind_inv in Hr as [(e & s2 & Hl & Hr)|(e & Hl & ->)]; apply packLookup_spec in Hl as [[x Hx]|[Hx Hb]]; try done.
  2:{ injection Hx as ->. by intros [= ]. }
  intros ->. destruct e as [e|].
  - apply (safe_packed c f t h e) in Hr as [_ Ho]; [|done..]. by apply (Ho OutOfFuel eq_refl).
  - apply safe_loose in Hr as [_ Ho]; [|done]. by apply (Ho OutOfFuel eq_refl).
Qed.

(** C15: an object stored as a delta is rebuilt by applying the deltas of its
    chain from the whole object at its end, and the read succeeds exactly when
    the chain has at most [maxDeltaDepth] links; a longer one is refused as a
    bad index, not followed. *)
Theorem delta_chain_read `{GoGit, Zstd, S3, GoGitObjects} (c : config) (s : St) (h : Hash) (n : nat) (o : object) :
  built (packs s) = true -> pending s !! h = None -> chain c s h n o ->
  EncodedObject c AnyObject h s = chain_answer s n o.
Proof. exact (chain_reads c s h n o). Qed.

(** An object whose index record is a delta exists: when rebuilding it fails
    after its own bytes were read, the error is never the one that says the
    object is not there, whatever is missing or damaged along the chain. *)
Theorem broken_chain_is_not_absence `{GoGit, Zstd, S3, GoGitObjects} (c : config) (s s1 s' : St) (h : Hash)
    (e : packEntry) (payload : bytes) (err : goerr) :
  built (packs s) = true -> pending s !! h = None -> entry_of (packs s) h = Some e -> e_base e <> ZeroHash ->
  packPayload c e s = (Ok payload, s1) -> EncodedObject c AnyObject h s = (Err err, s') ->
  errors_is err ErrObjectNotFound = false.
Proof.
  intros Hb Hp He Hz Hpl Hr. destruct (read_fuel c) as (f & Hle & Hf). rewrite Hf in Hr. clear Hf.
  rewrite (read_packed c f h s e), (bind_ok _ _ _ _ _ Hpl) in Hr by done.
  eapply frame_present; [|exact Hz|exact Hr].
  apply (safe_payload c ordinary) in Hpl as [-> _]; try done. apply decode_ordinary.
Qed.

(** The bytes of a packed object do not depend on where they are read from:
    the staging file, a finished whole-pack copy, the landed part of one still
    arriving, or a ranged request.  Whenever a read of the record succeeds it
    yields exactly the record's bytes of the container, decoded; otherwise the
    failure is that of decoding them, of a missing container or of the transport. *)
Theorem packed_payload_any_tier `{GoGit, Zstd, S3} (view : World -> bucket) (env : bucket -> bucket -> Prop)
    (c : config) (e : packEntry) (body : bytes) (s s' : St) (r : gores bytes) :
  S3Laws view env -> same_container view env c (e_id e) body s -> record_inside e body ->
  packPayload c e s = (r, s') ->
  let stored := section body (e_offset e) (e_stored e) in
  r = decodePackedPayload e stored \/
  r = Err (Sent ErrObjectNotFound) \/ (exists x, foreign x /\ r = Err (Wrapf x)).
Proof.
  intros Hlaws [Hst Hcp Hpt Hbk] (Ho & Hn & Hlen) Hr stored. unfold packPayload in Hr.
  destruct (e_stored e =? 0) eqn:Ez; b2p; [lia|].
  assert (Hrange : packPayload_range c e s = (r, s') -> r = decodePackedPayload e stored \/
    r = Err (Sent ErrObjectNotFound) \/ (exists x, foreign x /\ r = Err (Wrapf x))).
  { intros Hq. by eapply payload_from_bucket. }
  apply io_bind_inv in Hr as [(local & s1 & Hl & Hr)|(x & Hl & _)]; [|by destruct (localPath _ _)].
  assert (s1 = s /\ forall x, local = Some x -> x = body) as [-> Hloc].
  { destruct (localPath _ _) as [path|] eqn:Ep; injection Hl as <- <-; (split; [done|]); [|done].
    intros x Hx. by apply (Hst path). }
  destruct local as [x|]; [left; rewrite (Hloc x) in Hr by done; by injection Hr as <- _|]. clear Hl Hloc.
  apply io_bind_inv in Hr as [(copy & s1 & [= <- <-] & Hr)|(x & [=] & _)].
  destruct (copies s !! e_id e) as [[[] x]|] eqn:Ec; cbn [mbind option_bind] in Hr.
  - rewrite (Hcp x) in Hr by done. left. by injection Hr as <- _.
  - destruct (Hpt x eq_refl) as [rest ->]. destruct (readerFor _ _ _) as [y|] eqn:Ey; [|by apply Hrange].
    unfold readerFor in Ey. cbn [snd] in Ey. destruct (_ >? _) eqn:Eg; [done|]. injection Ey as <-. b2p.
    rewrite i64_id in Eg by (rewrite length_app in Hlen; unfold in_i64; lia).
    left. injection Hr as <- _. unfold stored. by rewrite section_prefix by lia.
  - by apply Hrange.
Qed.

(** ** Witnesses *)

(** Object 7 is whole, object 8 a delta of it; 9 is a delta of an object no pack has. *)
Definition chain_recs : list (@cueRecord toy_git) :=
  [one_rec 7 0;
   {| c_hash := Some (repeat (bz 8) 20); c_typ := BlobObject; c_codec := codecRaw; c_offset := 5;
      c_stored := 5; c_raw := 10; c_base := Some (repeat (bz 7) 20) |};
   {| c_hash := Some (repeat (bz 9) 20); c_typ := BlobObject; c_codec := codecRaw; c_offset := 5;
      c_stored := 5; c_raw := 10; c_base := Some (repeat (bz 6) 20) |}].
Definition chain_body : bytes := bs "helloWORLD".
Definition chain_state : @St toy_git Plain.plain_s3 :=
  with_packs (set_built (register (bs "p1") chain_recs (bs "/tmp/p1") (newPackIndex 20)))
    (start_state ∅ {[bs "/tmp/p1" := chain_body]}).
Definition hash_n (n : Z) : @Hash toy_git := Some (repeat (bz n) 20).

Definition no_entry : @packEntry toy_git :=
  {| e_id := []; e_typ := 0; e_codec := 0; e_offset := 0; e_stored := 0; e_raw := 0; e_base := ZeroHash |}.
Definition entry_n (n : Z) : packEntry := default no_entry (entry_of (packs chain_state) (hash_n n)).

Lemma chain_entry n : bool_decide (is_Some (entry_of (packs chain_state) (hash_n n))) = true ->
  entry_of (packs chain_state) (hash_n n) = Some (entry_n n).
Proof. unfold entry_n. intros Hb. b2p. destruct Hb as [e He]. by rewrite He. Qed.

Lemma delta_chain_read_witness :
  built (packs chain_state) = true /\
  @EncodedObject toy_git toy_zstd Plain.plain_s3 toy_objects unit_config AnyObject (hash_n 8) chain_state =
    (Ok {| eo_typ := BlobObject; eo_size := 10; eo_bytes := chain_body |}, chain_state).
Proof.
  split; [reflexivity|].
  refine (@delta_chain_read toy_git toy_zstd Plain.plain_s3 toy_objects unit_config chain_state (hash_n 8) 1
    {| eo_typ := BlobObject; eo_size := 10; eo_bytes := chain_body |} _ _ _); [reflexivity|reflexivity|].
  eapply (@chain_delta toy_git toy_zstd Plain.plain_s3 toy_objects unit_config chain_state (hash_n 8) (entry_n 8)
    (bs "WORLD") 0 {| eo_typ := BlobObject; eo_size := 5; eo_bytes := bs "hello" |} chain_body).
  - apply chain_entry. vm_compute. reflexivity.
  - vm_compute. discriminate.
  - vm_compute. discriminate.
  - reflexivity.
  - eapply (@chain_whole toy_git toy_zstd Plain.plain_s3 toy_objects unit_config chain_state _ (entry_n 7) (bs "hello")).
    + exact (chain_entry 7 ltac:(vm_compute; reflexivity)).
    + reflexivity.
    + reflexivity.
    + reflexivity.
  - reflexivity.
  - reflexivity.
Defined.

Lemma broken_chain_is_not_absence_witness :
  let s := chain_state in
  exists err, fst (@EncodedObject toy_git toy_zstd Plain.plain_s3 toy_objects unit_config AnyObject (hash_n 9) s) = Err err /\
    errors_is err ErrObjectNotFound = false.
Proof.
  intros s. exists badCueErr.
  assert (Hr : fst (@EncodedObject toy_git toy_zstd Plain.plain_s3 toy_objects unit_config AnyObject (hash_n 9) s) = Err badCueErr)
    by reflexivity.
  split; [exact Hr|].
  refine (@broken_chain_is_not_absence toy_git toy_zstd Plain.plain_s3 toy_objects unit_config s s
    (snd (@EncodedObject toy_git toy_zstd Plain.plain_s3 toy_objects unit_config AnyObject (hash_n 9) s))
    (hash_n 9) (entry_n 9) (bs "WORLD") badCueErr _ _ _ _ _ _).
  - reflexivity.
  - reflexivity.
  - apply chain_entry. vm_compute. reflexivity.
  - vm_compute. discriminate.
  - reflexivity.
  - rewrite <-Hr. apply surjective_pairing.
Defined.

Lemma packed_payload_any_tier_witness :
  let s := with_world {[binKey unit_config (bs "p1") := {| o_body := chain_body; o_meta := ∅ |}]}
             (with_files ∅ (with_copies {[bs "p1" := (false, bs "helloWO")]} chain_state)) in
  record_inside (entry_n 8) chain_body /\
  (let r := fst (@packPayload toy_git toy_zstd Plain.plain_s3 unit_config (entry_n 8) s) in
   r = decodePackedPayload (entry_n 8) (section chain_body (e_offset (entry_n 8)) (e_stored (entry_n 8))) \/
   r = Err (Sent ErrObjectNotFound) \/ (exists x, foreign x /\ r = Err (Wrapf x))).
Proof.
  intros s.
  assert (Hin : record_inside (entry_n 8) chain_body).
  { split; [vm_compute; discriminate|]. split; [vm_compute; reflexivity|]. split; [vm_compute; discriminate|reflexivity]. }
  assert (Hfiles : files s = ∅) by reflexivity.
  assert (Hcopy : copies s !! e_id (entry_n 8) = Some (false, bs "helloWO")) by reflexivity.
  assert (Hbucket : (world s : bucket) !! binKey unit_config (e_id (entry_n 8)) = Some {| o_body := chain_body; o_meta := ∅ |})
    by reflexivity.
  split; [exact Hin|].
  refine (@packed_payload_any_tier toy_git toy_zstd Plain.plain_s3 (fun b => b) eq unit_config (entry_n 8) chain_body s
    (snd (@packPayload toy_git toy_zstd Plain.plain_s3 unit_config (entry_n 8) s)) _ Plain.plain_s3_laws _ Hin _).
  - split.
    + intros path x _ Hx. rewrite Hfiles, lookup_empty in Hx. discriminate Hx.
    + intros x Hx. rewrite Hcopy in Hx. discriminate Hx.
    + intros x Hx. rewrite Hcopy in Hx. injection Hx as <-. exists (bs "RLD"). reflexivity.
    + intros b o <- Ho. rewrite Hbucket in Ho. injection Ho as <-. reflexivity.
  - apply surjective_pairing.
Defined.

(** A record of a compressed payload whose uncompressed size reads as negative,
    which the index decoder lets through, crashes the reader. *)
Example negative_size_panics :
  @decodePackedPayload toy_git toy_zstd
    {| e_id := bs "p1"; e_typ := BlobObject; e_codec := codecZstd; e_offset := 0; e_stored := 2; e_raw := -1; e_base := ZeroHash |}
    (Ok (bs "ab")) = Err Panic.
Proof. reflexivity. Qed.

(** An index object deleted between the listing and its read makes every
    existence check answer that the object is absent. *)
Definition vanishing : Mem.mem_world :=
  {| Mem.mem := {[cueKey unit_config (bs "p1") := {| o_body := bs "gone soon"; o_meta := ∅ |}]};
     Mem.script := [{| Mem.changes := []; Mem.fails := false; Mem.undeletable := [] |};
                    {| Mem.changes := [(cueKey unit_config (bs "p1"), None)]; Mem.fails := false; Mem.undeletable := [] |}] |}.
Definition vanishing_state : @St toy_git Mem.mem_s3 :=
  @Build_St toy_git Mem.mem_s3 vanishing ∅ None ∅ [] (newPackIndex 20)
    {| r_built := false; r_etag := []; r_packed := ∅; r_loose := ∅ |} {| s_built := false; s_hashes := [] |} ∅.

Example vanished_index_reads_as_absence :
  fst (@HasEncodedObject toy_git toy_zstd Mem.mem_s3 unit_config (hash_n 7) vanishing_state) = Err (Sent ErrObjectNotFound).
Proof. reflexivity. Qed.
