(* ===== verification/Writer.v ===== *)
(** * Writing single objects (internal/storage/tigris/writer.go)

    A staging file with a hash alongside; on close the object becomes readable
    from the overlay and its upload is queued.  Local file operations succeed,
    except that a write can stop short. *)

From S2P Require Import Prelude GoLib S3 Concrete Codec Cue PackTable PackIndex Storer StorerSpec Objects ObjectsSpec.

(** [w_hashed]: the bytes the hasher has seen. *)
Record stageWriter := {
  w_path : bytes; w_typ : Z; w_size : Z; w_wrote : Z; w_hashed : bytes; w_done : bool;
}.

Section writer.
Context `{GoGit, Zstd, S3}.
Context (c : config).

Abbreviation M := (io St).

Definition set_done (w : stageWriter) : stageWriter :=
  {| w_path := w_path w; w_typ := w_typ w; w_size := w_size w; w_wrote := w_wrote w; w_hashed := w_hashed w; w_done := true |}.
Definition wrote (n : Z) (p : bytes) (w : stageWriter) : stageWriter :=
  {| w_path := w_path w; w_typ := w_typ w; w_size := w_size w; w_wrote := w_wrote w + n;
     w_hashed := w_hashed w ++ p; w_done := w_done w |}.

Definition appendFile (path p : bytes) : M unit :=
  modify (fun s => with_files (<[path := default [] (files s !! path) ++ p]> (files s)) s).

(** [path] is the name [os.CreateTemp] picks. *)
Definition RawObjectWriter (path : bytes) (typ sz : Z) : M stageWriter :=
  if (typ =? OFSDeltaObject) || (typ =? REFDeltaObject) then fail (Sent ErrInvalidType) else
  if sz <? 0 then fail Errorf else
  do! modify (fun s => with_files (<[path := []]> (files s)) s) in
  ret {| w_path := path; w_typ := typ; w_size := sz; w_wrote := 0; w_hashed := []; w_done := false |}.

Definition Discard (w : stageWriter) : M stageWriter :=
  if w_done w then ret w else do! removeFile (w_path w) in ret (set_done w).

(** [short]: how much the file took before its write failed. *)
Definition Write (short : option nat) (p : bytes) (w : stageWriter) : M (gores Z * stageWriter) :=
  if w_done w then ret (Err Errorf, w) else
  match short with
  | Some n =>
      do! appendFile (w_path w) (take n p) in
      let! w := Discard (wrote (Z.of_nat n) [] w) in ret (Err (Wrapf Errorf), w)
  | None =>
      do! appendFile (w_path w) p in
      let w := wrote (Z.of_nat (length p)) p w in
      if w_wrote w >? w_size w then let! w := Discard w in ret (Err Errorf, w)
      else ret (Ok (Z.of_nat (length p)), w)
  end.

Definition Sum (w : stageWriter) : Hash := HasherSum (w_typ w) (w_size w) (w_hashed w).

Definition Close (admitted : bool) (w : stageWriter) : M (gores unit * stageWriter) :=
  if w_done w then ret (Ok tt, w) else
  let w := set_done w in
  if negb (w_wrote w =? w_size w) then do! removeFile (w_path w) in ret (Err Errorf, w) else
  let h := Sum w in
  let typ := ObjectTypeString (w_typ w) in
  do! registerPending h typ (w_wrote w) (w_path w) in
  try! r := enqueue admitted (LooseJob h (c_prefix c ++ keyOf h) typ (w_wrote w) (w_path w)) in
  match r with
  | Ok _ => ret (Ok tt, w)
  | Err e => do! evict h (w_path w) in ret (Err e, w)
  end.

(** [io.Copy] from a reader that delivers [chunks]. *)
Fixpoint copy_chunks (chunks : list (option nat * bytes)) (w : stageWriter) : M (gores unit * stageWriter) :=
  match chunks with
  | [] => ret (Ok tt, w)
  | (short, p) :: rest =>
      let! (r, w) := Write short p w in
      match r with Ok _ => copy_chunks rest w | Err e => ret (Err e, w) end
  end.

(** [want] is [obj.Hash()]; [rd_err] the error that ends the reader early, if any. *)
Definition SetEncodedObject (path : bytes) (admitted : bool) (typ size : Z) (want : Hash)
    (chunks : list (option nat * bytes)) (rd_err : option goerr) : M Hash :=
  if (typ =? OFSDeltaObject) || (typ =? REFDeltaObject) then fail (Sent ErrInvalidType) else
  let! sw := RawObjectWriter path typ size in
  let! (r, sw) := copy_chunks chunks sw in
  match match r with Err e => Some e | Ok _ => rd_err end with
  | Some e => do! Discard sw in fail (Wrapf e)
  | None =>
      let got := Sum sw in
      if negb (bytes_eqb (HashString got) (HashString want)) then do! Discard sw in fail (Sent ErrHashMismatch) else
      let! (r, _) := Close admitted sw in
      match r with Ok _ => ret got | Err e => fail e end
  end.

Definition AddAlternate (remote : bytes) : M unit := fail (Wrapf (Sent ErrAlternatesNotSupported)).
End writer.

(** ** Lemmas *)

Section spec.
Context `{GoGit, Zstd, S3, GoGitObjects}.
Context (c : config).

Definition body_of (chunks : list (option nat * bytes)) : bytes := concat (snd <$> chunks).
Definition healthy (chunks : list (option nat * bytes)) : Prop := Forall (fun k => fst k = None) chunks.

Definition open_writer (path : bytes) (typ size : Z) (so_far : bytes) : stageWriter :=
  {| w_path := path; w_typ := typ; w_size := size; w_wrote := Z.of_nat (length so_far); w_hashed := so_far; w_done := false |}.

Lemma wrote_open path typ size so_far p :
  wrote (Z.of_nat (length p)) p (open_writer path typ size so_far) = open_writer path typ size (so_far ++ p).
Proof. unfold wrote, open_writer. cbn. f_equal. rewrite length_app. lia. Qed.

Lemma with_files_twice f g (s : St) : with_files f (with_files g s) = with_files f s.
Proof. by destruct s. Qed.

(** A copy that fits leaves the bytes in the file and in the hasher. *)
Lemma copy_fits path typ size chunks so_far (s : St) :
  healthy chunks -> files s !! path = Some so_far -> Z.of_nat (length (so_far ++ body_of chunks)) <= size ->
  copy_chunks chunks (open_writer path typ size so_far) s =
    (Ok (Ok tt, open_writer path typ size (so_far ++ body_of chunks)),
     with_files (<[path := so_far ++ body_of chunks]> (files s)) s).
Proof.
  intros Hh. revert so_far s. induction Hh as [|[short p] chunks Hp Hh IH]; intros so_far s Hf Hle.
  { unfold body_of. cbn [fmap list_fmap concat copy_chunks]. rewrite app_nil_r. rewrite insert_id by done. by destruct s. }
  cbn in Hp. subst short. unfold body_of in *. cbn [fmap list_fmap concat snd] in *. rewrite app_assoc in *.
  cbn [copy_chunks]. unfold io_bind at 1, Write. cbn [w_done open_writer]. unfold io_bind at 1, appendFile, modify at 1.
  change {| w_path := path; w_typ := typ; w_size := size; w_wrote := Z.of_nat (length so_far); w_hashed := so_far; w_done := false |}
    with (open_writer path typ size so_far).
  rewrite wrote_open. cbn [w_wrote w_size open_writer]. rewrite length_app in Hle.
  destruct (_ >? size) eqn:E; b2p; [lia|]. unfold ret at 1.
  rewrite IH.
  - cbn [files with_files]. by rewrite with_files_twice, insert_insert_eq.
  - cbn. rewrite Hf. by rewrite lookup_insert_eq.
  - by rewrite length_app.
Qed.

(** A copy that does not fit, or whose file fails, removes the file. *)
Lemma copy_poisons path typ size chunks so_far (s : St) :
  files s !! path = Some so_far -> ~ (healthy chunks /\ Z.of_nat (length (so_far ++ body_of chunks)) <= size) ->
  Z.of_nat (length so_far) <= size ->
  exists e w, copy_chunks chunks (open_writer path typ size so_far) s =
    (Ok (Err e, w), with_files (delete path (files s)) s) /\ w_done w = true.
Proof.
  revert so_far s. induction chunks as [|[short p] chunks IH]; intros so_far s Hf Hno Hle.
  { destruct Hno. unfold body_of. cbn. rewrite app_nil_r. split; [constructor|done]. }
  unfold body_of in *. cbn [fmap list_fmap concat snd] in *.
  cbn [copy_chunks]. unfold io_bind at 1, Write. cbn [w_done open_writer].
  change {| w_path := path; w_typ := typ; w_size := size; w_wrote := Z.of_nat (length so_far); w_hashed := so_far; w_done := false |}
    with (open_writer path typ size so_far).
  destruct short as [n|].
  - unfold io_bind, appendFile, modify, Discard, removeFile. cbn. eexists _, _.
    split; [by rewrite with_files_twice, delete_insert_eq|done].
  - unfold io_bind at 1, appendFile, modify at 1. rewrite wrote_open. cbn [w_wrote w_size open_writer].
    destruct (_ >? size) eqn:E; b2p.
    + unfold io_bind, Discard, removeFile. cbn. eexists _, _.
      split; [by rewrite with_files_twice, delete_insert_eq|done].
    + unfold ret at 1. destruct (IH (so_far ++ p) (with_files (<[path := default [] (files s !! path) ++ p]> (files s)) s)) as (e & w & Hr & Hw).
      * cbn. by rewrite Hf, lookup_insert_eq.
      * rewrite <-app_assoc. intros [Hh Hl]. apply Hno. split; [by constructor|done].
      * lia.
      * exists e, w. split; [|done]. change (w_path (open_writer path typ size so_far)) with path. rewrite Hr. cbn [files with_files]. by rewrite with_files_twice, delete_insert_eq.
Qed.

(** The state after an object was staged and its upload queued. *)
Definition staged_state (path : bytes) (typ : Z) (body : bytes) (h : Hash) (s : St) : St :=
  with_up (up_err s)
    (<[h := {| pm_typ := ObjectTypeString typ; pm_size := Z.of_nat (length body); pm_path := path |}]> (pending s))
    (queue s ++ [LooseJob h (c_prefix c ++ keyOf h) (ObjectTypeString typ) (Z.of_nat (length body)) path])
    (with_files (<[path := body]> (files s)) s).

(** What [SetEncodedObject] accepts. *)
Definition acceptable (typ size : Z) (want : Hash) (chunks : list (option nat * bytes)) (rd_err : option goerr) : Prop :=
  IsDelta typ = false /\ healthy chunks /\ rd_err = None /\ Z.of_nat (length (body_of chunks)) = size /\
  HashString (HasherSum typ size (body_of chunks)) = HashString want.

Lemma with_files_same (s : St) path b : files s !! path = None -> with_files (delete path (<[path := b]> (files s))) s = s.
Proof. intros Hn. rewrite delete_insert_id by done. by destruct s. Qed.

Lemma discard_file (s : St) path w b : w_path w = path -> w_done w = false -> files s !! path = None ->
  Discard w (with_files (<[path := b]> (files s)) s) = (Ok (set_done w), s).
Proof.
  intros Hp Hd Hn. unfold Discard. rewrite Hd. unfold io_bind, removeFile, modify, ret. rewrite Hp.
  cbn [files with_files]. by rewrite with_files_twice, with_files_same.
Qed.

Lemma discarded (s : St) w : w_done w = true -> Discard w s = (Ok w, s).
Proof. intros Hd. unfold Discard. by rewrite Hd. Qed.

(** Closing a complete writer. *)
Lemma close_complete path typ body admitted (s : St) :
  files s !! path = None ->
  let h := HasherSum typ (Z.of_nat (length body)) body in
  let w := open_writer path typ (Z.of_nat (length body)) body in
  Close c admitted w (with_files (<[path := body]> (files s)) s) =
    if admitted then (Ok (Ok tt, set_done w), staged_state path typ body h s)
    else (Ok (Err (Wrapf (Sent CtxDone)), set_done w),
          with_up (up_err s) (delete h (pending s)) (queue s) s).
Proof.
  intros Hn h w. unfold Close. cbn [w_done w open_writer w_wrote w_size set_done]. rewrite Z.eqb_refl. cbn [negb].
  unfold Sum. cbn [w_typ w_size w_hashed set_done w open_writer w_path w_wrote]. fold h.
  unfold io_bind, registerPending, modify, attempt, enqueue. destruct admitted; cbn; [by destruct s|].
  unfold evict, modify, with_files, with_up. cbn. rewrite delete_insert_id by done. rewrite delete_insert_eq. by destruct s.
Qed.
Lemma set_object_outcome (path : bytes) (admitted : bool)
    (typ size : Z) (want : Hash) (chunks : list (option nat * bytes)) (rd_err : option goerr) (s : St) :
  files s !! path = None ->
  let body := body_of chunks in
  let h := HasherSum typ size body in
  match SetEncodedObject c path admitted typ size want chunks rd_err s with
  | (Ok h', s') => acceptable typ size want chunks rd_err /\ admitted = true /\ h' = h /\ s' = staged_state path typ body h s
  | (Err _, s') =>
      (~ acceptable typ size want chunks rd_err /\ s' = s) \/
      (admitted = false /\ s' = with_up (up_err s) (delete h (pending s)) (queue s) s)
  end.
Proof.
  intros Hn body h. unfold SetEncodedObject, RawObjectWriter. fold (IsDelta typ).
  destruct (IsDelta typ) eqn:Ed; [left; split; [intros (? & _); congruence|done]|].
  destruct (size <? 0) eqn:Es; b2p; [left; split; [intros (_ & _ & _ & ? & _); lia|done]|].
  unfold io_bind at 1 2, modify, ret at 1.
  change {| w_path := path; w_typ := typ; w_size := size; w_wrote := 0; w_hashed := []; w_done := false |}
    with (open_writer path typ size []).
  set (s0 := with_files (<[path := []]> (files s)) s).
  assert (Hf0 : files s0 !! path = Some []) by (cbn; by rewrite lookup_insert_eq).
  destruct (decide (healthy chunks /\ Z.of_nat (length (body_of chunks)) <= size)) as [[Hh Hle]|Hno].
  - unfold io_bind at 1. rewrite (copy_fits path typ size chunks []) by done. cbn [app]. unfold s0 at 1 2. cbn [files with_files].
    rewrite with_files_twice, insert_insert_eq. fold body.
    assert (Hdis := discard_file s path (open_writer path typ size body) body eq_refl eq_refl Hn).
    destruct rd_err as [e|].
    { unfold io_bind. rewrite Hdis. left. split; [by intros (_ & _ & ? & _)|done]. }
    unfold Sum. cbn [w_typ w_size w_hashed open_writer]. fold h.
    destruct (bytes_eqb _ _) eqn:Eh; cbn [negb]; unfold bytes_eqb in Eh; b2p.
    2:{ unfold io_bind. rewrite Hdis. left. split; [by intros (_ & _ & _ & _ & ?)|done]. }
    unfold io_bind. destruct (decide (Z.of_nat (length body) = size)) as [Hsz|Hsz].
    + pose proof (close_complete path typ body admitted s Hn) as Hc. cbv zeta in Hc. rewrite Hsz in Hc. fold h in Hc.
      rewrite Hc. destruct admitted; [|by right]. repeat split; done.
    + unfold Close. cbn [w_done open_writer w_wrote w_size set_done]. destruct (_ =? size) eqn:E; b2p; [lia|]. cbn [negb].
      unfold io_bind, removeFile, modify. cbn [w_path files with_files ret fst snd]. left.
      split; [by intros (_ & _ & _ & ? & _)|]. rewrite with_files_twice. by apply with_files_same.
  - destruct (copy_poisons path typ size chunks [] s0) as (e & w & Hr & Hw); [done|cbn; tauto|cbn; lia|].
    unfold io_bind at 1. rewrite Hr. unfold io_bind. rewrite discarded by done. left. split.
    + intros (_ & Hh & _ & Hsz & _). apply Hno. split; [done|lia].
    + unfold s0. cbn [files with_files]. rewrite with_files_twice. by apply with_files_same.
Qed.

Definition whole_object (typ : Z) (body : bytes) : object :=
  {| eo_typ := typ; eo_size := Z.of_nat (length body); eo_bytes := body |}.

Lemma plain_type typ : typ ∈ [CommitObject; TreeObject; BlobObject; TagObject] -> IsDelta typ = false.
Proof. rewrite !elem_of_cons, elem_of_nil. by intros [->|[->|[->|[->|[]]]]]. Qed.

(** Reading a staged object. *)
Lemma staged_reads `{!GoGitLaws, !GoGitObjectsLaws} h typ body path (s : St) :
  typ ∈ [CommitObject; TreeObject; BlobObject; TagObject] -> files s !! path = Some body ->
  pending s !! h = Some {| pm_typ := ObjectTypeString typ; pm_size := Z.of_nat (length body); pm_path := path |} ->
  EncodedObject c AnyObject h s = (Ok (whole_object typ body), s) /\
  headInfo c h s = (Ok {| oh_typ := typ; oh_size := Z.of_nat (length body) |}, s).
Proof.
  intros Ht Hf Hp. assert (Hhead : parsePendingHead {| pm_typ := ObjectTypeString typ; pm_size := Z.of_nat (length body); pm_path := path |} =
    Ok {| oh_typ := typ; oh_size := Z.of_nat (length body) |}).
  { unfold parsePendingHead. cbn [pm_typ pm_size]. rewrite ParseObjectType_String; [done|]. exact Ht. }
  split.
  - destruct (read_fuel c) as (f & _ & ->). rewrite EncodedObject_S.
    unfold io_bind at 1, lookupPending, gets. rewrite Hp. unfold servePending, decodePending, io_bind, attempt, lift.
    rewrite Hhead. cbn [oh_typ]. rewrite plain_type by done. change (AnyObject =? AnyObject) with true. cbn [negb andb].
    unfold openFile. cbn [pm_path]. rewrite Hf. cbn [decodeBody oh_typ oh_size]. unfold memory_object. by rewrite MemWrite_exact.
  - unfold headInfo, io_bind, lookupPending, gets. rewrite Hp. unfold lift. by rewrite Hhead.
Qed.

Lemma head_present h hs (s : St) : headInfo c h s = (Ok hs, s) ->
  HasEncodedObject c h s = (Ok tt, s) /\ EncodedObjectSize c h s = (Ok (oh_size hs), s).
Proof. intros Hh. unfold HasEncodedObject, EncodedObjectSize, io_bind, attempt. by rewrite Hh. Qed.

(** What the upload of a loose object leaves at its key. *)
Definition loose_object (typ : Z) (body : bytes) : s3obj :=
  {| o_body := body; o_meta := <[metaType := ObjectTypeString typ]> {[metaSize := FormatInt (Z.of_nat (length body))]} |}.

Lemma loose_head `{!GoGitLaws} typ body len :
  typ ∈ [CommitObject; TreeObject; BlobObject; TagObject] -> Z.of_nat (length body) < 2 ^ 63 ->
  parseObjHead (o_meta (loose_object typ body)) len = Ok {| oh_typ := typ; oh_size := Z.of_nat (length body) |}.
Proof.
  intros Ht Hl. unfold parseObjHead. cbn [o_meta loose_object]. rewrite lookup_insert_eq. cbn [from_option id].
  rewrite ParseObjectType_String by done. rewrite lookup_insert_ne by done. rewrite lookup_singleton_eq.
  cbn [mbind option_bind]. by rewrite ParseInt_FormatInt by lia.
Qed.

Lemma loose_job_lands (view : World -> bucket) (env : bucket -> bucket -> Prop) `{!S3Laws view env} typ h body path (s s1 : St) :
  (forall b b' o, env b b' -> b !! looseKey c h = Some o -> b' !! looseKey c h = Some o) ->
  files s !! path = Some body -> up_err s = None ->
  handle_job c (LooseJob h (looseKey c h) (ObjectTypeString typ) (Z.of_nat (length body)) path) s = (Ok tt, s1) ->
  up_err s1 = None ->
  pending s1 !! h = None /\ files s1 !! path = None /\ packs s1 = packs s /\
  view (world s1) !! looseKey c h = Some (loose_object typ body).
Proof.
  intros Hkeep Hf He Hj He1. unfold handle_job, run_job, io_bind, attempt, wrapping, openFile in Hj. rewrite Hf in Hj.
  unfold request in Hj. destruct (PutObject _ _ _ _ (world s)) as [[t|e] w] eqn:Hw; cbn in Hj; injection Hj as <-.
  - apply PutObject_ok in Hw as (b & _ & _ & _ & Hb2). cbn. rewrite !lookup_delete_eq.
    split; [done|]. split; [done|]. split; [done|]. apply (Hkeep _ _ _ Hb2). by rewrite lookup_insert_eq.
  - cbn in He1. rewrite He in He1. done.
Qed.
End spec.

(** ** Properties *)

(** Storing an object is all or nothing.  It succeeds exactly when the type
    is not a delta, every byte arrived, their number is the declared size, their
    hash has the claimed name and the upload was admitted; then the object is
    staged and its upload queued, and nothing else changed.  On every refusal
    the storer is as it was before; only a refused admission can forget an
    earlier staged copy of the same object. *)
Theorem set_object_all_or_nothing `{GoGit, Zstd, S3, GoGitObjects} (c : config) (path : bytes) (admitted : bool)
    (typ size : Z) (want : Hash) (chunks : list (option nat * bytes)) (rd_err : option goerr) (s : St) :
  files s !! path = None ->
  let body := body_of chunks in
  let h := HasherSum typ size body in
  match SetEncodedObject c path admitted typ size want chunks rd_err s with
  | (Ok h', s') => acceptable typ size want chunks rd_err /\ admitted = true /\ h' = h /\ s' = staged_state c path typ body h s
  | (Err _, s') =>
      (~ acceptable typ size want chunks rd_err /\ s' = s) \/
      (admitted = false /\ s' = with_up (up_err s) (delete h (pending s)) (queue s) s)
  end.
Proof. exact (set_object_outcome c path admitted typ size want chunks rd_err s). Qed.

(** An object that was stored is readable at once, whole and under its own
    hash, while its upload is still queued, and reading it asks nothing of the
    bucket. *)
Theorem stored_object_reads_back `{GoGit, Zstd, S3, GoGitObjects} (c : config) (path : bytes) (admitted : bool)
    (typ size : Z) (want h : Hash) (chunks : list (option nat * bytes)) (rd_err : option goerr) (s s' : St) :
  GoGitLaws -> GoGitObjectsLaws -> typ ∈ [CommitObject; TreeObject; BlobObject; TagObject] -> files s !! path = None ->
  SetEncodedObject c path admitted typ size want chunks rd_err s = (Ok h, s') ->
  EncodedObject c AnyObject h s' = (Ok {| eo_typ := typ; eo_size := size; eo_bytes := body_of chunks |}, s') /\
  HasEncodedObject c h s' = (Ok tt, s') /\ EncodedObjectSize c h s' = (Ok size, s').
Proof.
  intros Hg Ho Ht Hn Hr. pose proof (set_object_outcome c path admitted typ size want chunks rd_err s Hn) as Hs.
  cbv zeta in Hs. rewrite Hr in Hs. destruct Hs as ((_ & _ & _ & Hsz & _) & _ & -> & ->).
  destruct (staged_reads c (HasherSum typ size (body_of chunks)) typ (body_of chunks) path
    (staged_state c path typ (body_of chunks) (HasherSum typ size (body_of chunks)) s)) as [H1' H2']; [done| | |].
  - cbn. by rewrite lookup_insert_eq.
  - cbn. by rewrite lookup_insert_eq.
  - apply head_present in H2' as [H3 H4]. cbn [oh_size] in H4. unfold whole_object in H1'. rewrite Hsz in H1', H4. done.
Qed.

(** C17: once its upload succeeded and the staged copy is gone, the object is
    read from the bucket with the same type, size and bytes, as long as nobody
    replaces content under this repository's prefix; a failed read is only ever
    a failure of the transport. *)
Theorem uploaded_object_reads_back `{GoGit, Zstd, S3, GoGitObjects} (view : World -> bucket) (env : bucket -> bucket -> Prop)
    (c : config) (typ : Z) (h : Hash) (body path : bytes) (s s1 s2 : St) (r : gores object) :
  GoGitLaws -> GoGitObjectsLaws -> S3Laws view env ->
  (forall b b' o, env b b' -> b !! looseKey c h = Some o -> b' !! looseKey c h = Some o) ->
  typ ∈ [CommitObject; TreeObject; BlobObject; TagObject] -> Z.of_nat (length body) < 2 ^ 63 ->
  files s !! path = Some body -> up_err s = None -> built (packs s) = true -> entry_of (packs s) h = None ->
  handle_job c (LooseJob h (looseKey c h) (ObjectTypeString typ) (Z.of_nat (length body)) path) s = (Ok tt, s1) ->
  up_err s1 = None ->
  EncodedObject c AnyObject h s1 = (r, s2) ->
  pending s1 !! h = None /\ files s1 !! path = None /\
  (r = Ok (whole_object typ body) \/ exists x, foreign x /\ (r = Err (Wrapf x))).
Proof.
  intros Hg Ho Hlaws Hkeep Ht Hl Hf He Hb Hent Hj He1 Hr.
  destruct (loose_job_lands c view env typ h body path s s1) as (Hp1 & Hf1 & Hpk & Hat); try done.
  split; [done|]. split; [done|]. destruct (read_fuel c) as (f & _ & Hfu). rewrite Hfu in Hr. clear Hfu. rewrite EncodedObject_S in Hr.
  apply io_bind_inv in Hr as [(p & s3 & [= <- <-] & Hr)|(e & [=] & _)]. rewrite Hp1 in Hr.
  apply io_bind_inv in Hr as [(sv & s3 & [= <- <-] & Hr)|(e & [=] & _)].
  apply io_bind_inv in Hr as [(e & s3 & Hlk & Hr)|(e & Hlk & _)]; rewrite packLookup_built in Hlk by congruence; [|done].
  injection Hlk as <- <-. rewrite Hpk, Hent in Hr.
  apply io_bind_inv in Hr as [(g & s3 & Ha & Hr)|(e & Ha & _)]; apply attempt_inv in Ha as (r0 & [= ->] & Ha).
  apply (request_inv) in Ha as (w & Hw & ->). destruct r0 as [out|e].
  - apply GetObject_ok in Hw as (b & o & Hb1 & Hk & _ & _ & Hmeta & Hbody & Hfail).
    rewrite (Hkeep _ b _ Hb1 Hat) in Hk. injection Hk as <-.
    rewrite Hmeta, loose_head in Hr by done. cbn [io_bind lift oh_typ] in Hr. unfold io_bind, lift in Hr. cbn [oh_typ] in Hr.
    rewrite plain_type in Hr by done. change (AnyObject =? AnyObject) with true in Hr. cbn [negb andb] in Hr.
    injection Hr as <- _. destruct (g_body out) as [x|x] eqn:Eb; cbn [decodeBody oh_typ oh_size].
    + left. rewrite (Hbody x eq_refl). cbn [o_body loose_object]. unfold memory_object. by rewrite MemWrite_exact.
    + right. exists x. split; [by apply Hfail|done].
  - apply GetObject_err in Hw as [Hx (b & Hb1 & _ & Hnf)]. right.
    destruct (isNotFound e) eqn:En; injection Hr as <- _; [|by exists e].
    specialize (Hnf eq_refl). rewrite (Hkeep _ b _ Hb1 Hat) in Hnf. done.
Qed.

(** ** Witnesses *)

Definition greeting_chunks : list (option nat * bytes) := [(None, bs "hel"); (None, bs "lo")].
Definition greeting_hash : @Hash toy_git := @HasherSum toy_git BlobObject 5 (bs "hello").
Definition built_start (b : bucket) (fs : gmap bytes bytes) : @St toy_git Plain.plain_s3 :=
  with_packs (set_built (newPackIndex 20)) (start_state b fs).

Abbreviation set_greeting size := (@SetEncodedObject toy_git Plain.plain_s3 unit_config (bs "/tmp/a") true BlobObject size
  greeting_hash greeting_chunks None (built_start ∅ ∅)).

Lemma set_object_all_or_nothing_witness :
  is_ok (fst (set_greeting 5)) = true /\ is_ok (fst (set_greeting 6)) = false /\
  (let body := body_of greeting_chunks in
   let h := @HasherSum toy_git BlobObject 5 body in
   match set_greeting 5 with
   | (Ok h', s') => @acceptable toy_git BlobObject 5 greeting_hash greeting_chunks None /\ true = true /\
       h' = h /\ s' = staged_state unit_config (bs "/tmp/a") BlobObject body h (built_start ∅ ∅)
   | (Err _, s') => (~ @acceptable toy_git BlobObject 5 greeting_hash greeting_chunks None /\ s' = built_start ∅ ∅) \/
       (true = false /\ s' = with_up (up_err (built_start ∅ ∅)) (delete h (pending (built_start ∅ ∅))) (queue (built_start ∅ ∅)) (built_start ∅ ∅))
   end).
Proof.
  split; [reflexivity|]. split; [reflexivity|].
  pose proof (@set_object_all_or_nothing toy_git toy_zstd Plain.plain_s3 toy_objects unit_config (bs "/tmp/a") true BlobObject 5
    greeting_hash greeting_chunks None (built_start ∅ ∅) (lookup_empty _)) as Hs.
  exact Hs.
Defined.

Lemma stored_object_reads_back_witness :
  @EncodedObject toy_git toy_zstd Plain.plain_s3 toy_objects unit_config AnyObject greeting_hash (snd (set_greeting 5)) =
    (Ok {| eo_typ := BlobObject; eo_size := 5; eo_bytes := bs "hello" |}, snd (set_greeting 5)).
Proof.
  refine (proj1 (@stored_object_reads_back toy_git toy_zstd Plain.plain_s3 toy_objects unit_config (bs "/tmp/a") true BlobObject 5
    greeting_hash greeting_hash greeting_chunks None (built_start ∅ ∅) (snd (set_greeting 5))
    toy_git_laws toy_objects_laws _ (lookup_empty _) _)).
  - right. right. left.
  - reflexivity.
Defined.

Definition greeting_job : @uploadJob toy_git :=
  LooseJob greeting_hash (@looseKey toy_git unit_config greeting_hash) (@ObjectTypeString toy_git BlobObject) 5 (bs "/tmp/a").
Definition greeting_state : @St toy_git Plain.plain_s3 := built_start ∅ {[bs "/tmp/a" := bs "hello"]}.
Definition greeting_uploaded : @St toy_git Plain.plain_s3 :=
  snd (@handle_job toy_git Plain.plain_s3 unit_config greeting_job greeting_state).

Lemma uploaded_object_reads_back_witness :
  let r := @EncodedObject toy_git toy_zstd Plain.plain_s3 toy_objects unit_config AnyObject greeting_hash greeting_uploaded in
  fst r = Ok (whole_object BlobObject (bs "hello")) \/ exists x, foreign x /\ fst r = Err (Wrapf x).
Proof.
  intros r.
  refine (proj2 (proj2 (@uploaded_object_reads_back toy_git toy_zstd Plain.plain_s3 toy_objects (fun b => b) eq unit_config BlobObject
    greeting_hash (bs "hello") (bs "/tmp/a") greeting_state greeting_uploaded (snd r) (fst r)
    toy_git_laws toy_objects_laws Plain.plain_s3_laws _ _ _ _ _ _ _ _ _ _))).
  - intros b b' o <- Ho. exact Ho.
  - right. right. left.
  - vm_compute. reflexivity.
  - apply lookup_singleton_eq.
  - reflexivity.
  - reflexivity.
  - reflexivity.
  - reflexivity.
  - reflexivity.
  - apply surjective_pairing.
Defined.
