(* ===== verification/Delta.v ===== *)
(** * Git deltas (internal/storage/tigris/indexpack.go, [apply] and [readDeltaSize])

    The instruction streams a push carries, byte by byte: two base-128 sizes,
    then copy and insert commands. *)

From S2P Require Import Prelude GoLib Concrete.

(** One of the two sizes of the header, least significant group first. *)
Fixpoint readDeltaSize_from (shift n : Z) (d : bytes) : gores (Z * bytes) :=
  if shift >? 63 then Err (Sent ErrInvalidDelta) else
  match d with
  | [] => Err (Sent ErrInvalidDelta)
  | b :: d' =>
      let n := Z.lor n (u64 (Z.shiftl (Z.land (bu b) 127) shift)) in
      if Z.land (bu b) 128 =? 0 then Ok (n, d') else readDeltaSize_from (shift + 7) n d'
  end.

Definition readDeltaSize (d : bytes) : gores (Z * bytes) := readDeltaSize_from 0 0 d.

(** The optional little-endian bytes of a copy command: [n] of them, the first
    announced by bit [bit] of [cmd]. *)
Fixpoint copy_arg (cmd bit shift : Z) (n : nat) (acc : Z) (d : bytes) : option (Z * bytes) :=
  match n with
  | O => Some (acc, d)
  | S n' =>
      if Z.testbit cmd bit then
        match d with
        | [] => None
        | b :: d' => copy_arg cmd (bit + 1) (shift + 8) n' (Z.lor acc (Z.shiftl (bu b) shift)) d'
        end
      else copy_arg cmd (bit + 1) (shift + 8) n' acc d
  end.

(** The command loop; the result is what was written to [out], and the bytes of
    the delta that are left.  Every turn uses up a byte of [d]. *)
Fixpoint apply_cmds (fuel : nat) (src remaining : Z) (base d : bytes) : gores (bytes * bytes) :=
  if remaining <=? 0 then Ok ([], d) else
  match fuel with
  | O => Err OutOfFuel
  | S f =>
      match d with
      | [] => Err (Sent ErrInvalidDelta)
      | cmd :: d =>
          let cmd := bu cmd in
          if negb (Z.land cmd 128 =? 0) then
            match copy_arg cmd 0 0 4 0 d with
            | None => Err (Sent ErrInvalidDelta)
            | Some (off, d) =>
                match copy_arg cmd 4 0 3 0 d with
                | None => Err (Sent ErrInvalidDelta)
                | Some (sz, d) =>
                    let sz := if sz =? 0 then 65536 else sz in
                    if (sz >? remaining) || (off + sz >? src) then Err (Sent ErrInvalidDelta) else
                    let? (out, d) := apply_cmds f src (remaining - sz) base d in
                    Ok (take (Z.to_nat sz) (drop (Z.to_nat off) base) ++ out, d)
                end
            end
          else if negb (cmd =? 0) then
            let sz := cmd in
            if sz >? remaining then Err (Sent ErrInvalidDelta) else
            if Z.of_nat (length d) <? sz then Err (Sent ErrInvalidDelta) else
            let? (out, rest) := apply_cmds f src (remaining - sz) base (drop (Z.to_nat sz) d) in
            Ok (take (Z.to_nat sz) d ++ out, rest)
          else Err (Sent ErrDeltaCmd)
      end
  end.

Section apply.
Context `{GoGit}.

(** [resolver.apply]: the rebuilt body and its hash. *)
Definition apply (typ : Z) (base delta : bytes) : gores (bytes * Hash) :=
  let? (src, d) := readDeltaSize delta in
  if negb (i64 src =? Z.of_nat (length base)) then Err (Sent ErrInvalidDelta) else
  let? (tgt, d) := readDeltaSize d in
  if tgt >? Z.shiftl 1 62 then Err (Sent ErrInvalidDelta) else
  let? (out, rest) := apply_cmds (S (length d)) src tgt base d in
  match rest with
  | _ :: _ => Err (Sent ErrInvalidDelta)
  | [] => Ok (out, HasherSum typ (i64 tgt) out)
  end.
End apply.

(** ** The meaning of a delta *)

Inductive delta_op := CopyOp (off sz : Z) | InsertOp (lit : bytes).

Definition op_bytes (base : bytes) (o : delta_op) : bytes :=
  match o with
  | CopyOp off sz => take (Z.to_nat sz) (drop (Z.to_nat off) base)
  | InsertOp lit => lit
  end.

(** A command of the format: a copy stays inside the base. *)
Definition op_ok (base : bytes) (o : delta_op) : Prop :=
  match o with
  | CopyOp off sz => 0 <= off < 2 ^ 32 /\ 0 < sz < 2 ^ 24 /\ off + sz <= Z.of_nat (length base)
  | InsertOp lit => 0 < Z.of_nat (length lit) < 128
  end.

Definition denote (base : bytes) (ops : list delta_op) : bytes := concat (op_bytes base <$> ops).

(** ** The format *)

(** A size: groups of seven bits, the least significant first, each but the last
    with its high bit set; at most ten of them, of which 64 bits count. *)
Definition groups_value (z : bytes) : Z := foldr (fun b acc => bu b mod 128 + 128 * acc) 0 z.
Definition size_form (z : bytes) (n : Z) : Prop :=
  (exists init last, z = init ++ [last] /\ Forall (fun b => 128 <= bu b) init /\ bu last < 128) /\
  (length z <= 10)%nat /\ n = groups_value z mod 2 ^ 64.

(** The bytes of a copy command's argument, those left out standing for zero; the
    command says which are there, one bit for each. *)
Definition arg_value (l : list (option byte)) : Z := foldr (fun o acc => from_option bu 0 o + 256 * acc) 0 l.
Definition arg_out (l : list (option byte)) : bytes := omap id l.
Definition announced (cmd bit : Z) (l : list (option byte)) : Prop :=
  forall k o, l !! k = Some o -> Z.testbit cmd (bit + Z.of_nat k) = bool_decide (is_Some o).

Inductive op_form : bytes -> delta_op -> Prop :=
  | insert_form b lit : bu b = Z.of_nat (length lit) -> 0 < bu b < 128 -> op_form (b :: lit) (InsertOp lit)
  | copy_form b off sz :
      128 <= bu b -> length off = 4%nat -> length sz = 3%nat -> announced (bu b) 0 off -> announced (bu b) 4 sz ->
      op_form (b :: arg_out off ++ arg_out sz) (CopyOp (arg_value off) (if arg_value sz =? 0 then 65536 else arg_value sz)).

(** [delta] rebuilds [out] from [base]: it says the lengths of both, and its
    commands, which stay inside the base, denote [out]. *)
Definition delta_form (base delta out : bytes) : Prop :=
  exists zs zt zops ops, delta = zs ++ zt ++ concat zops /\
    size_form zs (Z.of_nat (length base)) /\ size_form zt (Z.of_nat (length out)) /\
    Forall2 op_form zops ops /\ Forall (op_ok base) ops /\ out = denote base ops.

(** A writer of the format, to state what [apply] reads: zero bytes of a copy's
    arguments are left out. *)
Fixpoint arg_bytes (n : nat) (v : Z) : list (option byte) :=
  match n with
  | O => []
  | S n' => (if v mod 256 =? 0 then None else Some (bz v)) :: arg_bytes n' (v / 256)
  end.
Fixpoint arg_flags (l : list (option byte)) (bit : Z) : Z :=
  match l with
  | [] => 0
  | o :: l' => (if o is Some _ then 2 ^ bit else 0) + arg_flags l' (bit + 1)
  end.
Definition encode_op (o : delta_op) : bytes :=
  match o with
  | CopyOp off sz =>
      let a := arg_bytes 4 off in
      let b := arg_bytes 3 sz in
      bz (128 + arg_flags a 0 + arg_flags b 4) :: arg_out a ++ arg_out b
  | InsertOp lit => bz (Z.of_nat (length lit)) :: lit
  end.

Fixpoint size_bytes (fuel : nat) (n : Z) : bytes :=
  match fuel with
  | O => []
  | S f => if n <? 128 then [bz n] else bz (128 + n mod 128) :: size_bytes f (n / 128)
  end.

Definition encode_delta (base : bytes) (ops : list delta_op) : bytes :=
  size_bytes 10 (Z.of_nat (length base)) ++ size_bytes 10 (Z.of_nat (length (denote base ops))) ++
  concat (encode_op <$> ops).

(** ** Lemmas *)

Lemma lor_add a b s : 0 <= s -> 0 <= a < 2 ^ s -> Z.lor a (Z.shiftl b s) = a + b * 2 ^ s.
Proof.
  intros Hs Ha. rewrite <-Z.add_nocarry_lor by
    (apply Z.bits_inj'; intros n Hn; rewrite Z.land_spec, Z.bits_0, Z.shiftl_spec by done;
     destruct (Z.lt_ge_cases n s); [by rewrite (Z.testbit_neg_r b), andb_false_r by lia|];
     rewrite <-(Z.mod_small a (2 ^ s)), Z.mod_pow2_bits_high by lia; done).
  by rewrite Z.shiftl_mul_pow2.
Qed.

Lemma high_bit v : 0 <= v < 256 -> (Z.land v 128 =? 0) = (v <? 128).
Proof.
  intros Hv. assert (Hall : forallb (fun k => Bool.eqb (Z.land (Z.of_nat k) 128 =? 0) (Z.of_nat k <? 128)) (seq 0 256) = true)
    by (by vm_compute).
  rewrite forallb_forall in Hall. specialize (Hall (Z.to_nat v)). rewrite Z2Nat.id in Hall by lia.
  apply Bool.eqb_prop, Hall. apply in_seq. lia.
Qed.

Lemma low_bits v : Z.land v 127 = v mod 128.
Proof. exact (Z.land_ones v 7 ltac:(lia)). Qed.

Lemma read_size_from fuel n acc shift rest :
  0 <= shift -> 0 <= acc < 2 ^ shift -> 0 <= n -> shift + 7 * Z.of_nat fuel <= 70 ->
  n < 2 ^ (7 * Z.of_nat fuel) -> (fuel <> 0)%nat -> acc + n * 2 ^ shift < 2 ^ 64 ->
  readDeltaSize_from shift acc (size_bytes fuel n ++ rest) = Ok (acc + n * 2 ^ shift, rest).
Proof.
  revert n acc shift. induction fuel as [|f IH]; intros n acc shift Hs Ha Hn Hsh Hlt Hf Hmax; [done|].
  cbn [size_bytes]. assert (Hp : 0 < 2 ^ shift) by lia.
  destruct (n <? 128) eqn:E; b2p.
  - cbn [app readDeltaSize_from]. destruct (shift >? 63) eqn:E2; b2p; [lia|].
    rewrite bu_bz, (Z.mod_small n) by lia. rewrite high_bit, low_bits, (Z.mod_small n) by lia.
    destruct (n <? 128) eqn:E3; b2p; [|lia]. unfold u64.
    rewrite Z.mod_small by (rewrite Z.shiftl_mul_pow2; nia). by rewrite lor_add.
  - cbn [app readDeltaSize_from]. destruct (shift >? 63) eqn:E2; b2p; [lia|].
    pose proof (Z.mod_pos_bound n 128). pose proof (Z.div_mod n 128).
    rewrite bu_bz, (Z.mod_small (128 + _)) by lia. rewrite high_bit, low_bits by lia.
    destruct (128 + n mod 128 <? 128) eqn:E3; b2p; [lia|].
    rewrite <-(Zplus_mod_idemp_l 128). change (128 mod 128) with 0. rewrite Z.add_0_l, Zmod_mod.
    assert (f <> 0%nat) by (intros ->; change (2 ^ (7 * Z.of_nat 1)) with 128 in Hlt; lia).
    assert (Hpow : 2 ^ (shift + 7) = 2 ^ shift * 128) by (rewrite Z.pow_add_r by lia; done).
    unfold u64. rewrite Z.mod_small by (rewrite Z.shiftl_mul_pow2; nia). rewrite lor_add by done.
    rewrite IH; [f_equal; f_equal; nia|lia|rewrite Hpow; nia|lia|lia| |done|rewrite Hpow; nia].
    apply Z.div_lt_upper_bound; [lia|]. replace (7 * Z.of_nat (S f)) with (7 + 7 * Z.of_nat f) in Hlt by lia.
    by rewrite Z.pow_add_r in Hlt by lia.
Qed.

Lemma read_size n rest : 0 <= n < 2 ^ 63 -> readDeltaSize (size_bytes 10 n ++ rest) = Ok (n, rest).
Proof.
  intros Hn. unfold readDeltaSize. rewrite read_size_from by (change (7 * Z.of_nat 10) with 70; lia).
  do 2 f_equal. lia.
Qed.

(** ** Arguments of copy commands *)

Lemma read_arg n v cmd bit shift acc rest :
  0 <= v -> 0 <= shift -> 0 <= bit -> 0 <= acc < 2 ^ shift ->
  (forall k, (k < n)%nat -> Z.testbit cmd (bit + Z.of_nat k) = negb ((v / 256 ^ Z.of_nat k) mod 256 =? 0)) ->
  copy_arg cmd bit shift n acc (arg_out (arg_bytes n v) ++ rest) = Some (acc + v mod 256 ^ Z.of_nat n * 2 ^ shift, rest).
Proof.
  revert v bit shift acc. induction n as [|n IH]; intros v bit shift acc Hv Hs Hb Ha Hbits.
  { cbn. rewrite Z.mod_1_r. do 2 f_equal. lia. }
  cbn [copy_arg arg_bytes]. pose proof (Hbits 0%nat ltac:(lia)) as H0. rewrite Z.add_0_r, Z.div_1_r in H0. rewrite H0.
  assert (Hpow : 2 ^ (shift + 8) = 2 ^ shift * 256) by (rewrite Z.pow_add_r by lia; done).
  assert (Hp : 0 < 2 ^ shift) by lia. pose proof (Z.mod_pos_bound v 256 ltac:(lia)) as Hm.
  assert (Hnext : forall acc', acc' = acc + v mod 256 * 2 ^ shift ->
    copy_arg cmd (bit + 1) (shift + 8) n acc' (arg_out (arg_bytes n (v / 256)) ++ rest) =
      Some (acc + v mod 256 ^ Z.of_nat (S n) * 2 ^ shift, rest)).
  { intros acc' ->. rewrite IH; [|apply Z.div_pos; lia|lia|lia|rewrite Hpow; nia|].
    - do 2 f_equal. replace (Z.of_nat (S n)) with (1 + Z.of_nat n) by lia.
      rewrite (Z.pow_add_r 256 1), Z.pow_1_r by lia. rewrite Z.rem_mul_r by lia. rewrite Hpow. nia.
    - intros k Hk. rewrite Z.div_div by lia. rewrite <-Z.pow_succ_r by lia.
      replace (bit + 1 + Z.of_nat k) with (bit + Z.of_nat (S k)) by lia. rewrite (Hbits (S k)) by lia.
      by rewrite Nat2Z.inj_succ. }
  destruct (v mod 256 =? 0) eqn:E; cbn [negb]; b2p.
  - cbn [arg_out omap list_omap id]. apply Hnext. rewrite E. lia.
  - cbn [arg_out omap list_omap id app]. rewrite bu_bz, lor_add by done. by apply Hnext.
Qed.

(** The command byte of a copy announces the bytes that are there. *)
Definition flag (v : Z) (k : Z) : bool := negb ((v / 256 ^ k) mod 256 =? 0).

Lemma arg_flags_eq n v bit :
  arg_flags (arg_bytes n v) bit =
  fold_right Z.add 0 ((fun k => Z.b2z (flag v (Z.of_nat k)) * 2 ^ (bit + Z.of_nat k)) <$> seq 0 n).
Proof.
  enough (Hg : forall m, (m <= n)%nat -> arg_flags (arg_bytes m (v / 256 ^ Z.of_nat (n - m))) (bit + Z.of_nat (n - m)) =
    fold_right Z.add 0 ((fun k => Z.b2z (flag v (Z.of_nat k)) * 2 ^ (bit + Z.of_nat k)) <$> seq (n - m) m)).
  { specialize (Hg n). rewrite Nat.sub_diag, Z.div_1_r, Z.add_0_r in Hg. by apply Hg. }
  induction m as [|m IH]; intros Hm; [done|]. cbn [arg_bytes arg_flags seq fmap list_fmap fold_right].
  unfold flag at 1. f_equal; [by destruct (_ =? 0); cbn [negb Z.b2z]; lia|].
  replace (S (n - S m)) with (n - m)%nat by lia. rewrite <-IH by lia. f_equal; [|lia].
  f_equal. rewrite Z.div_div by lia. f_equal. rewrite Z.mul_comm, <-Z.pow_succ_r by lia. f_equal. lia.
Qed.

Lemma cmd_bits off sz :
  let cmd := 128 + arg_flags (arg_bytes 4 off) 0 + arg_flags (arg_bytes 3 sz) 4 in
  128 <= cmd < 256 /\
  (forall k, (k < 4)%nat -> Z.testbit cmd (0 + Z.of_nat k) = flag off (Z.of_nat k)) /\
  (forall k, (k < 3)%nat -> Z.testbit cmd (4 + Z.of_nat k) = flag sz (Z.of_nat k)).
Proof.
  intros cmd. unfold cmd. rewrite !arg_flags_eq. cbn [seq fmap list_fmap fold_right].
  split; [repeat match goal with |- context [flag ?v ?k] => destruct (flag v k) end; cbn; lia|].
  split; intros k Hk; (destruct k as [|[|[|[|k]]]]; try lia);
    repeat match goal with |- context [flag ?v ?k] => destruct (flag v k) end; reflexivity.
Qed.

Lemma op_bytes_length base o : op_ok base o ->
  Z.of_nat (length (op_bytes base o)) = match o with CopyOp _ sz => sz | InsertOp lit => Z.of_nat (length lit) end /\
  0 < Z.of_nat (length (op_bytes base o)).
Proof. destruct o; intros Ho; cbn [op_ok op_bytes] in *; [rewrite length_take, length_drop|]; lia. Qed.

Lemma length_encoded_ops ops : (length ops <= S (length (concat (encode_op <$> ops))))%nat.
Proof.
  enough (length ops <= length (concat (encode_op <$> ops)))%nat by lia.
  induction ops as [|o ops IH]; [done|]. rewrite fmap_cons. cbn [concat length]. rewrite length_app.
  assert (0 < length (encode_op o))%nat by (destruct o; cbn; lia). lia.
Qed.

Lemma apply_cmds_encoded base ops fuel rest :
  Forall (op_ok base) ops -> (length ops <= fuel)%nat ->
  apply_cmds fuel (Z.of_nat (length base)) (Z.of_nat (length (denote base ops))) base
    (concat (encode_op <$> ops) ++ rest) = Ok (denote base ops, rest).
Proof.
  intros Hops. revert fuel. induction Hops as [|o ops Ho Hops IH]; intros fuel Hf; [by destruct fuel|].
  destruct fuel as [|f]; [cbn in Hf; lia|]. cbn in Hf.
  destruct (op_bytes_length base o Ho) as [Hlen Hpos]. unfold denote in *. cbn [fmap list_fmap concat] in *.
  rewrite length_app, Nat2Z.inj_add. cbn [apply_cmds].
  destruct (_ <=? 0) eqn:E0; b2p; [lia|].
  destruct o as [off sz|lit]; cbn [encode_op op_bytes] in *; rewrite <-!app_assoc; cbn [app].
  - destruct (cmd_bits off sz) as (Hc & Hb1 & Hb2). cbv zeta in Hc, Hb1, Hb2. destruct Ho as (Ho1 & Ho2 & Ho3).
    rewrite bu_bz, Z.mod_small, high_bit by lia. destruct (_ <? 128) eqn:E1; b2p; [lia|]. cbn [negb].
    rewrite <-!app_assoc. rewrite (read_arg 4 off) by (done || lia).
    rewrite (read_arg 3 sz) by (done || lia). change (256 ^ Z.of_nat 4) with (2 ^ 32). change (256 ^ Z.of_nat 3) with (2 ^ 24).
    rewrite !Z.mod_small, !Z.mul_1_r, !Z.add_0_l by lia.
    destruct (sz =? 0) eqn:E2; b2p; [lia|].
    destruct (sz >? _) eqn:E3; b2p; [lia|]. destruct (off + sz >? _) eqn:E4; b2p; [lia|]. cbn [orb].
    replace (Z.of_nat (length (take _ _)) + _ - sz) with (Z.of_nat (length (concat (op_bytes base <$> ops)))) by lia.
    rewrite IH by lia. done.
  - rewrite bu_bz, Z.mod_small, high_bit by (cbn in Ho; lia). cbn in Ho.
    destruct (_ <? 128) eqn:E1; b2p; [|lia]. cbn [negb]. destruct (Z.of_nat (length lit) =? 0) eqn:E2; b2p; [lia|]. cbn [negb].
    destruct (_ >? _) eqn:E3; b2p; [lia|]. rewrite length_app. destruct (_ <? _) eqn:E4; b2p; [lia|].
    rewrite Nat2Z.id, drop_app_length, take_app_length.
    replace (Z.of_nat (length lit) + _ - _) with (Z.of_nat (length (concat (op_bytes base <$> ops)))) by lia.
    rewrite IH by lia. done.
Qed.

Lemma copy_arg_range cmd bit shift n acc d v d' :
  copy_arg cmd bit shift n acc d = Some (v, d') -> 0 <= shift -> 0 <= acc < 2 ^ shift ->
  0 <= v < 2 ^ (shift + 8 * Z.of_nat n) /\ (length d' <= length d)%nat.
Proof.
  revert bit shift acc d. induction n as [|n IH]; intros bit shift acc d Hr Hs Ha; cbn [copy_arg] in Hr.
  { injection Hr as <- <-. rewrite Z.add_0_r. lia. }
  assert (Hpow : 2 ^ (shift + 8) = 2 ^ shift * 256) by (rewrite Z.pow_add_r by lia; done).
  replace (shift + 8 * Z.of_nat (S n)) with ((shift + 8) + 8 * Z.of_nat n) by lia.
  destruct (Z.testbit cmd bit).
  - destruct d as [|b d]; [done|]. pose proof (bu_range b). apply IH in Hr; [cbn; lia|lia|].
    rewrite lor_add by done. rewrite Hpow. nia.
  - apply IH in Hr; [lia|lia|]. rewrite Hpow. lia.
Qed.

(** ** Reading the format *)

Lemma arg_value_cons o l : arg_value (o :: l) = from_option bu 0 o + 256 * arg_value l.
Proof. done. Qed.
Lemma copy_arg_form cmd bit shift n acc d v d' : 0 <= shift -> 0 <= acc < 2 ^ shift ->
  copy_arg cmd bit shift n acc d = Some (v, d') <->
  exists l, length l = n /\ announced cmd bit l /\ d = arg_out l ++ d' /\ v = acc + arg_value l * 2 ^ shift.
Proof.
  revert bit shift acc d. induction n as [|n IH]; intros bit shift acc d Hs Ha; cbn [copy_arg].
  { split.
    - intros [= <- <-]. exists []. split; [done|]. split; [intros k o Hk; by rewrite lookup_nil in Hk|]. split; [done|]. cbn. lia.
    - intros ([|x l] & Hl & _ & -> & ->); [|done]. cbn. do 2 f_equal. lia. }
  assert (Hpow : 2 ^ (shift + 8) = 2 ^ shift * 256) by (rewrite Z.pow_add_r by lia; done).
  assert (Hann : forall o l, announced cmd bit (o :: l) <-> Z.testbit cmd bit = bool_decide (is_Some o) /\ announced cmd (bit + 1) l).
  { intros o l. unfold announced. split.
    - intros Hl. split; [by rewrite <-(Hl 0%nat o eq_refl), Z.add_0_r|]. intros k x Hk. rewrite <-(Hl (S k) x Hk). f_equal. lia.
    - intros [H0 Hl] [|k] x Hk; [injection Hk as <-; by rewrite Z.add_0_r|]. rewrite <-(Hl k x Hk). f_equal. lia. }
  assert (Hstep : forall o acc' d1, Z.testbit cmd bit = bool_decide (is_Some o) -> acc' = acc + from_option bu 0 o * 2 ^ shift -> 0 <= acc' < 2 ^ (shift + 8) ->
    d = arg_out [o] ++ d1 -> (forall o' l, length (o' :: l) = S n -> announced cmd bit (o' :: l) -> d = arg_out (o' :: l) ++ d' -> o' = o) ->
    copy_arg cmd (bit + 1) (shift + 8) n acc' d1 = Some (v, d') <->
    exists l, length l = S n /\ announced cmd bit l /\ d = arg_out l ++ d' /\ v = acc + arg_value l * 2 ^ shift).
  { intros o acc' d1 Hb -> Hr -> Hu. rewrite IH by lia. split.
    - intros (l & Hl & Hal & -> & ->). exists (o :: l). split; [by rewrite <-Hl|]. split; [by apply Hann|].
      split; [unfold arg_out; cbn; by destruct o|]. rewrite arg_value_cons, Hpow. ring.
    - intros ([|o' l] & Hl & Hal & Hd & ->); [done|]. pose proof (Hu _ _ Hl Hal Hd) as ->. exists l. split; [cbn in Hl; lia|].
      split; [by apply Hann in Hal as [_ ?]|]. split; [|rewrite arg_value_cons, Hpow; ring].
      unfold arg_out in *. cbn in Hd. destruct o; [by injection Hd|done]. }
  destruct (Z.testbit cmd bit) eqn:Eb.
  - destruct d as [|b d].
    + split; [done|]. intros ([|o l] & Hl & Hal & Hd & _); [done|]. apply Hann in Hal as [Hal _].
      destruct o; [done|discriminate Hal].
    + pose proof (bu_range b). apply (Hstep (Some b)); [done|by rewrite lor_add| |done|].
      { rewrite lor_add by done. rewrite Hpow. nia. }
      intros o l Hl Hal Hd. apply Hann in Hal as [Hal _]. destruct o; [|discriminate Hal]. unfold arg_out in Hd. cbn in Hd. by injection Hd as ->.
  - apply (Hstep None); [done|cbn; lia|rewrite Hpow; lia|done|].
    intros o l Hl Hal Hd. apply Hann in Hal as [Hal _]. destruct o; [discriminate Hal|done].
Qed.

Lemma size_groups n shift b : 0 <= shift -> 0 <= n < 2 ^ shift -> (shift <= 63) ->
  Z.lor n (u64 (Z.shiftl (Z.land (bu b) 127) shift)) = (n + bu b mod 128 * 2 ^ shift) mod 2 ^ 64 /\
  (shift <= 57 -> Z.lor n (u64 (Z.shiftl (Z.land (bu b) 127) shift)) = n + bu b mod 128 * 2 ^ shift).
Proof.
  intros Hs Hn Hm. rewrite low_bits, Z.shiftl_mul_pow2 by done. pose proof (Z.mod_pos_bound (bu b) 128 ltac:(lia)) as Hb.
  assert (Hp : 2 ^ 64 = 2 ^ (64 - shift) * 2 ^ shift) by (rewrite <-Z.pow_add_r by lia; f_equal; lia).
  assert (Hq : 0 < 2 ^ shift) by lia. assert (Hr : 0 < 2 ^ (64 - shift)) by lia.
  assert (Hu : u64 (bu b mod 128 * 2 ^ shift) = (bu b mod 128) mod 2 ^ (64 - shift) * 2 ^ shift)
    by (unfold u64; rewrite Hp; by rewrite Zmult_mod_distr_r).
  assert (Hl : Z.lor n (u64 (bu b mod 128 * 2 ^ shift)) = n + u64 (bu b mod 128 * 2 ^ shift))
    by (rewrite Hu, <-Z.shiftl_mul_pow2 by done; rewrite lor_add by done; by rewrite Z.shiftl_mul_pow2).
  rewrite Hl. pose proof (Z.mod_pos_bound (bu b mod 128) (2 ^ (64 - shift)) Hr) as Hk. split.
  - rewrite Hu. set (k := _ mod 2 ^ (64 - shift)) in *. pose proof (Z.div_mod (bu b mod 128) (2 ^ (64 - shift)) ltac:(lia)) as Hd. fold k in Hd.
    symmetry. rewrite Hd. replace (n + (2 ^ (64 - shift) * (bu b mod 128 / 2 ^ (64 - shift)) + k) * 2 ^ shift)
      with (n + k * 2 ^ shift + bu b mod 128 / 2 ^ (64 - shift) * 2 ^ 64) by (rewrite Hp; ring).
    rewrite Z.mod_add by lia. apply Z.mod_small. rewrite Hp. nia.
  - intros Hs'. rewrite Hu, Z.mod_small; [done|]. split; [lia|]. apply Z.lt_le_trans with (2 ^ 7); [lia|]. apply Z.pow_le_mono_r; lia.
Qed.

Lemma groups_value_cons b z : groups_value (b :: z) = bu b mod 128 + 128 * groups_value z.
Proof. done. Qed.
Definition size_groups_form (z : bytes) : Prop := exists init last, z = init ++ [last] /\ Forall (fun b => 128 <= bu b) init /\ bu last < 128.
Lemma size_groups_nil : ~ size_groups_form [].
Proof. intros ([|x l] & y & He & _); discriminate He. Qed.
Lemma size_groups_cons b z : size_groups_form (b :: z) <-> (bu b < 128 /\ z = []) \/ (128 <= bu b /\ size_groups_form z).
Proof.
  split.
  - intros (init & last & He & Hi & Hl). destruct init as [|x init]; cbn in He; injection He as -> ->; [by left|].
    right. apply Forall_cons in Hi as [Hx Hi]. split; [done|]. by exists init, last.
  - intros [[Hb ->]|[Hb (init & last & -> & Hi & Hl)]]; [by exists [], b|]. exists (b :: init), last. split; [done|]. split; [by constructor|done].
Qed.

Lemma readDeltaSize_form_from j n d v d' : (j <= 10)%nat -> 0 <= n < 2 ^ (7 * Z.of_nat j) -> 
  readDeltaSize_from (7 * Z.of_nat j) n d = Ok (v, d') <->
  exists z, d = z ++ d' /\ size_groups_form z /\ (j + length z <= 10)%nat /\ v = (n + groups_value z * 2 ^ (7 * Z.of_nat j)) mod 2 ^ 64.
Proof.
  revert j n. induction d as [|b d IH]; intros j n Hj Hn; cbn [readDeltaSize_from]; (destruct (_ >? 63) eqn:Es; b2p).
  1,3: split; [done|]; intros ([|x z] & _ & Hz & Hl & _); [by apply size_groups_nil in Hz|cbn in Hl; lia].
  { split; [done|]. intros ([|x z] & He & Hz & _); [|done]. by apply size_groups_nil in Hz. }
  destruct (size_groups n (7 * Z.of_nat j) b ltac:(lia) Hn ltac:(lia)) as [Hg Hg']. pose proof (bu_range b) as Hb. pose proof (Z.mod_pos_bound (bu b) 128 ltac:(lia)) as Hm.
  rewrite high_bit by done. destruct (bu b <? 128) eqn:E; b2p.
  - split.
    + intros [= <- <-]. exists [b]. split; [done|]. split; [apply size_groups_cons; by left|]. split; [cbn; lia|]. rewrite Hg. cbn. f_equal. lia.
    + intros ([|x z] & He & Hz & Hl & ->); [by apply size_groups_nil in Hz|]. cbn in He. injection He as <- ->.
      apply size_groups_cons in Hz as [[_ ->]|[Hz _]]; [|lia]. rewrite Hg. cbn. do 2 f_equal. f_equal. lia.
  - assert (Hpow : 2 ^ (7 * Z.of_nat (S j)) = 128 * 2 ^ (7 * Z.of_nat j)) by (replace (7 * Z.of_nat (S j)) with (7 + 7 * Z.of_nat j) by lia; rewrite Z.pow_add_r by lia; done).
    replace (7 * Z.of_nat j + 7) with (7 * Z.of_nat (S j)) by lia.
    destruct (decide (j = 9%nat)) as [->|Hj9].
    + (* an eleventh group would follow *)
      destruct d as [|b' d]; cbn [readDeltaSize_from]; (change (7 * Z.of_nat 10 >? 63) with true; cbn [orb]);
        (split; [done|]; intros ([|x z] & He & Hz & Hl & _); [by apply size_groups_nil in Hz|]; cbn in He; injection He as <- _;
         apply size_groups_cons in Hz as [[Hz _]|[_ Hz]]; [lia|]; destruct z; [by apply size_groups_nil in Hz|cbn in Hl; lia]).
    + rewrite Hg' by lia. rewrite IH by (rewrite ?Hpow; nia || lia). split.
      * intros (z & -> & Hz & Hl & ->). exists (b :: z). split; [done|]. split; [apply size_groups_cons; by right|]. split; [cbn; lia|].
        rewrite groups_value_cons, Hpow. f_equal. lia.
      * intros ([|x z] & He & Hz & Hl & ->); [by apply size_groups_nil in Hz|]. cbn in He. injection He as <- ->.
        apply size_groups_cons in Hz as [[Hz _]|[_ Hz]]; [lia|]. exists z. split; [done|]. split; [done|]. split; [cbn in Hl; lia|].
        rewrite groups_value_cons, Hpow. f_equal. lia.
Qed.

Lemma readDeltaSize_form d v d' : readDeltaSize d = Ok (v, d') <-> exists z, d = z ++ d' /\ size_form z v.
Proof.
  unfold readDeltaSize. change 0 with (7 * Z.of_nat 0) at 1. rewrite readDeltaSize_form_from by (cbn; lia). split.
  - intros (z & -> & Hz & Hl & ->). exists z. split; [done|]. split; [exact Hz|]. split; [lia|]. f_equal. cbn. lia.
  - intros (z & -> & Hz & Hl & ->). exists z. split; [done|]. split; [exact Hz|]. split; [lia|]. f_equal. cbn. lia.
Qed.

Definition delta_error (e : goerr) : Prop := e = Sent ErrInvalidDelta \/ e = Sent ErrDeltaCmd.

(** What the loop reads are commands of the format, up to where the announced size is reached. *)
Definition reads_cmds (base d : bytes) (remaining : Z) (out rest : bytes) : Prop :=
  exists zops ops, d = concat zops ++ rest /\ Forall2 op_form zops ops /\ Forall (op_ok base) ops /\
    out = denote base ops /\ Z.of_nat (length out) = remaining.

Lemma reads_cmds_cons base z o d remaining out rest : op_form z o -> op_ok base o ->
  reads_cmds base d (remaining - Z.of_nat (length (op_bytes base o))) out rest ->
  reads_cmds base (z ++ d) remaining (op_bytes base o ++ out) rest.
Proof.
  intros Hf Ho (zops & ops & -> & Hz & Hops & -> & Hl). exists (z :: zops), (o :: ops). cbn [concat]. rewrite <-app_assoc.
  split; [done|]. split; [by constructor|]. split; [by constructor|]. split; [done|]. rewrite length_app. lia.
Qed.

Lemma arg_value_range l : 0 <= arg_value l < 256 ^ Z.of_nat (length l).
Proof.
  induction l as [|o l IH]; [cbn; lia|]. rewrite arg_value_cons. cbn [length]. rewrite Nat2Z.inj_succ, Z.pow_succ_r by lia.
  assert (0 <= from_option bu 0 o < 256) by (destruct o as [b|]; cbn; [apply bu_range|lia]). lia.
Qed.

Lemma apply_cmds_sound fuel base d remaining :
  (length d < fuel)%nat -> 0 <= remaining ->
  match apply_cmds fuel (Z.of_nat (length base)) remaining base d with
  | Ok (out, rest) => reads_cmds base d remaining out rest
  | Err e => delta_error e
  end.
Proof.
  unfold delta_error. revert d remaining. induction fuel as [|f IH]; intros d remaining Hf Hrem; [lia|]. cbn [apply_cmds].
  destruct (remaining <=? 0) eqn:E; b2p.
  { exists [], []. split; [done|]. split; [constructor|]. split; [constructor|]. split; [done|]. cbn. lia. }
  destruct d as [|cmd d]; [by left|]. pose proof (bu_range cmd). rewrite high_bit by done. cbn in Hf.
  assert (Hstep : forall z o rem' d', op_form z o -> cmd :: d = z ++ d' -> op_ok base o -> rem' = remaining - Z.of_nat (length (op_bytes base o)) -> 0 <= rem' ->
    match (let? (out, rest) := apply_cmds f (Z.of_nat (length base)) rem' base d' in Ok (op_bytes base o ++ out, rest)) with
    | Ok (out, rest) => reads_cmds base (cmd :: d) remaining out rest
    | Err e => e = Sent ErrInvalidDelta \/ e = Sent ErrDeltaCmd
    end).
  { intros z o rem' d' Hz Hd Ho Hr Hr0. assert (Hl : (length d' <= length d)%nat).
    { apply (f_equal length) in Hd. rewrite length_app in Hd. cbn in Hd. assert (length z <> 0)%nat by (by destruct Hz). lia. }
    specialize (IH d' rem' ltac:(lia) Hr0). rewrite Hd.
    destruct (apply_cmds f _ rem' base d') as [[out rest]|e]; cbn [res_bind]; [|exact IH]. subst rem'. by apply reads_cmds_cons. }
  destruct (bu cmd <? 128) eqn:E1; cbn [negb]; b2p.
  - destruct (bu cmd =? 0) eqn:E2; cbn [negb]; [by right|]. b2p. destruct (_ >? _) eqn:E3; [by left|].
    destruct (_ <? _) eqn:E4; [by left|]. b2p.
    assert (Hlen : length (take (Z.to_nat (bu cmd)) d) = Z.to_nat (bu cmd)) by (rewrite length_take; lia).
    apply (Hstep (cmd :: take (Z.to_nat (bu cmd)) d) (InsertOp (take (Z.to_nat (bu cmd)) d))); cbn [op_ok op_bytes app]; rewrite ?Hlen; try lia.
    + constructor; rewrite ?Hlen; lia.
    + by rewrite take_drop.
  - destruct (copy_arg (bu cmd) 0 0 4 0 d) as [[off d1]|] eqn:Ea; [|by left].
    destruct (copy_arg (bu cmd) 4 0 3 0 d1) as [[sz d2]|] eqn:Eb; [|by left].
    apply copy_arg_form in Ea as (lo & Hlo & Hao & -> & ->); [|lia..]. apply copy_arg_form in Eb as (ls & Hls & Has & -> & ->); [|lia..].
    rewrite !Z.add_0_l, !Z.mul_1_r. pose proof (arg_value_range lo) as Hro. pose proof (arg_value_range ls) as Hrs.
    rewrite Hlo in Hro. rewrite Hls in Hrs. change (256 ^ Z.of_nat 4) with (2 ^ 32) in Hro. change (256 ^ Z.of_nat 3) with (2 ^ 24) in Hrs.
    set (sz' := if arg_value ls =? 0 then 65536 else arg_value ls). assert (Hsz : 0 < sz' < 2 ^ 24) by (unfold sz'; destruct (arg_value ls =? 0) eqn:?; b2p; lia).
    destruct (sz' >? remaining) eqn:E3; [by left|]. destruct (_ >? Z.of_nat (length base)) eqn:E4; [by left|]. cbn [orb]. b2p.
    assert (Ho : op_ok base (CopyOp (arg_value lo) sz')) by (cbn; lia).
    apply (Hstep (cmd :: arg_out lo ++ arg_out ls) (CopyOp (arg_value lo) sz')); [by constructor|cbn; by rewrite <-app_assoc|done| |lia].
    by rewrite (proj1 (op_bytes_length _ _ Ho)).
Qed.

(** Every sequence of commands of the format is read as it is. *)
Lemma apply_cmds_complete base zops ops fuel rest :
  Forall2 op_form zops ops -> Forall (op_ok base) ops -> (length (concat zops) < fuel)%nat ->
  apply_cmds fuel (Z.of_nat (length base)) (Z.of_nat (length (denote base ops))) base (concat zops ++ rest) = Ok (denote base ops, rest).
Proof.
  intros Hz. revert fuel. induction Hz as [|z o zops ops Hf Hz IH]; intros fuel Hops Hl; [by destruct fuel|].
  apply Forall_cons in Hops as [Ho Hops]. destruct fuel as [|f]; [lia|]. cbn [concat] in *. rewrite length_app in Hl.
  destruct (op_bytes_length base o Ho) as [Hlen Hpos]. unfold denote in *. rewrite fmap_cons. cbn [concat].
  rewrite length_app, Nat2Z.inj_add, <-app_assoc. cbn [apply_cmds]. destruct (_ <=? 0) eqn:E0; b2p; [lia|].
  destruct Hf as [b lit Hb Hbr|b off sz Hb Hlo Hls Hao Has]; cbn [op_bytes op_ok] in *; cbn [app length] in *; rewrite high_bit by apply bu_range.
  - destruct (bu b <? 128) eqn:E1; b2p; [|lia]. cbn [negb]. destruct (bu b =? 0) eqn:E2; b2p; [lia|]. cbn [negb]. rewrite Hb.
    destruct (_ >? _) eqn:E3; b2p; [lia|]. rewrite length_app. destruct (_ <? _) eqn:E4; b2p; [lia|].
    rewrite Nat2Z.id, drop_app_length, take_app_length.
    replace (Z.of_nat (length lit) + _ - _) with (Z.of_nat (length (concat (op_bytes base <$> ops)))) by lia. rewrite IH by (done || lia). done.
  - destruct (bu b <? 128) eqn:E1; b2p; [lia|]. cbn [negb]. rewrite <-!app_assoc.
    assert (Ha : copy_arg (bu b) 0 0 4 0 (arg_out off ++ arg_out sz ++ concat zops ++ rest) = Some (arg_value off, arg_out sz ++ concat zops ++ rest)).
    { apply copy_arg_form; [lia..|]. exists off. do 3 (split; [done|]). lia. }
    assert (Hs : copy_arg (bu b) 4 0 3 0 (arg_out sz ++ concat zops ++ rest) = Some (arg_value sz, concat zops ++ rest)).
    { apply copy_arg_form; [lia..|]. exists sz. do 3 (split; [done|]). lia. }
    rewrite Ha, Hs. set (n := if arg_value sz =? 0 then 65536 else arg_value sz) in *.
    destruct (n >? _) eqn:E3; b2p; [lia|]. destruct (_ + n >? _) eqn:E4; b2p; [lia|]. cbn [orb].
    replace (Z.of_nat (length (take _ _)) + _ - n) with (Z.of_nat (length (concat (op_bytes base <$> ops)))) by lia.
    rewrite IH by (done || (rewrite ?length_app in *; lia)). done.
Qed.

Lemma readDeltaSize_from_spec shift n d :
  match readDeltaSize_from shift n d with
  | Ok (v, d') => (length d' < length d)%nat
  | Err e => delta_error e
  end.
Proof.
  revert shift n. induction d as [|b d IH]; intros shift n; cbn [readDeltaSize_from];
    (destruct (shift >? 63); [by left|]); [by left|].
  destruct (_ =? 0); [cbn; lia|]. specialize (IH (shift + 7) (Z.lor n (u64 (Z.land (bu b) 127 ≪ shift)))).
  destruct (readDeltaSize_from _ _ d) as [[v d']|e]; [cbn; lia|done].
Qed.

Lemma readDeltaSize_range shift n d v d' :
  0 <= n < 2 ^ 64 -> 0 <= shift -> readDeltaSize_from shift n d = Ok (v, d') -> 0 <= v < 2 ^ 64.
Proof.
  revert shift n. induction d as [|b d IH]; intros shift n Hn Hs; cbn [readDeltaSize_from]; (destruct (shift >? 63); [done|]); [done|].
  set (n' := Z.lor _ _). assert (Hn' : 0 <= n' < 2 ^ 64).
  { unfold n'. assert (0 <= u64 (Z.land (bu b) 127 ≪ shift) < 2 ^ 64) by (apply Z.mod_pos_bound; lia).
    split; [apply Z.lor_nonneg; lia|].
    destruct (decide (Z.lor n (u64 (Z.land (bu b) 127 ≪ shift)) = 0)) as [->|Hne]; [lia|].
    apply Z.log2_lt_pow2; [assert (0 <= Z.lor n (u64 (Z.land (bu b) 127 ≪ shift))) by (apply Z.lor_nonneg; lia); lia|].
    rewrite Z.log2_lor by lia. apply Z.max_lub_lt.
    - destruct (decide (n = 0)) as [->|]; [done|]. apply Z.log2_lt_pow2; lia.
    - destruct (decide (u64 (Z.land (bu b) 127 ≪ shift) = 0)) as [->|]; [done|]. apply Z.log2_lt_pow2; lia. }
  destruct (_ =? 0); [by intros [= <- <-]|]. intros Hr. by eapply IH; [exact Hn'| |exact Hr]; lia.
Qed.

(** ** Properties *)

(** Applying the encoding of a valid sequence of copy and insert commands
    yields exactly the bytes the commands denote, and their hash: nothing is
    lost, repeated or reordered, for bases and results of any size the format
    admits. *)
Theorem apply_encoded `{GoGit} (typ : Z) (base : bytes) (ops : list delta_op) :
  Forall (op_ok base) ops -> Z.of_nat (length base) < 2 ^ 63 -> Z.of_nat (length (denote base ops)) <= 2 ^ 62 ->
  apply typ base (encode_delta base ops) =
    Ok (denote base ops, HasherSum typ (Z.of_nat (length (denote base ops))) (denote base ops)).
Proof.
  intros Hops Hb Ht. unfold apply, encode_delta. rewrite read_size by lia. cbn [res_bind].
  rewrite i64_id by (unfold in_i64; lia). rewrite Z.eqb_refl. cbn [negb]. rewrite read_size by lia. cbn [res_bind].
  destruct (_ >? Z.shiftl 1 62) eqn:E; b2p; [change (Z.shiftl 1 62) with (2 ^ 62) in E; lia|].
  pose proof (apply_cmds_encoded base ops (S (length (concat (encode_op <$> ops)))) [] Hops) as Ha.
  rewrite app_nil_r in Ha. rewrite Ha; [|apply length_encoded_ops].
  cbn [res_bind]. by rewrite i64_id by (unfold in_i64; lia).
Qed.

Section reads.
Context `{GoGit}.

(** What [apply] does with any bytes. *)
Lemma apply_reads (typ : Z) (base delta : bytes) : Z.of_nat (length base) < 2 ^ 63 ->
  match apply typ base delta with
  | Ok (out, h) => delta_form base delta out /\ Z.of_nat (length out) <= 2 ^ 62 /\ h = HasherSum typ (Z.of_nat (length out)) out
  | Err e => delta_error e
  end.
Proof.
  intros Hb. unfold apply. pose proof (readDeltaSize_from_spec 0 0 delta) as Hs. unfold readDeltaSize at 1.
  destruct (readDeltaSize_from 0 0 delta) as [[src d]|e] eqn:E1; cbn [res_bind]; [|done].
  apply readDeltaSize_range in E1 as Hsrc; [|lia..]. apply readDeltaSize_form in E1 as (zs & -> & Hzs).
  destruct (i64 src =? _) eqn:E2; cbn [negb]; [|by left]. b2p. assert (src = Z.of_nat (length base)) as ->.
  { unfold i64 in E2. destruct (Z.lt_ge_cases src (2 ^ 63)); [rewrite Z.mod_small in E2; lia|].
    rewrite <-(Z.mod_unique (src + 2 ^ 63) (2 ^ 64) 1 (src + 2 ^ 63 - 2 ^ 64)) in E2; lia. }
  pose proof (readDeltaSize_from_spec 0 0 d) as Hs2. unfold readDeltaSize.
  destruct (readDeltaSize_from 0 0 d) as [[tgt d2]|e] eqn:E3; cbn [res_bind]; [|done].
  apply readDeltaSize_range in E3 as Htgt; [|lia..]. apply readDeltaSize_form in E3 as (zt & -> & Hzt).
  destruct (tgt >? _) eqn:E4; b2p; [by left|].
  change (Z.shiftl 1 62) with (2 ^ 62) in E4.
  pose proof (apply_cmds_sound (S (length d2)) base d2 tgt ltac:(lia) ltac:(lia)) as Ha.
  destruct (apply_cmds _ _ tgt base d2) as [[out rest]|e]; cbn [res_bind]; [|done].
  destruct rest; [|by left]. destruct Ha as (zops & ops & -> & Hz & Hops & -> & <-). rewrite app_nil_r. split.
  - exists zs, zt, zops, ops. done.
  - split; [done|]. by rewrite i64_id by (unfold in_i64; lia).
Qed.

Lemma apply_accepts (typ : Z) (base delta out : bytes) : Z.of_nat (length base) < 2 ^ 63 ->
  delta_form base delta out -> Z.of_nat (length out) <= 2 ^ 62 -> apply typ base delta = Ok (out, HasherSum typ (Z.of_nat (length out)) out).
Proof.
  intros Hb (zs & zt & zops & ops & -> & Hzs & Hzt & Hz & Hops & ->) Hl. unfold apply.
  rewrite (proj2 (readDeltaSize_form _ _ _) (ex_intro _ zs (conj eq_refl Hzs))). cbn [res_bind].
  rewrite i64_id by (unfold in_i64; lia). rewrite Z.eqb_refl. cbn [negb].
  rewrite (proj2 (readDeltaSize_form _ _ _) (ex_intro _ zt (conj eq_refl Hzt))). cbn [res_bind].
  destruct (_ >? Z.shiftl 1 62) eqn:E; b2p; [change (Z.shiftl 1 62) with (2 ^ 62) in E; lia|].
  pose proof (apply_cmds_complete base zops ops (S (length (concat zops))) [] Hz Hops ltac:(lia)) as Ha. rewrite app_nil_r in Ha.
  rewrite Ha. cbn [res_bind]. by rewrite i64_id by (unfold in_i64; lia).
Qed.

Lemma apply_hash typ base delta out h : apply typ base delta = Ok (out, h) -> h = HasherSum typ (Z.of_nat (length out)) out.
Proof.
  intros Ha. destruct (Z.lt_ge_cases (Z.of_nat (length base)) (2 ^ 63)) as [Hb|Hb].
  { pose proof (apply_reads typ base delta Hb) as Hr. rewrite Ha in Hr. apply Hr. }
  exfalso. unfold apply in Ha. apply res_bind_ok in Ha as ([src d] & _ & Ha). pose proof (i64_range src) as Hi. unfold in_i64 in Hi.
  destruct (i64 src =? _) eqn:E; [b2p; lia|discriminate Ha].
Qed.
End reads.

(** C18: rebuilding reads git's delta format and nothing else: it succeeds exactly
    on the bytes that announce the base's length and the result's, as groups of
    seven bits, and whose copy and insert commands, with each copy's offset and
    length read little-endian from the bytes its flags announce and inside the
    base, denote the result up to the last byte of the delta. It then yields
    that result under the hash of its bytes; on anything else it fails with one of
    the two delta errors. *)
Theorem apply_sound `{GoGit} (typ : Z) (base delta : bytes) :
  Z.of_nat (length base) < 2 ^ 63 ->
  (forall out h, apply typ base delta = Ok (out, h) <->
    delta_form base delta out /\ Z.of_nat (length out) <= 2 ^ 62 /\ h = HasherSum typ (Z.of_nat (length out)) out) /\
  (forall e, apply typ base delta = Err e -> delta_error e).
Proof.
  intros Hb. pose proof (apply_reads typ base delta Hb) as Hr. split.
  - intros out h. split; [intros Ha; by rewrite Ha in Hr|]. intros (Hf & Hl & ->). by apply apply_accepts.
  - intros e Ha. by rewrite Ha in Hr.
Qed.

(** ** Witnesses *)

Definition sample_base : bytes := bs "the quick brown fox jumps over the lazy dog".
Definition sample_ops : list delta_op := [CopyOp 4 16; InsertOp (bs "walks"); CopyOp 25 18].

Lemma sample_ops_ok : Forall (op_ok sample_base) sample_ops.
Proof. repeat constructor; cbn; lia. Qed.

Example sample_denotes : denote sample_base sample_ops = bs "quick brown fox walks over the lazy dog".
Proof. reflexivity. Qed.

Lemma apply_encoded_witness :
  Forall (op_ok sample_base) sample_ops /\
  @apply toy_git BlobObject sample_base (encode_delta sample_base sample_ops) =
    Ok (bs "quick brown fox walks over the lazy dog",
        HasherSum BlobObject 39 (bs "quick brown fox walks over the lazy dog")).
Proof.
  split; [exact sample_ops_ok|].
  exact (@apply_encoded toy_git BlobObject sample_base sample_ops sample_ops_ok ltac:(vm_compute; reflexivity)
    ltac:(vm_compute; discriminate)).
Defined.

(** A delta that writes a zero byte of an argument out, which a canonical writer leaves out. *)
Definition sample_delta : bytes :=
  [bz 43; bz 21; bz (128 + 1 + 2 + 16); bz 4; bz 0; bz 16; bz 5] ++ bs "walks".

Lemma apply_sound_witness :
  Z.of_nat (length sample_base) < 2 ^ 63 /\ delta_form sample_base sample_delta (bs "quick brown fox walks").
Proof.
  assert (Hb : Z.of_nat (length sample_base) < 2 ^ 63) by (vm_compute; reflexivity).
  split; [exact Hb|]. apply (proj1 (@apply_sound toy_git BlobObject sample_base sample_delta Hb) _
    (HasherSum BlobObject 21 (bs "quick brown fox walks"))). vm_compute. reflexivity.
Defined.
