(* ===== verification/Segment.v ===== *)
(** * Containers under construction (internal/storage/tigris/packwriter.go)

    [packSegment]: the payload bytes of a container and the records of what
    is in it; [seal] names it, indexes it and queues its upload. *)

From S2P Require Import Prelude GoLib S3 Codec Cue PackTable PackIndex Storer.

Definition maxPackBytes : Z := Z.shiftl 128 20.

(** The knobs of a storer that the writer consults; zero means unset. *)
Record packPolicy := {
  pc_compression : bool;   (** [Storer.packCompression] *)
  pc_inMemoryCap : Z;      (** [Storer.inMemoryCap] *)
  pc_probeWindow : Z;      (** [Storer.probeWindow] *)
  pc_maxPackBytes : Z;     (** [Storer.maxPackBytes] *)
}.

(** A [plumbing.EncodedObject] as a source: what its readers deliver, and the
    error they end with, if any. *)
Record payloadObject := { p_size : Z; p_body : bytes; p_fail : option goerr }.

Section segment.
Context `{GoGit, Zstd}.

Record storedObject := { so_payload : payloadObject; so_hash : Hash; so_typ : Z; so_raw : Z; so_base : Hash }.

(** [g_bin]: every byte given to [out]. *)
Record packSegment := { g_path : bytes; g_bin : bytes; g_recs : list cueRecord; g_offset : Z }.

Definition newPackSegment (path : bytes) : packSegment :=
  {| g_path := path; g_bin := []; g_recs := []; g_offset := 0 |}.

Definition seg_write (p : bytes) (g : packSegment) : packSegment :=
  {| g_path := g_path g; g_bin := g_bin g ++ p; g_recs := g_recs g; g_offset := g_offset g |}.

Definition seg_inMemoryCap (pc : packPolicy) : Z := if pc_inMemoryCap pc >? 0 then pc_inMemoryCap pc else inMemoryCap.
Definition seg_probeWindow (pc : packPolicy) : Z := if pc_probeWindow pc >? 0 then pc_probeWindow pc else probeWindow.

(** Everything a reader of the payload yields. *)
Definition read_payload (p : payloadObject) : gores bytes :=
  match p_fail p with Some e => Err (Wrapf e) | None => Ok (p_body p) end.

Definition copyRaw (p : payloadObject) (g : packSegment) : gores (Z * packSegment) :=
  let? body := read_payload p in
  Ok (blen body, seg_write body g).

Definition copyCompressed (p : payloadObject) (g : packSegment) : gores (Z * Z * packSegment) :=
  let? body := read_payload p in
  let g' := seg_write (EncodeStream body) g in
  Ok (blen body, blen (g_bin g') - blen (g_bin g), g').

Definition rewind (g : packSegment) : packSegment :=
  {| g_path := g_path g; g_bin := take (Z.to_nat (g_offset g)) (g_bin g); g_recs := g_recs g; g_offset := g_offset g |}.

Definition writeProbed (pc : packPolicy) (p : payloadObject) (g : packSegment) : gores (Z * Z * Z * packSegment) :=
  let head := take (Z.to_nat (seg_probeWindow pc)) (p_body p) in
  if negb (probeWins (blen (EncodeAll head)) (blen head)) then
    let? (n, g) := copyRaw p g in Ok (codecRaw, n, n, g)
  else
    let? (rawN, storedN, g) := copyCompressed p g in
    if worthStoring storedN rawN then Ok (codecZstd, rawN, storedN, g)
    else let? (n, g) := copyRaw p (rewind g) in Ok (codecRaw, n, n, g).

(** The codec, the bytes read and the bytes that landed. *)
Definition writePayload (pc : packPolicy) (p : payloadObject) (g : packSegment) : gores (Z * Z * Z * packSegment) :=
  if negb (pc_compression pc) || (p_size p <? compressionFloor) then
    let? (n, g) := copyRaw p g in Ok (codecRaw, n, n, g)
  else if p_size p <=? seg_inMemoryCap pc then
    let? plain := read_payload p in
    let '(body, compressed) := compressBlock plain in
    Ok (if compressed : bool then codecZstd else codecRaw, blen plain, blen body, seg_write body g)
  else writeProbed pc p g.

Definition add (pc : packPolicy) (so : storedObject) (g : packSegment) : gores packSegment :=
  let? (codec, rawN, storedN, g) := writePayload pc (so_payload so) g in
  if negb (rawN =? p_size (so_payload so)) then Err Errorf else
  Ok {| g_path := g_path g; g_bin := g_bin g;
        g_recs := g_recs g ++ [{| c_hash := so_hash so; c_typ := so_typ so; c_codec := codec; c_offset := g_offset g;
                                  c_stored := storedN; c_raw := so_raw so; c_base := so_base so |}];
        g_offset := g_offset g + storedN |}.

(** ** Sealing *)

Context `{Sha256, S3}.
Context (c : config).
Abbreviation M := (io St).

Definition checksum (g : packSegment) : bytes := Sha256Hex (g_bin g).

(** [sort.Slice] by hash bytes; it does not promise an order of equal hashes,
    this one keeps theirs. *)
Definition hash_leb (a b : cueRecord) : bool := bytes_leb (HashBytes (c_hash a)) (HashBytes (c_hash b)).
Definition sealed_recs (g : packSegment) : list cueRecord := stable_sort hash_leb (g_recs g).

Definition writeFile (path body : bytes) : M unit := modify (fun s => with_files (<[path := body]> (files s)) s).

(** [cuePath] is the name [os.CreateTemp] picks for the index. *)
Definition seal (admitted : bool) (cuePath : bytes) (seg : packSegment) : M unit :=
  do! writeFile (g_path seg) (g_bin seg) in
  let recs := sealed_recs seg in
  let cueBytes := encodeCue (c_hashLen c) recs in
  let id := checksum seg in
  do! writeFile cuePath cueBytes in
  do! modify (fun s => with_packs (register id recs (g_path seg) (packs s)) s) in
  try! r := enqueue admitted (PackJob id (g_path seg) cuePath (g_offset seg) (blen cueBytes)) in
  match r with
  | Ok _ => ret tt
  | Err e =>
      do! modify (fun s => with_packs (deregister id (packs s)) s) in
      do! removeFile (g_path seg) in
      do! removeFile cuePath in
      fail e
  end.
End segment.
