(* ===== verification/SegmentSpec.v ===== *)
(** * What containers promise

    The records of a container tile its bytes, every one decodes to the
    payload that was added, and what was sealed is what is read. *)

From S2P Require Import Prelude GoLib S3 Concrete Codec Cue PackTable PackIndex Storer StorerSpec Objects ObjectsSpec Segment.

Section spec.
Context `{GoGit, Zstd, !ZstdLaws}.
Context (pc : packPolicy).

Fixpoint add_all (sos : list storedObject) (g : packSegment) : gores packSegment :=
  match sos with
  | [] => Ok g
  | so :: sos => let? g := add pc so g in add_all sos g
  end.

(** The bytes a record points at. *)
Definition slice_of (bin : bytes) (r : cueRecord) : bytes :=
  take (Z.to_nat (c_stored r)) (drop (Z.to_nat (c_offset r)) bin).

Record stored_as (bin : bytes) (so : storedObject) (r : cueRecord) : Prop := {
  sa_id : c_hash r = so_hash so /\ c_typ r = so_typ so /\ c_raw r = so_raw so /\ c_base r = so_base so;
  sa_inside : 0 <= c_offset r /\ 0 <= c_stored r /\ c_offset r + c_stored r <= blen bin;
  sa_size : blen (p_body (so_payload so)) = p_size (so_payload so);
  sa_small : c_stored r <= p_size (so_payload so);
  sa_zero : c_stored r = 0 -> p_body (so_payload so) = [];
  sa_bytes :
    (c_codec r = codecRaw /\ slice_of bin r = p_body (so_payload so)) \/
    (c_codec r = codecZstd /\ c_stored r < p_size (so_payload so) /\
     (forall max, p_size (so_payload so) <= max -> DecodeAll max (slice_of bin r) = Some (p_body (so_payload so))) /\
     compressionFloor <= p_size (so_payload so));
}.

(** Records that lie end to end from [from] to [to]. *)
Fixpoint tiles (rs : list cueRecord) (from to : Z) : Prop :=
  match rs with
  | [] => from = to
  | r :: rs => c_offset r = from /\ 0 <= c_stored r /\ tiles rs (from + c_stored r) to
  end.

Lemma blen_app a b : blen (a ++ b) = blen a + blen b.
Proof. unfold blen. rewrite length_app. lia. Qed.
Lemma blen_nonneg b : 0 <= blen b.
Proof. unfold blen. lia. Qed.
Lemma blen_zero b : blen b = 0 -> b = [].
Proof. unfold blen. destruct b; [done|]. cbn. lia. Qed.

Lemma tiles_snoc rs from to r : tiles rs from to -> c_offset r = to -> 0 <= c_stored r ->
  tiles (rs ++ [r]) from (to + c_stored r).
Proof.
  revert from. induction rs as [|x rs IH]; intros from; cbn; [by intros -> -> ?|].
  intros (Hx & Hs & Hr) Ho Hn. repeat split; [done|done|by apply IH].
Qed.

Lemma slice_app bin rest r : 0 <= c_offset r -> 0 <= c_stored r -> c_offset r + c_stored r <= blen bin ->
  slice_of (bin ++ rest) r = slice_of bin r.
Proof.
  unfold slice_of, blen. intros Ho Hs Hb. rewrite drop_app_le by lia. rewrite take_app_le; [done|].
  rewrite length_drop. lia.
Qed.

Lemma stored_as_app bin rest so r : stored_as bin so r -> stored_as (bin ++ rest) so r.
Proof.
  intros [Hid (Ho & Hs & Hb) Hsz Hsm Hz Hby]. split; [done| |done|done|done|].
  - rewrite blen_app. pose proof (blen_nonneg rest). lia.
  - by rewrite slice_app.
Qed.

(** One payload: what lands after the bytes already there. *)
Lemma writePayload_spec p g codec rawN storedN g' :
  g_offset g = blen (g_bin g) -> writePayload pc p g = Ok (codec, rawN, storedN, g') ->
  rawN = blen (p_body p) /\
  exists out, g' = seg_write out g /\ storedN = blen out /\ storedN <= rawN /\ (storedN = 0 -> p_body p = []) /\
    ((codec = codecRaw /\ out = p_body p) \/
     (codec = codecZstd /\ storedN < rawN /\ compressionFloor <= p_size p /\
      forall max, rawN <= max -> DecodeAll max out = Some (p_body p))).
Proof.
  intros Hg Hw.
  assert (Hraw : forall g0 n g1, copyRaw p g0 = Ok (n, g1) -> n = blen (p_body p) /\ g1 = seg_write (p_body p) g0).
  { intros g0 n g1. unfold copyRaw, read_payload. destruct (p_fail p); [done|]. by intros [= <- <-]. }
  assert (Hplain : forall n g1, copyRaw p g = Ok (n, g1) -> n = blen (p_body p) /\
    exists out, g1 = seg_write out g /\ n = blen out /\ n <= blen (p_body p) /\ (n = 0 -> p_body p = []) /\
      ((codecRaw = codecRaw /\ out = p_body p) \/ (codecRaw = codecZstd /\ n < blen (p_body p) /\ compressionFloor <= p_size p /\
        forall max, blen (p_body p) <= max -> DecodeAll max out = Some (p_body p)))).
  { intros n g1 Hc. apply Hraw in Hc as [-> ->]. split; [done|]. exists (p_body p).
    split; [done|]. split; [done|]. split; [lia|]. split; [apply blen_zero|by left]. }
  unfold writePayload in Hw. destruct (negb (pc_compression pc) || (p_size p <? compressionFloor)) eqn:Ef.
  { apply res_bind_ok in Hw as ([n g1] & Hc & [= <- <- <- <-]). destruct (Hplain n g1 Hc) as [-> Hp]. split; [done|exact Hp]. }
  assert (Hfloor : compressionFloor <= p_size p).
  { apply orb_false_iff in Ef as [_ Ef]. b2p. done. }
  destruct (p_size p <=? seg_inMemoryCap pc).
  - apply res_bind_ok in Hw as (plain & Hr & Hw). unfold read_payload in Hr. destruct (p_fail p); [done|]. injection Hr as <-.
    destruct (compressBlock (p_body p)) as [out b] eqn:Ec. injection Hw as <- <- <- <-. split; [done|].
    exists out. pose proof (compressBlock_le _ _ _ Ec) as Hle. pose proof (compressBlock_size _ _ _ Ec) as Hsz.
    split; [done|]. split; [done|]. split; [done|]. unfold compressBlock in Ec. cbv zeta in Ec. destruct (blen (p_body p) =? 0) eqn:E0.
    + injection Ec as <- <-. split; [apply blen_zero|by left].
    + destruct (negb (worthStoring _ _)); injection Ec as <- <-; [split; [apply blen_zero|by left]|]. b2p. cbn in Hsz. split.
      * intros Hz. apply blen_zero in Hz. apply EncodeAll_nonempty in Hz; [done|]. intros Hb. by rewrite Hb in E0.
      * right. split; [done|]. split; [unfold minGainBytes in Hsz; lia|]. split; [done|]. intros max Hm. by apply DecodeAll_EncodeAll.
  - unfold writeProbed in Hw. destruct (negb (probeWins _ _)).
    { apply res_bind_ok in Hw as ([n g1] & Hc & [= <- <- <- <-]). destruct (Hplain n g1 Hc) as [-> Hp]. split; [done|exact Hp]. }
    apply res_bind_ok in Hw as ([[rn sn] g1] & Hc & Hw). unfold copyCompressed, read_payload in Hc.
    destruct (p_fail p) eqn:Ep; [done|]. cbn in Hc. injection Hc as <- <- <-. rewrite blen_app in Hw.
    destruct (worthStoring _ _) eqn:Ew.
    + injection Hw as <- <- <- <-. split; [done|]. exists (EncodeStream (p_body p)). unfold worthStoring, minGainBytes in Ew. b2p.
      pose proof (blen_nonneg (EncodeStream (p_body p))). split; [done|]. split; [lia|]. split; [lia|]. split.
      * intros Hz. assert (Hz' : blen (EncodeStream (p_body p)) = 0) by lia. apply blen_zero in Hz'.
        destruct (decide (p_body p = [])) as [Hb|Hb]; [done|]. by apply EncodeStream_nonempty in Hz'.
      * right. split; [done|]. split; [lia|]. split; [done|]. intros max Hm. by apply DecodeAll_EncodeStream.
    + apply res_bind_ok in Hw as ([n g1] & Hc & [= <- <- <- <-]).
      assert (Hre : rewind (seg_write (EncodeStream (p_body p)) g) = g).
      { clear -Hg. destruct g as [gp gb gr go]. unfold rewind, seg_write. cbn in *. subst go.
        unfold blen. by rewrite Nat2Z.id, take_app_length. }
      rewrite Hre in Hc. destruct (Hplain n g1 Hc) as [-> Hp]. split; [done|exact Hp].
Qed.

Lemma add_spec so g g' :
  g_offset g = blen (g_bin g) -> add pc so g = Ok g' ->
  exists out r, g_bin g' = g_bin g ++ out /\ g_recs g' = g_recs g ++ [r] /\ g_offset g' = g_offset g + c_stored r /\
    g_offset g' = blen (g_bin g') /\ c_offset r = g_offset g /\ 0 <= c_stored r /\ g_path g' = g_path g /\
    stored_as (g_bin g') so r.
Proof.
  intros Hg Ha. unfold add in Ha. apply res_bind_ok in Ha as ([[[codec rawN] storedN] g1] & Hw & Ha).
  destruct (rawN =? p_size (so_payload so)) eqn:E; [|done]. cbn [negb] in Ha. b2p. injection Ha as <-.
  apply writePayload_spec in Hw as (-> & out & -> & Hs & Hle & Hz & Hby); [|done]. cbn.
  eexists out, _. split; [done|]. split; [done|]. split; [done|]. cbn. rewrite blen_app, <-Hs, <-Hg.
  split; [done|]. split; [done|]. pose proof (blen_nonneg out). pose proof (blen_nonneg (g_bin g)). split; [lia|]. split; [done|].
  split; cbn; [done|rewrite blen_app; lia|done|lia|done|].
  assert (Hsl : forall r, c_stored r = storedN -> c_offset r = g_offset g -> slice_of (g_bin g ++ out) r = out).
  { intros r H1' H2'. unfold slice_of. rewrite H1', H2', Hg, Hs. unfold blen.
    rewrite !Nat2Z.id, drop_app_length, take_ge by lia. done. }
  rewrite Hsl by done. rewrite E in *. destruct Hby as [[-> ->]|(-> & Hlt & Hf & Hd)]; [by left|by right].
Qed.

Lemma add_all_spec sos g g' bin0 sos0 :
  add_all sos g = Ok g' -> g_offset g = blen (g_bin g) -> g_bin g = bin0 -> tiles (g_recs g) 0 (g_offset g) ->
  Forall2 (stored_as bin0) sos0 (g_recs g) ->
  g_offset g' = blen (g_bin g') /\ tiles (g_recs g') 0 (g_offset g') /\ g_path g' = g_path g /\
  Forall2 (stored_as (g_bin g')) (sos0 ++ sos) (g_recs g').
Proof.
  revert g bin0 sos0. induction sos as [|so sos IH]; intros g bin0 sos0 Ha Hg <- Ht Hf; cbn [add_all] in Ha.
  { injection Ha as <-. rewrite app_nil_r. done. }
  apply res_bind_ok in Ha as (g1 & H1' & Ha).
  apply add_spec in H1' as (out & r & Hb & Hr & Hoff & Hlen & Hro & Hrs & Hp & Hst); [|done].
  apply (IH g1 (g_bin g1) (sos0 ++ [so])) in Ha as (H2' & H3 & H4 & H5); [|done|done| |].
  - split; [done|]. split; [done|]. split; [congruence|]. by rewrite <-app_assoc in H5.
  - rewrite Hr, Hoff. by apply tiles_snoc.
  - rewrite Hr. apply Forall2_app; [|by constructor]. rewrite Hb. eapply Forall2_impl; [exact Hf|].
    intros so' r' Hs. by apply stored_as_app.
Qed.
End spec.

(** The writer does not look at the reader's bound: a payload above it that
    compresses is accepted, and no reader can get it back. *)
Lemma oversized_payload_unreadable `{GoGit, Zstd, !ZstdLaws} bin so r id :
  stored_as bin so r -> payloadMaxDecoded < p_size (so_payload so) -> c_codec r = codecZstd ->
  exists e, decodePackedPayload (cue_entry id r) (Ok (slice_of bin r)) = Err e.
Proof.
  intros [_ _ Hsz _ _ Hby] Hbig Hc. unfold decodePackedPayload. cbn [e_codec cue_entry e_raw]. rewrite Hc. cbn [codecZstd codecRaw Z.eqb].
  destruct (Z.min _ _ <? 0); [eauto|]. destruct (DecodeAll payloadMaxDecoded (slice_of bin r)) as [x|] eqn:Ed; [|eauto].
  destruct Hby as [[Hc' _]|(_ & _ & Hd & _)]; [by rewrite Hc in Hc'|].
  pose proof (DecodeAll_bound _ _ _ Ed). apply (DecodeAll_more _ (p_size (so_payload so))) in Ed; [|lia].
  rewrite Hd in Ed by lia. injection Ed as <-. unfold blen in Hsz. lia.
Qed.

(** ** What was sealed is what is read *)

Section sealed.
Context `{GoGit, Zstd, !ZstdLaws, GoGitObjects, !GoGitObjectsLaws, Sha256, S3}.
Context (pc : packPolicy) (c : config).

(** The object that a set of stored objects rebuilds under a hash, and the number of deltas on the way. *)
Inductive rebuilds (sos : list storedObject) : Hash -> nat -> object -> Prop :=
  | rebuilds_whole so :
      so ∈ sos -> so_base so = ZeroHash -> so_raw so = blen (p_body (so_payload so)) ->
      rebuilds sos (so_hash so) 0 {| eo_typ := so_typ so; eo_size := so_raw so; eo_bytes := p_body (so_payload so) |}
  | rebuilds_delta so n base plain :
      so ∈ sos -> so_base so <> ZeroHash -> so_base so <> so_hash so -> rebuilds sos (so_base so) n base ->
      PatchDelta (eo_bytes base) (p_body (so_payload so)) = Some plain -> so_raw so = blen plain ->
      rebuilds sos (so_hash so) (S n) {| eo_typ := so_typ so; eo_size := so_raw so; eo_bytes := plain |}.

(** What the hashes of a container need for its index. *)
Definition wf_stored (hs : nat) (so : storedObject) : Prop :=
  length (HashBytes (so_hash so)) = hs /\ good_base (so_base so) /\
  p_size (so_payload so) <= payloadMaxDecoded.

Lemma filter_one {A} (f : A -> bytes) l x : NoDup (f <$> l) -> x ∈ l -> filter (fun y => f y = f x) l = [x].
Proof.
  induction l as [|y l IH]; intros Hn Hx; [by apply elem_of_nil in Hx|].
  rewrite fmap_cons, NoDup_cons in Hn. destruct Hn as [Hy Hn]. rewrite filter_cons. destruct (decide (f y = f x)) as [Heq|Hne].
  - apply elem_of_cons in Hx as [->|Hx]; [|destruct Hy; rewrite Heq; by apply list_elem_of_fmap_2].
    f_equal. apply filter_none. rewrite Forall_forall. intros z Hz Hzy. apply Hy. rewrite <-Hzy. by apply list_elem_of_fmap_2.
  - apply IH; [done|]. by apply elem_of_cons in Hx as [->|Hx].
Qed.

Lemma sealed_record sos bin rs so :
  Forall2 (stored_as bin) sos rs -> NoDup ((HashBytes ∘ so_hash) <$> sos) -> so ∈ sos ->
  exists r, stored_as bin so r /\ last_record (stable_sort hash_leb rs) (so_hash so) = Some r.
Proof.
  intros Hf Hn Hso. apply list_elem_of_lookup in Hso as [i Hi].
  destruct (Forall2_lookup_l _ _ _ _ _ Hf Hi) as (r0 & Hr0 & Hst). exists r0. split; [done|].
  unfold last_record. destruct (sa_id _ _ _ Hst) as (Hh & _). rewrite <-Hh.
  assert (Hkeys : (fun r => HashBytes (c_hash r)) <$> rs = (HashBytes ∘ so_hash) <$> sos).
  { clear -Hf. induction Hf as [|a b l k Hab Hf IH]; [done|]. rewrite !fmap_cons, IH. f_equal.
    destruct (sa_id _ _ _ Hab) as (Hh & _). unfold compose. by rewrite Hh. }
  rewrite (filter_one (fun r => HashBytes (c_hash r))); [done| |].
  - eapply NoDup_Permutation_proper; [apply fmap_Permutation, stable_sort_perm|]. by rewrite Hkeys.
  - rewrite stable_sort_perm. by eapply list_elem_of_lookup_2.
Qed.

(** Reading a record's payload from the staging file. *)
Lemma staged_payload bin so r id (s : St) path :
  stored_as bin so r -> p_size (so_payload so) <= payloadMaxDecoded -> 0 <= so_raw so ->
  localPath id (packs s) = Some path -> files s !! path = Some bin ->
  packPayload c (cue_entry id r) s = (Ok (p_body (so_payload so)), s).
Proof.
  intros Hst Hmax Hraw Hl Hf. destruct Hst as [(_ & _ & Hr & _) (Ho & Hs & Hb) Hsz Hsm Hz Hby].
  unfold packPayload. cbn [e_stored cue_entry]. destruct (c_stored r =? 0) eqn:E; b2p; [by rewrite Hz|].
  unfold io_bind. cbn [e_id cue_entry]. rewrite Hl, Hf. unfold lift. f_equal.
  unfold section. cbn [e_offset e_stored cue_entry]. destruct (c_offset r <? 0) eqn:E2; b2p; [lia|]. cbn [andb].
  fold (slice_of bin r). unfold decodePackedPayload. cbn [e_codec e_raw cue_entry].
  destruct Hby as [[-> ->]|(-> & _ & Hd & _)]; [done|]. cbn [codecZstd codecRaw Z.eqb].
  rewrite Hr. destruct (Z.min _ _ <? 0) eqn:E3; b2p; [change decodeHintCap with 8388608 in E3; lia|]. by rewrite Hd.
Qed.

Lemma rebuilds_chain sos bin rs id path (s : St) h n o :
  Forall2 (stored_as bin) sos rs -> NoDup ((HashBytes ∘ so_hash) <$> sos) ->
  Forall (wf_stored (p_hashSize (packs s))) sos ->
  localPath id (packs s) = Some path -> files s !! path = Some bin ->
  (forall h r, last_record (stable_sort hash_leb rs) h = Some r -> entry_of (packs s) h = Some (cue_entry id r)) ->
  rebuilds sos h n o -> chain c s h n o.
Proof.
  intros Hf Hn Hwf Hl Hfile Hent Hr. rewrite Forall_forall in Hwf.
  induction Hr as [so Hin Hb Hraw|so n base plain Hin Hb Hne Hr IH Hpd Hraw];
    destruct (sealed_record sos bin rs so Hf Hn Hin) as (r & Hst & Hlast);
    destruct (sa_id _ _ _ Hst) as (_ & Ht & Hrr & Hbb); destruct (Hwf so Hin) as (_ & _ & Hmax); pose proof (Hent _ _ Hlast) as He.
  - eapply chain_whole; [exact He|by cbn; rewrite Hbb| |].
    + eapply staged_payload; try done. rewrite Hraw. apply blen_nonneg.
    + cbn. rewrite Ht, Hrr, Hraw. unfold memory_object, blen. by rewrite MemWrite_exact.
  - eapply chain_delta; [exact He|by cbn; rewrite Hbb|by cbn; rewrite Hbb| | | |].
    + eapply staged_payload; try done. rewrite Hraw. apply blen_nonneg.
    + cbn. rewrite Hbb. exact IH.
    + exact Hpd.
    + cbn. rewrite Ht, Hrr, Hraw. unfold memory_object, blen. by rewrite MemWrite_exact.
Qed.

(** The state a successful [seal] leaves. *)
Lemma seal_ok cuePath seg (s s' : St) :
  seal c true cuePath seg s = (Ok tt, s') -> cuePath <> g_path seg ->
  packs s' = register (checksum seg) (sealed_recs seg) (g_path seg) (packs s) /\
  files s' !! g_path seg = Some (g_bin seg) /\ files s' !! cuePath = Some (encodeCue (c_hashLen c) (sealed_recs seg)) /\
  pending s' = pending s /\ world s' = world s /\ up_err s' = up_err s /\
  queue s' = queue s ++ [PackJob (checksum seg) (g_path seg) cuePath (g_offset seg)
                           (blen (encodeCue (c_hashLen c) (sealed_recs seg)))].
Proof.
  intros Hs Hne. unfold seal, writeFile, io_bind, modify, attempt, enqueue, ret in Hs. cbn in Hs. injection Hs as <-. cbn.
  rewrite lookup_insert_ne by done. rewrite !lookup_insert_eq. done.
Qed.

Lemma register_static id rs path p :
  p_hashSize (register id rs path p) = p_hashSize p /\ built (register id rs path p) = built p /\
  localPath id (register id rs path p) = Some path.
Proof.
  assert (Ha : forall t q, p_hashSize (addTable t q) = p_hashSize q /\ built (addTable t q) = built q).
  { intros t q. unfold addTable. by repeat case_match. }
  unfold register, packNum. destruct (idNum p !! id); cbn; rewrite ?(proj1 (Ha _ _)), ?(proj2 (Ha _ _));
    unfold localPath; cbn; by rewrite lookup_insert_eq.
Qed.
Lemma seal_reads_back (path cuePath : bytes) (sos : list storedObject) (g : packSegment) (s s' : St) (h : Hash) (n : nat) (o : object) :
  add_all pc sos (newPackSegment path) = Ok g ->
  wf_index (packs s) -> built (packs s) = true -> fits (packs s) (length sos) ->
  Forall (wf_stored (p_hashSize (packs s))) sos -> NoDup ((HashBytes ∘ so_hash) <$> sos) ->
  cuePath <> path -> seal c true cuePath g s = (Ok tt, s') ->
  rebuilds sos h n o -> pending s !! h = None -> (n <= maxDeltaDepth)%nat ->
  EncodedObject c AnyObject h s' = (Ok o, s').
Proof.
  intros Ha Hwf Hb Hfit Hsos Hn Hne Hs Hr Hp Hd.
  destruct (add_all_spec pc sos _ g [] [] Ha) as (_ & _ & Hpath & Hf); [done..|by constructor|]. cbn in Hpath, Hf.
  rewrite <-Hpath in Hne. destruct (seal_ok cuePath g s s' Hs Hne) as (Hpk & Hfile & _ & Hpend & _).
  pose proof (register_static (checksum g) (sealed_recs g) (g_path g) (packs s)) as (Hhs & Hbu & Hloc).
  assert (Hlen : length (sealed_recs g) = length sos).
  { unfold sealed_recs. rewrite (Permutation_length (stable_sort_perm _ _)). by rewrite (Forall2_length _ _ _ Hf). }
  assert (Hcues : Forall (wf_cue (p_hashSize (packs s))) (sealed_recs g)).
  { unfold sealed_recs. rewrite (stable_sort_perm hash_leb (g_recs g)). rewrite Forall_forall in Hsos. rewrite Forall_forall.
    intros r Hin. apply list_elem_of_lookup in Hin as [i Hi]. destruct (Forall2_lookup_r _ _ _ _ _ Hf Hi) as (so & Hi' & Hst).
    destruct (sa_id _ _ _ Hst) as (Hh & _ & _ & Hbase). destruct (Hsos so) as (Hl & Hg & _); [by eapply list_elem_of_lookup_2|].
    split; [by rewrite Hh|by rewrite Hbase]. }
  destruct (register_spec (packs s) (checksum g) (sealed_recs g) (g_path g) Hwf) as [_ Hent]; [by rewrite Hlen|done|].
  cbv zeta in Hent. rewrite <-Hpk in Hent, Hhs, Hbu, Hloc.
  rewrite (chain_reads c s' h n o); [|by rewrite Hbu|by rewrite Hpend|].
  - unfold chain_answer. by destruct (Nat.leb_spec n maxDeltaDepth); [|lia].
  - eapply (rebuilds_chain sos (g_bin g) (g_recs g) (checksum g) (g_path g)); try done; [by rewrite Hhs|].
    intros h' r Hl. specialize (Hent h'). unfold sealed_recs in Hent. by rewrite Hl in Hent.
Qed.
End sealed.

(** ** Properties *)

(** Adding objects to a container loses nothing: there is one record per
    object, in order and end to end from the first byte to the last; each holds
    the object's identity, never takes more bytes than the payload, and decodes
    to exactly the payload, whether it was stored raw, compressed, or stored raw
    after a mispredicted compression was undone. *)
Theorem container_holds_payloads `{GoGit, Zstd} (pc : packPolicy) (path : bytes) (sos : list storedObject) (g : packSegment) :
  ZstdLaws -> add_all pc sos (newPackSegment path) = Ok g ->
  Forall2 (stored_as (g_bin g)) sos (g_recs g) /\ tiles (g_recs g) 0 (blen (g_bin g)) /\ g_offset g = blen (g_bin g).
Proof.
  intros Hz Ha. destruct (add_all_spec pc sos _ g [] [] Ha) as (H1' & H2' & _ & H3); [done..|by constructor|].
  rewrite <-H1'. done.
Qed.

(** A sealed container is readable before its upload: reading any of its
    objects gives back the payload that was added, or for a delta the object its
    chain inside the container rebuilds, as long as the chain is no longer than a
    reader follows; the upload of both files is queued, and nothing is asked of
    the bucket. *)
Theorem sealed_container_reads_back `{GoGit, Zstd, GoGitObjects, Sha256, S3} (pc : packPolicy) (c : config)
    (path cuePath : bytes) (sos : list storedObject) (g : packSegment) (s s' : St) (h : Hash) (n : nat) (o : object) :
  ZstdLaws -> GoGitObjectsLaws -> add_all pc sos (newPackSegment path) = Ok g ->
  wf_index (packs s) -> built (packs s) = true -> fits (packs s) (length sos) ->
  Forall (wf_stored (p_hashSize (packs s))) sos -> NoDup ((HashBytes ∘ so_hash) <$> sos) ->
  cuePath <> path -> seal c true cuePath g s = (Ok tt, s') ->
  rebuilds sos h n o -> pending s !! h = None -> (n <= maxDeltaDepth)%nat ->
  EncodedObject c AnyObject h s' = (Ok o, s').
Proof.
  intros Hz Ho. by apply seal_reads_back.
Qed.

(** ** Witnesses *)

Definition small_policy : packPolicy :=
  {| pc_compression := true; pc_inMemoryCap := 4096; pc_probeWindow := 16; pc_maxPackBytes := 0 |}.

Definition stored_n (n : Z) (body : bytes) (base : @Hash toy_git) (raw : Z) : @storedObject toy_git :=
  {| so_payload := {| p_size := blen body; p_body := body; p_fail := None |}; so_hash := hash_n n; so_typ := BlobObject;
     so_raw := raw; so_base := base |}.

(** A small object stored raw, and one of 3000 equal bytes stored compressed. *)
Definition two_bodies : list (@storedObject toy_git) :=
  [stored_n 1 (bs "hello") ZeroHash 5; stored_n 2 (repeat (bz 120) 3000) ZeroHash 3000].

Definition seg_or_empty (r : gores (@packSegment toy_git)) : packSegment :=
  match r with Ok g => g | Err _ => newPackSegment [] end.
Definition two_segment : @packSegment toy_git := seg_or_empty (add_all small_policy two_bodies (newPackSegment (bs "/tmp/seg"))).

Example two_segment_is_small : blen (g_bin two_segment) = 29 /\ (c_codec <$> g_recs two_segment) = [codecRaw; codecZstd].
Proof. vm_compute. split; reflexivity. Qed.

Lemma container_holds_payloads_witness :
  add_all small_policy two_bodies (newPackSegment (bs "/tmp/seg")) = Ok two_segment /\
  Forall2 (stored_as (g_bin two_segment)) two_bodies (g_recs two_segment).
Proof.
  assert (Ha : add_all small_policy two_bodies (newPackSegment (bs "/tmp/seg")) = Ok two_segment) by reflexivity.
  split; [exact Ha|].
  exact (proj1 (@container_holds_payloads toy_git toy_zstd small_policy (bs "/tmp/seg") two_bodies two_segment toy_zstd_laws Ha)).
Defined.

Definition delta_bodies : list (@storedObject toy_git) :=
  [stored_n 7 (bs "hello") ZeroHash 5; stored_n 8 (bs "WORLD") (hash_n 7) 10].
Definition delta_segment : @packSegment toy_git := seg_or_empty (add_all small_policy delta_bodies (newPackSegment (bs "/tmp/seg"))).
Definition fresh_state : @St toy_git Plain.plain_s3 := with_packs (set_built (newPackIndex 20)) (start_state ∅ ∅).
Definition sealed_state (g : @packSegment toy_git) (s : @St toy_git Plain.plain_s3) : St :=
  snd (@seal toy_git toy_zstd toy_sha Plain.plain_s3 unit_config true (bs "/tmp/cue") g s).

Lemma sealed_container_reads_back_witness :
  @EncodedObject toy_git toy_zstd Plain.plain_s3 toy_objects unit_config AnyObject (hash_n 8) (sealed_state delta_segment fresh_state) =
    (Ok {| eo_typ := BlobObject; eo_size := 10; eo_bytes := bs "helloWORLD" |}, sealed_state delta_segment fresh_state).
Proof.
  assert (Ha : add_all small_policy delta_bodies (newPackSegment (bs "/tmp/seg")) = Ok delta_segment) by reflexivity.
  assert (Hs : @seal toy_git toy_zstd toy_sha Plain.plain_s3 unit_config true (bs "/tmp/cue") delta_segment fresh_state =
    (Ok tt, sealed_state delta_segment fresh_state)) by reflexivity.
  refine (@sealed_container_reads_back toy_git toy_zstd toy_objects toy_sha Plain.plain_s3 small_policy unit_config
    (bs "/tmp/seg") (bs "/tmp/cue") delta_bodies delta_segment fresh_state (sealed_state delta_segment fresh_state) (hash_n 8) 1
    {| eo_typ := BlobObject; eo_size := 10; eo_bytes := bs "helloWORLD" |}
    toy_zstd_laws toy_objects_laws Ha _ eq_refl _ _ _ _ Hs _ _ _).
  - destruct empty_wf as [W1 W2 W3 W4 W5]. exact (@Build_wf_index _ (set_built (newPackIndex 20)) W1 W2 W3 W4 W5).
  - split; vm_compute; reflexivity.
  - constructor; [|constructor; [|constructor]]; (split; [reflexivity|]; split; [|vm_compute; discriminate]).
    + left. reflexivity.
    + right. reflexivity.
  - apply (bool_decide_unpack _). vm_compute. exact I.
  - discriminate.
  - apply (rebuilds_delta delta_bodies (stored_n 8 (bs "WORLD") (hash_n 7) 10) 0
      {| eo_typ := BlobObject; eo_size := 5; eo_bytes := bs "hello" |} (bs "helloWORLD")); [right; left|discriminate|discriminate| |reflexivity|reflexivity].
    apply (rebuilds_whole delta_bodies (stored_n 7 (bs "hello") ZeroHash 5)); [left|reflexivity|reflexivity].
  - reflexivity.
  - vm_compute. repeat constructor.
Defined.

(** A container is named after its payload bytes alone.  Two containers with the
    same bytes and different objects share their keys, so the second upload
    replaces the index of the first, and a storer that starts afterwards no
    longer finds the first one's objects. *)
Definition split_one : list (@storedObject toy_git) := [stored_n 1 (bs "ab") ZeroHash 2; stored_n 2 (bs "c") ZeroHash 1].
Definition split_two : list (@storedObject toy_git) := [stored_n 3 (bs "a") ZeroHash 1; stored_n 4 (bs "bc") ZeroHash 2].
Definition sealed_and_flushed (sos : list storedObject) (s : @St toy_git Plain.plain_s3) : St :=
  snd (@flush toy_git Plain.plain_s3 unit_config
    (sealed_state (seg_or_empty (add_all small_policy sos (newPackSegment (bs "/tmp/seg")))) s)).
Definition after_both : @St toy_git Plain.plain_s3 := sealed_and_flushed split_two (sealed_and_flushed split_one fresh_state).
Definition reads_ok (n : Z) (s : @St toy_git Plain.plain_s3) : bool :=
  is_ok (fst (@EncodedObject toy_git toy_zstd Plain.plain_s3 toy_objects unit_config AnyObject (hash_n n) s)).

Example equal_bytes_share_a_container :
  reads_ok 1 (sealed_and_flushed split_one fresh_state) = true /\
  reads_ok 1 (start_state (world after_both) ∅) = false /\ reads_ok 4 (start_state (world after_both) ∅) = true.
Proof. vm_compute. repeat split. Qed.
