(* ===== verification/PackScan.v ===== *)
(** * Scanning a pushed packfile (internal/storage/tigris/indexpack.go, [scanPack])

    One pass over the bytes of a push: an index entry per object, OFS bases
    found by offset, the trailer checked; then the children of every object in
    compressed sparse rows.  The scanner's position is the length of what it
    has read, so its state is the input it has left. *)

From S2P Require Import Prelude GoLib.

(** klauspost/compress/zlib: [Inflate n d] opens a stream at the front of [d] and
    reads at most [n] bytes of it; it yields them and the input left unread. *)
Class Zlib := {
  Inflate : Z -> bytes -> gores (bytes * bytes);
  ZlibStream : bytes -> bytes -> Prop;      (** [ZlibStream z b]: [z] is a zlib stream of [b] *)
}.

Class ZlibLaws `{Zlib} := {
  (* reading past the last byte consumes exactly the stream *)
  Inflate_stream z b n rest : ZlibStream z b -> Z.of_nat (length b) < n -> Inflate n (z ++ rest) = Ok (b, rest);
  ZlibStream_nonempty z b : ZlibStream z b -> z <> [];
  (* what was read to its end is a stream at the front of the input *)
  Inflate_complete n d b rest : Inflate n d = Ok (b, rest) -> Z.of_nat (length b) < n ->
    exists z, d = z ++ rest /\ ZlibStream z b;
  (* a bounded read of a stream yields its first bytes *)
  Inflate_prefix z b n rest : ZlibStream z b -> 0 <= n <= Z.of_nat (length b) ->
    exists rest', Inflate n (z ++ rest) = Ok (take (Z.to_nat n) b, rest');
  Inflate_le n d b rest : 0 <= n -> Inflate n d = Ok (b, rest) -> Z.of_nat (length b) <= n;
}.

(** crypto/sha1 or crypto/sha256, as the object format has it. *)
Class PackHash := { PackSum : bytes -> bytes }.

Section scan.
Context `{GoGit, Zlib, PackHash}.
Context (hashSize : nat).

Record incomingObject := { i_offset : Z; i_content : Z; i_size : Z; i_base : Z; i_typ : Z }.
Record refDelta := { rd_base : Hash; rd_idx : Z; rd_done : bool }.

(** [p_staged]: the staged file [f]. *)
Record incomingPack := {
  p_staged : bytes; p_end : Z; p_objs : list incomingObject; p_hashes : bytes;
  p_kidStart : list Z; p_kids : list Z; p_refs : list refDelta;
}.

#[export] Instance incomingObject_inhabited : Inhabited incomingObject := populate (Build_incomingObject 0 0 0 0 0).
#[export] Instance refDelta_inhabited : Inhabited refDelta := populate {| rd_base := ZeroHash; rd_idx := 0; rd_done := false |}.

Definition malformed : goerr := Wrapf (Sent ErrMalformedPackfile).

(** ** Reading *)

Definition ReadByte (d : bytes) : gores (Z * bytes) :=
  match d with [] => Err (Sent EOF) | b :: d' => Ok (bu b, d') end.

Definition ReadFull (n : nat) (d : bytes) : gores (bytes * bytes) :=
  if (n =? 0)%nat then Ok ([], d) else
  match d with
  | [] => Err (Sent EOF)
  | _ => if (length d <? n)%nat then Err (Sent ErrUnexpectedEOF) else Ok (take n d, drop n d)
  end.

Definition wrap {A} (r : gores A) : gores A := match r with Ok a => Ok a | Err e => Err (Wrapf e) end.

(** The continuation bytes of an entry's size. *)
Fixpoint entry_size (c shift size : Z) (d : bytes) : gores (Z * bytes) :=
  if Z.land c 128 =? 0 then Ok (size, d) else
  if shift >? 57 then Err malformed else
  match d with
  | [] => Err (Wrapf (Sent EOF))
  | b :: d' => entry_size (bu b) (shift + 7) (Z.lor size (u64 (Z.shiftl (Z.land (bu b) 127) shift))) d'
  end.

(** The distance of an OFS delta. *)
Fixpoint ofs_dist (c dist : Z) (d : bytes) : gores (Z * bytes) :=
  if Z.land c 128 =? 0 then Ok (dist, d) else
  if dist >? Z.shiftl 1 55 then Err malformed else
  match d with
  | [] => Err (Sent EOF)
  | b :: d' => ofs_dist (bu b) (Z.lor (i64 (Z.shiftl (dist + 1) 7)) (Z.land (bu b) 127)) d'
  end.

Section header.
(** [whole]: everything the scanner is given, so that [s.n] is what it has consumed. *)
Context (whole : bytes).

Definition pos (d : bytes) : Z := Z.of_nat (length whole) - Z.of_nat (length d).

(** The entry, and the base hash of a REF delta. *)
Definition scanEntryHeader (objs : list incomingObject) (d : bytes) : gores (incomingObject * bytes * bytes) :=
  let offset := pos d in
  let? (c, d) := wrap (ReadByte d) in
  let typ := Z.land (Z.shiftr c 4) 7 in
  let? (size, d) := entry_size c 4 (Z.land c 15) d in
  if size >? Z.shiftl 1 62 then Err malformed else
  let size := i64 size in
  let o d base := {| i_offset := offset; i_content := pos d; i_size := size; i_base := base; i_typ := typ |} in
  if (typ =? CommitObject) || (typ =? TreeObject) || (typ =? BlobObject) || (typ =? TagObject) then Ok (o d (-1), [], d)
  else if typ =? OFSDeltaObject then
    let? (c, d) := ReadByte d in
    let? (dist, d) := ofs_dist c (Z.land c 127) d in
    if (dist <=? 0) || (dist >? offset) then Err malformed else
    let at_ := offset - dist in
    let j := Search (length objs) (fun k => at_ <=? i_offset (objs !!! k)) in
    if (j =? length objs)%nat || negb (i_offset (objs !!! j) =? at_) then Err malformed
    else Ok (o d (i32 (Z.of_nat j)), [], d)
  else if typ =? REFDeltaObject then
    let? (ref, d) := ReadFull hashSize d in
    Ok (o d (-1), ref, d)
  else Err malformed.

(** [inflateTo]: what reached [dst], and the input left. *)
Definition inflateTo (o : incomingObject) (d : bytes) : gores (bytes * bytes) :=
  match Inflate (i_size o + 1) d with
  | Err e => Err (Wrapf e)
  | Ok (out, d) => if negb (Z.of_nat (length out) =? i_size o) then Err malformed else Ok (out, d)
  end.

(** [copy] over a zeroed slot of [hashSize] bytes. *)
Definition hash_slot (h : option Hash) : bytes :=
  match h with
  | Some h => take hashSize (HashBytes h ++ repeat (bz 0) hashSize)
  | None => repeat (bz 0) hashSize
  end.

(** The loop over the entries: the objects, the hash column and the REF deltas. *)
Fixpoint scan_entries (count : nat) (objs : list incomingObject) (hashes : bytes) (refs : list refDelta) (d : bytes)
    : gores (list incomingObject * bytes * list refDelta * bytes) :=
  match count with
  | O => Ok (objs, hashes, refs, d)
  | S count' =>
      let? (o, ref, d) := scanEntryHeader objs d in
      let refs := if i_typ o =? REFDeltaObject
                  then refs ++ [{| rd_base := default ZeroHash (FromBytes ref); rd_idx := i32 (Z.of_nat (length objs)); rd_done := false |}]
                  else refs in
      let? (out, d) := inflateTo o d in
      let h := if IsDelta (i_typ o) then None else Some (HasherSum (i_typ o) (i_size o) out) in
      scan_entries count' (objs ++ [o]) (hashes ++ hash_slot h) refs d
  end.
End header.

(** ** Children *)

Definition bump (i : nat) (l : list Z) : list Z := <[i := l !!! i + 1]> l.

(** How many OFS children each object has, shifted by one row. *)
Definition count_kids (objs : list incomingObject) (start : list Z) : list Z :=
  fold_left (fun st o => if 0 <=? i_base o then bump (S (Z.to_nat (i_base o))) st else st) objs start.

(** [kidStart[i] += kidStart[i-1]], from the second on. *)
Fixpoint prefix_sums (acc : Z) (l : list Z) : list Z :=
  match l with [] => [] | x :: l' => (acc + x) :: prefix_sums (acc + x) l' end.

(** The second loop: place every child in the next free slot of its base's row. *)
Fixpoint fill_kids (i : nat) (objs : list incomingObject) (start fill kids : list Z) : list Z :=
  match objs with
  | [] => kids
  | o :: objs =>
      if 0 <=? i_base o then
        let b := Z.to_nat (i_base o) in
        fill_kids (S i) objs start (bump b fill) (<[Z.to_nat (start !!! b + fill !!! b) := Z.of_nat i]> kids)
      else fill_kids (S i) objs start fill kids
  end.

Definition linkKids (objs : list incomingObject) : list Z * list Z :=
  let start := prefix_sums 0 (count_kids objs (repeat 0 (S (length objs)))) in
  (start, fill_kids 0 objs start (repeat 0 (length objs)) (repeat 0 (Z.to_nat (start !!! length objs)))).

Definition ref_leb (a b : refDelta) : bool := bytes_leb (HashBytes (rd_base a)) (HashBytes (rd_base b)).

(** [scanPack]: the index, and the input after the trailer. *)
Definition scanPack (d : bytes) : gores (incomingPack * bytes) :=
  let whole := d in
  let? (hdr, d) := wrap (ReadFull 12 d) in
  if negb (bytes_eqb (take 4 hdr) (bs "PACK")) then Err malformed else
  let v := be_get (take 4 (drop 4 hdr)) in
  if negb (v =? 2) && negb (v =? 3) then Err malformed else
  let count := be_get (take 4 (drop 8 hdr)) in
  if count >? Z.shiftl 1 31 - 1 then Err malformed else
  let? (objs, hashes, refs, d) := scan_entries whole (Z.to_nat count) [] [] [] d in
  let read := take (length whole - length d) whole in
  let want := PackSum read in
  let? (got, d) := wrap (ReadFull (length want) d) in
  if negb (bytes_eqb got want) then Err malformed else
  let '(start, kids) := linkKids objs in
  Ok ({| p_staged := read ++ got; p_end := Z.of_nat (length read); p_objs := objs; p_hashes := hashes;
         p_kidStart := start; p_kids := kids; p_refs := stable_sort ref_leb refs |}, d).

(** ** Using the index *)

Definition hash_at (p : incomingPack) (i : nat) : Hash :=
  default ZeroHash (FromBytes (take hashSize (drop (i * hashSize) (p_hashes p)))).

(** [p.kids[p.kidStart[i]:p.kidStart[i+1]]] *)
Definition ofs_kids (p : incomingPack) (i : nat) : list Z :=
  let a := p_kidStart p !!! i in
  let b := p_kidStart p !!! S i in
  take (Z.to_nat (b - a)) (drop (Z.to_nat a) (p_kids p)).

(** The zlib stream of entry [i], up to the next entry or the trailer. *)
Definition section_of (p : incomingPack) (i : nat) : bytes :=
  let o := p_objs p !!! i in
  let end_ := if (S i <? length (p_objs p))%nat then i_offset (p_objs p !!! S i) else p_end p in
  take (Z.to_nat (end_ - i_content o)) (drop (Z.to_nat (i_content o)) (p_staged p)).

(** [p.refs[k:]], the entries of [h], marked done as they are handed out. *)
Fixpoint take_refs (h : Hash) (refs : list refDelta) : list Z * list refDelta :=
  match refs with
  | [] => ([], [])
  | r :: rest =>
      if bool_decide (rd_base r = h) then
        let '(out, rest) := take_refs h rest in
        if rd_done r then (out, r :: rest)
        else (rd_idx r :: out, {| rd_base := rd_base r; rd_idx := rd_idx r; rd_done := true |} :: rest)
      else ([], r :: rest)
  end.

(** [children]; [i = None] is the code's -1.  The REF table is state. *)
Definition children (p : incomingPack) (i : option nat) (h : Hash) (refs : list refDelta) : list Z * list refDelta :=
  let out := match i with Some i => ofs_kids p i | None => [] end in
  if (length refs =? 0)%nat then (out, refs) else
  let k := Search (length refs) (fun k => bytes_leb (HashBytes h) (HashBytes (rd_base (refs !!! k)))) in
  let '(more, rest) := take_refs h (drop k refs) in
  (out ++ more, take k refs ++ rest).
End scan.
