(* ===== verification/ConcretePack.v ===== *)
(** * Concrete compression and checksum of packs, for the witnesses

    A stream is its length in one byte and then its bytes; the checksum is a
    polynomial one.  Nothing here models objgit. *)

From S2P Require Import Prelude GoLib Concrete PackScan.

Definition toy_inflate (n : Z) (d : bytes) : gores (bytes * bytes) :=
  match d with
  | [] => Err (Sent ErrUnexpectedEOF)
  | l :: d' =>
      let k := if bu l <? n then Z.to_nat (bu l) else Z.to_nat n in
      if Z.of_nat (length d') <? bu l then Err (Sent ErrUnexpectedEOF) else Ok (take k d', drop k d')
  end.

#[export] Instance toy_zlib : Zlib := {|
  Inflate := toy_inflate;
  ZlibStream z b := Z.of_nat (length b) < 256 /\ z = bz (Z.of_nat (length b)) :: b;
|}.

#[export] Instance toy_zlib_laws : ZlibLaws.
Proof.
  split; cbn.
  - intros z b n rest [Hb ->] Hn. cbn. rewrite bu_bz, Z.mod_small by lia.
    destruct (_ <? n) eqn:E; b2p; [|lia]. destruct (_ <? Z.of_nat (length b)) eqn:E2; b2p; [rewrite length_app in E2; lia|].
    by rewrite Nat2Z.id, take_app_length, drop_app_length.
  - by intros z b [_ ->].
  - intros n d b rest Hr Hb. unfold toy_inflate in Hr. destruct d as [|l d]; [done|]. pose proof (bu_range l).
    destruct (_ <? bu l) eqn:E; b2p; [done|]. injection Hr as <- <-.
    destruct (bu l <? n) eqn:E2; b2p.
    + exists (l :: take (Z.to_nat (bu l)) d). cbn. rewrite take_drop. split; [done|].
      rewrite length_take_le by lia. rewrite Z2Nat.id by lia. split; [lia|]. by rewrite bz_bu.
    + rewrite length_take_le in Hb by lia. lia.
  - intros z b n rest [Hb ->] Hn. cbn. rewrite bu_bz, Z.mod_small by lia.
    destruct (Z.of_nat (length (b ++ rest)) <? Z.of_nat (length b)) eqn:E3; b2p; [rewrite length_app in E3; lia|].
    eexists. do 2 f_equal. destruct (Z.of_nat (length b) <? n) eqn:E4; b2p; [lia|]. by rewrite take_app_le by lia.
  - intros n d b rest Hn Hr. unfold toy_inflate in Hr. destruct d as [|l d]; [done|]. pose proof (bu_range l).
    destruct (_ <? bu l) eqn:E; [done|]. injection Hr as <- <-. rewrite length_take. destruct (bu l <? n) eqn:E2; b2p; lia.
Qed.

#[export] Instance toy_pack_hash : PackHash := {|
  PackSum b := be_put 4 (fold_left (fun acc x => acc * 257 + bu x + 1) b 3);
|}.

Lemma toy_hasher_width t s b : @wf_hash toy_git 20 (HasherSum t s b).
Proof. apply toy_wf; [apply length_be_put|by left]. Qed.

(** A small pack: its entries and its trailer. *)
Definition deflated (b : bytes) : bytes := bz (Z.of_nat (length b)) :: b.
Definition pack_bytes (count : Z) (entries : bytes) : bytes :=
  let body := bs "PACK" ++ be_put 4 2 ++ be_put 4 count ++ entries in body ++ PackSum body.

(** "hello" whole, then "hello world" as a delta against it, 7 bytes back. *)
Definition hello_delta : bytes := [bz 5; bz 11; bz 144; bz 5; bz 6] ++ bs " world".
Definition hello_pack : bytes :=
  pack_bytes 2 (bz (48 + 5) :: deflated (bs "hello") ++ (bz (96 + 11) :: bz 7 :: deflated hello_delta)).
