(* ===== verification/PackScanSpec.v ===== *)
(** * What scanning a pack promises

    Every object of an accepted pack lies where its entry says, its base comes
    before it, and the compressed rows of children are exactly the children. *)

From S2P Require Import Prelude GoLib Concrete Delta PackScan ConcretePack.

(** ** The rows of children *)

Definition based_on (b : Z) (o : incomingObject) : Prop := i_base o = b.
#[export] Instance based_on_dec b o : Decision (based_on b o) := Z.eq_dec _ _.

(** The children of [b] among the first objects, by their positions. *)
Definition kids_among (objs : list incomingObject) (k : nat) (b : Z) : list Z :=
  Z.of_nat <$> filter (fun j => based_on b (objs !!! j)) (seq 0 k).

Definition bases_in_range (objs : list incomingObject) : Prop :=
  Forall (fun o => -1 <= i_base o < Z.of_nat (length objs)) objs.

Lemma kids_among_S objs k b :
  kids_among objs (S k) b = kids_among objs k b ++ (if decide (based_on b (objs !!! k)) then [Z.of_nat k] else []).
Proof.
  unfold kids_among. rewrite seq_S, filter_app, fmap_app. f_equal. cbn [Nat.add]. rewrite filter_cons, filter_nil.
  by case_decide.
Qed.

Lemma bump_total i l j : (i < length l)%nat -> bump i l !!! j = l !!! j + (if decide (j = i) then 1 else 0).
Proof.
  intros Hi. unfold bump. destruct (decide (j = i)) as [->|Hne].
  - by rewrite list_lookup_total_insert_eq.
  - rewrite list_lookup_total_insert_ne by done. lia.
Qed.

Lemma length_bump i l : length (bump i l) = length l.
Proof. apply length_insert. Qed.

(** The first loop counts. *)
Lemma count_kids_spec objs st b :
  Forall (fun o => -1 <= i_base o < Z.of_nat (length st) - 1) objs ->
  length (count_kids objs st) = length st /\ count_kids objs st !!! 0%nat = st !!! 0%nat /\
  count_kids objs st !!! S b = st !!! S b + Z.of_nat (length (filter (based_on (Z.of_nat b)) objs)).
Proof.
  revert st. induction objs as [|o objs IH]; intros st Hr.
  { rewrite filter_nil. cbn. repeat split. lia. }
  apply Forall_cons in Hr as [Ho Hr]. unfold count_kids. cbn [fold_left].
  fold (count_kids objs (if 0 <=? i_base o then bump (S (Z.to_nat (i_base o))) st else st)).
  destruct (0 <=? i_base o) eqn:E; b2p.
  - destruct (IH (bump (S (Z.to_nat (i_base o))) st)) as (H1 & H2 & H3); [by rewrite length_bump|].
    rewrite length_bump in H1. rewrite H1, H2, H3, !bump_total by lia. split; [done|].
    split; [rewrite decide_False by done; lia|].
    rewrite filter_cons. destruct (decide (based_on (Z.of_nat b) o)) as [He|He]; unfold based_on in He.
    + rewrite decide_True by lia. cbn [length]. lia.
    + rewrite decide_False by lia. lia.
  - destruct (IH st Hr) as (H1 & H2 & H3). rewrite H1, H2, H3. repeat split.
    rewrite filter_cons, decide_False by (unfold based_on; lia). done.
Qed.

Lemma prefix_sums_step acc l i : (S i < length l)%nat ->
  prefix_sums acc l !!! S i = prefix_sums acc l !!! i + l !!! S i.
Proof.
  revert acc i. induction l as [|x l IH]; intros acc i Hi; [cbn in Hi; lia|]. cbn in Hi.
  destruct i as [|i]; cbn [prefix_sums].
  - destruct l as [|y l]; [cbn in Hi; lia|]. done.
  - change (prefix_sums (acc + x) l !!! S i = prefix_sums (acc + x) l !!! i + l !!! S i). apply IH. lia.
Qed.

Lemma repeat_total (n i : nat) : (i < n)%nat -> repeat 0 n !!! i = 0.
Proof. revert i. induction n as [|n IH]; intros [|i] Hi; [lia|lia|done|apply (IH i); lia]. Qed.

Lemma length_prefix_sums acc l : length (prefix_sums acc l) = length l.
Proof. revert acc; induction l as [|x l IH]; intros acc; cbn; [done|]. by rewrite IH. Qed.

Lemma kids_count objs b : length (filter (based_on b) objs) = length (kids_among objs (length objs) b).
Proof.
  unfold kids_among. rewrite length_fmap. rewrite <-(fmap_seq_lookup objs) at 1. by rewrite filter_fmap_eq, length_fmap.
Qed.

Lemma kids_among_mono objs k k' b : (k <= k')%nat -> (length (kids_among objs k b) <= length (kids_among objs k' b))%nat.
Proof. intros Hk. induction Hk as [|k' Hk IH]; [done|]. rewrite kids_among_S, length_app. lia. Qed.

Section rows.
Context (objs : list incomingObject) (Hrange : bases_in_range objs).

Let start : list Z := prefix_sums 0 (count_kids objs (repeat 0 (S (length objs)))).
Let row (b : nat) : nat := length (kids_among objs (length objs) (Z.of_nat b)).

Lemma start_length : length start = S (length objs).
Proof.
  unfold start. rewrite length_prefix_sums. destruct (count_kids_spec objs (repeat 0 (S (length objs))) 0) as [-> _];
    rewrite ?repeat_length; [|done]. eapply Forall_impl; [exact Hrange|]. cbn. lia.
Qed.

Lemma start_zero : start !!! 0%nat = 0.
Proof.
  unfold start. destruct (count_kids_spec objs (repeat 0 (S (length objs))) 0) as (Hl & H0 & _).
  { rewrite repeat_length. eapply Forall_impl; [exact Hrange|]. cbn. lia. }
  destruct (count_kids _ _) as [|x l]; [by rewrite repeat_length in Hl|]. cbn in H0 |- *. by rewrite H0.
Qed.

Lemma start_succ b : (b < length objs)%nat -> start !!! S b = start !!! b + Z.of_nat (row b).
Proof.
  intros Hb. unfold start. destruct (count_kids_spec objs (repeat 0 (S (length objs))) b) as (Hl & _ & Hc).
  { rewrite repeat_length. eapply Forall_impl; [exact Hrange|]. cbn. lia. }
  rewrite prefix_sums_step by (rewrite Hl, repeat_length; lia). rewrite Hc. unfold row. rewrite <-kids_count. f_equal.
  rewrite repeat_total by lia. lia.
Qed.

Lemma start_mono a b : (a <= b <= length objs)%nat -> start !!! a <= start !!! b.
Proof.
  intros [Hab Hb]. induction Hab as [|b Hab IH]; [lia|]. rewrite start_succ by lia. etransitivity; [apply IH; lia|lia].
Qed.

Lemma start_nonneg a : (a <= length objs)%nat -> 0 <= start !!! a.
Proof. intros Ha. rewrite <-start_zero. apply start_mono. lia. Qed.

(** After the children among the first [k] objects have been placed. *)
Record filled (k : nat) (fill kids : list Z) : Prop := {
  f_length : length fill = length objs;
  f_kids : Z.of_nat (length kids) = start !!! length objs;
  f_fill b : (b < length objs)%nat -> fill !!! b = Z.of_nat (length (kids_among objs k (Z.of_nat b)));
  f_row b : (b < length objs)%nat ->
    take (length (kids_among objs k (Z.of_nat b))) (drop (Z.to_nat (start !!! b)) kids) = kids_among objs k (Z.of_nat b);
}.

Lemma row_insert (s m q : nat) (kids : list Z) x : (q < s \/ s + m <= q)%nat ->
  take m (drop s (<[q:=x]> kids)) = take m (drop s kids).
Proof.
  intros Hq. apply list_eq. intros i. destruct (decide (i < m)%nat).
  - rewrite !lookup_take_lt, !lookup_drop, list_lookup_insert_ne by lia. done.
  - rewrite !lookup_take_ge by lia. done.
Qed.

Lemma row_append (s m : nat) (kids : list Z) x : (s + m < length kids)%nat ->
  take (S m) (drop s (<[(s + m)%nat:=x]> kids)) = take m (drop s kids) ++ [x].
Proof.
  intros Hl. rewrite (take_S_r _ _ x).
  - by rewrite row_insert by lia.
  - rewrite lookup_drop. by apply list_lookup_insert_eq.
Qed.

Lemma fill_step k fill kids : (k < length objs)%nat -> filled k fill kids ->
  let o := objs !!! k in let b := Z.to_nat (i_base o) in
  if 0 <=? i_base o then filled (S k) (bump b fill) (<[Z.to_nat (start !!! b + fill !!! b) := Z.of_nat k]> kids)
  else filled (S k) fill kids.
Proof.
  intros Hk [Hl Hkl Hf Hr] o b.
  assert (Ho : -1 <= i_base o < Z.of_nat (length objs)).
  { unfold bases_in_range in Hrange. rewrite Forall_forall in Hrange. apply Hrange.
    eapply list_elem_of_lookup_2, list_lookup_lookup_total_lt, Hk. }
  assert (Hoth : forall a, Z.of_nat a <> i_base o -> kids_among objs (S k) (Z.of_nat a) = kids_among objs k (Z.of_nat a)).
  { intros a Ha. rewrite kids_among_S, decide_False, app_nil_r; [done|]. unfold based_on. fold o. congruence. }
  destruct (0 <=? i_base o) eqn:E; b2p.
  2:{ split; [done|done| |]; intros a Ha; rewrite Hoth by lia; auto. }
  assert (Hb : (b < length objs)%nat) by lia. assert (Hbz : Z.of_nat b = i_base o) by lia.
  assert (Hown : kids_among objs (S k) (Z.of_nat b) = kids_among objs k (Z.of_nat b) ++ [Z.of_nat k]).
  { rewrite kids_among_S, decide_True; [done|]. unfold based_on. fold o. by rewrite Hbz. }
  assert (Hlt : (length (kids_among objs k (Z.of_nat b)) < row b)%nat).
  { unfold row. pose proof (kids_among_mono objs (S k) (length objs) (Z.of_nat b) ltac:(lia)) as Hm.
    rewrite Hown, length_app in Hm. cbn in Hm. lia. }
  pose proof (start_succ b Hb) as Hsb. pose proof (start_nonneg b ltac:(lia)) as Hsn.
  pose proof (start_mono (S b) (length objs) ltac:(lia)) as Hsm.
  set (q := Z.to_nat (start !!! b + fill !!! b)).
  assert (Hq : q = (Z.to_nat (start !!! b) + length (kids_among objs k (Z.of_nat b)))%nat).
  { unfold q. rewrite (Hf b Hb). lia. }
  split.
  - by rewrite length_bump.
  - by rewrite length_insert.
  - intros a Ha. rewrite bump_total by lia. destruct (decide (a = b)) as [->|Hne].
    + rewrite Hown, length_app, (Hf b Hb). cbn. lia.
    + rewrite Hoth, (Hf a Ha) by lia. lia.
  - intros a Ha. destruct (decide (a = b)) as [->|Hne].
    + rewrite Hown, length_app. cbn [length]. rewrite Nat.add_1_r, Hq, row_append by lia. by rewrite (Hr b Hb).
    + rewrite Hoth by lia. rewrite row_insert; [by apply Hr|]. rewrite Hq.
      pose proof (kids_among_mono objs k (length objs) (Z.of_nat a) ltac:(lia)) as Hma. fold (row a) in Hma.
      pose proof (start_succ a Ha). pose proof (start_nonneg a ltac:(lia)).
      destruct (Nat.lt_ge_cases a b).
      * pose proof (start_mono (S a) b ltac:(lia)). right. lia.
      * pose proof (start_mono (S b) a ltac:(lia)). left. lia.
Qed.

Lemma fill_all k fill kids : (k <= length objs)%nat -> filled k fill kids ->
  exists fill', filled (length objs) fill' (fill_kids k (drop k objs) start fill kids).
Proof.
  intros Hk. remember (length objs - k)%nat as r eqn:Hr. revert k fill kids Hk Hr.
  induction r as [|r IH]; intros k fill kids Hk Hr Hf.
  - assert (k = length objs) as -> by lia. rewrite drop_all. eauto.
  - assert (Hlt : (k < length objs)%nat) by lia.
    rewrite (drop_S _ (objs !!! k)) by (by apply list_lookup_lookup_total_lt). cbn [fill_kids].
    pose proof (fill_step k fill kids Hlt Hf) as Hs. cbv zeta in Hs.
    destruct (0 <=? i_base (objs !!! k)); apply (IH (S k)); try lia; done.
Qed.

Lemma rows_spec b : (b < length objs)%nat ->
  let (st, kids) := linkKids objs in
  take (Z.to_nat (st !!! S b - st !!! b)) (drop (Z.to_nat (st !!! b)) kids) = kids_among objs (length objs) (Z.of_nat b).
Proof.
  intros Hb. unfold linkKids. fold start.
  destruct (fill_all 0 (repeat 0 (length objs)) (repeat 0 (Z.to_nat (start !!! length objs)))) as [fill' [_ _ _ Hr]]; [lia| |].
  - split.
    + apply repeat_length.
    + rewrite repeat_length. pose proof (start_nonneg (length objs)). lia.
    + intros a Ha. by rewrite repeat_total.
    + done.
  - rewrite drop_0 in Hr. rewrite (start_succ b Hb). replace (start !!! b + _ - start !!! b) with (Z.of_nat (row b)) by lia.
    rewrite Nat2Z.id. by apply Hr.
Qed.
End rows.

(** ** What the scanner accepts *)

Section scan.
Context `{GoGit, Zlib, PackHash, !ZlibLaws}.
Context (hashSize : nat) (whole : bytes).

Definition pack_type (t : Z) : Prop :=
  t ∈ [CommitObject; TreeObject; BlobObject; TagObject; OFSDeltaObject; REFDeltaObject].

(** Where entry [i] ends, when the last one ends at [fin]. *)
Definition entry_end (objs : list incomingObject) (fin : Z) (i : nat) : Z :=
  if (S i <? length objs)%nat then i_offset (objs !!! S i) else fin.

(** The header of an entry, as git documents it: the type in three bits of the
    first byte, the size in its low four bits and then in groups of seven, the
    least significant first. *)
Definition head_form (z : bytes) (typ size : Z) : Prop :=
  exists c rest, z = c :: rest /\ size_groups_form z /\ typ = bu c / 16 mod 8 /\ size = bu c mod 16 + 16 * groups_value rest.

(** The distance back to the base of an OFS delta: groups of seven bits, the most
    significant first, one added before each further group. *)
Definition ofs_groups (n : Z) (z : bytes) : Z := fold_left (fun n b => (n + 1) * 128 + bu b mod 128) z n.
Definition ofs_form (z : bytes) (dist : Z) : Prop :=
  exists c rest, z = c :: rest /\ size_groups_form z /\ dist = ofs_groups (bu c mod 128) rest.

(** The base name of a REF delta: the bytes just before its stream. *)
Definition ref_bytes (o : incomingObject) : bytes := take hashSize (drop (Z.to_nat (i_content o) - hashSize) whole).

(** The bytes between an entry's offset and its stream say its type and size and,
    for a delta, the entry or the name it is based on. *)
Definition header_form (objs : list incomingObject) (o : incomingObject) : Prop :=
  exists head args, take (Z.to_nat (i_content o - i_offset o)) (drop (Z.to_nat (i_offset o)) whole) = head ++ args /\
    head_form head (i_typ o) (i_size o) /\
    (i_typ o = OFSDeltaObject -> exists dist, ofs_form args dist /\ 0 < dist /\
      i_offset (objs !!! Z.to_nat (i_base o)) = i_offset o - dist) /\
    (i_typ o = REFDeltaObject -> args = ref_bytes o /\ length args = hashSize) /\
    (IsDelta (i_typ o) = false -> args = []).

(** Entry [i] lies between its offset and the next; its header says what the index
    says; its stream has exactly the declared size; its base, for an OFS delta, is
    an earlier entry. *)
Record entry_ok (objs : list incomingObject) (hashes : bytes) (fin : Z) (i : nat) (o : incomingObject) : Prop := {
  eo_span : 0 <= i_offset o /\ i_offset o < i_content o /\ i_content o < entry_end objs fin i;
  eo_type : pack_type (i_typ o);
  eo_base : (i_typ o = OFSDeltaObject -> 0 <= i_base o < Z.of_nat i) /\ (i_typ o <> OFSDeltaObject -> i_base o = -1);
  eo_header : header_form objs o;
  eo_stream : exists out,
    ZlibStream (take (Z.to_nat (entry_end objs fin i - i_content o)) (drop (Z.to_nat (i_content o)) whole)) out /\
    Z.of_nat (length out) = i_size o /\
    take hashSize (drop (i * hashSize) hashes) =
      hash_slot hashSize (if IsDelta (i_typ o) then None else Some (HasherSum (i_typ o) (i_size o) out));
}.

Definition scanned (objs : list incomingObject) (hashes : bytes) (fin : Z) : Prop :=
  length hashes = (length objs * hashSize)%nat /\
  forall i o, objs !! i = Some o -> entry_ok objs hashes fin i o.

(** [d] is what is left of [whole] at position [p]. *)
Definition at_pos (d : bytes) (p : Z) : Prop := 0 <= p /\ d = drop (Z.to_nat p) whole /\ p + Z.of_nat (length d) = Z.of_nat (length whole).

Lemma at_pos_pos d p : at_pos d p -> pos whole d = p.
Proof. unfold at_pos, pos. lia. Qed.

Lemma at_pos_app z d p : at_pos (z ++ d) p -> at_pos d (p + Z.of_nat (length z)).
Proof.
  intros (Hp & Hd & Hl). rewrite length_app in Hl. split; [lia|]. split; [|lia].
  replace (Z.to_nat (p + Z.of_nat (length z))) with (Z.to_nat p + length z)%nat by lia.
  by rewrite <-drop_drop, <-Hd, drop_app_length.
Qed.

Lemma at_pos_span z d p : at_pos (z ++ d) p -> take (length z) (drop (Z.to_nat p) whole) = z.
Proof. intros (_ & <- & _). by rewrite take_app_length. Qed.

(** Each reader takes some bytes off the front. *)
Definition takes {A} (r : gores (A * bytes)) (d : bytes) : Prop :=
  forall a d', r = Ok (a, d') -> exists z, d = z ++ d'.

Lemma ReadByte_inv d c d' : ReadByte d = Ok (c, d') -> exists b, d = b :: d' /\ c = bu b.
Proof. destruct d as [|b d0]; [done|]. intros [= <- <-]. eauto. Qed.

Definition continued (c : Z) (z : bytes) : Prop := (c < 128 /\ z = []) \/ (128 <= c /\ size_groups_form z).

Lemma entry_size_form c j n d v d' : 0 <= c < 256 -> 0 <= n < 2 ^ (4 + 7 * Z.of_nat j) ->
  entry_size c (4 + 7 * Z.of_nat j) n d = Ok (v, d') ->
  exists z, d = z ++ d' /\ continued c z /\ v = n + groups_value z * 2 ^ (4 + 7 * Z.of_nat j).
Proof.
  revert c j n. induction d as [|b d IH]; intros c j n Hc Hn He; cbn [entry_size] in He; rewrite high_bit in He by done;
    (destruct (c <? 128) eqn:E; b2p; [injection He as <- <-; exists []; split; [done|]; split; [by left|cbn; lia]|]);
    (destruct (_ >? 57) eqn:Es; b2p; [done|]); [done|].
  destruct (size_groups n (4 + 7 * Z.of_nat j) b ltac:(lia) Hn ltac:(lia)) as [_ Hg]. rewrite Hg in He by lia.
  pose proof (bu_range b) as Hb. pose proof (Z.mod_pos_bound (bu b) 128 ltac:(lia)) as Hm.
  replace (4 + 7 * Z.of_nat j + 7) with (4 + 7 * Z.of_nat (S j)) in He by lia.
  assert (Hpow : 2 ^ (4 + 7 * Z.of_nat (S j)) = 128 * 2 ^ (4 + 7 * Z.of_nat j))
    by (replace (4 + 7 * Z.of_nat (S j)) with (7 + (4 + 7 * Z.of_nat j)) by lia; rewrite Z.pow_add_r by lia; done).
  apply IH in He as (z & -> & Hz & ->); [|done|rewrite Hpow; nia]. exists (b :: z). split; [done|]. split.
  - right. split; [done|]. apply size_groups_cons. exact Hz.
  - rewrite groups_value_cons, Hpow. ring.
Qed.

Lemma groups_value_nonneg z : 0 <= groups_value z.
Proof. induction z as [|b z IH]; [done|]. rewrite groups_value_cons. pose proof (Z.mod_pos_bound (bu b) 128 ltac:(lia)). lia. Qed.

Lemma ofs_dist_form c x d v d' : 0 <= c < 256 -> 0 <= x -> ofs_dist c x d = Ok (v, d') ->
  exists z, d = z ++ d' /\ continued c z /\ v = ofs_groups x z.
Proof.
  revert c x. induction d as [|b d IH]; intros c x Hc Hx He; cbn [ofs_dist] in He; rewrite high_bit in He by done;
    (destruct (c <? 128) eqn:E; b2p; [injection He as <- <-; exists []; split; [done|]; split; [by left|done]|]);
    (destruct (_ >? _) eqn:Es; b2p; [done|]); [done|].
  change (Z.shiftl 1 55) with (2 ^ 55) in Es. pose proof (bu_range b) as Hb. pose proof (Z.mod_pos_bound (bu b) 128 ltac:(lia)) as Hm.
  rewrite low_bits, Z.lor_comm, i64_id in He by (rewrite Z.shiftl_mul_pow2 by lia; unfold in_i64; lia).
  rewrite lor_add in He by lia. change (2 ^ 7) with 128 in He.
  apply IH in He as (z & -> & Hz & ->); [|done|lia]. exists (b :: z). split; [done|]. split.
  - right. split; [done|]. apply size_groups_cons. exact Hz.
  - unfold ofs_groups. cbn [fold_left]. f_equal. lia.
Qed.

Lemma ReadFull_ok n d a d' : ReadFull n d = Ok (a, d') -> d = a ++ d' /\ length a = n.
Proof.
  unfold ReadFull. destruct (n =? 0)%nat eqn:E; b2p; [intros [= <- <-]; subst; done|].
  destruct d as [|b d0]; [done|]. destruct (_ <? _)%nat eqn:E2; b2p; [done|]. intros [= <- <-].
  rewrite take_drop, length_take. split; [done|]. lia.
Qed.

Lemma wrap_ok {A} (r : gores A) a : wrap r = Ok a -> r = Ok a.
Proof. by destruct r. Qed.

Lemma first_byte b : 0 <= bu b < 256 -> Z.land (Z.shiftr (bu b) 4) 7 = bu b / 16 mod 8 /\ Z.land (bu b) 15 = bu b mod 16.
Proof. intros Hb. rewrite Z.shiftr_div_pow2 by lia. split; [exact (Z.land_ones _ 3 ltac:(lia))|exact (Z.land_ones _ 4 ltac:(lia))]. Qed.

Lemma spans head args d d' p q : at_pos d p -> d = head ++ args ++ d' -> q = p + Z.of_nat (length (head ++ args)) ->
  take (Z.to_nat (q - p)) (drop (Z.to_nat p) whole) = head ++ args.
Proof.
  intros Hp -> ->. rewrite app_assoc in Hp. replace (Z.to_nat _) with (length (head ++ args)) by lia. by apply (at_pos_span _ d').
Qed.

Lemma ref_bytes_span head ref d' p o : at_pos (head ++ ref ++ d') p -> length ref = hashSize ->
  i_content o = p + Z.of_nat (length (head ++ ref)) -> ref_bytes o = ref.
Proof.
  intros Hp Hl Ho. unfold ref_bytes. apply at_pos_app in Hp as Hp2. rewrite Ho, length_app.
  replace (Z.to_nat (p + Z.of_nat (length head + length ref)) - hashSize)%nat with (Z.to_nat (p + Z.of_nat (length head))) by (destruct Hp; lia).
  rewrite <-Hl. by apply (at_pos_span _ d').
Qed.

(** A header names an entry that lies ahead of what it is based on. *)
Lemma header_ok objs hashes d p o ref d' :
  scanned objs hashes p -> at_pos d p -> Z.of_nat (length objs) < 2 ^ 31 ->
  scanEntryHeader hashSize whole objs d = Ok (o, ref, d') ->
  i_offset o = p /\ at_pos d' (i_content o) /\ p < i_content o /\ pack_type (i_typ o) /\
  ((i_typ o = OFSDeltaObject -> 0 <= i_base o < Z.of_nat (length objs)) /\ (i_typ o <> OFSDeltaObject -> i_base o = -1)) /\
  header_form objs o /\ (i_typ o = REFDeltaObject -> ref = ref_bytes o /\ length ref = hashSize).
Proof.
  intros Hs Hp Hlen Hh. unfold scanEntryHeader in Hh.
  apply res_bind_ok in Hh as ([c d1] & H1' & Hh). apply wrap_ok, ReadByte_inv in H1' as (b & -> & ->).
  pose proof (bu_range b) as Hb. destruct (first_byte b Hb) as [Hty Hlow]. rewrite Hty, Hlow in Hh. pose proof (Z.mod_pos_bound (bu b) 16 ltac:(lia)) as Hm.
  apply res_bind_ok in Hh as ([size d2] & H2' & Hh). apply (entry_size_form _ 0) in H2' as (z & -> & Hz & Hsz); [|done|cbn; lia].
  pose proof (groups_value_nonneg z) as Hgz. change (2 ^ (4 + 7 * Z.of_nat 0)) with 16 in Hsz.
  destruct (size >? _) eqn:Esz; [done|]. b2p. change (Z.shiftl 1 62) with (2 ^ 62) in Esz. cbn zeta in Hh.
  rewrite i64_id in Hh by (unfold in_i64; lia).
  assert (Hp2 : at_pos d2 (p + Z.of_nat (length (b :: z)))) by (apply at_pos_app; exact Hp).
  pose proof (at_pos_pos _ _ Hp) as Hpp. set (typ := bu b / 16 mod 8) in *.
  assert (Hhead : head_form (b :: z) typ size) by (exists b, z; split; [done|]; split; [apply size_groups_cons; exact Hz|]; split; [done|lia]).
  destruct (_ || _) eqn:Et.
  - injection Hh as <- <- <-. cbn [i_offset i_content i_size i_base i_typ]. rewrite Hpp, (at_pos_pos _ _ Hp2).
    assert (Hcase : typ = CommitObject \/ typ = TreeObject \/ typ = BlobObject \/ typ = TagObject).
    { rewrite !orb_true_iff in Et. destruct Et as [[[Et|Et]|Et]|Et]; b2p; tauto. }
    split; [done|]. split; [exact Hp2|]. split; [cbn [length]; lia|].
    assert (Hnd : typ <> OFSDeltaObject /\ typ <> REFDeltaObject /\ pack_type typ).
    { clearbody typ. destruct Hcase as [Hc|[Hc|[Hc|Hc]]]; rewrite Hc; (split; [done|split; [done|unfold pack_type; set_solver]]). }
    destruct Hnd as (Hn1 & Hn2 & Hpt). split; [exact Hpt|]. split; [done|]. split; [|done].
    exists (b :: z), []. cbn [i_offset i_content i_size i_base i_typ]. split; [|split; [exact Hhead|split; [done|split; done]]].
    eapply spans; [exact Hp|done|]. by rewrite app_nil_r.
  - destruct (typ =? OFSDeltaObject) eqn:Eo; b2p.
    + apply res_bind_ok in Hh as ([c d3] & Hq3 & Hh). apply ReadByte_inv in Hq3 as (b3 & -> & ->).
      pose proof (bu_range b3) as Hb3. rewrite low_bits in Hh. pose proof (Z.mod_pos_bound (bu b3) 128 ltac:(lia)) as Hm3.
      apply res_bind_ok in Hh as ([dist d4] & Hq4 & Hh). apply ofs_dist_form in Hq4 as (z4 & -> & Hz4 & Hdist); [|done|lia].
      destruct ((dist <=? 0) || (dist >? _)) eqn:Ed; [done|]. apply orb_false_iff in Ed as [Ed1 Ed2]. cbn zeta in Hh.
      destruct ((_ =? length objs)%nat || _) eqn:Ej; [done|]. injection Hh as <- <- <-. cbn [i_offset i_content i_size i_base i_typ].
      set (j := Search (length objs) _) in *.
      assert (Hle : (j <= length objs)%nat) by apply Search_le. apply orb_false_iff in Ej as [Ej Eat]. rewrite negb_false_iff in Eat.
      assert (Hj : (j < length objs)%nat) by (b2p; lia). b2p.
      assert (Hp4 : at_pos d4 (p + Z.of_nat (length ((b :: z) ++ b3 :: z4)))).
      { apply (at_pos_app ((b :: z) ++ b3 :: z4)). rewrite <-app_assoc. exact Hp. }
      rewrite Hpp, (at_pos_pos _ _ Hp4).
      assert (Hi : i32 (Z.of_nat j) = Z.of_nat j) by (unfold i32; rewrite Z.mod_small; lia).
      split; [done|]. split; [exact Hp4|]. split; [rewrite length_app; cbn [length]; lia|]. rewrite Hi, Hpp in *.
      split; [rewrite Eo; unfold pack_type; set_solver|]. split; [split; [lia|done]|]. split; [|by rewrite Eo].
      exists (b :: z), (b3 :: z4). cbn [i_offset i_content i_size i_base i_typ]. split; [eapply spans; [exact Hp|done|done]|]. split; [exact Hhead|].
      split; [|by rewrite Eo]. intros _. exists dist. split; [exists b3, z4; split; [done|]; split; [by apply size_groups_cons|done]|].
      split; [lia|]. by rewrite Nat2Z.id.
    + destruct (typ =? REFDeltaObject) eqn:Er; b2p; [|done].
      apply res_bind_ok in Hh as ([rf d3] & Hq3 & [= <- <- <-]). apply ReadFull_ok in Hq3 as [-> Hl]. cbn [i_offset i_content i_size i_base i_typ].
      assert (Hp3 : at_pos d3 (p + Z.of_nat (length ((b :: z) ++ rf)))).
      { apply (at_pos_app ((b :: z) ++ rf)). rewrite <-app_assoc. exact Hp. }
      rewrite Hpp, (at_pos_pos _ _ Hp3). set (q := p + Z.of_nat (length ((b :: z) ++ rf))) in *.
      match goal with |- context [ref_bytes ?x] => set (o := x) end.
      assert (Href : ref_bytes o = rf) by (by apply (ref_bytes_span (b :: z) rf d3 p)).
      split; [done|]. split; [exact Hp3|]. split; [unfold q; rewrite length_app; cbn [length]; lia|].
      split; [rewrite Er; unfold pack_type; set_solver|]. split; [done|]. split; [|by rewrite Href].
      exists (b :: z), rf. subst o. cbn [i_offset i_content i_size i_base i_typ]. split; [eapply spans; [exact Hp|done|done]|]. split; [exact Hhead|].
      split; [done|]. split; [by rewrite Href|by rewrite Er].
Qed.

Lemma length_hash_slot h : length (hash_slot hashSize h) = hashSize.
Proof. destruct h; cbn; rewrite ?length_take, ?length_app, ?repeat_length; lia. Qed.

Lemma slot_app (hashes s : bytes) (i k : nat) : length hashes = (k * hashSize)%nat -> (i < k)%nat ->
  take hashSize (drop (i * hashSize) (hashes ++ s)) = take hashSize (drop (i * hashSize) hashes).
Proof.
  intros Hl Hi. rewrite drop_app_le by nia. apply take_app_le. rewrite length_drop. nia.
Qed.

Lemma header_app objs more i o : (i <= length objs)%nat -> (i_typ o = OFSDeltaObject -> 0 <= i_base o < Z.of_nat i) ->
  header_form objs o -> header_form (objs ++ more) o.
Proof.
  intros Hi Hb (head & args & Hw & Hh & Hofs & Hrest). exists head, args. split; [done|]. split; [done|]. split; [|done].
  intros Ht. destruct (Hofs Ht) as (dist & ? & ? & Hat). exists dist. specialize (Hb Ht). rewrite lookup_total_app_l by lia. done.
Qed.

Lemma scanned_snoc objs hashes p o out z d' :
  scanned objs hashes p -> i_offset o = p -> at_pos (z ++ d') (i_content o) -> p < i_content o -> 0 <= p -> z <> [] ->
  pack_type (i_typ o) ->
  (i_typ o = OFSDeltaObject -> 0 <= i_base o < Z.of_nat (length objs)) /\ (i_typ o <> OFSDeltaObject -> i_base o = -1) ->
  header_form objs o -> ZlibStream z out -> Z.of_nat (length out) = i_size o ->
  scanned (objs ++ [o]) (hashes ++ hash_slot hashSize (if IsDelta (i_typ o) then None else Some (HasherSum (i_typ o) (i_size o) out)))
    (i_content o + Z.of_nat (length z)).
Proof.
  intros [Hl Hs] Ho Hp Hc H0' Hz Ht Hb Hhd Hzs Hsz. split.
  { rewrite !length_app, length_hash_slot, Hl. cbn. lia. }
  assert (Hzl : (0 < length z)%nat) by (destruct z; [done|cbn; lia]).
  intros i o' Hi. apply lookup_app_Some in Hi as [Hi|[Hge Hi]].
  - assert (Hlt : (i < length objs)%nat) by (by eapply lookup_lt_Some). destruct (Hs i o' Hi) as [Hspan Hty Hba Hhd' (out' & Hstr)].
    assert (Hend : entry_end (objs ++ [o]) (i_content o + Z.of_nat (length z)) i = entry_end objs p i).
    { unfold entry_end. rewrite length_app. cbn [length]. destruct (S i <? length objs + 1)%nat eqn:E1; b2p; [|lia].
      destruct (S i <? length objs)%nat eqn:E2; b2p.
      - by rewrite lookup_total_app_l by done.
      - rewrite lookup_total_app_r by lia. replace (S i - length objs)%nat with 0%nat by lia. cbn. done. }
    split; [by rewrite Hend|done|done|apply (header_app _ _ i); [lia|apply Hba|done]|]. exists out'. rewrite Hend, (slot_app _ _ i (length objs)) by done. exact Hstr.
  - apply list_lookup_singleton_Some in Hi as [Hi <-]. assert (i = length objs) as -> by lia.
    assert (Hend : entry_end (objs ++ [o]) (i_content o + Z.of_nat (length z)) (length objs) = i_content o + Z.of_nat (length z)).
    { unfold entry_end. rewrite length_app. cbn [length]. by destruct (S (length objs) <? length objs + 1)%nat eqn:E1; b2p; [lia|]. }
    split; [rewrite Hend; lia|done|done|apply (header_app _ _ (length objs)); [lia|apply Hb|done]|]. exists out. rewrite Hend.
    replace (Z.to_nat (i_content o + Z.of_nat (length z) - i_content o)) with (length z) by lia.
    rewrite (at_pos_span _ _ _ Hp). split; [done|]. split; [done|].
    rewrite <-Hl, drop_app_length. apply take_ge. by rewrite length_hash_slot.
Qed.

(** The table of REF deltas is the REF entries. *)
Definition refs_ok (objs : list incomingObject) (refs : list refDelta) : Prop :=
  (forall r, r ∈ refs -> rd_done r = false /\ exists i o, rd_idx r = Z.of_nat i /\ objs !! i = Some o /\ i_typ o = REFDeltaObject) /\
  (forall i o, objs !! i = Some o -> i_typ o = REFDeltaObject -> exists r, r ∈ refs /\ rd_idx r = Z.of_nat i) /\
  NoDup (rd_idx <$> refs) /\
  (forall r, r ∈ refs -> exists i o, rd_idx r = Z.of_nat i /\ objs !! i = Some o /\
    length (ref_bytes o) = hashSize /\ rd_base r = default ZeroHash (FromBytes (ref_bytes o))).

Lemma refs_ok_snoc objs refs o ref :
  refs_ok objs refs -> Z.of_nat (length objs) < 2 ^ 31 -> (i_typ o = REFDeltaObject -> ref = ref_bytes o /\ length ref = hashSize) ->
  refs_ok (objs ++ [o]) (if i_typ o =? REFDeltaObject
    then refs ++ [{| rd_base := default ZeroHash (FromBytes ref); rd_idx := i32 (Z.of_nat (length objs)); rd_done := false |}] else refs).
Proof.
  intros (H1' & H2' & H3' & H4') Hl Hw. assert (Hi : i32 (Z.of_nat (length objs)) = Z.of_nat (length objs)) by (unfold i32; rewrite Z.mod_small; lia).
  assert (Hold : forall r, r ∈ refs -> rd_done r = false /\ exists i o', rd_idx r = Z.of_nat i /\ (objs ++ [o]) !! i = Some o' /\ i_typ o' = REFDeltaObject).
  { intros r Hr. destruct (H1' r Hr) as (Hd & i & o' & Hx & Hy & Hz). split; [done|]. exists i, o'. split; [done|]. split; [|done].
    by apply lookup_app_l_Some. }
  assert (Hbase : forall r, r ∈ refs -> exists i o', rd_idx r = Z.of_nat i /\ (objs ++ [o]) !! i = Some o' /\
    length (ref_bytes o') = hashSize /\ rd_base r = default ZeroHash (FromBytes (ref_bytes o'))).
  { intros r Hr. destruct (H4' r Hr) as (i & o' & Hx & Hy & Hz). exists i, o'. split; [done|]. split; [by apply lookup_app_l_Some|done]. }
  assert (Hlast : (objs ++ [o]) !! length objs = Some o) by (by rewrite lookup_app_r, Nat.sub_diag by lia).
  destruct (i_typ o =? REFDeltaObject) eqn:E; b2p; (split; [|split; [|split]]).
  - intros r [Hr|Hr]%elem_of_app; [by apply Hold|]. apply list_elem_of_singleton in Hr as ->. split; [done|].
    exists (length objs), o. split; [exact Hi|done].
  - intros i o' Ho Ht. apply lookup_app_Some in Ho as [Ho|[Hge Ho]].
    + destruct (H2' i o' Ho Ht) as (r & Hr & Hx). exists r. split; [apply elem_of_app; by left|done].
    + apply list_lookup_singleton_Some in Ho as [Hz <-]. eexists. split; [apply elem_of_app; right; by apply list_elem_of_singleton|].
      cbn. rewrite Hi. f_equal. lia.
  - rewrite fmap_app, NoDup_app. split; [done|]. split; [|apply NoDup_singleton].
    intros x Hx [=]%list_elem_of_singleton. apply list_elem_of_fmap in Hx as (r & Hx & Hr).
    destruct (H1' r Hr) as (_ & i & o' & Hri & Ho & _). apply lookup_lt_Some in Ho. cbn in *. lia.
  - intros r [Hr|Hr]%elem_of_app; [by apply Hbase|]. apply list_elem_of_singleton in Hr as ->. cbn. destruct (Hw E) as [Hb Hlen].
    exists (length objs), o. rewrite <-Hb. done.
  - exact Hold.
  - intros i o' Ho Ht. apply lookup_app_Some in Ho as [Ho|[Hge Ho]]; [by apply (H2' i o')|].
    by apply list_lookup_singleton_Some in Ho as [_ <-].
  - done.
  - exact Hbase.
Qed.

(** Where the first entry begins, or would. *)
Definition first_at (objs : list incomingObject) (fin : Z) : Z := match objs with o :: _ => i_offset o | [] => fin end.

Lemma scan_entries_ok count objs hashes refs d p objs' hashes' refs' d' :
  scanned objs hashes p -> refs_ok objs refs -> at_pos d p -> Z.of_nat (length objs) + Z.of_nat count < 2 ^ 31 ->
  scan_entries hashSize whole count objs hashes refs d = Ok (objs', hashes', refs', d') ->
  exists p', scanned objs' hashes' p' /\ refs_ok objs' refs' /\ at_pos d' p' /\ p <= p' /\ length objs' = (length objs + count)%nat /\
    first_at objs' p' = first_at objs p.
Proof.
  revert objs hashes refs d p. induction count as [|n IH]; intros objs hashes refs d p Hs Hrf Hp Hn Hr; cbn [scan_entries] in Hr.
  { injection Hr as <- <- <- <-. exists p. rewrite Nat.add_0_r. split; [done|]. split; [done|]. split; [done|]. split; [lia|]. done. }
  apply res_bind_ok in Hr as ([[o ref] d1] & Hh & Hr).
  eapply header_ok in Hh as (Ho & Hp1 & Hlt & Ht & Hb & Hhd & Hrl); [|done|done|lia].
  apply res_bind_ok in Hr as ([out d2] & Hi & Hr). unfold inflateTo in Hi.
  destruct (Inflate (i_size o + 1) d1) as [[out0 d20]|e] eqn:Einf; [|done].
  destruct (Z.of_nat (length out0) =? i_size o) eqn:Esz; [|done]. cbn [negb] in Hi. injection Hi as <- <-. b2p.
  apply Inflate_complete in Einf as (z & -> & Hz); [|lia]. pose proof (ZlibStream_nonempty _ _ Hz) as Hne.
  pose proof (scanned_snoc objs hashes p o out0 z d20 Hs Ho Hp1 Hlt (proj1 Hp) Hne Ht Hb Hhd Hz Esz) as Hs'.
  apply (IH _ _ _ _ _ Hs') in Hr as (p' & H1' & H5' & H2' & H3' & H4' & H6').
  - exists p'. rewrite length_app in H4'. cbn in H4'. split; [done|]. split; [done|]. split; [done|]. split; [lia|]. split; [lia|].
    rewrite H6'. destruct objs; [exact Ho|done].
  - apply refs_ok_snoc; [done|lia|done].
  - by apply at_pos_app.
  - rewrite length_app. cbn. lia.
Qed.
End scan.

(** ** The index of a pack *)

Section index.
Context `{GoGit, Zlib, PackHash, !ZlibLaws}.
Context (hashSize : nat).

(** What an index says of the staged file. *)
Record object_ok (p : incomingPack) (i : nat) (o : incomingObject) : Prop := {
  oo_type : pack_type (i_typ o);
  oo_header : header_form hashSize (p_staged p) (p_objs p) o;
  oo_base : (i_typ o = OFSDeltaObject -> 0 <= i_base o < Z.of_nat i) /\ (i_typ o <> OFSDeltaObject -> i_base o = -1);
  oo_body : exists out, ZlibStream (section_of p i) out /\ Z.of_nat (length out) = i_size o /\
    (IsDelta (i_typ o) = false -> hash_at hashSize p i = HasherSum (i_typ o) (i_size o) out);
}.

Record indexed (p : incomingPack) : Prop := {
  in_objects : forall i o, p_objs p !! i = Some o -> object_ok p i o;
  in_bases : bases_in_range (p_objs p);
  in_rows : linkKids (p_objs p) = (p_kidStart p, p_kids p);
  in_refs : refs_ok hashSize (p_staged p) (p_objs p) (p_refs p);
  in_sorted : StronglySorted (fun a b => ref_leb a b = true) (p_refs p);
  in_magic : take 4 (p_staged p) = bs "PACK" /\ be_get (take 4 (drop 4 (p_staged p))) ∈ [2; 3];
  in_first : first_at (p_objs p) (p_end p) = 12;
  in_count : Z.of_nat (length (p_objs p)) = be_get (take 4 (drop 8 (p_staged p)));
  in_small : Z.of_nat (length (p_objs p)) < 2 ^ 31;
  in_trailer : drop (Z.to_nat (p_end p)) (p_staged p) = PackSum (take (Z.to_nat (p_end p)) (p_staged p));
}.

Lemma window_prefix (a b : bytes) m n : (m + n <= length a)%nat -> take n (drop m (a ++ b)) = take n (drop m a).
Proof. intros Hl. rewrite drop_app_le by lia. apply take_app_le. rewrite length_drop. lia. Qed.

Lemma entry_end_le whole objs hashes fin i :
  scanned hashSize whole objs hashes fin -> (i < length objs)%nat -> entry_end objs fin i <= fin.
Proof.
  intros [_ Hs] _. unfold entry_end at 1. destruct (S i <? length objs)%nat eqn:E; b2p; [|lia].
  destruct (lookup_lt_is_Some_2 objs (S i) E) as [o' Ho']. rewrite (list_lookup_total_correct _ _ _ Ho').
  enough (Hg : forall n k x, (n = length objs - k)%nat -> objs !! k = Some x -> i_offset x <= fin) by (by eapply Hg).
  induction n as [|n IH]; intros k x Hn Hk; [apply lookup_lt_Some in Hk; lia|].
  destruct (eo_span _ _ _ _ _ _ _ (Hs k x Hk)) as (_ & H1' & H2'). unfold entry_end in H2'.
  destruct (S k <? length objs)%nat eqn:E'; b2p; [|lia].
  destruct (lookup_lt_is_Some_2 objs (S k) E') as [y Hy]. rewrite (list_lookup_total_correct _ _ _ Hy) in H2'.
  specialize (IH (S k) y ltac:(lia) Hy). lia.
Qed.

Lemma header_inside whole objs o : header_form hashSize whole objs o -> 0 <= i_offset o <= i_content o ->
  i_typ o = REFDeltaObject -> Z.of_nat hashSize <= i_content o.
Proof.
  intros (head & args & Hw & _ & _ & Href & _) H0' Ht. destruct (Href Ht) as [_ Hl]. apply (f_equal length) in Hw.
  rewrite length_app, length_take in Hw. lia.
Qed.

Lemma ref_bytes_prefix staged rest o : Z.of_nat hashSize <= i_content o <= Z.of_nat (length staged) ->
  ref_bytes hashSize (staged ++ rest) o = ref_bytes hashSize staged o.
Proof. intros Hl. unfold ref_bytes. apply window_prefix. lia. Qed.

Lemma header_prefix staged rest objs o : 0 <= i_offset o <= i_content o -> i_content o <= Z.of_nat (length staged) ->
  header_form hashSize (staged ++ rest) objs o -> header_form hashSize staged objs o.
Proof.
  intros Ho Hl Hf. pose proof (header_inside _ _ _ Hf Ho) as Hin. destruct Hf as (head & args & Hw & Hh & Hofs & Href & Hpl).
  exists head, args. rewrite window_prefix in Hw by lia. split; [done|]. split; [done|]. split; [done|]. split; [|done].
  intros Ht. rewrite <-(ref_bytes_prefix staged rest) by (specialize (Hin Ht); lia). by apply Href.
Qed.

Lemma refs_prefix staged rest objs hashes fin refs : scanned hashSize (staged ++ rest) objs hashes fin -> fin <= Z.of_nat (length staged) ->
  refs_ok hashSize (staged ++ rest) objs refs -> refs_ok hashSize staged objs refs.
Proof.
  intros Hsc Hf (H1' & H2' & H3' & H4'). split; [done|]. split; [done|]. split; [done|]. intros r Hr.
  destruct (H4' r Hr) as (i & o & Hi & Ho & Hl & Hb). exists i, o. destruct (H1' r Hr) as (_ & i' & o' & Hi' & Ho' & Ht).
  assert (i' = i) as -> by lia. rewrite Ho in Ho'. injection Ho' as <-.
  destruct (proj2 Hsc i o Ho) as [Hspan _ _ Hhd _]. pose proof (header_inside _ _ _ Hhd ltac:(lia) Ht) as Hin.
  pose proof (entry_end_le _ _ _ _ i Hsc (lookup_lt_Some _ _ _ Ho)) as Hef.
  rewrite <-(ref_bytes_prefix staged rest) by lia. done.
Qed.

(** A scanned entry is what the index says it is, once the index is cut off at the trailer. *)
Lemma scanned_object whole p rest i o :
  (forall t s b, wf_hash hashSize (HasherSum t s b)) -> scanned hashSize whole (p_objs p) (p_hashes p) (p_end p) ->
  whole = p_staged p ++ rest -> (Z.to_nat (p_end p) <= length (p_staged p))%nat -> p_objs p !! i = Some o -> object_ok p i o.
Proof.
  intros Hw Hsc Hwhole Hend Hi. destruct (proj2 Hsc i o Hi) as [Hspan Hty Hba Hhd (out & Hz & Hsz & Hh)].
  pose proof (entry_end_le _ _ _ _ i Hsc (lookup_lt_Some _ _ _ Hi)) as Hef.
  split; [done| |done|].
  { rewrite Hwhole in Hhd. eapply header_prefix; [| |exact Hhd]; lia. }
  exists out. split; [|split; [done|]].
  - unfold section_of. rewrite (list_lookup_total_correct _ _ _ Hi). fold (entry_end (p_objs p) (p_end p) i).
    rewrite Hwhole, window_prefix in Hz; [exact Hz|]. lia.
  - intros Hd. rewrite Hd in Hh. unfold hash_at. rewrite Hh. cbn [hash_slot].
    destruct (Hw (i_typ o) (i_size o) out) as (Hwl & Hwf & _). rewrite <-Hwl at 1. rewrite take_app_length. by rewrite Hwf.
Qed.

(** The header is still there in what was staged. *)
Lemma staged_header (hdr d1 got : bytes) n m : length hdr = 12%nat -> (12 <= n <= length (hdr ++ d1))%nat -> (m <= 8)%nat ->
  take 4 (drop m (take n (hdr ++ d1) ++ got)) = take 4 (drop m hdr).
Proof.
  intros Hh Hn Hm. rewrite drop_app_le by (rewrite length_take; lia).
  rewrite take_app_le by (rewrite length_drop, length_take; lia).
  rewrite skipn_firstn_comm, take_take. rewrite drop_app_le by lia.
  rewrite take_app_le by (rewrite length_drop; lia). f_equal. lia.
Qed.

Lemma scan_indexed d p rest :
  (forall t s b, wf_hash hashSize (HasherSum t s b)) -> scanPack hashSize d = Ok (p, rest) ->
  d = p_staged p ++ rest /\ indexed p.
Proof.
  intros Hw Hr. unfold scanPack in Hr.
  apply res_bind_ok in Hr as ([hdr d1] & Hh & Hr). apply wrap_ok, ReadFull_ok in Hh as [-> Hhl].
  destruct (bytes_eqb _ _) eqn:Emagic; [|done]. cbn [negb] in Hr. destruct (negb _ && _) eqn:Ever; [done|]. destruct (_ >? _) eqn:Ec; [done|]. b2p.
  change (Z.shiftl 1 31 - 1) with (2 ^ 31 - 1) in Ec.
  apply res_bind_ok in Hr as ([[[objs hashes] refs] d2] & He & Hr). set (whole := hdr ++ d1) in *.
  pose proof (be_get_range (take 4 (drop 8 hdr))) as Hcr. set (count := be_get (take 4 (drop 8 hdr))) in *.
  apply (scan_entries_ok hashSize whole (Z.to_nat count) [] [] [] d1 12) in He as (fin & [Hsl Hs] & Hrefs & Hp & Hfin & Hlen & Hfirst);
    [|split; [done|by intros i o Hi]|split; [by intros r Hr'%elem_of_nil|split; [by intros i o Hi|split; [constructor|by intros r Hr'%elem_of_nil]]]| |cbn; lia].
  2:{ split; [lia|]. unfold whole. rewrite length_app, Hhl. split; [|lia]. change (Z.to_nat 12) with 12%nat. by rewrite <-Hhl, drop_app_length. }
  cbn [length] in Hlen. destruct Hp as (Hfin0 & Hd2 & Hpl).
  replace (length whole - length d2)%nat with (Z.to_nat fin) in Hr by lia.
  set (read := take (Z.to_nat fin) whole) in *.
  assert (Hrl : length read = Z.to_nat fin) by (unfold read; rewrite length_take; lia).
  apply res_bind_ok in Hr as ([got d3] & Ht & Hr). apply wrap_ok, ReadFull_ok in Ht as [Hd3 Hgl].
  destruct (bytes_eqb got _) eqn:Eg; [|done]. cbn [negb] in Hr. unfold bytes_eqb in Eg. b2p.
  destruct (linkKids objs) as [start kids] eqn:El. injection Hr as <- <-. cbn.
  assert (Hwhole : whole = (read ++ got) ++ d3).
  { rewrite <-app_assoc, <-Hd3, Hd2. unfold read. by rewrite take_drop. }
  split; [exact Hwhole|].
  assert (Hbases : forall i o, objs !! i = Some o -> -1 <= i_base o < Z.of_nat i \/ i_base o = -1).
  { intros i o Hi. destruct (eo_base _ _ _ _ _ _ _ (Hs i o Hi)) as [Hb1 Hb2].
    destruct (decide (i_typ o = OFSDeltaObject)) as [He|He]; [left; specialize (Hb1 He); lia|right; auto]. }
  split; cbn.
  - intros i o Hi. eapply (scanned_object whole _ d3); [done| |exact Hwhole|cbn; rewrite length_app; lia|exact Hi].
    cbn. rewrite Hrl, Z2Nat.id by lia. by split.
  - unfold bases_in_range. rewrite Forall_lookup. intros i o Hi. apply lookup_lt_Some in Hi as Hl. destruct (Hbases i o Hi); lia.
  - exact El.
  - rewrite Hwhole in Hrefs, Hs. eapply refs_prefix in Hrefs; [|by split|rewrite length_app; lia].
    destruct Hrefs as (H1' & H2' & H3' & H4'). split; [|split; [|split]].
    + intros r Hr. rewrite stable_sort_perm in Hr. by apply H1'.
    + intros i o Hi Ht. destruct (H2' i o Hi Ht) as (r & Hr & Hx). exists r. by rewrite stable_sort_perm.
    + by rewrite stable_sort_perm.
    + intros r Hr. rewrite stable_sort_perm in Hr. by apply H4'.
  - apply stable_sort_sorted.
    + intros x y. apply bytes_leb_total.
    + intros x y z. apply bytes_leb_trans.
  - assert (Hst : forall m, (m <= 8)%nat -> take 4 (drop m (read ++ got)) = take 4 (drop m hdr)).
    { intros m Hm. unfold read, whole. apply staged_header; [done| |done]. unfold whole in *. lia. }
    rewrite <-(drop_0 (read ++ got)), !Hst by lia. unfold bytes_eqb in Emagic. b2p. split; [exact Emagic|].
    apply andb_false_iff in Ever as [Ever|Ever]; rewrite negb_false_iff in Ever; b2p; set_solver.
  - rewrite Hrl, Z2Nat.id by lia. exact Hfirst.
  - rewrite Hlen. unfold read, whole. rewrite staged_header by (rewrite ?Hhl; unfold whole in *; lia). unfold count. lia.
  - rewrite Hlen. lia.
  - replace (Z.to_nat (Z.of_nat (length read))) with (length read) by lia.
    by rewrite drop_app_length, take_app_length.
Qed.
End index.

(** ** Properties *)

(** The compressed rows are the children: for every object of a pack,
    slicing the one array of children between two row starts yields exactly the
    positions of the OFS deltas based on it, each once and in pack order. *)
Theorem children_rows `{GoGit} (p : incomingPack) (b : nat) :
  bases_in_range (p_objs p) -> linkKids (p_objs p) = (p_kidStart p, p_kids p) -> (b < length (p_objs p))%nat ->
  ofs_kids p b = kids_among (p_objs p) (length (p_objs p)) (Z.of_nat b).
Proof.
  intros Hr Hl Hb. pose proof (rows_spec (p_objs p) Hr b Hb) as Hs. rewrite Hl in Hs. exact Hs.
Qed.

(** C19: a pack that scans was read exactly: the bytes staged are the bytes of
    the input up to and including its trailer, and not one more; the trailer is
    the checksum of what precedes it; and the announced objects follow each other
    from the header to the trailer, each where the index says. The bytes of an
    entry's header, read as git documents them, say the type and the size in the
    index, and what a delta is based on: for an OFS delta the earlier entry that
    begins exactly the announced distance before it, for a REF delta the name in
    the table of REF deltas, in which each of them is once. Its stream inflates to
    exactly that size, and the index has the hash of an object stored whole. *)
Theorem scanPack_sound `{GoGit, Zlib, PackHash} (hashSize : nat) (input rest : bytes) (p : incomingPack) :
  ZlibLaws -> (forall t s b, wf_hash hashSize (HasherSum t s b)) ->
  scanPack hashSize input = Ok (p, rest) -> input = p_staged p ++ rest /\ indexed hashSize p.
Proof. intros Hz Hw Hr. by apply scan_indexed. Qed.

(** ** Witnesses *)

Definition obj_on (off base : Z) : incomingObject :=
  {| i_offset := off; i_content := off + 2; i_size := 3; i_base := base; i_typ := if 0 <=? base then OFSDeltaObject else BlobObject |}.
Definition forest : list incomingObject := [obj_on 12 (-1); obj_on 20 0; obj_on 30 (-1); obj_on 40 0; obj_on 50 1; obj_on 60 0].
Definition forest_pack : @incomingPack toy_git :=
  {| p_staged := []; p_end := 70; p_objs := forest; p_hashes := []; p_kidStart := fst (linkKids forest);
     p_kids := snd (linkKids forest); p_refs := [] |}.

Lemma children_rows_witness : bases_in_range forest /\ ofs_kids forest_pack 0 = [1; 3; 5].
Proof.
  assert (Hr : bases_in_range forest) by (repeat constructor; cbn; lia).
  split; [exact Hr|]. rewrite (children_rows forest_pack 0 Hr eq_refl); [reflexivity|cbn; lia].
Defined.

Definition hello_scan : @incomingPack toy_git * bytes :=
  match @scanPack toy_git toy_zlib toy_pack_hash 20 (hello_pack ++ bs "more") with
  | Ok r => r
  | Err _ => (forest_pack, [])
  end.

Lemma scanPack_sound_witness :
  hello_pack ++ bs "more" = p_staged (fst hello_scan) ++ bs "more" /\
  @indexed toy_git toy_zlib toy_pack_hash 20 (fst hello_scan).
Proof.
  apply (@scanPack_sound toy_git toy_zlib toy_pack_hash 20 (hello_pack ++ bs "more") (bs "more") (fst hello_scan)
    toy_zlib_laws toy_hasher_width).
  reflexivity.
Defined.
