(* ===== verification/Resolver.v ===== *)
(** * Resolving a pushed pack into containers (internal/storage/tigris/indexpack.go, packwriter.go)

    The resolver walks every delta tree of a scanned pack from its base and
    writes each object into the container being built; [packWriter] drives it.
    Temporary files can be created and written; [binName] and [cueName] are the
    names [os.CreateTemp] picks for the files of each container. *)

From S2P Require Import Prelude GoLib S3 Codec Cue PackTable PackIndex Storer Objects Delta Segment PackScan.

Definition bodyMemLimit : Z := Z.shiftl 8 20.
Definition bodyMemBudget : Z := Z.shiftl 64 20.
Definition maxIncomingDeltaDepth : Z := 4095.

(** The model's bound on the recursion of [walk], one more than the deepest chain it follows. *)
Definition walkFuel : nat := Z.to_nat 4096.

(** [body]: the bytes, and whether they are in memory or in a temp file. *)
Record body := { b_bytes : bytes; b_mem : bool }.

(** [bodySink]: [k_file] holds everything once the body has spilled. *)
Record bodySink := { k_limit : Z; k_buf : bytes; k_file : option bytes; k_n : Z }.

Definition sink_write (p : bytes) (s : bodySink) : bodySink :=
  let s := match k_file s with
           | None => if blen (k_buf s) + blen p >? k_limit s
                     then {| k_limit := k_limit s; k_buf := []; k_file := Some (k_buf s); k_n := k_n s |} else s
           | Some _ => s
           end in
  match k_file s with
  | Some f => {| k_limit := k_limit s; k_buf := k_buf s; k_file := Some (f ++ p); k_n := k_n s + blen p |}
  | None => {| k_limit := k_limit s; k_buf := k_buf s ++ p; k_file := None; k_n := k_n s + blen p |}
  end.

Section resolver.
Context `{GoGit, Zstd, Sha256, S3, GoGitObjects, Zlib, PackHash}.
Context (c : config) (pc : packPolicy) (binName cueName : Z -> bytes).

(** What the resolver has placed: the entry of the pack, the container's serial,
    the stored links under it, and the object.  [r_hist], [r_sealed], [r_peak] and
    [r_asked], the storer at each request for a base, record what happened; the
    code keeps none of them. *)
Record placement := { pl_idx : Z; pl_serial : Z; pl_chain : nat; pl_obj : storedObject }.

Record resolver := {
  r_st : St; r_mem : Z; r_seg : option packSegment; r_serial : Z; r_refs : list refDelta;
  r_hist : list placement; r_sealed : list packSegment; r_peak : Z; r_asked : list St;
}.

Abbreviation R := (io resolver).

Definition with_mem (m : Z) (r : resolver) : resolver :=
  {| r_st := r_st r; r_mem := m; r_seg := r_seg r; r_serial := r_serial r; r_refs := r_refs r;
     r_hist := r_hist r; r_sealed := r_sealed r; r_peak := Z.max (r_peak r) m; r_asked := r_asked r |}.
Definition with_seg (st : St) (g : option packSegment) (serial : Z) (sealed : list packSegment) (r : resolver) : resolver :=
  {| r_st := st; r_mem := r_mem r; r_seg := g; r_serial := serial; r_refs := r_refs r;
     r_hist := r_hist r; r_sealed := sealed; r_peak := r_peak r; r_asked := r_asked r |}.
Definition with_refs_of (refs : list refDelta) (r : resolver) : resolver :=
  {| r_st := r_st r; r_mem := r_mem r; r_seg := r_seg r; r_serial := r_serial r; r_refs := refs;
     r_hist := r_hist r; r_sealed := r_sealed r; r_peak := r_peak r; r_asked := r_asked r |}.
Definition placed_obj (g : packSegment) (pl : placement) (r : resolver) : resolver :=
  {| r_st := r_st r; r_mem := r_mem r; r_seg := Some g; r_serial := r_serial r; r_refs := r_refs r;
     r_hist := r_hist r ++ [pl]; r_sealed := r_sealed r; r_peak := r_peak r; r_asked := r_asked r |}.

(** ** Bodies *)

Definition newSink (r : resolver) : bodySink :=
  {| k_limit := Z.min bodyMemLimit (bodyMemBudget - r_mem r); k_buf := []; k_file := None; k_n := 0 |}.

Definition finish (s : bodySink) : R body := fun r =>
  match k_file s with
  | Some f => (Ok {| b_bytes := f; b_mem := false |}, r)
  | None => (Ok {| b_bytes := k_buf s; b_mem := true |}, with_mem (r_mem r + blen (k_buf s)) r)
  end.

(** A whole body through a new sink; [io.Copy] never writes an empty chunk. *)
Definition collect (data : bytes) : R body := fun r =>
  finish (if blen data =? 0 then newSink r else sink_write data (newSink r)) r.

(** [release], of a body that has not been released before. *)
Definition release (b : body) : R unit :=
  modify (fun r => if b_mem b then with_mem (r_mem r - blen (b_bytes b)) r else r).
Definition release_if (live : bool) (b : body) : R unit := if live then release b else ret tt.

Section pack.
Context (p : incomingPack).

Definition obj_at (i : Z) : incomingObject := p_objs p !!! Z.to_nat i.

Definition inflateBody (i : Z) : R body :=
  let! (out, _) := lift (inflateTo (obj_at i) (section_of p (Z.to_nat i))) in
  collect out.

Definition children_of (i : option nat) (h : Hash) : R (list Z) := fun r =>
  let '(out, refs) := children p i h (r_refs r) in (Ok out, with_refs_of refs r).

(** [incomingPack.open]: a reader limited to the declared size. *)
Definition open_entry (i : Z) : payloadObject :=
  match Inflate (i_size (obj_at i)) (section_of p (Z.to_nat i)) with
  | Ok (out, _) => {| p_size := i_size (obj_at i); p_body := out; p_fail := None |}
  | Err e => {| p_size := i_size (obj_at i); p_body := []; p_fail := Some (Wrapf e) |}
  end.

Definition from_body (b : body) : payloadObject := {| p_size := blen (b_bytes b); p_body := b_bytes b; p_fail := None |}.

(** ** Containers *)

Definition byteLimit : Z := if pc_maxPackBytes pc <=? 0 then maxPackBytes else pc_maxPackBytes pc.

Definition on_st {A} (m : io St A) : R A := fun r =>
  let '(x, st) := m (r_st r) in (x, with_seg st (r_seg r) (r_serial r) (r_sealed r) r).

(** Sealing the full container, whose serial is the current one. *)
Definition seal_full (admitted : bool) (g : packSegment) : R unit :=
  do! modify (fun r => with_seg (r_st r) None (r_serial r) (r_sealed r ++ [g]) r) in
  let! serial := gets r_serial in
  on_st (seal c admitted (cueName serial) g).

(** The cap seals before the add. *)
Definition make_room (admitted : bool) (raw : Z) : R unit :=
  let! seg := gets r_seg in
  match seg with
  | Some g => if (0 <? length (g_recs g))%nat && (i64 (g_offset g + raw) >? byteLimit)
              then seal_full admitted g else ret tt
  | None => ret tt
  end.

Definition ensure_segment : R unit :=
  let! seg := gets r_seg in
  match seg with
  | Some _ => ret tt
  | None => modify (fun r => let n := i32 (r_serial r + 1) in with_seg (r_st r) (Some (newPackSegment (binName n))) n (r_sealed r) r)
  end.

(** The client's delta is kept only against a base in the same container. *)
Definition stored_form (so : storedObject) (delta : option body) (baseHash : Hash) (baseSerial : Z) (baseChain : nat)
    (serial : Z) : storedObject * nat :=
  match delta with
  | Some d =>
      if (baseSerial =? serial) && (blen (b_bytes d) <? so_raw so) && (baseChain <? maxDeltaDepth)%nat
      then ({| so_payload := from_body d; so_hash := so_hash so; so_typ := so_typ so; so_raw := so_raw so; so_base := baseHash |},
            S baseChain)
      else (so, 0%nat)
  | None => (so, 0%nat)
  end.

Definition place (admitted : bool) (idx : Z) (so : storedObject) (delta : option body) (baseHash : Hash)
    (baseSerial : Z) (baseChain : nat) : R (Z * nat) :=
  do! make_room admitted (so_raw so) in
  do! ensure_segment in
  fun r =>
    let '(so, chain) := stored_form so delta baseHash baseSerial baseChain (r_serial r) in
    match r_seg r with
    | None => (Err Panic, r)
    | Some g =>
        match add pc so g with
        | Err e => (Err e, r)
        | Ok g => (Ok (r_serial r, chain),
                   placed_obj g {| pl_idx := idx; pl_serial := r_serial r; pl_chain := chain; pl_obj := so |} r)
        end
    end.

(** ** The walk *)

Context (admitted : bool).

Definition malformed_pack : goerr := Wrapf (Sent ErrMalformedPackfile).

(** The loop of [walk]; [live] says whether the base is still to be released. *)
Fixpoint walk_kids (walk : list Z -> Hash -> Z -> body -> Z -> nat -> Z -> R unit) (kids : list Z) (live : bool)
    (baseHash : Hash) (typ : Z) (base : body) (baseSerial : Z) (baseChain : nat) (depth : Z) : R unit :=
  match kids with
  | [] => release_if live base
  | k :: rest =>
      try! r := inflateBody k in
      match r with
      | Err e => do! release_if live base in fail e
      | Ok delta =>
          match apply typ (b_bytes base) (b_bytes delta) with
          | Err e => do! release delta in do! release_if live base in fail (Wrapf e)
          | Ok (plain, h) =>
              let! out := collect plain in
              let last := match rest with [] => true | _ => false end in
              do! release_if (live && last) base in
              let live := live && negb last in
              let so := {| so_payload := from_body out; so_hash := h; so_typ := typ; so_raw := blen (b_bytes out); so_base := ZeroHash |} in
              try! r := place admitted k so (Some delta) baseHash baseSerial baseChain in
              do! release delta in
              match r with
              | Err e => do! release out in do! release_if live base in fail e
              | Ok (serial, chain) =>
                  let! grand := children_of (Some (Z.to_nat k)) h in
                  match grand with
                  | [] =>
                      do! release out in
                      walk_kids walk rest live baseHash typ base baseSerial baseChain depth
                  | _ =>
                      try! r := walk grand h typ out serial chain (depth + 1) in
                      match r with
                      | Err e => do! release_if live base in fail e
                      | Ok _ => walk_kids walk rest live baseHash typ base baseSerial baseChain depth
                      end
                  end
              end
          end
      end
  end.

Fixpoint walk (fuel : nat) (kids : list Z) (baseHash : Hash) (typ : Z) (base : body) (baseSerial : Z)
    (baseChain : nat) (depth : Z) : R unit :=
  match fuel with
  | O => do! release base in fail OutOfFuel
  | S f =>
      if depth >? maxIncomingDeltaDepth then do! release base in fail malformed_pack
      else walk_kids (walk f) kids true baseHash typ base baseSerial baseChain depth
  end.

Definition root (i : Z) : R unit :=
  let o := obj_at i in
  let h := hash_at (c_hashLen c) p (Z.to_nat i) in
  let! kids := children_of (Some (Z.to_nat i)) h in
  match kids with
  | [] =>
      let so := {| so_payload := open_entry i; so_hash := h; so_typ := i_typ o; so_raw := i_size o; so_base := ZeroHash |} in
      do! place admitted i so None ZeroHash (-1) 0 in ret tt
  | _ =>
      let! b := inflateBody i in
      let so := {| so_payload := from_body b; so_hash := h; so_typ := i_typ o; so_raw := i_size o; so_base := ZeroHash |} in
      try! r := place admitted i so None ZeroHash (-1) 0 in
      match r with
      | Err e => do! release b in fail e
      | Ok (serial, _) => walk walkFuel kids h (i_typ o) b serial 0 1
      end
  end.

Fixpoint run_roots (idxs : list nat) : R unit :=
  match idxs with
  | [] => ret tt
  | i :: idxs =>
      if IsDelta (i_typ (obj_at (Z.of_nat i))) then run_roots idxs
      else do! root (Z.of_nat i) in run_roots idxs
  end.

(** [externalBase]: the repository itself. *)
Definition asked_base (r : resolver) : resolver :=
  {| r_st := r_st r; r_mem := r_mem r; r_seg := r_seg r; r_serial := r_serial r; r_refs := r_refs r;
     r_hist := r_hist r; r_sealed := r_sealed r; r_peak := r_peak r; r_asked := r_asked r ++ [r_st r] |}.
Definition externalBase (h : Hash) : R object :=
  do! modify asked_base in on_st (EncodedObject c AnyObject h).

Fixpoint run_refs (ks : list nat) : R unit :=
  match ks with
  | [] => ret tt
  | k :: ks =>
      let! rd := gets (fun r => r_refs r !!! k) in
      if rd_done rd then run_refs ks else
      let h := rd_base rd in
      let! obj := wrapping (externalBase h) in
      let! b := collect (eo_bytes obj) in
      let! kids := children_of None h in
      do! walk walkFuel kids h (eo_typ obj) b (-1) 0 1 in
      run_refs ks
  end.

Definition run : R unit :=
  do! run_roots (seq 0 (length (p_objs p))) in
  run_refs (seq 0 (length (p_refs p))).
End pack.

(** ** The pack writer *)

(** [packWriter]: [w_staged] is what has been given to the staging file. *)
Record packWriter := { w_staged : bytes; w_pack : option incomingPack; w_bad : bool; w_done : bool }.

Definition PackfileWriter : packWriter := {| w_staged := []; w_pack := None; w_bad := false; w_done := false |}.

Definition pw_Write (p : bytes) (w : packWriter) : packWriter :=
  {| w_staged := w_staged w ++ p; w_pack := w_pack w; w_bad := w_bad w; w_done := w_done w |}.

(** [ReadPack]: also what it leaves unread.  On an error nothing staged is used again. *)
Definition ReadPack (input : bytes) (w : packWriter) : gores bytes * packWriter :=
  match scanPack (c_hashLen c) input with
  | Err e => (Err (Wrapf e), {| w_staged := w_staged w; w_pack := w_pack w; w_bad := true; w_done := w_done w |})
  | Ok (p, rest) => (Ok rest, {| w_staged := w_staged w ++ p_staged p; w_pack := Some p; w_bad := w_bad w; w_done := w_done w |})
  end.

Definition start_resolver (p : incomingPack) (s : St) : resolver :=
  {| r_st := s; r_mem := 0; r_seg := None; r_serial := 0; r_refs := p_refs p; r_hist := []; r_sealed := []; r_peak := 0; r_asked := [] |}.

(** [run], then the last container. *)
Definition resolve_pack (p : incomingPack) (admitted : bool) : io St unit := fun s =>
  let '(x, r) := run p admitted (start_resolver p s) in
  match x with
  | Err e => (Err (Wrapf e), r_st r)
  | Ok _ =>
      match r_seg r with
      | None => (Ok tt, r_st r)
      | Some last => seal c admitted (cueName (r_serial r)) last (r_st r)
      end
  end.

Definition pw_Close (admitted : bool) (w : packWriter) : io St (gores unit * packWriter) :=
  let w' := {| w_staged := w_staged w; w_pack := w_pack w; w_bad := w_bad w; w_done := true |} in
  if w_done w then ret (Ok tt, w) else
  if w_bad w then ret (Ok tt, w') else
  if blen (w_staged w) =? 0 then ret (Ok tt, w') else
  match match w_pack w with
        | Some p => Ok p
        | None => let? (p, _) := wrap (scanPack (c_hashLen c) (w_staged w)) in Ok p
        end with
  | Err e => ret (Err e, w')
  | Ok p => try! r := resolve_pack p admitted in ret (r, w')
  end.
End resolver.
