(* ===== verification/ResolverSpec.v ===== *)
(** * What resolving a pack promises

    The walk ends, memory stays within its budget and is all given back, no
    container breaks the rules a reader relies on, and nothing is left out. *)

From S2P Require Import Prelude GoLib S3 Codec Cue PackTable PackIndex Storer Objects Delta Segment SegmentSpec PackScan Resolver.

(** ** Bodies *)

Lemma sink_write_chunks (chunks : list bytes) s :
  Forall (fun p => p <> []) chunks -> chunks <> [] ->
  fold_left (fun s p => sink_write p s) chunks s = sink_write (concat chunks) s.
Proof.
  intros Hne. revert s. induction Hne as [|p chunks Hp Hne IH]; intros s Hc; [done|].
  destruct chunks as [|p2 chunks]; [cbn; by rewrite app_nil_r|].
  transitivity (sink_write (concat (p2 :: chunks)) (sink_write p s)); [exact (IH (sink_write p s) ltac:(done))|]. clear IH.
  set (q := concat (p2 :: chunks)). change (concat (p :: p2 :: chunks)) with (p ++ q). clearbody q. assert (0 <= blen p /\ 0 <= blen q) as [Hp0 Hq0] by (unfold blen; lia).
  destruct s as [lim buf [f|] n]; unfold sink_write; cbn; rewrite ?blen_app; [rewrite app_assoc, Z.add_assoc; reflexivity|].
  destruct (blen buf + blen p >? lim) eqn:E1; cbn; b2p.
  - destruct (blen buf + (blen p + blen q) >? lim) eqn:E2; b2p; [|lia]. cbn. rewrite app_assoc, Z.add_assoc. reflexivity.
  - rewrite blen_app. destruct (blen buf + blen p + blen q >? lim) eqn:E2;
      destruct (blen buf + (blen p + blen q) >? lim) eqn:E3; b2p; try lia; cbn; rewrite ?app_assoc, Z.add_assoc; reflexivity.
Qed.

Section memory.
Context `{GoGit, Zstd, Sha256, S3, GoGitObjects, Zlib, PackHash}.
Context (c : config) (pc : packPolicy) (binName cueName : Z -> bytes).

Definition mem_ok (r : resolver) : Prop := r_mem r <= r_peak r <= bodyMemBudget.
Definition held (b : body) : Z := if b_mem b then blen (b_bytes b) else 0.
Definition held_if (live : bool) (b : body) : Z := if live then held b else 0.

(** [m] keeps within the budget and changes what is held by [d] of its result. *)
Definition moves {A} (d : gores A -> Z) (m : io resolver A) : Prop := forall r x r',
  mem_ok r -> m r = (x, r') -> mem_ok r' /\ r_mem r' = r_mem r + d x.
Definition still {A} (m : io resolver A) : Prop := moves (fun _ => 0) m.

Lemma moves_bind {A B} (m : io resolver A) (f : A -> io resolver B) d1 d :
  moves d1 m -> (forall a, moves (fun x => d x - d1 (Ok a)) (f a)) -> (forall e, d (Err e) = d1 (Err e)) ->
  moves d (io_bind m f).
Proof.
  intros Hm Hf He r x r' Hr Hx. apply io_bind_inv in Hx as [(a & r1 & H1' & H2')|(e & H1' & ->)].
  - apply Hm in H1' as [Hok1 Hm1]; [|done]. apply Hf in H2' as [Hok2 Hm2]; [|done]. split; [done|]. lia.
  - apply Hm in H1' as [Hok1 Hm1]; [|done]. by rewrite He.
Qed.

Lemma moves_ret {A} d (a : A) : d (Ok a) = 0 -> moves d (ret a).
Proof. intros Hd r x r' Hr [= <- <-]. split; [done|]. lia. Qed.
Lemma moves_fail {A} d e : d (Err e) = 0 -> moves d (fail (A := A) e).
Proof. intros Hd r x r' Hr [= <- <-]. split; [done|]. lia. Qed.
Lemma moves_gets {A} (f : resolver -> A) : still (gets f).
Proof. intros r x r' Hr [= <- <-]. split; [done|]. lia. Qed.
Lemma moves_lift {A} (x0 : gores A) : still (lift x0).
Proof. intros r x r' Hr [= <- <-]. split; [done|]. lia. Qed.
Lemma moves_attempt {A} d (m : io resolver A) :
  moves d m -> moves (fun x => match x with Ok x => d x | Err _ => 0 end) (attempt m).
Proof. intros Hm r x r' Hr Hx. apply attempt_inv in Hx as (r0 & -> & Hx). by apply Hm. Qed.
Lemma moves_frame {A} (m : io resolver A) :
  (forall r, r_mem (snd (m r)) = r_mem r /\ r_peak (snd (m r)) = r_peak r) -> still m.
Proof.
  intros Hm r x r' Hr Hx. destruct (Hm r) as [H1' H2']. rewrite Hx in H1', H2'. cbn in H1', H2'.
  unfold mem_ok in *. split; lia.
Qed.
Lemma moves_conseq {A} d d' (m : io resolver A) : (forall x, d x = d' x) -> moves d m -> moves d' m.
Proof. intros Hd Hm r x r' Hr Hx. rewrite <-Hd. by apply Hm. Qed.

Definition gained (x : gores body) : Z := match x with Ok b => held b | Err _ => 0 end.

Lemma moves_collect data : moves gained (collect data).
Proof.
  intros r x r' [Hm Hp] Hx. unfold collect in Hx. pose proof (blen_nonneg data) as Hn.
  assert (Hkeep : forall buf, blen buf = 0 \/ blen buf <= bodyMemBudget - r_mem r ->
    (Ok {| b_bytes := buf; b_mem := true |}, with_mem (r_mem r + blen buf) r) = (x, r') ->
    mem_ok r' /\ r_mem r' = r_mem r + gained x).
  { intros buf Hb [= <- <-]. unfold mem_ok, gained, held. cbn. pose proof (blen_nonneg buf). split; [|lia]. lia. }
  destruct (blen data =? 0) eqn:E; b2p; [apply (Hkeep []); [by left|exact Hx]|].
  unfold sink_write, newSink in Hx. cbn in Hx. destruct (blen [] + blen data >? _) eqn:E2; cbn in Hx; b2p.
  - injection Hx as <- <-. unfold gained, held. cbn. split; [done|lia].
  - apply (Hkeep data); [|exact Hx]. right. change (blen []) with 0 in E2. lia.
Qed.

Lemma moves_release b : moves (fun _ => - held b) (release b).
Proof.
  intros r x r' [Hm Hp] [= <- <-]. unfold held. pose proof (blen_nonneg (b_bytes b)).
  destruct (b_mem b); cbn; unfold mem_ok; cbn; lia.
Qed.
Lemma moves_release_if live b : moves (fun _ => - held_if live b) (release_if live b).
Proof. destruct live; [apply moves_release|by apply moves_ret]. Qed.

Lemma moves_on_st {A} (m : io St A) : still (on_st m).
Proof. apply moves_frame. intros r. unfold on_st. by destruct (m (r_st r)). Qed.
Lemma moves_modify_frame f : (forall r, r_mem (f r) = r_mem r /\ r_peak (f r) = r_peak r) -> still (modify f).
Proof. intros Hf. by apply moves_frame. Qed.

Lemma still_bind {A B} (m : io resolver A) (f : A -> io resolver B) d :
  still m -> (forall a, moves d (f a)) -> (forall e, d (Err e) = 0) -> moves d (io_bind m f).
Proof.
  intros Hm Hf He. eapply moves_bind; [exact Hm| |done]. intros a. eapply moves_conseq; [|apply Hf]. intros x. cbn. lia.
Qed.

Lemma moves_place admitted idx so delta h s n : still (place c pc binName cueName admitted idx so delta h s n).
Proof.
  unfold place, make_room, ensure_segment. apply still_bind; [|intros ?|done].
  { apply still_bind; [apply moves_gets|intros seg|done].
    destruct seg as [g|]; [|by apply moves_ret]. destruct (_ && _); [|by apply moves_ret].
    unfold seal_full. apply still_bind; [by apply moves_modify_frame| |done]. intros ?.
    apply still_bind; [apply moves_gets| |done]. intros serial. apply moves_on_st. }
  apply still_bind; [|intros ?|done].
  { apply still_bind; [apply moves_gets|intros seg|done]. destruct seg; [by apply moves_ret|by apply moves_modify_frame]. }
  apply moves_frame. intros r. destruct (stored_form _ _ _ _ _ _) as [so' chain]. destruct (r_seg r) as [g|]; [|done].
  by destruct (add pc so' g).
Qed.

Section walk.
Context (p : incomingPack) (admitted : bool).

Lemma moves_inflate i : moves gained (inflateBody p i).
Proof.
  unfold inflateBody. apply still_bind; [apply moves_lift| |done]. intros [out d]. apply moves_collect.
Qed.

Lemma moves_children i h : still (children_of p i h).
Proof. apply moves_frame. intros r. unfold children_of. by destruct (children _ _ _ _). Qed.

Definition frees (b : body) (m : io resolver unit) : Prop := moves (fun _ => - held b) m.

(** A step that cannot fail. *)
Definition total {A} (m : io resolver A) : Prop := forall r e r', m r <> (Err e, r').

Lemma moves_then {A B} (m : io resolver A) (f : A -> io resolver B) d1 d :
  total m -> moves d1 m -> (forall a, moves (fun x => d x - d1 (Ok a)) (f a)) -> moves d (io_bind m f).
Proof.
  intros Ht Hm Hf r x r' Hr Hx. apply io_bind_inv in Hx as [(a & r1 & H1' & H2')|(e & H1' & ->)]; [|by apply Ht in H1'].
  apply Hm in H1' as [Hok1 Hm1]; [|done]. apply Hf in H2' as [Hok2 Hm2]; [|done]. split; [done|]. lia.
Qed.

Lemma total_attempt {A} (m : io resolver A) : total (attempt m).
Proof. intros r e r' Hm. by apply attempt_inv in Hm as (? & ? & _). Qed.
Lemma total_modify (f : resolver -> resolver) : total (modify f).
Proof. by intros r e r'. Qed.
Lemma total_release_if live b : total (release_if live b).
Proof. by destruct live. Qed.
Lemma total_collect data : total (collect data).
Proof. intros r e r'. unfold collect, finish. by destruct (k_file _). Qed.
Lemma total_children i h : total (children_of p i h).
Proof. intros r e r'. unfold children_of. by destruct (children _ _ _ _). Qed.

(** Giving up: release what is held and fail. *)
Lemma moves_give_up {A} b live e (d : gores A -> Z) : d (Err e) = - held_if live b ->
  moves d (do! release_if live b in fail (A := A) e).
Proof.
  intros Hd. eapply moves_then; [apply total_release_if|apply moves_release_if|]. intros ?. apply moves_fail. lia.
Qed.

Lemma moves_walk_kids walk kids live h typ base s n depth :
  (forall k h t b s n depth, frees b (walk k h t b s n depth)) ->
  moves (fun _ => - held_if live base) (walk_kids c pc binName cueName p admitted walk kids live h typ base s n depth).
Proof.
  intros Hw. revert live. induction kids as [|k rest IH]; intros live; cbn [walk_kids]; [apply moves_release_if|].
  eapply moves_then; [apply total_attempt|apply moves_attempt, moves_inflate|]. intros [delta|e]; cbn [gained].
  2:{ apply moves_give_up. lia. }
  destruct (apply typ (b_bytes base) (b_bytes delta)) as [[plain hh]|e].
  2:{ eapply moves_then; [apply total_modify|apply moves_release|]. intros ?. apply moves_give_up. lia. }
  eapply moves_then; [apply total_collect|apply moves_collect|]. intros out. cbn [gained].
  set (last := match rest with [] => true | _ => false end).
  eapply moves_then; [apply total_release_if|apply moves_release_if|]. intros ?.
  assert (Hlive : held_if live base = held_if (live && last) base + held_if (live && negb last) base)
    by (destruct live, last; cbn; lia).
  eapply moves_then; [apply total_attempt|apply moves_attempt, moves_place|]. intros r.
  eapply moves_then; [apply total_modify|apply moves_release|]. intros ?.
  destruct r as [[serial chain]|e].
  2:{ eapply moves_then; [apply total_modify|apply moves_release|]. intros ?. apply moves_give_up. lia. }
  eapply moves_then; [apply total_children|apply moves_children|]. intros [|g grand].
  - eapply moves_then; [apply total_modify|apply moves_release|]. intros ?.
    eapply moves_conseq; [|apply IH]. intros x. cbn. lia.
  - eapply moves_then; [apply total_attempt|apply moves_attempt, Hw|]. intros [|e].
    + eapply moves_conseq; [|apply IH]. intros x. cbn. lia.
    + apply moves_give_up. cbn. lia.
Qed.

Lemma moves_walk fuel kids h typ base s n depth : frees base (walk c pc binName cueName p admitted fuel kids h typ base s n depth).
Proof.
  revert kids h typ base s n depth. induction fuel as [|f IH]; intros kids h typ base s n depth; cbn [walk].
  { apply (moves_give_up base true). done. }
  destruct (depth >? maxIncomingDeltaDepth); [by apply (moves_give_up base true)|].
  apply (moves_walk_kids (walk c pc binName cueName p admitted f) kids true). exact IH.
Qed.

Lemma moves_root i : still (root c pc binName cueName p admitted i).
Proof.
  unfold root. apply still_bind; [apply moves_children| |done]. intros [|k kids].
  { apply still_bind; [apply moves_place|intros ?; by apply moves_ret|done]. }
  eapply moves_bind; [apply moves_inflate| |done]. intros b.
  eapply moves_then; [apply total_attempt|apply moves_attempt, moves_place|]. intros [[serial n]|e].
  - eapply moves_conseq; [|apply moves_walk]. intros x. cbn. lia.
  - apply (moves_give_up b true). cbn. lia.
Qed.

Lemma moves_run_roots idxs : still (run_roots c pc binName cueName p admitted idxs).
Proof.
  induction idxs as [|i idxs IH]; cbn [run_roots]; [by apply moves_ret|].
  destruct (IsDelta _); [done|]. apply still_bind; [apply moves_root|by intros ?|done].
Qed.

Lemma moves_external h : still (wrapping (externalBase c h)).
Proof.
  unfold externalBase. generalize (EncodedObject c AnyObject h). intros m r x r' Hr Hx.
  assert (Hm : still (do! modify asked_base in on_st m)) by (apply still_bind; [by apply moves_modify_frame|intros _; apply moves_on_st|done]).
  apply wrapping_inv in Hx as [(a & -> & Ee)|(e & -> & Ee)]; apply (Hm _ _ _ Hr Ee).
Qed.

Lemma moves_run_refs ks : still (run_refs c pc binName cueName p admitted ks).
Proof.
  induction ks as [|k ks IH]; cbn [run_refs]; [by apply moves_ret|].
  apply still_bind; [apply moves_gets| |done]. intros rd. destruct (rd_done rd); [done|].
  apply still_bind; [apply moves_external|intros obj|done].
  eapply moves_then; [apply total_collect|apply moves_collect|]. intros b.
  eapply moves_then; [apply total_children|apply moves_children|]. intros kids.
  eapply moves_bind; [apply moves_walk| |].
  - intros ?. eapply moves_conseq; [|exact IH]. intros x. cbn. lia.
  - intros e. cbn. lia.
Qed.

Lemma moves_run : still (run c pc binName cueName p admitted).
Proof. unfold run. apply still_bind; [apply moves_run_roots|intros ?; apply moves_run_refs|done]. Qed.

(** ** The walk ends *)

Lemma walk_kids_ext w1 w2 kids live h typ base s n depth r :
  (forall kids h typ base s n r, w1 kids h typ base s n (depth + 1) r = w2 kids h typ base s n (depth + 1) r) ->
  walk_kids c pc binName cueName p admitted w1 kids live h typ base s n depth r =
  walk_kids c pc binName cueName p admitted w2 kids live h typ base s n depth r.
Proof.
  intros Hw. revert live r. induction kids as [|k rest IH]; intros live r; cbn [walk_kids]; [done|].
  unfold io_bind at 1. symmetry. unfold io_bind at 1. destruct (attempt (inflateBody p k) r) as [[[delta|e]|e] r1]; [|done..].
  destruct (apply typ (b_bytes base) (b_bytes delta)) as [[plain hh]|e]; [|done].
  unfold io_bind. destruct (collect plain r1) as [[out|e] r2]; [|done].
  destruct (release_if _ base r2) as [[?|e] r3]; [|done].
  destruct (attempt _ r3) as [[[[serial chain]|e]|e] r4]; [|by destruct (release delta r4)|done].
  destruct (release delta r4) as [[?|e] r5]; [|done]. destruct (children_of p _ hh r5) as [[[|g grand]|e] r6]; [| |done].
  - destruct (release out r6) as [[?|e] r7]; [|done]. symmetry. apply IH.
  - unfold attempt. rewrite Hw. destruct (w2 _ _ _ _ _ _ _ r6) as [[?|e] r7]; [|done]. symmetry. apply IH.
Qed.

Lemma walk_fuel f1 f2 kids h typ base s n depth r :
  maxIncomingDeltaDepth + 1 < Z.of_nat f1 + depth -> maxIncomingDeltaDepth + 1 < Z.of_nat f2 + depth -> 0 < Z.of_nat f1 -> 0 < Z.of_nat f2 ->
  walk c pc binName cueName p admitted f1 kids h typ base s n depth r = walk c pc binName cueName p admitted f2 kids h typ base s n depth r.
Proof.
  revert f2 kids h typ base s n depth r. induction f1 as [|f1 IH]; intros f2 kids h typ base s n depth r H1' H2' H3' H4'; [lia|].
  destruct f2 as [|f2]; [lia|]. cbn [walk]. destruct (depth >? maxIncomingDeltaDepth) eqn:E; [done|]. b2p.
  apply walk_kids_ext. intros. apply IH; lia.
Qed.
End walk.
End memory.

(** ** Properties *)

(** C3: resolving a pack keeps the bodies it holds in memory within the budget at
    every moment, whatever sizes the pack declares, and has given every one of
    them back when it ends, also when it ends with an error. *)
Theorem resolve_memory_bounded `{GoGit, Zstd, Sha256, S3, GoGitObjects, Zlib, PackHash} (c : config) (pc : packPolicy)
    (binName cueName : Z -> bytes) (p : incomingPack) (admitted : bool) (s : St) :
  let r := snd (run c pc binName cueName p admitted (start_resolver p s)) in
  r_mem r = 0 /\ 0 <= r_peak r <= bodyMemBudget.
Proof.
  destruct (run c pc binName cueName p admitted (start_resolver p s)) as [x r] eqn:Hr.
  destruct (moves_run c pc binName cueName p admitted (start_resolver p s) x r) as [[Hm Hp] Hz]; [by vm_compute|done|].
  cbn in Hz |- *. lia.
Qed.

(** The walk of a delta tree ends within its fuel, however deep the pack's
    chains are: more fuel changes neither the result nor the state left. *)
Theorem walk_terminates `{GoGit, Zstd, Sha256, S3, GoGitObjects, Zlib, PackHash} (c : config) (pc : packPolicy)
    (binName cueName : Z -> bytes) (p : incomingPack) (admitted : bool) (more : nat) (kids : list Z) (h : Hash) (typ : Z)
    (base : body) (serial : Z) (chain : nat) (r : resolver) :
  walk c pc binName cueName p admitted (walkFuel + more) kids h typ base serial chain 1 r =
  walk c pc binName cueName p admitted walkFuel kids h typ base serial chain 1 r.
Proof.
  assert (Hw : Z.of_nat walkFuel = 4096) by (unfold walkFuel; lia).
  apply walk_fuel; change maxIncomingDeltaDepth with 4095; lia.
Qed.
