(* ===== verification/ResolverContent.v ===== *)
(** * What ends up in the containers

    A specification of what each entry of a pack is, and the invariant that
    every container the resolver builds, sealed or not, holds exactly such
    objects: whole, or as a delta against an earlier object of the same
    container. *)

From S2P Require Import Prelude GoLib S3 Codec Cue PackTable PackIndex Storer Objects Delta Segment SegmentSpec PackScan PackScanSpec Resolver ResolverSpec.

Section content.
Context `{GoGit, Zstd, Sha256, S3, GoGitObjects, Zlib, PackHash, !ZstdLaws, !ZlibLaws}.
Context (c : config) (pc : packPolicy) (binName cueName : Z -> bytes).
Context (p : incomingPack) (admitted : bool).
(** The states of the storer in which the push has asked it for a base. *)
Context (asked : list St).

(** ** What an entry is *)

(** What the repository answered for a base that is not in the pack, when it was asked. *)
Definition outside (h : Hash) (typ : Z) (body : bytes) : Prop :=
  exists (s s' : St) o, s ∈ asked /\ EncodedObject c AnyObject h s = (Ok o, s') /\ typ = eo_typ o /\ body = eo_bytes o.

(** [git_object i h typ body]: entry [i] is the object [body] of type [typ] with hash [h]. *)
Inductive git_object : Z -> Hash -> Z -> bytes -> Prop :=
  | git_whole i o out :
      p_objs p !! i = Some o -> IsDelta (i_typ o) = false -> ZlibStream (section_of p i) out ->
      git_object (Z.of_nat i) (hash_at (c_hashLen c) p i) (i_typ o) out
  | git_ofs i o bh typ base delta out h :
      p_objs p !! i = Some o -> i_typ o = OFSDeltaObject -> git_object (i_base o) bh typ base ->
      ZlibStream (section_of p i) delta -> apply typ base delta = Ok (out, h) -> git_object (Z.of_nat i) h typ out
  | git_ref i o r j typ base delta out h :
      p_objs p !! i = Some o -> i_typ o = REFDeltaObject -> r ∈ p_refs p -> rd_idx r = Z.of_nat i ->
      git_object j (rd_base r) typ base ->
      ZlibStream (section_of p i) delta -> apply typ base delta = Ok (out, h) -> git_object (Z.of_nat i) h typ out
  | git_thin i o r typ base delta out h :
      p_objs p !! i = Some o -> i_typ o = REFDeltaObject -> r ∈ p_refs p -> rd_idx r = Z.of_nat i ->
      outside (rd_base r) typ base ->
      ZlibStream (section_of p i) delta -> apply typ base delta = Ok (out, h) -> git_object (Z.of_nat i) h typ out.

(** ** What a container holds *)

Definition objs_of (serial : Z) (hist : list placement) : list storedObject :=
  pl_obj <$> filter (fun pl => pl_serial pl = serial) hist.

(** [holds hist pl body]: reading back [pl] inside its container gives [body]. *)
Inductive holds (hist : list placement) : placement -> bytes -> Prop :=
  | holds_whole pl :
      so_base (pl_obj pl) = ZeroHash -> pl_chain pl = 0%nat -> so_raw (pl_obj pl) = blen (p_body (so_payload (pl_obj pl))) ->
      holds hist pl (p_body (so_payload (pl_obj pl)))
  | holds_delta pl pl' base out :
      pl' ∈ hist -> pl_serial pl' = pl_serial pl -> so_hash (pl_obj pl') = so_base (pl_obj pl) ->
      so_typ (pl_obj pl') = so_typ (pl_obj pl) -> pl_chain pl = S (pl_chain pl') -> holds hist pl' base ->
      apply (so_typ (pl_obj pl)) base (p_body (so_payload (pl_obj pl))) = Ok (out, so_hash (pl_obj pl)) ->
      so_raw (pl_obj pl) = blen out -> holds hist pl out.

Record sound (hist : list placement) (serial : Z) (pl : placement) : Prop := {
  so_serial : 1 <= pl_serial pl <= serial;
  so_chain : (pl_chain pl <= maxDeltaDepth)%nat;
  so_shrinks : pl_chain pl <> 0%nat -> p_size (so_payload (pl_obj pl)) < so_raw (pl_obj pl);
  so_size : p_size (so_payload (pl_obj pl)) <= so_raw (pl_obj pl);
  so_content : exists plain, git_object (pl_idx pl) (so_hash (pl_obj pl)) (so_typ (pl_obj pl)) plain /\
    holds hist pl plain;
}.

Definition small (hist : list placement) : Prop := Forall (fun pl => so_raw (pl_obj pl) < 2 ^ 62) hist /\ byteLimit pc < 2 ^ 62.

(** The containers built so far, the open one last: container [n] is what adding
    the objects placed under serial [n] makes. *)
Record core_of (hist : list placement) (seg : option packSegment) (serial : Z) (sealed : list packSegment) : Prop := {
  co_serial : serial = Z.of_nat (length (sealed ++ option_list seg));
  co_segs : forall j g, (sealed ++ option_list seg) !! j = Some g ->
    add_all pc (objs_of (Z.of_nat (S j)) hist) (newPackSegment (binName (Z.of_nat (S j)))) = Ok g;
  co_hist : forall pl, pl ∈ hist -> sound hist serial pl;
  co_limit : small hist ->
    Forall (fun g => (length (g_recs g) <= 1)%nat \/ g_offset g <= byteLimit pc) (sealed ++ option_list seg);
}.

Lemma holds_mono hist hist' pl b : hist ⊆ hist' -> holds hist pl b -> holds hist' pl b.
Proof.
  intros Hs. induction 1 as [pl Hb Hc|pl pl' base out Hin Hsr Hh Ht Hc _ IH Ha Hr]; [by apply holds_whole|].
  eapply holds_delta; eauto.
Qed.

Lemma sound_mono hist hist' n n' pl : hist ⊆ hist' -> n <= n' -> sound hist n pl -> sound hist' n' pl.
Proof.
  intros Hs Hn [S1 S2 S3' S4 (plain & Hg & Hh)]. split; [lia|done|done|done|].
  exists plain. split; [done|]. by apply (holds_mono hist).
Qed.

Lemma objs_of_snoc serial hist pl :
  objs_of serial (hist ++ [pl]) = objs_of serial hist ++ (if decide (pl_serial pl = serial) then [pl_obj pl] else []).
Proof. unfold objs_of. rewrite filter_app, fmap_app, filter_cons, filter_nil. by case_decide. Qed.

Lemma objs_of_none serial hist : (forall pl, pl ∈ hist -> pl_serial pl <> serial) -> objs_of serial hist = [].
Proof. intros Hn. unfold objs_of. rewrite filter_none; [done|]. by rewrite Forall_forall. Qed.

Lemma objs_of_in serial hist so : so ∈ objs_of serial hist -> exists pl, pl ∈ hist /\ pl_serial pl = serial /\ pl_obj pl = so.
Proof.
  unfold objs_of. intros (pl & -> & Hp)%list_elem_of_fmap. apply list_elem_of_filter in Hp as [Hs Hp]. eauto.
Qed.

Lemma add_all_snoc sos so g g1 g2 : add_all pc sos g = Ok g1 -> add pc so g1 = Ok g2 -> add_all pc (sos ++ [so]) g = Ok g2.
Proof.
  revert g. induction sos as [|x sos IH]; intros g Ha Hb; cbn [add_all app] in *.
  { injection Ha as ->. by rewrite Hb. }
  apply res_bind_ok in Ha as (g' & Hx & Ha). rewrite Hx. by apply IH.
Qed.

(** A container that has one record is as big as that record. *)
Lemma lone_record sos path g B :
  add_all pc sos (newPackSegment path) = Ok g -> (length (g_recs g) <= 1)%nat ->
  (forall so, so ∈ sos -> p_size (so_payload so) < B) -> 0 < B -> g_offset g < B.
Proof.
  intros Ha Hl Hs HB. destruct (add_all_spec pc sos _ g [] [] Ha) as (_ & Ht & _ & Hf); [done..|by constructor|].
  cbn [app] in Hf. destruct (g_recs g) as [|r [|]]; cbn in Hl, Ht; [lia| |lia].
  apply Forall2_cons_inv_r in Hf as (so & sos' & Hst & Hf & ->). apply Forall2_nil_inv_r in Hf as ->.
  destruct Ht as (_ & _ & Ht). pose proof (sa_small _ _ _ Hst). specialize (Hs so ltac:(left)). lia.
Qed.

Lemma core_seal hist g serial sealed : core_of hist (Some g) serial sealed -> core_of hist None serial (sealed ++ [g]).
Proof. intros [C1 C2 C3 C4]. split; cbn [option_list] in *; rewrite ?app_nil_r; done. Qed.

Lemma core_open hist serial sealed : core_of hist None serial sealed ->
  core_of hist (Some (newPackSegment (binName (serial + 1)))) (serial + 1) sealed.
Proof.
  intros [C1 C2 C3 C4]. cbn [option_list] in *. rewrite app_nil_r in *. split; cbn [option_list].
  - rewrite length_app. cbn. lia.
  - intros j g Hj. apply lookup_app_Some in Hj as [Hj|[Hle Hj]]; [by apply C2|].
    apply list_lookup_singleton_Some in Hj as [Hz <-]. replace (Z.of_nat (S j)) with (serial + 1) by lia. rewrite objs_of_none; [done|].
    intros pl Hp. destruct (C3 pl Hp). lia.
  - intros pl Hp. eapply sound_mono; [done| |by apply C3]. lia.
  - intros Hs. apply Forall_app. split; [by apply C4|]. constructor; [left; cbn; lia|constructor].
Qed.

Lemma core_add hist g g' serial sealed pl :
  core_of hist (Some g) serial sealed -> add pc (pl_obj pl) g = Ok g' -> pl_serial pl = serial ->
  sound (hist ++ [pl]) serial pl -> g_recs g = [] \/ i64 (g_offset g + so_raw (pl_obj pl)) <= byteLimit pc ->
  core_of (hist ++ [pl]) (Some g') serial sealed.
Proof.
  intros [C1 C2 C3 C4] Ha Hps Hsound Hlim. cbn [option_list] in *. rewrite length_app in C1. cbn in C1.
  assert (Hg : add_all pc (objs_of serial hist) (newPackSegment (binName serial)) = Ok g).
  { replace serial with (Z.of_nat (S (length sealed))) by lia. apply C2. by rewrite lookup_app_r, Nat.sub_diag by lia. }
  split; cbn [option_list].
  - rewrite length_app. cbn. lia.
  - intros j x Hj. rewrite objs_of_snoc. apply lookup_app_Some in Hj as [Hj|[Hle Hj]].
    + apply lookup_lt_Some in Hj as Hlt. rewrite decide_False by lia. rewrite app_nil_r. apply C2. by apply lookup_app_l_Some.
    + apply list_lookup_singleton_Some in Hj as [Hz <-]. replace (Z.of_nat (S j)) with serial by lia.
      rewrite decide_True by done. by eapply add_all_snoc.
  - intros q [Hq|Hq]%elem_of_app; [|by apply list_elem_of_singleton in Hq as ->].
    eapply sound_mono; [|reflexivity|by apply C3]. set_solver.
  - intros [Hs Hb]. apply Forall_app in Hs as [Hs Hpl]. specialize (C4 (conj Hs Hb)).
    apply Forall_app in C4 as [C4 Cg]. apply Forall_app. split; [done|]. apply Forall_inv in Cg. constructor; [|constructor].
    destruct (add_all_spec pc _ _ g [] [] Hg) as (Hoff & _ & _ & _); [done..|by constructor|].
    destruct (add_spec pc _ _ _ Hoff Ha) as (out & r & _ & Hrecs & Hoff' & _ & _ & Hst0 & _ & Hst). rewrite Hrecs, length_app. cbn [length].
    destruct Hlim as [->|Hlim]; [left; cbn; lia|]. right.
    assert (Ho : g_offset g < 2 ^ 62).
    { destruct Cg as [Hl|Hl]; [|lia]. eapply lone_record; [exact Hg|done| |done]. intros so Hso.
      apply objs_of_in in Hso as (q & Hq & _ & <-). rewrite Forall_forall in Hs. specialize (Hs q Hq). destruct (C3 q Hq). cbn in Hs. lia. }
    apply Forall_inv in Hpl.
    pose proof (blen_nonneg (g_bin g)). pose proof (sa_small _ _ _ Hst). pose proof (sa_size _ _ _ Hst). pose proof (blen_nonneg (p_body (so_payload (pl_obj pl)))). destruct Hsound as [_ _ _ Hsz _].
    assert (Hi : i64 (g_offset g + so_raw (pl_obj pl)) = g_offset g + so_raw (pl_obj pl)) by (unfold i64; rewrite Z.mod_small; lia).
    rewrite Hi in Hlim. lia.
Qed.

(** ** One object placed *)

Definition core (r : resolver) : Prop := core_of (r_hist r) (r_seg r) (r_serial r) (r_sealed r).

(** The base of a delta: out of every container, or placed there with these bytes. *)
Definition base_at (hist : list placement) (h : Hash) (typ : Z) (b : bytes) (serial : Z) (chain : nat) : Prop :=
  serial = -1 \/ exists pl, pl ∈ hist /\ so_hash (pl_obj pl) = h /\ so_typ (pl_obj pl) = typ /\
    pl_serial pl = serial /\ pl_chain pl = chain /\ holds hist pl b.

Lemma base_at_mono hist hist' h typ b serial chain : hist ⊆ hist' ->
  base_at hist h typ b serial chain -> base_at hist' h typ b serial chain.
Proof.
  intros Hs [->|(pl & Hin & Hh & Ht & Hp & Hc & Ho)]; [by left|right]. exists pl.
  split; [by apply Hs|]. do 4 (split; [done|]). by eapply holds_mono.
Qed.

(** What [place] needs of an object, and of the delta it may store instead. *)
Record placeable (hist : list placement) (k : Z) (so : storedObject) (plain : bytes) (delta : option body)
    (bh : Hash) (bs : Z) (bn : nat) : Prop := {
  pb_object : git_object k (so_hash so) (so_typ so) plain;
  pb_raw : so_raw so = blen plain;
  pb_whole : so_base so = ZeroHash /\ p_body (so_payload so) = plain /\ p_size (so_payload so) = so_raw so;
  pb_delta d : delta = Some d -> exists base, apply (so_typ so) base (b_bytes d) = Ok (plain, so_hash so) /\
    base_at hist bh (so_typ so) base bs bn;
}.

Definition roomy (r : resolver) : Prop := r_serial r <= Z.of_nat (length (r_hist r)) < 2 ^ 31 - 1.

(** The container has room for [raw] more bytes, or is empty. *)
Definition room_for (raw : Z) (g : packSegment) : Prop := g_recs g = [] \/ i64 (g_offset g + raw) <= byteLimit pc.

Lemma make_room_ok raw r x r' : core r -> make_room c pc cueName admitted raw r = (x, r') ->
  core r' /\ r_refs r' = r_refs r /\ r_hist r' = r_hist r /\ r_serial r' = r_serial r /\
  (forall g, r_seg r' = Some g -> room_for raw g).
Proof.
  intros Hc Hy. unfold core, make_room, io_bind, gets in *. destruct (r_seg r) as [g|] eqn:Eg.
  - destruct ((0 <? length (g_recs g))%nat && _) eqn:E.
    + unfold seal_full, io_bind, modify, gets, on_st in Hy. cbn -[seal] in Hy.
      match type of Hy with (let '(_, _) := ?e in _) = _ => destruct e as [z st] end. injection Hy as <- <-. cbn.
      split; [by apply core_seal|]. done.
    + injection Hy as <- <-. rewrite Eg. do 4 (split; [done|]). intros g' [= <-].
      apply andb_false_iff in E as [E|E]; b2p; [|by right]. left. destruct (g_recs g); [done|cbn in E; lia].
  - injection Hy as <- <-. rewrite Eg. do 4 (split; [done|]). done.
Qed.

Lemma ensure_segment_ok raw r : core r -> r_serial r < 2 ^ 31 - 1 -> (forall g, r_seg r = Some g -> room_for raw g) ->
  exists r' g, ensure_segment binName r = (Ok tt, r') /\ core r' /\ r_refs r' = r_refs r /\ r_hist r' = r_hist r /\
    r_seg r' = Some g /\ r_serial r' <= r_serial r + 1 /\ room_for raw g.
Proof.
  intros Hc Hser Hl. unfold core, ensure_segment, io_bind, gets, modify in *. destruct (r_seg r) as [g|] eqn:Eg.
  - exists r, g. rewrite Eg. split; [done|]. do 4 (split; [done|]). split; [lia|]. by apply Hl.
  - assert (Hi : i32 (r_serial r + 1) = r_serial r + 1).
    { pose proof (co_serial _ _ _ _ Hc). unfold i32. rewrite Z.mod_small; lia. }
    eexists _, _. split; [reflexivity|]. cbn. rewrite Hi. split; [by apply core_open|].
    do 3 (split; [done|]). split; [lia|]. by left.
Qed.

Lemma stored_form_ok hist k so plain delta bh bs bn serial so' chain :
  placeable hist k so plain delta bh bs bn -> 0 <= serial ->
  stored_form so delta bh bs bn serial = (so', chain) ->
  let pl := {| pl_idx := k; pl_serial := serial; pl_chain := chain; pl_obj := so' |} in
  so_hash so' = so_hash so /\ so_typ so' = so_typ so /\ so_raw so' = so_raw so /\ (chain <= maxDeltaDepth)%nat /\
  (chain <> 0%nat -> p_size (so_payload so') < so_raw so) /\ p_size (so_payload so') <= so_raw so /\
  holds (hist ++ [pl]) pl plain.
Proof.
  intros [Hob Hraw (Hbase & Hbody & Hsize) Hdelta] Hser Hf. unfold stored_form in Hf.
  assert (Hw : forall h, holds h {| pl_idx := k; pl_serial := serial; pl_chain := 0; pl_obj := so |} plain).
  { intros h. rewrite <-Hbody. apply (holds_whole h {| pl_idx := k; pl_serial := serial; pl_chain := 0; pl_obj := so |}); [done|done|]. cbn. by rewrite Hbody. }
  destruct delta as [d|]; [destruct (_ && _) eqn:E|]; injection Hf as <- <-; cbn;
    (do 3 (split; [done|])); [|split; [unfold maxDeltaDepth; lia|]; split; [done|]; split; [lia|apply Hw]..].
  rewrite !andb_true_iff in E. destruct E as [[E1 E2] E3]. b2p. split; [unfold maxDeltaDepth in *; lia|]. split; [done|]. split; [lia|].
  destruct (Hdelta d eq_refl) as (base & Ha & [->|(pl & Hin & Hph & Hpt & Hps & Hpc & Hpo)]); [lia|].
  eapply (holds_delta _ _ pl base); cbn; [set_solver|congruence|done|done|congruence| |exact Ha|exact Hraw].
  eapply holds_mono; [|exact Hpo]. set_solver.
Qed.

Lemma place_ok k so plain delta bh bs bn r x r' :
  core r -> roomy r -> placeable (r_hist r) k so plain delta bh bs bn ->
  place c pc binName cueName admitted k so delta bh bs bn r = (x, r') ->
  core r' /\ r_refs r' = r_refs r /\
  match x with
  | Ok (s, n) => exists pl, r_hist r' = r_hist r ++ [pl] /\ pl_idx pl = k /\
      base_at (r_hist r') (so_hash so) (so_typ so) plain s n /\ r_serial r' <= Z.of_nat (length (r_hist r')) /\
      (delta = None -> n = 0%nat)
  | Err _ => r_hist r' = r_hist r
  end.
Proof.
  intros Hc [Hser Hroom] Hpb Hx. unfold place in Hx. apply io_bind_inv in Hx as [([] & r1 & H1' & Hx)|(e & H1' & ->)].
  2:{ by apply make_room_ok in H1' as (H1' & H2' & H3' & _). }
  apply make_room_ok in H1' as (Hc1 & Hrefs1 & Hh1 & Hs1 & Hl1); [|done].
  destruct (ensure_segment_ok (so_raw so) r1 Hc1 ltac:(lia) Hl1) as (r2 & g & Heq & Hc2 & Hrefs2 & Hh2 & Hg2 & Hs2 & Hlim).
  unfold io_bind in Hx. rewrite Heq in Hx. clear Heq.
  unfold core in Hc2. rewrite Hg2 in Hc2, Hx. pose proof (co_serial _ _ _ _ Hc2) as Hn. cbn [option_list] in Hn. rewrite length_app in Hn. cbn in Hn.
  destruct (stored_form so delta bh bs bn (r_serial r2)) as [so' chain] eqn:Ef.
  assert (Hnone : delta = None -> chain = 0%nat) by (intros ->; by injection Ef).
  apply (stored_form_ok (r_hist r)) with (k := k) (plain := plain) in Ef as (F1 & F2 & F3 & F4 & F5 & F6 & F7); [|done|lia].
  set (pl := {| pl_idx := k; pl_serial := r_serial r2; pl_chain := chain; pl_obj := so' |}) in *.
  destruct (add pc so' g) as [g'|e] eqn:Ea; injection Hx as <- <-.
  2:{ unfold core. rewrite Hg2. split; [exact Hc2|]. split; congruence. }
  rewrite Hh1 in Hh2. split; [|split; [cbn; congruence|]].
  - unfold core. cbn. rewrite Hh2. rewrite Hh2 in Hc2. eapply core_add; [exact Hc2|exact Ea|done| |cbn; by rewrite F3].
    split; cbn; [lia|done|by rewrite F3|by rewrite F3|]. exists plain. rewrite F1, F2. by destruct Hpb.
  - exists pl. cbn. rewrite Hh2. split; [done|]. split; [done|]. split.
    + right. exists pl. split; [set_solver|]. cbn. rewrite F1, F2. done.
    + split; [rewrite length_app; cbn; lia|exact Hnone].
Qed.
End content.
