(* ===== verification/ResolverComplete.v ===== *)
(** * Nothing is left out

    The schedule of the resolver: which entries have been handed out as
    children, which of them wait on the stack of the walk, and that a run that
    succeeds has placed every entry of the pack once. *)

From S2P Require Import Prelude GoLib S3 Codec Cue PackTable PackIndex Storer Objects Delta Segment SegmentSpec PackScan PackScanSpec Resolver ResolverSpec ResolverContent.

(** ** Handing out children *)

Section children.
Context `{GoGit, Zlib, PackHash}.
Context (hashSize : nat) (p : incomingPack).

Definition shape (refs : list refDelta) : list (Hash * Z) := (fun r => (rd_base r, rd_idx r)) <$> refs.

(** [out] was taken from the REF entries of [h]. *)
Record marks (h : Hash) (out : list Z) (refs refs' : list refDelta) : Prop := {
  mk_refs : Forall2 (fun r r' => rd_base r' = rd_base r /\ rd_idx r' = rd_idx r /\
    rd_done r' = rd_done r || bool_decide (rd_idx r ∈ out)) refs refs';
  mk_out k : k ∈ out -> exists r, r ∈ refs /\ rd_idx r = k /\ rd_base r = h /\ rd_done r = false;
  mk_nodup : NoDup out;
}.

Lemma marks_shape h out refs refs' : marks h out refs refs' -> shape refs' = shape refs.
Proof.
  intros [Hf _ _]. unfold shape. induction Hf as [|r r' l l' (Hb & Hi & _) _ IH]; [done|]. rewrite !fmap_cons, IH. by rewrite Hb, Hi.
Qed.

Lemma marks_nil h refs : marks h [] refs refs.
Proof.
  split; [|by intros k Hk%elem_of_nil|constructor]. induction refs as [|r refs IH]; constructor; [|done].
  rewrite bool_decide_false by apply not_elem_of_nil. by rewrite orb_false_r.
Qed.

Lemma marks_app h out k l l' : marks h out l l' -> NoDup (rd_idx <$> k ++ l) -> marks h out (k ++ l) (k ++ l').
Proof.
  intros [M1 M2 M3] Hn. split; [|intros i Hi; destruct (M2 i Hi) as (r & Hr & ?); exists r; split; [set_solver|done]|done].
  apply Forall2_app; [|done]. rewrite fmap_app, NoDup_app in Hn. destruct Hn as (_ & Hd & _).
  assert (Hk : forall r, r ∈ k -> rd_idx r ∉ out).
  { intros r Hr Ho. destruct (M2 _ Ho) as (r' & Hr' & Hi & _). eapply Hd; [by apply list_elem_of_fmap_2|]. rewrite <-Hi. by apply list_elem_of_fmap_2. }
  clear -Hk. induction k as [|r k IH]; constructor; [|apply IH; intros r' Hr'; apply Hk; set_solver].
  rewrite bool_decide_false by (apply Hk; left). by rewrite orb_false_r.
Qed.

Lemma take_refs_marks h refs out refs' : take_refs h refs = (out, refs') -> NoDup (rd_idx <$> refs) -> marks h out refs refs'.
Proof.
  revert out refs'. induction refs as [|r refs IH]; intros out refs' Ht Hn; cbn [take_refs] in Ht.
  { injection Ht as <- <-. apply marks_nil. }
  destruct (bool_decide (rd_base r = h)) eqn:Eb; [|injection Ht as <- <-; apply marks_nil]. b2p.
  destruct (take_refs h refs) as [out1 refs1] eqn:Et. pose proof Hn as Hn0. rewrite fmap_cons, NoDup_cons in Hn. destruct Hn as [Hr Hn].
  specialize (IH _ _ eq_refl Hn). destruct (rd_done r) eqn:Ed; injection Ht as <- <-.
  { apply (marks_app h out1 [r]); done. }
  destruct IH as [M1 M2 M3]. split.
  - constructor; cbn; [rewrite Ed, bool_decide_true by left; done|]. eapply Forall2_impl; [|intros x y Hxy; exact Hxy].
    assert (Hx : forall x, x ∈ refs -> bool_decide (rd_idx x ∈ rd_idx r :: out1) = bool_decide (rd_idx x ∈ out1)).
    { intros x Hx. apply bool_decide_ext. rewrite elem_of_cons. split; [intros [He|]; [|done]|by right].
      destruct Hr. rewrite <-He. by apply list_elem_of_fmap_2. }
    clear -M1 Hx. induction M1 as [|x y l l' Hxy _ IH]; constructor; [|apply IH; intros; apply Hx; by right].
    rewrite Hx by left. done.
  - intros k [->|Hk]%elem_of_cons; [exists r; split; [left|done]|]. destruct (M2 k Hk) as (x & Hx & ?). exists x. split; [by right|done].
  - constructor; [|done]. intros Ho. destruct (M2 _ Ho) as (x & Hx & Hi & _). apply Hr. rewrite <-Hi. by apply list_elem_of_fmap_2.
Qed.

Lemma children_marks i h refs out refs' :
  children p i h refs = (out, refs') -> NoDup (rd_idx <$> refs) ->
  exists more, out = (match i with Some i => ofs_kids p i | None => [] end) ++ more /\ marks h more refs refs'.
Proof.
  intros Hc Hn. unfold children in Hc. destruct (length refs =? 0)%nat.
  { injection Hc as <- <-. exists []. rewrite app_nil_r. split; [done|apply marks_nil]. }
  set (k := Search _ _) in Hc. destruct (take_refs h (drop k refs)) as [more rest] eqn:Et. injection Hc as <- <-.
  exists more. split; [done|]. rewrite <-(take_drop k refs) at 1. apply marks_app; [|by rewrite take_drop].
  apply take_refs_marks; [done|]. rewrite <-(take_drop k refs), fmap_app, NoDup_app in Hn. tauto.
Qed.

(** In a sorted table, every entry of [h] is in the run the search finds. *)
Lemma take_refs_all h refs out refs' q r :
  take_refs h refs = (out, refs') -> refs !! q = Some r -> (forall j x, (j <= q)%nat -> refs !! j = Some x -> rd_base x = h) ->
  rd_done r = false -> rd_idx r ∈ out.
Proof.
  revert out refs' q. induction refs as [|x refs IH]; intros out refs' q Ht Hq Hall Hd; [done|]. cbn [take_refs] in Ht.
  rewrite bool_decide_true in Ht by (apply (Hall 0%nat); [lia|done]). destruct (take_refs h refs) as [out1 refs1] eqn:Et.
  destruct q as [|q]; cbn in Hq.
  - injection Hq as ->. rewrite Hd in Ht. injection Ht as <- <-. left.
  - assert (Hin : rd_idx r ∈ out1) by (eapply (IH _ _ q); [done|done| |done]; intros j y Hj Hy; apply (Hall (S j)); [lia|done]).
    destruct (rd_done x); injection Ht as <- <-; [done|by right].
Qed.

Lemma shape_in refs refs0 r : shape refs = shape refs0 -> r ∈ refs -> exists r0, r0 ∈ refs0 /\ rd_base r0 = rd_base r /\ rd_idx r0 = rd_idx r.
Proof.
  intros Hs Hr. assert (Hi : (rd_base r, rd_idx r) ∈ shape refs) by (by apply (list_elem_of_fmap_2 (fun r => (rd_base r, rd_idx r)))).
  rewrite Hs in Hi. apply list_elem_of_fmap in Hi as (r0 & [= -> ->] & Hr0). eauto.
Qed.

Lemma shape_idx refs : rd_idx <$> refs = snd <$> shape refs.
Proof. unfold shape. rewrite <-list_fmap_compose. done. Qed.
Lemma shape_base refs : rd_base <$> refs = fst <$> shape refs.
Proof. unfold shape. rewrite <-list_fmap_compose. done. Qed.

Lemma children_finds `{!GoGitLaws} i h refs out refs' q r :
  (hashSize = 20 \/ hashSize = 32)%nat -> indexed hashSize p -> shape refs = shape (p_refs p) ->
  children p i h refs = (out, refs') -> refs !! q = Some r -> rd_base r = h -> rd_done r = false -> rd_idx r ∈ out.
Proof.
  intros Hhs Hix Hsh Hc Hq Hb Hd. unfold children in Hc. destruct (length refs =? 0)%nat eqn:E0; b2p; [by destruct refs|].
  set (le := fun k => bytes_leb (HashBytes h) (HashBytes (rd_base (refs !!! k)))) in Hc.
  assert (Hsorted : forall a b x y, (a <= b)%nat -> refs !! a = Some x -> refs !! b = Some y -> bytes_leb (HashBytes (rd_base x)) (HashBytes (rd_base y)) = true).
  { intros a b x y Hab Hx Hy. destruct (decide (a = b)) as [->|]; [rewrite Hx in Hy; injection Hy as ->; by destruct (bytes_leb_total (HashBytes (rd_base y)) (HashBytes (rd_base y)))|].
    assert (Hbx : forall j z, refs !! j = Some z -> exists z0, p_refs p !! j = Some z0 /\ rd_base z0 = rd_base z).
    { intros j z Hz. assert (Hf : (rd_base <$> refs) !! j = Some (rd_base z)) by (by rewrite list_lookup_fmap, Hz).
      rewrite shape_base, Hsh, <-shape_base, list_lookup_fmap in Hf. apply fmap_Some in Hf as (z0 & Hz0 & ->). eauto. }
    destruct (Hbx a x Hx) as (x0 & Hx0 & <-). destruct (Hbx b y Hy) as (y0 & Hy0 & <-).
    apply (StronglySorted_lookup_lt _ _ a b _ _ (in_sorted _ _ Hix) Hx0 Hy0). lia. }
  destruct (Search_spec (length refs) le) as (Hk & Hlo & Hhi).
  { intros a b [Hab Hbl] Ha. unfold le in *. destruct (lookup_lt_is_Some_2 refs a ltac:(lia)) as [x Hx].
    destruct (lookup_lt_is_Some_2 refs b Hbl) as [y Hy]. rewrite (list_lookup_total_correct _ _ _ Hx) in Ha.
    rewrite (list_lookup_total_correct _ _ _ Hy). eapply bytes_leb_trans; [exact Ha|]. by apply (Hsorted a b). }
  set (k := Search (length refs) le) in *. destruct (take_refs h (drop k refs)) as [more rest] eqn:Et. injection Hc as <- <-.
  apply elem_of_app. right.
  assert (Hkq : (k <= q)%nat).
  { destruct (decide (k <= q)%nat) as [|Hn]; [done|]. specialize (Hlo q ltac:(lia)). unfold le in Hlo.
    rewrite (list_lookup_total_correct _ _ _ Hq), Hb in Hlo. by destruct (bytes_leb_total (HashBytes h) (HashBytes h)); congruence. }
  eapply (take_refs_all _ _ _ _ (q - k)); [exact Et| | |done].
  { rewrite lookup_drop. by replace (k + (q - k))%nat with q by lia. }
  intros j x Hj Hx. rewrite lookup_drop in Hx.
  assert (H1' : bytes_leb (HashBytes h) (HashBytes (rd_base x)) = true).
  { assert (Hlt : (k + j < length refs)%nat) by (by eapply lookup_lt_Some). specialize (Hhi (k + j)%nat ltac:(lia)). unfold le in Hhi.
    by rewrite (list_lookup_total_correct _ _ _ Hx) in Hhi. }
  assert (H2' : bytes_leb (HashBytes (rd_base x)) (HashBytes h) = true).
  { rewrite <-Hb. apply (Hsorted (k + j)%nat q); [lia|done|done]. }
  pose proof (bytes_leb_antisym _ _ H1' H2') as He. rewrite <-Hb in He |- *.
  assert (Hkey : forall y, y ∈ refs -> FromBytes (HashBytes (rd_base y)) = Some (rd_base y)).
  { intros y Hy. destruct (shape_in _ _ _ Hsh Hy) as (y0 & Hy0 & <- & _). destruct (in_refs _ _ Hix) as (_ & _ & _ & Hw).
    destruct (Hw y0 Hy0) as (i0 & o0 & _ & _ & Hl & ->). set (ref := ref_bytes _ _ o0) in *. destruct (FromBytes ref) as [g|] eqn:Ef; cbn.
    - pose proof (FromBytes_bytes _ _ Ef) as ->. exact Ef.
    - assert (is_Some (FromBytes ref)) as [g Hg] by (apply FromBytes_width; lia). by rewrite Hg in Ef. }
  apply list_elem_of_lookup_2 in Hx, Hq. pose proof (Hkey _ Hx) as K1. rewrite <-He, (Hkey _ Hq) in K1. by injection K1.
Qed.

Lemma ofs_kids_spec b k : bases_in_range (p_objs p) -> linkKids (p_objs p) = (p_kidStart p, p_kids p) ->
  (b < length (p_objs p))%nat ->
  NoDup (ofs_kids p b) /\
  (k ∈ ofs_kids p b <-> exists j, k = Z.of_nat j /\ (j < length (p_objs p))%nat /\ i_base (p_objs p !!! j) = Z.of_nat b).
Proof.
  intros Hr Hl Hb. pose proof (rows_spec (p_objs p) Hr b Hb) as Hs. rewrite Hl in Hs. unfold ofs_kids. cbv zeta. rewrite Hs. unfold kids_among. split.
  - apply NoDup_fmap; [intros x y; lia|]. apply NoDup_filter, NoDup_seq.
  - rewrite list_elem_of_fmap. split.
    + intros (j & -> & Hj). apply list_elem_of_filter in Hj as [Hj Hq]. apply elem_of_seq in Hq. exists j. split; [done|]. split; [lia|done].
    + intros (j & -> & Hj & Hq). exists j. split; [done|]. apply list_elem_of_filter. split; [done|]. apply elem_of_seq. lia.
Qed.
End children.

(** ** The schedule *)

Section schedule.
Context `{GoGit, Zstd, Sha256, S3, GoGitObjects, Zlib, PackHash, !ZstdLaws, !ZlibLaws, !GoGitLaws}.
Context (c : config) (pc : packPolicy) (binName cueName : Z -> bytes).
Context (p : incomingPack) (admitted : bool) (asked : list St).
Context (Hix : indexed (c_hashLen c) p) (Hhs : (c_hashLen c = 20 \/ c_hashLen c = 32)%nat).

Definition entry_in (k : Z) : Prop := 0 <= k < Z.of_nat (length (p_objs p)).

(** [all]: the entries placed, and those handed out and still to be placed.
    [E]: the entries whose children have been handed out.  The entries before
    [n] have had their turn as roots. *)
Record sched (all : list Z) (E : Z -> Prop) (n : Z) (refs : list refDelta) : Prop := {
  sc_nodup : NoDup all;
  sc_range k : k ∈ all -> entry_in k;
  sc_ofs k : k ∈ all -> 0 <= i_base (obj_at p k) -> E (i_base (obj_at p k));
  sc_kids b k : E b -> k ∈ ofs_kids p (Z.to_nat b) -> k ∈ all;
  sc_entry b : E b -> entry_in b;
  sc_refs r : r ∈ refs -> rd_idx r ∈ all <-> rd_done r = true;
  sc_shape : shape refs = shape (p_refs p);
  sc_root k : entry_in k -> IsDelta (i_typ (obj_at p k)) = false -> k ∈ all <-> k < n;
}.

Lemma sched_perm all all' (E E' : Z -> Prop) n refs : all ≡ₚ all' -> (forall b, E b <-> E' b) ->
  sched all E n refs -> sched all' E' n refs.
Proof.
  intros Hp He [S1 S2 S3' S4 S5 S6 S7 S8]. split.
  - by rewrite <-Hp.
  - intros k. rewrite <-Hp. apply S2.
  - intros k. rewrite <-Hp, <-He. apply S3'.
  - intros b k. rewrite <-Hp, <-He. apply S4.
  - intros b. rewrite <-He. apply S5.
  - intros r Hr. rewrite <-Hp. by apply S6.
  - done.
  - intros k. rewrite <-Hp. apply S8.
Qed.

Lemma obj_entry k : entry_in k -> p_objs p !! Z.to_nat k = Some (obj_at p k) /\ Z.of_nat (Z.to_nat k) = k.
Proof. intros Hk. unfold obj_at, entry_in in *. split; [|lia]. apply list_lookup_lookup_total_lt. lia. Qed.

Lemma base_cases k : entry_in k ->
  (i_typ (obj_at p k) = OFSDeltaObject /\ 0 <= i_base (obj_at p k) < k) \/
  (i_typ (obj_at p k) <> OFSDeltaObject /\ i_base (obj_at p k) = -1).
Proof.
  intros Hk. destruct (obj_entry k Hk) as [Ho He]. destruct (oo_base _ _ _ _ (in_objects _ _ Hix _ _ Ho)) as [B1 B2].
  destruct (decide (i_typ (obj_at p k) = OFSDeltaObject)) as [Ht|Ht]; [left; split; [done|]; specialize (B1 Ht); lia|right; auto].
Qed.

Lemma ofs_kid b k : entry_in b -> k ∈ ofs_kids p (Z.to_nat b) <-> entry_in k /\ i_base (obj_at p k) = b.
Proof.
  intros Hb. destruct (ofs_kids_spec p (Z.to_nat b) k (in_bases _ _ Hix) (in_rows _ _ Hix)) as [_ ->]; [unfold entry_in in Hb; lia|].
  unfold obj_at, entry_in in *. split.
  - intros (j & -> & Hj & Hq). rewrite Nat2Z.id. split; lia.
  - intros [Hk Hq]. exists (Z.to_nat k). split; [lia|]. split; [lia|]. lia.
Qed.

Lemma ref_entry refs r : shape refs = shape (p_refs p) -> r ∈ refs ->
  entry_in (rd_idx r) /\ i_typ (obj_at p (rd_idx r)) = REFDeltaObject.
Proof.
  intros Hs Hr. destruct (shape_in _ _ _ Hs Hr) as (r0 & Hr0 & _ & <-). destruct (in_refs _ _ Hix) as (Hi & _).
  destruct (Hi r0 Hr0) as (_ & i & o & -> & Ho & Ht). unfold entry_in, obj_at. apply lookup_lt_Some in Ho as Hl. split; [lia|].
  rewrite Nat2Z.id. by rewrite (list_lookup_total_correct _ _ _ Ho).
Qed.

Lemma refs_nodup refs : shape refs = shape (p_refs p) -> NoDup (rd_idx <$> refs).
Proof. intros Hs. rewrite shape_idx, Hs, <-shape_idx. by destruct (in_refs _ _ Hix) as (_ & _ & Hn & _). Qed.

(** What [children_of] adds to the schedule. *)
Lemma sched_children all E n refs i h out refs' :
  sched all E n refs -> (forall k, i = Some k -> entry_in (Z.of_nat k) /\ ~ E (Z.of_nat k)) ->
  children p i h refs = (out, refs') ->
  sched (out ++ all) (fun b => E b \/ i = Some (Z.to_nat b) /\ entry_in b) n refs'.
Proof.
  intros [S1 S2 S3' S4 S5 S6 S7 S8] Hi Hc. pose proof (refs_nodup _ S7) as Hn.
  destruct (children_marks p i h refs out refs' Hc Hn) as (more & -> & Hm). set (ofs := match i with Some i => _ | None => [] end).
  assert (Hofs : forall k, k ∈ ofs <-> exists b, i = Some (Z.to_nat b) /\ entry_in b /\ entry_in k /\ i_base (obj_at p k) = b).
  { intros k. unfold ofs. destruct i as [i|]; [|split; [by intros ?%elem_of_nil|by intros (b & [=] & _)]].
    destruct (Hi i eq_refl) as [He _]. pose proof (ofs_kid _ k He) as Ho. rewrite Nat2Z.id in Ho. rewrite Ho. split.
    - intros [Hk Hb]. exists (Z.of_nat i). rewrite Nat2Z.id. done.
    - intros (b & [= ->] & Hb & Hk & Hq). split; [done|]. unfold entry_in in Hb. lia. }
  assert (HEno : forall b, i = Some (Z.to_nat b) -> entry_in b -> ~ E b).
  { intros b Hib Hb. destruct (Hi _ Hib) as [_ HE]. by rewrite Z2Nat.id in HE by (unfold entry_in in Hb; lia). }
  assert (Hmore : forall k, k ∈ more -> entry_in k /\ i_typ (obj_at p k) = REFDeltaObject /\ k ∉ all).
  { intros k Hk. destruct (mk_out _ _ _ _ Hm k Hk) as (r & Hr & <- & _ & Hd). destruct (ref_entry _ _ S7 Hr) as [He Ht].
    split; [done|]. split; [done|]. rewrite (S6 r Hr). by rewrite Hd. }
  assert (Hnotofs : forall k, k ∈ ofs -> k ∉ all).
  { intros k (b & Hib & Hb & Hk & Hq)%Hofs Hin. apply (HEno b Hib Hb). rewrite <-Hq. apply S3'; [done|]. unfold entry_in in Hb. lia. }
  assert (Hty : forall k, k ∈ ofs -> k ∉ more).
  { intros k (b & _ & Hb & Hk & Hq)%Hofs (_ & Ht & _)%Hmore. destruct (base_cases k Hk) as [[Hc' _]|[_ Hc']]; [by rewrite Hc' in Ht|unfold entry_in in Hb; lia]. }
  assert (Hofsnd : NoDup ofs).
  { unfold ofs. destruct i as [i|]; [|constructor]. destruct (Hi i eq_refl) as [He _]. unfold entry_in in He.
    apply (ofs_kids_spec p i 0 (in_bases _ _ Hix) (in_rows _ _ Hix)). lia. }
  assert (Hsplit : forall k, k ∈ (ofs ++ more) ++ all <-> k ∈ ofs \/ k ∈ more \/ k ∈ all) by (intros k; rewrite !elem_of_app; tauto).
  split.
  - apply NoDup_app. split; [apply NoDup_app; split; [done|]; split; [done|apply Hm]|]. split; [|done].
    intros k [Hk|Hk]%elem_of_app; [by apply Hnotofs|by apply Hmore].
  - intros k [(b & _ & _ & Hk & _)%Hofs|[Hk%Hmore|Hk]]%Hsplit; [done|tauto|by apply S2].
  - intros k [(b & Hib & Hb & Hk & <-)%Hofs|[Hk|Hk]]%Hsplit Hpos; [by right| |left; by apply S3'].
    destruct (Hmore k Hk) as (He & Ht & _). destruct (base_cases k He) as [[Hc' _]|[_ Hc']]; [by rewrite Hc' in Ht|lia].
  - intros b k [HE|[Hib Hb]] Hk; apply Hsplit; [right; right; by eapply S4|left]. apply Hofs. exists b.
    pose proof (proj1 (ofs_kid b k Hb) Hk) as [? ?]. done.
  - intros b [HE|[_ Hb]]; [by apply S5|done].
  - intros r' Hr'. apply list_elem_of_lookup in Hr' as [q Hq]. destruct (Forall2_lookup_r _ _ _ _ _ (mk_refs _ _ _ _ Hm) Hq) as (r & Hr & Hb & Hidx & Hd).
    apply list_elem_of_lookup_2 in Hr. destruct (ref_entry _ _ S7 Hr) as [He Ht].
    rewrite Hsplit, Hidx, Hd, orb_true_iff, <-(S6 r Hr), bool_decide_eq_true. split; [intros [Ho|[|]]; auto|tauto].
    apply Hofs in Ho as (b & _ & Hbe & _ & Hq'). destruct (base_cases _ He) as [[Hc' _]|[_ Hc']]; [by rewrite Hc' in Ht|unfold entry_in in Hbe; lia].
  - by rewrite (marks_shape _ _ _ _ Hm).
  - intros k Hk Hnd. rewrite <-(S8 k Hk Hnd), Hsplit. split; [|tauto]. intros [Ho|[Ho|]]; [..|done].
    + apply Hofs in Ho as (b & _ & Hbe & _ & Hq'). destruct (base_cases _ Hk) as [[Hc' _]|[_ Hc']]; [by rewrite Hc' in Hnd|unfold entry_in in Hbe; lia].
    + destruct (Hmore _ Ho) as (_ & Ht & _). by rewrite Ht in Hnd.
Qed.

(** The turn of an entry as a root. *)
Lemma sched_root all E n refs : sched all E n refs -> entry_in n ->
  if IsDelta (i_typ (obj_at p n)) then sched all E (n + 1) refs else n ∉ all /\ sched (n :: all) E (n + 1) refs.
Proof.
  intros [S1 S2 S3' S4 S5 S6 S7 S8] Hn. destruct (IsDelta _) eqn:Et.
  - split; [done..|]. intros k Hk Hd. rewrite (S8 k Hk Hd). split; [lia|]. intros Hlt. destruct (decide (k = n)) as [->|]; [congruence|lia].
  - assert (Hno : n ∉ all) by (rewrite (S8 n Hn Et); lia). split; [done|].
    assert (Hb : ~ 0 <= i_base (obj_at p n)).
    { destruct (base_cases n Hn) as [[Hc _]|[_ ->]]; [by rewrite Hc in Et|lia]. }
    split.
    + by constructor.
    + intros k [->|Hk]%elem_of_cons; [done|by apply S2].
    + intros k [->|Hk]%elem_of_cons Hp; [lia|by apply S3'].
    + intros b k HE Hk. right. by eapply S4.
    + done.
    + intros r Hr. rewrite <-(S6 r Hr), elem_of_cons. split; [intros [He|]; [|done]|by right].
      destruct (ref_entry _ _ S7 Hr) as [_ Ht]. rewrite He in Ht. by rewrite Ht in Et.
    + done.
    + intros k Hk Hd. rewrite elem_of_cons, (S8 k Hk Hd). lia.
Qed.

(** ** The walk *)

Definition idxs (r : resolver) : list Z := pl_idx <$> r_hist r.

(** Between two steps: [D] is what the walks on the stack still have to place. *)
Definition settled (D : list Z) (n : Z) (r : resolver) : Prop :=
  core c pc binName p asked r /\ sched (idxs r ++ D) (fun b => b ∈ idxs r) n (r_refs r) /\ r_serial r <= Z.of_nat (length (r_hist r)).

(** What the walk does to the state beyond what is recorded of it. *)
Definition same (r r' : resolver) : Prop :=
  r_hist r' = r_hist r /\ r_seg r' = r_seg r /\ r_serial r' = r_serial r /\ r_refs r' = r_refs r /\ r_sealed r' = r_sealed r.

Lemma same_core r r' : same r r' -> core c pc binName p asked r -> core c pc binName p asked r'.
Proof. intros (S1 & S2 & S3' & S4 & S5). unfold core. by rewrite S1, S2, S3', S5. Qed.
Lemma same_settled D n r r' : same r r' -> settled D n r -> settled D n r'.
Proof.
  intros Hs (Hc & Hsc & Hr). split; [by eapply same_core|]. destruct Hs as (S1 & S2 & S3' & S4 & S5). unfold idxs in *.
  by rewrite S1, S3', S4.
Qed.
Lemma same_trans r1 r2 r3 : same r1 r2 -> same r2 r3 -> same r1 r3.
Proof. unfold same. intuition congruence. Qed.

Lemma same_release b r x r' : release b r = (x, r') -> x = Ok tt /\ same r r'.
Proof. intros [= <- <-]. split; [done|]. by destruct (b_mem b). Qed.
Lemma same_release_if live b r x r' : release_if live b r = (x, r') -> x = Ok tt /\ same r r'.
Proof. destruct live; [apply same_release|by intros [= <- <-]]. Qed.
Lemma same_collect data r x r' : collect data r = (x, r') -> (exists b, x = Ok b /\ b_bytes b = data) /\ same r r'.
Proof.
  unfold collect, finish. destruct (blen data =? 0) eqn:E; b2p.
  - apply blen_zero in E as ->. intros [= <- <-]. split; [by eexists|done].
  - unfold sink_write, newSink. cbn. destruct (_ >? _); intros [= <- <-]; (split; [by eexists|done]).
Qed.

Lemma inflate_ok k r x r' : entry_in k -> inflateBody p k r = (x, r') ->
  same r r' /\ (forall b, x = Ok b -> ZlibStream (section_of p (Z.to_nat k)) (b_bytes b) /\ blen (b_bytes b) = i_size (obj_at p k)).
Proof.
  intros Hk Hx. destruct (obj_entry k Hk) as [Ho _]. destruct (oo_body _ _ _ _ (in_objects _ _ Hix _ _ Ho)) as (out & Hz & Hsz & _).
  unfold inflateBody in Hx. apply io_bind_inv in Hx as [([out' d] & r1 & H1' & H2')|(e & H1' & ->)]; injection H1' as H1' ->; [|done].
  apply same_collect in H2' as [(b & -> & Hb) Hs]. split; [done|]. intros b' [= <-].
  unfold inflateTo in H1'. pose proof (Inflate_stream _ _ (i_size (obj_at p k) + 1) [] Hz ltac:(lia)) as Hi. rewrite app_nil_r in Hi.
  rewrite Hi, Hsz, Z.eqb_refl in H1'. cbn in H1'. injection H1' as -> _. rewrite Hb. done.
Qed.

(** A kid of a base: applying its delta to the base gives what the entry is. *)
Definition kid_of (h : Hash) (typ : Z) (base : bytes) (k : Z) : Prop := forall delta out h',
  ZlibStream (section_of p (Z.to_nat k)) delta -> apply typ base delta = Ok (out, h') -> git_object c p asked k h' typ out.

Lemma kid_ref h typ base refs r : shape refs = shape (p_refs p) -> r ∈ refs -> rd_base r = h ->
  (exists j, git_object c p asked j h typ base) \/ outside c asked h typ base -> kid_of h typ base (rd_idx r).
Proof.
  intros Hs Hr <- Hb delta out h' Hz Ha. destruct (ref_entry _ _ Hs Hr) as [He Ht]. destruct (obj_entry _ He) as [Ho Hn].
  destruct (shape_in _ _ _ Hs Hr) as (r0 & Hr0 & Hb0 & Hi0). rewrite <-Hn. rewrite <-Hb0 in Hb. destruct Hb as [[j Hj]|Hout].
  - eapply git_ref; [exact Ho|exact Ht|exact Hr0|congruence|exact Hj|exact Hz|exact Ha].
  - eapply git_thin; [exact Ho|exact Ht|exact Hr0|congruence|exact Hout|exact Hz|exact Ha].
Qed.

Lemma kid_ofs b h typ base k : entry_in b -> git_object c p asked b h typ base -> k ∈ ofs_kids p (Z.to_nat b) -> kid_of h typ base k.
Proof.
  intros Hb Hg Hk delta out h' Hz Ha. apply ofs_kid in Hk as [Hke Hkb]; [|done]. destruct (obj_entry _ Hke) as [Ho Hn]. rewrite <-Hn.
  destruct (base_cases k Hke) as [[Ht _]|[_ Hc]]; [|unfold entry_in in Hb; lia].
  eapply git_ofs; [exact Ho|exact Ht| |exact Hz|exact Ha]. rewrite Hkb. exact Hg.
Qed.

(** [children_of] on a state whose entry [k] has been placed. *)
Lemma children_of_ok D E n i h typ base r x r' :
  core c pc binName p asked r -> sched (idxs r ++ D) E n (r_refs r) -> (forall k, i = Some k -> entry_in (Z.of_nat k) /\ ~ E (Z.of_nat k)) ->
  match i with Some k => git_object c p asked (Z.of_nat k) h typ base | None => outside c asked h typ base end ->
  children_of p i h r = (x, r') ->
  exists kids, x = Ok kids /\ r_hist r' = r_hist r /\ r_serial r' = r_serial r /\ core c pc binName p asked r' /\
    sched (kids ++ idxs r' ++ D) (fun b => E b \/ i = Some (Z.to_nat b) /\ entry_in b) n (r_refs r') /\
    Forall (kid_of h typ base) kids.
Proof.
  intros Hc Hs Hi Hg Hx. unfold children_of in Hx. destruct (children p i h (r_refs r)) as [kids refs'] eqn:Ec. injection Hx as <- <-.
  exists kids. cbn. do 3 (split; [done|]). split; [exact Hc|]. unfold idxs in *. cbn.
  split; [by eapply sched_children|]. pose proof (refs_nodup _ (sc_shape _ _ _ _ Hs)) as Hn.
  destruct (children_marks p i h (r_refs r) kids refs' Ec Hn) as (more & -> & Hm). apply Forall_app. split.
  - destruct i as [k|]; [|constructor]. destruct (Hi k eq_refl) as [He _]. rewrite Forall_forall. intros g Hgk.
    apply (kid_ofs (Z.of_nat k)); [done|done|by rewrite Nat2Z.id].
  - rewrite Forall_forall. intros g Hgm. destruct (mk_out _ _ _ _ Hm g Hgm) as (r0 & Hr0 & <- & Hb & _).
    eapply kid_ref; [exact (sc_shape _ _ _ _ Hs)|done|done|]. destruct i as [k|]; [left; by eexists|by right].
Qed.

(** What a walk leaves, however it ends. *)
Definition walked (kids D : list Z) (n : Z) (r : resolver) (x : gores unit) (r' : resolver) : Prop :=
  core c pc binName p asked r' /\ r_hist r `prefix_of` r_hist r' /\
  (x = Ok tt -> settled D n r' /\ forall k, k ∈ kids -> k ∈ idxs r').

Lemma give_up_ok {A} live b e r x r' : (do! release_if live b in fail (A := A) e) r = (x, r') -> x = Err e /\ same r r'.
Proof.
  intros Hx. apply io_bind_inv in Hx as [(a & r1 & H1' & [= <- <-])|(e' & H1' & ->)]; apply same_release_if in H1' as [? Hs]; done.
Qed.

Lemma sched_roomy k D E n r : sched (idxs r ++ k :: D) E n (r_refs r) -> r_serial r <= Z.of_nat (length (r_hist r)) ->
  entry_in k /\ k ∉ idxs r /\ roomy r.
Proof.
  intros Hs Hr. assert (Hk : k ∈ idxs r ++ k :: D) by set_solver. split; [by eapply sc_range|].
  pose proof (sc_nodup _ _ _ _ Hs) as Hn. apply NoDup_app in Hn as (Hn1 & Hn2 & _). split.
  { intros Hin. apply (Hn2 k Hin). left. }
  split; [done|]. pose proof (in_small _ _ Hix) as Hsm.
  assert (Hle : (length (k :: idxs r) <= length (Z.of_nat <$> seq 0 (length (p_objs p))))%nat).
  { apply submseteq_length, NoDup_submseteq; [constructor; [|done]; intros Hin; apply (Hn2 k Hin); left|].
    intros x Hx. assert (He : entry_in x) by (eapply sc_range; [exact Hs|set_solver]). unfold entry_in in He.
    apply list_elem_of_fmap. exists (Z.to_nat x). split; [lia|]. apply elem_of_seq. lia. }
  unfold idxs in Hle. cbn in Hle. rewrite !length_fmap, length_seq in Hle. lia.
Qed.

Lemma settled_roomy k D n r : settled (k :: D) n r -> entry_in k /\ k ∉ idxs r /\ roomy r.
Proof. intros (_ & Hs & Hr). by eapply sched_roomy. Qed.

Lemma base_at_prefix hist hist' h typ b s n : hist `prefix_of` hist' -> base_at hist h typ b s n -> base_at hist' h typ b s n.
Proof. intros [l ->]. apply base_at_mono. set_solver. Qed.

(** One kid: place it, then hand out its children. *)
Lemma place_kid k D n so plain delta bh bs bn r x r' :
  settled (k :: D) n r -> placeable c p asked (r_hist r) k so plain delta bh bs bn ->
  place c pc binName cueName admitted k so delta bh bs bn r = (x, r') ->
  core c pc binName p asked r' /\ r_hist r `prefix_of` r_hist r' /\
  (forall s m, x = Ok (s, m) -> k ∈ idxs r' /\ base_at (r_hist r') (so_hash so) (so_typ so) plain s m /\
    forall r1 y r2, same r' r1 -> children_of p (Some (Z.to_nat k)) (so_hash so) r1 = (y, r2) ->
      exists kids, y = Ok kids /\ r_hist r2 = r_hist r' /\ settled (kids ++ D) n r2 /\ Forall (kid_of (so_hash so) (so_typ so) plain) kids).
Proof.
  intros Hset Hpb Hx. destruct (settled_roomy _ _ _ _ Hset) as (Hk & Hno & Hroom). destruct Hset as (Hc & Hs & _).
  destruct (place_ok c pc binName cueName p admitted asked _ _ _ _ _ _ _ _ _ _ Hc Hroom Hpb Hx) as (Hc' & Hrefs & Hpost). split; [exact Hc'|].
  destruct x as [[s m]|e]; [|rewrite Hpost; split; [done|by intros s m]].
  destruct Hpost as (pl & Hh & Hidx & Hat & Hser & _). split; [rewrite Hh; by eexists|]. intros s' m' [= <- <-].
  assert (Hids : idxs r' = idxs r ++ [k]) by (unfold idxs; rewrite Hh, fmap_app; cbn; by rewrite Hidx).
  split; [rewrite Hids; set_solver|]. split; [exact Hat|]. intros r1 y r2 Hsame Hy.
  assert (Hs1 : sched (idxs r1 ++ D) (fun b => b ∈ idxs r) n (r_refs r1)).
  { destruct Hsame as (S1 & _ & _ & S4 & _). unfold idxs in *. rewrite S1, S4, Hrefs, Hids. refine (sched_perm _ _ _ _ _ _ _ _ Hs); [|done].
    by rewrite <-app_assoc. }
  destruct (children_of_ok D _ n (Some (Z.to_nat k)) (so_hash so) (so_typ so) plain r1 y r2 (same_core _ _ Hsame Hc') Hs1) as (kids & -> & Hh2 & Hr2 & Hc2 & Hs2 & Hkids).
  - intros j [= <-]. destruct (obj_entry k Hk) as [_ ->]. done.
  - destruct (obj_entry k Hk) as [_ ->]. by destruct Hpb.
  - exact Hy.
  - destruct Hsame as (S1 & S2 & S3' & S4 & S5). exists kids. split; [done|]. split; [congruence|]. split; [|exact Hkids].
    split; [exact Hc2|]. split; [|rewrite Hr2, Hh2, S1, S3'; exact Hser]. eapply sched_perm; [| |exact Hs2].
    + rewrite !app_assoc. f_equiv. apply Permutation_app_comm.
    + intros b. unfold idxs in *. rewrite Hh2, S1, Hids, elem_of_app, list_elem_of_singleton. split.
      * intros [|[[= Hb] He]]; [by left|]. right. unfold entry_in in *. lia.
      * intros [| ->]; [by left|]. by right.
Qed.

Definition walker : Type := list Z -> Hash -> Z -> body -> Z -> nat -> Z -> io resolver unit.

(** A walk does its duty: from a settled state, on kids of its base. *)
Definition dutiful (w : list Z -> Hash -> Z -> body -> Z -> nat -> Z -> io resolver unit) : Prop :=
  forall kids D h typ base s m depth n r x r',
    settled (kids ++ D) n r -> base_at (r_hist r) h typ (b_bytes base) s m -> Forall (kid_of h typ (b_bytes base)) kids ->
    w kids h typ base s m depth r = (x, r') -> walked kids D n r x r'.

Lemma walked_err kids D n r e r' : core c pc binName p asked r' -> r_hist r `prefix_of` r_hist r' -> walked kids D n r (Err e) r'.
Proof. done. Qed.

Lemma walk_kids_ok w kids live D h typ base s m depth n r x r' : dutiful w ->
  settled (kids ++ D) n r -> base_at (r_hist r) h typ (b_bytes base) s m -> Forall (kid_of h typ (b_bytes base)) kids ->
  walk_kids c pc binName cueName p admitted w kids live h typ base s m depth r = (x, r') -> walked kids D n r x r'.
Proof.
  intros Hw. revert live r. induction kids as [|k rest IH]; intros live r Hset Hat Hkids Hx; cbn [walk_kids] in Hx.
  { apply same_release_if in Hx as [-> Hs]. split; [by eapply same_core; [|apply Hset]|]. split; [by destruct Hs as [-> _]|].
    intros _. split; [by eapply same_settled|by intros k ?%elem_of_nil]. }
  apply Forall_cons in Hkids as [Hk Hrest]. cbn [app] in Hset. destruct (settled_roomy _ _ _ _ Hset) as (Hke & _ & _).
  assert (Hbad : forall y r1, same r y -> same y r1 -> core c pc binName p asked r1 /\ r_hist r `prefix_of` r_hist r1).
  { intros y r1 Ha Hb. pose proof (same_trans _ _ _ Ha Hb) as Hab. split; [by eapply same_core; [|apply Hset]|]. by destruct Hab as [-> _]. }
  apply io_bind_inv in Hx as [(i & r1 & H1' & Hx)|(e & H1' & ->)]; apply attempt_inv in H1' as (i' & [= <-] & H1').
  apply inflate_ok in H1' as [Hs1 Hz]; [|done]. destruct i as [delta|e].
  2:{ apply give_up_ok in Hx as [-> Hs2]. by apply walked_err; destruct (Hbad _ _ Hs1 Hs2). }
  destruct (Hz delta eq_refl) as [Hzs _]. destruct (apply typ (b_bytes base) (b_bytes delta)) as [[plain hh]|e] eqn:Ea.
  2:{ apply io_bind_inv in Hx as [([] & r2 & H2' & Hx)|(e' & H2' & _)]; apply same_release in H2' as [? Hs2]; [|done].
      apply give_up_ok in Hx as [-> Hs3]. apply walked_err; destruct (Hbad _ _ (same_trans _ _ _ Hs1 Hs2) Hs3); done. }
  apply io_bind_inv in Hx as [(out & r2 & H2' & Hx)|(e' & H2' & _)]; apply same_collect in H2' as [(out' & [=] & Hout) Hs2]; subst out'.
  apply io_bind_inv in Hx as [([] & r3 & H3' & Hx)|(e' & H3' & _)]; apply same_release_if in H3' as [? Hs3]; [|done].
  pose proof (same_trans _ _ _ Hs1 (same_trans _ _ _ Hs2 Hs3)) as Hs. clear Hs1 Hs2 Hs3 Hbad.
  apply (same_settled _ _ _ _ Hs) in Hset. destruct Hs as (Hh & _).
  rewrite <-Hh in Hat. unfold walked. rewrite <-Hh.
  apply io_bind_inv in Hx as [(pr & r4 & H4' & Hx)|(e & H4' & ->)]; apply attempt_inv in H4' as (pr' & [= <-] & H4').
  eapply (place_kid k (rest ++ D) n _ plain) in H4' as (Hc4 & Hp4 & Hok4); [|exact Hset|].
  2:{ split; cbn; [by eapply Hk|by rewrite Hout|by rewrite Hout|]. intros d [= <-]. exists (b_bytes base). by rewrite Ea. }
  cbn [so_hash so_typ] in Hok4.
  apply io_bind_inv in Hx as [([] & r5 & H5' & Hx)|(e' & H5' & _)]; apply same_release in H5' as [? Hs5]; [|done].
  destruct pr as [[serial chain]|e].
  2:{ apply io_bind_inv in Hx as [([] & r6 & H6' & Hx)|(e' & H6' & _)]; apply same_release in H6' as [? Hs6]; [|done].
      apply give_up_ok in Hx as [-> Hs7]. pose proof (same_trans _ _ _ Hs5 (same_trans _ _ _ Hs6 Hs7)) as Hs.
      split; [by eapply same_core|]. split; [by destruct Hs as [-> _]|done]. }
  destruct (Hok4 serial chain eq_refl) as (Hin4 & Hat4 & Hgrand).
  apply io_bind_inv in Hx as [(grand & r6 & H6' & Hx)|(e' & H6' & _)]; apply (Hgrand _ _ _ Hs5) in H6' as (gr & [=] & Hh6 & Hset6 & Hkg); subst gr.
  (* the rest of the kids, after a state that still holds [k] *)
  assert (Hfin : forall r7 live, settled (rest ++ D) n r7 -> r_hist r4 `prefix_of` r_hist r7 ->
    walk_kids c pc binName cueName p admitted w rest live h typ base s m depth r7 = (x, r') ->
    core c pc binName p asked r' /\ r_hist r3 `prefix_of` r_hist r' /\ (x = Ok tt -> settled D n r' /\ forall j, j ∈ k :: rest -> j ∈ idxs r')).
  { intros r7 live' Hset7 Hp7 Hx'. eapply IH in Hx' as (Hc' & Hp' & Hok'); [|done| |done].
    - split; [done|]. split; [by do 2 (etransitivity; [eassumption|])|]. intros ->. destruct (Hok' eq_refl) as [Hd Hr].
      split; [done|]. intros j [->|Hj]%elem_of_cons; [|by apply Hr]. destruct (transitivity Hp7 Hp') as [l Hl].
      unfold idxs in *. rewrite Hl, fmap_app. set_solver.
    - eapply base_at_prefix; [|exact Hat]. by etransitivity. }
  destruct grand as [|g grand].
  - apply io_bind_inv in Hx as [([] & r7 & H7' & Hx)|(e' & H7' & _)]; apply same_release in H7' as [? Hs7]; [|done].
    eapply Hfin; [| |exact Hx]; [by eapply same_settled|]. destruct Hs7 as [-> _]. by rewrite Hh6.
  - apply io_bind_inv in Hx as [(wr & r7 & H7' & Hx)|(e & H7' & ->)]; apply attempt_inv in H7' as (wr' & [= <-] & H7').
    eapply Hw in H7' as (Hc7 & Hp7 & Hok7); [|exact Hset6| |by rewrite Hout].
    2:{ rewrite Hh6, Hout. exact Hat4. }
    rewrite Hh6 in Hp7. destruct wr as [[]|e].
    + destruct (Hok7 eq_refl) as [Hset7 _]. eapply Hfin; [exact Hset7|exact Hp7|exact Hx].
    + apply give_up_ok in Hx as [-> Hs8]. split; [by eapply same_core|]. split; [|done].
      destruct Hs8 as [-> _]. by etransitivity.
Qed.

Lemma walk_ok fuel : dutiful (walk c pc binName cueName p admitted fuel).
Proof.
  induction fuel as [|f IH]; intros kids D h typ base s m depth n r x r' Hset Hat Hkids Hx; cbn [walk] in Hx.
  - apply (give_up_ok true) in Hx as [-> Hs]. apply walked_err; [by eapply same_core; [|apply Hset]|by destruct Hs as [-> _]].
  - destruct (depth >? maxIncomingDeltaDepth).
    + apply (give_up_ok true) in Hx as [-> Hs]. apply walked_err; [by eapply same_core; [|apply Hset]|by destruct Hs as [-> _]].
    + by eapply walk_kids_ok.
Qed.

(** ** Roots and the whole run *)

Lemma stream_unique z b1 b2 : ZlibStream z b1 -> ZlibStream z b2 -> b1 = b2.
Proof.
  intros Hz1 Hz2. set (n := Z.max (blen b1) (blen b2) + 1).
  pose proof (Inflate_stream z b1 n [] Hz1 ltac:(unfold blen in n; lia)) as I1.
  pose proof (Inflate_stream z b2 n [] Hz2 ltac:(unfold blen in n; lia)) as I2. rewrite I1 in I2. by injection I2.
Qed.

(** The entry whose turn it is, placed after its children have been handed out. *)
Lemma place_root k kids so plain r x r' :
  core c pc binName p asked r -> sched (kids ++ idxs r ++ [k]) (fun b => b ∈ idxs r \/ b = k) (k + 1) (r_refs r) ->
  r_serial r <= Z.of_nat (length (r_hist r)) -> placeable c p asked (r_hist r) k so plain None ZeroHash (-1) 0 ->
  place c pc binName cueName admitted k so None ZeroHash (-1) 0 r = (x, r') ->
  core c pc binName p asked r' /\ r_hist r `prefix_of` r_hist r' /\
  (forall s m, x = Ok (s, m) -> settled kids (k + 1) r' /\ base_at (r_hist r') (so_hash so) (so_typ so) plain s 0).
Proof.
  intros Hc Hs Hser Hpb Hx.
  assert (Hs' : sched (idxs r ++ k :: kids) (fun b => b ∈ idxs r \/ b = k) (k + 1) (r_refs r)).
  { refine (sched_perm _ _ _ _ _ _ _ _ Hs); [|done]. rewrite app_assoc, (Permutation_app_comm kids (idxs r)), <-app_assoc.
    f_equiv. apply Permutation_app_comm. }
  destruct (sched_roomy _ _ _ _ _ Hs' Hser) as (Hk & Hno & Hroom).
  destruct (place_ok c pc binName cueName p admitted asked _ _ _ _ _ _ _ _ _ _ Hc Hroom Hpb Hx) as (Hc' & Hrefs & Hpost). split; [exact Hc'|].
  destruct x as [[s m]|e]; [|rewrite Hpost; split; [done|by intros s m]].
  destruct Hpost as (pl & Hh & Hidx & Hat & Hser' & Hm). specialize (Hm eq_refl) as ->. split; [rewrite Hh; by eexists|]. intros s' m' [= <- <-].
  assert (Hids : idxs r' = idxs r ++ [k]) by (unfold idxs; rewrite Hh, fmap_app; cbn; by rewrite Hidx).
  split; [|exact Hat]. split; [exact Hc'|]. split; [|exact Hser']. rewrite Hids, Hrefs. refine (sched_perm _ _ _ _ _ _ _ _ Hs').
  - by rewrite <-app_assoc.
  - intros b. rewrite elem_of_app, list_elem_of_singleton. done.
Qed.

Lemma root_ok k r x r' : settled [] k r -> entry_in k -> IsDelta (i_typ (obj_at p k)) = false ->
  root c pc binName cueName p admitted k r = (x, r') -> core c pc binName p asked r' /\ (x = Ok tt -> settled [] (k + 1) r').
Proof.
  intros Hset Hk Ht Hx. destruct Hset as (Hc & Hs & Hser). destruct (obj_entry k Hk) as [Ho Hn].
  destruct (oo_body _ _ _ _ (in_objects _ _ Hix _ _ Ho)) as (out & Hz & Hsz & _).
  pose proof (git_whole c p asked _ _ _ Ho Ht Hz) as Hg. rewrite Hn in Hg.
  pose proof (sched_root _ _ _ _ Hs Hk) as Hroot. rewrite Ht in Hroot. destruct Hroot as [Hno Hs1]. rewrite app_nil_r in Hno, Hs1.
  assert (Hs2 : sched (idxs r ++ [k]) (fun b => b ∈ idxs r) (k + 1) (r_refs r)).
  { refine (sched_perm _ _ _ _ _ _ _ _ Hs1); [|done]. apply Permutation_cons_append. }
  unfold root in Hx. cbv zeta in Hx. set (h := hash_at (c_hashLen c) p (Z.to_nat k)) in *.
  assert (Hi : forall j, Some (Z.to_nat k) = Some j -> entry_in (Z.of_nat j) /\ ~ Z.of_nat j ∈ idxs r) by (intros j [= <-]; rewrite Hn; done).
  assert (Hgn : git_object c p asked (Z.of_nat (Z.to_nat k)) h (i_typ (obj_at p k)) out) by (rewrite Hn; exact Hg).
  pose proof (fun y r1 => children_of_ok [k] _ _ (Some (Z.to_nat k)) h (i_typ (obj_at p k)) out r y r1 Hc Hs2 Hi Hgn) as Hch.
  apply io_bind_inv in Hx as [(kids & r1 & H1' & Hx)|(e & H1' & ->)];
    apply Hch in H1' as (kids' & [=] & Hh1 & Hr1 & Hc1 & Hs3 & Hkids). subst kids'.
  assert (Hs4 : sched (kids ++ idxs r1 ++ [k]) (fun b => b ∈ idxs r1 \/ b = k) (k + 1) (r_refs r1)).
  { refine (sched_perm _ _ _ _ _ _ _ _ Hs3); [done|]. intros b. unfold idxs. rewrite Hh1. split.
    - intros [|[[= Hb] Hbe]]; [by left|]. right. unfold entry_in in *. lia.
    - intros [| ->]; [by left|]. by right. }
  assert (Hser1 : r_serial r1 <= Z.of_nat (length (r_hist r1))) by (rewrite Hr1, Hh1; exact Hser). clear Hs Hs1 Hs2 Hs3 Hc Hser.
  destruct kids as [|g kids].
  - assert (Hop : p_body (open_entry p k) = out /\ p_size (open_entry p k) = i_size (obj_at p k)).
    { unfold open_entry. destruct (Inflate_prefix _ _ (i_size (obj_at p k)) [] Hz ltac:(lia)) as [rest Hin]. rewrite app_nil_r in Hin.
      rewrite Hin. cbn. split; [|done]. rewrite take_ge by lia. done. }
    assert (Hpb : placeable c p asked (r_hist r1) k {| so_payload := open_entry p k; so_hash := h; so_typ := i_typ (obj_at p k);
        so_raw := i_size (obj_at p k); so_base := ZeroHash |} out None ZeroHash (-1) 0).
    { split; cbn; [exact Hg|unfold blen; lia|tauto|done]. }
    apply io_bind_inv in Hx as [([s m] & r2 & H2' & [= <- <-])|(e & H2' & ->)];
      apply (place_root k [] _ _ _ _ _ Hc1 Hs4 Hser1 Hpb) in H2' as (Hc2 & _ & Hok); (split; [exact Hc2|]); [|done].
    intros _. by destruct (Hok s m eq_refl).
  - apply io_bind_inv in Hx as [(b & r2 & H2' & Hx)|(e & H2' & ->)]; apply inflate_ok in H2' as [Hsm Hb]; try done.
    2:{ split; [by eapply same_core|done]. }
    destruct (Hb b eq_refl) as [Hbz Hbs]. pose proof (stream_unique _ _ _ Hbz Hz) as Hbo.
    assert (Hpb : placeable c p asked (r_hist r2) k {| so_payload := from_body b; so_hash := h; so_typ := i_typ (obj_at p k);
        so_raw := i_size (obj_at p k); so_base := ZeroHash |} out None ZeroHash (-1) 0).
    { split; cbn; [exact Hg|unfold blen; lia| |done]. split; [done|]. split; [done|]. done. }
    apply (same_core _ _ Hsm) in Hc1. assert (Hs5 : sched ((g :: kids) ++ idxs r2 ++ [k]) (fun b => b ∈ idxs r2 \/ b = k) (k + 1) (r_refs r2)
      /\ r_serial r2 <= Z.of_nat (length (r_hist r2))).
    { destruct Hsm as (S1 & _ & S3' & S4 & _). unfold idxs in *. by rewrite S1, S3', S4. }
    destruct Hs5 as [Hs5 Hser2].
    apply io_bind_inv in Hx as [(pr & r3 & H3' & Hx)|(e & H3' & ->)]; apply attempt_inv in H3' as (pr' & [= <-] & H3').
    apply (place_root k _ _ _ _ _ _ Hc1 Hs5 Hser2 Hpb) in H3' as (Hc3 & _ & Hok). destruct pr as [[s m]|e].
    + destruct (Hok s m eq_refl) as [Hset3 Hat]. cbn in Hat.
      assert (Hw : walked (g :: kids) [] (k + 1) r3 x r').
      { eapply walk_ok; [by rewrite app_nil_r|rewrite Hbo; exact Hat|rewrite Hbo; exact Hkids|exact Hx]. }
      destruct Hw as (Hc4 & _ & Hfin).
      split; [exact Hc4|]. intros ->. by destruct (Hfin eq_refl).
    + apply (give_up_ok true) in Hx as [-> Hs]. split; [by eapply same_core|done].
Qed.

Lemma run_roots_ok count k r x r' : settled [] (Z.of_nat k) r -> (k + count <= length (p_objs p))%nat ->
  run_roots c pc binName cueName p admitted (seq k count) r = (x, r') ->
  core c pc binName p asked r' /\ (x = Ok tt -> settled [] (Z.of_nat (k + count)) r').
Proof.
  revert k r. induction count as [|count IH]; intros k r Hset Hle Hx; cbn [seq run_roots] in Hx.
  { injection Hx as <- <-. rewrite Nat.add_0_r. split; [apply Hset|done]. }
  assert (Hk : entry_in (Z.of_nat k)) by (unfold entry_in; lia). rewrite <-Nat.add_succ_comm.
  destruct (IsDelta (i_typ (obj_at p (Z.of_nat k)))) eqn:Et.
  - apply IH in Hx; [exact Hx| |lia]. destruct Hset as (Hc & Hs & Hser). split; [done|]. split; [|done].
    pose proof (sched_root _ _ _ _ Hs Hk) as Hr. rewrite Et in Hr. by replace (Z.of_nat (S k)) with (Z.of_nat k + 1) by lia.
  - apply io_bind_inv in Hx as [([] & r1 & H1' & Hx)|(e & H1' & ->)]; apply root_ok in H1' as [Hc1 Hok]; try done.
    apply IH in Hx; [exact Hx| |lia]. replace (Z.of_nat (S k)) with (Z.of_nat k + 1) by lia. by apply Hok.
Qed.

Abbreviation total := (Z.of_nat (length (p_objs p))).

(** ** What the repository was asked *)

(** A relation that sealing and asking for a base keep, and that sees only the
    storer and what was asked of it, holds between a resolver and what any run
    makes of it. *)
Section carried.
Context (rel : resolver -> resolver -> Prop) `{!PreOrder rel}.

Definition carries {A} (m : io resolver A) : Prop := forall r x r', m r = (x, r') -> rel r r'.

Context (Hquiet : forall r r', r_st r' = r_st r -> r_asked r' = r_asked r -> rel r r')
  (Hseal : forall name g, carries (on_st (seal c admitted name g))) (Hext : forall h, carries (wrapping (externalBase c h))).

Lemma carries_frame {A} (m : io resolver A) : (forall r, r_st (snd (m r)) = r_st r /\ r_asked (snd (m r)) = r_asked r) -> carries m.
Proof. intros Hm r x r' Hx. specialize (Hm r). rewrite Hx in Hm. destruct Hm. by apply Hquiet. Qed.
Lemma carries_bind {A B} (m : io resolver A) (f : A -> io resolver B) : carries m -> (forall a, carries (f a)) -> carries (io_bind m f).
Proof.
  intros Hm Hf r x r' Hx. apply io_bind_inv in Hx as [(a & r1 & H1' & Hx)|(e & H1' & ->)]; [|by eapply Hm].
  transitivity r1; [by eapply Hm|by eapply Hf].
Qed.
Lemma carries_attempt {A} (m : io resolver A) : carries m -> carries (attempt m).
Proof. intros Hm r x r' Hx. apply attempt_inv in Hx as (r0 & _ & Hx). by eapply Hm. Qed.
Lemma carries_wrapping {A} (m : io resolver A) : carries m -> carries (wrapping m).
Proof. intros Hm r x r' Hx. apply wrapping_inv in Hx as [(a & _ & Hx)|(e & _ & Hx)]; by eapply Hm. Qed.
Lemma carries_ret {A} (a : A) : carries (ret a).
Proof. by apply carries_frame. Qed.
Lemma carries_fail {A} e : carries (fail (A := A) e).
Proof. by apply carries_frame. Qed.
Lemma carries_gets {A} (f : resolver -> A) : carries (gets f).
Proof. by apply carries_frame. Qed.
Lemma carries_lift {A} (x : gores A) : carries (lift x).
Proof. by apply carries_frame. Qed.
Lemma carries_collect data : carries (collect data).
Proof. apply carries_frame. intros r. unfold collect, finish. by repeat case_match. Qed.
Lemma carries_release b : carries (release b).
Proof. apply carries_frame. intros r. unfold release. cbn. by destruct (b_mem b). Qed.
Lemma carries_release_if live b : carries (release_if live b).
Proof. destruct live; [apply carries_release|apply carries_ret]. Qed.
Lemma carries_children i h : carries (children_of p i h).
Proof. apply carries_frame. intros r. unfold children_of. by destruct (children p i h (r_refs r)). Qed.
Lemma carries_inflate i : carries (inflateBody p i).
Proof. apply carries_bind; [apply carries_lift|]. intros [out rest]. apply carries_collect. Qed.
Lemma carries_place idx so delta h serial chain : carries (place c pc binName cueName admitted idx so delta h serial chain).
Proof.
  unfold place. apply carries_bind; [|intros _; apply carries_bind; [|intros _]].
  - unfold make_room. apply carries_bind; [apply carries_gets|]. intros [g|]; [|apply carries_ret]. destruct (_ && _); [|apply carries_ret].
    unfold seal_full. apply carries_bind; [by apply carries_frame|intros _]. apply carries_bind; [apply carries_gets|]. intros n. apply Hseal.
  - unfold ensure_segment. apply carries_bind; [apply carries_gets|]. intros [g|]; [apply carries_ret|by apply carries_frame].
  - apply carries_frame. intros r. destruct (stored_form _ _ _ _ _ _) as [so' n]. destruct (r_seg r) as [g|]; [|done]. by destruct (add pc so' g).
Qed.
Create HintDb carries discriminated.
#[local] Hint Resolve carries_bind carries_attempt carries_wrapping carries_ret carries_fail carries_gets carries_lift carries_collect
  carries_release carries_release_if carries_children carries_inflate carries_place : carries.

Lemma carries_walk_kids wk kids live h typ base serial chain depth :
  (forall a b c d e f g, carries (wk a b c d e f g)) ->
  carries (walk_kids c pc binName cueName p admitted wk kids live h typ base serial chain depth).
Proof.
  intros Hw. revert live. induction kids as [|k rest IH]; intros live; cbn [walk_kids]; [apply carries_release_if|].
  apply carries_bind; [auto with carries|]. intros [delta|e]; [|auto with carries].
  destruct (apply typ (b_bytes base) (b_bytes delta)) as [[plain hh]|e]; [|auto with carries].
  apply carries_bind; [apply carries_collect|]. intros out. cbv zeta. apply carries_bind; [apply carries_release_if|intros _].
  apply carries_bind; [auto with carries|]. intros r. apply carries_bind; [apply carries_release|intros _].
  destruct r as [[s n]|e]; [|auto with carries]. apply carries_bind; [apply carries_children|]. intros [|g gs]; [auto with carries|].
  apply carries_bind; [apply carries_attempt, Hw|]. intros [[]|e]; auto with carries.
Qed.
Lemma carries_walk fuel kids h typ base serial chain depth :
  carries (walk c pc binName cueName p admitted fuel kids h typ base serial chain depth).
Proof.
  revert kids h typ base serial chain depth. induction fuel as [|f IH]; intros; cbn [walk]; [auto with carries|].
  destruct (_ >? _); [auto with carries|]. by apply carries_walk_kids.
Qed.

(** What the loop over the REF entries does with a base, and then with the other entries. *)
Lemma carries_rest h (o : object) ks : carries (run_refs c pc binName cueName p admitted ks) ->
  carries (let! b := collect (eo_bytes o) in let! kids := children_of p None h in
         do! walk c pc binName cueName p admitted walkFuel kids h (eo_typ o) b (-1) 0 1 in run_refs c pc binName cueName p admitted ks).
Proof.
  intros Hks. apply carries_bind; [apply carries_collect|]. intros b. apply carries_bind; [apply carries_children|]. intros kids.
  apply carries_bind; [apply carries_walk|by intros _].
Qed.
Lemma carries_run_refs ks : carries (run_refs c pc binName cueName p admitted ks).
Proof.
  induction ks as [|k ks IH]; [apply carries_ret|]. cbn [run_refs]. apply carries_bind; [apply carries_gets|]. intros rd.
  destruct (rd_done rd); [exact IH|]. apply carries_bind; [apply Hext|]. intros o. by apply carries_rest.
Qed.
Lemma carries_roots js : carries (run_roots c pc binName cueName p admitted js).
Proof.
  induction js as [|i js IH]; cbn [run_roots]; [apply carries_ret|]. destruct (IsDelta _); [exact IH|].
  apply carries_bind; [|by intros _]. unfold root. apply carries_bind; [apply carries_children|]. intros [|k ks].
  - apply carries_bind; [apply carries_place|intros _; apply carries_ret].
  - apply carries_bind; [apply carries_inflate|]. intros b. cbv zeta. apply carries_bind; [apply carries_attempt, carries_place|].
    intros [[sr ch]|e]; [apply carries_walk|]. apply carries_bind; [apply carries_release|intros _; apply carries_fail].
Qed.
Lemma carries_run : carries (run c pc binName cueName p admitted).
Proof. unfold run. apply carries_bind; [apply carries_roots|intros _; apply carries_run_refs]. Qed.
End carried.

(** The states recorded so far stay recorded. *)
Definition grows {A} (m : io resolver A) : Prop := carries (fun r r' => r_asked r ⊆ r_asked r') m.
#[local] Instance grows_order : PreOrder (fun r r' : resolver => r_asked r ⊆ r_asked r').
Proof. split; [by intros r|]. intros r1 r2 r3 H1' H2'. by etransitivity. Qed.
Lemma grows_quiet (r r' : resolver) : r_st r' = r_st r -> r_asked r' = r_asked r -> r_asked r ⊆ r_asked r'.
Proof. by intros _ ->. Qed.
Lemma grows_on_st {A} (m : io St A) : grows (on_st m).
Proof. intros r x r'. unfold on_st. destruct (m (r_st r)). by intros [= _ <-]. Qed.
Lemma grows_external h : grows (wrapping (externalBase c h)).
Proof.
  apply carries_wrapping, carries_bind; [apply _| |intros _; apply grows_on_st]. intros r x r' [= _ <-]. cbn. set_solver.
Qed.
Lemma grows_rest h (o : object) ks :
  grows (let! b := collect (eo_bytes o) in let! kids := children_of p None h in
         do! walk c pc binName cueName p admitted walkFuel kids h (eo_typ o) b (-1) 0 1 in run_refs c pc binName cueName p admitted ks).
Proof.
  apply carries_rest; [apply _|exact grows_quiet|intros; apply grows_on_st|].
  apply carries_run_refs; [apply _|exact grows_quiet|intros; apply grows_on_st|exact grows_external].
Qed.

(** The REF entries before the [k]th are placed. *)
Definition refs_placed (k : nat) (r : resolver) : Prop :=
  forall q rf, (q < k)%nat -> p_refs p !! q = Some rf -> rd_idx rf ∈ idxs r.

Lemma on_st_ok {A} (m : io St A) r x r' : wrapping (do! modify asked_base in on_st m) r = (x, r') ->
  same r r' /\ r_asked r' = r_asked r ++ [r_st r] /\ (forall o, x = Ok o -> exists st, m (r_st r) = (Ok o, st)).
Proof.
  intros Hx. destruct (m (r_st r)) as [y st] eqn:Ee.
  assert (Hon : (do! modify asked_base in on_st m) r = (y, with_seg st (r_seg r) (r_serial r) (r_sealed r) (asked_base r)))
    by (unfold io_bind, modify, on_st; cbn; by rewrite Ee).
  apply wrapping_inv in Hx as [(o & -> & Hy)|(e & -> & Hy)]; rewrite Hon in Hy; injection Hy as -> <-; (do 2 (split; [done|])); [|done].
  intros o' [= <-]. by exists st.
Qed.

#[local] Opaque EncodedObject.

Lemma external_ok h r x r' : wrapping (externalBase c h) r = (x, r') ->
  same r r' /\ r_asked r ⊆ r_asked r' /\ (r_asked r' ⊆ asked -> forall o, x = Ok o -> outside c asked h (eo_typ o) (eo_bytes o)).
Proof.
  intros Hx. unfold externalBase in Hx. unfold outside. revert Hx. generalize (EncodedObject c AnyObject h). intros m Hx.
  apply on_st_ok in Hx as (Hs & Ha & Ho). split; [exact Hs|]. rewrite Ha. split; [set_solver|]. intros Hsub o Hok.
  destruct (Ho o Hok) as [st Hst]. exists (r_st r), st, o. split; [|done]. apply Hsub. set_solver.
Qed.

Lemma run_refs_ok count k r x r' : settled [] total r -> refs_placed k r -> (k + count <= length (p_refs p))%nat ->
  run_refs c pc binName cueName p admitted (seq k count) r = (x, r') -> r_asked r' ⊆ asked ->
  core c pc binName p asked r' /\ (x = Ok tt -> settled [] total r' /\ refs_placed (k + count) r').
Proof.
  intros Hset Hpl Hle Hx Hall'. revert k r Hset Hpl Hle Hx. induction count as [|count IH]; intros k r Hset Hpl Hle Hx; cbn [seq run_refs] in Hx.
  { injection Hx as <- <-. rewrite Nat.add_0_r. split; [apply Hset|done]. }
  rewrite <-Nat.add_succ_comm. unfold io_bind at 1, gets at 1 in Hx.
  pose proof (sc_shape _ _ _ _ (proj1 (proj2 Hset))) as Hsh.
  destruct (lookup_lt_is_Some_2 (p_refs p) k ltac:(lia)) as [rf0 Hrf0].
  assert (Hlen : length (r_refs r) = length (p_refs p)) by (apply (f_equal length) in Hsh; unfold shape in Hsh; by rewrite !length_fmap in Hsh).
  destruct (lookup_lt_is_Some_2 (r_refs r) k ltac:(lia)) as [rf Hrf]. rewrite (list_lookup_total_correct _ _ _ Hrf) in Hx.
  assert (Hidx : rd_idx rf0 = rd_idx rf).
  { pose proof (f_equal (lookup k) Hsh) as Hk. unfold shape in Hk. rewrite !list_lookup_fmap, Hrf, Hrf0 in Hk. cbn in Hk. by injection Hk. }
  assert (Hstep : forall r1, settled [] total r1 -> (forall q, q ∈ idxs r -> q ∈ idxs r1) -> rd_idx rf ∈ idxs r1 ->
    run_refs c pc binName cueName p admitted (seq (S k) count) r1 = (x, r') ->
    core c pc binName p asked r' /\ (x = Ok tt -> settled [] total r' /\ refs_placed (S k + count) r')).
  { intros r1 Hset1 Hmono Hin Hx1. eapply IH; [exact Hset1| |lia|exact Hx1]. intros q rf' Hq Hrf'.
    destruct (decide (q = k)) as [->|]; [rewrite Hrf0 in Hrf'; injection Hrf' as <-; by rewrite Hidx|]. apply Hmono, (Hpl q); [lia|done]. }
  destruct (rd_done rf) eqn:Ed.
  { apply (Hstep r); [done|done| |exact Hx]. destruct Hset as (_ & Hs & _). rewrite <-(app_nil_r (idxs r)).
    apply (sc_refs _ _ _ _ Hs); [by eapply list_elem_of_lookup_2|done]. }
  clear IH. apply io_bind_inv in Hx as [(o & r1 & H1' & Hx)|(e & H1' & ->)]; apply external_ok in H1' as (Hs1 & _ & Hout).
  2:{ split; [eapply same_core; [exact Hs1|apply Hset]|done]. }
  assert (Hasked : r_asked r1 ⊆ asked) by (etransitivity; [eapply grows_rest; exact Hx|exact Hall']).
  apply io_bind_inv in Hx as [(b & r2 & H2' & Hx)|(e' & H2' & _)]; apply same_collect in H2' as [(b' & [=] & Hb) Hs2]; subst b'.
  pose proof (same_trans _ _ _ Hs1 Hs2) as Hs. pose proof Hset as Hset0. apply (same_settled _ _ _ _ Hs) in Hset as (Hc2 & Hsch2 & Hser2).
  assert (Hnone : forall j, @None nat = Some j -> entry_in (Z.of_nat j) /\ ~ Z.of_nat j ∈ idxs r2) by done.
  pose proof (fun y r3 => children_of_ok [] _ _ None (rd_base rf) (eo_typ o) (eo_bytes o) r2 y r3 Hc2 Hsch2 Hnone (Hout Hasked o eq_refl)) as Hch.
  apply io_bind_inv in Hx as [(kids & r3 & H3' & Hx)|(e' & H3' & _)]; pose proof H3' as H3c;
    apply Hch in H3' as (kids' & [=] & Hh3 & Hr3 & Hc3 & Hs3 & Hkids). subst kids'. clear Hch.
  assert (Hin : rd_idx rf ∈ kids).
  { unfold children_of in H3c. destruct (children p None (rd_base rf) (r_refs r2)) as [kids' refs'] eqn:Ec. injection H3c as -> _.
    destruct Hs as (_ & _ & _ & S4 & _). rewrite S4 in Ec. eapply children_finds; [eassumption|exact Hhs|exact Hix|exact Hsh|exact Ec|exact Hrf|done|done]. }
  assert (Hset3 : settled (kids ++ []) total r3).
  { split; [done|]. split; [|rewrite Hh3, Hr3; exact Hser2]. refine (sched_perm _ _ _ _ _ _ _ _ Hs3).
    - rewrite !app_nil_r. apply Permutation_app_comm.
    - intros q. unfold idxs. rewrite Hh3. split; [intros [|[[=] _]]; done|by left]. }
  rewrite <-Hb in Hkids.
  assert (Hw : forall y r4, walk c pc binName cueName p admitted walkFuel kids (rd_base rf) (eo_typ o) b (-1) 0 1 r3 = (y, r4) ->
    walked kids [] total r3 y r4) by (intros y r4; apply walk_ok; [exact Hset3|by left|exact Hkids]).
  apply io_bind_inv in Hx as [([] & r4 & H4' & Hx)|(e & H4' & ->)]; apply Hw in H4' as (Hc4 & Hp4 & Hfin); [|done].
  destruct (Hfin eq_refl) as [Hset4 Hall]. apply (Hstep r4); [exact Hset4| |by apply Hall|exact Hx].
  intros q Hq. destruct Hp4 as [l Hl]. destruct Hs as (S1 & _). unfold idxs in *. rewrite Hl, Hh3, S1, fmap_app. apply elem_of_app. by left.
Qed.

Lemma start_settled s : settled [] 0 (start_resolver p s).
Proof.
  split; [|split; [|cbn; lia]].
  - split; cbn; [done|done|by intros pl ?%elem_of_nil|constructor].
  - destruct (in_refs _ _ Hix) as (Hi & _). split; cbn.
    + constructor.
    + by intros k ?%elem_of_nil.
    + by intros k ?%elem_of_nil.
    + by intros b k ?%elem_of_nil.
    + by intros b ?%elem_of_nil.
    + intros r Hr. destruct (Hi r Hr) as [-> _]. split; [by intros ?%elem_of_nil|done].
    + done.
    + intros k Hk _. split; [by intros ?%elem_of_nil|]. unfold entry_in in Hk. lia.
Qed.

Lemma run_ok s x r : run c pc binName cueName p admitted (start_resolver p s) = (x, r) -> r_asked r ⊆ asked ->
  core c pc binName p asked r /\ (x = Ok tt -> settled [] total r /\ refs_placed (length (p_refs p)) r).
Proof.
  intros Hx Ha. unfold run in Hx. apply io_bind_inv in Hx as [([] & r1 & H1' & Hx)|(e & H1' & ->)];
    apply (run_roots_ok _ 0) in H1' as [Hc1 Hok1]; try apply start_settled; try lia; [|done].
  apply (run_refs_ok _ 0) in Hx; [exact Hx|by apply Hok1| |lia|exact Ha]. intros q rf Hq. lia.
Qed.

(** Whatever an entry is, its name is the hash of its type, size and bytes. *)
Lemma git_object_hash i h typ b : git_object c p asked i h typ b -> h = HasherSum typ (blen b) b.
Proof.
  destruct 1 as [i o out Ho Hd Hz|i o bh typ base delta out h Ho _ _ _ Ha|i o r j typ base delta out h Ho _ _ _ _ _ Ha|i o r typ base delta out h Ho _ _ _ _ _ Ha];
    [|by apply apply_hash in Ha..].
  destruct (oo_body _ _ _ _ (in_objects _ _ Hix _ _ Ho)) as (out' & Hz' & Hsz & Hh). rewrite (stream_unique _ _ _ Hz Hz'). unfold blen. rewrite Hsz. by apply Hh.
Qed.

(** Every entry is placed, by induction on its position. *)
Lemma all_placed r : settled [] total r -> refs_placed (length (p_refs p)) r -> idxs r ≡ₚ Z.of_nat <$> seq 0 (length (p_objs p)).
Proof.
  intros (_ & Hs & _) Hpl. rewrite app_nil_r in Hs.
  assert (Hin : forall k, entry_in k -> k ∈ idxs r).
  { intros k Hk. pose proof (proj1 Hk) as H0'. revert k H0' Hk. apply (Zlt_0_ind (fun k => entry_in k -> k ∈ idxs r)).
    intros k IH _ Hk. destruct (obj_entry k Hk) as [Ho Hn].
    destruct (IsDelta (i_typ (obj_at p k))) eqn:Ed; [|apply (sc_root _ _ _ _ Hs k Hk Ed); unfold entry_in in Hk; lia].
    destruct (base_cases k Hk) as [[Ht Hb]|[Ht _]].
    - assert (Hbe : entry_in (i_base (obj_at p k))) by (unfold entry_in in *; lia).
      eapply (sc_kids _ _ _ _ Hs); [apply (IH _ Hb Hbe)|]. by apply ofs_kid.
    - unfold IsDelta in Ed. rewrite orb_true_iff in Ed. destruct Ed as [Ed|Ed]; b2p; [done|].
      destruct (in_refs _ _ Hix) as (_ & Hex & _). destruct (Hex _ _ Ho Ed) as (rf & Hrf & Hi). rewrite Hn in Hi.
      apply list_elem_of_lookup in Hrf as [q Hq]. rewrite <-Hi. eapply Hpl; [by eapply lookup_lt_Some|exact Hq]. }
  apply NoDup_Permutation; [apply Hs|apply NoDup_fmap; [intros ? ?; lia|apply NoDup_seq]|].
  intros k. rewrite list_elem_of_fmap. split.
  - intros Hk. apply (sc_range _ _ _ _ Hs) in Hk. unfold entry_in in Hk. exists (Z.to_nat k). split; [lia|]. apply elem_of_seq. lia.
  - intros (j & -> & Hj). apply elem_of_seq in Hj. apply Hin. unfold entry_in. lia.
Qed.
End schedule.
