(* ===== verification/PushSpec.v ===== *)
(** * What a push promises

    The resolver and the containers together: every entry of the pack is placed
    once, every container stands on its own, and once sealed it gives back what
    the pack says each entry is. *)

From S2P Require Import Prelude GoLib S3 Concrete Codec Cue PackTable PackIndex Storer StorerSpec Objects ObjectsSpec Delta Segment SegmentSpec PackScan ConcretePack PackScanSpec Resolver ResolverSpec ResolverContent ResolverComplete.

(** All the containers of a run, the open one last. *)
Definition containers `{GoGit, S3} (r : resolver) : list packSegment := r_sealed r ++ option_list (r_seg r).

Section push.
Context `{GoGit, Zstd, Sha256, S3, GoGitObjects, Zlib, PackHash, !ZstdLaws, !ZlibLaws, !GoGitLaws}.
Context (c : config) (pc : packPolicy) (binName : Z -> bytes) (p : incomingPack).

(** The reader's delta library and the writer's own code agree. *)
Definition patches_agree : Prop := forall typ base delta out h, apply typ base delta = Ok (out, h) -> PatchDelta base delta = Some out.

(** What the objects of a container need for its index. *)
Definition storable (hs : nat) (sos : list storedObject) : Prop :=
  NoDup ((HashBytes ∘ so_hash) <$> sos) /\
  Forall (fun so => length (HashBytes (so_hash so)) = hs /\ FromBytes (HashBytes (so_hash so)) = Some (so_hash so) /\
    so_hash so <> ZeroHash /\ so_raw so <= payloadMaxDecoded) sos.

Lemma objs_of_elem hist serial pl : pl ∈ hist -> pl_serial pl = serial -> pl_obj pl ∈ objs_of serial hist.
Proof. intros Hp Hs. apply list_elem_of_fmap_2, list_elem_of_filter. done. Qed.

(** Two placements of a container with one hash are one. *)
Lemma placed_inj hs serial hist a b : storable hs (objs_of serial hist) -> a ∈ hist -> b ∈ hist ->
  pl_serial a = serial -> pl_serial b = serial -> so_hash (pl_obj a) = so_hash (pl_obj b) -> a = b.
Proof.
  intros [Hn _] Ha Hb Hsa Hsb Hab. unfold objs_of in Hn. rewrite <-list_fmap_compose in Hn.
  assert (Hf : forall q, q ∈ hist -> pl_serial q = serial -> q ∈ filter (fun pl => pl_serial pl = serial) hist)
    by (intros q Hq Hs; by apply list_elem_of_filter).
  apply (Hf a) in Ha; [|done]. apply (Hf b) in Hb; [|done]. apply list_elem_of_lookup in Ha as [i Hi], Hb as [j Hj].
  assert (i = j) as ->; [|rewrite Hi in Hj; by injection Hj].
  apply (NoDup_lookup _ i j (HashBytes (so_hash (pl_obj a))) Hn); rewrite list_lookup_fmap; [by rewrite Hi|rewrite Hj].
  cbn. by rewrite Hab.
Qed.

Lemma holds_raw hist pl plain : holds hist pl plain -> so_raw (pl_obj pl) = blen plain.
Proof. by destruct 1. Qed.

Lemma holds_rebuilds hs hist serial pl plain : patches_agree -> storable hs (objs_of serial hist) ->
  holds hist pl plain -> pl ∈ hist -> pl_serial pl = serial ->
  rebuilds (objs_of serial hist) (so_hash (pl_obj pl)) (pl_chain pl)
    {| eo_typ := so_typ (pl_obj pl); eo_size := so_raw (pl_obj pl); eo_bytes := plain |}.
Proof.
  intros Hpa Hst Hh. induction Hh as [pl Hb Hc Hr|pl pl' base out Hin' Hs' Hh' Ht' Hc Hbase IH Ha Hr]; intros Hin Hs.
  - rewrite Hc. apply rebuilds_whole; [by apply objs_of_elem|done|done].
  - rewrite Hc. assert (He' : pl_obj pl' ∈ objs_of serial hist) by (apply objs_of_elem; [done|congruence]).
    pose proof (proj2 Hst) as Hwf. rewrite Forall_forall in Hwf.
    eapply rebuilds_delta; [by apply objs_of_elem| | |rewrite <-Hh'; apply IH; [done|congruence]|by eapply Hpa|done].
    + rewrite <-Hh'. by apply Hwf.
    + rewrite <-Hh'. intros Heq. assert (pl' = pl) as -> by (eapply placed_inj; [exact Hst|done|done|congruence|done|done]). lia.
Qed.
End push.

(** ** Properties *)

(** C2: a pack that resolves is stored completely: every entry of the pack has
    been placed exactly once, and each placement is, whole or through its delta
    chain inside its container, the object git's format says the entry is: its
    inflated body, or its delta applied to the object its base names, be that in
    the pack or, for a REF delta that names no entry, in what the repository
    answered for that very name in one of the states in which this push asked
    it. Each is stored under the hash of its own type, size and bytes. *)
Theorem resolved_pack_complete `{GoGit, Zstd, Sha256, S3, GoGitObjects, Zlib, PackHash} (c : config) (pc : packPolicy)
    (binName cueName : Z -> bytes) (p : incomingPack) (admitted : bool) (s : St) (r : resolver) :
  ZstdLaws -> ZlibLaws -> GoGitLaws -> (c_hashLen c = 20 \/ c_hashLen c = 32)%nat -> indexed (c_hashLen c) p ->
  run c pc binName cueName p admitted (start_resolver p s) = (Ok tt, r) ->
  (pl_idx <$> r_hist r) ≡ₚ (Z.of_nat <$> seq 0 (length (p_objs p))) /\
  forall pl, pl ∈ r_hist r -> exists plain,
    git_object c p (r_asked r) (pl_idx pl) (so_hash (pl_obj pl)) (so_typ (pl_obj pl)) plain /\
    so_hash (pl_obj pl) = HasherSum (so_typ (pl_obj pl)) (blen plain) plain /\ holds (r_hist r) pl plain.
Proof.
  intros Hz Hzl Hg Hhs Hix Hr. apply (run_ok c pc binName cueName p admitted (r_asked r)) in Hr as [Hc Hok]; [|done..].
  destruct (Hok eq_refl) as [Hset Hpl].
  split; [by eapply all_placed|]. intros pl Hin. destruct (co_hist _ _ _ _ _ _ _ _ _ Hc pl Hin) as [_ _ _ _ (plain & Hgo & Hh)].
  exists plain. split; [exact Hgo|]. split; [by eapply git_object_hash|exact Hh].
Qed.

(** However a push ends, each container it has built stands on its own: its
    records are those of the objects placed in it; a delta is stored only against
    an object of the same container and only when it is smaller than what it
    rebuilds; no chain is longer than a reader follows; and unless it holds a
    single object the container stays within the byte cap. *)
Theorem containers_self_contained `{GoGit, Zstd, Sha256, S3, GoGitObjects, Zlib, PackHash} (c : config) (pc : packPolicy)
    (binName cueName : Z -> bytes) (p : incomingPack) (admitted : bool) (s : St) (x : gores unit) (r : resolver) :
  ZstdLaws -> ZlibLaws -> GoGitLaws -> (c_hashLen c = 20 \/ c_hashLen c = 32)%nat -> indexed (c_hashLen c) p ->
  run c pc binName cueName p admitted (start_resolver p s) = (x, r) ->
  (forall j g, containers r !! j = Some g ->
    add_all pc (objs_of (Z.of_nat (S j)) (r_hist r)) (newPackSegment (binName (Z.of_nat (S j)))) = Ok g /\
    (small pc (r_hist r) -> (length (g_recs g) <= 1)%nat \/ g_offset g <= byteLimit pc)) /\
  (forall pl, pl ∈ r_hist r -> 1 <= pl_serial pl <= Z.of_nat (length (containers r)) /\ (pl_chain pl <= maxDeltaDepth)%nat /\
    (pl_chain pl = 0%nat \/ p_size (so_payload (pl_obj pl)) < so_raw (pl_obj pl) /\
      exists base, base ∈ r_hist r /\ pl_serial base = pl_serial pl /\ so_hash (pl_obj base) = so_base (pl_obj pl) /\
        pl_chain pl = S (pl_chain base))).
Proof.
  intros Hz Hzl Hg Hhs Hix Hr. apply (run_ok c pc binName cueName p admitted (r_asked r)) in Hr as [Hc _]; [|done..]. destruct Hc as [C1 C2 C3 C4]. split.
  - intros j g Hj. split; [by apply C2|]. intros Hs. specialize (C4 Hs). rewrite Forall_forall in C4. apply C4. by eapply list_elem_of_lookup_2.
  - intros pl Hin. destruct (C3 pl Hin) as [S1 S2 S3' _ (plain & _ & Hh)]. unfold containers. rewrite <-C1. split; [done|]. split; [done|].
    destruct Hh as [pl Hb Hc Hraw|pl pl' base out Hin' Hs' Hh' Ht' Hch _ _ _]; [by left|]. right. split; [apply S3'; lia|]. by exists pl'.
Qed.

(** C1: what was pushed is what is read: once a container of a push is sealed by a
    storer whose index is built, every object of it reads back as the pack's
    entry, before any upload, through a delta chain or not, whatever the rest of
    the storer's state: a container that failed to upload before and is sealed
    again included. The container must not hold two objects of one name, nor an
    object over the one GiB that a reader accepts, and a copy of the object that
    this storer is still uploading on its own would be read instead. *)
Theorem pushed_object_reads_back `{GoGit, Zstd, Sha256, S3, GoGitObjects, Zlib, PackHash} (c : config) (pc : packPolicy)
    (binName cueName : Z -> bytes) (p : incomingPack) (admitted : bool) (s : St) (x : gores unit) (r : resolver)
    (j : nat) (g : packSegment) (pl : placement) (cuePath : bytes) (s0 s1 : St) :
  ZstdLaws -> ZlibLaws -> GoGitLaws -> GoGitObjectsLaws -> patches_agree ->
  (c_hashLen c = 20 \/ c_hashLen c = 32)%nat -> indexed (c_hashLen c) p ->
  run c pc binName cueName p admitted (start_resolver p s) = (x, r) ->
  containers r !! j = Some g -> pl ∈ r_hist r -> pl_serial pl = Z.of_nat (S j) ->
  storable (p_hashSize (packs s0)) (objs_of (Z.of_nat (S j)) (r_hist r)) ->
  wf_index (packs s0) -> built (packs s0) = true -> fits (packs s0) (length (objs_of (Z.of_nat (S j)) (r_hist r))) ->
  cuePath <> binName (Z.of_nat (S j)) -> seal c true cuePath g s0 = (Ok tt, s1) ->
  pending s0 !! so_hash (pl_obj pl) = None ->
  exists plain, git_object c p (r_asked r) (pl_idx pl) (so_hash (pl_obj pl)) (so_typ (pl_obj pl)) plain /\
    so_hash (pl_obj pl) = HasherSum (so_typ (pl_obj pl)) (blen plain) plain /\ so_raw (pl_obj pl) = blen plain /\
    EncodedObject c AnyObject (so_hash (pl_obj pl)) s1 =
      (Ok {| eo_typ := so_typ (pl_obj pl); eo_size := blen plain; eo_bytes := plain |}, s1).
Proof.
  intros Hz Hzl Hg Hgo Hpa Hhs Hix Hr Hj Hin Hser Hst Hwf Hb Hfit Hne Hseal Hp.
  apply (run_ok c pc binName cueName p admitted (r_asked r)) in Hr as [Hc _]; [|done..].
  pose proof (co_segs _ _ _ _ _ _ _ _ _ Hc j g Hj) as Hadd. pose proof (co_hist _ _ _ _ _ _ _ _ _ Hc) as Hall.
  destruct (Hall pl Hin) as [_ Hch _ _ (plain & Hgit & Hh)]. exists plain. split; [exact Hgit|]. split; [by eapply git_object_hash|].
  pose proof (holds_raw _ _ _ Hh) as Hraw. split; [exact Hraw|]. rewrite <-Hraw.
  eapply seal_reads_back; [exact Hadd|exact Hwf|exact Hb|exact Hfit| |apply Hst|exact Hne|exact Hseal| |exact Hp|exact Hch].
  2:{ by eapply holds_rebuilds. }
  rewrite Forall_forall. intros so Hso. pose proof (proj2 Hst) as Hw. rewrite Forall_forall in Hw.
  destruct (objs_of_in _ _ _ Hso) as (q & Hq & Hqs & <-). destruct (Hw _ Hso) as (W1 & W2 & W3 & W4).
  destruct (Hall q Hq) as [_ _ _ Hsz (b & _ & Hhb)]. split; [exact W1|]. split; [|lia].
  destruct Hhb as [q' Hb' _ _|q' pl' base out Hin' Hs' Hh' _ _ _ _ _]; [by left|]. right. rewrite <-Hh'.
  apply Hw. apply objs_of_elem; [done|congruence].
Qed.

(** ** Witnesses *)

(** A reader's delta library that follows the format. *)
Definition delta_objects : GoGitObjects := {|
  MemWrite n b := if n =? Z.of_nat (length b) then Some n else None;
  PatchDelta base d := match @Delta.apply toy_git BlobObject base d with Ok (out, _) => Some out | Err _ => None end;
|}.

Lemma delta_objects_laws : @GoGitObjectsLaws delta_objects.
Proof. split. intros b. cbn. by rewrite Z.eqb_refl. Qed.

Lemma delta_objects_agree : @patches_agree toy_git delta_objects.
Proof.
  intros typ base delta out h Ha. cbn. unfold apply in *. apply res_bind_ok in Ha as ([src d] & H1' & Ha). rewrite H1'. cbn [res_bind].
  destruct (negb _); [done|]. apply res_bind_ok in Ha as ([tgt d'] & H2' & Ha). rewrite H2'. cbn [res_bind].
  destruct (_ >? _); [done|]. apply res_bind_ok in Ha as ([o rest] & H3' & Ha). rewrite H3'. cbn [res_bind].
  destruct rest; [|done]. by injection Ha as <- _.
Qed.

(** "the quick brown fox ..." whole, and a delta against it 46 bytes back. *)
Definition fox_entries : bytes :=
  bz 187 :: bz 2 :: deflated sample_base ++ bz (96 + 14) :: bz 46 :: deflated (encode_delta sample_base sample_ops).
Definition fox_pack : bytes := pack_bytes 2 fox_entries.
Definition index_of (d : bytes) : @incomingPack toy_git :=
  match @scanPack toy_git toy_zlib toy_pack_hash 20 d with Ok (p, _) => p | Err _ => forest_pack end.
Definition fox_index : @incomingPack toy_git := index_of fox_pack.
Definition bin_n (n : Z) : bytes := bs "/tmp/bin" ++ FormatInt n.
Definition cue_n (n : Z) : bytes := bs "/tmp/cue" ++ FormatInt n.
Abbreviation run_of p := (@run toy_git toy_zstd toy_sha Plain.plain_s3 delta_objects toy_zlib unit_config small_policy bin_n cue_n p true
  (@start_resolver toy_git Plain.plain_s3 p fresh_state)).
Definition fox_end : @resolver toy_git Plain.plain_s3 := snd (run_of fox_index).

Lemma fox_indexed : @indexed toy_git toy_zlib toy_pack_hash 20 fox_index.
Proof.
  assert (Hs : @scanPack toy_git toy_zlib toy_pack_hash 20 fox_pack = Ok (fox_index, [])) by reflexivity.
  exact (proj2 (@scan_indexed toy_git toy_zlib toy_pack_hash toy_zlib_laws 20 fox_pack fox_index [] toy_hasher_width Hs)).
Qed.

Lemma fox_runs : run_of fox_index = (Ok tt, fox_end).
Proof.
  assert (Hok : is_ok (fst (run_of fox_index)) = true) by (vm_compute; reflexivity).
  unfold fox_end. destruct (run_of fox_index) as [[[]|e] r]; [done|discriminate Hok].
Qed.

Lemma resolved_pack_complete_witness :
  run_of fox_index = (Ok tt, fox_end) /\ (pl_idx <$> r_hist fox_end) ≡ₚ [0; 1].
Proof.
  split; [exact fox_runs|].
  exact (proj1 (@resolved_pack_complete toy_git toy_zstd toy_sha Plain.plain_s3 delta_objects toy_zlib toy_pack_hash unit_config small_policy
    bin_n cue_n fox_index true fresh_state fox_end toy_zstd_laws toy_zlib_laws toy_git_laws (or_introl eq_refl) fox_indexed fox_runs)).
Defined.

Lemma containers_self_contained_witness :
  run_of fox_index = (Ok tt, fox_end) /\ (pl_chain <$> r_hist fox_end) = [0; 1]%nat /\ length (containers fox_end) = 1%nat /\
  forall pl, pl ∈ r_hist fox_end -> (pl_chain pl <= maxDeltaDepth)%nat.
Proof.
  split; [exact fox_runs|]. split; [vm_compute; reflexivity|]. split; [vm_compute; reflexivity|]. intros pl Hpl.
  destruct (@containers_self_contained toy_git toy_zstd toy_sha Plain.plain_s3 delta_objects toy_zlib toy_pack_hash unit_config small_policy
    bin_n cue_n fox_index true fresh_state (Ok tt) fox_end toy_zstd_laws toy_zlib_laws toy_git_laws (or_introl eq_refl) fox_indexed fox_runs)
    as [_ Hall].
  exact (proj1 (proj2 (Hall pl Hpl))).
Defined.

Definition fox_container : @packSegment toy_git := match containers fox_end with g :: _ => g | [] => newPackSegment [] end.
Definition fox_delta : @placement toy_git :=
  match r_hist fox_end with [_; pl] => pl | _ => {| pl_idx := 0; pl_serial := 0; pl_chain := 0; pl_obj := stored_n 1 [] ZeroHash 0 |} end.
Definition fox_sealed : @St toy_git Plain.plain_s3 :=
  snd (@seal toy_git toy_zstd toy_sha Plain.plain_s3 unit_config true (cue_n 1) fox_container fresh_state).

Definition storable_b (hs : nat) (sos : list (@storedObject toy_git)) : bool :=
  bool_decide (NoDup ((HashBytes ∘ so_hash) <$> sos)) &&
  forallb (fun so => (length (HashBytes (so_hash so)) =? hs)%nat &&
    bool_decide (FromBytes (HashBytes (so_hash so)) = Some (so_hash so)) && bool_decide (so_hash so <> ZeroHash) &&
    (so_raw so <=? payloadMaxDecoded)) sos.
Lemma storable_b_ok hs sos : storable_b hs sos = true -> @storable toy_git hs sos.
Proof.
  unfold storable_b. intros Hb. apply andb_true_iff in Hb as [Hn Hf]. split; [by apply bool_decide_eq_true in Hn|].
  rewrite forallb_forall in Hf. rewrite Forall_forall. intros so Hso. apply list_elem_of_In in Hso. specialize (Hf so Hso).
  rewrite !andb_true_iff, !bool_decide_eq_true in Hf. destruct Hf as [[[H1' H2'] H3'] H4']. b2p. done.
Qed.

Lemma fresh_wf : wf_index (packs fresh_state).
Proof. destruct empty_wf as [W1 W2 W3 W4 W5]. exact (@Build_wf_index _ (set_built (newPackIndex 20)) W1 W2 W3 W4 W5). Qed.

Lemma pushed_object_reads_back_witness :
  exists plain, @EncodedObject toy_git toy_zstd Plain.plain_s3 delta_objects unit_config AnyObject (so_hash (pl_obj fox_delta)) fox_sealed =
    (Ok {| eo_typ := so_typ (pl_obj fox_delta); eo_size := so_raw (pl_obj fox_delta); eo_bytes := plain |}, fox_sealed).
Proof.
  assert (Hc : containers fox_end !! 0%nat = Some fox_container).
  { assert (Hl : (length (containers fox_end) =? 0)%nat = false) by (vm_compute; reflexivity).
    unfold fox_container. destruct (containers fox_end); [discriminate Hl|reflexivity]. }
  assert (Hd : r_hist fox_end !! 1%nat = Some fox_delta).
  { assert (Hl : (length (r_hist fox_end) =? 2)%nat = true) by (vm_compute; reflexivity).
    unfold fox_delta. destruct (r_hist fox_end) as [|a [|b [|d l]]]; try discriminate Hl. reflexivity. }
  assert (Hin : fox_delta ∈ r_hist fox_end) by (exact (list_elem_of_lookup_2 _ _ _ Hd)).
  assert (Hst : storable_b 20 (objs_of 1 (r_hist fox_end)) = true) by (vm_compute; reflexivity).
  assert (Hok : is_ok (fst (@seal toy_git toy_zstd toy_sha Plain.plain_s3 unit_config true (cue_n 1) fox_container fresh_state)) = true)
    by (vm_compute; reflexivity).
  assert (Hseal : @seal toy_git toy_zstd toy_sha Plain.plain_s3 unit_config true (cue_n 1) fox_container fresh_state = (Ok tt, fox_sealed)).
  { unfold fox_sealed. destruct (@seal toy_git toy_zstd toy_sha Plain.plain_s3 unit_config true (cue_n 1) fox_container fresh_state) as [[[]|e] r]; [reflexivity|discriminate Hok]. }
  assert (Hser : pl_serial fox_delta = 1) by (vm_compute; reflexivity).
  assert (Hfit : fits (packs fresh_state) (length (objs_of 1 (r_hist fox_end)))) by (split; vm_compute; reflexivity).
  assert (Hne : cue_n 1 <> bin_n 1) by (apply (bool_decide_unpack _); vm_compute; exact I).
  assert (Hp : pending fresh_state !! so_hash (pl_obj fox_delta) = None) by (apply lookup_empty).
  destruct (@pushed_object_reads_back toy_git toy_zstd toy_sha Plain.plain_s3 delta_objects toy_zlib toy_pack_hash unit_config small_policy
    bin_n cue_n fox_index true fresh_state (Ok tt) fox_end 0 fox_container fox_delta (cue_n 1) fresh_state fox_sealed
    toy_zstd_laws toy_zlib_laws toy_git_laws delta_objects_laws delta_objects_agree (or_introl eq_refl) fox_indexed fox_runs
    Hc Hin Hser (storable_b_ok _ _ Hst) fresh_wf eq_refl Hfit Hne Hseal Hp) as (plain & _ & _ & Hraw & Hread).
  exists plain. rewrite Hraw. exact Hread.
Defined.

(** ** One object twice *)

(** A pack may carry an object whole and again as a delta on a delta of itself.
    Both go into the container, and the index keeps the later record: the object
    is then based on an object that is based on it, and neither can be read. *)
Definition jump_delta : bytes :=
  encode_delta (denote sample_base sample_ops) [InsertOp (bs "the "); CopyOp 0 16; InsertOp (bs "jumps"); CopyOp 21 18].
Definition twice_pack : bytes := pack_bytes 3 (fox_entries ++ bz 226 :: bz 1 :: bz 17 :: deflated jump_delta).
Definition pushed (d : bytes) : @St toy_git Plain.plain_s3 :=
  snd (@pw_Close toy_git toy_zstd toy_sha Plain.plain_s3 delta_objects toy_zlib toy_pack_hash unit_config small_policy bin_n cue_n true
    (snd (@ReadPack toy_git toy_zlib toy_pack_hash unit_config d PackfileWriter)) fresh_state).
Definition fox_hash : @Hash toy_git := HasherSum BlobObject (blen sample_base) sample_base.
Definition reads_after (d : bytes) : bool :=
  is_ok (fst (@EncodedObject toy_git toy_zstd Plain.plain_s3 delta_objects unit_config AnyObject fox_hash (pushed d))).

Example object_pushed_twice_is_lost : reads_after fox_pack = true /\ reads_after twice_pack = false.
Proof. vm_compute. split; reflexivity. Qed.
