(* ===== verification/ReceivePack.v ===== *)
(** * Receiving a push (cmd/objgitd/receivepack.go)

    [receivePackStreaming]: the pack into the storer, the reference commands,
    the report to the client, and the callback for what landed.  What the
    connection does at each step is given by [conn]; times are not modelled. *)

From S2P Require Import Prelude GoLib S3 Codec PackedRefs Cue PackTable PackIndex Storer RepoConfig Refs Objects Segment PackScan Resolver.

(** go-git's [packp.Action]. *)
Inductive cmd_action := Create | Update | Delete | Invalid.

(** go-git: [Hash.IsZero] and [Command.Action]. *)
Class GitWire `{GoGit} := {
  IsZero : Hash -> bool;
  ActionOf : Hash -> Hash -> cmd_action;    (** of the old and the new hash *)
}.

Definition err_of (r : gores unit) : option goerr := match r with Ok _ => None | Err e => Some e end.

Section receive.
Context `{GoGit, Zstd, S3, !GitWire}.
Context (c : config).

Abbreviation M := (io St).

(** [packp.Command] *)
Record command := { m_name : bytes; m_old : Hash; m_new : Hash }.
Definition Action (cmd : command) : cmd_action := ActionOf (m_old cmd) (m_new cmd).

Record refUpdate := { u_name : bytes; u_old : Hash; u_new : Hash }.

(** The statuses by reference name; [None] is success. *)
Abbreviation cmdStatus := (gmap bytes (option goerr)).
Abbreviation statuses := (cmdStatus * option goerr)%type.

Definition setStatus (ref : bytes) (err : option goerr) (st : statuses) : statuses :=
  let '(cmds, first) := st in
  (<[ref := err]> cmds, match first, err with None, Some e => Some e | _, _ => first end).

Definition successfulRefUpdates (cmds : list command) (status : cmdStatus) : list refUpdate :=
  omap (fun cmd =>
    match status !! m_name cmd with
    | Some None =>
        if bool_decide (m_old cmd = m_new cmd) then None
        else Some {| u_name := m_name cmd; u_old := m_old cmd; u_new := m_new cmd |}
    | _ => None
    end) cmds.

(** Whether the current value is the one the command advertises. *)
Definition command_fits (cmd : command) (cur : option reference) : bool :=
  match Action cmd with
  | Create => match cur with Some _ => false | None => true end
  | Update | Delete =>
      match cur with Some r => is_hash_ref r && bool_decide (ref_hash r = m_old cmd) | None => false end
  | Invalid => false
  end.

Definition validateRefCommand (cmd : command) : M unit :=
  try! r := Reference c (m_name cmd) in
  let check cur := if command_fits cmd cur then ret tt else fail (Sent ErrUpdateReference) in
  match r with
  | Ok cur => check (Some cur)
  | Err e => if errors_is e ErrReferenceNotFound then check None else fail e
  end.

Definition refCommandVisible (cmd : command) : M bool :=
  try! r := Reference c (m_name cmd) in
  ret (if IsZero (m_new cmd) then match r with Err e => errors_is e ErrReferenceNotFound | Ok _ => false end
       else match r with Ok cur => is_hash_ref cur && bool_decide (ref_hash cur = m_new cmd) | Err _ => false end).

(** The first loop of [updateReferencesBatched]: the commands staged, in order. *)
Fixpoint stage (cmds : list command) (st : statuses) : M (list command * statuses) :=
  match cmds with
  | [] => ret ([], st)
  | cmd :: cmds =>
      try! r := validateRefCommand cmd in
      match r with
      | Err e => stage cmds (setStatus (m_name cmd) (Some e) st)
      | Ok _ => let! (staged, st) := stage cmds st in ret (cmd :: staged, st)
      end
  end.

Definition sets_of (staged : list command) : list reference :=
  omap (fun cmd => match Action cmd with Create | Update => Some (HashReference (m_name cmd) (m_new cmd)) | _ => None end) staged.
Definition removes_of (staged : list command) : list bytes :=
  omap (fun cmd => match Action cmd with Delete => Some (m_name cmd) | _ => None end) staged.
Definition expected_of (staged : list command) : gmap bytes Hash :=
  fold_left (fun m cmd => <[m_name cmd := m_old cmd]> m) staged ∅.

(** One shared status for every staged command. *)
Definition set_all (err : option goerr) (staged : list command) (st : statuses) : statuses :=
  foldl (fun st cmd => setStatus (m_name cmd) err st) st staged.

(** After a commit whose cleanup failed: only what can be seen is reported. *)
Fixpoint report_visible (e : goerr) (staged : list command) (st : statuses) : M statuses :=
  match staged with
  | [] => ret st
  | cmd :: staged =>
      let! seen := refCommandVisible cmd in
      report_visible e staged (setStatus (m_name cmd) (if seen : bool then None else Some e) st)
  end.

Definition updateReferencesBatched (cmds : list command) : M statuses :=
  let! (staged, st) := stage cmds (∅, None) in
  match staged with
  | [] => ret st
  | _ =>
      try! r := (if SupportsCheckedRefUpdates c
                 then UpdateReferencesChecked c IsZero (sets_of staged) (removes_of staged) (expected_of staged)
                 else UpdateReferences c (sets_of staged) (removes_of staged)) in
      match r with
      | Ok _ => ret (set_all None staged st)
      | Err e => if ref_update_committed e then report_visible e staged st else ret (set_all (Some e) staged st)
      end
  end.

Fixpoint updateReferencesOneByOne (cmds : list command) (st : statuses) : M statuses :=
  match cmds with
  | [] => ret st
  | cmd :: cmds =>
      try! r := validateRefCommand cmd in
      match r with
      | Err e => updateReferencesOneByOne cmds (setStatus (m_name cmd) (Some e) st)
      | Ok _ =>
          match Action cmd with
          | Create | Update =>
              try! r := SetReference c (Some (HashReference (m_name cmd) (m_new cmd))) in
              updateReferencesOneByOne cmds (setStatus (m_name cmd) (err_of r) st)
          | Delete =>
              try! r := RemoveReference c (m_name cmd) in
              updateReferencesOneByOne cmds (setStatus (m_name cmd) (err_of r) st)
          | Invalid => updateReferencesOneByOne cmds st
          end
      end
  end.

(** The tigris storer has both optional surfaces. *)
Definition updateReferences (cmds : list command) : M statuses :=
  if negb (SupportsCheckedRefUpdates c) then updateReferencesOneByOne cmds (∅, None)
  else updateReferencesBatched cmds.

(** ** The request *)

Context `{Sha256, GoGitObjects, Zlib, PackHash, GitConfig}.
Context (pc : packPolicy) (binName cueName : Z -> bytes) (admitted : bool).

(** [writePack], for a storer whose writer reads the pack itself; the object
    format of the configuration matters only to the scanner it then does not use. *)
Definition writePack (rd : bytes) : M unit :=
  try! _ := Config c in
  let '(r, w) := ReadPack c rd PackfileWriter in
  match r with
  | Err e => let! _ := pw_Close c pc binName cueName admitted w in fail e
  | Ok _ => let! (r, _) := pw_Close c pc binName cueName admitted w in lift r
  end.

Record capabilities := { k_pushOptions : bool; k_noProgress : bool; k_sideband64k : bool; k_sideband : bool; k_reportStatus : bool }.

(** [transport.ProtocolVersion] *)
Inductive protocol := V0 | V1 | V2 | VOther.

(** A [transport.ReceivePackRequest], and what each step of the connection gives. *)
Record conn := {
  x_advertiseRefs : bool; x_statelessRPC : bool; x_protocol : protocol;
  x_version : gores unit; x_advertise : gores unit; x_nilReader : bool;
  x_peek : gores bool;                       (** whether the first line is a flush *)
  x_decode : gores (list command * capabilities); x_pushOptions : gores unit;
  x_admit : option (gores unit);             (** [None]: no limit *)
  x_pack : bytes; x_closeReader : gores unit;
  x_sendStatus : gores unit; x_flush : gores unit; x_closeWriter : gores unit;
}.

(** What is sent, and the callback, in order. *)
Inductive event :=
  | ReportStatus (unpack : option goerr) (cmds : cmdStatus)
  | OnUpdated (progress : bool) (updates : list refUpdate)
  | FlushPkt.

Record RP := { rp_st : St; rp_events : list event }.
Abbreviation P := (io RP).

Definition on_storer {A} (m : M A) : P A := fun s =>
  let '(r, st) := m (rp_st s) in (r, {| rp_st := st; rp_events := rp_events s |}).
Definition emit (e : event) : P unit := modify (fun s => {| rp_st := rp_st s; rp_events := rp_events s ++ [e] |}).

Definition sendReportStatus (x : conn) (unpack : option goerr) (cmds : cmdStatus) : P unit :=
  do! emit (ReportStatus unpack cmds) in lift (x_sendStatus x).
Definition closeWriter (x : conn) : gores unit :=
  match x_closeWriter x with Ok _ => Ok tt | Err e => Err (Wrapf e) end.

Definition needPackfile (cmds : list command) : bool :=
  existsb (fun cmd => match Action cmd with Delete => false | _ => true end) cmds.
Definition useSideband (k : capabilities) : bool := negb (k_noProgress k) && (k_sideband64k k || k_sideband k).

(** What the request says before anything is stored; [None] ends the call. *)
Definition read_request (x : conn) : gores (option (list command * capabilities)) :=
  let? _ := if x_advertiseRefs x || negb (x_statelessRPC x) then
      let? _ := match x_protocol x with
        | V1 => x_version x
        | V0 | V2 => Ok tt
        | VOther => Err (Wrapf (Sent ErrUnsupportedVersion))
        end in
      x_advertise x
    else Ok tt in
  if x_advertiseRefs x then Ok None else
  if x_nilReader x then Err Errorf else
  let? flushed := x_peek x in
  if flushed : bool then Ok None else
  let? (cmds, k) := x_decode x in
  let? _ := if k_pushOptions k then match x_pushOptions x with Ok _ => Ok tt | Err e => Err (Wrapf e) end else Ok tt in
  Ok (Some (cmds, k)).

(** From the reference commands on. *)
Definition update_and_report (x : conn) (cmds : list command) (k : capabilities) : P unit :=
  let! (status, firstErr) := on_storer (updateReferences cmds) in
  let updates := successfulRefUpdates cmds status in
  try! sent := sendReportStatus x firstErr status in
  do! match updates with
      | [] => ret tt
      | _ => emit (OnUpdated (is_ok sent && useSideband k) updates)
      end in
  match sent with
  | Err e => fail e
  | Ok _ =>
      do! (if useSideband k then
             do! emit FlushPkt in
             lift (match x_flush x with Ok _ => Ok tt | Err e => Err (Wrapf e) end)
           else ret tt) in
      match firstErr with
      | Some e => fail e
      | None => lift (closeWriter x)
      end
  end.

Definition receivePackStreaming (x : conn) : P unit :=
  let! req := lift (read_request x) in
  match req with
  | None => ret tt
  | Some (cmds, k) =>
      match x_admit x with
      | Some (Err e) =>
          do! (if k_reportStatus k then try! _ := sendReportStatus x (Some e) ∅ in ret tt else ret tt) in
          fail e
      | _ =>
          try! unpacked := (if needPackfile cmds then on_storer (writePack (x_pack x)) else ret tt) in
          do! lift (match x_closeReader x with Ok _ => Ok tt | Err e => Err (Wrapf e) end) in
          if negb (k_reportStatus k) then lift unpacked else
          match unpacked with
          | Err e => sendReportStatus x (Some e) ∅
          | Ok _ => update_and_report x cmds k
          end
      end
  end.
End receive.
