(* ===== verification/ReceivePackSpec.v ===== *)
(** * What receiving a push promises

    A command reported as accepted was committed at one instant, from exactly
    the value the client advertised; the callback is told of those commands and
    no others; a push whose pack was not stored changes no reference. *)

From S2P Require Import SegmentSpec PackScanSpec ResolverSpec ResolverComplete PushSpec Prelude GoLib S3 Concrete Codec PackedRefs Cue PackTable PackIndex Storer StorerSpec RepoConfig Refs RefsSpec Objects Segment PackScan ConcretePack Resolver ReceivePack.

(** ** What an operation leaves alone *)

Section kept.
Context `{GoGit, Zstd, S3}.
Context {B} (f : St -> B).
Abbreviation M := (io St).

Definition kept {A} (m : M A) : Prop := forall s r s', m s = (r, s') -> f s' = f s.

Lemma kept_bind {A A'} (m : M A) (k : A -> M A') : kept m -> (forall a, kept (k a)) -> kept (io_bind m k).
Proof.
  intros Hm Hk s r s' Hr. apply io_bind_inv in Hr as [(a & s1 & H1' & H2')|(e & H1' & ->)].
  - apply Hm in H1'. apply Hk in H2'. congruence.
  - by apply Hm in H1'.
Qed.
Lemma kept_attempt {A} (m : M A) : kept m -> kept (attempt m).
Proof. intros Hm s r s' Hr. apply attempt_inv in Hr as (r0 & -> & Hr). by apply Hm in Hr. Qed.
Lemma kept_wrapping {A} (m : M A) : kept m -> kept (wrapping m).
Proof. intros Hm s r s' Hr. apply wrapping_inv in Hr as [(a & -> & Hr)|(e & -> & Hr)]; by apply Hm in Hr. Qed.
Lemma kept_same {A} (m : M A) : (forall s, f (snd (m s)) = f s) -> kept m.
Proof. intros Hm s r s' Hr. specialize (Hm s). by rewrite Hr in Hm. Qed.
Lemma kept_ret {A} (a : A) : kept (ret a).
Proof. by apply kept_same. Qed.
Lemma kept_fail {A} e : kept (fail (A := A) e).
Proof. by apply kept_same. Qed.
Lemma kept_lift {A} (x : gores A) : kept (lift x).
Proof. by apply kept_same. Qed.
Lemma kept_gets {A} (g : St -> A) : kept (gets g).
Proof. by apply kept_same. Qed.
Lemma kept_open p : kept (openFile p).
Proof. apply kept_same. intros s. unfold openFile. by destruct (files s !! p). Qed.
Lemma kept_request {A} (g : World -> gores A * World) : (forall w s, f (with_world w s) = f s) -> kept (request g).
Proof. intros Hf. apply kept_same. intros s. unfold request. destruct (g (world s)). apply Hf. Qed.
End kept.

(** Goes through the binds and case distinctions of an operation. *)
Ltac kept := repeat first
  [ apply kept_ret | apply kept_fail | apply kept_lift | apply kept_gets | apply kept_open
  | apply kept_request; [by intros] | apply kept_attempt | apply kept_wrapping | apply kept_bind; [|intros ?]
  | assumption | match goal with |- kept _ (match ?x with _ => _ end) => destruct x end | progress cbn beta iota ].

(** Storing a pack leaves the reference cache and the upload error alone. *)
Section storing.
Context `{GoGit, Zstd, S3, GoGitObjects, Sha256, Zlib, PackHash, GitConfig}.
Context (c : config) (pc : packPolicy) (binName cueName : Z -> bytes) (admitted : bool).

Definition slots (s : St) : refCache * option goerr := (refs s, up_err s).

Lemma kept_pages n prefix t : kept slots (list_pages n prefix t).
Proof. revert t. induction n as [|n IH]; intros t; cbn [list_pages]; [kept|]. kept. apply IH. Qed.
Lemma kept_small k : kept slots (fetchSmallETag k).
Proof. unfold fetchSmallETag. kept. Qed.
Lemma kept_cues ks t sizes : kept slots (load_cues c ks t sizes).
Proof.
  revert t sizes. induction ks as [|k ks IH]; intros t sizes; cbn [load_cues]; [kept|].
  destruct (negb _); [apply IH|]. apply kept_bind; [apply kept_wrapping, kept_bind; [apply kept_small|intros [? ?]; kept]|]. intros raw.
  apply kept_bind; [kept|]. intros rs. apply kept_bind; [|intros num; apply IH].
  apply kept_same. intros s. by destruct (packNum _ (packs s)).
Qed.
Lemma kept_lookup h : kept slots (packLookup c h).
Proof.
  unfold packLookup. apply kept_bind; [|intros _; kept]. unfold ensurePacksBuilt. apply kept_bind; [kept|]. intros [|]; [kept|].
  apply kept_bind; [apply kept_wrapping, kept_pages|]. intros ks. apply kept_bind; [apply kept_cues|]. intros [t sizes]. by apply kept_same.
Qed.
Lemma kept_payload e : kept slots (packPayload c e).
Proof.
  unfold packPayload. destruct (_ =? 0); [kept|]. apply kept_bind; [|intros; kept].
  apply kept_same. intros s. by destruct (localPath _ _).
Qed.
Lemma kept_frame (base : Hash -> nat -> io St object) h e payload depth :
  (forall h n, kept slots (base h n)) -> kept slots (framePacked base h e payload depth).
Proof. intros Hb. unfold framePacked. kept. apply Hb. Qed.
Lemma kept_object n : (forall h d, kept slots (deltaBase c n h d)) /\ (forall t h, kept slots (EncodedObject_f c n t h)).
Proof.
  induction n as [|n [IHd IHo]]; [split; intros; cbn; kept|]. split; intros; cbn [deltaBase EncodedObject_f].
  - destruct (_ <? _)%nat; [kept|]. apply kept_bind; [apply kept_lookup|]. intros [e|].
    + apply kept_bind; [apply kept_attempt, kept_payload|]. intros [payload|e']; [by apply kept_frame|kept].
    + apply kept_bind; [apply kept_attempt, IHo|]. intros. kept.
  - apply kept_bind; [unfold lookupPending; kept|]. intros pm. apply kept_bind; [unfold servePending, decodePending; kept|]. intros [o|]; [kept|].
    apply kept_bind; [apply kept_lookup|]. intros [e|]; [|kept]. unfold packObject_with. destruct (_ && _); [kept|].
    apply kept_bind; [apply kept_payload|]. intros payload. by apply kept_frame.
Qed.
Lemma kept_seal name g : kept slots (seal c admitted name g).
Proof.
  unfold seal, writeFile, removeFile, enqueue. destruct admitted; cbn; kept; by apply kept_same.
Qed.

Lemma kept_encoded t h : kept slots (EncodedObject c t h).
Proof. unfold EncodedObject. exact (proj2 (kept_object objectFuel) t h). Qed.

(** The slots of the resolver's storer. *)
Definition same_slots (a b : resolver) : Prop := slots (r_st b) = slots (r_st a).
#[local] Instance same_slots_order : PreOrder same_slots.
Proof. split; [by intros a|]. intros a b d H1' H2'. unfold same_slots in *. congruence. Qed.
Lemma on_st_slots {A} (m : io St A) : kept slots m -> carries same_slots (on_st m).
Proof.
  intros Hm a y b. unfold on_st. destruct (m (r_st a)) as [z st] eqn:Em. intros [= _ <-]. apply Hm in Em. exact Em.
Qed.
Lemma external_slots h : carries same_slots (wrapping (externalBase c h)).
Proof.
  apply carries_wrapping, carries_bind; [apply _| |intros _; apply on_st_slots, kept_encoded]. by intros a y b [= _ <-].
Qed.
Lemma run_slots p a y b : run c pc binName cueName p admitted a = (y, b) -> same_slots a b.
Proof.
  apply carries_run; [apply _| |intros; apply on_st_slots, kept_seal|apply external_slots]. unfold same_slots. by intros x z -> _.
Qed.
Lemma kept_resolve p : kept slots (resolve_pack c pc binName cueName p admitted).
Proof.
  intros s r s' Hr. unfold resolve_pack in Hr. destruct (run _ _ _ _ _ _ _) as [x q] eqn:Erun. apply run_slots in Erun.
  assert (Hq : slots (r_st q) = slots s) by exact Erun. clear Erun.
  destruct x as [[]|e]; [|by injection Hr as _ <-]. destruct (r_seg q) as [g|]; [|by injection Hr as _ <-].
  apply kept_seal in Hr. congruence.
Qed.

Lemma kept_writePack d : kept slots (writePack c pc binName cueName admitted d).
Proof.
  assert (Hclose : forall w, kept slots (pw_Close c pc binName cueName admitted w)).
  { intros w. unfold pw_Close. kept. apply kept_resolve. }
  unfold writePack. apply kept_bind; [unfold Config, fetchSmall; kept; apply kept_small|]. intros _.
  destruct (ReadPack _ _ _) as [r w]. destruct r; (apply kept_bind; [apply Hclose|intros; kept]).
Qed.
End storing.

Section spec.
Context `{GoGit, Zstd, S3, !GitWire}.
Context (view : World -> bucket) (env : bucket -> bucket -> Prop) `{!S3Laws view env}.
Context (c : config).

Abbreviation M := (io St).

#[local] Instance env_po'' : PreOrder env := env_preorder.

(** ** The upload error slot *)

(** No upload error claims a committed reference update. *)
Definition up_ok (s : St) : Prop := forall e, up_err s = Some e -> plain_err e.
Lemma kept_reads {A} (m : M A) : reads view env m -> kept up_err m.
Proof. intros Hm s r s' Hr. apply Hm in Hr as [_ ->]. done. Qed.

Lemma keeps_up_run j : kept up_err (run_job c j).
Proof. destruct j; cbn [run_job]; unfold putFile; kept. Qed.

Lemma put_plain k body meta cond : fails_plain (request (PutObject k body meta cond)).
Proof. intros s e s' Hr. apply request_inv in Hr as (w' & Hw & _). by apply PutObject_err in Hw as [[_ ?] _]. Qed.
Lemma open_plain p : fails_plain (openFile p).
Proof. intros s e s'. unfold openFile. by destruct (files s !! p); intros [= <- _]. Qed.

Lemma run_plain j : fails_plain (run_job c j).
Proof.
  assert (Hp : forall p k, fails_plain (putFile p k)).
  { intros p k. apply fails_plain_bind; [apply open_plain|]. intros body. apply fails_plain_bind; [apply put_plain|intros; apply fails_plain_ret]. }
  destruct j; cbn [run_job].
  - apply fails_plain_bind; [apply fails_plain_wrapping, open_plain|]. intros body.
    apply fails_plain_bind; [apply fails_plain_wrapping, put_plain|intros; apply fails_plain_ret].
  - do 2 (apply fails_plain_bind; [apply fails_plain_wrapping, Hp|]; intros _). apply fails_plain_ret.
Qed.

Lemma done_up j e : kept up_err (job_done j e).
Proof.
  assert (Hm : forall f, (forall s, up_err (f s) = up_err s) -> kept up_err (modify f)) by (intros f Hf s r s' [= _ <-]; apply Hf).
  destruct j; cbn [job_done]; [by apply Hm|]. apply kept_bind; [by apply Hm|intros _]. apply kept_bind; [by apply Hm|intros _]. by apply Hm.
Qed.

Lemma handle_up j s : up_ok s -> up_ok (snd (handle_job c j s)).
Proof.
  intros Hs. destruct (handle_job c j s) as [r s'] eqn:Eh. unfold handle_job in Eh. cbn.
  apply io_bind_inv in Eh as [(x & s1 & Ha & Eh)|(e & Ha & _)]; apply attempt_inv in Ha as (x' & [= <-] & Ha).
  pose proof (keeps_up_run j _ _ _ Ha) as Hu. destruct x as [[]|e].
  - apply done_up in Eh. intros e He. apply Hs. congruence.
  - apply io_bind_inv in Eh as [([] & s2 & [= <-] & Eh)|(e' & [=] & _)]. apply done_up in Eh. intros e' He. rewrite Eh in He.
    destruct (up_err s1) eqn:E1; [apply Hs; congruence|]. cbn in He. injection He as <-. by eapply run_plain.
Qed.

Lemma drain_up n s : up_ok s -> up_ok (drain c n s).
Proof.
  revert s. induction n as [|n IH]; intros s Hs; cbn [drain]; [done|]. apply IH. unfold up_step.
  destruct (queue s !! 0%nat); [|done]. by apply handle_up.
Qed.

Lemma flush_plain s e s' : up_ok s -> flush c s = (Err e, s') -> plain_err e.
Proof.
  intros Hs Hf. unfold flush in Hf. pose proof (drain_up (length (queue s)) s Hs) as Hd. revert Hf Hd.
  generalize (drain c (length (queue s)) s). intros s1 Hf Hd. destruct (up_err s1) as [e'|] eqn:E; [|done].
  injection Hf as -> _. by apply Hd.
Qed.

(** ** Reading references *)

Lemma ensure_up : kept up_err (ensureRefsBuilt c).
Proof.
  intros s r s' Hr. unfold ensureRefsBuilt in Hr. apply io_bind_inv in Hr as [(b & s0 & [= <- <-] & Hr)|(e & [=] & _)].
  unfold compose in Hr. destruct (r_built (refs s)); [by injection Hr as _ <-|]. revert Hr. apply kept_bind.
  { apply kept_attempt, kept_reads. apply (reads_fetchSmallETag view env). }
  intros x. apply kept_bind.
  { destruct x as [be|e]; [apply kept_ret|]. destruct (errors_is e _); [apply kept_ret|apply kept_fail]. }
  intros [body etag]. apply kept_bind; [apply kept_reads; destruct (_ <? _)%nat; [apply (reads_lift view env)|apply (reads_ret view env)]|].
  intros packed. apply kept_bind; [|intros l s2 r2 s3 [= _ <-]; done].
  apply kept_reads, (reads_bind view env); [apply (reads_listKeys view env)|]. intros ks. apply (reads_load view env).
Qed.

(** The cache of [s'] is that of [s], or was filled from the bucket in between. *)
Definition same_layer (s s' : St) : Prop :=
  r_built (refs s') = true ->
  refs s' = refs s \/ loose_read env c (view (world s)) (view (world s')) (r_loose (refs s')).

Lemma ensure_layer s r s' : ensureRefsBuilt c s = (r, s') -> same_layer s s'.
Proof.
  intros Hr _. destruct r as [[]|e].
  { apply (ensureRefsBuilt_loose view env c) in Hr as [[_ ->]|[_ Hl]]; auto. }
  left. unfold ensureRefsBuilt in Hr. apply io_bind_inv in Hr as [(b & s0 & [= <- <-] & Hr)|(e' & [=] & _)].
  unfold compose in Hr. destruct (r_built (refs s)); [done|].
  apply io_bind_inv in Hr as [(x & s1 & Ha & Hr)|(e' & Ha & _)]; apply attempt_inv in Ha as (x' & [= <-] & Ha).
  apply (reads_fetchSmallETag view env) in Ha as [_ H1'].
  apply io_bind_inv in Hr as [([body etag] & s2 & Hm & Hr)|(e' & Hm & _)].
  2:{ destruct x as [be|e2]; [done|]. destruct (errors_is e2 _); [done|]. injection Hm as _ <-. by rewrite H1'. }
  assert (s2 = s1) as -> by (destruct x as [?|e2]; [|destruct (errors_is e2 _)]; by injection Hm).
  apply io_bind_inv in Hr as [(packed & s2 & Hp & Hr)|(e' & Hp & _)].
  2:{ destruct (_ <? _)%nat; [|done]. injection Hp as _ <-. by rewrite H1'. }
  assert (s2 = s1) as -> by (destruct (_ <? _)%nat; by injection Hp).
  assert (Hrl : reads view env (listLooseRefs c)).
  { apply (reads_bind view env); [apply (reads_listKeys view env)|]. intros ks. apply (reads_load view env). }
  apply io_bind_inv in Hr as [(l & s3 & _ & [=])|(e' & Hl & _)]. apply Hrl in Hl as [_ ->]. by rewrite H1'.
Qed.

(** What looking a reference up leaves. *)
Definition looked (s s' : St) : Prop :=
  env (view (world s)) (view (world s')) /\ (refs_ok (refs s) -> refs_ok (refs s')) /\ (up_ok s -> up_ok s') /\ same_layer s s'.

Lemma looked_refl s : looked s s.
Proof. split; [reflexivity|]. split; [done|]. split; [done|]. by left. Qed.
Lemma looked_trans s1 s2 s3 : looked s1 s2 -> looked s2 s3 -> looked s1 s3.
Proof.
  intros (E1 & R1 & U1 & L1) (E2 & R2 & U2 & L2). split; [by etransitivity|]. split; [auto|]. split; [auto|]. intros Hb.
  destruct (L2 Hb) as [Heq|Hl]; [|right; by eapply (loose_read_env view env); [exact E1|reflexivity|exact Hl]].
  rewrite Heq in Hb |- *. destruct (L1 Hb) as [->|Hl]; [by left|]. right. by eapply (loose_read_env view env); [reflexivity|exact E2|exact Hl].
Qed.

Lemma Reference_looked n s r s' : refs_ok (refs s) -> Reference c n s = (r, s') -> looked s s'.
Proof.
  intros Hok Hr. unfold Reference, refView in Hr.
  assert (He : exists x, ensureRefsBuilt c s = (x, s')).
  { apply io_bind_inv in Hr as [(v & s1 & Hv & Hr)|(e & Hv & _)];
      apply io_bind_inv in Hv as [(u & s2 & Hu & Hv)|(e' & Hu & Hv)]; try discriminate Hv; [|by eexists].
    injection Hv as <- <-. destruct (_ !! n); injection Hr as _ <-; by eexists. }
  destruct He as [x He]. pose proof (ensureRefsBuilt_spec view env c _ _ _ Hok He) as (Henv & Hok' & _).
  pose proof (ensure_up _ _ _ He) as Hu. split; [exact Henv|]. split; [done|].
  split; [|by eapply ensure_layer]. intros Hs e. rewrite Hu. apply Hs.
Qed.

Lemma validate_looked cmd s r s' : refs_ok (refs s) -> validateRefCommand c cmd s = (r, s') ->
  looked s s' /\ (r = Ok tt -> Action cmd <> Invalid).
Proof.
  intros Hok Hr. unfold validateRefCommand in Hr. apply io_bind_inv in Hr as [(x & s1 & Ha & Hr)|(e & Ha & _)]; apply attempt_inv in Ha as (x' & [= <-] & Ha).
  apply Reference_looked in Ha; [|done].
  assert (Hcheck : forall cur, (if command_fits cmd cur then ret tt else fail (Sent ErrUpdateReference)) s1 = (r, s') ->
    looked s s' /\ (r = Ok tt -> Action cmd <> Invalid)).
  { intros cur Hc. unfold command_fits in Hc. destruct (Action cmd) eqn:Ea; [..|by injection Hc as <- <-];
      destruct (match cur with Some _ => _ | None => _ end); injection Hc as <- <-; done. }
  destruct x as [cur|e]; [by eapply Hcheck|]. destruct (errors_is e _); [by eapply Hcheck|]. by injection Hr as <- <-.
Qed.

Lemma visible_looked cmd s r s' : refs_ok (refs s) -> refCommandVisible c cmd s = (r, s') -> looked s s'.
Proof.
  intros Hok Hr. unfold refCommandVisible in Hr. apply io_bind_inv in Hr as [(x & s1 & Ha & [= _ <-])|(e & Ha & _)];
    apply attempt_inv in Ha as (x' & [= <-] & Ha). by eapply Reference_looked.
Qed.

(** ** Statuses *)

Definition accepted (st : gmap bytes (option goerr)) (n : bytes) : Prop := st !! n = Some None.

Lemma setStatus_lookup n e st m : fst (setStatus n e st) !! m = if decide (n = m) then Some e else fst st !! m.
Proof. destruct st as [cmds first]. cbn. destruct (decide (n = m)) as [->|]; [by rewrite lookup_insert_eq|by rewrite lookup_insert_ne]. Qed.

Lemma stage_spec cmds st s staged st' s' : refs_ok (refs s) -> stage c cmds st s = (Ok (staged, st'), s') ->
  looked s s' /\ staged `sublist_of` cmds /\ Forall (fun cmd => Action cmd <> Invalid) staged /\
  (forall n, accepted (fst st') n -> accepted (fst st) n).
Proof.
  revert st s staged st' s'. induction cmds as [|cmd cmds IH]; intros st s staged st' s' Hok Hr; cbn [stage] in Hr.
  { injection Hr as <- <- <-. split; [apply looked_refl|]. done. }
  apply io_bind_inv in Hr as [(x & s1 & Ha & Hr)|(e & Ha & _)]; apply attempt_inv in Ha as (x' & [= <-] & Ha).
  apply validate_looked in Ha as [Hl Hinv]; [|done]. assert (Hok1 : refs_ok (refs s1)) by (by apply Hl). destruct x as [[]|e].
  - apply io_bind_ok in Hr as ([stg st1] & s2 & Hs & [= <- <- <-]). apply IH in Hs as (H1' & H2' & H3' & H4'); [|done].
    split; [by eapply looked_trans|]. split; [by constructor|]. split; [constructor; [by apply Hinv|done]|done].
  - apply IH in Hr as (H1' & H2' & H3' & H4'); [|done]. split; [by eapply looked_trans|]. split; [by constructor|]. split; [done|].
    intros n Hn. apply H4' in Hn. unfold accepted in Hn. rewrite setStatus_lookup in Hn. by destruct (decide _).
Qed.

Lemma all_status err staged st n :
  fst (set_all err staged st) !! n =
  if decide (n ∈ m_name <$> staged) then Some err else fst st !! n.
Proof.
  unfold set_all. revert st. induction staged as [|cmd staged IH]; intros st; cbn [foldl]; [by rewrite decide_False by apply not_elem_of_nil|].
  rewrite IH, setStatus_lookup, fmap_cons. destruct (decide (n ∈ m_name <$> staged)) as [Hn|Hn].
  - by rewrite decide_True by (by right).
  - destruct (decide (m_name cmd = n)) as [->|Hne]; [by rewrite decide_True by left|]. rewrite decide_False; [done|].
    intros [->|]%elem_of_cons; done.
Qed.

Lemma report_visible_spec e staged st s st' s' : refs_ok (refs s) -> report_visible c e staged st s = (Ok st', s') ->
  looked s s' /\ forall n, accepted (fst st') n -> n ∈ m_name <$> staged \/ accepted (fst st) n.
Proof.
  revert st s. induction staged as [|cmd staged IH]; intros st s Hok Hr; cbn [report_visible] in Hr.
  { injection Hr as <- <-. split; [apply looked_refl|auto]. }
  apply io_bind_ok in Hr as (seen & s1 & Hv & Hr). apply visible_looked in Hv; [|done].
  apply IH in Hr as [Hl Hn]; [|by apply Hv]. split; [by eapply looked_trans|]. intros n Ha. rewrite fmap_cons, elem_of_cons.
  apply Hn in Ha as [Ha|Ha]; [auto|]. unfold accepted in Ha. rewrite setStatus_lookup in Ha. destruct (decide _); [auto|by right].
Qed.

(** ** The batch of the staged commands *)

Lemma expected_lookup staged cmd : NoDup (m_name <$> staged) -> cmd ∈ staged -> expected_of staged !! m_name cmd = Some (m_old cmd).
Proof.
  intros Hn Hin. unfold expected_of. induction staged as [|x staged IH] using rev_ind; [by apply elem_of_nil in Hin|].
  rewrite fold_left_app. cbn. rewrite fmap_app, NoDup_app in Hn. destruct Hn as (Hn & Hd & _).
  apply elem_of_app in Hin as [Hin|Hin].
  - rewrite lookup_insert_ne; [by apply IH|]. intros Heq. apply (Hd (m_name cmd)); [by apply list_elem_of_fmap_2|].
    rewrite <-Heq. left.
  - apply list_elem_of_singleton in Hin as ->. by rewrite lookup_insert_eq.
Qed.

Lemma removes_in staged n : n ∈ removes_of staged <-> exists cmd, cmd ∈ staged /\ m_name cmd = n /\ Action cmd = Delete.
Proof.
  unfold removes_of. rewrite list_elem_of_omap. split.
  - intros (cmd & Hin & Hc). exists cmd. by destruct (Action cmd); simplify_eq.
  - intros (cmd & Hin & <- & Ha). exists cmd. by rewrite Ha.
Qed.

Lemma sets_of_cons cmd staged : sets_of (cmd :: staged) =
  match Action cmd with Create | Update => HashReference (m_name cmd) (m_new cmd) :: sets_of staged | _ => sets_of staged end.
Proof. unfold sets_of. cbn. by destruct (Action cmd). Qed.

Lemma sets_filter staged n : NoDup (m_name <$> staged) ->
  filter (fun r => ref_name r = n) (sets_of staged) =
  match filter (fun cmd => m_name cmd = n) staged with
  | cmd :: _ => match Action cmd with Create | Update => [HashReference n (m_new cmd)] | _ => [] end
  | [] => []
  end.
Proof.
  intros Hn. induction staged as [|x staged IH]; [done|]. rewrite fmap_cons, NoDup_cons in Hn. destruct Hn as [Hx Hn].
  specialize (IH Hn). rewrite sets_of_cons, filter_cons. destruct (decide (m_name x = n)) as [<-|Hne].
  - assert (Hnil : filter (fun cmd => m_name cmd = m_name x) staged = []).
    { apply filter_none. rewrite Forall_forall. intros y Hy Hq. apply Hx. rewrite <-Hq. by apply list_elem_of_fmap_2. }
    rewrite Hnil in IH. destruct (Action x); rewrite ?filter_cons, IH; cbn [ref_name]; [by rewrite decide_True..|done|done].
  - rewrite <-IH. destruct (Action x); rewrite ?filter_cons; cbn [ref_name]; [by rewrite decide_False..|done|done].
Qed.

Lemma filter_name staged cmd : NoDup (m_name <$> staged) -> cmd ∈ staged -> filter (fun x => m_name x = m_name cmd) staged = [cmd].
Proof.
  induction staged as [|x staged IH]; intros Hn Hin; [by apply elem_of_nil in Hin|].
  rewrite fmap_cons, NoDup_cons in Hn. destruct Hn as [Hx Hn]. rewrite filter_cons. destruct (decide (m_name x = m_name cmd)) as [Heq|Hne].
  - assert (x = cmd) as ->.
    { apply elem_of_cons in Hin as [->|Hin]; [done|]. destruct Hx. rewrite Heq. by apply list_elem_of_fmap_2. }
    f_equal. apply filter_none. rewrite Forall_forall. intros y Hy Hq. apply Hx. rewrite <-Hq. by apply list_elem_of_fmap_2.
  - apply IH; [done|]. by apply elem_of_cons in Hin as [->|].
Qed.

(** The value a command asks for. *)
Definition wanted (cmd : command) : option reference :=
  match Action cmd with Delete => None | _ => Some (HashReference (m_name cmd) (m_new cmd)) end.

Lemma batch_lookup staged m cmd : NoDup (m_name <$> staged) -> Forall (fun cmd => Action cmd <> Invalid) staged -> cmd ∈ staged ->
  apply_batch (sets_of staged) (removes_of staged) m !! m_name cmd = wanted cmd.
Proof.
  intros Hn Hinv Hin. rewrite apply_batch_lookup, sets_filter, filter_name by done.
  rewrite Forall_forall in Hinv. pose proof (Hinv cmd Hin) as Ha. unfold wanted.
  assert (Hrem : m_name cmd ∈ removes_of staged <-> Action cmd = Delete).
  { rewrite removes_in. split; [|by exists cmd]. intros (x & Hx & Hxn & Hxa).
    assert (Hf : x ∈ filter (fun x => m_name x = m_name cmd) staged) by (by apply list_elem_of_filter).
    rewrite filter_name in Hf by done. by apply list_elem_of_singleton in Hf as ->. }
  destruct (decide (m_name cmd ∈ removes_of staged)) as [Hr|Hr]; [by rewrite (proj1 Hrem Hr)|].
  destruct (Action cmd) eqn:E; [done|done| |done]. destruct Hr. by apply Hrem.
Qed.

Lemma batch_other (staged : list command) (m : gmap bytes reference) (n : bytes) : NoDup (m_name <$> staged) -> n ∉ (m_name <$> staged) ->
  apply_batch (sets_of staged) (removes_of staged) m !! n = m !! n.
Proof.
  intros Hn Hin. rewrite apply_batch_lookup, sets_filter by done.
  assert (Hf : filter (fun cmd => m_name cmd = n) staged = []).
  { apply filter_none. rewrite Forall_forall. intros y Hy <-. apply Hin. by apply list_elem_of_fmap_2. }
  rewrite Hf. cbn. rewrite decide_False; [done|]. rewrite removes_in. intros (x & Hx & <- & _). apply Hin. by apply list_elem_of_fmap_2.
Qed.

(** ** The outcome of the reference commands *)

(** The accepted commands took effect together: [next] replaced the reference
    set of the instant of the write, in which each of them found the value it
    was sent for. That set is the packed layer the write replaced, [packed], under
    the loose layer as the storer knew it: cached when the call began, read while
    the commands were checked (between [s] and [s1]), or read by the commit itself. *)
Record landed_batch (cmds : list command) (status : gmap bytes (option goerr)) (s s' : St)
    (s1 : St) (b : bucket) (packed loose next : gmap bytes reference) : Prop := {
  lb_looked : env (view (world s)) (view (world s1));
  lb_env : env (view (world (snd (flush c s1)))) b;
  lb_holds : holds c b packed;
  lb_loose : layer_from env c (Some (refs s)) (view (world s)) (view (world s1)) packed loose \/
             loose_read env c (view (world (snd (flush c s1)))) b loose;
  lb_expected cmd : cmd ∈ cmds -> accepted status (m_name cmd) ->
    if IsZero (m_old cmd) then (loose ∪ packed) !! m_name cmd = None
    else exists cur, (loose ∪ packed) !! m_name cmd = Some cur /\ ref_hash cur = m_old cmd;
  lb_wanted cmd : cmd ∈ cmds -> accepted status (m_name cmd) -> next !! m_name cmd = wanted cmd;
  lb_others n : n ∉ (m_name <$> cmds) -> next !! n = (loose ∪ packed) !! n;
  lb_after : cleans env c (<[packedKey c := {| o_body := encodePackedRefs next; o_meta := ∅ |}]> b) (view (world s'));
}.

Definition took_effect cmds status s s' : Prop :=
  (forall n, ~ accepted status n) \/ exists s1 b packed loose next, landed_batch cmds status s s' s1 b packed loose next.

Lemma staged_nonempty staged : staged <> [] -> Forall (fun cmd => Action cmd <> Invalid) staged ->
  sets_of staged <> [] \/ removes_of staged <> [].
Proof.
  destruct staged as [|cmd staged]; [done|]. intros _ [Ha _]%Forall_cons. rewrite sets_of_cons.
  destruct (Action cmd) eqn:E; [by left..| |done]. right. intros Hr.
  assert (Hin : m_name cmd ∈ removes_of (cmd :: staged)) by (apply removes_in; exists cmd; split; [left|done]). rewrite Hr in Hin.
  by apply elem_of_nil in Hin.
Qed.

Lemma sublist_names (staged cmds : list command) : staged `sublist_of` cmds -> NoDup (m_name <$> cmds) ->
  NoDup (m_name <$> staged) /\ (forall cmd, cmd ∈ cmds -> m_name cmd ∈ m_name <$> staged -> cmd ∈ staged) /\
  (forall n, n ∈ m_name <$> staged -> n ∈ m_name <$> cmds).
Proof.
  intros Hs Hn. assert (Hin : forall cmd, cmd ∈ staged -> cmd ∈ cmds).
  { intros cmd. apply (sublist_subseteq _ _ Hs). }
  split; [|split].
  - clear Hin. induction Hs as [|x l k Hs IH|x l k Hs IH]; [done|..]; rewrite fmap_cons, NoDup_cons in Hn; destruct Hn as [Hx Hn];
      [|by apply IH]. rewrite fmap_cons, NoDup_cons. split; [|by apply IH]. intros (y & Hy & Hyl)%list_elem_of_fmap. apply Hx.
    rewrite Hy. apply list_elem_of_fmap_2. by apply (sublist_subseteq _ _ Hs).
  - intros cmd Hc (y & Hy & Hys)%list_elem_of_fmap. assert (Hf : y ∈ filter (fun x => m_name x = m_name cmd) cmds).
    { apply list_elem_of_filter. split; [done|by apply Hin]. }
    rewrite (filter_name cmds cmd Hn Hc) in Hf. by apply list_elem_of_singleton in Hf as ->.
  - intros n (y & -> & Hy)%list_elem_of_fmap. apply list_elem_of_fmap_2. by apply Hin.
Qed.

Lemma batch_landed cmds staged status s s1 s2 s' b packed loose :
  NoDup (m_name <$> cmds) -> staged `sublist_of` cmds -> Forall (fun cmd => Action cmd <> Invalid) staged ->
  (forall n, accepted status n -> n ∈ m_name <$> staged) -> looked s s1 ->
  landed view env c (Some (refs s1)) (sets_of staged) (removes_of staged) (strict_expectation IsZero <$> map_to_list (expected_of staged))
    (view (world (snd (flush c s1)))) s2 b packed loose ->
  env (view (world s2)) (view (world s')) -> took_effect cmds status s s'.
Proof.
  intros Hn Hsub Hinv Hacc (He & _ & _ & Hlay) [Lenv Lholds Lfrom Lexp Lafter] He2. right.
  destruct (sublist_names _ _ Hsub Hn) as (Hns & Hback & Hup).
  exists s1, b, packed, loose, (apply_batch (sets_of staged) (removes_of staged) (loose ∪ packed)). split; [done|done|done| | | | |].
  - destruct Lfrom as [(rc & [= <-] & Hb & -> & ->)|Hl]; [left|by right].
    destruct (Hlay Hb) as [Heq|Hl]; [left|by right]. exists (refs s). by rewrite <-Heq.
  - intros cmd Hc Ha. pose proof (Hback cmd Hc (Hacc _ Ha)) as Hst.
    exact (strict_expectations_hold IsZero _ _ Lexp _ _ (expected_lookup _ _ Hns Hst)).
  - intros cmd Hc Ha. apply batch_lookup; [done|done|]. by apply Hback, Hacc.
  - intros n Hno. apply batch_other; [done|]. intros Hin. apply Hno. by apply Hup.
  - etransitivity; [exact Lafter|]. by apply cleans_env.
Qed.

Lemma batched_outcome cmds s status first s' :
  c_packedRefs c = true -> refs_ok (refs s) -> up_ok s -> NoDup (m_name <$> cmds) ->
  updateReferencesBatched c cmds s = (Ok (status, first), s') -> took_effect cmds status s s'.
Proof.
  intros Hpk Hok Hup Hn Hr. unfold updateReferencesBatched, SupportsCheckedRefUpdates, UpdateReferencesChecked in Hr. rewrite Hpk in Hr. cbn [negb] in Hr.
  apply io_bind_ok in Hr as ([staged st] & s1 & Hst & Hr). apply stage_spec in Hst as (Hl & Hsub & Hinv & Hacc0); [|done].
  assert (Hnone : forall n, ~ accepted (fst st) n) by (intros n Ha; apply Hacc0 in Ha; unfold accepted in Ha; cbn in Ha; by rewrite lookup_empty in Ha).
  destruct staged as [|c0 staged0]; [injection Hr as -> <-; left; exact Hnone|]. assert (Hne : c0 :: staged0 <> []) by done.
  generalize dependent (c0 :: staged0). intros staged Hsub Hinv Hr Hne.
  apply io_bind_ok in Hr as (x & s2 & Ha & Hr). apply attempt_inv in Ha as (x' & [= <-] & Ha).
  assert (Hall : forall err n, accepted (fst (set_all err staged st)) n -> err = None /\ n ∈ m_name <$> staged).
  { intros err n Hac. unfold accepted in Hac. rewrite all_status in Hac. destruct (decide _) as [Hin|]; [by injection Hac|]. by destruct (Hnone n). }
  pose proof Hl as (_ & Hok1 & Hup1 & _). specialize (Hok1 Hok). specialize (Hup1 Hup).
  apply (commit_outcome view env c) in Ha; [|exact Hok1|exact (staged_nonempty _ Hne Hinv)].
  destruct Ha as [[[(Hx & b & p & l & Hland & _)|[(e & -> & Hpl & _)|(e & -> & [_ Hpl])]] Hok2]|(e & Hf & -> & ->)].
  - destruct Hx as [->|[e ->]].
    + injection Hr as Hr <-. eapply (batch_landed cmds staged); [done|done|done| |exact Hl|exact Hland|reflexivity].
      intros n Hac. pose proof (Hall None n) as Hq. rewrite Hr in Hq. by apply Hq.
    + cbn [ref_update_committed] in Hr. apply report_visible_spec in Hr as [(Henv3 & _) Hac]; [|exact Hok2].
      eapply (batch_landed cmds staged); [done|done|done| |exact Hl|exact Hland|exact Henv3].
      intros n Han. apply Hac in Han as [|Han]; [done|]. by destruct (Hnone n).
  - unfold plain_err in Hpl. rewrite Hpl in Hr. injection Hr as Hr _. left. intros n Han. pose proof (Hall (Some e) n) as Hq. rewrite Hr in Hq. by destruct (Hq Han).
  - cbn [ref_update_committed] in Hr. rewrite Hpl in Hr. injection Hr as Hr _. left. intros n Han. pose proof (Hall (Some (Wrapf e)) n) as Hq. rewrite Hr in Hq. by destruct (Hq Han).
  - destruct (flush c s1) as [rf s3] eqn:Ef. cbn in Hf. subst rf. pose proof (flush_plain _ _ _ Hup1 Ef) as Hpl.
    unfold plain_err in Hpl. cbn [ref_update_committed] in Hr. rewrite Hpl in Hr. injection Hr as Hr _. left. intros n Han.
    pose proof (Hall (Some (Wrapf e)) n) as Hq. rewrite Hr in Hq. by destruct (Hq Han).
Qed.
End spec.

(** ** The call *)

Section call.
Context `{GoGit, Zstd, S3, !GitWire, Sha256, GoGitObjects, Zlib, PackHash, GitConfig}.
Context (c : config) (pc : packPolicy) (binName cueName : Z -> bytes) (admitted : bool).

Definition begin (s : St) : RP := {| rp_st := s; rp_events := [] |}.

(** The pack of a push, for those that carry one. *)
Definition store_pack (cmds : list command) (x : conn) : io St unit :=
  if needPackfile cmds then writePack c pc binName cueName admitted (x_pack x) else ret tt.

Lemma updates_elem cmds status u : u ∈ successfulRefUpdates cmds status <->
  exists cmd, cmd ∈ cmds /\ accepted status (m_name cmd) /\ m_old cmd <> m_new cmd /\
    u = {| u_name := m_name cmd; u_old := m_old cmd; u_new := m_new cmd |}.
Proof.
  unfold successfulRefUpdates, accepted. rewrite list_elem_of_omap. split.
  - intros (cmd & Hin & Hc). exists cmd. destruct (status !! m_name cmd) as [[e|]|]; [done| |done].
    destruct (bool_decide _) eqn:E; [done|]. b2p. injection Hc as <-. done.
  - intros (cmd & Hin & Ha & Hne & ->). exists cmd. split; [done|]. by rewrite Ha, bool_decide_false.
Qed.

(** What is announced of a command. *)
Definition update_of (cmd : command) : refUpdate := {| u_name := m_name cmd; u_old := m_old cmd; u_new := m_new cmd |}.

Lemma updates_sublist cmds status : successfulRefUpdates cmds status `sublist_of` (update_of <$> cmds).
Proof.
  unfold successfulRefUpdates. induction cmds as [|cmd cmds IH]; [constructor|]. cbn.
  destruct (status !! m_name cmd) as [[e|]|]; [by constructor| |by constructor]. destruct (bool_decide _); by constructor.
Qed.

(** Announced by the status of its name. *)
Lemma updates_own cmds status cmd : cmd ∈ cmds ->
  update_of cmd ∈ successfulRefUpdates cmds status <-> accepted status (m_name cmd) /\ m_old cmd <> m_new cmd.
Proof.
  intros Hin. rewrite updates_elem. split.
  - intros (cmd' & _ & Ha & Hne & Heq). injection Heq as Hnm Ho Hw. rewrite Hnm, Ho, Hw. done.
  - intros [Ha Hne]. by exists cmd.
Qed.

Lemma update_and_report_events x cmds k s r s' progress upd :
  update_and_report c x cmds k s = (r, s') -> OnUpdated progress upd ∈ rp_events s' -> OnUpdated progress upd ∉ rp_events s ->
  exists status first, updateReferences c cmds (rp_st s) = (Ok (status, first), rp_st s') /\
    upd = successfulRefUpdates cmds status /\ upd <> [] /\
    exists rest, rp_events s' = rp_events s ++ ReportStatus first status :: OnUpdated progress upd :: rest /\ (rest = [] \/ rest = [FlushPkt]).
Proof.
  intros Hr Hin Hno. unfold update_and_report in Hr. apply io_bind_inv in Hr as [([status first] & s1 & Hu & Hr)|(e & Hu & ->)];
    unfold on_storer in Hu; destruct (updateReferences c cmds (rp_st s)) as [y st] eqn:Eu; injection Hu as -> <-; [|done].
  exists status, first. apply io_bind_inv in Hr as [(sent & s2 & Ha & Hr)|(e & Ha & _)]; apply attempt_inv in Ha as (sent' & [= <-] & Ha).
  unfold sendReportStatus, emit in Ha. apply io_bind_inv in Ha as [([] & s3 & [= <-] & [= Hsent <-])|(e & [=] & _)].
  set (upds := successfulRefUpdates cmds status) in *. cbn [rp_st rp_events] in Hr.
  (* the rest only appends a flush *)
  assert (Hrest : forall s4, (match sent with
      | Err e => fail e
      | Ok _ => do! (if useSideband k then do! emit FlushPkt in lift (match x_flush x with Ok _ => Ok tt | Err e => Err (Wrapf e) end)
                     else ret tt) in
                match first with Some e => fail e | None => lift (closeWriter x) end
      end) s4 = (r, s') ->
      rp_st s' = rp_st s4 /\ exists rest, rp_events s' = rp_events s4 ++ rest /\ (rest = [] \/ rest = [FlushPkt])).
  { intros s4 H4'. assert (Hnil : rp_st s4 = rp_st s4 /\ exists rest, rp_events s4 = rp_events s4 ++ rest /\ (rest = [] \/ rest = [FlushPkt]))
      by (split; [done|]; exists []; rewrite app_nil_r; auto).
    destruct sent as [[]|e]; [|by injection H4' as _ <-].
    assert (Hend : forall s5, (match first with Some e => fail e | None => lift (closeWriter x) end) s5 = (r, s') -> s' = s5)
      by (intros s5; destruct first; by intros [= _ <-]).
    destruct (useSideband k); [|apply io_bind_inv in H4' as [([] & s5 & [= <-] & H5')|(e & [=] & _)]; by apply Hend in H5' as ->].
    assert (Hf : forall y s5, (do! emit FlushPkt in lift (match x_flush x with Ok _ => Ok tt | Err e => Err (Wrapf e) end)) s4 = (y, s5) ->
      s5 = {| rp_st := rp_st s4; rp_events := rp_events s4 ++ [FlushPkt] |}).
    { intros y s5 H5'. apply io_bind_inv in H5' as [([] & s6 & [= <-] & [= _ <-])|(e & [=] & _)]. done. }
    assert (Hs' : s' = {| rp_st := rp_st s4; rp_events := rp_events s4 ++ [FlushPkt] |}).
    { apply io_bind_inv in H4' as [([] & s5 & H5' & H6')|(e & H5' & ->)]; apply Hf in H5'; [|done]. apply Hend in H6'. congruence. }
    rewrite Hs'. cbn. split; [done|]. exists [FlushPkt]. auto. }
  apply io_bind_inv in Hr as [([] & s4 & H4' & Hr)|(e & H4' & ->)]; [|by destruct upds].
  apply Hrest in Hr as (Hst & rest & Hev & Hrs). rewrite Hev in Hin |- *. destruct upds as [|u us].
  - injection H4' as <-. cbn in Hin. exfalso. rewrite !elem_of_app, list_elem_of_singleton in Hin.
    destruct Hin as [[Hin|Hin]|Hin]; [done|done|]. destruct Hrs as [-> | ->]; [by apply elem_of_nil in Hin|by apply list_elem_of_singleton in Hin].
  - injection H4' as <-. cbn in Hst, Hin |- *. rewrite Hst. split; [done|].
    rewrite !elem_of_app, !list_elem_of_singleton in Hin.
    assert (Hu : OnUpdated progress upd = OnUpdated (is_ok sent && useSideband k) (u :: us)).
    { destruct Hin as [[[Hin|Hin]|Hin]|Hin]; [done|done|done|]. exfalso.
      destruct Hrs as [-> | ->]; [by apply elem_of_nil in Hin|by apply list_elem_of_singleton in Hin]. }
    injection Hu as -> ->. split; [done|]. split; [done|]. exists rest. by rewrite <-!(assoc_L (++)).
Qed.

(** How far a push goes before its reference commands. *)
Lemma receive_inv x s r s' progress upd :
  receivePackStreaming c pc binName cueName admitted x (begin s) = (r, s') -> OnUpdated progress upd ∈ rp_events s' ->
  exists cmds k st1, read_request x = Ok (Some (cmds, k)) /\ (forall e, x_admit x <> Some (Err e)) /\
    store_pack cmds x s = (Ok tt, st1) /\
    update_and_report c x cmds k {| rp_st := st1; rp_events := [] |} = (r, s').
Proof.
  intros Hr Hin. unfold receivePackStreaming in Hr. apply io_bind_inv in Hr as [(req & s1 & [= Hreq <-] & Hr)|(e & [= _ <-] & ->)];
    [|by apply elem_of_nil in Hin].
  destruct req as [[cmds k]|]; [|injection Hr as <- <-; by apply elem_of_nil in Hin]. exists cmds, k.
  assert (Hgo : (try! unpacked := (if needPackfile cmds then on_storer (writePack c pc binName cueName admitted (x_pack x)) else ret tt) in
      do! lift (match x_closeReader x with Ok _ => Ok tt | Err e => Err (Wrapf e) end) in
      if negb (k_reportStatus k) then lift unpacked else
      match unpacked with Err e => sendReportStatus x (Some e) ∅ | Ok _ => update_and_report c x cmds k end) (begin s) = (r, s') ->
    exists st1, store_pack cmds x s = (Ok tt, st1) /\ update_and_report c x cmds k {| rp_st := st1; rp_events := [] |} = (r, s')).
  { clear Hr. intros Hr. apply io_bind_inv in Hr as [(u & s1 & Ha & Hr)|(e & Ha & _)]; apply attempt_inv in Ha as (u' & [= <-] & Ha).
    assert (Hs1 : exists st1, store_pack cmds x s = (u, st1) /\ s1 = {| rp_st := st1; rp_events := [] |}).
    { unfold store_pack. destruct (needPackfile cmds); [|injection Ha as <- <-; by eexists]. unfold on_storer in Ha. cbn [rp_st rp_events begin] in Ha.
      destruct (writePack c pc binName cueName admitted (x_pack x) s) as [y st]. injection Ha as <- <-. by eexists. }
    destruct Hs1 as (st1 & Hst1 & ->). exists st1.
    apply io_bind_inv in Hr as [([] & s2 & [= _ <-] & Hr)|(e & [= _ <-] & _)]; [|by apply elem_of_nil in Hin].
    destruct (negb (k_reportStatus k)); [injection Hr as _ <-; by apply elem_of_nil in Hin|].
    destruct u as [[]|e]; [by split|]. unfold sendReportStatus, emit in Hr.
    apply io_bind_inv in Hr as [([] & s3 & [= <-] & [= _ <-])|(e' & [=] & _)]. cbn in Hin. by apply list_elem_of_singleton in Hin. }
  destruct (x_admit x) as [[[]|e]|] eqn:Ea.
  - destruct (Hgo Hr) as (st1 & H1' & H2'). by exists st1.
  - exfalso. apply io_bind_inv in Hr as [([] & s1 & H1' & [= _ <-])|(e' & H1' & _)]; destruct (k_reportStatus k);
      try (injection H1' as <-; by apply elem_of_nil in Hin); try discriminate H1'.
    all: apply io_bind_inv in H1' as [(y & s2 & Ha & H1')|(e'' & Ha & _)]; apply attempt_inv in Ha as (y' & [= <-] & Ha).
    all: unfold sendReportStatus, emit in Ha; apply io_bind_inv in Ha as [([] & s3 & [= <-] & [= _ <-])|(e3 & [=] & _)].
    all: injection H1' as <-; cbn in Hin; by apply list_elem_of_singleton in Hin.
  - destruct (Hgo Hr) as (st1 & H1' & H2'). by exists st1.
Qed.
End call.

(** ** Properties *)

(** C4: with packed references on, the commands of a push that names no
    reference twice and whose update reports some command as accepted took effect
    together, by one conditional write over the packed set the bucket held at that
    instant: seen through the loose references the storer knew (those of the cache
    it came with, or those of the bucket as listed and read during the call), each
    accepted command found its reference exactly as the client had advertised it
    (absent, or at the advertised hash), the set written gives each the value it
    asks for, and every reference the push does not name keeps in it the value it
    had. *)
Theorem accepted_commands_landed `{GoGit, Zstd, S3, !GitWire} (view : World -> bucket) (env : bucket -> bucket -> Prop) (c : config)
    (cmds : list command) (status : gmap bytes (option goerr)) (first : option goerr) (s s' : St) (cmd : command) :
  S3Laws view env -> refs_ok (refs s) -> up_ok s -> c_packedRefs c = true -> NoDup (m_name <$> cmds) ->
  updateReferences c cmds s = (Ok (status, first), s') ->
  cmd ∈ cmds -> accepted status (m_name cmd) ->
  exists s1 b packed loose next, landed_batch view env c cmds status s s' s1 b packed loose next.
Proof.
  intros Hl Hok Hup Hpk Hn Hr Hin Ha. unfold updateReferences, SupportsCheckedRefUpdates in Hr. rewrite Hpk in Hr. cbn [negb] in Hr.
  destruct (batched_outcome view env c cmds s status first s' Hpk Hok Hup Hn Hr) as [Hno|Hyes]; [by destruct (Hno (m_name cmd))|exact Hyes].
Qed.

(** C5: whoever listens to a push hears of what landed and of nothing else.
    For a push that names no reference twice, the callback runs only in a call
    whose request was read, whose slot was granted and whose pack was stored
    without error, right after the report; it gets, in the order of the push,
    exactly the commands whose own status in that report is success and that
    change something.  With packed references those commands have then landed
    together, by the one conditional write of [landed_batch]: the old value each
    announcement carries is the value the write replaced, and the new one is the
    value written.  (The status is kept by name: see [refused_command_is_announced]
    for a push that names a reference twice.) *)
Theorem callback_only_after_commit `{GoGit, Zstd, S3, !GitWire, Sha256, GoGitObjects, Zlib, PackHash, GitConfig}
    (view : World -> bucket) (env : bucket -> bucket -> Prop) (c : config) (pc : packPolicy)
    (binName cueName : Z -> bytes) (admitted : bool) (x : conn) (s : St) (r : gores unit) (s' : RP) (progress : bool) (upd : list refUpdate)
    (cmds : list command) (k : capabilities) :
  S3Laws view env -> refs_ok (refs s) -> up_ok s -> read_request x = Ok (Some (cmds, k)) -> NoDup (m_name <$> cmds) ->
  receivePackStreaming c pc binName cueName admitted x (begin s) = (r, s') -> OnUpdated progress upd ∈ rp_events s' ->
  exists st1 status first, (forall e, x_admit x <> Some (Err e)) /\
    store_pack c pc binName cueName admitted cmds x s = (Ok tt, st1) /\
    updateReferences c cmds st1 = (Ok (status, first), rp_st s') /\
    (rp_events s' = [ReportStatus first status; OnUpdated progress upd] \/
     rp_events s' = [ReportStatus first status; OnUpdated progress upd; FlushPkt]) /\
    upd <> [] /\ upd `sublist_of` (update_of <$> cmds) /\
    (forall cmd, cmd ∈ cmds -> update_of cmd ∈ upd <-> accepted status (m_name cmd) /\ m_old cmd <> m_new cmd) /\
    (c_packedRefs c = true -> exists s1 b packed loose next,
      landed_batch view env c cmds status st1 (rp_st s') s1 b packed loose next).
Proof.
  intros Hl Hok Hup Hreq Hnd Hr Hin. destruct (receive_inv _ _ _ _ _ _ _ _ _ _ _ Hr Hin) as (cmds' & k' & st1 & Hreq' & Hadm & Hpack & Hu).
  rewrite Hreq in Hreq'. injection Hreq' as <- <-.
  apply (update_and_report_events c x cmds k _ _ _ progress upd) in Hu as (status & first & Hu & -> & Hne & rest & Hev & Hrest); [|done|by intros ?%elem_of_nil].
  cbn [rp_st rp_events app] in Hu, Hev. exists st1, status, first. do 3 (split; [done|]). split; [destruct Hrest as [-> | ->]; auto|].
  split; [done|]. split; [apply updates_sublist|]. split; [intros cmd Hc; by apply updates_own|]. intros Hpk.
  assert (Hslots : slots st1 = slots s).
  { revert Hpack. unfold store_pack. destruct (needPackfile cmds); [apply kept_writePack|by intros [= <-]]. }
  injection Hslots as Hrefs Herr. revert Hu. unfold updateReferences, SupportsCheckedRefUpdates. rewrite Hpk. cbn [negb]. intros Hu.
  destruct (batched_outcome view env c cmds st1 status first (rp_st s') Hpk) as [Hno|Hyes]; [by rewrite Hrefs|by unfold up_ok; rewrite Herr|done|done| |exact Hyes].
  exfalso. apply Hne. destruct (successfulRefUpdates cmds status) as [|u us] eqn:Eu; [done|]. exfalso.
  assert (Hus : u ∈ successfulRefUpdates cmds status) by (rewrite Eu; left). apply updates_elem in Hus as (cmd & _ & Ha & _). by destruct (Hno (m_name cmd)).
Qed.

(** C6: a push whose pack could not be stored is reported as such and goes no
    further: the client is sent the one report with the error, the callback does
    not run, and the storer is left as storing the pack left it, so no reference
    command of the push has been attempted. *)
Theorem unstored_push_stops `{GoGit, Zstd, S3, !GitWire, Sha256, GoGitObjects, Zlib, PackHash, GitConfig} (c : config) (pc : packPolicy)
    (binName cueName : Z -> bytes) (admitted : bool) (x : conn) (cmds : list command) (k : capabilities) (s st1 : St) (e : goerr) :
  read_request x = Ok (Some (cmds, k)) -> (forall e, x_admit x <> Some (Err e)) -> x_closeReader x = Ok tt -> k_reportStatus k = true ->
  store_pack c pc binName cueName admitted cmds x s = (Err e, st1) ->
  receivePackStreaming c pc binName cueName admitted x (begin s) =
    (x_sendStatus x, {| rp_st := st1; rp_events := [ReportStatus (Some e) ∅] |}).
Proof.
  intros Hreq Hadm Hclose Hk Hpack. unfold receivePackStreaming, io_bind at 1, lift at 1. rewrite Hreq.
  unfold store_pack in Hpack. destruct (needPackfile cmds) eqn:En; [|done].
  assert (Hgo : forall y, x_admit x = y -> (forall e, y <> Some (Err e)) ->
    (match y with
     | Some (Err e) => do! (if k_reportStatus k then try! _ := sendReportStatus x (Some e) ∅ in ret tt else ret tt) in fail e
     | _ => try! unpacked := on_storer (writePack c pc binName cueName admitted (x_pack x)) in
            do! lift (match x_closeReader x with Ok _ => Ok tt | Err e => Err (Wrapf e) end) in
            if negb (k_reportStatus k) then lift unpacked else
            match unpacked with Err e => sendReportStatus x (Some e) ∅ | Ok _ => update_and_report c x cmds k end
     end) (begin s) = (x_sendStatus x, {| rp_st := st1; rp_events := [ReportStatus (Some e) ∅] |})).
  { intros y _ Hy. destruct y as [[[]|e']|]; [|by destruct (Hy e')|];
      unfold io_bind, attempt, on_storer; cbn [rp_st begin]; rewrite Hpack, Hclose, Hk; reflexivity. }
  by apply Hgo.
Qed.

(** ** Witnesses *)

#[export] Instance toy_wire : @GitWire toy_git := {|
  IsZero h := bool_decide (h = ZeroHash);
  ActionOf old new :=
    if bool_decide (old = ZeroHash) then (if bool_decide (new = ZeroHash) then Invalid else Create)
    else if bool_decide (new = ZeroHash) then Delete else Update;
|}.

(** A connection whose steps succeed. *)
Definition a_push (cmds : list (@command toy_git)) (report : bool) (d : bytes) : @conn toy_git :=
  {| x_advertiseRefs := false; x_statelessRPC := true; x_protocol := V2; x_version := Ok tt; x_advertise := Ok tt; x_nilReader := false;
     x_peek := Ok false;
     x_decode := Ok (cmds, {| k_pushOptions := false; k_noProgress := false; k_sideband64k := true; k_sideband := false; k_reportStatus := report |});
     x_pushOptions := Ok tt; x_admit := Some (Ok tt); x_pack := d; x_closeReader := Ok tt;
     x_sendStatus := Ok tt; x_flush := Ok tt; x_closeWriter := Ok tt |}.

Definition create_main : @command toy_git := {| m_name := bs "refs/heads/main"; m_old := ZeroHash; m_new := sample_hash |}.

Definition race_update := @updateReferences toy_git toy_zstd Mem.mem_s3 toy_wire unit_config [create_main] race_start.
Definition race_status : gmap bytes (option goerr) := match fst race_update with Ok (st, _) => st | Err _ => ∅ end.
Lemma race_update_ok : race_update = (Ok (race_status, None), snd race_update).
Proof.
  apply pair_fst. unfold race_status. assert (Hb : match fst race_update with Ok (_, None) => true | _ => false end = true) by (vm_compute; reflexivity).
  destruct (fst race_update) as [[st [e|]]|e]; [discriminate Hb|reflexivity|discriminate Hb].
Qed.

(** Two clients create different references at once; ours is told of success. *)
Lemma accepted_commands_landed_witness :
  exists s1 b packed loose next, @landed_batch toy_git toy_zstd Mem.mem_s3 toy_wire Mem.mem Mem.any_env unit_config [create_main] race_status
    race_start (snd race_update) s1 b packed loose next.
Proof.
  assert (Hup : up_ok race_start) by (intros e He; discriminate He).
  assert (Hnd : NoDup (m_name <$> [create_main])) by apply NoDup_singleton.
  assert (Hin : create_main ∈ [create_main]) by apply list_elem_of_here.
  assert (Hb : match race_status !! m_name create_main with Some None => true | _ => false end = true) by (vm_compute; reflexivity).
  assert (Hacc : accepted race_status (m_name create_main)).
  { unfold accepted. destruct (race_status !! m_name create_main) as [[e|]|]; [discriminate Hb|reflexivity|discriminate Hb]. }
  exact (@accepted_commands_landed toy_git toy_zstd Mem.mem_s3 toy_wire Mem.mem Mem.any_env unit_config [create_main] race_status None race_start
    (snd race_update) create_main Mem.mem_s3_laws (mem_start_ok ∅ racing) Hup eq_refl Hnd race_update_ok Hin Hacc).
Defined.

Abbreviation receive cmds report d := (@receivePackStreaming toy_git toy_zstd Plain.plain_s3 toy_wire unit_config toy_sha delta_objects toy_zlib
  toy_pack_hash toy_config small_policy bin_n cue_n true (a_push cmds report d) (begin (H1 := Plain.plain_s3) fresh_state)).

Definition landed_push : gores unit * @RP toy_git Plain.plain_s3 := receive [create_main] true fox_pack.
Definition main_update : @refUpdate toy_git := {| u_name := bs "refs/heads/main"; u_old := ZeroHash; u_new := sample_hash |}.

(** Whether the callback ran, with what. *)
Definition told {A} (x : gores A * @RP toy_git Plain.plain_s3) : list (list (@refUpdate toy_git)) :=
  omap (fun e => match e with OnUpdated _ upd => Some upd | _ => None end) (rp_events (snd x)).
Lemma told_event x upd : [upd] = told (A := unit) x -> OnUpdated true upd ∈ rp_events (snd x) \/ OnUpdated false upd ∈ rp_events (snd x).
Proof.
  unfold told. intros Ht. assert (Hin : upd ∈ told x) by (unfold told; rewrite <-Ht; apply list_elem_of_here).
  unfold told in Hin. apply list_elem_of_omap in Hin as (e & Hin & He). destruct e as [| [] upd'|]; try discriminate He; injection He as ->; auto.
Qed.

Lemma landed_eq : receive [create_main] true fox_pack = (fst landed_push, snd landed_push).
Proof. unfold landed_push. apply surjective_pairing. Qed.
Lemma callback_only_after_commit_witness :
  exists u st1 status first s1 b packed loose next, told landed_push = [[u]] /\
    @updateReferences toy_git toy_zstd Plain.plain_s3 toy_wire unit_config [create_main] st1 = (Ok (status, first), rp_st (snd landed_push)) /\
    @landed_batch toy_git toy_zstd Plain.plain_s3 toy_wire (fun b => b) eq unit_config [create_main] status st1 (rp_st (snd landed_push))
      s1 b packed loose next.
Proof.
  assert (Ht : match told landed_push with [[_]] => true | _ => false end = true) by (vm_compute; reflexivity).
  destruct (told landed_push) as [|[|u [|]] [|]] eqn:Eu; try discriminate Ht. exists u.
  assert (Hin : exists progress, OnUpdated progress [u] ∈ rp_events (snd landed_push))
    by (destruct (told_event _ _ (eq_sym Eu)); eauto).
  destruct Hin as [progress Hin].
  assert (Hup : up_ok fresh_state) by (intros e He; discriminate He).
  assert (Hok : refs_ok (H1 := Plain.plain_s3) (refs fresh_state)) by (left; split; reflexivity).
  pose proof (@callback_only_after_commit toy_git toy_zstd Plain.plain_s3 toy_wire toy_sha delta_objects toy_zlib toy_pack_hash toy_config
    (fun b => b) eq unit_config small_policy bin_n cue_n true (a_push [create_main] true fox_pack) fresh_state (fst landed_push) (snd landed_push)
    progress [u] [create_main] _ Plain.plain_s3_laws Hok Hup eq_refl (NoDup_singleton _) landed_eq Hin) as Hx.
  destruct Hx as (st1 & status & first & _ & _ & Hu & _ & _ & _ & _ & Hland).
  destruct (Hland eq_refl) as (s1 & b & packed & loose & next & Hb). exists st1, status, first, s1, b, packed, loose, next.
  split; [reflexivity|]. split; [exact Hu|exact Hb].
Defined.

(** A pack that ends too early. *)
Definition cut_pack : bytes := take 30 fox_pack.
Definition cut_run : gores unit * @St toy_git Plain.plain_s3 :=
  @store_pack toy_git toy_zstd Plain.plain_s3 toy_wire toy_sha delta_objects toy_zlib toy_pack_hash toy_config unit_config small_policy bin_n cue_n
    true [create_main] (a_push [create_main] true cut_pack) fresh_state.

Lemma unstored_push_stops_witness :
  exists e, receive [create_main] true cut_pack = (Ok tt, {| rp_st := snd cut_run; rp_events := [ReportStatus (Some e) ∅] |}).
Proof.
  assert (Hno : is_ok (fst cut_run) = false) by (vm_compute; reflexivity).
  destruct (fst cut_run) as [|e] eqn:Ec; [discriminate Hno|]. exists e.
  refine (@unstored_push_stops toy_git toy_zstd Plain.plain_s3 toy_wire toy_sha delta_objects toy_zlib toy_pack_hash toy_config
    unit_config small_policy bin_n cue_n true (a_push [create_main] true cut_pack) [create_main] _ fresh_state (snd cut_run) e
    eq_refl _ eq_refl eq_refl (pair_fst _ _ Ec)).
  intros e'. discriminate.
Defined.

(** ** Two observations *)

Definition main_after (x : gores unit * @RP toy_git Plain.plain_s3) : option Hash :=
  match fst (@Reference toy_git toy_zstd Plain.plain_s3 unit_config (bs "refs/heads/main") (rp_st (snd x))) with
  | Ok r => Some (ref_hash r) | Err _ => None
  end.

(** A client that asks for no report has its pack stored, is answered with
    success, and its reference is not created. *)
Definition silent_push := receive [create_main] false fox_pack.
Example silent_push_updates_nothing :
  is_ok (fst silent_push) && bool_decide (main_after silent_push = None) && bool_decide (main_after landed_push = Some sample_hash) = true.
Proof. vm_compute. reflexivity. Qed.

(** Two commands for one reference: the first is refused, the second lands, and
    the refused one is reported and announced as landed too. *)
Definition stale_main : @command toy_git := {| m_name := bs "refs/heads/main"; m_old := fox_hash; m_new := ZeroHash |}.
Definition double_push := receive [stale_main; create_main] true fox_pack.
Example refused_command_is_announced :
  match told double_push, main_after double_push with
  | [[u; v]], Some h => bool_decide (u_old u = fox_hash) && bool_decide (u_new u = ZeroHash) && bool_decide (h = u_new v)
  | _, _ => false
  end = true.
Proof. vm_compute. reflexivity. Qed.
