(* ===== verification/GoText.v ===== *)
(** * Text encodings of the Go standard library

    encoding/hex, encoding/base64 and the canonical form of a header name
    (net/textproto), as the source uses them. *)

From S2P Require Import Prelude GoLib.

(** ** encoding/hex *)

Definition hex_char (z : Z) : byte := if z <? 10 then bz (48 + z) else bz (87 + z).

(** [hex.EncodeToString] *)
Fixpoint EncodeToString (l : bytes) : bytes :=
  match l with
  | [] => []
  | b :: l' => hex_char (bu b / 16) :: hex_char (bu b mod 16) :: EncodeToString l'
  end.

Definition hex_value (b : byte) : option Z :=
  let z := bu b in
  if (48 <=? z) && (z <=? 57) then Some (z - 48)
  else if (97 <=? z) && (z <=? 102) then Some (z - 87)
  else if (65 <=? z) && (z <=? 70) then Some (z - 55)
  else None.

(** [hex.DecodeString] *)
Fixpoint DecodeString (s : bytes) : gores bytes :=
  match s with
  | [] => Ok []
  | x :: y :: s' =>
      match hex_value x, hex_value y with
      | Some a, Some b => let? r := DecodeString s' in Ok (bz (16 * a + b) :: r)
      | _, _ => Err Errorf
      end
  | _ => Err Errorf
  end.

Lemma hex_char_ok z : 0 <= z < 16 -> hex_value (hex_char z) = Some z /\ hex_digit (hex_char z) = true.
Proof.
  intros Hz. assert (Hc : forallb (fun z => bool_decide (hex_value (hex_char z) = Some z) && hex_digit (hex_char z)) (seqZ 0 16) = true) by reflexivity.
  rewrite forallb_forall in Hc. specialize (Hc z). rewrite <-list_elem_of_In, elem_of_seqZ in Hc.
  specialize (Hc ltac:(lia)). apply andb_true_iff in Hc as [H1 H2]. split; [by apply bool_decide_eq_true in H1|done].
Qed.

Lemma nibble_range b : 0 <= bu b / 16 < 16 /\ 0 <= bu b mod 16 < 16.
Proof.
  pose proof (bu_range b). split; [|apply Z.mod_pos_bound; lia].
  split; [apply Z.div_pos; lia|apply Z.div_lt_upper_bound; lia].
Qed.

Lemma DecodeString_Encode l : DecodeString (EncodeToString l) = Ok l.
Proof.
  induction l as [|b l IH]; [done|]. cbn [EncodeToString DecodeString]. destruct (nibble_range b) as [Hh Hl].
  rewrite (proj1 (hex_char_ok _ Hh)), (proj1 (hex_char_ok _ Hl)), IH. cbn [res_bind].
  by rewrite <-Z.div_mod, bz_bu by lia.
Qed.

Lemma Encode_digits l : Forall (fun b => hex_digit b = true) (EncodeToString l).
Proof.
  induction l as [|b l IH]; [constructor|]. destruct (nibble_range b) as [Hh Hl].
  constructor; [apply (hex_char_ok _ Hh)|]. constructor; [apply (hex_char_ok _ Hl)|exact IH].
Qed.

Lemma Encode_length l : length (EncodeToString l) = (2 * length l)%nat.
Proof. induction l as [|b l IH]; cbn; lia. Qed.

(** What is made of hexadecimal digits decodes. *)
Lemma hex_digit_value b : hex_digit b = true -> exists z, hex_value b = Some z.
Proof. unfold hex_digit, is_digit, hex_value. destruct ((48 <=? bu b) && (bu b <=? 57)); [eauto|]. cbn. intros ->. eauto. Qed.

Lemma DecodeString_digits s : forallb hex_digit s = true -> Nat.Even (length s) -> exists raw, DecodeString s = Ok raw.
Proof.
  intros Hd [n Hn]. revert s Hd Hn. induction n as [|n IH]; intros s Hd Hn.
  { destruct s; [|done]. by exists []. }
  destruct s as [|x [|y s]]; [done|cbn in Hn; lia|]. cbn in Hd, Hn. rewrite !andb_true_iff in Hd. destruct Hd as (Hx & Hy & Hd).
  destruct (hex_digit_value _ Hx) as [a Ha], (hex_digit_value _ Hy) as [b Hb], (IH s Hd ltac:(lia)) as [raw Hr].
  cbn [DecodeString]. rewrite Ha, Hb, Hr. by eexists.
Qed.

(** ** encoding/base64, the standard encoding *)

Definition base64_char (z : Z) : byte :=
  if z <? 26 then bz (65 + z) else if z <? 52 then bz (71 + z) else if z <? 62 then bz (z - 4)
  else if z =? 62 then bz 43 else bz 47.

(** [base64.StdEncoding.EncodeToString] *)
Fixpoint Base64 (l : bytes) : bytes :=
  match l with
  | [] => []
  | [a] => let n := bu a * 2 ^ 16 in [base64_char (n / 2 ^ 18); base64_char (n / 2 ^ 12 mod 64); bz 61; bz 61]
  | [a; b] =>
      let n := bu a * 2 ^ 16 + bu b * 2 ^ 8 in
      [base64_char (n / 2 ^ 18); base64_char (n / 2 ^ 12 mod 64); base64_char (n / 2 ^ 6 mod 64); bz 61]
  | a :: b :: c :: l' =>
      let n := bu a * 2 ^ 16 + bu b * 2 ^ 8 + bu c in
      base64_char (n / 2 ^ 18) :: base64_char (n / 2 ^ 12 mod 64) :: base64_char (n / 2 ^ 6 mod 64) :: base64_char (n mod 64) :: Base64 l'
  end.

Example base64_man : Base64 (bs "Many hands") = bs "TWFueSBoYW5kcw==".
Proof. reflexivity. Qed.

(** ** net/http header names *)

(** [http.Header]: values by canonical name. *)
Abbreviation header := (gmap bytes (list bytes)).

Definition is_alpha (z : Z) : bool := ((65 <=? z) && (z <=? 90)) || ((97 <=? z) && (z <=? 122)).
Definition token_byte (b : byte) : bool :=
  is_digit b || is_alpha (bu b) || existsb (fun x => bool_decide (x = b)) (bs "!#$%&'*+-.^_`|~").
Definition upper_byte (b : byte) : byte := if (97 <=? bu b) && (bu b <=? 122) then bz (bu b - 32) else b.
Definition lower_byte (b : byte) : byte := if (65 <=? bu b) && (bu b <=? 90) then bz (bu b + 32) else b.

Fixpoint canonical_from (start : bool) (s : bytes) : bytes :=
  match s with
  | [] => []
  | b :: s' => (if start then upper_byte b else lower_byte b) :: canonical_from (bool_decide (b = bz 45)) s'
  end.

(** [http.CanonicalHeaderKey]: a name that is no token is left as it is. *)
Definition CanonicalHeaderKey (s : bytes) : bytes := if forallb token_byte s then canonical_from true s else s.

(** [http.Header.Get] *)
Definition header_get (h : header) (k : bytes) : bytes :=
  match h !! CanonicalHeaderKey k with Some (v :: _) => v | _ => [] end.

Example canonical_names :
  CanonicalHeaderKey (bs "hOST") = bs "Host" /\ CanonicalHeaderKey (bs "x-amz-checksum-sha256") = bs "X-Amz-Checksum-Sha256" /\
  CanonicalHeaderKey (bs "not a token") = bs "not a token".
Proof. split; [|split]; reflexivity. Qed.

(** ** strings.EqualFold *)

(** [strings.EqualFold] from the first byte outside ASCII on: the Unicode tables. *)
Class UnicodeFold := { FoldRunes : bytes -> bytes -> bool }.

Fixpoint EqualFold `{UnicodeFold} (s t : bytes) : bool :=
  match s, t with
  | [], [] => true
  | [], _ :: _ | _ :: _, [] => false
  | x :: s', y :: t' =>
      if (128 <=? bu x) || (128 <=? bu y) then FoldRunes s t
      else if bool_decide (x = y) then EqualFold s' t'
      else let lo := Z.min (bu x) (bu y) in
           let hi := Z.max (bu x) (bu y) in
           if (65 <=? lo) && (lo <=? 90) && (hi =? lo + 32) then EqualFold s' t' else false
  end.
