(* ===== verification/Lfs.v ===== *)
(** * Git LFS objects (internal/lfs: lfs.go, store.go, batch.go, presign.go)

    Blobs shared by the whole bucket, one membership marker per repository that
    holds an object, and the staging key an upload must go through: the checks
    before a marker is written, and what a batch request is told. *)

From S2P Require Import Prelude GoLib S3 Codec GoText.

(** ** The requests only this package makes *)

Class Promotion `{S3} := {
  (** HeadObject with the checksum mode: the length, and [ChecksumSHA256] where the store has one *)
  HeadChecksum : bytes -> World -> gores (option Z * option bytes) * World;
  (** Tigris: the object moves from the first key to the second *)
  RenameObject : bytes -> bytes -> World -> gores unit * World;
}.

Definition moved (src dst : bytes) (o : s3obj) (b : bucket) : bucket := <[dst := o]> (delete src b).

Class PromotionLaws `{Promotion, Sha256} (view : World -> bucket) (env : bucket -> bucket -> Prop) := {
  HeadChecksum_ok k w len sum w' :
    HeadChecksum k w = (Ok (len, sum), w') ->
    exists b o, env (view w) b /\ b !! k = Some o /\ env b (view w') /\
      len = Some (blen (o_body o)) /\
      (forall s, sum = Some s -> s <> [] -> exists raw, DecodeString (Sha256Hex (o_body o)) = Ok raw /\ s = Base64 raw);
  HeadChecksum_err k w e w' :
    HeadChecksum k w = (Err e, w') -> foreign e /\
    exists b, env (view w) b /\ env b (view w') /\ (isNotFound e = true -> b !! k = None);
  RenameObject_ok src dst w u w' :
    RenameObject src dst w = (Ok u, w') ->
    exists b o, env (view w) b /\ b !! src = Some o /\ env (moved src dst o b) (view w');
  RenameObject_err src dst w e w' :
    RenameObject src dst w = (Err e, w') -> foreign e /\
    exists b b', env (view w) b /\ (b' = b \/ exists o, b !! src = Some o /\ b' = moved src dst o b) /\ env b' (view w');
}.

(** The AWS signer: a URL and the headers its signature covers. *)
Record presigned := { ps_url : bytes; ps_header : header }.
Class Presign `{S3} := {
  PresignGetObject : bytes -> Z -> World -> gores presigned;
  PresignPutObject : bytes -> bytes -> Z -> World -> gores presigned;   (** with [ChecksumSHA256] *)
}.

(** ** Keys *)

Definition oidLen : nat := 64.
Definition blobPrefix : bytes := bs "lfs/blobs/".
Definition markerSuffix : bytes := bs "/lfs/objects/".
Definition stagingSuffix : bytes := bs "/lfs/staging/".
Definition locksSuffix : bytes := bs "/lfs/locks.json".
Definition metaSize : bytes := bs "lfs-size".

Definition ValidateOID (oid : bytes) : gores unit :=
  if negb (length oid =? oidLen)%nat then Err (Wrapf (Sent ErrInvalidOID))
  else if forallb hex_digit oid then Ok tt else Err (Wrapf (Sent ErrInvalidOID)).

Definition BlobKey (oid : bytes) : bytes := blobPrefix ++ oid.
Definition MarkerKey (repo oid : bytes) : bytes := repo ++ markerSuffix ++ oid.
Definition StagingKey (repo oid : bytes) : bytes := repo ++ stagingSuffix ++ oid.
Definition LocksKey (repo : bytes) : bytes := repo ++ locksSuffix.

(** [checksumOf] *)
Definition checksumOf (oid : bytes) : gores bytes :=
  match DecodeString oid with Ok raw => Ok (Base64 raw) | Err e => Err (Wrapf e) end.

Inductive VerifyStatus := VerifyMissing | VerifyMismatch | VerifyOK.

Section store.
Context `{S3}.

Abbreviation M := (io World).

(** ** Membership *)

Definition marker_size (meta : gmap bytes bytes) : option Z := ParseInt (default [] (meta !! metaSize)).

(** The size is [None] when the repository does not hold the object. *)
Definition Marker (repo oid : bytes) : M (option Z) :=
  do! lift (ValidateOID oid) in
  try! r := HeadObject (MarkerKey repo oid) in
  match r with
  | Ok (meta, _) => ret (marker_size meta)
  | Err e => if isNotFound e then ret None else fail (Wrapf e)
  end.

(** The reader of the body is read to its end by the caller: here it is its content. *)
Definition OpenVerified (repo oid : bytes) (size : Z) : M (gores bytes) :=
  let! m := Marker repo oid in
  match m with
  | None => fail Errorf
  | Some stored =>
      if negb (stored =? size) then fail Errorf else
      let! out := wrapping (GetObject (BlobKey oid)) in
      if negb (default 0 (g_length out) =? size) then fail Errorf else ret (g_body out)
  end.

Definition putMarker (repo oid : bytes) (size : Z) : M unit :=
  do! wrapping (PutObject (MarkerKey repo oid) [] {[metaSize := FormatInt size]} Always) in ret tt.

Definition verifyPromoted (repo oid : bytes) : M VerifyStatus :=
  let! m := Marker repo oid in
  ret (match m with Some _ => VerifyOK | None => VerifyMissing end).

Definition rejectStaged (staged : bytes) : M VerifyStatus :=
  do! wrapping (DeleteObject staged) in ret VerifyMismatch.

Context `{!Promotion}.

Definition Verify (repo oid : bytes) (size : Z) : M VerifyStatus :=
  do! lift (ValidateOID oid) in
  let staged := StagingKey repo oid in
  try! r := HeadChecksum staged in
  match r with
  | Err e => if isNotFound e then verifyPromoted repo oid else fail (Wrapf e)
  | Ok (len, sum) =>
      if negb (default 0 len =? size) then rejectStaged staged else
      let! wrong := match default [] sum with
                    | [] => ret false
                    | got => let! want := lift (checksumOf oid) in ret (negb (bool_decide (got = want)))
                    end in
      if wrong : bool then rejectStaged staged else
      try! r := RenameObject staged (BlobKey oid) in
      match r with
      | Err e => if isNotFound e then verifyPromoted repo oid else fail (Wrapf e)
      | Ok _ => do! putMarker repo oid size in ret VerifyOK
      end
  end.

(** ** Batch requests *)

Definition OperationDownload : bytes := bs "download".
Definition OperationUpload : bytes := bs "upload".
Definition TransferBasic : bytes := bs "basic".
Definition ActionDownload : bytes := bs "download".
Definition ActionUpload : bytes := bs "upload".
Definition ActionVerify : bytes := bs "verify".
Definition hashAlgoSHA256 : bytes := bs "sha256".
Definition MediaType : bytes := bs "application/vnd.git-lfs+json".

Record Pointer := { p_oid : bytes; p_size : Z }.
Record BatchRequest := { q_operation : bytes; q_transfers : list bytes; q_objects : list Pointer; q_hashAlgo : bytes }.
Record Action := { a_href : bytes; a_header : option (gmap bytes bytes); a_expires : Z }.
Record ObjectResult := {
  o_oid : bytes; o_size : Z; o_authenticated : bool;
  o_actions : gmap bytes Action; o_error : option Z;       (** the code of an [ObjectError] *)
}.
Record BatchResponse := { b_transfer : bytes; b_objects : list ObjectResult; b_hashAlgo : bytes }.

(** [opt_expires] is [int(TTL.Seconds())]. *)
Record BatchOptions := {
  opt_repo : bytes; opt_verifyURL : bytes; opt_ttl : Z; opt_expires : Z; opt_maxSize : Z; opt_maxBatch : Z; opt_concurrency : Z;
}.

(** What one object may be refused for. *)
Definition pointer_ok (opt : BatchOptions) (p : Pointer) : gores unit :=
  let? _ := ValidateOID (p_oid p) in
  if p_size p <? 0 then Err (Wrapf (Sent ErrInvalidRequest))
  else if (0 <? opt_maxSize opt) && (opt_maxSize opt <? p_size p) then Err (Wrapf (Sent ErrObjectTooLarge))
  else Ok tt.

(** [None] is a request without a body. *)
Definition validateBatch (req : option BatchRequest) (opt : BatchOptions) : gores unit :=
  match req with
  | None => Err (Wrapf (Sent ErrInvalidRequest))
  | Some q =>
      if negb (bool_decide (q_operation q = OperationDownload) || bool_decide (q_operation q = OperationUpload))
      then Err (Wrapf (Sent ErrInvalidRequest)) else
      if bool_decide (q_hashAlgo q <> []) && negb (bool_decide (q_hashAlgo q = hashAlgoSHA256))
      then Err (Wrapf (Sent ErrInvalidRequest)) else
      if (0 <? length (q_transfers q))%nat && negb (bool_decide (TransferBasic ∈ q_transfers q))
      then Err (Wrapf (Sent ErrNoSupportedTransfer)) else
      if (0 <? opt_maxBatch opt) && (opt_maxBatch opt <? Z.of_nat (length (q_objects q)))
      then Err (Wrapf (Sent ErrTooManyObjects)) else
      let? _ := res_mapM (pointer_ok opt) (q_objects q) in Ok tt
  end.

(** [TransferHeader]: the signed headers, less the host; [nil] when none is left. *)
Definition TransferHeader (r : presigned) : option (gmap bytes bytes) :=
  let names := filter (fun k => CanonicalHeaderKey k <> bs "Host") (map fst (map_to_list (ps_header r))) in
  match names with
  | [] => None
  | _ => Some (list_to_map ((fun k => (k, header_get (ps_header r) k)) <$> names))
  end.

Context `{!Presign}.

Definition PresignGet (key : bytes) (ttl : Z) : M presigned := fun w => (PresignGetObject key ttl w, w).
Definition PresignPut (key oid : bytes) (ttl : Z) : M presigned :=
  do! lift (ValidateOID oid) in
  let! raw := wrapping (lift (DecodeString oid)) in
  fun w => (PresignPutObject key (Base64 raw) ttl w, w).

Definition resolveObject (p : Pointer) (operation : bytes) (opt : BatchOptions) : M ObjectResult :=
  let res actions error := {| o_oid := p_oid p; o_size := p_size p; o_authenticated := true; o_actions := actions; o_error := error |} in
  let! m := Marker (opt_repo opt) (p_oid p) in
  if bool_decide (operation = OperationDownload) then
    match m with
    | None => ret (res ∅ (Some 404))
    | Some _ =>
        let! req := wrapping (PresignGet (BlobKey (p_oid p)) (opt_ttl opt)) in
        ret (res {[ActionDownload := {| a_href := ps_url req; a_header := TransferHeader req; a_expires := opt_expires opt |}]} None)
    end
  else
    match m with
    | Some size => if negb (size =? p_size p) then ret (res ∅ (Some 422)) else ret (res ∅ None)
    | None =>
        let! req := wrapping (PresignPut (StagingKey (opt_repo opt) (p_oid p)) (p_oid p) (opt_ttl opt)) in
        ret (res (<[ActionUpload := {| a_href := ps_url req; a_header := TransferHeader req; a_expires := opt_expires opt |}]>
                 {[ActionVerify := {| a_href := opt_verifyURL opt; a_header := Some {[bs "Content-Type" := MediaType]};
                                      a_expires := opt_expires opt |}]}) None)
    end.

(** The reads of a batch finish in any order: [order] lists the objects in the
    order in which they do.  The first failure cancels those that follow. *)
Fixpoint resolve_in (order : list nat) (q : BatchRequest) (opt : BatchOptions) (results : gmap nat ObjectResult) : M (gmap nat ObjectResult) :=
  match order with
  | [] => ret results
  | i :: order =>
      match q_objects q !! i with
      | None => resolve_in order q opt results
      | Some p =>
          let! res := resolveObject p (q_operation q) opt in
          resolve_in order q opt (<[i := res]> results)
      end
  end.

Definition Batch (order : list nat) (req : option BatchRequest) (opt : BatchOptions) : M BatchResponse :=
  do! lift (validateBatch req opt) in
  match req with
  | None => fail Panic
  | Some q =>
      let! results := resolve_in order q opt ∅ in
      let zero := {| o_oid := []; o_size := 0; o_authenticated := false; o_actions := ∅; o_error := None |} in
      ret {| b_transfer := TransferBasic; b_objects := (fun i => default zero (results !! i)) <$> seq 0 (length (q_objects q));
             b_hashAlgo := hashAlgoSHA256 |}
  end.
End store.
