(* ===== verification/LfsSpec.v ===== *)
(** * What the LFS store promises

    The protocol every client of the bucket follows, as a step relation on
    buckets; its invariant; that [Verify] is a run of it; and what a batch
    request discloses. *)

From S2P Require Import Prelude GoLib S3 Concrete Codec GoText Lfs.

(** ** Keys *)

Definition oid_ok (oid : bytes) : Prop := ValidateOID oid = Ok tt.

Lemma oid_length oid : oid_ok oid -> length oid = 64%nat.
Proof. unfold oid_ok, ValidateOID. destruct (length oid =? oidLen)%nat eqn:E; b2p; [|done]. cbn. destruct (forallb _ _); done. Qed.

Lemma oid_digits oid : oid_ok oid -> forallb hex_digit oid = true.
Proof. unfold oid_ok, ValidateOID. destruct (negb _); [done|]. by destruct (forallb _ _). Qed.

Lemma blob_inj o o' : BlobKey o = BlobKey o' -> o = o'.
Proof. apply app_inv_head. Qed.
Lemma marker_inj r o r' o' : oid_ok o -> oid_ok o' -> MarkerKey r o = MarkerKey r' o' -> r = r' /\ o = o'.
Proof.
  intros Ho Ho' He. unfold MarkerKey in He. rewrite !app_assoc in He.
  apply app_inj_2 in He as [He ->]; [|by rewrite !oid_length by done]. by apply app_inv_tail in He.
Qed.
Lemma staging_inj r o r' o' : oid_ok o -> oid_ok o' -> StagingKey r o = StagingKey r' o' -> r = r' /\ o = o'.
Proof.
  intros Ho Ho' He. unfold StagingKey in He. rewrite !app_assoc in He.
  apply app_inj_2 in He as [He ->]; [|by rewrite !oid_length by done]. by apply app_inv_tail in He.
Qed.
Lemma marker_not_blob r o o' : oid_ok o -> oid_ok o' -> MarkerKey r o <> BlobKey o'.
Proof.
  intros Ho Ho' He. apply (f_equal length) in He. unfold MarkerKey, BlobKey in He. rewrite !length_app, (oid_length o), (oid_length o') in He by done.
  change (length markerSuffix) with 13%nat in He. change (length blobPrefix) with 10%nat in He. lia.
Qed.
Lemma staging_not_blob r o o' : oid_ok o -> oid_ok o' -> StagingKey r o <> BlobKey o'.
Proof.
  intros Ho Ho' He. apply (f_equal length) in He. unfold StagingKey, BlobKey in He. rewrite !length_app, (oid_length o), (oid_length o') in He by done.
  change (length stagingSuffix) with 13%nat in He. change (length blobPrefix) with 10%nat in He. lia.
Qed.
Lemma marker_not_staging r o r' o' : oid_ok o -> oid_ok o' -> MarkerKey r o <> StagingKey r' o'.
Proof.
  intros Ho Ho' He. unfold MarkerKey, StagingKey in He. rewrite !app_assoc in He.
  apply app_inj_2 in He as [He _]; [|by rewrite !oid_length by done]. apply app_inj_2 in He as [_ He]; [discriminate He|reflexivity].
Qed.

(** ** The protocol *)

Section protocol.
Context `{Sha256}.

(** Two contents with one digest. *)
Definition collision : Prop := exists x y, x <> y /\ Sha256Hex x = Sha256Hex y.

(** [n] is the length of [body], unless the digest is broken. *)
Definition sized (n : Z) (body : bytes) : Prop := n = blen body \/ collision.

Lemma sized_same n x y : Sha256Hex x = Sha256Hex y -> sized n x -> sized n y.
Proof. intros He [->|Hc]; [|by right]. destruct (decide (x = y)) as [->|Hne]; [by left|]. right. by exists x, y. Qed.

Definition lfs_key (k : bytes) : Prop :=
  exists oid, oid_ok oid /\ (k = BlobKey oid \/ exists repo, k = MarkerKey repo oid \/ k = StagingKey repo oid).

(** What a client may do to the bucket at one instant: write content to its
    staging key (the store compares it with the digest the upload was signed
    for), drop staged content, promote it, mark a blob that is there with its
    size, drop a marker; and anything to other keys. *)
Inductive lfs_step : bucket -> bucket -> Prop :=
  | step_stage repo oid o b : oid_ok oid -> Sha256Hex (o_body o) = oid -> lfs_step b (<[StagingKey repo oid := o]> b)
  | step_unstage repo oid b : oid_ok oid -> lfs_step b (delete (StagingKey repo oid) b)
  | step_promote repo oid o b : oid_ok oid -> b !! StagingKey repo oid = Some o ->
      lfs_step b (moved (StagingKey repo oid) (BlobKey oid) o b)
  | step_mark repo oid m o b : oid_ok oid -> b !! BlobKey oid = Some o ->
      (forall n, marker_size (o_meta m) = Some n -> sized n (o_body o)) -> lfs_step b (<[MarkerKey repo oid := m]> b)
  | step_unmark repo oid b : oid_ok oid -> lfs_step b (delete (MarkerKey repo oid) b)
  | step_elsewhere b b' : (forall k, lfs_key k -> b' !! k = b !! k) -> lfs_step b b'.

(** What is stored under an oid has that digest, and a marker tells the size of
    a blob that is there. *)
Record lfs_ok (b : bucket) : Prop := {
  ok_staged repo oid o : oid_ok oid -> b !! StagingKey repo oid = Some o -> Sha256Hex (o_body o) = oid;
  ok_blob oid o : oid_ok oid -> b !! BlobKey oid = Some o -> Sha256Hex (o_body o) = oid;
  ok_marker repo oid m n : oid_ok oid -> b !! MarkerKey repo oid = Some m -> marker_size (o_meta m) = Some n ->
    exists o, b !! BlobKey oid = Some o /\ sized n (o_body o);
}.

#[local] Hint Resolve marker_not_blob staging_not_blob marker_not_staging not_eq_sym : core.

(** A write to a key of another kind. *)
Lemma insert_staging_ok repo oid o b : oid_ok oid -> Sha256Hex (o_body o) = oid -> lfs_ok b -> lfs_ok (<[StagingKey repo oid := o]> b).
Proof.
  intros Ho Hs [H1 H2 H3]. split.
  - intros repo' oid' o' Ho'. rewrite lookup_insert. case_decide as He; [|by apply H1].
    apply staging_inj in He as [-> ->]; [|done|done]. by intros [= <-].
  - intros oid' o' Ho'. rewrite lookup_insert_ne by auto. by apply H2.
  - intros repo' oid' m n Ho'. rewrite !lookup_insert_ne by (try apply not_eq_sym; auto). by apply H3.
Qed.

Lemma delete_staging_ok repo oid b : oid_ok oid -> lfs_ok b -> lfs_ok (delete (StagingKey repo oid) b).
Proof.
  intros Ho [H1 H2 H3]. split.
  - intros repo' oid' o' Ho' Hl. apply lookup_delete_Some in Hl as [_ Hl]. by eapply H1.
  - intros oid' o' Ho' Hl. apply lookup_delete_Some in Hl as [_ Hl]. by eapply H2.
  - intros repo' oid' m n Ho'. rewrite !lookup_delete_ne by (try apply not_eq_sym; auto). by apply H3.
Qed.

Lemma insert_blob_ok oid o b : oid_ok oid -> Sha256Hex (o_body o) = oid -> lfs_ok b -> lfs_ok (<[BlobKey oid := o]> b).
Proof.
  intros Ho Hs [H1 H2 H3]. split.
  - intros repo' oid' o' Ho'. rewrite lookup_insert_ne by (apply not_eq_sym; auto). by apply H1.
  - intros oid' o' Ho'. rewrite lookup_insert. case_decide as He; [|by apply H2]. apply blob_inj in He as ->. by intros [= <-].
  - intros repo' oid' m n Ho'. rewrite (lookup_insert_ne _ _ (MarkerKey _ _)) by (apply not_eq_sym; auto). intros Hm Hn.
    destruct (H3 _ _ _ _ Ho' Hm Hn) as (x & Hx & Hsz). rewrite lookup_insert. case_decide as He; [|by eauto].
    apply blob_inj in He as ->. exists o. split; [done|]. eapply sized_same; [|exact Hsz]. by rewrite Hs, (H2 _ _ Ho' Hx).
Qed.

Lemma insert_marker_ok repo oid m o b : oid_ok oid -> b !! BlobKey oid = Some o ->
  (forall n, marker_size (o_meta m) = Some n -> sized n (o_body o)) -> lfs_ok b -> lfs_ok (<[MarkerKey repo oid := m]> b).
Proof.
  intros Ho Hb Hm [H1 H2 H3]. split.
  - intros repo' oid' o' Ho'. rewrite lookup_insert_ne by auto. by apply H1.
  - intros oid' o' Ho'. rewrite lookup_insert_ne by auto. by apply H2.
  - intros repo' oid' m' n Ho'. rewrite (lookup_insert_ne _ _ (BlobKey _)) by auto. rewrite lookup_insert. case_decide as He; [|by apply H3].
    apply marker_inj in He as [-> ->]; [|done|done]. intros [= <-] Hn. eauto.
Qed.

Lemma delete_marker_ok repo oid b : oid_ok oid -> lfs_ok b -> lfs_ok (delete (MarkerKey repo oid) b).
Proof.
  intros Ho [H1 H2 H3]. split.
  - intros repo' oid' o' Ho'. rewrite lookup_delete_ne by auto. by apply H1.
  - intros oid' o' Ho'. rewrite lookup_delete_ne by auto. by apply H2.
  - intros repo' oid' m n Ho' Hl. apply lookup_delete_Some in Hl as [_ Hl]. rewrite lookup_delete_ne by auto. by eapply H3.
Qed.

Lemma elsewhere_ok b b' : (forall k, lfs_key k -> b' !! k = b !! k) -> lfs_ok b -> lfs_ok b'.
Proof.
  intros Hk [H1 H2 H3].
  assert (Hb : forall oid, oid_ok oid -> b' !! BlobKey oid = b !! BlobKey oid) by (intros oid Ho; apply Hk; exists oid; auto).
  assert (Hs : forall repo oid, oid_ok oid -> b' !! StagingKey repo oid = b !! StagingKey repo oid)
    by (intros repo oid Ho; apply Hk; exists oid; split; [done|]; right; exists repo; auto).
  assert (Hm : forall repo oid, oid_ok oid -> b' !! MarkerKey repo oid = b !! MarkerKey repo oid)
    by (intros repo oid Ho; apply Hk; exists oid; split; [done|]; right; exists repo; auto).
  split; intros.
  - rewrite Hs in *; eauto.
  - rewrite Hb in *; eauto.
  - rewrite Hm in * by done. rewrite Hb by done. eauto.
Qed.

Lemma lfs_step_ok b b' : lfs_step b b' -> lfs_ok b -> lfs_ok b'.
Proof.
  intros Hst Hok. destruct Hst as [repo oid o b Ho Hs|repo oid b Ho|repo oid o b Ho Hst|repo oid m o b Ho Hb Hm|repo oid b Ho|b b' Hk].
  - by apply insert_staging_ok.
  - by apply delete_staging_ok.
  - apply insert_blob_ok; [done| |by apply delete_staging_ok]. by eapply (ok_staged _ Hok).
  - by eapply insert_marker_ok.
  - by apply delete_marker_ok.
  - by eapply elsewhere_ok.
Qed.

Lemma lfs_steps_ok b b' : rtc lfs_step b b' -> lfs_ok b -> lfs_ok b'.
Proof. induction 1; eauto using lfs_step_ok. Qed.

(** No step takes a blob away. *)
Lemma blob_persists b b' oid : rtc lfs_step b b' -> oid_ok oid -> is_Some (b !! BlobKey oid) -> is_Some (b' !! BlobKey oid).
Proof.
  intros Hst Ho. induction Hst as [b|b b1 b2 Hst _ IH]; [done|]. intros Hb. apply IH. clear IH.
  destruct Hst as [repo oid' o b Ho' Hs|repo oid' b Ho'|repo oid' o b Ho' Hst|repo oid' m o b Ho' Hb' Hm|repo oid' b Ho'|b b' Hk].
  - by rewrite lookup_insert_ne by auto.
  - by rewrite lookup_delete_ne by auto.
  - unfold moved. rewrite lookup_insert. case_decide; [done|]. by rewrite lookup_delete_ne by auto.
  - by rewrite lookup_insert_ne by auto.
  - by rewrite lookup_delete_ne by auto.
  - rewrite Hk; [done|]. exists oid. auto.
Qed.
End protocol.

(** ** The server's part *)

Section server.
Context `{S3, Sha256, !Promotion}.
Context (view : World -> bucket) (env : bucket -> bucket -> Prop) `{!S3Laws view env, !PromotionLaws view env}.
Hypothesis clients : forall b b', env b b' -> rtc lfs_step b b'.

Abbreviation steps := (rtc lfs_step).

Lemma steps_trans b1 b2 b3 : steps b1 b2 -> steps b2 b3 -> steps b1 b3.
Proof. apply transitivity. Qed.
Lemma steps_env b1 b2 b3 : steps b1 b2 -> env b2 b3 -> steps b1 b3.
Proof. intros Hs He. eapply steps_trans; [exact Hs|by apply clients]. Qed.

(** An instant of a call. *)
Definition during (w w' : World) (b : bucket) : Prop := steps (view w) b /\ steps b (view w').

Lemma during_here w w' : steps (view w) (view w') -> during w w' (view w').
Proof. by split. Qed.
Lemma during_before w0 w w' b : steps (view w0) (view w) -> during w w' b -> during w0 w' b.
Proof. intros Hs [Hb1 Hb2]. split; [eauto using steps_trans|done]. Qed.

Lemma one_step b b' : lfs_step b b' -> steps b b'.
Proof. apply rtc_once. Qed.
#[local] Hint Resolve clients one_step : core.

Definition marked (repo oid : bytes) (n : Z) (b : bucket) : Prop :=
  exists m, b !! MarkerKey repo oid = Some m /\ marker_size (o_meta m) = Some n.

(** [Marker] tells the membership of one instant, and fails only when the store does. *)
Lemma Marker_spec repo oid w r w' : oid_ok oid -> Marker repo oid w = (r, w') ->
  steps (view w) (view w') /\
  match r with
  | Ok (Some n) => exists b, during w w' b /\ marked repo oid n b
  | Ok None => exists b, during w w' b /\ forall n, ~ marked repo oid n b
  | Err e => exists x, foreign x /\ e = Wrapf x
  end.
Proof.
  intros Ho Hr. unfold Marker, lift, io_bind at 1 in Hr. rewrite Ho in Hr.
  apply io_bind_inv in Hr as [(x & w1 & Ha & Hr)|(e & Ha & _)]; apply attempt_inv in Ha as (x' & [= <-] & Ha).
  destruct x as [[meta len]|e].
  - apply HeadObject_ok in Ha as (b & o & He1 & Hb & He2 & -> & _). injection Hr as <- <-.
    split; [eauto using steps_trans|]. destruct (marker_size (o_meta o)) as [n|] eqn:En; exists b; (split; [split; auto|]).
    + by exists o.
    + intros n (m & Hm & Hn). rewrite Hb in Hm. injection Hm as <-. congruence.
  - apply HeadObject_err in Ha as (Hf & b & He1 & He2 & Hn). destruct (isNotFound e); injection Hr as <- <-; (split; [eauto using steps_trans|]); [|eauto].
    exists b. split; [split; auto|]. intros n (m & Hm & _). by rewrite Hn in Hm.
Qed.

Lemma Marker_invalid repo oid w : ValidateOID oid <> Ok tt -> Marker repo oid w = (Err (Wrapf (Sent ErrInvalidOID)), w).
Proof.
  intros Ho. unfold Marker, io_bind, lift. unfold ValidateOID in *. destruct (negb _); [done|]. by destruct (forallb _ _).
Qed.

(** The staged content of an object, checked against what a verify is told. *)
Definition staged (repo oid : bytes) (size : Z) (b : bucket) : Prop :=
  exists o, b !! StagingKey repo oid = Some o /\ Sha256Hex (o_body o) = oid /\ sized size (o_body o).

(** What the outcome of a verify tells of the bucket. *)
Definition verify_tells (repo oid : bytes) (size : Z) (w w' : World) (r : gores VerifyStatus) : Prop :=
  match r with
  | Ok VerifyOK => exists b, during w w' b /\ ((exists n, marked repo oid n b) \/ staged repo oid size b)
  | Ok VerifyMissing => exists b, during w w' b /\ forall n, ~ marked repo oid n b
  | Ok VerifyMismatch => exists b o, during w w' b /\ b !! StagingKey repo oid = Some o /\
      ~ (blen (o_body o) = size /\ Sha256Hex (o_body o) = oid)
  | Err e => e = Wrapf (Sent ErrInvalidOID) \/ exists x, foreign x /\ e = Wrapf x
  end.

Lemma verifyPromoted_spec repo oid size w r w' : oid_ok oid -> verifyPromoted repo oid w = (r, w') ->
  steps (view w) (view w') /\ verify_tells repo oid size w w' r.
Proof.
  intros Ho Hr. apply io_bind_inv in Hr as [(m & w1 & Hm & [= <- <-])|(e & Hm & ->)]; apply Marker_spec in Hm as [Hs Hm]; try done; (split; [done|]).
  - destruct m as [n|]; [|done]. destruct Hm as (b & Hd & Hm). exists b. eauto.
  - by right.
Qed.

Lemma rejectStaged_spec repo oid w r w' : oid_ok oid -> rejectStaged (StagingKey repo oid) w = (r, w') ->
  steps (view w) (view w') /\ (r = Ok VerifyMismatch \/ exists x, foreign x /\ r = Err (Wrapf x)).
Proof.
  intros Ho Hr. apply io_bind_inv in Hr as [([] & w1 & Hd & [= <- <-])|(e & Hd & ->)].
  - apply wrapping_inv in Hd as [([] & _ & Hd)|(? & [=] & _)]. apply DeleteObject_ok in Hd as (b & H1' & H2'). split; [|by left].
    etransitivity; [by apply clients|]. etransitivity; [apply one_step, (step_unstage repo oid b Ho)|by apply clients].
  - apply wrapping_inv in Hd as [(? & [=] & _)|(x & [= ->] & Hd)]. apply DeleteObject_err in Hd as (Hf & b & b' & H1' & H2' & H3').
    split; [|eauto]. etransitivity; [by apply clients|]. etransitivity; [|by apply clients].
    destruct H2' as [->| ->]; [done|]. apply one_step, (step_unstage repo oid b Ho).
Qed.

(** The marker may be written as long as the blob is there with that size. *)
Lemma putMarker_spec repo oid size w r w' : oid_ok oid ->
  (forall b, steps (view w) b -> exists o, b !! BlobKey oid = Some o /\ sized size (o_body o)) ->
  marker_size {[metaSize := FormatInt size]} = Some size -> putMarker repo oid size w = (r, w') ->
  steps (view w) (view w') /\ (r = Ok tt \/ exists x, foreign x /\ r = Err (Wrapf x)).
Proof.
  intros Ho Hblob Hsz Hr.
  assert (Hmark : forall b, env (view w) b -> lfs_step b (<[MarkerKey repo oid := {| o_body := []; o_meta := {[metaSize := FormatInt size]} |}]> b)).
  { intros b Hb. destruct (Hblob b) as (o & Hl & Hs); [auto|]. eapply step_mark; [done|exact Hl|].
    intros n Hn. cbn [o_meta] in Hn. rewrite Hsz in Hn. by injection Hn as <-. }
  apply io_bind_inv in Hr as [(t & w1 & Hp & [= <- <-])|(e & Hp & ->)].
  - apply wrapping_inv in Hp as [(t' & _ & Hp)|(? & [=] & _)]. apply PutObject_ok in Hp as (b & H1' & _ & _ & H2'). split; [|by left].
    etransitivity; [by apply clients|]. etransitivity; [apply one_step; eauto|by apply clients].
  - apply wrapping_inv in Hp as [(? & [=] & _)|(x & [= ->] & Hp)]. apply PutObject_err in Hp as (Hf & Hp). split; [|eauto].
    destruct Hp as [Hp|(b & H1' & _ & H2')]; [by apply clients|].
    etransitivity; [by apply clients|]. etransitivity; [apply one_step; eauto|by apply clients].
Qed.

Lemma rename_spec repo oid w r w' : oid_ok oid -> RenameObject (StagingKey repo oid) (BlobKey oid) w = (r, w') ->
  steps (view w) (view w') /\
  match r with
  | Ok _ => exists b o, during w w' b /\ b !! BlobKey oid = Some o
  | Err e => foreign e
  end.
Proof.
  intros Ho Hr. destruct r as [u|e].
  - apply RenameObject_ok in Hr as (b & o & H1' & H2' & H3').
    assert (Hm : lfs_step b (moved (StagingKey repo oid) (BlobKey oid) o b)) by (by apply step_promote).
    split; [etransitivity; [by apply clients|]; etransitivity; [by apply one_step|by apply clients]|].
    exists (moved (StagingKey repo oid) (BlobKey oid) o b), o. split; [split; [|by apply clients]|by apply lookup_insert_eq].
    etransitivity; [by apply clients|by apply one_step].
  - apply RenameObject_err in Hr as (Hf & b & b' & H1' & H2' & H3'). split; [|done].
    etransitivity; [by apply clients|]. etransitivity; [|by apply clients].
    destruct H2' as [->|(o & Ho' & ->)]; [done|]. apply one_step. by apply step_promote.
Qed.
(** Once the blob is there, it stays there with that size. *)
Lemma blob_stays b b' oid size o : lfs_ok b -> oid_ok oid -> b !! BlobKey oid = Some o -> sized size (o_body o) -> steps b b' ->
  exists o', b' !! BlobKey oid = Some o' /\ sized size (o_body o').
Proof.
  intros Hok Ho Hb Hs Hst. destruct (blob_persists b b' oid Hst Ho ltac:(by eexists)) as [o' Hb']. exists o'. split; [done|].
  eapply sized_same; [|exact Hs]. by rewrite (ok_blob _ Hok _ _ Ho Hb), (ok_blob _ (lfs_steps_ok _ _ Hst Hok) _ _ Ho Hb').
Qed.

Lemma tells_before w0 w w' repo oid size r : steps (view w0) (view w) -> verify_tells repo oid size w w' r -> verify_tells repo oid size w0 w' r.
Proof.
  intros Hs. destruct r as [[]|e]; cbn.
  - intros (b & Hd & Hm). exists b. split; [by eapply during_before|done].
  - intros (b & o & Hd & Hm). exists b, o. split; [by eapply during_before|done].
  - intros (b & Hd & Hm). exists b. split; [by eapply during_before|done].
  - done.
Qed.

(** From the promotion on. *)
Lemma promote_spec repo oid size w r w' b0 o0 : oid_ok oid -> lfs_ok b0 -> steps b0 (view w) ->
  b0 !! StagingKey repo oid = Some o0 -> size = blen (o_body o0) -> size < 2 ^ 63 ->
  (try! r := RenameObject (StagingKey repo oid) (BlobKey oid) in
   match r with
   | Err e => if isNotFound e then verifyPromoted repo oid else fail (Wrapf e)
   | Ok _ => do! putMarker repo oid size in ret VerifyOK
   end) w = (r, w') ->
  steps (view w) (view w') /\ (verify_tells repo oid size w w' r \/ r = Ok VerifyOK).
Proof.
  intros Ho Hok Hb0 Hst Hsize Hmax Hr.
  apply io_bind_inv in Hr as [(x & w1 & Ha & Hr)|(e & Ha & _)]; apply attempt_inv in Ha as (x' & [= <-] & Ha).
  apply rename_spec in Ha as [Hs Ha]; [|done]. destruct x as [u|e].
  - destruct Ha as (b & o & [Hd1 Hd2] & Hb). assert (Hokb : lfs_ok b) by (eapply lfs_steps_ok; [|exact Hok]; eauto using steps_trans).
    assert (Hsz : sized size (o_body o)).
    { eapply (sized_same _ (o_body o0)); [|by left]. by rewrite (ok_staged _ Hok _ _ _ Ho Hst), (ok_blob _ Hokb _ _ Ho Hb). }
    assert (Hstay : forall b', steps (view w1) b' -> exists o', b' !! BlobKey oid = Some o' /\ sized size (o_body o'))
      by (intros b' Hb'; eapply blob_stays; [exact Hokb|done|exact Hb|done|eauto using steps_trans]).
    assert (Hms : marker_size {[metaSize := FormatInt size]} = Some size) by (unfold marker_size; rewrite lookup_singleton_eq; apply ParseInt_FormatInt; unfold blen in Hsize; lia).
    apply io_bind_inv in Hr as [([] & w2 & Hp & [= <- <-])|(e & Hp & ->)].
    all: apply putMarker_spec in Hp as [Hs2 Hp]; [|exact Ho|exact Hstay|exact Hms]; split; [eauto using steps_trans|].
    + by right.
    + left. right. destruct Hp as [[=]|(x & Hf & [= ->])]. eauto.
  - destruct (isNotFound e).
    + apply (verifyPromoted_spec repo oid size) in Hr as [Hs2 Ht]; [|done]. split; [eauto using steps_trans|]. left. by eapply tells_before.
    + injection Hr as <- <-. split; [done|]. left. right. eauto.
Qed.
(** The checksum the store reports for content with the digest [oid] is the one asked for. *)
Lemma checksum_agrees oid raw s : DecodeString oid = Ok raw -> s = Base64 raw -> checksumOf oid = Ok s.
Proof. unfold checksumOf. by intros -> ->. Qed.

Lemma checksum_total oid : oid_ok oid -> exists s, checksumOf oid = Ok s.
Proof. intros Ho. unfold checksumOf. destruct (DecodeString_digits oid) as [raw ->]; [by apply oid_digits|rewrite oid_length by done; by exists 32%nat|]. eauto. Qed.

Lemma rejected_spec repo oid size o b w0 w r w' : oid_ok oid -> steps (view w0) b -> steps b (view w) -> b !! StagingKey repo oid = Some o ->
  ~ (blen (o_body o) = size /\ Sha256Hex (o_body o) = oid) -> rejectStaged (StagingKey repo oid) w = (r, w') ->
  steps (view w0) (view w') /\ verify_tells repo oid size w0 w' r.
Proof.
  intros Ho Hs1 Hs2 Hb Hbad Hr. apply rejectStaged_spec in Hr as [Hs Hr]; [|done]. assert (Hb' : steps b (view w')) by (eauto using steps_trans).
  split; [eauto using steps_trans|]. destruct Hr as [->|(x & Hf & ->)]; [|right; eauto]. exists b, o. by repeat split.
Qed.

Lemma Verify_spec repo oid size w r w' : lfs_ok (view w) -> size < 2 ^ 63 -> Verify repo oid size w = (r, w') ->
  steps (view w) (view w') /\ verify_tells repo oid size w w' r.
Proof.
  intros Hok Hmax Hr. unfold Verify in Hr. destruct (ValidateOID oid) as [[]|e] eqn:Ho; unfold lift, io_bind at 1 in Hr.
  2:{ injection Hr as <- <-. split; [done|]. left. unfold ValidateOID in Ho. destruct (negb _); [congruence|]. destruct (forallb _ _); congruence. }
  apply io_bind_inv in Hr as [(x & w1 & Ha & Hr)|(e & Ha & _)]; apply attempt_inv in Ha as (x' & [= <-] & Ha).
  destruct x as [[len sum]|e].
  - apply HeadChecksum_ok in Ha as (b & o & He1 & Hb & He2 & -> & Hsum). change (default 0 (Some (blen (o_body o)))) with (blen (o_body o)) in Hr.
    assert (Hokb : lfs_ok b) by (eapply lfs_steps_ok; eauto). pose proof (ok_staged _ Hokb _ _ _ Ho Hb) as Hsha.
    destruct (blen (o_body o) =? size) eqn:Esz; cbn [negb] in Hr; b2p.
    2:{ eapply rejected_spec; [done|apply clients, He1|apply clients, He2|exact Hb| |exact Hr]. by intros [Hx _]. }
    assert (Hgo : (try! r := RenameObject (StagingKey repo oid) (BlobKey oid) in
        match r with Err e => if isNotFound e then verifyPromoted repo oid else fail (Wrapf e) | Ok _ => do! putMarker repo oid size in ret VerifyOK end) w1 = (r, w')).
    { destruct (default [] sum) as [|x s] eqn:Es; [exact Hr|]. destruct sum as [s'|]; [|done]. cbn in Es. subst s'.
      destruct (Hsum _ eq_refl ltac:(done)) as (raw & Hraw & Hs). rewrite Hsha in Hraw.
      unfold io_bind at 1, io_bind at 1, lift, ret in Hr. rewrite (checksum_agrees _ _ _ Hraw Hs) in Hr.
      by rewrite bool_decide_true in Hr by done. }
    eapply promote_spec in Hgo as [Hs Ht]; [|exact Ho|exact Hokb|apply clients, He2|exact Hb|done|done].
    assert (Hs1 : steps (view w) (view w1)) by (eauto using steps_trans). split; [eauto using steps_trans|].
    destruct Ht as [Ht|Ht]; [by eapply tells_before|]. subst r. exists b. split; [split; [auto|]; eauto using steps_trans|]. right.
    exists o. split; [done|]. split; [done|]. by left.
  - apply HeadChecksum_err in Ha as (Hf & b & He1 & He2 & Hn). assert (Hs1 : steps (view w) (view w1)) by (eauto using steps_trans).
    destruct (isNotFound e).
    + apply (verifyPromoted_spec repo oid size) in Hr as [Hs2 Ht]; [|done]. split; [eauto using steps_trans|]. by eapply tells_before.
    + injection Hr as <- <-. split; [done|]. right. eauto.
Qed.
End server.

(** ** What a batch request is told *)

Section batch.
Context `{S3, Sha256, !Promotion, !Presign}.
Context (view : World -> bucket) (env : bucket -> bucket -> Prop) `{!S3Laws view env, !PromotionLaws view env}.
Hypothesis clients : forall b b', env b b' -> rtc lfs_step b b'.

Definition transfer (opt : BatchOptions) (req : presigned) : Action :=
  {| a_href := ps_url req; a_header := TransferHeader req; a_expires := opt_expires opt |}.
Definition verify_action (opt : BatchOptions) : Action :=
  {| a_href := opt_verifyURL opt; a_header := Some {[bs "Content-Type" := MediaType]}; a_expires := opt_expires opt |}.

(** The answers for one object, by what its repository holds at one instant. *)
Inductive answers (opt : BatchOptions) (op : bytes) (p : Pointer) (b : bucket) : gmap bytes Action -> option Z -> Prop :=
  | answer_download n w req : op = OperationDownload -> marked (opt_repo opt) (p_oid p) n b ->
      PresignGetObject (BlobKey (p_oid p)) (opt_ttl opt) w = Ok req ->
      answers opt op p b {[ActionDownload := transfer opt req]} None
  | answer_absent : op = OperationDownload -> (forall n, ~ marked (opt_repo opt) (p_oid p) n b) -> answers opt op p b ∅ (Some 404)
  | answer_held : op <> OperationDownload -> marked (opt_repo opt) (p_oid p) (p_size p) b -> answers opt op p b ∅ None
  | answer_differs n : op <> OperationDownload -> marked (opt_repo opt) (p_oid p) n b -> n <> p_size p -> answers opt op p b ∅ (Some 422)
  | answer_upload raw w req : op <> OperationDownload -> (forall n, ~ marked (opt_repo opt) (p_oid p) n b) ->
      DecodeString (p_oid p) = Ok raw -> PresignPutObject (StagingKey (opt_repo opt) (p_oid p)) (Base64 raw) (opt_ttl opt) w = Ok req ->
      answers opt op p b (<[ActionUpload := transfer opt req]> {[ActionVerify := verify_action opt]}) None.

Definition answered (opt : BatchOptions) (op : bytes) (p : Pointer) (res : ObjectResult) (w w' : World) : Prop :=
  o_oid res = p_oid p /\ o_size res = p_size p /\ o_authenticated res = true /\
  exists b, during view w w' b /\ answers opt op p b (o_actions res) (o_error res).

Lemma answered_wider opt op p res w0 w w1 w2 : rtc lfs_step (view w0) (view w) -> rtc lfs_step (view w1) (view w2) ->
  answered opt op p res w w1 -> answered opt op p res w0 w2.
Proof.
  intros Hs1 Hs2 (Ha & Hb & Hc & b & [Hd1 Hd2] & He). repeat (split; [done|]). exists b. split; [|done].
  split; eauto using steps_trans.
Qed.

Lemma wrapping_presign (f : World -> gores presigned) w req w' :
  wrapping (fun w => (f w, w)) w = (Ok req, w') -> w' = w /\ f w = Ok req.
Proof. intros Hr. apply wrapping_inv in Hr as [(x & [= <-] & [= Hf <-])|(? & [=] & _)]. done. Qed.

Lemma resolve_spec p op opt w res w' : oid_ok (p_oid p) -> resolveObject p op opt w = (Ok res, w') ->
  rtc lfs_step (view w) (view w') /\ answered opt op p res w w'.
Proof.
  intros Ho Hr. unfold resolveObject in Hr. apply io_bind_ok in Hr as (m & w1 & Hm & Hr). apply (Marker_spec view env clients) in Hm as [Hs Hm]; [|done].
  destruct (bool_decide (op = OperationDownload)) eqn:Eop; b2p; destruct m as [n|]; destruct Hm as (b & Hd & Hm).
  - apply io_bind_ok in Hr as (req & w2 & Hp & [= <- <-]). apply wrapping_presign in Hp as [-> Hp].
    split; [done|]. repeat (split; [done|]). exists b. split; [done|]. by eapply answer_download.
  - injection Hr as <- <-. split; [done|]. repeat (split; [done|]). exists b. split; [done|]. by apply answer_absent.
  - destruct (n =? p_size p) eqn:En; injection Hr as <- <-; b2p; (split; [done|]); repeat (split; [done|]); exists b; (split; [done|]).
    + subst n. by apply answer_held.
    + by eapply answer_differs.
  - apply io_bind_ok in Hr as (req & w2 & Hp & [= <- <-]). apply wrapping_inv in Hp as [(x & [= <-] & Hp)|(? & [=] & _)].
    unfold PresignPut in Hp. apply io_bind_ok in Hp as ([] & w3 & [= _ <-] & Hp). apply io_bind_ok in Hp as (raw & w3 & Hw & [= Hp <-]).
    apply wrapping_inv in Hw as [(x & [= <-] & [= Hraw <-])|(? & [=] & _)].
    split; [done|]. repeat (split; [done|]). exists b. split; [done|]. by eapply answer_upload.
Qed.

Lemma resolve_in_spec order q opt w results w' final :
  Forall (fun p => oid_ok (p_oid p)) (q_objects q) -> resolve_in order q opt results w = (Ok final, w') ->
  rtc lfs_step (view w) (view w') /\
  (forall i, (i ∉ order \/ q_objects q !! i = None) -> final !! i = results !! i) /\
  (forall i p, i ∈ order -> q_objects q !! i = Some p -> exists res, final !! i = Some res /\ answered opt (q_operation q) p res w w').
Proof.
  intros Hall. revert w results. induction order as [|i order IH]; intros w results Hr; cbn [resolve_in] in Hr.
  { injection Hr as <- <-. split; [done|]. split; [done|]. by intros i p ?%elem_of_nil. }
  destruct (q_objects q !! i) as [p|] eqn:Ei.
  - apply io_bind_ok in Hr as (res & w1 & H1' & Hr). apply resolve_spec in H1' as [Hs1 Ha]; [|exact (Forall_lookup_1 _ _ _ _ Hall Ei)].
    apply IH in Hr as (Hs2 & Hno & Hyes). split; [eauto using steps_trans|]. split.
    + intros j Hj. rewrite Hno; [apply lookup_insert_ne; intros ->|].
      * destruct Hj as [Hj|Hj]; [apply Hj; left|congruence].
      * destruct Hj as [Hj|Hj]; [left; intros Hx; apply Hj; by right|by right].
    + intros j p' Hj Hp'. destruct (decide (j ∈ order)) as [Hin|Hnin].
      { destruct (Hyes j p' Hin Hp') as (res' & Hl & Hans). exists res'. split; [done|].
        exact (answered_wider _ _ _ _ _ _ _ _ Hs1 (rtc_refl _ _) Hans). }
      apply elem_of_cons in Hj as [->|]; [|done]. assert (p' = p) as -> by congruence.
      exists res. split; [rewrite Hno by auto; apply lookup_insert_eq|].
      exact (answered_wider _ _ _ _ _ _ _ _ (rtc_refl _ _) Hs2 Ha).
  - apply IH in Hr as (Hs & Hno & Hyes). split; [done|]. split.
    + intros j Hj. apply Hno. destruct Hj as [Hj|Hj]; [left; intros Hx; apply Hj; by right|by right].
    + intros j p' Hj Hp'. apply elem_of_cons in Hj as [->|Hj]; [congruence|by apply Hyes].
Qed.

Lemma validateBatch_oids q opt : validateBatch (Some q) opt = Ok tt -> Forall (fun p => oid_ok (p_oid p)) (q_objects q).
Proof.
  unfold validateBatch. do 4 (case_match; [done|]). intros Hr. apply res_bind_ok in Hr as (k & Hk & _).
  apply res_mapM_ok in Hk. apply Forall_lookup. intros i p Hp.
  eapply Forall2_lookup_l in Hk as (u & _ & Hu); [|exact Hp]. unfold pointer_ok in Hu. by apply res_bind_ok in Hu as ([] & Hu & _).
Qed.
End batch.

(** ** Properties *)

(** C7: a verify follows the protocol. Whatever the store answers and whoever
    runs beside it, as long as the other clients keep to the protocol: all that
    the call does to the bucket is a sequence of its steps, and afterwards every
    blob still has the digest it is named by and every marker still tells the
    size of a blob that is there. *)
Theorem verify_follows_protocol `{S3, Sha256, !Promotion} (view : World -> bucket) (env : bucket -> bucket -> Prop)
    (repo oid : bytes) (size : Z) (w w' : World) (r : gores VerifyStatus) :
  S3Laws view env -> PromotionLaws view env -> (forall b b', env b b' -> rtc lfs_step b b') ->
  lfs_ok (view w) -> size < 2 ^ 63 -> Verify repo oid size w = (r, w') ->
  rtc lfs_step (view w) (view w') /\ lfs_ok (view w').
Proof.
  intros Hs3 Hp Hc Hok Hmax Hr. destruct (Verify_spec view env Hc _ _ _ _ _ _ Hok Hmax Hr) as [Hs _].
  split; [exact Hs|]. by eapply lfs_steps_ok.
Qed.

(** What a verify answers is true: "ok" only where at some instant of the
    call the repository already had the marker, or its own staging key held
    content with that digest and size; "mismatch" only where the staged content
    was wrong; "missing" only where there was no usable marker; and a failing
    store is an error, never one of the three. *)
Theorem verify_answers_truly `{S3, Sha256, !Promotion} (view : World -> bucket) (env : bucket -> bucket -> Prop)
    (repo oid : bytes) (size : Z) (w w' : World) (r : gores VerifyStatus) :
  S3Laws view env -> PromotionLaws view env -> (forall b b', env b b' -> rtc lfs_step b b') ->
  lfs_ok (view w) -> size < 2 ^ 63 -> Verify repo oid size w = (r, w') -> verify_tells view repo oid size w w' r.
Proof. intros Hs3 Hp Hc Hok Hmax Hr. apply (Verify_spec view env Hc _ _ _ _ _ _ Hok Hmax Hr). Qed.

(** C8: a batch request discloses nothing the repository does not hold. In
    whatever order the objects are looked up, the response lists them in the
    order of the request, and each answer is the right one for the markers of
    one instant; a download is offered only for an object marked in this very
    repository, and an upload only to its own staging key, signed for the
    object's digest. *)
Theorem batch_discloses_members_only `{S3, Sha256, !Promotion, !Presign} (view : World -> bucket) (env : bucket -> bucket -> Prop)
    (order : list nat) (q : BatchRequest) (opt : BatchOptions) (w w' : World) (resp : BatchResponse) :
  S3Laws view env -> PromotionLaws view env -> (forall b b', env b b' -> rtc lfs_step b b') ->
  order ≡ₚ seq 0 (length (q_objects q)) -> Batch order (Some q) opt w = (Ok resp, w') ->
  length (b_objects resp) = length (q_objects q) /\
  forall i p, q_objects q !! i = Some p -> exists res, b_objects resp !! i = Some res /\
    answered view opt (q_operation q) p res w w' /\
    (is_Some (o_actions res !! ActionDownload) ->
       exists b n, during view w w' b /\ marked (opt_repo opt) (p_oid p) n b).
Proof.
  intros Hs3 Hp Hc Hord Hr. unfold Batch in Hr. apply io_bind_ok in Hr as ([] & w1 & [= Hv <-] & Hr). apply validateBatch_oids in Hv.
  apply io_bind_ok in Hr as (results & w1 & Hres & [= <- <-]). apply (resolve_in_spec view env Hc) in Hres as (Hs & _ & Hyes); [|done].
  cbn [b_objects]. split; [by rewrite length_fmap, length_seq|]. intros i p Hi. pose proof (lookup_lt_Some _ _ _ Hi) as Hlt.
  destruct (Hyes i p) as (res & Hl & Hans); [rewrite Hord; apply elem_of_seq; lia|done|]. exists res.
  split; [rewrite list_lookup_fmap, lookup_seq_lt by done; cbn; by rewrite Hl|]. split; [done|].
  intros Hdl. destruct Hans as (_ & _ & _ & b & Hd & Ha). exists b. inversion Ha as [n wi req Hop Hm|Hop Hm Hac|Hop Hm Hac|n Hop Hm Hn Hac|raw wi req Hop Hm Hraw Hps Hac].
  - by exists n.
  - rewrite <-Hac, lookup_empty in Hdl. by destruct Hdl.
  - rewrite <-Hac, lookup_empty in Hdl. by destruct Hdl.
  - rewrite <-Hac, lookup_empty in Hdl. by destruct Hdl.
  - rewrite <-Hac in Hdl. rewrite lookup_insert_ne, lookup_singleton_ne in Hdl by done. by destruct Hdl.
Qed.

(** ** Witnesses *)

Definition plain_head (k : bytes) (b : bucket) : gores (option Z * option bytes) * bucket :=
  (match b !! k with
   | Some o => Ok (Some (blen (o_body o)), Some (Base64 (o_body o)))
   | None => Err (APIError (bs "NotFound"))
   end, b).
Definition plain_rename (src dst : bytes) (b : bucket) : gores unit * bucket :=
  match b !! src with
  | Some o => (Ok tt, moved src dst o b)
  | None => (Err (APIError (bs "NoSuchKey")), b)
  end.
#[export] Instance plain_promotion : @Promotion Plain.plain_s3 :=
  @Build_Promotion Plain.plain_s3 plain_head plain_rename.

#[export] Instance plain_promotion_laws : @PromotionLaws Plain.plain_s3 plain_promotion toy_sha (fun b => b) eq.
Proof.
  split; cbn; unfold plain_head, plain_rename.
  - intros k w len sum w' [= Hr <-]. destruct (w !! k) as [o|] eqn:E; [|done]. injection Hr as <- <-. exists w, o. repeat (split; [done|]).
    intros s [= <-] _. exists (o_body o). split; [apply DecodeString_Encode|done].
  - intros k w e w' [= Hr <-]. destruct (w !! k) as [o|] eqn:E; [done|]. injection Hr as <-. split; [apply Mem.foreign_api|]. by exists w.
  - intros src dst w u w'. destruct (w !! src) as [o|] eqn:E; [|done]. intros [= _ <-]. by exists w, o.
  - intros src dst w e w'. destruct (w !! src) as [o|] eqn:E; [done|]. intros [= <- <-]. split; [apply Mem.foreign_api|]. exists w, w. auto.
Qed.

#[export] Instance plain_presign : @Presign Plain.plain_s3 := {|
  PresignGetObject k _ _ := Ok {| ps_url := bs "https://t/" ++ k; ps_header := {[bs "Host" := [bs "t"]]} |};
  PresignPutObject k sum _ _ := Ok {| ps_url := bs "https://t/" ++ k; ps_header := {[bs "X-Amz-Checksum-Sha256" := [sum]]} |};
|}.

Definition lfs_body : bytes := bs "thirty-two bytes of file content".
Definition lfs_oid : bytes := EncodeToString lfs_body.
Definition app_repo : bytes := bs "acme/app".
Definition lfs_bucket : bucket := {[StagingKey app_repo lfs_oid := {| o_body := lfs_body; o_meta := ∅ |}]}.

Lemma lfs_bucket_ok : @lfs_ok toy_sha lfs_bucket.
Proof.
  assert (Ho : oid_ok lfs_oid) by reflexivity. unfold lfs_bucket. apply insert_staging_ok; [exact Ho|reflexivity|]. by split.
Qed.

Definition lfs_verified : gores VerifyStatus * @World Plain.plain_s3 := @Verify Plain.plain_s3 plain_promotion app_repo lfs_oid 32 lfs_bucket.
Lemma lfs_verifies : lfs_verified = (Ok VerifyOK, snd lfs_verified).
Proof.
  assert (Hb : match fst lfs_verified with Ok VerifyOK => true | _ => false end = true) by (vm_compute; reflexivity).
  destruct lfs_verified as [[[]|e] w]; try discriminate Hb. reflexivity.
Qed.
Lemma eq_protocol (b b' : bucket) : b = b' -> rtc (@lfs_step toy_sha) b b'.
Proof. by intros ->. Qed.

Lemma verify_follows_protocol_witness :
  rtc (@lfs_step toy_sha) lfs_bucket (snd lfs_verified) /\ is_Some ((snd lfs_verified : bucket) !! MarkerKey app_repo lfs_oid).
Proof.
  split; [|vm_compute; eexists; reflexivity].
  exact (proj1 (@verify_follows_protocol Plain.plain_s3 toy_sha plain_promotion (fun b => b) eq app_repo lfs_oid 32 lfs_bucket (snd lfs_verified)
    (Ok VerifyOK) Plain.plain_s3_laws plain_promotion_laws eq_protocol lfs_bucket_ok eq_refl lfs_verifies)).
Defined.

Lemma verify_answers_truly_witness :
  exists b, (exists n, marked app_repo lfs_oid n b) \/ @staged toy_sha app_repo lfs_oid 32 b.
Proof.
  destruct (@verify_answers_truly Plain.plain_s3 toy_sha plain_promotion (fun b => b) eq app_repo lfs_oid 32 lfs_bucket (snd lfs_verified)
    (Ok VerifyOK) Plain.plain_s3_laws plain_promotion_laws eq_protocol lfs_bucket_ok eq_refl lfs_verifies) as (b & _ & Hb).
  exists b. exact Hb.
Defined.

(** One object the repository holds, one it does not. *)
Definition other_oid : bytes := EncodeToString (bs "THIRTY-TWO bytes of file content").
Definition lfs_request : BatchRequest :=
  {| q_operation := OperationDownload; q_transfers := []; q_objects := [{| p_oid := lfs_oid; p_size := 32 |}; {| p_oid := other_oid; p_size := 32 |}];
     q_hashAlgo := [] |}.
Definition lfs_options : BatchOptions :=
  {| opt_repo := app_repo; opt_verifyURL := bs "https://t/verify"; opt_ttl := 900; opt_expires := 900; opt_maxSize := 0; opt_maxBatch := 100;
     opt_concurrency := 0 |}.
Definition lfs_asked : gores BatchResponse * @World Plain.plain_s3 := @Batch Plain.plain_s3 plain_presign [1; 0]%nat (Some lfs_request) lfs_options (snd lfs_verified).
Definition lfs_answer : BatchResponse := match fst lfs_asked with Ok r => r | Err _ => {| b_transfer := []; b_objects := []; b_hashAlgo := [] |} end.

Lemma lfs_asks : lfs_asked = (Ok lfs_answer, snd lfs_asked).
Proof.
  assert (Hb : is_ok (fst lfs_asked) = true) by (vm_compute; reflexivity). unfold lfs_answer. by destruct lfs_asked as [[r|e] w].
Qed.

Lemma batch_discloses_members_only_witness :
  (o_error <$> b_objects lfs_answer) = [None; Some 404] /\
  exists res b n, b_objects lfs_answer !! 0%nat = Some res /\ is_Some (o_actions res !! ActionDownload) /\ marked app_repo lfs_oid n b.
Proof.
  split; [vm_compute; reflexivity|].
  assert (Hord : [1; 0]%nat ≡ₚ seq 0 (length (q_objects lfs_request))) by apply perm_swap.
  destruct (@batch_discloses_members_only Plain.plain_s3 toy_sha plain_promotion plain_presign (fun b => b) eq [1; 0]%nat lfs_request lfs_options
    (snd lfs_verified) (snd lfs_asked) lfs_answer Plain.plain_s3_laws plain_promotion_laws eq_protocol Hord lfs_asks) as [_ Hall].
  destruct (Hall 0%nat _ eq_refl) as (res & Hl & _ & Hm). exists res.
  assert (Hd : match b_objects lfs_answer !! 0%nat with Some res => bool_decide (is_Some (o_actions res !! ActionDownload)) | None => false end = true)
    by (vm_compute; reflexivity).
  rewrite Hl in Hd. apply bool_decide_eq_true in Hd. destruct (Hm Hd) as (b & n & _ & Hb). by exists b, n.
Defined.
