(* ===== verification/LfsLocks.v ===== *)
(** * Git LFS file locks (internal/lfs/locks.go)

    All the locks of a repository are one document, replaced by conditional
    writes.  The document's JSON form is encoding/json's: the class [LockJson]. *)

From S2P Require Import Prelude GoLib S3 Codec GoText Lfs.

Definition lockCASRetries : nat := 8.
Definition AnonymousOwner : bytes := bs "anonymous".

(** [l_owner] is [Owner.Name]; times are nanoseconds. *)
Record Lock := { l_id : bytes; l_path : bytes; l_lockedAt : Z; l_owner : bytes }.
(** The document: [lockDoc]. *)
Abbreviation lockDoc := (list Lock).
Definition no_lock : Lock := {| l_id := []; l_path := []; l_lockedAt := 0; l_owner := [] |}.

Record LockFilter := { f_path : bytes; f_id : bytes; f_cursor : bytes; f_limit : Z }.

Class LockJson := {
  MarshalLocks : lockDoc -> gores bytes;
  UnmarshalLocks : bytes -> gores lockDoc;
  JsonText : bytes -> Prop;      (** valid UTF-8, which JSON carries unchanged *)
}.
Definition lock_text `{LockJson} (l : Lock) : Prop := JsonText (l_id l) /\ JsonText (l_path l) /\ JsonText (l_owner l).
Class LockJsonLaws `{LockJson} := {
  Unmarshal_locks doc body : Forall lock_text doc -> MarshalLocks doc = Ok body -> UnmarshalLocks body = Ok doc;
  Marshal_nonblank doc body : MarshalLocks doc = Ok body -> TrimSpace body <> [];
  Unmarshal_text body doc : UnmarshalLocks body = Ok doc -> Forall lock_text doc;
  JsonText_hex s : Forall (fun b => hex_digit b = true) s -> JsonText s;
  JsonText_anonymous : JsonText AnonymousOwner;
}.

Definition or_anonymous (owner : bytes) : bytes := match owner with [] => AnonymousOwner | _ => owner end.

(** [SplitLocks]: the caller's own, and everyone else's. *)
Definition SplitLocks `{UnicodeFold} (locks : list Lock) (owner : bytes) : list Lock * list Lock :=
  let owner := or_anonymous owner in
  (filter (fun l => EqualFold (l_owner l) owner = true) locks, filter (fun l => EqualFold (l_owner l) owner = false) locks).

Section locks.
Context `{S3, LockJson, UnicodeFold}.
(** [crypto/rand] and the clock, by attempt. *)
Context (rand : nat -> gores bytes) (now : nat -> Z).

Abbreviation M := (io World).

Definition newLockID (attempt : nat) : gores bytes :=
  match rand attempt with Ok b => Ok (EncodeToString b) | Err e => Err (Wrapf e) end.

Definition decode_locks (body : bytes) : gores lockDoc :=
  match TrimSpace body with
  | [] => Ok []
  | _ => match UnmarshalLocks body with Ok doc => Ok doc | Err e => Err (Wrapf e) end
  end.

Definition readLocks (repo : bytes) : M (lockDoc * bytes) :=
  try! r := GetObject (LocksKey repo) in
  match r with
  | Err e => if isNotFound e then ret ([], []) else fail (Wrapf e)
  | Ok out =>
      let! body := wrapping (lift (g_body out)) in
      let! doc := lift (decode_locks body) in
      ret (doc, g_etag out)
  end.

(** The callback sees the attempt and the document; it gives what its captured
    variables then hold, and the changed document or an error. *)
Fixpoint mutate_from {A} (n attempt : nat) (repo : bytes) (fn : nat -> lockDoc -> A * gores lockDoc) : M A :=
  match n with
  | O => fail (Wrapf (Sent ErrLockContention))
  | S n =>
      let! (doc, etag) := readLocks repo in
      match fn attempt doc with
      | (a, Err e) => if errors_is e errNoChange then ret a else fail e
      | (a, Ok doc) =>
          let! body := wrapping (lift (MarshalLocks doc)) in
          let cond := match etag with [] => IfNoneMatch | _ => IfMatch etag end in
          try! r := PutObject (LocksKey repo) body ∅ cond in
          match r with
          | Ok _ => ret a
          | Err e => if isPreconditionFailed e then mutate_from n (S attempt) repo fn else fail (Wrapf e)
          end
      end
  end.
Definition mutateLocks {A} : bytes -> (nat -> lockDoc -> A * gores lockDoc) -> M A := mutate_from lockCASRetries 0.

(** The callback of [CreateLock]. *)
Definition create_in (path owner : bytes) (attempt : nat) (doc : lockDoc) : (Lock * bool) * gores lockDoc :=
  match list_find (fun l => l_path l = path) doc with
  | Some (_, held) => ((held, false), Err (Sent errNoChange))
  | None =>
      match newLockID attempt with
      | Err e => ((no_lock, false), Err e)
      | Ok id =>
          let held := {| l_id := id; l_path := path; l_lockedAt := now attempt; l_owner := owner |} in
          ((held, true), Ok (doc ++ [held]))
      end
  end.

Definition CreateLock (repo path owner : bytes) : M (Lock * bool) :=
  if bool_decide (path = []) then fail (Wrapf (Sent ErrInvalidRequest)) else
  mutateLocks repo (create_in path (or_anonymous owner)).

(** The callback of [DeleteLock]. *)
Definition delete_in (id owner : bytes) (force : bool) (attempt : nat) (doc : lockDoc) : Lock * gores lockDoc :=
  match list_find (fun l => l_id l = id) doc with
  | None => (no_lock, Err (Sent ErrLockNotFound))
  | Some (i, l) =>
      if negb force && negb (EqualFold (l_owner l) owner) then (no_lock, Err (Wrapf (Sent ErrLockHeldByAnother)))
      else (l, Ok (delete i doc))
  end.

Definition DeleteLock (repo id owner : bytes) (force : bool) : M Lock :=
  mutateLocks repo (delete_in id (or_anonymous owner) force).

(** ** Listing *)

Definition matches (f : LockFilter) (l : Lock) : bool :=
  (bool_decide (f_path f = []) || bool_decide (l_path l = f_path f)) && (bool_decide (f_id f = []) || bool_decide (l_id l = f_id f)).

(** From the document on. *)
Definition page_of (f : LockFilter) (doc : lockDoc) : gores (list Lock * bytes) :=
  let out := filter (fun l => matches f l = true) doc in
  let? start := match f_cursor f with
                | [] => Ok 0
                | cursor => match ParseInt cursor with
                            | Some n => if n <? 0 then Err (Wrapf (Sent ErrInvalidRequest)) else Ok n
                            | None => Err (Wrapf (Sent ErrInvalidRequest))
                            end
                end in
  if Z.of_nat (length out) <=? start then Ok ([], []) else
  let out := drop (Z.to_nat start) out in
  if (0 <? f_limit f) && (f_limit f <? Z.of_nat (length out))
  then Ok (take (Z.to_nat (f_limit f)) out, FormatInt (start + f_limit f))
  else Ok (out, []).

Definition ListLocks (repo : bytes) (f : LockFilter) : M (list Lock * bytes) :=
  let! (doc, _) := readLocks repo in lift (page_of f doc).
End locks.
