(* ===== verification/LfsLocksSpec.v ===== *)
(** * What the lock operations promise

    Each takes effect at one instant, on the document of that instant; no path
    is ever locked twice; the pages of a listing are the whole listing. *)

From S2P Require Import Prelude GoLib S3 Concrete Codec GoText Lfs LfsLocks.

Section spec.
Context `{S3, LockJson, UnicodeFold, !LockJsonLaws}.
Context (view : World -> bucket) (env : bucket -> bucket -> Prop) `{!S3Laws view env}.
Context (rand : nat -> gores bytes) (now : nat -> Z).

#[local] Instance env_po_locks : PreOrder env := env_preorder.

Lemma env_trans b1 b2 b3 : env b1 b2 -> env b2 b3 -> env b1 b3.
Proof. apply transitivity. Qed.

(** The document a bucket holds for a repository. *)
Definition locks_at (repo : bytes) (b : bucket) (doc : lockDoc) : Prop :=
  (b !! LocksKey repo = None /\ doc = []) \/ exists o, b !! LocksKey repo = Some o /\ decode_locks (o_body o) = Ok doc.
Definition with_locks (repo body : bytes) (b : bucket) : bucket := <[LocksKey repo := {| o_body := body; o_meta := ∅ |}]> b.

Lemma readLocks_spec repo w r w' : readLocks repo w = (r, w') ->
  env (view w) (view w') /\
  match r with
  | Ok (doc, etag) => exists b, env (view w) b /\ env b (view w') /\
      ((etag = [] /\ b !! LocksKey repo = None /\ doc = []) \/
       exists o, etag = ETagOf (o_body o) /\ b !! LocksKey repo = Some o /\ decode_locks (o_body o) = Ok doc)
  | Err _ => True
  end.
Proof.
  intros Hr. apply io_bind_inv in Hr as [(x & w1 & Ha & Hr)|(e & Ha & _)]; apply attempt_inv in Ha as (x' & [= <-] & Ha).
  destruct x as [out|e].
  - apply GetObject_ok in Ha as (b & o & He1 & Hb & He2 & Het & _ & Hbody & Hf).
    assert (Hs : env (view w) (view w1)) by eauto using env_trans.
    apply io_bind_inv in Hr as [(body & w2 & Hg & Hr)|(e & Hg & ->)].
    + apply wrapping_inv in Hg as [(body' & [= <-] & [= Hg <-])|(? & [=] & _)]. apply Hbody in Hg as ->.
      apply io_bind_inv in Hr as [(doc & w3 & [= Hd <-] & [= <- <-])|(e & [= Hd <-] & ->)]; (split; [exact Hs|]); [|done].
      exists b. repeat (split; [done|]). right. exists o. by rewrite Het.
    + apply wrapping_inv in Hg as [(? & [=] & _)|(e' & [= ->] & [= Hg <-])]. done.
  - apply GetObject_err in Ha as ([Hf _] & b & He1 & He2 & Hn). assert (Hs : env (view w) (view w1)) by eauto using env_trans.
    destruct (isNotFound e); injection Hr as <- <-; (split; [exact Hs|]); [|done].
    exists b. repeat (split; [done|]). left. auto.
Qed.

(** A call that failed wrote nothing, or its write may have landed unseen. *)
Definition failed_with (repo : bytes) (w w' : World) (e : goerr) (changes : lockDoc -> lockDoc -> Prop) : Prop :=
  env (view w) (view w') \/
  exists x b doc doc' body, foreign x /\ e = Wrapf x /\ env (view w) b /\ locks_at repo b doc /\ changes doc doc' /\
    MarshalLocks doc' = Ok body /\ env (with_locks repo body b) (view w').

(** The document read is the one the condition of the write is about. *)
Lemma cond_locks (repo etag : bytes) (doc : lockDoc) (b0 b : bucket) :
  ((etag = [] /\ b0 !! LocksKey repo = None /\ doc = []) \/
    (exists o, etag = ETagOf (o_body o) /\ b0 !! LocksKey repo = Some o /\ decode_locks (o_body o) = Ok doc)) ->
  cond_holds (match etag with [] => IfNoneMatch | _ => IfMatch etag end) (LocksKey repo) b -> locks_at repo b doc.
Proof.
  intros [(-> & _ & ->)|(o & -> & _ & Hd)] Hc; [by left|]. right. pose proof (ETagOf_nonempty (o_body o)) as Hne.
  destruct (ETagOf (o_body o)) as [|x t] eqn:Et; [done|]. cbn in Hc. destruct Hc as (o' & Hb & He). rewrite <-Et in He.
  apply (inj ETagOf) in He. exists o'. by rewrite He.
Qed.

(** Each outcome of the loop, for any callback. *)
Lemma mutate_spec {A} n att repo (fn : nat -> lockDoc -> A * gores lockDoc) w r w' : mutate_from n att repo fn w = (r, w') ->
  match r with
  | Ok a => exists k b doc, env (view w) b /\ locks_at repo b doc /\
      match fn k doc with
      | (a', Err e) => a' = a /\ errors_is e errNoChange = true /\ env b (view w')
      | (a', Ok doc') => a' = a /\ exists body, MarshalLocks doc' = Ok body /\ env (with_locks repo body b) (view w')
      end
  | Err e => failed_with repo w w' e (fun doc doc' => exists k a, fn k doc = (a, Ok doc'))
  end.
Proof.
  revert att w. induction n as [|n IH]; intros att w Hr; cbn [mutate_from] in Hr.
  { injection Hr as <- <-. left. reflexivity. }
  apply io_bind_inv in Hr as [([doc etag] & w1 & Hrd & Hr)|(e & Hrd & ->)]; apply readLocks_spec in Hrd as [Hs Hrd]; [|by left].
  destruct Hrd as (b0 & He1 & He2 & Hread).
  assert (Hat : locks_at repo b0 doc) by (destruct Hread as [(_ & Hb & ->)|(o & _ & Hb & Hd)]; [by left|right; eauto]).
  destruct (fn att doc) as [a [doc'|e]] eqn:Ef.
  2:{ destruct (errors_is e errNoChange) eqn:Ee; injection Hr as <- <-; [|by left]. exists att, b0, doc. by rewrite Ef. }
  apply io_bind_inv in Hr as [(body & w2 & Hm & Hr)|(e & Hm & ->)].
  2:{ apply wrapping_inv in Hm as [(? & [=] & _)|(e' & [= ->] & [= _ <-])]. by left. }
  apply wrapping_inv in Hm as [(body' & [= <-] & [= Hm <-])|(? & [=] & _)].
  apply io_bind_inv in Hr as [(x & w2 & Ha & Hr)|(e & Ha & _)]; apply attempt_inv in Ha as (x' & [= <-] & Ha). destruct x as [t|e].
  - injection Hr as <- <-. apply PutObject_ok in Ha as (b & Hb1 & Hc & _ & Hb2).
    exists att, b, doc. split; [eauto using env_trans|]. split; [by eapply cond_locks|]. rewrite Ef. eauto.
  - destruct (isPreconditionFailed e) eqn:Ep.
    + apply PutObject_refused in Ha; [|done]. specialize (IH _ _ Hr). assert (Hs2 : env (view w) (view w2)) by eauto using env_trans.
      destruct r as [a'|e'].
      * destruct IH as (k & b & doc2 & Hb & Hrest). exists k, b, doc2. split; [eauto using env_trans|done].
      * destruct IH as [IH|(x & b & d & d' & body' & Hf & He & Hb & Hrest)]; [left; eauto using env_trans|]. right.
        exists x, b, d, d', body'. repeat (split; [done|]). split; [eauto using env_trans|done].
    + injection Hr as <- <-. apply PutObject_err in Ha as [Hf [Hb|(b & Hb1 & Hc & Hb2)]]; [left; eauto using env_trans|].
      right. exists e, b, doc, doc', body. repeat (split; [done|]). split; [eauto using env_trans|]. split; [by eapply cond_locks|]. split; [by exists att, a|done].
Qed.
(** ** One lock per path *)

(** Every document of the bucket locks a path at most once. *)
Definition exclusive (repo : bytes) (b : bucket) : Prop :=
  forall o doc, b !! LocksKey repo = Some o -> decode_locks (o_body o) = Ok doc -> NoDup (l_path <$> doc).

Lemma decode_text body doc : decode_locks body = Ok doc -> Forall lock_text doc.
Proof.
  unfold decode_locks. destruct (TrimSpace body); [intros [= <-]; constructor|].
  destruct (UnmarshalLocks body) as [doc'|] eqn:E; [|done]. intros [= <-]. by eapply Unmarshal_text.
Qed.
Lemma decode_marshal doc body : Forall lock_text doc -> MarshalLocks doc = Ok body -> decode_locks body = Ok doc.
Proof.
  intros Ht Hm. unfold decode_locks. pose proof (Marshal_nonblank _ _ Hm) as Hn. destruct (TrimSpace body); [done|].
  by rewrite (Unmarshal_locks _ _ Ht Hm).
Qed.
Lemma at_text repo b doc : locks_at repo b doc -> Forall lock_text doc.
Proof. intros [[_ ->]|(o & _ & Hd)]; [constructor|by eapply decode_text]. Qed.
Lemma at_exclusive repo b doc : exclusive repo b -> locks_at repo b doc -> NoDup (l_path <$> doc).
Proof. intros He [[_ ->]|(o & Ho & Hd)]; [constructor|by eapply He]. Qed.

Lemma with_exclusive repo body b doc : Forall lock_text doc -> MarshalLocks doc = Ok body -> NoDup (l_path <$> doc) ->
  exclusive repo (with_locks repo body b).
Proof.
  intros Ht Hm Hn o doc' Ho Hd. unfold with_locks in Ho. rewrite lookup_insert_eq in Ho. injection Ho as <-.
  cbn in Hd. rewrite (decode_marshal _ _ Ht Hm) in Hd. by injection Hd as <-.
Qed.

Lemma create_changes path owner k doc a doc' : create_in rand now path owner k doc = (a, Ok doc') ->
  exists id, newLockID rand k = Ok id /\ a = ({| l_id := id; l_path := path; l_lockedAt := now k; l_owner := owner |}, true) /\
    doc' = doc ++ [fst a] /\ path ∉ (l_path <$> doc).
Proof.
  unfold create_in. destruct (list_find _ doc) as [[i l]|] eqn:Ef; [done|]. destruct (newLockID rand k) as [id|e]; [|done].
  intros [= <- <-]. exists id. repeat (split; [done|]). intros (l & -> & Hl)%list_elem_of_fmap.
  apply list_find_None in Ef. rewrite Forall_forall in Ef. by eapply Ef.
Qed.

Lemma delete_changes id owner force k doc a doc' : delete_in id owner force k doc = (a, Ok doc') ->
  exists i, list_find (fun l => l_id l = id) doc = Some (i, a) /\ doc' = delete i doc /\ (force = true \/ EqualFold (l_owner a) owner = true).
Proof.
  unfold delete_in. destruct (list_find _ doc) as [[i l]|] eqn:Ef; [|done].
  destruct force, (EqualFold (l_owner l) owner) eqn:Ee; intros [= <- <-]; exists i; auto.
Qed.

Lemma newLockID_text k id : newLockID rand k = Ok id -> JsonText id.
Proof. unfold newLockID. destruct (rand k); [|done]. intros [= <-]. apply JsonText_hex, Encode_digits. Qed.

(** What a changed document keeps, for either operation. *)
Definition keeps_exclusive (fn_changes : lockDoc -> lockDoc -> Prop) : Prop :=
  forall doc doc', fn_changes doc doc' -> Forall lock_text doc -> NoDup (l_path <$> doc) -> Forall lock_text doc' /\ NoDup (l_path <$> doc').

Lemma create_keeps path owner : JsonText path -> JsonText owner ->
  keeps_exclusive (fun doc doc' => exists k a, create_in rand now path owner k doc = (a, Ok doc')).
Proof.
  intros Hp Ho doc doc' (k & a & Hc) Ht Hn. apply create_changes in Hc as (id & Hid & -> & -> & Hnew). cbn [fst]. split.
  - apply Forall_app_2; [done|]. apply Forall_singleton. split; [by eapply newLockID_text|done].
  - rewrite fmap_app. apply NoDup_app. split; [done|]. split; [|apply NoDup_singleton].
    intros x Hx Hx'. cbn in Hx'. by apply list_elem_of_singleton in Hx' as ->.
Qed.

Lemma delete_keeps id owner force : keeps_exclusive (fun doc doc' => exists k a, delete_in id owner force k doc = (a, Ok doc')).
Proof.
  intros doc doc' (k & a & Hc) Ht Hn. apply delete_changes in Hc as (i & _ & -> & _). split.
  - by apply Forall_delete.
  - rewrite list_fmap_delete. eapply sublist_NoDup; [exact Hn|apply sublist_delete].
Qed.

Lemma mutate_exclusive {A} repo (fn : nat -> lockDoc -> A * gores lockDoc) w r w' :
  (forall b b', env b b' -> exclusive repo b -> exclusive repo b') ->
  keeps_exclusive (fun doc doc' => exists k a, fn k doc = (a, Ok doc')) ->
  exclusive repo (view w) -> mutateLocks repo fn w = (r, w') -> exclusive repo (view w').
Proof.
  intros Henv Hk Hx Hr. unfold mutateLocks in Hr. apply mutate_spec in Hr.
  assert (Hw : forall b doc doc' body, env (view w) b -> locks_at repo b doc -> (exists k a, fn k doc = (a, Ok doc')) ->
    MarshalLocks doc' = Ok body -> env (with_locks repo body b) (view w') -> exclusive repo (view w')).
  { intros b doc doc' body Hb Hat Hfn Hm Hlast. eapply Henv; [exact Hlast|].
    destruct (Hk _ _ Hfn (at_text _ _ _ Hat) (at_exclusive _ _ _ (Henv _ _ Hb Hx) Hat)) as [Ht Hn]. by eapply with_exclusive. }
  destruct r as [a|e].
  - destruct Hr as (k & b & doc & Hb & Hat & Hrest). destruct (fn k doc) as [a' [doc'|e]] eqn:Ef.
    + destruct Hrest as (_ & body & Hm & Hlast). eapply Hw; eauto.
    + destruct Hrest as (_ & _ & Hlast). eapply Henv; [exact Hlast|]. by eapply Henv.
  - destruct Hr as [Hr|(x & b & doc & doc' & body & _ & _ & Hb & Hat & Hfn & Hm & Hlast)]; [by eapply Henv|]. eapply Hw; eauto.
Qed.
End spec.

(** ** Pages *)

(** Follow the cursors from [cursor] on, for at most [fuel] pages. *)
Definition at_cursor (cursor : bytes) (f : LockFilter) : LockFilter :=
  {| f_path := f_path f; f_id := f_id f; f_cursor := cursor; f_limit := f_limit f |}.
Fixpoint all_pages (fuel : nat) (cursor : bytes) (f : LockFilter) (doc : lockDoc) : gores (list Lock) :=
  match fuel with
  | O => Err OutOfFuel
  | S fuel =>
      let? (page, next) := page_of (at_cursor cursor f) doc in
      match next with
      | [] => Ok page
      | _ => let? rest := all_pages fuel next f doc in Ok (page ++ rest)
      end
  end.

Definition selected (f : LockFilter) (doc : lockDoc) : list Lock := filter (fun l => matches f l = true) doc.

Lemma FormatInt_nonempty z : 0 <= z < 2 ^ 63 -> FormatInt z <> [].
Proof. intros Hz He. pose proof (ParseInt_FormatInt z Hz) as Hp. by rewrite He in Hp. Qed.

(** The cursor of entry [start]. *)
Definition cursor_at (start : Z) : bytes := if start =? 0 then [] else FormatInt start.

Lemma page_at start f doc : 0 <= start < 2 ^ 63 -> 0 < f_limit f -> Z.of_nat (length (selected f doc)) < 2 ^ 62 -> f_limit f < 2 ^ 62 ->
  page_of (at_cursor (cursor_at start) f) doc =
    let rest := drop (Z.to_nat start) (selected f doc) in
    Ok (if f_limit f <? Z.of_nat (length rest) then (take (Z.to_nat (f_limit f)) rest, FormatInt (start + f_limit f)) else (rest, [])).
Proof.
  intros Hs Hl Hd Hlim. unfold page_of. cbn [at_cursor f_cursor f_limit].
  change (filter (fun l => matches (at_cursor (cursor_at start) f) l = true) doc) with (selected f doc).
  assert (Hc : (match cursor_at start with [] => Ok 0 | _ => match ParseInt (cursor_at start) with Some n => if n <? 0 then Err (Wrapf (Sent ErrInvalidRequest)) else Ok n
     | None => Err (Wrapf (Sent ErrInvalidRequest)) end end : gores Z) = Ok start).
  { unfold cursor_at. destruct (start =? 0) eqn:E; b2p; [by subst|]. pose proof (FormatInt_nonempty start Hs) as Hne.
    rewrite (ParseInt_FormatInt start Hs). destruct (FormatInt start); [done|]. destruct (start <? 0) eqn:E2; b2p; [lia|done]. }
  destruct (cursor_at start) as [|x cur] eqn:Ec; (rewrite Hc || (injection Hc as <-)); cbn [res_bind].
  all: destruct (0 <? f_limit f) eqn:E0; b2p; [|lia]; cbn [andb].
  all: destruct (_ <=? _) eqn:E1; b2p; [rewrite drop_ge by lia; destruct (f_limit f <? _) eqn:E2; b2p; [cbn [length] in E2; lia|done]|].
  all: by destruct (f_limit f <? _).
Qed.

Lemma pages_from fuel start f doc : 0 <= start < 2 ^ 62 -> 0 < f_limit f -> Z.of_nat (length (selected f doc)) < 2 ^ 62 -> f_limit f < 2 ^ 62 ->
  Z.of_nat (length (selected f doc)) - start < Z.of_nat fuel -> (0 < fuel)%nat ->
  all_pages fuel (cursor_at start) f doc = Ok (drop (Z.to_nat start) (selected f doc)).
Proof.
  revert start. induction fuel as [|fuel IH]; intros start Hs Hl Hd Hlim Hf Hpos; [lia|]. cbn [all_pages].
  rewrite page_at by lia. cbn zeta. cbn [res_bind]. set (rest := drop (Z.to_nat start) (selected f doc)).
  destruct (f_limit f <? Z.of_nat (length rest)) eqn:E; b2p; cbn [res_bind]; [|done].
  assert (Hlen : length rest = (length (selected f doc) - Z.to_nat start)%nat) by apply length_drop.
  assert (Hcur : FormatInt (start + f_limit f) = cursor_at (start + f_limit f)) by (unfold cursor_at; destruct (_ =? 0) eqn:E0; b2p; [lia|done]).
  destruct (FormatInt (start + f_limit f)) as [|x cur] eqn:Ec; [by destruct (FormatInt_nonempty (start + f_limit f)); [lia|]|].
  rewrite Hcur, IH by lia. cbn [res_bind]. f_equal. rewrite Z2Nat.inj_add, <-drop_drop by lia. apply take_drop.
Qed.

(** ** Properties *)

(** C9: a lock operation takes effect at one instant, on the document of that
    instant, whoever else is at it. A lock is granted only where that document
    has no lock on the path, and the document then written is that one with the
    new lock added, so no concurrent lock is lost; a refused one names a lock
    that was there; a released lock is the one with that id, its owner's unless
    forced, and every other lock stays. *)
Theorem lock_operations_atomic `{S3, LockJson, UnicodeFold, !LockJsonLaws} (view : World -> bucket) (env : bucket -> bucket -> Prop)
    (rand : nat -> gores bytes) (now : nat -> Z) (repo path owner id : bytes) (force created : bool) (held removed : Lock) (w w' : World) :
  S3Laws view env -> (forall k e, rand k = Err e -> errors_is e errNoChange = false) ->
  (CreateLock rand now repo path owner w = (Ok (held, created), w') ->
   exists b doc, env (view w) b /\ locks_at repo b doc /\ l_path held = path /\
     if created then
       path ∉ (l_path <$> doc) /\ l_owner held = or_anonymous owner /\
       exists body, MarshalLocks (doc ++ [held]) = Ok body /\ env (with_locks repo body b) (view w')
     else held ∈ doc /\ env b (view w')) /\
  (DeleteLock repo id owner force w = (Ok removed, w') ->
   exists b doc i body, env (view w) b /\ locks_at repo b doc /\ list_find (fun l => l_id l = id) doc = Some (i, removed) /\
     (force = true \/ EqualFold (l_owner removed) (or_anonymous owner) = true) /\
     MarshalLocks (delete i doc) = Ok body /\ env (with_locks repo body b) (view w')).
Proof.
  intros Hs3 Hrand. split.
  - unfold CreateLock. case_bool_decide; [done|]. intros Hr. apply (mutate_spec view env) in Hr as (k & b & doc & Hb & Hat & Hrest).
    exists b, doc. split; [done|]. split; [done|]. destruct (create_in _ _ _ _ k doc) as [a [doc'|e]] eqn:Ec.
    + destruct Hrest as (-> & body & Hm & Hlast). apply create_changes in Ec as (lid & _ & [= -> ->] & -> & Hnew). eauto 10.
    + destruct Hrest as (-> & He & Hlast). unfold create_in in Ec. destruct (list_find _ doc) as [[i l]|] eqn:Ef.
      * injection Ec as <- <- _. apply list_find_Some in Ef as (Hl & Hp & _). split; [done|]. split; [by eapply list_elem_of_lookup_2|done].
      * unfold newLockID in Ec. destruct (rand k) as [|x] eqn:Er; [done|]. injection Ec as _ _ <-. cbn in He. by rewrite (Hrand _ _ Er) in He.
  - intros Hr. apply (mutate_spec view env) in Hr as (k & b & doc & Hb & Hat & Hrest).
    destruct (delete_in _ _ _ k doc) as [a [doc'|e]] eqn:Ed.
    + destruct Hrest as (-> & body & Hm & Hlast). apply delete_changes in Ed as (i & Hf & -> & Hown). exists b, doc, i, body. auto 10.
    + destruct Hrest as (_ & He & _). unfold delete_in in Ed. destruct (list_find _ doc) as [[i l]|]; [destruct (_ && _)|]; simplify_eq; done.
Qed.

(** C10: no path is ever locked twice: as long as the other clients keep it so,
    every lock operation does, whatever the store answers it, an ambiguous
    failure included. *)
Theorem locks_stay_exclusive `{S3, LockJson, UnicodeFold, !LockJsonLaws} (view : World -> bucket) (env : bucket -> bucket -> Prop)
    (rand : nat -> gores bytes) (now : nat -> Z) (repo path owner id : bytes) (force : bool) (w : World) :
  S3Laws view env -> (forall b b', env b b' -> exclusive repo b -> exclusive repo b') ->
  JsonText path -> JsonText owner -> exclusive repo (view w) ->
  exclusive repo (view (snd (CreateLock rand now repo path owner w))) /\
  exclusive repo (view (snd (DeleteLock repo id owner force w))).
Proof.
  intros Hs3 Henv Hp Ho Hx. assert (Hoa : JsonText (or_anonymous owner)) by (destruct owner; [apply JsonText_anonymous|done]). split.
  - unfold CreateLock. case_bool_decide; [exact Hx|]. destruct (mutateLocks _ _ w) as [r w'] eqn:Er.
    eapply (mutate_exclusive view env); [exact Henv| |exact Hx|exact Er]. by apply create_keeps.
  - unfold DeleteLock. destruct (mutateLocks _ _ w) as [r w'] eqn:Er.
    eapply (mutate_exclusive view env); [exact Henv| |exact Hx|exact Er]. apply delete_keeps.
Qed.

(** Reading a listing page by page comes to an end and gives every lock the
    filter selects once, in the order of the document: one request more than
    there are locks is always enough. *)
Theorem lock_pages_complete (f : LockFilter) (doc : lockDoc) :
  0 < f_limit f < 2 ^ 62 -> Z.of_nat (length doc) < 2 ^ 62 ->
  all_pages (S (length doc)) [] f doc = Ok (selected f doc).
Proof.
  intros Hl Hd. assert (Hle : (length (selected f doc) <= length doc)%nat) by apply length_filter.
  change (@nil byte) with (cursor_at 0). rewrite pages_from by lia. done.
Qed.

(** ** Witnesses *)

(** A document as the digits of its code. *)
Definition lock_tuple (l : Lock) : bytes * bytes * Z * bytes := (l_id l, l_path l, l_lockedAt l, l_owner l).
Definition tuple_lock (t : bytes * bytes * Z * bytes) : Lock :=
  let '(i, p, n, o) := t in {| l_id := i; l_path := p; l_lockedAt := n; l_owner := o |}.
Fixpoint digits_of (p : positive) : bytes :=
  match p with xH => [bz 51] | xO q => bz 48 :: digits_of q | xI q => bz 49 :: digits_of q end.
Fixpoint of_digits (s : bytes) : option positive :=
  match s with
  | [] => None
  | x :: s' => if bu x =? 51 then Some xH else match of_digits s' with
      | Some q => if bu x =? 48 then Some (xO q) else Some (xI q) | None => None end
  end.
Lemma of_digits_of p : of_digits (digits_of p) = Some p.
Proof. induction p as [p IH|p IH|]; cbn [digits_of of_digits]; [| |done]; by rewrite IH. Qed.
Lemma digits_last p : exists r, digits_of p = r ++ [bz 51].
Proof. induction p as [p [r IH]|p [r IH]|]; cbn; rewrite ?IH; [by exists (bz 49 :: r)|by exists (bz 48 :: r)|by exists []]. Qed.

Lemma trailing_last s x :
  forallb (fun e => match last e with Some y => negb (bool_decide (y = x)) | None => false end) space_encodings = true ->
  trailing_space (s ++ [x]) = None.
Proof.
  intros Hall. unfold trailing_space. destruct (find _ _) as [e|] eqn:Ef; [|done]. apply find_some in Ef as [Hin Hs].
  rewrite forallb_forall in Hall. specialize (Hall _ Hin). apply has_suffix_spec in Hs as [r Hr].
  destruct (last e) as [y|] eqn:El; [|done]. apply last_Some in El as [e' ->]. rewrite app_assoc in Hr.
  apply app_inj_tail in Hr as [_ ->]. by rewrite bool_decide_true in Hall.
Qed.

#[export] Instance toy_locks : LockJson := {|
  MarshalLocks doc := Ok (digits_of (encode (lock_tuple <$> doc)));
  UnmarshalLocks s := match of_digits s ≫= decode (A := list (bytes * bytes * Z * bytes)) with
                      | Some ts => Ok (tuple_lock <$> ts)
                      | None => Err Errorf
                      end;
  JsonText _ := True;
|}.

#[export] Instance toy_locks_laws : LockJsonLaws.
Proof.
  split; cbn; try done.
  - intros doc body _ [= <-]. rewrite of_digits_of. cbn. rewrite decode_encode. f_equal. rewrite <-list_fmap_compose.
    rewrite <-(list_fmap_id doc) at 2. apply list_fmap_ext. by intros i [].
  - intros doc body [= <-]. rewrite TrimSpace_trimmed; [by destruct (encode _)|]. split; [by destruct (encode _)|].
    destruct (digits_last (encode (lock_tuple <$> doc))) as [r ->]. by apply trailing_last.
  - intros body doc _. apply Forall_true. by intros.
Qed.

#[export] Instance ascii_only : UnicodeFold := {| FoldRunes _ _ := false |}.
Definition toy_rand (k : nat) : gores bytes := Ok (bs "sixteen bytes id").
Definition toy_now (k : nat) : Z := 1700000000.

(** Another client takes a lock between our read and our write. *)
Definition their_lock : Lock := {| l_id := bs "t1"; l_path := bs "art/b.psd"; l_lockedAt := 5; l_owner := bs "Bo" |}.
Definition lock_file (doc : lockDoc) : s3obj := {| o_body := match MarshalLocks doc with Ok b => b | Err _ => [] end; o_meta := ∅ |}.
Definition lock_race : @World Mem.mem_s3 :=
  {| Mem.mem := ∅; Mem.script := [{| Mem.changes := []; Mem.fails := false; Mem.undeletable := [] |};
       {| Mem.changes := [(bs "acme/app/lfs/locks.json", Some (lock_file [their_lock]))]; Mem.fails := false; Mem.undeletable := [] |}] |}.
Definition lock_created := @CreateLock Mem.mem_s3 toy_locks toy_rand toy_now (bs "acme/app") (bs "art/a.psd") (bs "ana") lock_race.
Definition lock_held : Lock := match fst lock_created with Ok (l, _) => l | Err _ => no_lock end.

Lemma lock_creates : lock_created = (Ok (lock_held, true), snd lock_created).
Proof.
  assert (Hb : match fst lock_created with Ok (_, true) => true | _ => false end = true) by (vm_compute; reflexivity).
  unfold lock_held. destruct lock_created as [[[l []]|e] w]; try discriminate Hb. reflexivity.
Qed.

(** Both locks survive the race. *)
Lemma lock_operations_atomic_witness :
  match ListLocks (bs "acme/app") {| f_path := []; f_id := []; f_cursor := []; f_limit := 0 |} (snd lock_created) with
  | (Ok (locks, _), _) => bool_decide ((l_path <$> locks) = [bs "art/b.psd"; bs "art/a.psd"])
  | _ => false
  end = true /\
  exists b doc, @locks_at toy_locks (bs "acme/app") b doc /\ bs "art/a.psd" ∉ (l_path <$> doc).
Proof.
  split; [vm_compute; reflexivity|].
  assert (Hrand : forall k e, toy_rand k = Err e -> errors_is e errNoChange = false) by (intros k e He; discriminate He).
  destruct (proj1 (@lock_operations_atomic Mem.mem_s3 toy_locks ascii_only toy_locks_laws Mem.mem Mem.any_env toy_rand toy_now (bs "acme/app")
    (bs "art/a.psd") (bs "ana") [] false true lock_held no_lock lock_race (snd lock_created) Mem.mem_s3_laws Hrand) lock_creates)
    as (b & doc & _ & Hat & _ & Hnew & _).
  exists b, doc. split; [exact Hat|exact Hnew].
Defined.

Definition one_lock : bucket := {[bs "acme/app/lfs/locks.json" := lock_file [their_lock]]}.
Lemma one_lock_exclusive : @exclusive toy_locks (bs "acme/app") one_lock.
Proof.
  assert (Ht : Forall (@lock_text toy_locks) [their_lock]) by (apply Forall_singleton; by split).
  exact (@with_exclusive toy_locks toy_locks_laws (bs "acme/app") _ ∅ [their_lock] Ht eq_refl (NoDup_singleton _)).
Qed.

Lemma locks_stay_exclusive_witness :
  @exclusive toy_locks (bs "acme/app") (snd (@CreateLock Plain.plain_s3 toy_locks toy_rand toy_now (bs "acme/app") (bs "art/a.psd") (bs "ana") one_lock)).
Proof.
  assert (Henv : forall b b' : bucket, b = b' -> @exclusive toy_locks (bs "acme/app") b -> @exclusive toy_locks (bs "acme/app") b') by (by intros b b' ->).
  exact (proj1 (@locks_stay_exclusive Plain.plain_s3 toy_locks ascii_only toy_locks_laws (fun b => b) eq toy_rand toy_now (bs "acme/app")
    (bs "art/a.psd") (bs "ana") (bs "t1") true one_lock Plain.plain_s3_laws Henv I I one_lock_exclusive)).
Defined.

Definition five_locks : lockDoc :=
  (fun i => {| l_id := [bz i]; l_path := bs "p" ++ FormatInt i; l_lockedAt := i; l_owner := bs "ana" |}) <$> [1; 2; 3; 4; 5].
Lemma lock_pages_complete_witness :
  all_pages 6 [] {| f_path := []; f_id := []; f_cursor := []; f_limit := 2 |} five_locks = Ok five_locks.
Proof.
  assert (Hl : 0 < f_limit {| f_path := []; f_id := []; f_cursor := []; f_limit := 2 |} < 2 ^ 62) by (cbn; lia).
  assert (Hd : Z.of_nat (length five_locks) < 2 ^ 62) by (cbn; lia).
  exact (lock_pages_complete {| f_path := []; f_id := []; f_cursor := []; f_limit := 2 |} five_locks Hl Hd).
Defined.
