(* ===== verification/RepoFs.v ===== *)
(** * Repository paths and access (internal/repofs, internal/auth)

    A transport's path becomes a repository reference, the reference a prefix
    of the one bucket; whether a request may proceed is the authorizer's word.
    The path functions of the Go standard library come first. *)

From S2P Require Import Prelude GoLib S3 Concrete Codec Cue PackTable PackIndex Storer.

(** ** strings.Split, path.Clean and path.Join *)

(** [strings.Split(s, "/")]: the parts, one more than there are slashes. *)
Fixpoint split_slash (s : bytes) : list bytes :=
  match s with
  | [] => [[]]
  | x :: s' =>
      if bool_decide (x = slash) then [] :: split_slash s'
      else match split_slash s' with p :: ps => (x :: p) :: ps | [] => [[x]] end
  end.

(** [strings.Join(parts, "/")] *)
Fixpoint join_slash (parts : list bytes) : bytes :=
  match parts with
  | [] => []
  | [p] => p
  | p :: ps => p ++ slash :: join_slash ps
  end.

Definition dot : bytes := bs ".".
Definition dotdot : bytes := bs "..".

(** The elements that remain: [out] is in reverse. *)
Fixpoint clean_parts (rooted : bool) (parts out : list bytes) : list bytes :=
  match parts with
  | [] => rev out
  | p :: ps =>
      if bool_decide (p = []) || bool_decide (p = dot) then clean_parts rooted ps out
      else if bool_decide (p = dotdot) then
        match out with
        | q :: out' => if bool_decide (q = dotdot) then clean_parts rooted ps (dotdot :: out) else clean_parts rooted ps out'
        | [] => if rooted then clean_parts rooted ps [] else clean_parts rooted ps [dotdot]
        end
      else clean_parts rooted ps (p :: out)
  end.

(** [path.Clean] *)
Definition Clean (s : bytes) : bytes :=
  let rooted := match s with x :: _ => bool_decide (x = slash) | [] => false end in
  let body := join_slash (clean_parts rooted (split_slash s) []) in
  match (if rooted then slash :: body else body) with [] => dot | r => r end.

(** [path.Join] of two elements. *)
Definition Join (a b : bytes) : bytes :=
  match a, b with
  | [], [] => []
  | [], _ => Clean b
  | _, _ => Clean (a ++ slash :: b)
  end.

Example clean_examples :
  Clean (bs "a//b/../c/.") = bs "a/c" /\ Clean (bs "/../x") = bs "/x" /\ Clean [] = bs "." /\ Join (bs "a") (bs "../../b") = bs "../b" /\
  Clean (bs "../../b/..") = bs "../..".
Proof. repeat split. Qed.

(** ** Repository references (internal/repofs/repofs.go) *)

Record RepoRef := { OrgID : bytes; Name : bytes }.
#[export] Instance RepoRef_eq_dec : EqDecision RepoRef.
Proof. solve_decision. Defined.

Definition reservedOrgs : list bytes := [bs "lfs"].

Definition Path (r : RepoRef) : bytes := Join (OrgID r) (Name r).

Definition Parse (raw : bytes) : gores RepoRef :=
  match split_slash (trim_byte slash raw) with
  | [org; repo] =>
      if bool_decide (org = []) || bool_decide (repo = []) then Err (Sent ErrInvalidPath) else
      let name := trim_suffix repo (bs ".git") in
      if bool_decide (name = []) then Err (Sent ErrInvalidPath) else
      if has_prefix org (bs ".") || has_prefix name (bs ".") then Err (Sent ErrReservedPath) else
      if bool_decide (org ∈ reservedOrgs) then Err (Sent ErrReservedPath) else
      Ok {| OrgID := org; Name := name |}
  | _ => Err (Sent ErrInvalidPath)
  end.

(** [BucketResolver.Resolve]: the storer over the repository's own prefix. *)
Definition Resolve (base : config) (r : RepoRef) : config := Scoped (Path r) base.

(** ** Access (internal/auth/auth.go) *)

(** [OtherOperation]: an [int] that names none. *)
Inductive Operation := Read | Write | Admin | OtherOperation.
Inductive Decision := Deny | Allow | Unauthenticated.
Inductive Credential := Anonymous | PublicKey (key : bytes) | BasicAuth (user password : bytes).
Record Request := { q_repo : bytes; q_operation : Operation; q_cred : Credential; q_transport : bytes }.

(** [AllowAnonymous] *)
Definition Authorize (allowWrite : bool) (q : Request) : Decision :=
  match q_operation q with
  | Read => Allow
  | Write => if allowWrite then Allow else Deny
  | Admin => Allow
  | OtherOperation => Deny
  end.

(** ** Splitting and joining *)

Lemma split_nonempty s : split_slash s <> [].
Proof. destruct s as [|x s]; [done|]. cbn. destruct (bool_decide _); [done|]. by destruct (split_slash s). Qed.

Lemma split_no_slash s : slash ∉ s -> split_slash s = [s].
Proof.
  induction s as [|x s IH]; intros Hn; [done|]. cbn. rewrite bool_decide_false by (intros ->; apply Hn; left).
  by rewrite IH by (intros Hx; apply Hn; by right).
Qed.

Lemma split_app a b : slash ∉ a -> split_slash (a ++ slash :: b) = a :: split_slash b.
Proof.
  induction a as [|x a IH]; intros Hn; cbn; [by rewrite bool_decide_true|].
  rewrite bool_decide_false by (intros ->; apply Hn; left). by rewrite IH by (intros Hx; apply Hn; by right).
Qed.

Lemma split_parts s : Forall (fun p => slash ∉ p) (split_slash s).
Proof.
  induction s as [|x s IH]; cbn; [constructor; [apply not_elem_of_nil|constructor]|]. case_bool_decide as Hx.
  - constructor; [apply not_elem_of_nil|exact IH].
  - destruct (split_slash s) as [|p ps]; [|inversion IH; subst; constructor; [|done]].
    + constructor; [|constructor]. intros He%list_elem_of_singleton. by apply Hx.
    + intros [He|Hin]%elem_of_cons; [by apply Hx|done].
Qed.

(** An ordinary path element: [Clean] keeps it. *)
Definition plain_part (p : bytes) : Prop := p <> [] /\ p <> dot /\ p <> dotdot /\ slash ∉ p.

Lemma Join_plain a b : plain_part a -> plain_part b -> Join a b = a ++ slash :: b.
Proof.
  intros (Ha0 & Ha1 & Ha2 & Ha3) (Hb0 & Hb1 & Hb2 & Hb3). unfold Join. destruct a as [|x a]; [done|].
  destruct b as [|y b]; [done|]. set (a' := x :: a) in *. set (b' := y :: b) in *. unfold Clean. rewrite split_app, split_no_slash by done.
  assert (Hr : (match a' ++ slash :: b' with z :: _ => bool_decide (z = slash) | [] => false end) = false).
  { subst a'. cbn. apply bool_decide_false. intros ->. apply Ha3. left. }
  rewrite Hr. cbn [clean_parts]. rewrite !bool_decide_false by done. cbn. by subst a'.
Qed.

(** ** Isolation *)

Lemma Parse_ok raw r : Parse raw = Ok r -> plain_part (OrgID r) /\ plain_part (Name r) /\ has_prefix (OrgID r) (bs ".") = false /\ OrgID r <> bs "lfs".
Proof.
  unfold Parse. pose proof (split_parts (trim_byte slash raw)) as Hs. destruct (split_slash _) as [|org [|repo [|]]]; try done.
  apply Forall_cons in Hs as [Ho Hs]. apply Forall_cons in Hs as [Hr _].
  destruct (_ || _) eqn:E0; [done|]. apply orb_false_iff in E0 as [E01 E02]. destruct (bool_decide (trim_suffix _ _ = [])) eqn:E1; [done|].
  destruct (_ || _) eqn:E2; [done|]. apply orb_false_iff in E2 as [E21 E22]. destruct (bool_decide (_ ∈ _)) eqn:E3; [done|]. intros [= <-]. b2p.
  assert (Hdot : forall p, p <> [] -> has_prefix p (bs ".") = false -> slash ∉ p -> plain_part p).
  { intros p Hne Hp Hsl. split; [done|]. split; [intros ->; discriminate Hp|]. split; [intros ->; discriminate Hp|done]. }
  cbn. split; [by apply Hdot|]. split; [|split; [exact E21|intros ->; apply E3; by left]].
  apply Hdot; [done|done|]. intros Hin. apply Hr. unfold trim_suffix in Hin. destruct (has_suffix repo _); [|done].
  by apply (subseteq_take _ _ slash) in Hin.
Qed.

Lemma Path_plain r : plain_part (OrgID r) -> plain_part (Name r) -> Path r = OrgID r ++ slash :: Name r.
Proof. apply Join_plain. Qed.

(** What splits at its first slash splits in one way. *)
Lemma split_unique a a' b b' : slash ∉ a -> slash ∉ a' -> a ++ slash :: b = a' ++ slash :: b' -> a = a' /\ b = b'.
Proof.
  intros Ha Ha' He. apply (f_equal (cut_byte slash)) in He. rewrite !cut_byte_app in He by done. by injection He.
Qed.

Lemma trim_plain r : plain_part (OrgID r) -> plain_part (Name r) -> trim_byte slash (Path r) = Path r.
Proof.
  intros Ho Hn. rewrite Path_plain by done. destruct Ho as (Ho & _ & _ & Hso), Hn as (Hn & _ & _ & Hsn).
  destruct (OrgID r) as [|x o] eqn:Eo; [done|]. destruct (Name r) as [|y n _] eqn:En using rev_ind; [done|].
  unfold trim_byte. cbn [trim_left_byte app]. rewrite bool_decide_false by (intros ->; apply Hso; left).
  change (x :: o ++ slash :: n ++ [y]) with ((x :: o) ++ slash :: (n ++ [y])).
  assert (He : (x :: o) ++ slash :: (n ++ [y]) = ((x :: o) ++ slash :: n) ++ [y]) by (by rewrite <-app_assoc).
  rewrite He. generalize ((x :: o) ++ slash :: n). intros l. rewrite rev_app_distr. cbn [rev app]. cbn [trim_left_byte].
  rewrite bool_decide_false by (intros ->; apply Hsn; apply elem_of_app; right; left).
  change (rev (y :: rev l)) with (rev (rev l) ++ [y]). by rewrite rev_involutive.
Qed.

Lemma Resolve_prefix base r : plain_part (OrgID r) -> plain_part (Name r) ->
  c_prefix (Resolve base r) =
  match c_prefix base with [] => [] | p => trim_suffix p [slash] ++ [slash] end ++ OrgID r ++ slash :: Name r ++ [slash].
Proof.
  intros Ho Hn. unfold Resolve, Scoped. cbn [c_prefix]. rewrite trim_plain by done. rewrite Path_plain by done.
  destruct Ho as (Ho & _). destruct (OrgID r) as [|x o]; [done|]. cbn [app].
  destruct (c_prefix base) as [|y p]; cbn; [by rewrite <-app_assoc|]. by rewrite <-!app_assoc.
Qed.

(** Two names under one prefix. *)
Lemma prefixes_meet pre (r1 r2 : RepoRef) k : plain_part (OrgID r1) -> plain_part (Name r1) -> plain_part (OrgID r2) -> plain_part (Name r2) ->
  has_prefix k (pre ++ OrgID r1 ++ slash :: Name r1 ++ [slash]) = true ->
  has_prefix k (pre ++ OrgID r2 ++ slash :: Name r2 ++ [slash]) = true -> r1 = r2.
Proof.
  intros (_ & _ & _ & H1) (_ & _ & _ & H2) (_ & _ & _ & H3) (_ & _ & _ & H4) [t1 ->]%has_prefix_spec [t2 He]%has_prefix_spec.
  rewrite <-!app_assoc in He. apply app_inv_head in He. cbn [app] in He. rewrite <-!app_assoc in He. cbn [app] in He.
  apply split_unique in He as [Ho He]; [|done|done]. apply split_unique in He as [Hn _]; [|done|done].
  destruct r1, r2. cbn in *. by subst.
Qed.

(** ** Properties *)

(** C21: repositories are isolated, and so is the daemon's own data. Whatever two
    paths a transport was given, a key that both repositories' storers may touch
    exists only if the two paths name one repository; and in a bucket the daemon
    has to itself, no repository's key is under the shared LFS prefix nor under
    a name that starts with a dot, where the host key is. *)
Theorem repositories_isolated (base : config) (raw1 raw2 : bytes) (r1 r2 : RepoRef) (k : bytes) :
  Parse raw1 = Ok r1 -> Parse raw2 = Ok r2 -> has_prefix k (c_prefix (Resolve base r1)) = true ->
  (has_prefix k (c_prefix (Resolve base r2)) = true -> r1 = r2) /\
  (c_prefix base = [] -> has_prefix k (bs "lfs/") = false /\ has_prefix k (bs ".") = false).
Proof.
  intros (Ho1 & Hn1 & Hd1 & Hl1)%Parse_ok (Ho2 & Hn2 & _)%Parse_ok. rewrite !Resolve_prefix by done. intros Hk. split.
  - intros Hk'. by eapply prefixes_meet.
  - intros Hb. rewrite Hb in Hk. apply has_prefix_spec in Hk as [t ->]. cbn [app]. rewrite <-app_assoc. cbn [app]. split.
    + apply not_true_iff_false. intros [u Hu]%has_prefix_spec. apply Hl1. change (bs "lfs/" ++ u) with (bs "lfs" ++ slash :: u) in Hu.
      apply split_unique in Hu as [Hu _]; [done|apply Ho1|]. apply (bool_decide_unpack _). vm_compute. exact I.
    + destruct Ho1 as (Hne & _). destruct (OrgID r1) as [|x o]; [done|]. exact Hd1.
Qed.

Lemma repositories_isolated_witness :
  Parse (bs "/acme/app.git") = Ok {| OrgID := bs "acme"; Name := bs "app" |} /\
  (has_prefix (bs "acme/app/packs/x.bin") (bs "acme/apple/") = true -> {| OrgID := bs "acme"; Name := bs "app" |} = {| OrgID := bs "acme"; Name := bs "apple" |}) /\
  has_prefix (bs "acme/app/packs/x.bin") (bs "lfs/") = false.
Proof.
  split; [reflexivity|].
  destruct (repositories_isolated {| c_prefix := []; c_packedRefs := true; c_hashLen := 20; c_pages := 9 |} (bs "/acme/app.git") (bs "acme/apple")
    {| OrgID := bs "acme"; Name := bs "app" |} {| OrgID := bs "acme"; Name := bs "apple" |} (bs "acme/app/packs/x.bin") eq_refl eq_refl eq_refl)
    as [H1 H2].
  split; [exact H1|]. exact (proj1 (H2 eq_refl)).
Defined.
