(* ===== verification/Daemon.v ===== *)
(** * Opening a repository (cmd/objgitd: git_protocol.go, http.go, ssh.go, lfs.go)

    From a request to the storer it may use: the path, the authorizer, the
    existing repository or a new one, and a [HEAD] that names a branch. *)

From S2P Require Import Prelude GoLib S3 Concrete Codec PackedRefs Cue PackTable PackIndex Storer Refs RepoFs.

(** ** Default branch *)

Definition headName : bytes := bs "HEAD".
Definition branchPrefix : bytes := bs "refs/heads/".
Definition IsBranch (n : bytes) : bool := has_prefix n branchPrefix.

(** The names with a rank, best first. *)
Definition ranked : list bytes := [branchPrefix ++ bs "main"; branchPrefix ++ bs "master"; branchPrefix ++ bs "trunk"].
Definition rank (n : bytes) : option nat := fst <$> list_find (fun m => m = n) ranked.

Section daemon.
Context `{GoGit, Zstd, S3}.

Record choice := { ch_first : bytes; ch_best : bytes; ch_rank : nat }.

(** The visit of one reference. *)
Definition visit (st : choice) (r : reference) : choice :=
  if negb (is_hash_ref r) || negb (IsBranch (ref_name r)) then st else
  let name := ref_name r in
  let first := if bool_decide (ch_first st = []) || negb (bytes_leb (ch_first st) name) then name else ch_first st in
  match rank name with
  | Some rk => if (rk <? ch_rank st)%nat then {| ch_first := first; ch_best := name; ch_rank := rk |}
               else {| ch_first := first; ch_best := ch_best st; ch_rank := ch_rank st |}
  | None => {| ch_first := first; ch_best := ch_best st; ch_rank := ch_rank st |}
  end.

Definition chosen (refs : list reference) : bytes :=
  let st := fold_left visit refs {| ch_first := []; ch_best := []; ch_rank := length ranked |} in
  match ch_best st with [] => ch_first st | best => best end.

Section repository.
Context (c : config).

Definition pickDefaultBranch : io St bytes :=
  let! refs := IterReferences c in ret (chosen refs).

Definition ensureHEAD : io St unit :=
  let! head := Reference c headName in
  match head with
  | HashReference _ _ => ret tt
  | SymbolicReference _ target =>
      try! r := Reference c target in
      match r with
      | Ok _ => ret tt
      | Err e =>
          if negb (errors_is e ErrReferenceNotFound) then fail e else
          let! target := pickDefaultBranch in
          match target with
          | [] => ret tt
          | _ => SetReference c (Some (SymbolicReference headName target))
          end
      end
  end.

Definition storerFor : io St unit :=
  try! r := Reference c headName in
  match r with
  | Ok _ => ret tt
  | Err e => if errors_is e ErrReferenceNotFound then fail (Sent ErrRepositoryNotFound) else fail e
  end.
End repository.

(** [d.resolver], whose answer for the bucket is [Resolve]. *)
Context (resolver : RepoRef -> option (bytes * bytes) -> bool -> gores config).
(** go-git's [Init] with the default branch main. *)
Context (git_Init : config -> io St unit).

Definition load (ref : RepoRef) (cred : option (bytes * bytes)) : io St config :=
  let! c := lift (resolver ref cred false) in
  do! storerFor c in
  try! _ := ensureHEAD c in
  ret c.

Definition loadOrInit (ref : RepoRef) (cred : option (bytes * bytes)) : io St config :=
  let! c := lift (resolver ref cred true) in
  try! r := storerFor c in
  match r with
  | Ok _ => try! _ := ensureHEAD c in ret c
  | Err e =>
      if negb (errors_is e ErrRepositoryNotFound) then fail e else
      do! wrapping (git_Init c) in ret c
  end.

(** ** Requests *)

Inductive service := UploadPack | UploadArchive | ReceivePackService.

Definition operationFor (s : service) : Operation := match s with ReceivePackService => Write | _ => Read end.

(** A refusal: an HTTP status, or the exit status of an SSH session. *)
Inductive refusal := Status (code : Z) (challenge : bool) | Exit (code : Z).

Context (authorize : Request -> Decision).

(** The credentials of an HTTP request: its Basic authentication, if any. *)
Definition credFromRequest (basic : option (bytes * bytes)) : Credential :=
  match basic with Some (u, p) => BasicAuth u p | None => Anonymous end.

Definition writeResolveError (e : goerr) : refusal :=
  if errors_is e ErrUnauthenticated then Status 401 true
  else if errors_is e ErrRepositoryNotFound then Status 404 false
  else Status 500 false.

(** [resolve] of http.go *)
Definition resolve_http (s : service) (ref : RepoRef) (basic : option (bytes * bytes)) : io St (refusal + config) :=
  let q := {| q_repo := Path ref; q_operation := operationFor s; q_cred := credFromRequest basic; q_transport := bs "http" |} in
  match authorize q with
  | Allow =>
      try! r := (match s with ReceivePackService => loadOrInit ref basic | _ => load ref basic end) in
      ret (match r with Ok c => inr c | Err e => inl (writeResolveError e) end)
  | Unauthenticated => ret (inl (Status 401 true))
  | Deny => ret (inl (Status 403 false))
  end.

(** [repoRef]: the path of an HTTP request, from its two wildcards. *)
Definition repoRef (org repo : bytes) : refusal + RepoRef :=
  match Parse (Join org repo) with Ok r => inr r | Err _ => inl (Status 400 false) end.

(** [handleInfoRefs] and [handleRPC], up to the storer the service runs on. *)
Definition open_http (s : service) (org repo : bytes) (basic : option (bytes * bytes)) : io St (refusal + config) :=
  match s with
  | UploadArchive => ret (inl (Status 400 false))
  | _ => match repoRef org repo with
         | inl no => ret (inl no)
         | inr ref => resolve_http s ref basic
         end
  end.

(** [lfsBegin]: the reference an LFS request is about. *)
Definition lfsBegin (accepts : bool) (op : Operation) (org repo : bytes) (basic : option (bytes * bytes)) : refusal + RepoRef :=
  if negb accepts then inl (Status 406 false) else
  match Parse (org ++ slash :: repo) with
  | Err _ => inl (Status 404 false)
  | Ok ref =>
      match authorize {| q_repo := Path ref; q_operation := op; q_cred := credFromRequest basic; q_transport := bs "http" |} with
      | Allow => inr ref
      | Unauthenticated => inl (Status 401 true)
      | Deny => inl (Status 403 false)
      end
  end.

(** [gitServiceFor] *)
Definition gitServiceFor (command : bytes) : option service :=
  if bool_decide (command = bs "git-upload-pack") then Some UploadPack
  else if bool_decide (command = bs "git-upload-archive") then Some UploadArchive
  else if bool_decide (command = bs "git-receive-pack") then Some ReceivePackService
  else None.

(** What an SSH session may go on with. *)
Inductive ssh_session :=
  | GitService (s : service) (c : config)
  | HookShell (revision : bytes) (c : config)
  | Elsewhere (command : bytes).     (** a command whose handler opens no storer *)

Definition credFromKey (key : option bytes) : Credential := match key with Some k => PublicKey k | None => Anonymous end.

(** [handleShell] up to the storer: the repository as it is, for whoever may write to it. *)
Definition handleShell (allowHooks isPty : bool) (args : list bytes) (key : option bytes) : io St (refusal + ssh_session) :=
  if negb allowHooks then ret (inl (Exit 1)) else
  match args with
  | [] | _ :: _ :: _ :: _ => ret (inl (Exit 1))
  | path :: more =>
      if negb isPty then ret (inl (Exit 1)) else
      match Parse path with
      | Err _ => ret (inl (Exit 1))
      | Ok ref =>
          let revision := match more with [] => [] | r :: _ => r end in
          match authorize {| q_repo := Path ref; q_operation := operationFor ReceivePackService; q_cred := credFromKey key;
                             q_transport := bs "ssh" |} with
          | Allow =>
              try! r := load ref None in
              ret (match r with Ok c => inr (HookShell revision c) | Err _ => inl (Exit 1) end)
          | _ => ret (inl (Exit 1))
          end
      end
  end.

(** The git branch of [handleSSH], with [serveSSH] up to the storer. *)
Definition serve_git (command path : bytes) (key : option bytes) : io St (refusal + ssh_session) :=
  match gitServiceFor command with
  | None => ret (inl (Exit 1))
  | Some s =>
      match Parse path with
      | Err _ => ret (inl (Exit 1))
      | Ok ref =>
          match authorize {| q_repo := Path ref; q_operation := operationFor s; q_cred := credFromKey key; q_transport := bs "ssh" |} with
          | Allow =>
              try! r := (match s with ReceivePackService => loadOrInit ref None | _ => load ref None end) in
              ret (match r with Ok c => inr (GitService s c) | Err _ => inl (Exit 1) end)
          | _ => ret (inl (Exit 1))
          end
      end
  end.

(** [handleSSH]: the dispatch on the command's words. *)
Definition open_ssh (allowHooks isPty : bool) (cmd : list bytes) (key : option bytes) : io St (refusal + ssh_session) :=
  match cmd with
  | [] => ret (inl (Exit 1))
  | command :: args =>
      if bool_decide (command = bs "sh") then handleShell allowHooks isPty args key else
      if bool_decide (command = bs "objgit-webhook-set") then ret (inr (Elsewhere command)) else
      match args with
      | [] => ret (inl (Exit 1))
      | path :: more =>
          if bool_decide (command = bs "objgit-webhook-settings") then
            match more with [] => ret (inr (Elsewhere command)) | _ => ret (inl (Exit 1)) end
          else if bool_decide (command = bs "git-lfs-authenticate") then ret (inr (Elsewhere command))
          else serve_git command path key
      end
  end.
End daemon.
