(* ===== verification/DaemonSpec.v ===== *)
(** * What opening a repository promises

    No storer without the authorizer's word; the branch [HEAD] is pointed at;
    and that pointing it there loses nothing. *)

From S2P Require Import Prelude GoLib S3 Concrete Codec PackedRefs Cue PackTable PackIndex Storer StorerSpec Refs RefsSpec RepoFs Daemon.

(** ** The choice of a branch *)

Section choice.
Context `{GoGit}.

Definition branch (r : reference) : bool := is_hash_ref r && IsBranch (ref_name r).
Definition branches (refs : list reference) : list bytes := ref_name <$> filter (fun r => branch r = true) refs.

(** The least name: of a nonempty list, one that is in it and before all others. *)
Definition least (l : list bytes) (n : bytes) : Prop := n ∈ l /\ Forall (fun m => bytes_le n m) l.

(** What the visits so far have found. *)
Record found (l : list bytes) (st : choice) : Prop := {
  fd_first : match l with [] => ch_first st = [] | _ => least l (ch_first st) end;
  fd_rank : (ch_rank st <= length ranked)%nat;
  fd_best : if (ch_rank st <? length ranked)%nat then ranked !! ch_rank st = Some (ch_best st) /\ ch_best st ∈ l else ch_best st = [];
  fd_least : forall i n, ranked !! i = Some n -> n ∈ l -> (ch_rank st <= i)%nat;
}.

Lemma branch_nonempty r : branch r = true -> ref_name r <> [].
Proof. intros [_ Hb]%andb_true_iff He. rewrite He in Hb. discriminate Hb. Qed.

Lemma least_snoc l f n : (match l with [] => f = [] | _ => least l f end) -> n <> [] -> Forall (fun m => m <> []) l ->
  least (l ++ [n]) (if bool_decide (f = []) || negb (bytes_leb f n) then n else f).
Proof.
  intros Hf Hn Hne. destruct l as [|m l].
  { subst f. rewrite bool_decide_true by done. cbn [orb]. split; [by apply list_elem_of_singleton|]. apply Forall_singleton. reflexivity. }
  destruct Hf as [Hin Hall]. rewrite Forall_forall in Hne. rewrite bool_decide_false by (by apply Hne). cbn [orb].
  destruct (bytes_leb f n) eqn:El; cbn [negb]; unfold least; rewrite elem_of_app, Forall_app, Forall_singleton.
  - split; [by left|]. split; [done|]. by apply bytes_leb_true.
  - split; [right; by apply list_elem_of_singleton|]. split; [|reflexivity].
    assert (Hnf : bytes_le n f).
    { destruct (bytes_leb_total f n) as [Ht|Ht]; [by rewrite Ht in El|by apply bytes_leb_true]. }
    eapply Forall_impl; [exact Hall|]. intros x Hx. by transitivity f.
Qed.

Lemma rank_spec n : match rank n with
  | Some i => ranked !! i = Some n /\ (i < length ranked)%nat
  | None => forall i, ranked !! i <> Some n
  end.
Proof.
  unfold rank. destruct (list_find _ ranked) as [[i m]|] eqn:Ef; cbn.
  - apply list_find_Some in Ef as (Hi & -> & _). split; [done|]. by apply lookup_lt_Some in Hi.
  - apply list_find_None in Ef. intros i Hi. rewrite Forall_forall in Ef. by destruct (Ef n); [by eapply list_elem_of_lookup_2|].
Qed.

Lemma ranked_inj i j n : ranked !! i = Some n -> ranked !! j = Some n -> i = j.
Proof.
  apply (NoDup_lookup ranked i j n). apply (bool_decide_unpack _). vm_compute. exact I.
Qed.

Lemma best_snoc l st n :
  (if (ch_rank st <? length ranked)%nat then ranked !! ch_rank st = Some (ch_best st) /\ ch_best st ∈ l else ch_best st = []) ->
  (if (ch_rank st <? length ranked)%nat then ranked !! ch_rank st = Some (ch_best st) /\ ch_best st ∈ l ++ [n] else ch_best st = []).
Proof. destruct (_ <? _)%nat; [|done]. intros [? ?]. split; [done|]. apply elem_of_app. by left. Qed.

Lemma visit_found l st r : Forall (fun m => m <> []) l -> found l st -> found (if branch r then l ++ [ref_name r] else l) (visit st r).
Proof.
  intros Hne Hfd. unfold visit. destruct (branch r) eqn:Eb.
  2:{ unfold branch in Eb. destruct (is_hash_ref r), (IsBranch (ref_name r)); cbn in *; done. }
  pose proof (branch_nonempty r Eb) as Hn. unfold branch in Eb. apply andb_true_iff in Eb as [-> ->]. cbn [negb orb].
  destruct Hfd as [H1 H2 H3 H4]. pose proof (least_snoc l (ch_first st) (ref_name r) H1 Hn Hne) as Hl.
  assert (Hfirst : match l ++ [ref_name r] with [] => (if bool_decide (ch_first st = []) || negb (bytes_leb (ch_first st) (ref_name r)) then ref_name r else ch_first st) = []
    | _ => least (l ++ [ref_name r]) (if bool_decide (ch_first st = []) || negb (bytes_leb (ch_first st) (ref_name r)) then ref_name r else ch_first st) end)
    by (by destruct l).
  pose proof (rank_spec (ref_name r)) as Hr. destruct (rank (ref_name r)) as [i|].
  - destruct Hr as [Hi Hlt]. destruct (i <? ch_rank st)%nat eqn:Ei; b2p; split; cbn [ch_first ch_best ch_rank]; try done; try lia.
    + apply Nat.ltb_lt in Hlt. rewrite Hlt. split; [done|]. apply elem_of_app. right. by apply list_elem_of_singleton.
    + intros j n Hj [Hin|Hin%list_elem_of_singleton]%elem_of_app; [pose proof (H4 _ _ Hj Hin); lia|]. subst n. by rewrite (ranked_inj _ _ _ Hj Hi).
    + by apply best_snoc.
    + intros j n Hj [Hin|Hin%list_elem_of_singleton]%elem_of_app; [by eapply H4|]. subst n. by rewrite (ranked_inj _ _ _ Hj Hi).
  - split; cbn [ch_first ch_best ch_rank]; try done.
    + by apply best_snoc.
    + intros j n Hj [Hin|Hin%list_elem_of_singleton]%elem_of_app; [by eapply H4|]. subst n. by destruct (Hr j).
Qed.

Lemma visits_found refs l st : Forall (fun m => m <> []) l -> found l st -> found (l ++ branches refs) (fold_left visit refs st).
Proof.
  revert l st. induction refs as [|r refs IH]; intros l st Hne Hfd; cbn [fold_left]; [unfold branches; cbn; by rewrite app_nil_r|].
  apply (visit_found l st r Hne) in Hfd. unfold branches. rewrite filter_cons. destruct (branch r) eqn:Eb.
  - rewrite decide_True by done. cbn [fmap list_fmap]. change (ref_name <$> filter (fun r => branch r = true) refs) with (branches refs).
    replace (l ++ ref_name r :: branches refs) with ((l ++ [ref_name r]) ++ branches refs) by (by rewrite <-app_assoc).
    apply IH; [|exact Hfd]. apply Forall_app_2; [done|]. apply Forall_singleton. by apply branch_nonempty.
  - rewrite decide_False by done. by apply IH.
Qed.

Lemma chosen_found refs : found (branches refs) (fold_left visit refs {| ch_first := []; ch_best := []; ch_rank := length ranked |}).
Proof.
  apply (visits_found refs [] {| ch_first := []; ch_best := []; ch_rank := length ranked |}); [constructor|].
  split; cbn [ch_first ch_best ch_rank]; [done|done|by rewrite Nat.ltb_irrefl|]. intros i n _ Hin. by apply elem_of_nil in Hin.
Qed.

(** The branch that is chosen: the best ranked of those there are, or else the
    least, or none. *)
Definition default_branch (l : list bytes) (n : bytes) : Prop :=
  match l with
  | [] => n = []
  | _ => n ∈ l /\ ((exists i, ranked !! i = Some n /\ forall j m, ranked !! j = Some m -> m ∈ l -> (i <= j)%nat) \/
                   (Forall (fun m => m ∉ l) ranked /\ least l n))
  end.

Lemma chosen_default refs : default_branch (branches refs) (chosen refs).
Proof.
  unfold chosen. pose proof (chosen_found refs) as Hfd. generalize dependent (fold_left visit refs {| ch_first := []; ch_best := []; ch_rank := length ranked |}).
  intros st [H1 H2 H3 H4]. unfold default_branch. destruct (ch_rank st <? length ranked)%nat eqn:Er; b2p.
  - destruct H3 as [Hr Hin]. destruct (branches refs) as [|x l]; [by apply elem_of_nil in Hin|].
    assert (Hne : ch_best st <> []).
    { intros He. rewrite He in Hr. assert (Hno : [] ∉ ranked) by (apply (bool_decide_unpack _); vm_compute; exact I).
      apply Hno. by eapply list_elem_of_lookup_2. }
    destruct (ch_best st) as [|y b]; [done|]. split; [done|]. left. exists (ch_rank st). split; [done|]. intros j m Hj Hm. by eapply H4.
  - rewrite H3. destruct (branches refs) as [|x l]; [done|]. split; [apply H1|]. right. split; [|done].
    apply Forall_lookup. intros i m Hm Hin. pose proof (H4 _ _ Hm Hin). apply lookup_lt_Some in Hm. lia.
Qed.
End choice.

(** ** The storer of a request *)

Section access.
Context `{GoGit, Zstd, S3}.

Lemma try_ok {S A B} (m : io S A) (f : gores A -> B) s :
  (try! r := m in ret (f r)) s = (Ok (f (fst (m s))), snd (m s)).
Proof. unfold io_bind, attempt. by destruct (m s). Qed.

Lemma load_resolves resolver ref cred s c s' :
  load resolver ref cred s = (Ok c, s') -> resolver ref cred false = Ok c.
Proof.
  unfold load. intros (c' & s1 & [= -> <-] & Hr)%io_bind_ok.
  apply io_bind_ok in Hr as (u & s2 & _ & Hr). by apply io_bind_ok in Hr as (v & s3 & _ & [= -> _]).
Qed.

Lemma loadOrInit_resolves resolver init ref cred s c s' :
  loadOrInit resolver init ref cred s = (Ok c, s') -> resolver ref cred true = Ok c.
Proof.
  unfold loadOrInit. intros (c' & s1 & [= -> <-] & Hr)%io_bind_ok.
  apply io_bind_ok in Hr as (r & s2 & _ & Hr). destruct r as [u|e].
  - by apply io_bind_ok in Hr as (v & s3 & _ & [= -> _]).
  - destruct (negb _); [done|]. by apply io_bind_ok in Hr as (v & s3 & _ & [= -> _]).
Qed.

(** The request the authorizer saw, and the repository it spoke for. *)
Definition granted (resolver : RepoRef -> option (bytes * bytes) -> bool -> gores config) (authorize : Request -> Decision)
    (q : RepoRef -> Request) (parsed : gores RepoRef) (cred : option (bytes * bytes)) (create : bool) (c : config) : Prop :=
  exists ref, parsed = Ok ref /\ authorize (q ref) = Allow /\ resolver ref cred create = Ok c.

Definition creates (s : service) : bool := match s with ReceivePackService => true | _ => false end.

Lemma operationFor_creates s : operationFor s = if creates s then Write else Read.
Proof. by destruct s. Qed.

Definition http_request (s : service) (basic : option (bytes * bytes)) (ref : RepoRef) : Request :=
  {| q_repo := Path ref; q_operation := if creates s then Write else Read; q_cred := credFromRequest basic; q_transport := bs "http" |}.

Definition ssh_request (s : service) (key : option bytes) (ref : RepoRef) : Request :=
  {| q_repo := Path ref; q_operation := if creates s then Write else Read;
     q_cred := match key with Some k => PublicKey k | None => Anonymous end; q_transport := bs "ssh" |}.

(** The service whose permission a command needs: the hook shell that of a push. *)
Definition ssh_needs (command : bytes) : option service :=
  if bool_decide (command = bs "sh") then Some ReceivePackService else gitServiceFor command.

Definition no_storer (out : refusal + ssh_session) : Prop :=
  match out with inr (GitService _ _) | inr (HookShell _ _) => False | _ => True end.

Lemma opened_resolves resolver init (s : service) ref cred (st : St) :
  match fst ((match s with ReceivePackService => loadOrInit resolver init ref cred | _ => load resolver ref cred end) st) with
  | Ok c => resolver ref cred (creates s) = Ok c
  | Err _ => True
  end.
Proof.
  destruct s; [destruct (load resolver ref cred st) as [[c|e] s'] eqn:E|destruct (load resolver ref cred st) as [[c|e] s'] eqn:E|
    destruct (loadOrInit resolver init ref cred st) as [[c|e] s'] eqn:E]; cbn; try done;
    (by apply load_resolves in E) || by apply loadOrInit_resolves in E.
Qed.

Section ssh.
Context (resolver : RepoRef -> option (bytes * bytes) -> bool -> gores config) (init : config -> io St unit) (authorize : Request -> Decision).

(** What an SSH session for [path] may get. *)
Definition ssh_answer (command path : bytes) (key : option bytes) (out : refusal + ssh_session) : Prop :=
  match out with
  | inr (GitService s' c) => gitServiceFor command = Some s' /\ granted resolver authorize (ssh_request s' key) (Parse path) None (creates s') c
  | inr (HookShell _ c) => command = bs "sh" /\ granted resolver authorize (ssh_request ReceivePackService key) (Parse path) None false c
  | inr (Elsewhere _) => False
  | inl _ => True
  end.

Lemma serve_git_spec command path key (st : St) : exists out st', serve_git resolver init authorize command path key st = (Ok out, st') /\
  ssh_answer command path key out /\
  ((forall ref s', gitServiceFor command = Some s' -> Parse path = Ok ref -> authorize (ssh_request s' key ref) <> Allow) -> st' = st /\ no_storer out).
Proof.
  unfold serve_git. destruct (gitServiceFor command) as [s'|] eqn:Es; [|by do 2 eexists; repeat split; eauto].
  destruct (Parse path) as [ref|e] eqn:Ep; [|by do 2 eexists; repeat split; eauto].
  unfold ssh_request in *. rewrite operationFor_creates.
  destruct (authorize _) eqn:Ea; [by do 2 eexists; repeat split; eauto| |by do 2 eexists; repeat split; eauto].
  pose proof (opened_resolves resolver init s' ref None st) as Ho.
  rewrite (try_ok _ (fun r => match r with Ok c => inr (GitService s' c) | Err _ => inl (Exit 1) end)). do 2 eexists. split; [done|].
  split; [|intros Hno; by destruct (Hno ref s' eq_refl eq_refl)]. destruct (fst _) as [c|e]; [|done]. split; [done|by exists ref].
Qed.

Lemma handleShell_spec allowHooks isPty args key (st : St) : exists out st',
  handleShell resolver authorize allowHooks isPty args key st = (Ok out, st') /\
  match out with
  | inr (HookShell _ c) => allowHooks = true /\ isPty = true /\ exists path more, args = path :: more /\ ssh_answer (bs "sh") path key out
  | inr _ => False
  | inl _ => True
  end /\
  ((forall path more ref, args = path :: more -> Parse path = Ok ref -> authorize (ssh_request ReceivePackService key ref) <> Allow) ->
   st' = st /\ no_storer out).
Proof.
  assert (Hsame : forall P : Prop, exists out st', (ret (inl (Exit 1)) : io St (refusal + ssh_session)) st = (Ok out, st') /\
    match out with
    | inr (HookShell _ c) => allowHooks = true /\ isPty = true /\ exists path more, args = path :: more /\ ssh_answer (bs "sh") path key out
    | inr _ => False
    | inl _ => True
    end /\ (P -> st' = st /\ no_storer out)) by (intros P; by do 2 eexists; repeat split; eauto).
  unfold handleShell. destruct allowHooks; [|apply Hsame]. cbn [negb]. destruct args as [|path [|rev [|]]]; try apply Hsame.
  all: destruct isPty; cbn [negb]; [|apply Hsame]; destruct (Parse path) as [ref|e] eqn:Ep; [|apply Hsame].
  all: destruct (authorize _) eqn:Ea; [apply Hsame| |apply Hsame].
  all: rewrite (try_ok _ (fun r => match r with Ok c => inr (HookShell _ c) | Err _ => inl (Exit 1) end)); do 2 eexists; (split; [done|]).
  all: (split; [|intros Hn; by destruct (Hn _ _ ref eq_refl Ep)]).
  all: destruct (load resolver ref None st) as [[c|e] s'] eqn:El; cbn [fst]; [|done]; apply load_resolves in El.
  all: do 2 (split; [done|]); do 2 eexists; (split; [done|]); (split; [done|]); exists ref; done.
Qed.
End ssh.

(** C20: no request reaches a repository's storage past the authorizer. Over
    HTTP and over SSH alike, a storer is handed out only when the path parsed,
    the authorizer allowed that repository and that operation to that credential
    (a push asks for write, and so does the hook shell of the command sh, which
    also needs hooks to be allowed and a terminal), and the resolver gave this
    very storer, for the shell the repository as it is, never a new one; a
    refused request has touched no state at all, cache or bucket. *)
Theorem no_storer_without_allow (resolver : RepoRef -> option (bytes * bytes) -> bool -> gores config)
    (init : config -> io St unit) (authorize : Request -> Decision)
    (s : service) (org repo : bytes) (basic : option (bytes * bytes))
    (allowHooks isPty : bool) (cmd : list bytes) (key : option bytes) (st : St) :
  (exists out st', open_http resolver init authorize s org repo basic st = (Ok out, st') /\
    match out with
    | inr c => granted resolver authorize (http_request s basic) (Parse (Join org repo)) basic (creates s) c /\ s <> UploadArchive
    | inl _ => True
    end /\
    ((forall ref, Parse (Join org repo) = Ok ref -> authorize (http_request s basic ref) <> Allow) -> st' = st /\ exists no, out = inl no)) /\
  (exists out st', open_ssh resolver init authorize allowHooks isPty cmd key st = (Ok out, st') /\
    match out with
    | inr (GitService s' c) => exists command path more, cmd = command :: path :: more /\ command <> bs "sh" /\
        gitServiceFor command = Some s' /\ granted resolver authorize (ssh_request s' key) (Parse path) None (creates s') c
    | inr (HookShell _ c) => allowHooks = true /\ isPty = true /\ exists path more, cmd = bs "sh" :: path :: more /\
        granted resolver authorize (ssh_request ReceivePackService key) (Parse path) None false c
    | inr (Elsewhere _) => st' = st
    | inl _ => True
    end /\
    ((forall command path more ref s', cmd = command :: path :: more -> ssh_needs command = Some s' -> Parse path = Ok ref ->
        authorize (ssh_request s' key ref) <> Allow) ->
     st' = st /\ no_storer out)).
Proof.
  split.
  - unfold open_http, repoRef, resolve_http. destruct (Parse (Join org repo)) as [ref|e] eqn:Ep.
    2:{ by destruct s; do 2 eexists; repeat split; eauto. }
    pose proof (opened_resolves resolver init s ref basic st) as Ho. unfold http_request in *.
    destruct s; [|by do 2 eexists; repeat split; eauto|]; cbv beta iota in Ho; destruct (authorize _) eqn:Ea;
      try (by do 2 eexists; repeat split; eauto); rewrite try_ok; (do 2 eexists; split; [done|]);
      (split; [|intros Hno; by destruct (Hno ref eq_refl)]); (destruct (fst _) as [c|e]; [|done]); (split; [by exists ref|done]).
  - unfold open_ssh, ssh_needs. destruct cmd as [|command args]; [by do 2 eexists; repeat split; eauto|].
    destruct (bool_decide (command = bs "sh")) eqn:Esh; b2p.
    { subst command. destruct (handleShell_spec resolver authorize allowHooks isPty args key st) as (out & st' & -> & Ho & Hno).
      exists out, st'. split; [done|]. split.
      - destruct out as [no|[s' c|rev c|e]]; [done|done| |done]. destruct Ho as (Hh & Hp & path & more & -> & _ & Hg).
        do 2 (split; [done|]). by exists path, more.
      - intros Hn. apply Hno. intros path more ref -> Hp. by eapply Hn. }
    destruct (bool_decide (command = bs "objgit-webhook-set")); [by do 2 eexists; repeat split; eauto|].
    destruct args as [|path more]; [by do 2 eexists; repeat split; eauto|].
    destruct (bool_decide (command = bs "objgit-webhook-settings")); [by destruct more; do 2 eexists; repeat split; eauto|].
    destruct (bool_decide (command = bs "git-lfs-authenticate")); [by do 2 eexists; repeat split; eauto|].
    destruct (serve_git_spec resolver init authorize command path key st) as (out & st' & -> & Ho & Hno).
    exists out, st'. split; [done|]. split.
    + destruct out as [no|[s' c|rev c|e]]; [done| |by destruct Ho as [-> _]|done].
      destruct Ho as [Hs Hg]. by exists command, path, more.
    + intros Hn. apply Hno. intros ref s' Hs Hp. by eapply Hn; [done| |done]; rewrite bool_decide_false.
Qed.
End access.

(** ** The view a storer opens with *)

Section view.
Context `{GoGit, Zstd, S3}.
Context (c : config).

Abbreviation refmap := (gmap bytes reference).

(** Every reference is filed under its own name. *)
Definition keyed (m : refmap) : Prop := map_Forall (fun k r => ref_name r = k) m.

Lemma decodeRefValue_name n v r : decodeRefValue n v = Ok r -> ref_name r = n.
Proof. unfold decodeRefValue. destruct (cut_prefix _ _); [by intros [= <-]|]. destruct (FromHex _); by intros [= <-]. Qed.

Lemma refs_by_name_keyed l : keyed (refs_by_name l).
Proof.
  unfold refs_by_name. assert (Hm : keyed (∅ : refmap)) by apply map_Forall_empty.
  generalize dependent (∅ : refmap). induction l as [|r l IH]; intros m Hm; cbn; [done|]. apply IH. by apply map_Forall_insert_2.
Qed.

Lemma decodePackedRefs_keyed b m : decodePackedRefs b = Ok m -> keyed m.
Proof.
  unfold decodePackedRefs. destruct (_ <? _)%nat; [done|]. destruct (negb _); [done|]. destruct (negb (_ =? _)); [done|].
  intros (body & _ & Hr)%res_bind_ok. apply res_bind_ok in Hr as (out & Hp & Hr). destruct (negb _); [done|]. injection Hr as <-.
  eapply parse_lines_keys; [exact Hp|apply map_Forall_empty].
Qed.

Lemma build_keyed s s' : r_built (refs s) = false -> ensureRefsBuilt c s = (Ok tt, s') -> keyed (merged (refs s')).
Proof.
  intros Hb Hr. unfold ensureRefsBuilt in Hr. apply io_bind_ok in Hr as (b & s0 & [= <- <-] & Hr). unfold compose in Hr. rewrite Hb in Hr.
  apply io_bind_ok in Hr as (r0 & s1 & _ & Hr). apply io_bind_ok in Hr as ([body etag] & s2 & _ & Hr).
  apply io_bind_ok in Hr as (packed & s3 & Hp & Hr). apply io_bind_ok in Hr as (l & s4 & _ & [= <-]).
  unfold merged. cbn. apply map_Forall_union_2; [apply refs_by_name_keyed|].
  destruct (_ <? _)%nat; [|injection Hp as <- _; apply map_Forall_empty]. injection Hp as Hp _. by eapply decodePackedRefs_keyed.
Qed.

Lemma refView_built s : r_built (refs s) = true -> refView c s = (Ok (merged (refs s)), s).
Proof. intros Hb. unfold refView, ensureRefsBuilt, io_bind, gets, compose. by rewrite Hb. Qed.

Lemma refView_ok s m s' : refView c s = (Ok m, s') -> ensureRefsBuilt c s = (Ok tt, s') /\ m = merged (refs s').
Proof. unfold refView. intros ([] & s1 & He & [= <- <-])%io_bind_ok. done. Qed.

Definition refs_of (m : refmap) : list reference := omap (fun n => m !! n) (sorted_names m).

Lemma branches_of m n : keyed m -> n ∈ branches (refs_of m) <-> exists h, m !! n = Some (HashReference n h) /\ IsBranch n = true.
Proof.
  intros Hk. unfold branches, refs_of. rewrite list_elem_of_fmap. split.
  - intros (r & -> & [Hb (k & _ & Hn)%list_elem_of_omap]%list_elem_of_filter). pose proof (Hk _ _ Hn) as Hr. cbn in Hr. subst k.
    unfold branch in Hb. apply andb_true_iff in Hb as [Hh Hb]. destruct r as [n h|n t]; [|done]. by exists h.
  - intros (h & Hn & Hb). exists (HashReference n h). split; [done|]. apply list_elem_of_filter. split; [done|].
    apply list_elem_of_omap. exists n. split; [|done]. by apply (proj2 (proj2 (proj2 (sorted_names_spec m)))).
Qed.

(** [HEAD] names a reference that is not there, and there is a branch it could name. *)
Definition dangling (m : refmap) : Prop :=
  exists n t, m !! headName = Some (SymbolicReference n t) /\ m !! t = None /\ branches (refs_of m) <> [].

Lemma ensureRefsBuilt_built s s' : ensureRefsBuilt c s = (Ok tt, s') -> r_built (refs s') = true.
Proof.
  unfold ensureRefsBuilt. intros (b & s0 & [= <- <-] & Hr)%io_bind_ok. unfold compose in Hr.
  destruct (r_built (refs s)) eqn:Eb; [by injection Hr as <-|].
  apply io_bind_ok in Hr as (r0 & s1 & _ & Hr). apply io_bind_ok in Hr as ([body etag] & s2 & _ & Hr).
  apply io_bind_ok in Hr as (packed & s3 & _ & Hr). by apply io_bind_ok in Hr as (l & s4 & _ & [= <-]).
Qed.

Lemma Reference_built s n : r_built (refs s) = true ->
  Reference c n s = (match merged (refs s) !! n with Some r => Ok r | None => Err (Sent ErrReferenceNotFound) end, s).
Proof. intros Hb. unfold Reference, io_bind. rewrite (refView_built s Hb). by destruct (_ !! n). Qed.

Lemma pickDefaultBranch_built s : r_built (refs s) = true -> pickDefaultBranch c s = (Ok (chosen (refs_of (merged (refs s)))), s).
Proof. intros Hb. unfold pickDefaultBranch, IterReferences, io_bind. by rewrite (refView_built s Hb). Qed.

(** What [ensureHEAD] does, by the view it reads. *)
Lemma ensureHEAD_view s m s1 : refView c s = (Ok m, s1) ->
  ensureHEAD c s =
  match m !! headName with
  | None => (Err (Sent ErrReferenceNotFound), s1)
  | Some (HashReference _ _) => (Ok tt, s1)
  | Some (SymbolicReference _ t) =>
      match m !! t, chosen (refs_of m) with
      | Some _, _ | None, [] => (Ok tt, s1)
      | None, n => SetReference c (Some (SymbolicReference headName n)) s1
      end
  end.
Proof.
  intros Hv. pose proof (refView_ok _ _ _ Hv) as [Hb ->]. apply ensureRefsBuilt_built in Hb.
  unfold ensureHEAD, Reference at 1, io_bind at 1 2. rewrite Hv. destruct (merged (refs s1) !! headName) as [[n h|n t]|]; [done| |done].
  cbn [ret]. unfold io_bind at 1, attempt. rewrite (Reference_built s1 t Hb). destruct (merged (refs s1) !! t); [done|].
  change (negb (errors_is (Sent ErrReferenceNotFound) ErrReferenceNotFound)) with false. cbv iota.
  unfold io_bind. rewrite (pickDefaultBranch_built s1 Hb). by destruct (chosen _).
Qed.

Lemma ensureHEAD_err s e s1 : refView c s = (Err e, s1) -> ensureHEAD c s = (Err e, s1).
Proof. intros Hv. unfold ensureHEAD, Reference at 1, io_bind at 1 2. by rewrite Hv. Qed.
End view.

(** ** Properties *)

Section properties.
Context `{GoGit, Zstd, S3}.

Lemma chosen_branch (m : gmap bytes reference) : keyed m -> branches (refs_of m) <> [] ->
  exists h, m !! chosen (refs_of m) = Some (HashReference (chosen (refs_of m)) h) /\ IsBranch (chosen (refs_of m)) = true.
Proof.
  intros Hk Hne. apply branches_of; [done|]. pose proof (chosen_default (refs_of m)) as Hd. unfold default_branch in Hd.
  destruct (branches (refs_of m)); [done|]. apply Hd.
Qed.

(** Opening a repository heals its HEAD and loses nothing. From the view a
    fresh storer reads, a HEAD that is detached, or whose target exists, or that
    no branch could replace, is left alone and nothing is written. A dangling
    HEAD is pointed at an existing branch: the best ranked of main, master and
    trunk that exists, or else the least name; by one conditional write that
    keeps every other reference as it was at that instant, concurrent pushes
    included, and the storer then reads the new HEAD. *)
Theorem opening_heals_head (view : World -> bucket) (env : bucket -> bucket -> Prop) (c : config) (s s' : St) :
  S3Laws view env -> c_packedRefs c = true -> r_built (refs s) = false ->
  ensureHEAD c s = (Ok tt, s') ->
  exists m s1, refView c s = (Ok m, s1) /\ (~ dangling m -> s' = s1) /\
    (dangling m ->
     exists target h b packed loose next,
       default_branch (branches (refs_of m)) target /\ m !! target = Some (HashReference target h) /\ IsBranch target = true /\
       env (view (world (snd (flush c s1)))) b /\ holds c b packed /\
       (forall n, next !! n = if decide (n = headName) then Some (SymbolicReference headName target) else (loose ∪ packed) !! n) /\
       cleans env c (<[packedKey c := {| o_body := encodePackedRefs next; o_meta := ∅ |}]> b) (view (world s')) /\
       Reference c headName s' = (Ok (SymbolicReference headName target), s')).
Proof.
  intros Hl Hpk Hb Hr. destruct (refView c s) as [[m|e] s1] eqn:Ev.
  2:{ by rewrite (ensureHEAD_err c s e s1 Ev) in Hr. }
  rewrite (ensureHEAD_view c s m s1 Ev) in Hr. apply refView_ok in Ev as [Hen Hm]. exists m, s1. split; [done|].
  pose proof (build_keyed c s s1 Hb Hen) as Hk. rewrite <-Hm in Hk.
  assert (Hok : refs_ok (refs s1)).
  { eapply (ensureRefsBuilt_spec view env); [|exact Hen]. intros Hbt. by rewrite Hb in Hbt. }
  split.
  - intros Hnd. destruct (m !! headName) as [[n h|n t]|] eqn:Eh; [by injection Hr as <-| |done].
    destruct (m !! t) as [x|] eqn:Et; [by injection Hr as <-|]. destruct (chosen (refs_of m)) as [|z ch] eqn:Ec; [by injection Hr as <-|].
    exfalso. apply Hnd. exists n, t. split; [done|]. split; [done|]. intros He.
    pose proof (chosen_default (refs_of m)) as Hd. rewrite He in Hd. by rewrite Ec in Hd.
  - intros (n & t & Eh & Et & Hne). rewrite Eh, Et in Hr. destruct (chosen_branch m Hk Hne) as (h & Hh & Hbr).
    pose proof (chosen_default (refs_of m)) as Hd. set (target := chosen (refs_of m)) in *.
    assert (Hset : SetReference c (Some (SymbolicReference headName target)) s1 = (Ok tt, s')) by (destruct target; [discriminate Hbr|exact Hr]).
    cbn [SetReference] in Hset. rewrite Hpk in Hset.
    apply (commit_outcome view env c) in Hset; [|done|by left].
    destruct Hset as [[[(_ & b & p & l & [Hb1 Hh1 Hx1 Ha1] & Hrefs)|[(e & [=] & _)|(e & [=] & _)]] _]|(e & _ & [=] & _)].
    specialize (Hrefs eq_refl). exists target, h, b, p, l, (apply_batch [SymbolicReference headName target] [] (l ∪ p)).
    assert (Hn : forall k, apply_batch [SymbolicReference headName target] [] (l ∪ p) !! k =
      if decide (k = headName) then Some (SymbolicReference headName target) else (l ∪ p) !! k).
    { intros k. rewrite apply_batch_lookup, decide_False by apply not_elem_of_nil. rewrite filter_cons, filter_nil. cbn [ref_name].
      destruct (decide (headName = k)) as [<-|Hne']; [by rewrite decide_True|by rewrite decide_False]. }
    repeat split; try done. rewrite Reference_built by by rewrite Hrefs. unfold merged. rewrite Hrefs. cbn [r_loose r_packed].
    rewrite (left_id_L ∅ (∪)), Hn. by rewrite decide_True.
Qed.
End properties.

(** ** Witnesses *)

#[local] Existing Instance Mem.mem_s3.

(** A repository whose HEAD names main, but which has only master and zeta. *)
Definition toy_named (n : bytes) : @reference toy_git := HashReference n sample_hash.
Definition unborn : gmap bytes (@reference toy_git) :=
  {[headName := SymbolicReference headName (bs "refs/heads/main"); bs "refs/heads/master" := toy_named (bs "refs/heads/master");
    bs "refs/heads/zeta" := toy_named (bs "refs/heads/zeta"); bs "refs/tags/a" := toy_named (bs "refs/tags/a")]}.
Definition unborn_bucket : bucket := {[bs "acme/app/packed-refs" := {| o_body := encodePackedRefs unborn; o_meta := ∅ |}]}.
Definition unborn_start : @St toy_git Mem.mem_s3 := mem_start unborn_bucket [].
Definition heal_run : gores unit * @St toy_git Mem.mem_s3 := ensureHEAD unit_config unborn_start.

Lemma heal_ok : heal_run = (Ok tt, snd heal_run).
Proof. apply pair_fst. vm_compute. reflexivity. Qed.

Definition toy_dangling (m : gmap bytes (@reference toy_git)) : bool :=
  match m !! headName with
  | Some (SymbolicReference _ t) => bool_decide (m !! t = None) && negb (bool_decide (branches (refs_of m) = []))
  | _ => false
  end.

Lemma unborn_dangling : match fst (refView unit_config unborn_start) with Ok m => toy_dangling m | Err _ => false end = true.
Proof. vm_compute. reflexivity. Qed.

Lemma opening_heals_head_witness :
  exists target, IsBranch target = true /\ Reference unit_config headName (snd heal_run) = (Ok (SymbolicReference headName target), snd heal_run).
Proof.
  destruct (@opening_heals_head toy_git toy_zstd Mem.mem_s3 Mem.mem Mem.any_env unit_config unborn_start (snd heal_run)
    Mem.mem_s3_laws eq_refl eq_refl heal_ok) as (m & s1 & Hv & _ & Hd).
  pose proof unborn_dangling as Hu. rewrite Hv in Hu. unfold toy_dangling in Hu. cbn [fst] in Hu.
  destruct (m !! headName) as [[n h|n t]|] eqn:Eh; [discriminate| |discriminate].
  apply andb_true_iff in Hu as [Hu1 Hu2]. apply negb_true_iff in Hu2. b2p.
  destruct (Hd (ex_intro _ n (ex_intro _ t (conj Eh (conj Hu1 Hu2))))) as (target & h & b & p & l & nx & _ & _ & Hbr & _ & _ & _ & _ & Hr).
  exists target. split; [exact Hbr|exact Hr].
Defined.

(** The branch is master. *)
Example heals_to_master :
  match fst (Reference unit_config headName (snd heal_run)) with
  | Ok r => bool_decide (r = SymbolicReference headName (bs "refs/heads/master"))
  | Err _ => false
  end = true.
Proof. vm_compute. reflexivity. Qed.
