(* ===== verification/Bundler.v ===== *)
(** * The bundler (internal/bundler/bundler.go)

    Items are collected into bundles, bundles queue up, and at most
    [HandlerLimit] goroutines hand them to a function. The state of the struct
    is [Bundler]; [Sys] adds the goroutines that run its methods, and [step] is
    what they can do between two releases of the mutex. *)

From S2P Require Import Prelude GoLib.

(** ** The weighted semaphore (golang.org/x/sync/semaphore)

    [Acquired n s s'] is an [Acquire] of weight [n] that returns nil,
    [Cancelled n s s'] one whose context ended. *)

Class Weighted := {
  sem : Type;
  NewWeighted : Z -> sem;
  TryAcquire : Z -> sem -> bool * sem;
  Acquired : Z -> sem -> sem -> Prop;
  Cancelled : Z -> sem -> sem -> Prop;
  Release : Z -> sem -> gores sem;
}.

(** What its documentation says, of the weight that is out and the capacity. *)
Class WeightedLaws `(Weighted) (held : sem -> Z) (capacity : sem -> Z) := {
  new_held n : held (NewWeighted n) = 0 /\ capacity (NewWeighted n) = n;
  try_acquired n s s' : TryAcquire n s = (true, s') -> held s' = held s + n /\ held s' <= capacity s' /\ capacity s' = capacity s;
  try_refused n s s' : TryAcquire n s = (false, s') -> s' = s;
  acquired_held n s s' : Acquired n s s' -> held s' = held s + n /\ held s' <= capacity s' /\ capacity s' = capacity s;
  cancelled_held n s s' : Cancelled n s s' -> held s' = held s /\ capacity s' = capacity s;
  release_held n s : 0 <= n <= held s -> exists s', Release n s = Ok s' /\ held s' = held s - n /\ capacity s' = capacity s;
}.

(** ** The struct and its methods *)

Inductive mode := none | add_mode | addWait_mode.
#[export] Instance mode_eq_dec : EqDecision mode.
Proof. solve_decision. Defined.

(** The exported limits, all of them [int]. *)
Record limits := {
  BundleCountThreshold : Z;
  BundleByteThreshold : Z;
  BundleByteLimit : Z;
  BufferedByteLimit : Z;
  HandlerLimit : Z;
}.

(** The limits [New] sets. *)
Definition default_limits : limits :=
  {| BundleCountThreshold := 10; BundleByteThreshold := 1000000; BundleByteLimit := 0;
     BufferedByteLimit := 1000000000; HandlerLimit := 1 |}.

Section bundler.
Context {T : Type} `{Weighted}.

(** [b_ptr] is the bundle's address; [b_flush] the wait group of its flush,
    by its number: the [n]-th flush closes the [n]-th wait group. *)
Record bundle := { b_ptr : nat; b_items : list T; b_size : Z; b_flush : nat }.

(** The semaphore is created with the limit, which may not change after the
    first call that makes it. The wait groups are their counters. [queue] is
    the linked list from [head] to [tail]. *)
Record Bundler := {
  handlerCount : Z;
  bsem : sem;
  curBundle : option bundle;
  queue : list bundle;
  curFlush : nat;
  wgs : nat -> Z;
  bmode : mode;
  fresh : nat;
}.

Context (L : limits).

Definition New : Bundler :=
  {| handlerCount := 0; bsem := NewWeighted (BufferedByteLimit L); curBundle := None; queue := []; curFlush := 0;
     wgs := fun _ => 0; bmode := none; fresh := 0 |}.

(** [bundle.add] *)
Definition bundle_add (bu : bundle) (item : T) (size : Z) : bundle :=
  {| b_ptr := b_ptr bu; b_items := b_items bu ++ [item]; b_size := i64 (b_size bu + size); b_flush := b_flush bu |}.

(** With the bundles whose handler goroutine it starts. *)
Definition enqueueCurBundle (b : Bundler) : list bundle * Bundler :=
  match curBundle b with
  | None => ([], b)
  | Some bu =>
      if handlerCount b <? HandlerLimit L then
        ([bu], {| handlerCount := handlerCount b + 1; bsem := bsem b; curBundle := None; queue := queue b;
                  curFlush := curFlush b; wgs := wgs b; bmode := bmode b; fresh := fresh b |})
      else
        ([], {| handlerCount := handlerCount b; bsem := bsem b; curBundle := None; queue := queue b ++ [bu];
                curFlush := curFlush b; wgs := wgs b; bmode := bmode b; fresh := fresh b |})
  end.

Definition setMode (m : mode) (b : Bundler) : gores unit * Bundler :=
  if bool_decide (bmode b = m) || bool_decide (bmode b = none) then
    (Ok tt, {| handlerCount := handlerCount b; bsem := bsem b; curBundle := curBundle b; queue := queue b;
               curFlush := curFlush b; wgs := wgs b; bmode := m; fresh := fresh b |})
  else (Err (Sent errMixedMethods), b).

Definition canFit (bu : bundle) (size : Z) : bool :=
  ((BundleByteLimit L <=? 0) || (i64 (b_size bu + size) <=? BundleByteLimit L)) &&
  ((BundleCountThreshold L <=? 0) || (Z.of_nat (length (b_items bu)) <? BundleCountThreshold L)).

Definition with_bsem (s : sem) (b : Bundler) : Bundler :=
  {| handlerCount := handlerCount b; bsem := s; curBundle := curBundle b; queue := queue b;
     curFlush := curFlush b; wgs := wgs b; bmode := bmode b; fresh := fresh b |}.

(** [f] with one more or one less at [i]. *)
Definition bump (f : nat -> Z) (i : nat) (d : Z) : nat -> Z := fun j => if (j =? i)%nat then f j + d else f j.

(** A [curBundle] there is, a new one if need be. *)
Definition withCurBundle (b : Bundler) : Bundler :=
  match curBundle b with
  | Some _ => b
  | None =>
      {| handlerCount := handlerCount b; bsem := bsem b;
         curBundle := Some {| b_ptr := fresh b; b_items := []; b_size := 0; b_flush := curFlush b |};
         queue := queue b; curFlush := curFlush b; wgs := bump (wgs b) (curFlush b) 1; bmode := bmode b; fresh := S (fresh b) |}
  end.

Definition addToCur (item : T) (size : Z) (b : Bundler) : Bundler :=
  {| handlerCount := handlerCount b; bsem := bsem b; curBundle := (fun bu => bundle_add bu item size) <$> curBundle b;
     queue := queue b; curFlush := curFlush b; wgs := wgs b; bmode := bmode b; fresh := fresh b |}.

Definition cur_full (b : Bundler) : bool :=
  match curBundle b with
  | None => false
  | Some bu => (b_size bu >=? BundleByteThreshold L) || (Z.of_nat (length (b_items bu)) =? BundleCountThreshold L)
  end.

(** [add], up to the timer, which only makes [tryHandleBundles] run later. *)
Definition add (item : T) (size : Z) (b : Bundler) : list bundle * Bundler :=
  let into_cur :=
    let '(g1, b) := match curBundle b with
                    | Some bu => if negb (canFit bu size) then enqueueCurBundle b else ([], b)
                    | None => ([], b)
                    end in
    let b := addToCur item size (withCurBundle b) in
    let '(g2, b) := if cur_full b then enqueueCurBundle b else ([], b) in
    (g1 ++ g2, b) in
  match last (queue b), curBundle b with
  | Some tail, None =>
      if canFit tail size then
        ([], {| handlerCount := handlerCount b; bsem := bsem b; curBundle := None;
                queue := alter (fun bu => bundle_add bu item size) (length (queue b) - 1)%nat (queue b);
                curFlush := curFlush b; wgs := wgs b; bmode := bmode b; fresh := fresh b |})
      else into_cur
  | _, _ => into_cur
  end.

(** [tryHandleBundles], which the timer runs. *)
Definition tryHandleBundles : Bundler -> list bundle * Bundler := enqueueCurBundle.

Definition next (b : Bundler) : option bundle * Bundler :=
  match queue b with
  | [] => (None, b)
  | bu :: q => (Some bu, {| handlerCount := handlerCount b; bsem := bsem b; curBundle := curBundle b; queue := q;
                            curFlush := curFlush b; wgs := wgs b; bmode := bmode b; fresh := fresh b |})
  end.

(** [WaitGroup.Done]: below zero it panics. *)
Definition wg_done (i : nat) (b : Bundler) : gores Bundler :=
  if wgs b i - 1 <? 0 then Err Panic else
  Ok {| handlerCount := handlerCount b; bsem := bsem b; curBundle := curBundle b; queue := queue b;
        curFlush := curFlush b; wgs := bump (wgs b) i (-1); bmode := bmode b; fresh := fresh b |}.

Definition postHandle (bu : bundle) (b : Bundler) : gores (option bundle * Bundler) :=
  let? s := Release (b_size bu) (bsem b) in
  let? b := wg_done (b_flush bu) (with_bsem s b) in
  match next b with
  | (None, b) => Ok (None, {| handlerCount := handlerCount b - 1; bsem := bsem b; curBundle := curBundle b; queue := queue b;
                              curFlush := curFlush b; wgs := wgs b; bmode := bmode b; fresh := fresh b |})
  | nb => Ok nb
  end.

Definition oversized (size : Z) : bool := (BundleByteLimit L >? 0) && (size >? BundleByteLimit L).

(** [Add] up to the lock: whether the item may be added. *)
Definition Add (size : Z) (b : Bundler) : gores unit * Bundler :=
  match setMode add_mode b with
  | (Err e, b) => (Err e, b)
  | (Ok _, b) =>
      if oversized size then (Err (Sent ErrOversizedItem), b) else
      let '(ok, s) := TryAcquire size (bsem b) in
      (if ok : bool then Ok tt else Err (Sent ErrOverflow), with_bsem s b)
  end.

(** [AddWait] up to the semaphore. *)
Definition AddWait (size : Z) (b : Bundler) : gores unit * Bundler :=
  match setMode addWait_mode b with
  | (Err e, b) => (Err e, b)
  | (Ok _, b) => if oversized size then (Err (Sent ErrOversizedItem), b) else (Ok tt, b)
  end.

(** [Flush] up to its waits: the number of the flush is that of its wait group
    and of its channel; [prev] is the channel before. *)
Definition Flush (b : Bundler) : list bundle * Bundler :=
  let '(g, b) := enqueueCurBundle b in
  (g, {| handlerCount := handlerCount b; bsem := bsem b; curBundle := curBundle b; queue := queue b;
         curFlush := S (curFlush b); wgs := wgs b; bmode := bmode b; fresh := fresh b |}).

(** ** The goroutines *)

(** [waiting]: calls of [AddWait] at the semaphore. [entered]: calls that hold
    their weight and wait for the mutex. [running]: the bundles handlers are at
    work on. [flushing]: flushes that have not returned. [closed]: the channels
    that are closed. [accepted] and [started] are histories: the items added, and
    the bundles handed to a handler, in order. *)
Record Sys := {
  bun : Bundler;
  waiting : list (T * Z);
  entered : list (T * Z);
  running : list bundle;
  flushing : list nat;
  closed : list nat;
  accepted : list T;
  started : list bundle;
}.

Definition init : Sys :=
  {| bun := New; waiting := []; entered := []; running := []; flushing := []; closed := []; accepted := []; started := [] |}.

(** The state after a critical section that started the handlers [gb.1]. *)
Definition spawn (gb : list bundle * Bundler) (s : Sys) : Sys :=
  {| bun := snd gb; waiting := waiting s; entered := entered s; running := running s ++ fst gb; flushing := flushing s;
     closed := closed s; accepted := accepted s; started := started s ++ fst gb |}.

Definition with_bun (b : Bundler) (s : Sys) : Sys := spawn ([], b) s.

(** A handler at work on [bu], the [i]-th, returns: [handle] goes on with what
    [postHandle] gives it. *)
Definition handled (i : nat) (bu : bundle) (s : Sys) : gores Sys :=
  let? nb := postHandle bu (bun s) in
  let more := match fst nb with Some bu' => [bu'] | None => [] end in
  Ok {| bun := snd nb; waiting := waiting s; entered := entered s; running := delete i (running s) ++ more; flushing := flushing s;
        closed := closed s; accepted := accepted s; started := started s ++ more |}.

(** Both waits of the [k]-th flush are over. *)
Definition flush_ready (k : nat) (s : Sys) : bool :=
  (match k with O => true | S p => bool_decide (p ∈ closed s) end) && (wgs (bun s) k =? 0).

Definition in_waiting (w : list (T * Z)) (s : Sys) : Sys :=
  {| bun := bun s; waiting := w; entered := entered s; running := running s; flushing := flushing s; closed := closed s;
     accepted := accepted s; started := started s |}.
Definition in_entered (e : list (T * Z)) (s : Sys) : Sys :=
  {| bun := bun s; waiting := waiting s; entered := e; running := running s; flushing := flushing s; closed := closed s;
     accepted := accepted s; started := started s |}.
Definition add_entered (i : nat) (item : T) (size : Z) (s : Sys) : Sys :=
  let s1 := spawn (add item size (bun s)) (in_entered (delete i (entered s)) s) in
  {| bun := bun s1; waiting := waiting s1; entered := entered s1; running := running s1; flushing := flushing s1;
     closed := closed s1; accepted := accepted s1 ++ [item]; started := started s1 |}.
Definition begin_flush (s : Sys) : Sys :=
  let s1 := spawn (Flush (bun s)) s in
  {| bun := bun s1; waiting := waiting s1; entered := entered s1; running := running s1;
     flushing := flushing s1 ++ [curFlush (bun s)]; closed := closed s1; accepted := accepted s1; started := started s1 |}.
Definition end_flush (k : nat) (s : Sys) : Sys :=
  {| bun := bun s; waiting := waiting s; entered := entered s; running := running s;
     flushing := filter (fun j => j <> k) (flushing s); closed := k :: closed s; accepted := accepted s; started := started s |}.

(** One critical section of one goroutine. Weights are sizes, never negative.
    The timer may fire at any time: a stopped one may be at the mutex already. *)
Inductive step (s : Sys) : Sys -> Prop :=
  | step_refused size e b : 0 <= size -> Add size (bun s) = (Err e, b) -> step s (with_bun b s)
  | step_Add item size b : 0 <= size -> Add size (bun s) = (Ok tt, b) ->
      step s (in_entered (entered s ++ [(item, size)]) (with_bun b s))
  | step_wait_refused size e b : 0 <= size -> AddWait size (bun s) = (Err e, b) -> step s (with_bun b s)
  | step_AddWait item size b : 0 <= size -> AddWait size (bun s) = (Ok tt, b) ->
      step s (in_waiting (waiting s ++ [(item, size)]) (with_bun b s))
  | step_acquired i item size s' : waiting s !! i = Some (item, size) -> Acquired size (bsem (bun s)) s' ->
      step s (in_entered (entered s ++ [(item, size)]) (in_waiting (delete i (waiting s)) (with_bun (with_bsem s' (bun s)) s)))
  | step_cancelled i item size s' : waiting s !! i = Some (item, size) -> Cancelled size (bsem (bun s)) s' ->
      step s (in_waiting (delete i (waiting s)) (with_bun (with_bsem s' (bun s)) s))
  | step_added i item size : entered s !! i = Some (item, size) -> step s (add_entered i item size s)
  | step_timer : step s (spawn (tryHandleBundles (bun s)) s)
  | step_handled i bu s' : running s !! i = Some bu -> handled i bu s = Ok s' -> step s s'
  | step_Flush : step s (begin_flush s)
  | step_flushed k : k ∈ flushing s -> flush_ready k s = true -> step s (end_flush k s).

Definition reachable (s : Sys) : Prop := rtc step init s.
End bundler.
Arguments bundle : clear implicits.
Arguments Bundler T {_}.
Arguments Sys T {_}.
