(* ===== verification/BundlerSpec.v ===== *)
(** * What the bundler promises

    The line of bundles not yet started behaves as a FIFO whose last element
    takes new items; everything else follows from the accounting. *)

From S2P Require Import Prelude GoLib Bundler.

Section spec.
Context {T : Type} `{Weighted} (held capacity : sem -> Z) `{!WeightedLaws _ held capacity}.
Context (L : limits).

Abbreviation bundle := (bundle T).
Abbreviation Bundler := (Bundler T).
Abbreviation Sys := (Sys T).

(** The limits are [int]s, and the buffer's is not negative. *)
Definition limits_ok : Prop := 0 <= BufferedByteLimit L < 2 ^ 63.

(** ** The line *)

(** Bundles not yet started, the next one first. *)
Definition line (b : Bundler) : list bundle := queue b ++ option_list (curBundle b).

Definition new_bundle (b : Bundler) (item : T) (size : Z) : bundle :=
  {| b_ptr := fresh b; b_items := [item]; b_size := i64 size; b_flush := curFlush b |}.

(** Whether a new item goes into the last bundle of the line. *)
Definition joins (l : list bundle) (size : Z) : bool :=
  match last l with Some bu => canFit L bu size | None => false end.

Definition line_add (b : Bundler) (item : T) (size : Z) : list bundle :=
  if joins (line b) size then alter (fun bu => bundle_add bu item size) (length (line b) - 1)%nat (line b)
  else line b ++ [new_bundle b item size].

(** The handler count is the number of handlers, and the queue is used only
    when there are as many as there may be. *)
Record counted (b : Bundler) (n : nat) : Prop := {
  ct_count : handlerCount b = Z.of_nat n;
  ct_limit : handlerCount b <= Z.max 0 (HandlerLimit L);
  ct_busy : queue b <> [] -> HandlerLimit L <= handlerCount b;
}.

(** A critical section that moves bundles along the line and no more. *)
Record moved (b b' : Bundler) : Prop := {
  mv_sem : bsem b' = bsem b;
  mv_flush : curFlush b' = curFlush b;
  mv_wgs : wgs b' = wgs b;
  mv_fresh : fresh b' = fresh b;
  mv_cur : forall bu, curBundle b' = Some bu -> curBundle b = Some bu;
}.

(** The current bundle is the current flush's. *)
Definition cur_flush (b : Bundler) : Prop := forall bu, curBundle b = Some bu -> b_flush bu = curFlush b.

Lemma moved_cur_flush b b' : moved b b' -> cur_flush b -> cur_flush b'.
Proof. intros [_ Hf _ _ Hc] Hcf bu Hbu. rewrite Hf. by apply Hcf, Hc. Qed.

Lemma moved_refl b : moved b b.
Proof. by split. Qed.

Lemma enqueue_spec b n g b' : counted b n -> enqueueCurBundle L b = (g, b') ->
  counted b' (n + length g) /\ g ++ line b' = line b /\ moved b b' /\ curBundle b' = None.
Proof.
  intros [Hc Hl Hb]. unfold enqueueCurBundle, line. destruct (curBundle b) as [bu|] eqn:Ec.
  2:{ intros [= <- <-]. rewrite Ec, Nat.add_0_r. split; [by split|]. split; [done|]. by split. }
  destruct (handlerCount b <? HandlerLimit L) eqn:El; b2p; intros [= <- <-]; cbn.
  - assert (Hq : queue b = []) by (destruct (queue b) eqn:Eq; [done|]; specialize (Hb ltac:(discriminate)); lia).
    rewrite Hq. cbn. split; [split; cbn; [lia|lia|done]|]. split; [done|]. by split.
  - rewrite Nat.add_0_r, app_nil_r. split; [by split|]. split; [done|]. by split.
Qed.

Lemma option_list_some {A} (x : A) : option_list (Some x) = [x].
Proof. done. Qed.

Lemma alter_snoc {A} (f : A -> A) l x : alter f (length (l ++ [x]) - 1)%nat (l ++ [x]) = l ++ [f x].
Proof.
  rewrite length_app. cbn. replace (length l + 1 - 1)%nat with (length l + 0)%nat by lia.
  rewrite alter_app_r. done.
Qed.

(** The second half of [add]: the item goes into the current bundle, which is
    made if need be, and moves on if it is full. *)
Lemma add_cur_spec b n item size g b' : counted b n ->
  (let b1 := addToCur item size (withCurBundle b) in if cur_full L b1 then enqueueCurBundle L b1 else ([], b1)) = (g, b') ->
  counted b' (n + length g) /\ bsem b' = bsem b /\ curFlush b' = curFlush b /\ (cur_flush b -> cur_flush b') /\
  match curBundle b with
  | Some bu => g ++ line b' = queue b ++ [bundle_add bu item size] /\ wgs b' = wgs b /\ fresh b' = fresh b
  | None => g ++ line b' = queue b ++ [new_bundle b item size] /\ wgs b' = bump (wgs b) (curFlush b) 1 /\ fresh b' = S (fresh b)
  end.
Proof.
  intros Hc Hr. set (b1 := addToCur item size (withCurBundle b)) in *. cbv zeta in Hr.
  assert (Hc1 : counted b1 n) by (destruct Hc; subst b1; unfold withCurBundle; destruct (curBundle b); by split).
  assert (Hout : counted b' (n + length g) /\ g ++ line b' = line b1 /\ moved b1 b').
  { destruct (cur_full L b1); [by apply (enqueue_spec b1 n g b' Hc1) in Hr as (? & ? & ? & _)|].
    injection Hr as <- <-. rewrite Nat.add_0_r. split; [done|]. split; [done|apply moved_refl]. }
  destruct Hout as (Hc' & Hl & Hmv). assert (Hcf : cur_flush b -> cur_flush b').
  { intros Hb. apply (moved_cur_flush b1); [exact Hmv|]. subst b1. unfold cur_flush, withCurBundle in *. destruct (curBundle b) as [bu|] eqn:Ec; cbn; rewrite ?Ec; cbn; intros bu' [= <-]; [by apply (Hb bu)|done]. }
  destruct Hmv as [Hs Hf Hw Hfr _]. split; [done|].
  subst b1. unfold withCurBundle in *. unfold line in Hl at 2. destruct (curBundle b) as [bu|] eqn:Ec; cbn in Hl, Hs, Hf, Hw, Hfr;
    rewrite ?Ec in Hl; cbn in Hl; by split_and!.
Qed.

Lemma bundler_add_spec b n item size g b' : counted b n -> add L item size b = (g, b') ->
  counted b' (n + length g) /\ g ++ line b' = line_add b item size /\ bsem b' = bsem b /\ curFlush b' = curFlush b /\ (cur_flush b -> cur_flush b') /\
  (if joins (line b) size then wgs b' = wgs b /\ fresh b' = fresh b
   else wgs b' = bump (wgs b) (curFlush b) 1 /\ fresh b' = S (fresh b)).
Proof.
  intros Hc Hr. unfold add in Hr.
  set (into := let '(g1, b2) := match curBundle b with
                    | Some bu => if negb (canFit L bu size) then enqueueCurBundle L b else ([], b)
                    | None => ([], b)
                    end in
    let b3 := addToCur item size (withCurBundle b2) in
    let '(g2, b4) := if cur_full L b3 then enqueueCurBundle L b3 else ([], b3) in (g1 ++ g2, b4)) in *.
  assert (Hinto : into = (g, b') -> (curBundle b = None -> joins (queue b) size = false) ->
    counted b' (n + length g) /\ g ++ line b' = line_add b item size /\ bsem b' = bsem b /\ curFlush b' = curFlush b /\ (cur_flush b -> cur_flush b') /\
    (if joins (line b) size then wgs b' = wgs b /\ fresh b' = fresh b
     else wgs b' = bump (wgs b) (curFlush b) 1 /\ fresh b' = S (fresh b))).
  { intros Hi Hno. unfold into in Hi. clear Hr into. destruct (match curBundle b with Some bu => _ | None => _ end) as [g1 b1] eqn:E1.
    cbv zeta in Hi. destruct (if cur_full L _ then _ else _) as [g2 b2] eqn:E2. injection Hi as <- <-.
    assert (Hg1 : counted b1 (n + length g1) /\ g1 ++ line b1 = line b /\ moved b b1 /\
      (curBundle b1 = if joins (line b) size then curBundle b else None)).
    { unfold joins, line. destruct (curBundle b) as [bu|] eqn:Ec; cbn in E1.
      - rewrite option_list_some, last_snoc. destruct (canFit L bu size); cbn in E1.
        + injection E1 as <- <-. rewrite Nat.add_0_r, Ec. split; [done|]. split; [done|]. split; [apply moved_refl|done].
        + apply (enqueue_spec b n g1 b1 Hc) in E1 as (? & Hl & ? & ?). unfold line in Hl. by rewrite Ec in Hl.
      - injection E1 as <- <-. rewrite Nat.add_0_r. cbn [option_list]. rewrite app_nil_r. unfold joins in Hno. rewrite (Hno eq_refl). split; [done|].
        rewrite Ec. cbn. rewrite app_nil_r. split; [done|]. split; [apply moved_refl|done]. }
    destruct Hg1 as (Hc1 & Hl1 & Hmv & Hcur1). pose proof (moved_cur_flush _ _ Hmv) as Hcf1. destruct Hmv as [Hs1 Hf1 Hw1 Hfr1 _].
    apply (add_cur_spec b1 (n + length g1)%nat item size g2 b2 Hc1) in E2 as (Hc2 & Hs2 & Hf2 & Hcf2 & Hrest).
    rewrite length_app, Nat.add_assoc. split; [done|]. rewrite <-app_assoc. unfold line_add. rewrite Hcur1 in Hrest.
    assert (Hcf : cur_flush b -> cur_flush b2) by auto. rewrite Hs2, Hf2, Hs1, Hf1. unfold line in Hl1 at 1. rewrite Hcur1 in Hl1.
    destruct (joins (line b) size) eqn:Ej.
    - destruct (curBundle b) as [bu|] eqn:Ec; [|unfold line in Ej; rewrite Ec in Ej; cbn in Ej; rewrite app_nil_r in Ej; by rewrite Hno in Ej].
      destruct Hrest as (Hl2 & Hw2 & Hfr2). rewrite Hl2, <-Hl1, option_list_some, (app_assoc g1 (queue b1) [bu]), alter_snoc, <-app_assoc. rewrite Hw2, Hfr2, Hw1, Hfr1. done.
    - destruct Hrest as (Hl2 & Hw2 & Hfr2). rewrite Hl2, Hw2, Hfr2, Hw1, Hfr1, Hf1. rewrite <-Hl1. cbn [option_list]. rewrite app_nil_r, app_assoc.
      unfold new_bundle. by rewrite Hfr1, Hf1. }
  destruct (last (queue b)) as [tail|] eqn:El; [|apply Hinto; [exact Hr|by unfold joins; rewrite El]].
  destruct (curBundle b) as [bu|] eqn:Ec; [apply Hinto; [exact Hr|done]|].
  destruct (canFit L tail size) eqn:Ef; [|apply Hinto; [exact Hr|by unfold joins; rewrite El]].
  clear Hinto into. injection Hr as <- <-. rewrite Nat.add_0_r. unfold line_add, joins, line. rewrite Ec. cbn. rewrite !app_nil_r, El, Ef.
  split; [|split_and!; try done; intros _ bu' Hbu'; cbn in Hbu'; congruence]. destruct Hc as [Hc1 Hc2 Hc3]. split; cbn; [done|done|]. intros _. apply Hc3. by destruct (queue b).
Qed.

(** ** Accounting *)

Definition total (l : list bundle) : Z := foldr (fun bu z => b_size bu + z) 0 l.
Definition weight (l : list (T * Z)) : Z := foldr (fun p z => snd p + z) 0 l.
Definition count (k : nat) (l : list bundle) : Z := foldr (fun bu z => (if (b_flush bu =? k)%nat then 1 else 0) + z) 0 l.

Lemma total_app l1 l2 : total (l1 ++ l2) = total l1 + total l2.
Proof. induction l1 as [|b l1 IH]; cbn; [done|]. fold (total (l1 ++ l2)) (total l1). lia. Qed.
Lemma weight_app l1 l2 : weight (l1 ++ l2) = weight l1 + weight l2.
Proof. induction l1 as [|b l1 IH]; cbn; [done|]. fold (weight (l1 ++ l2)) (weight l1). lia. Qed.
Lemma count_app k l1 l2 : count k (l1 ++ l2) = count k l1 + count k l2.
Proof. induction l1 as [|b l1 IH]; cbn; [done|]. fold (count k (l1 ++ l2)) (count k l1). lia. Qed.
Lemma weight_delete l i x z : l !! i = Some (x, z) -> weight l = z + weight (delete i l).
Proof. intros Hi. rewrite <-(take_drop_middle l i _ Hi) at 1. rewrite delete_take_drop, !weight_app. cbn. fold (weight (drop (S i) l)). lia. Qed.
Lemma total_delete l i bu : l !! i = Some bu -> total l = b_size bu + total (delete i l).
Proof. intros Hi. rewrite <-(take_drop_middle l i _ Hi) at 1. rewrite delete_take_drop, !total_app. cbn. fold (total (drop (S i) l)). lia. Qed.
Lemma count_delete k l i bu : l !! i = Some bu -> count k l = (if (b_flush bu =? k)%nat then 1 else 0) + count k (delete i l).
Proof. intros Hi. rewrite <-(take_drop_middle l i _ Hi) at 1. rewrite delete_take_drop, !count_app. cbn. fold (count k (drop (S i) l)). lia. Qed.
Lemma weight_nonneg l : Forall (fun p => 0 <= snd p) l -> 0 <= weight l.
Proof. induction 1; cbn; [lia|]. fold (weight l). lia. Qed.
Lemma total_nonneg l : Forall (fun bu => 0 <= b_size bu) l -> 0 <= total l.
Proof. induction 1; cbn; [lia|]. fold (total l). lia. Qed.
Lemma count_nonneg k l : 0 <= count k l.
Proof. induction l as [|b l IH]; cbn; [lia|]. fold (count k l). destruct (_ =? _)%nat; lia. Qed.
Lemma count_zero k l : count k l = 0 <-> Forall (fun bu => b_flush bu <> k) l.
Proof.
  induction l as [|b l IH]; cbn; [by split|]. fold (count k l). pose proof (count_nonneg k l). rewrite Forall_cons.
  destruct (b_flush b =? k)%nat eqn:E; b2p; [|rewrite <-IH]; intuition lia.
Qed.

#[local] Arguments total : simpl never.
#[local] Arguments weight : simpl never.
#[local] Arguments count : simpl never.

(** ** The invariant *)

(** The limits on one bundle, and on an item that passed [oversized]. *)
Definition fits (bu : bundle) : Prop :=
  0 <= b_size bu /\ (0 < BundleByteLimit L -> b_size bu <= BundleByteLimit L) /\
  (0 < BundleCountThreshold L -> Z.of_nat (length (b_items bu)) <= BundleCountThreshold L).
Definition admissible (p : T * Z) : Prop := 0 <= snd p /\ (0 < BundleByteLimit L -> snd p <= BundleByteLimit L).

(** Bundles not yet handled, and all bundles in the order they were made. *)
Definition live (s : Sys) : list bundle := running s ++ line (bun s).
Definition all (s : Sys) : list bundle := started s ++ line (bun s).

Record ok (s : Sys) : Prop := {
  ok_counted : counted (bun s) (length (running s));
  ok_held : held (bsem (bun s)) = weight (entered s) + total (live s);
  ok_capacity : capacity (bsem (bun s)) = BufferedByteLimit L;
  ok_bounded : held (bsem (bun s)) <= BufferedByteLimit L;
  ok_entered : Forall admissible (entered s);
  ok_waiting : Forall admissible (waiting s);
  ok_fits : Forall fits (live s);
  ok_wgs : forall k, wgs (bun s) k = count k (live s);
  ok_sorted : StronglySorted le (b_flush <$> all s);
  ok_top : Forall (fun bu => (b_flush bu <= curFlush (bun s))%nat) (all s);
  ok_fifo : concat (b_items <$> all s) = accepted s;
  ok_running : running s ⊆+ started s;
  ok_distinct : NoDup (b_ptr <$> all s);
  ok_fresh : Forall (fun bu => (b_ptr bu < fresh (bun s))%nat) (all s);
  ok_flushes : forall k, (k < curFlush (bun s))%nat <-> k ∈ flushing s \/ k ∈ closed s;
  ok_closed : forall k, k ∈ closed s -> Forall (fun bu => (k < b_flush bu)%nat) (live s);
  ok_cur : cur_flush (bun s);
}.

Lemma live_all s bu : ok s -> bu ∈ live s -> bu ∈ all s.
Proof.
  intros Hok. unfold live, all. rewrite !elem_of_app. intros [Hr|Hl]; [left|by right]. by eapply elem_of_submseteq; [exact Hr|apply ok_running].
Qed.

Lemma init_ok : limits_ok -> ok (init L).
Proof.
  intros [Hl0 Hl1]. destruct (new_held (BufferedByteLimit L)) as [Hh Hc].
  split; cbn; [|by rewrite Hh|done|lia|constructor|constructor|constructor|done|constructor|constructor|done|done|constructor|constructor| | |done].
  - split; cbn; [done|lia|done].
  - intros k. split; [lia|]. intros [Hk|Hk]; by apply elem_of_nil in Hk.
  - intros k Hk. by apply elem_of_nil in Hk.
Qed.

Lemma setMode_spec m b r b' : setMode m b = (r, b') -> moved b b' /\ line b' = line b /\ (forall n, counted b n -> counted b' n).
Proof.
  unfold setMode. destruct (_ || _); intros [= <- <-]; (split; [by split|]); (split; [done|]); [|done].
  intros n [Hc Hl Hb]. by split.
Qed.

Lemma oversized_false size : 0 <= size -> oversized L size = false -> forall x : T, admissible (x, size).
Proof.
  intros Hs Ho x. unfold oversized in Ho. apply andb_false_iff in Ho. split; [done|]. cbn. intros Hb. destruct Ho as [Ho|Ho]; rewrite Z.gtb_ltb in Ho; b2p; lia.
Qed.

Lemma Add_spec size b r b' : 0 <= size -> Add L size b = (r, b') ->
  line b' = line b /\ wgs b' = wgs b /\ curFlush b' = curFlush b /\ fresh b' = fresh b /\ (forall n, counted b n -> counted b' n) /\
  (cur_flush b -> cur_flush b') /\
  match r with
  | Ok _ => (forall x : T, admissible (x, size)) /\ held (bsem b') = held (bsem b) + size /\ held (bsem b') <= capacity (bsem b') /\
            capacity (bsem b') = capacity (bsem b)
  | Err _ => bsem b' = bsem b
  end.
Proof.
  intros Hs. unfold Add. destruct (setMode add_mode b) as [[u|e] b1] eqn:Em; apply setMode_spec in Em as (Hm & Hl & Hc);
    pose proof (moved_cur_flush _ _ Hm) as Hcf; destruct Hm as [H1 H2 H3 H4 _].
  2:{ intros [= <- <-]. by split_and!. }
  destruct (oversized L size) eqn:Eo; [intros [= <- <-]; by split_and!|].
  destruct (TryAcquire size (bsem b1)) as [ok s1] eqn:Et. intros [= <- <-]. cbn. split; [exact Hl|]. split; [done|]. split; [done|]. split; [done|].
  split; [intros n [? ? ?]%Hc; by split|]. split; [done|]. destruct ok.
  - apply try_acquired in Et as (? & ? & ?). rewrite <-H1. split; [|done]. by apply oversized_false.
  - apply try_refused in Et as ->. done.
Qed.

Lemma AddWait_spec size b r b' : 0 <= size -> AddWait L size b = (r, b') ->
  line b' = line b /\ moved b b' /\ (forall n, counted b n -> counted b' n) /\
  match r with Ok _ => forall x : T, admissible (x, size) | Err _ => True end.
Proof.
  intros Hs. unfold AddWait. destruct (setMode addWait_mode b) as [[u|e] b1] eqn:Em; apply setMode_spec in Em as (Hm & Hl & Hc).
  2:{ intros [= <- <-]. by split_and!. }
  destruct (oversized L size) eqn:Eo; intros [= <- <-]; (split; [done|]); (split; [done|]); (split; [done|]); [done|]. by apply oversized_false.
Qed.

(** ** Preservation *)

(** The line moved on, and nothing else. *)
Lemma spawn_ok s g b : ok s -> counted b (length (running s) + length g) -> g ++ line b = line (bun s) -> moved (bun s) b ->
  ok (spawn (g, b) s) /\ live (spawn (g, b) s) = live s /\ all (spawn (g, b) s) = all s.
Proof.
  intros [] Hc Hl Hmv. pose proof (moved_cur_flush _ _ Hmv ok_cur0) as Hcf. destruct Hmv as [Hs Hf Hw Hfr _].
  assert (Hlive : live (spawn (g, b) s) = live s) by (unfold live; cbn; by rewrite <-app_assoc, Hl).
  assert (Hall : all (spawn (g, b) s) = all s) by (unfold all; cbn; by rewrite <-app_assoc, Hl).
  split; [|done]. split; rewrite ?Hlive, ?Hall; cbn; rewrite ?Hs, ?Hf, ?Hw, ?Hfr; try done.
  - by rewrite length_app.
  - by apply submseteq_app.
Qed.

(** Weights came or went at the semaphore, and nothing else. *)
Lemma semaphore_ok s b e w : ok s -> counted b (length (running s)) -> line b = line (bun s) ->
  curFlush b = curFlush (bun s) -> wgs b = wgs (bun s) -> fresh b = fresh (bun s) ->
  held (bsem b) = weight e + total (live s) -> held (bsem b) <= capacity (bsem b) -> capacity (bsem b) = capacity (bsem (bun s)) ->
  Forall admissible e -> Forall admissible w -> cur_flush b -> ok (in_entered e (in_waiting w (with_bun b s))).
Proof.
  intros [] Hc Hl Hf Hw Hfr Hh Hle Hcap He Hwt Hcf.
  assert (Hlive : live (in_entered e (in_waiting w (with_bun b s))) = live s) by (unfold live; cbn; by rewrite app_nil_r, Hl).
  assert (Hall : all (in_entered e (in_waiting w (with_bun b s))) = all s) by (unfold all; cbn; by rewrite app_nil_r, Hl).
  split; rewrite ?Hlive, ?Hall; cbn; rewrite ?app_nil_r, ?Hf, ?Hw, ?Hfr; try done; congruence || lia.
Qed.

Lemma in_entered_id (s : Sys) : in_entered (entered s) s = s.
Proof. by destruct s. Qed.
Lemma in_waiting_id (s : Sys) : in_waiting (waiting s) s = s.
Proof. by destruct s. Qed.

Lemma handled_spec i bu s s' : ok s -> running s !! i = Some bu -> handled i bu s = Ok s' ->
  ok s' /\ live s' = delete i (live s) /\ all s' = all s /\ curFlush (bun s') = curFlush (bun s) /\
  flushing s' = flushing s /\ closed s' = closed s /\ accepted s' = accepted s.
Proof.
  intros [] Hi Hr. unfold handled, postHandle in Hr. apply res_bind_ok in Hr as (nb & Hp & [= <-]).
  apply res_bind_ok in Hp as (sm & Hrel & Hp). apply res_bind_ok in Hp as (b1 & Hd & Hp).
  assert (Hbu : bu ∈ running s) by (by eapply list_elem_of_lookup_2).
  assert (Hlive : live s !! i = Some bu) by (unfold live; by apply lookup_app_l_Some).
  assert (Hfit : fits bu) by (by eapply Forall_lookup_1 in ok_fits0).
  assert (Hrange : 0 <= b_size bu <= held (bsem (bun s))).
  { split; [apply Hfit|]. rewrite ok_held0, (total_delete _ _ _ Hlive).
    assert (0 <= total (delete i (live s))) by (apply total_nonneg, Forall_delete; eapply Forall_impl; [exact ok_fits0|]; intros ? Hx; apply Hx).
    assert (0 <= weight (entered s)) by (apply weight_nonneg; eapply Forall_impl; [exact ok_entered0|]; intros ? Hx; apply Hx). lia. }
  destruct (release_held _ _ Hrange) as (sm' & Hrel' & Hh & Hc). rewrite Hrel in Hrel'. injection Hrel' as <-.
  unfold wg_done in Hd. destruct (_ <? 0) eqn:Ewg; [done|]. injection Hd as <-.
  set (more := match fst nb with Some bu' => [bu'] | None => [] end).
  assert (Hnext : more ++ line (snd nb) = line (bun s) /\ cur_flush (snd nb) /\ bsem (snd nb) = sm /\ curFlush (snd nb) = curFlush (bun s) /\
    wgs (snd nb) = bump (wgs (bun s)) (b_flush bu) (-1) /\ fresh (snd nb) = fresh (bun s) /\
    counted (snd nb) (length (delete i (running s)) + length more)).
  { subst more. pose proof (length_delete (running s) i) as Hlen. rewrite Hi in Hlen. specialize (Hlen ltac:(done)).
    pose proof (lookup_lt_Some _ _ _ Hi). destruct ok_counted0 as [Hc1 Hc2 Hc3]. unfold next in Hp. cbn in Hp. unfold line.
    destruct (queue (bun s)) as [|q0 q] eqn:Eq; cbn in Hp; injection Hp as <-; cbn; split_and!; try done; (split; cbn; [lia|lia|]); [done|].
    intros _. specialize (Hc3 ltac:(discriminate)). lia. }
  destruct Hnext as (Hl & Hcf & Hs & Hf & Hw & Hfr & Hct).
  set (s' := {| bun := snd nb |}).
  assert (Hlive' : live s' = delete i (live s)).
  { unfold live, s'. cbn. rewrite <-app_assoc, Hl. rewrite !delete_take_drop, take_app_le, drop_app_le, <-app_assoc by (apply lookup_lt_Some in Hi; lia). done. }
  assert (Hall' : all s' = all s) by (unfold all, s'; cbn; by rewrite <-app_assoc, Hl).
  split; [|by split_and!]. split; rewrite ?Hlive', ?Hall'; subst s'; cbn; rewrite ?Hs, ?Hf, ?Hw, ?Hfr; try done.
  - by rewrite length_app.
  - rewrite Hh, ok_held0, (total_delete _ _ _ Hlive). lia.
  - congruence.
  - lia.
  - by apply Forall_delete.
  - intros k. unfold bump. pose proof (count_delete k _ _ _ Hlive) as Hk. rewrite ok_wgs0. rewrite Nat.eqb_sym in Hk. destruct (k =? b_flush bu)%nat; lia.
  - apply submseteq_app; [|done]. etransitivity; [|exact ok_running0]. apply sublist_submseteq, sublist_delete.
  - intros k Hk. by apply Forall_delete, ok_closed0.
Qed.

Lemma end_flush_ok s k : ok s -> k ∈ flushing s -> flush_ready k s = true -> ok (end_flush k s).
Proof.
  intros [] Hk Hr. unfold flush_ready in Hr. apply andb_true_iff in Hr as [Hp Hw]. b2p.
  assert (Hlive : live (end_flush k s) = live s) by done. assert (Hall : all (end_flush k s) = all s) by done.
  split; rewrite ?Hlive, ?Hall; cbn; try done.
  - intros j. rewrite ok_flushes0, list_elem_of_filter, elem_of_cons. destruct (decide (j = k)) as [->|Hne]; naive_solver.
  - intros j [->|Hj]%elem_of_cons; [|by apply ok_closed0]. rewrite ok_wgs0 in Hw. apply count_zero in Hw.
    destruct k as [|p]; [eapply Forall_impl; [exact Hw|]; cbn; intros; lia|]. apply bool_decide_eq_true in Hp. apply ok_closed0 in Hp.
    rewrite Forall_forall in *. intros bu Hbu. specialize (Hw bu Hbu). specialize (Hp bu Hbu). cbn in Hp. lia.
Qed.

Lemma begin_flush_ok s : ok s -> ok (begin_flush L s) /\ live (begin_flush L s) = live s /\ all (begin_flush L s) = all s.
Proof.
  intros Hok. unfold begin_flush, Flush. destruct (enqueueCurBundle L (bun s)) as [g b] eqn:E.
  apply (enqueue_spec _ (length (running s))) in E as (Hc & Hl & [Hs Hf Hw Hfr _] & Hno); [|apply Hok]. destruct Hok.
  set (s' := {| bun := _ |}). assert (Hlive : live s' = live s) by (unfold live, s'; cbn; by rewrite <-app_assoc, <-Hl).
  assert (Hall : all s' = all s) by (unfold all, s'; cbn; by rewrite <-app_assoc, <-Hl).
  split; [|done]. split; rewrite ?Hlive, ?Hall; subst s'; cbn; rewrite ?Hs, ?Hf, ?Hw, ?Hfr; try done.
  - rewrite length_app. destruct Hc as [Hc1 Hc2 Hc3]. by split.
  - eapply Forall_impl; [exact ok_top0|]. cbn. intros; lia.
  - by apply submseteq_app.
  - intros k. rewrite elem_of_app, list_elem_of_singleton. specialize (ok_flushes0 k). destruct (decide (k = curFlush (bun s))) as [->|Hne]; [split; [by left; right|lia]|].
    split; [intros Hk; assert (Hk' : (k < curFlush (bun s))%nat) by lia; apply ok_flushes0 in Hk' as [?|?]; auto|].
    intros [[Hk|Hk]|Hk]; [| |]; [assert ((k < curFlush (bun s))%nat) by (apply ok_flushes0; by left); lia|done|assert ((k < curFlush (bun s))%nat) by (apply ok_flushes0; by right); lia].
  - intros bu Hbu. cbn in Hbu. congruence.
Qed.

(** The item joined the last bundle [bu] of the line, or made a new one. *)
Lemma line_add_cases (b : Bundler) (item : T) size :
  (exists l bu, joins (line b) size = true /\ canFit L bu size = true /\ line b = l ++ [bu] /\ line_add b item size = l ++ [bundle_add bu item size]) \/
  (joins (line b) size = false /\ line_add b item size = line b ++ [new_bundle b item size]).
Proof.
  unfold line_add. destruct (joins (line b) size) eqn:Ej; [left|by right]. unfold joins in Ej.
  destruct (line b) as [|bu l _] eqn:El using rev_ind; [done|]. rewrite last_snoc in Ej. exists l, bu. by rewrite alter_snoc.
Qed.

Lemma bundle_add_fits bu item size : limits_ok -> fits bu -> 0 <= size -> b_size bu + size <= BufferedByteLimit L -> canFit L bu size = true ->
  fits (bundle_add bu item size) /\ b_size (bundle_add bu item size) = b_size bu + size.
Proof.
  intros [Hl0 Hl1] (Hf0 & Hf1 & Hf2) Hs Hle Hc. unfold canFit in Hc. apply andb_true_iff in Hc as [Hb Hn].
  rewrite i64_id in Hb by (unfold in_i64; lia). cbn. rewrite i64_id by (unfold in_i64; lia). split; [|done].
  unfold fits, bundle_add. cbn. rewrite i64_id by (unfold in_i64; lia). split; [lia|].
  apply orb_true_iff in Hb, Hn. split; intros Hp; [destruct Hb; b2p; lia|]. rewrite length_app. cbn. destruct Hn; b2p; lia.
Qed.

Lemma new_bundle_fits b (item : T) size : limits_ok -> admissible (item, size) -> size <= BufferedByteLimit L ->
  fits (new_bundle b item size) /\ b_size (new_bundle b item size) = size.
Proof.
  intros [Hl0 Hl1] [Hs Hb] Hle. cbn in *. rewrite i64_id by (unfold in_i64; lia). split; [|done].
  unfold fits, new_bundle. cbn. rewrite i64_id by (unfold in_i64; lia). split; [lia|]. split; [exact Hb|lia].
Qed.

(** What an added item changes: the accounts of the bundles, by [size] and one
    item, and nothing about the bundles before the last. *)
Record line_grew (s : Sys) (item : T) (size : Z) (b : Bundler) (l' : list bundle) : Prop := {
  lg_total : total l' = total (line (bun s)) + size;
  lg_fits : forall pre, Forall fits (pre ++ line (bun s)) -> Forall fits (pre ++ l');
  lg_wgs : forall k, wgs b k - wgs (bun s) k = count k l' - count k (line (bun s));
  lg_sorted : forall pre, StronglySorted le (b_flush <$> pre ++ line (bun s)) ->
    Forall (fun bu => (b_flush bu <= curFlush (bun s))%nat) (pre ++ line (bun s)) -> StronglySorted le (b_flush <$> pre ++ l');
  lg_flush : forall P : nat -> Prop, Forall (fun bu => P (b_flush bu)) (line (bun s)) -> P (curFlush (bun s)) -> Forall (fun bu => P (b_flush bu)) l';
  lg_items : concat (b_items <$> l') = concat (b_items <$> line (bun s)) ++ [item];
  lg_distinct : forall pre, NoDup (b_ptr <$> pre ++ line (bun s)) -> Forall (fun bu => (b_ptr bu < fresh (bun s))%nat) (pre ++ line (bun s)) ->
    NoDup (b_ptr <$> pre ++ l') /\ Forall (fun bu => (b_ptr bu < fresh b)%nat) (pre ++ l');
}.

Lemma StronglySorted_snoc l x : StronglySorted le l -> Forall (fun y => (y <= x)%nat) l -> StronglySorted le (l ++ [x]).
Proof.
  induction 1 as [|y l Hs IH Hy]; intros Hx; cbn; [by repeat constructor|]. apply Forall_cons in Hx as [Hyx Hx].
  constructor; [by apply IH|]. apply Forall_app. split; [done|by apply Forall_singleton].
Qed.

Lemma add_grows s item size g b : limits_ok -> ok s -> 0 <= size -> admissible (item, size) -> total (live s) + size <= BufferedByteLimit L ->
  add L item size (bun s) = (g, b) -> line_grew s item size b (line_add (bun s) item size).
Proof.
  intros Hlim Hok Hs Hadm Hle Ha. apply (bundler_add_spec _ (length (running s))) in Ha as (_ & _ & _ & _ & _ & Hw); [|apply Hok].
  pose proof (ok_fits s Hok) as Hfl. unfold live in Hfl. apply Forall_app in Hfl as [Hfrun Hfits].
  assert (Hpos : forall l, Forall fits l -> 0 <= total l) by (intros l Hl; apply total_nonneg; eapply Forall_impl; [exact Hl|]; intros ? Hx; apply Hx).
  pose proof (Hpos _ Hfrun) as Hrun.
  unfold live in Hle. rewrite total_app in Hle.
  destruct (line_add_cases (bun s) item size) as [(l & bu & Ej & Hc & Hl & Hl')|[Ej Hl']]; rewrite Ej in Hw; destruct Hw as [Hw Hfr]; rewrite Hl'.
  - rewrite Hl in *. apply Forall_app in Hfits as [Hf0 [Hf1 _]%Forall_cons]. pose proof (Hpos _ Hf0). rewrite total_app in Hle. unfold total at 3 in Hle. cbn in Hle.
    destruct (bundle_add_fits bu item size Hlim Hf1 Hs ltac:(lia) Hc) as [Hf Hsz]. cbn in Hsz. split; rewrite ?Hl.
    + rewrite !total_app. unfold total at 2 4. cbn. lia.
    + intros pre. rewrite !Forall_app, !Forall_singleton. tauto.
    + intros k. rewrite !count_app, Hw. unfold count at 2 4. cbn. lia.
    + intros pre. rewrite !fmap_app. done.
    + intros P. rewrite !Forall_app, !Forall_singleton. done.
    + rewrite !fmap_app, !concat_app. cbn. by rewrite !app_nil_r, <-app_assoc.
    + intros pre. rewrite Hfr, !fmap_app, !Forall_app, !Forall_singleton. done.
  - pose proof (Hpos _ Hfits). destruct (new_bundle_fits (bun s) item size Hlim Hadm ltac:(lia)) as [Hf Hsz]. split.
    + rewrite total_app. unfold total at 2. cbn in *. lia.
    + intros pre. rewrite !Forall_app, !Forall_singleton. tauto.
    + intros k. rewrite count_app, Hw. unfold count at 2. unfold bump. cbn. rewrite (Nat.eqb_sym k). destruct (_ =? _)%nat; lia.
    + intros pre Hso Hto. rewrite app_assoc, fmap_app. apply StronglySorted_snoc; [done|]. by apply Forall_fmap.
    + intros P Hp Hc. apply Forall_app. split; [done|]. by apply Forall_singleton.
    + rewrite fmap_app, concat_app. cbn. done.
    + intros pre Hnd Hlt. rewrite Hfr. split.
      * rewrite app_assoc, fmap_app. apply NoDup_app. split; [done|]. split; [|apply NoDup_singleton].
        intros x (y & -> & Hy)%list_elem_of_fmap. rewrite Forall_forall in Hlt. specialize (Hlt y Hy). cbn. rewrite list_elem_of_singleton. lia.
      * rewrite app_assoc. apply Forall_app. split; [eapply Forall_impl; [exact Hlt|]; cbn; intros; lia|]. apply Forall_singleton. cbn. lia.
Qed.

Lemma add_entered_spec i item size s : limits_ok -> ok s -> entered s !! i = Some (item, size) ->
  exists l', line_grew s item size (snd (add L item size (bun s))) l' /\ l' = line_add (bun s) item size /\
  live (add_entered L i item size s) = running s ++ l' /\ all (add_entered L i item size s) = started s ++ l' /\
  curFlush (bun (add_entered L i item size s)) = curFlush (bun s) /\ ok (add_entered L i item size s).
Proof.
  intros Hlim Hok Hi. pose proof Hok as Hok0. destruct Hok.
  assert (Hadm : admissible (item, size)) by (by eapply Forall_lookup_1 in ok_entered0).
  assert (Hwd : 0 <= weight (delete i (entered s))).
  { apply weight_nonneg, Forall_delete. eapply Forall_impl; [exact ok_entered0|]. intros ? Hx. apply Hx. }
  rewrite (weight_delete _ _ _ _ Hi) in ok_held0.
  assert (Hle : total (live s) + size <= BufferedByteLimit L) by lia. pose proof (proj1 Hadm) as Hs. cbn in Hs.
  unfold add_entered. destruct (add L item size (bun s)) as [g b] eqn:Ea. pose proof (add_grows _ _ _ _ _ Hlim Hok0 Hs Hadm Hle Ea) as Hg.
  apply (bundler_add_spec _ (length (running s))) in Ea as (Hc & Hl & Hsem & Hf & Hcf & _); [|done].
  exists (line_add (bun s) item size). split; [exact Hg|]. split; [done|]. cbn [snd] in *. set (l' := line_add _ _ _) in *.
  set (s' := {| bun := _ |}). assert (Hlive : live s' = running s ++ l') by (unfold live, s'; cbn; by rewrite <-app_assoc, Hl).
  assert (Hall : all s' = started s ++ l') by (unfold all, s'; cbn; by rewrite <-app_assoc, Hl).
  split; [done|]. split; [done|]. split; [exact Hf|]. destruct Hg. unfold all in ok_sorted0, ok_top0, ok_fifo0, ok_distinct0, ok_fresh0.
  destruct (lg_distinct0 _ ok_distinct0 ok_fresh0) as [Hd1 Hd2].
  split; rewrite ?Hlive, ?Hall; subst s'; cbn; rewrite ?Hsem, ?Hf; try done.
  - by rewrite length_app.
  - rewrite total_app. unfold live in ok_held0. rewrite total_app in ok_held0. lia.
  - by apply Forall_delete.
  - by apply lg_fits0.
  - intros k. specialize (lg_wgs0 k). specialize (ok_wgs0 k). unfold live in ok_wgs0. rewrite count_app in *. lia.
  - by apply lg_sorted0.
  - apply Forall_app in ok_top0 as [? ?]. apply Forall_app. split; [done|]. by apply (lg_flush0 (fun f => (f <= _)%nat)).
  - rewrite fmap_app, concat_app, lg_items0, app_assoc, <-concat_app, <-fmap_app, ok_fifo0. done.
  - by apply submseteq_app.
  - intros k Hk. pose proof (ok_closed0 k Hk) as Hlt. unfold live in Hlt. apply Forall_app in Hlt as [? ?]. apply Forall_app. split; [done|].
    apply (lg_flush0 (fun f => (k < f)%nat)); [done|]. apply ok_flushes0. by right.
  - by apply Hcf.
Qed.

(** ** Steps

    What a step does to the bundles: nothing; or an item is added to the line;
    or a handler returns. *)
Inductive effect (s s' : Sys) : Prop :=
  | eff_none : live s' = live s -> all s' = all s -> running s ⊆ running s' -> effect s s'
  | eff_added item size : live s' = running s ++ line_add (bun s) item size -> all s' = started s ++ line_add (bun s) item size ->
      running s ⊆ running s' -> effect s s'
  | eff_handled i bu : running s !! i = Some bu -> live s' = delete i (live s) -> all s' = all s ->
      delete i (running s) ⊆ running s' -> effect s s'.

Record stepped (s s' : Sys) : Prop := {
  sd_ok : ok s';
  sd_flush : (curFlush (bun s) <= curFlush (bun s'))%nat;
  sd_closed : closed s ⊆ closed s';
  sd_effect : effect s s';
}.

Lemma semaphore_stepped s b e w : ok s -> counted b (length (running s)) -> line b = line (bun s) ->
  curFlush b = curFlush (bun s) -> wgs b = wgs (bun s) -> fresh b = fresh (bun s) ->
  held (bsem b) = weight e + total (live s) -> held (bsem b) <= capacity (bsem b) -> capacity (bsem b) = capacity (bsem (bun s)) ->
  Forall admissible e -> Forall admissible w -> cur_flush b -> stepped s (in_entered e (in_waiting w (with_bun b s))).
Proof.
  intros Hok Hc Hl Hf Hw Hfr Hh Hle Hcap He Hwt Hcf. split; [by apply semaphore_ok|cbn; lia|done|]. apply eff_none.
  - unfold live. cbn. by rewrite app_nil_r, Hl.
  - unfold all. cbn. by rewrite app_nil_r, Hl.
  - cbn. by rewrite app_nil_r.
Qed.

Lemma spawn_stepped s g b : ok s -> counted b (length (running s) + length g) -> g ++ line b = line (bun s) -> moved (bun s) b ->
  stepped s (spawn (g, b) s).
Proof.
  intros Hok Hc Hl Hm. destruct (spawn_ok s g b Hok Hc Hl Hm) as (Ho & Hlv & Hal). destruct Hm. split; [done|cbn; lia|done|].
  apply eff_none; [done|done|]. cbn. intros x Hx. apply elem_of_app. by left.
Qed.

Lemma moved_held b b' : moved b b' -> held (bsem b') = held (bsem b) /\ capacity (bsem b') = capacity (bsem b).
Proof. intros []. split; congruence. Qed.

Lemma step_stepped s s' : limits_ok -> ok s -> step L s s' -> stepped s s'.
Proof.
  intros Hlim Hok Hst. pose proof Hok as [Hcnt Hh Hcap Hb He Hw _ _ _ _ _ _ _ _ _ _ Hcur]. destruct Hst as
    [size e b Hs Ha|item size b Hs Ha|size e b Hs Ha|item size b Hs Ha|i item size sm Hi Ha|i item size sm Hi Ha|i item size Hi| |i bu s' Hi Ha| |k Hk Hr].
  - apply Add_spec in Ha as (Hl & Hwg & Hf & Hfr & Hc & Hcf & Hsm); [|done].
    rewrite <-(in_entered_id (with_bun b s)), <-(in_waiting_id (with_bun b s)) at 1. apply semaphore_stepped; cbn; rewrite ?Hsm; auto; lia.
  - apply Add_spec in Ha as (Hl & Hwg & Hf & Hfr & Hc & Hcf & Hadm & Hh' & Hle & Hcap'); [|done].
    rewrite <-(in_waiting_id (with_bun b s)) at 1. apply semaphore_stepped; cbn; auto.
    + rewrite weight_app. unfold weight at 2. cbn. lia.
    + apply Forall_app. split; [done|by apply Forall_singleton].
  - apply AddWait_spec in Ha as (Hl & Hm & Hc & _); [|done]. destruct (moved_held _ _ Hm) as [Hh' Hcap']. pose proof (moved_cur_flush _ _ Hm Hcur). destruct Hm.
    rewrite <-(in_entered_id (with_bun b s)), <-(in_waiting_id (with_bun b s)) at 1. apply semaphore_stepped; cbn; auto; congruence || lia.
  - apply AddWait_spec in Ha as (Hl & Hm & Hc & Hadm); [|done]. destruct (moved_held _ _ Hm) as [Hh' Hcap']. pose proof (moved_cur_flush _ _ Hm Hcur). destruct Hm.
    rewrite <-(in_entered_id (in_waiting _ _)). apply semaphore_stepped; cbn; auto; try (congruence || lia). apply Forall_app. split; [done|by apply Forall_singleton].
  - apply acquired_held in Ha as (Hh' & Hle & Hcap'). apply semaphore_stepped; auto; cbn.
    + destruct Hcnt; by split.
    + rewrite weight_app. unfold weight at 2. cbn. lia.
    + apply Forall_app. split; [done|]. apply Forall_singleton. by eapply Forall_lookup_1 in Hw.
    + by apply Forall_delete.
  - apply cancelled_held in Ha as (Hh' & Hcap'). rewrite <-(in_entered_id (in_waiting _ _)). apply semaphore_stepped; auto; cbn; try lia.
    + destruct Hcnt; by split.
    + by apply Forall_delete.
  - destruct (add_entered_spec i item size s Hlim Hok Hi) as (l' & _ & -> & Hl & Hal & Hf & Hok'). split; [done|lia|done|].
    eapply eff_added; [exact Hl|exact Hal|]. cbn. intros x Hx. apply elem_of_app. by left.
  - destruct (tryHandleBundles L (bun s)) as [g b] eqn:E. apply (enqueue_spec _ (length (running s))) in E as (Hc & Hl & Hm & _); [|done].
    by apply spawn_stepped.
  - pose proof Ha as Ha'. apply handled_spec in Ha as (Hok' & Hl & Hal & Hf & _ & Hcl & _); [|done|done]. split; [done|lia|by rewrite Hcl|].
    eapply eff_handled; [exact Hi|done|done|]. unfold handled in Ha'. apply res_bind_ok in Ha' as (nb & _ & [= <-]). cbn.
    intros x Hx. apply elem_of_app. by left.
  - destruct (begin_flush_ok s Hok) as (Hok' & Hl & Hal). split; [done| |done|apply eff_none; [done|done|]]; unfold begin_flush, Flush;
      destruct (enqueueCurBundle L (bun s)) as [g b] eqn:E; apply (enqueue_spec _ (length (running s))) in E as (_ & _ & [_ Hf _ _ _] & _); try done; cbn.
    + lia.
    + intros x Hx. apply elem_of_app. by left.
  - split; [by apply end_flush_ok|done| |by apply eff_none]. cbn. intros x Hx. by right.
Qed.

Lemma reachable_ok s : limits_ok -> reachable L s -> ok s.
Proof.
  intros Hlim Hr. unfold reachable in Hr. apply (rtc_ind_r (fun s => ok s) (init L)) with (3 := Hr); [by apply init_ok|].
  intros x y _ Hxy Hx. by eapply sd_ok, step_stepped.
Qed.

(** A handler that returns finds its weight and its wait group as it left them. *)
Lemma handled_total i bu s : ok s -> running s !! i = Some bu -> exists s', handled i bu s = Ok s'.
Proof.
  intros [] Hi. assert (Hlive : live s !! i = Some bu) by (unfold live; by apply lookup_app_l_Some).
  assert (Hfit : fits bu) by (by eapply Forall_lookup_1 in ok_fits0).
  assert (Hrange : 0 <= b_size bu <= held (bsem (bun s))).
  { split; [apply Hfit|]. rewrite ok_held0, (total_delete _ _ _ Hlive).
    assert (0 <= total (delete i (live s))) by (apply total_nonneg, Forall_delete; eapply Forall_impl; [exact ok_fits0|]; intros ? Hx; apply Hx).
    assert (0 <= weight (entered s)) by (apply weight_nonneg; eapply Forall_impl; [exact ok_entered0|]; intros ? Hx; apply Hx). lia. }
  destruct (release_held _ _ Hrange) as (sm & Hrel & _). unfold handled, postHandle. rewrite Hrel. cbn [res_bind]. unfold wg_done.
  pose proof (ok_wgs0 (b_flush bu)) as Hw. rewrite (count_delete _ _ _ _ Hlive), Nat.eqb_refl in Hw.
  pose proof (count_nonneg (b_flush bu) (delete i (live s))). cbn [wgs with_bsem]. replace (wgs (bun s) (b_flush bu) - 1 <? 0) with false by (symmetry; apply Z.ltb_ge; lia).
  cbn [res_bind]. destruct (next _) as [[bu'|] b']; cbn [res_bind]; eauto.
Qed.

(** ** Flushes *)

Definition upto (k : nat) (l : list bundle) : list bundle := filter (fun bu => (b_flush bu <= k)%nat) l.

(** [a] is a prefix of the items in the bundles of the flushes up to [k]. *)
Definition covered (a : list T) (k : nat) (s : Sys) : Prop := a `prefix_of` concat (b_items <$> upto k (all s)).

Lemma covered_grow (a : list T) k pre (b : Bundler) (item : T) size :
  a `prefix_of` concat (b_items <$> upto k (pre ++ line b)) -> a `prefix_of` concat (b_items <$> upto k (pre ++ line_add b item size)).
Proof.
  intros Hp. destruct (line_add_cases b item size) as [(l & bu & _ & _ & Hl & ->)|[_ ->]].
  - rewrite Hl in Hp. etransitivity; [exact Hp|]. unfold upto. rewrite !filter_app, !filter_cons, !filter_nil. cbn [b_flush bundle_add].
    destruct (decide _); [|done]. rewrite !app_assoc, !fmap_app, !concat_app. cbn. rewrite !app_nil_r. rewrite app_assoc. by apply prefix_app_r.
  - etransitivity; [exact Hp|]. unfold upto. rewrite app_assoc, (filter_app _ (pre ++ line b)), fmap_app, concat_app. by apply prefix_app_r.
Qed.

Lemma step_covered a k s s' : limits_ok -> ok s -> covered a k s -> step L s s' -> covered a k s'.
Proof.
  intros Hlim Hok Hc Hst. destruct (step_stepped s s' Hlim Hok Hst) as [_ _ _ [_ Ha _|item size _ Ha _|i bu _ _ Ha _]]; unfold covered; rewrite Ha; try exact Hc.
  by apply covered_grow.
Qed.

Lemma steps_covered a k s s' : limits_ok -> ok s -> covered a k s -> rtc (step L) s s' -> covered a k s' /\ ok s'.
Proof.
  intros Hlim Hok Hc. induction 1 as [|x y z Hxy _ IH]; [done|]. apply IH; [by eapply sd_ok, step_stepped|by eapply step_covered].
Qed.

Lemma upto_all k l : Forall (fun bu => (b_flush bu <= k)%nat) l -> upto k l = l.
Proof. unfold upto. induction 1 as [|x l Hx _ IH]; [done|]. by rewrite filter_cons, decide_True, IH. Qed.
Lemma upto_none k l : Forall (fun bu => (k < b_flush bu)%nat) l -> upto k l = [].
Proof. unfold upto. induction 1 as [|x l Hx _ IH]; [done|]. by rewrite filter_cons, decide_False, IH by lia. Qed.

(** ** Liveness *)

(** Bundles that the [k]-th flush or an earlier one waits for. *)
Definition pending (k : nat) (s : Sys) : nat := length (upto k (live s)).

Lemma step_pending k s s' : limits_ok -> ok s -> (k < curFlush (bun s))%nat -> step L s s' ->
  (pending k s' <= pending k s)%nat /\
  (pending k s' = pending k s -> forall bu, bu ∈ running s -> (b_flush bu <= k)%nat -> bu ∈ running s').
Proof.
  intros Hlim Hok Hk Hst. unfold pending, upto. destruct (step_stepped s s' Hlim Hok Hst) as [_ _ _ [Hl _ Hsub|item size Hl _ Hsub|i bu Hi Hl _ Hsub]]; rewrite Hl.
  - split; [done|]. intros _ bu Hbu _. by apply Hsub.
  - split; [|intros _ bu Hbu _; by apply Hsub]. unfold live. rewrite !filter_app, !length_app. apply Nat.add_le_mono_l.
    destruct (line_add_cases (bun s) item size) as [(l & bu & _ & _ & -> & ->)|[_ ->]]; rewrite !filter_app, !length_app, !filter_cons, filter_nil; cbn [b_flush bundle_add new_bundle].
    + by destruct (decide _).
    + rewrite decide_False by lia. cbn. lia.
  - assert (Hlive : live s !! i = Some bu) by (unfold live; by apply lookup_app_l_Some).
    rewrite <-(take_drop_middle (live s) i bu Hlive) at 2 4. rewrite delete_take_drop, !filter_app, !length_app, !filter_cons.
    destruct (decide (b_flush bu <= k)%nat) as [Hle|Hgt]; cbn; [split; [lia|intros; lia]|]. split; [lia|]. intros _ bu' Hbu' Hle. apply Hsub.
    apply list_elem_of_lookup in Hbu' as [j Hj]. rewrite delete_take_drop, elem_of_app.
    destruct (decide (j < i)%nat); [left; apply list_elem_of_lookup; exists j; by rewrite lookup_take_lt|].
    assert (j <> i) by (intros ->; rewrite Hi in Hj; congruence).
    right. apply list_elem_of_lookup. exists (j - S i)%nat. rewrite lookup_drop. by replace (S i + (j - S i))%nat with j by lia.
Qed.

(** While a flush waits, a handler works for it. *)
Lemma pending_running k s : 0 < HandlerLimit L -> ok s -> (k < curFlush (bun s))%nat -> pending k s <> O -> exists bu, bu ∈ running s /\ (b_flush bu <= k)%nat.
Proof.
  intros HL Hok Hk Hp. unfold pending in Hp. destruct (upto k (live s)) as [|bu l] eqn:E; [done|].
  assert (Hbu : bu ∈ upto k (live s)) by (rewrite E; left). apply list_elem_of_filter in Hbu as [Hle Hbu]. unfold live in Hbu. rewrite elem_of_app in Hbu.
  destruct Hbu as [Hbu|Hbu]; [by exists bu|]. unfold line in Hbu. rewrite elem_of_app in Hbu. destruct Hbu as [Hq|Hc].
  2:{ destruct (curBundle (bun s)) as [cb|] eqn:Ec; [|by apply elem_of_nil in Hc]. apply list_elem_of_singleton in Hc as ->. pose proof (ok_cur s Hok _ Ec). lia. }
  destruct Hok. destruct ok_counted0 as [Hc1 _ Hc3]. assert (Hne : queue (bun s) <> []) by (intros Hn; rewrite Hn in Hq; by apply elem_of_nil in Hq).
  specialize (Hc3 Hne). destruct (running s) as [|r rs] eqn:Er; [cbn in Hc1; lia|]. exists r. split; [left|].
  assert (Hr : r ∈ started s) by (eapply elem_of_submseteq; [|exact ok_running0]; left).
  unfold all in ok_sorted0. rewrite fmap_app in ok_sorted0.
  apply (StronglySorted_app_1_elem_of le (b_flush <$> started s) (b_flush <$> line (bun s)) (b_flush r) (b_flush bu)) in ok_sorted0; [lia|by apply list_elem_of_fmap_2|].
  apply list_elem_of_fmap_2. unfold line. apply elem_of_app. by left.
Qed.

(** An unending run, the handlers and the flushing goroutines scheduled fairly:
    every call of the handler returns, and a flush whose waits are over and stay
    over goes on. *)
Definition is_run (r : nat -> Sys) : Prop := forall n, r (S n) = r n \/ step L (r n) (r (S n)).
Definition handlers_return (r : nat -> Sys) : Prop := forall n bu, bu ∈ running (r n) -> exists m, (n <= m)%nat /\ bu ∉ running (r m).
Definition flushes_wake (r : nat -> Sys) : Prop :=
  forall n k, k ∈ flushing (r n) -> exists m, (n <= m)%nat /\ (k ∉ flushing (r m) \/ flush_ready k (r m) = false).

Section run.
Context (Hlim : limits_ok) (HL : 0 < HandlerLimit L) (r : nat -> Sys) (H0 : ok (r O)) (Hr : is_run r).

Lemma run_states_ok n : ok (r n).
Proof. induction n as [|n IH]; [done|]. destruct (Hr n) as [->|Hs]; [done|]. by eapply sd_ok, step_stepped. Qed.

Lemma run_later n m : (n <= m)%nat -> (curFlush (bun (r n)) <= curFlush (bun (r m)))%nat /\ closed (r n) ⊆ closed (r m).
Proof.
  induction 1 as [|m _ [IH1 IH2]]; [done|]. destruct (Hr m) as [->|Hs]; [done|].
  destruct (step_stepped _ _ Hlim (run_states_ok m) Hs) as [_ Hf Hc _]. split; [lia|set_solver].
Qed.

(** From [n] on, nothing is added to what flush [k] waits for; as long as
    nothing is taken away, its handlers are at work. *)
Lemma run_pending k n m : (k < curFlush (bun (r n)))%nat -> (n <= m)%nat ->
  (pending k (r m) <= pending k (r n))%nat /\
  (pending k (r m) = pending k (r n) -> forall bu, bu ∈ running (r n) -> (b_flush bu <= k)%nat -> bu ∈ running (r m)).
Proof.
  intros Hk. induction 1 as [|m Hnm [IH1 IH2]]; [done|]. destruct (Hr m) as [->|Hs]; [done|].
  assert (Hkm : (k < curFlush (bun (r m)))%nat) by (destruct (run_later n m Hnm); lia).
  destruct (step_pending k _ _ Hlim (run_states_ok m) Hkm Hs) as [Hp1 Hp2]. split; [lia|]. intros He bu Hbu Hle. apply Hp2; [lia| |done]. apply IH2; [lia|done|done].
Qed.

Lemma pending_drains (Hh : handlers_return r) k n : (k < curFlush (bun (r n)))%nat -> exists m, (n <= m)%nat /\ pending k (r m) = O.
Proof.
  remember (pending k (r n)) as p eqn:Ep. revert n Ep. induction (lt_wf p) as [p _ IH]. intros n Ep Hk.
  destruct (decide (p = O)) as [->|Hp]; [by exists n|].
  destruct (pending_running k (r n) HL (run_states_ok n) Hk ltac:(lia)) as (bu & Hbu & Hle). destruct (Hh n bu Hbu) as (m & Hnm & Hno).
  destruct (run_pending k n m Hk Hnm) as [Hp1 Hp2].
  assert (Hlt : (pending k (r m) < p)%nat).
  { destruct (decide (pending k (r m) = pending k (r n))) as [He|Hne]; [|lia]. by destruct Hno; apply Hp2. }
  destruct (IH _ Hlt m eq_refl) as (m' & Hm & Hz); [destruct (run_later n m Hnm); lia|]. exists m'. split; [lia|done].
Qed.

Lemma pending_zero k s : ok s -> pending k s = O -> wgs (bun s) k = 0.
Proof.
  intros Hok Hp. rewrite (ok_wgs s Hok). apply count_zero. unfold pending, upto in Hp. apply nil_length_inv in Hp.
  apply Forall_forall. intros bu Hbu He. assert (Hin : bu ∈ filter (fun bu => (b_flush bu <= k)%nat) (live s)) by (apply list_elem_of_filter; split; [lia|done]).
  rewrite Hp in Hin. by apply elem_of_nil in Hin.
Qed.

Lemma run_flush_closes (Hh : handlers_return r) (Hw : flushes_wake r) k n : (k < curFlush (bun (r n)))%nat -> exists m, (n <= m)%nat /\ k ∈ closed (r m).
Proof.
  revert n. induction k as [k IH] using lt_wf_ind. intros n Hk.
  assert (Hprev : exists m, (n <= m)%nat /\ match k with O => True | S p => p ∈ closed (r m) end).
  { destruct k as [|p]; [by exists n|]. apply (IH p); lia. }
  destruct Hprev as (m1 & Hm1 & Hp). destruct (pending_drains Hh k m1) as (m2 & Hm2 & Hz); [destruct (run_later n m1 Hm1); lia|].
  assert (Hk2 : (k < curFlush (bun (r m2)))%nat) by (destruct (run_later n m2 ltac:(lia)); lia).
  destruct (proj1 (ok_flushes _ (run_states_ok m2) k) Hk2) as [Hf|Hc]; [|exists m2; split; [lia|done]].
  destruct (Hw m2 k Hf) as (m3 & Hm3 & Hend). exists m3. split; [lia|].
  assert (Hk3 : (k < curFlush (bun (r m3)))%nat) by (destruct (run_later m2 m3 Hm3); lia).
  destruct (proj1 (ok_flushes _ (run_states_ok m3) k) Hk3) as [Hf3|Hc]; [|done]. destruct Hend as [Hno|Hnr]; [done|]. exfalso.
  assert (Hz3 : pending k (r m3) = O) by (destruct (run_pending k m2 m3 Hk2 Hm3); lia). apply (pending_zero k _ (run_states_ok m3)) in Hz3.
  apply not_true_iff_false in Hnr. apply Hnr. unfold flush_ready. rewrite Hz3. apply andb_true_iff. split; [|done].
  destruct k as [|p]; [done|]. apply bool_decide_eq_true. by apply (proj2 (run_later m1 m3 ltac:(lia))).
Qed.
End run.
End spec.

(** ** Properties *)

(** Every item the bundler accepts is handed to a handler exactly once, and
    the bundles carry the items in the order they were accepted: what was handed
    out, then what is queued, then the current bundle, is the accepted sequence;
    no bundle is started twice, and a handler only has a bundle that was started. *)
Theorem items_handed_out_in_order {T : Type} `{Weighted} (held capacity : sem -> Z) (L : limits) (s : Sys T) :
  WeightedLaws _ held capacity -> limits_ok L -> reachable L s ->
  accepted s = concat (b_items <$> started s) ++ concat (b_items <$> queue (bun s)) ++ concat (b_items <$> option_list (curBundle (bun s))) /\
  NoDup (b_ptr <$> started s) /\ running s ⊆+ started s.
Proof.
  intros Hl Hlim Hr. destruct (reachable_ok held capacity L s Hlim Hr). unfold all, line in *. split; [|split; [|done]].
  - by rewrite <-ok_fifo0, !fmap_app, !concat_app.
  - rewrite fmap_app in ok_distinct0. apply NoDup_app in ok_distinct0 as [? _]. done.
Qed.

(** The limits hold whatever the callers, the handlers and the timer do.
    No more than [HandlerLimit] handlers run, and bundles queue up only when that
    many do; the bytes of everything accepted and not yet handled stay within
    [BufferedByteLimit] and never overflow an [int]; no bundle exceeds its byte
    or count limit; and a handler that returns never makes the semaphore or a
    wait group panic. *)
Theorem bundler_limits_hold {T : Type} `{Weighted} (held capacity : sem -> Z) (L : limits) (s : Sys T) :
  WeightedLaws _ held capacity -> limits_ok L -> reachable L s ->
  Z.of_nat (length (running s)) <= Z.max 0 (HandlerLimit L) /\
  (queue (bun s) <> [] -> HandlerLimit L <= Z.of_nat (length (running s))) /\
  total (running s) + total (queue (bun s)) + total (option_list (curBundle (bun s))) + weight (entered s) <= BufferedByteLimit L /\
  Forall (fits L) (running s ++ queue (bun s) ++ option_list (curBundle (bun s))) /\
  (forall i bu, running s !! i = Some bu -> exists s', handled i bu s = Ok s').
Proof.
  intros Hl Hlim Hr. pose proof (reachable_ok held capacity L s Hlim Hr) as Hok. pose proof Hok as []. destruct ok_counted0 as [Hc1 Hc2 Hc3].
  unfold live, line in *. rewrite !total_app in ok_held0. split; [lia|]. split; [intros Hq; specialize (Hc3 Hq); lia|]. split; [lia|]. split; [done|].
  intros i bu Hi. by eapply handled_total.
Qed.

(** When a flush returns, everything accepted before it began has been
    handled. At any time after the channel of the flush is closed there is a
    sequence of started bundles, none of them still with a handler, whose items
    begin with all the items accepted before the flush. *)
Theorem flush_waits_for_all {T : Type} `{Weighted} (held capacity : sem -> Z) (L : limits) (s0 s : Sys T) :
  WeightedLaws _ held capacity -> limits_ok L -> reachable L s0 -> rtc (step L) (begin_flush L s0) s ->
  curFlush (bun s0) ∈ closed s ->
  exists done, done `sublist_of` started s /\ Forall (fun bu => bu ∉ running s) done /\ accepted s0 `prefix_of` concat (b_items <$> done).
Proof.
  intros Hl Hlim Hr Hsteps Hc. pose proof (reachable_ok held capacity L s0 Hlim Hr) as Hok0. set (k := curFlush (bun s0)) in *.
  destruct (begin_flush_ok held capacity L s0 Hok0) as (Hok1 & _ & Hall).
  assert (Hcov : covered (accepted s0) k (begin_flush L s0)).
  { unfold covered. rewrite Hall, upto_all by apply Hok0. by rewrite (ok_fifo _ _ _ _ Hok0). }
  destruct (steps_covered held capacity L _ k _ s Hlim Hok1 Hcov Hsteps) as [Hcov' Hok]. pose proof (ok_closed _ _ _ _ Hok k Hc) as Hlive.
  unfold live in Hlive. apply Forall_app in Hlive as [Hrun Hline]. exists (upto k (started s)). split; [apply sublist_filter|]. split.
  - apply Forall_forall. intros bu [Hle _]%list_elem_of_filter Hin. rewrite Forall_forall in Hrun. specialize (Hrun bu Hin). cbn in Hrun. lia.
  - unfold covered, all, upto in Hcov'. rewrite filter_app in Hcov'. fold (upto k (line (bun s))) in Hcov'. by rewrite (upto_none k _ Hline), app_nil_r in Hcov'.
Qed.

(** C22: a flush returns. In every run from a reachable state in which calls of
    the handler return and waiting flushes are woken, whatever else callers add
    meanwhile, each flush that has begun closes its channel; no flush can starve
    behind later items. *)
Theorem flush_returns {T : Type} `{Weighted} (held capacity : sem -> Z) (L : limits) (r : nat -> Sys T) (n k : nat) :
  WeightedLaws _ held capacity -> limits_ok L -> 0 < HandlerLimit L -> reachable L (r O) -> is_run L r ->
  handlers_return r -> flushes_wake r -> (k < curFlush (bun (r n)))%nat -> exists m, (n <= m)%nat /\ k ∈ closed (r m).
Proof.
  intros Hl Hlim HL Hr Hrun Hh Hw Hk. pose proof (reachable_ok held capacity L _ Hlim Hr) as Hok. by eapply run_flush_closes.
Qed.

(** ** Witnesses *)

(** A semaphore that counts: its capacity and the weight that is out. *)
Module Counting.
Definition TryAcquire (n : Z) (s : Z * Z) : bool * (Z * Z) := if snd s + n <=? fst s then (true, (fst s, snd s + n)) else (false, s).
Definition Release (n : Z) (s : Z * Z) : gores (Z * Z) := if n <=? snd s then Ok (fst s, snd s - n) else Err Panic.
#[export] Instance counting : Weighted :=
  {| sem := Z * Z; NewWeighted := fun n => (n, 0); Bundler.TryAcquire := TryAcquire;
     Acquired := fun n s s' => TryAcquire n s = (true, s'); Cancelled := fun _ s s' => s' = s; Bundler.Release := Release |}.
#[export] Instance counting_laws : WeightedLaws counting snd fst.
Proof.
  assert (Ht : forall n s s', TryAcquire n s = (true, s') -> snd s' = snd s + n /\ snd s' <= fst s' /\ fst s' = fst s).
  { intros n s s'. unfold TryAcquire. destruct (_ <=? _) eqn:E; b2p; intros [= <-]. cbn. lia. }
  split; cbn; try done.
  - intros n s s'. unfold TryAcquire. destruct (_ <=? _); by intros [= <-].
  - by intros n s s' ->.
  - intros n s Hn. unfold Release. replace (n <=? snd s) with true by (symmetry; apply Z.leb_le; lia). eauto.
Qed.
End Counting.
#[local] Existing Instance Counting.counting.

Definition small : limits := {| BundleCountThreshold := 2; BundleByteThreshold := 100; BundleByteLimit := 0; BufferedByteLimit := 10; HandlerLimit := 1 |}.

Lemma small_ok : limits_ok small.
Proof. split; cbn; lia. Qed.

(** One item is added and flushed. *)
Definition t0 : Sys nat := init small.
Definition t1 : Sys nat := in_entered [(7%nat, 3)] (with_bun (snd (Add small 3 (bun t0))) t0).
Definition t2 : Sys nat := add_entered small 0 7%nat 3 t1.
Definition t3 : Sys nat := begin_flush small t2.
Definition t4 : Sys nat := match running t3 with bu :: _ => match handled 0 bu t3 with Ok s => s | Err _ => t3 end | [] => t3 end.
Definition t5 : Sys nat := end_flush 0 t4.

Lemma t01 : step small t0 t1.
Proof. refine (step_Add small t0 7%nat 3 (snd (Add small 3 (bun t0))) _ eq_refl). lia. Qed.
Lemma t12 : step small t1 t2.
Proof. exact (step_added small t1 0 7%nat 3 eq_refl). Qed.
Lemma t23 : step small t2 t3.
Proof. exact (step_Flush small t2). Qed.
Lemma t34 : step small t3 t4.
Proof. eapply (step_handled small t3 0); [reflexivity|reflexivity]. Qed.
Lemma t45 : step small t4 t5.
Proof. refine (step_flushed small t4 0 _ eq_refl). apply list_elem_of_singleton. reflexivity. Qed.

Lemma t2_reachable : reachable small t2.
Proof. apply (rtc_l _ _ _ _ t01), rtc_once, t12. Qed.

Lemma items_handed_out_in_order_witness : accepted t2 = [7%nat] /\ concat (b_items <$> started t2) ++ concat (b_items <$> queue (bun t2)) ++ [7%nat] = [7%nat].
Proof.
  split; [reflexivity|].
  exact (eq_sym (proj1 (items_handed_out_in_order snd fst small t2 Counting.counting_laws small_ok t2_reachable))).
Defined.

Lemma bundler_limits_hold_witness : length (running t3) = 1%nat /\ Z.of_nat (length (running t3)) <= 1.
Proof.
  split; [reflexivity|].
  exact (proj1 (bundler_limits_hold snd fst small t3 Counting.counting_laws small_ok (rtc_r _ _ _ t2_reachable t23))).
Defined.

Lemma flush_waits_for_all_witness :
  exists done, done `sublist_of` started t5 /\ Forall (fun bu => bu ∉ running t5) done /\ [7%nat] `prefix_of` concat (b_items <$> done).
Proof.
  refine (flush_waits_for_all snd fst small t2 t5 Counting.counting_laws small_ok t2_reachable _ _).
  - exact (rtc_l _ _ _ _ t34 (rtc_once _ _ t45)).
  - apply list_elem_of_singleton. reflexivity.
Defined.

Definition toy_run (n : nat) : Sys nat := nth n [t0; t1; t2; t3; t4] t5.

Lemma toy_is_run : is_run small toy_run.
Proof.
  intros n. destruct n as [|[|[|[|[|n]]]]]; [right; exact t01|right; exact t12|right; exact t23|right; exact t34|right; exact t45|].
  left. unfold toy_run. rewrite !nth_overflow by (cbn; lia). reflexivity.
Qed.

Lemma toy_run_end n : toy_run (n + 5) = t5.
Proof. unfold toy_run. apply nth_overflow. cbn. lia. Qed.

Lemma flush_returns_witness : exists m, (3 <= m)%nat /\ 0%nat ∈ closed (toy_run m).
Proof.
  refine (flush_returns snd fst small toy_run 3 0 Counting.counting_laws small_ok eq_refl (rtc_refl _ _) toy_is_run _ _ _).
  - intros n bu _. exists (n + 5)%nat. split; [lia|]. rewrite toy_run_end. apply not_elem_of_nil.
  - intros n k _. exists (n + 5)%nat. split; [lia|]. left. rewrite toy_run_end. apply not_elem_of_nil.
  - exact Nat.lt_0_1.
Defined.
