(* ===== verification/PackCache.v ===== *)
(** * The shared pack cache (internal/storage/tigris/packcache.go)

    Whole packs as local files, downloaded once for all waiters and evicted
    least recently used first. Entries are shared objects, so they live in a heap
    and are named by address; what goroutines inside [GetChecked] can do between
    two releases of the mutex is the relation [step]. *)

From S2P Require Import Prelude GoLib.

Section packcache.
(** The directory and the suffix of a settled entry's file. *)
Context (dir suffix : bytes) (maxBytes : Z).
(** [hex.EncodeToString(sha256.Sum256(body))] *)
Context (digest : bytes -> bytes).

(** [ce_err] is the outcome of the download, which readers look at only when
    [ready] is closed. *)
Record cacheEntry := { ce_id : bytes; ce_size : Z; ce_used : Z; ce_usedAt : Z; ce_ready : bool; ce_err : option goerr }.

(** [disk]: the files under their final names. Staging files have names that
    no reader opens. *)
Record PackCache := {
  entries : gmap bytes nat;
  heap : gmap nat cacheEntry;
  fresh : nat;
  cur : Z;
  seq : Z;
  disk : gmap bytes bytes;
}.

Definition newFileCache : PackCache := {| entries := ∅; heap := ∅; fresh := 0; cur := 0; seq := 0; disk := ∅ |}.

(** [filepath.Join(c.dir, id+c.suffix)] for an id without separators. *)
Definition path (id : bytes) : bytes := dir ++ bs "/" ++ id ++ suffix.

(** An assignment to a field of the entry at [p]. *)
Definition set_entry (p : nat) (f : cacheEntry -> cacheEntry) (c : PackCache) : PackCache :=
  {| entries := entries c; heap := alter f p (heap c); fresh := fresh c; cur := cur c; seq := seq c; disk := disk c |}.

(** [claim], at the time [now]. *)
Definition claim (id : bytes) (now : Z) (c : PackCache) : (nat * bool) * PackCache :=
  let s := u64 (seq c + 1) in
  match entries c !! id with
  | Some p =>
      ((p, false),
       {| entries := entries c; fresh := fresh c; cur := cur c; seq := s; disk := disk c;
          heap := alter (fun e => {| ce_id := ce_id e; ce_size := ce_size e; ce_used := s; ce_usedAt := now;
                                     ce_ready := ce_ready e; ce_err := ce_err e |}) p (heap c) |})
  | None =>
      let p := fresh c in
      ((p, true),
       {| entries := <[id := p]> (entries c); fresh := S p; cur := cur c; seq := s; disk := disk c;
          heap := <[p := {| ce_id := id; ce_size := 0; ce_used := s; ce_usedAt := now; ce_ready := false; ce_err := None |}]> (heap c) |})
  end.

(** [delete(c.entries, id)] with the file left or removed. *)
Definition unregister (id : bytes) (size : Z) (remove : bool) (c : PackCache) : PackCache :=
  {| entries := delete id (entries c); heap := heap c; fresh := fresh c; cur := cur c - size; seq := seq c;
     disk := if remove then delete (path id) (disk c) else disk c |}.

Definition forget (p : nat) (c : PackCache) : PackCache :=
  match heap c !! p with
  | None => c
  | Some e => if bool_decide (entries c !! ce_id e = Some p) then unregister (ce_id e) (ce_size e) false c else c
  end.

(** ** Eviction *)

(** The registered entries. *)
Definition registered (c : PackCache) : list cacheEntry := omap (fun p => heap c !! p) (snd <$> map_to_list (entries c)).

Definition evictable (keep : bytes) (e : cacheEntry) : bool := negb (bool_decide (ce_id e = keep) || (ce_size e =? 0)).

Definition older (victim : option cacheEntry) (e : cacheEntry) : option cacheEntry :=
  match victim with None => Some e | Some v => if ce_used e <? ce_used v then Some e else victim end.

Definition victim (keep : bytes) (c : PackCache) : option cacheEntry :=
  fold_left older (filter (fun e => evictable keep e = true) (registered c)) None.

(** The loop, which removes an entry every time round. *)
Fixpoint evict_loop (fuel : nat) (keep : bytes) (n : nat) (c : PackCache) : nat * PackCache :=
  match fuel with
  | O => (n, c)
  | S fuel' =>
      if cur c >? maxBytes then
        match victim keep c with
        | None => (n, c)
        | Some v => evict_loop fuel' keep (S n) (unregister (ce_id v) (ce_size v) true c)
        end
      else (n, c)
  end.

Definition evictLocked (keep : bytes) (c : PackCache) : nat * PackCache :=
  if maxBytes <=? 0 then (0%nat, c) else evict_loop (S (size (entries c))) keep 0 c.

(** [EvictIdle], at the time [now]. *)
Definition idle_one (cutoff : Z) (nc : nat * PackCache) (e : cacheEntry) : nat * PackCache :=
  if (ce_size e =? 0) || negb (ce_usedAt e <? cutoff) then nc
  else (S (fst nc), unregister (ce_id e) (ce_size e) true (snd nc)).
Definition EvictIdle (maxIdle now : Z) (c : PackCache) : nat * PackCache :=
  fold_left (idle_one (now - maxIdle)) (registered c) (0%nat, c).

(** ** A download *)

(** [verifiedCopy]: what [fetch] wrote, and the digest or the error it returned. *)
Definition verifiedCopy (body : bytes) (want : gores bytes) : gores Z :=
  let? w := want in
  if bool_decide (digest body = w) then Ok (Z.of_nat (length body)) else Err Errorf.

(** The three ways through [fill]: it fails, at any point up to the rename; the
    rename; and what follows it under the mutex. *)
Definition fill_failed (p : nat) (err : goerr) (c : PackCache) : PackCache :=
  forget p (set_entry p (fun e => {| ce_id := ce_id e; ce_size := ce_size e; ce_used := ce_used e; ce_usedAt := ce_usedAt e;
                                     ce_ready := ce_ready e; ce_err := Some err |}) c).
Definition rename (id body : bytes) (c : PackCache) : PackCache :=
  {| entries := entries c; heap := heap c; fresh := fresh c; cur := cur c; seq := seq c; disk := <[path id := body]> (disk c) |}.
Definition settle (p : nat) (id : bytes) (size : Z) (c : PackCache) : nat * PackCache :=
  let c := set_entry p (fun e => {| ce_id := ce_id e; ce_size := size; ce_used := ce_used e; ce_usedAt := ce_usedAt e;
                                    ce_ready := ce_ready e; ce_err := ce_err e |}) c in
  evictLocked id {| entries := entries c; heap := heap c; fresh := fresh c; cur := cur c + size; seq := seq c; disk := disk c |}.
(** [close(e.ready)] *)
Definition close_ready (p : nat) : PackCache -> PackCache :=
  set_entry p (fun e => {| ce_id := ce_id e; ce_size := ce_size e; ce_used := ce_used e; ce_usedAt := ce_usedAt e;
                           ce_ready := true; ce_err := ce_err e |}).

(** ** GetChecked *)

(** Where a caller is: about to claim for the [try]-th time; downloading; past
    the rename; done with [fill] but for closing [ready]; at [ready]; about to
    forget an entry whose file is gone; back with a file or an error. *)
Inductive pc :=
  | Claiming (try : nat)
  | Filling (try p : nat)
  | Renamed (try p : nat) (size : Z)
  | Closing (try p : nat)
  | Awaiting (try p : nat)
  | Forgetting (try p : nat)
  | Got (body : bytes)
  | Failed (e : goerr).

Record Sys := { cache : PackCache; callers : gmap nat (bytes * pc) }.

Definition at_pc (i : nat) (id : bytes) (k : pc) (c : PackCache) (s : Sys) : Sys :=
  {| cache := c; callers := <[i := (id, k)]> (callers s) |}.

Definition maxTries : nat := 3.

(** [wanted id w]: a caller's fetch may report [w] as the digest of [id]. *)
Context (wanted : bytes -> bytes -> Prop).

Inductive step (s : Sys) : Sys -> Prop :=
  | step_call i id : callers s !! i = None -> step s (at_pc i id (Claiming 0) (cache s) s)
  | step_claim i id try now p mine c :
      callers s !! i = Some (id, Claiming try) -> (try < maxTries)%nat -> claim id now (cache s) = ((p, mine), c) ->
      step s (at_pc i id (if mine : bool then Filling try p else Awaiting try p) c s)
  | step_exhausted i id try :
      callers s !! i = Some (id, Claiming try) -> (maxTries <= try)%nat -> step s (at_pc i id (Failed Errorf) (cache s) s)
  | step_downloaded i id try p body want size :
      callers s !! i = Some (id, Filling try p) -> wanted id want -> verifiedCopy body (Ok want) = Ok size ->
      step s (at_pc i id (Renamed try p size) (rename id body (cache s)) s)
  | step_fill_failed i id try p err :
      callers s !! i = Some (id, Filling try p) -> step s (at_pc i id (Closing try p) (fill_failed p err (cache s)) s)
  | step_settle i id try p size :
      callers s !! i = Some (id, Renamed try p size) -> step s (at_pc i id (Closing try p) (snd (settle p id size (cache s))) s)
  | step_close i id try p :
      callers s !! i = Some (id, Closing try p) -> step s (at_pc i id (Awaiting try p) (close_ready p (cache s)) s)
  | step_failed i id try p e err :
      callers s !! i = Some (id, Awaiting try p) -> heap (cache s) !! p = Some e -> ce_ready e = true -> ce_err e = Some err ->
      step s (at_pc i id (Failed err) (cache s) s)
  | step_open i id try p e body :
      callers s !! i = Some (id, Awaiting try p) -> heap (cache s) !! p = Some e -> ce_ready e = true -> ce_err e = None ->
      disk (cache s) !! path (ce_id e) = Some body -> step s (at_pc i id (Got body) (cache s) s)
  | step_vanished i id try p e :
      callers s !! i = Some (id, Awaiting try p) -> heap (cache s) !! p = Some e -> ce_ready e = true -> ce_err e = None ->
      disk (cache s) !! path (ce_id e) = None -> step s (at_pc i id (Forgetting try p) (cache s) s)
  | step_open_failed i id try p e err :
      callers s !! i = Some (id, Awaiting try p) -> heap (cache s) !! p = Some e -> ce_ready e = true -> ce_err e = None ->
      step s (at_pc i id (Failed (Wrapf err)) (cache s) s)
  | step_forget i id try p :
      callers s !! i = Some (id, Forgetting try p) -> step s (at_pc i id (Claiming (S try)) (forget p (cache s)) s)
  | step_idle maxIdle now : step s {| cache := snd (EvictIdle maxIdle now (cache s)); callers := callers s |}
  (** [Cleanup], or whatever else empties a temporary directory. *)
  | step_lost id : step s {| cache := {| entries := entries (cache s); heap := heap (cache s); fresh := fresh (cache s); cur := cur (cache s);
                                         seq := seq (cache s); disk := delete (path id) (disk (cache s)) |}; callers := callers s |}.

Definition start : Sys := {| cache := newFileCache; callers := ∅ |}.
Definition reachable (s : Sys) : Prop := rtc step start s.
End packcache.
