(* ===== verification/PackCacheSpec.v ===== *)
(** * What the pack cache promises

    Eviction is least recently used and no more than the budget asks for; the
    accounts are true; an entry has one downloader; and a caller only ever gets
    bytes whose digest is the one it may expect. *)

From S2P Require Import Prelude GoLib PackCache.

(** ** Sums over a map *)

Definition msum (f : nat -> Z) (m : gmap bytes nat) : Z := foldr (fun kv z => f kv.2 + z) 0 (map_to_list m).

Lemma msum_perm (f : nat -> Z) (l1 l2 : list (bytes * nat)) : l1 ≡ₚ l2 ->
  foldr (fun kv z => f kv.2 + z) 0 l1 = foldr (fun kv z => f kv.2 + z) 0 l2.
Proof. induction 1; cbn; lia. Qed.

Lemma msum_insert f m k p : m !! k = None -> msum f (<[k := p]> m) = f p + msum f m.
Proof. intros Hk. unfold msum. by rewrite (msum_perm f _ _ (map_to_list_insert m k p Hk)). Qed.

Lemma msum_delete f m k p : m !! k = Some p -> msum f m = f p + msum f (delete k m).
Proof. intros Hk. rewrite <-(insert_delete_id m k p Hk) at 1. by rewrite msum_insert by apply lookup_delete_eq. Qed.

Lemma msum_ext f g m : (forall k p, m !! k = Some p -> f p = g p) -> msum f m = msum g m.
Proof.
  intros Hfg. unfold msum. assert (Hl : Forall (fun kv => f kv.2 = g kv.2) (map_to_list m)).
  { apply Forall_forall. intros [k p] Hin%elem_of_map_to_list. by eapply Hfg. }
  induction Hl as [|kv l He _ IH]; cbn; [done|]. by rewrite He, IH.
Qed.

Section spec.
Context (dir suffix : bytes) (maxBytes : Z) (digest : bytes -> bytes) (wanted : bytes -> bytes -> Prop).

Abbreviation unregister := (unregister dir suffix).
Abbreviation path := (path dir suffix).
Abbreviation evict_loop := (evict_loop dir suffix maxBytes).
Abbreviation evictLocked := (evictLocked dir suffix maxBytes).

Lemma path_inj id1 id2 : path id1 = path id2 -> id1 = id2.
Proof. unfold PackCache.path. intros He%app_inv_head. apply app_inv_head in He. by apply app_inv_tail in He. Qed.

(** ** Eviction *)

(** Every registered address holds an entry for its id. *)
Definition wf (c : PackCache) : Prop := forall id p, entries c !! id = Some p -> exists e, heap c !! p = Some e /\ ce_id e = id.

Lemma elem_of_registered c e : e ∈ registered c <-> exists id p, entries c !! id = Some p /\ heap c !! p = Some e.
Proof.
  unfold registered. rewrite list_elem_of_omap. split.
  - intros (p & (kv & -> & Hin)%list_elem_of_fmap & He). destruct kv as [id p]. apply elem_of_map_to_list in Hin. by exists id, p.
  - intros (id & p & Hin & He). exists p. split; [|done]. apply list_elem_of_fmap. exists (id, p). split; [done|]. by apply elem_of_map_to_list.
Qed.

Lemma wf_unregister id z b c : wf c -> wf (unregister id z b c).
Proof. intros Hw id' p Hp. cbn in Hp. apply lookup_delete_Some in Hp as [_ Hp]. by apply Hw. Qed.

Lemma registered_unregister c v z b e : wf c -> e ∈ registered (unregister (ce_id v) z b c) <-> e ∈ registered c /\ ce_id e <> ce_id v.
Proof.
  intros Hw. rewrite !elem_of_registered. split.
  - intros (id & p & Hp & He). cbn in Hp, He. apply lookup_delete_Some in Hp as [Hne Hp]. split; [by exists id, p|].
    destruct (Hw _ _ Hp) as (e' & He' & <-). rewrite He in He'. by injection He' as <-.
  - intros [(id & p & Hp & He) Hne]. exists id, p. cbn. split; [|done]. rewrite lookup_delete_ne; [done|].
    destruct (Hw _ _ Hp) as (e' & He' & <-). rewrite He in He'. injection He' as <-. done.
Qed.

Lemma oldest_spec l v0 : match fold_left older l v0 with
  | None => v0 = None /\ l = []
  | Some v => (v ∈ l \/ v0 = Some v) /\ Forall (fun e => ce_used v <= ce_used e) l /\ (forall w, v0 = Some w -> ce_used v <= ce_used w)
  end.
Proof.
  revert v0. induction l as [|e l IH]; intros v0; cbn [fold_left].
  { destruct v0 as [v|]; [|done]. split; [by right|]. split; [constructor|]. intros w [= <-]. lia. }
  specialize (IH (older v0 e)). destruct (fold_left older l (older v0 e)) as [v|]; [|destruct v0; cbn in IH; [destruct (_ <? _)|]; by destruct IH].
  destruct IH as (Hin & Hall & Hle). rewrite Forall_cons. unfold older in *. destruct v0 as [w|].
  - destruct (ce_used e <? ce_used w) eqn:Ew; b2p.
    + specialize (Hle e eq_refl). split; [destruct Hin as [Hin|[= ->]]; left; [by right|left]|]. split; [done|]. intros w' [= <-]. lia.
    + specialize (Hle w eq_refl). split; [destruct Hin as [Hin|[= ->]]; [left; by right|by right]|]. split; [split; [lia|done]|]. intros w' [= <-]. lia.
  - specialize (Hle e eq_refl). split; [destruct Hin as [Hin|[= ->]]; left; [by right|left]|]. split; [done|done].
Qed.

Lemma victim_spec keep c : match victim keep c with
  | None => forall e, e ∈ registered c -> evictable keep e = false
  | Some v => v ∈ registered c /\ evictable keep v = true /\ forall e, e ∈ registered c -> evictable keep e = true -> ce_used v <= ce_used e
  end.
Proof.
  unfold victim. pose proof (oldest_spec (filter (fun e => evictable keep e = true) (registered c)) None) as Ho.
  destruct (fold_left _ _ _) as [v|].
  - destruct Ho as ([Hin|[=]] & Hall & _). apply list_elem_of_filter in Hin as [Hev Hin]. split; [done|]. split; [done|].
    intros e He Hee. rewrite Forall_forall in Hall. apply Hall. by apply list_elem_of_filter.
  - destruct Ho as [_ Hnil]. intros e He. apply not_true_iff_false. intros Hee.
    assert (Hin : e ∈ filter (fun e => evictable keep e = true) (registered c)) by by apply list_elem_of_filter. rewrite Hnil in Hin. by apply elem_of_nil in Hin.
Qed.

Definition unregister_all (vs : list cacheEntry) (c : PackCache) : PackCache :=
  fold_left (fun c v => unregister (ce_id v) (ce_size v) true c) vs c.
Definition sizes (vs : list cacheEntry) : Z := foldr (fun v z => ce_size v + z) 0 vs.

(** What an eviction removed: [vs], in that order. *)
Record evicted (keep : bytes) (c c' : PackCache) (vs : list cacheEntry) : Prop := {
  ev_result : c' = unregister_all vs c;
  ev_which : Forall (fun v => v ∈ registered c /\ evictable keep v = true) vs;
  ev_order : StronglySorted (fun v w => ce_used v <= ce_used w) vs;
  ev_rest : forall v e, v ∈ vs -> e ∈ registered c' -> evictable keep e = true -> ce_used v <= ce_used e;
  ev_needed : forall vs1 v vs2, vs = vs1 ++ v :: vs2 -> maxBytes < cur c - sizes vs1;
}.

Lemma evicted_nil keep c : evicted keep c c [].
Proof.
  split; [done|constructor|constructor| |].
  - intros v e Hv. by apply elem_of_nil in Hv.
  - intros [|] v vs2 He; discriminate.
Qed.

Lemma evict_loop_spec fuel keep n c n' c' : wf c -> (size (entries c) < fuel)%nat -> evict_loop fuel keep n c = (n', c') ->
  exists vs, n' = (n + length vs)%nat /\ evicted keep c c' vs /\ (cur c' <= maxBytes \/ forall e, e ∈ registered c' -> evictable keep e = false).
Proof.
  revert n c. induction fuel as [|fuel IH]; intros n c Hw Hf; [lia|]. cbn [PackCache.evict_loop].
  destruct (cur c >? maxBytes) eqn:Ec; rewrite Z.gtb_ltb in Ec; b2p.
  2:{ intros [= <- <-]. exists []. split; [cbn; lia|]. split; [apply evicted_nil|by left]. }
  pose proof (victim_spec keep c) as Hv. destruct (victim keep c) as [v|].
  2:{ intros [= <- <-]. exists []. split; [cbn; lia|]. split; [apply evicted_nil|by right]. }
  destruct Hv as (Hin & Hev & Hmin). set (c1 := unregister (ce_id v) (ce_size v) true c). intros Hr.
  pose proof (wf_unregister (ce_id v) (ce_size v) true c Hw) as Hw1. fold c1 in Hw1.
  apply elem_of_registered in Hin as Hin'. destruct Hin' as (id & p & Hp & He). destruct (Hw _ _ Hp) as (e' & He' & Hid). rewrite He in He'. injection He' as <-.
  apply IH in Hr as (vs & -> & [Hres Hwh Hord Hrest Hneed] & Hend); [|done|].
  2:{ subst c1. cbn. rewrite map_size_delete_Some; [|rewrite Hid; by eexists]. assert (size (entries c) <> 0%nat) by (apply map_size_non_empty_iff; intros Hem; by rewrite Hem in Hp). lia. }
  assert (Hsub : forall e, e ∈ registered c1 -> e ∈ registered c) by (intros e Hx; by apply (registered_unregister c v _ _ e Hw) in Hx as [? _]).
  assert (Hsub' : forall vs c0, wf c0 -> forall e, e ∈ registered (unregister_all vs c0) -> e ∈ registered c0).
  { clear. intros vs. induction vs as [|w vs IH]; intros c0 Hw0 e He; [done|]. cbn in He. apply IH in He; [|by apply wf_unregister]. by apply registered_unregister in He as [? _]. }
  exists (v :: vs). split; [cbn; lia|]. split; [|done]. split.
  - exact Hres.
  - constructor; [done|]. eapply Forall_impl; [exact Hwh|]. intros w [Hw' Hev']. split; [by apply Hsub|done].
  - constructor; [done|]. eapply Forall_impl; [exact Hwh|]. intros w [Hw' Hev']. apply Hmin; [by apply Hsub|done].
  - intros w e [->|Hwin]%elem_of_cons Hre Hee; [|by eapply Hrest]. apply Hmin; [|done]. apply Hsub. rewrite Hres in Hre. by eapply Hsub'.
  - intros [|w vs1] w' vs2 Heq; injection Heq as -> ->; [cbn; lia|]. specialize (Hneed _ _ _ eq_refl). subst c1. unfold sizes in *. cbn in *. lia.
Qed.

Lemma evictLocked_spec keep c n c' : wf c -> evictLocked keep c = (n, c') ->
  exists vs, n = length vs /\ evicted keep c c' vs /\ (0 < maxBytes -> cur c' <= maxBytes \/ forall e, e ∈ registered c' -> evictable keep e = false).
Proof.
  intros Hw. unfold PackCache.evictLocked. destruct (maxBytes <=? 0) eqn:Em; b2p.
  - intros [= <- <-]. exists []. split; [done|]. split; [apply evicted_nil|lia].
  - intros Hr. apply evict_loop_spec in Hr as (vs & -> & Hev & Hend); [|done|lia]. by exists vs.
Qed.

(** ** The invariant *)

(** The bytes a caller of [id] may be given. *)
Definition good (id body : bytes) : Prop := exists w, wanted id w /\ digest body = w.

Definition size_of (c : PackCache) (p : nat) : Z := match heap c !! p with Some e => ce_size e | None => 0 end.

Record cache_ok (c : PackCache) : Prop := {
  co_wf : wf c;
  co_fresh : forall p e, heap c !! p = Some e -> (p < fresh c)%nat;
  co_sum : cur c = msum (size_of c) (entries c);
  co_pos : forall p e, heap c !! p = Some e -> 0 <= ce_size e;
  co_good : forall id body, disk c !! path id = Some body -> good id body;
}.

(** Within budget, or over it by one entry only. *)
Definition budget_ok (c : PackCache) : Prop :=
  0 < maxBytes -> cur c <= maxBytes \/
    forall e1 e2, e1 ∈ registered c -> e2 ∈ registered c -> ce_size e1 <> 0 -> ce_size e2 <> 0 -> ce_id e1 = ce_id e2.

(** The entry a caller is filling. *)
Definition owns (k : pc) : option nat :=
  match k with Filling _ p | Renamed _ p _ | Closing _ p => Some p | _ => None end.

Definition mine (c : PackCache) (id : bytes) (p : nat) : Prop :=
  entries c !! id = Some p /\ exists e, heap c !! p = Some e /\ ce_size e = 0 /\ ce_ready e = false.

Definition caller_ok (c : PackCache) (id : bytes) (k : pc) : Prop :=
  match k with
  | Filling _ p => mine c id p /\ disk c !! path id = None
  | Renamed _ p z => mine c id p /\ 0 <= z /\ (forall b, disk c !! path id = Some b -> Z.of_nat (length b) = z)
  | Closing _ p => exists e, heap c !! p = Some e /\ ce_id e = id /\ ce_ready e = false
  | Awaiting _ p => exists e, heap c !! p = Some e /\ ce_id e = id
  | Forgetting _ p => exists e, heap c !! p = Some e /\ ce_id e = id /\ ce_ready e = true /\ (entries c !! id = Some p -> disk c !! path id = None)
  | Got body => good id body
  | _ => True
  end.

(** A file on disk is its registered entry's, or was just put there for it. *)
Definition accounted (s : Sys) (id body : bytes) : Prop :=
  exists p e, entries (cache s) !! id = Some p /\ heap (cache s) !! p = Some e /\
    (ce_size e = Z.of_nat (length body) \/ exists i t, callers s !! i = Some (id, Renamed t p (Z.of_nat (length body)))).

Record sys_ok (s : Sys) : Prop := {
  so_cache : cache_ok (cache s);
  so_callers : forall i id k, callers s !! i = Some (id, k) -> caller_ok (cache s) id k;
  so_owner : forall i j id k id' k' p, callers s !! i = Some (id, k) -> callers s !! j = Some (id', k') -> owns k = Some p -> owns k' = Some p -> i = j;
  so_files : forall id body, disk (cache s) !! path id = Some body -> accounted s id body;
}.

(** ** Changes to one entry *)

(** [f] leaves what is accounted alone, and a closed [ready] closed. *)
Definition tame (f : cacheEntry -> cacheEntry) : Prop :=
  forall e, ce_id (f e) = ce_id e /\ ce_size (f e) = ce_size e /\ (ce_ready e = true -> ce_ready (f e) = true).

Lemma set_entry_lookup p f c q : heap (set_entry p f c) !! q = if decide (q = p) then f <$> heap c !! p else heap c !! q.
Proof. cbn. destruct (decide (q = p)) as [->|Hne]; [by rewrite lookup_alter_eq|by rewrite lookup_alter_ne]. Qed.

Lemma set_entry_cache p f c : tame f -> cache_ok c -> cache_ok (set_entry p f c).
Proof.
  intros Hf [Hw Hfr Hs Hp Hg].
  assert (Hl : forall q e, heap (set_entry p f c) !! q = Some e -> exists e0, heap c !! q = Some e0 /\ ce_id e = ce_id e0 /\ ce_size e = ce_size e0).
  { intros q e. rewrite set_entry_lookup. destruct (decide (q = p)) as [->|]; [|eauto]. intros (e0 & He & ->)%fmap_Some. exists e0. split; [exact He|]. destruct (Hf e0) as (? & ? & _). done. }
  split; [| | | |exact Hg].
  - intros id q Hq. cbn in Hq. destruct (Hw _ _ Hq) as (e & He & Hid). rewrite set_entry_lookup. destruct (decide (q = p)) as [->|]; [|eauto].
    rewrite He. cbn. eexists. split; [done|]. by rewrite (proj1 (Hf e)).
  - intros q e (e0 & He & _)%Hl. by eapply Hfr.
  - cbn. rewrite Hs. apply msum_ext. intros id q _. unfold size_of. rewrite set_entry_lookup. destruct (decide (q = p)) as [->|]; [|done].
    destruct (heap c !! p) as [e|]; cbn; [|done]. by rewrite (proj1 (proj2 (Hf e))).
  - intros q e (e0 & He & _ & ->)%Hl. by eapply Hp.
Qed.

Lemma set_entry_caller p f c id k : tame f -> (owns k = Some p -> forall e, ce_ready (f e) = ce_ready e) ->
  caller_ok c id k -> caller_ok (set_entry p f c) id k.
Proof.
  intros Hf Ho Hk.
  assert (Hl : forall q e, heap c !! q = Some e -> exists e', heap (set_entry p f c) !! q = Some e' /\ ce_id e' = ce_id e /\ ce_size e' = ce_size e /\
    (ce_ready e = true -> ce_ready e' = true) /\ (owns k = Some q -> ce_ready e' = ce_ready e)).
  { intros q e He. rewrite set_entry_lookup. destruct (decide (q = p)) as [->|]; [|by exists e]. rewrite He. cbn. exists (f e).
    destruct (Hf e) as (? & ? & ?). by auto 6. }
  destruct k as [try|try q|try q z|try q|try q|try q|body|e]; cbn in *; try done.
  - destruct Hk as [[Hq (e & He & Hz & Hr)] Hd]. destruct (Hl q e He) as (e' & He' & _ & Hs & _ & Hrr). split; [|done]. split; [done|].
    exists e'. split; [done|]. rewrite Hs, Hrr; auto.
  - destruct Hk as ([Hq (e & He & Hz & Hr)] & Hd). destruct (Hl q e He) as (e' & He' & _ & Hs & _ & Hrr). split; [|done]. split; [done|].
    exists e'. split; [done|]. rewrite Hs, Hrr; auto.
  - destruct Hk as (e & He & Hid & Hr). destruct (Hl q e He) as (e' & He' & Hi & _ & _ & Hrr). exists e'. split; [done|]. rewrite Hi, Hrr; auto.
  - destruct Hk as (e & He & Hid). destruct (Hl q e He) as (e' & He' & Hi & _). exists e'. by rewrite Hi.
  - destruct Hk as (e & He & Hid & Hr & Hd). destruct (Hl q e He) as (e' & He' & Hi & _ & Hrr & _). exists e'. rewrite Hi. auto.
Qed.

(** ** A caller moves on *)

Lemma at_pc_ok i id0 k0 k1 c' s : sys_ok s -> callers s !! i = Some (id0, k0) -> cache_ok c' ->
  (forall j id k, j <> i -> callers s !! j = Some (id, k) -> caller_ok c' id k) -> caller_ok c' id0 k1 ->
  (forall p, owns k1 = Some p -> owns k0 = Some p \/ forall j id k, callers s !! j = Some (id, k) -> owns k <> Some p) ->
  (forall id b, disk c' !! path id = Some b -> accounted (at_pc i id0 k1 c' s) id b) -> sys_ok (at_pc i id0 k1 c' s).
Proof.
  intros [_ _ Ho _] Hi Hc Hj Hk1 Hown Hf. split; [exact Hc| | |exact Hf]; cbn.
  - intros j id k. destruct (decide (j = i)) as [->|Hne]; [rewrite lookup_insert_eq; by intros [= <- <-]|]. rewrite lookup_insert_ne by done. by apply Hj.
  - assert (Hx : forall j id k p, j <> i -> callers s !! j = Some (id, k) -> owns k = Some p -> owns k1 = Some p -> False).
    { intros j id k p Hne Hjk Hp Hp1. destruct (Hown p Hp1) as [Hp0|Hno]; [|by eapply Hno]. apply Hne. by eapply Ho. }
    intros a b ida ka idb kb p Ha Hb Hpa Hpb.
    destruct (decide (a = i)) as [->|Hna], (decide (b = i)) as [->|Hnb]; [done| | |];
      rewrite ?lookup_insert_eq in Ha; rewrite ?lookup_insert_eq in Hb; rewrite ?lookup_insert_ne in Ha by done; rewrite ?lookup_insert_ne in Hb by done.
    + injection Ha as <- <-. exfalso. by eapply (Hx b).
    + injection Hb as <- <-. exfalso. by eapply (Hx a).
    + by eapply Ho.
Qed.

(** [accounted] looks at the callers past the rename only. *)
Lemma accounted_at i id0 k0 k1 c' s id b p e :
  callers s !! i = Some (id0, k0) -> (forall t q z, k0 = Renamed t q z -> k1 = k0) ->
  entries c' !! id = Some p -> heap c' !! p = Some e ->
  (ce_size e = Z.of_nat (length b) \/ exists j t, callers s !! j = Some (id, Renamed t p (Z.of_nat (length b)))) ->
  accounted (at_pc i id0 k1 c' s) id b.
Proof.
  intros Hi Hk Hp He [Hs|(j & t & Hj)]; exists p, e; (split; [exact Hp|]); (split; [exact He|]); [by left|right]. exists j, t. cbn.
  destruct (decide (j = i)) as [->|Hne]; [|by rewrite lookup_insert_ne]. rewrite Hi in Hj. injection Hj as -> ->. rewrite lookup_insert_eq. by rewrite (Hk _ _ _ eq_refl).
Qed.

(** The disk is as it was, the registered entries are, and so are their sizes. *)
Lemma accounted_keep i id0 k0 k1 c' s : sys_ok s -> callers s !! i = Some (id0, k0) -> (forall t q z, k0 = Renamed t q z -> k1 = k0) ->
  (forall id p e, entries (cache s) !! id = Some p -> heap (cache s) !! p = Some e -> is_Some (disk (cache s) !! path id) ->
    entries c' !! id = Some p /\ exists e', heap c' !! p = Some e' /\ ce_size e' = ce_size e) ->
  (forall id, disk c' !! path id = disk (cache s) !! path id \/ disk c' !! path id = None) ->
  forall id b, disk c' !! path id = Some b -> accounted (at_pc i id0 k1 c' s) id b.
Proof.
  intros Hok Hi Hk Hkeep Hd id b Hb. destruct (Hd id) as [He|Hn]; [|by rewrite Hn in Hb]. rewrite He in Hb.
  destruct (so_files s Hok id b Hb) as (p & e & Hp & Hpe & Hacc). destruct (Hkeep id p e Hp Hpe ltac:(by eexists)) as (Hp' & e' & He' & Hs).
  eapply accounted_at; [exact Hi|exact Hk|exact Hp'|exact He'|]. by rewrite Hs.
Qed.

Lemma set_entry_keep p f c id q e : tame f -> entries c !! id = Some q -> heap c !! q = Some e ->
  entries (set_entry p f c) !! id = Some q /\ exists e', heap (set_entry p f c) !! q = Some e' /\ ce_size e' = ce_size e.
Proof.
  intros Hf Hq He. split; [done|]. rewrite set_entry_lookup. destruct (decide (q = p)) as [->|]; [|by exists e]. rewrite He. exists (f e). split; [done|]. apply Hf.
Qed.

Lemma set_entry_ok i id0 k0 k1 p f s : sys_ok s -> callers s !! i = Some (id0, k0) -> tame f ->
  (forall j id k, j <> i -> callers s !! j = Some (id, k) -> owns k = Some p -> forall e, ce_ready (f e) = ce_ready e) ->
  (forall t q z, k0 = Renamed t q z -> k1 = k0) -> (forall q, owns k1 = Some q -> owns k0 = Some q) ->
  caller_ok (set_entry p f (cache s)) id0 k1 -> sys_ok (at_pc i id0 k1 (set_entry p f (cache s)) s).
Proof.
  intros Hok Hi Hf Hr Hk Ho Hk1. apply (at_pc_ok i id0 k0); auto.
  - apply set_entry_cache; [done|apply Hok].
  - intros j id k Hne Hj. apply set_entry_caller; [done|by eapply Hr|by eapply so_callers].
  - apply (accounted_keep i id0 k0); auto. intros id q e Hq He _. by apply set_entry_keep.
Qed.

(** ** Entries leave *)

Lemma unregister_cache c v p b : cache_ok c -> entries c !! ce_id v = Some p -> heap c !! p = Some v -> cache_ok (unregister (ce_id v) (ce_size v) b c).
Proof.
  intros [Hw Hfr Hs Hp Hg] Hv Hpv. split; [by apply wf_unregister|exact Hfr| |exact Hp|].
  - cbn. rewrite Hs, (msum_delete _ _ _ _ Hv). unfold size_of at 1. rewrite Hpv. unfold size_of. cbn. lia.
  - intros id body. cbn. destruct b; [|by apply Hg]. intros [_ Hd]%lookup_delete_Some. by apply Hg.
Qed.

Lemma unregister_caller c id0 z b id k : caller_ok c id k -> (forall p, mine c id p -> owns k = Some p -> id <> id0) -> caller_ok (unregister id0 z b c) id k.
Proof.
  intros Hk Hne. assert (Hd : forall id', disk (unregister id0 z b c) !! path id' = disk c !! path id' \/ disk (unregister id0 z b c) !! path id' = None).
  { intros id'. cbn. destruct b; [|by left]. destruct (decide (id0 = id')) as [->|Hn]; [right; apply lookup_delete_eq|left]. rewrite lookup_delete_ne; [done|]. intros He. by apply path_inj in He. }
  destruct k as [try|try q|try q y|try q|try q|try q|body|e]; cbn [caller_ok] in *; try done.
  - destruct Hk as [Hm Hdk]. specialize (Hne q Hm eq_refl). split; [|destruct (Hd id) as [-> | ->]; done]. destruct Hm as [Hq He]. split; [cbn; by rewrite lookup_delete_ne|exact He].
  - destruct Hk as (Hm & Hz & Hb). specialize (Hne q Hm eq_refl). split; [destruct Hm as [Hq He]; split; [cbn; by rewrite lookup_delete_ne|exact He]|]. split; [done|].
    intros x Hx. destruct (Hd id) as [He|He]; rewrite He in Hx; [by apply Hb|done].
  - destruct Hk as (e & He & Hid & Hr & Hq). exists e. split; [done|]. split; [done|]. split; [done|]. intros Hqq. cbn in Hqq. apply lookup_delete_Some in Hqq as [_ Hqq].
    destruct (Hd id) as [-> | ->]; [by apply Hq|done].
Qed.

(** An entry whose file goes too, or has none, leaves; nobody is filling it. *)
Lemma unregister_ok s v p b : sys_ok s -> entries (cache s) !! ce_id v = Some p -> heap (cache s) !! p = Some v ->
  (forall i k, callers s !! i = Some (ce_id v, k) -> owns k = Some p -> exists t q, k = Closing t q) ->
  (b = true \/ disk (cache s) !! path (ce_id v) = None) ->
  sys_ok {| cache := unregister (ce_id v) (ce_size v) b (cache s); callers := callers s |}.
Proof.
  intros Hok Hv Hpv Hfree Hb. split; cbn [cache callers].
  - eapply unregister_cache; [apply Hok|done|done].
  - intros i id k Hi. pose proof (so_callers s Hok _ _ _ Hi) as Hk.
    assert (Hcl : (exists t q, k = Closing t q) -> caller_ok (unregister (ce_id v) (ce_size v) b (cache s)) id k) by (intros (t & q & ->); exact Hk).
    destruct (decide (id = ce_id v)) as [->|Hne]; [|by apply unregister_caller].
    destruct (owns k) as [q|] eqn:Eo; [|apply unregister_caller; [done|by rewrite Eo]].
    destruct (decide (q = p)) as [->|Hq]; [by apply Hcl, (Hfree i)|]. apply unregister_caller; [done|]. intros q' [Hq' _] Ho. rewrite Eo in Ho. injection Ho as <-. congruence.
  - apply Hok.
  - intros id body Hd. cbn in Hd. assert (Hne : id <> ce_id v /\ disk (cache s) !! path id = Some body).
    { destruct b; [apply lookup_delete_Some in Hd as [Hn Hd]; split; [by intros ->|done]|]. destruct Hb as [[=]|Hb]. split; [intros ->; congruence|done]. }
    destruct Hne as [Hne Hd']. destruct (so_files s Hok id body Hd') as (q & e & Hq & He & Hacc). exists q, e. cbn. split; [by rewrite lookup_delete_ne|done].
Qed.

Definition with_cache (c : PackCache) (s : Sys) : Sys := {| cache := c; callers := callers s |}.

(** Nobody is filling an entry that has a size. *)
Lemma sized_free s v p i k : sys_ok s -> heap (cache s) !! p = Some v -> ce_size v <> 0 ->
  callers s !! i = Some (ce_id v, k) -> owns k = Some p -> exists t q, k = Closing t q.
Proof.
  intros Hok Hp Hz Hi Ho. pose proof (so_callers s Hok _ _ _ Hi) as Hk. destruct k as [|t q|t q z|t q| | | |]; try done; cbn in Ho; injection Ho as ->.
  - destruct Hk as [[_ (e & He & Hz' & _)] _]. rewrite Hp in He. by injection He as <-.
  - destruct Hk as ([_ (e & He & Hz' & _)] & _). rewrite Hp in He. by injection He as <-.
  - by exists t, p.
Qed.

Lemma registered_at c e : wf c -> e ∈ registered c -> exists p, entries c !! ce_id e = Some p /\ heap c !! p = Some e.
Proof.
  intros Hw (id & p & Hp & He)%elem_of_registered. destruct (Hw _ _ Hp) as (e' & He' & <-). rewrite He in He'. injection He' as <-. by exists p.
Qed.

Lemma evict_sized_ok s v : sys_ok s -> v ∈ registered (cache s) -> ce_size v <> 0 -> sys_ok (with_cache (unregister (ce_id v) (ce_size v) true (cache s)) s).
Proof.
  intros Hok Hv Hz. destruct (registered_at _ _ (co_wf _ (so_cache s Hok)) Hv) as (p & Hp & He).
  eapply unregister_ok; [done|exact Hp|done| |by left]. intros i k Hi Ho. by eapply sized_free.
Qed.

Lemma evict_loop_ok fuel keep n s : sys_ok s -> sys_ok (with_cache (snd (evict_loop fuel keep n (cache s))) s).
Proof.
  revert n s. induction fuel as [|fuel IH]; intros n s Hok; cbn [PackCache.evict_loop]; [by destruct s|].
  destruct (_ >? _); [|by destruct s]. pose proof (victim_spec keep (cache s)) as Hv. destruct (victim keep (cache s)) as [v|]; [|by destruct s].
  destruct Hv as (Hin & Hev & _). unfold evictable in Hev. apply negb_true_iff, orb_false_iff in Hev as [_ Hz]. b2p.
  exact (IH (S n) _ (evict_sized_ok s v Hok Hin Hz)).
Qed.

Lemma evictLocked_ok keep s : sys_ok s -> sys_ok (with_cache (snd (evictLocked keep (cache s))) s).
Proof. intros Hok. unfold PackCache.evictLocked. destruct (_ <=? _); [by destruct s|by apply evict_loop_ok]. Qed.

Lemma registered_ids c : wf c -> ce_id <$> registered c = fst <$> map_to_list (entries c).
Proof.
  intros Hw. unfold registered. assert (Hl : Forall (fun kv => exists e, heap c !! kv.2 = Some e /\ ce_id e = kv.1) (map_to_list (entries c))).
  { apply Forall_forall. intros [id p] Hin%elem_of_map_to_list. by apply Hw. }
  induction Hl as [|[id p] l (e & He & Hid) _ IH]; cbn in *; [done|]. rewrite He. cbn. by rewrite Hid, IH.
Qed.

Definition idle_fold (cutoff : Z) := fold_left (idle_one dir suffix cutoff).

Lemma idle_fold_ok cutoff l n s : NoDup (ce_id <$> l) -> Forall (fun e => e ∈ registered (cache s)) l -> sys_ok s ->
  sys_ok (with_cache (snd (idle_fold cutoff l (n, cache s))) s) /\ cur (snd (idle_fold cutoff l (n, cache s))) <= cur (cache s) /\
  (forall e, e ∈ registered (snd (idle_fold cutoff l (n, cache s))) -> e ∈ registered (cache s)).
Proof.
  revert n s. induction l as [|v l IH]; intros n s Hnd Hin Hok; [by destruct s|]. cbn in Hnd. apply NoDup_cons in Hnd as [Hv Hnd]. apply Forall_cons in Hin as [Hvr Hin].
  unfold idle_fold. cbn [fold_left]. unfold idle_one at 2 4 6. destruct ((ce_size v =? 0) || negb (ce_usedAt v <? cutoff)) eqn:Eo; [by apply IH|].
  apply orb_false_iff in Eo as [Ez _]. b2p. cbn [fst snd]. pose proof (co_wf _ (so_cache s Hok)) as Hw.
  destruct (IH (S n) (with_cache (unregister (ce_id v) (ce_size v) true (cache s)) s) Hnd) as (H1 & H2 & H3).
  { rewrite Forall_forall in Hin |- *. intros e He. cbn. apply registered_unregister; [done|]. split; [by apply Hin|]. intros Heq. apply Hv. rewrite <-Heq. by apply list_elem_of_fmap_2. }
  { by apply evict_sized_ok. }
  split; [exact H1|]. cbn in H2, H3. split.
  - destruct (registered_at _ _ Hw Hvr) as (p & _ & Hp). pose proof (co_pos _ (so_cache s Hok) _ _ Hp). unfold idle_fold in H2. lia.
  - intros e He. apply H3 in He. by apply registered_unregister in He as [? _].
Qed.

Lemma EvictIdle_ok maxIdle now s : sys_ok s ->
  sys_ok (with_cache (snd (EvictIdle dir suffix maxIdle now (cache s))) s) /\ cur (snd (EvictIdle dir suffix maxIdle now (cache s))) <= cur (cache s) /\
  (forall e, e ∈ registered (snd (EvictIdle dir suffix maxIdle now (cache s))) -> e ∈ registered (cache s)).
Proof.
  intros Hok. apply idle_fold_ok; [|by apply Forall_forall|done].
  rewrite registered_ids by apply (so_cache s Hok). apply NoDup_fst_map_to_list.
Qed.

(** ** Entries come, and files *)

Lemma claim_new_cache id now p c c' : cache_ok c -> claim id now c = ((p, true), c') ->
  cache_ok c' /\ p = fresh c /\ entries c !! id = None /\ mine c' id p /\ disk c' = disk c /\ cur c' = cur c /\
  (forall q e, heap c !! q = Some e -> heap c' !! q = Some e) /\ (forall k, k <> id -> entries c' !! k = entries c !! k) /\
  (exists e0, ce_size e0 = 0 /\ forall e, e ∈ registered c' -> e ∈ registered c \/ e = e0).
Proof.
  intros [Hw Hfr Hs Hp Hg]. unfold claim. destruct (entries c !! id) as [q|] eqn:Eid; [done|]. intros [= <- <-].
  set (e0 := {| ce_id := id |}). assert (Hno : heap c !! fresh c = None).
  { destruct (heap c !! fresh c) as [e|] eqn:E; [|done]. apply Hfr in E. lia. }
  assert (Hheap : forall q e, heap c !! q = Some e -> <[fresh c := e0]> (heap c) !! q = Some e).
  { intros q e He. rewrite lookup_insert_ne; [done|]. intros <-. by rewrite Hno in He. }
  split; [split; cbn|].
  - intros k q Hq. cbn in *. destruct (decide (k = id)) as [->|Hne].
    + rewrite lookup_insert_eq in Hq. injection Hq as <-. exists e0. by rewrite lookup_insert_eq.
    + rewrite lookup_insert_ne in Hq by done. destruct (Hw _ _ Hq) as (e & He & Hid). exists e. split; [by apply Hheap|done].
  - intros q e [[<- <-]|[_ He]]%lookup_insert_Some; [lia|]. apply Hfr in He. lia.
  - rewrite msum_insert by done. unfold size_of at 1. cbn. rewrite lookup_insert_eq. cbn. rewrite Hs.
    assert (He : msum (size_of c) (entries c) = msum (size_of {| entries := <[id := fresh c]> (entries c); heap := <[fresh c := e0]> (heap c); fresh := S (fresh c);
      cur := cur c; seq := u64 (seq c + 1); disk := disk c |}) (entries c)).
    { apply msum_ext. intros k q Hq. destruct (Hw _ _ Hq) as (e & He & _). unfold size_of. cbn. by rewrite He, (Hheap _ _ He). }
    rewrite Z.add_0_l. exact He.
  - intros q e [[<- <-]|[_ He]]%lookup_insert_Some; [cbn; lia|]. by eapply Hp.
  - exact Hg.
  - split; [done|]. split; [done|]. split; [split; cbn; [by rewrite lookup_insert_eq|exists e0; by rewrite lookup_insert_eq]|].
    split; [done|]. split; [done|]. split; [exact Hheap|]. split; [intros k Hne; cbn; by rewrite lookup_insert_ne|].
    exists e0. split; [done|]. intros e (k & q & Hq & He)%elem_of_registered. cbn in *. apply lookup_insert_Some in He as [[_ ->]|[Hne He]]; [by right|left].
    apply elem_of_registered. exists k, q. split; [|done]. apply lookup_insert_Some in Hq as [[_ <-]|[_ Hq]]; done.
Qed.

Lemma mine_unowned s id p e : sys_ok s -> heap (cache s) !! p = Some e -> ce_ready e = false -> entries (cache s) !! id = Some p ->
  ce_id e = id.
Proof. intros Hok He _ Hp. destruct (co_wf _ (so_cache s Hok) _ _ Hp) as (e' & He' & <-). congruence. Qed.

Lemma rename_ok i id t p body size w s : sys_ok s -> callers s !! i = Some (id, Filling t p) -> wanted id w -> verifiedCopy digest body (Ok w) = Ok size ->
  sys_ok (at_pc i id (Renamed t p size) (rename dir suffix id body (cache s)) s).
Proof.
  intros Hok Hi Hwant Hv. unfold verifiedCopy in Hv. cbn in Hv. destruct (bool_decide (digest body = w)) eqn:Ed; [|done]. b2p. injection Hv as <-.
  pose proof (so_callers s Hok _ _ _ Hi) as [Hm Hnone]. destruct Hm as [Hp (e & He & Hz & Hr)].
  assert (Hd : forall id', disk (rename dir suffix id body (cache s)) !! path id' = if decide (id' = id) then Some body else disk (cache s) !! path id').
  { intros id'. cbn. destruct (decide (id' = id)) as [->|Hne]; [by rewrite lookup_insert_eq|]. rewrite lookup_insert_ne; [done|]. intros Hpe. by apply path_inj in Hpe. }
  apply (at_pc_ok i id (Filling t p)); [done|done| | | | |].
  - destruct (so_cache s Hok) as [Hw Hfr Hs Hpo Hg]. split; [exact Hw|exact Hfr|exact Hs|exact Hpo|]. intros id' b'. rewrite Hd.
    destruct (decide (id' = id)) as [->|]; [|apply Hg]. intros [= <-]. by exists w.
  - intros j id' k Hne Hj. pose proof (so_callers s Hok _ _ _ Hj) as Hk.
    assert (Hsame : forall q, owns k = Some q -> entries (cache s) !! id' = Some q -> id' <> id).
    { intros q Ho Hq ->. rewrite Hp in Hq. injection Hq as <-. apply Hne. by eapply (so_owner s Hok). }
    destruct k as [try|try q|try q y|try q|try q|try q|b|er]; cbn [caller_ok] in *; try done; rewrite Hd.
    + destruct Hk as [[Hq Hm] Hdk]. rewrite decide_False by by eapply Hsame. done.
    + destruct Hk as ([Hq Hm] & Hzz). rewrite decide_False by by eapply Hsame. done.
    + destruct Hk as (e' & He' & Hid & Hr' & Hq). exists e'. split; [done|]. split; [done|]. split; [done|]. intros Hqq.
      destruct (decide (id' = id)) as [->|]; [|by apply Hq]. cbn in Hqq. rewrite Hp in Hqq. injection Hqq as <-. rewrite He in He'. injection He' as <-. congruence.
  - split; [split; [exact Hp|by exists e]|]. split; [lia|]. intros b. rewrite Hd, decide_True by done. by intros [= ->].
  - intros q Hq. by left.
  - intros id' b Hb. rewrite Hd in Hb. destruct (decide (id' = id)) as [->|Hne].
    + injection Hb as <-. exists p, e. split; [done|]. split; [done|]. right. exists i, t. cbn. by rewrite lookup_insert_eq.
    + destruct (so_files s Hok id' b Hb) as (q & e' & Hq & He' & Hacc). eapply accounted_at; [exact Hi|done|exact Hq|exact He'|exact Hacc].
Qed.

Lemma claim_new_ok i id t now p c' s : sys_ok s -> callers s !! i = Some (id, Claiming t) -> claim id now (cache s) = ((p, true), c') ->
  sys_ok (at_pc i id (Filling t p) c' s).
Proof.
  intros Hok Hi Hc. destruct (claim_new_cache id now p (cache s) c' (so_cache s Hok) Hc) as (Hc' & -> & Hno & Hm & Hd & _ & Hheap & Hent & _).
  assert (Hnew : forall id' q, entries (cache s) !! id' = Some q -> id' <> id) by (intros id' q Hq ->; congruence).
  assert (Hlt : forall q e, heap (cache s) !! q = Some e -> q <> fresh (cache s)) by (intros q e He%(co_fresh _ (so_cache s Hok)) ->; lia).
  apply (at_pc_ok i id (Claiming t)); [done|done|done| | | |].
  - intros j id' k _ Hj. pose proof (so_callers s Hok _ _ _ Hj) as Hk.
    destruct k as [try|try q|try q y|try q|try q|try q|b|er]; cbn [caller_ok] in *; try done; rewrite ?Hd.
    + destruct Hk as [[Hq (e & He & Hx)] Hdk]. split; [|done]. split; [by rewrite Hent by by eapply Hnew|]. exists e. split; [by apply Hheap|done].
    + destruct Hk as ([Hq (e & He & Hx)] & Hrest). split; [|done]. split; [by rewrite Hent by by eapply Hnew|]. exists e. split; [by apply Hheap|done].
    + destruct Hk as (e & He & Hx). exists e. split; [by apply Hheap|done].
    + destruct Hk as (e & He & Hx). exists e. split; [by apply Hheap|done].
    + destruct Hk as (e & He & Hid & Hr & Hq). exists e. split; [by apply Hheap|]. split; [done|]. split; [done|]. intros Hqq.
      destruct (decide (id' = id)) as [->|Hne]; [|rewrite Hent in Hqq by done; by apply Hq].
      destruct Hm as [Hm _]. rewrite Hm in Hqq. injection Hqq as <-. by destruct (Hlt _ _ He).
  - cbn [caller_ok]. split; [exact Hm|]. rewrite Hd. destruct (disk (cache s) !! path id) as [b|] eqn:Eb; [|done].
    destruct (so_files s Hok id b Eb) as (q & e & Hq & _). by rewrite Hno in Hq.
  - intros q [= <-]. right. intros j id' k Hj Ho. pose proof (so_callers s Hok _ _ _ Hj) as Hk.
    destruct k as [|t' q|t' q z|t' q| | | |]; try done; cbn in Ho; injection Ho as ->; cbn in Hk; [destruct Hk as [[_ (e & He & _)] _]|destruct Hk as ([_ (e & He & _)] & _)|destruct Hk as (e & He & _)]; by destruct (Hlt _ _ He).
  - apply (accounted_keep i id (Claiming t)); auto; [done| |intros id'; left; by rewrite Hd].
    intros id' q e Hq He _. split; [by rewrite Hent by by eapply Hnew|]. exists e. split; [by apply Hheap|done].
Qed.

Lemma claim_again_ok i id t now p c' s : sys_ok s -> callers s !! i = Some (id, Claiming t) -> claim id now (cache s) = ((p, false), c') ->
  sys_ok (at_pc i id (Awaiting t p) c' s) /\ cur c' = cur (cache s) /\
  (forall e, e ∈ registered c' -> exists e0, e0 ∈ registered (cache s) /\ ce_id e0 = ce_id e /\ ce_size e0 = ce_size e).
Proof.
  intros Hok Hi. unfold claim. destruct (entries (cache s) !! id) as [q|] eqn:Eid; [|done]. intros [= <- <-].
  set (f := fun e => {| ce_id := ce_id e |}). assert (Hf : tame f) by done.
  destruct (co_wf _ (so_cache s Hok) _ _ Eid) as (e & He & Hid).
  assert (Hs : sys_ok (at_pc i id (Awaiting t q) (set_entry q f (cache s)) s)).
  { apply (set_entry_ok i id (Claiming t)); try done. cbn [caller_ok]. exists (f e). rewrite set_entry_lookup, decide_True, He by done. done. }
  split; [|split; [done|]].
  - destruct Hs as [[H1 H2 H3 H4 H5] H6 H7 H8]. split; [split; [exact H1|exact H2|exact H3|exact H4|exact H5]|exact H6|exact H7|exact H8].
  - intros x (k & q' & Hq' & Hx)%elem_of_registered. cbn in Hq', Hx. destruct (decide (q' = q)) as [->|Hne].
    + rewrite lookup_alter_eq in Hx. apply fmap_Some in Hx as (x0 & Hx0 & ->). exists x0. split; [|done]. apply elem_of_registered. by exists k, q.
    + rewrite lookup_alter_ne in Hx by done. exists x. split; [|done]. apply elem_of_registered. by exists k, q'.
Qed.

Definition set_size (z : Z) (e : cacheEntry) : cacheEntry :=
  {| ce_id := ce_id e; ce_size := z; ce_used := ce_used e; ce_usedAt := ce_usedAt e; ce_ready := ce_ready e; ce_err := ce_err e |}.
Definition charged (p : nat) (z : Z) (c : PackCache) : PackCache :=
  {| entries := entries c; heap := alter (set_size z) p (heap c); fresh := fresh c; cur := cur c + z; seq := seq c; disk := disk c |}.

Lemma settle_eq p id z c : settle dir suffix maxBytes p id z c = evictLocked id (charged p z c).
Proof. done. Qed.

Lemma charged_lookup p z c q : heap (charged p z c) !! q = if decide (q = p) then set_size z <$> heap c !! p else heap c !! q.
Proof. cbn. destruct (decide (q = p)) as [->|Hne]; [by rewrite lookup_alter_eq|by rewrite lookup_alter_ne]. Qed.

Lemma charged_ok i id t p z s : sys_ok s -> callers s !! i = Some (id, Renamed t p z) ->
  sys_ok (at_pc i id (Closing t p) (charged p z (cache s)) s).
Proof.
  intros Hok Hi. pose proof (so_callers s Hok _ _ _ Hi) as ([Hp (e & He & Hz & Hr)] & Hz0 & Hlen).
  destruct (co_wf _ (so_cache s Hok) _ _ Hp) as (e' & He' & Hid). rewrite He in He'. injection He' as <-.
  assert (Hother : forall id' q, entries (cache s) !! id' = Some q -> id' <> id -> q <> p).
  { intros id' q Hq Hne ->. destruct (co_wf _ (so_cache s Hok) _ _ Hq) as (x & Hx & Hxi). rewrite He in Hx. injection Hx as <-. congruence. }
  destruct (so_cache s Hok) as [Hw Hfr Hs Hpo Hg]. apply (at_pc_ok i id (Renamed t p z)); [done|done| | | | |].
  - split; [| | | |exact Hg].
    + intros id' q Hq. destruct (Hw _ _ Hq) as (x & Hx & Hxi). rewrite charged_lookup. destruct (decide (q = p)) as [->|]; [|eauto]. rewrite Hx. cbn. by eexists.
    + intros q x. rewrite charged_lookup. destruct (decide (q = p)) as [->|]; [|apply Hfr]. intros (x0 & Hx0 & ->)%fmap_Some. by eapply Hfr.
    + change (cur (charged p z (cache s))) with (cur (cache s) + z). change (entries (charged p z (cache s))) with (entries (cache s)).
      rewrite Hs, !(msum_delete _ _ _ _ Hp). unfold size_of at 1 3. rewrite charged_lookup, decide_True, He by done. cbn. rewrite Hz.
      assert (Hm : msum (size_of (cache s)) (delete id (entries (cache s))) = msum (size_of (charged p z (cache s))) (delete id (entries (cache s)))).
      { apply msum_ext. intros id' q [Hne Hq]%lookup_delete_Some. unfold size_of. rewrite charged_lookup, decide_False; [done|]. apply (Hother id'); [done|by intros ->]. }
      rewrite Hm. lia.
    + intros q x. rewrite charged_lookup. destruct (decide (q = p)) as [->|]; [|apply Hpo]. intros (x0 & Hx0 & ->)%fmap_Some. exact Hz0.
  - intros j id' k Hne Hj. pose proof (so_callers s Hok _ _ _ Hj) as Hk.
    assert (Hnp : forall q, owns k = Some q -> q <> p) by (intros q Ho ->; apply Hne; by eapply (so_owner s Hok)).
    assert (Hl : forall q x, heap (cache s) !! q = Some x -> exists x', heap (charged p z (cache s)) !! q = Some x' /\ ce_id x' = ce_id x /\ ce_ready x' = ce_ready x /\ (q <> p -> x' = x)).
    { intros q x Hx. rewrite charged_lookup. destruct (decide (q = p)) as [->|]; [|by exists x]. rewrite Hx. by exists (set_size z x). }
    destruct k as [try|try q|try q y|try q|try q|try q|b|er]; cbn [caller_ok owns] in *; try done.
    + destruct Hk as [[Hq (x & Hx & Hrest)] Hdk]. destruct (Hl _ _ Hx) as (x' & Hx' & _ & _ & He2). split; [|done]. split; [done|]. exists x'. rewrite He2 by by apply Hnp. rewrite He2 in Hx' by by apply Hnp. done.
    + destruct Hk as ([Hq (x & Hx & Hrest)] & Hdk). destruct (Hl _ _ Hx) as (x' & Hx' & _ & _ & He2). split; [|done]. split; [done|]. exists x'. rewrite He2 by by apply Hnp. rewrite He2 in Hx' by by apply Hnp. done.
    + destruct Hk as (x & Hx & Hxi & Hxr). destruct (Hl _ _ Hx) as (x' & Hx' & Hi' & Hr' & _). exists x'. by rewrite Hi', Hr'.
    + destruct Hk as (x & Hx & Hxi). destruct (Hl _ _ Hx) as (x' & Hx' & Hi' & _). exists x'. by rewrite Hi'.
    + destruct Hk as (x & Hx & Hxi & Hxr & Hq). destruct (Hl _ _ Hx) as (x' & Hx' & Hi' & Hr' & _). exists x'. by rewrite Hi', Hr'.
  - cbn [caller_ok]. exists (set_size z e). rewrite charged_lookup, decide_True, He by done. done.
  - intros q Hq. by left.
  - intros id' b Hb. cbn in Hb. destruct (so_files s Hok id' b Hb) as (q & x & Hq & Hx & Hacc). destruct (decide (id' = id)) as [->|Hne].
    + exists p, (set_size z e). split; [done|]. cbn [cache at_pc]. rewrite charged_lookup, decide_True, He by done. split; [done|]. left. cbn. symmetry. by apply Hlen.
    + pose proof (Hother _ _ Hq Hne) as Hnp. exists q, x. split; [done|]. cbn [cache at_pc]. rewrite charged_lookup, decide_False by done. split; [done|].
      destruct Hacc as [Hsz|(j & t' & Hj)]; [by left|right]. exists j, t'. cbn. rewrite lookup_insert_ne; [done|]. intros <-. rewrite Hi in Hj. by injection Hj.
Qed.

(** ** Every step *)

Lemma forget_ok s p e : sys_ok s -> heap (cache s) !! p = Some e ->
  (entries (cache s) !! ce_id e = Some p -> disk (cache s) !! path (ce_id e) = None /\
    forall i k, callers s !! i = Some (ce_id e, k) -> owns k = Some p -> exists t q, k = Closing t q) ->
  sys_ok (with_cache (forget dir suffix p (cache s)) s) /\ cur (forget dir suffix p (cache s)) <= cur (cache s) /\
  (forall x, x ∈ registered (forget dir suffix p (cache s)) -> x ∈ registered (cache s)).
Proof.
  intros Hok He Hreg. unfold forget. rewrite He. destruct (bool_decide _) eqn:Ed; b2p; [|by destruct s].
  destruct (Hreg Ed) as [Hd Hfree]. split; [eapply unregister_ok; eauto|]. split.
  - cbn. pose proof (co_pos _ (so_cache s Hok) _ _ He). lia.
  - intros x Hx. by apply registered_unregister in Hx as [? _]; [|apply (so_cache s Hok)].
Qed.

Lemma budget_mono c c' : cur c' <= cur c ->
  (forall e, e ∈ registered c' -> ce_size e <> 0 -> exists e0, e0 ∈ registered c /\ ce_id e0 = ce_id e /\ ce_size e0 = ce_size e) ->
  budget_ok c -> budget_ok c'.
Proof.
  intros Hle Hreg Hb Hm. destruct (Hb Hm) as [Hc|Ho]; [left; lia|right]. intros e1 e2 H1 H2 Hz1 Hz2.
  destruct (Hreg _ H1 Hz1) as (x1 & Hx1 & <- & Hs1), (Hreg _ H2 Hz2) as (x2 & Hx2 & <- & Hs2). apply Ho; congruence.
Qed.

Lemma registered_set_entry p f c e : (forall e, ce_id (f e) = ce_id e /\ ce_size (f e) = ce_size e) -> e ∈ registered (set_entry p f c) ->
  exists e0, e0 ∈ registered c /\ ce_id e0 = ce_id e /\ ce_size e0 = ce_size e.
Proof.
  intros Hf (k & q & Hq & Hx)%elem_of_registered. rewrite set_entry_lookup in Hx. destruct (decide (q = p)) as [->|Hne].
  - apply fmap_Some in Hx as (x0 & Hx0 & ->). exists x0. destruct (Hf x0) as [? ?]. split; [|done]. apply elem_of_registered. by exists k, p.
  - exists e. split; [|done]. apply elem_of_registered. by exists k, q.
Qed.

Definition inv (s : Sys) : Prop := sys_ok s /\ budget_ok (cache s).

Lemma fill_failed_inv i id t p err s : inv s -> callers s !! i = Some (id, Filling t p) ->
  inv (at_pc i id (Closing t p) (fill_failed dir suffix p err (cache s)) s).
Proof.
  intros [Hok Hb] Hi. pose proof (so_callers s Hok _ _ _ Hi) as [[Hp (e & He & Hz & Hr)] Hd].
  set (f := fun e => {| ce_id := ce_id e; ce_size := ce_size e; ce_used := ce_used e; ce_usedAt := ce_usedAt e; ce_ready := ce_ready e; ce_err := Some err |}).
  destruct (co_wf _ (so_cache s Hok) _ _ Hp) as (e' & He' & Hid). rewrite He in He'. injection He' as <-.
  assert (Hl : heap (set_entry p f (cache s)) !! p = Some (f e)) by (by rewrite set_entry_lookup, decide_True, He).
  assert (Hok1 : sys_ok (at_pc i id (Closing t p) (set_entry p f (cache s)) s)).
  { apply (set_entry_ok i id (Filling t p)); try done. cbn [caller_ok]. by exists (f e). }
  destruct (forget_ok _ p (f e) Hok1 Hl) as (Hok2 & Hc2 & Hr2).
  { cbn. rewrite Hid. intros _. split; [exact Hd|]. intros j k Hj Ho. destruct (decide (j = i)) as [->|Hne].
    - rewrite lookup_insert_eq in Hj. injection Hj as <-. by exists t, p.
    - rewrite lookup_insert_ne in Hj by done. exfalso. apply Hne. by eapply (so_owner s Hok _ _ _ _ _ _ p Hj Hi). }
  split; [exact Hok2|]. eapply (budget_mono (cache s)); [exact Hc2| |exact Hb]. intros x Hx _. apply Hr2 in Hx. by eapply (registered_set_entry p f).
Qed.

Lemma settle_inv i id t p z s : inv s -> callers s !! i = Some (id, Renamed t p z) ->
  inv (at_pc i id (Closing t p) (snd (settle dir suffix maxBytes p id z (cache s))) s).
Proof.
  intros [Hok Hb] Hi. rewrite settle_eq. pose proof (charged_ok i id t p z s Hok Hi) as Hok1.
  pose proof (evictLocked_ok id _ Hok1) as Hok2. split; [exact Hok2|].
  destruct (evictLocked id (charged p z (cache s))) as [n c'] eqn:E. apply evictLocked_spec in E as (vs & _ & _ & Hend); [|apply (so_cache _ Hok1)].
  intros Hm. destruct (Hend Hm) as [Hc|Hno]; [by left|right]. cbn. intros e1 e2 H1 H2 Hz1 Hz2. apply Hno in H1, H2. unfold evictable in *.
  apply negb_false_iff, orb_true_iff in H1 as [H1|H1]; b2p; [|done]. apply orb_true_iff in H2 as [H2|H2]; b2p; [|done]. congruence.
Qed.

(** A caller moves on over an unchanged cache. *)
Lemma pc_inv i id k0 k1 s : inv s -> callers s !! i = Some (id, k0) -> (forall t q z, k0 = Renamed t q z -> k1 = k0) ->
  owns k1 = None -> caller_ok (cache s) id k1 -> inv (at_pc i id k1 (cache s) s).
Proof.
  intros [Hok Hb] Hi Hk Ho Hk1. split; [|exact Hb]. apply (at_pc_ok i id k0); auto.
  - apply Hok.
  - intros j id' k _ Hj. by eapply so_callers.
  - intros p. by rewrite Ho.
  - apply (accounted_keep i id k0); eauto.
Qed.

Lemma call_inv i id s : inv s -> callers s !! i = None -> inv (at_pc i id (Claiming 0) (cache s) s).
Proof.
  intros [[Hc Hk Ho Hf] Hb] Hi. split; [|exact Hb]. split; cbn; [exact Hc| | |].
  - intros j id' k. destruct (decide (j = i)) as [->|Hne]; [rewrite lookup_insert_eq; by intros [= <- <-]|]. rewrite lookup_insert_ne by done. apply Hk.
  - intros a b ida ka idb kb p [[_ [= _ <-]]|[_ Ha]]%lookup_insert_Some; [done|]. intros [[_ [= _ <-]]|[_ Hbb]]%lookup_insert_Some; [done|]. by eapply Ho.
  - intros id' b Hb'. destruct (Hf id' b Hb') as (p & e & Hp & He & Hacc). exists p, e. split; [done|]. split; [done|].
    destruct Hacc as [?|(j & t & Hj)]; [by left|right]. exists j, t. cbn. rewrite lookup_insert_ne; [done|]. intros <-. by rewrite Hi in Hj.
Qed.

Lemma lost_inv id s : inv s ->
  inv {| cache := {| entries := entries (cache s); heap := heap (cache s); fresh := fresh (cache s); cur := cur (cache s); seq := seq (cache s);
                     disk := delete (path id) (disk (cache s)) |}; callers := callers s |}.
Proof.
  intros [[Hc Hk Ho Hf] Hb]. split; [|exact Hb].
  assert (Hd : forall id' b, delete (path id) (disk (cache s)) !! path id' = Some b -> disk (cache s) !! path id' = Some b) by (by intros id' b [_ ?]%lookup_delete_Some).
  assert (Hn : forall id', disk (cache s) !! path id' = None -> delete (path id) (disk (cache s)) !! path id' = None) by (intros; apply lookup_delete_None; by right).
  split; cbn; [|intros i id' k Hi; pose proof (Hk _ _ _ Hi) as Hx|exact Ho|intros id' b Hb'; by apply Hf, Hd].
  - destruct Hc as [H1 H2 H3 H4 H5]. split; [exact H1|exact H2|exact H3|exact H4|]. intros id' b Hb'. by apply H5, Hd.
  - destruct k; cbn in *; try done.
    + destruct Hx as [Hm Hx]. split; [exact Hm|by apply Hn].
    + destruct Hx as (Hm & Hz & Hx). split; [exact Hm|]. split; [done|]. intros b Hb'. by apply Hx, Hd.
    + destruct Hx as (e & He & Hid & Hr & Hx). exists e. split; [done|]. split; [done|]. split; [done|]. intros Hq. by apply Hn, Hx.
Qed.

Lemma step_inv s s' : inv s -> step dir suffix maxBytes digest wanted s s' -> inv s'.
Proof.
  intros Hinv Hst. pose proof Hinv as [Hok Hb]. destruct Hst as
    [i id Hi|i id try now p mn c Hi Ht Hc|i id try Hi Ht|i id try p body want sz Hi Hw Hv|i id try p err Hi|i id try p sz Hi|i id try p Hi
    |i id try p e err Hi He Hr Hx|i id try p e body Hi He Hr Hx Hd|i id try p e Hi He Hr Hx Hd|i id try p e err Hi He Hr Hx|i id try p Hi|mi now|id].
  - by apply call_inv.
  - destruct mn; [split; [by eapply claim_new_ok|]|].
    + destruct (claim_new_cache _ _ _ _ _ (so_cache s Hok) Hc) as (_ & _ & _ & _ & _ & Hcur & _ & _ & e0 & Hz & Hreg).
      eapply (budget_mono (cache s)); [cbn; lia| |exact Hb]. intros e He Hze. destruct (Hreg e He) as [Hin| ->]; [by exists e|done].
    + destruct (claim_again_ok _ _ _ _ _ _ _ Hok Hi Hc) as (Hok' & Hcur & Hreg). split; [exact Hok'|]. eapply (budget_mono (cache s)); [cbn; lia| |exact Hb]. intros e He _. by apply Hreg.
  - by eapply pc_inv.
  - split; [by eapply rename_ok|exact Hb].
  - by apply fill_failed_inv.
  - by apply settle_inv.
  - pose proof (so_callers s Hok _ _ _ Hi) as (e & He & Hid & Hr). split.
    + apply (set_entry_ok i id (Closing try p)); try done.
      * intros j id' k Hne Hj Ho. destruct Hne. by eapply (so_owner s Hok _ _ _ _ _ _ p Hj Hi).
      * cbn [caller_ok]. eexists. rewrite set_entry_lookup, decide_True, He by done. done.
    + eapply (budget_mono (cache s)); [| |exact Hb]; [done|]. intros x Hx _. by eapply registered_set_entry in Hx.
  - by eapply pc_inv.
  - eapply pc_inv; try done. cbn. pose proof (so_callers s Hok _ _ _ Hi) as (e' & He' & Hid). rewrite He in He'. injection He' as <-. rewrite Hid in Hd.
    by eapply (co_good _ (so_cache s Hok)).
  - eapply pc_inv; try done. cbn. pose proof (so_callers s Hok _ _ _ Hi) as (e' & He' & Hid). rewrite He in He'. injection He' as <-. rewrite Hid in Hd. by exists e.
  - by eapply pc_inv.
  - pose proof (so_callers s Hok _ _ _ Hi) as (e & He & Hid & Hr & Hq).
    assert (Hinv1 : inv (at_pc i id (Claiming (S try)) (cache s) s)) by by eapply pc_inv.
    destruct (forget_ok _ p e (proj1 Hinv1) He) as (Hok2 & Hc2 & Hr2).
    { cbn. rewrite Hid. intros Hreg. split; [by apply Hq|]. intros j k Hj Ho. pose proof (so_callers _ (proj1 Hinv1) _ _ _ Hj) as Hk. cbn in Hk.
      destruct k as [|t q|t q z|t q| | | |]; try done; cbn in Ho; injection Ho as ->; cbn in Hk; [destruct Hk as [[_ (x & Hx & _ & Hxr)] _]|destruct Hk as ([_ (x & Hx & _ & Hxr)] & _)|by exists t, p];
        rewrite He in Hx; injection Hx as <-; congruence. }
    split; [exact Hok2|]. eapply (budget_mono (cache s)); [exact Hc2| |exact Hb]. intros x Hx _. exists x. split; [by apply Hr2|done].
  - destruct (EvictIdle_ok mi now s Hok) as (Hok' & Hc & Hr). split; [exact Hok'|]. eapply (budget_mono (cache s)); [exact Hc| |exact Hb]. intros x Hx _. exists x. split; [by apply Hr|done].
  - by apply lost_inv.
Qed.

Lemma reachable_inv s : reachable dir suffix maxBytes digest wanted s -> inv s.
Proof.
  intros Hr. unfold reachable in Hr. apply (rtc_ind_r inv start) with (3 := Hr); [|intros x y _ Hxy Hx; by eapply step_inv].
  split; [split|intros Hm; left; cbn; lia]; cbn; try done.
Qed.
End spec.

(** ** Properties *)

(** C23: whoever gets a file from the cache gets the bytes it may expect: their
    digest is one a fetch for that id reports; for packs, whose id is their
    digest, the digest is the id. No interleaving of downloads, failures,
    evictions, retries and lost files can hand out anything else. *)
Theorem cached_bytes_are_genuine (dir suffix : bytes) (maxBytes : Z) (digest : bytes -> bytes) (wanted : bytes -> bytes -> Prop)
    (s : Sys) (i : nat) (id body : bytes) :
  reachable dir suffix maxBytes digest wanted s -> callers s !! i = Some (id, Got body) -> exists w, wanted id w /\ digest body = w.
Proof. intros [Hok _]%reachable_inv Hi. exact (so_callers _ _ _ _ _ Hok _ _ _ Hi). Qed.

(** The cache's account is true and its budget holds. [cur] is the sum of the
    sizes of the registered entries; it stays within a positive budget unless a
    single entry alone has a size; and every file on disk is that of the entry
    registered for its id, with that entry's size, or has just been put there by
    the one caller that downloaded it. *)
Theorem cache_within_budget (dir suffix : bytes) (maxBytes : Z) (digest : bytes -> bytes) (wanted : bytes -> bytes -> Prop) (s : Sys) :
  reachable dir suffix maxBytes digest wanted s ->
  cur (cache s) = msum (size_of (cache s)) (entries (cache s)) /\
  (0 < maxBytes -> cur (cache s) <= maxBytes \/
     forall e1 e2, e1 ∈ registered (cache s) -> e2 ∈ registered (cache s) -> ce_size e1 <> 0 -> ce_size e2 <> 0 -> ce_id e1 = ce_id e2) /\
  (forall id body, disk (cache s) !! path dir suffix id = Some body -> accounted s id body).
Proof. intros [[Hc _ _ Hf] Hb]%reachable_inv. split; [apply Hc|]. split; [exact Hb|exact Hf]. Qed.

(** A pack is downloaded once for everybody who waits. At no time are two
    callers downloading, or placing, the same id. *)
Theorem one_download_per_id (dir suffix : bytes) (maxBytes : Z) (digest : bytes -> bytes) (wanted : bytes -> bytes -> Prop)
    (s : Sys) (i j : nat) (id : bytes) (t1 t2 p1 p2 : nat) :
  reachable dir suffix maxBytes digest wanted s -> callers s !! i = Some (id, Filling t1 p1) ->
  callers s !! j = Some (id, Filling t2 p2) \/ (exists z, callers s !! j = Some (id, Renamed t2 p2 z)) -> i = j.
Proof.
  intros [Hok _]%reachable_inv Hi Hj. pose proof (so_callers _ _ _ _ _ Hok _ _ _ Hi) as [[Hp1 _] _].
  destruct Hj as [Hj|[z Hj]]; pose proof (so_callers _ _ _ _ _ Hok _ _ _ Hj) as Hk; cbn in Hk.
  - destruct Hk as [[Hp2 _] _]. rewrite Hp1 in Hp2. injection Hp2 as <-. by eapply (so_owner _ _ _ _ _ Hok _ _ _ _ _ _ p1 Hi Hj).
  - destruct Hk as ([Hp2 _] & _). rewrite Hp1 in Hp2. injection Hp2 as <-. by eapply (so_owner _ _ _ _ _ Hok _ _ _ _ _ _ p1 Hi Hj).
Qed.

(** Eviction is least recently used and no more than needed. What is removed,
    in order of its stamps, had a size and was not the entry being admitted; what
    is kept is no older; each removal happened with the cache still over budget;
    and at the end it is within budget or nothing more could go. *)
Theorem eviction_is_lru (dir suffix : bytes) (maxBytes : Z) (keep : bytes) (c c' : PackCache) (n : nat) :
  wf c -> evictLocked dir suffix maxBytes keep c = (n, c') ->
  exists vs, n = length vs /\ evicted dir suffix maxBytes keep c c' vs /\
    (0 < maxBytes -> cur c' <= maxBytes \/ forall e, e ∈ registered c' -> evictable keep e = false).
Proof. intros Hw Hr. by apply (evictLocked_spec dir suffix maxBytes) in Hr. Qed.

(** ** Witnesses *)

(** Names are their own digests; the cache holds five bytes. *)
Definition toy_digest (b : bytes) : bytes := b.
Definition toy_wanted (id w : bytes) : Prop := w = id.
Abbreviation toy_step := (step (bs "/tmp") (bs ".bin") 5 toy_digest toy_wanted).
Abbreviation toy_reachable := (reachable (bs "/tmp") (bs ".bin") 5 toy_digest toy_wanted).

Definition c1 : PackCache := snd (claim (bs "abc") 1 newFileCache).
Definition c2 : PackCache := snd (claim (bs "abc") 2 c1).
Definition c3 : PackCache := rename (bs "/tmp") (bs ".bin") (bs "abc") (bs "abc") c2.
Definition c4 : PackCache := snd (settle (bs "/tmp") (bs ".bin") 5 0 (bs "abc") 3 c3).
Definition c5 : PackCache := close_ready 0 c4.

(** Two callers want one pack: the first downloads, the second waits. *)
Definition s1 : Sys := at_pc 0 (bs "abc") (Claiming 0) newFileCache start.
Definition s2 : Sys := at_pc 1 (bs "abc") (Claiming 0) newFileCache s1.
Definition s3 : Sys := at_pc 0 (bs "abc") (Filling 0 0) c1 s2.
Definition s4 : Sys := at_pc 1 (bs "abc") (Awaiting 0 0) c2 s3.
Definition s5 : Sys := at_pc 0 (bs "abc") (Renamed 0 0 3) c3 s4.
Definition s6 : Sys := at_pc 0 (bs "abc") (Closing 0 0) c4 s5.
Definition s7 : Sys := at_pc 0 (bs "abc") (Awaiting 0 0) c5 s6.
Definition s8 : Sys := at_pc 1 (bs "abc") (Got (bs "abc")) c5 s7.

Lemma s4_reachable : toy_reachable s4.
Proof.
  eapply (rtc_r _ s3); [eapply (rtc_r _ s2); [eapply (rtc_r _ s1); [apply rtc_once|]|]|].
  - exact (step_call (bs "/tmp") (bs ".bin") 5 toy_digest toy_wanted start 0 (bs "abc") eq_refl).
  - exact (step_call (bs "/tmp") (bs ".bin") 5 toy_digest toy_wanted s1 1 (bs "abc") eq_refl).
  - refine (step_claim (bs "/tmp") (bs ".bin") 5 toy_digest toy_wanted s2 0 (bs "abc") 0 1 0 true c1 eq_refl _ eq_refl). unfold maxTries. lia.
  - refine (step_claim (bs "/tmp") (bs ".bin") 5 toy_digest toy_wanted s3 1 (bs "abc") 0 2 0 false c2 eq_refl _ eq_refl). unfold maxTries. lia.
Qed.

Lemma s8_reachable : toy_reachable s8.
Proof.
  eapply (rtc_r _ s7); [eapply (rtc_r _ s6); [eapply (rtc_r _ s5); [eapply (rtc_r _ s4); [apply s4_reachable|]|]|]|].
  - exact (step_downloaded (bs "/tmp") (bs ".bin") 5 toy_digest toy_wanted s4 0 (bs "abc") 0 0 (bs "abc") (bs "abc") 3 eq_refl eq_refl eq_refl).
  - exact (step_settle (bs "/tmp") (bs ".bin") 5 toy_digest toy_wanted s5 0 (bs "abc") 0 0 3 eq_refl).
  - exact (step_close (bs "/tmp") (bs ".bin") 5 toy_digest toy_wanted s6 0 (bs "abc") 0 0 eq_refl).
  - exact (step_open (bs "/tmp") (bs ".bin") 5 toy_digest toy_wanted s7 1 (bs "abc") 0 0 _ (bs "abc") eq_refl eq_refl eq_refl eq_refl eq_refl).
Qed.

Lemma cached_bytes_are_genuine_witness : exists w, toy_wanted (bs "abc") w /\ toy_digest (bs "abc") = w.
Proof. exact (cached_bytes_are_genuine (bs "/tmp") (bs ".bin") 5 toy_digest toy_wanted s8 1 (bs "abc") (bs "abc") s8_reachable eq_refl). Defined.

Lemma cache_within_budget_witness : cur (cache s8) = 3 /\ cur (cache s8) = msum (size_of (cache s8)) (entries (cache s8)).
Proof. split; [reflexivity|]. exact (proj1 (cache_within_budget (bs "/tmp") (bs ".bin") 5 toy_digest toy_wanted s8 s8_reachable)). Defined.

Lemma one_download_per_id_witness : callers s4 !! 1%nat = Some (bs "abc", Awaiting 0 0) /\ 0%nat = 0%nat.
Proof.
  split; [reflexivity|].
  exact (one_download_per_id (bs "/tmp") (bs ".bin") 5 toy_digest toy_wanted s4 0 0 (bs "abc") 0 0 0 0 s4_reachable eq_refl (or_introl eq_refl)).
Defined.

(** Three entries of three bytes: admitting the newest sends the two oldest away, oldest first. *)
Definition three (id : bytes) (used : Z) : cacheEntry := {| ce_id := id; ce_size := 3; ce_used := used; ce_usedAt := 0; ce_ready := true; ce_err := None |}.
Definition full : PackCache :=
  {| entries := {[bs "a" := 0%nat; bs "b" := 1%nat; bs "c" := 2%nat]}; heap := {[0%nat := three (bs "a") 7; 1%nat := three (bs "b") 4; 2%nat := three (bs "c") 9]};
     fresh := 3; cur := 9; seq := 9; disk := ∅ |}.

Example oldest_first : map_to_list (entries (snd (evictLocked (bs "/tmp") (bs ".bin") 5 (bs "c") full))) = [(bs "c", 2%nat)] /\
  fst (evictLocked (bs "/tmp") (bs ".bin") 5 (bs "c") full) = 2%nat /\
  ce_id <$> victim (bs "c") full = Some (bs "b").
Proof. vm_compute. done. Qed.

Lemma full_wf : wf full.
Proof.
  assert (Hall : map_Forall (fun id p => ce_id <$> heap full !! p = Some id) (entries full)) by (apply (bool_decide_unpack _); vm_compute; exact I).
  intros id p Hp. apply Hall in Hp. by apply fmap_Some in Hp as (e & He & ->); exists e.
Qed.

Lemma eviction_is_lru_witness :
  exists vs, 2%nat = length vs /\ evicted (bs "/tmp") (bs ".bin") 5 (bs "c") full (snd (evictLocked (bs "/tmp") (bs ".bin") 5 (bs "c") full)) vs.
Proof.
  destruct (eviction_is_lru (bs "/tmp") (bs ".bin") 5 (bs "c") full (snd (evictLocked (bs "/tmp") (bs ".bin") 5 (bs "c") full)) 2 full_wf eq_refl)
    as (vs & Hn & He & _).
  exists vs. split; [exact Hn|exact He].
Defined.
