(* ===== verification/PackFetch.v ===== *)
(** * Downloading packs in the background (internal/storage/tigris/packindex.go, packcache.go)

    The first read of a container starts its download; later reads take what
    has landed. [step] is what the goroutines of several storers can do that
    share one pack cache, or have none, and one semaphore. The cache is that of
    PackCache.v; here its downloads are followed write by write. *)

From S2P Require Import Prelude GoLib S3 Concrete PackIndex Storer StorerSpec Objects ObjectsSpec PackCache PackCacheSpec.

Definition maxLivePackFetches : nat := 4.

(** What arrives of a response's body before reading it fails. *)
Class BodyStream `{S3} := { delivered : get_output -> bytes }.
Class BodyStreamLaws `{BodyStream} (view : World -> bucket) (env : bucket -> bucket -> Prop) := {
  delivered_prefix k w out w' : GetObject k w = (Ok out, w') ->
    exists b o, env (view w) b /\ b !! k = Some o /\ env b (view w') /\ delivered out `prefix_of` o_body o;
}.

Section packfetch.
Context `{GoGit, Zstd, BodyStream}.
Context (dir suffix : bytes) (maxBytes : Z) (digest : bytes -> bytes).

(** The file being filled, and how many of its bytes have been counted. *)
Record packStream := { ps_file : bytes; ps_n : Z }.

(** [packStream.readerFor], with the file as it is: a read at or below [n]. *)
Definition streamReader (ps : option packStream) (off n : Z) : option (gores bytes) :=
  match ps with
  | Some ps => if i64 (off + n) >? ps_n ps then None else Some (section (ps_file ps) off n)
  | None => None
  end.

(** Where [streamPack] is, inside [verifiedCopy]: waiting for a slot of
    [fetchSem]; holding it before the request; with a response of which [rest]
    is still to come and then [last]; past a write that is not counted yet; back. *)
Inductive copyPhase :=
  | WaitSlot
  | Requesting
  | Receiving (rest : bytes) (last : option goerr)
  | Counting (rest : bytes) (last : option goerr)
  | Ended (r : gores unit).

Definition live (p : copyPhase) : bool :=
  match p with Requesting | Receiving _ _ | Counting _ _ => true | WaitSlot | Ended _ => false end.

Record download := { dl_of : nat * bytes; dl_stream : packStream; dl_phase : copyPhase }.

(** What [verifiedCopy] returns for a download that has ended, with the bytes. *)
Definition verified (d : download) : option (gores bytes) :=
  match dl_phase d with
  | Ended r => Some (let? _ := verifiedCopy digest (ps_file (dl_stream d)) (let? _ := r in Ok (snd (dl_of d))) in
                     Ok (ps_file (dl_stream d)))
  | _ => None
  end.

(** [packAccess]: [start] not yet done; done, its goroutine about to run;
    downloading to a private file; inside the cache's [Get]; back with a file
    or an error; [done] is closed. *)
Inductive packAccess :=
  | Idle
  | Begun
  | Copying (a : nat)
  | Asking (i : nat)
  | Checking (r : gores bytes)
  | Settled (r : gores bytes).

(** [f_access] by storer and pack; [f_cache] is [None] without a pack cache;
    [f_fills]: the downloads of the cache's callers; [f_streams]: the stream of
    each cache entry; [f_slots]: how many slots of [fetchSem] are taken. *)
Record Sys := {
  f_world : World;
  f_ctxDone : bool;
  f_slots : nat;
  f_index : nat -> packIndex;
  f_access : gmap (nat * bytes) packAccess;
  f_downloads : gmap nat download;
  f_cache : option PackCache.Sys;
  f_fills : gmap nat nat;
  f_streams : gmap nat nat;
}.

Definition set_access (k : nat * bytes) (x : packAccess) (s : Sys) : Sys :=
  {| f_world := f_world s; f_ctxDone := f_ctxDone s; f_slots := f_slots s; f_index := f_index s;
     f_access := <[k := x]> (f_access s); f_downloads := f_downloads s;
     f_cache := f_cache s; f_fills := f_fills s; f_streams := f_streams s |}.
Definition set_download (a : nat) (d : download) (s : Sys) : Sys :=
  {| f_world := f_world s; f_ctxDone := f_ctxDone s; f_slots := f_slots s; f_index := f_index s;
     f_access := f_access s; f_downloads := <[a := d]> (f_downloads s);
     f_cache := f_cache s; f_fills := f_fills s; f_streams := f_streams s |}.
Definition set_request (w : World) (slots : nat) (s : Sys) : Sys :=
  {| f_world := w; f_ctxDone := f_ctxDone s; f_slots := slots; f_index := f_index s;
     f_access := f_access s; f_downloads := f_downloads s;
     f_cache := f_cache s; f_fills := f_fills s; f_streams := f_streams s |}.
Definition set_cache (c : PackCache.Sys) (fills streams : gmap nat nat) (s : Sys) : Sys :=
  {| f_world := f_world s; f_ctxDone := f_ctxDone s; f_slots := f_slots s; f_index := f_index s;
     f_access := f_access s; f_downloads := f_downloads s;
     f_cache := Some c; f_fills := fills; f_streams := streams |}.
Definition set_env (done : bool) (index : nat -> packIndex) (s : Sys) : Sys :=
  {| f_world := f_world s; f_ctxDone := done; f_slots := f_slots s; f_index := index;
     f_access := f_access s; f_downloads := f_downloads s;
     f_cache := f_cache s; f_fills := f_fills s; f_streams := f_streams s |}.

(** ** What a read looks at *)

Definition getAccess (s : Sys) (k : nat * bytes) : packAccess := default Idle (f_access s !! k).

Definition bulkCopy (s : Sys) (k : nat * bytes) : option bytes :=
  match getAccess s k with Settled (Ok body) => Some body | _ => None end.

(** [PackCache.partial] *)
Definition partial (s : Sys) (id : bytes) : option packStream :=
  c ← f_cache s; p ← entries (cache c) !! id; a ← f_streams s !! p; dl_stream <$> f_downloads s !! a.

Definition partialPack (s : Sys) (k : nat * bytes) : option packStream :=
  match getAccess s k with
  | Copying a => dl_stream <$> f_downloads s !! a
  | _ => partial s (snd k)
  end.

(** ** What the goroutines do *)

Definition newDownload (k : nat * bytes) : download :=
  {| dl_of := k; dl_stream := {| ps_file := []; ps_n := 0 |}; dl_phase := WaitSlot |}.

Definition to_phase (p : copyPhase) (d : download) : download := {| dl_of := dl_of d; dl_stream := dl_stream d; dl_phase := p |}.

(** A write of the underlying file, and the count that follows it. *)
Definition wrote (p : bytes) (ph : copyPhase) (d : download) : download :=
  {| dl_of := dl_of d; dl_stream := {| ps_file := ps_file (dl_stream d) ++ p; ps_n := ps_n (dl_stream d) |}; dl_phase := ph |}.
Definition counted (ph : copyPhase) (d : download) : download :=
  {| dl_of := dl_of d; dl_stream := {| ps_file := ps_file (dl_stream d); ps_n := Z.of_nat (length (ps_file (dl_stream d))) |}; dl_phase := ph |}.

(** [startPackFetch]: the [sync.Once] lets a storer begin each pack once. *)
Definition startPackFetch (k : nat * bytes) (s : Sys) : Sys :=
  match getAccess s k with Idle => set_access k Begun s | _ => s end.

(** What a response has to give: its bytes, then the end or an error. *)
Definition arrives (out : get_output) : bytes * option goerr :=
  match g_body out with Ok body => (body, None) | Err e => (delivered out, Some e) end.

(** The check of [fetchWholePack]. *)
Definition fetch_checked (want : Z) (body : bytes) : gores bytes :=
  if (want =? 0) || (Z.of_nat (length body) =? want) then Ok body else Err Errorf.

Context (conf : nat -> config).
Definition packKey (k : nat * bytes) : bytes := binKey (conf (fst k)) (snd k).

(** [verifiedCopy] around [streamPack], a step of the download at [a]. *)
Inductive copy_step (a : nat) (d : download) (s : Sys) : Sys -> Prop :=
  | copy_slot : dl_phase d = WaitSlot -> (f_slots s < maxLivePackFetches)%nat ->
      copy_step a d s (set_download a (to_phase Requesting d) (set_request (f_world s) (S (f_slots s)) s))
  | copy_cancelled : dl_phase d = WaitSlot -> f_ctxDone s = true ->
      copy_step a d s (set_download a (to_phase (Ended (Err (Wrapf (Sent CtxDone)))) d) s)
  | copy_refused e w' : dl_phase d = Requesting -> GetObject (packKey (dl_of d)) (f_world s) = (Err e, w') ->
      copy_step a d s (set_download a (to_phase (Ended (Err (Wrapf e))) d) (set_request w' (pred (f_slots s)) s))
  | copy_reply out w' : dl_phase d = Requesting -> GetObject (packKey (dl_of d)) (f_world s) = (Ok out, w') ->
      copy_step a d s (set_download a (to_phase (Receiving (fst (arrives out)) (snd (arrives out))) d) (set_request w' (f_slots s) s))
  | copy_write p rest last : dl_phase d = Receiving (p ++ rest) last ->
      copy_step a d s (set_download a (wrote p (Counting rest last) d) s)
  | copy_count rest last : dl_phase d = Counting rest last ->
      copy_step a d s (set_download a (counted (Receiving rest last) d) s)
  (* a write that fails, as on a full disk, may have left a part in the file, which is counted *)
  | copy_disk p rest last : dl_phase d = Receiving (p ++ rest) last ->
      copy_step a d s (set_download a (counted (Ended (Err Errorf)) (wrote p WaitSlot d)) (set_request (f_world s) (pred (f_slots s)) s))
  | copy_end last : dl_phase d = Receiving [] last ->
      copy_step a d s (set_download a (to_phase (Ended (match last with None => Ok tt | Some e => Err (Wrapf e) end)) d)
                         (set_request (f_world s) (pred (f_slots s)) s)).

(** Other goroutines of the cache; what leads out of a download is below. *)
Definition cache_moves (c c' : PackCache.Sys) : Prop :=
  PackCache.step dir suffix maxBytes digest (fun id w => w = id) c c' /\
  (forall i id try p, callers c !! i = Some (id, Filling try p) -> callers c' !! i = Some (id, Filling try p)) /\
  (forall i, callers c !! i = None -> callers c' !! i = None).

Context (view : World -> bucket) (env : bucket -> bucket -> Prop).

Inductive step (s : Sys) : Sys -> Prop :=
  | step_start k : step s (startPackFetch k s)
  (* [fetchWholePack] without a cache *)
  | step_temp k a : getAccess s k = Begun -> f_cache s = None -> f_downloads s !! a = None ->
      step s (set_access k (Copying a) (set_download a (newDownload k) s))
  | step_temp_failed k : getAccess s k = Begun -> f_cache s = None -> step s (set_access k (Settled (Err (Wrapf Errorf))) s)
  | step_copy a d s' : f_downloads s !! a = Some d -> copy_step a d s s' -> step s s'
  | step_copied k a d r : getAccess s k = Copying a -> f_downloads s !! a = Some d -> verified d = Some r ->
      step s (set_access k (Checking r) s)
  (* with one: [PackCache.Get] *)
  | step_ask k i c : getAccess s k = Begun -> f_cache s = Some c -> callers c !! i = None ->
      step s (set_access k (Asking i) (set_cache (at_pc i (snd k) (Claiming 0) (cache c) c) (f_fills s) (f_streams s) s))
  | step_cache c c' : f_cache s = Some c -> cache_moves c c' -> step s (set_cache c' (f_fills s) (f_streams s) s)
  (* [fill]; opening the staging file a second time may fail, then there is no stream *)
  | step_fill k i c id try p a (opened : bool) : getAccess s k = Asking i -> f_cache s = Some c ->
      callers c !! i = Some (id, Filling try p) -> f_fills s !! i = None -> f_downloads s !! a = None ->
      step s (set_cache c (<[i := a]> (f_fills s)) (if opened then <[p := a]> (f_streams s) else f_streams s)
                (set_download a (newDownload k) s))
  | step_fill_temp_failed i c id try p : f_cache s = Some c -> callers c !! i = Some (id, Filling try p) -> f_fills s !! i = None ->
      step s (set_cache (at_pc i id (Closing try p) (fill_failed dir suffix p (Wrapf Errorf) (cache c)) c) (f_fills s) (f_streams s) s)
  | step_fill_torn i c id try p a d r : f_cache s = Some c -> callers c !! i = Some (id, Filling try p) ->
      f_fills s !! i = Some a -> f_downloads s !! a = Some d -> verified d = Some r ->
      step s (set_cache c (f_fills s) (delete p (f_streams s)) s)
  | step_fill_done i c id try p a d body : f_cache s = Some c -> callers c !! i = Some (id, Filling try p) ->
      f_fills s !! i = Some a -> f_downloads s !! a = Some d -> verified d = Some (Ok body) -> f_streams s !! p = None ->
      step s (set_cache (at_pc i id (Renamed try p (Z.of_nat (length body))) (rename dir suffix id body (cache c)) c)
                (delete i (f_fills s)) (f_streams s) s)
  (* the copy's error, or one of closing and renaming the file *)
  | step_fill_failed i c id try p a d r e : f_cache s = Some c -> callers c !! i = Some (id, Filling try p) ->
      f_fills s !! i = Some a -> f_downloads s !! a = Some d -> verified d = Some r -> f_streams s !! p = None ->
      (forall e', r = Err e' -> e = e') ->
      step s (set_cache (at_pc i id (Closing try p) (fill_failed dir suffix p e (cache c)) c) (delete i (f_fills s)) (f_streams s) s)
  | step_answer k i c id body : getAccess s k = Asking i -> f_cache s = Some c -> callers c !! i = Some (id, Got body) ->
      step s (set_access k (Checking (Ok body)) s)
  | step_answer_failed k i c id e : getAccess s k = Asking i -> f_cache s = Some c -> callers c !! i = Some (id, Failed e) ->
      step s (set_access k (Checking (Err e)) s)
  (* the rest of [fetchWholePack], and [close(a.done)] *)
  | step_check k r : getAccess s k = Checking r ->
      step s (set_access k (Settled (let? body := r in fetch_checked (binSize (snd k) (f_index s (fst k))) body)) s)
  | step_check_failed k body : getAccess s k = Checking (Ok body) -> step s (set_access k (Settled (Err (Wrapf Errorf))) s)
  (* shutdown; the index grows; the program's other requests *)
  | step_shutdown : step s (set_env true (f_index s) s)
  | step_index index : step s (set_env (f_ctxDone s) index s)
  | step_request w' : env (view (f_world s)) (view w') -> step s (set_request w' (f_slots s) s).

Definition start (w : World) (index : nat -> packIndex) (cached : bool) : Sys :=
  {| f_world := w; f_ctxDone := false; f_slots := 0; f_index := index; f_access := ∅; f_downloads := ∅;
     f_cache := if cached then Some PackCache.start else None; f_fills := ∅; f_streams := ∅ |}.
Definition reachable (w : World) (index : nat -> packIndex) (cached : bool) (s : Sys) : Prop := rtc step (start w index cached) s.
End packfetch.
