(* ===== verification/PackFetchSpec.v ===== *)
(** * What background downloads promise (internal/storage/tigris/packindex.go, packcache.go)

    However the downloads of several storers interleave, fail and are evicted,
    a read is given a verified copy or a prefix of what the bucket holds, and no
    more than [maxLivePackFetches] of them are on the wire. *)

From S2P Require Import Prelude GoLib S3 Concrete PackTable PackIndex Storer StorerSpec Objects ObjectsSpec PackCache PackCacheSpec PackFetch.

Section spec.
Context `{GoGit, Zstd, BodyStream} (view : World -> bucket) (env : bucket -> bucket -> Prop).
Context `{!S3Laws view env, !BodyStreamLaws view env}.
Context (dir suffix : bytes) (maxBytes : Z) (digest : bytes -> bytes) (conf : nat -> config).
#[local] Instance env_po : PreOrder env := env_preorder.

Abbreviation verified := (verified digest).
Abbreviation cache_moves := (cache_moves dir suffix maxBytes digest).
Abbreviation copy_step := (copy_step conf).
Abbreviation step := (PackFetch.step dir suffix maxBytes digest conf view env).
Abbreviation cache_step := (PackCache.step dir suffix maxBytes digest (fun id w => w = id)).
Abbreviation cache_reachable := (PackCache.reachable dir suffix maxBytes digest (fun id w => w = id)).

(** ** One download *)

Definition coming (p : copyPhase) : bytes := match p with Receiving rest _ | Counting rest _ => rest | _ => [] end.

(** What the bucket has held under the name of [k] since [w0] begins with [x]. *)
Definition served (w0 : World) (k : nat * bytes) (x : bytes) : Prop :=
  x = [] \/ exists b o, env (view w0) b /\ b !! packKey conf k = Some o /\ x `prefix_of` o_body o.

Definition download_ok (w0 : World) (d : download) : Prop :=
  0 <= ps_n (dl_stream d) <= Z.of_nat (length (ps_file (dl_stream d))) /\
  served w0 (dl_of d) (ps_file (dl_stream d) ++ coming (dl_phase d)) /\
  (dl_phase d = WaitSlot \/ dl_phase d = Requesting -> ps_file (dl_stream d) = []).

Lemma served_prefix w0 k x y : served w0 k (x ++ y) -> served w0 k x.
Proof.
  intros [Hnil|(b & o & Hb & Hk & Hp)]; [left; by apply app_eq_nil in Hnil as [-> _]|right]. exists b, o. do 2 (split; [done|]).
  etrans; [by apply prefix_app_r|exact Hp].
Qed.

Lemma arrives_served w0 w k out w' : env (view w0) (view w) -> GetObject (packKey conf k) w = (Ok out, w') -> served w0 k (fst (arrives out)).
Proof.
  intros Hw Hg. right. unfold arrives. destruct (g_body out) as [body|e] eqn:Eb; cbn.
  - apply GetObject_ok in Hg as (b & o & Hb & Hk & _ & _ & _ & Hbody & _). exists b, o. split; [by etrans|]. split; [done|]. by rewrite (Hbody body).
  - apply delivered_prefix in Hg as (b & o & Hb & Hk & _ & Hp). exists b, o. split; [by etrans|]. done.
Qed.

#[local] Ltac parts := split_and!; try done; try lia; try by intros [|].

Lemma copy_step_ok w0 a d s s' : env (view w0) (view (f_world s)) -> download_ok w0 d -> copy_step a d s s' ->
  exists d', f_downloads s' = <[a := d']> (f_downloads s) /\ dl_of d' = dl_of d /\ download_ok w0 d' /\
    env (view w0) (view (f_world s')) /\ f_access s' = f_access s /\ f_cache s' = f_cache s /\ f_fills s' = f_fills s /\ f_streams s' = f_streams s.
Proof.
  intros Hw (Hn & Hs & Hnil) Hst.
  destruct Hst as [Hp Hlt|Hp Hc|e w' Hp Hg|out w' Hp Hg|p rest last Hp|rest last Hp|p rest last Hp|last Hp];
    cbn [set_download set_request f_downloads f_world f_access f_cache f_fills f_streams];
    (eexists; split; [done|]; split; [done|]); rewrite Hp in *; unfold download_ok; cbn [to_phase wrote counted dl_of dl_stream dl_phase ps_file ps_n coming] in *.
  - parts. intros _. apply Hnil. by left.
  - parts.
  - apply GetObject_err in Hg as (_ & b & Hb & Hb' & _). parts. etrans; [|exact Hb']. by etrans.
  - rewrite Hnil by auto. pose proof (arrives_served w0 _ _ _ _ Hw Hg) as Ha.
    apply GetObject_ok in Hg as (b & o & Hb & _ & Hb' & _). rewrite (Hnil (or_intror eq_refl)) in Hn. parts. etrans; [|exact Hb']. by etrans.
  - rewrite <-app_assoc, length_app. parts.
  - parts.
  - rewrite length_app. parts. rewrite app_nil_r. rewrite app_assoc in Hs. by eapply served_prefix.
  - parts.
Qed.

Lemma verified_inv d r : verified d = Some r -> (exists r0, dl_phase d = Ended r0) /\
  forall body, r = Ok body -> body = ps_file (dl_stream d) /\ digest body = snd (dl_of d).
Proof.
  unfold PackFetch.verified. destruct (dl_phase d) as [| | | |r0] eqn:E; try done. intros [= <-]. split; [by eexists|].
  intros body. destruct r0 as [[]|e]; cbn; [|done]. unfold verifiedCopy. cbn. case_bool_decide as Hd; [|done]. by intros [= <-].
Qed.

(** ** Slots *)

Definition liveCount (m : gmap nat download) : nat := size (filter (fun x => live (dl_phase x.2) = true) m).

Lemma liveCount_insert m a d d' : m !! a = Some d ->
  (liveCount (<[a := d']> m) + Nat.b2n (live (dl_phase d)) = liveCount m + Nat.b2n (live (dl_phase d')))%nat.
Proof.
  intros Ha. rewrite <-(insert_delete_id m a d Ha) at 2. rewrite <-insert_delete_eq.
  assert (Hcount : forall x, liveCount (<[a := x]> (delete a m)) = (liveCount (delete a m) + Nat.b2n (live (dl_phase x)))%nat).
  { intros x. unfold liveCount. destruct (live (dl_phase x)) eqn:E.
    - rewrite map_filter_insert_True, map_size_insert_None; [cbn; lia| |done]. apply map_lookup_filter_None. left. apply lookup_delete_eq.
    - rewrite map_filter_insert_False, delete_delete_eq by (cbn; congruence). cbn. lia. }
  rewrite !Hcount. lia.
Qed.

Lemma liveCount_fresh m a k : m !! a = None -> liveCount (<[a := newDownload k]> m) = liveCount m.
Proof. intros Ha. unfold liveCount. rewrite map_filter_insert_False, delete_id by done. done. Qed.

Lemma copy_step_slots a d s s' : f_downloads s !! a = Some d -> f_slots s = liveCount (f_downloads s) -> (f_slots s <= maxLivePackFetches)%nat ->
  copy_step a d s s' -> f_slots s' = liveCount (f_downloads s') /\ (f_slots s' <= maxLivePackFetches)%nat.
Proof.
  intros Ha Hs Hm Hst. pose proof (fun d' => liveCount_insert _ _ _ d' Ha) as Hc.
  destruct Hst as [Hp Hlt|Hp _|e w' Hp _|out w' Hp _|p rest last Hp|rest last Hp|p rest last Hp|last Hp];
    cbn [set_download set_request f_downloads f_slots];
    match goal with |- context [<[a := ?d']> _] => specialize (Hc d') end; rewrite Hp in Hc; cbn in Hc; lia.
Qed.

(** ** The invariant *)

Lemma cache_step_callers c c' i id k : cache_step c c' -> callers c !! i = Some (id, k) -> exists k', callers c' !! i = Some (id, k').
Proof.
  intros Hst Hi. destruct Hst; cbn [at_pc callers]; eauto;
    match goal with |- context [<[?j := _]> _] => destruct (decide (i = j)) as [->|Hne]; [rewrite lookup_insert_eq|rewrite lookup_insert_ne by done; by eauto] end;
    revert Hi; match goal with Hj : callers c !! _ = _ |- _ => rewrite Hj end; try done; intros [= <- _]; by eexists.
Qed.

(** What the cache's side of the system has to say to each other. *)
Record shared_ok (c : PackCache.Sys) (s : Sys) : Prop := {
  sh_reachable : cache_reachable c;
  sh_asking k i : getAccess s k = Asking i -> exists ph, callers c !! i = Some (snd k, ph);
  sh_fills i a : f_fills s !! i = Some a ->
    exists id try p d, callers c !! i = Some (id, Filling try p) /\ f_downloads s !! a = Some d /\ snd (dl_of d) = id;
  sh_streams p a : f_streams s !! p = Some a -> exists i id try, f_fills s !! i = Some a /\ callers c !! i = Some (id, Filling try p);
}.

Record fetch_ok (w0 : World) (s : Sys) : Prop := {
  fo_env : env (view w0) (view (f_world s));
  fo_downloads a d : f_downloads s !! a = Some d -> download_ok w0 d;
  fo_copying k a : getAccess s k = Copying a -> exists d, f_downloads s !! a = Some d /\ dl_of d = k;
  fo_result k body : getAccess s k = Checking (Ok body) \/ getAccess s k = Settled (Ok body) -> digest body = snd k;
  fo_slots : f_slots s = liveCount (f_downloads s);
  fo_max : (f_slots s <= maxLivePackFetches)%nat;
  fo_cache c : f_cache s = Some c -> shared_ok c s;
}.

Lemma getAccess_set k x s k' : getAccess (set_access k x s) k' = if decide (k' = k) then x else getAccess s k'.
Proof. unfold getAccess. cbn. destruct (decide (k' = k)) as [->|Hne]; [by rewrite lookup_insert_eq|by rewrite lookup_insert_ne]. Qed.

Lemma set_access_ok w0 k x s : fetch_ok w0 s ->
  (forall a, x = Copying a -> exists d, f_downloads s !! a = Some d /\ dl_of d = k) ->
  (forall i c, x = Asking i -> f_cache s = Some c -> exists ph, callers c !! i = Some (snd k, ph)) ->
  (forall body, x = Checking (Ok body) \/ x = Settled (Ok body) -> digest body = snd k) -> fetch_ok w0 (set_access k x s).
Proof.
  intros [He Hd Hc Hr Hs Hm Hca] Hx1 Hx2 Hx3. split; try done.
  - intros k' a. rewrite getAccess_set. case_decide as Hk; [subst; apply Hx1|apply Hc].
  - intros k' body. rewrite getAccess_set. case_decide as Hk; [subst; apply Hx3|apply Hr].
  - intros c Hcc. destruct (Hca c Hcc) as [? Ha ? ?]. split; [done| |done..].
    intros k' i. rewrite getAccess_set. case_decide as Hk; [subst; intros Hi; by eapply Hx2|apply Ha].
Qed.

Lemma set_cache_ok w0 c fills streams s : fetch_ok w0 s -> shared_ok c (set_cache c fills streams s) -> fetch_ok w0 (set_cache c fills streams s).
Proof. intros [He Hd Hc Hr Hs Hm Hca] Hsh. split; try done. by intros c' [= <-]. Qed.

(** A change of the downloads that keeps whose they are. *)
Lemma downloads_shared c s s' : f_access s' = f_access s -> f_fills s' = f_fills s -> f_streams s' = f_streams s ->
  (forall a d, f_downloads s !! a = Some d -> exists d', f_downloads s' !! a = Some d' /\ dl_of d' = dl_of d) -> shared_ok c s -> shared_ok c s'.
Proof.
  intros Ea Ef Es Hd [Hr Ha Hf Hst]. split; [done|..].
  - intros k i. unfold getAccess. rewrite Ea. apply Ha.
  - intros i a. rewrite Ef. intros (id & try & p & d & Hi & Had & Hid)%Hf. destruct (Hd a d Had) as (d' & Hd' & E).
    exists id, try, p, d'. by rewrite E.
  - intros p a. rewrite Es, Ef. apply Hst.
Qed.

Lemma set_download_ok w0 a d' s : fetch_ok w0 s -> download_ok w0 d' -> (forall d, f_downloads s !! a = Some d -> dl_of d = dl_of d') ->
  f_slots s = liveCount (<[a := d']> (f_downloads s)) -> fetch_ok w0 (set_download a d' s).
Proof.
  intros [He Hd Hc Hr Hs Hm Hca] Hok Hof Hl.
  assert (Hsame : forall b d, f_downloads s !! b = Some d -> exists d1, <[a := d']> (f_downloads s) !! b = Some d1 /\ dl_of d1 = dl_of d).
  { intros b d Hb. destruct (decide (b = a)) as [->|Hne]; [|rewrite lookup_insert_ne by done; by exists d].
    rewrite lookup_insert_eq. exists d'. by rewrite (Hof d). }
  split; try done.
  - intros b d. cbn. destruct (decide (b = a)) as [->|Hne]; [rewrite lookup_insert_eq; by intros [= <-]|rewrite lookup_insert_ne by done; apply Hd].
  - intros k b (d & Hb & E)%Hc. destruct (Hsame b d Hb) as (d1 & Hb1 & E1). exists d1. by rewrite E1.
  - intros c Hcc. by apply (downloads_shared c s); [..|apply Hca].
Qed.

Lemma newDownload_ok w0 k : download_ok w0 (newDownload k).
Proof. unfold download_ok. cbn. split_and!; try done. by left. Qed.

Lemma add_download_ok w0 a k s : fetch_ok w0 s -> f_downloads s !! a = None -> fetch_ok w0 (set_download a (newDownload k) s).
Proof.
  intros Hok Ha. apply set_download_ok; [done|apply newDownload_ok| |].
  - intros d. by rewrite Ha.
  - rewrite liveCount_fresh by done. apply Hok.
Qed.

Lemma copy_ok w0 a d s s' : fetch_ok w0 s -> f_downloads s !! a = Some d -> copy_step a d s s' -> fetch_ok w0 s'.
Proof.
  intros [He Hd Hc Hr Hs Hm Hca] Ha Hst. destruct (copy_step_slots a d s s' Ha Hs Hm Hst) as [Hs' Hm'].
  destruct (copy_step_ok w0 a d s s' He (Hd _ _ Ha) Hst) as (d' & Ed & Eof & Hok & He' & Eacc & Ec & Ef & Es).
  assert (Hsame : forall b x, f_downloads s !! b = Some x -> exists x1, f_downloads s' !! b = Some x1 /\ dl_of x1 = dl_of x).
  { intros b x Hb. rewrite Ed. destruct (decide (b = a)) as [->|Hne]; [|rewrite lookup_insert_ne by done; by exists x].
    rewrite lookup_insert_eq. exists d'. rewrite Ha in Hb. by injection Hb as <-. }
  unfold getAccess in *. split; unfold getAccess; rewrite ?Eacc; try done.
  - intros b x. rewrite Ed. destruct (decide (b = a)) as [->|Hne]; [rewrite lookup_insert_eq; by intros [= <-]|rewrite lookup_insert_ne by done; apply Hd].
  - intros k b (x & Hb & E)%Hc. destruct (Hsame b x Hb) as (x1 & Hb1 & E1). exists x1. by rewrite E1.
  - intros c. rewrite Ec. intros Hcc. by apply (downloads_shared c s); [..|apply Hca].
Qed.

(** One caller of the cache moves on, its download settled or not there. *)
Lemma caller_moves_ok c i id k0 k1 c' fills streams s : shared_ok c s -> callers c !! i = Some (id, k0) ->
  cache_reachable (at_pc i id k1 c' c) -> (forall j a, fills !! j = Some a -> j <> i /\ f_fills s !! j = Some a) ->
  (forall p a, streams !! p = Some a -> exists j id try, fills !! j = Some a /\ callers c !! j = Some (id, Filling try p)) ->
  shared_ok (at_pc i id k1 c' c) (set_cache (at_pc i id k1 c' c) fills streams s).
Proof.
  intros [Hr Ha Hf Hst] Hi Hr' Hfills Hstreams. split; [done|..].
  - intros k j Hj. apply Ha in Hj as (ph & Hj). cbn. destruct (decide (j = i)) as [->|Hne]; [|rewrite lookup_insert_ne by done; by eexists].
    rewrite lookup_insert_eq. rewrite Hi in Hj. injection Hj as <- _. by eexists.
  - intros j a [Hne Hj]%Hfills. apply Hf in Hj as (id' & try & p & d & Hj & Hd & Hid). exists id', try, p, d. cbn. by rewrite lookup_insert_ne.
  - intros p a (j & id' & try & Hj & Hcj)%Hstreams. exists j, id', try. split; [done|]. cbn. rewrite lookup_insert_ne; [done|]. by apply not_eq_sym, (Hfills j a).
Qed.

Lemma cache_reach c c' : cache_reachable c -> cache_step c c' -> cache_reachable c'.
Proof. intros Hr Hs. by eapply rtc_r. Qed.

Lemma checked_digest (k : nat * bytes) (r : gores bytes) want body : (forall b, r = Ok b -> digest b = snd k) ->
  (let? b := r in fetch_checked want b) = Ok body -> digest body = snd k.
Proof. destruct r as [b|]; [|done]. cbn. unfold fetch_checked. destruct (_ || _); [|done]. intros Hb [= <-]. by apply Hb. Qed.

Lemma ask_ok w0 k i c s : fetch_ok w0 s -> f_cache s = Some c -> callers c !! i = None ->
  fetch_ok w0 (set_access k (Asking i) (set_cache (at_pc i (snd k) (Claiming 0) (cache c) c) (f_fills s) (f_streams s) s)).
Proof.
  intros Hok Hc Hi. pose proof (fo_cache _ _ Hok c Hc) as [Hr Ha Hf Hst].
  assert (Hother : forall j x, callers c !! j = Some x -> callers (at_pc i (snd k) (Claiming 0) (cache c) c) !! j = Some x).
  { intros j x Hj. cbn. rewrite lookup_insert_ne; [done|]. intros ->. by rewrite Hi in Hj. }
  apply set_access_ok; [apply set_cache_ok; [done|]|done| |by intros body [|]].
  - split.
    + eapply cache_reach; [exact Hr|]. by apply step_call.
    + intros k' j Hj. apply Ha in Hj as (ph & Hj). exists ph. by apply Hother.
    + intros j a (id & try & p & d & Hj & Hd)%Hf. exists id, try, p, d. split; [by apply Hother|done].
    + intros p a (j & id & try & Hj & Hcj)%Hst. exists j, id, try. split; [done|]. by apply Hother.
  - intros j c' [= <-] [= <-]. cbn. rewrite lookup_insert_eq. by eexists.
Qed.

Lemma cache_moves_ok w0 c c' s : fetch_ok w0 s -> f_cache s = Some c -> cache_moves c c' -> fetch_ok w0 (set_cache c' (f_fills s) (f_streams s) s).
Proof.
  intros Hok Hc (Hs & Hfill & _). pose proof (fo_cache _ _ Hok c Hc) as [Hr Ha Hf Hst]. apply set_cache_ok; [done|]. split.
  - by eapply cache_reach.
  - intros k i (ph & Hi)%Ha. by eapply cache_step_callers.
  - intros i a (id & try & p & d & Hi & Hd)%Hf. exists id, try, p, d. split; [by apply Hfill|done].
  - intros p a (i & id & try & Hi & Hci)%Hst. exists i, id, try. split; [done|]. by apply Hfill.
Qed.

Lemma fill_ok w0 k i c id try p a (opened : bool) s : fetch_ok w0 s -> getAccess s k = Asking i -> f_cache s = Some c ->
  callers c !! i = Some (id, Filling try p) -> f_fills s !! i = None -> f_downloads s !! a = None ->
  fetch_ok w0 (set_cache c (<[i := a]> (f_fills s)) (if opened then <[p := a]> (f_streams s) else f_streams s) (set_download a (newDownload k) s)).
Proof.
  intros Hok Hk Hc Hi Hfi Ha. pose proof (add_download_ok w0 a k s Hok Ha) as Hok'. pose proof (fo_cache _ _ Hok c Hc) as Hsh.
  apply set_cache_ok; [done|]. pose proof (fo_cache _ _ Hok' c Hc) as [Hr Hask Hf Hst]. split; [done|done|..].
  - intros j b. cbn. destruct (decide (j = i)) as [->|Hne]; [rewrite lookup_insert_eq; intros [= <-]|rewrite lookup_insert_ne by done; apply Hf].
    apply (sh_asking _ _ Hsh) in Hk as (ph & Hk). rewrite Hi in Hk. injection Hk as -> _. exists (snd k), try, p, (newDownload k).
    by rewrite lookup_insert_eq.
  - assert (Hold : forall q b, f_streams s !! q = Some b -> exists j id' try', <[i := a]> (f_fills s) !! j = Some b /\ callers c !! j = Some (id', Filling try' q)).
    { intros q b (j & id' & try' & Hj & Hcj)%Hst. exists j, id', try'. split; [|done]. rewrite lookup_insert_ne; [done|]. intros ->. cbn in Hj. by rewrite Hfi in Hj. }
    intros q b. cbn. destruct opened; [|by apply Hold].
    destruct (decide (q = p)) as [->|Hne]; [rewrite lookup_insert_eq; intros [= <-]|rewrite lookup_insert_ne by done; by apply Hold].
    exists i, id, try. by rewrite lookup_insert_eq.
Qed.

(** A caller whose download has ended, and whose stream is gone, leaves it. *)
Lemma fill_left_ok w0 i c id try p a k1 c' s : fetch_ok w0 s -> f_cache s = Some c -> callers c !! i = Some (id, Filling try p) ->
  f_fills s !! i = a -> (a <> None -> f_streams s !! p = None) -> cache_step c (at_pc i id k1 c' c) ->
  fetch_ok w0 (set_cache (at_pc i id k1 c' c) (delete i (f_fills s)) (f_streams s) s).
Proof.
  intros Hok Hc Hi Hfi Hs Hst. pose proof (fo_cache _ _ Hok c Hc) as Hsh. apply set_cache_ok; [done|].
  eapply caller_moves_ok; [done|exact Hi|by eapply cache_reach; [apply Hsh|]|..].
  - intros j b [Hne Hj]%lookup_delete_Some. done.
  - intros q b Hq. destruct (sh_streams _ _ Hsh _ _ Hq) as (j & id' & try' & Hj & Hcj). exists j, id', try'. split; [|done].
    rewrite lookup_delete_ne; [done|]. intros ->. rewrite Hi in Hcj. injection Hcj as <- <- <-. rewrite Hs in Hq; [done|]. by rewrite <-Hfi, Hj.
Qed.

Lemma step_ok w0 s s' : fetch_ok w0 s -> step s s' -> fetch_ok w0 s'.
Proof.
  intros Hok Hst. destruct Hst as [k|k a Hk Hc Ha|k Hk Hc|a d s' Ha Hcp|k a d r Hk Ha Hv|k i c Hk Hc Hi|c c' Hc Hm
    |k i c id try p a opened Hk Hc Hi Hf Ha|i c id try p Hc Hi Hf|i c id try p a d r Hc Hi Hf Ha Hv|i c id try p a d body Hc Hi Hf Ha Hv Hs
    |i c id try p a d r e Hc Hi Hf Ha Hv Hs _|k i c id body Hk Hc Hi|k i c id e Hk Hc Hi|k r Hk|k body Hk| |index|w' Hw].
  - unfold startPackFetch. destruct (getAccess s k); try done. apply set_access_ok; [done..|]. by intros body [|].
  - apply set_access_ok; [by apply add_download_ok|..|by intros body [|]]; [|done].
    intros b [= <-]. exists (newDownload k). cbn. by rewrite lookup_insert_eq.
  - apply set_access_ok; [done..|]. by intros body [|].
  - by eapply copy_ok.
  - apply verified_inv in Hv as [_ Hv]. apply set_access_ok; [done..|]. intros body [[= ->]|]; [|done].
    destruct (Hv body eq_refl) as [_ ->]. destruct (fo_copying _ _ Hok _ _ Hk) as (d' & Hd' & <-). rewrite Ha in Hd'. by injection Hd' as <-.
  - by apply ask_ok.
  - by eapply cache_moves_ok.
  - by eapply fill_ok.
  - rewrite <-(delete_id (f_fills s) i Hf). eapply fill_left_ok; [done..|]. by apply PackCache.step_fill_failed.
  - apply set_cache_ok; [done|]. pose proof (fo_cache _ _ Hok c Hc) as [Hr Hask Hfl Hsm]. split; [done..|].
    intros q b Hq. cbn in Hq. apply lookup_delete_Some in Hq as [_ Hq]. by apply Hsm.
  - eapply fill_left_ok; [done..|]. apply verified_inv in Hv as [_ Hv]. destruct (Hv body eq_refl) as [_ Hd].
    pose proof (fo_cache _ _ Hok c Hc) as [_ _ Hfl _]. destruct (Hfl _ _ Hf) as (id' & try' & p' & d' & Hi' & Had & Hid).
    rewrite Hi in Hi'. injection Hi' as <- _ _. rewrite Ha in Had. injection Had as <-.
    eapply (step_downloaded _ _ _ _ _ c i id try p body id); [done..|]. unfold verifiedCopy. cbn. by rewrite bool_decide_true by congruence.
  - eapply fill_left_ok; [done..|]. by apply PackCache.step_fill_failed.
  - apply set_access_ok; [done..|]. intros b [[= <-]|]; [|done]. pose proof (fo_cache _ _ Hok c Hc) as [Hr Ha _ _].
    apply Ha in Hk as (ph & Hk). rewrite Hi in Hk. injection Hk as -> <-.
    apply reachable_inv in Hr as [Hr _]. by destruct (so_callers _ _ _ _ _ Hr _ _ _ Hi) as (w & -> & ->).
  - apply set_access_ok; [done..|]. by intros b [|].
  - apply set_access_ok; [done..|]. intros body [|[= Hb]]; [done|]. eapply checked_digest; [|exact Hb]. intros b ->. apply (fo_result _ _ Hok). by left.
  - apply set_access_ok; [done..|]. by intros b [|].
  - destruct Hok as [? ? ? ? ? ? Hca]. split; try done. intros c Hc. by destruct (Hca c Hc).
  - destruct Hok as [? ? ? ? ? ? Hca]. split; try done. intros c Hc. by destruct (Hca c Hc).
  - destruct Hok as [He ? ? ? ? ? Hca]. split; try done; [by cbn; etrans|]. intros c Hc. by destruct (Hca c Hc).
Qed.

Lemma fetch_reachable_ok w0 index cached s : PackFetch.reachable dir suffix maxBytes digest conf view env w0 index cached s -> fetch_ok w0 s.
Proof.
  intros Hr. apply (rtc_ind_r (fetch_ok w0)) in Hr; [done| |intros x y _ Hxy Hx; by eapply step_ok].
  assert (Hidle : forall k, getAccess (start w0 index cached) k = Idle) by (intros k; unfold getAccess; cbn; by rewrite lookup_empty).
  split; try done.
  - intros k body. rewrite Hidle. by intros [|].
  - cbn. unfold maxLivePackFetches. lia.
  - intros c Hc. cbn in Hc. destruct cached; [|done]. injection Hc as <-. split; [apply rtc_refl| |done..]. intros k i. by rewrite Hidle.
Qed.

(** ** What a read is given *)

(** A finished copy, or what has been counted of one that is still arriving:
    the [copies] of Storer.v. *)
Definition tier (s : Sys) (k : nat * bytes) : option (bool * bytes) :=
  match bulkCopy s k with
  | Some body => Some (true, body)
  | None => (fun ps => (false, take (Z.to_nat (ps_n ps)) (ps_file ps))) <$> partialPack s k
  end.

Lemma partial_served w0 s id ps : fetch_ok w0 s -> partial s id = Some ps ->
  exists d, download_ok w0 d /\ dl_stream d = ps /\ snd (dl_of d) = id.
Proof.
  intros Hok Hp. unfold partial in Hp. destruct (f_cache s) as [c|] eqn:Hc; cbn in Hp; [|done].
  destruct (entries (cache c) !! id) as [p|] eqn:He; cbn in Hp; [|done]. destruct (f_streams s !! p) as [a|] eqn:Hs; cbn in Hp; [|done].
  apply fmap_Some in Hp as (d & Hd & ->). exists d. split; [by eapply fo_downloads|]. split; [done|].
  destruct (fo_cache _ _ Hok c Hc) as [Hr _ Hf Hst]. destruct (Hst p a Hs) as (i & id' & try & Hi & Hci).
  destruct (Hf i a Hi) as (id2 & try2 & p2 & d2 & Hci2 & Hd2 & Hid). rewrite Hci in Hci2. injection Hci2 as <- <- <-.
  rewrite Hd in Hd2. injection Hd2 as <-. rewrite Hid.
  apply reachable_inv in Hr as [Hr _]. pose proof (so_callers _ _ _ _ _ Hr _ _ _ Hci) as [[Hm _] _].
  pose proof (co_wf _ _ _ _ _ (so_cache _ _ _ _ _ Hr)) as Hwf.
  destruct (Hwf _ _ He) as (e1 & He1 & <-), (Hwf _ _ Hm) as (e2 & He2 & <-). congruence.
Qed.

Lemma partialPack_served w0 s k ps : fetch_ok w0 s -> partialPack s k = Some ps ->
  0 <= ps_n ps <= Z.of_nat (length (ps_file ps)) /\ exists st, served w0 (st, snd k) (ps_file ps).
Proof.
  intros Hok Hp. assert (exists d, download_ok w0 d /\ dl_stream d = ps /\ snd (dl_of d) = snd k) as (d & (Hn & Hs & _) & <- & Hid).
  { unfold partialPack in Hp. destruct (getAccess s k) as [| |a|i|r|r] eqn:Hk; try by eapply partial_served.
    apply fmap_Some in Hp as (d & Hd & ->). exists d. split; [by eapply fo_downloads|]. split; [done|].
    destruct (fo_copying _ _ Hok _ _ Hk) as (d' & Hd' & <-). congruence. }
  split; [done|]. exists (fst (dl_of d)). apply served_prefix in Hs. rewrite <-Hid. by destruct (dl_of d).
Qed.

(** A read through the stream is a read of what has been counted. *)
Lemma streamReader_tier ps off n : 0 <= ps_n ps <= Z.of_nat (length (ps_file ps)) -> 0 <= off -> 0 <= n -> off + n < 2 ^ 63 ->
  streamReader (Some ps) off n = readerFor (take (Z.to_nat (ps_n ps)) (ps_file ps)) off n.
Proof.
  intros Hps Ho Hn Hlt. unfold streamReader, readerFor. rewrite i64_id by (unfold in_i64; lia).
  rewrite length_take. replace (Z.of_nat (Z.to_nat (ps_n ps) `min` length (ps_file ps))) with (ps_n ps) by lia.
  destruct (off + n >? ps_n ps) eqn:E; [done|]. b2p. f_equal.
  rewrite <-(take_drop (Z.to_nat (ps_n ps)) (ps_file ps)) at 1. apply section_prefix; [done..|]. rewrite length_take. lia.
Qed.

Lemma tier_container w0 s id body st : fetch_ok w0 s ->
  (forall st b o, env (view w0) b -> b !! packKey conf (st, id) = Some o -> o_body o = body) -> (forall x, digest x = id -> x = body) ->
  match tier s (st, id) with
  | Some (true, x) => x = body
  | Some (false, x) => exists rest, body = x ++ rest
  | None => True
  end.
Proof.
  intros Hok Hbucket Hdig. unfold tier. destruct (bulkCopy s (st, id)) as [x|] eqn:Hb.
  - unfold bulkCopy in Hb. destruct (getAccess s (st, id)) as [| | | | |[y|]] eqn:Hk; try done. injection Hb as ->.
    apply Hdig. exact (fo_result _ _ Hok _ _ (or_intror Hk)).
  - destruct (partialPack s (st, id)) as [ps|] eqn:Hp; cbn; [|done].
    destruct (partialPack_served _ _ _ _ Hok Hp) as [_ (st' & [Hnil|(b & o & Hb' & Ho & [rest Hr])])]; cbn [snd] in *.
    + exists body. by rewrite Hnil, take_nil.
    + rewrite (Hbucket _ _ _ Hb' Ho) in Hr. exists (drop (Z.to_nat (ps_n ps)) (ps_file ps) ++ rest). by rewrite app_assoc, take_drop.
Qed.
End spec.

(** ** Properties *)

(** C16: reading a packed object is correct at every moment of the downloads of
    its container. While several storers start, share, lose and finish downloads,
    a read that finds the container staged, in a finished copy, in the counted part
    of a running download of this or of another storer, or in the bucket, gets
    exactly the record's bytes; it fails only as decoding them, a missing
    container or the transport fails. *)
Theorem reads_during_downloads `{GoGit, Zstd, BodyStream} (view : World -> bucket) (env : bucket -> bucket -> Prop)
    (dir suffix : bytes) (maxBytes : Z) (digest : bytes -> bytes) (conf : nat -> config)
    (w0 : World) (index : nat -> packIndex) (cached : bool) (s : Sys) (st : nat) (e : packEntry) (body : bytes) (q q' : St) (r : gores bytes) :
  S3Laws view env -> BodyStreamLaws view env ->
  PackFetch.reachable dir suffix maxBytes digest conf view env w0 index cached s ->
  (forall st b o, env (view w0) b -> b !! packKey conf (st, e_id e) = Some o -> o_body o = body) ->
  (forall x, digest x = e_id e -> x = body) ->
  world q = f_world s -> copies q !! e_id e = tier s (st, e_id e) ->
  (forall path x, localPath (e_id e) (packs q) = Some path -> files q !! path = Some x -> x = body) ->
  record_inside e body -> packPayload (conf st) e q = (r, q') ->
  r = decodePackedPayload e (section body (e_offset e) (e_stored e)) \/
  r = Err (Sent ErrObjectNotFound) \/ (exists x, foreign x /\ r = Err (Wrapf x)).
Proof.
  intros Hl Hbl Hr Hbucket Hdig Hw Hq Hstaged Hin Hp. apply fetch_reachable_ok in Hr as Hok; [|done..].
  pose proof (tier_container view env dir suffix maxBytes digest conf w0 s (e_id e) body st Hok Hbucket Hdig) as Ht.
  eapply (packed_payload_any_tier view env (conf st)); [exact Hl| |exact Hin|exact Hp]. split; [done|..].
  - intros x Hx. rewrite Hq in Hx. by rewrite Hx in Ht.
  - intros x Hx. rewrite Hq in Hx. by rewrite Hx in Ht.
  - intros b o Hb Hk. eapply (Hbucket st); [|exact Hk]. rewrite Hw in Hb. destruct Hok as [He _ _ _ _ _ _].
    pose proof (@env_preorder _ _ _ Hl) as [_ Htr]. by eapply Htr.
Qed.

(** No more than [maxLivePackFetches] downloads hold a slot and use the
    network at any time, whatever the number of storers and containers, and a
    storer's finished copy has the digest that is its container's name. *)
Theorem downloads_limited `{GoGit, Zstd, BodyStream} (view : World -> bucket) (env : bucket -> bucket -> Prop)
    (dir suffix : bytes) (maxBytes : Z) (digest : bytes -> bytes) (conf : nat -> config)
    (w0 : World) (index : nat -> packIndex) (cached : bool) (s : Sys) :
  S3Laws view env -> BodyStreamLaws view env ->
  PackFetch.reachable dir suffix maxBytes digest conf view env w0 index cached s ->
  (size (filter (fun x => live (dl_phase x.2) = true) (f_downloads s)) <= maxLivePackFetches)%nat /\
  forall k body, bulkCopy s k = Some body -> digest body = snd k.
Proof.
  intros Hl Hbl Hr. apply fetch_reachable_ok in Hr as [_ _ _ Hres Hs Hm _]; [|done..]. split; [unfold liveCount in Hs; lia|].
  intros k body Hb. unfold bulkCopy in Hb. destruct (getAccess s k) as [| | | | |[y|]] eqn:Hk; try done. injection Hb as ->.
  exact (Hres _ _ (or_intror Hk)).
Qed.

(** ** Witnesses *)

#[export] Instance plain_stream : @BodyStream Plain.plain_s3 := {| delivered out := match g_body out with Ok body => body | Err _ => [] end |}.
#[export] Instance plain_stream_laws : @BodyStreamLaws Plain.plain_s3 plain_stream (fun b => b) eq.
Proof.
  split. intros k w out w' Hg. apply (@GetObject_ok Plain.plain_s3 (fun b => b) eq Plain.plain_s3_laws) in Hg as (b & o & <- & Hk & <- & _ & _ & Hbody & _).
  exists w, o. do 3 (split; [done|]). cbn. destruct (g_body out) as [body|]; [by rewrite (Hbody body)|apply prefix_nil].
Qed.

Definition toy_digest (b : bytes) : bytes := if bool_decide (b = chain_body) then bs "p1" else [].
Definition toy_world : bucket := {[binKey unit_config (bs "p1") := {| o_body := chain_body; o_meta := ∅ |}]}.
Definition toy_conf (_ : nat) : config := unit_config.
Definition toy_key : nat * bytes := (0%nat, bs "p1").
Abbreviation toy_start := (@PackFetch.start toy_git Plain.plain_s3 toy_world (fun _ => newPackIndex 20) false).
Abbreviation toy_step := (@PackFetch.step toy_git Plain.plain_s3 plain_stream (bs "/tmp") (bs ".bin") 5 toy_digest toy_conf (fun b => b) eq).
Abbreviation toy_copy := (@copy_step toy_git Plain.plain_s3 plain_stream toy_conf 0).
Abbreviation toy_reachable :=
  (@PackFetch.reachable toy_git Plain.plain_s3 plain_stream (bs "/tmp") (bs ".bin") 5 toy_digest toy_conf (fun b => b) eq toy_world (fun _ => newPackIndex 20) false).

(** The download of one pack: seven bytes have arrived in [g6], all in [g11]. *)
Definition e0 : download := newDownload toy_key.
Definition e1 : download := to_phase Requesting e0.
Definition e2 : download := to_phase (Receiving (bs "helloWO" ++ bs "RLD") None) e1.
Definition e3 : download := wrote (bs "helloWO") (Counting (bs "RLD") None) e2.
Definition e4 : download := counted (Receiving (bs "RLD" ++ []) None) e3.
Definition e5 : download := wrote (bs "RLD") (Counting [] None) e4.
Definition e6 : download := counted (Receiving [] None) e5.
Definition e7 : download := to_phase (Ended (Ok tt)) e6.
Abbreviation toy_sys := (@Sys toy_git Plain.plain_s3).
Definition g1 : toy_sys := set_access toy_key Begun toy_start.
Definition g2 : toy_sys := set_access toy_key (Copying 0) (set_download 0 e0 g1).
Definition g3 : toy_sys := set_download 0 e1 (set_request (H1 := Plain.plain_s3) (f_world g2) 1 g2).
Definition g4 : toy_sys := set_download 0 e2 (set_request (H1 := Plain.plain_s3) toy_world 1 g3).
Definition g5 : toy_sys := set_download 0 e3 g4.
Definition g6 : toy_sys := set_download 0 e4 g5.
Definition g7 : toy_sys := set_download 0 e5 g6.
Definition g8 : toy_sys := set_download 0 e6 g7.
Definition g9 : toy_sys := set_download 0 e7 (set_request (H1 := Plain.plain_s3) (f_world g8) 0 g8).
Definition g10 : toy_sys := set_access toy_key (Checking (Ok chain_body)) g9.
Definition g11 : toy_sys := set_access toy_key (Settled (Ok chain_body)) g10.

Lemma then_copy s d s' : toy_reachable s -> f_downloads s !! 0%nat = Some d -> toy_copy d s s' -> toy_reachable s'.
Proof. intros Hr Hd Hs. eapply rtc_r; [exact Hr|]. exact (step_copy _ _ _ _ _ _ _ s 0 d s' Hd Hs). Qed.

Lemma g6_reachable : toy_reachable g6.
Proof.
  assert (toy_reachable g2) as Hr.
  { eapply rtc_r; [apply rtc_once|]; [exact (step_start _ _ _ _ _ _ _ toy_start toy_key)|].
    exact (step_temp _ _ _ _ _ _ _ g1 toy_key 0 eq_refl eq_refl eq_refl). }
  assert (toy_reachable g3) as Hr3 by (eapply (then_copy g2 e0); [exact Hr|reflexivity|]; apply (copy_slot toy_conf 0 e0 g2); [reflexivity|cbn; unfold maxLivePackFetches; lia]).
  assert (toy_reachable g4) as Hr4 by (eapply (then_copy g3 e1); [exact Hr3|reflexivity|]; exact (copy_reply toy_conf 0 e1 g3 _ _ eq_refl eq_refl)).
  assert (toy_reachable g5) as Hr5 by (eapply (then_copy g4 e2); [exact Hr4|reflexivity|]; exact (copy_write toy_conf 0 e2 g4 _ _ _ eq_refl)).
  eapply (then_copy g5 e3); [exact Hr5|reflexivity|]. exact (copy_count toy_conf 0 e3 g5 _ _ eq_refl).
Qed.

Lemma g11_reachable : toy_reachable g11.
Proof.
  assert (toy_reachable g7) as Hr7 by (eapply (then_copy g6 e4); [exact g6_reachable|reflexivity|]; exact (copy_write toy_conf 0 e4 g6 _ _ _ eq_refl)).
  assert (toy_reachable g8) as Hr8 by (eapply (then_copy g7 e5); [exact Hr7|reflexivity|]; exact (copy_count toy_conf 0 e5 g7 _ _ eq_refl)).
  assert (toy_reachable g9) as Hr9 by (eapply (then_copy g8 e6); [exact Hr8|reflexivity|]; exact (copy_end toy_conf 0 e6 g8 None eq_refl)).
  eapply (rtc_r _ g10); [eapply rtc_r; [exact Hr9|]|].
  - exact (step_copied (bs "/tmp") (bs ".bin") 5 toy_digest toy_conf _ _ g9 toy_key 0 e7 (Ok chain_body) eq_refl eq_refl eq_refl).
  - exact (step_check (bs "/tmp") (bs ".bin") 5 toy_digest toy_conf _ _ g10 toy_key (Ok chain_body) eq_refl).
Qed.

Lemma reads_during_downloads_witness :
  let q := with_world (H1 := Plain.plain_s3) toy_world (with_files ∅ (with_copies {[bs "p1" := (false, bs "helloWO")]} chain_state)) in
  tier g6 (0%nat, bs "p1") = Some (false, bs "helloWO") /\
  (let r := fst (@packPayload toy_git toy_zstd Plain.plain_s3 unit_config (entry_n 8) q) in
   r = decodePackedPayload (entry_n 8) (section chain_body (e_offset (entry_n 8)) (e_stored (entry_n 8))) \/
   r = Err (Sent ErrObjectNotFound) \/ (exists x, foreign x /\ r = Err (Wrapf x))).
Proof.
  intros q. assert (Ht : tier g6 (0%nat, bs "p1") = Some (false, bs "helloWO")) by reflexivity. split; [exact Ht|].
  assert (Hin : record_inside (entry_n 8) chain_body).
  { split; [vm_compute; discriminate|]. split; [vm_compute; reflexivity|]. split; [vm_compute; discriminate|reflexivity]. }
  assert (Hid : e_id (entry_n 8) = bs "p1") by reflexivity.
  assert (Hfiles : files q = ∅) by reflexivity.
  assert (Hcopy : copies q !! bs "p1" = Some (false, bs "helloWO")) by reflexivity.
  assert (Hbucket : toy_world !! binKey unit_config (bs "p1") = Some {| o_body := chain_body; o_meta := ∅ |}) by reflexivity.
  refine (@reads_during_downloads toy_git toy_zstd Plain.plain_s3 plain_stream (fun b => b) eq (bs "/tmp") (bs ".bin") 5 toy_digest toy_conf
    toy_world (fun _ => newPackIndex 20) false g6 0 (entry_n 8) chain_body q
    (snd (@packPayload toy_git toy_zstd Plain.plain_s3 unit_config (entry_n 8) q)) _ Plain.plain_s3_laws plain_stream_laws g6_reachable _ _ _ _ _ Hin _).
  - intros st b o <- Ho. rewrite Hid in Ho. unfold packKey in Ho. cbn [fst snd toy_conf] in Ho. unfold toy_conf in Ho. rewrite Hbucket in Ho. by injection Ho as <-.
  - intros x. rewrite Hid. unfold toy_digest. case_bool_decide; done.
  - reflexivity.
  - rewrite Hid, Ht. exact Hcopy.
  - intros path x _ Hx. rewrite Hfiles, lookup_empty in Hx. discriminate Hx.
  - apply surjective_pairing.
Defined.

Lemma downloads_limited_witness : bulkCopy g11 toy_key = Some chain_body /\ toy_digest chain_body = bs "p1".
Proof.
  split; [reflexivity|].
  exact (proj2 (@downloads_limited toy_git toy_zstd Plain.plain_s3 plain_stream (fun b => b) eq (bs "/tmp") (bs ".bin") 5 toy_digest toy_conf
    toy_world (fun _ => newPackIndex 20) false g11 Plain.plain_s3_laws plain_stream_laws g11_reachable) toy_key chain_body eq_refl).
Defined.
