(* ===== verification/GitObjects.v ===== *)
(** * Git trees, commits and tags (go-git's plumbing/object)

    The decoded objects and the interface through which internal/snapshot,
    internal/pushevents and cmd/objgitd read them: [EncodedObjectStorer].
    Decoding an object's bytes is go-git's ([GitDecode]); what a store promises
    its readers is the class [Reads], and the storer of this program is an
    instance of the interface. *)

From S2P Require Import Prelude GoLib S3 Concrete Codec Cue PackTable PackIndex Storer Refs Objects.

(** ** plumbing/filemode *)

Definition Dir : Z := 16384.          (* 0o040000 *)
Definition Regular : Z := 33188.      (* 0o100644 *)
Definition Deprecated : Z := 33204.   (* 0o100664 *)
Definition Executable : Z := 33261.   (* 0o100755 *)
Definition Symlink : Z := 40960.      (* 0o120000 *)
Definition Submodule : Z := 57344.    (* 0o160000 *)

Section objects.
Context `{GoGit}.

Record TreeEntry := { te_name : bytes; te_mode : Z; te_hash : Hash }.
Record Signature := { sg_name : bytes; sg_email : bytes; sg_when : Z }.
(** The fields of [object.Commit] that the program reads. *)
Record Commit := { cm_tree : Hash; cm_parents : list Hash; cm_message : bytes; cm_author : Signature; cm_committer : Signature }.

#[export] Instance TreeEntry_eq_dec : EqDecision TreeEntry.
Proof. solve_decision. Defined.

(** [Tree.Decode], [Commit.Decode] and [Tag.Decode], the last for its target. *)
Class GitDecode := {
  decodeTree : bytes -> option (list TreeEntry);
  decodeCommit : bytes -> option Commit;
  decodeTag : bytes -> option Hash;
}.

(** [storer.EncodedObjectStorer], reading: the type and the content of an object, and its size. *)
Class EncodedObjectStorer (W : Type) := {
  ReadObject : Z -> Hash -> io W (Z * bytes);
  ReadSize : Hash -> io W Z;
}.

(** The store answers a hash with the object of that hash, of the type that was asked for, or not at all. *)
Class Reads {W} `(EncodedObjectStorer W) (db : Hash -> option (Z * bytes)) := {
  ReadObject_ok typ h w t b w' : ReadObject typ h w = (Ok (t, b), w') -> db h = Some (t, b) /\ (typ = AnyObject \/ typ = t);
  ReadSize_ok h w n w' : ReadSize h w = (Ok n, w') -> exists t b, db h = Some (t, b) /\ n = Z.of_nat (length b);
}.

Context `{!GitDecode} {W : Type} `{!EncodedObjectStorer W}.

Definition decoded {A} (r : option A) : gores A := match r with Some a => Ok a | None => Err Errorf end.

(** [object.GetTree], [object.GetCommit] and [object.GetBlob] with its reader. *)
Definition GetTree (h : Hash) : io W (list TreeEntry) := let! (_, b) := ReadObject TreeObject h in lift (decoded (decodeTree b)).
Definition GetCommit (h : Hash) : io W Commit := let! (_, b) := ReadObject CommitObject h in lift (decoded (decodeCommit b)).
Definition GetBlob (h : Hash) : io W bytes := let! (_, b) := ReadObject BlobObject h in ret b.

(** *** What a read tells *)

Context (db : Hash -> option (Z * bytes)) `{!Reads _ db}.

Definition tree_at (h : Hash) (es : list TreeEntry) : Prop := exists b, db h = Some (TreeObject, b) /\ decodeTree b = Some es.
Definition commit_at (h : Hash) (c : Commit) : Prop := exists b, db h = Some (CommitObject, b) /\ decodeCommit b = Some c.
Definition blob_at (h : Hash) (b : bytes) : Prop := db h = Some (BlobObject, b).

Lemma ReadObject_typed typ h w t b w' : typ <> AnyObject -> ReadObject typ h w = (Ok (t, b), w') -> t = typ /\ db h = Some (typ, b).
Proof. intros Ht Hr. apply (ReadObject_ok (db := db)) in Hr as [Hd [?|<-]]; [done|]. by rewrite Hd. Qed.

Lemma get_decoded {A} (typ : Z) (dec : bytes -> option A) h w a w' : typ <> AnyObject ->
  (let! (_, b) := ReadObject typ h in lift (decoded (dec b))) w = (Ok a, w') -> exists b, db h = Some (typ, b) /\ dec b = Some a.
Proof.
  intros Ht Hr. apply io_bind_ok in Hr as ([t b] & w1 & Hr & Hd). apply ReadObject_typed in Hr as [-> Hb]; [|done].
  exists b. split; [done|]. unfold lift, decoded in Hd. destruct (dec b); [|done]. by injection Hd as ->.
Qed.

Lemma GetTree_ok h w es w' : GetTree h w = (Ok es, w') -> tree_at h es.
Proof. by apply get_decoded. Qed.
Lemma GetCommit_ok h w c w' : GetCommit h w = (Ok c, w') -> commit_at h c.
Proof. by apply get_decoded. Qed.
Lemma GetBlob_ok h w b w' : GetBlob h w = (Ok b, w') -> blob_at h b.
Proof.
  intros Hr. apply io_bind_ok in Hr as ([t b'] & w1 & Hr & Hb). injection Hb as -> _.
  by apply ReadObject_typed in Hr as [-> Hb].
Qed.

Lemma tree_at_det h es es' : tree_at h es -> tree_at h es' -> es = es'.
Proof. intros (b & H1 & H2) (b' & H3 & H4). by simplify_eq. Qed.
Lemma commit_at_det h c c' : commit_at h c -> commit_at h c' -> c = c'.
Proof. intros (b & H1 & H2) (b' & H3 & H4). by simplify_eq. Qed.
Lemma blob_at_det h b b' : blob_at h b -> blob_at h b' -> b = b'.
Proof. unfold blob_at. intros. by simplify_eq. Qed.
End objects.

(** *** A loop whose body can fail *)

Section io_fold.
Context {W A B : Type}.

Fixpoint io_fold (f : B -> A -> io W B) (l : list A) (b : B) : io W B :=
  match l with [] => ret b | a :: l' => let! b' := f b a in io_fold f l' b' end.

(** What holds between the accumulator and the elements done so far, at each step. *)
Lemma io_fold_split (P : list A -> B -> Prop) (f : B -> A -> io W B) l b w b' w' :
  P [] b ->
  (forall done x rest b w b' w', l = done ++ x :: rest -> P done b -> f b x w = (Ok b', w') -> P (done ++ [x]) b') ->
  io_fold f l b w = (Ok b', w') -> P l b'.
Proof.
  intros Hb Hf. enough (Hg : forall l2 l1 b w, l = l1 ++ l2 -> P l1 b -> io_fold f l2 b w = (Ok b', w') -> P l b') by (by apply (Hg l [])).
  induction l2 as [|x l2 IH]; intros l1 b0 w0 Hl HP Hr; cbn [io_fold] in Hr.
  { injection Hr as -> _. by rewrite Hl, app_nil_r. }
  apply io_bind_ok in Hr as (b1 & w1 & Hx & Hr). apply (IH (l1 ++ [x]) b1 w1); [by rewrite <-app_assoc| |done].
  eapply Hf; [exact Hl|exact HP|exact Hx].
Qed.

Lemma io_fold_inv (P : list A -> B -> Prop) (f : B -> A -> io W B) l b w b' w' :
  P [] b ->
  (forall done x b w b' w', x ∈ l -> P done b -> f b x w = (Ok b', w') -> P (done ++ [x]) b') ->
  io_fold f l b w = (Ok b', w') -> P l b'.
Proof. intros Hb Hf. apply io_fold_split; [done|]. intros done x rest b1 w1 b2 w2 ->. apply Hf. set_solver. Qed.
End io_fold.

(** *** Calls whose effect stays within a relation *)

Section within.
Context {W : Type} (R : W -> W -> Prop) `{!PreOrder R}.

Definition within {A} (m : io W A) : Prop := forall w r w', m w = (r, w') -> R w w'.

Lemma within_ret {A} (a : A) : within (ret a).
Proof. by intros w r w' [= _ ->]. Qed.
Lemma within_fail {A} e : within (fail (A := A) e).
Proof. by intros w r w' [= _ ->]. Qed.
Lemma within_lift {A} (r : gores A) : within (lift r).
Proof. by intros w r' w' [= _ ->]. Qed.
Lemma within_bind {A B} (m : io W A) (f : A -> io W B) : within m -> (forall a, within (f a)) -> within (io_bind m f).
Proof.
  intros Hm Hf w r w' [(a & w1 & H1 & H2)|(e & H1 & _)]%io_bind_inv; [|by eapply Hm].
  etrans; [by eapply Hm|by eapply Hf].
Qed.
Lemma within_attempt {A} (m : io W A) : within m -> within (attempt m).
Proof. intros Hm w r w' (r0 & _ & Hr)%attempt_inv. by eapply Hm. Qed.
Lemma within_wrapping {A} (m : io W A) : within m -> within (wrapping m).
Proof. intros Hm w r w' [(a & _ & Hr)|(e & _ & Hr)]%wrapping_inv; by eapply Hm. Qed.
Lemma within_fold {A B} (f : B -> A -> io W B) l b : (forall b a, within (f b a)) -> within (io_fold f l b).
Proof. intros Hf. revert b. induction l as [|a l IH]; intros b; [apply within_ret|]. by apply within_bind. Qed.
End within.

Create HintDb within discriminated.
#[export] Hint Resolve within_ret within_fail within_lift within_attempt within_wrapping within_bind within_fold : within.

(** ** The storer of this program as an object store *)

Section tigris.
Context `{GoGit, Zstd, S3, GoGitObjects} (c : config).

#[export] Instance tigris_objects : EncodedObjectStorer St := {|
  ReadObject typ h := let! o := EncodedObject c typ h in ret (eo_typ o, eo_bytes o);
  ReadSize := EncodedObjectSize c;
|}.
End tigris.
