(* ===== verification/Snapshot.v ===== *)
(** * Checkout images of git trees (internal/snapshot, internal/storage/tigris/snapshot.go, cmd/objgitd/snapshots.go)

    The image of a tree is built once, stored under a key that is a function of
    the tree, and opened from there. The EROFS builder is third-party code, the
    class [Erofs]; where images are kept is the interface [Store], which the
    storer and the in-memory store of memstore.go implement. *)

From S2P Require Import Prelude GoLib S3 Concrete Codec Cue PackTable PackIndex Storer Refs Objects GitObjects RepoFs Daemon Lfs ReceivePack.

(** ** Keys (snapshot.go) *)

Definition FormatVersion : Z := 2.
Definition keyPrefix : bytes := bs "snapshots/erofs/".
Definition erofsSuffix : bytes := bs ".erofs".
Definition MetaFormat : bytes := bs "erofs-format".
Definition MetaSHA256 : bytes := bs "erofs-sha256".
Definition MetaTree : bytes := bs "git-tree".
Definition MetaFiles : bytes := bs "erofs-files".

Definition maxName : nat := 255.
Definition maxSymlink : Z := 255 * 4.

(** [strings.ReplaceAll(s, "/", "-")] *)
Definition slash_to_dash (s : bytes) : bytes := (fun x => if bool_decide (x = slash) then bz 45 else x) <$> s.

Definition CacheID (key : bytes) : bytes := bs "erofs-" ++ slash_to_dash (trim_suffix (trim_prefix key keyPrefix) erofsSuffix).

(** ** LFS pointers (ensure.go) *)

Definition pointerVersion : bytes := bs "version https://git-lfs.github.com/spec/v1" ++ [bz 10].
Definition oidPrefix : bytes := bs "oid sha256:".
Definition sizePrefix : bytes := bs "size ".

(** [None]: not a pointer. *)
Definition parseLFSPointer (data : bytes) : gores (option (bytes * Z)) :=
  if negb (has_prefix data pointerVersion) then Ok None else
  match split_byte (bz 10) data with
  | [_; l1; l2; []] =>
      if negb (has_prefix l1 oidPrefix) || negb (has_prefix l2 sizePrefix) then Err Errorf else
      let oid := trim_prefix l1 oidPrefix in
      if negb (length oid =? 64)%nat then Err Errorf else
      if negb (forallb hex_digit oid) then Err Errorf else
      let rawSize := trim_prefix l2 sizePrefix in
      match ParseInt rawSize with
      | None => Err Errorf
      | Some size =>
          if (size <? 0) || negb (bool_decide (FormatInt size = rawSize)) then Err Errorf else Ok (Some (oid, size))
      end
  | _ => Err Errorf
  end.

(** ** The image builder (github.com/Xe/erofs)

    What is added is a directory, a file with its permissions, its size and how
    to open it, or a symbolic link; [node] is what an image holds at a path. *)

Inductive node := Directory (perm : Z) | File (perm : Z) (content : bytes) | Link (target : bytes) (perm : Z).

Section builder.
Context `{GoGit}.

(** [opener(h)], or the closure over [openLFS]. *)
Inductive opener := BlobSource (h : Hash) | LFSSource (oid : bytes) (size : Z).
Inductive planned := PDir (perm : Z) | PFile (perm size : Z) (open : opener) | PLink (target : bytes) (perm : Z).

Class Erofs := {
  Builder : Type;
  NewBuilder : Builder;
  AddDir : bytes -> Z -> Builder -> gores Builder;
  AddFileFunc : bytes -> Z -> Z -> opener -> Builder -> gores Builder;   (** path, permissions, size, source *)
  AddSymlink : bytes -> bytes -> Z -> Builder -> gores Builder;
  (** the image, each file opened as it is reached *)
  Build : forall W : Type, (opener -> io W bytes) -> Builder -> io W bytes;
  OpenImage : bytes -> option (list (bytes * node));                     (** [erofs.Open], walked *)
}.

Context `{!Erofs}.

(** What was added, as it is in the image: a file has the bytes its source gave, of the size it was declared with. *)
Definition filled {W} (open : opener -> io W bytes) (a : bytes * planned) (n : bytes * node) : Prop :=
  fst n = fst a /\
  match snd a with
  | PDir perm => snd n = Directory perm
  | PLink target perm => snd n = Link target perm
  | PFile perm size src => exists content w w', open src w = (Ok content, w') /\ Z.of_nat (length content) = size /\ snd n = File perm content
  end.

Class ErofsLaws (added : Builder -> list (bytes * planned)) := {
  NewBuilder_added : added NewBuilder = [];
  AddDir_added p perm b b' : AddDir p perm b = Ok b' -> added b' = added b ++ [(p, PDir perm)];
  AddFileFunc_added p perm size src b b' : AddFileFunc p perm size src b = Ok b' -> added b' = added b ++ [(p, PFile perm size src)];
  AddSymlink_added p target perm b b' : AddSymlink p target perm b = Ok b' -> added b' = added b ++ [(p, PLink target perm)];
  Build_image W open b (w w' : W) img :
    Build W open b w = (Ok img, w') -> exists ns, OpenImage img = Some ns /\ Forall2 (filled open) (added b) ns;
  (* it changes nothing but through the sources it opens *)
  Build_effect W (R : W -> W -> Prop) open b w r w' : PreOrder R ->
    (forall src w r w', open src w = (r, w') -> R w w') -> Build W open b w = (r, w') -> R w w';
}.
End builder.

Arguments Build {_ _ _} _ _.

(** ** Where images are kept *)

Class Store (W : Type) := {
  StatSnapshot : bytes -> io W Z;
  PutSnapshot : bytes -> bytes -> Z -> gmap bytes bytes -> io W unit;
  OpenSnapshot : bytes -> io W bytes;
}.

(** What the builder relies on. [place k]: where the image of key [k] is kept. *)
Class StoreLaws {W} `(Store W) (view : W -> bucket) (env : bucket -> bucket -> Prop) (place : bytes -> bytes) := {
  store_env :: PreOrder env;
  Stat_ok k w n w' : StatSnapshot k w = (Ok n, w') ->
    exists b o, env (view w) b /\ b !! place k = Some o /\ env b (view w');
  Stat_err k w e w' : StatSnapshot k w = (Err e, w') ->
    exists b, env (view w) b /\ env b (view w') /\ (errors_is e ErrNotExist = true -> b !! place k = None);
  Put_ok k body meta w u w' : PutSnapshot k body (Z.of_nat (length body)) meta w = (Ok u, w') ->
    exists b, env (view w) b /\ env (<[place k := {| o_body := body; o_meta := meta |}]> b) (view w');
  Put_err k body meta w e w' : PutSnapshot k body (Z.of_nat (length body)) meta w = (Err e, w') ->
    env (view w) (view w') \/ exists b, env (view w) b /\ env (<[place k := {| o_body := body; o_meta := meta |}]> b) (view w');
  Open_ok k w body w' : OpenSnapshot k w = (Ok body, w') ->
    exists b o, env (view w) b /\ b !! place k = Some o /\ o_body o = body /\ env b (view w');
}.

(** ** Building (ensure.go) *)

Inductive SnapStatus := StatusBuilt | StatusExists.
Record Result := { res_key : bytes; res_status : SnapStatus; res_files : Z; res_bytes : Z }.

Section ensure.
Context `{GoGit} `{!GitDecode, !Erofs} `{Sha256} {W : Type} `{!EncodedObjectStorer W, !Store W}.
(** [ctx.Err()]; and the repository's LFS objects, if it has any. *)
Context (ctxErr : W -> option goerr) (openLFS : option (bytes -> Z -> io W bytes)).

Definition Key (tree : Hash) : bytes := keyPrefix ++ bs "v" ++ FormatInt FormatVersion ++ bs "/" ++ HashString tree ++ erofsSuffix.

Definition check_ctx : io W unit := fun w => match ctxErr w with Some e => (Err e, w) | None => (Ok tt, w) end.

(** [opener]'s closure, and the one over [openLFS]. *)
Definition open (src : opener) : io W bytes :=
  match src with
  | BlobSource h => wrapping (GetBlob h)
  | LFSSource oid size => match openLFS with Some f => f oid size | None => fail Panic end
  end.

(** The builder and the number of regular files. *)
Definition walker : Type := Builder * Z.

Definition addFile (p : bytes) (e : TreeEntry) (w : walker) : io W walker :=
  let! size := wrapping (ReadSize (te_hash e)) in
  let! (size, src) :=
    (if (0 <? size) && (size <? 1024) then
       let! data := wrapping (GetBlob (te_hash e)) in
       let! ptr := wrapping (lift (parseLFSPointer data)) in
       match ptr with
       | None => ret (size, BlobSource (te_hash e))
       | Some (oid, objectSize) =>
           match openLFS with
           | None => fail Errorf
           | Some _ => ret (objectSize, LFSSource oid objectSize)
           end
       end
     else ret (size, BlobSource (te_hash e))) in
  let perm := if te_mode e =? Executable then 493 else 420 in
  let! b := wrapping (lift (AddFileFunc p perm size src (fst w))) in
  ret (b, snd w + 1).

Definition addSymlink (p : bytes) (e : TreeEntry) (w : walker) : io W walker :=
  let! size := wrapping (ReadSize (te_hash e)) in
  if maxSymlink <? size then fail Errorf else
  let! data := wrapping (GetBlob (te_hash e)) in
  let! b := wrapping (lift (AddSymlink p data 511 (fst w))) in
  ret (b, snd w).

(** One round of the loop in [addTree], whose recursive call is [sub]. *)
Definition addEntry (sub : bytes -> list TreeEntry -> walker -> io W walker) (dir : bytes) (w : walker) (e : TreeEntry) : io W walker :=
  do! check_ctx in
  let p := Join dir (te_name e) in
  if (maxName <? length (te_name e))%nat then fail Errorf else
  if te_mode e =? Dir then
    let! es := wrapping (GetTree (te_hash e)) in
    let! b := wrapping (lift (AddDir p 493 (fst w))) in
    sub p es (b, snd w)
  else if te_mode e =? Submodule then
    let! b := wrapping (lift (AddDir p 493 (fst w))) in ret (b, snd w)
  else if (te_mode e =? Regular) || (te_mode e =? Deprecated) || (te_mode e =? Executable) then addFile p e w
  else if te_mode e =? Symlink then addSymlink p e w
  else fail Errorf.

(** The depth of the trees still to enter bounds the recursion. *)
Fixpoint addTree (fuel : nat) (dir : bytes) (es : list TreeEntry) (w : walker) : io W walker :=
  match fuel with
  | O => fail OutOfFuel
  | S fuel' => io_fold (addEntry (addTree fuel') dir) es w
  end.

Definition meta_of (tree : Hash) (img : bytes) (files : Z) : gmap bytes bytes :=
  {[MetaFormat := FormatInt FormatVersion; MetaSHA256 := Sha256Hex img; MetaTree := HashString tree; MetaFiles := FormatInt files]}.

Definition root_dir : bytes := bs "/".

(** The image and its number of files: from [GetTree] to [Build]. *)
Definition buildImage (fuel : nat) (tree : Hash) : io W (bytes * Z) :=
  let! root := wrapping (GetTree tree) in
  let! (b, files) := addTree fuel root_dir root (NewBuilder, 0) in
  let! img := wrapping (Build open b) in
  ret (img, files).

Definition EnsureWithLFS (fuel : nat) (tree : Hash) : io W Result :=
  let key := Key tree in
  do! check_ctx in
  try! st := StatSnapshot key in
  match st with
  | Ok _ => ret {| res_key := key; res_status := StatusExists; res_files := 0; res_bytes := 0 |}
  | Err e =>
      if negb (errors_is e ErrNotExist) then fail (Wrapf e) else
      let! (img, files) := buildImage fuel tree in
      let size := Z.of_nat (length img) in
      do! wrapping (PutSnapshot key img size (meta_of tree img files)) in
      ret {| res_key := key; res_status := StatusBuilt; res_files := files; res_bytes := size |}
  end.

(** [Open] of open.go: what [erofs.Open] makes of the image's local copy. *)
Definition Open (tree : Hash) : io W (list (bytes * node)) :=
  let! f := wrapping (OpenSnapshot (Key tree)) in
  match OpenImage f with Some ns => ret ns | None => fail (Wrapf Errorf) end.
End ensure.

(** ** The storer's images (internal/storage/tigris/snapshot.go) *)

Section tigris_store.
Context `{GoGit, Zstd, S3, Sha256} (c : config).
(** [snapCache.GetChecked], when a cache is installed: the pack cache of
    packcache.go under another directory, which may run the fetch it is given. *)
Context (GetChecked : option (bytes -> io St (bytes * bytes) -> io St bytes)).

Definition snap_Stat (key : bytes) : io St Z :=
  try! r := request (HeadObject (c_prefix c ++ key)) in
  match r with
  | Ok (_, len) => ret (default 0 len)
  | Err e => if isNotFound e then fail (Wrapf (Sent ErrNotExist)) else fail (Wrapf e)
  end.

Definition snap_Put (key body : bytes) (size : Z) (meta : gmap bytes bytes) : io St unit :=
  do! wrapping (request (PutObject (c_prefix c ++ key) body meta Always)) in ret tt.

(** The bytes copied to the caller's writer, and the digest they must have. *)
Definition snapshotFetch (key : bytes) : io St (bytes * bytes) :=
  try! r := request (GetObject (c_prefix c ++ key)) in
  match r with
  | Err e => if isNotFound e then fail (Wrapf (Sent ErrNotExist)) else fail (Wrapf e)
  | Ok out =>
      let want := default [] (g_meta out !! MetaSHA256) in
      if bool_decide (want = []) then fail Errorf else
      match g_body out with Err e => fail (Wrapf e) | Ok body => ret (body, want) end
  end.

Definition snap_Open (key : bytes) : io St bytes :=
  match GetChecked with
  | Some get => get (CacheID key) (snapshotFetch key)
  | None =>
      let! (body, want) := snapshotFetch key in
      if bool_decide (Sha256Hex body = want) then ret body else fail Errorf
  end.

#[export] Instance tigris_store : Store St := {| StatSnapshot := snap_Stat; PutSnapshot := snap_Put; OpenSnapshot := snap_Open |}.
End tigris_store.

(** ** The store of the tests (memstore.go) *)

Record MemStore := { PutErr : option goerr; ms_objs : gmap bytes s3obj; ms_puts : Z }.
Definition NewMemStore : MemStore := {| PutErr := None; ms_objs := ∅; ms_puts := 0 |}.

Definition mem_Stat (key : bytes) (m : MemStore) : gores Z * MemStore :=
  (match ms_objs m !! key with Some o => Ok (Z.of_nat (length (o_body o))) | None => Err (Wrapf (Sent ErrNotExist)) end, m).
Definition mem_Put (key body : bytes) (size : Z) (meta : gmap bytes bytes) (m : MemStore) : gores unit * MemStore :=
  let m' := {| PutErr := PutErr m; ms_objs := ms_objs m; ms_puts := ms_puts m + 1 |} in
  match PutErr m with
  | Some e => (Err e, m')
  | None =>
      if negb (Z.of_nat (length body) =? size) then (Err Errorf, m') else
      (Ok tt, {| PutErr := None; ms_objs := <[key := {| o_body := body; o_meta := meta |}]> (ms_objs m); ms_puts := ms_puts m + 1 |})
  end.
Definition mem_Open (key : bytes) (m : MemStore) : gores bytes * MemStore :=
  (match ms_objs m !! key with Some o => Ok (o_body o) | None => Err (Wrapf (Sent ErrNotExist)) end, m).

#[export] Instance mem_store : Store MemStore := {| StatSnapshot := mem_Stat; PutSnapshot := mem_Put; OpenSnapshot := mem_Open |}.

(** ** After a push (cmd/objgitd/snapshots.go) *)

Definition maxTagDepth : nat := 16.
Definition tagPrefix : bytes := bs "refs/tags/".
Definition IsTag (n : bytes) : bool := has_prefix n tagPrefix.

Section run.
Context `{GoGit} `{!GitDecode} {W : Type} `{!EncodedObjectStorer W}.

(** The tree of the commit that a reference leads to; [None] when it leads to no commit. *)
Fixpoint peel (depth : nat) (h : Hash) : io W (option Hash) :=
  match depth with
  | O => fail Errorf
  | S depth' =>
      let! (t, b) := wrapping (ReadObject AnyObject h) in
      if t =? CommitObject then let! cm := wrapping (lift (decoded (decodeCommit b))) in ret (Some (cm_tree cm))
      else if t =? TagObject then let! target := wrapping (lift (decoded (decodeTag b))) in peel depth' target
      else ret None
  end.
Definition peelToTree (h : Hash) : io W (option Hash) := peel maxTagDepth h.

(** The comparison of [slices.SortFunc]. *)
Definition tip_leb (a b : refUpdate) : bool :=
  if eqb (IsBranch (u_name a)) (IsBranch (u_name b)) then bytes_leb (u_name a) (u_name b) else IsBranch (u_name a).

(** What a line says of a reference's image: [Built] also says the numbers of files and bytes. *)
Inductive snap_status := Built | Exists | Failed.
Record line := { ln_ref : bytes; ln_tree : Hash; ln_status : snap_status }.

(** [snapshot.EnsureWithLFS] with the arguments of the call: the status, or the error. *)
Context (ensure : Hash -> io W SnapStatus).

(** The trees done so far with their status, and the lines written. *)
Definition seen : Type := gmap Hash snap_status * list line.

Definition run_one (st : seen) (u : refUpdate) : io W seen :=
  let '(done, out) := st in
  if bool_decide (u_new u = ZeroHash) || negb (IsBranch (u_name u) || IsTag (u_name u)) then ret st else
  try! r := peelToTree (u_new u) in
  match r with
  | Err _ | Ok None => ret st
  | Ok (Some tree) =>
      let say s := {| ln_ref := u_name u; ln_tree := tree; ln_status := s |} in
      match done !! tree with
      | Some s => ret (done, out ++ [say (match s with Built => Exists | _ => s end)])
      | None =>
          try! res := ensure tree in
          let s := match res with Ok StatusBuilt => Built | Ok StatusExists => Exists | Err _ => Failed end in
          ret (<[tree := s]> done, out ++ [say s])
      end
  end.

Definition runSnapshots (updates : list refUpdate) : io W (list line) :=
  let! (_, out) := io_fold run_one (stable_sort tip_leb updates) (∅, []) in ret out.
End run.
