(* ===== verification/ConcreteGit.v ===== *)
(** * A concrete git object store for the witnesses

    Trees, commits and tags in a simple binary form, a store that is a fixed
    table of objects, and an image builder that keeps what it is given. Nothing
    here models objgit. *)

From S2P Require Import Prelude GoLib S3 Concrete Codec Cue PackTable PackIndex Storer Refs Objects GitObjects RepoFs Daemon Lfs ReceivePack Snapshot.

Definition modes : list Z := [Dir; Regular; Deprecated; Executable; Symlink; Submodule].

(** Entries: the length of the name, the name, the mode's number, the hash. *)
Fixpoint tree_from (fuel : nat) (b : bytes) : option (list (@TreeEntry toy_git)) :=
  match fuel, b with
  | _, [] => Some []
  | S fuel', n :: rest =>
      let k := Z.to_nat (bu n) in
      match drop k rest with
      | m :: rest' =>
          let e := {| te_name := take k rest; te_mode := default 0 (modes !! Z.to_nat (bu m)); te_hash := Some (take 20 rest') |} in
          cons e <$> tree_from fuel' (drop 20 rest')
      | [] => None
      end
  | O, _ => None
  end.

Fixpoint hashes_from (n : nat) (b : bytes) : list (@Hash toy_git) :=
  match n with O => [] | S n' => (Some (take 20 b) : @Hash toy_git) :: hashes_from n' (drop 20 b) end.

Definition no_one : Signature := {| sg_name := []; sg_email := []; sg_when := 0 |}.

(** A commit: its tree, the number of parents, the parents, the message. *)
#[export] Instance toy_decode : @GitDecode toy_git := {|
  decodeTree b := tree_from (length b) b;
  decodeCommit b := match drop 20 b with
    | n :: rest => let k := Z.to_nat (bu n) in
        Some {| cm_tree := (Some (take 20 b) : @Hash toy_git); cm_parents := hashes_from k rest; cm_message := drop (k * 20) rest;
                cm_author := no_one; cm_committer := no_one |}
    | [] => None
    end;
  decodeTag b := Some (Some b);
|}.

Definition toy_entry (name : bytes) (mode : Z) (h : bytes) : bytes := bz (Z.of_nat (length name)) :: name ++ bz mode :: h.
Definition toy_hash (n : Z) : bytes := be_put 20 n.

(** A table of objects as a store without a state of its own. *)
Section table.
Context (objs : list (@Hash toy_git * (Z * bytes))).

Definition db_of (h : @Hash toy_git) : option (Z * bytes) := snd <$> List.find (fun p => bool_decide (fst p = h)) objs.

Definition table_store (W : Type) : @EncodedObjectStorer toy_git W := {|
  ReadObject typ h w :=
    (match db_of h with
     | Some (t, b) => if bool_decide (typ = AnyObject) || bool_decide (typ = t) then Ok (t, b) else Err (Sent ErrObjectNotFound)
     | None => Err (Sent ErrObjectNotFound)
     end, w);
  ReadSize h w := (match db_of h with Some (_, b) => Ok (Z.of_nat (length b)) | None => Err (Sent ErrObjectNotFound) end, w);
|}.

Lemma db_of_in h o : db_of h = Some o -> (h, o) ∈ objs.
Proof.
  unfold db_of. destruct (List.find _ _) as [[h' o']|] eqn:E; [|done]. intros [= <-]. apply find_some in E as [E Hh].
  apply bool_decide_eq_true in Hh. cbn in Hh. subst h'. by apply list_elem_of_In.
Qed.

Lemma table_reads W : Reads (table_store W) db_of.
Proof.
  split.
  - intros typ h w t b w' [= Hr _]. destruct (db_of h) as [[t' b']|]; [|done].
    destruct (_ || _) eqn:E; [|done]. injection Hr as -> ->. split; [done|]. by apply orb_true_iff in E as [?%bool_decide_eq_true|?%bool_decide_eq_true]; auto.
  - intros h w n w' [= Hr _]. destruct (db_of h) as [[t b]|]; [|done]. injection Hr as <-. eauto.
Qed.

Lemma table_no_fuel W typ h w : fst (@ReadObject _ _ (table_store W) typ h w) <> Err OutOfFuel.
Proof. cbn. by destruct (db_of h) as [[t b]|]; [destruct (_ || _)|]. Qed.

Lemma table_quiet W (R : W -> W -> Prop) `{!PreOrder R} typ h : within R (@ReadObject _ _ (table_store W) typ h).
Proof. by intros w r w' [= _ ->]. Qed.
Lemma table_quiet_size W (R : W -> W -> Prop) `{!PreOrder R} h : within R (@ReadSize _ _ (table_store W) h).
Proof. by intros w r w' [= _ ->]. Qed.
End table.

(** ** A builder *)

Fixpoint pos_bytes (p : positive) : bytes :=
  match p with xH => [] | xO p' => bz 0 :: pos_bytes p' | xI p' => bz 1 :: pos_bytes p' end.
Fixpoint bytes_pos (b : bytes) : positive :=
  match b with [] => xH | x :: b' => if bool_decide (x = bz 0) then xO (bytes_pos b') else xI (bytes_pos b') end.
Lemma bytes_pos_bytes p : bytes_pos (pos_bytes p) = p.
Proof. induction p as [p IH|p IH|]; cbn; [by rewrite IH..|done]. Qed.

#[export] Instance node_eq_dec : EqDecision node.
Proof. solve_decision. Defined.
#[export] Program Instance node_countable : Countable node :=
  inj_countable' (fun n => match n with Directory p => inl (inl p) | File p b => inl (inr (p, b)) | Link t p => inr (t, p) end)
    (fun x => match x with inl (inl p) => Directory p | inl (inr (p, b)) => File p b | inr (t, p) => Link t p end) _.
Next Obligation. by intros []. Qed.

Definition open_one {W} (open : @opener toy_git -> io W bytes) (a : bytes * planned) : io W (bytes * node) :=
  match snd a with
  | PDir perm => ret (fst a, Directory perm)
  | PLink target perm => ret (fst a, Link target perm)
  | PFile perm size src =>
      let! b := open src in if bool_decide (Z.of_nat (length b) = size) then ret (fst a, File perm b) else fail Errorf
  end.

#[export] Instance toy_erofs : @Erofs toy_git := {|
  Builder := list (bytes * planned);
  NewBuilder := [];
  AddDir p perm b := Ok (b ++ [(p, PDir perm)]);
  AddFileFunc p perm size src b := Ok (b ++ [(p, PFile perm size src)]);
  AddSymlink p target perm b := Ok (b ++ [(p, PLink target perm)]);
  Build W open b := let! ns := io_fold (fun ns a => let! n := open_one open a in ret (ns ++ [n])) b [] in ret (pos_bytes (encode ns));
  OpenImage img := decode (bytes_pos img);
|}.

#[export] Instance toy_erofs_laws : @ErofsLaws toy_git toy_erofs (fun b => b).
Proof.
  split; cbn; try by intros; simplify_eq.
  - intros W open b w w' img Hr. apply io_bind_ok in Hr as (ns & w1 & Hr & Hi). injection Hi as <- _.
    exists ns. split; [by rewrite bytes_pos_bytes, decode_encode|]. revert Hr.
    apply (io_fold_inv (fun done ns => Forall2 (filled open) done ns)); [constructor|].
    intros done [p pn] ns1 w2 ns2 w3 _ Hd Hx. apply io_bind_ok in Hx as (n & w4 & Hx & Hn). injection Hn as <- _.
    apply Forall2_app; [done|]. constructor; [|constructor]. unfold open_one in Hx. cbn in Hx. destruct pn as [perm|perm size src|target perm].
    + by injection Hx as <- _.
    + apply io_bind_ok in Hx as (content & w5 & Hx & Hl). case_bool_decide; [|done]. injection Hl as <- _. split; [done|]. cbn. eauto 10.
    + by injection Hx as <- _.
  - intros W R open b w r w' HR Ho. apply within_bind; [done| |intros; by apply within_ret]. apply within_fold; [done|]. intros ns a.
    apply within_bind; [done| |intros; by apply within_ret]. unfold open_one. destruct (snd a); try by apply within_ret.
    apply within_bind; [done|intros ? ? ?; apply Ho|]. intros content. destruct (bool_decide _); [by apply within_ret|by apply within_fail].
Qed.
