(* ===== verification/SnapshotSpec.v ===== *)
(** * What the images promise (internal/snapshot, cmd/objgitd/snapshots.go)

    Pointers are recognised exactly, keys name their tree, an image that was
    built is the checkout of its tree, building twice changes nothing, and the
    images of a push do not depend on the order of its commands. *)

From S2P Require Import Prelude GoLib S3 Concrete Codec Cue PackTable PackIndex Storer Refs Objects GitObjects RepoFs Daemon Lfs ReceivePack Snapshot ConcreteGit.

(** ** LFS pointers *)

Lemma split_byte_app x a s : x ∉ a -> split_byte x (a ++ x :: s) = a :: split_byte x s.
Proof.
  induction a as [|y a IH]; intros Hx; cbn; [by rewrite bool_decide_true|].
  rewrite bool_decide_false, IH by set_solver. done.
Qed.

Lemma split_byte_inv x s p ps : split_byte x s = p :: ps ->
  x ∉ p /\ ((ps = [] /\ s = p) \/ exists s', s = p ++ x :: s' /\ split_byte x s' = ps).
Proof.
  revert p ps. induction s as [|y s IH]; intros p ps; cbn; [intros [= <- <-]; set_solver|].
  case_bool_decide as Hy; [intros [= <- <-]; subst y; split; [set_solver|by right; exists s]|].
  destruct (split_byte x s) as [|q qs] eqn:Es; [by destruct s; cbn in Es; repeat case_match|].
  intros [= <- <-]. destruct (IH _ _ eq_refl) as [Hq [[-> ->]|(s' & -> & Hs')]].
  - split; [set_solver|]. by left.
  - split; [set_solver|]. right. by exists s'.
Qed.

Lemma dec_digits_digits fuel z acc : 0 <= z -> Forall (fun b => is_digit b = true) acc -> Forall (fun b => is_digit b = true) (dec_digits fuel z acc).
Proof.
  revert z acc. induction fuel as [|f IH]; intros z acc Hz Ha; cbn [dec_digits]; [done|].
  destruct (z <? 10) eqn:E; b2p.
  - constructor; [|done]. by apply digit_ok.
  - apply IH; [apply Z.div_pos; lia|]. constructor; [|done]. apply digit_ok, Z.mod_pos_bound. lia.
Qed.

Lemma FormatInt_digits z : 0 <= z -> Forall (fun b => is_digit b = true) (FormatInt z).
Proof. intros Hz. unfold FormatInt. destruct (z <? 0) eqn:E; b2p; [lia|]. by apply dec_digits_digits. Qed.

(** No newline among the digits. *)
Lemma newline_not_in (P : byte -> bool) l : P (bz 10) = false -> Forall (fun b => P b = true) l -> bz 10 ∉ l.
Proof. intros HP Hl Hin. rewrite Forall_forall in Hl. apply Hl in Hin. congruence. Qed.

#[local] Ltac decide_closed := refine (proj1 (bool_decide_eq_true _) _); reflexivity.

Lemma Forall_forall_b {A} (f : A -> bool) l : forallb f l = true <-> Forall (fun x => f x = true) l.
Proof. rewrite forallb_forall, Forall_forall. by setoid_rewrite list_elem_of_In. Qed.

Definition pointer_text (oid : bytes) (size : Z) : bytes :=
  pointerVersion ++ (oidPrefix ++ oid) ++ bz 10 :: (sizePrefix ++ FormatInt size) ++ bz 10 :: [].
Definition pointer_valid (oid : bytes) (size : Z) : Prop :=
  length oid = 64%nat /\ forallb hex_digit oid = true /\ 0 <= size < 2 ^ 63.

Lemma split_pointer oid size : forallb hex_digit oid = true -> 0 <= size ->
  split_byte (bz 10) (pointer_text oid size) = [bs "version https://git-lfs.github.com/spec/v1"; oidPrefix ++ oid; sizePrefix ++ FormatInt size; []].
Proof.
  intros Ho Hs. unfold pointer_text, pointerVersion. rewrite <-app_assoc. cbn [app].
  rewrite split_byte_app by (by decide_closed).
  rewrite split_byte_app, split_byte_app; [done|..].
  - rewrite not_elem_of_app. split; [by decide_closed|]. apply (newline_not_in is_digit); [done|by apply FormatInt_digits].
  - rewrite not_elem_of_app. split; [by decide_closed|]. apply (newline_not_in hex_digit); [done|]. by apply Forall_forall_b.
Qed.

Lemma parse_pointer_text oid size : pointer_valid oid size -> parseLFSPointer (pointer_text oid size) = Ok (Some (oid, size)).
Proof.
  intros (Hl & Ho & Hs). unfold parseLFSPointer.
  rewrite split_pointer by (done || lia). unfold pointer_text at 1. rewrite !has_prefix_app, !trim_prefix_app, Hl, Ho, ParseInt_FormatInt by lia.
  cbn [negb orb Nat.eqb]. rewrite bool_decide_true by done. destruct (size <? 0) eqn:E; b2p; [lia|done].
Qed.

Lemma trim_of_prefix s p : has_prefix s p = true -> s = p ++ trim_prefix s p.
Proof. intros [r ->]%has_prefix_spec. by rewrite trim_prefix_app. Qed.

Lemma parse_digits_nonneg s n : parse_digits s = Some n -> 0 <= n.
Proof.
  enough (Hg : forall s acc n, (forall z, acc = Some z -> 0 <= z) -> fold_left digit_step s acc = Some n -> 0 <= n).
  { unfold parse_digits. destruct s as [|b s]; [done|]. apply Hg. by intros ? [= <-]. }
  clear s n. induction s as [|b s IH]; intros acc n Ha; cbn [fold_left]; [by apply Ha|]. apply IH.
  unfold digit_step, is_digit. destruct acc as [z|]; [|done]. specialize (Ha z eq_refl).
  destruct (48 <=? bu b) eqn:E; cbn [andb]; [|done]. destruct (bu b <=? 57); [|done]. intros ? [= <-]. b2p. lia.
Qed.

Lemma ParseInt_bound s z : ParseInt s = Some z -> z < 2 ^ 63.
Proof.
  unfold ParseInt. destruct (match s with [] => _ | _ => _ end) as [[] l]; destruct (parse_digits l) as [n|] eqn:E; try done;
    apply parse_digits_nonneg in E.
  - destruct (n <=? 2 ^ 63) eqn:E1; [|done]. intros [= <-]. lia.
  - destruct (n <? 2 ^ 63) eqn:E1; [|done]. intros [= <-]. b2p. lia.
Qed.

Lemma parse_pointer_inv data oid size : parseLFSPointer data = Ok (Some (oid, size)) -> data = pointer_text oid size /\ pointer_valid oid size.
Proof.
  unfold parseLFSPointer. destruct (has_prefix data pointerVersion) eqn:Hv; cbn [negb]; [|done]. apply has_prefix_spec in Hv as [rest ->].
  assert (Hsp : split_byte (bz 10) (pointerVersion ++ rest) = bs "version https://git-lfs.github.com/spec/v1" :: split_byte (bz 10) rest).
  { unfold pointerVersion. rewrite <-app_assoc. apply split_byte_app. decide_closed. }
  rewrite Hsp. clear Hsp. destruct (split_byte (bz 10) rest) as [|l1 [|l2 [|[|??] [|]]]] eqn:Es; try done.
  apply split_byte_inv in Es as [_ [[? _]|(r1 & -> & Es)]]; [done|]. apply split_byte_inv in Es as [_ [[? _]|(r2 & -> & Es)]]; [done|].
  apply split_byte_inv in Es as [_ [[_ ->]|(r3 & _ & Es)]]; [|by destruct r3; cbn in Es; repeat case_match].
  destruct (has_prefix l1 oidPrefix) eqn:H1; [|done]. destruct (has_prefix l2 sizePrefix) eqn:H2; [|done]. cbn [negb orb].
  destruct (Nat.eqb_spec (length (trim_prefix l1 oidPrefix)) 64); [|done]. destruct (forallb hex_digit _) eqn:Ho; [|done]. cbn [negb].
  destruct (ParseInt _) as [n|] eqn:Hp; [|done]. destruct (n <? 0) eqn:Hn; [done|]. b2p. case_bool_decide as Hf; [|done]. cbn [negb orb].
  intros [= <- <-]. split.
  - unfold pointer_text. by rewrite Hf, <-!trim_of_prefix by done.
  - split; [done|]. split; [done|]. split; [lia|]. by eapply ParseInt_bound.
Qed.

(** A blob is taken for an LFS object exactly when it is the canonical
    pointer to it, so no other file is ever replaced and no pointer is missed:
    what starts like a pointer and is none is refused, and the rest is a plain
    file. *)
Theorem pointer_parse_exact (data : bytes) :
  match parseLFSPointer data with
  | Ok (Some (oid, size)) => data = pointer_text oid size /\ pointer_valid oid size
  | Ok None => ~ has_prefix data pointerVersion
  | Err e => e = Errorf /\ has_prefix data pointerVersion /\ forall oid size, pointer_valid oid size -> data <> pointer_text oid size
  end.
Proof.
  destruct (parseLFSPointer data) as [[[oid size]|]|e] eqn:E.
  - by apply parse_pointer_inv.
  - unfold parseLFSPointer in E. destruct (has_prefix data pointerVersion); [|by intros ?]. cbn [negb] in E. repeat case_match; naive_solver.
  - split_and!.
    + unfold parseLFSPointer in E. repeat case_match; naive_solver.
    + unfold parseLFSPointer in E. by destruct (has_prefix data pointerVersion).
    + intros oid size Hv ->. by rewrite parse_pointer_text in E.
Qed.

(** ** Keys *)

Section keys.
Context `{GoGit} `{!GoGitLaws}.

(** The text of a hash that reads back: every hash of a supported width. *)
Lemma Key_inj t t' n m : wf_hash n t -> wf_hash m t' -> Key t = Key t' -> t = t'.
Proof.
  intros (_ & _ & Ht) (_ & _ & Ht') Hk. unfold Key in Hk. apply (inj (app _)), (inj (app _)), (inj (app _)), (inj (app _)) in Hk.
  apply app_inv_tail in Hk. rewrite Hk in Ht. congruence.
Qed.

Lemma CacheID_Key t : CacheID (Key t) = bs "erofs-v2-" ++ HashString t.
Proof.
  unfold CacheID, Key. rewrite trim_prefix_app.
  replace (bs "v" ++ FormatInt FormatVersion ++ bs "/" ++ HashString t ++ erofsSuffix)
    with ((bs "v2/" ++ HashString t) ++ erofsSuffix) by (by rewrite <-!app_assoc).
  rewrite trim_suffix_app. unfold slash_to_dash. rewrite fmap_app.
  assert (Hm : (fun x => if bool_decide (x = slash) then bz 45 else x) <$> HashString t = HashString t).
  { rewrite <-(list_fmap_id (HashString t)) at 2. apply list_fmap_ext. intros i x Hx. case_bool_decide as Hs; [|done].
    destruct (HashString_hex t) as [Hh _]. apply (Forall_lookup_1 _ _ _ _ Hh) in Hx. by subst x. }
  by rewrite Hm.
Qed.

Lemma CacheID_inj t t' n m : wf_hash n t -> wf_hash m t' -> CacheID (Key t) = CacheID (Key t') -> t = t'.
Proof. intros (_ & _ & Ht) (_ & _ & Ht'). rewrite !CacheID_Key. intros Hk%(inj (app _)). rewrite Hk in Ht. congruence. Qed.
End keys.

(** ** What a tree looks like checked out

    [entry_at]: the entries of a tree and of the trees below it, with their
    paths. [node_of]: what [git checkout] makes of an entry, LFS files
    replaced by their content. *)

Section image.
Context `{GoGit} `{!GitDecode, !Erofs} `{Sha256} {W : Type} `{!EncodedObjectStorer W, !Store W}.
Context (db : Hash -> option (Z * bytes)) `{!Reads _ db}.
Context (added : Builder -> list (bytes * planned)) `{!ErofsLaws added}.
Context (ctxErr : W -> option goerr) (openLFS : option (bytes -> Z -> io W bytes)).
(** The content of an LFS object; the opener gives that and nothing else. *)
Context (lfs : bytes -> option bytes).
Context (Hlfs : forall f oid n w b w', openLFS = Some f -> f oid n w = (Ok b, w') -> lfs oid = Some b).

Inductive entry_at : bytes -> list TreeEntry -> bytes -> TreeEntry -> Prop :=
  | at_here dir es e : e ∈ es -> entry_at dir es (Join dir (te_name e)) e
  | at_below dir es e es' p e' : e ∈ es -> te_mode e = Dir -> tree_at db (te_hash e) es' ->
      entry_at (Join dir (te_name e)) es' p e' -> entry_at dir es p e'.

Definition not_pointer (data : bytes) : Prop := forall oid size, pointer_valid oid size -> data <> pointer_text oid size.

Definition smudged (data content : bytes) : Prop :=
  (exists oid size, pointer_valid oid size /\ data = pointer_text oid size /\ lfs oid = Some content /\ Z.of_nat (length content) = size) \/
  (not_pointer data /\ content = data).

Definition is_file (m : Z) : bool := (m =? Regular) || (m =? Deprecated) || (m =? Executable).
Definition perm_of (m : Z) : Z := if m =? Executable then 493 else 420.

Inductive node_of (e : TreeEntry) : node -> Prop :=
  | nd_dir : te_mode e = Dir \/ te_mode e = Submodule -> node_of e (Directory 493)
  | nd_file data content : is_file (te_mode e) = true -> blob_at db (te_hash e) data -> smudged data content ->
      node_of e (File (perm_of (te_mode e)) content)
  | nd_link target : te_mode e = Symlink -> blob_at db (te_hash e) target -> node_of e (Link target 511).

(** What an image can hold: names and link targets within its limits, modes that git knows. *)
Definition representable (e : TreeEntry) : Prop :=
  (length (te_name e) <= maxName)%nat /\
  (te_mode e = Dir \/ te_mode e = Submodule \/ is_file (te_mode e) = true \/
   (te_mode e = Symlink /\ exists b, blob_at db (te_hash e) b /\ Z.of_nat (length b) <= maxSymlink)).

(** The builder's view of an entry. *)
Inductive plan_of (e : TreeEntry) : planned -> Prop :=
  | pl_dir : te_mode e = Dir \/ te_mode e = Submodule -> plan_of e (PDir 493)
  | pl_blob t data : is_file (te_mode e) = true -> db (te_hash e) = Some (t, data) -> not_pointer data ->
      plan_of e (PFile (perm_of (te_mode e)) (Z.of_nat (length data)) (BlobSource (te_hash e)))
  | pl_lfs oid size : is_file (te_mode e) = true -> blob_at db (te_hash e) (pointer_text oid size) -> pointer_valid oid size ->
      openLFS <> None -> plan_of e (PFile (perm_of (te_mode e)) size (LFSSource oid size))
  | pl_link target : te_mode e = Symlink -> blob_at db (te_hash e) target -> plan_of e (PLink target 511).

Definition is_pfile (a : bytes * planned) : bool := match snd a with PFile _ _ _ => true | _ => false end.
Definition nfiles (l : list (bytes * planned)) : Z := Z.of_nat (length (filter (fun a => is_pfile a = true) l)).

(** One call of the walker: what it added covers [es] under [dir]. *)
Definition covers (dir : bytes) (es : list TreeEntry) (l : list (bytes * planned)) : Prop :=
  (forall p pn, (p, pn) ∈ l -> exists e, entry_at dir es p e /\ plan_of e pn) /\
  (forall p e, entry_at dir es p e -> representable e /\ exists pn, (p, pn) ∈ l /\ plan_of e pn).
Definition grew (w w' : walker) (l : list (bytes * planned)) : Prop :=
  added (fst w') = added (fst w) ++ l /\ snd w' = snd w + nfiles l.
Definition adds (dir : bytes) (es : list TreeEntry) (w w' : walker) : Prop := exists l, grew w w' l /\ covers dir es l.

Lemma nfiles_cons a l : nfiles (a :: l) = (if is_pfile a then 1 else 0) + nfiles l.
Proof. unfold nfiles. rewrite filter_cons. destruct (is_pfile a); cbn; [|done]. destruct (decide (true = true)); [cbn; lia|done]. Qed.

#[local] Ltac count_files := rewrite ?nfiles_cons; unfold nfiles; cbn; lia.

Lemma entry_at_app dir a b p e : entry_at dir (a ++ b) p e <-> entry_at dir a p e \/ entry_at dir b p e.
Proof.
  split.
  - inversion 1; subst; rewrite ->elem_of_app in *; naive_solver eauto using entry_at.
  - intros [Ha | Hb]; [destruct Ha|destruct Hb]; econstructor; rewrite ?elem_of_app; eauto.
Qed.

Lemma adds_nil dir w : adds dir [] w w.
Proof.
  exists []. split; [split; [by rewrite app_nil_r|unfold nfiles; cbn; lia]|]. split; [intros ? ? []%elem_of_nil|].
  intros p e. inversion 1; set_solver.
Qed.

Lemma adds_app dir a b w w1 w2 : adds dir a w w1 -> adds dir b w1 w2 -> adds dir (a ++ b) w w2.
Proof.
  intros (l1 & [G1 G2] & [G3 G4]) (l2 & [G5 G6] & [G7 G8]). exists (l1 ++ l2). split.
  - split; [by rewrite G5, G1, app_assoc|]. unfold nfiles in *. rewrite filter_app, length_app. lia.
  - split.
    + intros p pn [Hin | Hin]%elem_of_app; [apply G3 in Hin|apply G7 in Hin]; destruct Hin as (e & He & Hp);
        exists e; rewrite entry_at_app; auto.
    + intros p e [He | He]%entry_at_app; [apply G4 in He|apply G8 in He]; destruct He as (Hr & pn & Hin & Hp);
        (split; [done|]); exists pn; rewrite elem_of_app; auto.
Qed.

Lemma entry_at_one dir x p e : entry_at dir [x] p e ->
  (p = Join dir (te_name x) /\ e = x) \/
  (te_mode x = Dir /\ exists es, tree_at db (te_hash x) es /\ entry_at (Join dir (te_name x)) es p e).
Proof.
  remember [x] as l eqn:El. destruct 1 as [dir es y Hy|dir es y es' p e Hy Hm Ht He]; subst es;
    apply list_elem_of_singleton in Hy; subst y; eauto.
Qed.

Lemma adds_one dir e w w' pn :
  te_mode e <> Dir -> representable e -> plan_of e pn -> grew w w' [(Join dir (te_name e), pn)] -> adds dir [e] w w'.
Proof.
  intros Hm Hr Hp Hg. exists [(Join dir (te_name e), pn)]. split; [done|]. split.
  - intros p pn' ?%list_elem_of_singleton. simplify_eq. exists e. split; [|done]. by apply at_here, list_elem_of_singleton.
  - intros p e' [[-> ->]|[? _]]%entry_at_one; [|done]. split; [done|]. exists pn. split; [by apply list_elem_of_singleton|done].
Qed.

Lemma adds_below dir e es w w1 w2 :
  te_mode e = Dir -> (length (te_name e) <= maxName)%nat -> tree_at db (te_hash e) es ->
  grew w w1 [(Join dir (te_name e), PDir 493)] -> adds (Join dir (te_name e)) es w1 w2 -> adds dir [e] w w2.
Proof.
  intros Hm Hn Ht [G1 G2] (l & [G3 G4] & [G5 G6]). exists ((Join dir (te_name e), PDir 493) :: l). split.
  - split; [by rewrite G3, G1, <-app_assoc|]. rewrite G4, G2. count_files.
  - split.
    + intros p pn [?|Hin]%elem_of_cons.
      * simplify_eq. exists e. split; [by apply at_here, list_elem_of_singleton|apply pl_dir; by left].
      * destruct (G5 _ _ Hin) as (e' & He & Hp). exists e'. split; [|done]. eapply at_below; [by apply list_elem_of_singleton|done..].
    + intros p e' [[-> ->]|[_ (es' & Ht' & Hat)]]%entry_at_one.
      * split; [split; [done|by left]|]. exists (PDir 493). split; [left|apply pl_dir; by left].
      * rewrite (tree_at_det _ _ _ _ Ht' Ht) in Hat. destruct (G6 _ _ Hat) as (Hr & pn & Hin & Hp). split; [done|].
        exists pn. split; [by right|done].
Qed.

Lemma grew_dir w b p : AddDir p 493 (fst w) = Ok b -> grew w (b, snd w) [(p, PDir 493)].
Proof. intros Ha%(AddDir_added (added := added)). split; [done|]. count_files. Qed.

Lemma lift_ok {A} (r : gores A) (s s' : W) a : lift r s = (Ok a, s') -> r = Ok a /\ s' = s.
Proof. unfold lift. by intros [= -> <-]. Qed.

Lemma wrapping_ok {A} (m : io W A) s a s' : wrapping m s = (Ok a, s') -> m s = (Ok a, s').
Proof. intros [(x & [= <-] & Hm)|(e & ? & _)]%wrapping_inv; done. Qed.

(** A pointer is a small file. *)
Lemma pointer_text_small oid size : pointer_valid oid size -> 0 < Z.of_nat (length (pointer_text oid size)) < 1024.
Proof.
  intros (Hl & _ & Hs). unfold pointer_text. autorewrite with bytes. cbn [length]. autorewrite with bytes. cbn [length].
  assert (Hd : forall fuel z acc, (length (dec_digits fuel z acc) <= fuel + length acc)%nat).
  { induction fuel as [|f IH]; intros z acc; cbn [dec_digits]; [lia|]. destruct (z <? 10); [cbn; lia|]. etrans; [apply IH|cbn; lia]. }
  pose proof (Hd 20%nat size []) as Hd'. unfold FormatInt. destruct (size <? 0) eqn:E; b2p; [lia|]. cbn [length] in Hd'.
  assert (length pointerVersion = 43%nat) as -> by done. assert (length oidPrefix = 11%nat) as -> by done.
  assert (length sizePrefix = 5%nat) as -> by done. rewrite Hl. lia.
Qed.

Lemma addFile_grew p e w w' s s' : is_file (te_mode e) = true -> addFile openLFS p e w s = (Ok w', s') ->
  exists pn, grew w w' [(p, pn)] /\ plan_of e pn.
Proof.
  intros Hm Hr. unfold addFile in Hr. apply io_bind_ok in Hr as (size & s1 & Hsz%wrapping_ok & Hr).
  apply io_bind_ok in Hr as ([size' src] & s2 & Hsrc & Hr). apply io_bind_ok in Hr as (b & s3 & [Ha ->]%wrapping_ok%lift_ok & Hr).
  injection Hr as <- _. apply (AddFileFunc_added (added := added)) in Ha.
  exists (PFile (perm_of (te_mode e)) size' src). split; [split; [done|count_files]|].
  apply (ReadSize_ok (db := db)) in Hsz as (t & data & Hdb & ->). destruct ((0 <? _) && _) eqn:Hc.
  - apply io_bind_ok in Hsrc as (data' & s4 & Hb%wrapping_ok%(GetBlob_ok db) & Hsrc). unfold blob_at in Hb.
    assert (t = BlobObject /\ data' = data) as [-> ->] by (split; congruence).
    apply io_bind_ok in Hsrc as (ptr & s5 & [Hp ->]%wrapping_ok%lift_ok & Hsrc). destruct ptr as [[oid n]|].
    + apply parse_pointer_inv in Hp as [-> Hv]. destruct openLFS eqn:Ho; [|done]. injection Hsrc as <- <- _.
      by apply pl_lfs; rewrite ?Ho.
    + injection Hsrc as <- <- _. eapply pl_blob; [done..|]. intros oid n Hv ->. by rewrite parse_pointer_text in Hp.
  - injection Hsrc as <- <- _. eapply pl_blob; [done..|]. intros oid n Hv%pointer_text_small ->.
    destruct (0 <? _) eqn:E1, (_ <? 1024) eqn:E2; b2p; done || lia.
Qed.

Lemma addSymlink_grew p e w w' s s' : te_mode e = Symlink -> addSymlink p e w s = (Ok w', s') ->
  exists target, grew w w' [(p, PLink target 511)] /\ blob_at db (te_hash e) target /\ Z.of_nat (length target) <= maxSymlink.
Proof.
  intros Hm Hr. unfold addSymlink in Hr. apply io_bind_ok in Hr as (size & s1 & Hsz%wrapping_ok & Hr).
  destruct (maxSymlink <? size) eqn:Hlim; [done|].
  apply io_bind_ok in Hr as (data & s2 & Hb%wrapping_ok%(GetBlob_ok db) & Hr). apply io_bind_ok in Hr as (b & s3 & [Ha ->]%wrapping_ok%lift_ok & Hr).
  injection Hr as <- _. apply (AddSymlink_added (added := added)) in Ha.
  apply (ReadSize_ok (db := db)) in Hsz as (t & data' & Hdb & ->). unfold blob_at in Hb. assert (data' = data) as -> by congruence.
  exists data. split; [split; [done|count_files]|]. split; [done|]. b2p. lia.
Qed.

(** A mode is one of the kinds that [addEntry] distinguishes, or refused. *)
Lemma addEntry_adds sub dir e w w' s s' :
  (forall p es w w' s s', sub p es w s = (Ok w', s') -> adds p es w w') ->
  addEntry ctxErr openLFS sub dir w e s = (Ok w', s') -> adds dir [e] w w'.
Proof.
  intros Hsub Hr. unfold addEntry in Hr. apply io_bind_ok in Hr as (_ & s1 & _ & Hr).
  destruct (Nat.ltb_spec maxName (length (te_name e))) as [|Hn]; [done|]. destruct (Z.eqb_spec (te_mode e) Dir) as [Hm|Hm].
  { apply io_bind_ok in Hr as (es & s2 & Ht%wrapping_ok%(GetTree_ok db) & Hr).
    apply io_bind_ok in Hr as (b & s3 & [Ha ->]%wrapping_ok%lift_ok & Hr). eapply adds_below; eauto using grew_dir. }
  destruct (Z.eqb_spec (te_mode e) Submodule) as [Hs|Hs].
  { apply io_bind_ok in Hr as (b & s3 & [Ha ->]%wrapping_ok%lift_ok & Hr). injection Hr as <- _.
    eapply adds_one; [done|split; [done|by right; left]| |by eapply grew_dir]. apply pl_dir. by right. }
  change (_ || _ || _) with (is_file (te_mode e)) in Hr. destruct (is_file (te_mode e)) eqn:Hf.
  { apply addFile_grew in Hr as (pn & Hg & Hp); [|done]. eapply adds_one; [done|split; [done|by right; right; left]|done..]. }
  destruct (Z.eqb_spec (te_mode e) Symlink) as [Hl|]; [|done].
  apply addSymlink_grew in Hr as (target & Hg & Hb & Hlim); [|done].
  eapply adds_one; [done|split; [done|right; right; right; eauto]|by apply pl_link|done].
Qed.

Lemma addTree_adds fuel dir es w w' s s' : addTree ctxErr openLFS fuel dir es w s = (Ok w', s') -> adds dir es w w'.
Proof.
  revert dir es w w' s s'. induction fuel as [|fuel IH]; intros dir es w w' s s'; cbn [addTree]; [done|].
  apply (io_fold_inv (fun done w' => adds dir done w w')); [apply adds_nil|].
  intros done x w1 s1 w2 s2 _ Hd Hx. eapply adds_app; [exact Hd|]. eapply addEntry_adds; [|exact Hx]. intros. by eapply IH.
Qed.

Lemma plan_filled e pn p n : plan_of e pn -> filled (open openLFS) (p, pn) n -> node_of e (snd n).
Proof.
  intros Hp [_ Hf]. cbn [snd] in Hf. destruct Hp as [Hm|t data Hm Hdb Hn|oid size Hm Hb Hv Ho|target Hm Hb].
  - rewrite Hf. by apply nd_dir.
  - destruct Hf as (content & s & s' & Hr%wrapping_ok%(GetBlob_ok db) & _ & ->). eapply nd_file; [done|exact Hr|].
    right. unfold blob_at in Hr. assert (content = data) as -> by congruence. done.
  - destruct Hf as (content & s & s' & Hr & Hsz & ->). cbn [open] in Hr. destruct openLFS as [f|] eqn:E; [|done].
    eapply nd_file; [done|exact Hb|]. left. exists oid, size. eauto.
  - rewrite Hf. by apply nd_link.
Qed.

Lemma pointer_text_inj oid size oid' size' : pointer_valid oid size -> pointer_valid oid' size' ->
  pointer_text oid size = pointer_text oid' size' -> oid = oid' /\ size = size'.
Proof. intros Hv%parse_pointer_text Hv'%parse_pointer_text He. rewrite He in Hv. split; congruence. Qed.

Lemma smudged_det data c c' : smudged data c -> smudged data c' -> c = c'.
Proof.
  intros [(o & n & Hv & -> & Hc & _)|[Hn ->]] [(o' & n' & Hv' & He & Hc' & _)|[Hn' ->]].
  - apply pointer_text_inj in He as [-> _]; [|done..]. congruence.
  - by destruct (Hn' _ _ Hv).
  - by destruct (Hn _ _ Hv').
  - done.
Qed.

Lemma node_of_det e n n' : node_of e n -> node_of e n' -> n = n'.
Proof.
  destruct 1 as [Hm|data c Hm Hb Hs|t Hm Hb]; destruct 1 as [Hm'|data' c' Hm' Hb' Hs'|t' Hm' Hb']; try done;
    try (exfalso; destruct_or? Hm; destruct_or? Hm'; rewrite ->?Hm, ->?Hm' in *; done).
  - rewrite (blob_at_det _ _ _ _ Hb' Hb) in Hs'. by rewrite (smudged_det _ _ _ Hs Hs').
  - by rewrite (blob_at_det _ _ _ _ Hb' Hb).
Qed.

(** An image of a tree: exactly its checkout. *)
Definition is_fnode (n : bytes * node) : bool := match snd n with File _ _ => true | _ => false end.
Definition checked_out (tree : Hash) (ns : list (bytes * node)) : Prop :=
  exists root, tree_at db tree root /\
    (forall p n, (p, n) ∈ ns <-> exists e, entry_at root_dir root p e /\ node_of e n) /\
    (forall p e, entry_at root_dir root p e -> representable e).
Definition image_of (tree : Hash) (img : bytes) : Prop := exists ns, OpenImage img = Some ns /\ checked_out tree ns.

Lemma build_checked_out tree root fuel b files s s' s1 img s2 :
  tree_at db tree root -> addTree ctxErr openLFS fuel root_dir root (NewBuilder, 0) s = (Ok (b, files), s') ->
  Build (open openLFS) b s1 = (Ok img, s2) ->
  exists ns, OpenImage img = Some ns /\ checked_out tree ns /\ files = Z.of_nat (length (filter (fun n => is_fnode n = true) ns)).
Proof.
  intros Ht Ha Hb. apply addTree_adds in Ha as (l & [Hl Hf] & Hc1 & Hc2). cbn [fst snd] in Hl, Hf. rewrite NewBuilder_added in Hl. cbn [app] in Hl.
  apply (Build_image (added := added)) in Hb as (ns & Himg & Hns). rewrite Hl in Hns. exists ns. split; [done|]. split.
  - exists root. split; [done|]. split; [|intros p e He; by apply Hc2 in He as [? _]].
    intros p n. split.
    + intros (i & Hi)%list_elem_of_lookup. destruct (Forall2_lookup_r _ _ _ _ _ Hns Hi) as ([p' pn] & Hpn & Hfl).
      assert (p = p') as <- by apply (proj1 Hfl). destruct (Hc1 p pn) as (e & He & Hp); [by eapply list_elem_of_lookup_2|].
      exists e. split; [done|]. exact (plan_filled e pn p (p, n) Hp Hfl).
    + intros (e & He & Hn). destruct (Hc2 _ _ He) as (_ & pn & (i & Hi)%list_elem_of_lookup & Hp).
      destruct (Forall2_lookup_l _ _ _ _ _ Hns Hi) as ([p' n'] & Hn' & Hfl). pose proof (plan_filled _ _ _ _ Hp Hfl) as Hno.
      cbn [snd] in Hno. rewrite (node_of_det _ _ _ Hn Hno). destruct Hfl as [Hpp _]. cbn in Hpp. subst p'. by eapply list_elem_of_lookup_2.
  - rewrite Hf. clear -Hns. cbn [snd]. rewrite Z.add_0_l. induction Hns as [|[p pn] [p' n] l ns [_ Hfl] _ IH]; [done|]. rewrite nfiles_cons, IH, filter_cons.
    destruct pn; cbn [snd] in Hfl; [subst n|destruct Hfl as (?&?&?&_&_&->)|subst n]; cbn [is_pfile is_fnode snd];
      destruct (decide _); try done; cbn [length]; lia.
Qed.

(** ** Images in the store *)

Context (view : W -> bucket) (env : bucket -> bucket -> Prop) (place : bytes -> bytes) `{!StoreLaws _ view env place}.
#[local] Abbreviation elapsed := (fun w w' => env (view w) (view w')).
(** Reading objects and LFS objects changes nothing in the bucket. *)
Context (Hread : forall typ h, within elapsed (ReadObject typ h)) (Hsize : forall h, within elapsed (ReadSize h)).
Context (Hopen : forall f oid n, openLFS = Some f -> within elapsed (f oid n)).

#[local] Instance elapsed_preorder : PreOrder elapsed.
Proof. split; [intros w; reflexivity|intros w1 w2 w3 G1 G2; by etrans]. Qed.

(** Goes through the calls of an operation. *)
#[local] Ltac stay := repeat first
  [ match goal with |- within _ (let '(_, _) := ?x in _) => destruct x end
  | apply within_ret, _ | apply within_fail, _ | apply within_lift, _ | assumption | done
  | apply within_wrapping | apply within_attempt, _ | apply within_bind; [apply _| |intros ?]
  | match goal with |- within _ (match ?x with _ => _ end) => destruct x eqn:? end ].

Lemma within_get {A} typ (dec : bytes -> option A) h : within elapsed (let! (_, b) := ReadObject typ h in lift (decoded (dec b))).
Proof. stay. Qed.
Lemma within_GetTree h : within elapsed (GetTree h).
Proof. apply within_get. Qed.
Lemma within_GetBlob h : within elapsed (GetBlob h).
Proof. unfold GetBlob. stay. Qed.
Lemma within_open src : within elapsed (open openLFS src).
Proof. unfold open. pose proof within_GetBlob. stay. by eapply Hopen. Qed.
Lemma within_check : within elapsed (check_ctx ctxErr).
Proof. intros w r w'. unfold check_ctx. destruct (ctxErr w); by intros [= _ ->]. Qed.

Lemma within_addTree fuel dir es w : within elapsed (addTree ctxErr openLFS fuel dir es w).
Proof.
  revert dir es w. induction fuel as [|fuel IH]; intros dir es w; cbn [addTree]; [stay|]. apply within_fold; [apply _|].
  intros b e. pose proof within_GetBlob. pose proof within_GetTree. pose proof within_check.
  unfold addEntry, addFile, addSymlink. stay.
Qed.

Lemma within_Stat k : within elapsed (StatSnapshot k).
Proof. intros w [n|e] w' Hr; [apply Stat_ok in Hr as (b & o & ? & _ & ?)|apply Stat_err in Hr as (b & ? & ? & _)]; by etrans. Qed.

Lemma within_Build b : within elapsed (Build (open openLFS) b).
Proof. intros w r w'. apply (Build_effect (added := added) W elapsed); [apply _|]. intros src. apply within_open. Qed.

(** How a call can end. *)
Inductive ensured (tree : Hash) (w w' : W) : gores Result -> Prop :=
  | ens_exists b o : env (view w) b -> b !! place (Key tree) = Some o -> env b (view w') ->
      ensured tree w w' (Ok {| res_key := Key tree; res_status := StatusExists; res_files := 0; res_bytes := 0 |})
  | ens_refused e : elapsed w w' -> ensured tree w w' (Err e)
  | ens_put w1 img ns files r e : elapsed w w1 -> OpenImage img = Some ns -> checked_out tree ns ->
      files = Z.of_nat (length (filter (fun n => is_fnode n = true) ns)) ->
      PutSnapshot (Key tree) img (Z.of_nat (length img)) (meta_of tree img files) w1 = (r, w') ->
      ensured tree w w' (match r with
        | Ok _ => Ok {| res_key := Key tree; res_status := StatusBuilt; res_files := files; res_bytes := Z.of_nat (length img) |}
        | Err _ => Err e
        end).

Lemma buildImage_ok fuel tree w img files w' : buildImage ctxErr openLFS fuel tree w = (Ok (img, files), w') ->
  exists ns, OpenImage img = Some ns /\ checked_out tree ns /\ files = Z.of_nat (length (filter (fun n => is_fnode n = true) ns)).
Proof.
  intros Hr. apply io_bind_ok in Hr as (root & w1 & Ht%wrapping_ok%(GetTree_ok db) & Hr). apply io_bind_ok in Hr as ([b n] & w2 & Ha & Hr).
  apply io_bind_ok in Hr as (img' & w3 & Hb%wrapping_ok & Hr). injection Hr as -> -> _. by eapply build_checked_out.
Qed.

Lemma within_buildImage fuel tree : within elapsed (buildImage ctxErr openLFS fuel tree).
Proof. pose proof within_GetTree. pose proof within_addTree. pose proof within_Build. unfold buildImage. stay. Qed.

Lemma EnsureWithLFS_ends fuel tree w r w' : EnsureWithLFS ctxErr openLFS fuel tree w = (r, w') -> ensured tree w w' r.
Proof.
  intros Hr. unfold EnsureWithLFS in Hr.
  apply io_bind_inv in Hr as [(_ & w1 & Hc%within_check & Hr)|(e & Hc%within_check & ->)]; [|by apply ens_refused].
  apply io_bind_inv in Hr as [(st & w2 & (st' & [= ->] & Hs)%attempt_inv & Hr)|(e & (? & ? & _)%attempt_inv & _)]; [|done].
  destruct st' as [n|e].
  { injection Hr as <- <-. apply Stat_ok in Hs as (b & o & G1 & G2 & G3). eapply ens_exists; [by etrans|done|done]. }
  apply within_Stat in Hs. assert (Hel : elapsed w w2) by (by etrans). clear Hc Hs.
  destruct (errors_is e ErrNotExist); cbn [negb] in Hr; [|injection Hr as <- <-; by apply ens_refused].
  apply io_bind_inv in Hr as [([img files] & w3 & Hb & Hr)|(e' & Hb%within_buildImage & ->)]; [|apply ens_refused; exact (transitivity Hel Hb)].
  pose proof (within_buildImage _ _ _ _ _ Hb) as Hel'. apply buildImage_ok in Hb as (ns & Hi & Hck & Hf).
  assert (Hel2 : elapsed w w3) by exact (transitivity Hel Hel').
  apply io_bind_inv in Hr as [(u & w4 & Hp%wrapping_ok & Hr)|(e' & Hp & ->)].
  - injection Hr as <- <-. exact (ens_put tree w w4 w3 img ns files (Ok u) e Hel2 Hi Hck Hf Hp).
  - apply wrapping_inv in Hp as [(? & ? & _)|(e2 & _ & Hp)]; [done|]. exact (ens_put tree w w' w3 img ns files (Err e2) e' Hel2 Hi Hck Hf Hp).
Qed.

(** What holds of every bucket that other writers lead to, and of a bucket
    with one more right image, holds after a call however it ends. *)
Lemma ensured_preserves (I : bucket -> Prop) tree w r w' :
  (forall b b', env b b' -> I b -> I b') ->
  (forall b img meta, I b -> image_of tree img -> I (<[place (Key tree) := {| o_body := img; o_meta := meta |}]> b)) ->
  ensured tree w w' r -> I (view w) -> I (view w').
Proof.
  intros Henv Hput. destruct 1 as [b o G1 _ G3|e G1|w1 img ns files r e G1 Hi Hck Hf Hp]; intros HI.
  - by eapply Henv, Henv.
  - by eapply Henv.
  - assert (Him : image_of tree img) by (by exists ns). destruct r as [u|e'].
    + apply Put_ok in Hp as (b & G2 & G3). eapply Henv; [exact G3|]. apply Hput; [|done]. by do 2 (eapply Henv; [done|]).
    + apply Put_err in Hp as [G2|(b & G2 & G3)]; [by do 2 (eapply Henv; [done|])|].
      eapply Henv; [exact G3|]. apply Hput; [|done]. by do 2 (eapply Henv; [done|]).
Qed.

(** C24: an image that was built is the checkout of its tree: the paths, the
    kinds, the permissions, the link targets and the file contents are those of
    the entries of the tree and of every tree below it, LFS files have the
    content their pointer names, and nothing else is in it. It is stored under
    the key of the tree with its digest, and the counts are its own. Otherwise
    an image was there already. *)
Theorem built_image_is_checkout fuel tree w res w' :
  EnsureWithLFS ctxErr openLFS fuel tree w = (Ok res, w') ->
  res_key res = Key tree /\
  match res_status res with
  | StatusExists => exists b o, env (view w) b /\ b !! place (Key tree) = Some o /\ env b (view w')
  | StatusBuilt => exists img ns b,
      OpenImage img = Some ns /\ checked_out tree ns /\
      res_files res = Z.of_nat (length (filter (fun n => is_fnode n = true) ns)) /\ res_bytes res = Z.of_nat (length img) /\
      env (view w) b /\ env (<[place (Key tree) := {| o_body := img; o_meta := meta_of tree img (res_files res) |}]> b) (view w')
  end.
Proof.
  intros Hr%EnsureWithLFS_ends. inversion Hr as [b o G1 G2 G3|e G1|w1 img ns files r e G1 Hi Hck Hf Hp Hres]; subst; [by split; [|exists b, o]|].
  destruct r as [u|]; [|done]. injection Hres as <-. split; [done|]. cbn [res_status res_files res_bytes].
  apply Put_ok in Hp as (b & G2 & G3). exists img, ns, b. split_and!; [done..|by etrans|done].
Qed.

(** Every image in the bucket, of whatever tree. *)
Definition images_ok (b : bucket) : Prop := forall n t o, wf_hash n t -> b !! place (Key t) = Some o -> image_of t (o_body o).

(** C25: what a reader opens is a checkout. If every stored image is the
    checkout of the tree in its key, and the other writers of the bucket keep
    it so, then a call keeps it so too, whether it succeeds, fails or is
    interrupted, and opening the image of a tree gives its checkout. *)
Theorem opened_image_is_checkout n fuel tree w :
  (forall b b', env b b' -> images_ok b -> images_ok b') -> Inj (=) (=) place -> wf_hash n tree -> images_ok (view w) ->
  (forall r w', EnsureWithLFS ctxErr openLFS fuel tree w = (r, w') -> images_ok (view w')) /\
  (forall ns w', Open tree w = (Ok ns, w') -> checked_out tree ns).
Proof.
  intros Henv Hinj Hwf Hok. split.
  - intros r w' Hr%EnsureWithLFS_ends. eapply (ensured_preserves images_ok); [done| |done|done].
    intros b img meta Hb Him m t o Ht. rewrite lookup_insert. case_decide as Hk; [|exact (Hb m t o Ht)].
    intros [= <-]. apply (inj place) in Hk. by rewrite <-(Key_inj _ _ _ _ Hwf Ht Hk).
  - intros ns w' Hr. apply io_bind_ok in Hr as (f & w1 & Hf%wrapping_ok & Hr). apply Open_ok in Hf as (b & o & G1 & G2 & <- & G3).
    destruct (Henv _ _ G1 Hok _ _ _ Hwf G2) as (ns' & Hi & Hck). rewrite Hi in Hr. by injection Hr as <- _.
Qed.

(** Building is idempotent. Where nobody removes images, once a call for a
    tree has succeeded every later one finds the image, whatever happened in
    between: it writes nothing and either reports that the image exists or fails
    on its own. *)
Theorem ensure_is_idempotent fuel fuel' tree w res w1 w2 res2 w3 :
  (forall b b', env b b' -> is_Some (b !! place (Key tree)) -> is_Some (b' !! place (Key tree))) ->
  EnsureWithLFS ctxErr openLFS fuel tree w = (Ok res, w1) -> env (view w1) (view w2) ->
  EnsureWithLFS ctxErr openLFS fuel' tree w2 = (res2, w3) ->
  env (view w2) (view w3) /\ forall r, res2 = Ok r -> res_status r = StatusExists.
Proof.
  intros Hkeep Hr%EnsureWithLFS_ends Hel Hr2.
  assert (Hw1 : is_Some (view w1 !! place (Key tree))).
  { inversion Hr as [b o G1 G2 G3|e G1|w0 img ns files r e G1 Hi Hck Hf Hp Hres]; subst; [by eapply Hkeep|].
    destruct r as [u|]; [|done]. apply Put_ok in Hp as (b & G2 & G3). eapply Hkeep; [exact G3|]. by rewrite lookup_insert_eq. }
  assert (Hw2 := Hkeep _ _ Hel Hw1). clear Hr Hel Hw1. unfold EnsureWithLFS in Hr2.
  apply io_bind_inv in Hr2 as [(_ & w4 & Hc%within_check & Hr)|(e & Hc%within_check & ->)]; [|done].
  apply io_bind_inv in Hr as [(st & w5 & (st' & [= ->] & Hs)%attempt_inv & Hr)|(e & (? & ? & _)%attempt_inv & _)]; [|done].
  destruct st' as [n|e].
  { injection Hr as <- <-. apply Stat_ok in Hs as (b & o & G1 & G2 & G3). split; [by do 2 (etrans; [done|])|]. by intros r [= <-]. }
  apply Stat_err in Hs as (b & G1 & G2 & Habs). destruct (errors_is e ErrNotExist); cbn [negb] in Hr.
  - specialize (Habs eq_refl). assert (Hs : is_Some (b !! place (Key tree))) by (eapply Hkeep; [exact G1|]; by eapply Hkeep).
    rewrite Habs in Hs. by destruct Hs.
  - injection Hr as <- <-. split; [by do 2 (etrans; [done|])|done].
Qed.

(** *** The depth of the recursion *)

(** Trees nested at most [n] deep. *)
Inductive tall : nat -> list TreeEntry -> Prop :=
  | tall_S n es : (forall e es', e ∈ es -> te_mode e = Dir -> tree_at db (te_hash e) es' -> tall n es') -> tall (S n) es.

Lemma io_fold_ext {A B} (f g : B -> A -> io W B) l b w : (forall b a w, a ∈ l -> f b a w = g b a w) -> io_fold f l b w = io_fold g l b w.
Proof.
  revert b w. induction l as [|a l IH]; intros b w Hf; [done|]. cbn [io_fold]. unfold io_bind. rewrite Hf by set_solver.
  destruct (g b a w) as [[b'|e] w']; [|done]. apply IH. set_solver.
Qed.

Lemma addEntry_ext sub sub' dir w e s :
  (forall es p w s, te_mode e = Dir -> tree_at db (te_hash e) es -> sub p es w s = sub' p es w s) ->
  addEntry ctxErr openLFS sub dir w e s = addEntry ctxErr openLFS sub' dir w e s.
Proof.
  intros Hs. unfold addEntry, io_bind. destruct (check_ctx ctxErr s) as [[[]|] s1]; [|done].
  destruct (_ <? _)%nat; [done|]. destruct (Z.eqb_spec (te_mode e) Dir) as [Hm|]; [|done].
  destruct (wrapping _ s1) as [[es|] s2] eqn:Ht; [|done]. apply wrapping_ok, (GetTree_ok db) in Ht.
  destruct (wrapping _ s2) as [[b|] s3]; [|done]. by apply Hs.
Qed.

(** Fuel for the nesting of the tree is enough: more changes nothing. *)
Lemma addTree_fuel n fuel dir es w s : tall n es -> (n <= fuel)%nat ->
  addTree ctxErr openLFS fuel dir es w s = addTree ctxErr openLFS n dir es w s.
Proof.
  intros Ht. revert fuel dir w s. induction Ht as [n es Hes IH]; intros [|fuel] dir w s Hn; [lia|]. cbn [addTree].
  apply io_fold_ext. intros w1 e s1 He. apply addEntry_ext. intros es' p w2 s2 Hm Ht. eapply IH; [done..|lia].
Qed.
End image.

(** ** The images of a push *)

Section push.
Context `{GoGit} `{!GitDecode} {W : Type} `{!EncodedObjectStorer W} (ensure : Hash -> io W SnapStatus).

Lemma tip_leb_total a b : tip_leb a b = true \/ tip_leb b a = true.
Proof.
  unfold tip_leb. destruct (IsBranch (u_name a)), (IsBranch (u_name b)); cbn; auto using bytes_leb_total.
Qed.
Lemma tip_leb_trans a b c : tip_leb a b = true -> tip_leb b c = true -> tip_leb a c = true.
Proof.
  unfold tip_leb. destruct (IsBranch (u_name a)), (IsBranch (u_name b)), (IsBranch (u_name c)); cbn; try done; apply bytes_leb_trans.
Qed.
Lemma tip_leb_antisym a b : tip_leb a b = true -> tip_leb b a = true -> u_name a = u_name b.
Proof.
  unfold tip_leb. destruct (IsBranch (u_name a)) eqn:Ea, (IsBranch (u_name b)) eqn:Eb; cbn; try done; apply bytes_leb_antisym.
Qed.

(** Sorting does not see the order of commands for distinct references. *)
Lemma tips_order (l l' : list refUpdate) : l ≡ₚ l' -> NoDup (u_name <$> l) -> stable_sort tip_leb l = stable_sort tip_leb l'.
Proof.
  intros Hp Hn. apply (StronglySorted_unique_strong (fun a b => tip_leb a b = true)).
  - intros a b Ha Hb Hab Hba. rewrite stable_sort_perm in Ha. rewrite stable_sort_perm, <-Hp in Hb.
    pose proof (tip_leb_antisym _ _ Hab Hba) as He.
    apply list_elem_of_lookup in Ha as [i Hi], Hb as [j Hj].
    assert (i = j) as ->; [|congruence].
    apply (NoDup_lookup _ i j (u_name a) Hn); rewrite list_lookup_fmap; [by rewrite Hi|by rewrite Hj, He].
  - apply stable_sort_sorted; [apply tip_leb_total|apply tip_leb_trans].
  - apply stable_sort_sorted; [apply tip_leb_total|apply tip_leb_trans].
  - by rewrite !stable_sort_perm.
Qed.

(** What a later reference of the same tree is told. *)
Definition again (s : snap_status) : snap_status := match s with Built => Exists | _ => s end.

(** The lines written for the tips [l], and the trees seen. *)
Record reported (l : list refUpdate) (st : seen) : Prop := {
  rp_first : forall t s, fst st !! t = Some s -> exists i x, snd st !! i = Some x /\ ln_tree x = t /\ ln_status x = s /\
    forall j y, (j < i)%nat -> snd st !! j = Some y -> ln_tree y <> t;
  rp_seen : forall x, x ∈ snd st -> is_Some (fst st !! ln_tree x);
  rp_again : forall i j x y, (i < j)%nat -> snd st !! i = Some x -> snd st !! j = Some y -> ln_tree x = ln_tree y -> ln_status y = again (ln_status x);
  rp_refs : sublist (ln_ref <$> snd st) (u_name <$> l);
}.

Lemma reported_skip l u st : reported l st -> reported (l ++ [u]) st.
Proof. intros [G1 G2 G3 G4]. split; [done..|]. rewrite fmap_app. by apply sublist_inserts_r. Qed.

Lemma reported_first l u done out t s : done !! t = None ->
  reported l (done, out) -> reported (l ++ [u]) (<[t := s]> done, out ++ [{| ln_ref := u_name u; ln_tree := t; ln_status := s |}]).
Proof.
  intros Hno [G1 G2 G3 G4]. cbn [fst snd] in *.
  assert (Hnew : forall y, y ∈ out -> ln_tree y <> t) by (intros y Hy <-; apply G2 in Hy as [? Hy]; congruence).
  split; cbn [fst snd].
  - intros t' s'. rewrite lookup_insert. case_decide as He; [intros [= <-]; subst t'|].
    + exists (length out), {| ln_ref := u_name u; ln_tree := t; ln_status := s |}. split_and!; [by apply list_lookup_middle|done..|].
      intros j y Hj. rewrite lookup_app_l by done. intros Hy. apply Hnew. by eapply list_elem_of_lookup_2.
    + intros (i & x & Hx & ? & ? & Hf)%G1. exists i, x. pose proof (lookup_lt_Some _ _ _ Hx). rewrite lookup_app_l by done. split_and!; [done..|].
      intros j y Hj. rewrite lookup_app_l by lia. by apply Hf.
  - intros x [Hx | ->%list_elem_of_singleton]%elem_of_app; rewrite lookup_insert; case_decide; eauto. done.
  - intros i j x y Hij Hx Hy Ht. apply lookup_app_Some in Hy as [Hy|[Hlen Hy]].
    + rewrite lookup_app_l in Hx by (apply lookup_lt_Some in Hy; lia). eauto.
    + apply list_lookup_singleton_Some in Hy as [Hz <-]. cbn in Ht. exfalso. rewrite lookup_app_l in Hx by lia.
      eapply Hnew; [by eapply list_elem_of_lookup_2|done].
  - rewrite !fmap_app. by apply sublist_app.
Qed.

Lemma reported_again l u done out t s : done !! t = Some s ->
  reported l (done, out) -> reported (l ++ [u]) (done, out ++ [{| ln_ref := u_name u; ln_tree := t; ln_status := again s |}]).
Proof.
  intros Hs [G1 G2 G3 G4]. cbn [fst snd] in *. split; cbn [fst snd].
  - intros t' s' (i & x & Hx & ? & ? & Hf)%G1. exists i, x. pose proof (lookup_lt_Some _ _ _ Hx). rewrite lookup_app_l by done. split_and!; [done..|].
    intros j y Hj. rewrite lookup_app_l by lia. by apply Hf.
  - intros x [Hx | ->%list_elem_of_singleton]%elem_of_app; [by apply G2|by exists s].
  - intros i j x y Hij Hx Hy Ht. apply lookup_app_Some in Hy as [Hy|[Hlen Hy]].
    + rewrite lookup_app_l in Hx by (apply lookup_lt_Some in Hy; lia). eauto.
    + apply list_lookup_singleton_Some in Hy as [Hz <-]. cbn in Ht |- *. rewrite lookup_app_l in Hx by lia.
      destruct (G1 _ _ Hs) as (k & z & Hk & Hzt & <- & Hf). destruct (lt_eq_lt_dec i k) as [[Hik|Heq]|Hik].
      * by destruct (Hf _ _ Hik Hx).
      * subst k. assert (z = x) as -> by congruence. done.
      * rewrite (G3 _ _ _ _ Hik Hk Hx) by congruence. by destruct (ln_status z).
  - rewrite !fmap_app. by apply sublist_app.
Qed.

Lemma run_one_reported l st u w : reported l st -> exists st' w', run_one ensure st u w = (Ok st', w') /\ reported (l ++ [u]) st'.
Proof.
  intros Hr. destruct st as [done out]. unfold run_one. destruct (_ || _); [do 2 eexists; split; [done|by apply reported_skip]|].
  unfold io_bind at 1, attempt at 1. destruct (peelToTree (u_new u) w) as [[[t|]|e] w1]; [|do 2 eexists; split; [done|by apply reported_skip]..].
  destruct (done !! t) as [s|] eqn:Hs; [do 2 eexists; split; [done|by apply reported_again]|].
  unfold io_bind, attempt. destruct (ensure t w1) as [res w2]. do 2 eexists. split; [done|by apply reported_first].
Qed.

Lemma run_all_reported l2 l1 st w : reported l1 st -> exists st' w', io_fold (run_one ensure) l2 st w = (Ok st', w') /\ reported (l1 ++ l2) st'.
Proof.
  revert l1 st w. induction l2 as [|u l2 IH]; intros l1 st w Hr; [do 2 eexists; split; [done|by rewrite app_nil_r]|].
  destruct (run_one_reported _ _ u w Hr) as (st1 & w1 & Hx & Hr1). destruct (IH _ _ w1 Hr1) as (st2 & w2 & Hy & Hr2).
  exists st2, w2. split; [|by rewrite <-app_assoc in Hr2]. cbn [io_fold]. unfold io_bind. by rewrite Hx.
Qed.

(** Taking the images of a push never fails it, and does not depend on the
    order of its commands: the same lines are written, branches before tags and
    each in the order of the names, and a tree that several references share is
    built for the first of them only; the others are told the outcome. *)
Theorem push_images_in_order (updates : list refUpdate) (w : W) :
  exists out w', runSnapshots ensure updates w = (Ok out, w') /\
    sublist (ln_ref <$> out) (u_name <$> stable_sort tip_leb updates) /\
    (forall i j x y, (i < j)%nat -> out !! i = Some x -> out !! j = Some y -> ln_tree x = ln_tree y -> ln_status y = again (ln_status x)) /\
    (NoDup (u_name <$> updates) -> forall updates', updates' ≡ₚ updates -> runSnapshots ensure updates' w = (Ok out, w')).
Proof.
  destruct (run_all_reported (stable_sort tip_leb updates) [] (∅, []) w) as ([done out] & w' & Hr & [_ _ G3 G4]).
  { split; cbn; [by intros t s|set_solver|done|done]. }
  assert (Hrun : runSnapshots ensure updates w = (Ok out, w')) by (unfold runSnapshots, io_bind; by rewrite Hr).
  exists out, w'. split_and!; [done|done|done|]. intros Hn updates' Hp. rewrite <-Hrun. unfold runSnapshots.
  rewrite (tips_order updates updates'); [done|by symmetry|done].
Qed.
End push.

(** ** The two stores keep their promise *)

Section stores.
Context `{GoGit, Zstd, S3, Sha256} (view : World -> bucket) (env : bucket -> bucket -> Prop) `{!S3Laws view env} (c : config).

Lemma sent_inv {A} (f : World -> gores A * World) s r s' : request f s = (r, s') -> f (world s) = (r, world s').
Proof. unfold request. destruct (f (world s)) as [r0 w]. by intros [= -> <-]. Qed.

(** The storer, where a failed HEAD request that does not say so is not taken for an absent image. *)
Lemma tigris_store_laws :
  (forall k w e w', HeadObject k w = (Err e, w') -> isNotFound e = false -> errors_is e ErrNotExist = false) ->
  @StoreLaws St (tigris_store c None) (fun s => view (world s)) env (app (c_prefix c)).
Proof.
  intros Hhead. split; [apply (env_preorder (view := view))|..].
  - intros k s n s' Hr. apply io_bind_ok in Hr as (r & s1 & (r0 & [= ->] & Hq%sent_inv)%attempt_inv & Hr).
    destruct r0 as [[meta len]|e]; [|by destruct (isNotFound e)]. apply (HeadObject_ok (view := view)) in Hq as (b & o & G1 & G2 & G3 & _).
    injection Hr as _ <-. by exists b, o.
  - intros k s e s' Hr. apply io_bind_inv in Hr as [(r & s1 & (r0 & [= ->] & Hq%sent_inv)%attempt_inv & Hr)|(? & (? & ? & _)%attempt_inv & _)]; [|done].
    destruct r0 as [[meta len]|e0]; [done|]. pose proof (Hhead _ _ _ _ Hq) as Hne. apply (HeadObject_err (view := view)) in Hq as (_ & b & G1 & G2 & G3).
    destruct (isNotFound e0); injection Hr as <- <-; exists b; (split_and!; [done..|]); [by intros _; apply G3|]. cbn. by rewrite Hne.
  - intros k body meta s u s' Hr. apply io_bind_ok in Hr as (t & s1 & Hq%wrapping_ok%sent_inv & Hr). injection Hr as _ <-.
    apply (PutObject_ok (view := view)) in Hq as (b & G1 & _ & _ & G2). eauto.
  - intros k body meta s e s' Hr. apply io_bind_inv in Hr as [(? & ? & _ & ?)|(e0 & Hq & _)]; [done|].
    apply wrapping_inv in Hq as [(? & ? & _)|(e1 & _ & Hq%sent_inv)]; [done|].
    apply (PutObject_err (view := view)) in Hq as [_ [?|(b & G1 & _ & G2)]]; eauto.
  - intros k s body s' Hr. apply io_bind_ok in Hr as ([body' want] & s1 & Hf & Hr). case_bool_decide; [|done]. injection Hr as -> <-.
    apply io_bind_ok in Hf as (r & s2 & (r0 & [= ->] & Hq%sent_inv)%attempt_inv & Hr). destruct r0 as [out|e]; [|by destruct (isNotFound e)].
    cbv beta iota zeta in Hr. destruct (bool_decide (default _ _ = [])); [done|]. destruct (g_body out) as [b'|] eqn:Hb; [|done]. injection Hr as -> _ <-.
    apply (GetObject_ok (view := view)) in Hq as (b & o & G1 & G2 & G3 & _ & _ & G4 & _). exists b, o. split_and!; [done..| |done]. symmetry. by apply G4.
Qed.
End stores.

#[export] Instance mem_store_laws : StoreLaws mem_store ms_objs eq (fun k => k).
Proof.
  split; [apply _|..].
  - intros k m n m' [= Hr <-]. destruct (ms_objs m !! k) as [o|] eqn:E; [|done]. by exists (ms_objs m), o.
  - intros k m e m' [= Hr <-]. exists (ms_objs m). split_and!; [done..|]. intros _. by destruct (ms_objs m !! k).
  - intros k body meta m u m'. cbn. unfold mem_Put. rewrite Z.eqb_refl. destruct (PutErr m); [done|]. intros [= _ <-]. by exists (ms_objs m).
  - intros k body meta m e m'. cbn. unfold mem_Put. rewrite Z.eqb_refl. destruct (PutErr m); [|done]. intros [= _ <-]. by left.
  - intros k m body m' [= Hr <-]. destruct (ms_objs m !! k) as [o|] eqn:E; [|done]. injection Hr as <-. by exists (ms_objs m), o.
Qed.

(** ** A concrete checkout

    A tree with a file, an LFS file, and below it a program and a link. *)

Module Example.

Definition oid : bytes := repeat (bz 97) 64.
Definition h (n : Z) : @Hash toy_git := Some (toy_hash n).
Definition objs : list (@Hash toy_git * (Z * bytes)) :=
  [(h 1, (TreeObject, toy_entry (bs "a.txt") 1 (toy_hash 2) ++ toy_entry (bs "big.bin") 1 (toy_hash 3) ++ toy_entry (bs "sub") 0 (toy_hash 4)));
   (h 2, (BlobObject, bs "hi")); (h 3, (BlobObject, pointer_text oid 4));
   (h 4, (TreeObject, toy_entry (bs "run") 3 (toy_hash 2) ++ toy_entry (bs "ln") 4 (toy_hash 5)));
   (h 5, (BlobObject, bs "../a.txt"));
   (h 6, (CommitObject, toy_hash 1 ++ [bz 0])); (h 7, (TagObject, toy_hash 6))].

#[local] Instance objs_store : @EncodedObjectStorer toy_git MemStore := table_store objs MemStore.
#[local] Instance objs_reads : Reads objs_store (db_of objs) := table_reads objs MemStore.

Definition opens (o : bytes) (n : Z) (w : MemStore) : gores bytes * MemStore :=
  (if bool_decide (o = oid) && (n =? 4) then Ok (bs "BIG!") else Err Errorf, w).
Definition content (o : bytes) : option bytes := if bool_decide (o = oid) then Some (bs "BIG!") else None.

Lemma opens_content f o n (w : MemStore) b w' : Some opens = Some f -> f o n w = (Ok b, w') -> content o = Some b.
Proof.
  intros [= <-] [= Hr _]. unfold content. destruct (bool_decide (o = oid)); [|done]. cbn in Hr. destruct (n =? 4); [|done]. by injection Hr as <-.
Qed.

Definition no_ctx (_ : MemStore) : option goerr := None.
Definition run1 := @EnsureWithLFS toy_git toy_decode toy_erofs toy_sha MemStore objs_store mem_store no_ctx (Some opens) 5 (h 1) NewMemStore.

Lemma run1_built : match fst run1 with Ok r => (res_files r =? 3) && match res_status r with StatusBuilt => true | _ => false end | Err _ => false end = true.
Proof. vm_compute. reflexivity. Qed.

Definition outcome : gores Result * MemStore := run1.
Definition res : Result := match fst run1 with Ok r => r | Err _ => {| res_key := []; res_status := StatusExists; res_files := 0; res_bytes := 0 |} end.
Definition after : MemStore := snd run1.

Lemma run1_res : run1 = (Ok res, after) /\ res_status res = StatusBuilt /\ res_files res = 3.
Proof.
  pose proof run1_built as Hb. unfold res, after. destruct run1 as [[r|] w']; cbn [fst snd] in *; [|done]. split; [done|].
  destruct (res_status r); [|by rewrite andb_false_r in Hb]. split; [done|]. apply andb_true_iff in Hb as [Hb _]. by apply Z.eqb_eq.
Qed.

Lemma quiet_read typ x : within (fun w w' => ms_objs w = ms_objs w') (@ReadObject _ _ objs_store typ x).
Proof. by intros w r w' [= _ ->]. Qed.
Lemma quiet_size x : within (fun w w' => ms_objs w = ms_objs w') (@ReadSize _ _ objs_store x).
Proof. by intros w r w' [= _ ->]. Qed.
Lemma quiet_opens f o n : Some opens = Some f -> within (fun w w' => ms_objs w = ms_objs w') (f o n).
Proof. by intros [= <-] w r w' [= _ ->]. Qed.

Lemma wf_h1 : wf_hash 20 (h 1).
Proof. by apply toy_wf; [|left]. Qed.
End Example.

Import Example.

(** Three files, one of them from LFS, are in the image of the tree. *)
Lemma built_image_is_checkout_witness : res_files res = 3 /\ exists img ns, @OpenImage toy_git toy_erofs img = Some ns /\ checked_out (db_of objs) content (h 1) ns.
Proof.
  destruct run1_res as (Hr & Hs & Hf). split; [exact Hf|].
  pose proof (@built_image_is_checkout toy_git toy_decode toy_erofs toy_sha MemStore objs_store mem_store (db_of objs) objs_reads (fun b => b) toy_erofs_laws
    no_ctx (Some opens) content opens_content ms_objs eq (fun k => k) mem_store_laws quiet_read quiet_size quiet_opens 5 (h 1) NewMemStore res after Hr) as [_ Hb].
  rewrite Hs in Hb. destruct Hb as (img & ns & b & Hi & Hc & _). exists img, ns. split; [exact Hi|exact Hc].
Defined.

Lemma images_ok_empty : images_ok (H1 := toy_erofs) (db_of objs) content (fun k => k) (ms_objs NewMemStore).
Proof. intros n t o _ Hb. unfold NewMemStore in Hb. cbn in Hb. by rewrite lookup_empty in Hb. Qed.

Lemma opened_image_is_checkout_witness : images_ok (H1 := toy_erofs) (db_of objs) content (fun k => k) (ms_objs after).
Proof.
  destruct (@opened_image_is_checkout toy_git toy_decode toy_erofs toy_sha MemStore objs_store mem_store (db_of objs) objs_reads (fun b => b) toy_erofs_laws
    no_ctx (Some opens) content opens_content ms_objs eq (fun k => k) mem_store_laws quiet_read quiet_size quiet_opens 20 5 (h 1) NewMemStore) as [Hk _].
  - intros b b' Hbb Hb. rewrite <-Hbb. exact Hb.
  - intros x y Hxy. exact Hxy.
  - exact wf_h1.
  - exact images_ok_empty.
  - exact (Hk _ _ (proj1 run1_res)).
Defined.

Definition run2 := @EnsureWithLFS toy_git toy_decode toy_erofs toy_sha MemStore objs_store mem_store no_ctx (Some opens) 5 (h 1) after.

Lemma ensure_is_idempotent_witness : ms_objs after = ms_objs (snd run2) /\ forall r, fst run2 = Ok r -> res_status r = StatusExists.
Proof.
  apply (@ensure_is_idempotent toy_git toy_decode toy_erofs toy_sha MemStore objs_store mem_store (db_of objs) objs_reads (fun b => b) toy_erofs_laws
    no_ctx (Some opens) content opens_content ms_objs eq (fun k => k) mem_store_laws quiet_read quiet_size quiet_opens 5 5 (h 1) NewMemStore res after after (fst run2) (snd run2)).
  - intros b b' Hbb Hb. rewrite <-Hbb. exact Hb.
  - exact (proj1 run1_res).
  - reflexivity.
  - exact (surjective_pairing run2).
Defined.

Lemma pointer_parse_exact_witness : parseLFSPointer (pointer_text oid 4) = Ok (Some (oid, 4)) /\ pointer_valid oid 4.
Proof.
  assert (Hp : parseLFSPointer (pointer_text oid 4) = Ok (Some (oid, 4))) by (vm_compute; reflexivity). split; [exact Hp|].
  pose proof (pointer_parse_exact (pointer_text oid 4)) as He. rewrite Hp in He. exact (proj2 He).
Defined.

(** A tag and a branch of one commit: the branch is first, whatever the client sent first. *)
Definition tips : list (@refUpdate toy_git) :=
  [{| u_name := bs "refs/tags/v1"; u_old := ZeroHash; u_new := h 7 |}; {| u_name := bs "refs/heads/main"; u_old := ZeroHash; u_new := h 6 |}].

Lemma push_images_in_order_witness :
  exists out w', @runSnapshots toy_git toy_decode MemStore objs_store (fun _ => ret StatusBuilt) tips NewMemStore = (Ok out, w') /\
    @runSnapshots toy_git toy_decode MemStore objs_store (fun _ => ret StatusBuilt) (rev tips) NewMemStore = (Ok out, w').
Proof.
  destruct (@push_images_in_order toy_git toy_decode MemStore objs_store (fun _ => ret StatusBuilt) tips NewMemStore) as (out & w' & Hr & _ & _ & Hp).
  exists out, w'. split; [exact Hr|]. apply Hp; [|apply Permutation_swap].
  apply (bool_decide_unpack _). vm_compute. exact I.
Defined.
