(* ===== verification/PushEvents.v ===== *)
(** * Push events (internal/pushevents/push.go)

    The payload of a push webhook for one accepted reference update: which
    commits are new, parents first, and which files each of them and the whole
    update changed. Iterating over a Go map gives its entries in an unspecified
    order, the argument [range]. *)

From S2P Require Import Prelude GoLib S3 Concrete Codec Cue PackTable PackIndex Storer Refs Objects GitObjects.

(** ** UTF-8 ([unicode/utf8], [strings.ToValidUTF8]) *)

Definition in_range (lo hi : Z) (b : byte) : bool := (lo <=? bu b) && (bu b <=? hi).
Definition continuation : byte -> bool := in_range 128 191.

(** The width of the encoded rune at the front; [None]: an invalid byte. *)
Definition rune_width (s : bytes) : option nat :=
  match s with
  | [] => None
  | a :: s1 =>
      if bu a <? 128 then Some 1%nat else
      match s1 with
      | [] => None
      | b :: s2 =>
          if in_range 194 223 a then (if continuation b then Some 2%nat else None) else
          match s2 with
          | [] => None
          | c :: s3 =>
              if in_range 224 239 a then
                (if (if bu a =? 224 then in_range 160 191 b else if bu a =? 237 then in_range 128 159 b else continuation b) && continuation c
                 then Some 3%nat else None)
              else
              match s3 with
              | [] => None
              | d :: _ =>
                  if in_range 240 244 a then
                    (if (if bu a =? 240 then in_range 144 191 b else if bu a =? 244 then in_range 128 143 b else continuation b)
                        && continuation c && continuation d then Some 4%nat else None)
                  else None
              end
          end
      end
  end.

(** One round takes at least a byte, so the length is enough fuel. *)
Fixpoint valid_fuel (n : nat) (s : bytes) : bool :=
  match n, s with
  | _, [] => true
  | O, _ => false
  | S n', _ => match rune_width s with Some k => valid_fuel n' (drop k s) | None => false end
  end.
Definition ValidString (s : bytes) : bool := valid_fuel (length s) s.

(** U+FFFD *)
Definition replacement : bytes := bz 239 :: bz 191 :: bz 189 :: [].

Fixpoint to_valid (n : nat) (s : bytes) (invalid : bool) : bytes :=
  match n with
  | O => []
  | S n' =>
      match s with
      | [] => []
      | _ :: s' =>
          match rune_width s with
          | Some k => take k s ++ to_valid n' (drop k s) false
          | None => if invalid then to_valid n' s' true else replacement ++ to_valid n' s' true
          end
      end
  end.
Definition ToValidUTF8 (s : bytes) : bytes := to_valid (length s) s false.

(** ** encoding/base64, the URL alphabet without padding *)

Definition url_char (z : Z) : byte :=
  if z <? 26 then bz (65 + z) else if z <? 52 then bz (71 + z) else if z <? 62 then bz (z - 4)
  else if z =? 62 then bz 45 else bz 95.

(** [base64.RawURLEncoding.EncodeToString] *)
Fixpoint RawURL (l : bytes) : bytes :=
  match l with
  | [] => []
  | [a] => let n := bu a * 2 ^ 16 in [url_char (n / 2 ^ 18); url_char (n / 2 ^ 12 mod 64)]
  | [a; b] =>
      let n := bu a * 2 ^ 16 + bu b * 2 ^ 8 in
      [url_char (n / 2 ^ 18); url_char (n / 2 ^ 12 mod 64); url_char (n / 2 ^ 6 mod 64)]
  | a :: b :: c :: l' =>
      let n := bu a * 2 ^ 16 + bu b * 2 ^ 8 + bu c in
      url_char (n / 2 ^ 18) :: url_char (n / 2 ^ 12 mod 64) :: url_char (n / 2 ^ 6 mod 64) :: url_char (n mod 64) :: RawURL l'
  end.

Definition rawPath : bytes := bs "/objgit/raw-path/base64url/".

Definition encodePath (path : bytes) : bytes := if ValidString path then path else rawPath ++ RawURL path.

(** ** Events *)

Record FileChanges := { fc_added : list bytes; fc_changed : list bytes; fc_deleted : list bytes }.
Definition no_files : FileChanges := {| fc_added := []; fc_changed := []; fc_deleted := [] |}.

Definition add_added (p : bytes) (f : FileChanges) : FileChanges := {| fc_added := fc_added f ++ [encodePath p]; fc_changed := fc_changed f; fc_deleted := fc_deleted f |}.
Definition add_changed (p : bytes) (f : FileChanges) : FileChanges := {| fc_added := fc_added f; fc_changed := fc_changed f ++ [encodePath p]; fc_deleted := fc_deleted f |}.
Definition add_deleted (p : bytes) (f : FileChanges) : FileChanges := {| fc_added := fc_added f; fc_changed := fc_changed f; fc_deleted := fc_deleted f ++ [encodePath p] |}.

Section events.
Context `{GoGit} `{!GitDecode} {W : Type} `{!EncodedObjectStorer W}.
Context (ctxErr : W -> option goerr).
(** [for name, entry := range m] *)
Context (range : gmap bytes TreeEntry -> list (bytes * TreeEntry)).

Definition check : io W unit := fun w => match ctxErr w with Some e => (Err e, w) | None => (Ok tt, w) end.

(** *** Differences of trees *)

Record Tree := { t_hash : Hash; t_entries : list TreeEntry }.

(** [object.GetTree] as a [*object.Tree]; [nil] is [None]. *)
Definition load_tree (h : Hash) : io W Tree := let! es := GetTree h in ret {| t_hash := h; t_entries := es |}.

(** [oldEntries[entry.Name] = entry]: of two entries of one name the later counts. *)
Definition entry_map (t : option Tree) : gmap bytes TreeEntry :=
  match t with Some t => fold_left (fun m e => <[te_name e := e]> m) (t_entries t) ∅ | None => ∅ end.

Definition is_dir (e : TreeEntry) : bool := te_mode e =? Dir.

Section loops.
Context (sub : option Tree -> option Tree -> bytes -> FileChanges -> io W FileChanges).
Context (prefix : bytes) (olds news : gmap bytes TreeEntry).

(** The body of the loop over the old entries. *)
Definition diff_old (files : FileChanges) (x : bytes * TreeEntry) : io W FileChanges :=
  let '(name, oldEntry) := x in
  let path := prefix ++ name in
  let dir := path ++ [slash] in
  match news !! name with
  | Some newEntry =>
      if bool_decide (te_hash oldEntry = te_hash newEntry) && (te_mode oldEntry =? te_mode newEntry) then ret files
      else if is_dir oldEntry then
        if is_dir newEntry then
          let! n := wrapping (load_tree (te_hash newEntry)) in
          let! o := wrapping (load_tree (te_hash oldEntry)) in
          sub (Some o) (Some n) dir files
        else
          let! o := wrapping (load_tree (te_hash oldEntry)) in
          let! files := sub (Some o) None dir files in
          ret (add_added path files)
      else if is_dir newEntry then
        let files := add_deleted path files in
        let! n := wrapping (load_tree (te_hash newEntry)) in
        sub None (Some n) dir files
      else ret (add_changed path files)
  | None =>
      if is_dir oldEntry then
        let! o := wrapping (load_tree (te_hash oldEntry)) in sub (Some o) None dir files
      else ret (add_deleted path files)
  end.

(** The body of the loop over the new entries. *)
Definition diff_new (files : FileChanges) (x : bytes * TreeEntry) : io W FileChanges :=
  let '(name, newEntry) := x in
  let path := prefix ++ name in
  match olds !! name with
  | Some _ => ret files
  | None =>
      if is_dir newEntry then
        let! n := wrapping (load_tree (te_hash newEntry)) in sub None (Some n) (path ++ [slash]) files
      else ret (add_added path files)
  end.
End loops.

Fixpoint diffTrees (fuel : nat) (oldTree newTree : option Tree) (prefix : bytes) (files : FileChanges) : io W FileChanges :=
  match fuel with
  | O => fail OutOfFuel
  | S fuel' =>
      do! check in
      match oldTree, newTree with
      | Some o, Some n => if bool_decide (t_hash o = t_hash n) then ret files else
          let olds := entry_map oldTree in
          let news := entry_map newTree in
          let! files := io_fold (diff_old (diffTrees fuel') prefix news) (range olds) files in
          io_fold (diff_new (diffTrees fuel') prefix olds) (range news) files
      | _, _ =>
          let olds := entry_map oldTree in
          let news := entry_map newTree in
          let! files := io_fold (diff_old (diffTrees fuel') prefix news) (range olds) files in
          io_fold (diff_new (diffTrees fuel') prefix olds) (range news) files
      end
  end.

(** The tree of a commit; the zero hash is no commit and an empty tree. *)
Definition treeAt (h : Hash) : io W (option Tree) :=
  if bool_decide (h = ZeroHash) then ret None else
  let! c := GetCommit h in
  let! t := load_tree (cm_tree c) in ret (Some t).

Definition sort_files (f : FileChanges) : FileChanges :=
  {| fc_added := stable_sort bytes_leb (fc_added f); fc_changed := stable_sort bytes_leb (fc_changed f);
     fc_deleted := stable_sort bytes_leb (fc_deleted f) |}.

Definition Diff (fuel : nat) (oldHash newHash : Hash) : io W FileChanges :=
  do! check in
  let! o := wrapping (treeAt oldHash) in
  let! n := wrapping (treeAt newHash) in
  let! files := wrapping (diffTrees fuel o n [] no_files) in
  ret (sort_files files).

(** *** New commits *)

(** A commit with its hash, [*object.Commit]. *)
Record commit_obj := { c_hash : Hash; c_body : Commit }.
Definition load_commit (h : Hash) : io W commit_obj := let! c := GetCommit h in ret {| c_hash := h; c_body := c |}.

(** [commitAt]: no commit for the zero hash; [false] for an object that is no commit. *)
Definition commitAt (h : Hash) : io W (option commit_obj * bool) :=
  if bool_decide (h = ZeroHash) then ret (None, true) else
  let! (t, b) := ReadObject AnyObject h in
  if negb (t =? CommitObject) then ret (None, false) else
  let! c := lift (decoded (decodeCommit b)) in ret (Some {| c_hash := h; c_body := c |}, true).

(** The loop of [reachable]; the top of the stack is the head. *)
Fixpoint reach_loop (fuel : nat) (stack : list Hash) (seen : gset Hash) : io W (gset Hash) :=
  match fuel with
  | O => fail OutOfFuel
  | S fuel' =>
      match stack with
      | [] => ret seen
      | h :: stack' =>
          do! check in
          if decide (h ∈ seen) then reach_loop fuel' stack' seen else
          let! c := GetCommit h in
          reach_loop fuel' (rev (cm_parents c) ++ stack') ({[h]} ∪ seen)
      end
  end.

Definition reachable (fuel : nat) (tip : option commit_obj) : io W (gset Hash) :=
  match tip with None => ret ∅ | Some c => reach_loop fuel [c_hash c] ∅ end.

(** The loop of [collectNew]: a frame is a commit and how many of its parents were looked at. *)
Record walk_state := { ws_ordered : list commit_obj; ws_stack : list (commit_obj * nat); ws_seen : gset Hash; ws_old : bool }.

Definition collect_step (oldHash : Hash) (excluded : gset Hash) (st : walk_state) (cur : commit_obj) (next : nat) (rest : list (commit_obj * nat)) : io W walk_state :=
  do! check in
  let old := ws_old st || bool_decide (c_hash cur = oldHash) in
  match cm_parents (c_body cur) !! next with
  | Some p =>
      let old := old || bool_decide (p = oldHash) in
      let stack := (cur, S next) :: rest in
      if decide (p ∈ excluded) then ret {| ws_ordered := ws_ordered st; ws_stack := stack; ws_seen := ws_seen st; ws_old := old |}
      else if decide (p ∈ ws_seen st) then ret {| ws_ordered := ws_ordered st; ws_stack := stack; ws_seen := ws_seen st; ws_old := old |}
      else
        let! parent := load_commit p in
        ret {| ws_ordered := ws_ordered st; ws_stack := (parent, O) :: stack; ws_seen := {[p]} ∪ ws_seen st; ws_old := old |}
  | None => ret {| ws_ordered := ws_ordered st ++ [cur]; ws_stack := rest; ws_seen := ws_seen st; ws_old := old |}
  end.

Fixpoint collect_loop (fuel : nat) (oldHash : Hash) (excluded : gset Hash) (st : walk_state) : io W walk_state :=
  match fuel with
  | O => fail OutOfFuel
  | S fuel' =>
      match ws_stack st with
      | [] => ret st
      | (cur, next) :: rest =>
          let! st := collect_step oldHash excluded st cur next rest in
          collect_loop fuel' oldHash excluded st
      end
  end.

Definition collectNew (fuel : nat) (tip : commit_obj) (oldHash : Hash) (excluded : gset Hash) : io W (list commit_obj * bool) :=
  if bool_decide (c_hash tip = oldHash) then ret ([], true) else
  let! st := collect_loop fuel oldHash excluded {| ws_ordered := []; ws_stack := [(tip, O)]; ws_seen := ∅; ws_old := false |} in
  ret (ws_ordered st, ws_old st).

(** *** The event *)

Record Update := { up_name : bytes; up_old : Hash; up_new : Hash }.
Record event_sig := { es_name : bytes; es_email : bytes; es_when : Z }.
Record event_commit := {
  ec_id : bytes; ec_tree : bytes; ec_message : bytes; ec_author : event_sig; ec_committer : event_sig;
  ec_parents : list bytes; ec_files : FileChanges;
}.
Record PushEvent := {
  ev_event_id : bytes; ev_push_id : bytes; ev_repository : bytes; ev_ref : bytes; ev_before : bytes; ev_after : bytes;
  ev_created : bool; ev_deleted : bool; ev_forced : bool; ev_pushed_at : Z; ev_files : FileChanges; ev_commits : list event_commit;
}.

Definition signature (s : Signature) : event_sig :=
  {| es_name := ToValidUTF8 (sg_name s); es_email := ToValidUTF8 (sg_email s); es_when := sg_when s |}.

(** One round of the loop over the new commits. *)
Definition describe (fuel : nat) (out : list event_commit) (c : commit_obj) : io W (list event_commit) :=
  let b := c_body c in
  let firstParent := match cm_parents b with p :: _ => p | [] => ZeroHash end in
  let! files := wrapping (Diff fuel firstParent (c_hash c)) in
  ret (out ++ [{| ec_id := HashString (c_hash c); ec_tree := HashString (cm_tree b); ec_message := ToValidUTF8 (cm_message b);
                  ec_author := signature (cm_author b); ec_committer := signature (cm_committer b);
                  ec_parents := HashString <$> cm_parents b; ec_files := files |}]).

(** [fuel] bounds the nesting of trees, [walkFuel] the two walks of the history. *)
Definition Build (fuel walkFuel : nat) (repo : bytes) (u : Update) (pushID eventID : bytes) (at_ : Z) : io W PushEvent :=
  do! check in
  let zold := bool_decide (up_old u = ZeroHash) in
  let znew := bool_decide (up_new u = ZeroHash) in
  let event forced files commits :=
    {| ev_event_id := eventID; ev_push_id := pushID; ev_repository := repo; ev_ref := encodePath (up_name u);
       ev_before := HashString (up_old u); ev_after := HashString (up_new u); ev_created := zold && negb znew;
       ev_deleted := znew && negb zold; ev_forced := forced; ev_pushed_at := at_; ev_files := files; ev_commits := commits |} in
  let! (oldCommit, oldIsCommit) := wrapping (commitAt (up_old u)) in
  let! (newCommit, newIsCommit) := wrapping (commitAt (up_new u)) in
  if negb oldIsCommit || negb newIsCommit then ret (event false no_files []) else
  let! files := wrapping (Diff fuel (up_old u) (up_new u)) in
  match newCommit with
  | None => ret (event false files [])
  | Some tip =>
      let! oldReachable := wrapping (reachable walkFuel oldCommit) in
      let! (commits, oldIsAncestor) := wrapping (collectNew walkFuel tip (up_old u) oldReachable) in
      let forced := match oldCommit with Some _ => negb oldIsAncestor | None => false end in
      let! out := io_fold (describe fuel) commits [] in
      ret (event forced files out)
  end.
End events.
