(* ===== verification/PushEventsSpec.v ===== *)
(** * What push events promise (internal/pushevents/push.go)

    Every text of an event is valid UTF-8 and paths keep their identity; the
    files listed are the differences of the two trees; the commits listed are
    those reachable from the new tip and not from the old one, parents first. *)

From S2P Require Import Prelude GoLib S3 Concrete Codec Cue PackTable PackIndex Storer Refs Objects GitObjects ConcreteGit PushEvents.

(** ** UTF-8 *)

Inductive utf8 : bytes -> Prop :=
  | utf8_nil : utf8 []
  | utf8_rune s k : rune_width s = Some k -> utf8 (drop k s) -> utf8 s.

Ltac rune_cases s := destruct s as [|?a [|?b [|?c [|?d ?s]]]]; cbn [rune_width].

Lemma rune_width_range s k : rune_width s = Some k -> (1 <= k <= length s)%nat /\ (k <= 4)%nat.
Proof. rune_cases s; repeat case_match; intros; simplify_eq; cbn; lia. Qed.

(** Only the bytes of the rune matter. *)
Lemma rune_width_take s k t : rune_width s = Some k -> rune_width (take k s ++ t) = Some k.
Proof.
  rune_cases s; repeat case_match; intros; simplify_eq; cbn [take app rune_width]; repeat case_match; simplify_eq; done || congruence.
Qed.

Lemma valid_fuel_utf8 n s : (length s <= n)%nat -> valid_fuel n s = true <-> utf8 s.
Proof.
  revert s. induction n as [|n IH]; intros s Hn.
  { destruct s; [|cbn in Hn; lia]. split; [constructor|done]. }
  destruct s as [|x s]; [split; [constructor|done]|]. cbn [valid_fuel].
  destruct (rune_width (x :: s)) as [k|] eqn:E.
  - pose proof (rune_width_range _ _ E). rewrite IH by (rewrite length_drop; cbn in *; lia). split; [by apply utf8_rune|].
    inversion 1; by simplify_eq.
  - split; [done|]. inversion 1; by simplify_eq.
Qed.

Lemma ValidString_utf8 s : ValidString s = true <-> utf8 s.
Proof. by apply valid_fuel_utf8. Qed.

Lemma utf8_app_rune s k t : rune_width s = Some k -> utf8 t -> utf8 (take k s ++ t).
Proof.
  intros Hk Ht. apply utf8_rune with k; [by apply rune_width_take|].
  pose proof (rune_width_range _ _ Hk). by rewrite drop_app_length' by (rewrite length_take; lia).
Qed.

Lemma utf8_app s t : utf8 s -> utf8 t -> utf8 (s ++ t).
Proof.
  intros Hs Ht. induction Hs as [|s k Hk Hs IH]; [done|]. rewrite <-(take_drop k s), <-app_assoc. by apply utf8_app_rune.
Qed.

Lemma utf8_ascii s : Forall (fun b => bu b < 128) s -> utf8 s.
Proof.
  induction 1 as [|x s Hx Hs IH]; [constructor|]. apply utf8_rune with 1%nat; [|done].
  cbn. destruct (bu x <? 128) eqn:E; b2p; [done|lia].
Qed.

Lemma to_valid_utf8 n s i : utf8 (to_valid n s i).
Proof.
  assert (Hr : utf8 replacement) by (apply ValidString_utf8; reflexivity).
  revert s i. induction n as [|n IH]; intros s i; cbn [to_valid]; [constructor|]. destruct s as [|x s]; [constructor|].
  destruct (rune_width (x :: s)) as [k|] eqn:E; [by apply utf8_app_rune|]. destruct i; [done|by apply utf8_app].
Qed.

Lemma to_valid_id n s i : (length s <= n)%nat -> utf8 s -> to_valid n s i = s.
Proof.
  revert s i. induction n as [|n IH]; intros s i Hn Hs; cbn [to_valid]; [by destruct s; [|cbn in Hn; lia]|].
  destruct s as [|x s]; [done|]. inversion Hs as [|? k Hk Hd]; subst. rewrite Hk. pose proof (rune_width_range _ _ Hk).
  rewrite IH by (done || rewrite length_drop; cbn in *; lia). apply take_drop.
Qed.

(** ** Encoded paths *)

Definition url_value (b : byte) : Z :=
  let z := bu b in
  if z =? 45 then 62 else if z =? 95 then 63 else if z <? 58 then z + 4 else if z <? 91 then z - 65 else z - 71.

Lemma url_char_value z : 0 <= z < 64 -> url_value (url_char z) = z /\ bu (url_char z) < 128.
Proof.
  intros Hz. assert (Hc : forallb (fun z => (url_value (url_char z) =? z) && (bu (url_char z) <? 128)) (seqZ 0 64) = true) by reflexivity.
  rewrite forallb_forall in Hc. specialize (Hc z). rewrite <-list_elem_of_In, elem_of_seqZ in Hc. specialize (Hc ltac:(lia)).
  apply andb_true_iff in Hc as [H1 H2]. b2p. lia.
Qed.

Lemma url_char_inj x y : 0 <= x < 64 -> 0 <= y < 64 -> url_char x = url_char y -> x = y.
Proof. intros Hx%url_char_value Hy%url_char_value He. rewrite He in Hx. lia. Qed.

#[local] Ltac sextets :=
  repeat match goal with
  | H : url_char _ = url_char _ |- _ => apply url_char_inj in H; [|Z.div_mod_to_equations; lia..]
  end.
#[local] Ltac byte_ranges :=
  repeat match goal with b : byte |- _ => lazymatch goal with _ : 0 <= bu b < 256 |- _ => fail | _ => pose proof (bu_range b) end end.

Lemma list_ind3 {A} (P : list A -> Prop) : P [] -> (forall a, P [a]) -> (forall a b, P [a; b]) ->
  (forall a b c l, P l -> P (a :: b :: c :: l)) -> forall l, P l.
Proof. intros H0 H1 H2 H3. fix IH 1. intros [|a [|b [|c l]]]; [exact H0|exact (H1 a)|exact (H2 a b)|exact (H3 a b c l (IH l))]. Qed.

Lemma RawURL_inj l l' : RawURL l = RawURL l' -> l = l'.
Proof.
  revert l'. induction l as [|a|a b|a b c l IH] using list_ind3; intros [|a' [|b' [|c' l']]]; cbn [RawURL]; intros He; try done;
    injection He as He; byte_ranges; sextets.
  - f_equal. apply (inj bu). Z.div_mod_to_equations. lia.
  - assert (bu a = bu a' /\ bu b = bu b') as [?%(inj bu) ?%(inj bu)] by (Z.div_mod_to_equations; lia). by subst.
  - assert (bu a = bu a' /\ bu b = bu b' /\ bu c = bu c') as (?%(inj bu) & ?%(inj bu) & ?%(inj bu)) by (Z.div_mod_to_equations; lia).
    subst. do 3 f_equal. by apply IH.
Qed.

Lemma RawURL_ascii l : Forall (fun b => bu b < 128) (RawURL l).
Proof.
  induction l as [|a|a b|a b c l IH] using list_ind3; cbn [RawURL]; byte_ranges; repeat constructor; try done;
    apply url_char_value; Z.div_mod_to_equations; lia.
Qed.

Lemma encodePath_utf8 p : utf8 (encodePath p).
Proof.
  unfold encodePath. destruct (ValidString p) eqn:E; [by apply ValidString_utf8|].
  apply utf8_app; [apply ValidString_utf8; reflexivity|apply utf8_ascii, RawURL_ascii].
Qed.

Lemma encodePath_inj p q : head p <> Some slash -> head q <> Some slash -> encodePath p = encodePath q -> p = q.
Proof.
  intros Hp Hq. unfold encodePath. destruct (ValidString p), (ValidString q); [done|by intros ->|by intros <-|].
  by intros He%(inj (app _))%RawURL_inj.
Qed.

(** A path is carried so that it can be recovered. Its text is always valid
    UTF-8; a path that is valid is carried as it is; and no two paths of a git
    tree, nor two reference names, which never start with a slash, have the same
    text. *)
Theorem encoded_path_reversible (p : bytes) :
  ValidString (encodePath p) = true /\ (ValidString p = true -> encodePath p = p) /\
  forall q, head p <> Some slash -> head q <> Some slash -> encodePath p = encodePath q -> p = q.
Proof.
  split; [apply ValidString_utf8, encodePath_utf8|]. split; [unfold encodePath; by intros ->|].
  intros q. apply encodePath_inj.
Qed.

(** ** The files of a tree *)

Section diff.
Context `{GoGit} `{!GitDecode} {W : Type} `{!EncodedObjectStorer W}.
Context (db : Hash -> option (Z * bytes)) `{!Reads _ db}.
Context (ctxErr : W -> option goerr) (range : gmap bytes TreeEntry -> list (bytes * TreeEntry)).
Context (Hrange : forall m, range m ≡ₚ map_to_list m).
(** The names in a tree hold no slash. *)
Context (Hnames : forall h es e, tree_at db h es -> e ∈ es -> slash ∉ te_name e).

Definition add_entry (m : gmap bytes TreeEntry) (e : TreeEntry) : gmap bytes TreeEntry := <[te_name e := e]> m.
Definition emap (es : list TreeEntry) : gmap bytes TreeEntry := fold_left add_entry es ∅.

(** The file at a path below the tree with the entries [m]. *)
Inductive leaf : gmap bytes TreeEntry -> bytes -> TreeEntry -> Prop :=
  | leaf_file m n e : m !! n = Some e -> te_mode e <> Dir -> leaf m n e
  | leaf_dir m n e es r e' : m !! n = Some e -> te_mode e = Dir -> tree_at db (te_hash e) es -> leaf (emap es) r e' ->
      leaf m (n ++ slash :: r) e'.

Definition first (r : bytes) : bytes := match cut_byte slash r with Some (a, _) => a | None => r end.
Definition named (m : gmap bytes TreeEntry) : Prop := forall n e, m !! n = Some e -> slash ∉ n.
Definition same (a b : TreeEntry) : Prop := te_hash a = te_hash b /\ te_mode a = te_mode b.

Lemma emap_named h es : tree_at db h es -> named (emap es).
Proof.
  intros Ht n e. unfold emap.
  enough (Hg : forall l m n e, l ⊆ es -> (forall n e, m !! n = Some e -> slash ∉ n) -> fold_left add_entry l m !! n = Some e -> slash ∉ n).
  { apply Hg; [done|]. intros n' e' He. by rewrite lookup_empty in He. }
  clear n e. induction l as [|x l IH]; intros m n e Hl Hm; cbn; [apply Hm|]. apply IH; [set_solver|].
  intros n' e'. unfold add_entry. rewrite lookup_insert. case_decide as Hn; [intros _; subst n'; eapply Hnames; [exact Ht|set_solver]|apply Hm].
Qed.

Lemma first_file n : slash ∉ n -> first n = n.
Proof.
  intros Hn. unfold first. destruct (cut_byte slash n) as [[a b]|] eqn:E; [|done]. apply cut_byte_some in E as [-> _]. set_solver.
Qed.
Lemma first_dir n r : slash ∉ n -> first (n ++ slash :: r) = n.
Proof. intros Hn. unfold first. by rewrite cut_byte_app. Qed.

(** The files at and below one entry. *)
Definition leaf_of (x : option TreeEntry) (n r : bytes) (e : TreeEntry) : Prop :=
  exists e0, x = Some e0 /\ ((te_mode e0 <> Dir /\ r = n /\ e = e0) \/
    (te_mode e0 = Dir /\ exists es r', tree_at db (te_hash e0) es /\ r = n ++ slash :: r' /\ leaf (emap es) r' e)).

Lemma leaf_first m r e : named m -> leaf m r e -> leaf_of (m !! first r) (first r) r e.
Proof.
  intros Hm Hl. destruct Hl as [m n e Hn Hd|m n e es r e' Hn Hd Ht Hl].
  - rewrite first_file by by eapply Hm. exists e. split; [done|]. by left.
  - rewrite first_dir by by eapply Hm. exists e. split; [done|]. right. eauto 10.
Qed.

Lemma leaf_of_leaf m n r e : leaf_of (m !! n) n r e -> leaf m r e.
Proof. intros (e0 & Hn & [(Hd & -> & ->)|(Hd & es & r' & Ht & -> & Hl)]); [by apply leaf_file|by eapply leaf_dir]. Qed.

Lemma leaf_of_name x n r e : slash ∉ n -> leaf_of x n r e -> first r = n.
Proof. intros Hn (e0 & _ & [(_ & -> & _)|(_ & es & r' & _ & -> & _)]); [by apply first_file|by apply first_dir]. Qed.

Lemma leaf_det m r e e' : named m -> leaf m r e -> leaf m r e' -> e = e'.
Proof.
  intros Hm Hl. revert Hm. induction Hl as [m n e Hn Hd|m n e es r e1 Hn Hd Ht Hl IH]; intros Hm Hl'; apply leaf_first in Hl'; try done.
  - rewrite first_file in Hl' by by eapply Hm. destruct Hl' as (e0 & He0 & [(_ & _ & ->)|(Hd' & _)]); congruence.
  - rewrite first_dir in Hl' by by eapply Hm. destruct Hl' as (e0 & He0 & [(Hd' & _)|(_ & es' & r' & Ht' & Hr & Hl')]); [congruence|].
    assert (e0 = e) as -> by congruence. rewrite (tree_at_det _ _ _ _ Ht' Ht) in Hl'. apply (inj (app n)) in Hr. injection Hr as <-.
    apply IH; [by eapply emap_named|done].
Qed.

(** ** What one call finds *)

Definition has (m : gmap bytes TreeEntry) (r : bytes) : Prop := exists e, leaf m r e.
Definition changed (m1 m2 : gmap bytes TreeEntry) (r : bytes) : Prop := exists e1 e2, leaf m1 r e1 /\ leaf m2 r e2 /\ ~ same e1 e2.

(** The paths under the names [N] that were added, changed and deleted, each once. *)
Record differs (m1 m2 : gmap bytes TreeEntry) (N : list bytes) (A C D : list bytes) : Prop := {
  df_nodup : NoDup A /\ NoDup C /\ NoDup D;
  df_added r : r ∈ A <-> first r ∈ N /\ has m2 r /\ ~ has m1 r;
  df_changed r : r ∈ C <-> first r ∈ N /\ changed m1 m2 r;
  df_deleted r : r ∈ D <-> first r ∈ N /\ has m1 r /\ ~ has m2 r;
}.

Definition appended (pre : bytes) (f f' : FileChanges) (A C D : list bytes) : Prop :=
  let enc := fun r => encodePath (pre ++ r) in
  fc_added f' = fc_added f ++ (enc <$> A) /\ fc_changed f' = fc_changed f ++ (enc <$> C) /\ fc_deleted f' = fc_deleted f ++ (enc <$> D).

Definition found (pre : bytes) (m1 m2 : gmap bytes TreeEntry) (N : list bytes) (f f' : FileChanges) : Prop :=
  exists A C D, appended pre f f' A C D /\ differs m1 m2 N A C D.

Lemma differs_nil m1 m2 : differs m1 m2 [] [] [] [].
Proof. split; [split_and!; constructor|..]; intros r; rewrite !elem_of_nil; tauto. Qed.

Lemma differs_app m1 m2 N1 N2 A1 C1 D1 A2 C2 D2 : (forall n, n ∈ N1 -> n ∈ N2 -> False) ->
  differs m1 m2 N1 A1 C1 D1 -> differs m1 m2 N2 A2 C2 D2 -> differs m1 m2 (N1 ++ N2) (A1 ++ A2) (C1 ++ C2) (D1 ++ D2).
Proof.
  intros Hd [(G1 & G2 & G3) G4 G5 G6] [(K1 & K2 & K3) K4 K5 K6]. split.
  - split_and!; apply NoDup_app; (split; [done|]); (split; [|done]); intros r Hr1 Hr2;
      [apply G4 in Hr1; apply K4 in Hr2|apply G5 in Hr1; apply K5 in Hr2|apply G6 in Hr1; apply K6 in Hr2]; eapply Hd; (apply Hr1 || apply Hr2).
  - intros r. rewrite !elem_of_app, G4, K4. tauto.
  - intros r. rewrite !elem_of_app, G5, K5. tauto.
  - intros r. rewrite !elem_of_app, G6, K6. tauto.
Qed.

Lemma found_nil pre m1 m2 f : found pre m1 m2 [] f f.
Proof. exists [], [], []. split; [|apply differs_nil]. unfold appended. cbn. by rewrite !app_nil_r. Qed.

Lemma found_app pre m1 m2 N1 N2 f f1 f2 : (forall n, n ∈ N1 -> n ∈ N2 -> False) ->
  found pre m1 m2 N1 f f1 -> found pre m1 m2 N2 f1 f2 -> found pre m1 m2 (N1 ++ N2) f f2.
Proof.
  intros Hd (A1 & C1 & D1 & (G1 & G2 & G3) & G4) (A2 & C2 & D2 & (K1 & K2 & K3) & K4).
  exists (A1 ++ A2), (C1 ++ C2), (D1 ++ D2). split; [|by apply differs_app].
  unfold appended. rewrite !fmap_app, !app_assoc. split_and!; congruence.
Qed.

(** *** The part of one name *)

Definition file_of (x : option TreeEntry) : option TreeEntry := x ≫= (fun e => if is_dir e then None else Some e).
(** The entries below it, none unless it is a directory. *)
Definition below (x : option TreeEntry) (T : gmap bytes TreeEntry) : Prop :=
  match x with
  | Some e => if is_dir e then (exists es, tree_at db (te_hash e) es /\ T = emap es) \/ ((forall es, ~ tree_at db (te_hash e) es) /\ T = ∅) else T = ∅
  | None => T = ∅
  end.

Lemma no_leaf r e : ~ leaf ∅ r e.
Proof. remember (∅ : gmap bytes TreeEntry) as m. destruct 1; subst; by rewrite lookup_empty in *. Qed.

Lemma below_named x T : below x T -> named T.
Proof.
  unfold below. destruct x as [e|]; [destruct (is_dir e); [intros [(es & Ht & ->)|[_ ->]]; [by eapply emap_named|]|intros ->]|intros ->];
    intros n e'; by rewrite lookup_empty.
Qed.

Lemma leaf_of_cases x n T r e : below x T ->
  leaf_of x n r e <-> (r = n /\ file_of x = Some e) \/ exists r', r = n ++ slash :: r' /\ leaf T r' e.
Proof.
  intros Hb. split.
  - intros (e0 & -> & [(Hd & -> & ->)|(Hd & es & r' & Ht & -> & Hl)]); cbn in *; unfold is_dir in *.
    + rewrite (proj2 (Z.eqb_neq _ _) Hd). by left.
    + rewrite (proj2 (Z.eqb_eq _ _) Hd) in Hb. destruct Hb as [(es' & Ht' & ->)|[Hno _]]; [|by destruct (Hno es)]. rewrite (tree_at_det _ _ _ _ Ht' Ht). right. eauto.
  - intros [[-> Hf]|(r' & -> & Hl)].
    + destruct x as [e0|]; [|done]. cbn in Hf. unfold is_dir in Hf. destruct (Z.eqb_spec (te_mode e0) Dir); [done|]. injection Hf as ->. exists e. split; [done|]. by left.
    + unfold below in Hb. destruct x as [e0|]; [|subst; by apply no_leaf in Hl]. unfold is_dir in Hb.
      destruct (Z.eqb_spec (te_mode e0) Dir) as [Hd|]; [|subst; by apply no_leaf in Hl]. destruct Hb as [(es & Ht & ->)|[_ ->]]; [|by apply no_leaf in Hl].
      exists e0. split; [done|]. right. eauto 10.
Qed.

Lemma has_at m n T r : named m -> slash ∉ n -> below (m !! n) T -> first r = n ->
  has m r <-> (r = n /\ is_Some (file_of (m !! n))) \/ exists r', r = n ++ slash :: r' /\ has T r'.
Proof.
  intros Hm Hn Hb Hf. split.
  - intros (e & Hl). apply leaf_first in Hl; [|done]. rewrite Hf, (leaf_of_cases _ _ _ _ _ Hb) in Hl. unfold has. naive_solver.
  - intros [[-> [e He]]|(r' & -> & e & Hl)]; exists e; apply leaf_of_leaf with n; rewrite (leaf_of_cases _ _ _ _ _ Hb); eauto.
Qed.

Lemma leaf_at m n T r e : named m -> slash ∉ n -> below (m !! n) T -> first r = n ->
  leaf m r e <-> (r = n /\ file_of (m !! n) = Some e) \/ exists r', r = n ++ slash :: r' /\ leaf T r' e.
Proof.
  intros Hm Hn Hb Hf. rewrite <-(leaf_of_cases _ _ _ _ _ Hb). split; [|apply leaf_of_leaf].
  intros Hl%leaf_first; [|done]. by rewrite Hf in Hl.
Qed.

Lemma file_not_below n r' : n = n ++ slash :: r' -> False.
Proof. intros He. apply (f_equal length) in He. rewrite length_app in He. cbn in He. lia. Qed.

(** What a directory's difference contributes, and what the entry itself does. *)
Definition lift_names (n : bytes) (l : list bytes) (self : Prop) (l' : list bytes) : Prop :=
  NoDup l' /\ forall r, r ∈ l' <-> (self /\ r = n) \/ exists r', r = n ++ slash :: r' /\ r' ∈ l.

Definition is_file_at (m : gmap bytes TreeEntry) (n : bytes) : Prop := is_Some (file_of (m !! n)).
Definition both_changed (m1 m2 : gmap bytes TreeEntry) (n : bytes) : Prop :=
  exists a b, file_of (m1 !! n) = Some a /\ file_of (m2 !! n) = Some b /\ ~ same a b.

(** A path in [m2] and not in [m1], by where it ends. *)
Lemma only_in m1 m2 n T1 T2 r : named m1 -> named m2 -> slash ∉ n -> below (m1 !! n) T1 -> below (m2 !! n) T2 ->
  first r = n /\ has m2 r /\ ~ has m1 r <->
  ((is_file_at m2 n /\ ~ is_file_at m1 n) /\ r = n) \/ exists r', r = n ++ slash :: r' /\ has T2 r' /\ ~ has T1 r'.
Proof.
  intros Hm1 Hm2 Hn Hb1 Hb2. split.
  - intros (Hf & H2 & H1). rewrite (has_at m1 n T1) in H1 by done. apply (has_at m2 n T2) in H2; [|done..].
    destruct H2 as [[-> H2]|(r' & -> & H2)]; [left; split; [split; [done|]|done]; intros ?; apply H1; by left|].
    right. exists r'. split_and!; [done..|]. intros ?. apply H1. right. eauto.
  - intros [[[H2 H1] ->]|(r' & -> & H2 & H1)].
    + pose proof (first_file n Hn) as Hf. rewrite (has_at m1 n T1), (has_at m2 n T2) by done. split_and!; [done|by left|].
      intros [[_ ?]|(r' & Hr & _)]; [done|by apply file_not_below in Hr].
    + pose proof (first_dir n r' Hn) as Hf. rewrite (has_at m1 n T1), (has_at m2 n T2) by done. split_and!; [done|right; eauto|].
      intros [[Hr _]|(r2 & Hr & ?)]; [by symmetry in Hr; apply file_not_below in Hr|]. apply (inj (app n)) in Hr. injection Hr as <-. done.
Qed.

Lemma changed_at m1 m2 n T1 T2 r : named m1 -> named m2 -> slash ∉ n -> below (m1 !! n) T1 -> below (m2 !! n) T2 ->
  first r = n /\ changed m1 m2 r <-> (both_changed m1 m2 n /\ r = n) \/ exists r', r = n ++ slash :: r' /\ changed T1 T2 r'.
Proof.
  intros Hm1 Hm2 Hn Hb1 Hb2. split.
  - intros (Hf & e1 & e2 & H1 & H2 & Hne). apply (leaf_at m1 n T1) in H1; [|done..]. apply (leaf_at m2 n T2) in H2; [|done..].
    destruct H1 as [[-> H1]|(r' & -> & H1)], H2 as [[Hr H2]|(r2 & Hr & H2)].
    + left. split; [by exists e1, e2|done].
    + by apply file_not_below in Hr.
    + by symmetry in Hr; apply file_not_below in Hr.
    + apply (inj (app n)) in Hr. injection Hr as <-. right. exists r'. split; [done|]. by exists e1, e2.
  - intros [[(e1 & e2 & H1 & H2 & Hne) ->]|(r' & -> & e1 & e2 & H1 & H2 & Hne)].
    + pose proof (first_file n Hn) as Hf. split; [done|]. exists e1, e2. rewrite (leaf_at m1 n T1), (leaf_at m2 n T2) by done. auto.
    + pose proof (first_dir n r' Hn) as Hf. split; [done|]. exists e1, e2. rewrite (leaf_at m1 n T1), (leaf_at m2 n T2) by done. eauto 10.
Qed.

Definition covering (m1 m2 : gmap bytes TreeEntry) (N : list bytes) : Prop := forall k, is_Some (m1 !! k) \/ is_Some (m2 !! k) -> k ∈ N.

Lemma covering_has m1 m2 N r : named m1 -> named m2 -> covering m1 m2 N -> has m1 r \/ has m2 r -> first r ∈ N.
Proof.
  intros Hm1 Hm2 Hc [(e & Hl%leaf_first)|(e & Hl%leaf_first)]; try done; destruct Hl as (e0 & He & _); apply Hc; rewrite He; eauto.
Qed.

Lemma differs_one m1 m2 n T1 T2 N A' C' D' A C D :
  named m1 -> named m2 -> slash ∉ n -> below (m1 !! n) T1 -> below (m2 !! n) T2 -> covering T1 T2 N -> differs T1 T2 N A' C' D' ->
  lift_names n A' (is_file_at m2 n /\ ~ is_file_at m1 n) A ->
  lift_names n C' (both_changed m1 m2 n) C ->
  lift_names n D' (is_file_at m1 n /\ ~ is_file_at m2 n) D ->
  differs m1 m2 [n] A C D.
Proof.
  intros Hm1 Hm2 Hn Hb1 Hb2 Hc [_ G1 G2 G3] [HA1 HA2] [HC1 HC2] [HD1 HD2].
  pose proof (below_named _ _ Hb1) as Ht1. pose proof (below_named _ _ Hb2) as Ht2.
  split; [done|..]; intros r; rewrite list_elem_of_singleton.
  - rewrite HA2, (only_in m1 m2 n T1 T2) by done. setoid_rewrite G1. split; (intros [?|(r' & -> & Hr)]; [by left|right; exists r'; split; [done|]]); [tauto|].
    split; [|done]. apply (covering_has T1 T2); tauto.
  - rewrite HC2, (changed_at m1 m2 n T1 T2) by done. setoid_rewrite G2. split; (intros [?|(r' & -> & Hr)]; [by left|right; exists r'; split; [done|]]); [tauto|].
    split; [|done]. apply (covering_has T1 T2); [done..|]. destruct Hr as (e1 & e2 & ? & _). left. by exists e1.
  - rewrite HD2, (only_in m2 m1 n T2 T1) by done. setoid_rewrite G3. split; (intros [?|(r' & -> & Hr)]; [by left|right; exists r'; split; [done|]]); [tauto|].
    split; [|done]. apply (covering_has T1 T2); tauto.
Qed.

(** [n] itself, or nothing. *)
Definition only_if (n : bytes) (P : Prop) (l : list bytes) : Prop := (P /\ l = [n]) \/ (~ P /\ l = []).

#[local] Abbreviation under n := (fun r => n ++ slash :: r).

Lemma lift_names_app n l P self : NoDup l -> only_if n P self -> lift_names n l P ((under n <$> l) ++ self).
Proof.
  intros Hl Hs. assert (Hn : NoDup (under n <$> l)) by (apply NoDup_fmap; [intros x y Hxy; apply (inj (app n)) in Hxy; by injection Hxy|done]).
  split.
  - apply NoDup_app. split; [done|]. destruct Hs as [[_ ->]|[_ ->]]; [|split; [set_solver|constructor]].
    split; [|apply NoDup_singleton]. intros r (r' & -> & _)%list_elem_of_fmap Hr%list_elem_of_singleton. by symmetry in Hr; apply file_not_below in Hr.
  - intros r. rewrite elem_of_app, list_elem_of_fmap. destruct Hs as [[HP ->]|[HP ->]]; [rewrite list_elem_of_singleton|rewrite elem_of_nil]; naive_solver.
Qed.

Lemma found_one pre m1 m2 n T1 T2 N f f' A' C' D' sA sC sD :
  named m1 -> named m2 -> slash ∉ n -> below (m1 !! n) T1 -> below (m2 !! n) T2 -> covering T1 T2 N -> differs T1 T2 N A' C' D' ->
  only_if n (is_file_at m2 n /\ ~ is_file_at m1 n) sA -> only_if n (both_changed m1 m2 n) sC -> only_if n (is_file_at m1 n /\ ~ is_file_at m2 n) sD ->
  appended pre f f' ((under n <$> A') ++ sA) ((under n <$> C') ++ sC) ((under n <$> D') ++ sD) ->
  found pre m1 m2 [n] f f'.
Proof.
  intros Hm1 Hm2 Hn Hb1 Hb2 Hc Hd HA HC HD Happ. do 3 eexists. split; [exact Happ|]. pose proof (df_nodup _ _ _ _ _ _ Hd) as (? & ? & ?).
  eapply (differs_one m1 m2 n T1 T2); try done; by apply lift_names_app.
Qed.

Lemma appended_under pre n f f' A C D :
  appended ((pre ++ n) ++ [slash]) f f' A C D -> appended pre f f' ((under n <$> A) ++ []) ((under n <$> C) ++ []) ((under n <$> D) ++ []).
Proof.
  assert (He : forall l : list bytes, (fun r => encodePath (((pre ++ n) ++ [slash]) ++ r)) <$> l = (fun r => encodePath (pre ++ r)) <$> (under n <$> l)).
  { intros l. rewrite <-list_fmap_compose. apply list_fmap_ext. intros i r _. cbn. by rewrite <-!app_assoc. }
  unfold appended. by rewrite !He, !app_nil_r.
Qed.

Lemma appended_trans pre f f1 f2 A C D A2 C2 D2 :
  appended pre f f1 A C D -> appended pre f1 f2 A2 C2 D2 -> appended pre f f2 (A ++ A2) (C ++ C2) (D ++ D2).
Proof. intros (G1 & G2 & G3) (K1 & K2 & K3). unfold appended. rewrite !fmap_app, !app_assoc. split_and!; congruence. Qed.

Lemma appended_nil pre f : appended pre f f [] [] [].
Proof. unfold appended. cbn. by rewrite !app_nil_r. Qed.
Lemma appended_added pre n f : appended pre f (add_added (pre ++ n) f) [n] [] [].
Proof. unfold appended. cbn. by rewrite !app_nil_r. Qed.
Lemma appended_changed pre n f : appended pre f (add_changed (pre ++ n) f) [] [n] [].
Proof. unfold appended. cbn. by rewrite !app_nil_r. Qed.
Lemma appended_deleted pre n f : appended pre f (add_deleted (pre ++ n) f) [] [] [n].
Proof. unfold appended. cbn. by rewrite !app_nil_r. Qed.

(** Nothing is below a file. *)
Lemma differs_empty_l T N A C D : differs ∅ T N A C D -> C = [] /\ D = [].
Proof.
  intros [_ _ G2 G3]. split; apply elem_of_nil_inv; intros r; rewrite ?G2, ?G3.
  - intros (_ & e1 & e2 & Hl & _). by apply no_leaf in Hl.
  - intros (_ & (e & Hl) & _). by apply no_leaf in Hl.
Qed.
Lemma differs_empty_r T N A C D : differs T ∅ N A C D -> A = [] /\ C = [].
Proof.
  intros [_ G1 G2 _]. split; apply elem_of_nil_inv; intros r; rewrite ?G1, ?G2.
  - intros (_ & (e & Hl) & _). by apply no_leaf in Hl.
  - intros (_ & e1 & e2 & _ & Hl & _). by apply no_leaf in Hl.
Qed.
Lemma differs_empty : differs ∅ ∅ [] [] [] [].
Proof. apply differs_nil. Qed.

(** *** The two loops *)

Definition loaded (t : option Tree) : Prop := match t with Some t => tree_at db (t_hash t) (t_entries t) | None => True end.
Definition sub_ok (sub : option Tree -> option Tree -> bytes -> FileChanges -> io W FileChanges) : Prop :=
  forall o n dir f s f' s', loaded o -> loaded n -> sub o n dir f s = (Ok f', s') ->
    exists N, covering (entry_map o) (entry_map n) N /\ found dir (entry_map o) (entry_map n) N f f'.

Lemma load_tree_ok h s t s' : wrapping (load_tree h) s = (Ok t, s') -> t_hash t = h /\ loaded (Some t).
Proof.
  intros [(x & [= <-] & Hr)|(? & ? & _)]%wrapping_inv; [|done].
  apply io_bind_ok in Hr as (es & s1 & Ht%(GetTree_ok db) & Hr). by injection Hr as <- _.
Qed.

Lemma below_loaded e t : is_dir e = true -> t_hash t = te_hash e -> loaded (Some t) -> below (Some e) (entry_map (Some t)).
Proof. intros Hd He Hl. cbn. rewrite Hd, <-He. left. by exists (t_entries t). Qed.

(** The part of a name that a call below it found. *)
Lemma sub_part pre m1 m2 n f0 f f1 f' T1 T2 N A0 C0 D0 A1 C1 D1 :
  named m1 -> named m2 -> slash ∉ n -> below (m1 !! n) T1 -> below (m2 !! n) T2 -> covering T1 T2 N ->
  found ((pre ++ n) ++ [slash]) T1 T2 N f f1 ->
  appended pre f0 f A0 C0 D0 -> appended pre f1 f' A1 C1 D1 ->
  (A0 <> [] \/ C0 <> [] \/ D0 <> [] -> T1 = ∅) -> A0 = [] -> C0 = [] ->
  only_if n (is_file_at m2 n /\ ~ is_file_at m1 n) (A0 ++ A1) -> only_if n (both_changed m1 m2 n) (C0 ++ C1) ->
  only_if n (is_file_at m1 n /\ ~ is_file_at m2 n) (D0 ++ D1) ->
  found pre m1 m2 [n] f0 f'.
Proof.
  intros Hm1 Hm2 Hn Hb1 Hb2 Hc (A & C & D & Happ%appended_under & Hd) Hf0 Hf1 HT -> -> HA HC HD.
  eapply (found_one pre m1 m2 n T1 T2 N); try done.
  pose proof (appended_trans _ _ _ _ _ _ _ _ _ _ (appended_trans _ _ _ _ _ _ _ _ _ _ Hf0 Happ) Hf1) as Hall. rewrite !app_nil_r in Hall. cbn [app] in Hall.
  destruct D0 as [|d D0]; [done|]. rewrite HT in Hd by (right; by right). apply differs_empty_l in Hd as [-> ->].
  cbn [fmap list_fmap app] in *. by rewrite ?app_nil_r in *.
Qed.

Lemma below_total x : exists T, below x T.
Proof.
  unfold below. destruct x as [e|]; [|eauto]. destruct (is_dir e); [|eauto].
  destruct (db (te_hash e)) as [[t b]|] eqn:Hdb; [|exists ∅; right; split; [intros es (b & Hb & _); congruence|done]].
  destruct (decide (t = TreeObject)) as [->|]; [|exists ∅; right; split; [intros es (b' & Hb & _); congruence|done]].
  destruct (decodeTree b) as [es|] eqn:Hd; [exists (emap es); left; exists es; by split; [exists b|]|].
  exists ∅. right. split; [|done]. intros es (b' & Hb & Hd'). congruence.
Qed.

Lemma below_same a b T : same a b -> below (Some a) T -> below (Some b) T.
Proof. intros [Hh Hm]. unfold below, is_dir. by rewrite Hh, Hm. Qed.

Lemma differs_same T N : named T -> differs T T N [] [] [].
Proof.
  intros HT. split; [split_and!; constructor|..]; intros r; rewrite elem_of_nil; [tauto| |tauto].
  split; [done|]. intros (_ & e1 & e2 & H1 & H2 & Hne). rewrite (leaf_det _ _ _ _ HT H1 H2) in Hne. by destruct Hne.
Qed.

Lemma covering_all m1 m2 : covering m1 m2 ((map_to_list m1).*1 ++ (map_to_list m2).*1).
Proof.
  intros k [[e He]|[e He]]; apply elem_of_app; [left|right]; apply list_elem_of_fmap; exists (k, e);
    (split; [done|]); by apply elem_of_map_to_list.
Qed.

Lemma is_file_some m n e : m !! n = Some e -> is_file_at m n <-> is_dir e = false.
Proof.
  intros He. unfold is_file_at, file_of. rewrite He. cbn. destruct (is_dir e); (split; [intros [? ?]|]); done || by eexists.
Qed.
Lemma is_file_none m n : m !! n = None -> is_file_at m n <-> False.
Proof. intros He. split; [|done]. intros [e Hf]. unfold file_of in Hf. by rewrite He in Hf. Qed.
Lemma both_changed_some m1 m2 n a b : m1 !! n = Some a -> m2 !! n = Some b ->
  both_changed m1 m2 n <-> is_dir a = false /\ is_dir b = false /\ ~ same a b.
Proof.
  intros Ha Hb. unfold both_changed, file_of. rewrite Ha, Hb. cbn. split.
  - intros (x & y & Hx & Hy & Hne). destruct (is_dir a), (is_dir b); by simplify_eq.
  - intros (-> & -> & Hne). eauto 10.
Qed.
Lemma both_changed_none m1 m2 n : m1 !! n = None \/ m2 !! n = None -> both_changed m1 m2 n <-> False.
Proof. intros [He|He]; (split; [|done]); intros (x & y & Hx & Hy & _); unfold file_of in *; by rewrite He in *. Qed.

(** Decides what an entry adds of itself. *)
#[local] Ltac by_kind :=
  unfold only_if;
  repeat match goal with
  | H : ?m !! ?n = Some ?e |- context [is_file_at ?m ?n] => rewrite (is_file_some m n e H)
  | H : ?m !! ?n = None |- context [is_file_at ?m ?n] => rewrite (is_file_none m n H)
  | H1 : ?m1 !! ?n = Some ?a, H2 : ?m2 !! ?n = Some ?b |- context [both_changed ?m1 ?m2 ?n] => rewrite (both_changed_some m1 m2 n a b H1 H2)
  | H : _ !! ?n = None |- context [both_changed ?m1 ?m2 ?n] => rewrite (both_changed_none m1 m2 n ltac:(auto))
  end;
  repeat match goal with |- context [is_dir ?e] => destruct (is_dir e) eqn:? end; try congruence;
  first [right; split; [intuition congruence|reflexivity] | left; split; [intuition congruence|reflexivity]].

(** The side conditions of [found_one] and [sub_part]. *)
#[local] Ltac part :=
  first
    [ done | by apply below_loaded | by apply differs_empty | by apply appended_nil | by apply appended_added
    | by apply appended_changed | by apply appended_deleted
    | intros [?|[?|?]]; done | intros _; reflexivity
    | intros k [[? Hk]|[? Hk]]; by rewrite lookup_empty in Hk
    | cbn; by repeat match goal with H : is_dir _ = _ |- _ => rewrite H end
    | by_kind ].

Lemma diff_old_found sub pre m1 m2 f n o s f' s' :
  sub_ok sub -> named m1 -> named m2 -> m1 !! n = Some o -> diff_old sub pre m2 f (n, o) s = (Ok f', s') -> found pre m1 m2 [n] f f'.
Proof.
  intros Hsub Hm1 Hm2 Ho Hr. assert (Hn : slash ∉ n) by (by eapply Hm1). unfold diff_old in Hr.
  destruct (m2 !! n) as [w|] eqn:Hw.
  - destruct (_ && _) eqn:Hsame; [injection Hr as <- _|].
    { apply andb_true_iff in Hsame as [?%bool_decide_eq_true ?%Z.eqb_eq]. assert (Hs : same o w) by done.
      destruct (below_total (Some o)) as (T & HT). pose proof (below_same _ _ _ Hs HT) as HT'.
      assert (Hk : is_dir o = is_dir w) by (unfold is_dir; by destruct Hs as [_ ->]).
      eapply (found_one pre m1 m2 n T T _ f f [] [] [] [] [] []); rewrite ?Ho, ?Hw; try done.
      all: first [apply covering_all | apply differs_same; by eapply below_named | part]. }
    assert (Hns : ~ same o w) by (intros [Hh Hm]; by rewrite Hh, Hm, bool_decide_true, Z.eqb_refl in Hsame).
    destruct (is_dir o) eqn:Hod, (is_dir w) eqn:Hwd.
    + apply io_bind_ok in Hr as (nt & s1 & [Hnh Hnl]%load_tree_ok & Hr). apply io_bind_ok in Hr as (ot & s2 & [Hoh Hol]%load_tree_ok & Hr).
      destruct (Hsub _ _ _ _ _ _ _ Hol Hnl Hr) as (N & Hc & Hf).
      eapply (sub_part pre m1 m2 n f f f' f' (entry_map (Some ot)) (entry_map (Some nt)) N [] [] [] [] [] []); rewrite ?Ho, ?Hw; part.
    + apply io_bind_ok in Hr as (ot & s1 & [Hoh Hol]%load_tree_ok & Hr). apply io_bind_ok in Hr as (f1 & s2 & Hr & Hf1). injection Hf1 as <- _.
      destruct (Hsub (Some ot) None _ _ _ _ _ Hol I Hr) as (N & Hc & Hf).
      eapply (sub_part pre m1 m2 n f f f1 _ (entry_map (Some ot)) ∅ N [] [] [] [n] [] []); rewrite ?Ho, ?Hw; part.
    + apply io_bind_ok in Hr as (nt & s1 & [Hnh Hnl]%load_tree_ok & Hr).
      destruct (Hsub None (Some nt) _ _ _ _ _ I Hnl Hr) as (N & Hc & Hf).
      eapply (sub_part pre m1 m2 n f _ f' f' ∅ (entry_map (Some nt)) N [] [] [n] [] [] []); rewrite ?Ho, ?Hw; part.
    + injection Hr as <- _. eapply (found_one pre m1 m2 n ∅ ∅ [] _ _ [] [] [] [] [n] []); rewrite ?Ho, ?Hw; part.
  - destruct (is_dir o) eqn:Hod.
    + apply io_bind_ok in Hr as (ot & s1 & [Hoh Hol]%load_tree_ok & Hr).
      destruct (Hsub (Some ot) None _ _ _ _ _ Hol I Hr) as (N & Hc & Hf).
      eapply (sub_part pre m1 m2 n f f f' f' (entry_map (Some ot)) ∅ N [] [] [] [] [] []); rewrite ?Ho, ?Hw; part.
    + injection Hr as <- _. eapply (found_one pre m1 m2 n ∅ ∅ [] _ _ [] [] [] [] [] [n]); rewrite ?Ho, ?Hw; part.
Qed.

Lemma diff_new_found sub pre m1 m2 f n w s f' s' :
  sub_ok sub -> named m1 -> named m2 -> m2 !! n = Some w -> m1 !! n = None -> diff_new sub pre m1 f (n, w) s = (Ok f', s') -> found pre m1 m2 [n] f f'.
Proof.
  intros Hsub Hm1 Hm2 Hw Ho Hr. assert (Hn : slash ∉ n) by (by eapply Hm2). unfold diff_new in Hr. rewrite Ho in Hr.
  destruct (is_dir w) eqn:Hwd.
  - apply io_bind_ok in Hr as (nt & s1 & [Hnh Hnl]%load_tree_ok & Hr).
    destruct (Hsub None (Some nt) _ _ _ _ _ I Hnl Hr) as (N & Hc & Hf).
    eapply (sub_part pre m1 m2 n f f f' f' ∅ (entry_map (Some nt)) N [] [] [] [] [] []); rewrite ?Ho, ?Hw; part.
  - injection Hr as <- _. eapply (found_one pre m1 m2 n ∅ ∅ [] _ _ [] [] [] [n] [] []); rewrite ?Ho, ?Hw; part.
Qed.

Lemma range_nodup m : NoDup (range m).*1.
Proof. rewrite Hrange. apply NoDup_fst_map_to_list. Qed.
Lemma range_lookup m n e : (n, e) ∈ range m <-> m !! n = Some e.
Proof. rewrite Hrange. apply elem_of_map_to_list. Qed.

Lemma entry_map_named t : loaded t -> named (entry_map t).
Proof. destruct t as [t|]; [intros Hl; by eapply (emap_named (t_hash t))|]. intros _ n e He. cbn in He. by rewrite lookup_empty in He. Qed.

(** Not among the old names. *)
Definition fresh_names (m1 : gmap bytes TreeEntry) (l : list (bytes * TreeEntry)) : list bytes := filter (fun n => m1 !! n = None) l.*1.

Lemma elem_middle {A} (l k : list A) x : x ∈ l ++ x :: k.
Proof. apply elem_of_app. right. left. Qed.

Lemma loops_found sub pre m1 m2 f s f1 s1 f2 s2 :
  sub_ok sub -> named m1 -> named m2 ->
  io_fold (diff_old sub pre m2) (range m1) f s = (Ok f1, s1) -> io_fold (diff_new sub pre m1) (range m2) f1 s1 = (Ok f2, s2) ->
  exists N, covering m1 m2 N /\ found pre m1 m2 N f f2.
Proof.
  intros Hsub Hm1 Hm2 H1 H2. exists ((range m1).*1 ++ fresh_names m1 (range m2)). split.
  { intros n Hn. rewrite elem_of_app. destruct (m1 !! n) as [e|] eqn:E; [left|destruct Hn as [[? Hn]|[e Hn]]; [congruence|right]].
    - apply list_elem_of_fmap. exists (n, e). split; [done|]. by apply range_lookup.
    - apply list_elem_of_filter. split; [done|]. apply list_elem_of_fmap. exists (n, e). split; [done|]. by apply range_lookup. }
  assert (Hf1 : found pre m1 m2 (range m1).*1 f f1).
  { revert H1. apply (io_fold_split (fun done f' => found pre m1 m2 done.*1 f f')); [apply found_nil|].
    intros done [n e] rest f' w f'' w' Hl Hd Hx. rewrite fmap_app. eapply found_app; [|exact Hd|eapply (diff_old_found sub); [done..|by apply range_lookup; rewrite Hl; apply elem_middle|exact Hx]].
    intros k Hk ->%list_elem_of_singleton. pose proof (range_nodup m1) as Hnd. rewrite Hl, fmap_app in Hnd. apply NoDup_app in Hnd as (_ & Hnd & _).
    apply (Hnd n); [done|]. cbn. set_solver. }
  revert H2. apply (io_fold_split (fun done f' => found pre m1 m2 ((range m1).*1 ++ fresh_names m1 done) f f')).
  { unfold fresh_names. cbn. by rewrite app_nil_r. }
  intros done [n e] rest f' w f'' w' Hl Hd Hx. unfold fresh_names. rewrite fmap_app, filter_app, app_assoc. cbn [fmap list_fmap fst].
  destruct (m1 !! n) as [o|] eqn:Ho.
  - rewrite filter_cons_False by congruence. rewrite filter_nil, app_nil_r. unfold diff_new in Hx. rewrite Ho in Hx. by injection Hx as <- _.
  - rewrite filter_cons_True by done. rewrite filter_nil.
    eapply found_app; [|exact Hd|eapply (diff_new_found sub); [done..|by apply range_lookup; rewrite Hl; apply elem_middle|done|exact Hx]].
    intros k Hk ->%list_elem_of_singleton. apply elem_of_app in Hk as [Hk|Hk].
    + apply list_elem_of_fmap in Hk as ([n' o] & -> & Hk%range_lookup). cbn in Ho. congruence.
    + apply list_elem_of_filter in Hk as [_ Hk]. pose proof (range_nodup m2) as Hnd. rewrite Hl, fmap_app in Hnd. apply NoDup_app in Hnd as (_ & Hnd & _).
      apply (Hnd n); [done|]. cbn. set_solver.
Qed.

Lemma diffTrees_found fuel : sub_ok (diffTrees ctxErr range fuel).
Proof.
  induction fuel as [|fuel IH]; intros o n dir f s f' s' Ho Hn Hr; cbn [diffTrees] in Hr; [done|].
  apply io_bind_ok in Hr as (_ & s1 & _ & Hr).
  pose proof (entry_map_named _ Ho) as Hm1. pose proof (entry_map_named _ Hn) as Hm2.
  assert (Hloops : forall s1, (let! files := io_fold (diff_old (diffTrees ctxErr range fuel) dir (entry_map n)) (range (entry_map o)) f in
      io_fold (diff_new (diffTrees ctxErr range fuel) dir (entry_map o)) (range (entry_map n)) files) s1 = (Ok f', s') ->
      exists N, covering (entry_map o) (entry_map n) N /\ found dir (entry_map o) (entry_map n) N f f').
  { intros s2 Hx. apply io_bind_ok in Hx as (f1 & s3 & H1 & H2). by eapply loops_found. }
  destruct o as [o|], n as [n|]; try by eapply Hloops. case_bool_decide as Hh; [|by eapply Hloops].
  injection Hr as <- _. assert (Hes : t_entries o = t_entries n) by (cbn in Ho, Hn; rewrite Hh in Ho; by eapply tree_at_det).
  exists ((map_to_list (entry_map (Some o))).*1 ++ (map_to_list (entry_map (Some n))).*1). split; [apply covering_all|].
  exists [], [], []. split; [apply appended_nil|]. cbn in *. rewrite Hes. by apply differs_same.
Qed.

(** *** The whole *)

(** The entries at the root of a commit; the zero hash has none. *)
Definition root_of (h : Hash) (T : gmap bytes TreeEntry) : Prop :=
  (h = ZeroHash /\ T = ∅) \/ (h <> ZeroHash /\ exists c es, commit_at db h c /\ tree_at db (cm_tree c) es /\ T = emap es).

Lemma treeAt_ok h s t s' : treeAt h s = (Ok t, s') -> loaded t /\ root_of h (entry_map t).
Proof.
  unfold treeAt. case_bool_decide as Hz; [intros [= <- _]; split; [done|by left]|]. intros Hr.
  apply io_bind_ok in Hr as (c & s1 & Hc%(GetCommit_ok db) & Hr). apply io_bind_ok in Hr as (t' & s2 & Ht & Hr). injection Hr as <- _.
  apply io_bind_ok in Ht as (es & s3 & Hes%(GetTree_ok db) & Ht). injection Ht as <- _. split; [done|]. right. split; [done|]. by exists c, es.
Qed.

(** C27: the files of an event are the difference of the two commits: [Added]
    are exactly the paths of files that only the new one has, [Deleted] those
    that only the old one has, and [Changed] those that both have with another
    content or mode, each path once and each list sorted. A directory that
    became a file, or a file that became a directory, is the removal of what was
    there and the addition of what is. Subtrees that did not change need not even
    be readable. *)
Theorem diff_is_tree_difference fuel old new s f s' :
  Diff ctxErr range fuel old new s = (Ok f, s') ->
  exists T1 T2 A C D, root_of old T1 /\ root_of new T2 /\
    f = {| fc_added := stable_sort bytes_leb (encodePath <$> A); fc_changed := stable_sort bytes_leb (encodePath <$> C);
           fc_deleted := stable_sort bytes_leb (encodePath <$> D) |} /\
    (NoDup A /\ NoDup C /\ NoDup D) /\
    (forall p, p ∈ A <-> has T2 p /\ ~ has T1 p) /\
    (forall p, p ∈ D <-> has T1 p /\ ~ has T2 p) /\
    (forall p, p ∈ C <-> exists e1 e2, leaf T1 p e1 /\ leaf T2 p e2 /\ ~ same e1 e2).
Proof.
  intros Hr. apply io_bind_ok in Hr as (_ & s1 & _ & Hr). apply io_bind_ok in Hr as (o & s2 & Ho & Hr).
  apply io_bind_ok in Hr as (n & s3 & Hn & Hr). apply io_bind_ok in Hr as (f0 & s4 & Hd & Hr). injection Hr as <- _.
  apply wrapping_inv in Ho as [(x & [= <-] & Ho)|(? & ? & _)]; [|done]. apply wrapping_inv in Hn as [(x & [= <-] & Hn)|(? & ? & _)]; [|done].
  apply wrapping_inv in Hd as [(x & [= <-] & Hd)|(? & ? & _)]; [|done].
  apply treeAt_ok in Ho as [Hol Hor], Hn as [Hnl Hnr]. pose proof (entry_map_named _ Hol) as Hm1. pose proof (entry_map_named _ Hnl) as Hm2.
  apply diffTrees_found in Hd as (N & Hc & A & C & D & (G1 & G2 & G3) & [Hnd HA HC HD]); [|done..].
  exists (entry_map o), (entry_map n), A, C, D. split; [done|]. split; [done|]. split; [unfold sort_files; by rewrite G1, G2, G3|]. split; [done|].
  pose proof (fun r => covering_has _ _ _ r Hm1 Hm2 Hc) as Hin. split_and!; intros r.
  - rewrite HA. split; [tauto|]. intros [? ?]. split; [apply Hin; by right|done].
  - rewrite HD. split; [tauto|]. intros [? ?]. split; [apply Hin; by left|done].
  - rewrite HC. split; [tauto|]. intros (e1 & e2 & H1 & ?). split; [apply Hin; left; by exists e1|by exists e1, e2].
Qed.
End diff.

(** ** The history *)

Section history.
Context `{GoGit} `{!GitDecode} {W : Type} `{!EncodedObjectStorer W}.
Context (db : Hash -> option (Z * bytes)) `{!Reads _ db} (ctxErr : W -> option goerr).

Definition parent (x p : Hash) : Prop := exists c, commit_at db x c /\ p ∈ cm_parents c.

Lemma closed_rtc {A} (R : A -> A -> Prop) (P : A -> Prop) x y : (forall y p, P y -> R y p -> P p) -> rtc R x y -> P x -> P y.
Proof. intros Hc Hr. induction Hr as [|x z y Hxz _ IH]; [done|]. intros Hx. apply IH. by eapply Hc. Qed.

Lemma elem_of_rev {A} (x : A) l : x ∈ rev l <-> x ∈ l.
Proof. by rewrite !list_elem_of_In, <-in_rev. Qed.

(** [reachable]: what was seen has its parents seen or waiting. *)
Lemma reach_loop_ok fuel (tip : Hash) stack seen s seen' s' :
  (forall y p, y ∈ seen -> parent y p -> p ∈ seen \/ p ∈ stack) ->
  (forall y, y ∈ seen \/ y ∈ stack -> rtc parent tip y) -> (tip ∈ seen \/ tip ∈ stack) ->
  reach_loop ctxErr fuel stack seen s = (Ok seen', s') -> forall y, y ∈ seen' <-> rtc parent tip y.
Proof.
  revert stack seen s. induction fuel as [|fuel IH]; intros stack seen s G1 G2 G3 Hr; cbn [reach_loop] in Hr; [done|].
  destruct stack as [|h stack].
  { injection Hr as <- _. intros y. split; [intros Hy; apply G2; by left|]. intros Hy. destruct G3 as [G3|G3]; [|by apply elem_of_nil in G3].
    revert Hy G3. apply (closed_rtc _ (fun y => y ∈ seen)). intros z p Hz Hp. destruct (G1 _ _ Hz Hp) as [|Hn]; [done|by apply elem_of_nil in Hn]. }
  apply io_bind_ok in Hr as (_ & s1 & _ & Hr). destruct (decide (h ∈ seen)) as [Hin|Hin].
  - eapply IH; [| | |exact Hr].
    + intros y p Hy Hp. destruct (G1 _ _ Hy Hp) as [|[->|]%elem_of_cons]; auto.
    + intros y [Hy|Hy]; apply G2; [by left|]. right. by right.
    + destruct G3 as [|[->|]%elem_of_cons]; auto.
  - apply io_bind_ok in Hr as (c & s2 & Hc%(GetCommit_ok db) & Hr). eapply IH; [| | |exact Hr].
    + intros y p [->%elem_of_singleton|Hy]%elem_of_union Hp.
      * destruct Hp as (c' & Hc' & Hp). rewrite (commit_at_det _ _ _ _ Hc' Hc) in Hp. right. rewrite elem_of_app, elem_of_rev. by left.
      * rewrite elem_of_union, elem_of_singleton, elem_of_app. destruct (G1 _ _ Hy Hp) as [|[->|]%elem_of_cons]; auto.
    + assert (Hh : rtc parent tip h) by (apply G2; right; left).
      intros y [[->%elem_of_singleton|Hy]%elem_of_union|[Hy|Hy]%elem_of_app]; [done|apply G2; by left|rewrite elem_of_rev in Hy|apply G2; right; by right].
      eapply rtc_r; [exact Hh|]. exists c. split; [exact Hc|exact Hy].
    + rewrite elem_of_union, elem_of_singleton, elem_of_app. destruct G3 as [|[->|]%elem_of_cons]; auto.
Qed.

(** *** Collecting the new commits *)

Section collect.
Context (tip : commit_obj) (old : Hash) (excluded : gset Hash).
(** A commit's hash covers its parents, so the history has no cycle. *)
Context (Hacyclic : forall x, ~ tc parent x x).
Context (Htip : commit_at db (c_hash tip) (c_body tip)).

Abbreviation hashes l := (c_hash <$> l).
Definition loaded_commit (c : commit_obj) : Prop := commit_at db (c_hash c) (c_body c).

(** The stack: each frame's commit is a parent of the frame below, and of the
    parents looked at each is old, done, or the frame above. *)
Fixpoint frames_ok (O : list commit_obj) (above : option Hash) (S : list (commit_obj * nat)) : Prop :=
  match S with
  | [] => match above with Some a => a = c_hash tip | None => True end
  | (c, n) :: S' =>
      loaded_commit c /\ (forall a, above = Some a -> a ∈ cm_parents (c_body c)) /\
      (forall j p, (j < n)%nat -> cm_parents (c_body c) !! j = Some p -> p ∈ excluded \/ p ∈ hashes O \/ above = Some p) /\
      frames_ok O (Some (c_hash c)) S'
  end.

Definition parents_first (O : list commit_obj) : Prop :=
  forall i c p, O !! i = Some c -> p ∈ cm_parents (c_body c) -> p ∉ excluded -> exists k d, (k < i)%nat /\ O !! k = Some d /\ c_hash d = p.

Definition looked_ok (O : list commit_obj) (S : list (commit_obj * nat)) (flag : bool) : Prop :=
  (flag = true -> rtc parent (c_hash tip) old) /\
  (flag = false -> (forall c, c ∈ O -> old ∉ cm_parents (c_body c)) /\
     (forall c n j, (c, n) ∈ S -> (j < n)%nat -> cm_parents (c_body c) !! j <> Some old)).

Record walk_ok (st : walk_state) : Prop := {
  wk_loaded : forall c, c ∈ ws_ordered st -> loaded_commit c;
  wk_nodup : NoDup (hashes (ws_ordered st) ++ hashes (ws_stack st).*1);
  wk_seen : forall x, x ∈ ws_seen st \/ x = c_hash tip <-> x ∈ hashes (ws_ordered st) ++ hashes (ws_stack st).*1;
  wk_frames : frames_ok (ws_ordered st) None (ws_stack st);
  wk_first : parents_first (ws_ordered st);
  wk_new : forall x, x ∈ hashes (ws_ordered st) ++ hashes (ws_stack st).*1 -> rtc parent (c_hash tip) x /\ (x = c_hash tip \/ x ∉ excluded);
  wk_looked : looked_ok (ws_ordered st) (ws_stack st) (ws_old st);
}.

(** Every frame below leads to the one above. *)
Lemma frames_lead O a S x : frames_ok O (Some a) S -> x ∈ hashes S.*1 -> tc parent x a.
Proof.
  revert a. induction S as [|[c n] S IH]; intros a; cbn; [intros _ []%elem_of_nil|].
  intros (Hl & Ha & _ & Hs) Hx. assert (Hca : parent (c_hash c) a) by (exists (c_body c); split; [done|by apply Ha]).
  apply elem_of_cons in Hx as [->|Hx]; [by apply tc_once|]. eapply tc_r; [by apply (IH (c_hash c))|done].
Qed.

Lemma frames_mono O O' above S : hashes O ⊆ hashes O' -> frames_ok O above S -> frames_ok O' above S.
Proof.
  intros Ho. revert above. induction S as [|[c n] S IH]; intros above; cbn; [done|]. intros (G1 & G2 & G3 & G4).
  split_and!; [done..| |by apply IH]. intros j p Hj Hp. destruct (G3 j p Hj Hp) as [|[|]]; auto.
Qed.

(** The frame above was popped and is done. *)
Lemma frames_pop O a S : a ∈ hashes O -> frames_ok O (Some a) S -> frames_ok O None S.
Proof.
  intros Ha. destruct S as [|[c n] S]; cbn; [done|]. intros (G1 & G2 & G3 & G4). split_and!; [done|done| |done].
  intros j p Hj Hp. destruct (G3 j p Hj Hp) as [|[|[= ->]]]; auto.
Qed.
Lemma parent_of c j p : loaded_commit c -> cm_parents (c_body c) !! j = Some p -> parent (c_hash c) p.
Proof. intros Hl Hp. exists (c_body c). split; [exact Hl|by eapply list_elem_of_lookup_2]. Qed.

(** One look at the frame on top, at its parent [p] if it has one more. *)
Lemma looked_step st cur n rest p stack' O' :
  walk_ok st -> ws_stack st = (cur, n) :: rest -> cm_parents (c_body cur) !! n = p ->
  (forall c, c ∈ O' -> c ∈ ws_ordered st \/ (p = None /\ c = cur)) ->
  (forall c k j, (c, k) ∈ stack' -> (j < k)%nat -> (c, k) ∈ ws_stack st \/ (c = cur /\ (j <= n)%nat)) ->
  looked_ok O' stack' (ws_old st || bool_decide (c_hash cur = old) || match p with Some q => bool_decide (q = old) | None => false end).
Proof.
  intros [G1 G2 G3 G4 G5 G6 [G7 G8]] Hs Hp HO HS. rewrite Hs in *. split.
  - intros [[Ho | Hco%bool_decide_eq_true]%orb_true_iff|Hpo]%orb_true_iff; [by apply G7|rewrite <-Hco|].
    + apply G6. rewrite elem_of_app. right. left.
    + eapply rtc_r; [apply (G6 (c_hash cur)); rewrite elem_of_app; right; left|]. destruct p as [q|]; [|done].
      apply bool_decide_eq_true in Hpo as ->. destruct G4 as (Hl & _). by eapply parent_of.
  - intros [[Ho Hc]%orb_false_iff Hpo]%orb_false_iff. destruct (G8 Ho) as [K1 K2]. split.
    + intros c [Hin|[-> ->]]%HO; [by apply K1|]. intros (j & Hj)%list_elem_of_lookup.
      assert (Hlt : (j < n)%nat) by (apply lookup_ge_None in Hp; apply lookup_lt_Some in Hj; lia). revert Hj. by eapply K2; [left|].
    + intros c k j Hin Hj. destruct (HS c k j Hin Hj) as [Hst|[-> Hle]]; [by eapply K2|].
      destruct (decide (j = n)) as [->|]; [rewrite Hp; intros ->; by apply bool_decide_eq_false in Hpo|]. apply (K2 cur n j); [left|lia].
Qed.

(** A parent that is on the stack would close a cycle. *)
Lemma parent_not_above O c n rest j p :
  frames_ok O None ((c, n) :: rest) -> cm_parents (c_body c) !! j = Some p -> p ∈ hashes ((c, n) :: rest).*1 -> False.
Proof.
  intros (Hl & _ & _ & Hf) Hj Hp. pose proof (parent_of _ _ _ Hl Hj) as Hpar. cbn in Hp. apply elem_of_cons in Hp as [->|Hp].
  - apply (Hacyclic (c_hash c)). by apply tc_once.
  - apply (Hacyclic p). eapply tc_r; [by eapply frames_lead|done].
Qed.

(** Looking at one more parent, which is not to be entered. *)
Lemma skip_ok st cur n rest p b :
  walk_ok st -> ws_stack st = (cur, n) :: rest -> cm_parents (c_body cur) !! n = Some p -> p ∈ excluded \/ p ∈ ws_seen st ->
  b = ws_old st || bool_decide (c_hash cur = old) || bool_decide (p = old) ->
  walk_ok {| ws_ordered := ws_ordered st; ws_stack := (cur, S n) :: rest; ws_seen := ws_seen st; ws_old := b |}.
Proof.
  intros Hok Hs Hp Hin ->. pose proof Hok as [G1 G2 G3 G4 G5 G6 G7]. rewrite Hs in *. split; cbn [ws_ordered ws_stack ws_seen ws_old]; try done.
  - destruct G4 as (K1 & K2 & K3 & K4). split_and!; [done|done| |done]. intros j q Hj Hq.
    destruct (decide (j < n)%nat) as [|Hge]; [by apply (K3 j q)|]. assert (j = n) as -> by lia. assert (q = p) as -> by congruence.
    destruct Hin as [|Hin]; [by left|]. right; left. pose proof (proj1 (G3 p) (or_introl Hin)) as [|Hst]%elem_of_app; [done|].
    exfalso. by eapply (parent_not_above (ws_ordered st) cur n rest).
  - eapply (looked_step st cur n rest (Some p)); [done|done|done|by left|]. intros c k j [[= -> ->]|Hin']%elem_of_cons Hj; [right; split; [done|lia]|].
    left. rewrite Hs. by right.
Qed.

(** Entering a parent. *)
Lemma enter_ok st cur n rest par b :
  walk_ok st -> ws_stack st = (cur, n) :: rest -> cm_parents (c_body cur) !! n = Some (c_hash par) ->
  c_hash par ∉ excluded -> c_hash par ∉ ws_seen st -> loaded_commit par ->
  b = ws_old st || bool_decide (c_hash cur = old) || bool_decide (c_hash par = old) ->
  walk_ok {| ws_ordered := ws_ordered st; ws_stack := (par, O) :: (cur, S n) :: rest; ws_seen := {[c_hash par]} ∪ ws_seen st; ws_old := b |}.
Proof.
  intros Hok Hs Hp Hex Hns Hl ->. pose proof Hok as [G1 G2 G3 G4 G5 G6 G7]. rewrite Hs in *.
  assert (Hperm : hashes (ws_ordered st) ++ hashes ((par, O) :: (cur, S n) :: rest).*1 ≡ₚ c_hash par :: hashes (ws_ordered st) ++ hashes ((cur, n) :: rest).*1).
  { cbn. by rewrite <-Permutation_middle. }
  destruct G4 as (K1 & K2 & K3 & K4). pose proof (parent_of _ _ _ K1 Hp) as Hpar.
  assert (Hcur : rtc parent (c_hash tip) (c_hash cur)) by (apply G6; rewrite elem_of_app; right; left).
  split; cbn [ws_ordered ws_stack ws_seen ws_old]; try done.
  - rewrite Hperm. constructor; [|done]. rewrite <-G3. intros [?|Ht]; [done|].
    apply (Hacyclic (c_hash tip)). rewrite Ht in Hpar. by eapply tc_rtc_l; [|apply tc_once].
  - intros x. rewrite Hperm, elem_of_cons, <-G3, elem_of_union, elem_of_singleton. tauto.
  - cbn [frames_ok]. split_and!; [done|done|lia|done| |intros j q Hj Hq|done].
    + intros a [= <-]. by eapply list_elem_of_lookup_2.
    + destruct (decide (j < n)%nat) as [|Hge]; [|assert (j = n) as -> by lia; right; right; congruence].
      destruct (K3 j q) as [|[|]]; auto. done.
  - intros x. rewrite Hperm, elem_of_cons. intros [->|Hx]; [|by apply G6]. split; [by eapply rtc_r|by right].
  - eapply (looked_step st cur n rest (Some (c_hash par))); [done|done|done|by left|].
    intros c k j [[= -> ->]|[[= -> ->]|Hin']%elem_of_cons]%elem_of_cons Hj; [lia|right; split; [done|lia]|left; rewrite Hs; by right].
Qed.

(** A frame with no parent left is done. *)
Lemma pop_ok st cur n rest b :
  walk_ok st -> ws_stack st = (cur, n) :: rest -> cm_parents (c_body cur) !! n = None -> b = ws_old st || bool_decide (c_hash cur = old) ->
  walk_ok {| ws_ordered := ws_ordered st ++ [cur]; ws_stack := rest; ws_seen := ws_seen st; ws_old := b |}.
Proof.
  intros Hok Hs Hp ->. pose proof Hok as [G1 G2 G3 G4 G5 G6 G7]. rewrite Hs in *.
  assert (Heq : hashes (ws_ordered st ++ [cur]) ++ hashes rest.*1 = hashes (ws_ordered st) ++ hashes ((cur, n) :: rest).*1) by (by rewrite fmap_app, <-app_assoc).
  destruct G4 as (K1 & K2 & K3 & K4). split; cbn [ws_ordered ws_stack ws_seen ws_old]; rewrite ?Heq; try done.
  - intros c [Hc | ->%list_elem_of_singleton]%elem_of_app; [by apply G1|done].
  - eapply frames_pop; [|eapply frames_mono; [|exact K4]]; rewrite fmap_app; [rewrite elem_of_app; right; left|]. intros x Hx. rewrite elem_of_app. by left.
  - intros i c p Hi Hpc Hne. apply lookup_app_Some in Hi as [Hi|[Hlen Hi]].
    + destruct (G5 i c p Hi Hpc Hne) as (k & d & Hk & Hd & Hh). exists k, d. split_and!; [done| |done]. by apply lookup_app_l_Some.
    + apply list_lookup_singleton_Some in Hi as [Hz <-]. apply list_elem_of_lookup in Hpc as [j Hj].
      assert (Hjn : (j < n)%nat) by (apply lookup_ge_None in Hp; apply lookup_lt_Some in Hj; lia).
      destruct (K3 j p Hjn Hj) as [|[Hd|?]]; [done| |done]. apply list_elem_of_fmap in Hd as (d & -> & (k & Hk)%list_elem_of_lookup).
      pose proof (lookup_lt_Some _ _ _ Hk). exists k, d. split_and!; [lia|by apply lookup_app_l_Some|done].
  - rewrite <-(orb_false_r (ws_old st || _)). eapply (looked_step st cur n rest None); [done|done|done| |].
    + intros c [Hc | ->%list_elem_of_singleton]%elem_of_app; [by left|by right].
    + intros c k j Hin _. left. rewrite Hs. by right.
Qed.

Lemma collect_step_ok st cur n rest s st' s' :
  walk_ok st -> ws_stack st = (cur, n) :: rest -> collect_step ctxErr old excluded st cur n rest s = (Ok st', s') -> walk_ok st'.
Proof.
  intros Hok Hs Hr. unfold collect_step in Hr. apply io_bind_ok in Hr as (_ & s1 & _ & Hr).
  destruct (cm_parents (c_body cur) !! n) as [p|] eqn:Hp; [|injection Hr as <- _; by eapply pop_ok].
  destruct (decide (p ∈ excluded)) as [He|He]; [injection Hr as <- _; eapply skip_ok; eauto|].
  destruct (decide (p ∈ ws_seen st)) as [Hsn|Hsn]; [injection Hr as <- _; eapply skip_ok; eauto|].
  apply io_bind_ok in Hr as (par & s2 & Hl & Hr). injection Hr as <- _.
  apply io_bind_ok in Hl as (c & s3 & Hc%(GetCommit_ok db) & Hl). injection Hl as <- _. eapply enter_ok; eauto.
Qed.

Lemma collect_loop_ok fuel st s st' s' : walk_ok st -> collect_loop ctxErr fuel old excluded st s = (Ok st', s') -> walk_ok st' /\ ws_stack st' = [].
Proof.
  revert st s. induction fuel as [|fuel IH]; intros st s Hok Hr; cbn [collect_loop] in Hr; [done|].
  destruct (ws_stack st) as [|[cur n] rest] eqn:Hs; [by injection Hr as <- _|].
  apply io_bind_ok in Hr as (st1 & s1 & H1 & Hr). eapply IH; [|exact Hr]. by eapply collect_step_ok.
Qed.

Lemma walk_start : walk_ok {| ws_ordered := []; ws_stack := [(tip, O)]; ws_seen := ∅; ws_old := false |}.
Proof.
  split; cbn.
  - intros c []%elem_of_nil.
  - apply NoDup_singleton.
  - intros x. rewrite list_elem_of_singleton, elem_of_empty. tauto.
  - split_and!; [done|done|lia|done].
  - intros i c p Hi. done.
  - intros x ->%list_elem_of_singleton. split; [done|by left].
  - split; [done|]. intros _. split; [intros c []%elem_of_nil|]. intros c n j [= -> ->]%list_elem_of_singleton. lia.
Qed.

(** What the loop ends with, when [excluded] is closed under parents. *)
Lemma collected st : walk_ok st -> ws_stack st = [] -> (forall x p, x ∈ excluded -> parent x p -> p ∈ excluded) ->
  forall x, x ∈ hashes (ws_ordered st) <-> x = c_hash tip \/ (rtc parent (c_hash tip) x /\ x ∉ excluded).
Proof.
  intros [G1 G2 G3 G4 G5 G6 G7] Hs Hclosed. rewrite Hs in *. cbn [fmap list_fmap] in *. rewrite app_nil_r in *.
  assert (Htip' : c_hash tip ∈ hashes (ws_ordered st)) by (apply G3; by right).
  intros x. split.
  - intros Hx. destruct (G6 _ Hx) as [? [?|?]]; auto.
  - intros [->|[Hr Hx]]; [done|].
    destruct (closed_rtc parent (fun y => y ∈ excluded \/ y ∈ hashes (ws_ordered st)) (c_hash tip) x) as [|]; [|exact Hr|by right|done|done].
    intros y p [Hy|Hy] Hp; [left; by eapply Hclosed|]. destruct (decide (p ∈ excluded)) as [|Hne]; [by left|right].
    apply list_elem_of_fmap in Hy as (c & -> & Hc). destruct Hp as (b & Hb & Hp). rewrite (commit_at_det _ _ _ _ Hb (G1 _ Hc)) in Hp.
    apply list_elem_of_lookup in Hc as [i Hi]. destruct (G5 i c p Hi Hp Hne) as (k & d & _ & Hd & <-).
    apply list_elem_of_fmap. exists d. split; [done|by eapply list_elem_of_lookup_2].
Qed.
End collect.

Lemma commitAt_ok h s c b s' : commitAt h s = (Ok (c, b), s') ->
  match c with Some c => h <> ZeroHash /\ c_hash c = h /\ commit_at db h (c_body c) | None => True end.
Proof.
  unfold commitAt. case_bool_decide; [by intros [= <- _ _]|]. intros Hr. apply io_bind_ok in Hr as ([t o] & s1 & Hr & Hx).
  apply (ReadObject_ok (db := db)) in Hr as [Hdb _]. destruct (Z.eqb_spec t CommitObject) as [->|]; cbn [negb] in Hx; [|by injection Hx as <- _ _].
  apply io_bind_ok in Hx as (c' & s2 & Hd & Hx). injection Hx as <- _ _. unfold lift, decoded in Hd.
  destruct (decodeCommit o) eqn:E; [|done]. injection Hd as <- _. split; [done|]. split; [done|]. by exists o.
Qed.

(** What [collectNew] lists, of whatever two tips. *)
Lemma collectNew_lists fuel fuel' (oldc : option commit_obj) (tip : commit_obj) (old : Hash) excluded s1 s1' cs flag s2 s2' :
  (forall x, ~ tc parent x x) ->
  (forall c, oldc = Some c -> c_hash c = old) -> commit_at db (c_hash tip) (c_body tip) -> c_hash tip <> old ->
  reachable ctxErr fuel oldc s1 = (Ok excluded, s1') ->
  collectNew ctxErr fuel' tip old excluded s2 = (Ok (cs, flag), s2') ->
  NoDup (c_hash <$> cs) /\ (forall c, c ∈ cs -> commit_at db (c_hash c) (c_body c)) /\
  (forall x, x ∈ c_hash <$> cs <-> x = c_hash tip \/ (rtc parent (c_hash tip) x /\ forall c, oldc = Some c -> ~ rtc parent (c_hash c) x)) /\
  (forall i c p, cs !! i = Some c -> p ∈ cm_parents (c_body c) -> p ∈ c_hash <$> cs -> exists k d, (k < i)%nat /\ cs !! k = Some d /\ c_hash d = p) /\
  (forall c, oldc = Some c -> flag = true <-> rtc parent (c_hash tip) old).
Proof.
  intros Hac Hold Htip Hne Hr Hc. unfold collectNew in Hc. rewrite bool_decide_false in Hc by done.
  apply io_bind_ok in Hc as (st & s3 & Hc & Hx). injection Hx as <- <- _.
  pose proof (walk_start tip old excluded Htip) as Hok.
  apply (collect_loop_ok tip old excluded Hac) in Hc as [Hw Hs]; [|exact Hok].
  assert (Hex : forall x, x ∈ excluded <-> exists c, oldc = Some c /\ rtc parent (c_hash c) x).
  { destruct oldc as [c|]; cbn in Hr; [|injection Hr as <- _; intros x; rewrite elem_of_empty; naive_solver].
    intros x. rewrite (reach_loop_ok fuel (c_hash c) [c_hash c] ∅ s1 excluded s1'); [naive_solver|..|exact Hr].
    - intros y p Hy. by apply not_elem_of_empty in Hy.
    - intros y [Hy| ->%list_elem_of_singleton]; [by apply not_elem_of_empty in Hy|done].
    - right. by apply list_elem_of_singleton. }
  assert (Hin := collected tip old excluded st Hw Hs).
  assert (Hclosed : forall x p, x ∈ excluded -> parent x p -> p ∈ excluded).
  { intros x p (c & Ho & Hx)%Hex Hp. apply Hex. exists c. split; [done|]. by eapply rtc_r. }
  specialize (Hin Hclosed). destruct Hw as [G1 G2 G3 G4 G5 G6 [G7 G8]]. rewrite Hs, app_nil_r in G2.
  split; [done|]. split; [exact G1|]. split; [|split].
  - intros x. rewrite Hin, Hex. naive_solver.
  - intros i c p Hi Hp Hpin. destruct (decide (p ∈ excluded)) as [He|He]; [|by eapply G5].
    exfalso. apply Hin in Hpin as [->|[_ ?]]; [|done].
    apply list_elem_of_lookup_2 in Hi. pose proof (G1 _ Hi) as Hl. assert (Hpar : parent (c_hash c) (c_hash tip)) by (by exists (c_body c)).
    apply (Hac (c_hash tip)). eapply tc_rtc_l; [|by apply tc_once]. apply G6. rewrite elem_of_app. left. by apply list_elem_of_fmap_2.
  - intros c Ho. split; [intros Hf; by apply G7|]. intros Hanc. destruct (ws_old st) eqn:Hf; [done|].
    destruct (G8 eq_refl) as [K _]. exfalso. apply rtc_inv_r in Hanc as [?|(y & Hy & Hpar)]; [done|].
    assert (Hye : y ∉ excluded).
    { intros (c' & Ho' & Hr')%Hex. apply (Hac y). eapply tc_rtc_r; [by apply tc_once|]. by rewrite <-(Hold c' Ho'). }
    assert (Hyin : y ∈ c_hash <$> ws_ordered st) by (apply Hin; by right).
    apply list_elem_of_fmap in Hyin as (d & -> & Hd). destruct Hpar as (b & Hb & Hpar). rewrite (commit_at_det _ _ _ _ Hb (G1 _ Hd)) in Hpar. by apply (K d).
Qed.

(** A reference moved back to an ancestor of its old tip: the new tip alone is listed. *)
Lemma rewound_lists_tip fuel fuel' (oldc : commit_obj) (tip : commit_obj) excluded s1 s1' cs flag s2 s2' :
  (forall x, ~ tc parent x x) -> commit_at db (c_hash tip) (c_body tip) -> tc parent (c_hash oldc) (c_hash tip) ->
  reachable ctxErr fuel (Some oldc) s1 = (Ok excluded, s1') ->
  collectNew ctxErr fuel' tip (c_hash oldc) excluded s2 = (Ok (cs, flag), s2') ->
  flag = false /\ forall x, x ∈ c_hash <$> cs <-> x = c_hash tip.
Proof.
  intros Hac Htip Hback Hr Hc. destruct (collectNew_lists fuel fuel' (Some oldc) tip (c_hash oldc) excluded s1 s1' cs flag s2 s2') as (_ & _ & Hin & _ & Hf);
    [done|by intros c [= ->]|done| |done|done|].
  { intros He. rewrite He in Hback. by apply (Hac _ Hback). }
  split.
  - destruct flag; [|done]. exfalso. apply (Hac (c_hash tip)). eapply tc_rtc_l; [|exact Hback]. by apply (Hf _ eq_refl).
  - intros x. rewrite Hin. split; [|by left]. intros [->|[Hx Hno]]; [done|]. destruct (Hno _ eq_refl). by transitivity (c_hash tip); [apply tc_rtc|].
Qed.

(** C26: the commits of an event, for a reference that was created, left where it
    was or moved to a tip that was not already reachable from the old one (for one
    moved back to an ancestor see [rewound_lists_tip]: the ancestor is listed
    though it is not newly reachable). The commits listed are exactly those
    reachable from the new tip and not from the old one, each once and with its
    own contents; a commit comes after all its parents that are listed; and an
    update is seen to be forced exactly when the old tip is not an ancestor of the
    new one. *)
Theorem new_commits_parents_first fuel fuel' (oldc : option commit_obj) (tip : commit_obj) (old : Hash) excluded s1 s1' cs flag s2 s2' :
  (forall x, ~ tc parent x x) ->
  (forall c, oldc = Some c -> c_hash c = old) -> (oldc = None -> c_hash tip <> old) -> commit_at db (c_hash tip) (c_body tip) ->
  (forall c, oldc = Some c -> ~ tc parent (c_hash c) (c_hash tip)) ->
  reachable ctxErr fuel oldc s1 = (Ok excluded, s1') ->
  collectNew ctxErr fuel' tip old excluded s2 = (Ok (cs, flag), s2') ->
  NoDup (c_hash <$> cs) /\ (forall c, c ∈ cs -> commit_at db (c_hash c) (c_body c)) /\
  (forall x, x ∈ c_hash <$> cs <-> rtc parent (c_hash tip) x /\ forall c, oldc = Some c -> ~ rtc parent (c_hash c) x) /\
  (forall i c p, cs !! i = Some c -> p ∈ cm_parents (c_body c) -> p ∈ c_hash <$> cs -> exists k d, (k < i)%nat /\ cs !! k = Some d /\ c_hash d = p) /\
  (forall c, oldc = Some c -> flag = true <-> rtc parent (c_hash tip) old).
Proof.
  intros Hac Hold Hnew Htip Hfwd Hr Hc. destruct (decide (c_hash tip = old)) as [He|Hne].
  - unfold collectNew in Hc. rewrite bool_decide_true in Hc by done. injection Hc as <- <- _.
    destruct oldc as [c|]; [|by destruct (Hnew eq_refl)]. specialize (Hold c eq_refl).
    split; [constructor|]. split; [by intros c' ?%elem_of_nil|]. split; [|split; [by intros i c' p|by rewrite He]].
    intros x. split; [by intros ?%elem_of_nil|]. intros [Hx Hno]. destruct (Hno c eq_refl). by rewrite Hold, <-He.
  - destruct (collectNew_lists fuel fuel' oldc tip old excluded s1 s1' cs flag s2 s2') as (Hn & Hb & Hin & Hp & Hf); [done..|].
    do 2 (split; [done|]). split; [|done]. intros x. rewrite Hin. split; [|by right]. intros [->|Hx]; [|done]. split; [reflexivity|].
    intros c Ho Hx. apply rtc_tc in Hx as [He|Htc]; [by apply Hne; rewrite <-He; apply Hold|]. by destruct (Hfwd c Ho).
Qed.

(** *** The walks end *)

Section termination.
(** All there is to walk: the tip and its ancestors. *)
Context (U : list Hash) (HU : NoDup U) (Hclosed : forall x p, x ∈ U -> parent x p -> p ∈ U).
(** The fuel is the model's; no call runs out of it. *)
Context (Hctx : forall w, ctxErr w <> Some OutOfFuel) (Hread : forall typ h w, fst (ReadObject typ h w) <> Err OutOfFuel).

Definition nparents (x : Hash) : nat :=
  match db x with Some (_, b) => match decodeCommit b with Some c => length (cm_parents c) | None => 0 end | None => 0 end.

(** What the commits of [U] outside [seen] still weigh. *)
Definition rest_weight (w : Hash -> nat) (seen : gset Hash) : nat := sum_list_with (fun x => if decide (x ∈ seen) then 0%nat else w x) U.
#[local] Arguments rest_weight : simpl never.

Lemma rest_weight_take w seen h : h ∈ U -> h ∉ seen -> rest_weight w seen = (w h + rest_weight w ({[h]} ∪ seen))%nat.
Proof.
  unfold rest_weight. clear Hclosed. induction U as [|x l IH]; intros Hh Hs; [by apply elem_of_nil in Hh|]. cbn [sum_list_with].
  apply NoDup_cons in HU as [Hx Hl]. apply elem_of_cons in Hh as [->|Hh].
  - rewrite decide_False by done. rewrite decide_True by set_solver. cbn. f_equal. clear -Hx. induction l as [|y l IH]; [done|]. cbn.
    rewrite IH by set_solver. f_equal. assert (x <> y) by set_solver. repeat case_decide; set_solver.
  - rewrite (IH Hl Hh Hs). assert (x <> h) by (by intros ->). destruct (decide (x ∈ seen)); [rewrite decide_True by set_solver|rewrite decide_False by set_solver]; lia.
Qed.

Lemma GetCommit_fuel h w e w' : GetCommit h w = (Err e, w') -> e <> OutOfFuel.
Proof.
  unfold GetCommit. intros [([t b] & w1 & _ & Hd)|(e' & Hr & [= ->])]%io_bind_inv.
  - unfold lift, decoded in Hd. destruct (decodeCommit b); [done|]. by injection Hd as <- _.
  - intros ->. apply (Hread CommitObject h w). by rewrite Hr.
Qed.
Lemma nparents_at h c : commit_at db h c -> nparents h = length (cm_parents c).
Proof. intros (b & Hb & Hd). unfold nparents. by rewrite Hb, Hd. Qed.
Lemma check_fuel w e w' : check ctxErr w = (Err e, w') -> e <> OutOfFuel.
Proof. unfold check. destruct (ctxErr w) as [x|] eqn:E; [|done]. intros [= -> _] ->. by apply (Hctx w). Qed.

Lemma reach_loop_ends fuel stack seen s e s' :
  (forall x, x ∈ stack -> x ∈ U) -> (length stack + rest_weight nparents seen < fuel)%nat ->
  reach_loop ctxErr fuel stack seen s = (Err e, s') -> e <> OutOfFuel.
Proof.
  revert stack seen s. induction fuel as [|fuel IH]; intros stack seen s Hst Hf Hr; [lia|]. cbn [reach_loop] in Hr.
  destruct stack as [|h stack]; [done|]. cbn [length] in Hf.
  apply io_bind_inv in Hr as [(_ & s1 & _ & Hr)|(e' & Hr%check_fuel & [= ->])]; [|done].
  destruct (decide (h ∈ seen)) as [|Hs]; [apply (IH stack seen s1); [intros x Hx; apply Hst; by right|lia|exact Hr]|].
  apply io_bind_inv in Hr as [(c & s2 & Hc%(GetCommit_ok db) & Hr)|(e' & Hr%GetCommit_fuel & [= ->])]; [|done].
  assert (Hh : h ∈ U) by (apply Hst; left). pose proof (rest_weight_take nparents seen h Hh Hs) as Hw. rewrite (nparents_at _ _ Hc) in Hw.
  eapply IH; [| |exact Hr].
  - intros x [Hx|Hx]%elem_of_app; [|apply Hst; by right]. rewrite elem_of_rev in Hx. apply (Hclosed h); [done|]. by exists c.
  - rewrite length_app, length_rev. lia.
Qed.

Definition stack_weight (S : list (commit_obj * nat)) : nat :=
  sum_list_with (fun x => (length (cm_parents (c_body (fst x))) - snd x + 1)%nat) S.
Definition walk_weight (tip : commit_obj) (st : walk_state) : nat :=
  (stack_weight (ws_stack st) + rest_weight (fun x => nparents x + 1) (ws_seen st))%nat.

Lemma collect_step_ends tip old excluded st cur n rest s r s' :
  ws_stack st = (cur, n) :: rest -> (forall c k, (c, k) ∈ ws_stack st -> c_hash c ∈ U /\ commit_at db (c_hash c) (c_body c)) ->
  collect_step ctxErr old excluded st cur n rest s = (r, s') ->
  match r with
  | Ok st' => (walk_weight tip st' < walk_weight tip st)%nat /\
      (forall c k, (c, k) ∈ ws_stack st' -> c_hash c ∈ U /\ commit_at db (c_hash c) (c_body c))
  | Err e => e <> OutOfFuel
  end.
Proof.
  intros Hs Hst Hr. destruct (Hst cur n) as [HcU Hcc]; [rewrite Hs; left|].
  assert (Hst' : forall c k, (c, k) ∈ (cur, S n) :: rest -> c_hash c ∈ U /\ commit_at db (c_hash c) (c_body c)).
  { intros c k [[= -> ->]|Hin]%elem_of_cons; [done|]. apply (Hst c k). rewrite Hs. by right. }
  unfold collect_step in Hr. apply io_bind_inv in Hr as [(_ & s1 & _ & Hr)|(e' & Hr%check_fuel & ->)]; [|done].
  unfold walk_weight. rewrite Hs. unfold stack_weight. cbn [sum_list_with fst snd].
  destruct (cm_parents (c_body cur) !! n) as [p|] eqn:Hp.
  - pose proof (lookup_lt_Some _ _ _ Hp).
    destruct (decide (p ∈ excluded)); [injection Hr as <- _; cbn; split; [lia|done]|].
    destruct (decide (p ∈ ws_seen st)) as [|Hns]; [injection Hr as <- _; cbn; split; [lia|done]|].
    apply io_bind_inv in Hr as [(par & s2 & Hl & Hr)|(e' & Hl & ->)].
    + injection Hr as <- _. apply io_bind_ok in Hl as (c & s3 & Hc%(GetCommit_ok db) & Hl). injection Hl as <- _.
      assert (Hpu : p ∈ U) by (apply (Hclosed (c_hash cur)); [done|exists (c_body cur); split; [done|by eapply list_elem_of_lookup_2]]).
      cbn. split; [|intros c' k [[= -> ->]|Hin]%elem_of_cons; [done|by eapply Hst']].
      rewrite (rest_weight_take _ (ws_seen st) p) by done. rewrite (nparents_at _ _ Hc). lia.
    + apply io_bind_inv in Hl as [(c & s3 & _ & ?)|(e2 & Hl%GetCommit_fuel & [= ->])]; done.
  - injection Hr as <- _. cbn. split; [lia|]. intros c k Hin. apply (Hst c k). rewrite Hs. by right.
Qed.

Lemma collect_loop_ends tip fuel old excluded st s e s' :
  (forall c k, (c, k) ∈ ws_stack st -> c_hash c ∈ U /\ commit_at db (c_hash c) (c_body c)) -> (walk_weight tip st < fuel)%nat ->
  collect_loop ctxErr fuel old excluded st s = (Err e, s') -> e <> OutOfFuel.
Proof.
  revert st s. induction fuel as [|fuel IH]; intros st s Hst Hf Hr; [lia|]. cbn [collect_loop] in Hr.
  destruct (ws_stack st) as [|[cur n] rest] eqn:Hs; [done|]. rewrite <-Hs in Hst.
  apply io_bind_inv in Hr as [(st1 & s1 & Hc & Hr)|(e' & Hc & [= ->])]; eapply (collect_step_ends tip) in Hc; try done.
  destruct Hc as [Hw Hst1]. apply (IH st1 s1); [exact Hst1|lia|exact Hr].
Qed.

(** The walks of the history end. Over the commits [U] that there are, one
    round for each commit and each of its parents is enough for both: neither
    stops for want of fuel, so each gives its result or the error of a read. *)
Theorem history_walks_end fuel (c : commit_obj) old excluded s :
  c_hash c ∈ U -> commit_at db (c_hash c) (c_body c) ->
  (2 * length (cm_parents (c_body c)) + 2 + sum_list_with (fun x => nparents x + 1) U < fuel)%nat ->
  fst (reachable ctxErr fuel (Some c) s) <> Err OutOfFuel /\ fst (collectNew ctxErr fuel c old excluded s) <> Err OutOfFuel.
Proof.
  intros HcU Hcc Hf. assert (Hle : forall w w', (forall x, (w x <= w' x)%nat) -> (rest_weight w ∅ <= sum_list_with w' U)%nat).
  { intros w w' Hw. unfold rest_weight. clear -Hw. induction U as [|x l IH]; cbn; [lia|]. specialize (Hw x). case_decide; lia. }
  split.
  - destruct (reachable ctxErr fuel (Some c) s) as [[seen|e] s'] eqn:Hr; cbn; [done|]. intros [= ->]. eapply reach_loop_ends; [| |exact Hr|done].
    + intros x ->%list_elem_of_singleton. done.
    + cbn [length]. pose proof (Hle nparents (fun x => nparents x + 1)%nat (fun x => Nat.le_add_r _ _)). lia.
  - unfold collectNew. case_bool_decide; [done|]. unfold io_bind.
    destruct (collect_loop _ _ _ _ _ _) as [[st|e] s'] eqn:Hr; cbn; [done|]. intros [= ->]. eapply (collect_loop_ends c); [| |exact Hr|done].
    + cbn. intros c' k [= -> ->]%list_elem_of_singleton. done.
    + unfold walk_weight, stack_weight. cbn. pose proof (Hle (fun x => nparents x + 1)%nat (fun x => nparents x + 1)%nat (fun x => le_n _)). lia.
Qed.
End termination.
End history.

(** ** The texts of an event *)

Section texts.
Context `{GoGit} `{!GoGitLaws} `{!GitDecode} {W : Type} `{!EncodedObjectStorer W}.
Context (ctxErr : W -> option goerr) (range : gmap bytes TreeEntry -> list (bytes * TreeEntry)).

Definition file_texts (f : FileChanges) : list bytes := fc_added f ++ fc_changed f ++ fc_deleted f.
Definition sig_texts (s : event_sig) : list bytes := [es_name s; es_email s].
Definition commit_texts (c : event_commit) : list bytes :=
  [ec_id c; ec_tree c; ec_message c] ++ sig_texts (ec_author c) ++ sig_texts (ec_committer c) ++ ec_parents c ++ file_texts (ec_files c).
Definition texts (e : PushEvent) : list bytes :=
  [ev_event_id e; ev_push_id e; ev_repository e; ev_ref e; ev_before e; ev_after e] ++ file_texts (ev_files e) ++ (ev_commits e ≫= commit_texts).

Abbreviation clean l := (Forall utf8 l).

Lemma clean_hash h : utf8 (HashString h).
Proof.
  apply utf8_ascii. destruct (HashString_hex h) as [Hh _]. eapply Forall_impl; [exact Hh|].
  intros b Hb. unfold hex_digit, is_digit in Hb. cbn in Hb. apply orb_true_iff in Hb as [Hb|Hb]; apply andb_true_iff in Hb as [_ Hb]; b2p; lia.
Qed.
Lemma clean_valid s : utf8 (ToValidUTF8 s).
Proof. apply to_valid_utf8. Qed.

Lemma file_texts_added p f : clean (file_texts f) -> clean (file_texts (add_added p f)).
Proof. unfold file_texts. cbn. rewrite !Forall_app, Forall_singleton. intros (? & ? & ?). split_and!; try done. apply encodePath_utf8. Qed.
Lemma file_texts_changed p f : clean (file_texts f) -> clean (file_texts (add_changed p f)).
Proof. unfold file_texts. cbn. rewrite !Forall_app, Forall_singleton. intros (? & ? & ?). split_and!; try done. apply encodePath_utf8. Qed.
Lemma file_texts_deleted p f : clean (file_texts f) -> clean (file_texts (add_deleted p f)).
Proof. unfold file_texts. cbn. rewrite !Forall_app, Forall_singleton. intros (? & ? & ?). split_and!; try done. apply encodePath_utf8. Qed.

Definition keeps_clean (m : FileChanges -> io W FileChanges) : Prop :=
  forall f s f' s', clean (file_texts f) -> m f s = (Ok f', s') -> clean (file_texts f').

#[local] Ltac through :=
  repeat match goal with
  | H : io_bind _ _ _ = (Ok _, _) |- _ => apply io_bind_ok in H as (? & ? & _ & H)
  | H : (if ?b then _ else _) _ = _ |- _ => destruct b
  | H : (match ?x with _ => _ end) _ = _ |- _ => destruct x
  | H : ret _ _ = _ |- _ => injection H as <- _
  end.

Lemma clean_loop {A} (step : FileChanges -> A -> io W FileChanges) l : (forall x, keeps_clean (fun f => step f x)) -> keeps_clean (fun f => io_fold step l f).
Proof.
  intros Hs f s f' s' Hf. apply (io_fold_inv (fun _ f => clean (file_texts f))); [done|]. intros done x f1 s1 f2 s2 _ Hx1 Hx2. by eapply Hs.
Qed.

Lemma clean_diff_old sub pre m x : (forall o n d, keeps_clean (sub o n d)) -> keeps_clean (fun f => diff_old sub pre m f x).
Proof.
  intros Hs f s f' s' Hf Hr. destruct x as [n o]. unfold diff_old in Hr. destruct (m !! n) as [w|].
  - destruct (_ && _); [by injection Hr as <- _|]. destruct (is_dir o), (is_dir w).
    + through. by eapply Hs.
    + apply io_bind_ok in Hr as (t & s1 & _ & Hr). apply io_bind_ok in Hr as (f1 & s2 & Hx & Hr). injection Hr as <- _.
      apply file_texts_added. by eapply Hs.
    + through. eapply Hs; [|exact Hr]. by apply file_texts_deleted.
    + injection Hr as <- _. by apply file_texts_changed.
  - destruct (is_dir o); [through; by eapply Hs|]. injection Hr as <- _. by apply file_texts_deleted.
Qed.

Lemma clean_diff_new sub pre m x : (forall o n d, keeps_clean (sub o n d)) -> keeps_clean (fun f => diff_new sub pre m f x).
Proof.
  intros Hs f s f' s' Hf Hr. destruct x as [n w]. unfold diff_new in Hr. destruct (m !! n) as [o|]; [by injection Hr as <- _|].
  destruct (is_dir w); [through; by eapply Hs|]. injection Hr as <- _. by apply file_texts_added.
Qed.

Lemma clean_diffTrees fuel o n d : keeps_clean (diffTrees ctxErr range fuel o n d).
Proof.
  revert o n d. induction fuel as [|fuel IH]; intros o n d f s f' s' Hf Hr; cbn [diffTrees] in Hr; [done|].
  apply io_bind_ok in Hr as (_ & s1 & _ & Hr).
  assert (Hloops : forall s1, (let! files := io_fold (diff_old (diffTrees ctxErr range fuel) d (entry_map n)) (range (entry_map o)) f in
      io_fold (diff_new (diffTrees ctxErr range fuel) d (entry_map o)) (range (entry_map n)) files) s1 = (Ok f', s') -> clean (file_texts f')).
  { intros s2 Hx. apply io_bind_ok in Hx as (f1 & s3 & Hx1 & Hx2).
    assert (Hf1 : clean (file_texts f1)) by (refine (clean_loop _ _ _ _ _ _ _ Hf Hx1); intros x; by apply clean_diff_old).
    refine (clean_loop _ _ _ _ _ _ _ Hf1 Hx2). intros x. by apply clean_diff_new. }
  destruct o as [o|], n as [n|]; try by eapply Hloops. case_bool_decide; [by injection Hr as <- _|by eapply Hloops].
Qed.

Lemma clean_Diff fuel o n s f s' : Diff ctxErr range fuel o n s = (Ok f, s') -> clean (file_texts f).
Proof.
  intros Hr. unfold Diff in Hr. apply io_bind_ok in Hr as (_ & s1 & _ & Hr). apply io_bind_ok in Hr as (t1 & s2 & _ & Hr).
  apply io_bind_ok in Hr as (t2 & s3 & _ & Hr). apply io_bind_ok in Hr as (f0 & s4 & Hd & Hr). injection Hr as <- _.
  apply wrapping_inv in Hd as [(x & [= <-] & Hd)|(? & ? & _)]; [|done]. apply clean_diffTrees in Hd; [|constructor].
  unfold file_texts, sort_files in *. cbn. rewrite !Forall_app in *. by rewrite !stable_sort_perm.
Qed.

Lemma clean_describe fuel l out s out' s' : clean (out ≫= commit_texts) -> io_fold (describe ctxErr range fuel) l out s = (Ok out', s') -> clean (out' ≫= commit_texts).
Proof.
  intros Ho. apply (io_fold_inv (fun _ out => clean (out ≫= commit_texts))); [done|]. intros done c out1 s1 out2 s2 _ Hc Hr.
  apply io_bind_ok in Hr as (f & s3 & Hd & Hr). injection Hr as <- _. apply wrapping_inv in Hd as [(x & [= <-] & Hd)|(? & ? & _)]; [|by intros].
  apply clean_Diff in Hd. rewrite bind_app, Forall_app. split; [exact Hc|]. cbn [mbind list_bind]. rewrite app_nil_r.
  unfold commit_texts, sig_texts. cbn [ec_id ec_tree ec_message ec_author ec_committer ec_parents ec_files signature es_name es_email].
  rewrite !Forall_app, Forall_fmap. split_and!; try exact Hd; repeat (constructor; auto using clean_hash, clean_valid).
  apply Forall_true. intros h. apply clean_hash.
Qed.

(** C28: an event can be sent as JSON. Every text in it is valid UTF-8, whatever
    bytes the paths, the commit messages, the names and the reference hold, as
    long as the repository and the two ids are. *)
Theorem event_texts_are_valid fuel walkFuel repo u pushID eventID at_ s ev s' :
  Forall (fun t => ValidString t = true) [repo; pushID; eventID] ->
  Build ctxErr range fuel walkFuel repo u pushID eventID at_ s = (Ok ev, s') ->
  Forall (fun t => ValidString t = true) (texts ev).
Proof.
  intros Hids Hr. assert (Hc : clean [repo; pushID; eventID]) by (eapply Forall_impl; [exact Hids|]; intros t; apply ValidString_utf8). clear Hids.
  enough (Hg : clean (texts ev)) by (eapply Forall_impl; [exact Hg|]; intros t; apply ValidString_utf8).
  assert (Hev : forall forced files commits, clean (file_texts files) -> clean (commits ≫= commit_texts) ->
    clean (texts {| ev_event_id := eventID; ev_push_id := pushID; ev_repository := repo; ev_ref := encodePath (up_name u);
       ev_before := HashString (up_old u); ev_after := HashString (up_new u);
       ev_created := bool_decide (up_old u = ZeroHash) && negb (bool_decide (up_new u = ZeroHash));
       ev_deleted := bool_decide (up_new u = ZeroHash) && negb (bool_decide (up_old u = ZeroHash));
       ev_forced := forced; ev_pushed_at := at_; ev_files := files; ev_commits := commits |})).
  { intros forced files commits Hf Hcs. rewrite !Forall_cons in Hc. destruct Hc as (? & ? & ? & _). unfold texts.
    rewrite !Forall_app. split; [|by split]. cbn [ev_event_id ev_push_id ev_repository ev_ref ev_before ev_after]. repeat (constructor; auto using clean_hash, encodePath_utf8). }
  unfold Build in Hr. apply io_bind_ok in Hr as (_ & s1 & _ & Hr). apply io_bind_ok in Hr as ([oc oi] & s2 & _ & Hr).
  apply io_bind_ok in Hr as ([nc ni] & s3 & _ & Hr). destruct (negb oi || negb ni); [injection Hr as <- _; by apply Hev; constructor|].
  apply io_bind_ok in Hr as (files & s4 & Hd & Hr). apply wrapping_inv in Hd as [(x & [= <-] & Hd%clean_Diff)|(? & ? & _)]; [|done].
  destruct nc as [tip|]; [|injection Hr as <- _; by apply Hev; [|constructor]].
  apply io_bind_ok in Hr as (ex & s5 & _ & Hr). apply io_bind_ok in Hr as ([cs flag] & s6 & _ & Hr).
  apply io_bind_ok in Hr as (out & s7 & Ho & Hr). injection Hr as <- _. apply Hev; [done|]. eapply clean_describe; [|exact Ho]. constructor.
Qed.
End texts.

(** ** A concrete history

    Two commits: the second changes a file and adds one in a directory. *)

Module History.
Definition h (n : Z) : @Hash toy_git := Some (toy_hash n).
Definition objs : list (@Hash toy_git * (Z * bytes)) :=
  [(h 1, (BlobObject, bs "hi")); (h 2, (BlobObject, bs "ho"));
   (h 3, (TreeObject, toy_entry (bs "a.txt") 1 (toy_hash 1)));
   (h 4, (TreeObject, toy_entry (bs "a.txt") 1 (toy_hash 2) ++ toy_entry (bs "d") 0 (toy_hash 3)));
   (h 5, (CommitObject, toy_hash 3 ++ [bz 0] ++ bs "one"));
   (h 6, (CommitObject, toy_hash 4 ++ [bz 1] ++ toy_hash 5 ++ bs "two"))].

#[export] Instance objs_store : @EncodedObjectStorer toy_git unit := table_store objs unit.
#[export] Instance objs_reads : Reads objs_store (db_of objs) := table_reads objs unit.
Definition no_ctx (_ : unit) : option goerr := None.
Definition any_order (m : gmap bytes (@TreeEntry toy_git)) : list (bytes * @TreeEntry toy_git) := map_to_list m.

Definition names_ok (o : @Hash toy_git * (Z * bytes)) : bool :=
  match decodeTree (snd (snd o)) with
  | Some es => negb (fst (snd o) =? TreeObject) || forallb (fun e => bool_decide (slash ∉ te_name e)) es
  | None => true
  end.
Lemma names_checked : forallb names_ok objs = true.
Proof. vm_compute. reflexivity. Qed.
Lemma no_slashes x es e : tree_at (db_of objs) x es -> e ∈ es -> slash ∉ te_name e.
Proof.
  intros (b & Hb%db_of_in & Hd) He. pose proof names_checked as Hn. rewrite forallb_forall in Hn.
  apply list_elem_of_In, Hn in Hb. unfold names_ok in Hb. cbn [fst snd] in Hb. rewrite Hd in Hb. cbn [negb orb] in Hb.
  change (negb (TreeObject =? TreeObject)) with false in Hb. cbn [orb] in Hb. rewrite forallb_forall in Hb.
  apply list_elem_of_In, Hb in He. by apply bool_decide_eq_true in He.
Qed.

(** Only the second commit has a parent, the first. *)
Definition parents_checked (o : @Hash toy_git * (Z * bytes)) : bool :=
  negb (fst (snd o) =? CommitObject) ||
  match decodeCommit (snd (snd o)) with
  | Some c => forallb (fun p => bool_decide (fst o = h 6 /\ p = h 5)) (cm_parents c)
  | None => true
  end.
Lemma parent_only x p : parent (db_of objs) x p -> x = h 6 /\ p = h 5.
Proof.
  intros (c & (b & Hb%db_of_in & Hd) & Hp). assert (Hn : forallb parents_checked objs = true) by (vm_compute; reflexivity).
  rewrite forallb_forall in Hn. apply list_elem_of_In, Hn in Hb. unfold parents_checked in Hb. cbn [fst snd] in Hb. rewrite Hd in Hb.
  change (negb (CommitObject =? CommitObject)) with false in Hb. cbn [orb] in Hb. rewrite forallb_forall in Hb.
  apply list_elem_of_In, Hb in Hp. by apply bool_decide_eq_true in Hp.
Qed.
Lemma acyclic x : ~ tc (parent (db_of objs)) x x.
Proof.
  intros Hx. assert (Hg : forall x y, tc (parent (db_of objs)) x y -> x = h 6 /\ y = h 5).
  { induction 1 as [a b Hp|a b d Hp _ IH]; apply parent_only in Hp; [done|]. split; [apply Hp|apply IH]. }
  apply Hg in Hx as [-> Hx]. discriminate Hx.
Qed.

Definition commit_of (n : Z) (b : bytes) : commit_obj :=
  {| c_hash := h n; c_body := match decodeCommit b with Some c => c | None => {| cm_tree := ZeroHash; cm_parents := []; cm_message := []; cm_author := no_one; cm_committer := no_one |} end |}.
Definition one : commit_obj := commit_of 5 (toy_hash 3 ++ [bz 0] ++ bs "one").
Definition two : commit_obj := commit_of 6 (toy_hash 4 ++ [bz 1] ++ toy_hash 5 ++ bs "two").
End History.
Import History.

Lemma diff_is_tree_difference_witness :
  exists A C D, fst (Diff no_ctx any_order 5 (h 5) (h 6) tt) =
    Ok {| fc_added := stable_sort bytes_leb (encodePath <$> A); fc_changed := stable_sort bytes_leb (encodePath <$> C); fc_deleted := stable_sort bytes_leb (encodePath <$> D) |} /\
    bs "d/a.txt" ∈ A.
Proof.
  assert (Hr : Diff no_ctx any_order 5 (h 5) (h 6) tt = (Ok {| fc_added := [bs "d/a.txt"]; fc_changed := [bs "a.txt"]; fc_deleted := [] |}, tt)) by (vm_compute; reflexivity).
  destruct (diff_is_tree_difference (db_of objs) no_ctx any_order (fun m => Permutation_refl _) no_slashes 5 (h 5) (h 6) tt _ tt Hr)
    as (T1 & T2 & A & C & D & _ & _ & He & _).
  exists A, C, D. rewrite Hr. split; [by rewrite He|].
  injection He as He _ _. assert (Hin : bs "d/a.txt" ∈ stable_sort bytes_leb (encodePath <$> A)) by (rewrite <-He; left).
  rewrite stable_sort_perm in Hin. apply list_elem_of_fmap in Hin as (p & Hp & Hin). unfold encodePath in Hp. destruct (ValidString p); [by subst p|discriminate Hp].
Defined.

Definition walk (oldc tip : commit_obj) : gores (list commit_obj * bool) :=
  match fst (reachable no_ctx 9 (Some oldc) tt) with
  | Ok excluded => fst (collectNew no_ctx 9 tip (c_hash oldc) excluded tt)
  | Err e => Err e
  end.
Definition walk_is (oldc tip : commit_obj) (hs : list (@Hash toy_git)) (flag : bool) : bool :=
  match walk oldc tip with Ok (cs, fl) => bool_decide (c_hash <$> cs = hs) && eqb fl flag | Err _ => false end.

Lemma walk_ok_is oldc tip hs flag : walk_is oldc tip hs flag = true ->
  exists excluded cs, fst (reachable no_ctx 9 (Some oldc) tt) = Ok excluded /\
    fst (collectNew no_ctx 9 tip (c_hash oldc) excluded tt) = Ok (cs, flag) /\ c_hash <$> cs = hs.
Proof.
  unfold walk_is, walk. destruct (fst (reachable no_ctx 9 (Some oldc) tt)) as [ex|]; [|done].
  destruct (fst (collectNew no_ctx 9 tip (c_hash oldc) ex tt)) as [[cs fl]|] eqn:Hc; [|done].
  intros [Hb%bool_decide_eq_true Hf%Bool.eqb_prop]%andb_true_iff. rewrite Hf in Hc. by exists ex, cs.
Qed.

Lemma two_there : commit_at (db_of objs) (h 6) (c_body two).
Proof.
  set (b := toy_hash 4 ++ [bz 1] ++ toy_hash 5 ++ bs "two"). exists b.
  assert (Hb : bool_decide (db_of objs (h 6) = Some (CommitObject, b)) = true) by (vm_compute; reflexivity).
  split; [by apply bool_decide_eq_true in Hb|]. unfold two, commit_of. fold b. cbn [c_body].
  assert (Hd : match decodeCommit b with Some _ => true | None => false end = true) by (vm_compute; reflexivity).
  destruct (decodeCommit b); [reflexivity|discriminate Hd].
Qed.
(** A fast-forward lists the second commit and is not forced. *)
Lemma new_commits_parents_first_witness :
  exists cs, c_hash <$> cs = [h 6] /\ NoDup (c_hash <$> cs) /\ (true = true <-> rtc (parent (db_of objs)) (h 6) (h 5)).
Proof.
  assert (Hw : walk_is one two [h 6] true = true) by (vm_compute; reflexivity).
  destruct (walk_ok_is _ _ _ _ Hw) as (ex & cs & He & Hc & Hh). exists cs. split; [exact Hh|].
  destruct (new_commits_parents_first (db_of objs) no_ctx 9 9 (Some one) two (h 5) ex tt (snd (reachable no_ctx 9 (Some one) tt)) cs true tt
    (snd (collectNew no_ctx 9 two (h 5) ex tt)) acyclic) as (Hn & _ & _ & _ & Hf).
  - intros c [= <-]. reflexivity.
  - intros Hx. discriminate Hx.
  - exact two_there.
  - intros c [= <-] Htc. apply (acyclic (h 5)). eapply tc_r; [exact Htc|]. exists (c_body two). split; [exact two_there|left].
  - rewrite <-He. apply surjective_pairing.
  - rewrite <-Hc. apply surjective_pairing.
  - split; [exact Hn|]. exact (Hf one eq_refl).
Defined.

(** A reference that is moved back to an ancestor: the commit it now points at is
    listed as new, though it was reachable from the old tip. *)
Lemma rewound_tip_is_listed :
  rtc (parent (db_of objs)) (h 6) (h 5) /\
  exists excluded cs, fst (reachable no_ctx 9 (Some two) tt) = Ok excluded /\
    fst (collectNew no_ctx 9 one (h 6) excluded tt) = Ok (cs, false) /\ c_hash <$> cs = [h 5].
Proof.
  split.
  - apply rtc_once. exists (c_body two). split; [exact two_there|left].
  - apply walk_ok_is. vm_compute. reflexivity.
Qed.

(** Names that are not UTF-8 are carried all the same. *)
Definition an_update : @Update toy_git := {| up_name := bs "refs/heads/" ++ [bz 255]; up_old := h 5; up_new := h 6 |}.

Lemma event_texts_are_valid_witness :
  exists ev, fst (Build no_ctx any_order 5 9 (bs "org/repo") an_update (bs "p1") (bs "e1") 7 tt) = Ok ev /\
    Forall (fun t => ValidString t = true) (texts ev).
Proof.
  assert (Hok : is_ok (fst (Build no_ctx any_order 5 9 (bs "org/repo") an_update (bs "p1") (bs "e1") 7 tt)) = true) by (vm_compute; reflexivity).
  destruct (fst (Build no_ctx any_order 5 9 (bs "org/repo") an_update (bs "p1") (bs "e1") 7 tt)) as [ev|e] eqn:He; [|discriminate Hok].
  exists ev. split; [reflexivity|].
  apply (event_texts_are_valid no_ctx any_order 5 9 (bs "org/repo") an_update (bs "p1") (bs "e1") 7 tt ev (snd (Build no_ctx any_order 5 9 (bs "org/repo") an_update (bs "p1") (bs "e1") 7 tt))).
  - repeat constructor.
  - rewrite <-He. apply surjective_pairing.
Defined.

Lemma encoded_path_reversible_witness : encodePath (bs "a" ++ [bz 255]) = bs "/objgit/raw-path/base64url/Yf8" /\ ValidString (encodePath (bs "a" ++ [bz 255])) = true.
Proof. split; [vm_compute; reflexivity|]. exact (proj1 (encoded_path_reversible (bs "a" ++ [bz 255]))). Defined.

Lemma history_walks_end_witness :
  fst (reachable no_ctx 20 (Some two) tt) <> Err OutOfFuel /\ fst (collectNew no_ctx 20 two (h 5) ∅ tt) <> Err OutOfFuel.
Proof.
  apply (history_walks_end (db_of objs) no_ctx [h 5; h 6]).
  - apply (bool_decide_unpack _). vm_compute. exact I.
  - intros x p _ [_ ->]%parent_only. left.
  - intros w Hw. discriminate Hw.
  - apply table_no_fuel.
  - right. left.
  - exact two_there.
  - apply Nat.ltb_lt. vm_compute. reflexivity.
Defined.
