(* ===== verification/PushLimit.v ===== *)
(** * Admission of pushes (cmd/objgitd/pushlimit.go)

    A push that brings a pack waits for a slot of a semaphore before it unpacks
    it. [step] is what the goroutines of several pushes can do. *)

From S2P Require Import Prelude GoLib Bundler BundlerSpec.

Section pushlimit.
Context `{Weighted}.

(** [l_sem] is [None] when the limit is disabled. *)
Record pushLimiter := { l_sem : option sem; l_wait : Z }.

Definition newPushLimiter (max wait : Z) : pushLimiter :=
  if max <=? 0 then {| l_sem := None; l_wait := 0 |} else {| l_sem := Some (NewWeighted max); l_wait := wait |}.

(** The error of [admit], by whether the client's context is done when [Acquire] has failed. *)
Definition admit_error (clientGone : bool) : goerr := Wrapf (Sent (if clientGone then CtxDone else errPushQueueTimeout)).

(** Where a push is: waiting in [admit], holding its slot, refused, done. *)
Inductive phase := Waiting | Unpacking | Refused (e : goerr) | Finished.
#[export] Instance phase_eq_dec : EqDecision phase.
Proof. solve_decision. Defined.

Record Sys := { lim : pushLimiter; pushes : gmap nat phase }.
Definition to (i : nat) (p : phase) (m : option sem) (s : Sys) : Sys :=
  {| lim := {| l_sem := m; l_wait := l_wait (lim s) |}; pushes := <[i := p]> (pushes s) |}.

Inductive step (s : Sys) : Sys -> Prop :=
  | step_arrive i : pushes s !! i = None -> step s (to i Waiting (l_sem (lim s)) s)
  | step_unlimited i : pushes s !! i = Some Waiting -> l_sem (lim s) = None -> step s (to i Unpacking None s)
  | step_admit i m m' : pushes s !! i = Some Waiting -> l_sem (lim s) = Some m -> Acquired 1 m m' -> step s (to i Unpacking (Some m') s)
  (* [Acquire] fails when the context it was given is done: the client's, or after [l_wait] if that is positive *)
  | step_refuse i m m' clientGone : pushes s !! i = Some Waiting -> l_sem (lim s) = Some m -> Cancelled 1 m m' ->
      (clientGone = true \/ 0 < l_wait (lim s)) -> step s (to i (Refused (admit_error clientGone)) (Some m') s)
  | step_release i m m' : pushes s !! i = Some Unpacking -> l_sem (lim s) = Some m -> Release 1 m = Ok m' -> step s (to i Finished (Some m') s)
  | step_leave i : pushes s !! i = Some Unpacking -> l_sem (lim s) = None -> step s (to i Finished None s).

Definition start (max wait : Z) : Sys := {| lim := newPushLimiter max wait; pushes := ∅ |}.
Definition reachable (max wait : Z) (s : Sys) : Prop := rtc step (start max wait) s.

(** ** Counting the pushes that unpack *)

Definition unpacking (m : gmap nat phase) : nat := size (filter (fun x => snd x = Unpacking) m).

Lemma unpacking_in m i p : m !! i = Some p -> p <> Unpacking -> unpacking (<[i := Unpacking]> m) = S (unpacking m).
Proof.
  intros Hi Hp. unfold unpacking. rewrite map_filter_insert_True by done. rewrite map_size_insert_None; [done|].
  apply map_lookup_filter_None. right. intros x Hx. cbn. congruence.
Qed.
Lemma unpacking_same m i q : (forall p, m !! i = Some p -> p <> Unpacking) -> q <> Unpacking -> unpacking (<[i := q]> m) = unpacking m.
Proof.
  intros Hi Hq. unfold unpacking. rewrite map_filter_insert_False, map_filter_delete by done. rewrite delete_id; [done|].
  apply map_lookup_filter_None. destruct (m !! i) as [p|] eqn:E; [right|by left]. intros x [= <-]. by apply Hi.
Qed.
Lemma unpacking_out m i q : m !! i = Some Unpacking -> q <> Unpacking -> unpacking m = S (unpacking (<[i := q]> m)).
Proof.
  intros Hi Hq. unfold unpacking. rewrite map_filter_insert_False, map_filter_delete by done.
  assert (Hf : filter (fun x => snd x = Unpacking) m !! i = Some Unpacking) by (by apply map_lookup_filter_Some).
  rewrite map_size_delete, Hf. enough (size (filter (fun x => snd x = Unpacking) m) <> 0%nat) by lia.
  intros Hz%map_size_empty_inv. by rewrite Hz, lookup_empty in Hf.
Qed.

(** ** What the limiter promises *)

Context (held capacity : sem -> Z) `{!WeightedLaws _ held capacity}.

Definition sem_ok (max : Z) (s : Sys) : Prop :=
  match l_sem (lim s) with
  | Some m => 0 < max /\ capacity m = max /\ held m = Z.of_nat (unpacking (pushes s)) /\ held m <= max
  | None => max <= 0
  end.
Definition refusals_ok (max wait : Z) (s : Sys) : Prop :=
  forall i e, pushes s !! i = Some (Refused e) -> 0 < max /\ exists gone, e = admit_error gone /\ (gone = false -> 0 < wait).
Definition limits_ok (max wait : Z) (s : Sys) : Prop :=
  sem_ok max s /\ refusals_ok max wait s /\ (0 < max -> l_wait (lim s) = wait).

Lemma refusals_to max wait i p m s : refusals_ok max wait s ->
  (forall e, p = Refused e -> 0 < max /\ exists gone, e = admit_error gone /\ (gone = false -> 0 < wait)) -> refusals_ok max wait (to i p m s).
Proof. intros Hr Hp j e. cbn. rewrite lookup_insert. case_decide; [intros [= He]; by apply Hp|apply Hr]. Qed.

Lemma step_limits max wait s s' : limits_ok max wait s -> step s s' -> limits_ok max wait s'.
Proof.
  intros (Hs & Hr & Hw) Hst. unfold limits_ok, sem_ok in *.
  destruct Hst as [i Hi|i Hi Hn|i m m' Hi Hm Ha|i m m' gone Hi Hm Hc Hg|i m m' Hi Hm Hrel|i Hi Hn]; cbn [to lim l_sem l_wait pushes];
    rewrite ?Hn, ?Hm in Hs; (split; [|split; [apply refusals_to; [done|]|done]]); try done.
  - rewrite unpacking_same; [done| |done]. intros p. by rewrite Hi.
  - destruct Hs as (Hpos & Hcap & Hheld & Hle). apply (acquired_held (held := held)) in Ha as (H1 & H2 & H3).
    rewrite (unpacking_in _ _ Waiting) by done. lia.
  - destruct Hs as (Hpos & Hcap & Hheld & Hle). apply (cancelled_held (held := held) (capacity := capacity)) in Hc as [H1 H2].
    rewrite unpacking_same; [lia| |done]. intros p Hp. rewrite Hi in Hp. by injection Hp as <-.
  - intros e [= <-]. split; [apply Hs|]. exists gone. split; [done|]. intros ->. rewrite <-Hw by apply Hs. by destruct Hg.
  - destruct Hs as (Hpos & Hcap & Hheld & Hle). pose proof (unpacking_out _ _ Finished Hi ltac:(done)) as Hu.
    destruct (release_held (held := held) (capacity := capacity) 1 m) as (m2 & Hr2 & H1 & H2); [lia|]. rewrite Hrel in Hr2. injection Hr2 as <-. lia.
Qed.

Lemma reachable_limits max wait s : reachable max wait s -> limits_ok max wait s.
Proof.
  intros Hr. apply (rtc_ind_r (fun s => limits_ok max wait s)) in Hr; [done| |intros x y _ Hxy Hx; by eapply step_limits].
  unfold limits_ok, sem_ok, start, newPushLimiter. cbn [lim pushes]. destruct (max <=? 0) eqn:E; b2p; cbn [l_sem l_wait].
  - split_and!; [lia| |lia]. by intros i e.
  - destruct (new_held (held := held) (capacity := capacity) max) as [H1 H2]. split_and!; [lia|done|rewrite H1; by unfold unpacking|lia| |done]. by intros i e.
Qed.

(** The cap on pushes holds. With a limit, never more than that many pushes
    unpack at a time; a push that is done gives its slot back without a panic;
    and a push is refused only with an error that tells why: its client left, or
    it waited for the whole of a positive deadline. Without a limit no push is
    refused. *)
Theorem pushes_bounded (max wait : Z) (s : Sys) : reachable max wait s ->
  (0 < max -> Z.of_nat (unpacking (pushes s)) <= max) /\
  (forall i m, pushes s !! i = Some Unpacking -> l_sem (lim s) = Some m -> exists m', Release 1 m = Ok m') /\
  (forall i e, pushes s !! i = Some (Refused e) -> 0 < max /\
     (errors_is e CtxDone = true \/ (errors_is e errPushQueueTimeout = true /\ 0 < wait))).
Proof.
  intros (Hs & Hr & _)%reachable_limits. unfold sem_ok in Hs. split_and!.
  - intros Hmax. destruct (l_sem (lim s)) as [m|]; lia.
  - intros i m Hi Hm. rewrite Hm in Hs. destruct Hs as (_ & _ & Hh & _). pose proof (unpacking_out _ _ Finished Hi ltac:(done)).
    destruct (release_held (held := held) (capacity := capacity) 1 m) as (m' & ? & _); [lia|]. by exists m'.
  - intros i e Hi. destruct (Hr i e Hi) as (Hmax & gone & -> & Hg). split; [done|]. destruct gone; [by left|]. right. split; [done|by apply Hg].
Qed.
End pushlimit.

#[local] Existing Instance Counting.counting.
#[local] Existing Instance Counting.counting_laws.

(** One slot: a push takes it, a second one waits and is refused at its deadline. *)
Definition w1 : Sys := to 0 Waiting (Some (1, 0)) (start 1 60).
Definition w2 : Sys := to 0 Unpacking (Some (1, 1)) w1.
Definition w3 : Sys := to 1 Waiting (Some (1, 1)) w2.
Definition w4 : Sys := to 1 (Refused (admit_error false)) (Some (1, 1)) w3.

Lemma w4_reachable : reachable 1 60 w4.
Proof.
  apply (rtc_l _ _ w1); [exact (step_arrive (start 1 60) 0 eq_refl)|].
  apply (rtc_l _ _ w2); [exact (step_admit w1 0 (1, 0) (1, 1) eq_refl eq_refl eq_refl)|].
  apply (rtc_l _ _ w3); [exact (step_arrive w2 1 eq_refl)|].
  apply (rtc_l _ _ w4); [exact (step_refuse w3 1 (1, 1) (1, 1) false eq_refl eq_refl eq_refl (or_intror eq_refl))|].
  apply rtc_refl.
Qed.

Lemma pushes_bounded_witness : 0 < 1 /\ Z.of_nat (unpacking (pushes w4)) <= 1.
Proof. split; [reflexivity|]. exact (proj1 (pushes_bounded snd fst 1 60 w4 w4_reachable) eq_refl). Defined.
