(* ===== verification/Sandbox.v ===== *)
(** * The filesystem of a hook (internal/mountfs, internal/treefs, cmd/objgitd/hooks.go)

    A hook sees one filesystem: a read-only checkout under /src and scratch
    space under /tmp. [Filesystem] is go-billy's interface, with the state [W]
    its calls may change; the operations of mountfs.go dispatch by the first
    element of a path, those of treefs.go read a git tree through go-git. *)

From S2P Require Import Prelude GoLib S3 Concrete Codec Cue PackTable PackIndex Storer Refs Objects GitObjects RepoFs Daemon ReceivePack.

(** ** The interface *)

Definition O_WRONLY : Z := 1.
Definition O_RDWR : Z := 2.
Definition O_CREATE : Z := 64.
Definition O_TRUNC : Z := 512.
Definition O_APPEND : Z := 1024.

(** [flag&(os.O_WRONLY|os.O_RDWR|os.O_CREATE|os.O_APPEND|os.O_TRUNC) != 0] *)
Definition writing (flag : Z) : bool :=
  negb (Z.land flag (Z.lor O_WRONLY (Z.lor O_RDWR (Z.lor O_CREATE (Z.lor O_APPEND O_TRUNC)))) =? 0).

(** [fs.FileMode]: a directory and a link have a bit of their own. *)
Definition ModeDir : Z := 2 ^ 31.
Definition ModeSymlink : Z := 2 ^ 27.
Record FileInfo := { fi_name : bytes; fi_size : Z; fi_mode : Z }.
Definition IsDir (i : FileInfo) : bool := Z.testbit (fi_mode i) 31.

Section sandbox.
(** The state of the scratch space, and a file it has open. *)
Context {W Handle : Type}.

(** An open file: of the scratch space, of the tree, or a directory. *)
Inductive file :=
  | Scratch (h : Handle) (name : bytes)
  | TreeFile (name : bytes) (data : bytes) (info : FileInfo)
  | DirFile (name : bytes).

Record SymlinkOps := { l_Lstat : bytes -> io W FileInfo; l_Readlink : bytes -> io W bytes; l_Symlink : bytes -> bytes -> io W unit }.

Record Filesystem := {
  f_OpenFile : bytes -> Z -> io W file;
  f_Stat : bytes -> io W FileInfo;
  f_ReadDir : bytes -> io W (list FileInfo);
  f_Remove : bytes -> io W unit;
  f_MkdirAll : bytes -> io W unit;
  f_Rename : bytes -> bytes -> io W unit;
  f_TempFile : bytes -> bytes -> io W file;
  f_links : option SymlinkOps;                (** the optional [billy.Symlink] *)
}.

(** [path.Base] of a clean rooted path that is not the root. *)
Definition Base (s : bytes) : bytes := default [] (last (split_slash s)).

Definition rooted (p : bytes) : bytes := Clean (slash :: p).

(** ** treefs.go *)

Section treefs.
(** go-git's [Tree.File] with the content of its reader, [Tree.FindEntry],
    [Tree.Size], the entries of the tree and those of [Tree.Tree]. *)
Context (File : bytes -> gores (Z * gores bytes)) (FindEntry : bytes -> gores Z) (Size : bytes -> gores Z).
Context (entries : list (bytes * Z)) (SubTree : bytes -> gores (list (bytes * Z))).

Definition rel (p : bytes) : bytes := drop 1 (rooted p).

Definition osMode (m : Z) : Z :=
  if m =? Dir then Z.lor ModeDir 493 else if m =? Symlink then Z.lor ModeSymlink 511 else if m =? Executable then 493 else 420.

Definition notExist : goerr := Wrapf (Sent ErrNotExist).

Definition t_OpenFile (filename : bytes) (flag : Z) : gores file :=
  if writing flag then Err (Sent ErrReadOnly) else
  let r := rel filename in
  if bool_decide (r = []) then Err (Wrapf Errorf) else
  match File r with
  | Err _ => Err notExist
  | Ok (mode, content) =>
      let? data := content in
      Ok (TreeFile (Base r) data {| fi_name := Base r; fi_size := Z.of_nat (length data); fi_mode := osMode mode |})
  end.

Definition t_Stat (filename : bytes) : gores FileInfo :=
  let r := rel filename in
  if bool_decide (r = []) then Ok {| fi_name := bs "/"; fi_size := 0; fi_mode := Z.lor ModeDir 493 |} else
  match FindEntry r with
  | Err _ => Err notExist
  | Ok mode =>
      let size := if mode =? Dir then 0 else match Size r with Ok n => n | Err _ => 0 end in
      Ok {| fi_name := Base r; fi_size := size; fi_mode := osMode mode |}
  end.

Definition t_ReadDir (p : bytes) : gores (list FileInfo) :=
  let r := rel p in
  match (if bool_decide (r = []) then Ok entries else SubTree r) with
  | Err _ => Err notExist
  | Ok es => Ok ((fun e => {| fi_name := fst e; fi_size := 0; fi_mode := osMode (snd e) |}) <$> es)
  end.

Definition t_Readlink (link : bytes) : gores bytes :=
  let r := rel link in
  match FindEntry r with
  | Err _ => Err notExist
  | Ok mode => if mode =? Symlink then match File r with Ok (_, content) => content | Err _ => Err notExist end else Err notExist
  end.

(** [treefs.New(tree)] *)
Definition treefs : Filesystem := {|
  f_OpenFile p flag := lift (t_OpenFile p flag);
  f_Stat p := lift (t_Stat p);
  f_ReadDir p := lift (t_ReadDir p);
  f_Remove _ := fail (Sent ErrReadOnly);
  f_MkdirAll _ := fail (Sent ErrReadOnly);
  f_Rename _ _ := fail (Sent ErrReadOnly);
  f_TempFile _ _ := fail (Sent ErrReadOnly);
  f_links := Some {| l_Lstat p := lift (t_Stat p); l_Readlink p := lift (t_Readlink p); l_Symlink _ _ := fail (Sent ErrReadOnly) |};
|}.
End treefs.

(** ** mountfs.go *)

(** The mounts by name; [names] is their sorted list, for the root's listing. *)
Record FS := { mounts : gmap bytes Filesystem; names : list bytes }.
Definition New (m : gmap bytes Filesystem) : FS := {| mounts := m; names := merge_sort bytes_le (fst <$> map_to_list m) |}.

Inductive target := Root | Mount (name : bytes) (sub : Filesystem) | Within (name : bytes) (sub : Filesystem) (rel : bytes).

Section mountfs.
Context (f : FS).
(** A mounted filesystem's own [Chroot]. *)
Context (Chroot : Filesystem -> bytes -> io W Filesystem).

Definition route (p : bytes) : gores target :=
  let clean := drop 1 (rooted p) in
  if bool_decide (clean = []) then Ok Root else
  let '(name, rest) := match cut_byte slash clean with Some (a, b) => (a, b) | None => (clean, []) end in
  match mounts f !! name with
  | None => Err (Sent ErrNotExist)
  | Some sub => if bool_decide (rest = []) then Ok (Mount name sub) else Ok (Within name sub rest)
  end.

(** [pathErr] keeps the error for [errors.Is]. *)
Definition routed {A} (p : bytes) (k : target -> io W A) : io W A :=
  match route p with Err e => fail (Wrapf e) | Ok t => k t end.

Definition openDir (filename : bytes) (flag : Z) : io W file :=
  if writing flag then fail (Wrapf (Sent ErrReadOnly)) else ret (DirFile (rooted filename)).

(** [namedFile] *)
Definition named (filename : bytes) (x : file) : file :=
  match x with
  | Scratch h _ => Scratch h (rooted filename)
  | TreeFile _ data info => TreeFile (rooted filename) data info
  | DirFile _ => DirFile (rooted filename)
  end.

Definition m_OpenFile (filename : bytes) (flag : Z) : io W file :=
  routed filename (fun t =>
  match t with
  | Root | Mount _ _ => openDir filename flag
  | Within _ sub r =>
      try! x := f_OpenFile sub r flag in
      match x with
      | Ok x => ret (named filename x)
      | Err e =>
          if writing flag then fail e else
          try! i := f_Stat sub r in
          match i with
          | Ok i => if IsDir i then openDir filename flag else fail e
          | Err _ => fail e
          end
      end
  end).

Definition m_Open (filename : bytes) : io W file := m_OpenFile filename 0.
Definition m_Create (filename : bytes) : io W file := m_OpenFile filename (Z.lor O_RDWR (Z.lor O_CREATE O_TRUNC)).

Definition dirInfo (name : bytes) : FileInfo := {| fi_name := name; fi_size := 0; fi_mode := Z.lor ModeDir 493 |}.

Definition m_Stat (filename : bytes) : io W FileInfo :=
  routed filename (fun t =>
  match t with
  | Root => ret (dirInfo (bs "/"))
  | Mount _ _ => ret (dirInfo (Base (rooted filename)))
  | Within _ sub r => f_Stat sub r
  end).

Definition m_Lstat (filename : bytes) : io W FileInfo :=
  routed filename (fun t =>
  match t with
  | Root | Mount _ _ => m_Stat filename
  | Within _ sub r => match f_links sub with Some l => l_Lstat l r | None => f_Stat sub r end
  end).

Definition m_ReadDir (p : bytes) : io W (list FileInfo) :=
  routed p (fun t =>
  match t with
  | Root => ret (dirInfo <$> names f)
  | Mount _ sub => f_ReadDir sub (bs ".")
  | Within _ sub r => f_ReadDir sub r
  end).

Definition m_Readlink (link : bytes) : io W bytes :=
  routed link (fun t =>
  match t with
  | Root | Mount _ _ => fail (Wrapf (Sent ErrNotSupported))
  | Within _ sub r => match f_links sub with Some l => l_Readlink l r | None => fail (Wrapf (Sent ErrNotSupported)) end
  end).

Definition m_Symlink (tgt link : bytes) : io W unit :=
  routed link (fun t =>
  match t with
  | Root | Mount _ _ => fail (Wrapf (Sent ErrReadOnly))
  | Within _ sub r => match f_links sub with Some l => l_Symlink l tgt r | None => fail (Wrapf (Sent ErrNotSupported)) end
  end).

(** [Remove] and [MkdirAll] differ only in the call they pass on. *)
Definition m_Remove (filename : bytes) : io W unit :=
  routed filename (fun t => match t with Root | Mount _ _ => fail (Wrapf (Sent ErrReadOnly)) | Within _ sub r => f_Remove sub r end).
Definition m_MkdirAll (filename : bytes) : io W unit :=
  routed filename (fun t => match t with Root | Mount _ _ => fail (Wrapf (Sent ErrReadOnly)) | Within _ sub r => f_MkdirAll sub r end).

(** Within one mount only: the mounts are compared by identity, here by name. *)
Definition m_Rename (oldpath newpath : bytes) : io W unit :=
  routed oldpath (fun o => routed newpath (fun n =>
  match o, n with
  | Within a sub r, Within b _ r' => if bool_decide (a = b) then f_Rename sub r r' else fail (Wrapf (Sent ErrNotSupported))
  | _, _ => fail (Wrapf (Sent ErrNotSupported))
  end)).

Definition m_TempFile (dir prefix : bytes) : io W file :=
  routed dir (fun t =>
  match t with
  | Root => fail (Wrapf (Sent ErrReadOnly))
  | Mount _ sub => f_TempFile sub (bs ".") prefix
  | Within _ sub r => f_TempFile sub r prefix
  end).

(** The whole again for the root, else the mounted filesystem or one below it. *)
Definition m_Chroot (p : bytes) : io W (FS + Filesystem) :=
  routed p (fun t =>
  match t with
  | Root => ret (inl f)
  | Mount _ sub => ret (inr sub)
  | Within _ sub r => let! c := Chroot sub r in ret (inr c)
  end).

(** The operations of go-billy's interface, [MkdirAll] and [OpenFile] without their permission bits. *)
Inductive op :=
  | OpenFile (filename : bytes) (flag : Z) | Stat (filename : bytes) | Lstat (filename : bytes) | ReadDir (p : bytes)
  | Readlink (link : bytes) | MkSymlink (tgt link : bytes) | Remove (filename : bytes) | MkdirAll (filename : bytes)
  | Rename (oldpath newpath : bytes) | TempFile (dir prefix : bytes).
Inductive answer := AFile (x : file) | AInfo (i : FileInfo) | AList (l : list FileInfo) | ALink (t : bytes) | ADone.

Definition answering {A} (k : A -> answer) (m : io W A) : io W answer := let! a := m in ret (k a).

(** A call of the composite filesystem, and a call of a mounted one. *)
Definition m_op (o : op) : io W answer :=
  match o with
  | OpenFile p flag => answering AFile (m_OpenFile p flag)
  | Stat p => answering AInfo (m_Stat p)
  | Lstat p => answering AInfo (m_Lstat p)
  | ReadDir p => answering AList (m_ReadDir p)
  | Readlink p => answering ALink (m_Readlink p)
  | MkSymlink t p => answering (fun _ => ADone) (m_Symlink t p)
  | Remove p => answering (fun _ => ADone) (m_Remove p)
  | MkdirAll p => answering (fun _ => ADone) (m_MkdirAll p)
  | Rename a b => answering (fun _ => ADone) (m_Rename a b)
  | TempFile d pre => answering AFile (m_TempFile d pre)
  end.
End mountfs.

Definition f_op (sub : Filesystem) (o : op) : io W answer :=
  let links {A} (k : SymlinkOps -> io W A) := match f_links sub with Some l => k l | None => fail (Sent ErrNotSupported) end in
  match o with
  | OpenFile p flag => answering AFile (f_OpenFile sub p flag)
  | Stat p => answering AInfo (f_Stat sub p)
  | Lstat p => answering AInfo (links (fun l => l_Lstat l p))
  | ReadDir p => answering AList (f_ReadDir sub p)
  | Readlink p => answering ALink (links (fun l => l_Readlink l p))
  | MkSymlink t p => answering (fun _ => ADone) (links (fun l => l_Symlink l t p))
  | Remove p => answering (fun _ => ADone) (f_Remove sub p)
  | MkdirAll p => answering (fun _ => ADone) (f_MkdirAll sub p)
  | Rename a b => answering (fun _ => ADone) (f_Rename sub a b)
  | TempFile d pre => answering AFile (f_TempFile sub d pre)
  end.

Definition paths (o : op) : list bytes :=
  match o with
  | OpenFile p _ | Stat p | Lstat p | ReadDir p | Readlink p | MkSymlink _ p | Remove p | MkdirAll p | TempFile p _ => [p]
  | Rename a b => [a; b]
  end.
Definition mutates (o : op) : bool :=
  match o with
  | OpenFile _ flag => writing flag
  | Stat _ | Lstat _ | ReadDir _ | Readlink _ => false
  | MkSymlink _ _ | Remove _ | MkdirAll _ | Rename _ _ | TempFile _ _ => true
  end.

(** ** Writing to an open file

    [write]: what the scratch space makes of a [Write], [WriteAt] or [Truncate]. *)
Definition file_write (write : Handle -> io W Z) (x : file) : io W Z :=
  match x with Scratch h _ => write h | TreeFile _ _ _ | DirFile _ => fail (Sent ErrReadOnly) end.
Definition file_Name (x : file) : bytes := match x with Scratch _ n | TreeFile n _ _ | DirFile n => n end.

(** ** The sandbox of a hook (hooks.go) *)

Definition srcName : bytes := bs "src".
Definition tmpName : bytes := bs "tmp".
Definition hook_fs (tree scratch : Filesystem) : FS := New {[srcName := tree; tmpName := scratch]}.
End sandbox.
Arguments file : clear implicits.
Arguments Filesystem : clear implicits.
Arguments FS : clear implicits.

(** [hookEnv]; [Short] is go-git's short form of a reference's name. *)
Definition hookEnv `{GoGit} (Short : bytes -> bytes) (repoPath service : bytes) (u : refUpdate) (added changed deleted : bytes) : list bytes :=
  [bs "HOME=/tmp"; bs "PWD=/src"; bs "TMPDIR=/tmp"; bs "IFS= " ++ [bz 9; bz 10]; bs "PATH=/usr/bin:/bin"; bs "KEFKA=1";
   bs "OBJGIT_REPO=" ++ repoPath; bs "OBJGIT_SERVICE=" ++ service; bs "OBJGIT_REF=" ++ u_name u; bs "OBJGIT_BRANCH=" ++ Short (u_name u);
   bs "OBJGIT_OLD_SHA=" ++ HashString (u_old u); bs "OBJGIT_NEW_SHA=" ++ HashString (u_new u);
   bs "OBJGIT_ADDED_FILES_JSON=" ++ added; bs "OBJGIT_CHANGED_FILES_JSON=" ++ changed; bs "OBJGIT_DELETED_FILES_JSON=" ++ deleted;
   bs "OBJGIT_CHANGES_FILE=/tmp/objgit-changes.json"].

(** [hookStdin] *)
Definition hookStdin `{GoGit} (u : refUpdate) : bytes :=
  HashString (u_old u) ++ bs " " ++ HashString (u_new u) ++ bs " " ++ u_name u ++ [bz 10].

(** ** Routes *)

(** Elements of a clean rooted path. *)
Lemma clean_parts_plain parts out : Forall plain_part out -> Forall (fun p => slash ∉ p) parts -> Forall plain_part (clean_parts true parts out).
Proof.
  revert out. induction parts as [|p ps IH]; intros out Ho Hp; cbn [clean_parts]; [by apply Forall_rev|].
  apply Forall_cons in Hp as [Hp Hps]. destruct (bool_decide (p = [])) eqn:E1, (bool_decide (p = dot)) eqn:E2; cbn [orb]; try by apply IH. b2p.
  case_bool_decide as E3.
  - destruct out as [|q out]; [by apply IH|]. apply Forall_cons in Ho as [Hq Ho]. rewrite bool_decide_false by apply Hq. by apply IH.
  - apply IH; [|done]. constructor; [done|exact Ho].
Qed.

Definition parts_of (p : bytes) : list bytes := clean_parts true (split_slash (slash :: p)) [].

Lemma rooted_parts p : rooted p = slash :: join_slash (parts_of p) /\ Forall plain_part (parts_of p).
Proof.
  split; [|apply clean_parts_plain; [constructor|apply split_parts]]. unfold rooted, Clean, parts_of.
  rewrite bool_decide_true by done. done.
Qed.

Lemma cut_join n rest : slash ∉ n -> cut_byte slash (join_slash (n :: rest)) =
  match rest with [] => None | _ => Some (n, join_slash rest) end.
Proof.
  intros Hn. destruct rest as [|m rest]; cbn [join_slash]; [|by rewrite cut_byte_app].
  destruct (cut_byte slash n) as [[a b]|] eqn:E; [|done]. apply cut_byte_some in E as [-> _]. exfalso. apply Hn, elem_of_app. right. left.
Qed.

Lemma join_nonempty n rest : n <> [] -> join_slash (n :: rest) <> [].
Proof. destruct n; [done|]. by destruct rest. Qed.

Section routes.
Context {W Handle : Type} (f : FS W Handle).

(** Where a path leads: the first element picks the mount, the rest is a clean
    relative path without [..] that the mount gets. *)
Lemma route_parts p :
  match parts_of p with
  | [] => route f p = Ok Root
  | [n] => route f p = match mounts f !! n with Some sub => Ok (Mount n sub) | None => Err (Sent ErrNotExist) end
  | n :: rest => route f p = match mounts f !! n with Some sub => Ok (Within n sub (join_slash rest)) | None => Err (Sent ErrNotExist) end
  end.
Proof.
  destruct (rooted_parts p) as [Hr Hp]. unfold route. rewrite Hr. change (drop 1 (slash :: join_slash (parts_of p))) with (join_slash (parts_of p)).
  destruct (parts_of p) as [|n rest]; [done|]. apply Forall_cons in Hp as [(Hn & _ & _ & Hs) Hp].
  rewrite bool_decide_false by by apply join_nonempty. rewrite cut_join by done.
  destruct rest as [|m rest]; [done|]. apply Forall_cons in Hp as [(Hm & _) _]. rewrite (bool_decide_false _ (join_nonempty m rest Hm)). done.
Qed.

(** What a mounted filesystem is given for a path of its mount. *)
Definition below (n p q : bytes) : Prop := exists rest, parts_of p = n :: rest /\ q = match rest with [] => dot | _ => join_slash rest end.

Inductive route_spec (p : bytes) : gores (target (W := W) (Handle := Handle)) -> Prop :=
  | route_err e : route_spec p (Err e)
  | route_root : route_spec p (Ok Root)
  | route_mount n sub : mounts f !! n = Some sub -> below n p dot -> route_spec p (Ok (Mount n sub))
  | route_within n sub r : mounts f !! n = Some sub -> below n p r -> route_spec p (Ok (Within n sub r)).

Lemma route_ok p : route_spec p (route f p).
Proof.
  pose proof (route_parts p) as Hr. destruct (parts_of p) as [|n rest] eqn:Ep; [rewrite Hr; constructor|].
  destruct rest as [|m rest]; rewrite Hr; (destruct (mounts f !! n) as [sub|] eqn:Em; constructor; [done|by eexists]).
Qed.

(** ** What an operation does *)

Definition is_scratch (x : file Handle) : bool := match x with Scratch _ _ => true | _ => false end.
(** The answer is a file that can be written. *)
Definition writable (r : gores (answer (Handle := Handle))) : Prop := exists x, r = Ok (AFile x) /\ is_scratch x = true.
(** Several calls of a mounted filesystem, for what they leave. *)
Definition replay (sub : Filesystem W Handle) (cs : list op) (s : W) : W := fold_left (fun s c => snd (f_op sub c s)) cs s.

(** An operation changes nothing, or it is a call of the mounted filesystem its paths lead to. *)
Definition refused (o : op) (s : W) (out : gores answer * W) : Prop :=
  snd out = s /\ ~ writable (fst out) /\ (mutates o = true -> exists e, fst out = Err e).
Definition passed_on (o : op) (s : W) (out : gores answer * W) (n : bytes) (sub : Filesystem W Handle) (cs : list op) : Prop :=
  mounts f !! n = Some sub /\ cs <> [] /\ snd out = replay sub cs s /\ Forall (fun c => Forall2 (below n) (paths o) (paths c)) cs /\
  (writable (fst out) -> exists c, cs = [c] /\ writable (fst (f_op sub c s))) /\
  (mutates o = true -> exists c, cs = [c] /\ mutates c = true /\ forall e, fst (f_op sub c s) = Err e -> fst out = Err e).

Lemma refused_err o s e : refused o s (Err e, s).
Proof. split; [done|]. split; [by intros (? & [=] & _)|by eauto]. Qed.

Lemma passed_one o c s out n sub : out = f_op sub c s -> mounts f !! n = Some sub -> Forall2 (below n) (paths o) (paths c) -> mutates c = mutates o ->
  passed_on o s out n sub [c].
Proof.
  intros -> Hm Hb Hmut. unfold passed_on. cbn [replay fold_left]. split_and!; [done|done|done|by repeat constructor|by eauto|].
  intros Ho. exists c. split; [done|]. split; [congruence|done].
Qed.

#[local] Ltac refuse := left; first [apply refused_err | split; [done|]; split; [by intros (? & [=] & ?)|by intros [=]]].
#[local] Ltac pass_on c :=
  right; do 2 eexists; exists [c]; eapply (passed_one _ c);
    [cbn [f_op]; repeat match goal with H : f_links _ = _ |- _ => rewrite H end; reflexivity|eassumption|by repeat constructor|done].

Lemma m_OpenFile_dispatch p flag s :
  refused (OpenFile p flag) s (m_op f (OpenFile p flag) s) \/ exists n sub cs, passed_on (OpenFile p flag) s (m_op f (OpenFile p flag) s) n sub cs.
Proof.
  cbn [m_op]. unfold answering, m_OpenFile, routed, openDir. destruct (route_ok p) as [e| |n sub Hm Hb|n sub r Hm Hb].
  - refuse.
  - left. destruct (writing flag) eqn:Ew; [apply refused_err|]. split; [done|]. cbn. rewrite Ew. split; [by intros (? & [= <-] & ?)|done].
  - left. destruct (writing flag) eqn:Ew; [apply refused_err|]. split; [done|]. cbn. rewrite Ew. split; [by intros (? & [= <-] & ?)|done].
  - right. exists n, sub. unfold io_bind, attempt. destruct (f_OpenFile sub r flag s) as [[x|e] s1] eqn:Eo.
    + exists [OpenFile r flag]. unfold passed_on. cbn [fst snd ret replay fold_left f_op mutates paths]. unfold answering, io_bind. rewrite Eo. cbn [fst snd ret].
      split_and!; [done|done|done|by repeat constructor| |].
      * intros (y & [= <-] & Hy). exists (OpenFile r flag). split; [done|]. cbn [f_op]. unfold answering, io_bind. rewrite Eo. exists x. split; [done|]. by destruct x.
      * intros Hw. exists (OpenFile r flag). split_and!; [done|done|]. cbn [f_op]. unfold answering, io_bind. rewrite Eo. by intros e [=].
    + destruct (writing flag) eqn:Ew.
      * exists [OpenFile r flag]. unfold passed_on. cbn [fst snd ret fail replay fold_left f_op mutates paths]. unfold answering, io_bind. rewrite Eo. cbn [fst snd ret].
        split_and!; [done|done|done|by repeat constructor|by intros (? & [=] & _)|].
        intros _. exists (OpenFile r flag). split_and!; [done|done|]. cbn [f_op]. unfold answering, io_bind. rewrite Eo. by intros e' [= ->].
      * exists [OpenFile r flag; Stat r]. unfold passed_on. cbn [replay fold_left f_op mutates paths]. unfold answering, io_bind. rewrite Eo. cbn [fst snd ret fail].
        destruct (f_Stat sub r s1) as [[i|e2] s2]; cbn [fst snd ret fail]; [destruct (IsDir i)|]; cbn [fst snd ret fail];
          (split_and!; [done|done|done|by repeat constructor|by intros (? & [= <-] & ?)|by rewrite Ew]).
Qed.

Lemma m_op_dispatch o s : refused o s (m_op f o s) \/ exists n sub cs, passed_on o s (m_op f o s) n sub cs.
Proof.
  destruct o as [p flag|p|p|p|p|t p|p|p|a b|d pre]; [apply m_OpenFile_dispatch|..]; cbn [m_op];
    unfold answering, m_Lstat, m_Stat, m_ReadDir, m_Readlink, m_Symlink, m_Remove, m_MkdirAll, m_Rename, m_TempFile, routed;
    first [destruct (route_ok p) as [e| |n sub Hm Hb|n sub r Hm Hb]|destruct (route_ok d) as [e| |n sub Hm Hb|n sub r Hm Hb]|
           destruct (route_ok a) as [e| |n sub Hm Hb|n sub r Hm Hb]]; try by refuse.
  - pass_on (Stat r).
  - destruct (f_links sub) as [l|] eqn:El; [pass_on (Lstat r)|pass_on (Stat r)].
  - pass_on (ReadDir dot).
  - pass_on (ReadDir r).
  - destruct (f_links sub) as [l|] eqn:El; [pass_on (Readlink r)|refuse].
  - destruct (f_links sub) as [l|] eqn:El; [pass_on (MkSymlink t r)|refuse].
  - pass_on (Remove r).
  - pass_on (MkdirAll r).
  - by destruct (route_ok b) as [e| |n2 sub2 Hm2 Hb2|n2 sub2 r2 Hm2 Hb2]; refuse.
  - by destruct (route_ok b) as [e| |n2 sub2 Hm2 Hb2|n2 sub2 r2 Hm2 Hb2]; refuse.
  - destruct (route_ok b) as [e| |n2 sub2 Hm2 Hb2|n2 sub2 r2 Hm2 Hb2]; [by refuse..|]. case_bool_decide as Eab; [|refuse].
    subst n2. pass_on (Rename r r2).
  - pass_on (TempFile dot pre).
  - pass_on (TempFile r pre).
Qed.
End routes.

(** ** The sandbox *)

Section confinement.
Context {W Handle : Type}.

(** A filesystem that never changes anything, refuses what would, and opens no file that can be written. *)
Definition read_only (sub : Filesystem W Handle) : Prop := forall o s,
  snd (f_op sub o s) = s /\ (mutates o = true -> exists e, fst (f_op sub o s) = Err e) /\ ~ writable (fst (f_op sub o s)).

Lemma treefs_read_only File FindEntry Size entries SubTree : read_only (treefs File FindEntry Size entries SubTree).
Proof.
  intros o s. destruct o as [p flag|p|p|p|p|t p|p|p|a b|d pre]; cbn [f_op treefs f_links f_OpenFile f_Stat f_ReadDir f_Remove f_MkdirAll f_Rename f_TempFile l_Lstat l_Readlink l_Symlink mutates];
    unfold answering, io_bind, lift, fail, ret;
    [unfold t_OpenFile; destruct (writing flag) eqn:Ew; [split_and!; [done|by eauto|by intros (? & [=] & _)]|]|..];
    try (split_and!; [done|by eauto|by intros (? & [=] & _)]).
  - destruct (bool_decide _); [split_and!; [done|by eauto|by intros (? & [=] & _)]|].
    destruct (File (rel p)) as [[mode [data|e]]|e]; split_and!; cbn; try done; try (by eauto); by intros (? & [= <-] & ?).
  - destruct (t_Stat FindEntry Size p); split_and!; cbn; try done; try (by eauto); by intros (? & [= <-] & ?).
  - destruct (t_Stat FindEntry Size p); split_and!; cbn; try done; try (by eauto); by intros (? & [= <-] & ?).
  - destruct (t_ReadDir entries SubTree p); split_and!; cbn; try done; try (by eauto); by intros (? & [= <-] & ?).
  - destruct (t_Readlink File FindEntry p); split_and!; cbn; try done; try (by eauto); by intros (? & [= <-] & ?).
Qed.

(** A path that leads into the scratch space, by its text. *)
Definition in_tmp (p : bytes) : Prop := rooted p = bs "/tmp" \/ exists r, rooted p = bs "/tmp/" ++ r.
(** A relative path without [..] that stays where it starts. *)
Definition confined (q : bytes) : Prop := q = dot \/ exists parts, parts <> [] /\ Forall plain_part parts /\ q = join_slash parts.

Lemma below_confined n p q : below n p q -> confined q.
Proof.
  intros (rest & Hp & ->). destruct (rooted_parts p) as [_ Hf]. rewrite Hp in Hf. apply Forall_cons in Hf as [_ Hf].
  destruct rest as [|m rest]; [by left|right; by exists (m :: rest)].
Qed.
Lemma below_tmp p q : below tmpName p q -> in_tmp p.
Proof.
  intros (rest & Hp & ->). destruct (rooted_parts p) as [Hr _]. rewrite Hp in Hr. unfold in_tmp. rewrite Hr.
  destruct rest as [|m rest]; [by left|right]. by exists (join_slash (m :: rest)).
Qed.

Lemma replay_read_only sub cs s : read_only sub -> replay sub cs s = s.
Proof. intros Hro. unfold replay. induction cs as [|c cs IH]; [done|]. cbn [fold_left]. by rewrite (proj1 (Hro c s)). Qed.

(** C37: a hook cannot leave its sandbox. Whatever operation it calls with
    whatever paths, the repository's tree is never touched, and the scratch space
    changes by calls with relative paths that do not climb; where a path leads
    elsewhere than /tmp, nothing changes, what would change something fails, and
    an opened file cannot be written. *)
Theorem sandbox_confined File FindEntry Size entries SubTree (scratch : Filesystem W Handle) (o : op) (s : W) :
  let fs := hook_fs (treefs File FindEntry Size entries SubTree) scratch in
  exists calls, snd (m_op fs o s) = replay scratch calls s /\ Forall (fun c => Forall confined (paths c)) calls /\
  (Forall in_tmp (paths o) \/
   calls = [] /\ (mutates o = true -> exists e, fst (m_op fs o s) = Err e) /\
   forall x write, fst (m_op fs o s) = Ok (AFile x) -> file_write write x s = (Err (Sent ErrReadOnly), s)).
Proof.
  intros fs. assert (Hwr : ~ writable (fst (m_op fs o s)) -> forall x write, fst (m_op fs o s) = Ok (AFile x) -> file_write write x s = (Err (Sent ErrReadOnly), s)).
  { intros Hn x write Hx. destruct x; [|done..]. destruct Hn. by eexists. }
  destruct (m_op_dispatch fs o s) as [(Hs & Hn & He)|(n & sub & cs & Hm & Hne & Hs & Hb & Hn & He)]; [exists []; split_and!; [done|constructor|by eauto]|].
  unfold fs in Hm. cbn [hook_fs New mounts] in Hm. rewrite lookup_insert in Hm. case_decide as Esrc.
  - injection Hm as <-. exists []. pose proof (treefs_read_only File FindEntry Size entries SubTree) as Hro. rewrite replay_read_only in Hs by done.
    split; [done|]. split; [done|]. right. split; [done|]. split.
    + intros (c & -> & Hc & Hce)%He. destruct (Hro c s) as (_ & Hf & _). destruct (Hf Hc) as [e Hfe]. eauto.
    + apply Hwr. intros (c & -> & Hw)%Hn. by apply (Hro c s).
  - apply lookup_singleton_Some in Hm as [<- <-]. exists cs. split; [done|].
    split; [|left].
    + eapply Forall_impl; [exact Hb|]. intros c Hc. cbn in Hc. clear -Hc. induction Hc; constructor; [by eapply below_confined|done].
    + destruct cs as [|c cs]; [done|]. apply Forall_cons in Hb as [Hc _]. clear -Hc. induction Hc; constructor; [by eapply below_tmp|done].
Qed.
End confinement.

(** ** What a path below a mount means *)

(** The path below the mount, and an operation with all its paths taken there. *)
Definition strip (p : bytes) : bytes := join_slash (drop 1 (parts_of p)).
Definition retarget (o : op) : op :=
  match o with
  | OpenFile p flag => OpenFile (strip p) flag | Stat p => Stat (strip p) | Lstat p => Lstat (strip p) | ReadDir p => ReadDir (strip p)
  | Readlink p => Readlink (strip p) | MkSymlink t p => MkSymlink t (strip p) | Remove p => Remove (strip p) | MkdirAll p => MkdirAll (strip p)
  | Rename a b => Rename (strip a) (strip b) | TempFile d pre => TempFile (strip d) pre
  end.
(** An opened file goes by its whole path; a temporary file by the name it was given. *)
Definition renamed {Handle} (o : op) (a : answer (Handle := Handle)) : answer :=
  match o, a with OpenFile p _, AFile x => AFile (named p x) | _, _ => a end.
Definition is_open (o : op) : bool := match o with OpenFile _ _ => true | _ => false end.

Section transparency.
Context {W Handle : Type} (f : FS W Handle) (n : bytes) (sub : Filesystem W Handle).
Context (Hsub : mounts f !! n = Some sub).

Definition strictly_below (p : bytes) : Prop := exists m rest, parts_of p = n :: m :: rest.

Lemma route_below p : strictly_below p -> route f p = Ok (Within n sub (strip p)).
Proof. intros (m & rest & Hp). pose proof (route_parts f p) as Hr. unfold strip. rewrite Hp in Hr |- *. by rewrite Hr, Hsub. Qed.

(** Below a mount, the composite filesystem is the mounted one: an operation
    gives what the mounted filesystem gives for the paths below the mount and
    leaves it in the same state, but that an opened file has its whole path as
    its name and that a directory can be opened even where the mounted filesystem
    cannot. *)
Theorem mount_transparent o s r s' :
  f_links sub <> None -> Forall strictly_below (paths o) -> f_op sub (retarget o) s = (r, s') ->
  (is_open o = true -> exists a, r = Ok a) ->
  m_op f o s = (match r with Ok a => Ok (renamed o a) | Err e => Err e end, s').
Proof.
  intros Hl Hp Hr Ho. destruct (f_links sub) as [l|] eqn:El; [|done].
  destruct o as [p flag|p|p|p|p|t p|p|p|a b|d pre]; cbn [paths retarget f_op renamed m_op] in *; rewrite ?El in Hr;
    repeat (apply Forall_cons in Hp as [?%route_below Hp]);
    unfold answering, m_OpenFile, m_Lstat, m_Stat, m_ReadDir, m_Readlink, m_Symlink, m_Remove, m_MkdirAll, m_Rename, m_TempFile, routed in *;
    repeat match goal with G : route f _ = _ |- _ => rewrite G; clear G end; rewrite ?El; try (rewrite Hr; by destruct r).
  - unfold io_bind, attempt in *. destruct (f_OpenFile sub (strip p) flag s) as [[x|e] s1]; cbn in *; [by injection Hr as <- <-|].
    injection Hr as <- <-. by destruct (Ho eq_refl).
  - rewrite bool_decide_true by done. rewrite Hr. by destruct r.
Qed.
End transparency.

(** ** A sandbox *)

(** A scratch space of files by path; a file that is open is its path. *)
Definition mem_file (p : bytes) (flag : Z) : io (gmap bytes bytes) (file bytes) := fun s =>
  match s !! p with
  | Some _ => (Ok (Scratch p p), s)
  | None => if Z.land flag O_CREATE =? 0 then (Err (Sent ErrNotExist), s) else (Ok (Scratch p p), <[p := []]> s)
  end.
Definition mem_info (p : bytes) : io (gmap bytes bytes) FileInfo := fun s =>
  match s !! p with Some d => (Ok {| fi_name := Base p; fi_size := Z.of_nat (length d); fi_mode := 420 |}, s) | None => (Err (Sent ErrNotExist), s) end.
Definition memfs : Filesystem (gmap bytes bytes) bytes := {|
  f_OpenFile := mem_file; f_Stat := mem_info; f_ReadDir _ := ret []; f_Remove p := modify (delete p); f_MkdirAll _ := ret tt;
  f_Rename a b := fun s => match s !! a with Some d => (Ok tt, <[b := d]> (delete a s)) | None => (Err (Sent ErrNotExist), s) end;
  f_TempFile d pre := mem_file (Join d pre) O_CREATE;
  f_links := Some {| l_Lstat := mem_info; l_Readlink _ := fail (Sent ErrNotExist); l_Symlink _ _ := ret tt |} |}.
Definition toy_sandbox : FS (gmap bytes bytes) bytes :=
  hook_fs (treefs (fun _ => Ok (Regular, Ok (bs "hi"))) (fun _ => Ok Regular) (fun _ => Ok 2) [(bs "a", Regular)] (fun _ => Err Errorf)) memfs.

(** [..] does not lead out of /tmp into /src, nor out of the root. *)
Definition toy_out : op := OpenFile (bs "/tmp/../src/a") (Z.lor O_RDWR O_CREATE).
Example climbing_refused : m_op toy_sandbox toy_out ∅ = (Err (Sent ErrReadOnly), ∅).
Proof. reflexivity. Qed.

Definition toy_in : op := OpenFile (bs "/src/../tmp/./x") (Z.lor O_RDWR O_CREATE).
Lemma mount_transparent_witness :
  m_op toy_sandbox toy_in ∅ = (Ok (AFile (Scratch (bs "x") (bs "/tmp/x"))), {[bs "x" := []]}).
Proof.
  refine (mount_transparent toy_sandbox tmpName memfs _ toy_in ∅ (Ok (AFile (Scratch (bs "x") (bs "x")))) {[bs "x" := []]} _ _ _ _).
  - reflexivity.
  - by intros [=].
  - repeat constructor. by exists (bs "x"), [].
  - reflexivity.
  - by eexists.
Defined.
