(* ===== verification/Webhook.v ===== *)
(** * Webhooks (internal/webhook/webhook.go, cmd/objgitd/webhooks.go, cmd/objgitd/webhook_settings.go)

    Where a repository's settings are kept, which destinations are allowed and
    which addresses a connection may reach, the signed delivery of an event with
    its retries, and the requests that read and change settings. [W] is the
    outside world; net/http, the resolver and the bucket's filesystem act on it. *)

From S2P Require Import Prelude GoLib S3 Concrete Codec GoText PackedRefs Cue PackTable PackIndex Storer Refs RepoFs Daemon GitObjects PushEvents.

(** ** net/netip *)

(** [netip.Addr]: the bits of an address, and the zone of an IPv6 one. *)
Inductive Addr := V4 (a : Z) | V6 (a : Z) (zone : bytes).
#[export] Instance Addr_eq_dec : EqDecision Addr.
Proof. solve_decision. Defined.

Definition ip4 (a b c d : Z) : Z := ((a * 256 + b) * 256 + c) * 256 + d.

Definition Unmap (ip : Addr) : Addr :=
  match ip with V6 a _ => if Z.shiftr a 32 =? 65535 then V4 (Z.land a (Z.ones 32)) else ip | V4 _ => ip end.
Definition IsLoopback (ip : Addr) : bool :=
  match Unmap ip with V4 a => Z.shiftr a 24 =? 127 | V6 a _ => a =? 1 end.
Definition IsMulticast (ip : Addr) : bool :=
  match Unmap ip with V4 a => Z.land (Z.shiftr a 24) 240 =? 224 | V6 a _ => Z.shiftr a 120 =? 255 end.
Definition IsLinkLocalUnicast (ip : Addr) : bool :=
  match Unmap ip with V4 a => Z.shiftr a 16 =? 169 * 256 + 254 | V6 a _ => Z.land (Z.shiftr a 112) 65472 =? 65152 end.
Definition IsPrivate (ip : Addr) : bool :=
  match Unmap ip with
  | V4 a => (Z.shiftr a 24 =? 10) || ((Z.shiftr a 24 =? 172) && (Z.land (Z.shiftr a 16) 240 =? 16)) || (Z.shiftr a 16 =? 192 * 256 + 168)
  | V6 a _ => Z.land (Z.shiftr a 120) 254 =? 252
  end.
Definition IsGlobalUnicast (ip : Addr) : bool :=
  match Unmap ip with
  | V4 a => negb (a =? 0) && negb (a =? ip4 255 255 255 255)
  | V6 a zone => negb (bool_decide (V6 a zone = V6 0 []))
  end && negb (IsLoopback ip) && negb (IsMulticast ip) && negb (IsLinkLocalUnicast ip).

(** [netip.Prefix] and its [Contains], which refuses an address with a zone. *)
Record Prefix := { p_addr : Addr; p_bits : Z }.
Definition Contains (p : Prefix) (ip : Addr) : bool :=
  match p_addr p, ip with
  | V4 b, V4 a => Z.shiftr (Z.lxor a b) (32 - p_bits p) =? 0
  | V6 b _, V6 a [] => Z.shiftr (Z.lxor a b) (128 - p_bits p) =? 0
  | _, _ => false
  end.

(** ** Which addresses are public (webhook.go) *)

Definition nonpublicRanges : list Prefix :=
  [{| p_addr := V4 (ip4 100 64 0 0); p_bits := 10 |}; {| p_addr := V4 (ip4 192 0 0 0); p_bits := 24 |};
   {| p_addr := V4 (ip4 192 0 2 0); p_bits := 24 |}; {| p_addr := V4 (ip4 198 18 0 0); p_bits := 15 |};
   {| p_addr := V4 (ip4 198 51 100 0); p_bits := 24 |}; {| p_addr := V4 (ip4 203 0 113 0); p_bits := 24 |};
   {| p_addr := V4 (ip4 224 0 0 0); p_bits := 4 |}; {| p_addr := V4 (ip4 240 0 0 0); p_bits := 4 |};
   {| p_addr := V6 (Z.shiftl (Z.shiftl 8193 16 + 3512) 96) []; p_bits := 32 |}].

Definition publicIP (ip : Addr) : bool :=
  let ip := Unmap ip in
  if negb (IsGlobalUnicast ip) || IsPrivate ip || IsLoopback ip || IsLinkLocalUnicast ip then false
  else negb (existsb (fun prefix => Contains prefix ip) nonpublicRanges).

(** ** Settings and destinations *)

Definition maxAttempts : nat := 3.
Definition maxConfigBytes : Z := 2 ^ 20.

(** [settingsv1.Settings] *)
Record Settings := { s_url : bytes; s_secret : bytes }.
#[export] Instance Settings_eq_dec : EqDecision Settings.
Proof. solve_decision. Defined.

(** [path.Join] of several elements, and [path.Dir]. *)
Definition JoinAll (l : list bytes) : bytes :=
  match filter (fun e => e <> []) l with [] => [] | l => Clean (join_slash l) end.
Definition Dir (p : bytes) : bytes :=
  match rev (split_slash p) with _ :: d => Clean (join_slash (rev ([] :: d))) | [] => dot end.

Definition SettingsPath (repo : bytes) : gores bytes :=
  match Parse repo with
  | Err _ => Err Errorf
  | Ok ref =>
      if negb (bool_decide (Path ref = repo)) || bool_decide (OrgID ref = dot) || bool_decide (OrgID ref = dotdot)
         || bool_decide (Name ref = dot) || bool_decide (Name ref = dotdot) then Err Errorf
      else Ok (JoinAll [bs ".objgit"; bs "webhooks"; OrgID ref; Name ref; bs "settings.json"])
  end.

(** [net/url]: a parsed URL, with [Hostname], [Port] and [String]. *)
Record URL := {
  u_Scheme : bytes; u_Hostname : bytes; u_Port : bytes; u_User : bool; u_Fragment : bytes; u_Opaque : bytes; u_String : bytes }.

(** [strings.ToLower]: its Unicode tables outside ASCII. *)
Class NetText := {
  url_Parse : bytes -> option URL;
  ParseAddr : bytes -> option Addr;
  LookupPort : bytes -> bool;
  LowerRunes : bytes -> bytes;
}.
Definition ToLower `{NetText} (s : bytes) : bytes :=
  if forallb (fun b => bu b <? 128) s then lower_byte <$> s else LowerRunes s.

(** The URL, and whether it is this host. *)
Definition validateURL `{NetText} (raw : bytes) : gores (URL * bool) :=
  match url_Parse raw with
  | None => Err Errorf
  | Some u =>
      if bool_decide (u_Hostname u = []) || u_User u || negb (bool_decide (u_Fragment u = [])) || negb (bool_decide (u_Opaque u = [])) then Err Errorf else
      let host := trim_suffix (ToLower (u_Hostname u)) (bs ".") in
      let ip := ParseAddr host in
      let loopback := bool_decide (host = bs "localhost") || match ip with Some ip => IsLoopback (Unmap ip) | None => false end in
      if negb (bool_decide (u_Scheme u = bs "https")) && negb (bool_decide (u_Scheme u = bs "http") && loopback) then Err Errorf else
      if match ip with Some ip => negb loopback && negb (publicIP ip) | None => false end then Err Errorf else
      if negb (bool_decide (u_Port u = [])) && negb (LookupPort (u_Port u)) then Err Errorf else
      Ok (u, loopback)
  end.

(** ** The outside world *)

(** protojson: the two messages, the settings in two forms. *)
Class ProtoJson := {
  MarshalEvent : PushEvent -> gores bytes;
  MarshalSettings : Settings -> gores bytes;
  MarshalSettingsDefaults : Settings -> gores bytes;    (** [EmitDefaultValues] *)
  UnmarshalSettings : bytes -> gores Settings;
}.

(** go-billy's filesystem on the bucket: a file that is read, one that is written. *)
Class SysFS (W : Type) := {
  rfile : Type;
  wfile : Type;
  sys_Open : bytes -> io W rfile;
  sys_Read : rfile -> Z -> io W bytes;           (** [io.ReadAll(io.LimitReader(f, n))] *)
  sys_MkdirAll : bytes -> io W unit;
  sys_Create : bytes -> io W wfile;
  sys_Write : wfile -> bytes -> io W unit;
  sys_Close : wfile -> io W unit;
}.

(** A request, its header by canonical name. *)
Record HttpRequest := { h_method : bytes; h_url : bytes; h_header : header; h_body : bytes }.

(** net and net/http; [conn] is a connection. *)
Class Network (W : Type) := {
  conn : Type;
  SplitHostPort : bytes -> option (bytes * bytes);
  LookupNetIP : bytes -> io W (list Addr);
  DialIP : Addr -> bytes -> io W conn;            (** [dialer.DialContext] with [JoinHostPort] of both *)
  (** [Do] of a client whose transport dials with the function given, follows no
      redirect and uses no proxy; a status or the error [url.Error] wraps. *)
  ClientDo : (bytes -> io W conn) -> HttpRequest -> io W Z;
  ValidRequest : HttpRequest -> gores unit;       (** [http.NewRequestWithContext] *)
  CtxErr : W -> option goerr;
  Sleep : Z -> io W unit;                         (** a timer of milliseconds, or the context's end *)
}.

Section webhook.
Context `{NetText, UnicodeFold, Sha256, ProtoJson} {W : Type} `{!SysFS W, !Network W}.

(** ** Dialing *)

(** One round of the loop over the resolved addresses; the last error. *)
Fixpoint dial_first (loopback : bool) (port : bytes) (ips : list Addr) (dialErr : option goerr) : io W conn :=
  match ips with
  | [] => fail (match dialErr with Some e => e | None => Errorf end)
  | ip :: ips =>
      if (loopback && negb (IsLoopback (Unmap ip))) || (negb loopback && negb (publicIP ip)) then dial_first loopback port ips dialErr else
      try! r := DialIP ip port in
      match r with Ok c => ret c | Err e => dial_first loopback port ips (Some e) end
  end.

Definition safeDialContext (expectedHost : bytes) (loopback : bool) (address : bytes) : io W conn :=
  match SplitHostPort address with
  | None => fail Errorf
  | Some (host, port) =>
      if negb (EqualFold (trim_suffix host (bs ".")) (trim_suffix expectedHost (bs "."))) then fail Errorf else
      let! ips := wrapping (LookupNetIP host) in
      dial_first loopback port ips None
  end.

(** ** The client *)

Record destination := { d_url : bytes; d_secret : bytes; d_dial : bytes -> io W conn }.
Record Client := { repositories : gmap bytes destination }.

(** [None] is the nil pointer. *)
Definition Enabled (c : option Client) (repo : bytes) : bool :=
  match c with None => false | Some c => bool_decide (is_Some (repositories c !! repo)) end.

(** [fs] is [false] when there is no filesystem. *)
Definition ReadSettings (fs : bool) (repo : bytes) : io W (option Settings) :=
  let! settingsPath := lift (SettingsPath repo) in
  if negb fs then ret None else
  try! r := sys_Open settingsPath in
  match r with
  | Err e => if errors_is e ErrNotExist then ret None else fail (Wrapf e)
  | Ok f =>
      let! data := wrapping (sys_Read f (maxConfigBytes + 1)) in
      if blen data >? maxConfigBytes then fail Errorf else
      let! settings := wrapping (lift (UnmarshalSettings data)) in
      ret (Some settings)
  end.

Definition WriteSettings (fs : bool) (repo : bytes) (settings : Settings) : io W unit :=
  let! settingsPath := lift (SettingsPath repo) in
  if bool_decide (s_secret settings = []) then fail Errorf else
  do! lift (match validateURL (s_url settings) with Ok _ => Ok tt | Err e => Err e end) in
  let! body := wrapping (lift (MarshalSettings settings)) in
  if negb fs then fail Panic else
  try! r := sys_MkdirAll (Dir settingsPath) in
  do! lift (match r with Err e => if errors_is e ErrExist then Ok tt else Err (Wrapf e) | Ok _ => Ok tt end) in
  let! f := wrapping (sys_Create settingsPath) in
  try! r := sys_Write f body in
  match r with
  | Err e => try! _ := sys_Close f in fail (Wrapf e)
  | Ok _ => wrapping (sys_Close f)
  end.

(** The client, if any, with the error [Load] returns beside it. *)
Definition Load (fs : bool) (repo : bytes) : io W (option Client * option goerr) :=
  try! r := ReadSettings fs repo in
  match r with
  | Err e => ret (Some {| repositories := ∅ |}, Some e)
  | Ok None => ret (Some {| repositories := ∅ |}, None)
  | Ok (Some settings) =>
      if bool_decide (s_secret settings = []) then ret (None, Some Errorf) else
      match validateURL (s_url settings) with
      | Err e => ret (None, Some (Wrapf e))
      | Ok (u, loopback) =>
          let dst := {| d_url := u_String u; d_secret := s_secret settings; d_dial := safeDialContext (u_Hostname u) loopback |} in
          ret (Some {| repositories := {[repo := dst]} |}, None)
      end
  end.

(** ** Delivery *)

(** crypto/hmac over SHA-256, whose blocks are 64 bytes. *)
Definition Sum256 (m : bytes) : bytes := match DecodeString (Sha256Hex m) with Ok d => d | Err _ => [] end.
Definition xor_pad (key : bytes) (pad : Z) : bytes := (fun b => bz (Z.lxor (bu b) pad)) <$> key.
Definition hmac (secret m : bytes) : bytes :=
  let key := if blen secret >? 64 then Sum256 secret else secret in
  let key := key ++ replicate (64 - length key) (bz 0) in
  Sum256 (xor_pad key 92 ++ Sum256 (xor_pad key 54 ++ m)).

Definition request_of (d : destination) (body id signature : bytes) : HttpRequest :=
  {| h_method := bs "POST"; h_url := d_url d; h_body := body;
     h_header := <[bs "Content-Type" := [bs "application/json"]]> (<[bs "X-Objgit-Event" := [bs "push"]]>
                 (<[bs "X-Objgit-Delivery" := [id]]> {[bs "X-Objgit-Signature-256" := [signature]]})) |}.

(** Whether to try again, and the error. *)
Definition deliverOnce (d : destination) (body id signature : bytes) : io W (bool * option goerr) :=
  let req := request_of d body id signature in
  match ValidRequest req with
  | Err e => ret (false, Some (Wrapf e))
  | Ok _ =>
      try! r := ClientDo (d_dial d) req in
      match r with
      | Err err =>
          let! over := gets CtxErr in
          match over with Some e => ret (false, Some e) | None => ret (true, Some (Wrapf err)) end
      | Ok code =>
          if (200 <=? code) && (code <? 300) then ret (false, None)
          else ret ((code =? 429) || (500 <=? code), Some Errorf)
      end
  end.

(** [n] rounds are left, [attempt] have been made. *)
Fixpoint attempts (once : io W (bool * option goerr)) (n : nat) (attempt : Z) (lastErr : goerr) : io W unit :=
  match n with
  | O => fail (Wrapf lastErr)
  | S n' =>
      let! over := gets CtxErr in
      match over with
      | Some e => fail (Wrapf e)
      | None =>
          let! (retry, err) := once in
          match err with
          | None => ret tt
          | Some e =>
              if negb retry || (attempt =? Z.of_nat maxAttempts - 1) then fail (Wrapf e) else
              try! r := Sleep (Z.shiftl 100 attempt) in
              match r with Err e => fail (Wrapf e) | Ok _ => attempts once n' (attempt + 1) e end
          end
      end
  end.

Definition Deliver (c : option Client) (repo : bytes) (event : option PushEvent) : io W unit :=
  match c ≫= fun c => repositories c !! repo with
  | None => ret tt
  | Some dst =>
      match event with
      | None => fail Errorf
      | Some event =>
          if bool_decide (ev_event_id event = []) then fail Errorf else
          if negb (bool_decide (ev_repository event = repo)) then fail Errorf else
          let! body := wrapping (lift (MarshalEvent event)) in
          let signature := bs "sha256=" ++ EncodeToString (hmac (d_secret dst) body) in
          attempts (deliverOnce dst body (ev_event_id event) signature) maxAttempts 0 Errorf
      end
  end.

(** ** Events of a push (webhooks.go) *)

(** [crypto/rand]: bytes, or an error. *)
Context (randBytes : nat -> io W bytes).

Definition newEventID : io W bytes := let! id := randBytes 16 in ret (EncodeToString id).

(** [build]: [pushevents.Build] for one update with the identifiers of the push
    and of the event. The result: each event's identifier, and what became of it. *)
Section emit.
Context `{GoGit} (build : Update -> bytes -> bytes -> io W PushEvent).

Definition emit_one (webhooks : option Client) (repo pushID : bytes) (out : list (bytes * gores unit)) (u : Update) : io W (list (bytes * gores unit)) :=
  try! r := newEventID in
  match r with
  | Err _ => ret out
  | Ok eventID =>
      try! status := (let! event := build u pushID eventID in Deliver webhooks repo (Some event)) in
      ret (out ++ [(eventID, status)])
  end.

Definition emitPushWebhooks (webhooks : option Client) (repo : bytes) (updates : list Update) : io W (list (bytes * gores unit)) :=
  if negb (Enabled webhooks repo) || bool_decide (updates = []) then ret [] else
  try! r := newEventID in
  match r with
  | Err _ => ret []
  | Ok pushID => io_fold (emit_one webhooks repo pushID) updates []
  end.
End emit.

(** ** Settings requests (webhook_settings.go) *)

Context (authorize : Request -> Decision).
(** [d.sysFS] is set. *)
Context (sysFS : bool).
(** The flags of objgit-webhook-set: the URL, whether to rotate, the arguments left. *)
Context (ParseFlags : list bytes -> option (bytes * bool * nat)).

(** [NewSecret]; an error of the generator leaves the zero bytes. *)
Definition NewSecret : io W bytes :=
  try! r := randBytes 32 in ret (EncodeToString (match r with Ok b => b | Err _ => replicate 32 (bz 0) end)).

Definition webhookSettingsJSON (ref : RepoRef) : io W (option bytes) :=
  let! settings := ReadSettings sysFS (Path ref) in
  match settings with
  | None => ret None
  | Some s => let! body := lift (MarshalSettingsDefaults s) in ret (Some body)
  end.

Definition admin (transport : bytes) (cred : Credential) (ref : RepoRef) : Decision :=
  authorize {| q_repo := Path ref; q_operation := Admin; q_cred := cred; q_transport := transport |}.

Definition handleHTTPWebhookSettings (org repo : bytes) (basic : option (bytes * bytes)) : io W (refusal + bytes) :=
  match repoRef org repo with
  | inl no => ret (inl no)
  | inr ref =>
      match admin (bs "http") (credFromRequest basic) ref with
      | Unauthenticated => ret (inl (Status 401 true))
      | Deny => ret (inl (Status 403 false))
      | Allow =>
          try! r := webhookSettingsJSON ref in
          ret (match r with
               | Err _ => inl (Status 500 false)
               | Ok None => inl (Status 404 false)
               | Ok (Some body) => inr body
               end)
      end
  end.

Definition key_cred (key : option bytes) : Credential := match key with Some k => PublicKey k | None => Anonymous end.

(** The last lines of both SSH commands. *)
Definition print_settings (r : gores (option bytes)) : refusal + bytes :=
  match r with Ok (Some body) => inr (body ++ [bz 10]) | _ => inl (Exit 1) end.

Definition handleSSHWebhookSettings (repo : bytes) (key : option bytes) : io W (refusal + bytes) :=
  match Parse repo with
  | Err _ => ret (inl (Exit 1))
  | Ok ref =>
      match admin (bs "ssh") (key_cred key) ref with
      | Allow => try! r := webhookSettingsJSON ref in ret (print_settings r)
      | _ => ret (inl (Exit 1))
      end
  end.

(** The settings a change starts from: unreadable ones only when both are replaced. *)
Definition current_settings (ref : RepoRef) (url : bytes) (rotate : bool) : io W (option Settings) :=
  try! r := ReadSettings sysFS (Path ref) in
  match r with
  | Ok (Some s) => ret (Some s)
  | Ok None => ret (Some {| s_url := []; s_secret := [] |})
  | Err _ => if bool_decide (url = []) || negb rotate then ret None else ret (Some {| s_url := []; s_secret := [] |})
  end.

Definition set_settings (ref : RepoRef) (url : bytes) (rotate : bool) : io W (refusal + bytes) :=
  let! current := current_settings ref url rotate in
  match current with
  | None => ret (inl (Exit 1))
  | Some current =>
      let newURL := match url with [] => s_url current | _ => url end in
      if bool_decide (newURL = []) then ret (inl (Exit 1)) else
      let! secret := (if rotate || bool_decide (s_secret current = []) then NewSecret else ret (s_secret current)) in
      try! w := WriteSettings sysFS (Path ref) {| s_url := newURL; s_secret := secret |} in
      match w with
      | Err _ => ret (inl (Exit 1))
      | Ok _ => try! r := webhookSettingsJSON ref in ret (print_settings r)
      end
  end.

Definition handleSSHWebhookSet (args : list bytes) (key : option bytes) : io W (refusal + bytes) :=
  match args with
  | [] => ret (inl (Exit 1))
  | repo :: flags =>
      if has_prefix repo (bs "-") then ret (inl (Exit 1)) else
      match ParseFlags flags with
      | Some (url, rotate, O) =>
          match Parse repo with
          | Err _ => ret (inl (Exit 1))
          | Ok ref =>
              match admin (bs "ssh") (key_cred key) ref with
              | Allow => set_settings ref url rotate
              | _ => ret (inl (Exit 1))
              end
          end
      | _ => ret (inl (Exit 1))
      end
  end.
End webhook.
