(* ===== verification/WebhookSpec.v ===== *)
(** * What webhooks promise (internal/webhook, cmd/objgitd/webhook_settings.go)

    Which addresses are public, stated as address ranges; that deliveries reach
    no others; how an event is delivered; that settings read back as written and
    are an administrator's business. *)

From Stdlib Require Import Btauto ZifyBool.
From S2P Require Import Prelude GoLib S3 Concrete Codec GoText PackedRefs Cue PackTable PackIndex Storer Refs RepoFs Daemon GitObjects PushEvents Webhook.

(** ** Public addresses *)

Definition within_range (a : Z) (r : Z * Z) : bool := (fst r <=? a) && (a <=? snd r).

(** The first and the last address of a block, of which [n] bits are fixed. *)
Definition block4 (a b c d n : Z) : Z * Z := (ip4 a b c d, ip4 a b c d + 2 ^ (32 - n) - 1).
Definition block6 (a b c d n : Z) : Z * Z :=
  let net := (((a * 65536 + b) * 65536 + c) * 65536 + d) * 2 ^ 64 in (net, net + 2 ^ (128 - n) - 1).

(** The addresses that are nobody's on the public internet: the blocks that the
    IANA special-purpose address registries (RFC 6890) do not call globally
    reachable, and the multicast blocks. *)
Definition registry4 : list (Z * Z) :=
  [block4 0 0 0 0 8;          (* this network *)
   block4 10 0 0 0 8;         (* private use *)
   block4 100 64 0 0 10;      (* shared address space *)
   block4 127 0 0 0 8;        (* loopback *)
   block4 169 254 0 0 16;     (* link local *)
   block4 172 16 0 0 12;      (* private use *)
   block4 192 0 0 0 24;       (* IETF protocol assignments *)
   block4 192 0 2 0 24;       (* documentation *)
   block4 192 168 0 0 16;     (* private use *)
   block4 198 18 0 0 15;      (* benchmarking *)
   block4 198 51 100 0 24;    (* documentation *)
   block4 203 0 113 0 24;     (* documentation *)
   block4 224 0 0 0 4;        (* multicast *)
   block4 240 0 0 0 4;        (* reserved *)
   block4 255 255 255 255 32  (* limited broadcast *)].
Definition registry6 : list (Z * Z) :=
  [(0, 0);                    (* unspecified *)
   (1, 1);                    (* loopback *)
   block6 100 65435 1 0 48;   (* 64:ff9b:1::/48, local-use translation *)
   block6 256 0 0 0 64;       (* 100::/64, discard only *)
   block6 256 0 0 1 64;       (* 100:0:0:1::/64, dummy prefix *)
   block6 8193 0 0 0 23;      (* 2001::/23, IETF protocol assignments *)
   block6 8193 3512 0 0 32;   (* 2001:db8::/32, documentation *)
   block6 16383 0 0 0 20;     (* 3fff::/20, documentation *)
   block6 24320 0 0 0 16;     (* 5f00::/16, segment routing *)
   block6 64512 0 0 0 7;      (* fc00::/7, unique local *)
   block6 65152 0 0 0 10;     (* fe80::/10, link local *)
   block6 65280 0 0 0 8       (* ff00::/8, multicast *)].
Definition reserved (ip : Addr) : bool :=
  match Unmap ip with V4 a => existsb (within_range a) registry4 | V6 a _ => existsb (within_range a) registry6 end.

(** What the check lets through all the same: this network but for its first
    address, six blocks of IPv6, and of addresses with a zone the unspecified
    one and the documentation block, which it compares with the zone. *)
Definition gaps6 : list (Z * Z) :=
  [block6 100 65435 1 0 48; block6 256 0 0 0 64; block6 256 0 0 1 64; block6 8193 0 0 0 23; block6 16383 0 0 0 20; block6 24320 0 0 0 16].
Definition zone_gaps : list (Z * Z) := [(0, 0); block6 8193 3512 0 0 32].
Definition let_through (ip : Addr) : bool :=
  match Unmap ip with
  | V4 a => within_range a (ip4 0 0 0 1, ip4 0 255 255 255)
  | V6 a zone => existsb (within_range a) gaps6 || (negb (bool_decide (zone = [])) && existsb (within_range a) zone_gaps)
  end.

(** The ranges of [publicIP], with their ends. *)
Definition ranges4 : list (Z * Z) :=
  [(ip4 0 0 0 0, ip4 0 0 0 0); (ip4 10 0 0 0, ip4 10 255 255 255); (ip4 100 64 0 0, ip4 100 127 255 255);
   (ip4 127 0 0 0, ip4 127 255 255 255); (ip4 169 254 0 0, ip4 169 254 255 255); (ip4 172 16 0 0, ip4 172 31 255 255);
   (ip4 192 0 0 0, ip4 192 0 0 255); (ip4 192 0 2 0, ip4 192 0 2 255); (ip4 192 168 0 0, ip4 192 168 255 255);
   (ip4 198 18 0 0, ip4 198 19 255 255); (ip4 198 51 100 0, ip4 198 51 100 255); (ip4 203 0 113 0, ip4 203 0 113 255);
   (ip4 224 0 0 0, ip4 255 255 255 255)].
(** The loopback, fc00::/7, fe80::/10 and ff00::/8; without a zone also the
    unspecified address and 2001:db8::/32. *)
Definition ranges_zoned : list (Z * Z) :=
  [(1, 1); (252 * 2 ^ 120, 254 * 2 ^ 120 - 1); (65152 * 2 ^ 112, 65216 * 2 ^ 112 - 1); (255 * 2 ^ 120, 256 * 2 ^ 120 - 1)].
Definition ranges6 : list (Z * Z) :=
  [(0, 1); (252 * 2 ^ 120, 254 * 2 ^ 120 - 1); (65152 * 2 ^ 112, 65216 * 2 ^ 112 - 1); (255 * 2 ^ 120, 256 * 2 ^ 120 - 1);
   ((8193 * 65536 + 3512) * 2 ^ 96, (8193 * 65536 + 3513) * 2 ^ 96 - 1)].

(** An address of its width. *)
Definition valid_addr (ip : Addr) : Prop := match ip with V4 a => 0 <= a < 2 ^ 32 | V6 a _ => 0 <= a < 2 ^ 128 end.

Lemma unmap_valid ip : valid_addr ip -> valid_addr (Unmap ip) /\ Unmap (Unmap ip) = Unmap ip.
Proof.
  destruct ip as [a|a z]; [done|]. cbn. intros Ha. destruct (Z.shiftr a 32 =? 65535) eqn:E; cbn; [|by rewrite E].
  split; [|done]. rewrite Z.land_ones by lia. apply Z.mod_pos_bound. lia.
Qed.

(** An address with a zone is not the unspecified address and lies in no prefix,
    so the zone lets [::] and the documentation range through. *)
Example zoned_unspecified_is_public :
  publicIP (V6 0 (bs "eth0")) = true /\ publicIP (V6 0 []) = false /\
  publicIP (V6 (Z.shiftl (8193 * 65536 + 3512) 96 + 1) (bs "eth0")) = true.
Proof. by vm_compute. Qed.

(** Prefixes and masks as divisions. *)
Lemma shiftr_div a k : 0 <= k -> Z.shiftr a k = a / 2 ^ k.
Proof. apply Z.shiftr_div_pow2. Qed.
Lemma prefix_div a b k : 0 <= k -> (Z.shiftr (Z.lxor a b) k =? 0) = (a / 2 ^ k =? b / 2 ^ k).
Proof.
  intros Hk. rewrite Z.shiftr_lxor, !shiftr_div by done. apply eq_iff_eq_true. rewrite !Z.eqb_eq. apply Z.lxor_eq_0_iff.
Qed.

(** A mask of [j] ones above [k] zeros. *)
Lemma land_mask x k j c m v : 0 <= k -> 0 <= j -> m = Z.shiftl (Z.ones j) k -> v = Z.shiftl c k ->
  (Z.land x m =? v) = ((x / 2 ^ k) mod 2 ^ j =? c).
Proof.
  intros Hk Hj -> ->. assert (Hl : Z.land x (Z.shiftl (Z.ones j) k) = Z.shiftl (Z.land (Z.shiftr x k) (Z.ones j)) k).
  { apply Z.bits_inj'. intros n Hn. rewrite Z.land_spec, !Z.shiftl_spec by done. destruct (Z.ltb_spec n k).
    - rewrite !(Z.testbit_neg_r _ (n - k)) by lia. by rewrite andb_false_r.
    - rewrite Z.land_spec, Z.shiftr_spec by lia. by replace (n - k + k) with n by lia. }
  rewrite Hl, Z.land_ones, shiftr_div by done. apply eq_iff_eq_true. rewrite !Z.eqb_eq, !Z.shiftl_mul_pow2 by done.
  pose proof (Z.pow_pos_nonneg 2 k ltac:(lia) Hk). nia.
Qed.
Lemma mask_high x : 0 <= x < 256 -> (Z.land x 240 =? 224) = (x / 16 =? 14).
Proof. intros Hx. rewrite (land_mask x 4 4 14 240 224) by done. change (2 ^ 4) with 16. by rewrite (Z.mod_small (x / 16) 16) by (Z.to_euclidean_division_equations; lia). Qed.
Lemma mask_172 x : (x / 256 =? 172) && (Z.land x 240 =? 16) = (x / 16 =? 2753).
Proof. rewrite (land_mask x 4 4 1 240 16) by done. change (2 ^ 4) with 16. apply eq_iff_eq_true. rewrite andb_true_iff, !Z.eqb_eq. Z.to_euclidean_division_equations. lia. Qed.
Lemma mask_unique_local x : 0 <= x < 256 -> (Z.land x 254 =? 252) = (x / 2 =? 126).
Proof. intros Hx. rewrite (land_mask x 1 7 126 254 252) by done. change (2 ^ 1) with 2. change (2 ^ 7) with 128. by rewrite (Z.mod_small (x / 2) 128) by (Z.to_euclidean_division_equations; lia). Qed.
Lemma mask_link_local x : 0 <= x < 65536 -> (Z.land x 65472 =? 65152) = (x / 64 =? 1018).
Proof. intros Hx. rewrite (land_mask x 6 10 1018 65472 65152) by done. change (2 ^ 6) with 64. change (2 ^ 10) with 1024. by rewrite (Z.mod_small (x / 64) 1024) by (Z.to_euclidean_division_equations; lia). Qed.

Lemma div_bound a n k : 0 <= a < 2 ^ n -> 0 <= k <= n -> 0 <= a / 2 ^ k < 2 ^ (n - k).
Proof.
  intros Ha Hk. split; [apply Z.div_pos; lia|]. apply Z.div_lt_upper_bound; [lia|]. rewrite <-Z.pow_add_r by lia. by replace (k + (n - k)) with n by lia; apply Ha.
Qed.
Lemma div_range a k c : 0 <= k -> (a / 2 ^ k =? c) = within_range a (c * 2 ^ k, (c + 1) * 2 ^ k - 1).
Proof.
  intros Hk. pose proof (Z.pow_pos_nonneg 2 k ltac:(lia) Hk). apply eq_iff_eq_true. unfold within_range. cbn [fst snd].
  rewrite Z.eqb_eq, andb_true_iff, !Z.leb_le. pose proof (Z.div_mod a (2 ^ k) ltac:(lia)). pose proof (Z.mod_pos_bound a (2 ^ k) ltac:(lia)).
  split; [intros; subst c; nia|]. intros. symmetry. apply (Z.div_unique_pos _ _ _ (a - c * 2 ^ k)); lia.
Qed.
Lemma eqb_range a c : (a =? c) = within_range a (c, c).
Proof. apply eq_iff_eq_true. unfold within_range. cbn [fst snd]. rewrite Z.eqb_eq, andb_true_iff, !Z.leb_le. lia. Qed.

Lemma range_split a lo mid hi : lo <= mid + 1 -> mid <= hi -> within_range a (lo, hi) = within_range a (lo, mid) || within_range a (mid + 1, hi).
Proof. intros H1 H2. apply eq_iff_eq_true. unfold within_range. cbn [fst snd]. rewrite orb_true_iff, !andb_true_iff, !Z.leb_le. lia. Qed.

(** The bounds of all ranges as numerals. *)
#[local] Ltac range_numerals a :=
  repeat match goal with |- context [within_range a (?x, ?y)] =>
    let x' := eval vm_compute in x in let y' := eval vm_compute in y in progress change (within_range a (x, y)) with (within_range a (x', y')) end.

(** [publicIP] on an address that is not an IPv4 address in IPv6 form. *)
Lemma public_v4 a : 0 <= a < 2 ^ 32 -> publicIP (V4 a) = negb (existsb (within_range a) ranges4).
Proof.
  intros Ha. pose proof (div_bound a 32 24 Ha ltac:(lia)) as H24. change (2 ^ (32 - 24)) with 256 in H24.
  unfold publicIP, IsGlobalUnicast, IsPrivate, IsLoopback, IsMulticast, IsLinkLocalUnicast. cbn [Unmap].
  unfold nonpublicRanges, Contains, ranges4. cbn [existsb p_addr p_bits].
  rewrite !prefix_div, !shiftr_div by lia. rewrite mask_high by done.
  assert (E172 : (a / 2 ^ 24 =? 172) && (Z.land (a / 2 ^ 16) 240 =? 16) = (a / 2 ^ 20 =? 2753)).
  { change (2 ^ 24) with (2 ^ 16 * 256). change (2 ^ 20) with (2 ^ 16 * 16). rewrite <-!Z.div_div by lia. apply mask_172. }
  rewrite E172. rewrite (Z.div_div a (2 ^ 24) 16) by lia. change (2 ^ 24 * 16) with (2 ^ 28).
  rewrite !div_range, !eqb_range by lia. range_numerals a.
  rewrite (range_split a 3758096384 4026531839 4294967295) by lia. change (4026531839 + 1) with 4026531840.
  destruct (within_range a (4294967295, 4294967295)) eqn:Emax; [|btauto].
  assert (a = 4294967295) as -> by (unfold within_range in Emax; cbn in Emax; b2p; lia). by vm_compute.
Qed.

Lemma public_v6 a : 0 <= a < 2 ^ 128 -> Unmap (V6 a []) = V6 a [] -> publicIP (V6 a []) = negb (existsb (within_range a) ranges6).
Proof.
  intros Ha Hu. pose proof (div_bound a 128 120 Ha ltac:(lia)) as H120. pose proof (div_bound a 128 112 Ha ltac:(lia)) as H112.
  change (2 ^ (128 - 120)) with 256 in H120. change (2 ^ (128 - 112)) with 65536 in H112.
  unfold publicIP, IsGlobalUnicast, IsPrivate, IsLoopback, IsMulticast, IsLinkLocalUnicast. rewrite !Hu.
  unfold nonpublicRanges, Contains, ranges6. cbn [existsb p_addr p_bits].
  assert (E0 : bool_decide (V6 a [] = V6 0 []) = (a =? 0)) by (apply eq_iff_eq_true; rewrite bool_decide_eq_true, Z.eqb_eq; split; [by intros [= ->]|by intros ->]).
  rewrite E0, !prefix_div, !shiftr_div by lia. rewrite mask_unique_local, mask_link_local by done.
  rewrite (Z.div_div a (2 ^ 120) 2), (Z.div_div a (2 ^ 112) 64) by lia. change (2 ^ 120 * 2) with (2 ^ 121). change (2 ^ 112 * 64) with (2 ^ 118).
  rewrite !div_range, !eqb_range by lia. range_numerals a.
  rewrite (range_split a 0 0 1) by lia. change (0 + 1) with 1. btauto.
Qed.

Lemma public_zoned a z : 0 <= a < 2 ^ 128 -> z <> [] -> Unmap (V6 a z) = V6 a z -> publicIP (V6 a z) = negb (existsb (within_range a) ranges_zoned).
Proof.
  intros Ha Hz Hu. pose proof (div_bound a 128 120 Ha ltac:(lia)) as H120. pose proof (div_bound a 128 112 Ha ltac:(lia)) as H112.
  change (2 ^ (128 - 120)) with 256 in H120. change (2 ^ (128 - 112)) with 65536 in H112.
  unfold publicIP, IsGlobalUnicast, IsPrivate, IsLoopback, IsMulticast, IsLinkLocalUnicast. rewrite !Hu.
  unfold nonpublicRanges, Contains, ranges_zoned. cbn [existsb p_addr p_bits]. rewrite bool_decide_false by (by intros [= _ ->]).
  destruct z as [|x z]; [done|]. rewrite !shiftr_div by lia. rewrite mask_unique_local, mask_link_local by done.
  rewrite (Z.div_div a (2 ^ 120) 2), (Z.div_div a (2 ^ 112) 64) by lia. change (2 ^ 120 * 2) with (2 ^ 121). change (2 ^ 112 * 64) with (2 ^ 118).
  rewrite !div_range, !eqb_range by lia. range_numerals a. btauto.
Qed.

#[local] Ltac list_numerals l := let l' := eval vm_compute in l in change l with l'.
#[local] Ltac ranges_lia := unfold within_range; cbn [existsb fst snd negb andb]; apply eq_iff_eq_true; lia.

(** The check lets through what is not reserved, and the gaps. *)
Lemma public_spec ip : valid_addr ip -> publicIP ip = negb (reserved ip) || let_through ip.
Proof.
  intros Hv. destruct (unmap_valid ip Hv) as (Hv' & Hu).
  assert (Hp : publicIP ip = publicIP (Unmap ip)) by (unfold publicIP; by rewrite Hu). rewrite Hp. unfold reserved, let_through.
  destruct (Unmap ip) as [a|a z] eqn:E; cbn in Hv'.
  - rewrite public_v4 by done. list_numerals ranges4. list_numerals registry4.
    change (ip4 0 0 0 1, ip4 0 255 255 255) with (1, 16777215). ranges_lia.
  - list_numerals registry6. list_numerals gaps6. list_numerals zone_gaps. destruct (decide (z = [])) as [->|Hz].
    + rewrite public_v6, bool_decide_true by done. list_numerals ranges6. ranges_lia.
    + rewrite public_zoned, bool_decide_false by done. list_numerals ranges_zoned. ranges_lia.
Qed.

(** Addresses of the gaps, each of which is let through. *)
Example gaps_are_let_through : forallb (fun ip => publicIP ip && reserved ip)
  [V4 (ip4 0 1 2 3); V6 (fst (block6 100 65435 1 0 48)) []; V6 (fst (block6 256 0 0 0 64)) []; V6 (fst (block6 8193 2 0 0 48)) [];
   V6 (fst (block6 16383 0 0 0 20)) []; V6 (fst (block6 24320 0 0 0 16)) []; V6 0 (bs "eth0"); V6 (fst (block6 8193 3512 0 0 32)) (bs "eth0")] = true.
Proof. by vm_compute. Qed.

(** ** The network *)

Definition reply := gores Z.
(** A dial: the address and the port. *)
Definition dial : Type := Addr * bytes.

(** What the outside world records: addresses connected to, requests made with
    what came of them. A request connects only by the function its client dials with. *)
Class NetLaws {W} `(Network W) (dialed : W -> list dial) (sent : W -> list (HttpRequest * reply)) := {
  DialIP_log ip port w : dialed (snd (DialIP ip port w)) = dialed w ++ [(ip, port)] /\ sent (snd (DialIP ip port w)) = sent w;
  LookupNetIP_log host w : dialed (snd (LookupNetIP host w)) = dialed w /\ sent (snd (LookupNetIP host w)) = sent w;
  Sleep_log n w : dialed (snd (Sleep n w)) = dialed w /\ sent (snd (Sleep n w)) = sent w;
  ClientDo_sent d req w : sent (snd (ClientDo d req w)) = sent w ++ [(req, fst (ClientDo d req w))];
  ClientDo_dialed d req w (allowed : dial -> Prop) :
    (forall address w, exists l, dialed (snd (d address w)) = dialed w ++ l /\ Forall allowed l) ->
    exists l, dialed (snd (ClientDo d req w)) = dialed w ++ l /\ Forall allowed l;
}.

Section delivery.
Context `{NetText, UnicodeFold, Sha256, ProtoJson} {W : Type} `{!SysFS W, !Network W}.
Context (dialed : W -> list dial) (sent : W -> list (HttpRequest * reply)) `{!NetLaws _ dialed sent}.

(** [m] connects to allowed addresses only. *)
Definition dials {A} (allowed : dial -> Prop) (m : io W A) : Prop :=
  forall w, exists l, dialed (snd (m w)) = dialed w ++ l /\ Forall allowed l.

Lemma dials_same {A} allowed (m : io W A) : (forall w, dialed (snd (m w)) = dialed w) -> dials allowed m.
Proof. intros Hm w. exists []. by rewrite app_nil_r. Qed.
Lemma dials_ret {A} allowed (a : A) : dials allowed (ret a).
Proof. by apply dials_same. Qed.
Lemma dials_fail {A} allowed e : dials allowed (@fail W A e).
Proof. by apply dials_same. Qed.
Lemma dials_lift {A} allowed (r : gores A) : dials allowed (lift r).
Proof. by apply dials_same. Qed.
Lemma dials_gets {A} allowed (f : W -> A) : dials allowed (gets f).
Proof. by apply dials_same. Qed.
Lemma dials_bind {A B} allowed (m : io W A) (k : A -> io W B) : dials allowed m -> (forall a, dials allowed (k a)) -> dials allowed (io_bind m k).
Proof.
  intros Hm Hk w. unfold io_bind. destruct (Hm w) as (l & Hl & Ha). destruct (m w) as [[a|e] w1]; cbn in *; [|by exists l].
  destruct (Hk a w1) as (l2 & Hl2 & Ha2). exists (l ++ l2). rewrite Hl2, Hl, app_assoc. split; [done|]. by apply Forall_app.
Qed.
Lemma dials_attempt {A} allowed (m : io W A) : dials allowed m -> dials allowed (attempt m).
Proof. intros Hm w. unfold attempt. destruct (Hm w) as (l & Hl & Ha). destruct (m w) as [r w1]. by exists l. Qed.
Lemma dials_wrapping {A} allowed (m : io W A) : dials allowed m -> dials allowed (wrapping m).
Proof. intros Hm w. unfold wrapping. destruct (Hm w) as (l & Hl & Ha). destruct (m w) as [[a|e] w1]; by exists l. Qed.

(** ** Connections *)

(** The addresses of a destination: this host, or public ones. *)
Definition reachable_at (loopback : bool) (d : dial) : Prop :=
  if loopback then IsLoopback (Unmap (fst d)) = true else publicIP (fst d) = true.

Lemma dial_first_allowed loopback port ips dialErr : dials (reachable_at loopback) (dial_first loopback port ips dialErr).
Proof.
  revert dialErr. induction ips as [|ip ips IH]; intros dialErr; cbn [dial_first]; [apply dials_fail|].
  destruct (_ || _) eqn:E; [apply IH|]. apply orb_false_iff in E as [E1 E2].
  apply dials_bind; [apply dials_attempt|intros [c|e]; [apply dials_ret|apply IH]].
  intros w. exists [(ip, port)]. rewrite (proj1 (DialIP_log ip port w)). split; [done|]. constructor; [|done]. unfold reachable_at. cbn [fst].
  destruct loopback; [by apply negb_false_iff in E1|by apply negb_false_iff in E2].
Qed.

Lemma safeDialContext_allowed host loopback address : dials (reachable_at loopback) (safeDialContext host loopback address).
Proof.
  unfold safeDialContext. destruct (SplitHostPort address) as [[h p]|]; [|apply dials_fail]. destruct (negb _); [apply dials_fail|].
  apply dials_bind; [|intros ips; apply dial_first_allowed]. apply dials_wrapping, dials_same. intros w. apply LookupNetIP_log.
Qed.

Lemma deliverOnce_allowed allowed d body id sig : (forall address, dials allowed (d_dial d address)) -> dials allowed (deliverOnce d body id sig).
Proof.
  intros Hd. unfold deliverOnce. destruct (ValidRequest _); [|apply dials_ret].
  apply dials_bind; [apply dials_attempt; intros w; apply ClientDo_dialed; apply Hd|]. intros [code|e].
  - destruct (_ && _); apply dials_ret.
  - apply dials_bind; [apply dials_gets|]. intros [e'|]; apply dials_ret.
Qed.

Lemma attempts_allowed allowed once n : dials allowed once -> forall attempt lastErr, dials allowed (attempts once n attempt lastErr).
Proof.
  intros Ho. induction n as [|n IH]; intros attempt lastErr; cbn [attempts]; [apply dials_fail|].
  apply dials_bind; [apply dials_gets|]. intros [e|]; [apply dials_fail|]. apply dials_bind; [done|]. intros [retry [e|]]; [|apply dials_ret].
  destruct (_ || _); [apply dials_fail|]. apply dials_bind; [apply dials_attempt, dials_same; intros w; apply Sleep_log|].
  intros [_|e']; [apply IH|apply dials_fail].
Qed.

(** ** Attempts *)

Definition succeeded (r : reply) : Prop := exists code, r = Ok code /\ 200 <= code < 300.
Definition retryable (r : reply) : Prop := match r with Err _ => True | Ok code => code = 429 \/ 500 <= code end.

(** What a delivery may send: a request again and again while the reply asks for
    it; it counts as delivered when the last reply is a success. *)
Inductive delivery (req : HttpRequest) : list (HttpRequest * reply) -> bool -> Prop :=
  | delivery_over : delivery req [] false
  | delivery_last rp ok : (ok = true <-> succeeded rp) -> delivery req [(req, rp)] ok
  | delivery_retry rp rest ok : retryable rp -> delivery req rest ok -> delivery req ((req, rp) :: rest) ok.

Definition ok_bit (r : gores unit) : bool := match r with Ok _ => true | Err _ => false end.
Lemma ok_bit_true r : ok_bit r = true <-> r = Ok tt.
Proof. by destruct r as [[]|]. Qed.

Lemma succeeded_bool code : (200 <=? code) && (code <? 300) = true <-> succeeded (Ok code).
Proof. unfold succeeded. rewrite andb_true_iff, Z.leb_le, Z.ltb_lt. split; [by eauto|]. by intros (c & [= <-] & ?). Qed.

Lemma deliverOnce_trace d body id sig w : let req := request_of d body id sig in
  exists retry err w', deliverOnce d body id sig w = (Ok (retry, err), w') /\
  ((exists e, ValidRequest req = Err e /\ w' = w /\ retry = false /\ err <> None) \/
   (exists rp, ValidRequest req = Ok tt /\ sent w' = sent w ++ [(req, rp)] /\ (err = None <-> succeeded rp) /\ (retry = true -> retryable rp) /\
      ((forall w, CtxErr w = None) -> retry = false -> ~ retryable rp))).
Proof.
  intros req. unfold deliverOnce. fold req. destruct (ValidRequest req) as [[]|e] eqn:Ev; [|by eexists _, _, w; split; [reflexivity|]; left; eexists].
  unfold io_bind, attempt. pose proof (ClientDo_sent (sent := sent) (d_dial d) req w) as Hsent.
  destruct (ClientDo (d_dial d) req w) as [rp w1]. cbn in Hsent. destruct rp as [code|e]; cbn.
  - destruct (_ && _) eqn:Ec; (do 3 eexists; split; [reflexivity|]; right; exists (Ok code); split; [done|]; split; [exact Hsent|]).
    + rewrite <-succeeded_bool, Ec. split; [done|]. split; [done|]. intros _ _ Hr. cbn in Hr. b2p. lia.
    + rewrite <-succeeded_bool, Ec. split; [done|]. cbn. rewrite orb_true_iff, Z.eqb_eq, Z.leb_le. split; [done|].
      intros _ Hn%orb_false_iff Hr. b2p. lia.
  - destruct (CtxErr w1) eqn:Ex; (do 3 eexists; split; [reflexivity|]; right; exists (Err e); split; [done|]; split; [exact Hsent|]; split; [|split; [done|]]).
    + split; [done|]. by intros (? & [=] & _).
    + intros Hn. by rewrite Hn in Ex.
    + split; [done|]. by intros (? & [=] & _).
    + done.
Qed.

Lemma attempts_trace d body id sig n made lastErr w r w' : Z.of_nat n + made = Z.of_nat maxAttempts ->
  attempts (deliverOnce d body id sig) n made lastErr w = (r, w') ->
  exists tr, sent w' = sent w ++ tr /\ (length tr <= n)%nat /\ delivery (request_of d body id sig) tr (ok_bit r) /\
  ((forall w, CtxErr w = None) -> (forall n w, exists w', Sleep n w = (Ok tt, w')) -> ValidRequest (request_of d body id sig) = Ok tt ->
   r <> Ok tt -> length tr = n \/ exists rp, last tr = Some rp /\ ~ retryable (snd rp)).
Proof.
  set (req := request_of d body id sig). revert made lastErr w. induction n as [|n IH]; intros made lastErr w Hn; cbn [attempts].
  { intros [= <- <-]. exists []. rewrite app_nil_r. split; [done|]. split; [done|]. split; [constructor|]. by left. }
  unfold io_bind, gets. destruct (CtxErr w) as [e|] eqn:Ex.
  { intros [= <- <-]. exists []. rewrite app_nil_r. split; [done|]. split; [cbn; lia|]. split; [constructor|]. intros Hc. by rewrite Hc in Ex. }
  destruct (deliverOnce_trace d body id sig w) as (retry & err & w1 & -> & [(e & Hv & -> & -> & He)|(rp & Hv & Hsent & Herr & Hretry & Hfinal)]); fold req in Hv.
  { destruct err as [e1|]; [|done]. cbn. intros [= <- <-]. exists []. rewrite app_nil_r. split; [done|]. split; [cbn; lia|]. split; [constructor|]. intros _ _ Hv'. congruence. }
  fold req in Hsent. assert (Hstop : forall r, (r = Ok tt <-> succeeded rp) -> (n = O \/ ((forall w, CtxErr w = None) -> ~ retryable rp) \/ r = Ok tt) -> exists tr, sent w1 = sent w ++ tr /\ (length tr <= S n)%nat /\
    delivery req tr (ok_bit r) /\ ((forall w, CtxErr w = None) -> (forall n w, exists w', Sleep n w = (Ok tt, w')) -> ValidRequest req = Ok tt ->
     r <> Ok tt -> length tr = S n \/ exists rp, last tr = Some rp /\ ~ retryable (snd rp))).
  { intros r0 Hr0 Hlast. exists [(req, rp)]. split; [done|]. split; [cbn; lia|]. split; [constructor; by rewrite ok_bit_true|].
    intros Hc _ _ Hne. destruct Hlast as [->|[Hl|Hl]]; [by left|right|done]. exists (req, rp). split; [done|]. by apply Hl. }
  destruct err as [e1|]; [|intros [= <- <-]; apply Hstop; [by rewrite <-Herr|by right; right]].
  assert (Hfail : forall e : goerr, Err e = Ok tt <-> succeeded rp) by (intros e; rewrite <-Herr; done).
  destruct (negb retry || _) eqn:Eb.
  { intros [= <- <-]. apply Hstop; [apply Hfail|]. apply orb_true_iff in Eb as [Eb|Eb]; [right; left; intros Hc; apply Hfinal; [done|by apply negb_true_iff]|].
    left. b2p. lia. }
  apply orb_false_iff in Eb as [Eb _]. apply negb_false_iff in Eb. unfold attempt. pose proof (Sleep_log (sent := sent) (Z.shiftl 100 made) w1) as Hsl.
  destruct (Sleep _ w1) as [[[]|es] w2] eqn:Es; cbn in Hsl.
  - intros Hrest. apply IH in Hrest as (tr & Htr & Hlen & Hdel & Hlive); [|lia]. exists ((req, rp) :: tr). rewrite Htr, (proj2 Hsl), Hsent, <-app_assoc.
    split; [done|]. split; [cbn; lia|]. split; [constructor; [by apply Hretry|done]|]. intros Hc Hw Hvr Hne. destruct (Hlive Hc Hw Hvr Hne) as [Hl|(x & Hx & Hnr)].
    + left. cbn. lia.
    + right. exists x. split; [|done]. by destruct tr.
  - intros [= <- <-]. exists [(req, rp)]. rewrite (proj2 Hsl), Hsent. split; [done|]. split; [cbn; lia|]. split; [constructor; [by apply Hretry|constructor]|].
    intros _ Hw. destruct (Hw (Z.shiftl 100 made) w1) as [? ?]. congruence.
Qed.
(** The one request of an event. *)
Definition event_request (dst : destination) (ev : PushEvent) (body : bytes) : HttpRequest :=
  request_of dst body (ev_event_id ev) (bs "sha256=" ++ EncodeToString (hmac (d_secret dst) body)).

(** What a delivery of an event that ended with [r] sent between [w] and [w']. *)
Definition protocol_followed (dst : destination) (repo : bytes) (ev : PushEvent) (w w' : W) (r : gores unit) : Prop :=
  exists tr, sent w' = sent w ++ tr /\ (length tr <= 3)%nat /\ (tr = [] -> r <> Ok tt) /\
  (tr <> [] -> ev_event_id ev <> [] /\ ev_repository ev = repo /\
     exists body, MarshalEvent ev = Ok body /\ delivery (event_request dst ev body) tr (ok_bit r)) /\
  (forall body, ev_event_id ev <> [] -> ev_repository ev = repo -> MarshalEvent ev = Ok body -> ValidRequest (event_request dst ev body) = Ok tt ->
     (forall w, CtxErr w = None) -> (forall n w, exists w', Sleep n w = (Ok tt, w')) -> r <> Ok tt ->
     length tr = 3%nat \/ exists rp, last tr = Some rp /\ ~ retryable (snd rp)).

Lemma nothing_sent dst repo ev w e : ev_event_id ev = [] \/ ev_repository ev <> repo \/ (exists e, MarshalEvent ev = Err e) ->
  protocol_followed dst repo ev w w (Err e).
Proof.
  intros Hbad. exists []. rewrite app_nil_r. split_and!; [done|cbn; lia|done|done|].
  intros body K1 K2 K3. destruct Hbad as [?|[?|[? ?]]]; congruence.
Qed.

(** C39: how an event is delivered. At most three requests are made, all of them
    the same: the event's body under its fixed identifier, signed with the
    repository's secret; one is repeated only after a transport error, a 429 or a
    5xx; delivery succeeds exactly when the last reply is a 2xx. An event of
    another repository, or without an identifier, is not sent at all. While the
    context lives, delivery gives up only after three attempts or a final reply. *)
Theorem delivery_protocol c repo dst ev w r w' :
  repositories c !! repo = Some dst -> Deliver (Some c) repo (Some ev) w = (r, w') -> protocol_followed dst repo ev w w' r.
Proof.
  intros Hd. unfold Deliver. cbn [mbind option_bind]. rewrite Hd.
  case_bool_decide as Eid; [intros [= <- <-]; apply nothing_sent; by left|].
  destruct (negb _) eqn:Erepo; [intros [= <- <-]; apply nothing_sent; right; left; by apply negb_true_iff, bool_decide_eq_false in Erepo|].
  apply negb_false_iff, bool_decide_eq_true in Erepo. unfold io_bind, wrapping, lift. destruct (MarshalEvent ev) as [body|e] eqn:Eb.
  2:{ intros [= <- <-]. apply nothing_sent. eauto. }
  intros Hr. apply attempts_trace in Hr as (tr & Htr & Hlen & Hdel & Hlive); [|done]. fold (event_request dst ev body) in Hdel, Hlive.
  exists tr. split_and!; [done|done| | |].
  - intros ->. inversion Hdel as [Hok| |]. by destruct r as [[]|].
  - intros _. split_and!; [done|done|]. by exists body.
  - intros body' _ _ Hb. rewrite Eb in Hb. injection Hb as <-. intros Hv Hc Hs Hne. by apply Hlive.
Qed.
End delivery.

(** ** Settings *)

Lemma split_join parts : parts <> [] -> Forall plain_part parts -> split_slash (join_slash parts) = parts.
Proof.
  induction parts as [|p ps IH]; [done|]. intros _ [(_ & _ & _ & Hp) Hps]%Forall_cons. destruct ps as [|q ps]; [by apply split_no_slash|].
  change (join_slash (p :: q :: ps)) with (p ++ slash :: join_slash (q :: ps)). by rewrite split_app, IH.
Qed.
Lemma clean_parts_keep rooted parts out : Forall plain_part parts -> clean_parts rooted parts out = rev out ++ parts.
Proof.
  revert out. induction parts as [|p ps IH]; intros out Hp; cbn [clean_parts]; [by rewrite app_nil_r|].
  apply Forall_cons in Hp as [(H1 & H2 & H3 & _) Hps]. rewrite !bool_decide_false by done. cbn [orb]. rewrite IH by done. cbn [rev]. by rewrite <-app_assoc.
Qed.
Lemma Clean_join parts : parts <> [] -> Forall plain_part parts -> Clean (join_slash parts) = join_slash parts.
Proof.
  intros Hne Hp. unfold Clean. destruct parts as [|p ps]; [done|]. assert (Hpp := Hp). apply Forall_cons in Hpp as [(H1 & _ & _ & Hs) _].
  destruct p as [|x p]; [done|]. assert (Hx : bool_decide (x = slash) = false) by (apply bool_decide_false; intros ->; apply Hs; left).
  assert (Hr : (match join_slash ((x :: p) :: ps) with x :: _ => bool_decide (x = slash) | [] => false end) = false) by (by destruct ps).
  rewrite Hr, split_join, clean_parts_keep by done. cbn [rev app]. by destruct ps.
Qed.
Lemma JoinAll_plain parts : parts <> [] -> Forall plain_part parts -> JoinAll parts = join_slash parts.
Proof.
  intros Hne Hp. assert (Hf : filter (fun e => e <> []) parts = parts).
  { clear Hne. induction Hp as [|p ps (Hn & _) _ IH]; [done|]. by rewrite filter_cons_True, IH. }
  unfold JoinAll. rewrite Hf. destruct parts; [done|]. by apply Clean_join.
Qed.

Definition plainb (p : bytes) : bool :=
  negb (bool_decide (p = [])) && negb (bool_decide (p = dot)) && negb (bool_decide (p = dotdot)) && negb (bool_decide (slash ∈ p)).
Lemma plainb_ok p : plainb p = true -> plain_part p.
Proof. unfold plainb. intros Hp. b2p. unfold plain_part. tauto. Qed.

Lemma SettingsPath_ok repo p : SettingsPath repo = Ok p ->
  exists ref, Parse repo = Ok ref /\ Path ref = repo /\ p = bs ".objgit/webhooks/" ++ repo ++ bs "/settings.json".
Proof.
  unfold SettingsPath. destruct (Parse repo) as [ref|] eqn:Ep; [|done]. destruct (_ || _) eqn:E; [done|]. intros [= <-].
  repeat (apply orb_false_iff in E as [E _]). apply negb_false_iff, bool_decide_eq_true in E. exists ref. split_and!; [done|done|].
  destruct (Parse_ok _ _ Ep) as (Ho & Hn & _). rewrite <-E, Path_plain by done. rewrite JoinAll_plain; [|done|].
  - change (bs ".objgit/webhooks/") with (bs ".objgit" ++ slash :: bs "webhooks" ++ [slash]). change (bs "/settings.json") with (slash :: bs "settings.json").
    cbn [join_slash]. rewrite <-!app_assoc. cbn [app]. by rewrite <-!app_assoc.
  - repeat apply Forall_cons_2; try done; apply plainb_ok; by vm_compute.
Qed.

Lemma SettingsPath_inj repo repo' p : SettingsPath repo = Ok p -> SettingsPath repo' = Ok p -> repo = repo'.
Proof.
  intros (r & _ & _ & ->)%SettingsPath_ok (r' & _ & _ & He)%SettingsPath_ok. apply app_inv_head in He. by apply app_inv_tail in He.
Qed.

(** go-billy: what files hold. What is written to a file is its content once it
    is closed; a request touches only the path it is about. *)
Class SysFSLaws {W} `{SysFS W} (content : W -> bytes -> option bytes) (holds : rfile -> bytes -> Prop) (writing : W -> wfile -> bytes -> bytes -> Prop) := {
  Open_ok p w r w' : sys_Open p w = (r, w') -> (forall q, content w' q = content w q) /\
    match r with Ok f => exists d, content w p = Some d /\ holds f d | Err e => errors_is e ErrNotExist = true -> content w p = None end;
  Read_ok f n w r w' : sys_Read f n w = (r, w') -> (forall q, content w' q = content w q) /\
    forall b d, r = Ok b -> holds f d -> b = take (Z.to_nat n) d;
  MkdirAll_ok p w r w' : sys_MkdirAll p w = (r, w') -> forall q, content w' q = content w q;
  Create_ok p w r w' : sys_Create p w = (r, w') -> (forall q, q <> p -> content w' q = content w q) /\
    forall f, r = Ok f -> writing w' f p [];
  Write_ok f b w r w' p d : writing w f p d -> sys_Write f b w = (r, w') -> (forall q, q <> p -> content w' q = content w q) /\
    exists d', writing w' f p d' /\ (r = Ok tt -> d' = d ++ b);
  Close_ok f w r w' p d : writing w f p d -> sys_Close f w = (r, w') -> (forall q, q <> p -> content w' q = content w q) /\
    (r = Ok tt -> content w' p = Some d);
}.
(** protojson reads back what it wrote. *)
Class ProtoLaws `{ProtoJson} := {
  Unmarshal_settings s body : MarshalSettings s = Ok body -> UnmarshalSettings body = Ok s;
}.

Section settings.
Context `{NetText, UnicodeFold, Sha256, ProtoJson, !ProtoLaws} {W : Type} `{!SysFS W, !Network W}.
Context (content : W -> bytes -> option bytes) (holds : rfile -> bytes -> Prop) (writing : W -> wfile -> bytes -> bytes -> Prop).
Context `{!SysFSLaws content holds writing}.

(** The filesystem fails to open the file at this moment, or then to read it. *)
Definition read_failure (p : bytes) (w : W) : Prop :=
  (exists e, fst (sys_Open p w) = Err e /\ errors_is e ErrNotExist = false) \/
  (exists f w1 e, sys_Open p w = (Ok f, w1) /\ fst (sys_Read f (maxConfigBytes + 1) w1) = Err e).

Lemma ReadSettings_spec repo p w r w' : SettingsPath repo = Ok p -> ReadSettings true repo w = (r, w') ->
  (forall q, content w' q = content w q) /\
  match r with
  | Ok None => content w p = None
  | Ok (Some s) => exists d, content w p = Some d /\ blen d <= maxConfigBytes /\ UnmarshalSettings d = Ok s
  | Err _ => read_failure p w \/ exists d, content w p = Some d /\ (blen d > maxConfigBytes \/ exists e, UnmarshalSettings d = Err e)
  end.
Proof.
  intros Hp. unfold ReadSettings. rewrite Hp. unfold io_bind at 1, lift at 1. cbn [negb]. unfold io_bind at 1, attempt.
  destruct (sys_Open p w) as [[f|e] w1] eqn:Eo; pose proof (Open_ok _ _ _ _ Eo) as [Hsame Hr].
  - destruct Hr as (d & Hd & Hf). unfold io_bind at 1, wrapping at 1.
    destruct (sys_Read f (maxConfigBytes + 1) w1) as [[b|e] w2] eqn:Er; pose proof (Read_ok _ _ _ _ _ Er) as [Hsame2 Hb].
    + assert (Hc : forall q, content w2 q = content w q) by (intros q; by rewrite Hsame2, Hsame). rewrite (Hb b d eq_refl Hf).
      assert (Hlen : (blen (take (Z.to_nat (maxConfigBytes + 1)) d) >? maxConfigBytes) = (blen d >? maxConfigBytes)).
      { apply eq_iff_eq_true. rewrite !Z.gtb_lt. unfold blen. rewrite length_take. unfold maxConfigBytes. lia. }
      rewrite Hlen. destruct (blen d >? maxConfigBytes) eqn:El.
      * intros [= <- <-]. split; [done|]. right. exists d. split; [done|]. left. rewrite Z.gtb_lt in El. lia.
      * assert (Hle : blen d <= maxConfigBytes) by (rewrite Z.gtb_ltb, Z.ltb_ge in El; done).
        rewrite take_ge by (unfold blen, maxConfigBytes in *; lia). unfold io_bind, wrapping, lift.
        destruct (UnmarshalSettings d) as [s|e] eqn:Eu; intros [= <- <-]; (split; [done|]); [by exists d|]. right. exists d. eauto.
    + intros [= <- <-]. split; [intros q; by rewrite Hsame2, Hsame|]. left. right. exists f, w1, e. by rewrite Er.
  - destruct (errors_is e ErrNotExist) eqn:En; intros [= <- <-]; (split; [done|]); [by apply Hr|].
    left. left. exists e. by rewrite Eo.
Qed.

Definition written (repo : bytes) (s : Settings) (w w' : W) (r : gores unit) : Prop :=
  (forall q, SettingsPath repo <> Ok q -> content w' q = content w q) /\
  (r = Ok tt -> exists p body, SettingsPath repo = Ok p /\ MarshalSettings s = Ok body /\ content w' p = Some body /\
     s_secret s <> [] /\ exists u, validateURL (s_url s) = Ok u).
Lemma not_written repo s w w' e : (forall q, SettingsPath repo <> Ok q -> content w' q = content w q) -> written repo s w w' (Err e).
Proof. by split. Qed.

Lemma WriteSettings_spec repo s w r w' : WriteSettings true repo s w = (r, w') -> written repo s w w' r.
Proof.
  unfold WriteSettings. destruct (SettingsPath repo) as [p|e] eqn:Ep; unfold io_bind at 1, lift at 1; [|intros [= <- <-]; by apply not_written].
  case_bool_decide as Esec; [intros [= <- <-]; by apply not_written|].
  destruct (validateURL (s_url s)) as [u|] eqn:Ev; unfold io_bind at 1, lift at 1; [|intros [= <- <-]; by apply not_written].
  unfold io_bind at 1, wrapping at 1, lift at 1. destruct (MarshalSettings s) as [body|] eqn:Em; [|intros [= <- <-]; by apply not_written]. cbn [negb].
  unfold io_bind at 1, attempt at 1. destruct (sys_MkdirAll (Dir p) w) as [rm w1] eqn:Emk. pose proof (MkdirAll_ok _ _ _ _ Emk) as Hc1.
  unfold io_bind at 1, lift at 1. destruct (match rm with Ok _ => _ | Err e => _ end) as [_|]; [|intros [= <- <-]; apply not_written; auto].
  unfold io_bind at 1, wrapping at 1. destruct (sys_Create p w1) as [[f|e] w2] eqn:Ec; pose proof (Create_ok _ _ _ _ Ec) as [Hc2 Hf].
  2:{ intros [= <- <-]. apply not_written. intros q Hq. rewrite Hc2 by congruence. apply Hc1. }
  specialize (Hf f eq_refl). unfold io_bind at 1, attempt at 1. destruct (sys_Write f body w2) as [rw w3] eqn:Ew.
  destruct (Write_ok _ _ _ _ _ _ _ Hf Ew) as (Hc3 & d & Hf3 & Hd).
  assert (Hc : forall q, q <> p -> content w3 q = content w q) by (intros q Hq; by rewrite Hc3, Hc2, Hc1).
  destruct rw as [[]|e].
  - unfold wrapping. destruct (sys_Close f w3) as [[[]|e] w4] eqn:Ecl; destruct (Close_ok _ _ _ _ _ _ Hf3 Ecl) as [Hc4 Hok]; intros [= <- <-].
    + split; [intros q Hq; rewrite Hc4 by congruence; apply Hc; congruence|]. intros _. exists p, body. rewrite Hok, (Hd eq_refl) by done. cbn [app]. eauto 10.
    + apply not_written. intros q Hq. rewrite Hc4 by congruence. apply Hc. congruence.
  - unfold io_bind, attempt, fail. destruct (sys_Close f w3) as [rc w4] eqn:Ecl. destruct (Close_ok _ _ _ _ _ _ Hf3 Ecl) as [Hc4 _]. intros [= <- <-].
    apply not_written. intros q Hq. rewrite Hc4 by congruence. apply Hc. congruence.
Qed.

(** Settings read back as they were written. Writing a repository's settings
    touches only its own file, which no other repository shares; once it has
    succeeded the settings are valid, and reading them gives them back unless the
    filesystem fails or they are longer than what is read (1 MiB), and then the
    repository's next push delivers. *)
Theorem settings_roundtrip repo s w r w' : WriteSettings true repo s w = (r, w') ->
  (forall repo' p, repo' <> repo -> SettingsPath repo' = Ok p -> content w' p = content w p) /\
  (r = Ok tt -> forall o w2, ReadSettings true repo w' = (o, w2) ->
     match o with
     | Ok o => o = Some s /\ exists c, Load true repo w' = (Ok (Some c, None), w2) /\ Enabled (Some c) repo = true
     | Err _ => (exists p, SettingsPath repo = Ok p /\ read_failure p w') \/ exists body, MarshalSettings s = Ok body /\ blen body > maxConfigBytes
     end).
Proof.
  intros (Hother & Hok)%WriteSettings_spec. split.
  - intros repo' p Hne Hp. apply Hother. intros Hp'. by apply Hne, (SettingsPath_inj _ _ p).
  - intros Hr o w2 Hread. destruct (Hok Hr) as (p & body & Hp & Hm & Hc & Hs & u & Hu). destruct (ReadSettings_spec _ _ _ _ _ Hp Hread) as [_ Ho].
    destruct o as [[s'|]|e].
    + destruct Ho as (d & Hd & _ & Hun). rewrite Hc in Hd. injection Hd as <-. rewrite (Unmarshal_settings _ _ Hm) in Hun. injection Hun as <-.
      split; [done|]. unfold Load, io_bind, attempt. rewrite Hread. rewrite bool_decide_false by done. rewrite Hu. destruct u as [u lo]. eexists. split; [reflexivity|].
      unfold Enabled. cbn [repositories]. rewrite lookup_singleton_eq. by apply bool_decide_true.
    + congruence.
    + destruct Ho as [?|(d & Hd & [Hl|[e' He]])]; [left; by exists p|right; exists body; split; [done|congruence]|]. rewrite Hc in Hd. injection Hd as <-.
      rewrite (Unmarshal_settings _ _ Hm) in He. done.
Qed.
(** ** Requests for settings *)

Context (randBytes : nat -> io W bytes) (authorize : Request -> Decision) (sysFS : bool) (ParseFlags : list bytes -> option (bytes * bool * nat)).

(** Settings are an administrator's business. A request to see or to change
    a repository's settings, over HTTP or SSH, either was allowed by the
    authorizer as an administration of exactly that repository, or it is refused,
    discloses nothing and leaves the world as it was. *)
Theorem settings_need_admin :
  (forall org repo basic w, let '(r, w') := handleHTTPWebhookSettings authorize sysFS org repo basic w in
     (exists ref, repoRef org repo = inr ref /\ admin authorize (bs "http") (credFromRequest basic) ref = Allow) \/ (w' = w /\ exists no, r = Ok (inl no))) /\
  (forall repo key w, let '(r, w') := handleSSHWebhookSettings authorize sysFS repo key w in
     (exists ref, Parse repo = Ok ref /\ admin authorize (bs "ssh") (key_cred key) ref = Allow) \/ (w' = w /\ exists no, r = Ok (inl no))) /\
  (forall args key w, let '(r, w') := handleSSHWebhookSet randBytes authorize sysFS ParseFlags args key w in
     (exists repo flags ref, args = repo :: flags /\ Parse repo = Ok ref /\ admin authorize (bs "ssh") (key_cred key) ref = Allow) \/
     (w' = w /\ exists no, r = Ok (inl no))).
Proof.
  split_and!.
  - intros org repo basic w. destruct (handleHTTPWebhookSettings _ _ _ _ _ _) as [r w'] eqn:E. unfold handleHTTPWebhookSettings in E.
    destruct (repoRef org repo) as [no|ref]; [injection E as <- <-; eauto|]. destruct (admin _ _ _ ref) eqn:Ea; [injection E as <- <-; eauto|by eauto|injection E as <- <-; eauto].
  - intros repo key w. destruct (handleSSHWebhookSettings _ _ _ _ _) as [r w'] eqn:E. unfold handleSSHWebhookSettings in E.
    destruct (Parse repo) as [ref|]; [|injection E as <- <-; eauto]. destruct (admin _ _ _ ref) eqn:Ea; [injection E as <- <-; eauto|by eauto|injection E as <- <-; eauto].
  - intros args key w. destruct (handleSSHWebhookSet _ _ _ _ _ _ _) as [r w'] eqn:E. unfold handleSSHWebhookSet in E.
    destruct args as [|repo flags]; [injection E as <- <-; eauto|]. destruct (has_prefix repo _); [injection E as <- <-; eauto|].
    destruct (ParseFlags flags) as [[[url rotate] [|n]]|]; [|injection E as <- <-; eauto..].
    destruct (Parse repo) as [ref|] eqn:Ep; [|injection E as <- <-; eauto]. destruct (admin _ _ _ ref) eqn:Ea; [injection E as <- <-; eauto|by eauto 10|injection E as <- <-; eauto].
Qed.

(** What a change starts from. *)
Definition starts_from (repo : bytes) (url : bytes) (rotate : bool) (w : W) (cur : Settings) : Prop :=
  match fst (ReadSettings true repo w) with
  | Ok (Some s) => cur = s
  | Ok None => cur = {| s_url := []; s_secret := [] |}
  | Err _ => cur = {| s_url := []; s_secret := [] |} /\ url <> [] /\ rotate = true
  end.

Lemma current_settings_spec ref url rotate w o w' : current_settings true ref url rotate w = (o, w') ->
  w' = snd (ReadSettings true (Path ref) w) /\ match o with Ok (Some cur) => starts_from (Path ref) url rotate w cur | Ok None => True | Err _ => False end.
Proof.
  unfold current_settings, starts_from, io_bind, attempt. destruct (ReadSettings true (Path ref) w) as [[[s|]|e] w1]; cbn [fst snd ret].
  - by intros [= <- <-].
  - by intros [= <- <-].
  - destruct (_ || _) eqn:E; intros [= <- <-]; [done|]. apply orb_false_iff in E as [E1%bool_decide_eq_false E2%negb_false_iff]. done.
Qed.
Context (Hrand : forall n w q, content (snd (randBytes n w)) q = content w q).

Lemma ReadSettings_same repo w r w' q : ReadSettings true repo w = (r, w') -> content w' q = content w q.
Proof.
  intros Hr. destruct (SettingsPath repo) as [p|e] eqn:Ep; [by apply (ReadSettings_spec _ _ _ _ _ Ep Hr)|].
  unfold ReadSettings in Hr. rewrite Ep in Hr. by injection Hr as <- <-.
Qed.

(** What a change stores for a repository, and prints. *)
Definition change_made (ref : RepoRef) (url : bytes) (rotate : bool) (w w' : W) (out : bytes) : Prop :=
  exists cur new p body shown, starts_from (Path ref) url rotate w cur /\
  s_url new = (match url with [] => s_url cur | _ => url end) /\
  (if rotate || bool_decide (s_secret cur = []) then exists b, s_secret new = EncodeToString b else s_secret new = s_secret cur) /\
  (s_secret new <> [] /\ exists u, validateURL (s_url new) = Ok u) /\
  (SettingsPath (Path ref) = Ok p /\ MarshalSettings new = Ok body /\ content w' p = Some body) /\
  (forall repo' p', repo' <> Path ref -> SettingsPath repo' = Ok p' -> content w' p' = content w p') /\
  MarshalSettingsDefaults new = Ok shown /\ out = shown ++ [bz 10].

Lemma NewSecret_spec w r w' : NewSecret randBytes w = (r, w') -> (exists b, r = Ok (EncodeToString b)) /\ forall q, content w' q = content w q.
Proof.
  unfold NewSecret, io_bind, attempt, ret. intros He. pose proof (Hrand 32 w) as Hr. destruct (randBytes 32 w) as [rb w1]. injection He as <- <-.
  split; [by eexists|]. exact Hr.
Qed.

Lemma set_settings_spec ref url rotate w out w' : set_settings randBytes true ref url rotate w = (Ok (inr out), w') -> change_made ref url rotate w w' out.
Proof.
  intros He. unfold set_settings in He. apply io_bind_ok in He as (o & w1 & Hcur & He). apply current_settings_spec in Hcur as [Hw1 Hcur].
  destruct (ReadSettings true (Path ref) w) as [r0 w1'] eqn:Er. cbn in Hw1. subst w1'. pose proof (fun q => ReadSettings_same _ _ _ _ q Er) as Hc1.
  destruct o as [cur|]; [|done]. case_bool_decide as Eurl; [done|]. apply io_bind_ok in He as (secret & w2 & Hsec & He).
  assert (Hsec' : (if rotate || bool_decide (s_secret cur = []) then exists b, secret = EncodeToString b else secret = s_secret cur) /\ forall q, content w2 q = content w1 q).
  { destruct (rotate || _); [|by injection Hsec as <- <-]. apply NewSecret_spec in Hsec as [[b [= ->]] Hq]. split; [by exists b|done]. }
  clear Hsec. destruct Hsec' as [Hsec Hc2]. apply io_bind_ok in He as (rw & w3 & Hw & He). apply attempt_inv in Hw as (rw0 & [= ->] & Hw).
  set (new := {| s_url := match url with [] => s_url cur | _ => url end; s_secret := secret |}) in *.
  apply WriteSettings_spec in Hw as [Hother Hok]. destruct rw0 as [[]|e]; [|done].
  destruct (Hok eq_refl) as (p & body & Hp & Hm & Hc3 & Hne & Hu). apply io_bind_ok in He as (rr & w4 & Hread & He).
  apply attempt_inv in Hread as (rr0 & [= ->] & Hread). injection He as He <-. unfold webhookSettingsJSON in Hread.
  apply io_bind_inv in Hread as [(so & w5 & Hread & Hjson)|(e & Hread & ->)]; [|done].
  pose proof (fun q => ReadSettings_same _ _ _ _ q Hread) as Hc4. apply (ReadSettings_spec _ _ _ _ _ Hp) in Hread as [_ Hso].
  destruct so as [s'|]; [|congruence]. destruct Hso as (d & Hd & _ & Hun). rewrite Hc3 in Hd. injection Hd as <-.
  rewrite (Unmarshal_settings _ _ Hm) in Hun. injection Hun as <-. unfold io_bind, lift, ret in Hjson.
  destruct (MarshalSettingsDefaults new) as [shown|] eqn:Es; [|by injection Hjson as <- <-]. injection Hjson as <- <-. injection He as <-.
  exists cur, new, p, body, shown. split_and!; try done.
  - by rewrite Hc4.
  - intros repo' p' Hne' Hp'. rewrite Hc4, Hother, Hc2; [apply Hc1|]. intros Hpp. by apply Hne', (SettingsPath_inj _ _ p').
Qed.

(** What changing settings does. A change that answers was given exactly one
    repository; what is stored for it then, and printed, is the given URL or the
    old one, and the old secret unless it was to be rotated or there was none, in
    which case a new one is made; the result is valid, and no other repository's
    settings have changed. Unreadable settings are replaced only as a whole. *)
Theorem settings_change args key w out w' : handleSSHWebhookSet randBytes authorize true ParseFlags args key w = (Ok (inr out), w') ->
  exists repo flags ref url rotate, args = repo :: flags /\ has_prefix repo (bs "-") = false /\ ParseFlags flags = Some (url, rotate, O) /\
  Parse repo = Ok ref /\ change_made ref url rotate w w' out.
Proof.
  unfold handleSSHWebhookSet. destruct args as [|repo flags]; [done|]. destruct (has_prefix repo _) eqn:Eh; [done|].
  destruct (ParseFlags flags) as [[[url rotate] [|n]]|] eqn:Ef; [|done..]. destruct (Parse repo) as [ref|] eqn:Ep; [|done].
  destruct (admin _ _ _ _); [done| |done]. intros Hs%set_settings_spec. exists repo, flags, ref, url, rotate. by split_and!.
Qed.
End settings.

(** ** A world for the witnesses *)

Module WebhookToys.
(** Files, addresses connected to, requests made, and the replies to come. *)
Record World := { files : gmap bytes bytes; dials_made : list dial; requests : list (HttpRequest * reply); replies : list Z }.
Definition put (k d : bytes) (w : World) : World :=
  {| files := <[k := d]> (files w); dials_made := dials_made w; requests := requests w; replies := replies w |}.

#[export] Instance toy_fs : SysFS World := {|
  rfile := bytes; wfile := bytes;
  sys_Open p := fun w => match files w !! p with Some d => (Ok d, w) | None => (Err (Wrapf (Sent ErrNotExist)), w) end;
  sys_Read d n := ret (take (Z.to_nat n) d);
  sys_MkdirAll _ := ret tt;
  sys_Create p := fun w => (Ok p, put p [] w);
  sys_Write p b := fun w => (Ok tt, put p (default [] (files w !! p) ++ b) w);
  sys_Close _ := ret tt;
|}.
Definition toy_content (w : World) (p : bytes) : option bytes := files w !! p.
Definition toy_writing (w : World) (f p d : bytes) : Prop := f = p /\ files w !! p = Some d.
Lemma toy_fs_laws : SysFSLaws (W := World) toy_content eq toy_writing.
Proof.
  unfold toy_content, toy_writing. split.
  - intros p w r w'. cbn. destruct (files w !! p) as [d|]; intros [= <- <-]; (split; [done|]); [by exists d|done].
  - intros f n w r w' [= <- <-]. split; [done|]. by intros b d [= <-] <-.
  - by intros p w r w' [= <- <-].
  - intros p w r w' [= <- <-]. split; [intros q Hq; cbn; by rewrite lookup_insert_ne|]. intros f [= <-]. cbn. by rewrite lookup_insert_eq.
  - intros f b w r w' p d [-> Hd] [= <- <-]. split; [intros q Hq; cbn; by rewrite lookup_insert_ne|]. exists (d ++ b). cbn.
    rewrite lookup_insert_eq, Hd. done.
  - intros f w r w' p d [-> Hd] [= <- <-]. done.
Qed.

(** One address for every host; a reply from the list for every request. *)
#[export] Instance toy_net : Network World := {|
  conn := unit;
  SplitHostPort a := cut_byte (bz 58) a;
  LookupNetIP _ := ret [V4 (ip4 10 0 0 1); V4 (ip4 8 8 8 8)];
  DialIP ip port := fun w => (Ok tt, {| files := files w; dials_made := dials_made w ++ [(ip, port)]; requests := requests w; replies := replies w |});
  ClientDo d req := fun w =>
    let w1 := {| files := files w; dials_made := dials_made w; requests := requests w; replies := drop 1 (replies w) |} in
    let '(r, w2) := d (bs "hooks.example:443") w1 in
    let rp := match r, replies w with Ok _, code :: _ => Ok code | _, _ => Err Errorf end in
    (rp, {| files := files w2; dials_made := dials_made w2; requests := requests w ++ [(req, rp)]; replies := replies w2 |});
  ValidRequest _ := Ok tt;
  CtxErr _ := None;
  Sleep _ := ret tt;
|}.
Lemma toy_net_laws : NetLaws toy_net dials_made requests.
Proof.
  split; try done.
  - intros d req w. cbn. by destruct (d _ _) as [r w2].
  - intros d req w allowed Hd. cbn. match goal with |- context [d ?a ?v] => destruct (Hd a v) as (l & Hl & Ha); destruct (d a v) as [r w2] end. by exists l.
Qed.

#[export] Instance toy_text : NetText := {|
  url_Parse s := if has_prefix s (bs "https://hooks.example/") then
    Some {| u_Scheme := bs "https"; u_Hostname := bs "hooks.example"; u_Port := []; u_User := false; u_Fragment := []; u_Opaque := []; u_String := s |} else None;
  ParseAddr _ := None; LookupPort _ := true; LowerRunes s := s;
|}.
#[export] Instance toy_fold : UnicodeFold := {| FoldRunes a b := bool_decide (a = b) |}.

(** Settings as two texts, the first with its length; an event as its identifier. *)
Definition marshal_pair (s : Settings) : gores bytes := if blen (s_url s) <? 256 then Ok (bz (blen (s_url s)) :: s_url s ++ s_secret s) else Err Errorf.
#[export] Instance toy_json : ProtoJson := {|
  MarshalEvent ev := Ok (ev_event_id ev);
  MarshalSettings := marshal_pair;
  MarshalSettingsDefaults := marshal_pair;
  UnmarshalSettings b := match b with x :: b => Ok {| s_url := take (Z.to_nat (bu x)) b; s_secret := drop (Z.to_nat (bu x)) b |} | [] => Err Errorf end;
|}.
Lemma toy_json_laws : ProtoLaws.
Proof.
  split. intros [u s] body. cbn. unfold marshal_pair. cbn. destruct (blen u <? 256) eqn:E; [|done]. intros [= <-].
  rewrite Z.ltb_lt in E. rewrite bu_bz, Z.mod_small by (unfold blen in *; lia). unfold blen. rewrite Nat2Z.id, take_app_length, drop_app_length. done.
Qed.

Definition start_world (l : list Z) : World := {| files := ∅; dials_made := []; requests := []; replies := l |}.
Definition settings : Settings := {| s_url := bs "https://hooks.example/x"; s_secret := bs "s3cret" |}.
Definition stored (l : list Z) : World := snd (WriteSettings true (bs "acme/app") settings (start_world l)).
Definition event : PushEvent := {|
  ev_event_id := bs "e1"; ev_push_id := bs "p1"; ev_repository := bs "acme/app"; ev_ref := []; ev_before := []; ev_after := []; ev_created := false;
  ev_deleted := false; ev_forced := false; ev_pushed_at := 0; ev_files := no_files; ev_commits := [] |}.
Definition loaded (l : list Z) : Client := match fst (Load true (bs "acme/app") (stored l)) with Ok (Some c, _) => c | _ => {| repositories := ∅ |} end.
End WebhookToys.

Import WebhookToys.
#[local] Existing Instances toy_fs_laws toy_net_laws toy_json_laws.

Definition toy_destination : destination (W := World) :=
  {| d_url := s_url settings; d_secret := s_secret settings; d_dial := safeDialContext (bs "hooks.example") false |}.
Definition toy_client : Client (W := World) := {| repositories := {[bs "acme/app" := toy_destination]} |}.

Example settings_stored : files (stored []) !! bs ".objgit/webhooks/acme/app/settings.json" = Some (bz 23 :: bs "https://hooks.example/xs3cret").
Proof. by vm_compute. Qed.
(** A 503 is retried, and the connections are to the public address alone. *)
Example delivered_second : let '(r, w) := Deliver (Some toy_client) (bs "acme/app") (Some event) (start_world [503; 200]) in
  r = Ok tt /\ snd <$> requests w = [Ok 503; Ok 200] /\ dials_made w = [(V4 134744072, bs "443"); (V4 134744072, bs "443")].
Proof. by vm_compute. Qed.

Lemma pair_of {A B} (x : A * B) a : fst x = a -> x = (a, snd x).
Proof. by destruct x; intros <-. Qed.

Lemma delivered_ok : fst (Deliver (Some toy_client) (bs "acme/app") (Some event) (start_world [503; 200])) = Ok tt.
Proof. apply ok_bit_true. by vm_compute. Qed.
Lemma delivery_protocol_witness : protocol_followed requests toy_destination (bs "acme/app") event (start_world [503; 200])
  (snd (Deliver (Some toy_client) (bs "acme/app") (Some event) (start_world [503; 200]))) (Ok tt).
Proof.
  refine (delivery_protocol dials_made requests toy_client (bs "acme/app") toy_destination event (start_world [503; 200]) (Ok tt) _ _ _).
  - apply lookup_singleton_eq.
  - exact (pair_of _ _ delivered_ok).
Defined.

Lemma write_stored : WriteSettings true (bs "acme/app") settings (start_world []) = (Ok tt, stored []).
Proof. apply pair_of, ok_bit_true. by vm_compute. Qed.
Lemma stored_read : ReadSettings true (bs "acme/app") (stored []) = (Ok (Some settings), stored []).
Proof.
  assert (Hp : SettingsPath (bs "acme/app") = Ok (bs ".objgit/webhooks/acme/app/settings.json")) by (by vm_compute).
  assert (Hf : files (stored []) !! bs ".objgit/webhooks/acme/app/settings.json" = Some (bz 23 :: bs "https://hooks.example/xs3cret")) by (by vm_compute).
  unfold ReadSettings. rewrite Hp. unfold io_bind at 1, lift at 1, io_bind at 1, attempt. cbn [negb sys_Open toy_fs]. rewrite Hf. reflexivity.
Qed.
Lemma load_stored : Load true (bs "acme/app") (stored []) = (Ok (Some toy_client, None), stored []).
Proof. unfold Load, io_bind, attempt. rewrite stored_read. reflexivity. Qed.

Lemma settings_roundtrip_witness :
  exists c, Load true (bs "acme/app") (stored []) = (Ok (Some c, None), stored []) /\ Enabled (Some c) (bs "acme/app") = true.
Proof.
  refine (proj2 (proj2 (settings_roundtrip toy_content eq toy_writing (bs "acme/app") settings (start_world []) (Ok tt) (stored []) write_stored) eq_refl
    (Ok (Some settings)) (stored []) stored_read)).
Defined.

Definition toy_flags (l : list bytes) : option (bytes * bool * nat) := match l with [u] => Some (u, false, O) | _ => None end.
Definition toy_rand (n : nat) : io World bytes := ret (replicate n (bz 7)).
Definition toy_args : list bytes := [bs "acme/app"; bs "https://hooks.example/y"].
Definition changed := handleSSHWebhookSet toy_rand (fun _ => Allow) true toy_flags toy_args None (stored []).
Definition printed : bytes := bz 23 :: bs "https://hooks.example/ys3cret" ++ [bz 10].
Lemma change_printed : fst changed = Ok (inr printed).
Proof.
  assert (Hb : match fst changed with Ok (inr out) => bool_decide (out = printed) | _ => false end = true) by (by vm_compute).
  destruct (fst changed) as [[no|out]|]; [done| |done]. by apply bool_decide_eq_true in Hb as ->.
Qed.
Lemma settings_change_witness :
  exists repo flags ref url rotate, toy_args = repo :: flags /\ has_prefix repo (bs "-") = false /\ toy_flags flags = Some (url, rotate, O) /\
  Parse repo = Ok ref /\ change_made toy_content ref url rotate (stored []) (snd changed) printed.
Proof.
  refine (settings_change toy_content eq toy_writing toy_rand (fun _ => Allow) toy_flags _ toy_args None (stored []) printed (snd changed) _).
  - by intros n w q.
  - exact (pair_of _ _ change_printed).
Defined.
