(* ===== verification/Hooks.v ===== *)
(** * After a push (cmd/objgitd/hooks.go)

    What the daemon does once reference commands have landed: images of the
    updated tips, then the hook of each updated branch, then the webhooks. The
    shell and its interpreter, go-git's lookup of a file in a tree and
    encoding/json are arguments; log lines are the outcomes returned. *)

From S2P Require Import Prelude GoLib S3 Concrete Codec Cue PackTable PackIndex Storer RepoConfig Refs Objects Segment PackScan Resolver RepoFs Daemon ReceivePack GoText GitObjects Snapshot PushEvents Sandbox Webhook.

Definition receivePackHook : bytes := bs "receive-pack".
Definition hookChangesFile : bytes := bs "/tmp/objgit-changes.json".
Definition hookPath (service : bytes) : bytes := bs ".objgit/hooks/" ++ service.

(** [kube.Origin] *)
Record Origin := { og_repo : bytes; og_ref : bytes; og_commit : bytes; og_branch : bytes }.
(** The encoded changes of an update. *)
Record hookChanges := { hc_added : bytes; hc_changed : bytes; hc_deleted : bytes; hc_file : bytes }.

Section hooks.
Context `{GoGit} `{!GitDecode} {W : Type} `{!EncodedObjectStorer W}.
(** The hook's context, the order in which a map is ranged over, the nesting of a tree. *)
Context (ctxErr : W -> option goerr) (range : gmap bytes TreeEntry -> list (bytes * TreeEntry)) (fuel : nat).
(** [Tree.File] and the file's [Contents]; [ReferenceName.Short]; [json.Marshal]. *)
Context (tree_File : list TreeEntry -> bytes -> io W (io W bytes)) (Short : bytes -> bytes).
Context (MarshalList : list bytes -> gores bytes) (MarshalLists : FileChanges -> gores bytes).

Definition loadHookChanges (u : refUpdate) : io W hookChanges :=
  let! f := Diff ctxErr range fuel (u_old u) (u_new u) in
  let! a := wrapping (lift (MarshalList (fc_added f))) in
  let! c := wrapping (lift (MarshalList (fc_changed f))) in
  let! d := wrapping (lift (MarshalList (fc_deleted f))) in
  let! l := wrapping (lift (MarshalLists f)) in
  ret {| hc_added := a; hc_changed := c; hc_deleted := d; hc_file := l |}.

Definition hookOrigin (repoPath : bytes) (u : refUpdate) : Origin :=
  {| og_repo := repoPath; og_ref := u_name u; og_commit := HashString (u_new u); og_branch := if IsBranch (u_name u) then Short (u_name u) else [] |}.

(** What [newHookShell] is given: the tree under /src, the file under /tmp, the
    environment, the origin and the input; the shell starts in /src. *)
Record hook_shell := { hs_tree : list TreeEntry; hs_changes : bytes; hs_env : list bytes; hs_origin : Origin; hs_stdin : bytes; hs_streaming : bool }.

(** The parser and the interpreter of shell scripts, and the sandbox's set-up. *)
Context {Script : Type} (ParseScript : bytes -> bytes -> gores Script) (newHookShell : hook_shell -> io W unit) (RunScript : hook_shell -> Script -> io W unit).

(** What became of a hook: there is none; it was not run; it was run. *)
Inductive outcome := NoHook | NotRun (e : goerr) | Ran (sh : hook_shell) (prog : Script) (err : option goerr).

(** [sideband]: the client reads progress messages. *)
Definition runHook (repoPath service : bytes) (u : refUpdate) (sideband : bool) : io W outcome :=
  try! commit := GetCommit (u_new u) in
  match commit with Err e => ret (NotRun e) | Ok commit =>
  try! tree := GetTree (cm_tree commit) in
  match tree with Err e => ret (NotRun e) | Ok tree =>
  try! hookFile := tree_File tree (hookPath service) in
  match hookFile with Err _ => ret NoHook | Ok contents =>
  try! script := contents in
  match script with Err e => ret (NotRun e) | Ok script =>
  try! changes := loadHookChanges u in
  match changes with Err e => ret (NotRun e) | Ok changes =>
  let sh := {| hs_tree := tree; hs_changes := hc_file changes; hs_env := hookEnv Short repoPath service u (hc_added changes) (hc_changed changes) (hc_deleted changes);
               hs_origin := hookOrigin repoPath u; hs_stdin := hookStdin u; hs_streaming := sideband |} in
  try! built := newHookShell sh in
  match built with Err e => ret (NotRun e) | Ok _ =>
  match ParseScript script service with Err e => ret (NotRun e) | Ok prog =>
  try! r := RunScript sh prog in
  ret (Ran sh prog (err_of r))
  end end end end end end end.

(** Deletions, and references that are no branches, have no hook. *)
Definition hooked (u : refUpdate) : bool := negb (bool_decide (u_new u = ZeroHash)) && IsBranch (u_name u).
Definition run_next (repoPath service : bytes) (sideband : bool) (out : list (refUpdate * outcome)) (u : refUpdate) : io W (list (refUpdate * outcome)) :=
  if negb (hooked u) then ret out else
  let! o := runHook repoPath service u sideband in ret (out ++ [(u, o)]).
Definition runHooks (repoPath service : bytes) (updates : list refUpdate) (sideband : bool) : io W (list (refUpdate * outcome)) :=
  io_fold (run_next repoPath service sideband) updates [].

(** [hookStatus], by what ended the context and the run. *)
Inductive hook_status := Timeout | HookError | HookOk.
Definition hookStatus (over err : option goerr) : hook_status := match over, err with Some _, _ => Timeout | None, Some _ => HookError | None, None => HookOk end.

(** ** The callback of a push *)

Context `{NetText, UnicodeFold, Sha256, ProtoJson} `{!SysFS W, !Network W}.
Context (allowHooks snapshots : bool) (ensure : Hash -> io W SnapStatus).
Context (randBytes : nat -> io W bytes) (build : Update -> bytes -> bytes -> io W PushEvent).

Definition as_update (u : refUpdate) : Update := {| up_name := u_name u; up_old := u_old u; up_new := u_new u |}.

(** The lines of the images, what became of the hooks, the deliveries. *)
Record work := { wk_images : list line; wk_hooks : list (refUpdate * outcome); wk_events : list (bytes * gores unit) }.

Definition onUpdated (repoPath : bytes) (webhooks : option Client) (sideband : bool) (updates : list refUpdate) : io W work :=
  let! images := if snapshots then runSnapshots ensure updates else ret [] in
  let! hooks := if allowHooks then runHooks repoPath receivePackHook (filter (fun u => IsBranch (u_name u) = true) updates) sideband else ret [] in
  let! events := emitPushWebhooks randBytes build webhooks repoPath (as_update <$> updates) in
  ret {| wk_images := images; wk_hooks := hooks; wk_events := events |}.

(** Whether a push needs the callback at all. *)
Definition wants_callback (webhooks : option Client) (repoPath : bytes) : bool := allowHooks || snapshots || Enabled webhooks repoPath.
End hooks.
