(* ===== verification/HooksSpec.v ===== *)
(** * What happens after a push (cmd/objgitd/hooks.go)

    A hook sees its own update and the script of the tree it brings, and nothing
    that is done once the references are committed changes the outcome of a push. *)

From S2P Require Import Prelude GoLib S3 Concrete Codec Cue PackTable PackIndex Storer RepoConfig Refs Objects Segment PackScan Resolver RepoFs Daemon ReceivePack GoText GitObjects Snapshot ConcreteGit PushEvents PushEventsSpec Sandbox Webhook Hooks.

(** A call that never fails. *)
Definition total {W A} (m : io W A) : Prop := forall w, exists a w', m w = (Ok a, w').
Lemma total_ret {W A} (a : A) : total (W := W) (ret a).
Proof. intros w. by eexists _, _. Qed.
Lemma total_bind {W A B} (m : io W A) (f : A -> io W B) : total m -> (forall a, total (f a)) -> total (io_bind m f).
Proof. intros Hm Hf w. destruct (Hm w) as (a & w1 & E). destruct (Hf a w1) as (b & w2 & E2). exists b, w2. unfold io_bind. by rewrite E. Qed.
Lemma total_try {W A B} (m : io W A) (f : gores A -> io W B) : (forall r, total (f r)) -> total (io_bind (attempt m) f).
Proof. intros Hf. apply total_bind; [|done]. intros w. unfold attempt. destruct (m w) as [r w']. by eexists _, _. Qed.
Lemma total_gets {W A} (f : W -> A) : total (gets f).
Proof. intros w. by eexists _, _. Qed.
Lemma total_fold {W A B} (f : B -> A -> io W B) l b : (forall b a, total (f b a)) -> total (io_fold f l b).
Proof. intros Hf. revert b. induction l as [|a l IH]; intros b; [apply total_ret|]. apply total_bind; [done|]. intros b'. apply IH. Qed.
Create HintDb total discriminated.
#[export] Hint Resolve total_ret total_bind total_try total_gets total_fold : total.

Section hooks.
Context `{GoGit} `{!GitDecode} {W : Type} `{!EncodedObjectStorer W}.
Context (ctxErr : W -> option goerr) (range : gmap bytes TreeEntry -> list (bytes * TreeEntry)) (fuel : nat).
Context (tree_File : list TreeEntry -> bytes -> io W (io W bytes)) (Short : bytes -> bytes).
Context (MarshalList : list bytes -> gores bytes) (MarshalLists : FileChanges -> gores bytes).
Context {Script : Type} (ParseScript : bytes -> bytes -> gores Script) (newHookShell : hook_shell -> io W unit) (RunScript : hook_shell -> Script -> io W unit).
Context (db : Hash -> option (Z * bytes)) `{!Reads _ db}.

Abbreviation runHook := (runHook ctxErr range fuel tree_File Short MarshalList MarshalLists ParseScript newHookShell RunScript).
Abbreviation runHooks := (runHooks ctxErr range fuel tree_File Short MarshalList MarshalLists ParseScript newHookShell RunScript).

Lemma runHook_total repo service u sb : total (runHook repo service u sb).
Proof.
  unfold Hooks.runHook. apply total_try. intros [cm|e]; [|auto with total]. apply total_try. intros [t|e]; [|auto with total]. apply total_try. intros [f|e]; [|auto with total].
  apply total_try. intros [sc|e]; [|auto with total]. apply total_try. intros [ch|e]; [|auto with total]. apply total_try. intros [[]|e]; [|auto with total].
  destruct (ParseScript sc service); auto with total.
Qed.

(** The shell of the hook of [u]: what is under /src, its script, its variables,
    its input and the changed files are those of the update. *)
Definition own_shell (repo service : bytes) (u : refUpdate) (sh : hook_shell) (prog : Script) : Prop :=
  exists cm script w0 w1 w2 w3 f contents a c d,
    commit_at db (u_new u) cm /\ tree_at db (cm_tree cm) (hs_tree sh) /\
    tree_File (hs_tree sh) (hookPath service) w0 = (Ok contents, w1) /\ contents w1 = (Ok script, w2) /\ ParseScript script service = Ok prog /\
    fst (Diff ctxErr range fuel (u_old u) (u_new u) w3) = Ok f /\
    MarshalList (fc_added f) = Ok a /\ MarshalList (fc_changed f) = Ok c /\ MarshalList (fc_deleted f) = Ok d /\ MarshalLists f = Ok (hs_changes sh) /\
    hs_env sh = hookEnv Short repo service u a c d /\ hs_stdin sh = hookStdin u /\ hs_origin sh = hookOrigin Short repo u.

Lemma wrapping_lift_ok {A} (r : gores A) (w : W) a w' : wrapping (lift r) w = (Ok a, w') -> r = Ok a /\ w' = w.
Proof. intros [(x & [= <-] & E)|(e & [=] & _)]%wrapping_inv. by injection E as -> ->. Qed.

Lemma loadHookChanges_ok u w ch w' : loadHookChanges ctxErr range fuel MarshalList MarshalLists u w = (Ok ch, w') ->
  exists f, fst (Diff ctxErr range fuel (u_old u) (u_new u) w) = Ok f /\ MarshalList (fc_added f) = Ok (hc_added ch) /\ MarshalList (fc_changed f) = Ok (hc_changed ch) /\
    MarshalList (fc_deleted f) = Ok (hc_deleted ch) /\ MarshalLists f = Ok (hc_file ch).
Proof.
  unfold loadHookChanges. intros (f & w1 & E & Hr)%io_bind_ok. exists f. split; [by rewrite E|].
  apply io_bind_ok in Hr as (a & w2 & [Ea ->]%wrapping_lift_ok & Hr). apply io_bind_ok in Hr as (c & w3 & [Ec ->]%wrapping_lift_ok & Hr).
  apply io_bind_ok in Hr as (d & w4 & [Ed ->]%wrapping_lift_ok & Hr). apply io_bind_ok in Hr as (l & w5 & [El ->]%wrapping_lift_ok & Hr). by injection Hr as <- _.
Qed.

Lemma try_inv {A B} (m : io W A) (f : gores A -> io W B) w b w' : io_bind (attempt m) f w = (Ok b, w') -> exists r w1, m w = (r, w1) /\ f r w1 = (Ok b, w').
Proof. intros (r & w1 & (r0 & [= ->] & E)%attempt_inv & Hf)%io_bind_ok. by exists r0, w1. Qed.

Lemma runHook_ran repo service u sb w sh prog err w' : runHook repo service u sb w = (Ok (Ran sh prog err), w') ->
  own_shell repo service u sh prog /\ hs_streaming sh = sb.
Proof.
  unfold Hooks.runHook. intros ([cm|e] & w1 & Ec & Hr)%try_inv; [|done]. apply try_inv in Hr as ([t|e] & w2 & Et & Hr); [|done].
  apply try_inv in Hr as ([contents|e] & w3 & Ef & Hr); [|done]. apply try_inv in Hr as ([sc|e] & w4 & Es & Hr); [|done].
  apply try_inv in Hr as ([ch|e] & w5 & Ech & Hr); [|done]. apply try_inv in Hr as ([[]|e] & w6 & _ & Hr); [|done].
  destruct (ParseScript sc service) as [p|e] eqn:Ep; [|done]. apply try_inv in Hr as (r & w7 & _ & Hr). injection Hr as <- <- _ _.
  apply loadHookChanges_ok in Ech as (f & F1 & F2 & F3 & F4 & F5). split; [|done]. exists cm, sc, w2, w3, w4, w4, f, contents, (hc_added ch), (hc_changed ch), (hc_deleted ch).
  split; [by eapply GetCommit_ok|]. split; [by eapply GetTree_ok|]. done.
Qed.

(** No hook: the tree of the pushed commit has no script. *)
Definition no_script (service : bytes) (u : refUpdate) : Prop :=
  exists cm t w e, commit_at db (u_new u) cm /\ tree_at db (cm_tree cm) t /\ fst (tree_File t (hookPath service) w) = Err e.

Lemma runHook_none repo service u sb w w' : runHook repo service u sb w = (Ok NoHook, w') -> no_script service u.
Proof.
  unfold Hooks.runHook. intros ([cm|e] & w1 & Ec & Hr)%try_inv; [|done]. apply try_inv in Hr as ([t|e] & w2 & Et & Hr); [|done].
  apply try_inv in Hr as ([contents|e] & w3 & Ef & Hr).
  { apply try_inv in Hr as ([sc|e] & w4 & _ & Hr); [|done]. apply try_inv in Hr as ([ch|e] & w5 & _ & Hr); [|done].
    apply try_inv in Hr as ([[]|e] & w6 & _ & Hr); [|done]. destruct (ParseScript sc service); [|done]. by apply try_inv in Hr as (r & w7 & _ & Hr). }
  exists cm, t, w2, e. split; [by eapply GetCommit_ok|]. split; [by eapply GetTree_ok|]. by rewrite Ef.
Qed.

(** A hook is not run for an error of one of its steps: reading the commit, its
    tree or the script, telling the changes, building the shell, parsing. *)
Definition failed_step (service : bytes) (u : refUpdate) (e : goerr) : Prop :=
  (exists w, fst (GetCommit (u_new u) w) = Err e) \/
  (exists cm w, commit_at db (u_new u) cm /\ fst (GetTree (cm_tree cm) w) = Err e) \/
  (exists cm t w contents w1, commit_at db (u_new u) cm /\ tree_at db (cm_tree cm) t /\
    tree_File t (hookPath service) w = (Ok contents, w1) /\ fst (contents w1) = Err e) \/
  (exists w, fst (loadHookChanges ctxErr range fuel MarshalList MarshalLists u w) = Err e) \/
  (exists sh w, fst (newHookShell sh w) = Err e) \/
  (exists script, ParseScript script service = Err e).

Lemma runHook_failed repo service u sb w e w' : runHook repo service u sb w = (Ok (NotRun e), w') -> failed_step service u e.
Proof.
  unfold Hooks.runHook, failed_step. intros ([cm|e1] & w1 & Ec & Hr)%try_inv; [|injection Hr as -> _; left; exists w; by rewrite Ec].
  pose proof (GetCommit_ok db _ _ _ _ Ec) as Hcm. right.
  apply try_inv in Hr as ([t|e1] & w2 & Et & Hr); [|injection Hr as -> _; left; exists cm, w1; by rewrite Et].
  pose proof (GetTree_ok db _ _ _ _ Et) as Ht. right.
  apply try_inv in Hr as ([contents|e1] & w3 & Ef & Hr); [|done].
  apply try_inv in Hr as ([sc|e1] & w4 & Es & Hr); [|injection Hr as -> _; left; exists cm, t, w2, contents, w3; by rewrite Es]. right.
  apply try_inv in Hr as ([ch|e1] & w5 & Ech & Hr); [|injection Hr as -> _; left; exists w4; by rewrite Ech]. right.
  apply try_inv in Hr as ([[]|e1] & w6 & Esh & Hr); [|injection Hr as -> _; left; eexists _, w5; by rewrite Esh]. right.
  destruct (ParseScript sc service) as [p|e1] eqn:Ep; [by apply try_inv in Hr as (r & w7 & _ & Hr)|]. injection Hr as -> _. by exists sc.
Qed.

(** What an outcome says of its update. *)
Definition explained (repo service : bytes) (sb : bool) (u : refUpdate) (o : outcome) : Prop :=
  match o with
  | NoHook => no_script service u
  | NotRun e => failed_step service u e
  | Ran sh prog _ => own_shell repo service u sh prog /\ hs_streaming sh = sb
  end.
Lemma runHook_explained repo service u sb w o w' : runHook repo service u sb w = (Ok o, w') -> explained repo service sb u o.
Proof. destruct o; [apply runHook_none|apply runHook_failed|apply runHook_ran]. Qed.

(** After a push every accepted branch update has its hook, in the order of the
    commands: each is looked for once, deletions and other references have none, and
    neither a missing, unreadable or failing hook nor one that times out keeps the
    next from running or fails the push. A hook is left out only where the pushed
    tree holds no script, and not run only for the error of one of its steps; one that
    runs runs the script that the pushed tree itself holds, on that tree, and its
    input, variables, changes file and origin say the update it runs for and the
    difference of its two commits. *)
Theorem hooks_see_their_update repo service updates sb w :
  exists out w', runHooks repo service updates sb w = (Ok out, w') /\
    fst <$> out = filter (fun u => hooked u = true) updates /\
    forall u o, (u, o) ∈ out -> explained repo service sb u o.
Proof.
  assert (Ht : total (runHooks repo service updates sb)).
  { apply total_fold. intros out u. unfold run_next. destruct (negb (hooked u)); [apply total_ret|]. apply total_bind; [apply runHook_total|]. intros o. apply total_ret. }
  destruct (Ht w) as (out & w' & Hr). exists out, w'. split; [done|]. unfold Hooks.runHooks in Hr. revert Hr.
  apply (io_fold_inv (fun done out => fst <$> out = filter (fun u => hooked u = true) done /\ forall u o, (u, o) ∈ out -> explained repo service sb u o)).
  { split; [done|]. intros u o Hin. by apply elem_of_nil in Hin. }
  intros done u out1 w1 out2 w2 _ [Hf Hown] Hr. unfold run_next in Hr. rewrite filter_app, filter_cons, filter_nil. destruct (hooked u) eqn:Eu; cbn [negb] in Hr.
  - apply io_bind_ok in Hr as (o & w3 & Eo & Hr). injection Hr as <- _. rewrite decide_True by done. rewrite fmap_app, Hf. split; [done|].
    intros u' o' [Hin|Hin]%elem_of_app; [by apply Hown|]. apply list_elem_of_singleton in Hin. injection Hin as -> ->. by eapply runHook_explained.
  - injection Hr as <- _. rewrite decide_False by done. by rewrite app_nil_r.
Qed.
End hooks.

(** The hooks of a push of four commands: one runs and fails, the deletion and the
    tag have none, and one branch points at an object that is not a commit. *)
Module AHook.
Import History.
Definition toy_file (t : list (@TreeEntry toy_git)) (path : bytes) : io unit (io unit bytes) :=
  if bool_decide (path = hookPath receivePackHook) then ret (ret (bs "echo hi")) else fail (Sent ErrNotExist).
Definition updates : list (@refUpdate toy_git) :=
  [{| u_name := bs "refs/heads/main"; u_old := h 5; u_new := h 6 |}; {| u_name := bs "refs/heads/gone"; u_old := h 5; u_new := ZeroHash |};
   {| u_name := bs "refs/tags/v1"; u_old := ZeroHash; u_new := h 6 |}; {| u_name := bs "refs/heads/odd"; u_old := ZeroHash; u_new := h 1 |}].
Definition hooks : io unit (list (refUpdate * outcome (Script := bytes))) :=
  runHooks no_ctx any_order 5 toy_file (fun b => b) (fun l => Ok (mjoin l)) (fun f => Ok (mjoin (fc_added f)))
    (fun sc _ => Ok sc) (fun _ => ret tt) (fun _ _ => fail (Sent EOF)) (bs "r") receivePackHook updates true.
Definition kind (o : outcome (Script := bytes)) : nat := match o with NoHook => 0 | NotRun _ => 1 | Ran _ _ None => 2 | Ran _ _ (Some _) => 3 end.
Definition kinds (r : gores (list (refUpdate * outcome (Script := bytes)))) : option (list (bytes * nat)) :=
  match r with Ok out => Some ((fun p => (u_name (fst p), kind (snd p))) <$> out) | Err _ => None end.
Example hooks_run : kinds (fst (hooks tt)) = Some [(bs "refs/heads/main", 3%nat); (bs "refs/heads/odd", 1%nat)].
Proof. vm_compute. reflexivity. Qed.
End AHook.
