(* ===== verification/LfsHttp.v ===== *)
(** * The LFS endpoints (cmd/objgitd/lfs.go)

    From a request to internal/lfs and back: which routes exist, content
    negotiation, the bound on bodies, authorization, the bounds on lock
    documents, and the statuses. Answers are values; their JSON text, headers
    other than the challenge, metrics and log lines are not modelled. *)

From S2P Require Import Prelude GoLib S3 Codec GoText PackedRefs Cue PackTable PackIndex Storer Refs RepoFs Daemon Lfs LfsLocks.

(** [strings.Split] with a separator of one byte. *)
Fixpoint split_byte (c : byte) (s : bytes) : list bytes :=
  match s with
  | [] => [[]]
  | x :: s' =>
      match split_byte c s' with
      | p :: ps => if bool_decide (x = c) then [] :: p :: ps else (x :: p) :: ps
      | [] => []
      end
  end.

(** ** Requests *)

(** [r_id] is the path's [id], [r_query] the URL's query. *)
Record LfsRequest := {
  r_org : bytes; r_name : bytes; r_id : bytes; r_accept : bytes; r_basic : option (bytes * bytes); r_tls : bool; r_forwarded : bytes; r_host : bytes;
  r_query : bytes -> bytes; r_body : bytes;
}.

(** The bodies besides [BatchRequest] and [Pointer]; a [Ref] is not used. *)
Record lockVerifyRequest := { v_cursor : bytes; v_limit : Z }.

(** encoding/json on the bytes that may be read, [true] when more follow and
    reading on fails: the value, which an error may leave half filled in. *)
Inductive decode_err := TooLarge | Malformed.
Class LfsJson := {
  DecodeBatch : bytes -> bool -> BatchRequest * option decode_err;
  DecodePointer : bytes -> bool -> Pointer * option decode_err;
  DecodeLockPath : bytes -> bool -> bytes * option decode_err;
  DecodeLockVerify : bytes -> bool -> lockVerifyRequest * option decode_err;
  DecodeForce : bytes -> bool -> bool * option decode_err;
}.

(** The service, [None] in the daemon when LFS is off. *)
Record lfsService := { s_maxSize : Z; s_maxBatch : Z; s_externalURL : bytes; s_allowLocks : bool }.

Definition maxBodyBytes (s : lfsService) : Z :=
  let n := s_maxBatch s * 256 in if n >? 64 * 2 ^ 10 then n else 64 * 2 ^ 10.

Definition maxLockPathBytes : Z := 4096.
Definition maxLocksPerRepo : Z := 1000.

Inductive endpoint := ObjectsBatch | ObjectsVerify | LockCreate | LockList | LockVerify | Unlock.
#[export] Instance endpoint_eq_dec : EqDecision endpoint.
Proof. solve_decision. Defined.

Definition registerLFS (s : option lfsService) : list endpoint :=
  match s with
  | None => []
  | Some s => [ObjectsBatch; ObjectsVerify] ++ (if s_allowLocks s then [LockCreate; LockList; LockVerify; Unlock] else [])
  end.

(** ** Content negotiation and bodies *)

Definition acceptsLFS (accept : bytes) : bool :=
  bool_decide (accept = []) ||
  existsb (fun part =>
    let media := match cut_byte (bz 59) (TrimSpace part) with Some (m, _) => m | None => TrimSpace part end in
    bool_decide (TrimSpace media ∈ [MediaType; bs "*/*"; bs "application/*"])) (split_byte (bz 44) accept).

(** What a decoder may read of a body: [capLFSBody]. *)
Definition capLFSBody {A} (s : lfsService) (body : bytes) (decode : bytes -> bool -> A) : A :=
  decode (take (Z.to_nat (maxBodyBytes s)) body) (blen body >? maxBodyBytes s).

Definition decodeLFSBody {A} (r : A * option decode_err) : refusal + A :=
  match r with
  | (a, None) => inr a
  | (_, Some TooLarge) => inl (Status 413 false)
  | (_, Some Malformed) => inl (Status 422 false)
  end.
Definition decodeOptionalLFSBody {A} (r : A * option decode_err) : refusal + A :=
  match r with (_, Some TooLarge) => inl (Status 413 false) | (a, _) => inr a end.

Definition lfsOwner (basic : option (bytes * bytes)) : bytes :=
  match basic with Some (x :: user, _) => x :: user | _ => AnonymousOwner end.

(** ** Statuses *)

Definition lfsBatchStatus (e : goerr) : Z :=
  if errors_is e ErrTooManyObjects then 413
  else if errors_is e ErrInvalidOID || errors_is e ErrInvalidRequest || errors_is e ErrObjectTooLarge || errors_is e ErrNoSupportedTransfer then 422
  else 500.

Definition writeLockError (e : goerr) : refusal :=
  Status (if errors_is e ErrLockNotFound then 404
          else if errors_is e ErrLockHeldByAnother then 403
          else if errors_is e ErrInvalidRequest then 422
          else if errors_is e ErrLockContention then 409 else 500) false.

(** The bodies of successful answers. *)
Inductive answer :=
  | BatchAnswer (r : BatchResponse)
  | PointerAnswer (p : Pointer)
  | LockAnswer (l : Lock)
  | ListAnswer (locks : list Lock) (next : bytes)
  | SplitAnswer (ours theirs : list Lock) (next : bytes).

Section handlers.
Context `{S3, !Promotion, !Presign, LockJson, UnicodeFold, LfsJson}.
Context (rand : nat -> gores bytes) (now : nat -> Z) (authorize : Request -> Decision) (s : lfsService).
(** The lifetime of a URL signed at this moment, its whole seconds, and the order
    in which the reads of a batch finish. *)
Context (ttl : World -> Z) (Seconds : Z -> Z) (order : nat -> list nat).

Abbreviation M := (io World).
(** A refusal, or a status with a body. *)
Abbreviation Answered := (M (refusal + (Z * answer))).

Definition refuse (no : refusal) : Answered := ret (inl no).
Definition begin_ (r : LfsRequest) (op : Operation) (k : RepoRef -> Answered) : Answered :=
  match lfsBegin authorize (acceptsLFS (r_accept r)) op (r_org r) (r_name r) (r_basic r) with inl no => refuse no | inr ref => k ref end.
Definition body_ {A} (d : refusal + A) (k : A -> Answered) : Answered := match d with inl no => refuse no | inr a => k a end.

Definition verifyURL (r : LfsRequest) (ref : RepoRef) : bytes :=
  let base := match trim_suffix (s_externalURL s) (bs "/") with
              | [] =>
                  let scheme := if r_tls r then bs "https" else bs "http" in
                  let scheme := match r_forwarded r with [] => scheme | fwd => fwd end in
                  scheme ++ bs "://" ++ r_host r
              | base => base
              end in
  base ++ bs "/" ++ OrgID ref ++ bs "/" ++ Name ref ++ bs ".git/info/lfs/objects/verify".

Definition handleLFSBatch (r : LfsRequest) : Answered :=
  body_ (decodeLFSBody (capLFSBody s (r_body r) DecodeBatch)) (fun req =>
  begin_ r (if bool_decide (q_operation req = OperationUpload) then Write else Read) (fun ref =>
  let! t := gets ttl in
  try! resp := Batch (order (length (q_objects req))) (Some req)
    {| opt_repo := Path ref; opt_verifyURL := verifyURL r ref; opt_ttl := t; opt_expires := Seconds t;
       opt_maxSize := s_maxSize s; opt_maxBatch := s_maxBatch s; opt_concurrency := 0 |} in
  match resp with
  | Err e => refuse (Status (lfsBatchStatus e) false)
  | Ok resp => ret (inr (200, BatchAnswer resp))
  end)).

Definition handleLFSVerify (r : LfsRequest) : Answered :=
  begin_ r Write (fun ref =>
  body_ (decodeLFSBody (capLFSBody s (r_body r) DecodePointer)) (fun p =>
  try! status := Verify (Path ref) (p_oid p) (p_size p) in
  match status with
  | Err e => refuse (Status (if errors_is e ErrInvalidOID then 422 else 500) false)
  | Ok VerifyOK => ret (inr (200, PointerAnswer p))
  | Ok VerifyMissing => refuse (Status 404 false)
  | Ok VerifyMismatch => refuse (Status 422 false)
  end)).

Definition no_filter : LockFilter := {| f_path := []; f_id := []; f_cursor := []; f_limit := 0 |}.

(** The refusal, if there is no room. *)
Definition lockRoomLeft (ref : RepoRef) (path : bytes) : M (option refusal) :=
  try! r := ListLocks (Path ref) no_filter in
  match r with
  | Err e => ret (Some (writeLockError e))
  | Ok (locks, _) =>
      if Z.of_nat (length locks) <? maxLocksPerRepo then ret None
      else if existsb (fun l => bool_decide (l_path l = path)) locks then ret None
      else ret (Some (Status 413 false))
  end.

(** [handleLFSLockCreate] from the decoded path on. *)
Definition lock_path (r : LfsRequest) (ref : RepoRef) (path : bytes) : Answered :=
  if blen path >? maxLockPathBytes then refuse (Status 422 false) else
  let! full := lockRoomLeft ref path in
  match full with
  | Some no => refuse no
  | None =>
      try! r := CreateLock rand now (Path ref) path (lfsOwner (r_basic r)) in
      match r with
      | Err e => refuse (writeLockError e)
      | Ok (lock, created) => ret (inr (if created : bool then 201 else 409, LockAnswer lock))
      end
  end.

Definition handleLFSLockCreate (r : LfsRequest) : Answered :=
  begin_ r Write (fun ref => body_ (decodeLFSBody (capLFSBody s (r_body r) DecodeLockPath)) (lock_path r ref)).

(** [strconv.Atoi], whose error is ignored: a number out of range is the nearest one. *)
Context (Atoi : bytes -> Z).

Definition handleLFSLockList (r : LfsRequest) : Answered :=
  begin_ r Read (fun ref =>
  let q := r_query r in
  try! r := ListLocks (Path ref) {| f_path := q (bs "path"); f_id := q (bs "id"); f_cursor := q (bs "cursor"); f_limit := Atoi (q (bs "limit")) |} in
  match r with
  | Err e => refuse (writeLockError e)
  | Ok (locks, next) => ret (inr (200, ListAnswer locks next))
  end).

Definition handleLFSLockVerify (r : LfsRequest) : Answered :=
  begin_ r Read (fun ref =>
  body_ (decodeOptionalLFSBody (capLFSBody s (r_body r) DecodeLockVerify)) (fun req =>
  try! x := ListLocks (Path ref) {| f_path := []; f_id := []; f_cursor := v_cursor req; f_limit := v_limit req |} in
  match x with
  | Err e => refuse (writeLockError e)
  | Ok (locks, next) => let '(ours, theirs) := SplitLocks locks (lfsOwner (r_basic r)) in ret (inr (200, SplitAnswer ours theirs next))
  end)).

Definition handleLFSUnlock (r : LfsRequest) : Answered :=
  begin_ r Write (fun ref =>
  body_ (decodeOptionalLFSBody (capLFSBody s (r_body r) DecodeForce)) (fun force =>
  try! x := DeleteLock (Path ref) (r_id r) (lfsOwner (r_basic r)) force in
  match x with
  | Err e => refuse (writeLockError e)
  | Ok lock => ret (inr (200, LockAnswer lock))
  end)).

(** The route's handler; without a route the mux answers 404. *)
Definition serve (enabled : bool) (ep : endpoint) (r : LfsRequest) : Answered :=
  if negb (bool_decide (ep ∈ registerLFS (if enabled then Some s else None))) then refuse (Status 404 false) else
  match ep with
  | ObjectsBatch => handleLFSBatch r
  | ObjectsVerify => handleLFSVerify r
  | LockCreate => handleLFSLockCreate r
  | LockList => handleLFSLockList r
  | LockVerify => handleLFSLockVerify r
  | Unlock => handleLFSUnlock r
  end.

(** ** git-lfs-authenticate *)

Definition commandNotFoundExit : Z := 127.
Record authenticateResponse := { u_href : bytes; u_header : gmap bytes bytes; u_expires : Z }.

Definition handleLFSAuthenticate (enabled : bool) (cmd : list bytes) (key : option bytes) : M (refusal + authenticateResponse) :=
  if negb enabled || bool_decide (s_externalURL s = []) then ret (inl (Exit commandNotFoundExit)) else
  match cmd with
  | _ :: path :: operation :: _ =>
      match Parse path with
      | Err _ => ret (inl (Exit 1))
      | Ok ref =>
          let op := if bool_decide (operation = OperationDownload) then Some Read
                    else if bool_decide (operation = OperationUpload) then Some Write else None in
          match op with
          | None => ret (inl (Exit 1))
          | Some op =>
              let cred := match key with Some k => PublicKey k | None => Anonymous end in
              match authorize {| q_repo := Path ref; RepoFs.q_operation := op; q_cred := cred; q_transport := bs "ssh" |} with
              | Allow =>
                  let! t := gets ttl in
                  ret (inr {| u_href := trim_suffix (s_externalURL s) (bs "/") ++ bs "/" ++ OrgID ref ++ bs "/" ++ Name ref ++ bs ".git/info/lfs";
                              u_header := ∅; u_expires := Seconds t |})
              | _ => ret (inl (Exit 1))
              end
          end
      end
  | _ => ret (inl (Exit 1))
  end.
End handlers.
