(* ===== verification/LfsHttpSpec.v ===== *)
(** * What the LFS endpoints promise (cmd/objgitd/lfs.go)

    Nothing is done for a request the authorizer did not allow, and what one
    repository's lock document can grow to. *)

From S2P Require Import Prelude GoLib S3 Concrete Codec GoText PackedRefs Cue PackTable PackIndex Storer Refs RepoFs Daemon Lfs LfsSpec LfsLocks LfsLocksSpec LfsHttp.

Section access.
Context `{S3, !Promotion, !Presign, LockJson, UnicodeFold, LfsJson}.
Context (rand : nat -> gores bytes) (now : nat -> Z) (authorize : Request -> Decision) (s : lfsService).
Context (ttl : World -> Z) (Seconds : Z -> Z) (order : nat -> list nat) (Atoi : bytes -> Z).

Abbreviation handle := (serve rand now authorize s ttl Seconds order Atoi).

(** The access an endpoint needs: an upload's batch, a verification, a lock or an unlock write. *)
Definition access_of (ep : endpoint) (r : LfsRequest) : Operation :=
  match ep with
  | ObjectsBatch => if bool_decide (q_operation (fst (capLFSBody s (r_body r) DecodeBatch)) = OperationUpload) then Write else Read
  | LockList | LockVerify => Read
  | ObjectsVerify | LockCreate | Unlock => Write
  end.

Definition allowed (r : LfsRequest) (op : Operation) : Prop :=
  exists ref, Parse (r_org r ++ slash :: r_name r) = Ok ref /\
  authorize {| q_repo := Path ref; RepoFs.q_operation := op; q_cred := credFromRequest (r_basic r); q_transport := bs "http" |} = Allow.
(** The answer refuses and nothing was asked of the store. *)
Definition turned_away (w : World) (out : gores (refusal + (Z * answer)) * World) : Prop := snd out = w /\ exists no, fst out = Ok (inl no).

Lemma begin_access r op k w : allowed r op \/ turned_away w (begin_ authorize r op k w).
Proof.
  unfold begin_, lfsBegin. destruct (acceptsLFS _); [|right; split; [done|by eexists]]. cbn [negb].
  destruct (Parse _) as [ref|] eqn:Ep; [|right; split; [done|by eexists]].
  destruct (authorize _) eqn:Ea; [right; split; [done|by eexists]|left; by exists ref|right; split; [done|by eexists]].
Qed.

(** C40: no LFS request gets past the authorizer. Whatever the endpoint and the
    request, it was allowed with the access that the endpoint needs (for a batch,
    the access its own operation asks for) on exactly the repository in its path,
    by a daemon that has the route; or it is refused without touching the store. *)
Theorem lfs_needs_permission (enabled : bool) ep r w :
  (ep ∈ registerLFS (if enabled then Some s else None) /\ allowed r (access_of ep r)) \/ turned_away w (handle enabled ep r w).
Proof.
  unfold serve. case_bool_decide as Er; cbn [negb]; [|right; split; [done|by eexists]].
  enough (allowed r (access_of ep r) \/ turned_away w (match ep with
    | ObjectsBatch => handleLFSBatch authorize s ttl Seconds order r | ObjectsVerify => handleLFSVerify authorize s r
    | LockCreate => handleLFSLockCreate rand now authorize s r | LockList => handleLFSLockList authorize Atoi r
    | LockVerify => handleLFSLockVerify authorize s r | Unlock => handleLFSUnlock authorize s r end w)) by tauto.
  destruct ep; try apply begin_access. unfold handleLFSBatch, body_, access_of.
  destruct (capLFSBody s (r_body r) DecodeBatch) as [req [[|]|]]; [right; split; [done|by eexists]..|]. apply begin_access.
Qed.
End access.

(** ** Lock documents *)

Section growth.
Context `{S3, !Promotion, !Presign, LockJson, UnicodeFold, LfsJson, !LockJsonLaws}.
Context (view : World -> bucket) (env : bucket -> bucket -> Prop) `{!S3Laws view env}.
Context (rand : nat -> gores bytes) (now : nat -> Z) (authorize : Request -> Decision) (s : lfsService).
Context (ttl : World -> Z) (Seconds : Z -> Z) (order : nat -> list nat) (Atoi : bytes -> Z).

#[local] Instance env_po_growth : PreOrder env := env_preorder.

Lemma locks_at_unique repo b doc doc' : locks_at repo b doc -> locks_at repo b doc' -> doc = doc'.
Proof. intros [[K1 ->]|(o & K1 & K2)] [[K3 ->]|(o' & K3 & K4)]; congruence. Qed.
Lemma locks_at_same repo b b' doc : b' !! LocksKey repo = b !! LocksKey repo -> locks_at repo b doc -> locks_at repo b' doc.
Proof. intros He [[K1 ->]|(o & K1 & K2)]; [left|right]; rewrite He; eauto. Qed.
Lemma with_locks_at repo body b doc doc' : Forall lock_text doc -> MarshalLocks doc = Ok body -> locks_at repo (with_locks repo body b) doc' -> doc' = doc.
Proof.
  intros Ht Hm Hat. eapply locks_at_unique; [exact Hat|]. right. eexists. unfold with_locks. rewrite lookup_insert_eq. split; [done|]. by apply decode_marshal.
Qed.

Context (repo : bytes) (Hquiet : forall b b', env b b' -> b' !! LocksKey repo = b !! LocksKey repo).

(** A property of the document in a bucket, and that a loop over it keeps it. *)
Definition doc_ok (Q : lockDoc -> Prop) (b : bucket) : Prop := forall doc, locks_at repo b doc -> Q doc.

Lemma doc_ok_env Q b b' : env b b' -> doc_ok Q b -> doc_ok Q b'.
Proof. intros He Hq doc Hd. apply Hq. eapply locks_at_same; [|exact Hd]. symmetry. by apply Hquiet. Qed.

Lemma mutate_keeps {A} (fn : nat -> lockDoc -> A * gores lockDoc) (Q : lockDoc -> Prop) w r w' :
  (forall k a doc doc', locks_at repo (view w) doc -> fn k doc = (a, Ok doc') -> Forall lock_text doc' /\ Q doc') ->
  doc_ok Q (view w) -> mutateLocks repo fn w = (r, w') -> doc_ok Q (view w').
Proof.
  intros Hfn Hq Hr. apply (mutate_spec view env) in Hr.
  assert (Hw : forall k a b doc doc' body, env (view w) b -> locks_at repo b doc -> fn k doc = (a, Ok doc') -> MarshalLocks doc' = Ok body ->
    env (with_locks repo body b) (view w') -> doc_ok Q (view w')).
  { intros k a b doc doc' body Hb Hat Hf Hm He. apply (doc_ok_env _ _ _ He). intros d Hd.
    destruct (Hfn k a doc doc') as [Ht Hq']; [|done|by rewrite (with_locks_at _ _ _ _ _ Ht Hm Hd)]. eapply locks_at_same; [|exact Hat]. symmetry. by apply Hquiet. }
  destruct r as [a|e].
  - destruct Hr as (k & b & doc & Hb & Hat & Hrest). destruct (fn k doc) as [a' [doc'|e]] eqn:Ef.
    + destruct Hrest as (_ & body & Hm & He). by eapply Hw.
    + destruct Hrest as (_ & _ & He). apply (doc_ok_env _ _ _ He). by apply (doc_ok_env _ _ _ Hb).
  - destruct Hr as [Hr|(x & b & doc & doc' & body & _ & _ & Hb & Hat & (k & a & Hf) & Hm & He)]; [by eapply doc_ok_env|]. by eapply Hw.
Qed.

Lemma ListLocks_spec f w r w' : ListLocks repo f w = (r, w') -> env (view w) (view w') /\
  match r with Ok (locks, _) => exists doc next, locks_at repo (view w') doc /\ page_of f doc = Ok (locks, next) | Err _ => True end.
Proof.
  unfold ListLocks. intros Hr. apply io_bind_inv in Hr as [([doc etag] & w1 & Hrd & Hr)|(e & Hrd & ->)]; apply (readLocks_spec view env) in Hrd as [He Hrd]; [|done].
  injection Hr as <- <-. split; [exact He|]. destruct (page_of f doc) as [[locks next]|] eqn:Ep; [|done]. exists doc, next. split; [|done].
  destruct Hrd as (b & _ & He2 & Hat). apply (locks_at_same _ b); [by apply Hquiet|].
  destruct Hat as [(_ & Hb & ->)|(o & _ & Hb & Hd)]; [by left|right; eauto].
Qed.

(** What one document may hold. *)
Definition bounded (doc : lockDoc) : Prop := Z.of_nat (length doc) <= maxLocksPerRepo /\ Forall (fun l => blen (l_path l) <= maxLockPathBytes) doc.

Lemma selected_all (doc : lockDoc) : filter (fun l => matches no_filter l = true) doc = doc.
Proof. induction doc as [|l doc IH]; [done|]. by rewrite filter_cons_True, IH. Qed.
Lemma page_all (doc : lockDoc) locks next : page_of no_filter doc = Ok (locks, next) -> locks = doc.
Proof.
  unfold page_of. rewrite selected_all. cbn [f_cursor no_filter res_bind f_limit]. destruct (Z.of_nat (length doc) <=? 0) eqn:E.
  - intros [= <- <-]. destruct doc; [done|]. apply Z.leb_le in E. cbn [length] in E. lia.
  - cbn. by intros [= <- <-].
Qed.

Lemma create_bounded path owner k a doc doc' : JsonText path -> JsonText owner -> blen path <= maxLockPathBytes -> Forall lock_text doc -> bounded doc ->
  (Z.of_nat (length doc) < maxLocksPerRepo \/ path ∈ (l_path <$> doc)) -> create_in rand now path owner k doc = (a, Ok doc') -> Forall lock_text doc' /\ bounded doc'.
Proof.
  intros Hp Ho Hlen Ht [Hn Hb] Hroom Hc. apply (create_changes rand now) in Hc as (id & Hid & -> & -> & Hnew). destruct Hroom as [Hroom|Hin]; [|done].
  split; [apply Forall_app; split; [done|]; constructor; [|done]; split_and!; [by eapply newLockID_text|done|done]|].
  split; [rewrite length_app; cbn; lia|]. apply Forall_app. split; [done|]. by constructor.
Qed.

Lemma lock_path_keeps r ref w path : JsonText path -> JsonText (lfsOwner (r_basic r)) -> Path ref = repo -> doc_ok bounded (view w) ->
  doc_ok bounded (view (snd (lock_path rand now r ref path w))).
Proof.
  intros Htext Howner Hrepo Hq. unfold lock_path.
  destruct (blen path >? maxLockPathBytes) eqn:El; [done|]. rewrite Z.gtb_ltb, Z.ltb_ge in El. unfold io_bind at 1, lockRoomLeft, io_bind at 1, attempt at 1. rewrite Hrepo.
  destruct (ListLocks repo no_filter w) as [r1 w1] eqn:Elist. apply ListLocks_spec in Elist as [He Hdoc]. pose proof (doc_ok_env _ _ _ He Hq) as Hq1.
  destruct r1 as [[locks next]|e]; [|done]. destruct Hdoc as (doc & next' & Hat & Hpage). apply page_all in Hpage as ->.
  assert (Hcreate : Z.of_nat (length doc) < maxLocksPerRepo \/ path ∈ (l_path <$> doc) -> doc_ok bounded (view (snd (CreateLock rand now repo path (lfsOwner (r_basic r)) w1)))).
  { intros Hroom. unfold CreateLock. case_bool_decide; [done|]. destruct (mutateLocks _ _ w1) as [r2 w2] eqn:Em. revert Em. apply mutate_keeps; [|done].
    intros k a d d' Hd. rewrite (locks_at_unique _ _ _ _ Hd Hat) in Hd |- *.
    apply create_bounded; [done|by destruct (r_basic r) as [[[]]|]|done|by eapply at_text|by apply Hq1|done]. }
  assert (Hdone : Z.of_nat (length doc) < maxLocksPerRepo \/ path ∈ (l_path <$> doc) ->
    doc_ok bounded (view (snd ((try! r := CreateLock rand now repo path (lfsOwner (r_basic r)) in
      match r with Err e => refuse (writeLockError e) | Ok (lock, created) => ret (inr (if created : bool then 201 else 409, LockAnswer lock)) end) w1)))).
  { intros Hroom. specialize (Hcreate Hroom). unfold io_bind, attempt. by destruct (CreateLock _ _ _ _ _ w1) as [[[l c]|e] w2]. }
  destruct (_ <? _) eqn:E1; [apply Hdone; left; by apply Z.ltb_lt|]. destruct (existsb _ doc) eqn:E2; [|done]. apply Hdone. right.
  apply existsb_exists in E2 as (l & Hin & <-%bool_decide_eq_true). apply list_elem_of_fmap. exists l. split; [done|]. by apply list_elem_of_In.
Qed.

(** A repository's lock document stays bounded. While nobody else changes
    it, whatever lock request arrives, for whatever path and limit, the document
    never holds more than the locks allowed, nor a path longer than allowed. *)
Theorem lock_growth_bounded (enabled : bool) ep r w ref :
  ep <> ObjectsBatch -> ep <> ObjectsVerify -> Parse (r_org r ++ slash :: r_name r) = Ok ref -> Path ref = repo ->
  JsonText (lfsOwner (r_basic r)) -> (forall b o p, DecodeLockPath b o = (p, None) -> JsonText p) ->
  doc_ok bounded (view w) -> doc_ok bounded (view (snd (serve rand now authorize s ttl Seconds order Atoi enabled ep r w))).
Proof.
  intros Hep1 Hep2 Hp Hrepo Howner Htext Hq. unfold serve. destruct (negb _); [done|].
  assert (Hb : forall op k, doc_ok bounded (view (snd (k ref w))) -> doc_ok bounded (view (snd (begin_ authorize r op k w)))).
  { intros op k Hk. unfold begin_, lfsBegin. destruct (negb _); [done|]. rewrite Hp. by destruct (authorize _). }
  assert (Hlist : forall f (k : gores (list Lock * bytes) -> io World (refusal + (Z * answer))), (forall r w, snd (k r w) = w) ->
    doc_ok bounded (view (snd ((try! x := ListLocks (Path ref) f in k x) w)))).
  { intros f k Hk. unfold io_bind, attempt. destruct (ListLocks _ f w) as [r1 w1] eqn:El. rewrite Hrepo in El. apply ListLocks_spec in El as [He _]. rewrite Hk. by eapply doc_ok_env. }
  destruct ep; [done|done|apply Hb..].
  - unfold body_. destruct (capLFSBody _ _ _) as [path [[|]|]] eqn:Ed; [done..|]. by apply lock_path_keeps; [eapply Htext|..].
  - apply Hlist. by intros [[locks next]|e] w1.
  - unfold body_. destruct (decodeOptionalLFSBody _); [done|]. apply Hlist. intros [[locks next]|e] w1; [|done]. by destruct (SplitLocks _ _).
  - unfold body_. destruct (decodeOptionalLFSBody _) as [no|force]; [done|]. unfold io_bind, attempt, DeleteLock. rewrite Hrepo.
    destruct (mutateLocks _ _ w) as [r1 w1] eqn:Em. apply (mutate_keeps _ bounded) in Em; [by destruct r1| |done].
    intros k a doc doc' Hat Hd. apply delete_changes in Hd as (i & _ & -> & _). destruct (Hq _ Hat) as [Hn Hall]. split; [apply Forall_delete; by eapply at_text|].
    split; [|by apply Forall_delete]. pose proof (sublist_length _ _ (sublist_delete doc i)). unfold maxLocksPerRepo in *. lia.
Qed.
End growth.

(** ** A lock's owner

    Besides its path, a lock stores the user name of the request, of any length. *)
Example owner_of_any_length x user pass path k rand now doc a doc' :
  create_in rand now path (or_anonymous (lfsOwner (Some (x :: user, pass)))) k doc = (a, Ok doc') -> exists l, last doc' = Some l /\ l_owner l = x :: user.
Proof.
  intros Hc. apply create_changes in Hc as (id & _ & Ha & Hd & _). subst a doc'. eexists. split; [apply last_snoc|reflexivity].
Qed.

(** ** Witness *)

#[local] Instance toy_lfs_json : LfsJson := {|
  DecodeBatch _ _ := ({| q_operation := []; q_transfers := []; q_objects := []; q_hashAlgo := [] |}, Some Malformed);
  DecodePointer b _ := ({| p_oid := b; p_size := 0 |}, None);
  DecodeLockPath b more := (b, if more : bool then Some TooLarge else None);
  DecodeLockVerify _ _ := ({| v_cursor := []; v_limit := 0 |}, None);
  DecodeForce _ _ := (false, None);
|}.
Definition toy_service : lfsService := {| s_maxSize := 0; s_maxBatch := 100; s_externalURL := []; s_allowLocks := true |}.
Definition toy_lock_request : LfsRequest :=
  {| r_org := bs "acme"; r_name := bs "app.git"; r_id := []; r_accept := bs "text/html, application/*;q=0.8"; r_basic := Some (bs "ana", []); r_tls := true;
     r_forwarded := []; r_host := bs "git.example"; r_query _ := []; r_body := bs "art/a.psd" |}.
Example accept_examples : acceptsLFS (r_accept toy_lock_request) = true /\ acceptsLFS (bs "text/html") = false /\ acceptsLFS [] = true.
Proof. by vm_compute. Qed.

Definition toy_lock_served : io bucket (refusal + (Z * answer)) :=
  @serve Plain.plain_s3 plain_promotion plain_presign toy_locks ascii_only toy_lfs_json toy_rand toy_now (fun _ => Allow) toy_service (fun _ => 0) (fun z => z)
    (fun _ => []) (fun _ => 0) true LockCreate toy_lock_request.
Example lock_created_201 : match fst (toy_lock_served ∅) with Ok (inr (201, LockAnswer l)) => bool_decide (l_path l = bs "art/a.psd") | _ => false end = true.
Proof. by vm_compute. Qed.

Lemma lock_growth_bounded_witness :
  @doc_ok toy_locks (bs "acme/app") bounded (snd (toy_lock_served ∅)).
Proof.
  assert (Hquiet : forall b b' : bucket, b = b' -> b' !! LocksKey (bs "acme/app") = b !! LocksKey (bs "acme/app")) by (by intros b b' ->).
  assert (Hp : Parse (r_org toy_lock_request ++ slash :: r_name toy_lock_request) = Ok {| OrgID := bs "acme"; Name := bs "app" |}) by (by vm_compute).
  assert (Hpath : Path {| OrgID := bs "acme"; Name := bs "app" |} = bs "acme/app") by (by vm_compute).
  assert (Hempty : @doc_ok toy_locks (bs "acme/app") bounded ∅).
  { intros doc [[_ ->]|(o & Ho & _)]; [split; [cbn; unfold maxLocksPerRepo; lia|constructor]|by rewrite lookup_empty in Ho]. }
  exact (@lock_growth_bounded Plain.plain_s3 plain_promotion plain_presign toy_locks ascii_only toy_lfs_json toy_locks_laws (fun b => b) eq Plain.plain_s3_laws
    toy_rand toy_now (fun _ => Allow) toy_service (fun _ => 0) (fun z => z) (fun _ => []) (fun _ => 0) (bs "acme/app") Hquiet true LockCreate toy_lock_request ∅
    {| OrgID := bs "acme"; Name := bs "app" |} ltac:(discriminate) ltac:(discriminate) Hp Hpath I (fun _ _ _ _ => I) Hempty).
Defined.
