(* ===== verification/S3Client.v ===== *)
(** * The client of the bucket's filesystem (internal/s3fs: filesystem.go, dir.go)

    The requests internal/s3fs makes ([s3Client]), on a world of their own, with
    what a response tells; then the listings of dir.go. *)

From S2P Require Import Prelude GoLib S3 Storer RepoFs.

(** [HeadObjectOutput] and [GetObjectOutput]; [ro_range] is the Content-Range header. *)
Record headOutput := { h_size : Z; h_mtime : Z; h_meta : gmap bytes bytes }.
Record getOutput (Stream : Type) := {
  ro_length : option Z; ro_range : option bytes; ro_mtime : option Z; ro_meta : gmap bytes bytes; ro_body : Stream }.
Arguments ro_length {Stream}. Arguments ro_range {Stream}. Arguments ro_mtime {Stream}. Arguments ro_meta {Stream}. Arguments ro_body {Stream}.

(** One object of a listing, and a page of it. *)
Record subtreeObject := { so_key : bytes; so_size : Z; so_mtime : Z }.
Record page := { pg_prefixes : list bytes; pg_contents : list subtreeObject; pg_truncated : bool; pg_next : option bytes }.

(** [stream_Read st n] is a [Read] into [n] bytes, [stream_All st] reads to the end. *)
Class S3Client := {
  FWorld : Type;
  Stream : Type;
  stream_Read : Stream -> Z -> (bytes * option goerr) * Stream;
  stream_All : Stream -> gores bytes;
  HeadObjectF : bytes -> io FWorld headOutput;
  GetObjectF : bytes -> option bytes -> io FWorld (getOutput Stream);      (** the key and the Range header *)
  PutObjectF : bytes -> bytes -> gmap bytes bytes -> io FWorld unit;
  ListF : bytes -> bool -> option Z -> option bytes -> io FWorld page;     (** prefix, delimiter or not, MaxKeys, token *)
  DeleteObjectF : bytes -> io FWorld unit;
  RenameObjectF : bytes -> bytes -> io FWorld unit;
  CreateMultipartUploadF : bytes -> gmap bytes bytes -> io FWorld bytes;
  UploadPartF : bytes -> bytes -> Z -> bytes -> io FWorld unit;            (** key, upload, part number, body *)
  CompleteMultipartUploadF : bytes -> bytes -> io FWorld unit;
  NowF : FWorld -> Z;
}.

(** ** Listings (dir.go) *)

Inductive childKind := kindFile | kindDir.
Record childEntry := { ch_name : bytes; ch_kind : childKind; ch_size : Z; ch_mtime : Z }.
#[export] Instance childKind_eq_dec : EqDecision childKind.
Proof. solve_decision. Defined.
#[export] Instance childEntry_eq_dec : EqDecision childEntry.
Proof. solve_decision. Defined.

Definition fileEntry (name : bytes) (o : subtreeObject) : childEntry :=
  {| ch_name := name; ch_kind := kindFile; ch_size := so_size o; ch_mtime := so_mtime o |}.
Definition dirEntry (name : bytes) : childEntry := {| ch_name := name; ch_kind := kindDir; ch_size := 0; ch_mtime := 0 |}.

(** [path.Base] of a name: its last element. *)
Definition pathBase (s : bytes) : bytes :=
  match s with
  | [] => dot
  | _ =>
      let fix strip (l : bytes) : bytes := match l with x :: l' => if bool_decide (x = slash) then strip l' else l | [] => [] end in
      match strip (rev s) with
      | [] => [slash]
      | r => default [] (last (split_slash (rev r)))
      end
  end.

(** The directories and the files that one page adds. *)
Definition page_dirs (prefix : bytes) (pg : page) : list childEntry :=
  omap (fun d => match trim_suffix (trim_prefix d prefix) [slash] with [] => None | name => Some (dirEntry name) end) (pg_prefixes pg).
Definition page_files (prefix : bytes) (pg : page) : list childEntry :=
  omap (fun o =>
    if bool_decide (so_key o = prefix) then None else
    match trim_prefix (so_key o) prefix with [] => None | name => Some (fileEntry (pathBase name) o) end) (pg_contents pg).

Section listings.
Context `{S3Client}.

Fixpoint list_children (fuel : nat) (prefix : bytes) (ct : option bytes) (dirs files : list childEntry) : io FWorld (list childEntry) :=
  match fuel with
  | O => fail OutOfFuel
  | S fuel' =>
      let! res := ListF prefix true None ct in
      let dirs := dirs ++ page_dirs prefix res in
      let files := files ++ page_files prefix res in
      if pg_truncated res then list_children fuel' prefix (pg_next res) dirs files else ret (dirs ++ files)
  end.
Definition listChildren (fuel : nat) (prefix : bytes) : io FWorld (list childEntry) := list_children fuel prefix None [] [].

Fixpoint list_subtree (fuel : nat) (root : bytes) (maxKeys : Z) (ct : option bytes) (objs : list subtreeObject) : io FWorld (list subtreeObject * bool) :=
  match fuel with
  | O => fail OutOfFuel
  | S fuel' =>
      let! res := ListF root false None ct in
      let objs := objs ++ pg_contents res in
      if (0 <? maxKeys) && (maxKeys <? Z.of_nat (length objs)) then ret (objs, true)
      else if pg_truncated res then list_subtree fuel' root maxKeys (pg_next res) objs else ret (objs, false)
  end.
Definition listSubtree (fuel : nat) (root : bytes) (maxKeys : Z) : io FWorld (list subtreeObject * bool) := list_subtree fuel root maxKeys None [].
End listings.

(** [synthesizeListing] (listingcache.go): the directories seen so far, and the
    directories and files found, in order. *)
Definition synth_step (prefix : bytes) (acc : list bytes * list childEntry * list childEntry) (o : subtreeObject)
    : list bytes * list childEntry * list childEntry :=
  let '(seen, dirs, files) := acc in
  if negb (has_prefix (so_key o) prefix) then acc else
  let rest := drop (length prefix) (so_key o) in
  if bool_decide (rest = []) then acc else
  match cut_byte slash rest with
  | Some (name, _) =>
      if bool_decide (name = []) || bool_decide (name ∈ seen) then acc
      else (name :: seen, dirs ++ [dirEntry name], files)
  | None => (seen, dirs, files ++ [fileEntry rest o])
  end.
Definition synthesizeListing (objs : list subtreeObject) (prefix : bytes) : list childEntry :=
  let '(_, dirs, files) := fold_left (synth_step prefix) objs ([], [], []) in dirs ++ files.

(** [splitKey]: the parent prefix and the base name. *)
Definition splitKey (key : bytes) : bytes * bytes :=
  match rev (split_slash key) with
  | base :: ((_ :: _) as d) => (join_slash (rev ([] :: d)), base)
  | _ => ([], key)
  end.

Example split_key_examples : splitKey (bs "a/b/c") = (bs "a/b/", bs "c") /\ splitKey (bs "c") = ([], bs "c") /\ splitKey (bs "a/") = (bs "a/", []) /\
  splitKey (bs "/x") = (bs "/", bs "x").
Proof. by vm_compute. Qed.
