(* ===== verification/ListingCache.v ===== *)
(** * The listing cache of the bucket's filesystem (internal/s3fs/listingcache.go)

    Listings of folders and of whole subtrees, and the heads of objects, each
    with an expiry and the generation its prefix had when it was filled. A write
    raises the generation of its folder and of every folder above. Fills are
    cut where other goroutines can come between: the generation is read, the
    bucket is listed, the result is stored. The operations are those of a caller
    that is alone: [singleflight] then just runs the fill. *)

From S2P Require Import Prelude GoLib S3 Storer RepoFs S3Client.

Record headData := { hd_size : Z; hd_mtime : Z; hd_meta : gmap bytes bytes }.
Record headCacheEntry := { hc_data : headData; hc_gen : Z; hc_expires : Z; hc_hasMeta : bool }.
Record listingEntry := { le_entries : list childEntry; le_gen : Z; le_expires : Z }.
Record subtreeData := { sd_objects : list subtreeObject; sd_truncated : bool }.
Record subtreeEntry := { se_data : subtreeData; se_gen : Z; se_expires : Z }.

(** [cc_recursive] is [None] for a nil slice. *)
Record CacheConfig := { cc_ttl : Z; cc_idleTTL : Z; cc_disableHeadPrefetch : bool; cc_recursive : option (list bytes); cc_maxSubtreeKeys : Z }.

Record ListingCache := {
  lc_cfg : CacheConfig;
  lc_roots : list bytes;
  lc_listings : gmap bytes listingEntry;
  lc_subtrees : gmap bytes subtreeEntry;
  lc_heads : gmap bytes headCacheEntry;
  lc_hits : Z;
  lc_misses : Z;
  lc_gens : gmap bytes Z;
  lc_seen : gmap bytes Z;
}.

Definition ends_slash (p : bytes) : bytes := if has_suffix p [slash] then p else p ++ [slash].

(** Longest first; [sort.Slice] leaves the order of equals open, a stable sort is one choice. *)
Definition longer_leb (a b : bytes) : bool := (length b <=? length a)%nat.
Definition normalizeRoots (prefixes : list bytes) : list bytes :=
  stable_sort longer_leb
    (rev (fold_left (fun out p => match p with [] => out | _ => if bool_decide (ends_slash p ∈ out) then out else ends_slash p :: out end) prefixes [])).

Definition NewListingCache (cfg : CacheConfig) : ListingCache :=
  let cfg := {| cc_ttl := cc_ttl cfg; cc_idleTTL := cc_idleTTL cfg; cc_disableHeadPrefetch := cc_disableHeadPrefetch cfg;
                cc_recursive := Some (default [bs "refs/"] (cc_recursive cfg));
                cc_maxSubtreeKeys := if cc_maxSubtreeKeys cfg <=? 0 then 50000 else cc_maxSubtreeKeys cfg |} in
  {| lc_cfg := cfg; lc_roots := normalizeRoots (default [] (cc_recursive cfg)); lc_listings := ∅; lc_subtrees := ∅; lc_heads := ∅;
     lc_hits := 0; lc_misses := 0; lc_gens := ∅; lc_seen := ∅ |}.

Definition with_entries (l : gmap bytes listingEntry) (s : gmap bytes subtreeEntry) (h : gmap bytes headCacheEntry) (c : ListingCache) : ListingCache :=
  {| lc_cfg := lc_cfg c; lc_roots := lc_roots c; lc_listings := l; lc_subtrees := s; lc_heads := h;
     lc_hits := lc_hits c; lc_misses := lc_misses c; lc_gens := lc_gens c; lc_seen := lc_seen c |}.
Definition with_counts (hits misses : Z) (c : ListingCache) : ListingCache :=
  {| lc_cfg := lc_cfg c; lc_roots := lc_roots c; lc_listings := lc_listings c; lc_subtrees := lc_subtrees c; lc_heads := lc_heads c;
     lc_hits := hits; lc_misses := misses; lc_gens := lc_gens c; lc_seen := lc_seen c |}.
Definition with_gens (g seen : gmap bytes Z) (c : ListingCache) : ListingCache :=
  {| lc_cfg := lc_cfg c; lc_roots := lc_roots c; lc_listings := lc_listings c; lc_subtrees := lc_subtrees c; lc_heads := lc_heads c;
     lc_hits := lc_hits c; lc_misses := lc_misses c; lc_gens := g; lc_seen := seen |}.
Definition with_roots (r : list bytes) (c : ListingCache) : ListingCache :=
  {| lc_cfg := lc_cfg c; lc_roots := r; lc_listings := lc_listings c; lc_subtrees := lc_subtrees c; lc_heads := lc_heads c;
     lc_hits := lc_hits c; lc_misses := lc_misses c; lc_gens := lc_gens c; lc_seen := lc_seen c |}.

(** [registerRoot] *)
Definition registerRoot (root : bytes) (c : ListingCache) : ListingCache :=
  if bool_decide (root = []) then c else
  let root := ends_slash root in
  if bool_decide (root ∈ lc_roots c) then c else with_roots (stable_sort longer_leb (lc_roots c ++ [root])) c.

Definition recursiveRoot (c : ListingCache) (prefix : bytes) : option bytes := find (fun r => has_prefix prefix r) (lc_roots c).

Definition gen (c : ListingCache) (prefix : bytes) : Z := default 0 (lc_gens c !! prefix).

Definition touch (now : Z) (prefix : bytes) (c : ListingCache) : ListingCache := with_gens (lc_gens c) (<[prefix := now]> (lc_seen c)) c.

(** [ancestorPrefixes]; each round leaves a shorter prefix. *)
Fixpoint ancestors (fuel : nat) (prefix : bytes) : list bytes :=
  match fuel with
  | O => []
  | S fuel' => match prefix with [] => [] | _ => let p := fst (splitKey (trim_suffix prefix [slash])) in p :: ancestors fuel' p end
  end.
Definition ancestorPrefixes (prefix : bytes) : list bytes := prefix :: ancestors (length prefix) prefix.

Definition invalidate (now : Z) (prefix : bytes) (c : ListingCache) : ListingCache :=
  fold_left (fun c p => with_gens (<[p := u64 (gen c p + 1)]> (lc_gens c)) (<[p := now]> (lc_seen c)) c) (ancestorPrefixes prefix) c.

(** *** What a read finds *)

Definition fresh_entry (now g expires entry_gen : Z) : bool := (entry_gen =? g) && (now <? expires).

(** A hit of [listFolder], of [subtree] and of [headLoad]. *)
Definition cached_listing (now : Z) (c : ListingCache) (prefix : bytes) : option (list childEntry) :=
  e ← lc_listings c !! prefix; if fresh_entry now (gen c prefix) (le_expires e) (le_gen e) then Some (le_entries e) else None.
Definition cached_subtree (now : Z) (c : ListingCache) (root : bytes) : option subtreeData :=
  e ← lc_subtrees c !! root; if fresh_entry now (gen c root) (se_expires e) (se_gen e) then Some (se_data e) else None.
Definition cached_head (now : Z) (c : ListingCache) (key : bytes) (needMeta : bool) : option headData :=
  e ← lc_heads c !! key;
  if fresh_entry now (gen c (fst (splitKey key))) (hc_expires e) (hc_gen e) && (hc_hasMeta e || negb needMeta) then Some (hc_data e) else None.

(** *** What a fill leaves behind *)

Definition seeded (c : ListingCache) (exp : Z) (prefix : bytes) (size mtime : Z) : headCacheEntry :=
  {| hc_data := {| hd_size := size; hd_mtime := mtime; hd_meta := ∅ |}; hc_gen := gen c prefix; hc_expires := exp; hc_hasMeta := false |}.

Definition seedHeads (now : Z) (prefix : bytes) (entries : list childEntry) (c : ListingCache) : ListingCache :=
  if cc_disableHeadPrefetch (lc_cfg c) then c else
  with_entries (lc_listings c) (lc_subtrees c)
    (fold_left (fun h e => match ch_kind e with
                           | kindFile => <[prefix ++ ch_name e := seeded c (now + cc_ttl (lc_cfg c)) prefix (ch_size e) (ch_mtime e)]> h
                           | kindDir => h end) entries (lc_heads c)) c.

Definition seedSubtreeHeads (now : Z) (objs : list subtreeObject) (c : ListingCache) : ListingCache :=
  if cc_disableHeadPrefetch (lc_cfg c) then c else
  with_entries (lc_listings c) (lc_subtrees c)
    (fold_left (fun h o => match splitKey (so_key o) with
                           | (_, []) => h
                           | (prefix, _) => <[so_key o := seeded c (now + cc_ttl (lc_cfg c)) prefix (so_size o) (so_mtime o)]> h end) objs (lc_heads c)) c.

Definition store_listing (now : Z) (prefix : bytes) (entries : list childEntry) (g : Z) (c : ListingCache) : ListingCache :=
  with_entries (<[prefix := {| le_entries := entries; le_gen := g; le_expires := now + cc_ttl (lc_cfg c) |}]> (lc_listings c)) (lc_subtrees c) (lc_heads c) c.
Definition store_subtree (now : Z) (root : bytes) (data : subtreeData) (g : Z) (c : ListingCache) : ListingCache :=
  with_entries (lc_listings c) (<[root := {| se_data := data; se_gen := g; se_expires := now + cc_ttl (lc_cfg c) |}]> (lc_subtrees c)) (lc_heads c) c.
Definition store_head (now : Z) (key : bytes) (d : headData) (g : Z) (c : ListingCache) : ListingCache :=
  with_entries (lc_listings c) (lc_subtrees c)
    (<[key := {| hc_data := d; hc_gen := g; hc_expires := now + cc_ttl (lc_cfg c); hc_hasMeta := true |}]> (lc_heads c)) c.

(** [sweepExpired] *)
Definition sweepExpired (now : Z) (c : ListingCache) : ListingCache :=
  with_entries (filter (fun kv => (now <? le_expires kv.2) = true) (lc_listings c))
    (filter (fun kv => (now <? se_expires kv.2) = true) (lc_subtrees c))
    (filter (fun kv => (now <? hc_expires kv.2) = true) (lc_heads c)) c.

(** ** The operations, alone *)

Section ops.
Context `{S3Client}.
(** How many pages a listing may have. *)
Context (pages : nat).

Record CacheSt := { cs_world : FWorld; cs_cache : ListingCache }.
Abbreviation M := (io CacheSt).

Definition on_bucket {A} (m : io FWorld A) : M A := fun s => let '(r, w) := m (cs_world s) in (r, {| cs_world := w; cs_cache := cs_cache s |}).
(** A change of the cache at the time of the clock. *)
Definition on_cache (f : Z -> ListingCache -> ListingCache) : M unit :=
  modify (fun s => {| cs_world := cs_world s; cs_cache := f (NowF (cs_world s)) (cs_cache s) |}).

Definition fillFolder (prefix : bytes) (g : Z) : M (list childEntry) :=
  let! entries := on_bucket (listChildren pages prefix) in
  do! on_cache (fun now => store_listing now prefix entries g) in
  do! on_cache (fun now => seedHeads now prefix entries) in
  ret entries.

Definition listFolder (prefix : bytes) : M (list childEntry) :=
  let! g := gets (fun s => gen (cs_cache s) prefix) in
  let! hit := gets (fun s => cached_listing (NowF (cs_world s)) (cs_cache s) prefix) in
  match hit with
  | Some entries => do! on_cache (fun _ c => with_counts (lc_hits c + 1) (lc_misses c) c) in ret entries
  | None => do! on_cache (fun _ c => with_counts (lc_hits c) (lc_misses c + 1) c) in fillFolder prefix g
  end.

Definition fillSubtree (root : bytes) (g : Z) : M subtreeData :=
  let! maxKeys := gets (fun s => cc_maxSubtreeKeys (lc_cfg (cs_cache s))) in
  let! (objs, truncated) := on_bucket (listSubtree pages root maxKeys) in
  let data := {| sd_objects := objs; sd_truncated := truncated |} in
  do! on_cache (fun now => store_subtree now root data g) in
  do! (if truncated then ret tt else on_cache (fun now => seedSubtreeHeads now objs)) in
  ret data.

Definition subtree (root : bytes) : M subtreeData :=
  let! g := gets (fun s => gen (cs_cache s) root) in
  let! hit := gets (fun s => cached_subtree (NowF (cs_world s)) (cs_cache s) root) in
  match hit with
  | Some data => do! on_cache (fun _ c => with_counts (lc_hits c + 1) (lc_misses c) c) in ret data
  | None => do! on_cache (fun _ c => with_counts (lc_hits c) (lc_misses c + 1) c) in fillSubtree root g
  end.

(** [ListingCache.list] *)
Definition list_cached (prefix : bytes) : M (list childEntry) :=
  do! on_cache (fun now => touch now prefix) in
  let! root := gets (fun s => recursiveRoot (cs_cache s) prefix) in
  match root with
  | Some root =>
      try! st := subtree root in
      match st with
      | Ok st => if sd_truncated st then listFolder prefix else ret (synthesizeListing (sd_objects st) prefix)
      | Err _ => listFolder prefix
      end
  | None => listFolder prefix
  end.

Definition headLoad (key : bytes) (needMeta : bool) : M headData :=
  let! g := gets (fun s => gen (cs_cache s) (fst (splitKey key))) in
  let! hit := gets (fun s => cached_head (NowF (cs_world s)) (cs_cache s) key needMeta) in
  match hit with
  | Some d => ret d
  | None =>
      let! ho := on_bucket (HeadObjectF key) in
      let d := {| hd_size := h_size ho; hd_mtime := h_mtime ho; hd_meta := h_meta ho |} in
      do! on_cache (fun now => store_head now key d g) in
      ret d
  end.

(** [ListingCache.headInfo] *)
Definition head_cached (key : bytes) (needMeta : bool) : M headOutput :=
  let! d := headLoad key needMeta in ret {| h_size := hd_size d; h_mtime := hd_mtime d; h_meta := hd_meta d |}.

(** A refresh of each; what fails is left as it is. *)
Fixpoint each {A} (f : bytes -> M A) (l : list bytes) : M unit :=
  match l with [] => ret tt | p :: l' => try! _ := f p in each f l' end.

(** [warmOnce]: the order in which a map is ranged over is the argument. *)
Definition idle (now : Z) (c : ListingCache) (p : bytes) : bool :=
  match lc_seen c !! p with Some t => (0 <? cc_idleTTL (lc_cfg c)) && (cc_idleTTL (lc_cfg c) <? now - t) | None => true end.
Definition warmOnce (order : list bytes) : M unit :=
  let! now := gets (fun s => NowF (cs_world s)) in
  let! c := gets cs_cache in
  do! on_cache (fun _ c => with_gens (lc_gens c) (filter (fun kv => idle now c kv.1 = false) (lc_seen c)) c) in
  let prefixes := filter (fun p => idle now c p = false) order in
  do! each (fun p => let! g := gets (fun s => gen (cs_cache s) p) in fillFolder p g) (filter (fun p => recursiveRoot c p = None) prefixes) in
  do! each (fun p => let! g := gets (fun s => gen (cs_cache s) p) in fillSubtree p g) (remove_dups (omap (recursiveRoot c) prefixes)) in
  on_cache (fun _ => sweepExpired now).
End ops.
