(* ===== verification/ListingCacheSpec.v ===== *)
(** * What the listing cache promises (internal/s3fs/listingcache.go, dir.go)

    A folder answered from a scan of a whole subtree is the folder's own
    listing; and what the cache answers is what the bucket holds, as long as the
    operations do not overlap. *)

From S2P Require Import Prelude GoLib S3 Storer RepoFs S3Client ListingCache.

(** ** What a listing should be *)

(** The name below [prefix] of the folder [o] lies in, or of [o] itself. *)
Definition below (prefix : bytes) (o : subtreeObject) : bytes := drop (length prefix) (so_key o).
Definition folder_of (prefix : bytes) (o : subtreeObject) : option bytes := fst <$> cut_byte slash (below prefix o).

(** Duplicates dropped, the first kept. *)
Fixpoint firsts (seen l : list bytes) : list bytes :=
  match l with [] => [] | x :: l' => if bool_decide (x ∈ seen) then firsts seen l' else x :: firsts (x :: seen) l' end.

Definition under (prefix : bytes) (objs : list subtreeObject) : list subtreeObject := filter (fun o => has_prefix (so_key o) prefix = true) objs.
Definition folders (prefix : bytes) (objs : list subtreeObject) : list bytes :=
  filter (fun n => n <> []) (omap (folder_of prefix) (under prefix objs)).
Definition plain (prefix : bytes) (o : subtreeObject) : bool := match folder_of prefix o with None => true | Some _ => false end.

(** The immediate children of [prefix]: its folders, then its files. *)
Definition childrenOf (objs : list subtreeObject) (prefix : bytes) : list childEntry :=
  (dirEntry <$> firsts [] (folders prefix objs)) ++
  ((fun o => fileEntry (below prefix o) o) <$> filter (fun o => below prefix o <> []) (filter (fun o => plain prefix o = true) (under prefix objs))).

Lemma firsts_app seen a b : firsts seen (a ++ b) = firsts seen a ++ firsts (rev a ++ seen) b.
Proof.
  revert seen. induction a as [|x a IH]; intros seen; cbn; [done|]. case_bool_decide as Hx.
  - rewrite IH. f_equal. rewrite <-app_assoc. cbn. clear IH. revert Hx. generalize (rev a). intros l Hx.
    enough (Hg : forall s1 s2, (forall y, y ∈ s1 <-> y ∈ s2) -> firsts s1 b = firsts s2 b) by (apply Hg; intros y; rewrite !elem_of_app, elem_of_cons; naive_solver).
    clear. induction b as [|y b IH]; intros s1 s2 Hs; cbn; [done|]. case_bool_decide as H1; case_bool_decide as H2; try (exfalso; naive_solver); [by apply IH|].
    f_equal. apply IH. intros z. rewrite !elem_of_cons. naive_solver.
  - cbn. f_equal. rewrite IH. by rewrite <-app_assoc.
Qed.
Lemma firsts_seen s1 s2 b : (forall y, y ∈ b -> y ∈ s1 <-> y ∈ s2) -> firsts s1 b = firsts s2 b.
Proof.
  revert s1 s2. induction b as [|y b IH]; intros s1 s2 Hs; cbn; [done|]. pose proof (Hs y ltac:(left)) as Hy.
  case_bool_decide as H1; case_bool_decide as H2; try (exfalso; naive_solver); [apply IH; intros z Hz; apply Hs; by right|].
  f_equal. apply IH. intros z Hz. rewrite !elem_of_cons. rewrite Hs by (by right). done.
Qed.
Lemma elem_of_firsts seen l x : x ∈ firsts seen l <-> x ∈ l /\ x ∉ seen.
Proof.
  revert seen. induction l as [|y l IH]; intros seen; cbn; [set_solver|]. case_bool_decide as Hy.
  - rewrite IH. set_solver.
  - rewrite elem_of_cons, IH. destruct (decide (x = y)) as [->|]; set_solver.
Qed.

(** The loop of [synthesizeListing]. *)
Lemma synth_fold prefix objs seen dirs files :
  fold_left (synth_step prefix) objs (seen, dirs, files) =
  (rev (firsts seen (folders prefix objs)) ++ seen, dirs ++ (dirEntry <$> firsts seen (folders prefix objs)),
   files ++ ((fun o => fileEntry (below prefix o) o) <$> filter (fun o => below prefix o <> []) (filter (fun o => plain prefix o = true) (under prefix objs)))).
Proof.
  revert seen dirs files. induction objs as [|o objs IH]; intros seen dirs files; cbn [fold_left]; [by rewrite !app_nil_r|].
  unfold folders, under. rewrite filter_cons. destruct (has_prefix (so_key o) prefix) eqn:Ep; cbn [negb].
  2:{ replace (synth_step prefix (seen, dirs, files) o) with (seen, dirs, files) by (unfold synth_step; by rewrite Ep). rewrite decide_False by done. apply IH. }
  rewrite decide_True by done. cbn [omap list_omap]. unfold synth_step. rewrite Ep. cbn [negb]. fold (below prefix o) (under prefix objs).
  rewrite (filter_cons (fun o => plain prefix o = true)).
  assert (Hf : folder_of prefix o = fst <$> cut_byte slash (below prefix o)) by done. rewrite Hf.
  assert (Hp : plain prefix o = match cut_byte slash (below prefix o) with None => true | Some _ => false end) by (unfold plain; rewrite Hf; by destruct (cut_byte slash (below prefix o))).
  destruct (cut_byte slash (below prefix o)) as [[name rest]|] eqn:Ec; cbn [fmap option_fmap option_map fst].
  - assert (Hne : below prefix o <> []) by (intros Hn; by rewrite Hn in Ec). rewrite (bool_decide_false (below prefix o = [])) by done. rewrite decide_False by (by rewrite Hp). rewrite filter_cons. destruct (decide (name <> [])) as [Hn|Hn].
    + rewrite bool_decide_false by done. cbn [firsts orb]. case_bool_decide as Hs; [apply IH|].
      rewrite IH. cbn [rev]. unfold folders. by rewrite <-!app_assoc.
    + rewrite bool_decide_true by (destruct name; [done|by destruct Hn]). apply IH.
  - rewrite decide_True by (by rewrite Hp). rewrite filter_cons. case_bool_decide as En; [rewrite decide_False by (intros Hn; by apply Hn); apply IH|].
    rewrite decide_True by done. cbn [fmap list_fmap]. rewrite IH. by rewrite <-app_assoc.
Qed.

Lemma synthesize_children objs prefix : synthesizeListing objs prefix = childrenOf objs prefix.
Proof. unfold synthesizeListing. by rewrite synth_fold. Qed.

(** ** The bucket's own listings *)

(** The objects of the bucket in order, and what of a listing is left at a token:
    [ListObjectsV2] gives them page by page, a folder only once, and the objects
    in folders not at all when there is a delimiter. Nobody else writes. *)
Class ListingLaws `{S3Client} (objects : FWorld -> list subtreeObject)
    (remaining : bytes -> bool -> option bytes -> list subtreeObject -> list subtreeObject) := {
  remaining_start p d objs : remaining p d None objs = under p objs;
  List_ok p d mk t w r w' : ListF p d mk t w = (r, w') -> objects w' = objects w /\
    forall pg, r = Ok pg -> exists here later, remaining p d t (objects w) = here ++ later /\
      later = (if pg_truncated pg then remaining p d (pg_next pg) (objects w) else []) /\ (pg_truncated pg = true -> here <> []) /\
      pg_contents pg = (if d then filter (fun o => plain p o = true) here else here) /\
      pg_prefixes pg = (if d then (fun n => p ++ n ++ [slash]) <$> firsts [] (omap (folder_of p) here) else []) /\
      (d = true -> forall n, n ∈ omap (folder_of p) here -> n ∉ omap (folder_of p) later);
}.

Lemma firsts_filter (P : bytes -> Prop) `{!forall x, base.Decision (P x)} seen l : filter P (firsts seen l) = firsts seen (filter P l).
Proof.
  revert seen. induction l as [|x l IH]; intros seen; [done|]. rewrite (filter_cons _ x l). cbn [firsts].
  case_bool_decide as Hx; destruct (decide (P x)) as [HP|HP]; cbn [firsts].
  - rewrite bool_decide_true by done. apply IH.
  - apply IH.
  - rewrite bool_decide_false by done. by rewrite filter_cons, decide_True, IH.
  - rewrite filter_cons, decide_False, IH by done. apply firsts_seen. intros y [Hy _]%list_elem_of_filter. rewrite elem_of_cons.
    split; [intros [->|]; done|by right].
Qed.

Lemma below_trim p o : has_prefix (so_key o) p = true -> trim_prefix (so_key o) p = below p o /\ (so_key o = p <-> below p o = []).
Proof.
  intros Hp. unfold trim_prefix, below. rewrite Hp. split; [done|]. apply has_prefix_spec in Hp as [r ->]. rewrite drop_app_length.
  split; [intros Hr; by apply (app_inv_head p); rewrite app_nil_r|intros ->; by rewrite app_nil_r].
Qed.

Lemma cut_byte_none s : cut_byte slash s = None -> slash ∉ s.
Proof.
  induction s as [|x s IH]; [by intros _ ?%elem_of_nil|]. cbn. case_bool_decide as Hx; [done|]. destruct (cut_byte slash s) as [[a b]|]; [done|].
  intros _ [Heq|Hin]%elem_of_cons; [by symmetry in Heq|by apply IH].
Qed.
Lemma pathBase_plain s : s <> [] -> cut_byte slash s = None -> pathBase s = s.
Proof.
  intros Hs Hc. unfold pathBase. destruct s as [|x s]; [done|]. pose proof (cut_byte_none _ Hc) as Hn.
  destruct (rev (x :: s)) as [|y l] eqn:Er; [by apply (f_equal (@length _)) in Er; rewrite length_rev in Er|].
  rewrite bool_decide_false.
  - by rewrite <-Er, rev_involutive, split_no_slash.
  - intros ->. apply Hn. rewrite list_elem_of_In, in_rev, Er. by left.
Qed.

Lemma page_dirs_spec p here pg : pg_prefixes pg = (fun n => p ++ n ++ [slash]) <$> firsts [] (omap (folder_of p) here) ->
  page_dirs p pg = dirEntry <$> firsts [] (filter (fun n => n <> []) (omap (folder_of p) here)).
Proof.
  intros Hp. unfold page_dirs. rewrite Hp, <-firsts_filter. generalize (firsts [] (omap (folder_of p) here)). intros l.
  induction l as [|n l IH]; [done|]. cbn [fmap list_fmap omap list_omap]. rewrite filter_cons. unfold trim_prefix at 1. rewrite has_prefix_app, drop_app_length, trim_suffix_app.
  destruct n as [|x n]; [rewrite decide_False by (intros Hn; by apply Hn); exact IH|]. rewrite decide_True by done. cbn. f_equal. exact IH.
Qed.

Lemma page_files_spec p here pg : Forall (fun o => has_prefix (so_key o) p = true) here -> pg_contents pg = filter (fun o => plain p o = true) here ->
  page_files p pg = (fun o => fileEntry (below p o) o) <$> filter (fun o => below p o <> []) (filter (fun o => plain p o = true) here).
Proof.
  intros Hall Hc. unfold page_files. rewrite Hc. clear Hc. induction Hall as [|o here Ho _ IH]; [done|]. rewrite (filter_cons (fun o => plain p o = true)).
  destruct (decide (plain p o = true)) as [Hpl|Hpl]; [|exact IH]. cbn [omap list_omap]. rewrite filter_cons.
  destruct (below_trim _ _ Ho) as [Ht Hk]. rewrite Ht. destruct (decide (below p o <> [])) as [Hb|Hb].
  - rewrite bool_decide_false by (by rewrite Hk). cbn [fmap list_fmap]. rewrite IH.
    assert (Hcut : cut_byte slash (below p o) = None) by (unfold plain, folder_of in Hpl; by destruct (cut_byte slash (below p o))).
    destruct (below p o) as [|x b]; [done|]. by rewrite pathBase_plain.
  - rewrite bool_decide_true by (apply Hk; destruct (below p o); [done|by destruct Hb]). exact IH.
Qed.

Section quiet.
Context `{S3Client} (objects : FWorld -> list subtreeObject) (remaining : bytes -> bool -> option bytes -> list subtreeObject -> list subtreeObject).
Context `{!ListingLaws objects remaining}.

Definition dirs_of (p : bytes) (l : list subtreeObject) : list childEntry := dirEntry <$> firsts [] (filter (fun n => n <> []) (omap (folder_of p) l)).
Definition files_of (p : bytes) (l : list subtreeObject) : list childEntry :=
  (fun o => fileEntry (below p o) o) <$> filter (fun o => below p o <> []) (filter (fun o => plain p o = true) l).

Lemma dirs_of_app p a b : (forall n, n ∈ omap (folder_of p) a -> n ∉ omap (folder_of p) b) -> dirs_of p (a ++ b) = dirs_of p a ++ dirs_of p b.
Proof.
  intros Hd. unfold dirs_of. rewrite omap_app, filter_app, firsts_app, fmap_app. f_equal. f_equal. apply firsts_seen. intros n Hn.
  rewrite app_nil_r. split; [|by intros ?%elem_of_nil]. rewrite list_elem_of_In, <-in_rev, <-list_elem_of_In.
  intros [_ Ha]%list_elem_of_filter. apply list_elem_of_filter in Hn as [_ Hb]. by destruct (Hd n).
Qed.

Lemma list_children_spec fuel p t dirs files w es w' : Forall (fun o => has_prefix (so_key o) p = true) (remaining p true t (objects w)) ->
  list_children fuel p t dirs files w = (Ok es, w') ->
  objects w' = objects w /\ es = (dirs ++ dirs_of p (remaining p true t (objects w))) ++ files ++ files_of p (remaining p true t (objects w)).
Proof.
  revert t dirs files w. induction fuel as [|n IH]; intros t dirs files w Hall Hr; cbn [list_children] in Hr; [done|].
  apply io_bind_ok in Hr as (pg & w1 & Hl & Hr). apply List_ok in Hl as [Hw (here & later & Hrem & Hlat & _ & Hc & Hp & Hdis)%(fun f => f pg eq_refl)].
  cbn in Hc, Hp. rewrite Hrem in *. apply Forall_app in Hall as [Hhere Hlater].
  rewrite (page_dirs_spec p here pg Hp), (page_files_spec p here pg Hhere Hc) in Hr. fold (dirs_of p here) (files_of p here) in Hr.
  rewrite dirs_of_app by (by apply Hdis). unfold files_of. rewrite !filter_app, fmap_app. fold (files_of p here) (files_of p later).
  destruct (pg_truncated pg).
  - apply IH in Hr as [Hw' ->]; [|by rewrite Hw, <-Hlat]. rewrite Hw', Hw, <-Hlat. split; [done|]. by rewrite <-!app_assoc.
  - injection Hr as <- <-. rewrite Hlat. cbn. rewrite !app_nil_r. done.
Qed.

Lemma listChildren_spec fuel p w es w' : listChildren fuel p w = (Ok es, w') -> objects w' = objects w /\ es = childrenOf (objects w) p.
Proof.
  intros Hr. apply list_children_spec in Hr; rewrite remaining_start in *; [exact Hr|]. apply Forall_forall. by intros o [Ho _]%list_elem_of_filter.
Qed.

Lemma list_children_quiet fuel p t dirs files w r w' : list_children fuel p t dirs files w = (r, w') -> objects w' = objects w.
Proof.
  revert t dirs files w. induction fuel as [|n IH]; intros t ds fs w Hr; cbn [list_children] in Hr; [by injection Hr as _ <-|].
  apply io_bind_inv in Hr as [(pg & w1 & Hl & Hr)|(e & Hl & _)]; apply List_ok in Hl as [Hw _]; [|done].
  destruct (pg_truncated pg); [apply IH in Hr; by rewrite Hr|by injection Hr as _ <-].
Qed.
Lemma listChildren_quiet fuel p w r w' : listChildren fuel p w = (r, w') -> objects w' = objects w.
Proof. apply list_children_quiet. Qed.

Lemma list_subtree_spec fuel root mk t objs w r w' : list_subtree fuel root mk t objs w = (r, w') ->
  objects w' = objects w /\ forall all, r = Ok (all, false) -> all = objs ++ remaining root false t (objects w).
Proof.
  revert t objs w. induction fuel as [|n IH]; intros t objs w Hr; cbn [list_subtree] in Hr; [by injection Hr as <- <-|].
  apply io_bind_inv in Hr as [(pg & w1 & Hl & Hr)|(e & Hl & ->)]; apply List_ok in Hl as [Hw Hl]; [|done].
  destruct (Hl pg eq_refl) as (here & later & Hrem & Hlat & _ & Hc & _). cbn in Hc. rewrite Hrem, Hc in *.
  destruct (_ && _); [by injection Hr as <- <-|]. destruct (pg_truncated pg).
  - apply IH in Hr as [Hw' Hr]. split; [by rewrite Hw'|]. intros all Hall. rewrite (Hr all Hall), Hw, <-Hlat. by rewrite <-app_assoc.
  - injection Hr as <- <-. split; [done|]. intros all [= <-]. by rewrite Hlat, app_nil_r.
Qed.

(** An error is one the bucket gave: the pages come to an end. *)
Definition bucket_said (e : goerr) : Prop := exists p d mk t w w', ListF p d mk t w = (Err e, w').

Lemma list_children_ends fuel p t ds fs w e w' : (length (remaining p true t (objects w)) < fuel)%nat ->
  list_children fuel p t ds fs w = (Err e, w') -> bucket_said e.
Proof.
  revert t ds fs w. induction fuel as [|n IH]; intros t ds fs w Hl Hr; [lia|]. cbn [list_children] in Hr.
  apply io_bind_inv in Hr as [(pg & w1 & Hp & Hr)|(e' & Hp & [= ->])]; [|by repeat eexists].
  apply List_ok in Hp as [Hw (here & later & Hrem & Hlat & Hne & _)%(fun f => f pg eq_refl)]. destruct (pg_truncated pg); [|done].
  apply IH in Hr; [done|]. rewrite Hw, <-Hlat. rewrite Hrem, length_app in Hl. destruct here; [by destruct Hne|]. cbn in Hl. lia.
Qed.
Lemma listChildren_ends fuel p w e w' : (length (objects w) < fuel)%nat -> listChildren fuel p w = (Err e, w') -> bucket_said e.
Proof.
  intros Hf. apply list_children_ends. rewrite remaining_start. unfold under. pose proof (length_filter (fun o => has_prefix (so_key o) p = true) (objects w)). lia.
Qed.

Lemma listSubtree_spec fuel root mk w r w' : listSubtree fuel root mk w = (r, w') ->
  objects w' = objects w /\ forall all, r = Ok (all, false) -> all = under root (objects w).
Proof. intros Hr. apply list_subtree_spec in Hr. by rewrite remaining_start in Hr. Qed.
End quiet.

(** A folder inside a subtree needs only the subtree's objects. *)
Lemma children_under objs root p : has_prefix p root = true -> childrenOf (under root objs) p = childrenOf objs p.
Proof.
  intros Hr. unfold childrenOf, folders. replace (under p (under root objs)) with (under p objs); [done|]. unfold under.
  rewrite list_filter_filter. apply list_filter_iff. intros o. split; [|naive_solver].
  intros Ho. split; [done|]. apply has_prefix_spec in Hr as [x ->], Ho as [y ->]. rewrite <-app_assoc. apply has_prefix_app.
Qed.

(** ** Prefixes *)

(** The root, or a folder. *)
Definition proper (p : bytes) : Prop := p = [] \/ exists q, p = q ++ [slash].

Lemma join_split s : join_slash (split_slash s) = s.
Proof.
  induction s as [|x s IH]; [done|]. cbn. case_bool_decide as Hx.
  - pose proof (split_nonempty s) as Hn. destruct (split_slash s) as [|y l]; [done|]. change (join_slash ([] :: y :: l)) with (slash :: join_slash (y :: l)). by rewrite IH, Hx.
  - pose proof (split_nonempty s) as Hn. destruct (split_slash s) as [|y l]; [done|]. rewrite <-IH. by destruct l.
Qed.
Lemma join_snoc l b : l <> [] -> join_slash (l ++ [b]) = join_slash l ++ slash :: b.
Proof.
  induction l as [|x l IH]; [done|]. intros _. destruct l as [|y l]; [done|]. cbn [app]. change (join_slash (x :: y :: l ++ [b])) with (x ++ slash :: join_slash ((y :: l) ++ [b])).
  rewrite IH by done. change (join_slash (x :: y :: l)) with (x ++ slash :: join_slash (y :: l)). by rewrite <-app_assoc.
Qed.

Lemma splitKey_spec s : s = fst (splitKey s) ++ snd (splitKey s) /\ slash ∉ snd (splitKey s) /\ proper (fst (splitKey s)).
Proof.
  unfold splitKey. pose proof (split_parts s) as Hp. pose proof (join_split s) as Hj. destruct (rev (split_slash s)) as [|base d] eqn:Er.
  - apply (f_equal (@length _)) in Er. rewrite length_rev in Er. pose proof (split_nonempty s). by destruct (split_slash s).
  - assert (Hs : split_slash s = rev d ++ [base]) by (by rewrite <-(rev_involutive (split_slash s)), Er).
    rewrite Hs in Hp, Hj. apply Forall_app in Hp as [_ Hb%Forall_inv]. destruct d as [|y d]; cbn [fst snd].
    + cbn in Hj. subst s. split; [done|]. split; [done|by left].
    + assert (Hn : rev (y :: d) <> []) by (intros Hn; apply (f_equal (@length _)) in Hn; by rewrite length_rev in Hn).
      cbn [rev]. cbn [rev] in Hn, Hj. rewrite (join_snoc _ []) by done. rewrite join_snoc in Hj by done. split; [by rewrite <-Hj, <-app_assoc|].
      split; [done|]. right. eexists. done.
Qed.

Lemma parent_greatest s p : proper p -> p `prefix_of` s -> p `prefix_of` fst (splitKey s).
Proof.
  destruct (splitKey_spec s) as (Hs & Hn & _). intros [->|[q ->]]; [by intros _; apply prefix_nil|]. intros [r Hr].
  destruct (splitKey s) as [a b]. cbn [fst snd] in *. rewrite Hs in Hr. rewrite <-app_assoc in Hr. cbn in Hr. clear Hs.
  revert a Hr. induction q as [|x q IH]; intros a Hr.
  - destruct a as [|y a]; cbn in Hr; [exfalso; apply Hn; rewrite Hr; by left|]. injection Hr as -> _. exists a. done.
  - destruct a as [|y a]; cbn in Hr; [exfalso; apply Hn; rewrite Hr; right; apply elem_of_app; right; by left|].
    injection Hr as -> Hr. apply prefix_cons. by apply IH.
Qed.

Lemma trim_slash_prefix p q : p `prefix_of` q -> p <> q -> p `prefix_of` trim_suffix q [slash].
Proof.
  intros [y Hy] Hne. unfold trim_suffix. destruct (has_suffix q [slash]) eqn:Es; [|by exists y]. apply has_suffix_spec in Es as [r Er]. rewrite Er in *.
  rewrite length_app. cbn [length]. replace (length r + 1 - 1)%nat with (length r) by lia. rewrite take_app_length.
  destruct (rev y) as [|z y'] eqn:Ey; [apply (f_equal (@rev _)) in Ey; rewrite rev_involutive in Ey; cbn in Ey; subst y; rewrite app_nil_r in Hy; by symmetry in Hy|].
  apply (f_equal (@rev _)) in Ey. rewrite rev_involutive in Ey. cbn in Ey. rewrite Ey, app_assoc in Hy. apply app_inj_tail in Hy as [-> _]. by exists (rev y').
Qed.

Lemma parent_shorter s : s <> [] -> (length (fst (splitKey (trim_suffix s [slash]))) < length s)%nat.
Proof.
  intros Hne. assert (Hpos : (0 < length s)%nat) by (destruct s; [done|cbn; lia]).
  destruct (splitKey_spec (trim_suffix s [slash])) as (Hs & Hns & Hpr). set (t := trim_suffix s [slash]) in *.
  assert (Hlt : length t = (length (fst (splitKey t)) + length (snd (splitKey t)))%nat) by (rewrite Hs at 1; by rewrite length_app).
  unfold t, trim_suffix in *. destruct (has_suffix s [slash]) eqn:Es.
  - rewrite length_take in Hlt. cbn [length] in *. lia.
  - destruct (decide (length (snd (splitKey s)) = 0%nat)) as [Hz|Hz]; [|lia]. exfalso. apply nil_length_inv in Hz. rewrite Hz, app_nil_r in Hs.
    destruct Hpr as [He|[r He]]; rewrite He in Hs; [done|]. rewrite Hs in Es. apply not_true_iff_false in Es. apply Es. apply has_suffix_spec. by exists r.
Qed.

Lemma ancestors_in fuel q p : proper p -> p `prefix_of` q -> p <> q -> (length q <= fuel)%nat -> p ∈ ancestors fuel q.
Proof.
  revert q. induction fuel as [|n IH]; intros q Hp Hpq Hne Hl; [destruct q; [|cbn in Hl; lia]; apply prefix_nil_inv in Hpq; by subst|].
  destruct q as [|x q]; [apply prefix_nil_inv in Hpq; by subst|]. cbn [ancestors]. set (s := x :: q) in *.
  pose proof (parent_greatest _ _ Hp (trim_slash_prefix _ _ Hpq Hne)) as Hg. pose proof (parent_shorter s ltac:(done)) as Hsh.
  destruct (decide (p = fst (splitKey (trim_suffix s [slash])))) as [->|Hd]; [by left|]. right. apply IH; [done..|lia].
Qed.

Lemma ancestors_shorter fuel q p : p ∈ ancestors fuel q -> (length p < length q)%nat.
Proof.
  revert q. induction fuel as [|n IH]; intros q; [by intros ?%elem_of_nil|]. destruct q as [|x q]; cbn [ancestors]; [by intros ?%elem_of_nil|].
  pose proof (parent_shorter (x :: q) ltac:(done)) as Hsh. intros [->|Hin]%elem_of_cons; [done|]. apply IH in Hin. lia.
Qed.
Lemma ancestorPrefixes_nodup q : NoDup (ancestorPrefixes q).
Proof.
  unfold ancestorPrefixes. constructor; [intros Hin; apply ancestors_shorter in Hin; lia|]. set (fuel := length q). clearbody fuel.
  revert q. induction fuel as [|n IH]; intros q; [constructor|]. destruct q as [|x q]; cbn [ancestors]; [constructor|].
  constructor; [intros Hin; apply ancestors_shorter in Hin; lia|apply IH].
Qed.

Lemma ancestorPrefixes_in k p : proper p -> p `prefix_of` k -> p ∈ ancestorPrefixes (fst (splitKey k)).
Proof.
  intros Hp Hk. pose proof (parent_greatest _ _ Hp Hk) as Hg. unfold ancestorPrefixes. destruct (decide (p = fst (splitKey k))) as [->|Hne]; [by left|].
  right. by apply ancestors_in.
Qed.

Lemma ancestorPrefixes_proper q p : proper q -> p ∈ ancestorPrefixes q -> proper p.
Proof.
  intros Hq. unfold ancestorPrefixes. intros [->|Hin]%elem_of_cons; [done|]. revert Hin. generalize (length q). intros fuel. clear Hq. revert q.
  induction fuel as [|n IH]; intros q; [by intros ?%elem_of_nil|]. destruct q as [|x q]; cbn [ancestors]; [by intros ?%elem_of_nil|].
  intros [->|Hin]%elem_of_cons; [apply splitKey_spec|by eapply IH].
Qed.

(** ** An honest cache *)

(** [objs'] is [objs] but for the object at [k]. *)
Definition changed_at (k : bytes) (objs objs' : list subtreeObject) : Prop :=
  filter (fun o => so_key o <> k) objs = filter (fun o => so_key o <> k) objs'.

(** An object named like the folder is no child of it. *)
Lemma children_but p objs : childrenOf objs p = childrenOf (filter (fun o => so_key o <> p) objs) p.
Proof.
  unfold childrenOf, folders. f_equal; [f_equal; f_equal|f_equal].
  - induction objs as [|o objs IH]; [done|]. rewrite (filter_cons (fun o => so_key o <> p)). unfold under in *. rewrite filter_cons.
    destruct (decide (so_key o <> p)) as [Hk|Hk].
    + rewrite filter_cons. destruct (decide _); [|done]. cbn [omap list_omap]. destruct (folder_of p o); [|done]. rewrite !filter_cons. by destruct (decide _); rewrite IH.
    + destruct (decide _) as [Hpre|]; [|done]. cbn [omap list_omap]. apply dec_stable in Hk. unfold folder_of. apply (below_trim p o) in Hpre as [_ Hb].
      by rewrite (proj1 Hb Hk).
  - induction objs as [|o objs IH]; [done|]. rewrite (filter_cons (fun o => so_key o <> p)). unfold under in *. rewrite (filter_cons _ o objs).
    destruct (decide (so_key o <> p)) as [Hk|Hk].
    + rewrite (filter_cons (fun o0 => has_prefix (so_key o0) p = true)). destruct (decide (has_prefix _ _ = true)); [|done]. rewrite !(filter_cons (fun o0 => plain p o0 = true)).
      destruct (decide (plain p o = true)); [|done]. rewrite !(filter_cons (fun o0 => below p o0 <> [])). by destruct (decide _); rewrite IH.
    + destruct (decide _) as [Hpre|]; [|done]. apply dec_stable in Hk. apply (below_trim p o) in Hpre as [_ Hb]. rewrite (filter_cons (fun o0 => plain p o0 = true)).
      destruct (decide (plain p o = true)); [|done]. rewrite (filter_cons (fun o0 => below p o0 <> [])). rewrite decide_False; [done|]. intros Hn. by apply Hn, Hb.
Qed.

Lemma children_changed k p objs objs' : changed_at k objs objs' -> p = k \/ ~ p `prefix_of` k -> childrenOf objs p = childrenOf objs' p.
Proof.
  intros Hc [->|Hp]; [by rewrite children_but, (children_but k objs'), Hc|]. revert Hc Hp.
  intros Hc Hp. unfold childrenOf, folders. replace (under p objs') with (under p objs); [done|]. unfold under.
  assert (Hf : forall l : list subtreeObject, filter (fun o => has_prefix (so_key o) p = true) l = filter (fun o => has_prefix (so_key o) p = true) (filter (fun o => so_key o <> k) l)).
  { intros l. rewrite list_filter_filter. apply list_filter_iff. intros o. split; [|naive_solver]. intros Ho. split; [done|].
    intros <-. apply Hp. by apply has_prefix_spec in Ho as [r ->]; exists r. }
  by rewrite Hf, Hc, <-Hf.
Qed.

Definition head_true (objs : list subtreeObject) (k : bytes) (d : headData) : Prop :=
  exists o, o ∈ objs /\ so_key o = k /\ hd_size d = so_size o /\ hd_mtime d = so_mtime o.

Section honesty.
Context {top : Z}.

(** Whatever carries the generation of the moment is true of [objs]; no
    generation is above [top]. *)
Record honest (objs : list subtreeObject) (c : ListingCache) : Prop := {
  ho_gens p : 0 <= gen c p <= top;
  ho_roots : Forall proper (lc_roots c);
  ho_seen p t : lc_seen c !! p = Some t -> proper p;
  ho_folders p e : lc_listings c !! p = Some e -> proper p;
  ho_trees r e : lc_subtrees c !! r = Some e -> proper r;
  ho_listing p e : lc_listings c !! p = Some e -> le_gen e <= gen c p /\ (le_gen e = gen c p -> le_entries e = childrenOf objs p);
  ho_subtree r e : lc_subtrees c !! r = Some e -> se_gen e <= gen c r /\
    (se_gen e = gen c r -> sd_truncated (se_data e) = false -> forall p, has_prefix p r = true -> childrenOf (sd_objects (se_data e)) p = childrenOf objs p);
  ho_head k e : lc_heads c !! k = Some e -> hc_gen e <= gen c (fst (splitKey k)) /\ (hc_gen e = gen c (fst (splitKey k)) -> head_true objs k (hc_data e));
}.

Lemma honest_new cfg objs : 0 <= top -> honest objs (NewListingCache cfg).
Proof.
  intros Htop. split; try done. cbn. unfold normalizeRoots. apply Forall_forall. intros p Hp. rewrite stable_sort_perm in Hp. rewrite list_elem_of_In, <-in_rev, <-list_elem_of_In in Hp.
  assert (Hs : forall l out, Forall proper out -> Forall proper (fold_left (fun out p => match p with [] => out | _ => if bool_decide (ends_slash p ∈ out) then out else ends_slash p :: out end) l out)).
  { induction l as [|x l IH]; intros out Hout; [done|]. cbn. apply IH. destruct x as [|y x]; [done|]. case_bool_decide; [done|]. constructor; [|done].
    right. unfold ends_slash. destruct (has_suffix _ _) eqn:E; [|by eexists]. by apply has_suffix_spec in E as [r ->]; exists r. }
  pose proof (Hs (default [bs "refs/"] (cc_recursive cfg)) [] ltac:(constructor)) as Hall. rewrite Forall_forall in Hall. by apply Hall.
Qed.

(** What touches neither the entries nor the generations. *)
Lemma honest_same objs c c' : lc_roots c' = lc_roots c -> lc_listings c' = lc_listings c -> lc_subtrees c' = lc_subtrees c ->
  lc_heads c' = lc_heads c -> lc_gens c' = lc_gens c ->
  (forall p t, lc_seen c' !! p = Some t -> proper p \/ lc_seen c !! p = Some t) -> honest objs c -> honest objs c'.
Proof.
  intros E1 E2 E3 E4 E5 E6 [H1 H2 Hsn Q1 Q2 H3 H4 H5]. assert (Hg : forall p, gen c' p = gen c p) by (intros p; unfold gen; by rewrite E5).
  split; rewrite ?E1, ?E2, ?E3, ?E4; intros; rewrite ?Hg; eauto.
  edestruct E6; eauto.
Qed.

Lemma cached_listing_true objs now c p es : honest objs c -> cached_listing now c p = Some es -> es = childrenOf objs p.
Proof.
  intros Hh. unfold cached_listing, fresh_entry. destruct (lc_listings c !! p) as [e|] eqn:E; cbn; [|done].
  destruct (le_gen e =? gen c p) eqn:Eg; b2p; cbn [andb]; [|done]. destruct (now <? _); [|done]. intros [= <-]. by apply (ho_listing _ _ Hh p e E).
Qed.
Lemma cached_subtree_true objs now c r d p : honest objs c -> cached_subtree now c r = Some d -> sd_truncated d = false -> has_prefix p r = true ->
  childrenOf (sd_objects d) p = childrenOf objs p.
Proof.
  intros Hh. unfold cached_subtree, fresh_entry. destruct (lc_subtrees c !! r) as [e|] eqn:E; cbn; [|done].
  destruct (se_gen e =? gen c r) eqn:Eg; b2p; cbn [andb]; [|done]. destruct (now <? _); [|done]. intros [= <-] Ht Hp. by apply (proj2 (ho_subtree _ _ Hh r e E) Eg Ht).
Qed.
Lemma cached_head_true objs now c k nm d : honest objs c -> cached_head now c k nm = Some d -> head_true objs k d.
Proof.
  intros Hh. unfold cached_head, fresh_entry. destruct (lc_heads c !! k) as [e|] eqn:E; cbn; [|done].
  destruct (hc_gen e =? _) eqn:Eg; b2p; cbn [andb]; [|done]. destruct (now <? _); [|done]. destruct (_ || _); [|done].
  intros [= <-]. by apply (ho_head _ _ Hh k e E).
Qed.

(** A new head whose generation is the parent's is to be true. *)
Lemma honest_heads objs c h : honest objs c ->
  (forall k e, h !! k = Some e -> lc_heads c !! k = Some e \/ hc_gen e = gen c (fst (splitKey k)) /\ head_true objs k (hc_data e)) ->
  honest objs (with_entries (lc_listings c) (lc_subtrees c) h c).
Proof.
  intros [H1 H2 Hsn Q1 Q2 H3 H4 H5] Hh. split; try done. intros k e Hk. destruct (Hh k e Hk) as [Hk'|[Hg Ht]]; [by apply H5|].
  change (gen (with_entries _ _ _ c)) with (gen c). split; [rewrite Hg; lia|done].
Qed.

Lemma honest_store_listing objs now p es c : honest objs c -> proper p -> es = childrenOf objs p -> honest objs (store_listing now p es (gen c p) c).
Proof.
  intros [H1 H2 Hsn Q1 Q2 H3 H4 H5] Hp ->. split; try done; intros q e; cbn; [|change (gen (store_listing _ _ _ _ c)) with (gen c)];
    (destruct (decide (q = p)) as [->|Hne]; [|rewrite lookup_insert_ne by done; by eauto]); [done|].
  rewrite lookup_insert_eq. intros [= <-]. cbn. split; [lia|done].
Qed.
Lemma honest_store_subtree objs now r d c : honest objs c -> proper r ->
  (sd_truncated d = false -> forall p, has_prefix p r = true -> childrenOf (sd_objects d) p = childrenOf objs p) -> honest objs (store_subtree now r d (gen c r) c).
Proof.
  intros [H1 H2 Hsn Q1 Q2 H3 H4 H5] Hp Hd. split; try done; intros q e; cbn; [|change (gen (store_subtree _ _ _ _ c)) with (gen c)];
    (destruct (decide (q = r)) as [->|Hne]; [|rewrite lookup_insert_ne by done; by eauto]); [done|].
  rewrite lookup_insert_eq. intros [= <-]. cbn. split; [lia|done].
Qed.

Lemma elem_of_children_file objs p e : e ∈ childrenOf objs p -> ch_kind e = kindFile ->
  exists o, o ∈ objs /\ so_key o = p ++ ch_name e /\ ch_size e = so_size o /\ ch_mtime e = so_mtime o /\ slash ∉ ch_name e.
Proof.
  unfold childrenOf. intros [(n & -> & _)%list_elem_of_fmap|(o & -> & Ho)%list_elem_of_fmap]%elem_of_app; [done|]. intros _.
  apply list_elem_of_filter in Ho as [_ [Hpl [Hpre Ho]%list_elem_of_filter]%list_elem_of_filter].
  exists o. split; [done|]. apply has_prefix_spec in Hpre as [r Hr]. cbn. unfold plain, folder_of, below in *. rewrite Hr, drop_app_length in *.
  split; [done|]. split; [done|]. split; [done|]. apply cut_byte_none. by destruct (cut_byte slash r).
Qed.

Lemma splitKey_child p n : proper p -> slash ∉ n -> splitKey (p ++ n) = (p, n).
Proof.
  intros Hp Hn. destruct (splitKey_spec (p ++ n)) as (Hs & Hns & Hpr). pose proof (parent_greatest (p ++ n) p Hp ltac:(by exists n)) as [x Hx].
  destruct (splitKey (p ++ n)) as [a b]. cbn [fst snd] in *. subst a. rewrite <-app_assoc in Hs. apply app_inv_head in Hs.
  destruct Hpr as [Hz|[q Hq]]; [apply app_eq_nil in Hz as [-> ->]; by subst|].
  destruct (rev x) as [|y x'] eqn:Ex.
  { apply (f_equal (@rev _)) in Ex. rewrite rev_involutive in Ex. cbn in Ex. subst x. cbn in Hs. by rewrite app_nil_r, Hs. }
  apply (f_equal (@rev _)) in Ex. rewrite rev_involutive in Ex. cbn in Ex. subst x. rewrite app_assoc in Hq. apply app_inj_tail in Hq as [_ ->].
  exfalso. apply Hn. rewrite Hs. rewrite !elem_of_app. left. right. by left.
Qed.

Lemma fold_left_inv {A B} (P : B -> Prop) (f : B -> A -> B) l b : P b -> (forall b x, x ∈ l -> P b -> P (f b x)) -> P (fold_left f l b).
Proof.
  revert b. induction l as [|x l IH]; intros b Hb Hf; [done|]. cbn. apply IH; [apply Hf; [by left|done]|]. intros c y Hy. apply Hf. by right.
Qed.

(** Heads that are the old ones or true seeds. *)
Definition heads_ok (objs : list subtreeObject) (c : ListingCache) (h : gmap bytes headCacheEntry) : Prop :=
  forall k e, h !! k = Some e -> lc_heads c !! k = Some e \/ hc_gen e = gen c (fst (splitKey k)) /\ head_true objs k (hc_data e).

Lemma heads_ok_insert objs c h k e : heads_ok objs c h -> hc_gen e = gen c (fst (splitKey k)) -> head_true objs k (hc_data e) -> heads_ok objs c (<[k := e]> h).
Proof.
  intros Hh Hg Ht k' e'. destruct (decide (k' = k)) as [->|Hne]; [rewrite lookup_insert_eq; intros [= <-]; by right|].
  rewrite lookup_insert_ne by done. apply Hh.
Qed.

Lemma honest_seed objs now p c : honest objs c -> proper p -> honest objs (seedHeads now p (childrenOf objs p) c).
Proof.
  intros Hh Hp. unfold seedHeads. destruct (cc_disableHeadPrefetch _); [done|]. apply honest_heads; [done|].
  apply (fold_left_inv (heads_ok objs c)); [by left|]. intros h x Hx Hok. destruct (ch_kind x) eqn:Ek; [|done].
  destruct (elem_of_children_file objs p x Hx Ek) as (o & Ho & Hk & Hsz & Hmt & Hns).
  apply heads_ok_insert; [done| |]; [by rewrite splitKey_child|]. exists o. by cbn.
Qed.

Lemma honest_seed_subtree objs now l c : honest objs c -> (forall o, o ∈ l -> o ∈ objs) -> honest objs (seedSubtreeHeads now l c).
Proof.
  intros Hh Hl. unfold seedSubtreeHeads. destruct (cc_disableHeadPrefetch _); [done|]. apply honest_heads; [done|].
  apply (fold_left_inv (heads_ok objs c)); [by left|]. intros h x Hx Hok. destruct (splitKey (so_key x)) as [q [|b n]] eqn:Es; [done|].
  apply heads_ok_insert; [done|by rewrite Es|]. exists x. split; [by apply Hl|]. by cbn.
Qed.

Lemma honest_store_head objs now k d c : honest objs c -> head_true objs k d -> honest objs (store_head now k d (gen c (fst (splitKey k))) c).
Proof. intros Hh Ht. apply honest_heads; [done|]. by apply (heads_ok_insert objs c); [left| |]. Qed.

Lemma honest_touch objs now p c : proper p -> honest objs c -> honest objs (touch now p c).
Proof. intros Hp. apply honest_same; try done. intros q t. cbn. rewrite lookup_insert_Some. intros [[<- _]|[_ ?]]; auto. Qed.
Lemma honest_counts objs h m c : honest objs c -> honest objs (with_counts h m c).
Proof. apply honest_same; auto. Qed.
Lemma honest_idle objs (P : bytes * Z -> Prop) `{!forall x, base.Decision (P x)} c : honest objs c -> honest objs (with_gens (lc_gens c) (filter P (lc_seen c)) c).
Proof. apply honest_same; try done. intros q t. cbn. intros [? _]%map_lookup_filter_Some. by right. Qed.
Lemma honest_sweep objs now c : honest objs c -> honest objs (sweepExpired now c).
Proof.
  intros [H1 H2 Hsn Q1 Q2 H3 H4 H5]. split; try done; intros p e Hp; apply map_lookup_filter_Some in Hp as [Hp _]; eauto.
Qed.
Lemma honest_register objs root c : honest objs c -> honest objs (registerRoot root c).
Proof.
  intros Hh. unfold registerRoot. case_bool_decide; [done|]. case_bool_decide; [done|]. destruct Hh as [H1 H2 Hsn Q1 Q2 H3 H4 H5]. split; try done.
  cbn. rewrite stable_sort_perm. apply Forall_app. split; [done|]. constructor; [|done]. right. unfold ends_slash.
  destruct (has_suffix _ _) eqn:E; [|by eexists]. by apply has_suffix_spec in E as [r ->]; exists r.
Qed.

End honesty.
Arguments honest top objs c : clear implicits.

(** *** A write of this process *)

Lemma bump_all now l c : (forall r, 0 <= gen c r) -> NoDup l -> (forall r, r ∈ l -> gen c r + 1 < 2 ^ 64) -> forall p,
  gen (fold_left (fun c p => with_gens (<[p := u64 (gen c p + 1)]> (lc_gens c)) (<[p := now]> (lc_seen c)) c) l c) p = gen c p + (if decide (p ∈ l) then 1 else 0).
Proof.
  revert c. induction l as [|x l IH]; intros c Hz Hnd Hr p; cbn [fold_left]; [rewrite decide_False by apply not_elem_of_nil; lia|].
  apply NoDup_cons in Hnd as [Hx Hnd]. set (c1 := with_gens _ _ c). assert (H1 : forall q, gen c1 q = gen c q + (if decide (q = x) then 1 else 0)).
  { intros q. unfold gen at 1, c1. cbn. destruct (decide (q = x)) as [->|Hne].
    - rewrite lookup_insert_eq. cbn. unfold u64. specialize (Hz x). specialize (Hr x ltac:(by left)). apply Z.mod_small. lia.
    - rewrite lookup_insert_ne by done. fold (gen c q). lia. }
  rewrite IH; [|intros r; rewrite H1; specialize (Hz r); destruct (decide _); lia|done|].
  - rewrite H1. destruct (decide (p = x)) as [->|Hne].
    + rewrite decide_False by done. rewrite decide_True by (by left). lia.
    + destruct (decide (p ∈ l)) as [Hin|Hin]; [rewrite decide_True by (by right); lia|]. rewrite decide_False by (by intros [?|?]%elem_of_cons). lia.
  - intros r Hin. rewrite H1, decide_False by (by intros ->). rewrite Z.add_0_r. apply Hr. by right.
Qed.

Lemma bump_rest now l c : let c' := fold_left (fun c p => with_gens (<[p := u64 (gen c p + 1)]> (lc_gens c)) (<[p := now]> (lc_seen c)) c) l c in
  lc_roots c' = lc_roots c /\ lc_listings c' = lc_listings c /\ lc_subtrees c' = lc_subtrees c /\ lc_heads c' = lc_heads c.
Proof. apply (fold_left_inv (fun c' => lc_roots c' = lc_roots c /\ lc_listings c' = lc_listings c /\ lc_subtrees c' = lc_subtrees c /\ lc_heads c' = lc_heads c)); auto. Qed.

Lemma bump_seen now l c p t : lc_seen (fold_left (fun c p => with_gens (<[p := u64 (gen c p + 1)]> (lc_gens c)) (<[p := now]> (lc_seen c)) c) l c) !! p = Some t ->
  p ∈ l \/ lc_seen c !! p = Some t.
Proof.
  revert c. induction l as [|x l IH]; intros c; [by right|]. cbn [fold_left]. intros [Hin|Hs]%IH; [left; by right|]. cbn in Hs.
  apply lookup_insert_Some in Hs as [[-> _]|[_ Hs]]; [left; by left|by right].
Qed.

(** Folders between [k] and the bucket's root are all above [q], but for [k] itself. *)
Definition covers (q k : bytes) (objs : list subtreeObject) : Prop :=
  (forall p, proper p -> p `prefix_of` k -> p ∈ ancestorPrefixes q \/ p = k) /\
  (fst (splitKey k) ∈ ancestorPrefixes q \/ forall o, o ∈ objs -> so_key o <> k).

Lemma covers_own k objs : covers (fst (splitKey k)) k objs.
Proof. split; [intros p Hp Hk; left; by apply ancestorPrefixes_in|left; by left]. Qed.
(** The marker of a new folder. *)
Lemma covers_marker k objs : (forall o, o ∈ objs -> so_key o <> k ++ [slash]) -> covers (fst (splitKey k)) (k ++ [slash]) objs.
Proof.
  intros Hnew. split; [|by right]. intros p Hp Hpre. destruct (decide (p = k ++ [slash])) as [|Hne]; [by right|]. left.
  apply ancestorPrefixes_in; [done|]. apply trim_slash_prefix in Hpre; [|done]. by rewrite trim_suffix_app in Hpre.
Qed.

Lemma honest_invalidate top objs objs' now q k c : honest top objs c -> changed_at k objs objs' -> covers q k objs -> proper q -> top + 1 < 2 ^ 64 ->
  honest (top + 1) objs' (invalidate now q c).
Proof.
  intros [H1 H2 Hsn Q1 Q2 H3 H4 H5] Hc [Hcov Hnew] Hq Hr. unfold invalidate. set (l := ancestorPrefixes _) in *.
  assert (Hb : forall p, gen _ p = _) by (apply (bump_all now l c); [intros r; apply H1|apply ancestorPrefixes_nodup|intros r _; specialize (H1 r); lia]).
  destruct (bump_rest now l c) as (E1 & E2 & E3 & E4). set (c' := fold_left _ l c) in *.
  assert (Hsame : forall p, proper p -> gen c' p = gen c p -> p = k \/ ~ p `prefix_of` k).
  { intros p Hp Hg. destruct (decide (p = k)) as [|Hne]; [by left|]. right. intros Hk. destruct (Hcov p Hp Hk) as [Hin|?]; [|done]. rewrite Hb, decide_True in Hg by done. lia. }
  split; rewrite ?E1, ?E2, ?E3, ?E4; try done.
  - intros p. rewrite Hb. specialize (H1 p). destruct (decide _); lia.
  - intros p t [Hin|Hs]%bump_seen; [by eapply ancestorPrefixes_proper|by eapply Hsn].
  - intros p e He. destruct (H3 p e He) as [Hle Ht]. pose proof (Hb p) as Hbp. split; [destruct (decide _); lia|]. intros Hg.
    assert (gen c' p = gen c p) as Hgp by (destruct (decide _); lia). rewrite Ht by lia. apply (children_changed k); [done|]. apply Hsame; [by eapply Q1|done].
  - intros r e He. destruct (H4 r e He) as [Hle Ht]. pose proof (Hb r) as Hbr. split; [destruct (decide _); lia|]. intros Hg Htr p Hp.
    assert (gen c' r = gen c r) as Hgr by (destruct (decide _); lia). rewrite (Ht ltac:(lia) Htr p Hp). apply (children_changed k); [done|].
    destruct (decide (p `prefix_of` k)) as [Hpk|]; [|by right]. apply has_prefix_spec in Hp as [x ->].
    destruct (Hsame r) as [->|Hn]; [by eapply Q2|done| |destruct Hn; destruct Hpk as [y ->]; exists (x ++ y); by rewrite <-app_assoc].
    left. destruct Hpk as [y Hy]. apply (f_equal (@length _)) in Hy. rewrite !length_app in Hy. destruct x; [by rewrite app_nil_r|cbn in Hy; lia].
  - intros x e He. destruct (H5 x e He) as [Hle Ht]. pose proof (Hb (fst (splitKey x))) as Hbx. split; [destruct (decide _); lia|]. intros Hg.
    destruct (Ht ltac:(destruct (decide _); lia)) as (o & Ho & Hk & Hs). exists o. split; [|done].
    assert (Hne : so_key o <> k).
    { intros E. destruct Hnew as [Hin|Hnew]; [|by destruct (Hnew o Ho)]. rewrite E in Hk. subst x. rewrite decide_True in Hbx by done. lia. }
    assert (Hin : o ∈ filter (fun o => so_key o <> k) objs') by (rewrite <-Hc; by apply list_elem_of_filter). by apply list_elem_of_filter in Hin as [_ Hin].
Qed.

(** ** The operations *)

(** [HeadObject] tells of the object as it is. *)
Class HeadLaws `{S3Client} (objects : FWorld -> list subtreeObject) := {
  Head_ok k w r w' : HeadObjectF k w = (r, w') -> objects w' = objects w /\
    match r with
    | Ok ho => exists o, o ∈ objects w /\ so_key o = k /\ h_size ho = so_size o /\ h_mtime ho = so_mtime o
    | Err e => isNotFound e = true -> forall o, o ∈ objects w -> so_key o <> k
    end;
}.

Section operations.
Context `{S3Client} (objects : FWorld -> list subtreeObject) (remaining : bytes -> bool -> option bytes -> list subtreeObject -> list subtreeObject).
Context `{!ListingLaws objects remaining, !HeadLaws objects} (pages : nat) (top : Z).

Definition good (s : CacheSt) : Prop := honest top (objects (cs_world s)) (cs_cache s).
(** What a call leaves: the objects as they were, and a good cache. *)
Definition kept (s s' : CacheSt) : Prop := objects (cs_world s') = objects (cs_world s) /\ good s'.
Definition keeps {A} (Q : list subtreeObject -> A -> Prop) (m : io CacheSt A) : Prop :=
  forall s r s', good s -> m s = (r, s') -> kept s s' /\ forall a, r = Ok a -> Q (objects (cs_world s)) a.

Lemma keeps_bind {A B} (Q : list subtreeObject -> A -> Prop) (R : list subtreeObject -> B -> Prop) m f :
  keeps Q m -> (forall a s r s', good s -> Q (objects (cs_world s)) a -> f a s = (r, s') -> kept s s' /\ forall b, r = Ok b -> R (objects (cs_world s)) b) ->
  keeps R (io_bind m f).
Proof.
  intros Hm Hf s r s' Hg [(a & s1 & H1' & H2')|(e & H1' & ->)]%io_bind_inv; apply Hm in H1' as [[Hs1 Hg1] Ha]; try done.
  apply Hf in H2' as [[Hs2 Hg2] Hb]; [|done|rewrite Hs1; by apply Ha]. rewrite Hs1 in Hb. split; [|done]. split; [by rewrite Hs2|done].
Qed.

Lemma keeps_cache f : (forall now objs c, honest top objs c -> honest top objs (f now c)) -> keeps (fun _ _ => True) (on_cache f).
Proof. intros Hf s r s' Hg [= <- <-]. split; [|done]. split; [done|]. by apply Hf. Qed.

Lemma keeps_ret {A} (Q : list subtreeObject -> A -> Prop) a s r s' : good s -> Q (objects (cs_world s)) a -> ret a s = (r, s') ->
  kept s s' /\ forall b, r = Ok b -> Q (objects (cs_world s)) b.
Proof. intros Hg Hq [= <- <-]. split; [by split|]. by intros b [= <-]. Qed.

Lemma fillFolder_keeps p s r s' : proper p -> good s -> fillFolder pages p (gen (cs_cache s) p) s = (r, s') ->
  kept s s' /\ forall es, r = Ok es -> es = childrenOf (objects (cs_world s)) p.
Proof.
  intros Hp Hg Hr. unfold fillFolder, io_bind at 1, on_bucket in Hr.
  destruct (listChildren pages p (cs_world s)) as [[es|e] w'] eqn:El; pose proof (listChildren_quiet objects remaining _ _ _ _ _ El) as Hw.
  - apply (listChildren_spec objects remaining) in El as [_ ->]. injection Hr as <- <-. unfold good in Hg.
    split; [|by intros es [= <-]]. split; [done|]. unfold good. cbn [cs_world cs_cache]. rewrite Hw. apply honest_seed; [|done].
    by apply honest_store_listing.
  - injection Hr as <- <-. split; [|done]. split; [done|]. unfold good in *. cbn [cs_world cs_cache]. by rewrite Hw.
Qed.

Lemma listFolder_keeps p : proper p -> keeps (fun objs es => es = childrenOf objs p) (listFolder pages p).
Proof.
  intros Hp s r s' Hg. unfold listFolder, gets, io_bind at 1 2. destruct (cached_listing _ _ p) as [es|] eqn:Eh.
  - intros [= <- <-]. split; [|intros es' [= <-]; by eapply cached_listing_true]. split; [done|]. by apply honest_counts.
  - unfold io_bind at 1, on_cache at 1, modify at 1. cbn [cs_world cs_cache]. intros Hr.
    match type of Hr with fillFolder _ _ _ ?s1 = _ => apply (fillFolder_keeps p s1) in Hr as [Hk Hes] end; [|done|by apply honest_counts]. done.
Qed.

Definition subtree_true (root : bytes) (objs : list subtreeObject) (d : subtreeData) : Prop :=
  sd_truncated d = false -> forall p, has_prefix p root = true -> childrenOf (sd_objects d) p = childrenOf objs p.

Lemma fillSubtree_keeps root s r s' : proper root -> good s -> fillSubtree pages root (gen (cs_cache s) root) s = (r, s') ->
  kept s s' /\ forall d, r = Ok d -> subtree_true root (objects (cs_world s)) d.
Proof.
  intros Hp Hg Hr. unfold fillSubtree, gets, io_bind at 1 2, on_bucket in Hr.
  destruct (listSubtree pages root _ (cs_world s)) as [[[objs tr]|e] w'] eqn:El; apply (listSubtree_spec objects remaining) in El as [Hw Hobjs].
  2:{ injection Hr as <- <-. split; [|done]. split; [done|]. unfold good in *. cbn [cs_world cs_cache]. by rewrite Hw. }
  assert (Ht : subtree_true root (objects (cs_world s)) {| sd_objects := objs; sd_truncated := tr |}).
  { intros Htr p Hpre. cbn in *. subst tr. rewrite (Hobjs objs eq_refl). by apply children_under. }
  assert (Hst : forall now, honest top (objects (cs_world s)) (store_subtree now root {| sd_objects := objs; sd_truncated := tr |} (gen (cs_cache s) root) (cs_cache s)))
    by (intros now; by apply honest_store_subtree).
  destruct tr; injection Hr as <- <-; (split; [|by intros d [= <-]]); (split; [done|]); unfold good; cbn [cs_world cs_cache]; rewrite Hw; [done|].
  apply honest_seed_subtree; [done|]. intros o. rewrite (Hobjs objs eq_refl). by intros [_ Ho]%list_elem_of_filter.
Qed.

Lemma subtree_keeps root : proper root -> keeps (subtree_true root) (subtree pages root).
Proof.
  intros Hp s r s' Hg. unfold subtree, gets, io_bind at 1 2. destruct (cached_subtree _ _ root) as [d|] eqn:Eh.
  - intros [= <- <-]. split; [|intros d' [= <-] Ht p Hpre; by eapply cached_subtree_true]. split; [done|]. by apply honest_counts.
  - unfold io_bind at 1, on_cache at 1, modify at 1. cbn [cs_world cs_cache]. intros Hr.
    match type of Hr with fillSubtree _ _ _ ?s1 = _ => apply (fillSubtree_keeps root s1) in Hr as [Hk Hes] end; [|done|by apply honest_counts]. done.
Qed.

Lemma list_cached_keeps p : proper p -> keeps (fun objs es => es = childrenOf objs p) (list_cached pages p).
Proof.
  intros Hp. unfold list_cached. eapply keeps_bind; [apply keeps_cache; intros; by apply honest_touch|]. intros _ s r s' Hg _ Hr.
  unfold gets, io_bind at 1 in Hr. destruct (recursiveRoot (cs_cache s) p) as [root|] eqn:Er; [|by eapply listFolder_keeps].
  apply find_some in Er as [Hin Hpre]. assert (Hpr : proper root) by (pose proof (ho_roots _ _ Hg) as Hall; rewrite Forall_forall in Hall; apply Hall; by apply list_elem_of_In).
  unfold io_bind, attempt in Hr. destruct (subtree pages root s) as [[d|e] s1] eqn:Es; apply subtree_keeps in Es as [[Hs1 Hg1] Hd]; try done.
  - destruct (sd_truncated d) eqn:Et.
    + apply listFolder_keeps in Hr as [[Hs2 Hg2] Hes]; [|done..]. rewrite Hs1 in Hes, Hs2. split; [by split|done].
    + injection Hr as <- <-. split; [by split|]. intros es [= <-]. rewrite synthesize_children. by apply (Hd d eq_refl Et).
  - apply listFolder_keeps in Hr as [[Hs2 Hg2] Hes]; [|done..]. rewrite Hs1 in Hes, Hs2. split; [by split|done].
Qed.

Lemma headLoad_keeps k nm : keeps (fun objs d => head_true objs k d) (headLoad k nm).
Proof.
  intros s r s' Hg. unfold headLoad, gets, io_bind at 1 2. destruct (cached_head _ _ k nm) as [d|] eqn:Eh.
  - intros [= <- <-]. split; [by split|]. intros d' [= <-]. by eapply cached_head_true.
  - unfold io_bind at 1, on_bucket. destruct (HeadObjectF k (cs_world s)) as [[ho|e] w'] eqn:El; apply Head_ok in El as [Hw Ho]; intros [= <- <-].
    + assert (Ht : head_true (objects (cs_world s)) k {| hd_size := h_size ho; hd_mtime := h_mtime ho; hd_meta := h_meta ho |})
        by (destruct Ho as (o & Ho1 & Ho2 & Ho3 & Ho4); by exists o).
      split; [|by intros d [= <-]]. split; [done|]. unfold good in *. cbn [cs_world cs_cache]. rewrite Hw. by apply honest_store_head.
    + split; [|done]. split; [done|]. unfold good in *. cbn [cs_world cs_cache]. by rewrite Hw.
Qed.

Lemma keeps_each {A} (Q : list subtreeObject -> A -> Prop) (f : bytes -> io CacheSt A) l : (forall p, p ∈ l -> keeps Q (f p)) -> keeps (fun _ _ => True) (each f l).
Proof.
  induction l as [|p l IH]; intros Hf; [intros s r s' Hg [= <- <-]%eq_sym%eq_sym; split; [by split|done]|]. cbn [each]. intros s r s' Hg Hr.
  unfold io_bind, attempt in Hr. destruct (f p s) as [a s1] eqn:E. apply Hf in E as [[Hs1 Hg1] _]; [|by left|done].
  apply IH in Hr as [[Hs2 Hg2] _]; [|intros q Hq; apply Hf; by right|done]. split; [|done]. split; [by rewrite Hs2|done].
Qed.

(** A fill outside a read. *)
Lemma refill_keeps (l : list bytes) : (forall p, p ∈ l -> proper p) ->
  keeps (fun _ _ => True) (each (fun p => let! g := gets (fun s => gen (cs_cache s) p) in fillFolder pages p g) l) /\
  keeps (fun _ _ => True) (each (fun p => let! g := gets (fun s => gen (cs_cache s) p) in fillSubtree pages p g) l).
Proof.
  intros Hl. split; [apply (keeps_each (fun _ _ => True))|apply (keeps_each (fun _ _ => True))]; intros p Hp s r s' Hg Hr; unfold gets, io_bind at 1 in Hr.
  - apply fillFolder_keeps in Hr as [Hk _]; [done|by apply Hl|done].
  - apply fillSubtree_keeps in Hr as [Hk _]; [done|by apply Hl|done].
Qed.

Lemma keeps_then {A B} (m : io CacheSt A) (f : A -> io CacheSt B) : keeps (fun _ _ => True) m -> (forall a, keeps (fun _ _ => True) (f a)) -> keeps (fun _ _ => True) (io_bind m f).
Proof. intros Hm Hf. eapply keeps_bind; [exact Hm|]. intros a s r s' Hg _ Hr. by eapply Hf. Qed.

Lemma warmOnce_keeps order : keeps (fun _ _ => True) (warmOnce pages order).
Proof.
  intros s r s' Hg Hr. unfold warmOnce, gets, io_bind at 1 2 in Hr. set (c := cs_cache s) in *. set (now := NowF (cs_world s)) in *.
  set (prefixes := filter (fun p => idle now c p = false) order) in *.
  assert (Hseen : forall p, p ∈ prefixes -> proper p).
  { intros p [Hi _]%list_elem_of_filter. unfold idle in Hi. destruct (lc_seen c !! p) as [t|] eqn:E; [|done]. by eapply (ho_seen _ _ Hg). }
  assert (Hroots : forall p, p ∈ remove_dups (omap (recursiveRoot c) prefixes) -> proper p).
  { intros p (q & _ & Hq)%elem_of_remove_dups%list_elem_of_omap. apply find_some in Hq as [Hin _]. pose proof (ho_roots _ _ Hg) as Hall.
    rewrite Forall_forall in Hall. apply Hall. by apply list_elem_of_In. }
  refine ((_ : keeps (fun _ _ => True) _) s r s' Hg Hr).
  apply keeps_then; [apply keeps_cache; intros; by apply honest_idle|intros _].
  apply keeps_then; [apply refill_keeps; intros p [_ Hp]%list_elem_of_filter; by apply Hseen|intros _].
  apply keeps_then; [by apply refill_keeps|intros _]. apply keeps_cache. intros _ objs c'. apply honest_sweep.
Qed.

End operations.

(** *** User metadata *)

(** [HeadObject] gives the metadata of the object; listings do not change it. *)
Class MetaLaws `{S3Client} (metas : FWorld -> bytes -> gmap bytes bytes) := {
  Head_meta k w r w' : HeadObjectF k w = (r, w') -> metas w' = metas w /\ forall ho, r = Ok ho -> h_meta ho = metas w k;
  List_meta p d mk t w r w' : ListF p d mk t w = (r, w') -> metas w' = metas w;
}.

(** The metadata of a head that has it, of the generation of the moment. *)
Definition meta_ok (ms : bytes -> gmap bytes bytes) (c : ListingCache) : Prop :=
  forall k e, lc_heads c !! k = Some e -> hc_gen e = gen c (fst (splitKey k)) -> hc_hasMeta e = true -> hd_meta (hc_data e) = ms k.

Lemma meta_ok_same ms c c' : lc_heads c' = lc_heads c -> lc_gens c' = lc_gens c -> meta_ok ms c -> meta_ok ms c'.
Proof. intros E1 E2 Hc k e. unfold gen. rewrite E1, E2. apply Hc. Qed.

(** New heads without metadata, or with the true one. *)
Lemma meta_ok_insert ms c h k e : meta_ok ms (with_entries (lc_listings c) (lc_subtrees c) h c) -> (hc_hasMeta e = true -> hd_meta (hc_data e) = ms k) ->
  meta_ok ms (with_entries (lc_listings c) (lc_subtrees c) (<[k := e]> h) c).
Proof.
  intros Hc He k' e'. cbn [lc_heads with_entries]. destruct (decide (k' = k)) as [->|Hne]; [rewrite lookup_insert_eq; by intros [= <-]|].
  rewrite lookup_insert_ne by done. apply Hc.
Qed.

Lemma meta_ok_heads ms c h : meta_ok ms c -> lc_heads c = h -> meta_ok ms (with_entries (lc_listings c) (lc_subtrees c) h c).
Proof. intros Hc <-. exact Hc. Qed.

Lemma meta_ok_seed ms now p es c : meta_ok ms c -> meta_ok ms (seedHeads now p es c).
Proof.
  intros Hc. unfold seedHeads. destruct (cc_disableHeadPrefetch _); [done|].
  apply (fold_left_inv (fun h => meta_ok ms (with_entries (lc_listings c) (lc_subtrees c) h c))); [exact Hc|].
  intros h x _ Hh. destruct (ch_kind x); [|done]. by apply meta_ok_insert.
Qed.
Lemma meta_ok_seed_subtree ms now l c : meta_ok ms c -> meta_ok ms (seedSubtreeHeads now l c).
Proof.
  intros Hc. unfold seedSubtreeHeads. destruct (cc_disableHeadPrefetch _); [done|].
  apply (fold_left_inv (fun h => meta_ok ms (with_entries (lc_listings c) (lc_subtrees c) h c))); [exact Hc|].
  intros h x _ Hh. destruct (splitKey (so_key x)) as [q [|]]; [done|]. by apply meta_ok_insert.
Qed.
Lemma meta_ok_sweep ms now c : meta_ok ms c -> meta_ok ms (sweepExpired now c).
Proof. intros Hc k e [Hk _]%map_lookup_filter_Some. by apply Hc. Qed.

(** A write at [k] leaves the other objects' metadata alone. *)
Lemma meta_ok_invalidate top objs ms ms' now q k c : honest top objs c -> meta_ok ms c -> (forall x, x <> k -> ms' x = ms x) -> covers q k objs ->
  top + 1 < 2 ^ 64 -> meta_ok ms' (invalidate now q c).
Proof.
  intros Hh Hc Hms [_ Hnew] Hr x e. unfold invalidate. set (l := ancestorPrefixes q) in *.
  assert (Hb : forall p, gen _ p = _) by (apply (bump_all now l c); [intros r; apply (ho_gens _ _ Hh)|apply ancestorPrefixes_nodup|intros r _; pose proof (ho_gens _ _ Hh r); lia]).
  destruct (bump_rest now l c) as (_ & _ & _ & E4). rewrite E4, Hb. intros He Hg Hm. destruct (ho_head _ _ Hh x e He) as [Hle Ht].
  destruct (decide (fst (splitKey x) ∈ l)) as [Hin|Hin]; [lia|]. rewrite Z.add_0_r in Hg.
  rewrite Hms; [by apply Hc|]. intros ->. destruct Hnew as [|Hnew]; [done|]. destruct (Ht Hg) as (o & Ho & Hk & _). by apply (Hnew o).
Qed.

Section metadata.
Context `{S3Client} (metas : FWorld -> bytes -> gmap bytes bytes) `{!MetaLaws metas} (pages : nat).

Definition mgood (s : CacheSt) : Prop := meta_ok (metas (cs_world s)) (cs_cache s).
Definition mkeeps {A} (m : io CacheSt A) : Prop := forall s r s', mgood s -> m s = (r, s') -> metas (cs_world s') = metas (cs_world s) /\ mgood s'.

Lemma mkeeps_bind {A B} (m : io CacheSt A) (f : A -> io CacheSt B) : mkeeps m -> (forall a, mkeeps (f a)) -> mkeeps (io_bind m f).
Proof.
  intros Hm Hf s r s' Hg [(a & s1 & H1' & H2')|(e & H1' & ->)]%io_bind_inv; [|by eapply Hm].
  apply Hm in H1' as [Hw Hg1]; [|done]. apply Hf in H2' as [Hw2 Hg2]; [|done]. split; [by rewrite Hw2|done].
Qed.
Lemma mkeeps_attempt {A} (m : io CacheSt A) : mkeeps m -> mkeeps (attempt m).
Proof. intros Hm s r s' Hg (x & -> & Hx)%attempt_inv. by eapply Hm. Qed.
Lemma mkeeps_ret {A} (a : A) : mkeeps (ret a).
Proof. by intros s r s' Hg [= _ <-]. Qed.
Lemma mkeeps_gets {A} (f : CacheSt -> A) : mkeeps (gets f).
Proof. by intros s r s' Hg [= _ <-]. Qed.
Lemma mkeeps_cache f : (forall now ms c, meta_ok ms c -> meta_ok ms (f now c)) -> mkeeps (on_cache f).
Proof. intros Hf s r s' Hg [= _ <-]. split; [done|]. by apply Hf. Qed.
Lemma mkeeps_bucket {A} (m : io FWorld A) : (forall w r w', m w = (r, w') -> metas w' = metas w) -> mkeeps (on_bucket m).
Proof.
  intros Hm s r s' Hg. unfold on_bucket. destruct (m (cs_world s)) as [x w'] eqn:E. apply Hm in E. intros [= _ <-]. split; [exact E|].
  unfold mgood in *. cbn. by rewrite E.
Qed.

Lemma children_meta fuel p t ds fs w r w' : list_children fuel p t ds fs w = (r, w') -> metas w' = metas w.
Proof.
  revert t ds fs w. induction fuel as [|n IH]; intros t ds fs w Hr; cbn [list_children] in Hr; [by injection Hr as _ <-|].
  apply io_bind_inv in Hr as [(pg & w1 & Hl & Hr)|(e & Hl & _)]; apply List_meta in Hl; [|done].
  destruct (pg_truncated pg); [apply IH in Hr; by rewrite Hr|by injection Hr as _ <-].
Qed.
Lemma subtree_meta fuel root mk t objs w r w' : list_subtree fuel root mk t objs w = (r, w') -> metas w' = metas w.
Proof.
  revert t objs w. induction fuel as [|n IH]; intros t objs w Hr; cbn [list_subtree] in Hr; [by injection Hr as _ <-|].
  apply io_bind_inv in Hr as [(pg & w1 & Hl & Hr)|(e & Hl & _)]; apply List_meta in Hl; [|done].
  destruct (_ && _); [by injection Hr as _ <-|]. destruct (pg_truncated pg); [apply IH in Hr; by rewrite Hr|by injection Hr as _ <-].
Qed.

Lemma fillFolder_mkeeps p g : mkeeps (fillFolder pages p g).
Proof.
  unfold fillFolder. apply mkeeps_bind; [apply mkeeps_bucket; intros w r w'; apply children_meta|]. intros es.
  apply mkeeps_bind; [apply mkeeps_cache; intros now ms c; by apply meta_ok_same|intros _].
  apply mkeeps_bind; [apply mkeeps_cache; intros now ms c; apply meta_ok_seed|intros _]. apply mkeeps_ret.
Qed.
Lemma fillSubtree_mkeeps p g : mkeeps (fillSubtree pages p g).
Proof.
  unfold fillSubtree. apply mkeeps_bind; [apply mkeeps_gets|]. intros mk.
  apply mkeeps_bind; [apply mkeeps_bucket; intros w r w'; apply subtree_meta|]. intros [objs tr]. cbv zeta.
  apply mkeeps_bind; [apply mkeeps_cache; intros now ms c; by apply meta_ok_same|intros _].
  apply mkeeps_bind; [|intros _; apply mkeeps_ret]. destruct tr; [apply mkeeps_ret|]. apply mkeeps_cache. intros now ms c. apply meta_ok_seed_subtree.
Qed.
Lemma counted_mkeeps {A} f (m : io CacheSt A) : (forall c, lc_heads (f c) = lc_heads c /\ lc_gens (f c) = lc_gens c) -> mkeeps m ->
  mkeeps (io_bind (on_cache (fun _ => f)) (fun _ => m)).
Proof. intros Hf Hm. apply mkeeps_bind; [|by intros _]. apply mkeeps_cache. intros _ ms c. by apply meta_ok_same; apply Hf. Qed.

Lemma listFolder_mkeeps p : mkeeps (listFolder pages p).
Proof.
  unfold listFolder. apply mkeeps_bind; [apply mkeeps_gets|]. intros g. apply mkeeps_bind; [apply mkeeps_gets|].
  intros [es|]; apply counted_mkeeps; try done; [apply mkeeps_ret|apply fillFolder_mkeeps].
Qed.
Lemma subtree_mkeeps p : mkeeps (subtree pages p).
Proof.
  unfold subtree. apply mkeeps_bind; [apply mkeeps_gets|]. intros g. apply mkeeps_bind; [apply mkeeps_gets|].
  intros [d|]; apply counted_mkeeps; try done; [apply mkeeps_ret|apply fillSubtree_mkeeps].
Qed.
Lemma list_cached_mkeeps p : mkeeps (list_cached pages p).
Proof.
  unfold list_cached. apply mkeeps_bind; [apply mkeeps_cache; intros now ms c; by apply meta_ok_same|intros _].
  apply mkeeps_bind; [apply mkeeps_gets|]. intros [root|]; [|apply listFolder_mkeeps].
  apply mkeeps_bind; [apply mkeeps_attempt, subtree_mkeeps|]. intros [d|e]; [|apply listFolder_mkeeps].
  destruct (sd_truncated d); [apply listFolder_mkeeps|apply mkeeps_ret].
Qed.

(** A head that was asked for with its metadata has it. *)
Lemma headLoad_meta k nm s r s' : mgood s -> headLoad k nm s = (r, s') -> metas (cs_world s') = metas (cs_world s) /\ mgood s' /\
  forall d, r = Ok d -> nm = true -> hd_meta d = metas (cs_world s) k.
Proof.
  intros Hg. unfold headLoad, gets, io_bind at 1 2. destruct (cached_head _ _ k nm) as [d|] eqn:Eh.
  - intros [= <- <-]. do 2 (split; [done|]). intros d' [= <-] ->. unfold cached_head, fresh_entry in Eh.
    destruct (lc_heads (cs_cache s) !! k) as [e|] eqn:E; cbn in Eh; [|done].
    destruct (hc_gen e =? _) eqn:Eg; b2p; cbn [andb] in Eh; [|done]. destruct (_ <? _); cbn [andb] in Eh; [|done].
    destruct (hc_hasMeta e) eqn:Em; cbn in Eh; [|done]. injection Eh as <-. by apply Hg.
  - unfold io_bind at 1, on_bucket. destruct (HeadObjectF k (cs_world s)) as [[ho|e] w'] eqn:El; apply Head_meta in El as [Hw Ho]; intros [= <- <-].
    + specialize (Ho ho eq_refl). split; [done|]. split; [|intros d [= <-] _; exact Ho]. unfold mgood in *. cbn [cs_world cs_cache]. rewrite Hw.
      unfold store_head. by apply meta_ok_insert.
    + split; [done|]. split; [|done]. unfold mgood in *. cbn [cs_world cs_cache]. by rewrite Hw.
Qed.
Lemma each_mkeeps {A} (f : bytes -> io CacheSt A) l : (forall p, mkeeps (f p)) -> mkeeps (each f l).
Proof. intros Hf. induction l as [|p l IH]; cbn [each]; [apply mkeeps_ret|]. apply mkeeps_bind; [by apply mkeeps_attempt|by intros _]. Qed.
Lemma warmOnce_mkeeps order : mkeeps (warmOnce pages order).
Proof.
  unfold warmOnce. apply mkeeps_bind; [apply mkeeps_gets|]. intros now. apply mkeeps_bind; [apply mkeeps_gets|]. intros c0.
  apply mkeeps_bind; [apply mkeeps_cache; intros _ ms c; by apply meta_ok_same|intros _]. cbv zeta.
  apply mkeeps_bind; [apply each_mkeeps; intros p; apply mkeeps_bind; [apply mkeeps_gets|intros g; apply fillFolder_mkeeps]|intros _].
  apply mkeeps_bind; [apply each_mkeeps; intros p; apply mkeeps_bind; [apply mkeeps_gets|intros g; apply fillSubtree_mkeeps]|intros _].
  apply mkeeps_cache. intros _ ms c. apply meta_ok_sweep.
Qed.
End metadata.

(** *** Operations one after the other *)

Section runs.
Context `{S3Client} (objects : FWorld -> list subtreeObject) (remaining : bytes -> bool -> option bytes -> list subtreeObject -> list subtreeObject).
Context (metas : FWorld -> bytes -> gmap bytes bytes).
Context `{!ListingLaws objects remaining, !HeadLaws objects, !MetaLaws metas} (pages : nat).

(** No object but the one at [k] has other metadata. *)
Definition metas_but (k : bytes) (w w' : FWorld) : Prop := forall x, x <> k -> metas w' x = metas w x.

(** What uses the cache: reads, a refresh, a chroot, and the writes of this
    process, each followed by its invalidation. *)
Inductive cache_step : CacheSt -> CacheSt -> Prop :=
  | step_list s p r s' : proper p -> list_cached pages p s = (r, s') -> cache_step s s'
  | step_head s k nm r s' : head_cached k nm s = (r, s') -> cache_step s s'
  | step_warm s order r s' : warmOnce pages order s = (r, s') -> cache_step s s'
  | step_register s root : cache_step s {| cs_world := cs_world s; cs_cache := registerRoot root (cs_cache s) |}
  | step_write s k w' : changed_at k (objects (cs_world s)) (objects w') -> metas_but k (cs_world s) w' ->
      cache_step s {| cs_world := w'; cs_cache := invalidate (NowF w') (fst (splitKey k)) (cs_cache s) |}
  | step_mkdir s k w' : changed_at (k ++ [slash]) (objects (cs_world s)) (objects w') -> metas_but (k ++ [slash]) (cs_world s) w' ->
      (forall o, o ∈ objects (cs_world s) -> so_key o <> k ++ [slash]) ->
      cache_step s {| cs_world := w'; cs_cache := invalidate (NowF w') (fst (splitKey k)) (cs_cache s) |}
  | step_rename s old new between w' : changed_at old (objects (cs_world s)) between -> changed_at new between (objects w') ->
      (forall x, x <> old -> x <> new -> metas w' x = metas (cs_world s) x) ->
      cache_step s {| cs_world := w'; cs_cache := invalidate (NowF w') (fst (splitKey new)) (invalidate (NowF w') (fst (splitKey old)) (cs_cache s)) |}.

Inductive ran : nat -> CacheSt -> CacheSt -> Prop :=
  | ran_start s : ran 0 s s
  | ran_step n s t u : ran n s t -> cache_step t u -> ran (S n) s u.

Lemma honest_up a b objs c : a <= b -> honest a objs c -> honest b objs c.
Proof. intros Hab [H1 H2 Hsn Q1 Q2 H3 H4 H5]. split; try done. intros p. specialize (H1 p). lia. Qed.

(** A rename is two writes; anything else is at most one. *)
Lemma step_good n s t : good objects (2 * n) s -> mgood metas s -> 0 <= n < 2 ^ 62 -> cache_step s t -> good objects (2 * (n + 1)) t /\ mgood metas t.
Proof.
  intros Hg Hm Hn Hs. assert (Hup : forall u, good objects (2 * n) u -> good objects (2 * (n + 1)) u) by (intros u; apply honest_up; lia).
  assert (Hw : forall top k objs objs' c now, 0 <= top -> top + 1 < 2 ^ 64 -> honest top objs c -> changed_at k objs objs' -> honest (top + 1) objs' (invalidate now (fst (splitKey k)) c)).
  { intros top k objs objs' c now _ Ht Hh Hc. eapply honest_invalidate; [exact Hh|exact Hc|apply covers_own|apply splitKey_spec|done]. }
  destruct Hs as [s p r s' Hp Hr|s k nm r s' Hr|s order r s' Hr|s root|s k w' Hc Hmk|s k w' Hc Hmk Hnew|s old new between w' Hc1 Hc2 Hmk].
  - split; [apply Hup; by eapply (list_cached_keeps objects remaining) in Hr as [[_ ?] _]|]. by eapply (list_cached_mkeeps metas) in Hr as [_ ?].
  - unfold head_cached in Hr. apply io_bind_inv in Hr as [(d & s1 & Hr & [= _ <-])|(e & Hr & _)];
      (split; [apply Hup; by apply (headLoad_keeps objects) with (top := 2 * n) in Hr as [[_ ?] _]|]); by apply (headLoad_meta metas) in Hr as (_ & ? & _).
  - split; [apply Hup; by eapply (warmOnce_keeps objects remaining) in Hr as [[_ ?] _]|]. by eapply (warmOnce_mkeeps metas) in Hr as [_ ?].
  - split; [apply Hup; by apply honest_register|]. revert Hm. apply meta_ok_same; cbn; unfold registerRoot; by repeat case_bool_decide.
  - split; [apply (honest_up (2 * n + 1)); [lia|]; eapply Hw; [lia..|exact Hg|done]|].
    eapply meta_ok_invalidate; [exact Hg|exact Hm|exact Hmk|apply covers_own|lia].
  - split; [apply (honest_up (2 * n + 1)); [lia|]; eapply honest_invalidate; [exact Hg|exact Hc|by apply covers_marker|apply splitKey_spec|lia]|].
    eapply meta_ok_invalidate; [exact Hg|exact Hm|exact Hmk|by apply covers_marker|lia].
  - assert (H1' : honest (2 * n + 1) between (invalidate (NowF w') (fst (splitKey old)) (cs_cache s))) by (eapply Hw; [lia..|exact Hg|done]).
    split; [replace (2 * (n + 1)) with (2 * n + 1 + 1) by lia; eapply Hw; [lia..|exact H1'|exact Hc2]|].
    (* between the two invalidations the metadata is that of [w'] but for the new name *)
    pose (mid := fun x => if decide (x = old) then metas w' x else metas (cs_world s) x).
    assert (H2' : meta_ok mid (invalidate (NowF w') (fst (splitKey old)) (cs_cache s))).
    { eapply meta_ok_invalidate; [exact Hg|exact Hm| |apply covers_own|lia]. intros x Hx. unfold mid. by rewrite decide_False. }
    eapply meta_ok_invalidate; [exact H1'|exact H2'| |apply covers_own|lia]. cbn. intros x Hx. unfold mid. destruct (decide (x = old)) as [->|]; [done|by apply Hmk].
Qed.

Lemma run_good cfg n s t : cs_cache s = NewListingCache cfg -> Z.of_nat n <= 2 ^ 62 -> ran n s t -> good objects (2 * Z.of_nat n) t /\ mgood metas t.
Proof.
  intros Hs Hn Hr. induction Hr as [s|n s t u Hr IH Hst].
  - split; [unfold good; rewrite Hs; by apply honest_new|]. unfold mgood. rewrite Hs. intros k e. cbn. by rewrite lookup_empty.
  - rewrite Nat2Z.inj_succ, <-Z.add_1_r. destruct IH as [Hg Hm]; [done|lia|]. eapply step_good; [exact Hg|exact Hm|lia|done].
Qed.

Lemma listFolder_error p e s s' : listFolder pages p s = (Err e, s') -> (length (objects (cs_world s)) < pages)%nat -> bucket_said e.
Proof.
  unfold listFolder, gets, io_bind at 1 2. destruct (cached_listing _ _ p); [done|]. unfold io_bind at 1, on_cache at 1, modify at 1.
  unfold fillFolder, on_bucket. unfold io_bind at 1. cbn [cs_world cs_cache]. destruct (listChildren pages p (cs_world s)) as [[es|e'] w'] eqn:El; [done|].
  intros [= -> _] Hlen. by eapply (listChildren_ends objects remaining) in El.
Qed.

Lemma list_cached_error top p e s s' : proper p -> good objects top s -> list_cached pages p s = (Err e, s') -> (length (objects (cs_world s)) < pages)%nat -> bucket_said e.
Proof.
  intros Hp Hg Hr Hl. unfold list_cached, io_bind at 1, on_cache, modify in Hr. set (s1 := {| cs_world := _; cs_cache := _ |}) in Hr.
  assert (Hg1 : good objects top s1) by (by apply honest_touch). change (objects (cs_world s)) with (objects (cs_world s1)) in Hl. clearbody s1. clear s Hg.
  unfold gets, io_bind at 1 in Hr. destruct (recursiveRoot (cs_cache s1) p) as [root|] eqn:Er; [|by eapply listFolder_error].
  unfold io_bind, attempt in Hr. destruct (subtree pages root s1) as [d s2] eqn:Es. apply (subtree_keeps objects remaining) with (top := top) in Es as [[Hs2 _] _]; [| |done].
  - rewrite <-Hs2 in Hl. destruct d as [d|]; [destruct (sd_truncated d); [|done]|]; by eapply listFolder_error.
  - apply find_some in Er as [Hin _]. pose proof (ho_roots _ _ Hg1) as Hall. rewrite Forall_forall in Hall. apply Hall. by apply list_elem_of_In.
Qed.

(** An error of a head is the bucket's answer for that very key. *)
Definition head_said (k : bytes) (e : goerr) : Prop := exists w w', HeadObjectF k w = (Err e, w').

Lemma headLoad_error k nm e s s' : headLoad k nm s = (Err e, s') ->
  head_said k e /\ (isNotFound e = true -> forall o, o ∈ objects (cs_world s) -> so_key o <> k).
Proof.
  unfold headLoad, gets, io_bind at 1 2. destruct (cached_head _ _ k nm) as [d|]; [done|].
  unfold io_bind, on_bucket. destruct (HeadObjectF k (cs_world s)) as [[ho|e'] w'] eqn:El; [done|]. intros [= -> _].
  split; [by exists (cs_world s), w'|]. by apply Head_ok in El as [_ Ho].
Qed.

(** C29: Used from its creation on by operations that do not overlap, and by
    nobody else (reads, refreshes, chroots, and this process's writes, folders
    and renames, each followed by its invalidation), the cache is transparent: a
    listing is the immediate children of the folder as the bucket holds them,
    whether it comes from the folder's own entry, from a scan of a subtree or from
    the bucket, and fails only with an error of the bucket; a head tells the size
    and time of the object as it is, and its user metadata whenever that is asked
    for (a head seeded from a listing has none and does not answer then); a head
    fails only with the bucket's answer for that key, with "not found" only of an
    object that is not there; and neither changes the bucket. *)
Theorem sequential_reads_true cfg n s t p k nm (Hs : cs_cache s = NewListingCache cfg) (Hn : Z.of_nat n <= 2 ^ 62) (Hr : ran n s t)
    (Hp : proper p) (Hpages : (length (objects (cs_world t)) < pages)%nat) :
  (exists r u, list_cached pages p t = (r, u) /\ objects (cs_world u) = objects (cs_world t) /\ metas (cs_world u) = metas (cs_world t) /\
    match r with Ok es => es = childrenOf (objects (cs_world t)) p | Err e => bucket_said e end) /\
  (exists r u, head_cached k nm t = (r, u) /\ objects (cs_world u) = objects (cs_world t) /\ metas (cs_world u) = metas (cs_world t) /\
    match r with
    | Ok ho => (exists o, o ∈ objects (cs_world t) /\ so_key o = k /\ h_size ho = so_size o /\ h_mtime ho = so_mtime o) /\
               (nm = true -> h_meta ho = metas (cs_world t) k)
    | Err e => head_said k e /\ (isNotFound e = true -> forall o, o ∈ objects (cs_world t) -> so_key o <> k)
    end).
Proof.
  destruct (run_good cfg n s t Hs Hn Hr) as [Hg Hm]. split.
  - destruct (list_cached pages p t) as [r u] eqn:E. exists r, u. split; [done|]. pose proof E as E'. pose proof E as Em.
    apply (list_cached_mkeeps metas) in Em as [Hmw _]; [|done].
    apply (list_cached_keeps objects remaining) with (top := 2 * Z.of_nat n) in E as [[Hw _] Hes]; [|done..]. split; [done|]. split; [done|].
    destruct r as [es|e]; [by apply Hes|]. by eapply list_cached_error.
  - destruct (head_cached k nm t) as [r u] eqn:E. exists r, u. split; [done|]. unfold head_cached in E.
    apply io_bind_inv in E as [(d & s1 & E & [= <- <-])|(e & E & ->)]; pose proof E as E'; pose proof E as Em;
      apply (headLoad_meta metas) in Em as (Hmw & _ & Hdm); try done;
      apply (headLoad_keeps objects) with (top := 2 * Z.of_nat n) in E as [[Hw _] Hd]; try done; (split; [done|]); (split; [done|]).
    + split; [apply (Hd d eq_refl)|]. intros Hnm. exact (Hdm d eq_refl Hnm).
    + by eapply headLoad_error.
Qed.
End runs.

(** *** A bucket for the witness: it lists a folder in one page, a subtree an object a page *)

Record bucketW := { bw_objects : list subtreeObject; bw_clock : Z }.
Definition rest_of (p : bytes) (d : bool) (t : option bytes) (objs : list subtreeObject) : list subtreeObject :=
  match t with None => under p objs | Some tk => if d then [] else drop (length tk) (under p objs) end.
Definition toy_page (p : bytes) (d : bool) (t : option bytes) (objs : list subtreeObject) : page :=
  let r := rest_of p d t objs in
  if d then {| pg_prefixes := (fun n => p ++ n ++ [slash]) <$> firsts [] (omap (folder_of p) r); pg_contents := filter (fun o => plain p o = true) r;
               pg_truncated := false; pg_next := None |}
  else {| pg_prefixes := []; pg_contents := take 1 r; pg_truncated := (1 <? Z.of_nat (length r));
          pg_next := Some (slash :: default [] t) |}.

(** Every object of this bucket has its name as user metadata. *)
Definition toy_meta (w : bucketW) (k : bytes) : gmap bytes bytes := {[bs "name" := k]}.

Definition toyClient : S3Client := {|
  FWorld := bucketW;
  Stream := unit;
  stream_Read _ _ := ([], Some (Sent EOF), tt);
  stream_All _ := Ok [];
  HeadObjectF k := fun w => match find (fun o => bool_decide (so_key o = k)) (bw_objects w) with
                            | Some o => (Ok {| h_size := so_size o; h_mtime := so_mtime o; h_meta := toy_meta w k |}, w)
                            | None => (Err (APIError (bs "NotFound")), w) end;
  GetObjectF _ _ := fail (APIError (bs "NoSuchKey"));
  PutObjectF _ _ _ := ret tt;
  ListF p d _ t := fun w => (Ok (toy_page p d t (bw_objects w)), w);
  DeleteObjectF _ := ret tt;
  RenameObjectF _ _ := ret tt;
  CreateMultipartUploadF _ _ := ret [];
  UploadPartF _ _ _ _ := ret tt;
  CompleteMultipartUploadF _ _ := ret tt;
  NowF := bw_clock;
|}.

Lemma toy_listing : @ListingLaws toyClient bw_objects rest_of.
Proof.
  split; [done|]. intros p d mk t w r w' [= <- <-]. split; [done|]. intros pg [= <-]. unfold toy_page. destruct d.
  - exists (rest_of p true t (bw_objects w)), []. rewrite app_nil_r. cbn. repeat split; [done..|]. intros _ n _. by apply not_elem_of_nil.
  - set (r := rest_of p false t (bw_objects w)). exists (take 1 r), (drop 1 r). cbn [pg_truncated pg_next pg_contents pg_prefixes].
    split; [by rewrite take_drop|]. repeat split; [| |done].
    + destruct (1 <? _) eqn:E; b2p; [|destruct r as [|x [|y r]]; [done..|cbn in E; lia]]. unfold r, rest_of. destruct t as [tk|]; cbn [default length from_option]; [|done].
      rewrite drop_drop. f_equal. cbn. lia.
    + intros Ht. b2p. destruct r; [cbn in Ht; lia|done].
Qed.

Lemma toy_heads : @HeadLaws toyClient bw_objects.
Proof.
  split. intros k w r w'. cbn. destruct (find _ (bw_objects w)) as [o|] eqn:E; intros [= <- <-]; (split; [done|]).
  - apply find_some in E as [Hin Hk]. exists o. apply bool_decide_eq_true in Hk. split; [by apply list_elem_of_In|]. done.
  - intros _ o Ho Hk. apply (find_none _ _ E) in Ho || (apply list_elem_of_In in Ho; apply (find_none _ _ E) in Ho). by rewrite bool_decide_true in Ho.
Qed.

Lemma toy_metas : @MetaLaws toyClient toy_meta.
Proof.
  split; [|done]. intros k w r w'. cbn. destruct (find _ (bw_objects w)) as [o|]; intros [= <- <-]; (split; [done|]); [by intros ho [= <-]|done].
Qed.

Definition obj (k : bytes) (n : Z) : subtreeObject := {| so_key := k; so_size := n; so_mtime := 7 |}.
Definition toy_before : list subtreeObject := [obj (bs "HEAD") 23; obj (bs "refs/heads/a") 41; obj (bs "refs/heads/f/x") 41; obj (bs "refs/heads/f/y") 41; obj (bs "refs/tags/t") 41].
Definition toy_after : list subtreeObject := [obj (bs "HEAD") 23; obj (bs "refs/heads/a") 41; obj (bs "refs/heads/b") 41; obj (bs "refs/heads/f/x") 41; obj (bs "refs/heads/f/y") 41; obj (bs "refs/tags/t") 41].
Definition toy_cfg : CacheConfig := {| cc_ttl := 100; cc_idleTTL := 0; cc_disableHeadPrefetch := false; cc_recursive := None; cc_maxSubtreeKeys := 0 |}.
Definition toy_s0 : @CacheSt toyClient := @Build_CacheSt toyClient {| bw_objects := toy_before; bw_clock := 1 |} (NewListingCache toy_cfg).
(** A listing out of a scan of refs/, then a new branch, then the listing again. *)
Definition toy_s1 : @CacheSt toyClient := snd (@list_cached toyClient 10 (bs "refs/heads/") toy_s0).
Definition toy_s2 : @CacheSt toyClient :=
  @Build_CacheSt toyClient {| bw_objects := toy_after; bw_clock := 2 |} (invalidate 2 (fst (splitKey (bs "refs/heads/b"))) (cs_cache toy_s1)).
Definition toy_s3 : @CacheSt toyClient := snd (@list_cached toyClient 10 (bs "refs/heads/") toy_s2).

Definition names {A} (r : gores (list childEntry) * A) : list (bytes * childKind) := match fst r with Ok es => (fun e => (ch_name e, ch_kind e)) <$> es | Err _ => [] end.

Example toy_listings :
  names (@list_cached toyClient 10 (bs "refs/heads/") toy_s0) = [(bs "f", kindDir); (bs "a", kindFile)] /\
  names (@list_cached toyClient 10 (bs "refs/heads/") toy_s2) = [(bs "f", kindDir); (bs "a", kindFile); (bs "b", kindFile)] /\
  (lc_hits (cs_cache toy_s3), lc_misses (cs_cache toy_s3)) = (0, 2).
Proof. by vm_compute. Qed.

Lemma toy_proper : proper (bs "refs/heads/").
Proof. right. by exists (bs "refs/heads"). Qed.
Lemma toy_world1 : cs_world toy_s1 = {| bw_objects := toy_before; bw_clock := 1 |}.
Proof. by vm_compute. Qed.

Lemma toy_run : @ran toyClient bw_objects toy_meta 10 3 toy_s0 toy_s3.
Proof.
  eapply ran_step; [eapply ran_step; [eapply ran_step; [apply ran_start|]|]|].
  - eapply (@step_list toyClient bw_objects toy_meta 10 toy_s0); [apply toy_proper|]. apply surjective_pairing.
  - apply (@step_write toyClient bw_objects toy_meta 10 toy_s1 (bs "refs/heads/b") {| bw_objects := toy_after; bw_clock := 2 |}); [|done].
    rewrite toy_world1. by vm_compute.
  - eapply (@step_list toyClient bw_objects toy_meta 10 toy_s2); [apply toy_proper|]. apply surjective_pairing.
Qed.

(** The head of the new branch was seeded without metadata by the last listing. *)
Example toy_seeded :
  match fst (@head_cached toyClient (bs "refs/heads/b") false toy_s3), fst (@head_cached toyClient (bs "refs/heads/b") true toy_s3) with
  | Ok seed, Ok full => bool_decide (h_meta seed = ∅) && bool_decide (h_meta full = {[bs "name" := bs "refs/heads/b"]})
  | _, _ => false
  end = true.
Proof. by vm_compute. Qed.

Lemma sequential_reads_true_witness :
  (exists r u, @list_cached toyClient 10 (bs "refs/heads/") toy_s3 = (r, u) /\ bw_objects (cs_world u) = bw_objects (cs_world toy_s3) /\
    toy_meta (cs_world u) = toy_meta (cs_world toy_s3) /\
    match r with Ok es => es = childrenOf (bw_objects (cs_world toy_s3)) (bs "refs/heads/") | Err e => @bucket_said toyClient e end) /\
  exists r u, @head_cached toyClient (bs "refs/heads/b") true toy_s3 = (r, u) /\
    match r with Ok ho => h_meta ho = toy_meta (cs_world toy_s3) (bs "refs/heads/b") | Err _ => False end.
Proof.
  assert (Hlen : (length (bw_objects (cs_world toy_s3)) < 10)%nat).
  { replace (cs_world toy_s3) with {| bw_objects := toy_after; bw_clock := 2 |} by (symmetry; by vm_compute). cbn. lia. }
  destruct (@sequential_reads_true toyClient bw_objects rest_of toy_meta toy_listing toy_heads toy_metas 10 toy_cfg 3 toy_s0 toy_s3 (bs "refs/heads/")
    (bs "refs/heads/b") true eq_refl ltac:(lia) toy_run toy_proper Hlen) as [Hlist (r & u & Hh & _ & _ & Hr)].
  split; [exact Hlist|]. exists r, u. split; [exact Hh|]. destruct r as [ho|e]; [by apply Hr|].
  assert (Hok : is_ok (fst (@head_cached toyClient (bs "refs/heads/b") true toy_s3)) = true) by (vm_compute; reflexivity).
  rewrite Hh in Hok. discriminate Hok.
Defined.

(** *** When operations overlap *)

Lemma seed_lookup (f : childEntry -> headCacheEntry) (p : bytes) (es : list childEntry) (e : childEntry) (h : gmap bytes headCacheEntry) : e ∈ es -> ch_kind e = kindFile -> (forall e', e' ∈ es -> ch_kind e' = kindFile -> ch_name e' = ch_name e -> e' = e) ->
  fold_left (fun (h : gmap bytes headCacheEntry) e => match ch_kind e with kindFile => <[p ++ ch_name e := f e]> h | kindDir => h end) es h !! (p ++ ch_name e) = Some (f e).
Proof.
  intros He Hk Hd. apply list_elem_of_split in He as (l1 & l2 & ->). rewrite fold_left_app. cbn [fold_left]. rewrite Hk. apply fold_left_inv; [apply lookup_insert_eq|].
  intros h' x Hx Hh. destruct (ch_kind x) eqn:Ex; [|done]. destruct (decide (p ++ ch_name x = p ++ ch_name e)) as [E|E].
  - rewrite E, lookup_insert_eq. apply app_inv_head in E. f_equal. f_equal. apply Hd; [|done..]. apply elem_of_app. right. by right.
  - by rewrite lookup_insert_ne.
Qed.

(** Heads seeded from a listing carry the generation of the moment they are
    stored, not the one the listing was made under. A listing that a write of this
    process overtakes is stored under the old generation, so it is not used itself;
    but every file of it is answered from then on with the size and time it had
    before the write, until the entry expires. *)
Theorem overtaken_listing_seeds now p es c e (He : e ∈ es) (Hk : ch_kind e = kindFile) (Hd : forall e', e' ∈ es -> ch_kind e' = kindFile -> ch_name e' = ch_name e -> e' = e)
    (Hn : slash ∉ ch_name e) (Hp : proper p) (Hpre : cc_disableHeadPrefetch (lc_cfg c) = false) (Httl : 0 < cc_ttl (lc_cfg c)) (Hroom : forall q, 0 <= gen c q < 2 ^ 64 - 1) :
  let c' := seedHeads now p es (store_listing now p es (gen c p) (invalidate now p c)) in
  cached_listing now c' p = None /\ cached_head now c' (p ++ ch_name e) false = Some {| hd_size := ch_size e; hd_mtime := ch_mtime e; hd_meta := ∅ |}.
Proof.
  intros c'. set (c1 := store_listing now p es (gen c p) (invalidate now p c)) in c'. assert (Hcfg : lc_cfg c1 = lc_cfg c).
  { unfold c1, invalidate. cbn. by apply (fold_left_inv (fun c' => lc_cfg c' = lc_cfg c)). }
  assert (Hgen : gen c1 p = gen c p + 1).
  { change (gen c1 p) with (gen (invalidate now p c) p). unfold invalidate. rewrite bump_all; [by rewrite decide_True by (by left)|intros q; apply Hroom|apply ancestorPrefixes_nodup|].
    intros q _. specialize (Hroom q). lia. }
  unfold c', seedHeads. rewrite Hcfg, Hpre. split.
  - assert (El : lc_listings c1 !! p = Some {| le_entries := es; le_gen := gen c p; le_expires := now + cc_ttl (lc_cfg (invalidate now p c)) |}) by apply lookup_insert_eq.
    unfold cached_listing. cbn [lc_listings with_entries]. rewrite El. cbn [mbind option_bind le_gen le_expires]. unfold fresh_entry.
    change (gen (with_entries _ _ _ c1) p) with (gen c1 p). rewrite Hgen. by rewrite (proj2 (Z.eqb_neq _ _)) by lia.
  - unfold cached_head. cbn [lc_heads with_entries]. rewrite (seed_lookup (fun e => seeded c1 (now + cc_ttl (lc_cfg c)) p (ch_size e) (ch_mtime e))) by done. cbn.
    rewrite splitKey_child by done. unfold fresh_entry. rewrite Z.eqb_refl. by rewrite (proj2 (Z.ltb_lt _ _)) by lia.
Qed.

Lemma overtaken_listing_seeds_witness :
  let e := {| ch_name := bs "a"; ch_kind := kindFile; ch_size := 41; ch_mtime := 7 |} in
  let c := NewListingCache toy_cfg in
  let c' := seedHeads 2 (bs "refs/heads/") [e] (store_listing 2 (bs "refs/heads/") [e] (gen c (bs "refs/heads/")) (invalidate 2 (bs "refs/heads/") c)) in
  cached_listing 2 c' (bs "refs/heads/") = None /\ cached_head 2 c' (bs "refs/heads/a") false = Some {| hd_size := 41; hd_mtime := 7; hd_meta := ∅ |}.
Proof.
  apply (overtaken_listing_seeds 2 (bs "refs/heads/") [{| ch_name := bs "a"; ch_kind := kindFile; ch_size := 41; ch_mtime := 7 |}] (NewListingCache toy_cfg)
           {| ch_name := bs "a"; ch_kind := kindFile; ch_size := 41; ch_mtime := 7 |}).
  - by left.
  - reflexivity.
  - intros e' [->|[]%not_elem_of_nil]%elem_of_cons _ _; done.
  - intros [E|[]%not_elem_of_nil]%elem_of_cons. discriminate E.
  - apply toy_proper.
  - reflexivity.
  - cbn. lia.
  - intros q. vm_compute. split; [discriminate|reflexivity].
Defined.
