(* ===== verification/UnixMeta.v ===== *)
(** * POSIX attributes as object metadata (internal/s3fs/unixmeta)

    Owner, permissions, type, device and time of a file as the x-amz-meta-
    strings of its object. The parts of [strconv] and [net/url] it uses come
    first. *)

From S2P Require Import Prelude GoLib.

(** ** strconv: numbers in the syntax of Go (base 0) *)

Definition lower (c : byte) : Z := Z.lor (bu c) 32.

(** The digit's value, for any base up to 36. *)
Definition digit_of (c : byte) : option Z :=
  if is_digit c then Some (bu c - 48)
  else if (97 <=? lower c) && (lower c <=? 122) then Some (lower c - 97 + 10) else None.

(** The base that a prefix names, and the digits after it. *)
Definition base0 (s : bytes) : Z * bytes :=
  match s with
  | z :: s' =>
      if negb (bu z =? 48) then (10, s) else
      match s' with
      | c :: (_ :: _) as r =>
          if lower c =? 98 then (2, tl s') else if lower c =? 111 then (8, tl s') else if lower c =? 120 then (16, tl s') else (8, s')
      | _ => (8, s')
      end
  | [] => (10, [])
  end.

(** The digits below [2^bits], and whether an underscore was passed over. *)
Fixpoint parse_base (base bits : Z) (s : bytes) (n : Z) (underscores : bool) : option (Z * bool) :=
  match s with
  | [] => Some (n, underscores)
  | c :: s' =>
      if bu c =? 95 then parse_base base bits s' n true else
      match digit_of c with
      | Some d => if base <=? d then None else if 2 ^ bits <=? n * base + d then None else parse_base base bits s' (n * base + d) underscores
      | None => None
      end
  end.

(** [underscoreOK]: what the last byte was. *)
Inductive seen := atStart | aDigit | anUnderscore | another.
Fixpoint underscores_ok (hex : bool) (i : seen) (s : bytes) : bool :=
  match s with
  | [] => match i with anUnderscore => false | _ => true end
  | c :: s' =>
      if is_digit c || (hex && (97 <=? lower c) && (lower c <=? 102)) then underscores_ok hex aDigit s' else
      if bu c =? 95 then match i with aDigit => underscores_ok hex anUnderscore s' | _ => false end else
      match i with anUnderscore => false | _ => underscores_ok hex another s' end
  end.
Definition underscoreOK (s : bytes) : bool :=
  let s := match s with c :: s' => if (bu c =? 45) || (bu c =? 43) then s' else s | [] => [] end in
  match s with
  | z :: c :: s' =>
      if (bu z =? 48) && ((lower c =? 98) || (lower c =? 111) || (lower c =? 120)) then underscores_ok (lower c =? 120) aDigit s' else underscores_ok false atStart s
  | _ => underscores_ok false atStart s
  end.

(** [strconv.ParseUint(s, 0, bits)] and [strconv.ParseInt(s, 0, 64)] *)
Definition ParseUint0 (bits : Z) (s : bytes) : option Z :=
  match s with
  | [] => None
  | _ => let '(base, digits) := base0 s in
         '(n, underscores) ← parse_base base bits digits 0 false; if underscores && negb (underscoreOK s) then None else Some n
  end.
Definition ParseInt0 (s : bytes) : option Z :=
  match s with
  | [] => None
  | c :: s' =>
      let neg := bu c =? 45 in
      un ← ParseUint0 64 (if neg || (bu c =? 43) then s' else s);
      if neg then (if 2 ^ 63 <? un then None else Some (- un)) else if 2 ^ 63 <=? un then None else Some un
  end.

Example parse0_examples :
  ParseUint0 32 (bs "4096") = Some 4096 /\ ParseUint0 32 (bs "0755") = Some 493 /\ ParseUint0 32 (bs "0x1F") = Some 31 /\ ParseUint0 32 (bs "1_000") = Some 1000 /\
  ParseUint0 32 (bs "1__0") = None /\ ParseUint0 32 (bs "4294967296") = None /\ ParseUint0 32 (bs "0") = Some 0 /\ ParseUint0 32 (bs "09") = None /\
  ParseInt0 (bs "-0b11") = Some (-3) /\ ParseUint0 32 (bs "0x_f") = Some 15 /\ ParseUint0 32 (bs "_1") = None /\ ParseUint0 32 (bs "-1") = None.
Proof. by vm_compute. Qed.

(** ** url.QueryEscape and url.QueryUnescape *)

Definition unreserved (c : byte) : bool :=
  is_digit c || ((97 <=? lower c) && (lower c <=? 122) && (65 <=? bu c)) || existsb (fun x => bool_decide (x = c)) (bs "-_.~").
Definition upperhex (z : Z) : byte := if z <? 10 then bz (48 + z) else bz (55 + z).
Definition escape_byte (c : byte) : bytes :=
  if unreserved c then [c] else if bu c =? 32 then bs "+" else [bz 37; upperhex (bu c / 16); upperhex (bu c mod 16)].
Definition QueryEscape (s : bytes) : bytes := flat_map escape_byte s.

Definition unhex (c : byte) : option Z := d ← digit_of c; if d <? 16 then Some d else None.
Fixpoint QueryUnescape (s : bytes) : option bytes :=
  match s with
  | [] => Some []
  | c :: s' =>
      if bu c =? 37 then
        match s' with
        | a :: b :: s'' => x ← unhex a; y ← unhex b; r ← QueryUnescape s''; Some (bz (x * 16 + y) :: r)
        | _ => None
        end
      else r ← QueryUnescape s'; Some ((if bu c =? 43 then bz 32 else c) :: r)
  end.

(** ** Modes *)

(** [os.FileMode] *)
Definition ModeDir : Z := 2 ^ 31.
Definition ModeSymlink : Z := 2 ^ 27.
Definition ModeDevice : Z := 2 ^ 26.
Definition ModeNamedPipe : Z := 2 ^ 25.
Definition ModeSocket : Z := 2 ^ 24.
Definition ModeSetuid : Z := 2 ^ 23.
Definition ModeSetgid : Z := 2 ^ 22.
Definition ModeCharDevice : Z := 2 ^ 21.
Definition ModeSticky : Z := 2 ^ 20.
Definition ModePerm : Z := 511.
Definition has (m bits : Z) : bool := negb (Z.land m bits =? 0).

Definition modeTypeMask : Z := 61440.
Definition modeRegular : Z := 32768.
Definition modeDir : Z := 16384.
Definition modeSymlink : Z := 40960.
Definition modeBlock : Z := 24576.
Definition modeChar : Z := 8192.
Definition modeFIFO : Z := 4096.
Definition modeSocket : Z := 49152.

Definition PosixMode (m : Z) : Z :=
  let out := Z.land m ModePerm in
  let out := if has m ModeSetuid then Z.lor out 2048 else out in
  let out := if has m ModeSetgid then Z.lor out 1024 else out in
  let out := if has m ModeSticky then Z.lor out 512 else out in
  if has m ModeDir then Z.lor out modeDir
  else if has m ModeSymlink then Z.lor out modeSymlink
  else if has m ModeDevice && has m ModeCharDevice then Z.lor out modeChar
  else if has m ModeDevice then Z.lor out modeBlock
  else if has m ModeNamedPipe then Z.lor out modeFIFO
  else if has m ModeSocket then Z.lor out modeSocket
  else Z.lor out modeRegular.

Definition GoFileMode (p : Z) : Z :=
  let m := Z.land p 511 in
  let m := if has p 2048 then Z.lor m ModeSetuid else m in
  let m := if has p 1024 then Z.lor m ModeSetgid else m in
  let m := if has p 512 then Z.lor m ModeSticky else m in
  let t := Z.land p modeTypeMask in
  if t =? modeDir then Z.lor m ModeDir
  else if t =? modeSymlink then Z.lor m ModeSymlink
  else if t =? modeChar then Z.lor m (Z.lor ModeDevice ModeCharDevice)
  else if t =? modeBlock then Z.lor m ModeDevice
  else if t =? modeFIFO then Z.lor m ModeNamedPipe
  else if t =? modeSocket then Z.lor m ModeSocket
  else m.

(** ** Attributes *)

(** [Mtime] in nanoseconds since 1970. *)
Record Attrs := { UID : Z; GID : Z; Mode : Z; Rdev : Z; Mtime : Z; SymlinkTarget : bytes }.
Definition unix (t : Z) : Z := t / 10 ^ 9.

Definition keyUID : bytes := bs "uid".
Definition keyGID : bytes := bs "gid".
Definition keyMode : bytes := bs "mode".
Definition keyRdev : bytes := bs "rdev".
Definition keyMtime : bytes := bs "mtime".
Definition keySymlinkTarget : bytes := bs "--symlink-target".

Definition Encode (a : Attrs) : gmap bytes bytes :=
  let m := {[ keyUID := FormatInt (UID a); keyGID := FormatInt (GID a); keyMode := FormatInt (PosixMode (Mode a)); keyMtime := FormatInt (unix (Mtime a)) ]} in
  let m := if has (Mode a) (Z.lor ModeDevice ModeCharDevice) then <[keyRdev := FormatInt (Rdev a)]> m else m in
  match SymlinkTarget a with [] => m | t => <[keySymlinkTarget := QueryEscape t]> m end.

(** A header that is there and well-formed, or the default. *)
Definition field {A : Type} (meta : gmap bytes bytes) (k : bytes) (parse : bytes -> option A) (d : A) : A := default d (meta !! k ≫= parse).

Definition Decode (meta : gmap bytes bytes) (defaults : Attrs) : Attrs := {|
  UID := field meta keyUID (ParseUint0 32) (UID defaults);
  GID := field meta keyGID (ParseUint0 32) (GID defaults);
  Mode := field meta keyMode (fun s => GoFileMode <$> ParseUint0 32 s) (Mode defaults);
  Rdev := field meta keyRdev (ParseUint0 32) (Rdev defaults);
  Mtime := field meta keyMtime (fun s => (fun v => v * 10 ^ 9) <$> ParseInt0 s) (Mtime defaults);
  SymlinkTarget := field meta keySymlinkTarget QueryUnescape (SymlinkTarget defaults);
|}.

(** [LookupUID] and [LookupGID]: the user database, then the decimal number. *)
Definition ParseUint10 (s : bytes) : option Z := n ← parse_digits s; if n <? 2 ^ 32 then Some n else None.
Definition LookupUID (lookup : bytes -> option bytes) (name : bytes) : option Z :=
  match lookup name with Some uid => ParseUint10 uid | None => ParseUint10 name end.
Definition LookupGID (lookup_group : bytes -> option bytes) (name : bytes) : option Z :=
  match lookup_group name with Some gid => ParseUint10 gid | None => ParseUint10 name end.

(** ** What they promise *)

Lemma escape_byte_ok c : (unreserved c = true /\ (bu c =? 37) = false /\ (bu c =? 43) = false) \/ (unreserved c = false /\ bu c = 32) \/
  (unreserved c = false /\ (bu c =? 32) = false /\ unhex (upperhex (bu c / 16)) = Some (bu c / 16) /\ unhex (upperhex (bu c mod 16)) = Some (bu c mod 16)).
Proof. destruct c; vm_compute; first [left; repeat split; reflexivity | right; left; split; reflexivity | right; right; repeat split; reflexivity]. Qed.

Lemma QueryUnescape_escape s : QueryUnescape (QueryEscape s) = Some s.
Proof.
  unfold QueryEscape. induction s as [|c s IH]; [done|]. cbn [flat_map]. unfold escape_byte at 1.
  destruct (escape_byte_ok c) as [(-> & H37 & H43)|[[-> H32]|(-> & H32 & Hh & Hl)]].
  - cbn. by rewrite H37, H43, IH.
  - rewrite H32. cbn. rewrite IH. cbn. do 2 f_equal. by rewrite <-(bz_bu c), H32.
  - rewrite H32. cbn [app QueryUnescape]. change (bu (bz 37) =? 37) with true. cbv iota. rewrite Hh, Hl. cbn. rewrite IH. cbn. do 2 f_equal.
    rewrite <-(bz_bu c) at 3. f_equal. pose proof (Z.div_mod (bu c) 16). lia.
Qed.

(** *** Numbers *)

Lemma digits_ge s n z : 0 <= n -> fold_left digit_step s (Some n) = Some z -> n <= z.
Proof.
  revert n. induction s as [|c s IH]; intros n Hn; [cbn; intros [= ->]; lia|]. cbn. unfold is_digit. destruct ((48 <=? bu c) && (bu c <=? 57)) eqn:E.
  - apply andb_true_iff in E as [E1 E2]. b2p. intros Hz%IH; lia.
  - clear IH. induction s as [|x s IH]; [done|]. exact IH.
Qed.

Lemma parse_base_digits bits s n u z : 0 <= n -> z < 2 ^ bits -> fold_left digit_step s (Some n) = Some z -> parse_base 10 bits s n u = Some (z, u).
Proof.
  intros Hn Hz. revert n Hn. induction s as [|c s IH]; intros n Hn; [by intros [= ->]|]. cbn [fold_left digit_step parse_base]. unfold digit_of.
  destruct (is_digit c) eqn:Ec.
  - intros Hf. pose proof Ec as Ed. unfold is_digit in Ed. apply andb_true_iff in Ed as [E1 E2]. b2p.
    rewrite (proj2 (Z.eqb_neq (bu c) 95)) by lia. rewrite (proj2 (Z.leb_gt 10 _)) by lia.
    pose proof (digits_ge s (10 * n + (bu c - 48)) z ltac:(lia) Hf) as Hge. replace (n * 10 + (bu c - 48)) with (10 * n + (bu c - 48)) by lia.
    rewrite (proj2 (Z.leb_gt (2 ^ bits) _)) by lia. apply IH; [lia|done].
  - intros Hf. exfalso. revert Hf. clear. induction s as [|x s IH]; [done|]. exact IH.
Qed.

Lemma dec_digits_head fuel z acc : 0 < z < 10 ^ Z.of_nat fuel -> exists d l, dec_digits fuel z acc = d :: l /\ bu d <> 48 /\ is_digit d = true.
Proof.
  revert z acc. induction fuel as [|f IH]; intros z acc Hz; [cbn in Hz; lia|]. cbn [dec_digits]. destruct (z <? 10) eqn:E; b2p.
  - destruct (digit_ok z ltac:(lia)) as [H1 H2]. exists (digit z), acc. split; [done|]. split; [lia|done].
  - apply IH. replace (Z.of_nat (S f)) with (1 + Z.of_nat f) in Hz by lia. rewrite Z.pow_add_r, Z.pow_1_r in Hz by lia.
    split; [apply Z.div_str_pos; lia|apply Z.div_lt_upper_bound; lia].
Qed.

Lemma ParseUint0_digits bits z : 0 <= z < 2 ^ bits -> bits <= 64 -> ParseUint0 bits (dec_digits 20 z []) = Some z.
Proof.
  intros Hz Hb. assert (Hbig : 2 ^ bits < 10 ^ Z.of_nat 20).
  { apply (Z.le_lt_trans _ (2 ^ 64)); [|done]. apply Z.pow_le_mono_r; lia. }
  destruct (decide (z = 0)) as [->|Hne]; [by vm_compute|].
  destruct (dec_digits_spec 20 z []) as [Hf _]; [lia|done|]. destruct (dec_digits_head 20 z []) as (d & l & Hd & Hnz & Hdig); [lia|].
  rewrite Hd in *. unfold ParseUint0, base0. rewrite (proj2 (Z.eqb_neq (bu d) 48)) by done. cbn [negb].
  cbn [fold_left] in Hf. rewrite (parse_base_digits bits (d :: l) 0 false z) by (done || lia). done.
Qed.

Lemma ParseUint0_FormatInt bits z : 0 <= z < 2 ^ bits -> bits <= 64 -> ParseUint0 bits (FormatInt z) = Some z.
Proof. intros Hz Hb. unfold FormatInt. rewrite (proj2 (Z.ltb_ge z 0)) by lia. by apply ParseUint0_digits. Qed.

Lemma ParseInt0_FormatInt z : - 2 ^ 63 <= z < 2 ^ 63 -> ParseInt0 (FormatInt z) = Some z.
Proof.
  intros Hz. unfold FormatInt. destruct (z <? 0) eqn:E; b2p.
  - cbn [app bs]. change (bs "-") with [bz 45]. cbn [app]. unfold ParseInt0. change (bu (bz 45) =? 45) with true. cbn [orb].
    rewrite ParseUint0_digits by lia. cbn. rewrite (proj2 (Z.ltb_ge (2 ^ 63) _)) by lia. f_equal. lia.
  - unfold ParseInt0. pose proof (ParseUint0_digits 64 z ltac:(lia) ltac:(lia)) as Hp. destruct (decide (z = 0)) as [->|Hne]; [by vm_compute|].
    destruct (dec_digits_head 20 z []) as (d & l & Hd & _ & Hdig); [change (10 ^ Z.of_nat 20) with 100000000000000000000; lia|].
    rewrite Hd in *. unfold is_digit in Hdig. apply andb_true_iff in Hdig as [E1 E2]. b2p.
    rewrite (proj2 (Z.eqb_neq (bu d) 45)), (proj2 (Z.eqb_neq (bu d) 43)) by lia. cbn [orb]. rewrite Hp. cbn. by rewrite (proj2 (Z.leb_gt (2 ^ 63) _)) by lia.
Qed.

(** *** Modes *)

(** What POSIX has: permissions, setuid, setgid, sticky and one type. *)
Definition goTypes : list Z := [0; ModeDir; ModeSymlink; Z.lor ModeDevice ModeCharDevice; ModeDevice; ModeNamedPipe; ModeSocket].
Definition goTypeMask : Z := Z.lor ModeDir (Z.lor ModeSymlink (Z.lor ModeDevice (Z.lor ModeCharDevice (Z.lor ModeNamedPipe ModeSocket)))).
Definition goOther : Z := Z.ldiff (2 ^ 32 - 1) (Z.lor ModePerm (Z.lor ModeSetuid (Z.lor ModeSetgid (Z.lor ModeSticky goTypeMask)))).
Definition representable (m : Z) : Prop := 0 <= m < 2 ^ 32 /\ Z.land m goOther = 0 /\ Z.land m goTypeMask ∈ goTypes.

(** A mode from its fields. *)
Definition flag (b : bool) (x : Z) : Z := if b then x else 0.
Definition go_mode (p : Z) (u g s : bool) (t : Z) : Z := Z.lor p (Z.lor (flag u ModeSetuid) (Z.lor (flag g ModeSetgid) (Z.lor (flag s ModeSticky) t))).

Lemma land_flag m n : 0 <= n -> Z.land m (2 ^ n) = flag (Z.testbit m n) (2 ^ n).
Proof.
  intros Hn. apply Z.bits_inj'. intros i Hi. rewrite Z.land_spec, Z.pow2_bits_eqb by done. unfold flag.
  destruct (n =? i) eqn:E; b2p; [subst; destruct (Z.testbit m i) eqn:Em; [by rewrite Z.pow2_bits_eqb, Z.eqb_refl by done|by rewrite Z.bits_0]|].
  rewrite andb_false_r. destruct (Z.testbit m n); [|by rewrite Z.bits_0]. rewrite Z.pow2_bits_eqb by done. by rewrite (proj2 (Z.eqb_neq n i)).
Qed.

Lemma go_mode_fields m : representable m -> exists p u g s t, 0 <= p < 512 /\ t ∈ goTypes /\ m = go_mode p u g s t.
Proof.
  intros (Hr & Ho & Ht). exists (Z.land m 511), (Z.testbit m 23), (Z.testbit m 22), (Z.testbit m 20), (Z.land m goTypeMask).
  split; [change 511 with (Z.ones 9); rewrite Z.land_ones by done; apply Z.mod_pos_bound; done|]. split; [done|].
  unfold go_mode, ModeSetuid, ModeSetgid, ModeSticky. rewrite <-!land_flag by done.
  transitivity (Z.lor (Z.land m goOther) (Z.lor (Z.land m 511) (Z.lor (Z.land m (2 ^ 23)) (Z.lor (Z.land m (2 ^ 22)) (Z.lor (Z.land m (2 ^ 20)) (Z.land m goTypeMask)))))); [|by rewrite Ho].
  rewrite <-!Z.land_lor_distr_r. change (Z.lor goOther _) with (Z.ones 32). rewrite Z.land_ones by done. by rewrite Z.mod_small.
Qed.

Definition bools : list bool := [false; true].
Definition all_modes (f : Z -> bool -> bool -> bool -> Z -> bool) : bool :=
  forallb (fun p => forallb (fun u => forallb (fun g => forallb (fun s => forallb (f (Z.of_nat p) u g s) goTypes) bools) bools) bools) (seq 0 512).
Lemma all_modes_spec f p u g s t : all_modes f = true -> 0 <= p < 512 -> t ∈ goTypes -> f p u g s t = true.
Proof.
  intros Ha Hp Ht. unfold all_modes in Ha. rewrite forallb_forall in Ha. specialize (Ha (Z.to_nat p) ltac:(apply in_seq; lia)). rewrite Z2Nat.id in Ha by lia.
  assert (Hb : forall b : bool, In b bools) by (intros []; cbn; auto).
  rewrite forallb_forall in Ha. specialize (Ha u (Hb u)). rewrite forallb_forall in Ha. specialize (Ha g (Hb g)).
  rewrite forallb_forall in Ha. specialize (Ha s (Hb s)). rewrite forallb_forall in Ha. apply Ha. by apply list_elem_of_In.
Qed.

Lemma posix_go p u g s t : 0 <= p < 512 -> t ∈ goTypes -> GoFileMode (PosixMode (go_mode p u g s t)) = go_mode p u g s t.
Proof.
  intros Hp Ht. apply Z.eqb_eq. apply (all_modes_spec (fun p u g s t => GoFileMode (PosixMode (go_mode p u g s t)) =? go_mode p u g s t)); [|done..]. by vm_compute.
Qed.

(** Any mode of the header is read as one that can be written. *)
Lemma go_mode_representable p u g s t : 0 <= p < 512 -> t ∈ goTypes -> representable (go_mode p u g s t).
Proof.
  intros Hp Ht. assert (Hc : forall m, (0 <=? m) && (m <? 2 ^ 32) && (Z.land m goOther =? 0) && existsb (Z.eqb (Z.land m goTypeMask)) goTypes = true -> representable m).
  { intros m. rewrite !andb_true_iff, existsb_exists. intros [[[H1 H2] H3] (x & Hx & H4)]. b2p. split; [done|]. split; [done|]. rewrite H4. by apply list_elem_of_In. }
  apply Hc. apply (all_modes_spec (fun p u g s t => let m := go_mode p u g s t in (0 <=? m) && (m <? 2 ^ 32) && (Z.land m goOther =? 0) && existsb (Z.eqb (Z.land m goTypeMask)) goTypes)); [|done..].
  by vm_compute.
Qed.

Lemma GoFileMode_representable q : representable (GoFileMode q).
Proof.
  assert (Hp : 0 <= Z.land q 511 < 512) by (change 511 with (Z.ones 9); rewrite Z.land_ones by done; apply Z.mod_pos_bound; done).
  assert (exists t, t ∈ goTypes /\ GoFileMode q = go_mode (Z.land q 511) (has q 2048) (has q 1024) (has q 512) t) as (t & Ht & ->); [|by apply go_mode_representable].
  unfold GoFileMode. set (t := Z.land q modeTypeMask). set (p := Z.land q 511).
  assert (Hsp : forall x, (let m := if has q 2048 then Z.lor p ModeSetuid else p in let m := if has q 1024 then Z.lor m ModeSetgid else m in
    let m := if has q 512 then Z.lor m ModeSticky else m in Z.lor m x) = go_mode p (has q 2048) (has q 1024) (has q 512) x).
  { intros x. unfold go_mode, flag. destruct (has q 2048), (has q 1024), (has q 512); cbn zeta; rewrite ?Z.lor_0_l, ?Z.lor_assoc; done. }
  cbn zeta in *.
  destruct (t =? modeDir); [exists ModeDir; split; [unfold goTypes; set_solver|apply Hsp]|].
  destruct (t =? modeSymlink); [exists ModeSymlink; split; [unfold goTypes; set_solver|apply Hsp]|].
  destruct (t =? modeChar); [exists (Z.lor ModeDevice ModeCharDevice); split; [unfold goTypes; set_solver|apply Hsp]|].
  destruct (t =? modeBlock); [exists ModeDevice; split; [unfold goTypes; set_solver|apply Hsp]|].
  destruct (t =? modeFIFO); [exists ModeNamedPipe; split; [unfold goTypes; set_solver|apply Hsp]|].
  destruct (t =? modeSocket); [exists ModeSocket; split; [unfold goTypes; set_solver|apply Hsp]|].
  exists 0. split; [by left|]. rewrite <-Hsp. by rewrite Z.lor_0_r.
Qed.

Lemma GoFileMode_PosixMode m : GoFileMode (PosixMode m) = m <-> representable m.
Proof. split; [intros <-; apply GoFileMode_representable|]. intros (p & u & g & s & t & Hp & Ht & ->)%go_mode_fields. by apply posix_go. Qed.

Lemma PosixMode_range m : representable m -> 0 <= PosixMode m < 2 ^ 32.
Proof.
  intros (p & u & g & s & t & Hp & Ht & ->)%go_mode_fields.
  assert (Hc : (0 <=? PosixMode (go_mode p u g s t)) && (PosixMode (go_mode p u g s t) <? 2 ^ 32) = true).
  { apply (all_modes_spec (fun p u g s t => (0 <=? PosixMode (go_mode p u g s t)) && (PosixMode (go_mode p u g s t) <? 2 ^ 32))); [|done..]. by vm_compute. }
  apply andb_true_iff in Hc as [H1 H2]. b2p. lia.
Qed.

(** *** Attributes *)

(** Look a header up in what was written. *)
Ltac header := repeat first
  [ rewrite lookup_insert_eq | rewrite lookup_singleton_eq
  | rewrite lookup_insert_ne by (vm_compute; congruence) | rewrite lookup_singleton_ne by (vm_compute; congruence) ].

Lemma Encode_lookup a :
  Encode a !! keyUID = Some (FormatInt (UID a)) /\ Encode a !! keyGID = Some (FormatInt (GID a)) /\ Encode a !! keyMode = Some (FormatInt (PosixMode (Mode a))) /\
  Encode a !! keyMtime = Some (FormatInt (unix (Mtime a))) /\
  Encode a !! keyRdev = (if has (Mode a) (Z.lor ModeDevice ModeCharDevice) then Some (FormatInt (Rdev a)) else None) /\
  Encode a !! keySymlinkTarget = match SymlinkTarget a with [] => None | t => Some (QueryEscape t) end.
Proof. unfold Encode. destruct (SymlinkTarget a), (has _ _); repeat split; header; reflexivity. Qed.

(** C36: A mode survives storing exactly when POSIX can express it (permissions,
    setuid, setgid and sticky with at most one type; a character device counts as
    one), and what [Encode] wrote of valid attributes [Decode] reads back: owner,
    mode, the time to the second, the device number of a device and the target of
    a link, for which anything else keeps the default. *)
Theorem attributes_roundtrip a d (Hu : 0 <= UID a < 2 ^ 32) (Hg : 0 <= GID a < 2 ^ 32) (Hr : 0 <= Rdev a < 2 ^ 32) (Ht : - 2 ^ 63 <= unix (Mtime a) < 2 ^ 63) :
  (forall m, GoFileMode (PosixMode m) = m <-> representable m) /\
  (representable (Mode a) -> Decode (Encode a) d =
   {| UID := UID a; GID := GID a; Mode := Mode a;
      Rdev := if has (Mode a) (Z.lor ModeDevice ModeCharDevice) then Rdev a else Rdev d;
      Mtime := unix (Mtime a) * 10 ^ 9;
      SymlinkTarget := match SymlinkTarget a with [] => SymlinkTarget d | t => t end |}).
Proof.
  split; [apply GoFileMode_PosixMode|]. intros Hmode. destruct (Encode_lookup a) as (E1 & E2 & E3 & E4 & E5 & E6).
  unfold Decode, field. rewrite E1, E2, E3, E4, E5, E6. cbn [mbind option_bind]. pose proof (PosixMode_range _ Hmode) as Hp. apply GoFileMode_PosixMode in Hmode.
  rewrite !ParseUint0_FormatInt, ParseInt0_FormatInt by (done || lia). cbn [fmap option_fmap option_map default from_option]. rewrite Hmode. f_equal.
  - destruct (has _ _); cbn; [by rewrite ParseUint0_FormatInt|done].
  - destruct (SymlinkTarget a) as [|c t]; [done|]. cbn [mbind option_bind]. by rewrite QueryUnescape_escape.
Qed.

Lemma attributes_roundtrip_witness :
  let a := {| UID := 0; GID := 5; Mode := Z.lor (Z.lor ModeDevice ModeCharDevice) 400; Rdev := 1280; Mtime := 1716700000123456789; SymlinkTarget := bs "/etc/has spaces/and%percent" |} in
  let d := {| UID := 501; GID := 20; Mode := 420; Rdev := 7; Mtime := 42; SymlinkTarget := [] |} in
  Decode (Encode a) d = {| UID := 0; GID := 5; Mode := Mode a; Rdev := 1280; Mtime := 1716700000000000000; SymlinkTarget := SymlinkTarget a |}.
Proof.
  intros a d. refine (proj2 (attributes_roundtrip a d _ _ _ _) _); [split; [discriminate|reflexivity]..|].
  split; [split; [discriminate|reflexivity]|]. split; [reflexivity|]. right. right. right. left.
Defined.

(** The base is free when reading: a leading zero means octal. *)
Lemma zero_means_octal : UID (Decode {[ keyUID := bs "0755" ]} {| UID := 0; GID := 0; Mode := 0; Rdev := 0; Mtime := 0; SymlinkTarget := [] |}) = 493.
Proof. by vm_compute. Qed.
