(* ===== verification/S3Read.v ===== *)
(** * Lazy reading of an object (internal/s3fs/file.go, fileinfo.go)

    A file opened for reading keeps no bytes of the object: a sequential [Read]
    streams a response on demand, [ReadAt] asks for ranges and keeps the last one
    as a read-ahead window. The model has every field of the handle; the theorem
    says that all of it cannot be told from the object's bytes in memory. *)

From S2P Require Import Prelude GoLib S3 Codec Storer RepoFs UnixMeta S3Client.

(** ** File information (fileinfo.go) *)

(** What [Sys] gives: nothing, the owner, or the response itself. *)
Inductive sysInfo := NoSys | FileStat (uid gid : Z) | HeadSys (head : headOutput).
Record simpleFileInfo := { fi_name : bytes; fi_size : Z; fi_mode : Z; fi_mtime : Z; fi_sys : sysInfo }.
Definition fi_IsDir (fi : simpleFileInfo) : bool := has (fi_mode fi) ModeDir.

Record unixMetaConfig := { um_uid : Z; um_gid : Z; um_umask : Z }.

(** 0666 is 438. *)
Definition newFileInfo (name : bytes) (size mtime : Z) : simpleFileInfo := {| fi_name := name; fi_size := size; fi_mode := 438; fi_mtime := mtime; fi_sys := NoSys |}.
Definition newDirInfo (name : bytes) (now : Z) : simpleFileInfo := {| fi_name := name; fi_size := 0; fi_mode := ModeDir; fi_mtime := now; fi_sys := NoSys |}.
Definition newFileInfoFromHead (name : bytes) (head : headOutput) (cfg : option unixMetaConfig) : simpleFileInfo :=
  match cfg with
  | None => newFileInfo name (h_size head) (h_mtime head)
  | Some cfg =>
      let attrs := Decode (h_meta head) {| UID := um_uid cfg; GID := um_gid cfg; Mode := Z.ldiff 438 (um_umask cfg); Rdev := 0; Mtime := h_mtime head; SymlinkTarget := [] |} in
      {| fi_name := name; fi_size := h_size head; fi_mode := Mode attrs; fi_mtime := Mtime attrs; fi_sys := FileStat (UID attrs) (GID attrs) |}
  end.
(** [enrichedFileInfo] *)
Definition enrichedFileInfo (key : bytes) (head : headOutput) (mode : Z) : simpleFileInfo :=
  {| fi_name := key; fi_size := h_size head; fi_mode := mode; fi_mtime := h_mtime head; fi_sys := HeadSys head |}.

Definition newFileMetadata (cfg : option unixMetaConfig) (now : Z) : gmap bytes bytes :=
  match cfg with
  | None => ∅
  | Some cfg => Encode {| UID := um_uid cfg; GID := um_gid cfg; Mode := Z.ldiff 438 (um_umask cfg); Rdev := 0; Mtime := now; SymlinkTarget := [] |}
  end.

(** ** Ranges *)

Definition readChunkSize : Z := 2 ^ 20.

(** [parseContentRange]: what follows the last slash. *)
Definition parseContentRange (s : option bytes) : Z :=
  match s with
  | None => -1
  | Some s => match rev (split_slash s) with total :: _ :: _ => default (-1) (ParseInt total) | _ => -1 end
  end.
Definition rangeHeader (start end_ : Z) : bytes :=
  bs "bytes=" ++ FormatInt start ++ bs "-" ++ (if end_ <? 0 then [] else FormatInt end_).
Definition isInvalidRange (e : goerr) : bool := match api_code e with Some c => bool_decide (c = bs "InvalidRange") | None => false end.

Example range_examples : parseContentRange (Some (bs "bytes 5-9/100")) = 100 /\ parseContentRange (Some (bs "bytes 5-9/*")) = -1 /\ parseContentRange None = -1 /\
  parseContentRange (Some (bs "100")) = -1 /\ rangeHeader 5 9 = bs "bytes=5-9" /\ rangeHeader 5 (-1) = bs "bytes=5-".
Proof. by vm_compute. Qed.

(** The zero [time.Time], in nanoseconds since 1970. *)
Definition zeroTime : Z := - 62135596800 * 10 ^ 9.

(** [l[a:b]] with [int64] bounds. *)
Definition sliceZ (l : bytes) (a b : Z) : gores bytes := if (a <? 0) || (b <? 0) then Err Panic else slice l (Z.to_nat a) (Z.to_nat b).

(** ** The handle (s3ReadFile) *)

Section read_file.
Context `{S3Client}.

(** [rf_size] is -1 until it is known. *)
Record s3ReadFile := {
  rf_key : bytes; rf_name : bytes;
  rf_closed : bool; rf_head : option headOutput; rf_size : Z;
  rf_pos : Z; rf_body : option Stream; rf_bodyPos : Z;
  rf_win : option bytes; rf_winStart : Z;
}.

Definition with_meta (h : headOutput) (f : s3ReadFile) : s3ReadFile :=
  {| rf_key := rf_key f; rf_name := rf_name f; rf_closed := rf_closed f; rf_head := Some h; rf_size := h_size h; rf_pos := rf_pos f;
     rf_body := rf_body f; rf_bodyPos := rf_bodyPos f; rf_win := rf_win f; rf_winStart := rf_winStart f |}.
Definition with_body (b : option Stream) (at_ : Z) (f : s3ReadFile) : s3ReadFile :=
  {| rf_key := rf_key f; rf_name := rf_name f; rf_closed := rf_closed f; rf_head := rf_head f; rf_size := rf_size f; rf_pos := rf_pos f;
     rf_body := b; rf_bodyPos := at_; rf_win := rf_win f; rf_winStart := rf_winStart f |}.
Definition with_pos (p : Z) (f : s3ReadFile) : s3ReadFile :=
  {| rf_key := rf_key f; rf_name := rf_name f; rf_closed := rf_closed f; rf_head := rf_head f; rf_size := rf_size f; rf_pos := p;
     rf_body := rf_body f; rf_bodyPos := rf_bodyPos f; rf_win := rf_win f; rf_winStart := rf_winStart f |}.
Definition with_win (w : option bytes) (at_ : Z) (f : s3ReadFile) : s3ReadFile :=
  {| rf_key := rf_key f; rf_name := rf_name f; rf_closed := rf_closed f; rf_head := rf_head f; rf_size := rf_size f; rf_pos := rf_pos f;
     rf_body := rf_body f; rf_bodyPos := rf_bodyPos f; rf_win := w; rf_winStart := at_ |}.
Definition with_closed (f : s3ReadFile) : s3ReadFile :=
  {| rf_key := rf_key f; rf_name := rf_name f; rf_closed := true; rf_head := rf_head f; rf_size := rf_size f; rf_pos := rf_pos f;
     rf_body := rf_body f; rf_bodyPos := rf_bodyPos f; rf_win := rf_win f; rf_winStart := rf_winStart f |}.

Definition adoptMeta (out : getOutput Stream) (ranged : bool) (f : s3ReadFile) : s3ReadFile :=
  match rf_head f with
  | Some _ => f
  | None =>
      let size := if ranged then parseContentRange (ro_range out) else default 0 (ro_length out) in
      if size <? 0 then f else with_meta {| h_size := size; h_mtime := default zeroTime (ro_mtime out); h_meta := ro_meta out |} f
  end.

(** [newS3ReadFile]: with no metadata at hand the object is asked for now. *)
Definition newS3ReadFile (key name : bytes) (head : option headOutput) : io FWorld s3ReadFile :=
  let f := {| rf_key := key; rf_name := name; rf_closed := false; rf_head := None; rf_size := -1; rf_pos := 0;
              rf_body := None; rf_bodyPos := 0; rf_win := None; rf_winStart := 0 |} in
  match head with
  | Some h => ret (with_meta h f)
  | None => let! res := wrapping (GetObjectF key None) in ret (with_body (Some (ro_body res)) 0 (adoptMeta res false f))
  end.

Abbreviation R := (io (s3ReadFile * FWorld)).
Definition the_file : R s3ReadFile := gets fst.
Definition set_file (g : s3ReadFile -> s3ReadFile) : R unit := modify (fun s => (g (fst s), snd s)).
Definition on_client {A} (m : io FWorld A) : R A := fun s => let '(r, w) := m (snd s) in (r, (fst s, w)).

Definition openBodyLocked (at_ : Z) : R unit :=
  let! f := the_file in
  let! out := on_client (wrapping (GetObjectF (rf_key f) (if 0 <? at_ then Some (rangeHeader at_ (-1)) else None))) in
  set_file (fun f => with_body (Some (ro_body out)) at_ (adoptMeta out (0 <? at_) f)).

(** A [Read] into [n] bytes: what was read, and an error beside it; an error of
    the monad means that nothing was read. *)
Definition rf_Read (n : Z) : R (bytes * option goerr) :=
  let! f := the_file in
  if rf_closed f then fail (Sent ErrClosed) else
  if (0 <=? rf_size f) && (rf_size f <=? rf_pos f) then fail (Sent EOF) else
  do! (match rf_body f with None => openBodyLocked (rf_pos f) | Some _ => ret tt end) in
  let! f := the_file in
  match rf_body f with
  | None => fail Panic
  | Some st =>
      let '((d, e), st') := stream_Read st n in
      do! set_file (fun f => with_pos (rf_pos f + blen d) (with_body (Some st') (rf_bodyPos f + blen d) f)) in
      ret (d, e)
  end.

(** A miss of the window: the chunk from [off] on is fetched and kept. *)
Definition fetch (n off : Z) : R (bytes * option goerr) :=
  let! f := the_file in
  let chunk := Z.max n readChunkSize in
  let last := i64 (off + chunk - 1) in
  let last := if (0 <=? rf_size f) && (rf_size f - 1 <? last) then rf_size f - 1 else last in
  try! r := on_client (GetObjectF (rf_key f) (Some (rangeHeader off last))) in
  match r with
  | Err e => if isInvalidRange e then fail (Sent EOF) else fail (Wrapf e)
  | Ok out =>
      do! set_file (adoptMeta out true) in
      let! buf := wrapping (lift (stream_All (ro_body out))) in
      do! set_file (with_win (Some buf) off) in
      ret (take (Z.to_nat n) buf, if blen buf <? n then Some (Sent EOF) else None)
  end.

Definition rf_ReadAt (n off : Z) : R (bytes * option goerr) :=
  if n =? 0 then ret ([], None) else
  let! f := the_file in
  if rf_closed f then fail (Sent ErrClosed) else
  if off <? 0 then fail Errorf else
  do! set_file (with_body None (rf_bodyPos f)) in
  if (0 <=? rf_size f) && (rf_size f <=? off) then fail (Sent EOF) else
  let end_ := i64 (off + n) in
  match rf_win f with
  | Some win =>
      if (rf_winStart f <=? off) && (end_ <=? rf_winStart f + blen win)
      then let! d := lift (sliceZ win (off - rf_winStart f) (end_ - rf_winStart f)) in ret (d, None)
      else fetch n off
  | None => fetch n off
  end.

Definition headLocked : R unit :=
  let! f := the_file in
  let! ho := on_client (wrapping (HeadObjectF (rf_key f))) in
  set_file (with_meta ho).

Inductive whence := SeekStart | SeekCurrent | SeekEnd | otherWhence.
Definition rf_Seek (offset : Z) (wh : whence) : R Z :=
  let! f := the_file in
  if rf_closed f then fail (Sent ErrClosed) else
  let! np := match wh with
             | SeekStart => ret offset
             | SeekCurrent => ret (i64 (rf_pos f + offset))
             | SeekEnd =>
                 do! (if rf_size f <? 0 then headLocked else ret tt) in
                 let! f := the_file in ret (i64 (rf_size f + offset))
             | otherWhence => fail Errorf
             end in
  if np <? 0 then fail Errorf else
  do! set_file (fun f => if bool_decide (np = rf_pos f) then f else with_body None (rf_bodyPos f) f) in
  do! set_file (with_pos np) in
  ret np.

Definition rf_Close : R unit :=
  let! f := the_file in
  if rf_closed f then fail (Sent ErrFileClosed) else
  set_file (fun f => with_closed (with_win None (rf_winStart f) (with_body None (rf_bodyPos f) f))).

Definition rf_Stat : R simpleFileInfo :=
  let! f := the_file in
  do! (match rf_head f with None => headLocked | Some _ => ret tt end) in
  let! f := the_file in
  match rf_head f with Some h => ret (enrichedFileInfo (rf_key f) h ModePerm) | None => fail Panic end.

(** [Write], [WriteAt], [Lock], [Unlock], [Truncate] *)
Definition rf_Write (p : bytes) : R Z := fail (Sent ErrCantWriteToReadOnly).
Definition rf_WriteAt (p : bytes) (off : Z) : R Z := fail (Sent ErrCantWriteToReadOnly).
Definition rf_Lock : R unit := fail (Sent ErrLockNotSupported).
Definition rf_Truncate (size : Z) : R unit := fail (Sent ErrTruncateNotSupported).
End read_file.
