(* ===== verification/S3ReadSpec.v ===== *)
(** * A lazily read file is its bytes (internal/s3fs/file.go)

    What a file opened for reading promises: as long as the object stays as it
    is, every answer of the handle is the answer of a file whose bytes are in
    memory, or an error that the bucket gave. *)

From S2P Require Import Prelude GoLib S3 Codec Storer RepoFs UnixMeta S3Client S3Read.

(** ** The bucket *)

(** What the bucket holds, and which bytes a response streams. *)
Class ObjectLaws `{S3Client} (object : FWorld -> bytes -> option bytes) (serves : Stream -> bytes -> Prop) := {
  serves_Read st l n d e st' : serves st l -> stream_Read st n = ((d, e), st') ->
    exists rest, l = d ++ rest /\ serves st' rest /\ (0 <= n -> blen d <= n) /\ (e = Some (Sent EOF) -> rest = []);
  serves_All st l d : serves st l -> stream_All st = Ok d -> d = l;
  Get_quiet k rng w r w' : GetObjectF k rng w = (r, w') -> object w' = object w;
  Get_whole k w out w' : GetObjectF k None w = (Ok out, w') ->
    exists b, object w k = Some b /\ serves (ro_body out) b /\ ro_length out = Some (blen b);
  Get_range k from to w out w' : 0 <= from < 2 ^ 63 -> to < 0 \/ from <= to < 2 ^ 63 -> GetObjectF k (Some (rangeHeader from to)) w = (Ok out, w') ->
    exists b, object w k = Some b /\ from < blen b /\
      serves (ro_body out) (if to <? 0 then drop (Z.to_nat from) b else take (Z.to_nat (to - from + 1)) (drop (Z.to_nat from) b)) /\
      (parseContentRange (ro_range out) < 0 \/ parseContentRange (ro_range out) = blen b);
  Get_invalid k from to w e w' b : 0 <= from < 2 ^ 63 -> to < 0 \/ from <= to < 2 ^ 63 -> GetObjectF k (Some (rangeHeader from to)) w = (Err e, w') -> isInvalidRange e = true ->
    object w k = Some b -> blen b <= from;
}.

Section memory.
Context `{S3Client}.

(** An error of a request or of a response's body. *)
Definition bucket_error (e : goerr) : Prop :=
  (exists k rng w w', GetObjectF k rng w = (Err e, w')) \/ exists st : Stream, stream_All st = Err e.

(** ** The file in memory *)

Inductive rop := ORead (n : Z) | OReadAt (n off : Z) | OSeek (offset : Z) (wh : whence) | OClose | OStat.
Inductive answer := AData (r : gores (bytes * option goerr)) | APos (r : gores Z) | ADone (r : gores unit) | AInfo (r : gores simpleFileInfo).

(** The cursor, and whether the file is closed. *)
Record mem := { m_pos : Z; m_closed : bool }.

(** A [Read] may be short, as any reader's; at the end of the file it says so. *)
Definition read_ok (b : bytes) (m : mem) (n : Z) (r : gores (bytes * option goerr)) (m' : mem) : Prop :=
  if m_closed m then r = Err (Sent ErrClosed) /\ m' = m
  else if blen b <=? m_pos m then r = Err (Sent EOF) /\ m' = m
  else match r with
       | Ok (d, e) => (exists rest, drop (Z.to_nat (m_pos m)) b = d ++ rest /\ (e = Some (Sent EOF) -> rest = [])) /\ blen d <= n /\
                      m' = {| m_pos := m_pos m + blen d; m_closed := false |}
       | Err e => (exists e', e = Wrapf e' /\ bucket_error e') /\ m' = m
       end.

(** [ReadAt] is exact: all of the bytes asked for that there are. *)
Definition readAt_ok (b : bytes) (m : mem) (n off : Z) (r : gores (bytes * option goerr)) (m' : mem) : Prop :=
  m' = m /\
  if n =? 0 then r = Ok ([], None)
  else if m_closed m then r = Err (Sent ErrClosed)
  else if off <? 0 then r = Err Errorf
  else if blen b <=? off then r = Err (Sent EOF)
  else r = Ok (take (Z.to_nat n) (drop (Z.to_nat off) b), if blen b <? off + n then Some (Sent EOF) else None) \/ exists e, r = Err (Wrapf e) /\ bucket_error e.

Definition seek_ok (b : bytes) (m : mem) (offset : Z) (wh : whence) (r : gores Z) (m' : mem) : Prop :=
  if m_closed m then r = Err (Sent ErrClosed) /\ m' = m else
  match (match wh with SeekStart => Some offset | SeekCurrent => Some (i64 (m_pos m + offset)) | SeekEnd => Some (i64 (blen b + offset)) | otherWhence => None end) with
  | None => r = Err Errorf /\ m' = m
  | Some np => if np <? 0 then r = Err Errorf /\ m' = m else r = Ok np /\ m' = {| m_pos := np; m_closed := false |}
  end.

Definition answers (key : bytes) (b : bytes) (m : mem) (op : rop) (a : answer) (m' : mem) : Prop :=
  match op, a with
  | ORead n, AData r => read_ok b m n r m'
  | OReadAt n off, AData r => readAt_ok b m n off r m'
  | OSeek offset wh, APos r => seek_ok b m offset wh r m'
  | OClose, ADone r => if m_closed m then r = Err (Sent ErrFileClosed) /\ m' = m else r = Ok tt /\ m' = {| m_pos := m_pos m; m_closed := true |}
  | OStat, AInfo r => m' = m /\ exists fi, r = Ok fi /\ fi_name fi = key /\ fi_size fi = blen b /\ fi_IsDir fi = false
  | _, _ => False
  end.

(** A series of calls. *)
Inductive behaves (key b : bytes) : mem -> list (rop * answer) -> Prop :=
  | behaves_end m : behaves key b m []
  | behaves_call m op a m' l : answers key b m op a m' -> behaves key b m' l -> behaves key b m ((op, a) :: l).

(** ** The calls of a handle *)

Definition run_op (op : rop) (s : s3ReadFile * FWorld) : answer * (s3ReadFile * FWorld) :=
  match op with
  | ORead n => let '(r, s') := rf_Read n s in (AData r, s')
  | OReadAt n off => let '(r, s') := rf_ReadAt n off s in (AData r, s')
  | OSeek offset wh => let '(r, s') := rf_Seek offset wh s in (APos r, s')
  | OClose => let '(r, s') := rf_Close s in (ADone r, s')
  | OStat => let '(r, s') := rf_Stat s in (AInfo r, s')
  end.
Fixpoint run_ops (ops : list rop) (s : s3ReadFile * FWorld) : list (rop * answer) :=
  match ops with
  | [] => []
  | op :: ops' => let '(a, s') := run_op op s in (op, a) :: run_ops ops' s'
  end.

(** Arguments that a slice's length and an [int64] can have. *)
Definition sensible (op : rop) : Prop :=
  match op with
  | ORead n => 0 <= n < 2 ^ 62
  | OReadAt n off => 0 <= n < 2 ^ 62 /\ off < 2 ^ 63
  | OSeek offset _ => - 2 ^ 63 <= offset < 2 ^ 63
  | _ => True
  end.
End memory.

(** ** The handle keeps to the bytes *)

Section lazy.
Context `{S3Client} (object : FWorld -> bytes -> option bytes) (serves : Stream -> bytes -> Prop).
Context `{!ObjectLaws object serves} (key b : bytes) (Hb : blen b < 2 ^ 62).

Record lazily (m : mem) (s : s3ReadFile * FWorld) : Prop := {
  lz_object : object (snd s) key = Some b;
  lz_key : rf_key (fst s) = key;
  lz_closed : rf_closed (fst s) = m_closed m;
  lz_pos : rf_pos (fst s) = m_pos m;
  lz_range : 0 <= m_pos m;
  lz_size : rf_size (fst s) = blen b;
  lz_head : exists h, rf_head (fst s) = Some h /\ h_size h = blen b;
  lz_body st : rf_body (fst s) = Some st -> serves st (drop (Z.to_nat (m_pos m)) b);
  lz_win w : rf_win (fst s) = Some w -> 0 <= rf_winStart (fst s) /\ exists k, w = take k (drop (Z.to_nat (rf_winStart (fst s))) b);
}.

Lemma adoptMeta_known out ranged f h : rf_head f = Some h -> adoptMeta out ranged f = f.
Proof. intros Hh. unfold adoptMeta. by rewrite Hh. Qed.

Lemma blen_drop n (l : bytes) : blen (drop n l) = Z.max 0 (blen l - Z.of_nat n).
Proof. unfold blen. rewrite length_drop. lia. Qed.
Lemma blen_take n (l : bytes) : blen (take n l) = Z.min (Z.of_nat n) (blen l).
Proof. unfold blen. rewrite length_take. lia. Qed.

Lemma openBody_lazily m f w r f' w' : lazily m (f, w) -> m_pos m < blen b -> openBodyLocked (rf_pos f) (f, w) = (r, (f', w')) ->
  (r = Ok tt /\ lazily m (f', w') /\ is_Some (rf_body f')) \/ (exists e, r = Err (Wrapf e) /\ bucket_error e) /\ lazily m (f', w').
Proof.
  intros Hl Hp. unfold openBodyLocked, the_file, gets, io_bind at 1 2, on_client, wrapping. cbn [fst snd].
  destruct Hl as [L1 L2 L3 L4 L5 L6 [h [L7 L7']] L8 L9]. cbn [fst snd] in *.
  destruct (GetObjectF (rf_key f) _ w) as [[out|e] w1] eqn:Eg; intros [= <- <- <-]; pose proof (Get_quiet _ _ _ _ _ Eg) as Hq.
  - left. split; [done|]. rewrite (adoptMeta_known _ _ _ h) by done. split; [|by eexists]. split; cbn; try done; [by rewrite Hq|by eauto|].
    intros st [= <-]. rewrite L4, L2 in Eg. destruct (0 <? m_pos m) eqn:E0; b2p.
    + apply Get_range in Eg as (b' & Hb' & _ & Hs & _); [|lia..]. rewrite L1 in Hb'. injection Hb' as <-. exact Hs.
    + apply Get_whole in Eg as (b' & Hb' & Hs & _). rewrite L1 in Hb'. injection Hb' as <-. by replace (m_pos m) with 0 by lia.
  - right. split; [exists e; split; [done|]; left; by repeat eexists|]. split; cbn; try done; [by rewrite Hq|by eauto].
Qed.

Lemma read_lazily m s n r s' : lazily m s -> 0 <= n -> rf_Read n s = (r, s') -> exists m', read_ok b m n r m' /\ lazily m' s'.
Proof.
  destruct s as [f w]. intros Hl Hn. pose proof Hl as [L1 L2 L3 L4 L5 L6 [h [L7 L7']] L8 L9]. cbn [fst snd] in *.
  unfold rf_Read, the_file, gets, io_bind at 1. cbn [fst snd]. unfold read_ok. rewrite L3, L4, L6.
  destruct (m_closed m) eqn:Ec; [intros [= <- <-]; by exists m|].
  assert (Hbn : (0 <=? blen b) = true) by (unfold blen; apply Z.leb_le; lia). rewrite Hbn. cbn [andb].
  destruct (blen b <=? m_pos m) eqn:Ee; b2p; [intros [= <- <-]; by exists m|]. unfold io_bind at 1.
  destruct ((match rf_body f with Some _ => ret tt | None => openBodyLocked (m_pos m) end) (f, w)) as [o [f1 w1]] eqn:Eo.
  assert (Ho : (o = Ok tt /\ lazily m (f1, w1) /\ is_Some (rf_body f1)) \/ (exists e, o = Err (Wrapf e) /\ bucket_error e) /\ lazily m (f1, w1)).
  { destruct (rf_body f) as [st|] eqn:Eb; [injection Eo as <- <- <-; left; by rewrite Eb|]. rewrite <-L4 in Eo. by eapply openBody_lazily. }
  destruct Ho as [(-> & Hl1 & st & Hst)|[(e & -> & He) Hl1]]; [|intros [= <- <-]; exists m; split; [split; [by exists e|done]|done]].
  unfold io_bind at 1. cbn [fst]. rewrite Hst. destruct (stream_Read st n) as [[d e] st'] eqn:Er. cbn. intros [= <- <-].
  destruct Hl1 as [K1 K2 K3 K4 K5 K6 K7 K8 K9]. cbn [fst snd] in *. destruct (serves_Read _ _ _ _ _ _ (K8 _ Hst) Er) as (rest & Hd & Hs & Hlen & Heof).
  exists {| m_pos := m_pos m + blen d; m_closed := false |}. split; [split; [by exists rest|]; split; [by apply Hlen|done]|].
  assert (Hdn : 0 <= blen d) by (unfold blen; lia). split; cbn; try done; [by rewrite K3, Ec|by rewrite K4|lia|].
  intros st1 [= <-]. replace (drop (Z.to_nat (m_pos m + blen d)) b) with rest; [done|].
  rewrite Z2Nat.inj_add by lia. rewrite <-drop_drop, Hd. unfold blen. by rewrite Nat2Z.id, drop_app_length.
Qed.

Lemma lazily_body m f w at_ : lazily m (f, w) -> lazily m (with_body None at_ f, w).
Proof. intros [L1 L2 L3 L4 L5 L6 L7 L8 L9]. by split. Qed.

Lemma fetch_lazily m f w n off r s' : lazily m (f, w) -> 0 < n < 2 ^ 62 -> 0 <= off < blen b -> fetch n off (f, w) = (r, s') ->
  lazily m s' /\ (r = Ok (take (Z.to_nat n) (drop (Z.to_nat off) b), if blen b <? off + n then Some (Sent EOF) else None) \/
                  exists e, r = Err (Wrapf e) /\ bucket_error e).
Proof.
  intros Hl Hn Hoff. pose proof Hl as [L1 L2 L3 L4 L5 L6 [h [L7 L7']] L8 L9]. cbn [fst snd] in *.
  unfold fetch, the_file, gets, io_bind at 1. cbn [fst]. rewrite L6, L2. set (chunk := Z.max n readChunkSize).
  assert (Hch : n <= chunk < 2 ^ 62) by (unfold chunk, readChunkSize; lia).
  assert (Hlast : i64 (off + chunk - 1) = off + chunk - 1) by (unfold i64; rewrite Z.mod_small by lia; lia).
  rewrite Hlast. rewrite (proj2 (Z.leb_le 0 (blen b))) by lia. cbn [andb].
  set (last := if blen b - 1 <? off + chunk - 1 then blen b - 1 else off + chunk - 1).
  assert (Hl2 : last = Z.min (blen b - 1) (off + chunk - 1)) by (unfold last; destruct (_ <? _) eqn:E; b2p; lia).
  unfold io_bind at 1, attempt, on_client. cbn [fst snd]. destruct (GetObjectF key (Some (rangeHeader off last)) w) as [[out|e] w1] eqn:Eg;
    pose proof (Get_quiet _ _ _ _ _ Eg) as Hq.
  2:{ assert (Hl1 : lazily m (f, w1)) by (split; cbn; try done; [by rewrite Hq|by eauto]).
      destruct (isInvalidRange e) eqn:Ei; intros [= <- <-]; (split; [done|]); [|right; exists e; split; [done|left; by repeat eexists]].
      pose proof (Get_invalid key off last w e w1 b ltac:(lia) ltac:(lia) Eg Ei L1). lia. }
  apply Get_range in Eg as (b' & Hb' & _ & Hs & _); [|lia..]. rewrite L1 in Hb'. injection Hb' as <-. rewrite (proj2 (Z.ltb_ge last 0)) in Hs by lia.
  unfold io_bind at 1, set_file at 1, modify. cbn [fst snd]. rewrite (adoptMeta_known _ _ _ h) by done.
  unfold io_bind at 1, wrapping, lift. destruct (stream_All (ro_body out)) as [buf|e] eqn:Ea.
  2:{ intros [= <- <-]. split; [split; cbn; try done; [by rewrite Hq|by eauto]|]. right. exists e. split; [done|]. right. by eexists. }
  pose proof (serves_All _ _ _ Hs Ea) as ->. cbn. intros [= <- <-]. split.
  - split; cbn; try done; [by rewrite Hq|by eauto|]. intros wn [= <-]. split; [lia|]. by eexists.
  - left. set (l := drop (Z.to_nat off) b). assert (Hlen : blen l = blen b - off) by (unfold l; rewrite blen_drop; lia).
    assert (Ht : take (Z.to_nat n) (take (Z.to_nat (last - off + 1)) l) = take (Z.to_nat n) l).
    { destruct (decide (n <= last - off + 1)) as [Hle|Hle]; [rewrite take_take; f_equal; lia|]. unfold blen in *.
      rewrite (take_ge l (Z.to_nat (last - off + 1))) by lia. done. }
    rewrite Ht, blen_take, Hlen. f_equal. f_equal.
    destruct (Z.min _ _ <? n) eqn:E1, (blen b <? off + n) eqn:E2; b2p; done || lia.
Qed.

Lemma readAt_lazily m s n off r s' : lazily m s -> 0 <= n < 2 ^ 62 -> off < 2 ^ 63 -> rf_ReadAt n off s = (r, s') -> readAt_ok b m n off r m /\ lazily m s'.
Proof.
  destruct s as [f w]. intros Hl Hn Hoff. pose proof Hl as [L1 L2 L3 L4 L5 L6 [h [L7 L7']] L8 L9]. cbn [fst snd] in *. unfold rf_ReadAt, readAt_ok.
  destruct (n =? 0) eqn:En; b2p; [intros [= <- <-]; done|]. unfold the_file, gets, io_bind at 1. cbn [fst]. rewrite L3. destruct (m_closed m); [intros [= <- <-]; done|].
  destruct (off <? 0) eqn:Eo; b2p; [intros [= <- <-]; done|]. unfold io_bind at 1, set_file at 1, modify. cbn [fst snd].
  pose proof (lazily_body m f w (rf_bodyPos f) Hl) as Hl1. rewrite L6, (proj2 (Z.leb_le 0 (blen b))) by (unfold blen; lia). cbn [andb].
  destruct (blen b <=? off) eqn:Ee; b2p; [intros [= <- <-]; done|].
  assert (Hend : i64 (off + n) = off + n) by (unfold i64; rewrite Z.mod_small by lia; lia). rewrite Hend.
  destruct (rf_win f) as [win|] eqn:Ew; [|intros Hf; apply (fetch_lazily m) in Hf as [? ?]; [done|done|lia..]].
  destruct ((rf_winStart f <=? off) && (off + n <=? rf_winStart f + blen win)) eqn:Ec; [|intros Hf; apply (fetch_lazily m) in Hf as [? ?]; [done|done|lia..]].
  apply andb_true_iff in Ec as [E1 E2]. b2p. destruct (L9 win eq_refl) as [Hws (k & Hk)].
  unfold io_bind, lift, sliceZ. rewrite (proj2 (Z.ltb_ge (off - _) 0)), (proj2 (Z.ltb_ge (off + n - _) 0)) by lia. cbn [orb].
  assert (Hwl : blen win = Z.min (Z.of_nat k) (Z.max 0 (blen b - rf_winStart f))) by (rewrite Hk, blen_take, blen_drop; lia).
  rewrite slice_ok; [|lia|unfold blen in *; lia]. intros [= <- <-]. split; [|done]. split; [done|]. left.
  rewrite (proj2 (Z.ltb_ge (blen b) (off + n))) by lia. f_equal. f_equal. rewrite Hk. rewrite skipn_firstn_comm, drop_drop, take_take.
  replace (Z.to_nat (rf_winStart f) + Z.to_nat (off - rf_winStart f))%nat with (Z.to_nat off) by lia. f_equal. lia.
Qed.

Lemma seek_lazily m s offset wh r s' : lazily m s -> - 2 ^ 63 <= offset < 2 ^ 63 -> rf_Seek offset wh s = (r, s') -> exists m', seek_ok b m offset wh r m' /\ lazily m' s'.
Proof.
  destruct s as [f w]. intros Hl Hoff. pose proof Hl as [L1 L2 L3 L4 L5 L6 [h [L7 L7']] L8 L9]. cbn [fst snd] in *. unfold rf_Seek, seek_ok.
  unfold the_file, gets, io_bind at 1. cbn [fst]. rewrite L3. destruct (m_closed m) eqn:Ec; [intros [= <- <-]; by exists m|].
  assert (Hnp : (match wh with SeekStart => ret offset | SeekCurrent => ret (i64 (rf_pos f + offset))
     | SeekEnd => do! (if rf_size f <? 0 then headLocked else ret tt) in let! f0 := (fun s => (Ok (fst s), s)) in ret (i64 (rf_size f0 + offset))
     | otherWhence => fail Errorf end) (f, w) =
    (match (match wh with SeekStart => Some offset | SeekCurrent => Some (i64 (m_pos m + offset)) | SeekEnd => Some (i64 (blen b + offset)) | otherWhence => None end)
     with Some np => Ok np | None => Err Errorf end, (f, w))).
  { destruct wh; cbn; try done; [by rewrite L4|]. rewrite L6, (proj2 (Z.ltb_ge (blen b) 0)) by (unfold blen; lia). cbn. by rewrite L6. }
  unfold io_bind at 1. rewrite Hnp. destruct (match wh with SeekStart => Some offset | _ => _ end) as [np|]; [|intros [= <- <-]; by exists m].
  destruct (np <? 0) eqn:En; b2p; [intros [= <- <-]; by exists m|]. cbn. intros [= <- <-]. exists {| m_pos := np; m_closed := false |}. split; [done|].
  case_bool_decide as Hp; split; cbn; try done; [by eauto| |by eauto].
  intros st Hst. rewrite Hp, L4. by apply L8.
Qed.

Lemma step_lazily m s op a s' : lazily m s -> sensible op -> run_op op s = (a, s') -> exists m', answers key b m op a m' /\ lazily m' s'.
Proof.
  intros Hl Hs. destruct op as [n|n off|offset wh| |]; cbn [run_op sensible] in *.
  - destruct (rf_Read n s) as [r s1] eqn:E. intros [= <- <-]. apply (read_lazily m) in E; [exact E|done|lia].
  - destruct (rf_ReadAt n off s) as [r s1] eqn:E. intros [= <- <-]. exists m. destruct Hs. by apply (readAt_lazily m) in E.
  - destruct (rf_Seek offset wh s) as [r s1] eqn:E. intros [= <- <-]. by apply (seek_lazily m) in E.
  - destruct s as [f w]. pose proof Hl as [L1 L2 L3 L4 L5 L6 [h [L7 L7']] L8 L9]. cbn [fst snd] in *.
    unfold rf_Close, the_file, gets, io_bind at 1. cbn [fst]. rewrite L3. destruct (m_closed m) eqn:Ec; cbn; intros [= <- <-].
    + exists m. by rewrite Ec.
    + exists {| m_pos := m_pos m; m_closed := true |}. rewrite Ec. split; [done|]. split; cbn; try done. by eauto.
  - destruct s as [f w]. pose proof Hl as [L1 L2 L3 L4 L5 L6 [h [L7 L7']] L8 L9]. cbn [fst snd] in *.
    unfold rf_Stat, the_file, gets, io_bind at 1. cbn [fst]. rewrite L7. cbn. rewrite L7. intros [= <- <-]. exists m. split; [|done]. split; [done|].
    eexists. split; [done|]. cbn. by rewrite L2, L7'.
Qed.

Lemma ops_lazily m s ops : lazily m s -> Forall sensible ops -> behaves key b m (run_ops ops s).
Proof.
  intros Hl Hs. revert m s Hl. induction Hs as [|op ops Hop _ IH]; intros m s Hl; [constructor|]. cbn [run_ops].
  destruct (run_op op s) as [a s'] eqn:E. apply (step_lazily m) in E as (m' & Ha & Hl'); [|done..]. econstructor; [done|by apply IH].
Qed.

Lemma new_lazily name head w f w' : object w key = Some b -> (forall h, head = Some h -> h_size h = blen b) ->
  newS3ReadFile key name head w = (Ok f, w') -> lazily {| m_pos := 0; m_closed := false |} (f, w').
Proof.
  intros Ho Hh. unfold newS3ReadFile. destruct head as [h|].
  - intros [= <- <-]. split; cbn; try done; [by apply Hh|]. exists h. split; [done|by apply Hh].
  - intros (out & w1 & Hg & [= <- <-])%io_bind_ok. unfold wrapping in Hg. destruct (GetObjectF key None w) as [[out'|e] w2] eqn:Eg; [|done]. injection Hg as -> ->.
    pose proof (Get_quiet _ _ _ _ _ Eg) as Hq. apply Get_whole in Eg as (b' & Hb' & Hs & Hlen). rewrite Ho in Hb'. injection Hb' as <-.
    unfold adoptMeta. cbn [rf_head]. rewrite Hlen. change (default 0 (Some (blen b))) with (blen b). cbv zeta iota. rewrite (proj2 (Z.ltb_ge (blen b) 0)) by (unfold blen; lia).
    split; cbn; try done; [by rewrite Hq|by eexists|]. by intros st [= <-].
Qed.
End lazy.

(** C30: As long as nobody changes the object, a file opened for reading cannot be
    told from the object's bytes in memory, whatever is called on it and in whatever
    order, with its metadata taken from a listing or from the response: a sequential
    read continues where the last one stopped or where a seek went, is never longer
    than asked and says end-of-file only at the end; a [ReadAt] gives exactly the
    bytes at its offset, all that were asked for or all that there are, with an
    end-of-file error exactly when they are fewer, and moves no cursor; a seek lands
    where the arithmetic says or is refused; the size is the object's; a closed file
    says so. Any other error is one of the bucket. *)
Theorem lazy_file_is_its_bytes `{S3Client} object serves `{!ObjectLaws object serves} key name b head ops w f w'
    (Ho : object w key = Some b) (Hb : blen b < 2 ^ 62) (Hh : forall h, head = Some h -> h_size h = blen b) (Hs : Forall sensible ops)
    (Hn : newS3ReadFile key name head w = (Ok f, w')) :
  behaves key b {| m_pos := 0; m_closed := false |} (run_ops ops (f, w')).
Proof. eapply ops_lazily; [done..| |done]. by eapply new_lazily. Qed.

(** ** A bucket for the witness *)

(** "bytes=from-to" read back; an open end is -1. *)
Definition parse_range (rng : bytes) : option (Z * Z) :=
  match cut_byte (bz 45) (drop 6 rng) with
  | Some (from, to) => a ← ParseInt from; match to with [] => Some (a, -1) | _ => e ← ParseInt to; Some (a, e) end
  | None => None
  end.

Lemma dec_digits_all fuel z acc : 0 <= z -> Forall (fun c => is_digit c = true) acc -> Forall (fun c => is_digit c = true) (dec_digits fuel z acc).
Proof.
  revert z acc. induction fuel as [|n IH]; intros z acc Hz Ha; [done|]. cbn [dec_digits]. destruct (z <? 10) eqn:E; b2p.
  - constructor; [apply digit_ok; lia|done].
  - apply IH; [apply Z.div_pos; lia|]. constructor; [apply digit_ok; apply Z.mod_pos_bound; lia|done].
Qed.

Lemma parse_range_header from to : 0 <= from < 2 ^ 63 -> to < 0 \/ from <= to < 2 ^ 63 -> parse_range (rangeHeader from to) = Some (from, if to <? 0 then -1 else to).
Proof.
  intros Hf Ht. unfold parse_range, rangeHeader. change (drop 6 (bs "bytes=" ++ ?x)) with x. change (bs "-" ++ ?x) with (bz 45 :: x).
  rewrite cut_byte_app.
  - rewrite (ParseInt_FormatInt from Hf). cbn. destruct (to <? 0) eqn:E; b2p; [done|]. rewrite (ParseInt_FormatInt to ltac:(lia)). cbn.
    unfold FormatInt. rewrite (proj2 (Z.ltb_ge to 0)) by lia. destruct (dec_digits_spec 20 to []) as [_ (d & l & -> & _)]; [|done|done].
    change (10 ^ Z.of_nat 20) with 100000000000000000000. split; lia.
  - unfold FormatInt. rewrite (proj2 (Z.ltb_ge from 0)) by lia. pose proof (dec_digits_all 20 from [] ltac:(lia) ltac:(constructor)) as Hall.
    rewrite Forall_forall in Hall. intros Hin. apply Hall in Hin. by vm_compute in Hin.
Qed.

Abbreviation store := (gmap bytes bytes).
Definition toy_out (st : bytes) (len : Z) (rng : option bytes) : getOutput bytes :=
  {| ro_length := Some len; ro_range := rng; ro_mtime := Some 7; ro_meta := ∅; ro_body := st |}.
Definition toy_get (object : option bytes) (rng : option bytes) : gores (getOutput bytes) :=
  match object with
  | None => Err (APIError (bs "NoSuchKey"))
  | Some b =>
      match rng with
      | None => Ok (toy_out b (blen b) None)
      | Some rng =>
          match parse_range rng with
          | Some (from, to) =>
              if blen b <=? from then Err (APIError (bs "InvalidRange")) else
              let part := if to <? 0 then drop (Z.to_nat from) b else take (Z.to_nat (to - from + 1)) (drop (Z.to_nat from) b) in
              Ok (toy_out part (blen part) None)
          | None => Ok (toy_out b (blen b) None)
          end
      end
  end.
(** A response comes three bytes at a time. *)
Definition toy_read (st : bytes) (n : Z) : (bytes * option goerr) * bytes :=
  ((take (Nat.min 3 (Z.to_nat n)) st, match st with [] => Some (Sent EOF) | _ => None end), drop (Nat.min 3 (Z.to_nat n)) st).

Lemma toy_read_ok st n d e st' : toy_read st n = ((d, e), st') ->
  exists rest, st = d ++ rest /\ st' = rest /\ (0 <= n -> blen d <= n) /\ (e = Some (Sent EOF) -> rest = []).
Proof.
  unfold toy_read. assert (Hm : Z.of_nat (Nat.min 3 (Z.to_nat n)) <= Z.max 0 n) by lia. revert Hm. generalize (Nat.min 3 (Z.to_nat n)).
  intros m Hm [= <- <- <-]. exists (drop m st). split; [by rewrite take_drop|]. split; [done|].
  split; [intros Hn; unfold blen; rewrite length_take; lia|]. destruct st; [by intros _; destruct m|done].
Qed.
Lemma toy_get_whole ob out : toy_get ob None = Ok out -> exists b, ob = Some b /\ ro_body out = b /\ ro_length out = Some (blen b).
Proof. destruct ob as [b|]; [|done]. intros [= <-]. by exists b. Qed.
Lemma toy_get_absent ob e : toy_get ob None = Err e -> ob = None.
Proof. by destruct ob. Qed.
Lemma toy_get_range ob from to out : 0 <= from < 2 ^ 63 -> to < 0 \/ from <= to < 2 ^ 63 -> toy_get ob (Some (rangeHeader from to)) = Ok out ->
  exists b, ob = Some b /\ from < blen b /\ ro_body out = (if to <? 0 then drop (Z.to_nat from) b else take (Z.to_nat (to - from + 1)) (drop (Z.to_nat from) b)) /\
    (parseContentRange (ro_range out) < 0 \/ parseContentRange (ro_range out) = blen b).
Proof.
  intros Hf Ht. unfold toy_get. destruct ob as [b|]; [|done]. rewrite (parse_range_header from to Hf Ht). destruct (blen b <=? from) eqn:E; b2p; [done|].
  intros [= <-]. exists b. split; [done|]. split; [lia|]. split; [|by left]. cbn [toy_out ro_body]. destruct (to <? 0) eqn:E2; [done|]. by rewrite E2.
Qed.
Lemma toy_get_invalid b from to e : 0 <= from < 2 ^ 63 -> to < 0 \/ from <= to < 2 ^ 63 -> toy_get (Some b) (Some (rangeHeader from to)) = Err e -> blen b <= from.
Proof. intros Hf Ht. unfold toy_get. rewrite (parse_range_header from to Hf Ht). destruct (blen b <=? from) eqn:E; b2p; done. Qed.

Definition toyReader : S3Client := {|
  FWorld := store;
  Stream := bytes;
  stream_Read := toy_read;
  stream_All st := Ok st;
  HeadObjectF k := fun w => (match w !! k with Some b => Ok {| h_size := blen b; h_mtime := 7; h_meta := ∅ |} | None => Err (APIError (bs "NotFound")) end, w);
  GetObjectF k rng := fun w => (toy_get (w !! k) rng, w);
  PutObjectF k b _ := fun w => (Ok tt, <[k := b]> w);
  ListF _ _ _ _ := fail Errorf;
  DeleteObjectF k := fun w => (Ok tt, delete k w);
  RenameObjectF _ _ := fail Errorf;
  CreateMultipartUploadF _ _ := fail Errorf;
  UploadPartF _ _ _ _ := fail Errorf;
  CompleteMultipartUploadF _ _ := fail Errorf;
  NowF _ := 0;
|}.

Lemma toy_objects : @ObjectLaws toyReader (fun w k => w !! k) eq.
Proof.
  split.
  - intros st l n d e st' <- Hr. apply toy_read_ok in Hr as (rest & H1 & H2 & H3). by exists rest.
  - by intros st l d <- [= <-].
  - by intros k rng w r w' [= _ <-].
  - intros k w out w' Hg. injection Hg as Hg _. apply toy_get_whole in Hg as (b & H1 & H2 & H3). by exists b.
  - intros k from to w out w' Hf Ht Hg. injection Hg as Hg _. apply toy_get_range in Hg as (b & H1 & H2 & H3 & H4); [|done..]. exists b. by rewrite <-H3.
  - intros k from to w e w' b Hf Ht Hg Hi Hk. injection Hg as Hg _. change (toy_get ((w : store) !! k) (Some (rangeHeader from to)) = Err e) in Hg.
    change ((w : store) !! k = Some b) in Hk. rewrite Hk in Hg. by eapply toy_get_invalid.
Qed.

Definition toy_file : bytes := bs "0123456789".
Definition toy_world : store := {[ bs "o/r/HEAD" := toy_file ]}.
Definition toy_ops : list rop := [ORead 4; OReadAt 4 7; ORead 4; OReadAt 2 8; OSeek (-2) SeekEnd; ORead 4; ORead 4; OStat; OClose; OReadAt 1 0].
Definition toy_handle : @s3ReadFile toyReader :=
  @Build_s3ReadFile toyReader (bs "o/r/HEAD") (bs "HEAD") false (Some {| h_size := 10; h_mtime := 7; h_meta := ∅ |}) 10 0 (Some toy_file) 0 None 0.

Lemma toy_opens : @newS3ReadFile toyReader (bs "o/r/HEAD") (bs "HEAD") None toy_world = (Ok toy_handle, toy_world).
Proof.
  assert (Hg : toy_get (toy_world !! bs "o/r/HEAD") None = Ok (toy_out toy_file 10 None)) by (by vm_compute).
  unfold newS3ReadFile, io_bind, wrapping. change (@GetObjectF toyReader (bs "o/r/HEAD") None toy_world) with (toy_get (toy_world !! bs "o/r/HEAD") None, toy_world). by rewrite Hg.
Qed.

Example toy_answers : (fun x => match snd x with AData (Ok (d, e)) => Some (d, e) | _ => None end) <$> @run_ops toyReader toy_ops (toy_handle, toy_world) =
  [Some (bs "012", None); Some (bs "789", Some (Sent EOF)); Some (bs "345", None); Some (bs "89", None); None; Some (bs "89", None); None; None; None; None].
Proof. by vm_compute. Qed.

Lemma lazy_file_is_its_bytes_witness : @behaves toyReader (bs "o/r/HEAD") toy_file {| m_pos := 0; m_closed := false |} (@run_ops toyReader toy_ops (toy_handle, toy_world)).
Proof.
  apply (@lazy_file_is_its_bytes toyReader (fun w k => w !! k) eq toy_objects (bs "o/r/HEAD") (bs "HEAD") toy_file None toy_ops toy_world toy_handle toy_world).
  - change (toy_world !! bs "o/r/HEAD" = Some toy_file). vm_compute. reflexivity.
  - reflexivity.
  - discriminate.
  - unfold toy_ops. repeat constructor; cbn; try lia; try (intros; discriminate).
  - apply toy_opens.
Defined.
