(* ===== verification/S3Fs.v ===== *)
(** * The bucket as a filesystem (internal/s3fs: filesystem.go, basic.go, dir.go, file.go, tempfs.go, tempfile.go, chroot.go, symlink.go)

    Names of a filesystem become keys of the bucket; a file opened for writing is
    a buffer that its close uploads, a temporary file a buffer that a rename
    uploads; lookups go through the listing cache when there is one. The state is
    what one filesystem sees: the bucket, the cache it shares, its temporary files
    and the buffers their handles share. The filesystem is one built without
    [WithPackCache], as the daemon builds it; that cache is S3PackCache.v. *)

From S2P Require Import Prelude GoLib S3 Codec GoText Storer RepoFs UnixMeta S3Client ListingCache S3Read.

(** ** Names (filesystem.go) *)

(** [path.Join] of one element. *)
Definition Join1 (a : bytes) : bytes := match a with [] => [] | _ => Clean a end.

(** A filesystem without its state. *)
Record S3FS := { fs_root : bytes; fs_unixMeta : option unixMetaConfig }.

Definition cleanPath (fs : S3FS) (p : bytes) : bytes :=
  let j := Join1 p in
  let c := Clean j in
  let f := Join (fs_root fs) c in
  Clean f.
Definition key (fs : S3FS) (name : bytes) : bytes := trim_prefix (cleanPath fs name) [slash].

(** [S3FS.Join] of two elements. *)
Definition fs_Join (a b : bytes) : bytes := Clean (Join a b).

Example key_examples : let fs := {| fs_root := bs "org/repo"; fs_unixMeta := None |} in
  key fs (bs "/refs//heads/./main") = bs "org/repo/refs/heads/main" /\ key fs (bs "../other/HEAD") = bs "org/other/HEAD" /\ key fs (bs "/../../x") = bs "org/repo/x" /\
  key {| fs_root := []; fs_unixMeta := None |} (bs ".") = bs "." /\ key {| fs_root := []; fs_unixMeta := None |} (bs "/") = [].
Proof. by vm_compute. Qed.

Definition O_RDONLY : Z := 0.
Definition O_WRONLY : Z := 1.
Definition O_WRMULTIPART : Z := 4.
Definition SupportedOFlags : Z := Z.lor O_RDONLY (Z.lor O_WRONLY O_WRMULTIPART).

Section s3fs.
Context `{S3Client} (pages : nat).

(** [st_temps] holds the place of a temporary file's buffer among [st_bufs]. *)
Record FsSt := { st_world : FWorld; st_cache : option ListingCache; st_temps : gmap bytes nat; st_bufs : list bytes }.
Abbreviation M := (io FsSt).

Definition with_world (w : FWorld) (s : FsSt) : FsSt := {| st_world := w; st_cache := st_cache s; st_temps := st_temps s; st_bufs := st_bufs s |}.
Definition with_cache (c : option ListingCache) (s : FsSt) : FsSt := {| st_world := st_world s; st_cache := c; st_temps := st_temps s; st_bufs := st_bufs s |}.
Definition with_temps (t : gmap bytes nat) (s : FsSt) : FsSt := {| st_world := st_world s; st_cache := st_cache s; st_temps := t; st_bufs := st_bufs s |}.
Definition with_bufs (b : list bytes) (s : FsSt) : FsSt := {| st_world := st_world s; st_cache := st_cache s; st_temps := st_temps s; st_bufs := b |}.

Definition client {A} (m : io FWorld A) : M A := fun s => let '(r, w) := m (st_world s) in (r, with_world w s).
(** A call of the cache, which must be there. *)
Definition cached {A} (m : io CacheSt A) : M A := fun s =>
  match st_cache s with
  | Some c => let '(r, cs) := m {| cs_world := st_world s; cs_cache := c |} in (r, with_cache (Some (cs_cache cs)) (with_world (cs_world cs) s))
  | None => (Err Panic, s)
  end.
Definition now : M Z := gets (fun s => NowF (st_world s)).
(** [fs3.cache.invalidate(prefix)], if there is a cache. *)
Definition invalidateFs (prefix : bytes) : M unit :=
  modify (fun s => with_cache (invalidate (NowF (st_world s)) prefix <$> st_cache s) s).

(** ** Temporary files: buffers (tempfs.go) *)

Definition the_buf (i : nat) : M bytes := gets (fun s => default [] (st_bufs s !! i)).
Definition buf_write (i : nat) (p : bytes) : M Z := let! b := the_buf i in do! modify (fun s => with_bufs (<[i := b ++ p]> (st_bufs s)) s) in ret (blen p).
Definition buf_readAt (i : nat) (n off : Z) : M bytes :=
  if off <? 0 then fail Errorf else
  let! b := the_buf i in
  if blen b <=? off then fail (Sent EOF) else ret (take (Z.to_nat n) (drop (Z.to_nat off) b)).
Definition buf_size (i : nat) : M Z := let! b := the_buf i in ret (blen b).

Definition lookupTemp (fs : S3FS) (name : bytes) : M (option nat) := gets (fun s => st_temps s !! key fs name).
Definition registerTemp (fs : S3FS) (name : bytes) (i : nat) : M unit := modify (fun s => with_temps (<[key fs name := i]> (st_temps s)) s).
Definition detachTemp (fs : S3FS) (name : bytes) : M (option nat) :=
  let! buf := gets (fun s => st_temps s !! key fs name) in
  do! modify (fun s => with_temps (delete (key fs name) (st_temps s)) s) in
  ret buf.

(** ** Handles *)

Record s3WriteFile := { wf_key : bytes; wf_name : bytes; wf_closed : bool; wf_buf : bytes }.
Record s3MultipartUploadFile := { mf_key : bytes; mf_name : bytes; mf_closed : bool; mf_uploadID : bytes; mf_uploadN : Z }.
Record s3DirFile := { df_name : bytes; df_closed : bool }.
Record tempWriteFile := { tw_buf : nat; tw_name : bytes; tw_closed : bool }.
Record tempReadFile := { tr_buf : nat; tr_name : bytes; tr_pos : Z; tr_closed : bool }.

Inductive File :=
  | ReadFile (f : s3ReadFile) | WriteFile (f : s3WriteFile) | MultipartFile (f : s3MultipartUploadFile)
  | DirFile (f : s3DirFile) | TempWriteFile (f : tempWriteFile) | TempReadFile (f : tempReadFile).

(** A method of a handle: the handle changes even when the call fails. *)
Abbreviation method T A := (io (T * FsSt) A).
Definition self {T} : method T T := gets fst.
Definition set_self {T} (f : T -> T) : method T unit := modify (fun s => (f (fst s), snd s)).
Definition on_fs {T A} (m : M A) : method T A := fun s => let '(r, s') := m (snd s) in (r, (fst s, s')).

(** *** Writing (s3WriteFile, file.go) *)

Definition wf_Write (p : bytes) : method s3WriteFile Z :=
  let! f := self in
  if wf_closed f then fail (Sent ErrFileClosed) else
  do! set_self (fun f => {| wf_key := wf_key f; wf_name := wf_name f; wf_closed := wf_closed f; wf_buf := wf_buf f ++ p |}) in
  ret (blen p).

Definition wf_Close (fs : S3FS) : method s3WriteFile unit :=
  let! f := self in
  if wf_closed f then fail (Sent ErrFileClosed) else
  do! set_self (fun f => {| wf_key := wf_key f; wf_name := wf_name f; wf_closed := true; wf_buf := wf_buf f |}) in
  let! t := on_fs now in
  do! on_fs (client (wrapping (PutObjectF (wf_key f) (wf_buf f) (newFileMetadata (fs_unixMeta fs) t)))) in
  on_fs (invalidateFs (fst (splitKey (wf_key f)))).

Definition wf_Stat : method s3WriteFile simpleFileInfo := let! f := self in let! t := on_fs now in ret (newFileInfo (wf_key f) (-1) t).
Definition wf_Read (n : Z) : method s3WriteFile bytes := fail (Sent ErrCantReadFromWriteOnly).
Definition wf_Seek (offset : Z) (wh : whence) : method s3WriteFile Z := fail (Wrapf (Sent ErrNotImplemented)).

(** *** Writing in parts (s3MultipartUploadFile, file.go) *)

Definition newS3MultipartUploadFile (fs : S3FS) (k name : bytes) : M s3MultipartUploadFile :=
  let! t := now in
  let! id := client (wrapping (CreateMultipartUploadF k (newFileMetadata (fs_unixMeta fs) t))) in
  ret {| mf_key := k; mf_name := name; mf_closed := false; mf_uploadID := id; mf_uploadN := 1 |}.

(** [atomic.Int32] wraps around. *)
Definition i32 (z : Z) : Z := (z + 2 ^ 31) mod 2 ^ 32 - 2 ^ 31.
Definition mf_Write (p : bytes) : method s3MultipartUploadFile Z :=
  let! f := self in
  do! on_fs (client (wrapping (UploadPartF (mf_key f) (mf_uploadID f) (mf_uploadN f) p))) in
  do! set_self (fun f => {| mf_key := mf_key f; mf_name := mf_name f; mf_closed := mf_closed f; mf_uploadID := mf_uploadID f; mf_uploadN := i32 (mf_uploadN f + 1) |}) in
  ret (blen p).

Definition mf_Close : method s3MultipartUploadFile unit :=
  let! f := self in
  if mf_closed f then fail (Sent ErrFileClosed) else
  do! set_self (fun f => {| mf_key := mf_key f; mf_name := mf_name f; mf_closed := true; mf_uploadID := mf_uploadID f; mf_uploadN := mf_uploadN f |}) in
  do! on_fs (client (wrapping (CompleteMultipartUploadF (mf_key f) (mf_uploadID f)))) in
  on_fs (invalidateFs (fst (splitKey (mf_key f)))).

Definition mf_Stat : method s3MultipartUploadFile simpleFileInfo := let! f := self in let! t := on_fs now in ret (newFileInfo (mf_key f) (-1) t).

(** *** Directories (s3DirFile, file.go) *)

Definition newS3DirFile (name : bytes) : s3DirFile := {| df_name := name; df_closed := false |}.
Definition eisdir : goerr := Wrapf (Sent EISDIR).
Definition df_Stat : method s3DirFile simpleFileInfo :=
  let! f := self in
  let! ho := on_fs (client (HeadObjectF (df_name f))) in
  ret (enrichedFileInfo (df_name f) ho (if has_suffix (df_name f) [slash] || (h_size ho =? 0) then ModeDir else 0)).
Definition df_Close : method s3DirFile unit :=
  let! f := self in
  if df_closed f then fail (Sent ErrFileClosed) else set_self (fun f => {| df_name := df_name f; df_closed := true |}).

(** *** Temporary files (tempfs.go) *)

Definition tw_Write (p : bytes) : method tempWriteFile Z :=
  let! f := self in if tw_closed f then fail (Sent ErrFileClosed) else on_fs (buf_write (tw_buf f) p).
Definition tw_Close : method tempWriteFile unit :=
  let! f := self in
  if tw_closed f then fail (Sent ErrFileClosed) else set_self (fun f => {| tw_buf := tw_buf f; tw_name := tw_name f; tw_closed := true |}).
Definition tw_Stat : method tempWriteFile simpleFileInfo :=
  let! f := self in let! n := on_fs (buf_size (tw_buf f)) in let! t := on_fs now in ret (newFileInfo (tw_name f) n t).

Definition set_tr_pos (p : Z) (f : tempReadFile) : tempReadFile := {| tr_buf := tr_buf f; tr_name := tr_name f; tr_pos := p; tr_closed := tr_closed f |}.
Definition tr_Read (n : Z) : method tempReadFile bytes :=
  let! f := self in
  if tr_closed f then fail (Sent ErrFileClosed) else
  let! d := on_fs (buf_readAt (tr_buf f) n (tr_pos f)) in
  do! set_self (fun f => set_tr_pos (i64 (tr_pos f + blen d)) f) in
  ret d.
Definition tr_ReadAt (n off : Z) : method tempReadFile bytes :=
  let! f := self in if tr_closed f then fail (Sent ErrFileClosed) else on_fs (buf_readAt (tr_buf f) n off).
Definition tr_Seek (offset : Z) (wh : whence) : method tempReadFile Z :=
  let! f := self in
  if tr_closed f then fail (Sent ErrFileClosed) else
  let! p := match wh with
            | SeekStart => ret offset
            | SeekCurrent => ret (i64 (tr_pos f + offset))
            | SeekEnd => let! n := on_fs (buf_size (tr_buf f)) in ret (i64 (n + offset))
            | otherWhence => fail Errorf
            end in
  do! set_self (set_tr_pos p) in
  ret p.
Definition tr_Close : method tempReadFile unit :=
  let! f := self in
  if tr_closed f then fail (Sent ErrFileClosed)
  else set_self (fun f => {| tr_buf := tr_buf f; tr_name := tr_name f; tr_pos := tr_pos f; tr_closed := true |}).
Definition tr_Stat : method tempReadFile simpleFileInfo :=
  let! f := self in let! n := on_fs (buf_size (tr_buf f)) in let! t := on_fs now in ret (newFileInfo (tr_name f) n t).

(** [TempFile]: the random bytes are the argument. *)
Definition TempFile (fs : S3FS) (random : gores bytes) (dir prefix : bytes) : M File :=
  let! b := wrapping (lift random) in
  let name := fs_Join dir (prefix ++ EncodeToString b) in
  let! i := gets (fun s => length (st_bufs s)) in
  do! modify (fun s => with_bufs (st_bufs s ++ [[]]) s) in
  do! registerTemp fs name i in
  ret (TempWriteFile {| tw_buf := i; tw_name := name; tw_closed := false |}).

(** ** Lookups (basic.go) *)

(** [resolve]: unknown, known to be absent, or the entry. *)
Definition resolve (k : bytes) : M (option (option childEntry)) :=
  let! c := gets st_cache in
  match c with
  | None => ret None
  | Some _ =>
      let '(prefix, base) := splitKey k in
      try! entries := cached (list_cached pages prefix) in
      match entries with
      | Ok entries => ret (Some (find (fun e => bool_decide (ch_name e = base)) entries))
      | Err _ => ret None
      end
  end.

(** Whether anything lies below [k/]. *)
Definition probeDir (k : bytes) : M bool :=
  let! list := client (ListF (k ++ [slash]) true (Some 1) None) in
  ret (negb (bool_decide (pg_contents list = [])) || negb (bool_decide (pg_prefixes list = []))).

Definition is_root (k : bytes) : bool := bool_decide (k = []) || bool_decide (k = dot).
Definition pathNotExist : goerr := Wrapf (Sent ErrNotExist).

(** Opening for reading without the listing cache. *)
Definition openLive (k name : bytes) : M File :=
  try! f := client (newS3ReadFile k name None) in
  match f with
  | Ok f => ret (ReadFile f)
  | Err e =>
      if isNotFound e then
        let! dir := probeDir k in
        if dir then ret (DirFile (newS3DirFile k)) else fail pathNotExist
      else fail e
  end.

Definition openRead (fs : S3FS) (name : bytes) : M File :=
  let k := key fs name in
  if is_root k then ret (DirFile (newS3DirFile k)) else
  let! temp := lookupTemp fs name in
  match temp with
  | Some i => ret (TempReadFile {| tr_buf := i; tr_name := name; tr_pos := 0; tr_closed := false |})
  | None =>
      let! info := resolve k in
      match info with
      | Some None => fail pathNotExist
      | Some (Some e) =>
          match ch_kind e with
          | kindDir => ret (DirFile (newS3DirFile k))
          | kindFile =>
              try! ho := cached (head_cached k (bool_decide (fs_unixMeta fs <> None))) in
              match ho with
              | Ok ho => let! f := client (newS3ReadFile k name (Some ho)) in ret (ReadFile f)
              | Err e => if isNotFound e then fail pathNotExist else openLive k name
              end
          end
      | None => openLive k name
      end
  end.

Definition OpenFile (fs : S3FS) (name : bytes) (flag : Z) : M File :=
  if negb (Z.land flag SupportedOFlags =? flag) then fail Errorf else
  let k := key fs name in
  let sw := Z.land flag SupportedOFlags in
  if sw =? O_RDONLY then openRead fs name
  else if sw =? O_WRONLY then ret (WriteFile {| wf_key := k; wf_name := name; wf_closed := false; wf_buf := [] |})
  else if sw =? O_WRMULTIPART then let! f := newS3MultipartUploadFile fs k name in ret (MultipartFile f)
  else fail Errorf.
Definition fs_Create (fs : S3FS) (name : bytes) : M File := OpenFile fs name O_WRONLY.
Definition fs_Open (fs : S3FS) (name : bytes) : M File := OpenFile fs name O_RDONLY.

Definition statLive (fs : S3FS) (k : bytes) : M simpleFileInfo :=
  try! head := client (HeadObjectF k) in
  match head with
  | Ok head => ret (newFileInfoFromHead (pathBase k) head (fs_unixMeta fs))
  | Err e =>
      if isNotFound e then
        let! dir := probeDir k in
        let! t := now in
        if dir then ret (newDirInfo (pathBase k) t) else fail pathNotExist
      else fail e
  end.

Definition fs_Stat (fs : S3FS) (name : bytes) : M simpleFileInfo :=
  let k := key fs name in
  let! t := now in
  if is_root k then ret (newDirInfo [slash] t) else
  let! temp := lookupTemp fs name in
  match temp with
  | Some i => let! n := buf_size i in ret (newFileInfo (pathBase name) n t)
  | None =>
      let! info := resolve k in
      match info with
      | Some None => fail pathNotExist
      | Some (Some e) =>
          match ch_kind e with
          | kindDir => ret (newDirInfo (pathBase k) t)
          | kindFile =>
              try! ho := cached (head_cached k (bool_decide (fs_unixMeta fs <> None))) in
              match ho with
              | Ok ho => ret (newFileInfoFromHead (pathBase k) ho (fs_unixMeta fs))
              | Err e => if isNotFound e then fail pathNotExist else statLive fs k
              end
          end
      | None => statLive fs k
      end
  end.
Definition Lstat (fs : S3FS) (name : bytes) : M simpleFileInfo := fs_Stat fs name.

(** ** Changes (basic.go, dir.go) *)

Definition fs_Rename (fs : S3FS) (oldpath newpath : bytes) : M unit :=
  let src := key fs oldpath in
  let dst := key fs newpath in
  let! buf := detachTemp fs oldpath in
  match buf with
  | Some i =>
      let! data := the_buf i in
      do! client (wrapping (PutObjectF dst data ∅)) in
      invalidateFs (fst (splitKey dst))
  | None =>
      do! client (wrapping (RenameObjectF src dst)) in
      do! invalidateFs (fst (splitKey src)) in
      invalidateFs (fst (splitKey dst))
  end.

Definition fs_Remove (fs : S3FS) (name : bytes) : M unit :=
  let! buf := detachTemp fs name in
  match buf with
  | Some _ => ret tt
  | None =>
      let k := key fs name in
      do! client (wrapping (DeleteObjectF k)) in
      invalidateFs (fst (splitKey k))
  end.

Definition fs_ReadDir (fs : S3FS) (dir : bytes) : M (list simpleFileInfo) :=
  let k := key fs dir in
  let prefix := if is_root k then [] else k ++ [slash] in
  let! c := gets st_cache in
  let! entries := match c with Some _ => cached (list_cached pages prefix) | None => client (listChildren pages prefix) end in
  let! t := now in
  ret ((fun e => match ch_kind e with kindDir => newDirInfo (ch_name e) t | kindFile => newFileInfo (ch_name e) (ch_size e) (ch_mtime e) end) <$> entries).

Definition MkdirAll (fs : S3FS) (name : bytes) : M unit :=
  let k := key fs name in
  if is_root k then ret tt else
  do! client (PutObjectF (k ++ [slash]) [] ∅) in
  invalidateFs (fst (splitKey k)).

(** ** A filesystem below another (chroot.go), symbolic links (symlink.go) *)

(** The child's state is its parent's but for the temporary files. *)
Definition Chroot (fs : S3FS) (path : bytes) (s : FsSt) : S3FS * FsSt :=
  let p := fs_Join (fs_root fs) path in
  ({| fs_root := p; fs_unixMeta := fs_unixMeta fs |},
   with_temps ∅ (with_cache ((if bool_decide (p = []) || bool_decide (p = dot) then id else registerRoot p) <$> st_cache s) s)).
Definition Root (fs : S3FS) : bytes := fs_root fs.

Definition Symlink (target link : bytes) : M unit := fail (Sent ErrSymLinkNotSupported).
Definition Readlink (link : bytes) : M bytes := fail (Sent ErrSymLinkNotSupported).
End s3fs.
