(* ===== verification/S3FsSpec.v ===== *)
(** * What the filesystem over the bucket promises (internal/s3fs)

    A name is found as what the bucket holds under its key, with a listing cache
    or without; what a closed file or a renamed temporary file wrote is what a
    later open reads; changes take effect and are seen; a name that does not climb
    stays below the filesystem's root. *)

From S2P Require Import Prelude GoLib S3 Codec Storer RepoFs UnixMeta S3Client ListingCache ListingCacheSpec S3Read S3ReadSpec S3Fs.

(** ** Names *)

(** What is left of a path after [Clean], between the slashes. *)
Definition part_ok (p : bytes) : Prop := p <> [] /\ p <> dot /\ slash ∉ p.

Lemma clean_parts_ok rooted parts out : Forall (fun p => slash ∉ p) parts -> Forall part_ok out -> Forall part_ok (clean_parts rooted parts out).
Proof.
  intros Hp. revert out. induction Hp as [|p parts Hs _ IH]; intros out Ho; cbn [clean_parts]; [by apply Forall_rev|].
  assert (Hdd : part_ok dotdot) by (split; [done|]; split; [done|]; apply (bool_decide_unpack _); vm_compute; exact I).
  destruct (bool_decide (p = []) || bool_decide (p = dot)) eqn:E; [by apply IH|]. apply orb_false_iff in E as [E1 E2]. b2p.
  case_bool_decide as Ed.
  - destruct out as [|q out']; [destruct rooted; apply IH; [done|by constructor]|].
    case_bool_decide; apply IH; [by constructor|by inversion Ho].
  - apply IH. by constructor.
Qed.

Lemma split_join_parts parts : parts <> [] -> Forall (fun p => slash ∉ p) parts -> split_slash (join_slash parts) = parts.
Proof.
  intros Hne Hp. induction Hp as [|p parts Hs Hp IH]; [done|]. destruct parts as [|q parts]; [by apply split_no_slash|].
  change (join_slash (p :: q :: parts)) with (p ++ slash :: join_slash (q :: parts)). rewrite split_app by done. by rewrite IH.
Qed.

Lemma part_ok_slash parts : Forall part_ok parts -> Forall (fun p => slash ∉ p) parts.
Proof. intros Hp. eapply Forall_impl; [exact Hp|]. by intros p (_ & _ & ?). Qed.

Lemma join_head parts : Forall part_ok parts -> has_prefix (join_slash parts) [slash] = false.
Proof.
  intros [|p parts' (Hn & _ & Hs) _]; [done|]. destruct p as [|x p]; [done|]. apply not_true_iff_false. intros [t Ht]%has_prefix_spec.
  apply Hs. destruct parts'; cbn in Ht; injection Ht as -> _; by left.
Qed.

Lemma Clean_shape s : exists rooted parts, Forall part_ok parts /\ Clean s = match (if rooted : bool then slash :: join_slash parts else join_slash parts) with [] => dot | r => r end.
Proof. unfold Clean. eexists _, _. split; [|reflexivity]. apply clean_parts_ok; [apply split_parts|constructor]. Qed.

(** A key is elements joined by slashes, or the root. *)
Lemma key_shape fs name : is_root (key fs name) = false -> exists parts, parts <> [] /\ Forall part_ok parts /\ key fs name = join_slash parts.
Proof.
  unfold key, cleanPath. destruct (Clean_shape (Join (fs_root fs) (Clean (Join1 name)))) as (rooted & parts & Hp & ->). unfold trim_prefix.
  assert (Hh : has_prefix (join_slash parts) [slash] = false) by (by apply join_head).
  destruct rooted.
  - change (has_prefix (slash :: join_slash parts) [slash]) with true. cbn [length drop]. intros Hr. exists parts. split; [|done].
    intros ->. discriminate Hr.
  - destruct (join_slash parts) as [|x r] eqn:Ej.
    + change (has_prefix dot [slash]) with false. cbv iota. unfold is_root. rewrite (bool_decide_true (dot = dot)) by done. by rewrite orb_true_r.
    + rewrite Hh. intros _. exists parts. split; [by intros ->|]. split; [done|by rewrite Ej].
Qed.

Lemma splitKey_join parts : parts <> [] -> Forall part_ok parts -> snd (splitKey (join_slash parts)) <> [].
Proof.
  intros Hne Hp. unfold splitKey. rewrite split_join_parts by (done || by apply part_ok_slash).
  destruct (rev parts) as [|b d] eqn:Er; [apply (f_equal (@rev _)) in Er; rewrite rev_involutive in Er; by subst|].
  assert (Hb : part_ok b). { rewrite Forall_forall in Hp. apply Hp. apply list_elem_of_In, in_rev. rewrite Er. by left. }
  destruct Hb as (Hb & _). destruct d as [|y d]; cbn [snd]; [|done].
  assert (Hpb : parts = [b]) by (by rewrite <-(rev_involutive parts), Er). by rewrite Hpb.
Qed.

Lemma key_base fs name : is_root (key fs name) = false -> snd (splitKey (key fs name)) <> [].
Proof. intros (parts & Hne & Hp & ->)%key_shape. by apply splitKey_join. Qed.

(** ** Names below the root *)

Lemma split_app_any a b : split_slash (a ++ slash :: b) = split_slash a ++ split_slash b.
Proof.
  induction a as [|x a IH]; [by cbn; rewrite bool_decide_true|]. cbn [app split_slash]. case_bool_decide; [by rewrite IH|].
  rewrite IH. pose proof (split_nonempty a). by destruct (split_slash a).
Qed.

Lemma keep_parts rooted parts rest out : Forall plain_part parts -> clean_parts rooted (parts ++ rest) out = clean_parts rooted rest (rev parts ++ out).
Proof.
  intros Hp. revert out. induction Hp as [|p parts (H1 & H2 & H3 & _) _ IH]; intros out; [done|]. cbn [app clean_parts].
  rewrite !bool_decide_false by done. cbn [orb]. rewrite IH. cbn [rev]. by rewrite <-app_assoc.
Qed.

(** A rooted path has no [..] left, and a [..] that leads upwards stays in front. *)
Lemma rooted_plain parts out : Forall (fun p => slash ∉ p) parts -> Forall plain_part out -> Forall plain_part (clean_parts true parts out).
Proof.
  intros Hs. revert out. induction Hs as [|p parts Hp _ IH]; intros out Ho; cbn [clean_parts]; [by apply Forall_rev|].
  destruct (bool_decide (p = []) || bool_decide (p = dot)) eqn:E; [by apply IH|]. apply orb_false_iff in E as [E1 E2]. b2p.
  case_bool_decide as Ed; [|apply IH; by constructor]. destruct Ho as [|q out Hq Ho]; [by apply IH|].
  destruct Hq as (_ & _ & Hq & _). rewrite (bool_decide_false _ Hq). by apply IH.
Qed.
Lemma climb_stays parts out : head (clean_parts false parts (out ++ [dotdot])) = Some dotdot.
Proof.
  revert out. induction parts as [|p parts IH]; intros out; cbn [clean_parts]; [by rewrite rev_app_distr|]. destruct (_ || _); [done|].
  case_bool_decide as Ed; [|apply (IH (p :: out))]. destruct out as [|q out]; cbn [app]; [rewrite bool_decide_true by done; apply (IH [dotdot])|].
  case_bool_decide; [apply (IH (dotdot :: q :: out))|apply IH].
Qed.

Definition starts_rooted (name : bytes) : bool := match name with x :: _ => bool_decide (x = slash) | [] => false end.
(** A name whose elements lead above where it starts. *)
Definition climbs (name : bytes) : bool := bool_decide (head (clean_parts false (split_slash name) []) = Some dotdot).

Lemma stays_below parts out base : Forall (fun p => slash ∉ p) parts -> Forall plain_part out -> head (clean_parts false parts out) <> Some dotdot ->
  clean_parts false parts (out ++ base) = rev base ++ clean_parts false parts out /\ Forall plain_part (clean_parts false parts out).
Proof.
  intros Hs. revert out. induction Hs as [|p parts Hp _ IH]; intros out Ho; cbn [clean_parts]; [rewrite rev_app_distr; intros _; split; [done|by apply Forall_rev]|].
  destruct (bool_decide (p = []) || bool_decide (p = dot)) eqn:E; [by apply IH|]. apply orb_false_iff in E as [E1 E2]. b2p.
  case_bool_decide as Ed; [|intros Hh; apply (IH (p :: out)); [by constructor|done]]. destruct Ho as [|q out Hq Ho].
  - intros Hh. exfalso. apply Hh. apply (climb_stays parts []).
  - cbn [app]. destruct Hq as (_ & _ & Hq & _). rewrite (bool_decide_false _ Hq). by apply IH.
Qed.

Lemma Clean_form name : starts_rooted name || negb (climbs name) = true ->
  exists parts, Forall plain_part parts /\ (Clean name = slash :: join_slash parts \/ Clean name = match join_slash parts with [] => dot | r => r end).
Proof.
  unfold Clean. fold (starts_rooted name). destruct (starts_rooted name); cbn [orb].
  - intros _. eexists. split; [|left; reflexivity]. apply rooted_plain; [apply split_parts|constructor].
  - unfold climbs. intros Hc. apply negb_true_iff, bool_decide_eq_false in Hc. eexists. split; [|right; reflexivity].
    apply (stays_below _ [] []); [apply split_parts|constructor|done].
Qed.

Lemma plain_slash parts : Forall plain_part parts -> Forall (fun p => slash ∉ p) parts.
Proof. intros Hl. eapply Forall_impl; [exact Hl|]. by intros p (_ & _ & _ & ?). Qed.
Lemma plain_ok parts : Forall plain_part parts -> Forall part_ok parts.
Proof. intros Hl. eapply Forall_impl; [exact Hl|]. by intros p (? & ? & _ & ?). Qed.
Lemma join_plain_head parts : parts <> [] -> Forall plain_part parts -> exists x s, join_slash parts = x :: s /\ x <> slash.
Proof.
  intros Hl Hall. revert Hl. destruct Hall as [|p l (Hp1 & _ & _ & Hp4) _]; [done|]. intros _. destruct p as [|x p]; [done|]. destruct l; eexists _, _; (split; [reflexivity|]); intros ->; apply Hp4; by left.
Qed.
Lemma clean_plain r parts out : Forall plain_part parts -> clean_parts r parts out = rev out ++ parts.
Proof. intros Hp. rewrite <-(app_nil_r parts) at 1. rewrite keep_parts by done. cbn. by rewrite rev_app_distr, rev_involutive. Qed.

(** Such a path is its own cleaned form. *)
Lemma Clean_fixed parts c : Forall plain_part parts -> c = slash :: join_slash parts \/ c = match join_slash parts with [] => dot | r => r end -> Clean c = c.
Proof.
  intros Hp [->| ->].
  - unfold Clean. rewrite (bool_decide_true (slash = slash)) by done. cbn [split_slash]. rewrite bool_decide_true by done. cbn [clean_parts]. rewrite bool_decide_true by done. cbn [orb].
    destruct parts as [|p parts]; [done|]. rewrite split_join_parts by (done || by apply plain_slash). by rewrite clean_plain.
  - destruct parts as [|p parts]; [done|]. destruct (join_plain_head (p :: parts)) as (x & s & Hx & Hxs); [done..|]. rewrite Hx. cbv iota. unfold Clean.
    rewrite (bool_decide_false (x = slash)) by done. rewrite <-Hx, split_join_parts by (done || by apply plain_slash). rewrite clean_plain by done. cbn [rev app]. by rewrite Hx.
Qed.

Lemma Clean_under rparts c : rparts <> [] -> Forall plain_part rparts ->
  Clean (join_slash rparts ++ slash :: c) = match join_slash (clean_parts false (split_slash c) (rev rparts)) with [] => dot | r => r end.
Proof.
  intros Hne Hr. destruct (join_plain_head rparts Hne Hr) as (x & s & Hx & Hxs). unfold Clean.
  assert (Hrooted : match join_slash rparts ++ slash :: c with [] => false | y :: _ => bool_decide (y = slash) end = false) by (rewrite Hx; cbn; by apply bool_decide_false).
  rewrite Hrooted. rewrite split_app_any, split_join_parts by (done || by apply plain_slash). by rewrite keep_parts, app_nil_r.
Qed.

Lemma join_plain_nonempty parts : parts <> [] -> Forall plain_part parts -> match join_slash parts with [] => dot | r => r end = join_slash parts.
Proof. intros Hne Hp. by destruct (join_plain_head parts Hne Hp) as (x & s & -> & _). Qed.

Lemma Clean_below rparts c parts : rparts <> [] -> Forall plain_part rparts -> Forall plain_part parts -> c = slash :: join_slash parts \/ c = match join_slash parts with [] => dot | r => r end ->
  Clean (join_slash rparts ++ slash :: c) = join_slash (rparts ++ parts).
Proof.
  intros Hne Hr Hp Hc. rewrite Clean_under by done.
  assert (Hrest : clean_parts false (split_slash c) (rev rparts) = rparts ++ parts).
  { rewrite <-(rev_involutive rparts) at 2. destruct parts as [|p parts].
    { rewrite app_nil_r. destruct Hc as [->| ->]; reflexivity. }
    destruct Hc as [->| ->].
    - cbn [split_slash]. rewrite bool_decide_true by done. cbn [clean_parts]. rewrite bool_decide_true by done. cbn [orb].
      rewrite split_join_parts by (done || by apply plain_slash). by apply clean_plain.
    - rewrite join_plain_nonempty by done. rewrite split_join_parts by (done || by apply plain_slash). by apply clean_plain. }
  rewrite Hrest. apply join_plain_nonempty; [by destruct rparts|by apply Forall_app].
Qed.

Lemma join_below rparts parts : rparts <> [] -> join_slash (rparts ++ parts) = join_slash rparts \/ has_prefix (join_slash (rparts ++ parts)) (join_slash rparts ++ [slash]) = true.
Proof.
  intros Hne. destruct parts as [|p parts]; [left; by rewrite app_nil_r|]. right. apply has_prefix_spec. exists (join_slash (p :: parts)). rewrite <-app_assoc.
  induction rparts as [|q rparts IH]; [done|]. destruct rparts as [|q' rparts]; [done|].
  change (join_slash ((q :: q' :: rparts) ++ p :: parts)) with (q ++ slash :: join_slash ((q' :: rparts) ++ p :: parts)). rewrite IH by done.
  change (join_slash (q :: q' :: rparts)) with (q ++ slash :: join_slash (q' :: rparts)). by rewrite <-app_assoc.
Qed.

Lemma Join_root rparts c : rparts <> [] -> Forall plain_part rparts -> Join (join_slash rparts) c = Clean (join_slash rparts ++ slash :: c).
Proof. intros Hne Hr. by destruct (join_plain_head rparts Hne Hr) as (x & s & -> & _). Qed.

(** ** What a folder's listing says of a name *)

Definition is_dir (objs : list subtreeObject) (k : bytes) : Prop := exists o, o ∈ objs /\ has_prefix (so_key o) (k ++ [slash]) = true.
Definition is_file (objs : list subtreeObject) (k : bytes) (o : subtreeObject) : Prop := o ∈ objs /\ so_key o = k.

Lemma cut_app_ge n l c : slash ∉ n -> cut_byte slash (n ++ slash :: l) = Some (n, l) /\ (cut_byte slash c = None <-> slash ∉ c).
Proof.
  intros Hn. split; [by apply cut_byte_app|]. split; [apply cut_byte_none|]. intros Hc. destruct (cut_byte slash c) as [[a b]|] eqn:E; [|done].
  apply cut_byte_some in E as [-> _]. exfalso. apply Hc. apply elem_of_app. right. by left.
Qed.

Lemma folder_entry objs p n : slash ∉ n -> (exists o, o ∈ under p objs /\ folder_of p o = Some n) <-> is_dir objs (p ++ n).
Proof.
  intros Hn. split.
  - intros (o & [Hp Ho]%list_elem_of_filter & Hf). exists o. split; [done|]. apply has_prefix_spec in Hp as [r Hr].
    unfold folder_of, below in Hf. rewrite Hr, drop_app_length in Hf. destruct (cut_byte slash r) as [[a c]|] eqn:E; [|done]. injection Hf as <-.
    apply cut_byte_some in E as [-> _]. rewrite Hr. apply has_prefix_spec. exists c. by rewrite <-!app_assoc.
  - intros (o & Ho & [c Hc]%has_prefix_spec). exists o. rewrite <-!app_assoc in Hc. split.
    + apply list_elem_of_filter. split; [|done]. rewrite Hc. apply has_prefix_app.
    + unfold folder_of, below. rewrite Hc, drop_app_length. cbn [app]. by rewrite cut_byte_app.
Qed.

Lemma elem_of_folders objs p n : n <> [] -> n ∈ folders p objs <-> exists o, o ∈ under p objs /\ folder_of p o = Some n.
Proof. intros Hn. unfold folders. rewrite list_elem_of_filter, list_elem_of_omap. naive_solver. Qed.

Lemma file_entry objs p n o : slash ∉ n -> n <> [] -> is_file objs (p ++ n) o -> fileEntry n o ∈ childrenOf objs p.
Proof.
  intros Hn Hne [Ho Hk]. unfold childrenOf. apply elem_of_app. right.
  assert (Hb : below p o = n) by (unfold below; by rewrite Hk, drop_app_length).
  apply list_elem_of_fmap. exists o. split; [by rewrite Hb|]. apply list_elem_of_filter. split; [by rewrite Hb|]. apply list_elem_of_filter. split.
  - unfold plain, folder_of. rewrite Hb. by rewrite (proj2 (proj2 (cut_app_ge n [] n Hn)) Hn).
  - apply list_elem_of_filter. split; [rewrite Hk; apply has_prefix_app|done].
Qed.

Lemma find_app {A} (f : A -> bool) l1 l2 : find f (l1 ++ l2) = match find f l1 with Some x => Some x | None => find f l2 end.
Proof. induction l1 as [|x l1 IH]; [done|]. cbn. by destruct (f x). Qed.

(** What [resolve] finds in a listing. *)
Lemma find_children objs p n : slash ∉ n -> n <> [] ->
  match find (fun e => bool_decide (ch_name e = n)) (childrenOf objs p) with
  | Some e => match ch_kind e with kindDir => is_dir objs (p ++ n) | kindFile => exists o, is_file objs (p ++ n) o /\ ~ is_dir objs (p ++ n) end
  | None => ~ is_dir objs (p ++ n) /\ forall o, ~ is_file objs (p ++ n) o
  end.
Proof.
  intros Hn Hne. destruct (find _ _) as [e|] eqn:Ef.
  - unfold childrenOf in Ef. rewrite find_app in Ef. destruct (find _ (dirEntry <$> _)) as [d|] eqn:Ed.
    + injection Ef as <-. apply find_some in Ed as [Hd Hnm]. apply bool_decide_eq_true in Hnm. apply list_elem_of_In, list_elem_of_fmap in Hd as (m & -> & Hm).
      cbn in *. subst m. apply elem_of_firsts in Hm as [Hm _]. apply folder_entry; [done|]. by apply elem_of_folders.
    + apply find_some in Ef as [He Hnm]. apply bool_decide_eq_true in Hnm. apply list_elem_of_In in He.
      assert (Hk : ch_kind e = kindFile) by (apply list_elem_of_fmap in He as (o & -> & _); done).
      assert (Hc : e ∈ childrenOf objs p) by (apply elem_of_app; by right). rewrite Hk.
      destruct (elem_of_children_file objs p e Hc Hk) as (o & Ho & Hko & _). rewrite Hnm in Hko. exists o. split; [done|].
      intros Hd. apply folder_entry in Hd; [|done]. apply elem_of_folders in Hd; [|done].
      assert (Hin : In (dirEntry n) (dirEntry <$> firsts [] (folders p objs))).
      { apply list_elem_of_In, list_elem_of_fmap. exists n. split; [done|]. apply elem_of_firsts. split; [done|]. by intros ?%elem_of_nil. }
      pose proof (find_none _ _ Ed _ Hin) as Hf. cbn beta in Hf. by rewrite bool_decide_true in Hf.
  - split.
    + intros Hd. apply folder_entry in Hd; [|done]. apply elem_of_folders in Hd; [|done].
      assert (Hin : In (dirEntry n) (childrenOf objs p)).
      { apply list_elem_of_In, elem_of_app. left. apply list_elem_of_fmap. exists n. split; [done|]. apply elem_of_firsts. split; [done|]. by intros ?%elem_of_nil. }
      pose proof (find_none _ _ Ef _ Hin) as Hf. cbn beta in Hf. by rewrite bool_decide_true in Hf.
    + intros o Hf. apply file_entry in Hf; [|done..]. apply list_elem_of_In in Hf. pose proof (find_none _ _ Ef _ Hf) as Hx. cbn beta in Hx. by rewrite bool_decide_true in Hx.
Qed.

(** ** The bucket *)

(** The listing and the objects are of one bucket; a request that answers has
    taken effect, one that fails may have; reads change nothing. *)
Class StoreLaws `{S3Client} (objects : FWorld -> list subtreeObject) (object : FWorld -> bytes -> option bytes) := {
  stored_object w o : o ∈ objects w -> exists b, object w (so_key o) = Some b /\ so_size o = blen b;
  object_stored w k b : object w k = Some b -> exists o, o ∈ objects w /\ so_key o = k;
  List_objects p d mk t w r w' : ListF p d mk t w = (r, w') -> object w' = object w;
  Head_objects k w r w' : HeadObjectF k w = (r, w') -> object w' = object w;
  Get_objects k rng w r w' : GetObjectF k rng w = (r, w') -> objects w' = objects w;
  Get_absent k w e w' : GetObjectF k None w = (Err e, w') -> isNotFound e = true -> object w k = None;
  Put_ok k b meta w r w' : PutObjectF k b meta w = (r, w') ->
    (object w' = object w /\ objects w' = objects w /\ r <> Ok tt) \/ ((forall x, object w' x = if bool_decide (x = k) then Some b else object w x) /\ changed_at k (objects w) (objects w'));
  Delete_ok k w w' : DeleteObjectF k w = (Ok tt, w') -> (forall x, object w' x = if bool_decide (x = k) then None else object w x) /\ changed_at k (objects w) (objects w');
  Rename_ok src dst w w' : RenameObjectF src dst w = (Ok tt, w') ->
    (exists b, object w src = Some b /\ forall x, object w' x = if bool_decide (x = dst) then Some b else if bool_decide (x = src) then None else object w x) /\
    exists between, changed_at src (objects w) between /\ changed_at dst between (objects w');
}.

(** ** The cache's requests change nothing *)

Section quiet_view.
Context `{S3Client} {X : Type} (view_of : FWorld -> X).
Context (List_quiet : forall p d mk t w r w', ListF p d mk t w = (r, w') -> view_of w' = view_of w).
Context (Head_quiet : forall k w r w', HeadObjectF k w = (r, w') -> view_of w' = view_of w).

Definition quiet {S A} (world : S -> FWorld) (m : io S A) : Prop := forall s r s', m s = (r, s') -> view_of (world s') = view_of (world s).

Lemma quiet_bind {S A B} (world : S -> FWorld) (m : io S A) (f : A -> io S B) : quiet world m -> (forall a, quiet world (f a)) -> quiet world (io_bind m f).
Proof. intros Hm Hf s r s' [(a & s1 & E1 & E2)|(e & E1 & _)]%io_bind_inv; [apply Hm in E1; apply Hf in E2; congruence|by apply Hm in E1]. Qed.
Lemma quiet_attempt {S A} (world : S -> FWorld) (m : io S A) : quiet world m -> quiet world (attempt m).
Proof. intros Hm s r s' (r0 & _ & E)%attempt_inv. by apply Hm in E. Qed.
Lemma quiet_ret {S A} (world : S -> FWorld) (a : A) : quiet world (ret a).
Proof. by intros s r s' [= _ <-]. Qed.
Lemma quiet_gets {S A} (world : S -> FWorld) (f : S -> A) : quiet world (gets f).
Proof. by intros s r s' [= _ <-]. Qed.
Lemma quiet_fail {S A} (world : S -> FWorld) e : quiet world (fail e : io S A).
Proof. by intros s r s' [= _ <-]. Qed.
Lemma quiet_on_cache f : quiet cs_world (on_cache f).
Proof. by intros s r s' [= _ <-]. Qed.
Lemma quiet_on_bucket {A} (m : io FWorld A) : quiet id m -> quiet cs_world (on_bucket m).
Proof. intros Hm s r s'. unfold on_bucket. destruct (m (cs_world s)) as [r0 w0] eqn:E. intros [= _ <-]. by apply Hm in E. Qed.

Lemma quiet_listChildren pages p : quiet id (listChildren pages p).
Proof.
  unfold listChildren. generalize (@None bytes) as t. generalize (@nil childEntry) at 1 as ds. intros ds. generalize (@nil childEntry) as fs. revert ds.
  induction pages as [|n IH]; intros ds fs t; cbn [list_children]; [apply quiet_fail|]. apply quiet_bind; [intros s r s'; apply List_quiet|].
  intros pg. destruct (pg_truncated pg); [apply IH|apply quiet_ret].
Qed.
Lemma quiet_listSubtree pages root mk : quiet id (listSubtree pages root mk).
Proof.
  unfold listSubtree. generalize (@None bytes), (@nil subtreeObject). induction pages as [|n IH]; intros t l; cbn [list_subtree]; [apply quiet_fail|].
  apply quiet_bind; [intros s r s'; apply List_quiet|]. intros pg. destruct (_ && _); [apply quiet_ret|]. destruct (pg_truncated pg); [apply IH|apply quiet_ret].
Qed.

Hint Resolve quiet_bind quiet_attempt quiet_ret quiet_gets quiet_fail quiet_on_cache quiet_on_bucket quiet_listChildren quiet_listSubtree : quiet.

Lemma quiet_listFolder pages p : quiet cs_world (listFolder pages p).
Proof.
  unfold listFolder. apply quiet_bind; [apply quiet_gets|intros g]. apply quiet_bind; [apply quiet_gets|intros [es|]]; [auto with quiet|].
  apply quiet_bind; [apply quiet_on_cache|intros _]. unfold fillFolder. auto 10 with quiet.
Qed.
Lemma quiet_subtree pages p : quiet cs_world (subtree pages p).
Proof.
  unfold subtree. apply quiet_bind; [apply quiet_gets|intros g]. apply quiet_bind; [apply quiet_gets|intros [es|]]; [auto with quiet|].
  apply quiet_bind; [apply quiet_on_cache|intros _]. unfold fillSubtree. apply quiet_bind; [apply quiet_gets|intros mk].
  apply quiet_bind; [auto with quiet|intros [objs tr]]. apply quiet_bind; [apply quiet_on_cache|intros _]. apply quiet_bind; [destruct tr; auto with quiet|auto with quiet].
Qed.
Lemma quiet_list_cached pages p : quiet cs_world (list_cached pages p).
Proof.
  unfold list_cached. apply quiet_bind; [apply quiet_on_cache|intros _]. apply quiet_bind; [apply quiet_gets|intros [root|]]; [|apply quiet_listFolder].
  apply quiet_bind; [apply quiet_attempt, quiet_subtree|intros [st|e]]; [|apply quiet_listFolder]. destruct (sd_truncated st); [apply quiet_listFolder|apply quiet_ret].
Qed.
Lemma quiet_head_cached k nm : quiet cs_world (head_cached k nm).
Proof.
  unfold head_cached, headLoad. apply quiet_bind; [|auto with quiet]. apply quiet_bind; [apply quiet_gets|intros g]. apply quiet_bind; [apply quiet_gets|intros [d|]]; [auto with quiet|].
  apply quiet_bind; [|auto with quiet]. apply quiet_on_bucket. intros s r s'. apply Head_quiet.
Qed.
End quiet_view.

(** ** Lookups *)

Section lookups.
Context `{S3Client} (objects : FWorld -> list subtreeObject) (remaining : bytes -> bool -> option bytes -> list subtreeObject -> list subtreeObject).
Context (object : FWorld -> bytes -> option bytes) (serves : Stream -> bytes -> Prop).
Context `{!ListingLaws objects remaining, !HeadLaws objects, !ObjectLaws object serves, !StoreLaws objects object}.
Context (pages : nat) (top : Z).

(** The cache, if there is one, is honest. *)
Definition good_fs (s : FsSt) : Prop := forall c, st_cache s = Some c -> honest top (objects (st_world s)) c.
(** A call that only looks. *)
Definition looked (s s' : FsSt) : Prop :=
  objects (st_world s') = objects (st_world s) /\ object (st_world s') = object (st_world s) /\ st_temps s' = st_temps s /\ st_bufs s' = st_bufs s /\ good_fs s'.

Lemma fs_looked_refl s : good_fs s -> looked s s.
Proof. intros Hg. split; [done|]. split; [done|]. split; [done|]. by split. Qed.
Lemma fs_looked_trans s1 s2 s3 : looked s1 s2 -> looked s2 s3 -> looked s1 s3.
Proof. intros (A1 & A2 & A3 & A4 & _) (B1 & B2 & B3 & B4 & B5). split; [congruence|]. split; [congruence|]. split; [congruence|]. split; [congruence|done]. Qed.

Lemma looked_client {A} (m : io FWorld A) s r s' : good_fs s -> client m s = (r, s') ->
  (forall w r w', m w = (r, w') -> objects w' = objects w /\ object w' = object w) -> looked s s' /\ m (st_world s) = (r, st_world s').
Proof.
  intros Hg Hr Hm. unfold client in Hr. destruct (m (st_world s)) as [r0 w0] eqn:E. injection Hr as <- <-. destruct (Hm _ _ _ E) as [E1 E2].
  split; [|done]. split; [done|]. split; [done|]. split; [done|]. split; [done|]. intros c Hc. cbn [st_world with_world]. rewrite E1. by apply Hg.
Qed.

Lemma looked_cached {A} (Q : list subtreeObject -> A -> Prop) (m : io CacheSt A) s r s' c : good_fs s -> st_cache s = Some c -> cached m s = (r, s') ->
  keeps objects top Q m -> quiet object cs_world m -> looked s s' /\ (forall a, r = Ok a -> Q (objects (st_world s)) a) /\
  exists cs, m {| cs_world := st_world s; cs_cache := c |} = (r, cs).
Proof.
  intros Hg Hc Hr Hk Hq. unfold cached in Hr. rewrite Hc in Hr. destruct (m {| cs_world := st_world s; cs_cache := c |}) as [r0 cs] eqn:E. injection Hr as <- <-.
  pose proof (Hq _ _ _ E) as Ho. destruct (Hk {| cs_world := st_world s; cs_cache := c |} _ _ (Hg c Hc) E) as [[Hobj Hgood] Hans]. split; [|by split; [|exists cs]].
  split; [done|]. split; [done|]. split; [done|]. split; [done|]. intros c' [= <-]. cbn [st_world with_cache with_world]. exact Hgood.
Qed.

Lemma wrapped_get k rng w r w' : wrapping (GetObjectF k rng) w = (r, w') -> objects w' = objects w /\ object w' = object w.
Proof.
  intros [(a & _ & E)|(e & _ & E)]%wrapping_inv; (split; [by eapply Get_objects|by eapply Get_quiet]).
Qed.
Lemma new_quiet k name head w r w' : newS3ReadFile k name head w = (r, w') -> objects w' = objects w /\ object w' = object w.
Proof.
  unfold newS3ReadFile. destruct head; [by intros [= _ <-]|]. intros [(out & w1 & E & [= _ <-])|(e & E & _)]%io_bind_inv; by apply wrapped_get in E.
Qed.

(** What a lookup by the listing says is true of the bucket. *)
Definition entry_true (objs : list subtreeObject) (k : bytes) (x : option childEntry) : Prop :=
  match x with
  | Some e => match ch_kind e with kindDir => is_dir objs k | kindFile => exists o, is_file objs k o /\ ~ is_dir objs k end
  | None => ~ is_dir objs k /\ forall o, ~ is_file objs k o
  end.

Lemma fs_resolve_spec k s r s' : snd (splitKey k) <> [] -> good_fs s -> resolve pages k s = (r, s') ->
  looked s s' /\ exists info, r = Ok info /\ forall x, info = Some x -> entry_true (objects (st_world s)) k x /\ is_Some (st_cache s').
Proof.
  intros Hb Hg. unfold resolve, gets, io_bind at 1. destruct (st_cache s) as [c|] eqn:Ec.
  2:{ intros [= <- <-]. split; [by apply fs_looked_refl|]. by exists None. }
  destruct (splitKey_spec k) as (Hk & Hns & Hp). destruct (splitKey k) as [p b]. cbn [fst snd] in *. intros Hr.
  apply io_bind_inv in Hr as [(es & s1 & E & Hr)|(e & E & _)]; [|by apply attempt_inv in E as (? & ? & _)]. apply attempt_inv in E as (es0 & [= ->] & E).
  pose proof E as E0. apply (looked_cached (fun objs es => es = childrenOf objs p) (list_cached pages p) s es0 s1 c Hg Ec) in E as (Hl & Hes & _).
  - destruct es0 as [es|e]; injection Hr as <- <-; (split; [done|]); eexists; (split; [done|]); [|done].
    intros x [= <-]. rewrite (Hes es eq_refl). split; [rewrite Hk; by apply find_children|].
    unfold cached in E0. rewrite Ec in E0. destruct (list_cached pages p _) as [r0 cs]. injection E0 as _ <-. by eexists.
  - by apply (list_cached_keeps objects remaining).
  - apply (quiet_list_cached object). intros. by eapply List_objects.
Qed.

Lemma probeDir_spec k s r s' : good_fs s -> probeDir k s = (r, s') -> looked s s' /\
  match r with Ok d => d = true <-> is_dir (objects (st_world s)) k | Err e => bucket_said e end.
Proof.
  intros Hg Hr. unfold probeDir in Hr. apply io_bind_inv in Hr as [(pg & s1 & E & Hr)|(e & E & ->)]; pose proof E as E0;
    apply looked_client in E as [Hl E]; try done; try (intros w r0 w' Ew; split; [by eapply List_ok|by eapply List_objects]).
  2:{ split; [done|]. eexists _, _, _, _, _, _. exact E. }
  injection Hr as <- <-. split; [done|]. apply List_ok in E as [_ (here & later & Hrem & Hlat & Hne & Hc & Hp & _)%(fun f => f pg eq_refl)].
  rewrite remaining_start in Hrem. cbn in Hc, Hp.
  assert (Hhere : here = [] <-> under (k ++ [slash]) (objects (st_world s)) = []).
  { rewrite Hrem. split; [intros Hh|by intros [? _]%app_eq_nil]. subst here. cbn. rewrite Hlat. destruct (pg_truncated pg) eqn:Et; [by destruct Hne|done]. }
  assert (Hd : is_dir (objects (st_world s)) k <-> under (k ++ [slash]) (objects (st_world s)) <> []).
  { unfold is_dir, under. split.
    - intros (o & Ho & Hpre) He. assert (Hin : o ∈ filter (fun o => has_prefix (so_key o) (k ++ [slash]) = true) (objects (st_world s))) by (by apply list_elem_of_filter).
      rewrite He in Hin. by apply elem_of_nil in Hin.
    - fold (under (k ++ [slash]) (objects (st_world s))). destruct (under (k ++ [slash]) (objects (st_world s))) as [|o l] eqn:Ef; [done|]. intros _. exists o.
      assert (Hin : o ∈ under (k ++ [slash]) (objects (st_world s))) by (rewrite Ef; by left). by apply list_elem_of_filter in Hin as [? ?]. }
  rewrite Hd, <-Hhere. destruct here as [|o here]; [by rewrite Hc, Hp|]. split; [done|intros _].
  assert (Hor : pg_contents pg <> [] \/ pg_prefixes pg <> []).
  { rewrite Hc, Hp, (filter_cons (fun o => plain (k ++ [slash]) o = true)). destruct (folder_of (k ++ [slash]) o) as [n|] eqn:Ef.
    - right. cbn [omap list_omap]. rewrite Ef. cbn [firsts]. by rewrite (bool_decide_false (n ∈ [])) by apply not_elem_of_nil.
    - left. by rewrite decide_True by (unfold plain; by rewrite Ef). }
  destruct Hor as [Hn|Hn]; rewrite (bool_decide_false _ Hn); [done|]. apply orb_true_r.
Qed.

(** ** Opening *)

(** An error of a request. *)
Definition request_error (e : goerr) : Prop := (exists e', e = Wrapf e' /\ bucket_error e') \/ bucket_said e.

(** What opening [k] answers in a bucket, in the world it leaves. *)
Definition opened (w : FWorld) (k : bytes) (w' : FWorld) (r : gores File) : Prop :=
  match r with
  | Ok (ReadFile f) => exists b, object w k = Some b /\ lazily object serves k b {| m_pos := 0; m_closed := false |} (f, w')
  | Ok (DirFile d) => d = newS3DirFile k /\ is_dir (objects w) k
  | Ok _ => False
  | Err e => (e = pathNotExist /\ object w k = None /\ ~ is_dir (objects w) k) \/ request_error e
  end.

Lemma openLive_spec k name s r s' : good_fs s -> openLive k name s = (r, s') -> looked s s' /\ opened (st_world s) k (st_world s') r.
Proof.
  intros Hg Hr. unfold openLive in Hr. apply io_bind_inv in Hr as [(f & s1 & E & Hr)|(e & E & _)]; [|by apply attempt_inv in E as (? & ? & _)].
  apply attempt_inv in E as (f0 & [= ->] & E). apply looked_client in E as [Hl E]; [|done|apply new_quiet].
  destruct f0 as [f|e].
  - injection Hr as <- <-. split; [done|]. cbn [opened]. pose proof E as E0. unfold newS3ReadFile in E0. apply io_bind_ok in E0 as (out & w1 & Eg & _).
    apply wrapping_inv in Eg as [(out' & [= <-] & Eg)|(e & [=] & _)]. apply Get_whole in Eg as (b & Hb & _). exists b. split; [done|]. refine (new_lazily object serves k b name None (st_world s) f _ Hb _ E). discriminate.
  - assert (He : exists e', e = Wrapf e' /\ exists w', GetObjectF k None (st_world s) = (Err e', w')).
    { unfold newS3ReadFile in E. apply io_bind_inv in E as [(out & w1 & _ & [=])|(e0 & Eg & [= <-])]. apply wrapping_inv in Eg as [(? & [=] & _)|(e' & [= ->] & Eg)]. eauto. }
    destruct He as (e' & -> & w' & Eg). change (isNotFound (Wrapf e')) with (isNotFound e') in Hr. destruct (isNotFound e') eqn:En.
    + pose proof Hl as (Ho1 & Ho2 & _ & _ & Hg1). apply io_bind_inv in Hr as [(d & s2 & Ep & Hr)|(e & Ep & ->)]; apply probeDir_spec in Ep as [Hl2 Hd]; try done.
      * rewrite Ho1 in Hd. pose proof (fs_looked_trans _ _ _ Hl Hl2) as Hl3. destruct d; injection Hr as <- <-; (split; [done|]).
        -- split; [done|]. by apply Hd.
        -- left. split; [done|]. split; [by eapply Get_absent|]. intros Hdir. by apply Hd in Hdir.
      * split; [by eapply fs_looked_trans|]. right. by right.
    + injection Hr as <- <-. split; [done|]. right. left. exists e'. split; [done|]. left. by exists k, None, (st_world s), w'.
Qed.

Lemma head_cached_looked k nm s r s' c : good_fs s -> st_cache s = Some c -> cached (head_cached k nm) s = (r, s') -> looked s s' /\
  match r with
  | Ok ho => exists o, is_file (objects (st_world s)) k o /\ h_size ho = so_size o /\ h_mtime ho = so_mtime o
  | Err e => isNotFound e = true -> forall o, ~ is_file (objects (st_world s)) k o
  end.
Proof.
  intros Hg Hc Hr. apply (looked_cached (fun objs ho => exists o, is_file objs k o /\ h_size ho = so_size o /\ h_mtime ho = so_mtime o) _ s r s' c Hg Hc) in Hr as (Hl & Hans & cs & E).
  - split; [done|]. destruct r as [ho|e]; [by apply Hans|]. intros Hn o [Ho Hk]. revert Hk. unfold head_cached in E.
    apply io_bind_inv in E as [(d & s1 & _ & [=])|(e0 & E & [= ->])]. apply (headLoad_error objects) in E as [_ E]. by apply E.
  - intros s0 r0 s0' Hg0 E. unfold head_cached in E. apply io_bind_inv in E as [(d & s1 & E & E1)|(e & E & ->)].
    + injection E1 as <- <-. apply (headLoad_keeps objects top k nm) in E as [Hk Hd]; [|done]. split; [done|].
      intros ho [= <-]. destruct (Hd d eq_refl) as (o & Ho & Hko & Hs & Hm). exists o. by repeat split.
    + by apply (headLoad_keeps objects top k nm) in E as [Hk Hd].
  - apply (quiet_head_cached object). intros. by eapply Head_objects.
Qed.

Lemma file_object w k o : is_file (objects w) k o -> exists b, object w k = Some b /\ so_size o = blen b.
Proof. intros [Ho <-]. by apply stored_object. Qed.
Lemma no_object w k : (forall o, ~ is_file (objects w) k o) -> object w k = None.
Proof. intros Hn. destruct (object w k) as [b|] eqn:E; [|done]. apply object_stored in E as (o & Ho & Hk). by destruct (Hn o). Qed.

Lemma opened_looked w1 w2 k w' r : objects w1 = objects w2 -> object w1 = object w2 -> opened w1 k w' r -> opened w2 k w' r.
Proof. intros E1 E2. unfold opened. by rewrite E1, E2. Qed.

Lemma openRead_spec fs name s r s' : good_fs s -> is_root (key fs name) = false -> st_temps s !! key fs name = None -> openRead pages fs name s = (r, s') ->
  looked s s' /\ opened (st_world s) (key fs name) (st_world s') r.
Proof.
  intros Hg Hroot Ht Hr. unfold openRead in Hr. rewrite Hroot in Hr. unfold lookupTemp, gets, io_bind at 1 in Hr. rewrite Ht in Hr.
  set (k := key fs name) in *. pose proof (key_base _ _ Hroot : snd (splitKey k) <> []) as Hb.
  apply io_bind_inv in Hr as [(info & s1 & E & Hr)|(e & E & _)]; apply fs_resolve_spec in E as [Hl (info' & [=] & Hinfo)]; try done. subst info'.
  pose proof Hl as (Ho1 & Ho2 & _ & _ & Hg1). assert (Hback : forall w' r, opened (st_world s1) k w' r -> opened (st_world s) k w' r) by (intros w' r'; by apply opened_looked).
  assert (Hlive : forall s2 r s', looked s1 s2 -> openLive k name s2 = (r, s') -> looked s s' /\ opened (st_world s) k (st_world s') r).
  { intros s2 r2 s2' Hl2 Eo. pose proof Hl2 as (P1 & P2 & _ & _ & P5). apply openLive_spec in Eo as [Hl3 Ho]; [|done].
    split; [eapply fs_looked_trans; [exact Hl|]; by eapply fs_looked_trans|]. apply Hback. by eapply opened_looked. }
  destruct info as [[e|]|]; [| |by apply (Hlive s1); [apply fs_looked_refl|]]; destruct (Hinfo _ eq_refl) as [Htrue [c Hc]]; cbn in Htrue.
  - destruct (ch_kind e).
    + apply io_bind_inv in Hr as [(ho & s2 & E & Hr)|(e' & E & _)]; [|by apply attempt_inv in E as (? & ? & _)]. apply attempt_inv in E as (ho' & [= ->] & E).
      apply (head_cached_looked k _ s1 ho' s2 c Hg1 Hc) in E as [Hl2 Hh]. destruct ho' as [ho|e'].
      * apply io_bind_inv in Hr as [(f & s3 & E & Hr)|(e0 & E & ->)]; (apply looked_client in E as [Hl3 E]; [|apply Hl2|apply new_quiet]); [|done].
        injection Hr as <- <-. split; [eapply fs_looked_trans; [exact Hl|]; by eapply fs_looked_trans|]. destruct Hh as (o & Ho & Hsz & _). rewrite Ho1 in Ho.
        destruct (file_object _ _ _ Ho) as (b & Hob & Hlen). exists b. split; [done|].
        refine (new_lazily object serves k b name (Some ho) (st_world s2) f _ _ _ E); [by rewrite (proj1 (proj2 Hl2)), Ho2|]. intros h [= <-]. by rewrite Hsz.
      * destruct (isNotFound e') eqn:En; [|by apply (Hlive s2)]. exfalso. destruct Htrue as (o & Ho & _). rewrite <-Ho1 in Ho. by apply (Hh eq_refl o).
    + injection Hr as <- <-. split; [done|]. by split.
  - injection Hr as <- <-. split; [done|]. left. destruct Htrue as [Hd Hf]. split; [done|]. split; [by apply no_object|done].
Qed.

(** *** Telling of a name *)

Definition told (fs : S3FS) (w : FWorld) (k : bytes) (r : gores simpleFileInfo) : Prop :=
  match r with
  | Ok fi => (exists o ho, is_file (objects w) k o /\ h_size ho = so_size o /\ h_mtime ho = so_mtime o /\ fi = newFileInfoFromHead (pathBase k) ho (fs_unixMeta fs)) \/
             (is_dir (objects w) k /\ exists t, fi = newDirInfo (pathBase k) t)
  | Err e => (e = pathNotExist /\ object w k = None /\ ~ is_dir (objects w) k) \/ bucket_said e \/ exists w1 w2, HeadObjectF k w1 = (Err e, w2)
  end.

Lemma statLive_spec fs k s r s' : good_fs s -> statLive fs k s = (r, s') -> looked s s' /\ told fs (st_world s) k r.
Proof.
  intros Hg Hr. unfold statLive in Hr. apply io_bind_inv in Hr as [(ho & s1 & E & Hr)|(e & E & _)]; [|by apply attempt_inv in E as (? & ? & _)].
  apply attempt_inv in E as (ho' & [= ->] & E). apply looked_client in E as [Hl E]; [|done|intros w r0 w' Ew; split; [by eapply Head_ok|by eapply Head_objects]].
  pose proof E as Eh. apply Head_ok in E as [_ Hans]. destruct ho' as [ho|e].
  - injection Hr as <- <-. split; [done|]. left. destruct Hans as (o & Ho & Hk & Hs & Hm). by exists o, ho.
  - destruct (isNotFound e) eqn:En; [|injection Hr as <- <-; split; [done|]; right; right; by eexists _, _].
    pose proof Hl as (Ho1 & Ho2 & _ & _ & Hg1). apply io_bind_inv in Hr as [(d & s2 & Ep & Hr)|(e' & Ep & ->)]; apply probeDir_spec in Ep as [Hl2 Hd]; try done.
    2:{ split; [by eapply fs_looked_trans|]. right. by left. }
    rewrite Ho1 in Hd. pose proof (fs_looked_trans _ _ _ Hl Hl2) as Hl3. unfold now, gets, io_bind at 1 in Hr. destruct d; injection Hr as <- <-; (split; [done|]).
    + right. split; [by apply Hd|]. by eexists.
    + left. split; [done|]. split; [apply no_object; intros o [Ho Hk]; by apply (Hans eq_refl o)|]. intros Hdir. by apply Hd in Hdir.
Qed.

Lemma fs_Stat_spec fs name s r s' : good_fs s -> is_root (key fs name) = false -> st_temps s !! key fs name = None -> fs_Stat pages fs name s = (r, s') ->
  looked s s' /\ told fs (st_world s) (key fs name) r.
Proof.
  intros Hg Hroot Ht Hr. unfold fs_Stat, now, gets, io_bind at 1 in Hr. rewrite Hroot in Hr. unfold lookupTemp, gets, io_bind at 1 in Hr. rewrite Ht in Hr.
  set (k := key fs name) in *. pose proof (key_base _ _ Hroot : snd (splitKey k) <> []) as Hb.
  apply io_bind_inv in Hr as [(info & s1 & E & Hr)|(e & E & _)]; apply fs_resolve_spec in E as [Hl (info' & [=] & Hinfo)]; try done. subst info'.
  pose proof Hl as (Ho1 & Ho2 & _ & _ & Hg1).
  assert (Hlive : forall s2 r s', looked s1 s2 -> statLive fs k s2 = (r, s') -> looked s s' /\ told fs (st_world s) k r).
  { intros s2 r2 s2' Hl2 Eo. pose proof (fs_looked_trans _ _ _ Hl Hl2) as Hl3. pose proof Hl3 as (P1 & P2 & _ & _ & P5). apply statLive_spec in Eo as [Hl4 Ho]; [|done].
    split; [by eapply fs_looked_trans|]. unfold told in *. by rewrite P1, P2 in Ho. }
  destruct info as [[e|]|]; [| |by apply (Hlive s1); [apply fs_looked_refl|]]; destruct (Hinfo _ eq_refl) as [Htrue [c Hc]]; cbn in Htrue.
  - destruct (ch_kind e).
    + apply io_bind_inv in Hr as [(ho & s2 & E & Hr)|(e' & E & _)]; [|by apply attempt_inv in E as (? & ? & _)]. apply attempt_inv in E as (ho' & [= ->] & E).
      apply (head_cached_looked k _ s1 ho' s2 c Hg1 Hc) in E as [Hl2 Hh]. destruct ho' as [ho|e'].
      * injection Hr as <- <-. split; [by eapply fs_looked_trans|]. left. destruct Hh as (o & Ho & Hs & Hm). rewrite Ho1 in Ho. by exists o, ho.
      * destruct (isNotFound e') eqn:En; [|by apply (Hlive s2)]. exfalso. destruct Htrue as (o & Ho & _). rewrite <-Ho1 in Ho. by apply (Hh eq_refl o).
    + injection Hr as <- <-. split; [done|]. right. split; [done|]. by eexists.
  - injection Hr as <- <-. split; [done|]. left. destruct Htrue as [Hd Hf]. split; [done|]. split; [by apply no_object|done].
Qed.
End lookups.

(** ** Listing a directory *)

Section readdir.
Context `{S3Client} (objects : FWorld -> list subtreeObject) (remaining : bytes -> bool -> option bytes -> list subtreeObject -> list subtreeObject).
Context (object : FWorld -> bytes -> option bytes) (serves : Stream -> bytes -> Prop).
Context `{!ListingLaws objects remaining, !HeadLaws objects, !ObjectLaws object serves, !StoreLaws objects object}.
Context (pages : nat) (top : Z).

Lemma fs_ReadDir_spec fs name s r s' : good_fs objects top s -> is_root (key fs name) = false -> (length (objects (st_world s)) < pages)%nat ->
  fs_ReadDir pages fs name s = (r, s') -> looked objects object top s s' /\
  match r with
  | Ok fis => exists t, fis = (fun e => match ch_kind e with kindDir => newDirInfo (ch_name e) t | kindFile => newFileInfo (ch_name e) (ch_size e) (ch_mtime e) end) <$>
                              childrenOf (objects (st_world s)) (key fs name ++ [slash])
  | Err e => bucket_said e
  end.
Proof.
  intros Hg Hroot Hp Hr. unfold fs_ReadDir, gets, io_bind at 1 in Hr. rewrite Hroot in Hr. set (p := key fs name ++ [slash]) in *.
  assert (Hent : forall es s1, (match st_cache s with Some _ => cached (list_cached pages p) | None => client (listChildren pages p) end) s = (es, s1) ->
    looked objects object top s s1 /\ match es with Ok es => es = childrenOf (objects (st_world s)) p | Err e => bucket_said e end).
  { intros es s1 E. destruct (st_cache s) as [c|] eqn:Ec.
    - assert (Hpr : proper p) by (right; by exists (key fs name)).
      apply (looked_cached objects object top (fun objs es => es = childrenOf objs p) _ s es s1 c Hg Ec) in E as (Hl & Hes & cs & E).
      + split; [done|]. destruct es as [es|e]; [by apply Hes|]. eapply (list_cached_error objects remaining pages top p e); [done| |exact E|done]. by apply Hg.
      + by apply (list_cached_keeps objects remaining).
      + apply (quiet_list_cached object). intros. by eapply List_objects.
    - apply (looked_client objects object top) in E as [Hl E]; [|done|].
      + split; [done|]. destruct es as [es|e]; [by apply (listChildren_spec objects remaining) in E as [_ ->]|]. by eapply (listChildren_ends objects remaining) in E.
      + intros w r0 w' Ew. split; [by eapply (listChildren_quiet objects remaining)|]. eapply (quiet_listChildren object); [|exact Ew]. intros. by eapply List_objects. }
  apply io_bind_inv in Hr as [(es & s1 & E & Hr)|(e & E & ->)]; apply Hent in E as [Hl Hes]; [|done].
  injection Hr as <- <-. split; [done|]. exists (NowF (st_world s1)). by rewrite Hes.
Qed.
End readdir.

(** ** Writes *)

(** Writing the pieces [ps] to a new file and closing it. *)
Fixpoint wf_write_all `{S3Client} (ps : list bytes) : io (s3WriteFile * FsSt) unit :=
  match ps with [] => ret tt | p :: ps' => do! wf_Write p in wf_write_all ps' end.
Definition write_file `{S3Client} (pages : nat) (fs : S3FS) (name : bytes) (ps : list bytes) : io FsSt unit :=
  let! f := fs_Create pages fs name in
  match f with
  | WriteFile f => fun s => let '(r, (_, s')) := (do! wf_write_all ps in wf_Close fs) (f, s) in (r, s')
  | _ => fail Panic
  end.

Fixpoint tw_write_all `{S3Client} (ps : list bytes) : io (tempWriteFile * FsSt) unit :=
  match ps with [] => ret tt | p :: ps' => do! tw_Write p in tw_write_all ps' end.

Section writes.
Context `{S3Client} (objects : FWorld -> list subtreeObject) (remaining : bytes -> bool -> option bytes -> list subtreeObject -> list subtreeObject).
Context (object : FWorld -> bytes -> option bytes) (serves : Stream -> bytes -> Prop).
Context `{!ListingLaws objects remaining, !HeadLaws objects, !ObjectLaws object serves, !StoreLaws objects object}.
Context (pages : nat) (top : Z).

(** [k] holds [b] now and every other key what it held. *)
Definition put (w : FWorld) (k b : bytes) (w' : FWorld) : Prop := forall x, object w' x = if bool_decide (x = k) then Some b else object w x.

Lemma put_lands k b meta s s' : good_fs objects top s -> top + 1 < 2 ^ 64 ->
  (do! client (wrapping (PutObjectF k b meta)) in invalidateFs (fst (splitKey k))) s = (Ok tt, s') ->
  put (st_world s) k b (st_world s') /\ good_fs objects (top + 1) s' /\ st_temps s' = st_temps s /\ st_bufs s' = st_bufs s.
Proof.
  intros Hg Ht ([] & s1 & E & Hr)%io_bind_ok. unfold client in E. destruct (wrapping _ (st_world s)) as [r0 w1] eqn:Ep. injection E as -> <-. injection Hr as <-.
  apply wrapping_inv in Ep as [([] & _ & Ep)|(e & [=] & _)]. apply Put_ok in Ep as [(_ & _ & Hn)|[Hp Hc]]; [done|]. split; [exact Hp|]. split; [|done].
  intros c' Hc'. cbn in Hc'. destruct (st_cache s) as [c|] eqn:Ec; [|done]. injection Hc' as <-. cbn [st_world with_cache with_world].
  eapply honest_invalidate; [by apply Hg|exact Hc|apply covers_own|apply splitKey_spec|done].
Qed.

Lemma wf_write_all_spec ps f s : wf_closed f = false ->
  wf_write_all ps (f, s) = (Ok tt, ({| wf_key := wf_key f; wf_name := wf_name f; wf_closed := false; wf_buf := wf_buf f ++ concat ps |}, s)).
Proof.
  revert f. induction ps as [|p ps IH]; intros f Hf; cbn [wf_write_all concat]; [rewrite app_nil_r; destruct f; cbn in *; by subst|].
  unfold wf_Write, self, gets, io_bind at 1 2. cbn [fst]. rewrite Hf. cbn. rewrite IH by done. cbn. by rewrite <-app_assoc.
Qed.

Lemma written_file_lands fs name ps s s' : good_fs objects top s -> top + 1 < 2 ^ 64 -> write_file pages fs name ps s = (Ok tt, s') ->
  put (st_world s) (key fs name) (concat ps) (st_world s') /\ good_fs objects (top + 1) s' /\ st_temps s' = st_temps s /\ st_bufs s' = st_bufs s.
Proof.
  intros Hg Ht Hr. unfold write_file, fs_Create, OpenFile in Hr. change (Z.land O_WRONLY SupportedOFlags) with 1 in Hr. change (1 =? O_WRONLY) with true in Hr.
  change (1 =? O_RDONLY) with false in Hr. cbn [negb] in Hr. unfold io_bind at 1, ret at 1 in Hr.
  destruct ((do! wf_write_all ps in wf_Close fs) _) as [r [f' s1]] eqn:E. injection Hr as -> ->. unfold io_bind at 1 in E. rewrite wf_write_all_spec in E by done.
  cbn [wf_key wf_name wf_buf app] in E. unfold wf_Close, self, gets, io_bind at 1 in E. cbn [fst wf_closed wf_key wf_buf wf_name] in E.
  unfold io_bind at 1, set_self, modify in E. cbn [fst snd wf_key wf_buf wf_name] in E. unfold io_bind at 1, on_fs at 1, now, gets in E. cbn [fst snd] in E.
  apply (put_lands _ _ (newFileMetadata (fs_unixMeta fs) (NowF (st_world s)))); [done..|]. unfold io_bind in E |- *. unfold on_fs in E. cbn [fst snd] in E.
  destruct (client _ s) as [[[]|e] s2]; [|done]. by injection E as _ <-.
Qed.

Lemma tw_write_all_spec ps f s b : tw_closed f = false -> st_bufs s !! tw_buf f = Some b ->
  tw_write_all ps (f, s) = (Ok tt, (f, with_bufs (<[tw_buf f := b ++ concat ps]> (st_bufs s)) s)).
Proof.
  intros Hf. revert s b. induction ps as [|p ps IH]; intros s b Hb; cbn [tw_write_all concat].
  - rewrite app_nil_r. rewrite list_insert_id by done. by destruct s.
  - unfold tw_Write, self, gets, io_bind at 1 2. cbn [fst]. rewrite Hf. unfold on_fs, buf_write, the_buf, gets, modify, io_bind. cbn [fst snd ret]. rewrite Hb.
    cbn [default from_option]. rewrite (IH _ (b ++ p)); [|cbn; apply list_lookup_insert_eq; by eapply lookup_lt_Some].
    cbn. by rewrite list_insert_insert_eq, <-app_assoc.
Qed.

Lemma temp_file_spec fs random dir prefix s f s1 : TempFile fs random dir prefix s = (Ok (TempWriteFile f), s1) ->
  tw_closed f = false /\ st_world s1 = st_world s /\ st_cache s1 = st_cache s /\ st_temps s1 !! key fs (tw_name f) = Some (tw_buf f) /\ st_bufs s1 !! tw_buf f = Some [].
Proof.
  unfold TempFile, wrapping, lift. unfold io_bind at 1. destruct random as [b|e]; [|done]. unfold registerTemp, gets, modify, io_bind, ret. cbn [st_bufs with_bufs].
  intros [= <- <-]. cbn. split; [done|]. split; [done|]. split; [done|]. split; [apply lookup_insert_eq|]. by rewrite list_lookup_middle.
Qed.

(** A temporary file, written, read while it is written, and renamed. *)
Lemma temp_reads i b n off s : st_bufs s !! i = Some b -> buf_readAt i n off s =
  (if off <? 0 then Err Errorf else if blen b <=? off then Err (Sent EOF) else Ok (take (Z.to_nat n) (drop (Z.to_nat off) b)), s).
Proof. intros Hb. unfold buf_readAt, the_buf, gets. destruct (off <? 0); [done|]. unfold io_bind. rewrite Hb. cbn. by destruct (blen b <=? off). Qed.

Lemma temp_opens fs name i s : is_root (key fs name) = false -> st_temps s !! key fs name = Some i ->
  fs_Open pages fs name s = (Ok (TempReadFile {| tr_buf := i; tr_name := name; tr_pos := 0; tr_closed := false |}), s).
Proof. intros Hroot Ht. change (fs_Open pages fs name s) with (openRead pages fs name s). unfold openRead. rewrite Hroot. unfold lookupTemp, gets. unfold io_bind at 1. by rewrite Ht. Qed.

Lemma temp_lands fs old new i b s s' : good_fs objects top s -> top + 1 < 2 ^ 64 -> st_temps s !! key fs old = Some i -> st_bufs s !! i = Some b ->
  fs_Rename fs old new s = (Ok tt, s') ->
  put (st_world s) (key fs new) b (st_world s') /\ good_fs objects (top + 1) s' /\ st_temps s' = delete (key fs old) (st_temps s).
Proof.
  intros Hg Ht Htmp Hb Hr. unfold fs_Rename, detachTemp, gets, modify, io_bind at 1 2 3 in Hr. rewrite Htmp in Hr. cbn [ret] in Hr.
  unfold the_buf, gets, io_bind at 1 in Hr. cbn [st_bufs with_temps] in Hr. rewrite Hb in Hr. cbn [default from_option id] in Hr.
  apply put_lands in Hr as (Hp & Hg' & Htm & _); [|exact Hg|done]. split; [exact Hp|]. by split.
Qed.
(** *** Renaming, removing, making a directory *)

Lemma client_ok (m : io FWorld unit) s s' : client (wrapping m) s = (Ok tt, s') -> exists w', m (st_world s) = (Ok tt, w') /\ s' = with_world w' s.
Proof.
  unfold client. destruct (wrapping m (st_world s)) as [r0 w1] eqn:E. intros [= -> <-]. exists w1. split; [|done].
  by apply wrapping_inv in E as [([] & _ & E)|(e & [=] & _)].
Qed.

Lemma rename_lands fs old new s s' : good_fs objects top s -> top + 2 < 2 ^ 64 -> st_temps s !! key fs old = None -> fs_Rename fs old new s = (Ok tt, s') ->
  (exists b, object (st_world s) (key fs old) = Some b /\
     forall x, object (st_world s') x = if bool_decide (x = key fs new) then Some b else if bool_decide (x = key fs old) then None else object (st_world s) x) /\
  good_fs objects (top + 2) s' /\ st_temps s' = st_temps s.
Proof.
  intros Hg Ht Htmp Hr. unfold fs_Rename, detachTemp, gets, modify, io_bind at 1 2 3 in Hr. rewrite Htmp in Hr. cbn [ret] in Hr.
  apply io_bind_ok in Hr as ([] & s1 & (w' & E & ->)%client_ok & Hr). injection Hr as <-. cbn in *. apply Rename_ok in E as [Hb (between & H1 & H2)].
  split; [exact Hb|]. split; [|by apply delete_id]. intros c Hc. cbn in Hc |- *. destruct (st_cache s) as [c0|] eqn:Ec; [|done]. injection Hc as <-.
  replace (top + 2) with (top + 1 + 1) by lia. eapply honest_invalidate; [|exact H2|apply covers_own|apply splitKey_spec|lia].
  eapply honest_invalidate; [by apply Hg|exact H1|apply covers_own|apply splitKey_spec|lia].
Qed.

Lemma remove_lands fs name s s' : good_fs objects top s -> top + 2 < 2 ^ 64 -> st_temps s !! key fs name = None -> fs_Remove fs name s = (Ok tt, s') ->
  (forall x, object (st_world s') x = if bool_decide (x = key fs name) then None else object (st_world s) x) /\ good_fs objects (top + 2) s' /\ st_temps s' = st_temps s.
Proof.
  intros Hg Ht Htmp Hr. unfold fs_Remove, detachTemp, gets, modify, io_bind at 1 2 3 in Hr. rewrite Htmp in Hr. cbn [ret] in Hr.
  apply io_bind_ok in Hr as ([] & s1 & (w' & E & ->)%client_ok & Hr). injection Hr as <-. cbn in *. apply Delete_ok in E as [Hb H1].
  split; [exact Hb|]. split; [|by apply delete_id]. intros c Hc. cbn in Hc |- *. destruct (st_cache s) as [c0|] eqn:Ec; [|done]. injection Hc as <-.
  apply (honest_up (top + 1)); [lia|]. eapply honest_invalidate; [by apply Hg|exact H1|apply covers_own|apply splitKey_spec|lia].
Qed.

Lemma mkdir_lands fs name s s' : good_fs objects top s -> top + 2 < 2 ^ 64 -> is_root (key fs name) = false -> object (st_world s) (key fs name ++ [slash]) = None ->
  MkdirAll fs name s = (Ok tt, s') ->
  put (st_world s) (key fs name ++ [slash]) [] (st_world s') /\ is_dir (objects (st_world s')) (key fs name) /\ good_fs objects (top + 2) s' /\ st_temps s' = st_temps s.
Proof.
  intros Hg Ht Hroot Hnew Hr. unfold MkdirAll in Hr. rewrite Hroot in Hr. apply io_bind_ok in Hr as ([] & s1 & E & Hr). injection Hr as <-.
  unfold client in E. destruct (PutObjectF _ _ _ (st_world s)) as [r0 w'] eqn:Ep. injection E as -> <-. cbn. apply Put_ok in Ep as [(_ & _ & Hn)|[Hp Hc]]; [done|].
  split; [exact Hp|]. split.
  - assert (Hk : object w' (key fs name ++ [slash]) = Some []) by (rewrite Hp; by rewrite bool_decide_true). apply object_stored in Hk as (o & Ho & Hk).
    exists o. split; [done|]. rewrite Hk. apply has_prefix_spec. exists []. by rewrite app_nil_r.
  - split; [|done]. intros c Hcs. cbn in Hcs |- *. destruct (st_cache s) as [c0|] eqn:Ec; [|done]. injection Hcs as <-.
    apply (honest_up (top + 1)); [lia|]. eapply honest_invalidate; [by apply Hg|exact Hc| |apply splitKey_spec|lia].
    apply covers_marker. intros o Ho Hk. apply stored_object in Ho as (b & Hb & _). rewrite Hk, Hnew in Hb. done.
Qed.
End writes.

(** ** Properties *)

Section properties.
Context `{S3Client} (objects : FWorld -> list subtreeObject) (remaining : bytes -> bool -> option bytes -> list subtreeObject -> list subtreeObject).
Context (object : FWorld -> bytes -> option bytes) (serves : Stream -> bytes -> Prop).
Context `{!ListingLaws objects remaining, !HeadLaws objects, !ObjectLaws object serves, !StoreLaws objects object}.
Context (pages : nat) (top : Z).

(** C31: A name that is not a temporary file is found as what the bucket holds under
    its key, whether the filesystem has a listing cache (that so far answers
    truly) or none: opening gives a reader of the object's bytes, or a directory
    if objects lie below the name, and says that it does not exist only if there is
    neither; [Stat] tells the object's size and time, or a directory, under the same
    condition; a directory's listing is its immediate children. Any other error is one
    of a request, and nothing is changed. *)
Theorem names_tell_the_bucket fs name s (Hg : good_fs objects top s) (Hroot : is_root (key fs name) = false) (Ht : st_temps s !! key fs name = None)
    (Hpages : (length (objects (st_world s)) < pages)%nat) :
  (exists r s', fs_Open pages fs name s = (r, s') /\ looked objects object top s s' /\ opened objects object serves (st_world s) (key fs name) (st_world s') r) /\
  (exists r s', fs_Stat pages fs name s = (r, s') /\ looked objects object top s s' /\ told objects object fs (st_world s) (key fs name) r) /\
  (exists r s', fs_ReadDir pages fs name s = (r, s') /\ looked objects object top s s' /\
    match r with
    | Ok fis => exists t, fis = (fun e => match ch_kind e with kindDir => newDirInfo (ch_name e) t | kindFile => newFileInfo (ch_name e) (ch_size e) (ch_mtime e) end) <$>
                                childrenOf (objects (st_world s)) (key fs name ++ [slash])
    | Err e => bucket_said e
    end).
Proof.
  split; [|split].
  - destruct (fs_Open pages fs name s) as [r s'] eqn:E. exists r, s'. split; [done|]. by apply (openRead_spec objects remaining object serves pages top fs name s).
  - destruct (fs_Stat pages fs name s) as [r s'] eqn:E. exists r, s'. split; [done|]. by eapply fs_Stat_spec.
  - destruct (fs_ReadDir pages fs name s) as [r s'] eqn:E. exists r, s'. split; [done|]. by eapply fs_ReadDir_spec.
Qed.

(** [b] has been written to [k]: by a file that was closed, or by renaming a
    temporary file. *)
Definition written (k b : bytes) (s s' : FsSt) : Prop :=
  (exists fs name ps, write_file pages fs name ps s = (Ok tt, s') /\ k = key fs name /\ b = concat ps) \/
  (exists fs old new i, st_temps s !! key fs old = Some i /\ st_bufs s !! i = Some b /\ fs_Rename fs old new s = (Ok tt, s') /\ k = key fs new).

Lemma written_lands k b s s' : good_fs objects top s -> top + 1 < 2 ^ 64 -> written k b s s' -> put object (st_world s) k b (st_world s') /\ good_fs objects (top + 1) s'.
Proof.
  intros Hg Htop [(fs & name & ps & Hw & -> & ->)|(fs & old & new & i & Ht & Hb & Hr & ->)].
  - eapply written_file_lands in Hw as (Hp & Hg' & _); [by split|done..].
  - eapply temp_lands in Hr as (Hp & Hg' & _); [by split|done..].
Qed.

(** C32: What was written is read. After a file was written piece by piece and closed,
    or a temporary file renamed, without an error, the key holds exactly those bytes
    and no other key changed, and any filesystem that reaches the key (with no
    temporary file of that name, and no folder) opens the bytes or fails with an
    error of a request. Until then a temporary file is in the bucket nowhere, but can
    be opened under its name while it is written, and reads as what was written so
    far. *)
Theorem written_bytes_are_read s (Hg : good_fs objects top s) (Htop : top + 1 < 2 ^ 64) :
  (forall k b s' fs' name', written k b s s' -> key fs' name' = k -> is_root k = false -> st_temps s' !! k = None -> ~ is_dir (objects (st_world s')) k ->
    (forall x, object (st_world s') x = if bool_decide (x = k) then Some b else object (st_world s) x) /\
    exists r s'', fs_Open pages fs' name' s' = (r, s'') /\
      match r with
      | Ok (ReadFile f) => lazily object serves k b {| m_pos := 0; m_closed := false |} (f, st_world s'')
      | Ok _ => False
      | Err e => request_error e
      end) /\
  (forall fs random dir prefix f s1 ps, TempFile fs random dir prefix s = (Ok (TempWriteFile f), s1) -> is_root (key fs (tw_name f)) = false ->
    exists s2, tw_write_all ps (f, s1) = (Ok tt, (f, s2)) /\ st_world s2 = st_world s /\ st_temps s2 !! key fs (tw_name f) = Some (tw_buf f) /\ st_bufs s2 !! tw_buf f = Some (concat ps) /\
      fs_Open pages fs (tw_name f) s2 = (Ok (TempReadFile {| tr_buf := tw_buf f; tr_name := tw_name f; tr_pos := 0; tr_closed := false |}), s2) /\
      forall n off, buf_readAt (tw_buf f) n off s2 =
        (if off <? 0 then Err Errorf else if blen (concat ps) <=? off then Err (Sent EOF) else Ok (take (Z.to_nat n) (drop (Z.to_nat off) (concat ps))), s2)).
Proof.
  split.
  - intros k b s' fs' name' Hw <- Hroot Ht Hd. apply written_lands in Hw as [Hp Hg']; [|done..]. split; [exact Hp|].
    destruct (fs_Open pages fs' name' s') as [r s''] eqn:E. exists r, s''. split; [done|].
    apply (openRead_spec objects remaining object serves pages (top + 1)) in E as [_ Ho]; [|done..].
    assert (Hk : object (st_world s') (key fs' name') = Some b) by (rewrite Hp; by rewrite bool_decide_true).
    destruct r as [[f| | |d| |]|e]; cbn in Ho; try done.
    + destruct Ho as (b' & Hb' & Hl). rewrite Hk in Hb'. by injection Hb' as <-.
    + by destruct Ho as [_ Ho].
    + destruct Ho as [(_ & Hn & _)|Ho]; [by rewrite Hk in Hn|done].
  - intros fs random dir prefix f s1 ps Hr Hroot. eapply temp_file_spec in Hr as (E1 & E2 & E3 & E4 & E5).
    exists (with_bufs (<[tw_buf f := [] ++ concat ps]> (st_bufs s1)) s1). assert (Hb : <[tw_buf f := [] ++ concat ps]> (st_bufs s1) !! tw_buf f = Some (concat ps))
      by (apply list_lookup_insert_eq; by eapply lookup_lt_Some).
    split; [by apply tw_write_all_spec|]. split; [done|]. split; [done|]. split; [done|]. split; [by apply temp_opens|]. intros n off. by apply temp_reads.
Qed.

(** C33: What a call changed is the change asked for, and is seen. A rename that answers
    without an error has moved the object's bytes and nothing else, a removal has removed
    the object alone, and a new directory is there, as an empty object whose key ends
    in a slash; removing a temporary file forgets it and asks the bucket nothing. Each of
    them leaves a listing cache that still answers truly (so that the names are found as
    they are now). Symbolic links are refused. *)
Theorem changes_are_seen s (Hg : good_fs objects top s) (Htop : top + 2 < 2 ^ 64) :
  (forall fs old new s', st_temps s !! key fs old = None -> fs_Rename fs old new s = (Ok tt, s') ->
    (exists b, object (st_world s) (key fs old) = Some b /\
      forall x, object (st_world s') x = if bool_decide (x = key fs new) then Some b else if bool_decide (x = key fs old) then None else object (st_world s) x) /\
    good_fs objects (top + 2) s' /\ st_temps s' = st_temps s) /\
  (forall fs name s', st_temps s !! key fs name = None -> fs_Remove fs name s = (Ok tt, s') ->
    (forall x, object (st_world s') x = if bool_decide (x = key fs name) then None else object (st_world s) x) /\ good_fs objects (top + 2) s' /\ st_temps s' = st_temps s) /\
  (forall fs name i, st_temps s !! key fs name = Some i -> fs_Remove fs name s = (Ok tt, with_temps (delete (key fs name) (st_temps s)) s)) /\
  (forall fs name s', is_root (key fs name) = false -> object (st_world s) (key fs name ++ [slash]) = None -> MkdirAll fs name s = (Ok tt, s') ->
    put object (st_world s) (key fs name ++ [slash]) [] (st_world s') /\ is_dir (objects (st_world s')) (key fs name) /\ good_fs objects (top + 2) s' /\ st_temps s' = st_temps s) /\
  (forall target link, Symlink target link s = (Err (Sent ErrSymLinkNotSupported), s) /\ Readlink link s = (Err (Sent ErrSymLinkNotSupported), s)).
Proof.
  split; [intros fs old new s'; by apply rename_lands|]. split; [intros fs name s'; by apply remove_lands|]. split.
  - intros fs name i Hi. unfold fs_Remove, detachTemp, gets, modify, io_bind. by rewrite Hi.
  - split; [intros fs name s'; by apply mkdir_lands|done].
Qed.
End properties.

(** C34: A filesystem stays below its root as long as names do not climb. For a root of
    ordinary elements, a name that is rooted, or whose [..] never lead above where it
    starts, has a key at or below the root; and a chroot to a path whose [..] never lead
    above where it starts has its own root there, so that the same holds for the keys of
    the child. (Nothing is promised of the other names, see [chroot_escapes].) *)
Theorem names_stay_below_root `{S3Client} fs rparts (Hne : rparts <> []) (Hr : Forall plain_part rparts) (Hroot : fs_root fs = join_slash rparts) :
  (forall name, starts_rooted name || negb (climbs name) = true -> key fs name = fs_root fs \/ has_prefix (key fs name) (fs_root fs ++ [slash]) = true) /\
  (forall path (s : FsSt), climbs path = false -> let child := fst (Chroot fs path s) in
    (fs_root child = fs_root fs \/ has_prefix (fs_root child) (fs_root fs ++ [slash]) = true) /\
    exists parts, Forall plain_part parts /\ fs_root child = join_slash (rparts ++ parts)).
Proof.
  split.
  - intros name (parts & Hp & Hc)%Clean_form. unfold key, cleanPath. rewrite Hroot.
    assert (Hj : Clean (Join1 name) = Clean name) by (destruct name; [done|]; cbn [Join1]; by eapply Clean_fixed). rewrite Hj, Join_root by done.
    assert (Hpl : Forall plain_part (rparts ++ parts)) by (by apply Forall_app). assert (Hne' : rparts ++ parts <> []) by (by destruct rparts).
    rewrite (Clean_below rparts _ parts) by done. rewrite (Clean_fixed (rparts ++ parts) (join_slash (rparts ++ parts))) by (done || (right; by rewrite join_plain_nonempty)).
    unfold trim_prefix. rewrite join_head by (by apply plain_ok). by apply join_below.
  - intros path s Hc child. apply bool_decide_eq_false in Hc.
    destruct (stays_below (split_slash path) [] (rev rparts) (split_parts path) ltac:(constructor) Hc) as [Hs Hp]. rewrite rev_involutive in Hs.
    set (parts := clean_parts false (split_slash path) []) in *. assert (Hpl : Forall plain_part (rparts ++ parts)) by (by apply Forall_app).
    assert (Hch : fs_root child = join_slash (rparts ++ parts)).
    { cbn [child Chroot fst fs_root]. unfold fs_Join. rewrite Hroot, Join_root, Clean_under by done. cbn [app] in Hs. rewrite Hs.
      assert (Hne' : rparts ++ parts <> []) by (by destruct rparts). rewrite join_plain_nonempty by done. apply (Clean_fixed (rparts ++ parts)); [done|]. right. by rewrite join_plain_nonempty. }
    split; [rewrite Hch, Hroot; by apply join_below|]. by exists parts.
Qed.

Example chroot_escapes : let fs := {| fs_root := bs "org/repo"; fs_unixMeta := None |} in
  key fs (bs "../other/HEAD") = bs "org/other/HEAD" /\ fs_Join (fs_root fs) (bs "/../other") = bs "org/other".
Proof. by vm_compute. Qed.

(** ** A bucket for the witnesses: the last pair of a key counts *)

Abbreviation pairs := (list (bytes * bytes)).
Fixpoint held (w : pairs) (k : bytes) : option bytes :=
  match w with [] => None | (x, b) :: w' => if bool_decide (x = k) then Some b else held w' k end.
Fixpoint held_pairs (w : pairs) : pairs := match w with [] => [] | x :: w' => x :: filter (fun y => fst y <> fst x) (held_pairs w') end.
Definition pair_object (x : bytes * bytes) : subtreeObject := {| so_key := fst x; so_size := blen (snd x); so_mtime := 7 |}.
Record pairsW := { pw_pairs : pairs; pw_clock : Z }.
Definition pw_live (w : pairsW) : pairs := held_pairs (pw_pairs w).
Definition pw_objects (w : pairsW) : list subtreeObject := pair_object <$> pw_live w.
Definition as_bucket (w : pairsW) : bucketW := {| bw_objects := pw_objects w; bw_clock := pw_clock w |}.
Definition pw_put (k b : bytes) (w : pairsW) : pairsW := {| pw_pairs := (k, b) :: pw_pairs w; pw_clock := pw_clock w + 1 |}.
Definition pw_del (k : bytes) (w : pairsW) : pairsW := {| pw_pairs := filter (fun y => fst y <> k) (pw_pairs w); pw_clock := pw_clock w + 1 |}.

Definition toyBucket : S3Client := {|
  FWorld := pairsW;
  Stream := bytes;
  stream_Read := toy_read;
  stream_All st := Ok st;
  HeadObjectF k := fun w => (fst (@HeadObjectF toyClient k (as_bucket w)), w);
  GetObjectF k rng := fun w => (toy_get (held (pw_pairs w) k) rng, w);
  PutObjectF k b _ := fun w => (Ok tt, pw_put k b w);
  ListF p d mk t := fun w => (fst (@ListF toyClient p d mk t (as_bucket w)), w);
  DeleteObjectF k := fun w => (Ok tt, pw_del k w);
  RenameObjectF src dst := fun w => match held (pw_pairs w) src with
                                    | Some b => (Ok tt, pw_put dst b (pw_del src w))
                                    | None => (Err (APIError (bs "NoSuchKey")), w) end;
  CreateMultipartUploadF _ _ := fail Errorf;
  UploadPartF _ _ _ _ := fail Errorf;
  CompleteMultipartUploadF _ _ := fail Errorf;
  NowF := pw_clock;
|}.
Definition pw_object (w : pairsW) (k : bytes) : option bytes := held (pw_pairs w) k.

Lemma held_elem w x : x ∈ held_pairs w -> held w (fst x) = Some (snd x).
Proof.
  induction w as [|[k b] w IH]; cbn; [by intros ?%elem_of_nil|]. intros [->|[Hn Hx]%list_elem_of_filter]%elem_of_cons; cbn in *; [by rewrite bool_decide_true|].
  rewrite bool_decide_false by congruence. by apply IH.
Qed.
Lemma elem_held w k b : held w k = Some b -> (k, b) ∈ held_pairs w.
Proof.
  induction w as [|[k' b'] w IH]; cbn; [done|]. case_bool_decide as Hk; [intros [= <-]; subst; by left|]. intros Hh. right.
  apply list_elem_of_filter. split; [cbn; congruence|by apply IH].
Qed.
Lemma held_filter w k x : held (filter (fun y : bytes * bytes => fst y <> k) w) x = if bool_decide (x = k) then None else held w x.
Proof.
  induction w as [|[k' b'] w IH]; [by case_bool_decide|]. rewrite filter_cons. cbn [fst held]. destruct (decide (k' <> k)) as [Hk|Hk]; cbn [held]; rewrite IH.
  - destruct (decide (k' = x)) as [<-|Hx]; [by rewrite bool_decide_true, bool_decide_false|]. by rewrite (bool_decide_false (k' = x)).
  - apply dec_stable in Hk as ->. destruct (decide (x = k)) as [->|Hx]; [by rewrite !bool_decide_true|]. by rewrite !bool_decide_false by congruence.
Qed.
Lemma held_pairs_filter k w : held_pairs (filter (fun y : bytes * bytes => fst y <> k) w) = filter (fun y => fst y <> k) (held_pairs w).
Proof.
  induction w as [|x w IH]; [done|]. cbn [held_pairs]. rewrite !filter_cons. destruct (decide (fst x <> k)) as [Hk|Hk]; cbn [held_pairs]; rewrite ?IH.
  - f_equal. rewrite !list_filter_filter. apply list_filter_iff. naive_solver.
  - apply dec_stable in Hk. rewrite list_filter_filter. apply list_filter_iff. intros y. rewrite Hk. naive_solver.
Qed.
Lemma objects_filter k (l : pairs) : filter (fun o => so_key o <> k) (pair_object <$> l) = pair_object <$> filter (fun y => fst y <> k) l.
Proof. induction l as [|x l IH]; [done|]. cbn [fmap list_fmap]. rewrite !filter_cons, IH. cbn [so_key pair_object]. by destruct (decide (fst x <> k)). Qed.
Lemma put_changed k b w : changed_at k (pw_objects w) (pw_objects (pw_put k b w)).
Proof.
  unfold changed_at, pw_objects, pw_live. cbn [pw_put pw_pairs held_pairs]. rewrite !objects_filter. f_equal. rewrite filter_cons. cbn [fst].
  rewrite decide_False by (by intros Hn). rewrite list_filter_filter. apply list_filter_iff. naive_solver.
Qed.
Lemma del_changed k w : changed_at k (pw_objects w) (pw_objects (pw_del k w)).
Proof.
  unfold changed_at, pw_objects, pw_live. cbn [pw_del pw_pairs]. rewrite held_pairs_filter, !objects_filter. f_equal. rewrite list_filter_filter. apply list_filter_iff. naive_solver.
Qed.
Lemma held_put k b w x : pw_object (pw_put k b w) x = if bool_decide (x = k) then Some b else pw_object w x.
Proof. unfold pw_object. cbn. destruct (decide (k = x)) as [->|Hn]; [by rewrite !bool_decide_true|]. by rewrite !bool_decide_false by congruence. Qed.
Lemma held_del k w x : pw_object (pw_del k w) x = if bool_decide (x = k) then None else pw_object w x.
Proof. apply held_filter. Qed.

Lemma bucket_lists : @ListingLaws toyBucket pw_objects rest_of.
Proof.
  split; [done|]. intros p d mk t w r w' [= <- <-]. split; [done|]. intros pg Hp.
  exact (proj2 (@List_ok toyClient bw_objects rest_of toy_listing p d mk t (as_bucket w) (Ok pg) (as_bucket w) (f_equal (fun x => (x, as_bucket w)) Hp)) pg eq_refl).
Qed.
Lemma bucket_heads : @HeadLaws toyBucket pw_objects.
Proof.
  split. intros k w r w' Hh. injection Hh as Hr <-. split; [done|]. subst r.
  exact (proj2 (@Head_ok toyClient bw_objects toy_heads k (as_bucket w) _ _ (surjective_pairing _))).
Qed.
Lemma bucket_objects : @ObjectLaws toyBucket pw_object eq.
Proof.
  split.
  - intros st l n d e st' <- Hr. apply toy_read_ok in Hr as (rest & H1 & H2 & H3). by exists rest.
  - by intros st l d <- [= <-].
  - by intros k rng w r w' [= _ <-].
  - intros k w out w' Hg. injection Hg as Hg _. apply toy_get_whole in Hg as (b & H1 & H2 & H3). by exists b.
  - intros k from to w out w' Hf Ht Hg. injection Hg as Hg _. apply toy_get_range in Hg as (b & H1 & H2 & H3 & H4); [|done..]. exists b. by rewrite <-H3.
  - intros k from to w e w' b Hf Ht Hg Hi Hk. injection Hg as Hg _. change (toy_get (pw_object w k) (Some (rangeHeader from to)) = Err e) in Hg.
    change (pw_object w k = Some b) in Hk. rewrite Hk in Hg. by eapply toy_get_invalid.
Qed.
Lemma bucket_store : @StoreLaws toyBucket pw_objects pw_object.
Proof.
  split.
  - intros w o (x & -> & Hx)%list_elem_of_fmap. exists (snd x). split; [by apply held_elem|done].
  - intros w k b Hk%elem_held. exists (pair_object (k, b)). split; [|done]. apply list_elem_of_fmap. by exists (k, b).
  - by intros p d mk t w r w' [= _ <-].
  - by intros k w r w' [= _ <-].
  - by intros k rng w r w' [= _ <-].
  - intros k w e w' Hg _. injection Hg as Hg _. by eapply toy_get_absent.
  - intros k b meta w r w' [= <- <-]. right. split; [intros x; apply held_put|apply put_changed].
  - intros k w w' [= <-]. split; [intros x; apply held_del|apply del_changed].
  - intros src dst w w' Hr. change (RenameObjectF src dst w) with (match pw_object w src with Some b => (Ok tt, pw_put dst b (pw_del src w)) | None => (Err (APIError (bs "NoSuchKey")), w) end) in Hr.
    destruct (pw_object w src) as [b|] eqn:Eb; [|done]. injection Hr as <-. split.
    + exists b. split; [done|]. intros x. rewrite held_put, held_del. done.
    + exists (pw_objects (pw_del src w)). split; [apply del_changed|apply put_changed].
Qed.

Definition toy_fs : S3FS := {| fs_root := bs "o/r"; fs_unixMeta := None |}.
Definition toy_pairs : pairs := [(bs "o/r/refs/heads/main", bs "a1b2"); (bs "o/r/HEAD", bs "ref: refs/heads/main")].
(** With a listing cache that has been asked already, or with none. *)
Definition toy_start (cache : bool) : @FsSt toyBucket :=
  @Build_FsSt toyBucket {| pw_pairs := toy_pairs; pw_clock := 1 |} (if cache then Some (NewListingCache toy_cfg) else None) ∅ [].

Definition shown (r : gores (list simpleFileInfo)) : list (bytes * Z) := match r with Ok l => (fun f => (fi_name f, fi_size f)) <$> l | Err _ => [] end.
Example toy_dirs : forall c, shown (fst (@fs_ReadDir toyBucket 10 toy_fs (bs "/") (toy_start c))) = [(bs "refs", 0); (bs "HEAD", 20)].
Proof. intros []; by vm_compute. Qed.

Lemma toy_good c : @good_fs toyBucket pw_objects 0 (toy_start c).
Proof. intros l. destruct c; [|done]. intros [= <-]. by apply honest_new. Qed.

Lemma toy_pages : (length (pw_objects (@st_world toyBucket (toy_start true))) < 10)%nat.
Proof. change (pw_objects _) with (pair_object <$> toy_pairs). cbn. lia. Qed.

Lemma names_tell_the_bucket_witness : exists r s', @fs_Open toyBucket 10 toy_fs (bs "refs/heads/main") (toy_start true) = (r, s') /\
  @looked toyBucket pw_objects pw_object 0 (toy_start true) s' /\ @opened toyBucket pw_objects pw_object eq (st_world (toy_start true)) (bs "o/r/refs/heads/main") (st_world s') r.
Proof.
  apply (proj1 (@names_tell_the_bucket toyBucket pw_objects rest_of pw_object eq bucket_lists bucket_heads bucket_objects bucket_store 10 0 toy_fs (bs "refs/heads/main")
    (toy_start true) (toy_good true) eq_refl eq_refl toy_pages)).
Defined.

(** The file is written in two pieces. *)
Definition toy_written : @FsSt toyBucket := snd (@write_file toyBucket 10 toy_fs (bs "config") [bs "[core]"; bs " bare"] (toy_start true)).
Lemma toy_written_ok : @write_file toyBucket 10 toy_fs (bs "config") [bs "[core]"; bs " bare"] (toy_start true) = (Ok tt, toy_written).
Proof. reflexivity. Qed.
Lemma toy_written_objects : pw_objects (st_world toy_written) = [pair_object (bs "o/r/config", bs "[core] bare"); pair_object (bs "o/r/refs/heads/main", bs "a1b2"); pair_object (bs "o/r/HEAD", bs "ref: refs/heads/main")].
Proof. reflexivity. Qed.

Lemma written_bytes_are_read_witness :
  (forall x, pw_object (st_world toy_written) x = if bool_decide (x = bs "o/r/config") then Some (bs "[core] bare") else pw_object (st_world (toy_start true)) x) /\
  exists r s'', @fs_Open toyBucket 10 toy_fs (bs "./config") toy_written = (r, s'') /\
    match r with
    | Ok (ReadFile f) => @lazily toyBucket pw_object eq (bs "o/r/config") (bs "[core] bare") {| m_pos := 0; m_closed := false |} (f, st_world s'')
    | Ok _ => False
    | Err e => @request_error toyBucket e
    end.
Proof.
  apply (proj1 (@written_bytes_are_read toyBucket pw_objects rest_of pw_object eq bucket_lists bucket_heads bucket_objects bucket_store 10 0 (toy_start true) (toy_good true) eq_refl)
    (bs "o/r/config") (bs "[core] bare") toy_written toy_fs (bs "./config")).
  - left. exists toy_fs, (bs "config"), [bs "[core]"; bs " bare"]. split; [apply toy_written_ok|]. split; reflexivity.
  - reflexivity.
  - reflexivity.
  - reflexivity.
  - intros (o & Ho & Hp). rewrite toy_written_objects in Ho. repeat (apply elem_of_cons in Ho as [->|Ho]; [discriminate Hp|]). by apply elem_of_nil in Ho.
Defined.

Definition toy_renamed : @FsSt toyBucket := snd (@fs_Rename toyBucket toy_fs (bs "HEAD") (bs "OLD") (toy_start true)).
Lemma changes_are_seen_witness :
  (exists b, pw_object (st_world (toy_start true)) (bs "o/r/HEAD") = Some b /\
    forall x, pw_object (st_world toy_renamed) x = if bool_decide (x = bs "o/r/OLD") then Some b else if bool_decide (x = bs "o/r/HEAD") then None else pw_object (st_world (toy_start true)) x) /\
  @good_fs toyBucket pw_objects 2 toy_renamed /\ st_temps toy_renamed = ∅.
Proof.
  apply (proj1 (@changes_are_seen toyBucket pw_objects pw_object bucket_store 0 (toy_start true) (toy_good true) eq_refl)
    toy_fs (bs "HEAD") (bs "OLD") toy_renamed); reflexivity.
Defined.

Lemma names_stay_below_root_witness : key toy_fs (bs "/../other/x") = bs "o/r" \/ has_prefix (key toy_fs (bs "/../other/x")) (bs "o/r/") = true.
Proof.
  assert (Hp : Forall plain_part [bs "o"; bs "r"]).
  { repeat constructor; try discriminate; apply (bool_decide_unpack _); vm_compute; exact I. }
  apply (proj1 (@names_stay_below_root toyBucket toy_fs [bs "o"; bs "r"] ltac:(discriminate) Hp eq_refl)). reflexivity.
Defined.
