(* ===== verification/S3PackCache.v ===== *)
(** * Packs streamed to local files (internal/s3fs/packcache.go)

    The cache [WithPackCache] gives a filesystem: a pack is downloaded once, in
    the background, to a temporary file; readers get what has arrived and wait for
    the rest. Entries are shared, so they live in a heap and are named by address.
    What openers, readers and downloads do between two releases of a mutex is the
    relation [step]. [content] is what the bucket holds: packs are immutable. *)

From S2P Require Import Prelude GoLib Codec S3Read.

Definition ringCap : Z := 4 * 2 ^ 20.
Definition isPackCacheable (key : bytes) : bool := has_suffix key (bs ".pack") || has_suffix key (bs ".idx") || has_suffix key (bs ".rev").

Section s3packcache.
Context (maxBytes : Z) (content : bytes -> bytes).

(** Where an entry's download is: nobody has opened it; the request is under way
    or has failed; the files are there; reading the body; a chunk is in the file
    and not yet announced; the body is at its end; closed; announced; settled; the
    steps of a failure; over. *)
Inductive pump_phase :=
  | NotStarted | Starting | Dropped (e : goerr) | Installed
  | Reading (rest : bytes) | Wrote (chunk rest : bytes) (rerr : option goerr)
  | Drained | WClosed | Announced | Settled
  | Failing (e : goerr) | Unmapped (e : goerr) | Releasing (reserved : Z) | Refunding (reserved : Z)
  | Stopped.

(** [e_path]: the files are open; [e_closed]: [closeOnce] has run. The file is
    reached through its descriptors alone, so unlinking it changes nothing. *)
Record packEntry := {
  e_key : bytes; e_path : bool; e_wfd : bool; e_closed : bool; e_file : bytes;
  e_win : bytes; e_winStart : Z; e_n : Z; e_size : Z; e_done : bool; e_err : option goerr;
  e_used : Z; e_refs : Z; e_reserved : Z; e_evicted : bool; e_phase : pump_phase;
}.
Record PackCache := { entries : gmap bytes nat; heap : gmap nat packEntry; fresh : nat; curBytes : Z; seq : Z }.

Definition NewPackCache : PackCache := {| entries := ∅; heap := ∅; fresh := 0; curBytes := 0; seq := 0 |}.
Definition set_entry (p : nat) (f : packEntry -> packEntry) (c : PackCache) : PackCache :=
  {| entries := entries c; heap := alter f p (heap c); fresh := fresh c; curBytes := curBytes c; seq := seq c |}.
Definition set_map (m : gmap bytes nat) (z : Z) (c : PackCache) : PackCache :=
  {| entries := m; heap := heap c; fresh := fresh c; curBytes := z; seq := seq c |}.

(** Assignments to an entry's fields. *)
Definition to_phase (ph : pump_phase) (e : packEntry) : packEntry :=
  {| e_key := e_key e; e_path := e_path e; e_wfd := e_wfd e; e_closed := e_closed e; e_file := e_file e;
     e_win := e_win e; e_winStart := e_winStart e; e_n := e_n e; e_size := e_size e; e_done := e_done e; e_err := e_err e;
     e_used := e_used e; e_refs := e_refs e; e_reserved := e_reserved e; e_evicted := e_evicted e; e_phase := ph |}.
Definition with_refs (refs used : Z) (e : packEntry) : packEntry :=
  {| e_key := e_key e; e_path := e_path e; e_wfd := e_wfd e; e_closed := e_closed e; e_file := e_file e;
     e_win := e_win e; e_winStart := e_winStart e; e_n := e_n e; e_size := e_size e; e_done := e_done e; e_err := e_err e;
     e_used := used; e_refs := refs; e_reserved := e_reserved e; e_evicted := e_evicted e; e_phase := e_phase e |}.
Definition with_reserved (z : Z) (e : packEntry) : packEntry :=
  {| e_key := e_key e; e_path := e_path e; e_wfd := e_wfd e; e_closed := e_closed e; e_file := e_file e;
     e_win := e_win e; e_winStart := e_winStart e; e_n := e_n e; e_size := e_size e; e_done := e_done e; e_err := e_err e;
     e_used := e_used e; e_refs := e_refs e; e_reserved := z; e_evicted := e_evicted e; e_phase := e_phase e |}.
Definition with_fds (path wfd closed evicted : bool) (e : packEntry) : packEntry :=
  {| e_key := e_key e; e_path := path; e_wfd := wfd; e_closed := closed; e_file := e_file e;
     e_win := e_win e; e_winStart := e_winStart e; e_n := e_n e; e_size := e_size e; e_done := e_done e; e_err := e_err e;
     e_used := e_used e; e_refs := e_refs e; e_reserved := e_reserved e; e_evicted := evicted; e_phase := e_phase e |}.
Definition with_err (err : option goerr) (e : packEntry) : packEntry :=
  {| e_key := e_key e; e_path := e_path e; e_wfd := e_wfd e; e_closed := e_closed e; e_file := e_file e;
     e_win := e_win e; e_winStart := e_winStart e; e_n := e_n e; e_size := e_size e; e_done := e_done e; e_err := err;
     e_used := e_used e; e_refs := e_refs e; e_reserved := e_reserved e; e_evicted := e_evicted e; e_phase := e_phase e |}.
Definition with_data (file win : bytes) (winStart n size : Z) (done : bool) (e : packEntry) : packEntry :=
  {| e_key := e_key e; e_path := e_path e; e_wfd := e_wfd e; e_closed := e_closed e; e_file := file;
     e_win := win; e_winStart := winStart; e_n := n; e_size := size; e_done := done; e_err := e_err e;
     e_used := e_used e; e_refs := e_refs e; e_reserved := e_reserved e; e_evicted := e_evicted e; e_phase := e_phase e |}.

(** ** Opening *)

(** The first critical section of [open]. *)
Definition acquire (key : bytes) (c : PackCache) : nat * PackCache :=
  let s := u64 (seq c + 1) in
  match entries c !! key with
  | Some p => (p, {| entries := entries c; heap := alter (fun e => with_refs (e_refs e + 1) s e) p (heap c); fresh := fresh c; curBytes := curBytes c; seq := s |})
  | None =>
      let p := fresh c in
      (p, {| entries := <[key := p]> (entries c); fresh := S p; curBytes := curBytes c; seq := s;
             heap := <[p := {| e_key := key; e_path := false; e_wfd := false; e_closed := false; e_file := []; e_win := []; e_winStart := 0; e_n := 0; e_size := -1;
                               e_done := false; e_err := None; e_used := s; e_refs := 1; e_reserved := 0; e_evicted := false; e_phase := NotStarted |}]> (heap c) |})
  end.

(** [closeRead]: the descriptor is there whenever the path is. *)
Definition closeRead (e : packEntry) : packEntry := with_fds (e_path e) (e_wfd e) true (e_evicted e) e.

(** [release]: the reference under the mutex, the descriptor after it. *)
Definition release (e : packEntry) : packEntry :=
  let e := with_refs (e_refs e - 1) (e_used e) e in
  if (e_refs e =? 0) && e_evicted e then closeRead e else e.
Definition maybeCloseEvicted (e : packEntry) : packEntry := if (e_refs e =? 0) && e_evicted e then closeRead e else e.

(** [if c.entries[e.key] == e { delete(c.entries, e.key) }] *)
Definition drop_mapped (p : nat) (c : PackCache) : PackCache :=
  match heap c !! p with
  | Some e => if bool_decide (entries c !! e_key e = Some p) then set_map (delete (e_key e) (entries c)) (curBytes c) c else c
  | None => c
  end.

(** ** Eviction *)

Definition registered (c : PackCache) : list (nat * packEntry) := omap (fun p => pair p <$> heap c !! p) (snd <$> map_to_list (entries c)).
Definition evictable (keep : bytes) (x : nat * packEntry) : bool := negb (bool_decide (e_key (snd x) = keep) || negb (e_path (snd x))).
Definition older (victim : option (nat * packEntry)) (x : nat * packEntry) : option (nat * packEntry) :=
  match victim with None => Some x | Some v => if e_used (snd x) <? e_used (snd v) then Some x else victim end.
Definition victim (keep : bytes) (c : PackCache) : option (nat * packEntry) :=
  fold_left older (filter (fun x => evictable keep x = true) (registered c)) None.

Definition evict_one (v : nat * packEntry) (c : PackCache) : PackCache :=
  set_entry (fst v) (fun e => with_fds (e_path e) (e_wfd e) (if e_refs e =? 0 then true else e_closed e) true e)
    (set_map (delete (e_key (snd v)) (entries c)) (curBytes c - e_reserved (snd v)) c).
(** The loop, which removes an entry every time round. *)
Fixpoint evict_loop (fuel : nat) (keep : bytes) (c : PackCache) : PackCache :=
  match fuel with
  | O => c
  | S fuel' =>
      if curBytes c >? maxBytes then
        match victim keep c with None => c | Some v => evict_loop fuel' keep (evict_one v c) end
      else c
  end.
Definition evictLocked (keep : bytes) (c : PackCache) : PackCache := if maxBytes <=? 0 then c else evict_loop (S (size (entries c))) keep c.

(** ** The download *)

(** [start] once the request is answered: the files and the announced size, then
    the reservation. *)
Definition installed (size : Z) (e : packEntry) : packEntry :=
  to_phase Installed (with_data (e_file e) (e_win e) (e_winStart e) (e_n e) size (e_done e) (with_fds true true (e_closed e) (e_evicted e) e)).
Definition reserve (p : nat) (c : PackCache) : PackCache :=
  match heap c !! p with
  | Some e =>
      let c' := set_entry p (to_phase (Reading (content (e_key e)))) c in
      if 0 <? e_size e then evictLocked (e_key e) (set_map (entries c) (curBytes c + e_size e) (set_entry p (with_reserved (e_size e)) c')) else c'
  | None => c
  end.

(** After a read of the body. *)
Definition after_read (rest : bytes) (rerr : option goerr) : pump_phase :=
  match rerr with None => Reading rest | Some (Sent EOF) => Drained | Some e => Failing e end.
Definition append_file (x : bytes) (e : packEntry) : packEntry := with_data (e_file e ++ x) (e_win e) (e_winStart e) (e_n e) (e_size e) (e_done e) e.
(** The critical section of [pump] after a chunk was written. *)
Definition announce (chunk : bytes) (e : packEntry) : packEntry :=
  let win := e_win e ++ chunk in
  let n := e_n e + blen chunk in
  if ringCap <? blen win then
    let drop_ := blen win - ringCap in
    with_data (e_file e) (drop (Z.to_nat drop_) win) (e_winStart e + drop_) n (e_size e) (e_done e) e
  else with_data (e_file e) win (e_winStart e) n (e_size e) (e_done e) e.
(** The critical section at its end. *)
Definition publish_done (e : packEntry) : packEntry := with_data (e_file e) [] (e_n e) (e_n e) (e_n e) true (with_fds (e_path e) false (e_closed e) (e_evicted e) e).
(** The account of an entry whose size was not announced. *)
Definition reconcile (p : nat) (c : PackCache) : PackCache :=
  match heap c !! p with
  | Some e =>
      if negb (e_reserved e =? e_n e)
      then evictLocked (e_key e) (set_map (entries c) (curBytes c + (e_n e - e_reserved e)) (set_entry p (with_reserved (e_n e)) c))
      else c
  | None => c
  end.
(** The second critical section of [failStream]. *)
Definition fail_entry (err : goerr) (e : packEntry) : packEntry := with_err (Some err) (with_reserved 0 (with_fds (e_path e) false (e_closed e) (e_evicted e) e)).

(** ** Reading *)

(** [os.File.ReadAt] on the shared descriptor. *)
Definition pread (e : packEntry) (n off : Z) : bytes * option goerr :=
  if e_closed e then ([], Some (Sent ErrClosed)) else
  let d := take (Z.to_nat n) (drop (Z.to_nat off) (e_file e)) in (d, if blen d <? n then Some (Sent EOF) else None).

(** What the critical section of a read decides: an answer, a read of that many
    bytes from the file, or ([None]) to wait. *)
Inductive decision := Answer (r : bytes * option goerr) | FromDisk (n : Z).
Definition from_window (e : packEntry) (n off : Z) : bytes * option goerr := (take (Z.to_nat n) (drop (Z.to_nat (off - e_winStart e)) (e_win e)), None).

Definition readAt (e : packEntry) (n off : Z) : option decision :=
  if off <? 0 then Some (Answer ([], Some Errorf)) else
  if n =? 0 then Some (Answer ([], None)) else
  match e_err e with
  | Some err => Some (Answer ([], Some err))
  | None =>
      if (0 <=? e_size e) && (e_size e <=? off) then Some (Answer ([], Some (Sent EOF))) else
      if off + n <=? e_n e then Some (if e_winStart e <=? off then Answer (from_window e n off) else FromDisk n)
      else if e_done e then Some (FromDisk n) else None
  end.

Definition readSome (e : packEntry) (n off : Z) : option decision :=
  if off <? 0 then Some (Answer ([], Some Errorf)) else
  if n =? 0 then Some (Answer ([], None)) else
  match e_err e with
  | Some err => Some (Answer ([], Some err))
  | None =>
      if (0 <=? e_size e) && (e_size e <=? off) then Some (Answer ([], Some (Sent EOF))) else
      if off <? e_n e then Some (if e_winStart e <=? off then Answer (from_window e n off) else FromDisk (Z.min n (e_n e - off)))
      else if e_done e then Some (Answer ([], Some (Sent EOF))) else None
  end.

Definition sizeOrWait (e : packEntry) : option (gores Z) :=
  if 0 <=? e_size e then Some (Ok (e_size e)) else
  match e_err e with Some err => Some (Err err) | None => if e_done e then Some (Ok (e_n e)) else None end.

Definition cached_Stat_size (e : packEntry) : Z := if e_size e <? 0 then e_n e else e_size e.

(** ** The system *)

(** The calls of a handle ([packCachedFile]). *)
Inductive call := CReadAt (n off : Z) | CRead (n : Z).
Definition at_off (pos : Z) (k : call) : Z := match k with CReadAt _ off => off | CRead _ => pos end.
Definition wanted (k : call) : Z := match k with CReadAt n _ => n | CRead n => n end.
Definition decide_call (e : packEntry) (pos : Z) (k : call) : option decision :=
  match k with CReadAt n off => readAt e n off | CRead n => readSome e n pos end.

(** Where a caller of [open] is: it has its entry; it runs [start]; [once] is
    over; it holds a handle; one of its reads goes to the file; one has
    answered; done. *)
Inductive caller :=
  | Opening (p : nat) | Running (p : nat) | Checking (p : nat)
  | Holding (p : nat) (pos : Z) | AtDisk (p : nat) (pos : Z) (k : call) (n : Z) | Answered (p : nat) (pos : Z) (k : call) (r : bytes * option goerr)
  | Refused (e : goerr) | Gone.

Record Sys := { cache : PackCache; callers : gmap nat caller; cleaned : bool }.
Definition move (i : nat) (k : caller) (c : PackCache) (s : Sys) : Sys := {| cache := c; callers := <[i := k]> (callers s); cleaned := cleaned s |}.
Definition pump (c : PackCache) (s : Sys) : Sys := {| cache := c; callers := callers s; cleaned := cleaned s |}.

(** Whether [start] has returned. *)
Definition started (ph : pump_phase) : bool := match ph with NotStarted | Starting | Dropped _ | Installed => false | _ => true end.

(** [Cleanup]: whatever is mapped loses its descriptors. *)
Definition Cleanup (c : PackCache) : PackCache :=
  set_map ∅ 0 {| entries := entries c; fresh := fresh c; curBytes := curBytes c; seq := seq c;
                 heap := map_imap (fun p e => Some (if bool_decide (entries c !! e_key e = Some p) then with_fds (e_path e) false true (e_evicted e) e else e)) (heap c) |}.

Inductive step (s : Sys) : Sys -> Prop :=
  (* open *)
  | step_open i key p c : callers s !! i = None -> acquire key (cache s) = (p, c) -> step s (move i (Opening p) c s)
  | step_once i p e : callers s !! i = Some (Opening p) -> heap (cache s) !! p = Some e -> e_phase e = NotStarted ->
      step s (move i (Running p) (set_entry p (to_phase Starting) (cache s)) s)
  | step_once_over i p e : callers s !! i = Some (Opening p) -> heap (cache s) !! p = Some e -> started (e_phase e) = true ->
      step s (move i (Checking p) (cache s) s)
  | step_refused i p e err : callers s !! i = Some (Checking p) -> heap (cache s) !! p = Some e -> e_err e = Some err ->
      step s (move i (Refused err) (set_entry p release (cache s)) s)
  | step_opened i p e : callers s !! i = Some (Checking p) -> heap (cache s) !! p = Some e -> e_err e = None ->
      step s (move i (Holding p 0) (cache s) s)
  (* start, run by the caller that came first: the request or a file fails, or not *)
  | step_start_failed i p e err : callers s !! i = Some (Running p) -> heap (cache s) !! p = Some e -> e_phase e = Starting ->
      step s (pump (set_entry p (to_phase (Dropped err)) (drop_mapped p (cache s))) s)
  | step_dropped i p e err : callers s !! i = Some (Running p) -> heap (cache s) !! p = Some e -> e_phase e = Dropped err ->
      step s (move i (Checking p) (set_entry p (fun e => to_phase Stopped (with_err (Some err) e)) (cache s)) s)
  | step_installed i p e size : callers s !! i = Some (Running p) -> heap (cache s) !! p = Some e -> e_phase e = Starting ->
      size = -1 \/ size = blen (content (e_key e)) -> step s (pump (set_entry p (installed size) (cache s)) s)
  | step_reserve i p e : callers s !! i = Some (Running p) -> heap (cache s) !! p = Some e -> e_phase e = Installed ->
      step s (move i (Checking p) (reserve p (cache s)) s)
  (* pump *)
  | step_read p e chunk rest rerr : heap (cache s) !! p = Some e -> e_phase e = Reading (chunk ++ rest) ->
      (chunk <> [] -> e_wfd e = true) -> (rerr = Some (Sent EOF) -> rest = []) ->
      step s (pump (set_entry p (fun e => to_phase (match chunk with [] => after_read rest rerr | _ => Wrote chunk rest rerr end) (append_file chunk e)) (cache s)) s)
  | step_write_failed p e part chunk rest err : heap (cache s) !! p = Some e -> e_phase e = Reading (part ++ chunk ++ rest) ->
      step s (pump (set_entry p (fun e => to_phase (Failing err) (append_file part e)) (cache s)) s)
  | step_announce p e chunk rest rerr : heap (cache s) !! p = Some e -> e_phase e = Wrote chunk rest rerr ->
      step s (pump (set_entry p (fun e => to_phase (after_read rest rerr) (announce chunk e)) (cache s)) s)
  | step_wclose p e : heap (cache s) !! p = Some e -> e_phase e = Drained -> e_wfd e = true -> step s (pump (set_entry p (to_phase WClosed) (cache s)) s)
  | step_wclose_failed p e err : heap (cache s) !! p = Some e -> e_phase e = Drained -> step s (pump (set_entry p (to_phase (Failing err)) (cache s)) s)
  | step_finish p e : heap (cache s) !! p = Some e -> e_phase e = WClosed ->
      step s (pump (set_entry p (fun e => to_phase Announced (publish_done e)) (cache s)) s)
  | step_reconcile p e : heap (cache s) !! p = Some e -> e_phase e = Announced ->
      step s (pump (set_entry p (to_phase Settled) (reconcile p (cache s))) s)
  | step_leave p e : heap (cache s) !! p = Some e -> e_phase e = Settled ->
      step s (pump (set_entry p (fun e => to_phase Stopped (maybeCloseEvicted e)) (cache s)) s)
  (* failStream *)
  | step_unmap p e err : heap (cache s) !! p = Some e -> e_phase e = Failing err ->
      step s (pump (set_entry p (to_phase (Unmapped err)) (drop_mapped p (cache s))) s)
  | step_fail p e err : heap (cache s) !! p = Some e -> e_phase e = Unmapped err ->
      step s (pump (set_entry p (fun e => to_phase (Releasing (e_reserved e)) (fail_entry err e)) (cache s)) s)
  | step_release p e z : heap (cache s) !! p = Some e -> e_phase e = Releasing z ->
      step s (pump (set_entry p (fun e => to_phase (Refunding z) (closeRead e)) (cache s)) s)
  | step_refund p e z : heap (cache s) !! p = Some e -> e_phase e = Refunding z ->
      step s (pump (set_entry p (to_phase Stopped) (set_map (entries (cache s)) (curBytes (cache s) - z) (cache s))) s)
  (* a handle; [off + n] is in range *)
  | step_answer i p pos e k r : callers s !! i = Some (Holding p pos) -> heap (cache s) !! p = Some e -> 0 <= wanted k -> at_off pos k + wanted k < 2 ^ 63 ->
      decide_call e pos k = Some (Answer r) -> step s (move i (Answered p pos k r) (cache s) s)
  | step_disk i p pos e k n : callers s !! i = Some (Holding p pos) -> heap (cache s) !! p = Some e -> 0 <= wanted k -> at_off pos k + wanted k < 2 ^ 63 ->
      decide_call e pos k = Some (FromDisk n) -> step s (move i (AtDisk p pos k n) (cache s) s)
  | step_pread i p pos e k n : callers s !! i = Some (AtDisk p pos k n) -> heap (cache s) !! p = Some e ->
      step s (move i (Answered p pos k (pread e n (at_off pos k))) (cache s) s)
  | step_next i p pos k r : callers s !! i = Some (Answered p pos k r) ->
      step s (move i (Holding p (match k with CRead _ => i64 (pos + blen (fst r)) | _ => pos end)) (cache s) s)
  | step_seek i p pos offset : callers s !! i = Some (Holding p pos) -> step s (move i (Holding p offset) (cache s) s)
  | step_seek_end i p pos e offset n : callers s !! i = Some (Holding p pos) -> heap (cache s) !! p = Some e -> sizeOrWait e = Some (Ok n) ->
      step s (move i (Holding p (i64 (n + offset))) (cache s) s)
  | step_close i p pos e : callers s !! i = Some (Holding p pos) -> heap (cache s) !! p = Some e ->
      step s (move i Gone (set_entry p release (cache s)) s)
  | step_cleanup : step s {| cache := Cleanup (cache s); callers := callers s; cleaned := true |}.

Definition start : Sys := {| cache := NewPackCache; callers := ∅; cleaned := false |}.
Definition reachable (s : Sys) : Prop := rtc step start s.
End s3packcache.
