(* ===== verification/S3PackCacheSpec.v ===== *)
(** * What the streaming pack cache promises (internal/s3fs/packcache.go)

    Whatever downloads, evictions, failures and closes happen meanwhile, a read
    gives the pack's bytes, and one that waits waits for a download that is under
    way. The accounts of the budget are not true after a failure: see
    [refunded_twice]. *)

From S2P Require Import Prelude GoLib Codec S3Read S3PackCache.

(** ** Counting the callers that hold an entry *)

Definition holds (p : nat) (k : caller) : bool :=
  match k with Opening q | Running q | Checking q | Holding q _ | AtDisk q _ _ _ | Answered q _ _ _ => bool_decide (q = p) | Refused _ | Gone => false end.
Definition bit (p : nat) (k : caller) : Z := if holds p k then 1 else 0.
Definition holders (m : gmap nat caller) (p : nat) : Z := Z.of_nat (size (filter (fun ik => holds p (snd ik) = true) m)).

Lemma holders_delete m i p : holders m p = holders (delete i m) p + match m !! i with Some k => bit p k | None => 0 end.
Proof.
  unfold holders, bit. rewrite map_filter_delete, map_size_delete. set (f := filter _ m). destruct (m !! i) as [k|] eqn:Ei.
  - destruct (holds p k) eqn:Eh.
    + assert (Hl : f !! i = Some k) by (by apply map_lookup_filter_Some). rewrite Hl. cbn. assert (size f <> 0%nat); [|lia]. apply map_size_non_empty_iff. intros He. by rewrite He in Hl.
    + assert (Hl : f !! i = None); [|rewrite Hl; cbn; lia]. apply map_lookup_filter_None. right. intros x Hx. rewrite Ei in Hx. injection Hx as <-. cbn. by rewrite Eh.
  - assert (Hl : f !! i = None); [|rewrite Hl; cbn; lia]. apply map_lookup_filter_None. by left.
Qed.
Lemma holders_insert m i k p : holders (<[i := k]> m) p = holders (delete i m) p + bit p k.
Proof. rewrite (holders_delete _ i), lookup_insert_eq. by rewrite delete_insert_eq. Qed.
Lemma holders_move m i k0 k p : m !! i = Some k0 -> holders (<[i := k]> m) p = holders m p + bit p k - bit p k0.
Proof. intros Hi. rewrite holders_insert, (holders_delete m i p), Hi. lia. Qed.
Lemma holders_new m i k p : m !! i = None -> holders (<[i := k]> m) p = holders m p + bit p k.
Proof. intros Hi. rewrite holders_insert, (holders_delete m i p), Hi. lia. Qed.
Lemma holders_pos m i k p : m !! i = Some k -> holds p k = true -> 0 < holders m p.
Proof. intros Hi Hk. rewrite (holders_delete m i p), Hi. unfold bit. rewrite Hk. unfold holders. lia. Qed.

Section spec.
Context (maxBytes : Z) (content : bytes -> bytes).
Abbreviation step := (S3PackCache.step maxBytes content).
Abbreviation reachable := (S3PackCache.reachable maxBytes content).

(** ** One entry *)

(** What the file, the window and the watermark are worth in each phase. *)
Definition phase_ok (e : packEntry) : Prop :=
  let b := content (e_key e) in
  match e_phase e with
  | NotStarted | Starting | Dropped _ | Installed => e_file e = [] /\ e_n e = 0 /\ e_done e = false /\ e_err e = None
  | Reading rest => b = e_file e ++ rest /\ e_n e = blen (e_file e) /\ e_done e = false /\ e_err e = None
  | Wrote chunk rest rerr => (exists pre, e_file e = pre ++ chunk /\ e_n e = blen pre) /\ b = e_file e ++ rest /\ (rerr = Some (Sent EOF) -> rest = []) /\ e_done e = false /\ e_err e = None
  | Drained | WClosed => b = e_file e /\ e_n e = blen b /\ e_done e = false /\ e_err e = None
  | Announced | Settled => e_done e = true
  | Failing _ | Unmapped _ => e_done e = false /\ e_err e = None
  | Releasing _ | Refunding _ => e_err e <> None
  | Stopped => e_done e = true \/ e_err e <> None
  end.
Definition data_ok (e : packEntry) : Prop :=
  let b := content (e_key e) in
  e_file e `prefix_of` b /\ 0 <= e_winStart e <= e_n e /\ e_n e <= blen (e_file e) /\ e_win e = drop (Z.to_nat (e_winStart e)) (take (Z.to_nat (e_n e)) (e_file e)) /\
  (e_size e = -1 \/ e_size e = blen b) /\ (e_done e = true -> e_file e = b /\ e_n e = blen b /\ e_size e = blen b /\ e_winStart e = e_n e) /\ phase_ok e.
(** The descriptor is closed only when nobody needs it. *)
Definition closed_ok (cl : bool) (e : packEntry) : Prop :=
  e_closed e = true -> e_err e <> None \/ cl = true \/ (e_evicted e = true /\ e_refs e = 0).
Definition entry_ok (cl : bool) (e : packEntry) : Prop := data_ok e /\ closed_ok cl e.

(** How an entry moves. *)
Definition evolves (e e' : packEntry) : Prop :=
  e_key e' = e_key e /\ e_n e <= e_n e' /\ (e_done e = true -> e_done e' = true) /\ (forall err, e_err e = Some err -> e_err e' = Some err) /\
  (started (e_phase e) = true -> started (e_phase e') = true).
Definition heap_evolves (c c' : PackCache) : Prop := forall p e, heap c !! p = Some e -> exists e', heap c' !! p = Some e' /\ evolves e e'.

Lemma evolves_refl e : evolves e e.
Proof. split; [done|]. split; [lia|]. done. Qed.
Lemma evolves_trans e1 e2 e3 : evolves e1 e2 -> evolves e2 e3 -> evolves e1 e3.
Proof. intros (A1 & A2 & A3 & A4 & A5) (B1 & B2 & B3 & B4 & B5). split; [congruence|]. split; [lia|]. auto. Qed.
Lemma heap_refl c : heap_evolves c c.
Proof. intros p e He. exists e. split; [done|apply evolves_refl]. Qed.
Lemma heap_trans c1 c2 c3 : heap_evolves c1 c2 -> heap_evolves c2 c3 -> heap_evolves c1 c3.
Proof. intros H1 H2 p e He. destruct (H1 p e He) as (e1 & He1 & L1). destruct (H2 p e1 He1) as (e2 & He2 & L2). exists e2. split; [done|by eapply evolves_trans]. Qed.

(** ** The cache *)

Record cache_ok (cl : bool) (h : nat -> Z) (c : PackCache) : Prop := {
  heap_fresh : forall p e, heap c !! p = Some e -> (p < fresh c)%nat;
  heap_none : forall p, heap c !! p = None -> h p = 0;
  mapped : forall k p, entries c !! k = Some p -> exists e, heap c !! p = Some e /\ e_key e = k /\ e_evicted e = false;
  entries_ok : forall p e, heap c !! p = Some e -> entry_ok cl e /\ e_refs e = h p;
}.

Lemma cache_ext cl h h' c : (forall p, h p = h' p) -> cache_ok cl h c -> cache_ok cl h' c.
Proof. intros Hh [H1 H2 H3 H4]. split; [done| |done|]; intros p; rewrite <-Hh; auto. Qed.

(** An entry changes in place. *)
Lemma cache_set cl h c p e f : cache_ok cl h c -> heap c !! p = Some e -> e_evicted (f e) = e_evicted e -> e_refs (f e) = e_refs e -> evolves e (f e) -> entry_ok cl (f e) ->
  cache_ok cl h (set_entry p f c) /\ heap_evolves c (set_entry p f c).
Proof.
  intros [H1 H2 H3 H4] He Hev Hrf Hle Hok. split.
  - split; cbn [set_entry heap entries fresh].
    + intros q e' [(-> & e0 & He0 & _)|[_ Hq]]%lookup_alter_Some; by eapply H1.
    + intros q Hq. destruct (decide (p = q)) as [<-|Hne]; [by rewrite lookup_alter_eq, He in Hq|]. rewrite lookup_alter_ne in Hq by done. by apply H2.
    + intros k q Hq. destruct (H3 k q Hq) as (e' & He' & Hk & Hv). destruct (decide (p = q)) as [<-|Hne].
      * rewrite He in He'. injection He' as <-. exists (f e). rewrite lookup_alter_eq, He. split; [done|]. destruct Hle as [-> _]. by rewrite Hev.
      * exists e'. by rewrite lookup_alter_ne.
    + intros q e' [(-> & e0 & He0 & ->)|[_ Hq]]%lookup_alter_Some; [|by apply H4]. rewrite He in He0. injection He0 as <-. split; [done|]. rewrite Hrf. by apply H4.
  - intros q e' Hq. cbn [set_entry heap]. destruct (decide (p = q)) as [<-|Hne].
    + rewrite lookup_alter_eq, He. rewrite He in Hq. injection Hq as <-. by exists (f e).
    + exists e'. rewrite lookup_alter_ne by done. split; [done|apply evolves_refl].
Qed.

(** Entries leave the map. *)
Lemma cache_map cl h c m z : cache_ok cl h c -> m ⊆ entries c -> cache_ok cl h (set_map m z c) /\ heap_evolves c (set_map m z c).
Proof. intros [H1 H2 H3 H4] Hm. split; [|intros p e He; exists e; split; [exact He|apply evolves_refl]]. split; [exact H1|exact H2| |exact H4]. intros k p Hp. apply H3. by eapply lookup_weaken. Qed.

Lemma cache_drop cl h c p : cache_ok cl h c -> cache_ok cl h (drop_mapped p c) /\ heap_evolves c (drop_mapped p c) /\ heap (drop_mapped p c) = heap c.
Proof.
  intros Hc. unfold drop_mapped. destruct (heap c !! p) as [e|]; [|split; [done|split; [apply heap_refl|done]]]. case_bool_decide; [|split; [done|split; [apply heap_refl|done]]].
  destruct (cache_map cl h c (delete (e_key e) (entries c)) (curBytes c) Hc (delete_subseteq _ _)). done.
Qed.

Lemma elem_of_streamed c x : x ∈ registered c -> exists k, entries c !! k = Some (fst x) /\ heap c !! fst x = Some (snd x).
Proof.
  unfold registered. intros (p & (kv & -> & Hin)%list_elem_of_fmap & He)%list_elem_of_omap. destruct kv as [k q]. apply elem_of_map_to_list in Hin. cbn in He.
  destruct (heap c !! q) as [e|] eqn:Eq; [|done]. injection He as <-. by exists k.
Qed.
Lemma fold_older l v x : fold_left older l v = Some x -> v = Some x \/ x ∈ l.
Proof.
  revert v. induction l as [|y l IH]; intros v; cbn; [by left|]. intros [Hv|Hx]%IH; [|right; by right]. unfold older in Hv.
  destruct v as [v|]; [destruct (_ <? _)|]; injection Hv as <-; [right; by left|by left|right; by left].
Qed.
Lemma victim_registered keep c x : victim keep c = Some x -> exists k, entries c !! k = Some (fst x) /\ heap c !! fst x = Some (snd x).
Proof. unfold victim. intros [?|Hx]%fold_older; [done|]. apply list_elem_of_filter in Hx as [_ Hx]. by apply elem_of_streamed. Qed.

Lemma phase_fds ph path w c ev e : e_phase e = ph -> phase_ok (with_fds path w c ev e) = phase_ok e.
Proof. done. Qed.

Lemma cache_evict_one cl h c v k : cache_ok cl h c -> entries c !! k = Some (fst v) -> heap c !! fst v = Some (snd v) ->
  cache_ok cl h (evict_one v c) /\ heap_evolves c (evict_one v c).
Proof.
  intros Hc Hk Hv. pose proof Hc as [H1 H2 H3 H4]. destruct v as [p e]. cbn [fst snd] in *. destruct (H3 _ _ Hk) as (e0 & He0 & <- & Hev). rewrite Hv in He0. injection He0 as <-.
  destruct (H4 p e Hv) as [[Hd Hcl] Hrf]. set (f := fun e => with_fds (e_path e) (e_wfd e) (if e_refs e =? 0 then true else e_closed e) true e).
  assert (Hle : evolves e (f e)) by (split; [done|]; split; [cbn; lia|done]).
  unfold evict_one. cbn [fst snd]. fold f. split.
  - split; cbn [set_entry set_map heap entries fresh].
    + intros q e' [(-> & e1 & He1 & _)|[_ Hq]]%lookup_alter_Some; by eapply H1.
    + intros q Hq. destruct (decide (p = q)) as [<-|Hne]; [by rewrite lookup_alter_eq, Hv in Hq|]. rewrite lookup_alter_ne in Hq by done. by apply H2.
    + intros k q [Hne Hq]%lookup_delete_Some. destruct (H3 k q Hq) as (e' & He' & Hk' & Hv'). exists e'. rewrite lookup_alter_ne; [done|]. intros <-.
      rewrite Hv in He'. injection He' as <-. done.
    + intros q e' [(-> & e1 & He1 & ->)|[_ Hq]]%lookup_alter_Some; [|by apply H4]. rewrite Hv in He1. injection He1 as <-. split; [|done]. split; [done|].
      unfold closed_ok, f. cbn. destruct (e_refs e =? 0) eqn:E; b2p; [auto|]. intros Hx. destruct (Hcl Hx) as [?|[?|[Hy _]]]; auto. congruence.
  - intros q e' Hq. cbn [set_entry set_map heap]. destruct (decide (p = q)) as [<-|Hne].
    + rewrite lookup_alter_eq, Hv. rewrite Hv in Hq. injection Hq as <-. by exists (f e).
    + exists e'. rewrite lookup_alter_ne by done. split; [done|apply evolves_refl].
Qed.

Lemma cache_evict cl h keep c : cache_ok cl h c -> cache_ok cl h (evictLocked maxBytes keep c) /\ heap_evolves c (evictLocked maxBytes keep c).
Proof.
  unfold evictLocked. intros Hc. destruct (maxBytes <=? 0); [split; [done|apply heap_refl]|]. generalize (S (size (entries c))) as n. intros n. revert c Hc.
  induction n as [|n IH]; intros c Hc; cbn [evict_loop]; [split; [done|apply heap_refl]|]. destruct (curBytes c >? maxBytes); [|split; [done|apply heap_refl]].
  destruct (victim keep c) as [v|] eqn:Ev; [|split; [done|apply heap_refl]]. apply victim_registered in Ev as (k & Hk & Hv).
  destruct (cache_evict_one cl h c v k Hc Hk Hv) as [Hc' Hl]. destruct (IH _ Hc') as [Hc'' Hl']. split; [done|by eapply heap_trans].
Qed.

(** References come and go. *)
Lemma cache_acquire cl h key p c c' : cache_ok cl h c -> acquire key c = (p, c') ->
  cache_ok cl (fun q => h q + if bool_decide (p = q) then 1 else 0) c' /\ heap_evolves c c' /\ is_Some (heap c' !! p).
Proof.
  intros Hc. pose proof Hc as [H1 H2 H3 H4]. unfold acquire. destruct (entries c !! key) as [q|] eqn:Ek; [intros [= -> <-]|intros [= <- <-]].
  - destruct (H3 _ _ Ek) as (e & He & Hk & Hev). destruct (H4 p e He) as [[Hd Hcl] Hrf]. set (f := fun e => with_refs (e_refs e + 1) (u64 (seq c + 1)) e).
    assert (Hle : evolves e (f e)) by (split; [done|]; split; [cbn; lia|done]). split; [split|split]; cbn [heap entries fresh].
    + intros q e' [(-> & e1 & He1 & _)|[_ Hq]]%lookup_alter_Some; by eapply H1.
    + intros q Hq. destruct (decide (p = q)) as [<-|Hne]; [by rewrite lookup_alter_eq, He in Hq|]. rewrite lookup_alter_ne in Hq by done. rewrite bool_decide_false by done. rewrite H2 by done. lia.
    + intros k q Hq. destruct (H3 k q Hq) as (e' & He' & Hk' & Hv). destruct (decide (p = q)) as [<-|Hne].
      * rewrite He in He'. injection He' as <-. exists (f e). by rewrite lookup_alter_eq, He.
      * exists e'. by rewrite lookup_alter_ne.
    + intros q e' [(-> & e1 & He1 & ->)|[Hne Hq]]%lookup_alter_Some.
      * rewrite He in He1. injection He1 as <-. rewrite bool_decide_true by done. split; [|cbn; lia]. split; [done|]. unfold closed_ok, f. cbn. intros Hx. destruct (Hcl Hx) as [?|[?|[Hy _]]]; auto. congruence.
      * rewrite bool_decide_false by congruence. destruct (H4 q e' Hq) as [Hok Hr]. split; [done|lia].
    + intros q e' Hq. cbn [heap]. destruct (decide (p = q)) as [<-|Hne].
      * rewrite lookup_alter_eq, He. rewrite He in Hq. injection Hq as <-. by exists (f e).
      * exists e'. rewrite lookup_alter_ne by done. split; [done|apply evolves_refl].
    + rewrite lookup_alter_eq, He. by eexists.
  - assert (Hf : heap c !! fresh c = None) by (destruct (heap c !! fresh c) as [e|] eqn:E; [apply H1 in E; lia|done]). split; [split|split]; cbn [heap entries fresh].
    + intros q e' [[<- _]|[_ Hq%H1]]%lookup_insert_Some; lia.
    + intros q [Hq Hne]%lookup_insert_None. rewrite bool_decide_false by done. rewrite H2 by done. lia.
    + intros k q [[<- <-]|[Hne Hq]]%lookup_insert_Some; [rewrite lookup_insert_eq; by eexists|]. destruct (H3 k q Hq) as (e' & He' & Hk' & Hv). exists e'.
      rewrite lookup_insert_ne; [done|]. intros <-. congruence.
    + intros q e' [[<- <-]|[Hne Hq]]%lookup_insert_Some.
      * rewrite bool_decide_true by done. rewrite (H2 _ Hf). split; [|done]. split; [|done]. split; [apply prefix_nil|]. cbn. repeat split; try lia; try done; by left.
      * rewrite bool_decide_false by done. destruct (H4 q e' Hq) as [Hok Hr]. split; [done|lia].
    + intros q e' Hq. cbn [heap]. exists e'. rewrite lookup_insert_ne by (intros <-; congruence). split; [done|apply evolves_refl].
    + rewrite lookup_insert_eq. by eexists.
Qed.

Lemma cache_release cl h p e c : cache_ok cl h c -> heap c !! p = Some e -> 0 < h p ->
  cache_ok cl (fun q => h q - if bool_decide (p = q) then 1 else 0) (set_entry p release c) /\ heap_evolves c (set_entry p release c).
Proof.
  intros Hc He Hp. pose proof Hc as [H1 H2 H3 H4]. destruct (H4 p e He) as [[Hd Hcl] Hrf].
  assert (Hrel : data_ok (release e) /\ e_refs (release e) = e_refs e - 1 /\ e_evicted (release e) = e_evicted e /\ evolves e (release e) /\ closed_ok cl (release e)).
  { unfold release. cbn [e_refs with_refs e_evicted]. destruct ((e_refs e - 1 =? 0) && e_evicted e) eqn:E.
    - apply andb_true_iff in E as [E1 E2]. b2p. split; [done|]. split; [done|]. split; [done|]. split; [split; [done|]; split; [cbn; lia|done]|]. intros _. right. right. cbn. split; [done|lia].
    - split; [done|]. split; [done|]. split; [done|]. split; [split; [done|]; split; [cbn; lia|done]|]. intros Hx. destruct (Hcl Hx) as [?|[?|[_ Hr]]]; [by left|right; by left|lia]. }
  destruct Hrel as (R1 & R2 & R3 & R4 & R5). split; [split|]; cbn [set_entry heap entries fresh].
  - intros q e' [(-> & e1 & He1 & _)|[_ Hq]]%lookup_alter_Some; by eapply H1.
  - intros q Hq. destruct (decide (p = q)) as [<-|Hne]; [by rewrite lookup_alter_eq, He in Hq|]. rewrite lookup_alter_ne in Hq by done. rewrite bool_decide_false by done. rewrite H2 by done. lia.
  - intros k q Hq. destruct (H3 k q Hq) as (e' & He' & Hk' & Hv). destruct (decide (p = q)) as [<-|Hne].
    + rewrite He in He'. injection He' as <-. exists (release e). rewrite lookup_alter_eq, He. split; [done|]. destruct R4 as [-> _]. by rewrite R3.
    + exists e'. by rewrite lookup_alter_ne.
  - intros q e' [(-> & e1 & He1 & ->)|[Hne Hq]]%lookup_alter_Some.
    + rewrite He in He1. injection He1 as <-. rewrite bool_decide_true by done. split; [by split|lia].
    + rewrite bool_decide_false by congruence. destruct (H4 q e' Hq) as [Hok Hr]. split; [done|lia].
  - intros q e' Hq. cbn [set_entry heap]. destruct (decide (p = q)) as [<-|Hne].
    + rewrite lookup_alter_eq, He. rewrite He in Hq. injection Hq as <-. by exists (release e).
    + exists e'. rewrite lookup_alter_ne by done. split; [done|apply evolves_refl].
Qed.

(** ** The download *)

Lemma data_file e : data_ok e -> exists rest, content (e_key e) = e_file e ++ rest.
Proof. intros ((rest & Hr) & _). by exists rest. Qed.

Lemma read_ok e chunk rest rerr : data_ok e -> e_phase e = Reading (chunk ++ rest) -> (rerr = Some (Sent EOF) -> rest = []) ->
  data_ok (to_phase (match chunk with [] => after_read rest rerr | _ => Wrote chunk rest rerr end) (append_file chunk e)).
Proof.
  intros (D1 & D2 & D3 & D4 & D5 & D6 & D7) Hph Hr. unfold phase_ok in D7. rewrite Hph in D7. destruct D7 as (Hb & Hn & Hd & He).
  assert (Hpre : e_file e ++ chunk `prefix_of` content (e_key e)) by (exists rest; by rewrite <-app_assoc).
  assert (Hlen : blen (e_file e ++ chunk) = blen (e_file e) + blen chunk) by (unfold blen; rewrite length_app; lia).
  assert (Ht : take (Z.to_nat (e_n e)) (e_file e ++ chunk) = take (Z.to_nat (e_n e)) (e_file e)).
  { rewrite Hn. unfold blen. by rewrite Nat2Z.id, take_app_length, firstn_all. }
  assert (Hpos : 0 <= blen chunk) by (unfold blen; lia).
  split; [exact Hpre|]. split; [done|]. split; [cbn; lia|]. split; [cbn; by rewrite Ht|]. split; [done|]. split; [cbn; by rewrite Hd|].
  unfold phase_ok. cbn [e_phase to_phase]. destruct chunk as [|x chunk].
  - cbn [app] in Hb. destruct rerr as [[[]| | | | | | |]|]; cbn [after_read]; try (cbn; by rewrite ?app_nil_r).
    cbn. rewrite !app_nil_r. rewrite (Hr eq_refl), app_nil_r in Hb. by rewrite Hb.
  - cbn. split; [by exists (e_file e)|]. by rewrite <-app_assoc.
Qed.

Lemma write_failed_ok e part rest err : data_ok e -> e_phase e = Reading (part ++ rest) -> data_ok (to_phase (Failing err) (append_file part e)).
Proof.
  intros (D1 & D2 & D3 & D4 & D5 & D6 & D7) Hph. unfold phase_ok in D7. rewrite Hph in D7. destruct D7 as (Hb & Hn & Hd & He).
  assert (Ht : take (Z.to_nat (e_n e)) (e_file e ++ part) = take (Z.to_nat (e_n e)) (e_file e)).
  { rewrite Hn. unfold blen. by rewrite Nat2Z.id, take_app_length, firstn_all. }
  split; [cbn; exists rest; by rewrite <-app_assoc|]. split; [done|]. split; [cbn; unfold blen in *; rewrite length_app; lia|]. split; [cbn; by rewrite Ht|].
  split; [done|]. split; [cbn; by rewrite Hd|done].
Qed.

Lemma announce_ok e chunk rest rerr : data_ok e -> e_phase e = Wrote chunk rest rerr ->
  data_ok (to_phase (after_read rest rerr) (announce chunk e)) /\ e_n (announce chunk e) = e_n e + blen chunk.
Proof.
  intros (D1 & D2 & D3 & D4 & D5 & D6 & D7) Hph. unfold phase_ok in D7. rewrite Hph in D7. destruct D7 as ((pre & Hf & Hn) & Hb & Hr & Hd & He).
  assert (Hpos : 0 <= blen chunk) by (unfold blen; lia). assert (Hfl : blen (e_file e) = e_n e + blen chunk) by (rewrite Hf, Hn; unfold blen; rewrite length_app; lia).
  assert (Hw : e_win e ++ chunk = drop (Z.to_nat (e_winStart e)) (e_file e)).
  { rewrite D4, Hf, Hn. unfold blen. rewrite Nat2Z.id, take_app_length. symmetry. apply drop_app_le. rewrite Hn in D2. unfold blen in D2. lia. }
  assert (Hall : take (Z.to_nat (e_n e + blen chunk)) (e_file e) = e_file e) by (rewrite <-Hfl; unfold blen; by rewrite Nat2Z.id, firstn_all).
  assert (Hph' : forall e', e_key e' = e_key e -> e_file e' = e_file e -> e_n e' = e_n e + blen chunk -> e_done e' = false -> e_err e' = None -> phase_ok (to_phase (after_read rest rerr) e')).
  { intros e' E1 E2 E3 E4 E5. unfold phase_ok. cbn [e_phase to_phase e_key]. destruct rerr as [[[]| | | | | | |]|]; cbn [after_read]; try done; cbn; rewrite ?E1, ?E2, ?E3; try done.
    rewrite (Hr eq_refl), app_nil_r in Hb. by rewrite Hb. }
  unfold announce. rewrite Hw. set (ws := e_winStart e) in *. assert (Hwl : blen (drop (Z.to_nat ws) (e_file e)) = blen (e_file e) - ws) by (unfold blen in *; rewrite length_drop; lia).
  rewrite Hwl. destruct (ringCap <? _) eqn:E; b2p; (split; [|done]).
  - assert (Hrc : 0 <= ringCap) by (unfold ringCap; lia). split; [done|]. split; [cbn; lia|]. split; [cbn; lia|]. split; [|split; [done|split; [cbn; by rewrite Hd|by apply Hph']]].
    cbn. rewrite Hall, drop_drop. f_equal. lia.
  - split; [done|]. split; [cbn; lia|]. split; [cbn; lia|]. split; [cbn; by rewrite Hall|]. split; [done|]. split; [cbn; by rewrite Hd|by apply Hph'].
Qed.

Lemma publish_ok e : data_ok e -> e_phase e = WClosed -> data_ok (to_phase Announced (publish_done e)).
Proof.
  intros (D1 & D2 & D3 & D4 & D5 & D6 & D7) Hph. unfold phase_ok in D7. rewrite Hph in D7. destruct D7 as (Hb & Hn & Hd & He).
  split; [done|]. split; [cbn; lia|]. split; [done|]. split; [cbn; rewrite drop_ge; [done|rewrite length_take; lia]|]. split; [cbn; by right|]. split; [cbn; intros _; by rewrite <-Hb|]. done.
Qed.

(** ** Reads *)

Definition disk_ok (e : packEntry) (pos : Z) (k : call) (n : Z) : Prop :=
  0 <= at_off pos k /\ 0 < n <= wanted k /\
  ((at_off pos k + n <= e_n e /\ match k with CReadAt n' _ => n = n' | CRead _ => True end) \/ (e_done e = true /\ match k with CReadAt n' _ => n = n' | CRead _ => False end)).

(** An answer that is right for the bytes [b]: a [ReadAt] that succeeds is full, a
    [Read] is a part; the end is where it is; an error is the download's. *)
Definition answer_ok (cl : bool) (e : packEntry) (pos : Z) (k : call) (r : bytes * option goerr) : Prop :=
  let b := content (e_key e) in
  let off := at_off pos k in
  match r with
  | (d, None) => 0 <= off /\ d `prefix_of` drop (Z.to_nat off) b /\
                 match k with CReadAt n _ => blen d = n | CRead n => blen d <= n /\ (0 < n -> 0 < blen d) end
  | (d, Some err) =>
      (off < 0 /\ d = [] /\ err = Errorf) \/
      (err = Sent EOF /\ 0 <= off /\ d = drop (Z.to_nat off) b /\ blen b < off + wanted k /\ match k with CReadAt _ _ => True | CRead _ => blen b <= off end) \/
      (d = [] /\ e_err e = Some err) \/
      (d = [] /\ err = Sent ErrClosed /\ (e_err e <> None \/ cl = true))
  end.

Lemma piece_ok e n off : data_ok e -> 0 <= off -> 0 <= n -> off + n <= blen (e_file e) ->
  take (Z.to_nat n) (drop (Z.to_nat off) (e_file e)) `prefix_of` drop (Z.to_nat off) (content (e_key e)) /\ blen (take (Z.to_nat n) (drop (Z.to_nat off) (e_file e))) = n.
Proof.
  intros [rest ->]%data_file Ho Hn Hl. unfold blen in *. split; [|rewrite length_take, length_drop; lia].
  rewrite drop_app_le by lia. apply prefix_app_r, prefix_take.
Qed.

Lemma window_ok e n off : data_ok e -> e_winStart e <= off <= e_n e -> 0 <= n ->
  fst (from_window e n off) = take (Z.to_nat (Z.min n (e_n e - off))) (drop (Z.to_nat off) (e_file e)).
Proof.
  intros (D1 & D2 & D3 & D4 & _) Ho Hn. unfold from_window. cbn [fst]. rewrite D4, drop_drop. replace (Z.to_nat (e_winStart e) + Z.to_nat (off - e_winStart e))%nat with (Z.to_nat off) by lia.
  rewrite !take_drop_commute, take_take. f_equal. f_equal. lia.
Qed.

Lemma decide_ok cl e pos k : data_ok e -> 0 <= wanted k ->
  match decide_call e pos k with
  | Some (Answer r) => answer_ok cl e pos k r
  | Some (FromDisk n) => disk_ok e pos k n
  | None => e_err e = None /\ e_done e = false
  end.
Proof.
  intros Hd Hw. pose proof Hd as (D1 & D2 & D3 & D4 & D5 & D6 & _). pose proof (prefix_length _ _ D1) as Hpl.
  assert (Hend : forall off, (0 <=? e_size e) && (e_size e <=? off) = true -> 0 <= off /\ blen (content (e_key e)) <= off /\ [] = drop (Z.to_nat off) (content (e_key e))).
  { intros off [E1 E2]%andb_true_iff. b2p. destruct D5 as [D5|D5]; [lia|]. rewrite D5 in E2. split; [unfold blen in E2; lia|]. split; [done|]. rewrite drop_ge; [done|unfold blen in E2; lia]. }
  assert (Hwin : forall n off, 0 <= off -> 0 <= n -> e_winStart e <= off -> off <= e_n e -> let d := fst (from_window e n off) in
    d `prefix_of` drop (Z.to_nat off) (content (e_key e)) /\ blen d = Z.min n (e_n e - off)).
  { intros n off H0 Hn H1 H2 d. subst d. rewrite window_ok by (done || lia). apply piece_ok; [done|done|lia|lia]. }
  destruct k as [n off|n]; cbn [decide_call wanted] in *; unfold readAt, readSome; cbn [at_off].
  - destruct (off <? 0) eqn:E1; b2p; [left; cbn; done|]. destruct (n =? 0) eqn:E2; b2p; [cbn; split; [done|]; split; [apply prefix_nil|done]|].
    destruct (e_err e) as [err|] eqn:Ee; [right; right; left; done|]. destruct (_ && _) eqn:E3.
    { apply Hend in E3 as (A1 & A2 & A3). right. left. split; [done|]. split; [done|]. split; [done|]. split; [cbn; lia|done]. }
    destruct (off + n <=? e_n e) eqn:E4; b2p.
    + destruct (e_winStart e <=? off) eqn:E5; b2p.
      * destruct (Hwin n off) as [W1 W2]; [lia..|]. unfold from_window in *. cbn [fst] in *. split; [done|]. split; [exact W1|]. cbn. rewrite W2. lia.
      * split; [done|]. split; [cbn; lia|]. left. split; [done|done].
    + destruct (e_done e) eqn:Ed; [|done]. split; [done|]. split; [cbn; lia|]. right. done.
  - destruct (pos <? 0) eqn:E1; b2p; [left; cbn; done|]. destruct (n =? 0) eqn:E2; b2p; [cbn; split; [done|]; split; [apply prefix_nil|]; split; [done|lia]|].
    destruct (e_err e) as [err|] eqn:Ee; [right; right; left; done|]. destruct (_ && _) eqn:E3.
    { apply Hend in E3 as (A1 & A2 & A3). right. left. split; [done|]. split; [done|]. split; [done|]. split; [cbn; lia|done]. }
    destruct (pos <? e_n e) eqn:E4; b2p.
    + destruct (e_winStart e <=? pos) eqn:E5; b2p.
      * destruct (Hwin n pos) as [W1 W2]; [lia..|]. unfold from_window in *. cbn [fst] in *. split; [done|]. split; [exact W1|]. rewrite W2. lia.
      * split; [done|]. split; [cbn; lia|]. left. split; [cbn; lia|done].
    + destruct (e_done e) eqn:Ed; [|done]. destruct (D6 eq_refl) as (F1 & F2 & _). right. left. split; [done|]. split; [done|].
      rewrite F2 in E4. split; [rewrite drop_ge; [done|cbn [at_off]; unfold blen in E4; lia]|]. cbn [at_off wanted]. lia.
Qed.

Lemma pread_ok cl e pos k n : entry_ok cl e -> 0 < e_refs e -> disk_ok e pos k n -> answer_ok cl e pos k (pread e n (at_off pos k)).
Proof.
  intros [Hd Hcl] Hrf (H0 & Hn & Hcase). unfold pread. destruct (e_closed e) eqn:Ec.
  { right. right. right. split; [done|]. split; [done|]. destruct (Hcl Ec) as [?|[?|[_ Hz]]]; [by left|by right|lia]. }
  destruct Hcase as [[Hle Hk]|[Hdone Hk]].
  - destruct (piece_ok e n (at_off pos k) Hd H0) as [P1 P2]; [lia|destruct Hd as (_ & _ & Hx & _); lia|]. rewrite P2. rewrite (proj2 (Z.ltb_ge n n)) by lia.
    split; [done|]. split; [exact P1|]. rewrite P2. destruct k as [n' off|n']; cbn in *; [done|lia].
  - destruct Hd as (_ & _ & _ & _ & _ & D6 & _). destruct (D6 Hdone) as (F1 & _). rewrite F1. set (b := content (e_key e)) in *. destruct k as [n' off|]; [|done]. subst n'. cbn [at_off wanted] in *.
    destruct (_ <? n) eqn:E; b2p.
    + right. left. unfold blen in *. rewrite length_take, length_drop in E. split; [done|]. split; [done|]. cbn [wanted at_off]. split; [rewrite take_ge; [done|rewrite length_drop; lia]|]. unfold blen. fold b. split; [lia|done].
    + split; [done|]. split; [apply prefix_take|]. unfold blen in *. rewrite length_take, length_drop in *. lia.
Qed.

(** ** Callers *)

Definition caller_ok (cl : bool) (c : PackCache) (k : caller) : Prop :=
  match k with
  | Opening p | Running p => is_Some (heap c !! p)
  | Checking p | Holding p _ => exists e, heap c !! p = Some e /\ started (e_phase e) = true
  | AtDisk p pos k n => exists e, heap c !! p = Some e /\ started (e_phase e) = true /\ disk_ok e pos k n
  | Answered p pos k r => exists e, heap c !! p = Some e /\ started (e_phase e) = true /\ answer_ok cl e pos k r
  | Refused _ | Gone => True
  end.

Lemma caller_evolves cl c c' k : heap_evolves c c' -> caller_ok cl c k -> caller_ok cl c' k.
Proof.
  intros Hl. destruct k as [p|p|p|p pos|p pos k n|p pos k r| |]; cbn; try done.
  - intros [e He]. destruct (Hl p e He) as (e' & He' & _). by exists e'.
  - intros [e He]. destruct (Hl p e He) as (e' & He' & _). by exists e'.
  - intros (e & He & Hs). destruct (Hl p e He) as (e' & He' & _ & _ & _ & _ & Hs'). exists e'. auto.
  - intros (e & He & Hs). destruct (Hl p e He) as (e' & He' & _ & _ & _ & _ & Hs'). exists e'. auto.
  - intros (e & He & Hs & H0 & Hn & Hc). destruct (Hl p e He) as (e' & He' & _ & Hle & Hd & _ & Hs'). exists e'. split; [done|]. split; [auto|]. split; [done|]. split; [done|].
    destruct Hc as [[? ?]|[? ?]]; [left; split; [lia|done]|right; auto].
  - intros (e & He & Hs & Ha). destruct (Hl p e He) as (e' & He' & Hk & _ & _ & Herr & Hs'). exists e'. split; [done|]. split; [auto|]. unfold answer_ok in *. rewrite Hk.
    destruct r as [d [err|]]; [|done]. destruct Ha as [Ha|[Ha|[[? Ha]|(? & ? & Ha)]]]; [by left|right; by left|right; right; left; auto|right; right; right].
    split; [done|]. split; [done|]. destruct Ha as [Ha|Ha]; [left|by right]. destruct (e_err e) as [x|]; [|done]. by rewrite (Herr x eq_refl).
Qed.

Definition sys_ok (s : Sys) : Prop :=
  cache_ok (cleaned s) (holders (callers s)) (cache s) /\ forall i k, callers s !! i = Some k -> caller_ok (cleaned s) (cache s) k.

Lemma sys_pump s c' : sys_ok s -> cache_ok (cleaned s) (holders (callers s)) c' -> heap_evolves (cache s) c' -> sys_ok (pump c' s).
Proof. intros [_ Hk] Hc Hl. split; [done|]. intros i k Hi. eapply caller_evolves; [exact Hl|]. by apply (Hk i). Qed.

Lemma sys_move s i k0 k c' h : sys_ok s -> callers s !! i = Some k0 -> cache_ok (cleaned s) h c' -> (forall p, h p = holders (callers s) p + bit p k - bit p k0) ->
  heap_evolves (cache s) c' -> caller_ok (cleaned s) c' k -> sys_ok (move i k c' s).
Proof.
  intros [_ Hk] Hi Hc Hh Hl Hn. split; cbn [move cache callers cleaned].
  - eapply cache_ext; [|exact Hc]. intros p. by rewrite Hh, (holders_move _ _ k0).
  - intros j k' [[<- <-]|[_ Hj]]%lookup_insert_Some; [done|]. eapply caller_evolves; [exact Hl|]. by apply (Hk j).
Qed.

(** ** Every step keeps it *)

(** The part that the phase has no say in. *)
Definition core_ok (e : packEntry) : Prop :=
  let b := content (e_key e) in
  e_file e `prefix_of` b /\ 0 <= e_winStart e <= e_n e /\ e_n e <= blen (e_file e) /\ e_win e = drop (Z.to_nat (e_winStart e)) (take (Z.to_nat (e_n e)) (e_file e)) /\
  (e_size e = -1 \/ e_size e = blen b) /\ (e_done e = true -> e_file e = b /\ e_n e = blen b /\ e_size e = blen b /\ e_winStart e = e_n e).
Lemma data_core e : data_ok e -> core_ok e.
Proof. intros (D1 & D2 & D3 & D4 & D5 & D6 & _). unfold core_ok. split_and!; try done; apply D2. Qed.
Lemma phase_data e ph : core_ok e -> phase_ok (to_phase ph e) -> data_ok (to_phase ph e).
Proof. intros (D1 & D2 & D3 & D4 & D5 & D6) Hp. split; [exact D1|]. split; [exact D2|]. split; [exact D3|]. split; [exact D4|]. split; [exact D5|]. by split. Qed.

(** A change of one entry that keeps its references and descriptors. *)
Definition tame (e e' : packEntry) : Prop := e_refs e' = e_refs e /\ e_evicted e' = e_evicted e /\ e_closed e' = e_closed e.
Lemma cache_tame cl h c p e f : cache_ok cl h c -> heap c !! p = Some e -> tame e (f e) -> evolves e (f e) -> data_ok (f e) ->
  cache_ok cl h (set_entry p f c) /\ heap_evolves c (set_entry p f c).
Proof.
  intros Hc He (T1 & T2 & T3) Hl Hd. apply (cache_set cl h c p e); [done..|]. split; [done|]. destruct (entries_ok cl h c Hc p e He) as [[_ Hcl] _].
  unfold closed_ok. rewrite T1, T2, T3. intros Hx. destruct (Hcl Hx) as [Hy|[?|?]]; [left|right; by left|right; by right].
  destruct Hl as (_ & _ & _ & Herr & _). destruct (e_err e) as [x|]; [|done]. by rewrite (Herr x eq_refl).
Qed.
Lemma sys_tame s p e f : sys_ok s -> heap (cache s) !! p = Some e -> tame e (f e) -> evolves e (f e) -> data_ok (f e) -> sys_ok (pump (set_entry p f (cache s)) s).
Proof. intros Hs He Ht Hl Hd. destruct (cache_tame _ _ _ p e f (proj1 Hs) He Ht Hl Hd). by apply sys_pump. Qed.

Lemma sys_entry s p e : sys_ok s -> heap (cache s) !! p = Some e -> entry_ok (cleaned s) e /\ e_refs e = holders (callers s) p.
Proof. intros [Hc _]. by apply entries_ok. Qed.
Lemma sys_data s p e : sys_ok s -> heap (cache s) !! p = Some e -> data_ok e.
Proof. intros Hs He. by apply (sys_entry s p e Hs He). Qed.

Lemma cache_reserve cl h c p e : cache_ok cl h c -> heap c !! p = Some e -> e_phase e = Installed ->
  cache_ok cl h (reserve maxBytes content p c) /\ heap_evolves c (reserve maxBytes content p c) /\ exists e', heap (reserve maxBytes content p c) !! p = Some e' /\ started (e_phase e') = true.
Proof.
  intros Hc He Hph. destruct (entries_ok cl h c Hc p e He) as [[Hd _] _]. pose proof Hd as (_ & _ & _ & _ & _ & _ & D7). unfold phase_ok in D7. rewrite Hph in D7. destruct D7 as (F1 & F2 & F3 & F4).
  unfold reserve. rewrite He. set (f := to_phase (Reading (content (e_key e)))). set (c1 := set_entry p f c).
  destruct (cache_tame cl h c p e f Hc He) as [Hc1 Hl1]; [done|split; [done|]; split; [cbn; lia|done]|apply phase_data; [by apply data_core|]; unfold phase_ok; cbn; rewrite F1, F2; done|]. fold c1 in Hc1, Hl1.
  assert (He1 : heap c1 !! p = Some (f e)) by (cbn; by rewrite lookup_alter_eq, He).
  destruct (0 <? e_size e); [|by split; [|split; [|exists (f e)]]].
  destruct (cache_tame cl h c1 p (f e) (with_reserved (e_size e)) Hc1 He1) as [Hc2 Hl2]; [done|split; [done|]; split; [cbn; lia|done]|apply (entries_ok cl h c1 Hc1 p (f e) He1)|].
  set (c2 := set_entry p _ c1) in *. destruct (cache_map cl h c2 (entries c) (curBytes c + e_size e) Hc2) as [Hc3 Hl3]; [done|].
  destruct (cache_evict cl h (e_key e) _ Hc3) as [Hc4 Hl4]. split; [exact Hc4|]. assert (Hl14 : heap_evolves c1 (evictLocked maxBytes (e_key e) (set_map (entries c) (curBytes c + e_size e) c2)))
    by (eapply heap_trans; [exact Hl2|]; eapply heap_trans; [exact Hl3|exact Hl4]).
  split; [eapply heap_trans; [exact Hl1|exact Hl14]|]. destruct (Hl14 p (f e) He1) as (e' & He' & _ & _ & _ & _ & Hs). exists e'. by split; [|apply Hs].
Qed.

Lemma cache_reconcile cl h c p e : cache_ok cl h c -> heap c !! p = Some e -> cache_ok cl h (reconcile maxBytes p c) /\ heap_evolves c (reconcile maxBytes p c).
Proof.
  intros Hc He. unfold reconcile. rewrite He. destruct (negb _); [|split; [done|apply heap_refl]].
  destruct (cache_tame cl h c p e (with_reserved (e_n e)) Hc He) as [Hc2 Hl2]; [done|split; [done|]; split; [cbn; lia|done]|apply (entries_ok cl h c Hc p e He)|].
  set (c2 := set_entry p _ c) in *. destruct (cache_map cl h c2 (entries c) (curBytes c + (e_n e - e_reserved e)) Hc2) as [Hc3 Hl3]; [done|].
  destruct (cache_evict cl h (e_key e) _ Hc3) as [Hc4 Hl4]. split; [exact Hc4|]. eapply heap_trans; [exact Hl2|]. eapply heap_trans; [exact Hl3|exact Hl4].
Qed.

Lemma cache_cleanup cl h c : cache_ok cl h c -> cache_ok true h (Cleanup c) /\ heap_evolves c (Cleanup c).
Proof.
  intros [H1 H2 H3 H4]. set (g := fun p e => if bool_decide (entries c !! e_key e = Some p) then with_fds (e_path e) false true (e_evicted e) e else e).
  assert (Hl : forall p, heap (Cleanup c) !! p = g p <$> heap c !! p) by (intros p; cbn; rewrite map_lookup_imap; by destruct (heap c !! p)).
  assert (Hg : forall p e, e_refs (g p e) = e_refs e /\ (data_ok e -> data_ok (g p e)) /\ evolves e (g p e)).
  { intros p e. unfold g. case_bool_decide; (split; [done|]; split; [done|]); [split; [done|]; split; [cbn; lia|done]|apply evolves_refl]. }
  split.
  - split.
    + intros p e' Hp. rewrite Hl in Hp. destruct (heap c !! p) as [e|] eqn:E; [|done]. by eapply H1.
    + intros p Hp. rewrite Hl in Hp. apply H2. by destruct (heap c !! p).
    + intros k p Hk. cbn in Hk. by rewrite lookup_empty in Hk.
    + intros p e' Hp. rewrite Hl in Hp. destruct (heap c !! p) as [e|] eqn:E; [|done]. injection Hp as <-. destruct (H4 p e E) as [[Hd _] Hr]. destruct (Hg p e) as (G1 & G2 & _).
      split; [split; [by apply G2|intros _; right; by left]|by rewrite G1].
  - intros p e He. exists (g p e). rewrite Hl, He. split; [done|]. apply Hg.
Qed.

(** The phase's part of an entry's invariant. *)
Lemma sys_phase s p e : sys_ok s -> heap (cache s) !! p = Some e -> phase_ok e.
Proof. intros Hs He. by apply (sys_data s p e Hs He). Qed.
Lemma sys_phase_only s p e ph : sys_ok s -> heap (cache s) !! p = Some e -> phase_ok (to_phase ph e) -> (started (e_phase e) = true -> started ph = true) ->
  cache_ok (cleaned s) (holders (callers s)) (set_entry p (to_phase ph) (cache s)) /\ heap_evolves (cache s) (set_entry p (to_phase ph) (cache s)).
Proof. intros Hs He Hp Hst. apply (cache_tame _ _ _ p e); [apply Hs|done|done|split; [done|split; [cbn; lia|done]]|]. apply phase_data; [by eapply data_core, sys_data|done]. Qed.

#[local] Ltac phase_of Hs He Hph := let D := fresh "D" in pose proof (sys_phase _ _ _ Hs He) as D; unfold phase_ok in D; rewrite Hph in D.
#[local] Ltac evolving Hph := split; [done|split; [cbn; try lia|split; [cbn; try done|split; [cbn; try congruence|cbn; rewrite ?Hph; try done]]]].

Lemma step_open_ok s i key p c : sys_ok s -> callers s !! i = None -> acquire key (cache s) = (p, c) -> sys_ok (move i (Opening p) c s).
Proof.
  intros [Hc Hk] Hi Ha. destruct (cache_acquire _ _ _ _ _ _ Hc Ha) as (Hc' & Hl & Hp). split; cbn [move cache callers cleaned].
  - eapply cache_ext; [|exact Hc']. intros q. rewrite holders_new by done. unfold bit. cbn. by case_bool_decide.
  - intros j k' [[<- <-]|[_ Hj]]%lookup_insert_Some; [done|]. eapply caller_evolves; [exact Hl|]. by apply (Hk j).
Qed.

(** A caller moves on with the entry it holds, or lets go of it. *)
Lemma step_keep_ok s i k0 k c' : sys_ok s -> callers s !! i = Some k0 -> (forall q, bit q k = bit q k0) ->
  cache_ok (cleaned s) (holders (callers s)) c' /\ heap_evolves (cache s) c' -> caller_ok (cleaned s) c' k -> sys_ok (move i k c' s).
Proof. intros Hs Hi Hb [Hc Hl] Hn. eapply sys_move; [done|exact Hi|exact Hc| |done|done]. intros q. rewrite Hb. lia. Qed.
Lemma step_stay_ok s i k0 k : sys_ok s -> callers s !! i = Some k0 -> (forall q, bit q k = bit q k0) -> caller_ok (cleaned s) (cache s) k -> sys_ok (move i k (cache s) s).
Proof. intros Hs Hi Hb Hn. eapply step_keep_ok; [done|exact Hi|done|split; [apply Hs|apply heap_refl]|done]. Qed.
Lemma step_release_ok s i k0 k p e : sys_ok s -> callers s !! i = Some k0 -> heap (cache s) !! p = Some e -> (forall q, bit q k0 = if bool_decide (p = q) then 1 else 0) ->
  (forall q, bit q k = 0) -> (forall cl c, caller_ok cl c k) -> sys_ok (move i k (set_entry p release (cache s)) s).
Proof.
  intros Hs Hi He Hb Hz Hn. assert (Hpos : 0 < holders (callers s) p).
  { apply (holders_pos _ i k0); [done|]. specialize (Hb p). rewrite bool_decide_true in Hb by done. unfold bit in Hb. by destruct (holds p k0). }
  destruct (cache_release _ _ p e _ (proj1 Hs) He Hpos) as [Hc Hl]. eapply sys_move; [done|exact Hi|exact Hc| |done|done]. intros q. rewrite Hb, Hz. cbn. lia.
Qed.

Lemma start_failed_ok s p e err : sys_ok s -> heap (cache s) !! p = Some e -> e_phase e = Starting -> sys_ok (pump (set_entry p (to_phase (Dropped err)) (drop_mapped p (cache s))) s).
Proof.
  intros Hs He Hph. pose proof (data_core e (sys_data s p e Hs He)) as Hd. phase_of Hs He Hph.
  destruct (cache_drop _ _ _ p (proj1 Hs)) as (Hc & Hl & Hh). assert (He' : heap (drop_mapped p (cache s)) !! p = Some e) by (by rewrite Hh).
  destruct (cache_tame _ _ _ p e (to_phase (Dropped err)) Hc He') as [Hc' Hl']; [done|evolving Hph|by apply phase_data|]. apply sys_pump; [done|exact Hc'|by eapply heap_trans].
Qed.
Lemma dropped_ok s i p e err : sys_ok s -> callers s !! i = Some (Running p) -> heap (cache s) !! p = Some e -> e_phase e = Dropped err ->
  sys_ok (move i (Checking p) (set_entry p (fun e => to_phase Stopped (with_err (Some err) e)) (cache s)) s).
Proof.
  intros Hs Hi He Hph. pose proof (data_core e (sys_data s p e Hs He)) as Hd. phase_of Hs He Hph. destruct D as (D1 & D2 & D3 & D4). eapply step_keep_ok; [done|exact Hi|done| |].
  - apply (cache_tame _ _ _ p e); [apply Hs|done|done|evolving Hph|]. apply (phase_data (with_err (Some err) e) Stopped); [done|by right].
  - cbn. rewrite lookup_alter_eq, He. by eexists.
Qed.
Lemma installed_ok s p e sz : sys_ok s -> heap (cache s) !! p = Some e -> e_phase e = Starting -> sz = -1 \/ sz = blen (content (e_key e)) -> sys_ok (pump (set_entry p (installed sz) (cache s)) s).
Proof.
  intros Hs He Hph Hsz. pose proof (data_core e (sys_data s p e Hs He)) as (D1 & D2 & D3 & D4 & D5 & D6). phase_of Hs He Hph. destruct D as (F1 & F2 & F3 & F4).
  apply (sys_tame _ p e); [done..|evolving Hph|]. unfold installed. apply phase_data; [|done]. split; [exact D1|]. split; [exact D2|]. split; [exact D3|]. split; [exact D4|]. split; [exact Hsz|]. cbn. by rewrite F3.
Qed.
Lemma reserve_ok s i p e : sys_ok s -> callers s !! i = Some (Running p) -> heap (cache s) !! p = Some e -> e_phase e = Installed ->
  sys_ok (move i (Checking p) (reserve maxBytes content p (cache s)) s).
Proof.
  intros Hs Hi He Hph. destruct (cache_reserve _ _ _ p e (proj1 Hs) He Hph) as (Hc & Hl & Hn). eapply step_keep_ok; [done|exact Hi|done|by split|done].
Qed.

Lemma pump_read_ok s p e chunk rest rerr : sys_ok s -> heap (cache s) !! p = Some e -> e_phase e = Reading (chunk ++ rest) -> (rerr = Some (Sent EOF) -> rest = []) ->
  sys_ok (pump (set_entry p (fun e => to_phase (match chunk with [] => after_read rest rerr | _ => Wrote chunk rest rerr end) (append_file chunk e)) (cache s)) s).
Proof.
  intros Hs He Hph Hr. phase_of Hs He Hph. destruct D as (D1 & D2 & D3 & D4). apply (sys_tame _ p e); [done..| |apply read_ok; [by eapply sys_data|done|done]].
  evolving Hph. intros _. destruct chunk; [|done]. by destruct rerr as [[[]| | | | | | |]|].
Qed.
Lemma pump_write_failed_ok s p e part rest err : sys_ok s -> heap (cache s) !! p = Some e -> e_phase e = Reading (part ++ rest) ->
  sys_ok (pump (set_entry p (fun e => to_phase (Failing err) (append_file part e)) (cache s)) s).
Proof.
  intros Hs He Hph. phase_of Hs He Hph. destruct D as (D1 & D2 & D3 & D4). apply (sys_tame _ p e); [done..|evolving Hph|]. eapply write_failed_ok; [by eapply sys_data|done].
Qed.
Lemma pump_announce_ok s p e chunk rest rerr : sys_ok s -> heap (cache s) !! p = Some e -> e_phase e = Wrote chunk rest rerr ->
  sys_ok (pump (set_entry p (fun e => to_phase (after_read rest rerr) (announce chunk e)) (cache s)) s).
Proof.
  intros Hs He Hph. phase_of Hs He Hph. destruct D as (D1 & D2 & D3 & D4 & D5). destruct (announce_ok e chunk rest rerr (sys_data s p e Hs He) Hph) as [Ha Hn].
  assert (Hx : tame e (announce chunk e) /\ e_key (announce chunk e) = e_key e /\ e_done (announce chunk e) = e_done e /\ e_err (announce chunk e) = e_err e) by (unfold announce; by destruct (ringCap <? _)).
  destruct Hx as (X1 & X2 & X3 & X4). apply (sys_tame _ p e); [done|done|exact X1| |exact Ha]. split; [exact X2|]. split; [cbn [e_n to_phase]; rewrite Hn; unfold blen; lia|].
  split; [cbn [e_done to_phase]; by rewrite X3|]. split; [cbn [e_err to_phase]; by rewrite X4|]. intros _. cbn. by destruct rerr as [[[]| | | | | | |]|].
Qed.
Lemma pump_publish_ok s p e : sys_ok s -> heap (cache s) !! p = Some e -> e_phase e = WClosed -> sys_ok (pump (set_entry p (fun e => to_phase Announced (publish_done e)) (cache s)) s).
Proof.
  intros Hs He Hph. phase_of Hs He Hph. destruct D as (D1 & D2 & D3 & D4). apply (sys_tame _ p e); [done..|evolving Hph|]. apply publish_ok; [by eapply sys_data|done].
Qed.
Lemma pump_reconcile_ok s p e : sys_ok s -> heap (cache s) !! p = Some e -> e_phase e = Announced -> sys_ok (pump (set_entry p (to_phase Settled) (reconcile maxBytes p (cache s))) s).
Proof.
  intros Hs He Hph. phase_of Hs He Hph. destruct (cache_reconcile _ _ _ p e (proj1 Hs) He) as [Hc Hl]. destruct (Hl p e He) as (e' & He' & _ & _ & Hdone & _ & Hst).
  destruct (cache_tame _ _ _ p e' (to_phase Settled) Hc He') as [Hc' Hl']; [done|split; [done|split; [cbn; lia|done]]| |].
  - apply phase_data; [apply data_core, (entries_ok _ _ _ Hc p e' He')|]. by apply Hdone.
  - apply sys_pump; [done|exact Hc'|by eapply heap_trans].
Qed.
Lemma pump_leave_ok s p e : sys_ok s -> heap (cache s) !! p = Some e -> e_phase e = Settled -> sys_ok (pump (set_entry p (fun e => to_phase Stopped (maybeCloseEvicted e)) (cache s)) s).
Proof.
  intros Hs He Hph. phase_of Hs He Hph. destruct (sys_entry s p e Hs He) as [[Hd Hcl] _].
  assert (Hx : e_refs (maybeCloseEvicted e) = e_refs e /\ e_evicted (maybeCloseEvicted e) = e_evicted e /\ evolves e (to_phase Stopped (maybeCloseEvicted e)) /\
    data_ok (to_phase Stopped (maybeCloseEvicted e)) /\ closed_ok (cleaned s) (to_phase Stopped (maybeCloseEvicted e))).
  { apply data_core in Hd. unfold maybeCloseEvicted. destruct (_ && _) eqn:E.
    - apply andb_true_iff in E as [E1 E2]. b2p. split; [done|]. split; [done|]. split; [evolving Hph|]. split; [apply phase_data; [exact Hd|by left]|]. intros _. right. by right.
    - split; [done|]. split; [done|]. split; [evolving Hph|]. split; [apply phase_data; [exact Hd|by left]|exact Hcl]. }
  destruct Hx as (X1 & X2 & X3 & X4 & X5). destruct (cache_set _ _ _ p e (fun e => to_phase Stopped (maybeCloseEvicted e)) (proj1 Hs) He X2 X1 X3) as [Hc Hl]; [by split|]. by apply sys_pump.
Qed.
Lemma fail_unmap_ok s p e err : sys_ok s -> heap (cache s) !! p = Some e -> e_phase e = Failing err -> sys_ok (pump (set_entry p (to_phase (Unmapped err)) (drop_mapped p (cache s))) s).
Proof.
  intros Hs He Hph. pose proof (data_core e (sys_data s p e Hs He)) as Hd. phase_of Hs He Hph.
  destruct (cache_drop _ _ _ p (proj1 Hs)) as (Hc & Hl & Hh). assert (He' : heap (drop_mapped p (cache s)) !! p = Some e) by (by rewrite Hh).
  destruct (cache_tame _ _ _ p e (to_phase (Unmapped err)) Hc He') as [Hc' Hl']; [done|evolving Hph|by apply phase_data|]. apply sys_pump; [done|exact Hc'|by eapply heap_trans].
Qed.
Lemma fail_entry_ok s p e err : sys_ok s -> heap (cache s) !! p = Some e -> e_phase e = Unmapped err -> sys_ok (pump (set_entry p (fun e => to_phase (Releasing (e_reserved e)) (fail_entry err e)) (cache s)) s).
Proof.
  intros Hs He Hph. pose proof (data_core e (sys_data s p e Hs He)) as Hd. phase_of Hs He Hph. destruct D as [D1 D2]. apply (sys_tame _ p e); [done..|evolving Hph|].
  apply (phase_data (fail_entry err e)); [exact Hd|]. discriminate.
Qed.
Lemma fail_release_ok s p e z : sys_ok s -> heap (cache s) !! p = Some e -> e_phase e = Releasing z -> sys_ok (pump (set_entry p (fun e => to_phase (Refunding z) (closeRead e)) (cache s)) s).
Proof.
  intros Hs He Hph. pose proof (data_core e (sys_data s p e Hs He)) as Hd. phase_of Hs He Hph.
  destruct (cache_set _ _ _ p e (fun e => to_phase (Refunding z) (closeRead e)) (proj1 Hs) He) as [Hc Hl]; [done|done|evolving Hph| |by apply sys_pump].
  split; [apply (phase_data (closeRead e)); [exact Hd|exact D]|]. intros _. by left.
Qed.
Lemma fail_refund_ok s p e z : sys_ok s -> heap (cache s) !! p = Some e -> e_phase e = Refunding z ->
  sys_ok (pump (set_entry p (to_phase Stopped) (set_map (entries (cache s)) (curBytes (cache s) - z) (cache s))) s).
Proof.
  intros Hs He Hph. pose proof (data_core e (sys_data s p e Hs He)) as Hd. phase_of Hs He Hph.
  destruct (cache_map _ _ _ (entries (cache s)) (curBytes (cache s) - z) (proj1 Hs)) as [Hc Hl]; [done|].
  destruct (cache_tame _ _ _ p e (to_phase Stopped) Hc He) as [Hc' Hl']; [done|evolving Hph|apply phase_data; [done|by right]|]. apply sys_pump; [done|exact Hc'|exact (heap_trans _ _ _ Hl Hl')].
Qed.

Lemma cleanup_ok s : sys_ok s -> sys_ok {| cache := Cleanup (cache s); callers := callers s; cleaned := true |}.
Proof.
  intros [Hc Hk]. destruct (cache_cleanup _ _ _ Hc) as [Hc' Hl]. split; [exact Hc'|]. intros i k Hi. eapply caller_evolves; [exact Hl|]. specialize (Hk i k Hi).
  destruct k as [| | | | |p pos k [d [err|]]| |]; try exact Hk. destruct Hk as (e & He & Hs & Ha). exists e. split; [done|]. split; [done|].
  destruct Ha as [Ha|[Ha|[Ha|(A1 & A2 & A3)]]]; [by left|by right; left|by right; right; left|right; right; right]. split; [done|]. split; [done|by right].
Qed.

Lemma stream_step_ok s s' : sys_ok s -> step s s' -> sys_ok s'.
Proof.
  intros Hs Hst. pose proof Hs as [Hc Hk].
  destruct Hst as [i key p c Hi Ha|i p e Hi He Hph|i p e Hi He Hst|i p e err Hi He Herr|i p e Hi He Herr
    |i p e err Hi He Hph|i p e err Hi He Hph|i p e sz Hi He Hph Hsz|i p e Hi He Hph
    |p e chunk rest rerr He Hph Hw Hr|p e part chunk rest err He Hph|p e chunk rest rerr He Hph|p e He Hph Hw|p e err He Hph|p e He Hph|p e He Hph|p e He Hph
    |p e err He Hph|p e err He Hph|p e z He Hph|p e z He Hph
    |i p pos e k r Hi He Hn Ho Hd|i p pos e k n Hi He Hn Ho Hd|i p pos e k n Hi He|i p pos k r Hi|i p pos offset Hi|i p pos e offset n Hi He Hsz|i p pos e Hi He|].
  - by eapply step_open_ok.
  - phase_of Hs He Hph. eapply step_keep_ok; [done|exact Hi|done|apply (sys_phase_only s p e); [done..|by rewrite Hph]|]. cbn. rewrite lookup_alter_eq, He. by eexists.
  - eapply step_stay_ok; [done|exact Hi|done|]. by exists e.
  - by apply (step_release_ok s i (Checking p) (Refused err) p e).
  - eapply step_stay_ok; [done|exact Hi|done|]. exact (Hk i _ Hi).
  - by apply start_failed_ok with e.
  - by apply dropped_ok with e.
  - by apply installed_ok with e.
  - by apply reserve_ok with e.
  - by apply pump_read_ok with e.
  - by apply pump_write_failed_ok with e (chunk ++ rest).
  - by apply pump_announce_ok with e.
  - phase_of Hs He Hph. destruct (sys_phase_only s p e WClosed) as [Hc' Hl]; [done..|]. by apply sys_pump.
  - phase_of Hs He Hph. destruct D as (_ & _ & D3 & D4). destruct (sys_phase_only s p e (Failing err)) as [Hc' Hl]; [done..|]. by apply sys_pump.
  - by apply pump_publish_ok with e.
  - by apply pump_reconcile_ok with e.
  - by apply pump_leave_ok with e.
  - by apply fail_unmap_ok with e.
  - by apply fail_entry_ok with e.
  - by apply fail_release_ok with e.
  - by apply fail_refund_ok with e.
  - pose proof (decide_ok (cleaned s) e pos k (sys_data s p e Hs He) Hn) as Ha. rewrite Hd in Ha. eapply step_stay_ok; [done|exact Hi|done|].
    destruct (Hk i _ Hi) as (e' & He' & Hst). rewrite He in He'. injection He' as <-. by exists e.
  - pose proof (decide_ok (cleaned s) e pos k (sys_data s p e Hs He) Hn) as Ha. rewrite Hd in Ha. eapply step_stay_ok; [done|exact Hi|done|].
    destruct (Hk i _ Hi) as (e' & He' & Hst). rewrite He in He'. injection He' as <-. by exists e.
  - destruct (Hk i _ Hi) as (e' & He' & Hst & Hdk). rewrite He in He'. injection He' as <-. destruct (sys_entry s p e Hs He) as [Hok Hrf].
    eapply step_stay_ok; [done|exact Hi|done|]. exists e. split; [done|]. split; [done|]. apply pread_ok; [done| |done]. rewrite Hrf. eapply holders_pos; [exact Hi|]. cbn. by apply bool_decide_eq_true.
  - eapply step_stay_ok; [done|exact Hi|done|]. destruct (Hk i _ Hi) as (e & He & Hst & _). by exists e.
  - eapply step_stay_ok; [done|exact Hi|done|]. exact (Hk i _ Hi).
  - eapply step_stay_ok; [done|exact Hi|done|]. exact (Hk i _ Hi).
  - by apply (step_release_ok s i (Holding p pos) Gone p e).
  - by apply cleanup_ok.
Qed.

Lemma start_ok : sys_ok S3PackCache.start.
Proof.
  split; [split|]; cbn; try (intros ? ? Hx; by rewrite lookup_empty in Hx). by intros p _.
Qed.
Lemma steps_ok s s' : rtc step s s' -> sys_ok s -> sys_ok s'.
Proof. induction 1 as [|s1 s2 s3 Hst _ IH]; [done|]. intros Hs. apply IH. by eapply stream_step_ok. Qed.
Lemma stream_reachable_ok s : reachable s -> sys_ok s.
Proof. intros Hr. exact (steps_ok _ _ Hr start_ok). Qed.

(** Where a download is under way. *)
Definition under_way (ph : pump_phase) : bool :=
  match ph with Reading _ | Wrote _ _ _ | Drained | WClosed | Failing _ | Unmapped _ => true | _ => false end.

(** C35: Reading a pack while it is streamed is reading the pack. Whatever openers,
    downloads, evictions, failures, closes and clean-ups are interleaved, a [ReadAt]
    that answers without an error gives exactly the bytes asked for, a [Read] a
    non-empty part of what follows its position, and the end of the file is reported
    where the pack ends, with all the bytes that were left; another error is the
    download's, or a closed descriptor's when the download failed or the cache was
    cleaned up: an eviction never takes a file from its readers. A read that waits
    waits for a download that is under way. *)
Theorem streamed_reads_are_genuine s (Hr : reachable s) :
  (forall i p pos k r, callers s !! i = Some (Answered p pos k r) -> exists e, heap (cache s) !! p = Some e /\ answer_ok (cleaned s) e pos k r) /\
  (forall i p pos k, callers s !! i = Some (Holding p pos) -> 0 <= wanted k ->
    exists e, heap (cache s) !! p = Some e /\ (decide_call e pos k = None -> under_way (e_phase e) = true)).
Proof.
  apply stream_reachable_ok in Hr as Hs. destruct Hs as [Hc Hk]. split.
  - intros i p pos k r Hi. destruct (Hk i _ Hi) as (e & He & _ & Ha). by exists e.
  - intros i p pos k Hi Hw. destruct (Hk i _ Hi) as (e & He & Hst). exists e. split; [done|]. intros Hd. destruct (entries_ok _ _ _ Hc p e He) as [[Hdata _] _].
    pose proof (decide_ok (cleaned s) e pos k Hdata Hw) as Hn. rewrite Hd in Hn. destruct Hn as [Hn1 Hn2]. destruct Hdata as (_ & _ & _ & _ & _ & _ & Hph). unfold phase_ok in Hph.
    destruct (e_phase e); try done; try (by rewrite Hn2 in Hph). destruct Hph; congruence.
Qed.

(** The first to open a pack runs its start. *)
Definition first_open (i : nat) (key : bytes) (sz : Z) (s : Sys) : Sys :=
  let p := fresh (cache s) in
  let s1 := move i (Opening p) (snd (acquire key (cache s))) s in
  let s2 := move i (Running p) (set_entry p (to_phase Starting) (cache s1)) s1 in
  let s3 := pump (set_entry p (installed sz) (cache s2)) s2 in
  move i (Checking p) (reserve maxBytes content p (cache s3)) s3.
Lemma first_open_steps i key sz s : callers s !! i = None -> entries (cache s) !! key = None -> sz = -1 \/ sz = blen (content key) -> rtc step s (first_open i key sz s).
Proof.
  intros Hi Hk Hsz. set (p := fresh (cache s)). set (e0 := {| e_key := key; e_path := false; e_wfd := false; e_closed := false; e_file := []; e_win := []; e_winStart := 0; e_n := 0; e_size := -1;
    e_done := false; e_err := None; e_used := u64 (seq (cache s) + 1); e_refs := 1; e_reserved := 0; e_evicted := false; e_phase := NotStarted |}).
  assert (Ha : exists c, acquire key (cache s) = (p, c) /\ heap c !! p = Some e0) by (unfold acquire; rewrite Hk; eexists; split; [done|]; cbn; by rewrite lookup_insert_eq).
  destruct Ha as (c & Ha & Hc). unfold first_open. fold p. rewrite Ha. cbn [snd].
  eapply rtc_l; [by apply (step_open maxBytes content s i key p c)|]. eapply rtc_l; [apply (step_once _ _ _ i p e0); [cbn; by rewrite lookup_insert_eq|exact Hc|done]|].
  eapply rtc_l; [apply (step_installed _ _ _ i p (to_phase Starting e0) sz); [cbn; by rewrite lookup_insert_eq|cbn; by rewrite lookup_alter_eq, Hc|done|exact Hsz]|].
  apply rtc_once. apply (step_reserve _ _ _ i p (installed sz (to_phase Starting e0))); [cbn; by rewrite lookup_insert_eq|cbn; by rewrite !lookup_alter_eq, Hc|done].
Qed.
End spec.

(** ** Two packs for the witnesses *)

Definition toy_content (key : bytes) : bytes := if bool_decide (key = bs "a") then bs "0123456789" else bs "abcdefghij".
Abbreviation toy_open := (first_open 15 toy_content).
Lemma toy_reaches s s' : S3PackCache.reachable 15 toy_content s -> S3PackCache.step 15 toy_content s s' -> S3PackCache.reachable 15 toy_content s'.
Proof. intros Hr Hs. by eapply rtc_r. Qed.
#[local] Ltac computed := vm_compute; reflexivity.

(** A reader of what has arrived so far. *)
Definition toy1 : Sys := toy_open 0 (bs "a") 10 S3PackCache.start.
Definition toy2 : Sys := move 0 (Holding 0 0) (cache toy1) toy1.
Definition toy3 : Sys := pump (set_entry 0 (fun e => to_phase (Wrote (bs "01234567") (bs "89") None) (append_file (bs "01234567") e)) (cache toy2)) toy2.
Definition toy4 : Sys := pump (set_entry 0 (fun e => to_phase (Reading (bs "89")) (announce (bs "01234567") e)) (cache toy3)) toy3.
Definition toy5 : Sys := move 0 (Answered 0 0 (CReadAt 4 3) (bs "3456", None)) (cache toy4) toy4.

Lemma toy1_reachable : S3PackCache.reachable 15 toy_content toy1.
Proof. apply first_open_steps; [computed|computed|by right]. Qed.
Lemma toy5_reachable : S3PackCache.reachable 15 toy_content toy5.
Proof.
  apply (toy_reaches toy4); [apply (toy_reaches toy3); [apply (toy_reaches toy2); [apply (toy_reaches toy1); [apply toy1_reachable|]|]|]|].
  - eapply (step_opened 15 toy_content toy1 0 0); computed.
  - eapply (step_read 15 toy_content toy2 0 _ (bs "01234567") (bs "89") None); [computed|computed|by intros _|done].
  - eapply (step_announce 15 toy_content toy3 0 _ (bs "01234567") (bs "89") None); computed.
  - eapply (step_answer 15 toy_content toy4 0 0 0 _ (CReadAt 4 3)); [computed|computed|done|done|computed].
Qed.

Lemma streamed_reads_are_genuine_witness : exists e, heap (cache toy5) !! 0%nat = Some e /\ answer_ok toy_content (cleaned toy5) e 0 (CReadAt 4 3) (bs "3456", None).
Proof. apply (proj1 (streamed_reads_are_genuine 15 toy_content toy5 toy5_reachable) 0%nat 0%nat 0 (CReadAt 4 3) (bs "3456", None)). computed. Defined.

(** A download that fails after its entry was evicted gives its reservation back a
    second time: the cache holds ten bytes and accounts for none. *)
Definition twice1 : Sys := toy_open 1 (bs "b") 10 toy1.
Definition twice2 : Sys := pump (set_entry 0 (fun e => to_phase (Failing Errorf) (append_file [] e)) (cache twice1)) twice1.
Definition twice3 : Sys := pump (set_entry 0 (to_phase (Unmapped Errorf)) (drop_mapped 0 (cache twice2))) twice2.
Definition twice4 : Sys := pump (set_entry 0 (fun e => to_phase (Releasing (e_reserved e)) (fail_entry Errorf e)) (cache twice3)) twice3.
Definition twice5 : Sys := pump (set_entry 0 (fun e => to_phase (Refunding 10) (closeRead e)) (cache twice4)) twice4.
Definition twice6 : Sys := pump (set_entry 0 (to_phase Stopped) (set_map (entries (cache twice5)) (curBytes (cache twice5) - 10) (cache twice5))) twice5.

Example refunded_twice : S3PackCache.reachable 15 toy_content twice6 /\ entries (cache twice6) !! bs "b" = Some 1%nat /\ (e_reserved <$> heap (cache twice6) !! 1%nat) = Some 10 /\ curBytes (cache twice6) = 0.
Proof.
  split; [|split; [computed|split; computed]].
  apply (toy_reaches twice5); [apply (toy_reaches twice4); [apply (toy_reaches twice3); [apply (toy_reaches twice2); [apply (toy_reaches twice1)|]|]|]|].
  - unfold S3PackCache.reachable. etrans; [apply toy1_reachable|]. apply first_open_steps; [computed|computed|by right].
  - eapply (step_read 15 toy_content twice1 0 _ [] (bs "0123456789") (Some Errorf)); [computed|computed|done|done].
  - eapply (step_unmap 15 toy_content twice2 0); computed.
  - eapply (step_fail 15 toy_content twice3 0); computed.
  - eapply (step_release 15 toy_content twice4 0); computed.
  - eapply (step_refund 15 toy_content twice5 0); computed.
Qed.
